(* ===== verification/_CoqProject ===== *)
-Q . S2P
Prelude.v
Words.v
Bits.v
Uint128.v
Uint128Div.v
Int128.v
CivilTime.v
Duration.v
Vec.v
Cache.v
CircularQueue.v
BoundedQueue.v
BitArray.v
FlatMap.v
Pcg.v
FastBits.v
UniformInt.v
Endian.v
Encoding.v
Digest.v
Sha256.v
Sha1.v
Md5.v
Ascii.v
Match.v
NumFormat.v
NumParse.v
CEscape.v
EscapeGrammar.v
Base64.v
Loops.v
Crc.v
Crc32c.v
CrcCord.v
Levenshtein.v
MpscQueue.v
BigUnsigned.v
BigMul.v
BigPow.v
BigText.v
BigRead.v
BigSpec.v
