(* ===== verification/Prelude.v ===== *)
(** * Turbo: a verification library for the kumose/turbo C++ base library

    Turbo (src/turbo) is a base library for C++ programs: integers, time, containers, random
    numbers, strings, synchronization, files. Its parts call each other through headers and
    share no global state, so they are modelled one by one, each in the file named below; the
    calls between them are calls between the files. This development models the parts whose logic is their own:
    number representations, containers, calendars, random engines, encodings and hashes.

    ** Conventions

    A machine integer is a [Z] with its width written out: [wrap w] and [swrap w] reduce to the unsigned
    and signed type of [w] bits, [uadd], [usub], [umul], [ushl] and [ushr] are the unsigned
    operations, and [chk w] (and the [+?] family in CivilTime.v) is a signed operation whose
    overflow is undefined behaviour. Undefined behaviour, an abort and a loop without end are
    the value [None] of a partial operation; that an operation of a well-formed object is never
    [None] is part of its theorem. Objects are records with the fields of the class, methods take and
    return them. What a class takes as a template argument (comparators, hash functions, policies, generators)
    or calls outside src/ (malloc, the compiler's bit builtins) is a section variable or a
    class, with its documented behaviour as a law.

    ** Files

    - Prelude.v, Words.v: tactics, bit lemmas, machine integers.
    - Bits.v: numeric/bits.h and numeric/internal/bits.h. Rotations, counts of zeros and ones,
      powers of two, against their definitions by [Z.testbit] and [Z.log2].
    - Uint128.v, Uint128Div.v: numeric/int128.h, numeric/int128.cc. [uint128] as two words: every
      operator against arithmetic modulo 2^128 ([u128_is]), both branches of the header; long
      division, and printing in three bases with a parser as its inverse.
    - Int128.v: numeric/int128_no_intrinsic.inc. [int128] in the same way, with the inputs for which its
      additive operators overflow.
    - CivilTime.v: times/cctz/civil_time_detail.h. Normalisation of arbitrary fields against a count of
      days and seconds, the six granularities, differences, weekdays; every loop ends.
    - Duration.v: times/time.h, times/duration.cc, times/time.cc. Durations of 96 bits against a number
      of quarter nanoseconds with two infinities: saturation, scaling, division, rounding, conversions.
    - Vec.v: arrays indexed by machine integers, and the ring layout of the two queues.
    - Cache.v: container/cache. The cache is written against the class [CachePolicy] and proved
      against its contract [CachePolicySpec]; LRU, FIFO, LFU and no replacement discharge it.
    - CircularQueue.v, BoundedQueue.v: container/circular_queue.h, container/bounded_queue.h. Ring
      buffers against lists, the second with objects constructed and destroyed in raw memory.
    - BitArray.v, FlatMap.v: container/internal/bit_array.h, container/flat_map.h and
      container/flat_map_inl.h. The chained hash table, dense or sparse, with unique or
      repeated keys, against a finite map; when a table grows and how far, iteration, assignment,
      and the saved positions of the one kind of map that they compile for.
    - Pcg.v: random/internal/pcg_engine.h. Stepping, seeking in logarithmic time, streaming, the full
      period of both engines; the state type is the class [StateType] with two instances.
    - FastBits.v, UniformInt.v: random/internal/fast_uniform_bits.h, wide_multiply.h, fastmath.h,
      random/uniform_int_distribution.h, uniform_helper.h, distributions.h. From any generator (the class [URBG]) to
      uniform words and to integers of an interval without bias.
    - Endian.v: base/endian.h and base/internal/unaligned_access.h. Byte swaps, conversions, loads and
      stores, on hosts of both byte orders (the argument [little]), against little-endian digits.
    - Encoding.v: strings/encoding.h and encoding.cc. Fixed-width, sized and variable-length encodings:
      round trips, rejection of short input, and the order of the encodings under [memcmp].
    - Digest.v, Sha256.v, Sha1.v, Md5.v: crypto. The unrolled block functions against those of
      FIPS 180-4 and RFC 1321, with the constants of SHA-256 and MD5 computed from their definitions (cube and square
      roots of primes, sines); the buffering of a stream of updates (shared by the two SHA classes in Digest.v)
      against the hash of the whole message.
    - Ascii.v, Match.v: strings/ascii.h, ascii.cc, match.cc and internal/memutil.cc. Character tables, case, trimming,
      comparison without case, and common prefixes found eight bytes at a time.
    - NumFormat.v, NumParse.v: strings/numbers.h and numbers.cc. Decimal text of integers, several digits at a time by
      multiplication and masks, against the decimal expansion; parsing in every base against a grammar of numerals,
      with overflow; both are inverse to each other.
    - CEscape.v, EscapeGrammar.v, Base64.v: strings/escaping.cc, internal/escaping.cc, internal/utf8.cc. C escapes decoded
      in memory, possibly in place, against an inductive grammar written apart from the decoder (EscapeGrammar.v), and four
      encoders inverted by the decoder; Base64 with its fast path against a decoder of single characters and the set of
      texts accepted; hexadecimal text.
    - Loops.v: [while] loops with fuel and their rules, shared by the files below.
    - Crc.v, Crc32c.v: crypto/internal/crc.cc, crc_internal.h, crc32c_inline.h, crc_memcpy_fallback.cc and crypto/crc32c.cc.
      The tables of CRC-32C, the interleaved loop over words, extension by zeroes and its inverse, and the arithmetic of
      checksums, against bitwise division; linear functions over exclusive or are the common tool.
    - CrcCord.v: crypto/internal/crc_cord_state.cc. Reference-counted records, copied on write, refine plain values; the
      class [Checksums] is what it needs of Crc32c.v.
    - Levenshtein.v: strings/internal/damerau_levenshtein_distance.cc. The band of the table computes the distance of the
      recursion over the strings, cut off.
    - MpscQueue.v: container/mpsc_queue.h. A step relation on the shared state of any number of producers and one
      consumer, under the assumption of sequential consistency, which the code's weaker orderings do not give; an
      invariant over all such interleavings gives first-in first-out order, the absence of bad accesses and, without
      producers, the end of each call.
    - BigUnsigned.v, BigMul.v, BigPow.v, BigText.v, BigRead.v, BigSpec.v: strings/internal/charconv_bigint.h and .cc. The
      fixed-width large integers of the number parser: words, carries and sizes against arithmetic modulo a power of two,
      the reading of digits with a sticky last digit, and decimal text; BigSpec.v states the contract.

    ** Theorems

    The theorems named C1 to C40 are the properties; the others are lemmas. They are refinements of
    an abstract object (FlatMap, Cache, the queues, Duration, uint128), functional
    behaviour on every branch, termination of the loops (CivilTime, division, advance), bounds and overflow
    of machine integers, round trips (printing, encodings, streams, conversions),
    equivalence with standards (SHA-2, SHA-1, MD5), and the inputs on which the code
    does not do what it means to (iteration of small sparse maps, the first-bit search, int128
    addition, limits of the bounded queue, SHA-256 of messages of 2^29 bytes or more). Each property with hypotheses is followed by a witness that applies it
    to a concrete object.

    ** Fuel

    The only recursions with fuel are loops whose bound is proved in the theorem that uses them: 64 for the nested
    resizes of FlatMap (each doubles a table of at most 2^57 buckets) and for [advance] (one bit of the count a step),
    a few tens for the loops of [n_day], 128 for long division, the length of the map for iteration. The
    rejection loops of the random distributions may in truth not end: their theorems suppose that any
    [fuel] successive draws have an acceptable one.

    ** Not modelled

    Floating point (so the real distributions, [Duration] by [double], [charconv]); system calls, files, clocks,
    threads (but for MpscQueue.v, which supposes sequential consistency), weaker memory orderings and logging; flags and their global registries; the Randen engine (vector
    instructions); third-party code carried in the tree (croaring, HAT-trie); vector_map.h, which does not
    compile. Planned: time zones,
    formatting of times, Swiss tables, B-trees, cords. *)
From Stdlib Require Export ZArith Lia Bool.
From stdpp Require Export base list numbers option.

#[global] Open Scope Z_scope.

(** ** Automation *)

(** Linear arithmetic with [Z.div], [Z.modulo], [Z.quot] and [Z.rem] turned into
    equations first. *)
Ltac zlia := Z.to_euclidean_division_equations; lia.

(** Case analysis on the boolean comparisons of the goal, with the arithmetic
    fact recorded by [lia]-friendly hypotheses. *)
Ltac zcases :=
  repeat match goal with
  | |- context [Z.ltb ?a ?b] => destruct (Z.ltb_spec a b)
  | |- context [Z.leb ?a ?b] => destruct (Z.leb_spec a b)
  | |- context [Z.eqb ?a ?b] => destruct (Z.eqb_spec a b)
  | |- context [Z.gtb ?a ?b] => rewrite (Z.gtb_ltb a b)
  | |- context [Z.geb ?a ?b] => rewrite (Z.geb_leb a b)
  end.

(** The same in a hypothesis. *)
Ltac zcases_in H :=
  repeat match type of H with
  | context [Z.ltb ?a ?b] => destruct (Z.ltb_spec a b)
  | context [Z.leb ?a ?b] => destruct (Z.leb_spec a b)
  | context [Z.eqb ?a ?b] => destruct (Z.eqb_spec a b)
  end.

(** Open an [option]-bind chain in a hypothesis. *)
Ltac bind_inv H :=
  repeat match type of H with
  | (?o ≫= _) = Some _ => let E := fresh "E" in destruct o eqn:E; [simpl in H | discriminate H]
  end.

(** ** Exhaustive checks over a finite range of [Z] *)

Definition zrange (n : nat) : list Z := Z.of_nat <$> seq 0 n.

Lemma zrange_forall (P : Z -> bool) (n : nat) :
  forallb P (zrange n) = true -> forall x, 0 <= x < Z.of_nat n -> P x = true.
Proof.
  intros H x Hx. rewrite forallb_forall in H. apply H.
  unfold zrange. rewrite <- list_elem_of_In, list_elem_of_fmap.
  exists (Z.to_nat x). split; [lia | apply elem_of_seq; lia].
Qed.

(** ** Bit-level reasoning on [Z] *)

Create Rewrite HintDb zbit.

Lemma testbit_shiftl a n i : 0 <= i -> Z.testbit (Z.shiftl a n) i = Z.testbit a (i - n).
Proof. intros. by apply Z.shiftl_spec. Qed.

Lemma testbit_shiftr a n i : 0 <= i -> Z.testbit (Z.shiftr a n) i = Z.testbit a (i + n).
Proof. intros. by apply Z.shiftr_spec. Qed.

Lemma testbit_mod_pow2 a n i : 0 <= n -> Z.testbit (a mod 2 ^ n) i = (i <? n) && Z.testbit a i.
Proof.
  intros. destruct (Z.ltb_spec i n); simpl.
  - by apply Z.mod_pow2_bits_low.
  - by apply Z.mod_pow2_bits_high.
Qed.

Lemma testbit_ones n i : 0 <= n -> 0 <= i -> Z.testbit (Z.ones n) i = (i <? n).
Proof.
  intros. destruct (Z.ltb_spec i n).
  - apply Z.ones_spec_low; lia.
  - apply Z.ones_spec_high; lia.
Qed.

Lemma testbit_lnot a i : 0 <= i -> Z.testbit (Z.lnot a) i = negb (Z.testbit a i).
Proof. intros. by apply Z.lnot_spec. Qed.

Lemma testbit_pow2 n i : 0 <= n -> Z.testbit (2 ^ n) i = (n =? i).
Proof. intros. by apply Z.pow2_bits_eqb. Qed.

(** A bounded number has no bit above its width. *)
Lemma testbit_bounded x n i : 0 <= x < 2 ^ n -> n <= i -> Z.testbit x i = false.
Proof.
  intros Hx Hi.
  assert (0 <= n). { destruct (Z.le_gt_cases 0 n); [done|]. rewrite Z.pow_neg_r in Hx; lia. }
  rewrite <- (Z.mod_small x (2 ^ n)) by lia. by apply Z.mod_pow2_bits_high.
Qed.

#[export] Hint Rewrite Z.land_spec Z.lor_spec Z.lxor_spec Z.ldiff_spec Z.testbit_0_l : zbit.
#[export] Hint Rewrite testbit_shiftl testbit_shiftr testbit_mod_pow2 testbit_ones testbit_lnot
  testbit_pow2 using lia : zbit.

(** One step on the bit positions left in the goal: a position outside the range
    of a bounded variable of the context reads [false]; otherwise decide on which
    side of the bound it lies. *)
Ltac zbit_step :=
  match goal with
  | |- context [Z.testbit ?x ?j] => rewrite (Z.testbit_neg_r x j) by lia
  | H : 0 <= ?x < 2 ^ ?n |- context [Z.testbit ?x ?j] =>
      rewrite (testbit_bounded x n j H) by lia
  | |- context [Z.testbit ?x ?j] =>
      assert_fails (assert (0 <= j) by lia); destruct (Z.lt_ge_cases j 0)
  | H : 0 <= ?x < 2 ^ ?n |- context [Z.testbit ?x ?j] =>
      assert_fails (assert (j < n) by lia); destruct (Z.lt_ge_cases j n)
  end.

(** Bitwise equality of two expressions: extensionality, the [zbit] equations,
    case analysis on the positions, then booleans. *)
Ltac zbits_goal :=
  autorewrite with zbit; zcases; repeat zbit_step; simpl;
  rewrite ?andb_false_r, ?andb_true_r, ?orb_false_r, ?orb_true_r, ?xorb_false_r; try lia;
  try reflexivity; try (f_equal; lia); try (f_equal; f_equal; lia).

Ltac zbits :=
  apply Z.bits_inj'; let i := fresh "i" in let Hi := fresh "Hi" in
  intros i Hi; zbits_goal.

(** Disjoint bit sets add up. *)
Lemma lor_add a b : Z.land a b = 0 -> Z.lor a b = a + b.
Proof.
  intros H. rewrite <- Z.lxor_lor by done. symmetry. by apply Z.add_nocarry_lxor.
Qed.

(** Placing a number below a shifted one is addition. *)
Lemma lor_shiftl_add h l n : 0 <= n -> 0 <= l < 2 ^ n -> Z.lor (h * 2 ^ n) l = h * 2 ^ n + l.
Proof.
  intros Hn Hl. apply lor_add. rewrite <- Z.shiftl_mul_pow2 by done.
  zbits.
Qed.

(** Testing a bit of [h * 2^n + l]. *)
Lemma testbit_hi_lo h l n i : 0 <= n -> 0 <= i -> 0 <= l < 2 ^ n ->
  Z.testbit (h * 2 ^ n + l) i = if i <? n then Z.testbit l i else Z.testbit h (i - n).
Proof.
  intros Hn Hi Hl. rewrite <- lor_shiftl_add by done.
  rewrite <- Z.shiftl_mul_pow2 by done.
  zbits_goal.
Qed.

(** ** Folding loops with fuel *)

(** [for_loop n f s] runs [f] on [i = 0 .. n-1] in order. *)
Fixpoint for_loop {S : Type} (n : nat) (f : S -> S) (s : S) : S :=
  match n with
  | O => s
  | Datatypes.S n' => for_loop n' f (f s)
  end.

(** A loop invariant indexed by the number of iterations done. *)
Lemma for_loop_ind {S : Type} (I : nat -> S -> Prop) (f : S -> S) n s :
  I O s -> (forall k s', (k < n)%nat -> I k s' -> I (Datatypes.S k) (f s')) ->
  I n (for_loop n f s).
Proof.
  revert I s. induction n as [|n IH]; intros I s H0 HS; [done|].
  simpl. apply (IH (fun k => I (Datatypes.S k))).
  - apply HS; [lia|done].
  - intros k s' Hk. apply HS. lia.
Qed.
