(* ===== verification/Words.v ===== *)
(** * Fixed-width machine integers

    The C++ integer types used by the modelled code: [uintN_t] values are [Z] in
    [0, 2^N), [intN_t] values are [Z] in [-2^(N-1), 2^(N-1)).  Unsigned arithmetic
    wraps around; signed arithmetic that leaves the range of its type is undefined
    behaviour, which the models render as [None]. *)
From S2P Require Import Prelude.

(** Conversion to an unsigned type of width [w] ([static_cast<uintw_t>]). *)
Definition wrap (w z : Z) : Z := z mod 2 ^ w.

(** Conversion to a signed type of width [w], two's complement
    ([static_cast<intw_t>], the bit casts). *)
Definition swrap (w z : Z) : Z := (z + 2 ^ (w - 1)) mod 2 ^ w - 2 ^ (w - 1).

Definition is_u (w z : Z) : bool := (0 <=? z) && (z <? 2 ^ w).
Definition is_s (w z : Z) : bool := (- 2 ^ (w - 1) <=? z) && (z <? 2 ^ (w - 1)).

(** Unsigned operators of width [w]. *)
Definition uadd (w a b : Z) : Z := wrap w (a + b).
Definition usub (w a b : Z) : Z := wrap w (a - b).
Definition umul (w a b : Z) : Z := wrap w (a * b).
Definition unot (w a : Z) : Z := wrap w (Z.lnot a).
Definition ushl (w a n : Z) : Z := wrap w (Z.shiftl a n).
Definition ushr (a n : Z) : Z := Z.shiftr a n.

(** A signed result of width [w]: [None] is signed overflow. *)
Definition chk (w z : Z) : option Z := if is_s w z then Some z else None.
Definition sadd (w a b : Z) : option Z := chk w (a + b).
Definition ssub (w a b : Z) : option Z := chk w (a - b).
Definition smul (w a b : Z) : option Z := chk w (a * b).

(** [bool] as a number. *)
Definition b2z (b : bool) : Z := if b then 1 else 0.

(** 64-bit unsigned operators, as the code writes them. *)
Declare Scope u64_scope.
Delimit Scope u64_scope with u64.
Notation "a ⊕ b" := (uadd 64 a b) (at level 50, left associativity) : u64_scope.
Notation "a ⊖ b" := (usub 64 a b) (at level 50, left associativity) : u64_scope.
Notation "a ⊗ b" := (umul 64 a b) (at level 40, left associativity) : u64_scope.

Create HintDb words.

Lemma is_u_spec w z : is_u w z = true <-> 0 <= z < 2 ^ w.
Proof. unfold is_u. rewrite andb_true_iff, Z.leb_le, Z.ltb_lt. done. Qed.

Lemma is_s_spec w z : is_s w z = true <-> - 2 ^ (w - 1) <= z < 2 ^ (w - 1).
Proof. unfold is_s. rewrite andb_true_iff, Z.leb_le, Z.ltb_lt. done. Qed.

Lemma wrap_range w z : 0 <= w -> 0 <= wrap w z < 2 ^ w.
Proof. intros. apply Z.mod_pos_bound. lia. Qed.

Lemma wrap_small w z : 0 <= z < 2 ^ w -> wrap w z = z.
Proof. apply Z.mod_small. Qed.

Lemma wrap_wrap w z : 0 <= w -> wrap w (wrap w z) = wrap w z.
Proof. intros. apply wrap_small, wrap_range. done. Qed.

(** [wrap] is compatible with the ring operations. *)
Lemma wrap_add_l w a b : 0 <= w -> wrap w (wrap w a + b) = wrap w (a + b).
Proof. intros. unfold wrap. apply Zplus_mod_idemp_l. Qed.
Lemma wrap_add_r w a b : 0 <= w -> wrap w (a + wrap w b) = wrap w (a + b).
Proof. intros. unfold wrap. apply Zplus_mod_idemp_r. Qed.
Lemma wrap_mul_l w a b : 0 <= w -> wrap w (wrap w a * b) = wrap w (a * b).
Proof. intros. unfold wrap. apply Zmult_mod_idemp_l. Qed.
Lemma wrap_mul_r w a b : 0 <= w -> wrap w (a * wrap w b) = wrap w (a * b).
Proof. intros. unfold wrap. apply Zmult_mod_idemp_r. Qed.
Lemma wrap_sub_l w a b : 0 <= w -> wrap w (wrap w a - b) = wrap w (a - b).
Proof. intros. unfold wrap. apply Zminus_mod_idemp_l. Qed.
Lemma wrap_sub_r w a b : 0 <= w -> wrap w (a - wrap w b) = wrap w (a - b).
Proof. intros. unfold wrap. apply Zminus_mod_idemp_r. Qed.

(** Adding a multiple of the modulus changes nothing. *)
Lemma wrap_shift w z k : 0 <= w -> wrap w (z + k * 2 ^ w) = wrap w z.
Proof. intros. unfold wrap. apply Z_mod_plus_full. Qed.

(** Two numbers with the same residue differ by a multiple of the modulus. *)
Lemma wrap_eq_intro w a b k : 0 <= w -> a = b + k * 2 ^ w -> wrap w a = wrap w b.
Proof. intros ? ->. by apply wrap_shift. Qed.

(** The value of a narrower part of a wrapped number. *)
Lemma wrap_wrap_narrow v w z : 0 <= v <= w -> wrap v (wrap w z) = wrap v z.
Proof.
  intros. unfold wrap. apply Z.mod_mod_divide.
  exists (2 ^ (w - v)). rewrite <- Z.pow_add_r by lia. f_equal. lia.
Qed.

(** Congruence modulo [2^w]: the equivalence under which machine arithmetic is a
    ring, with the instances that let [rewrite] remove inner reductions. *)
Definition cong (w a b : Z) : Prop := wrap w a = wrap w b.

#[export] Instance cong_equivalence w : Equivalence (cong w).
Proof. unfold cong. split; repeat intro; congruence. Qed.

Lemma wrap_cong w z : cong w (wrap w z) z.
Proof. apply Zmod_mod. Qed.

#[export] Instance cong_add w : Proper (cong w ==> cong w ==> cong w) Z.add.
Proof.
  intros a a' Ha b b' Hb. unfold cong, wrap in *.
  by rewrite (Zplus_mod a), (Zplus_mod a'), Ha, Hb.
Qed.
#[export] Instance cong_sub w : Proper (cong w ==> cong w ==> cong w) Z.sub.
Proof.
  intros a a' Ha b b' Hb. unfold cong, wrap in *.
  by rewrite (Zminus_mod a), (Zminus_mod a'), Ha, Hb.
Qed.
#[export] Instance cong_mul w : Proper (cong w ==> cong w ==> cong w) Z.mul.
Proof.
  intros a a' Ha b b' Hb. unfold cong, wrap in *.
  by rewrite (Zmult_mod a), (Zmult_mod a'), Ha, Hb.
Qed.
#[export] Instance cong_opp w : Proper (cong w ==> cong w) Z.opp.
Proof. intros a a' Ha. rewrite <- (Z.sub_0_l a), <- (Z.sub_0_l a'). by rewrite Ha. Qed.
#[export] Instance wrap_proper w : Proper (cong w ==> eq) (wrap w).
Proof. by intros a b. Qed.

Lemma cong_intro w a b k : a = b + k * 2 ^ w -> cong w a b.
Proof. intros ->. apply Z_mod_plus_full. Qed.

(** Congruence of machine expressions: drop every inner reduction, then ring. *)
Ltac cong_strip := unfold uadd, usub, umul; repeat rewrite wrap_cong.

Lemma swrap_range w z : 0 < w -> - 2 ^ (w - 1) <= swrap w z < 2 ^ (w - 1).
Proof.
  intros. unfold swrap. pose proof (Z.mod_pos_bound (z + 2 ^ (w - 1)) (2 ^ w) ltac:(lia)).
  assert (2 ^ w = 2 * 2 ^ (w - 1)) by (rewrite <- Z.pow_succ_r by lia; f_equal; lia). lia.
Qed.

Lemma swrap_small w z : 0 < w -> - 2 ^ (w - 1) <= z < 2 ^ (w - 1) -> swrap w z = z.
Proof.
  intros. unfold swrap. assert (2 ^ w = 2 * 2 ^ (w - 1)) by (rewrite <- Z.pow_succ_r by lia; f_equal; lia).
  rewrite Z.mod_small by lia. lia.
Qed.

Lemma swrap_wrap w z : 0 < w -> swrap w (wrap w z) = swrap w z.
Proof. intros. unfold swrap, wrap. by rewrite Zplus_mod_idemp_l. Qed.

Lemma wrap_swrap w z : 0 < w -> wrap w (swrap w z) = wrap w z.
Proof.
  intros. unfold swrap, wrap. rewrite Zminus_mod_idemp_l. f_equal. lia.
Qed.

(** The signed reading of an unsigned value, by its top bit. *)
Lemma swrap_cases w z : 0 < w -> 0 <= z < 2 ^ w ->
  swrap w z = if z <? 2 ^ (w - 1) then z else z - 2 ^ w.
Proof.
  intros Hw Hz. assert (2 ^ w = 2 * 2 ^ (w - 1)) by (rewrite <- Z.pow_succ_r by lia; f_equal; lia).
  destruct (Z.ltb_spec z (2 ^ (w - 1))).
  - apply swrap_small; lia.
  - unfold swrap. replace (z + 2 ^ (w - 1)) with (z - 2 ^ (w - 1) + 1 * 2 ^ w) by lia.
    rewrite Z_mod_plus_full, Z.mod_small by lia. lia.
Qed.

Lemma unot_val w a : 0 <= w -> 0 <= a < 2 ^ w -> unot w a = 2 ^ w - 1 - a.
Proof.
  intros. unfold unot. rewrite (wrap_eq_intro w (Z.lnot a) (2 ^ w - 1 - a) (-1)).
  - apply wrap_small. lia.
  - lia.
  - unfold Z.lnot. lia.
Qed.

Lemma ushl_val w a n : 0 <= n -> ushl w a n = wrap w (a * 2 ^ n).
Proof. intros. unfold ushl. by rewrite Z.shiftl_mul_pow2. Qed.

Lemma ushr_val a n : 0 <= n -> ushr a n = a / 2 ^ n.
Proof. intros. unfold ushr. by apply Z.shiftr_div_pow2. Qed.

Lemma ushr_range w a n : 0 <= n -> 0 <= a < 2 ^ w -> 0 <= ushr a n < 2 ^ w.
Proof.
  intros. rewrite ushr_val by done. split; [apply Z.div_pos; lia|].
  assert (a / 2 ^ n <= a); [|lia]. apply Z.div_le_upper_bound; [lia|].
  assert (1 <= 2 ^ n) by (pose proof (Z.pow_pos_nonneg 2 n); lia). nia.
Qed.

(** Bitwise operators stay in range. *)
Lemma land_range w a b : 0 <= w -> 0 <= a < 2 ^ w -> 0 <= Z.land a b < 2 ^ w.
Proof.
  intros. assert (Z.land a b = wrap w (Z.land a b)) as ->.
  { unfold wrap. zbits. }
  by apply wrap_range.
Qed.

Lemma land_range_r w a b : 0 <= w -> 0 <= b < 2 ^ w -> 0 <= Z.land a b < 2 ^ w.
Proof. intros. rewrite Z.land_comm. by apply land_range. Qed.

Lemma lor_range w a b : 0 <= w -> 0 <= a < 2 ^ w -> 0 <= b < 2 ^ w -> 0 <= Z.lor a b < 2 ^ w.
Proof.
  intros. assert (Z.lor a b = wrap w (Z.lor a b)) as ->.
  { unfold wrap. zbits. }
  by apply wrap_range.
Qed.

Lemma lxor_range w a b : 0 <= w -> 0 <= a < 2 ^ w -> 0 <= b < 2 ^ w -> 0 <= Z.lxor a b < 2 ^ w.
Proof.
  intros. assert (Z.lxor a b = wrap w (Z.lxor a b)) as ->.
  { unfold wrap. zbits. }
  by apply wrap_range.
Qed.

(** Checked signed arithmetic. *)
Lemma chk_Some w z : - 2 ^ (w - 1) <= z < 2 ^ (w - 1) -> chk w z = Some z.
Proof. intros H. unfold chk. apply is_s_spec in H. by rewrite H. Qed.

Lemma chk_inv w z r : chk w z = Some r -> r = z /\ - 2 ^ (w - 1) <= z < 2 ^ (w - 1).
Proof.
  unfold chk. destruct (is_s w z) eqn:E; [|done]. apply is_s_spec in E. intros [= <-]. auto.
Qed.

Lemma chk_None w z : chk w z = None <-> ~ (- 2 ^ (w - 1) <= z < 2 ^ (w - 1)).
Proof.
  unfold chk. rewrite <- is_s_spec. destruct (is_s w z); split; congruence.
Qed.

#[export] Hint Resolve wrap_range swrap_range ushr_range land_range lor_range lxor_range : words.
#[export] Hint Resolve land_range_r | 10 : words.

(** Side conditions of the word lemmas: literal widths and range facts. *)
#[export] Hint Extern 5 (_ <= _) => lia : words.
#[export] Hint Extern 5 (_ < _) => lia : words.
Ltac words := solve [ lia | eauto 6 with words ].
