(* ===== verification/Bits.v ===== *)
(** * Bit manipulation (numeric/bits.h, numeric/internal/bits.h)

    The portable branches of the bit-counting helpers, generic in the number of
    digits [w] of the unsigned type [T] where the source is a template. *)
From S2P Require Import Prelude Words.

(** ** Operations *)

Definition IsPowerOf2 (x : Z) : bool := negb (x =? 0) && (Z.land x (usub 32 x 1) =? 0).

(** The amount [s] is an [int] whose negation is one too, [rotation_amount]: [-s] is undefined for the
    least [int], so nothing is stated of a rotation by it. *)
Definition rotation_amount (s : Z) : bool := is_s 32 s && is_s 32 (- s).

Definition RotateRight (w x s : Z) : Z :=
  Z.lor (wrap w (ushr x (Z.land s (w - 1)))) (wrap w (Z.shiftl x (Z.land (- s) (w - 1)))).

Definition RotateLeft (w x s : Z) : Z :=
  Z.lor (wrap w (Z.shiftl x (Z.land s (w - 1)))) (wrap w (ushr x (Z.land (- s) (w - 1)))).

Definition Popcount32 (x : Z) : Z :=
  let x := usub 32 x (Z.land (ushr x 1) 0x55555555) in
  let x := uadd 32 (Z.land (ushr x 2) 0x33333333) (Z.land x 0x33333333) in
  ushr (umul 32 (Z.land (uadd 32 x (ushr x 4)) 0xF0F0F0F) 0x1010101) 24.

Definition Popcount64 (x : Z) : Z :=
  let x := usub 64 x (Z.land (ushr x 1) 0x5555555555555555) in
  let x := uadd 64 (Z.land (ushr x 2) 0x3333333333333333) (Z.land x 0x3333333333333333) in
  ushr (umul 64 (Z.land (uadd 64 x (ushr x 4)) 0x0F0F0F0F0F0F0F0F) 0x0101010101010101) 56.

Definition Popcount (w x : Z) : Z := if w <=? 32 then Popcount32 x else Popcount64 x.

(** The string literal indexed by the last nibble, with its terminating NUL. *)
Definition clz_table : list Z := [4; 3; 2; 2; 1; 1; 1; 1; 0; 0; 0; 0; 0; 0; 0; 0].

Definition clz_step (s : Z) (st : Z * Z) : Z * Z :=
  let '(x, zeroes) := st in
  if negb (ushr x s =? 0) then (ushr x s, zeroes - s) else (x, zeroes).

Definition CountLeadingZeroes32 (x : Z) : Z :=
  let '(x, zeroes) := clz_step 4 (clz_step 8 (clz_step 16 (x, 28))) in
  nth (Z.to_nat x) clz_table 0 + zeroes.

Definition CountLeadingZeroes16 (x : Z) : Z := CountLeadingZeroes32 x - 16.

Definition CountLeadingZeroes64 (x : Z) : Z :=
  let '(x, zeroes) := clz_step 4 (clz_step 8 (clz_step 16 (clz_step 32 (x, 60)))) in
  nth (Z.to_nat x) clz_table 0 + zeroes.

Definition CountLeadingZeroes (w x : Z) : Z :=
  if w <=? 16 then CountLeadingZeroes16 (wrap 16 x) - (16 - w)
  else if w <=? 32 then CountLeadingZeroes32 (wrap 32 x) - (32 - w)
  else CountLeadingZeroes64 x.

Definition ctz_mask (x mask d c : Z) : Z := if negb (Z.land x mask =? 0) then c - d else c.

Definition CountTrailingZeroesNonzero32 (x : Z) : Z :=
  let x := Z.land x (uadd 32 (unot 32 x) 1) in
  ctz_mask x 0x55555555 1 (ctz_mask x 0x33333333 2 (ctz_mask x 0x0F0F0F0F 4
    (ctz_mask x 0x00FF00FF 8 (ctz_mask x 0x0000FFFF 16 31)))).

Definition CountTrailingZeroesNonzero64 (x : Z) : Z :=
  let x := Z.land x (uadd 64 (unot 64 x) 1) in
  ctz_mask x 0x5555555555555555 1 (ctz_mask x 0x3333333333333333 2
    (ctz_mask x 0x0F0F0F0F0F0F0F0F 4 (ctz_mask x 0x00FF00FF00FF00FF 8
      (ctz_mask x 0x0000FFFF0000FFFF 16 (ctz_mask x 0x00000000FFFFFFFF 32 63))))).

Definition CountTrailingZeroesNonzero16 (x : Z) : Z := CountTrailingZeroesNonzero32 x.

Definition CountTrailingZeroes (w x : Z) : Z :=
  if x =? 0 then w
  else if w <=? 16 then CountTrailingZeroesNonzero16 (wrap 16 x)
  else if w <=? 32 then CountTrailingZeroesNonzero32 (wrap 32 x)
  else CountTrailingZeroesNonzero64 x.

(** [(T{1} << (x + promotion)) >> promotion]: for [w < 32] the shift is done on
    [int], otherwise on [T]; a shift by the whole width is undefined. *)
Definition BitCeilPromotionHelper (w x promotion : Z) : option Z :=
  let sh := x + promotion in
  if w <? 32 then
    if sh <? 32 then Some (wrap w (Z.shiftr (swrap 32 (Z.shiftl 1 sh)) promotion)) else None
  else if sh <? w then Some (wrap w (Z.shiftr (ushl w 1 sh) promotion)) else None.

Definition BitCeilNonPowerOf2 (w x : Z) : option Z :=
  BitCeilPromotionHelper w (wrap w (w - CountLeadingZeroes w x)) (if 32 <=? w then 0 else 32 - w).

Definition rotl := RotateLeft.
Definition rotr := RotateRight.
Definition countl_zero := CountLeadingZeroes.
Definition countl_one (w x : Z) : Z := countl_zero w (unot w x).
Definition countr_zero := CountTrailingZeroes.
Definition countr_one (w x : Z) : Z := countr_zero w (unot w x).
Definition popcount := Popcount.

Definition has_single_bit (w x : Z) : bool :=
  negb (x =? 0) && (Z.land x (usub w x 1) =? 0).
Definition bit_width (w x : Z) : Z := w - countl_zero w x.
Definition bit_floor (w x : Z) : Z := if x =? 0 then 0 else ushl w 1 (bit_width w x - 1).
Definition bit_ceil (w x : Z) : option Z :=
  if has_single_bit w x then Some (ushl w 1 (bit_width w x - 1)) else BitCeilNonPowerOf2 w x.

(** ** Specification *)

(** The digit counts of the unsigned types the templates accept. *)
Definition digits_ok (w : Z) : Prop := w = 8 \/ w = 16 \/ w = 32 \/ w = 64.

(** Number of set bits among the first [n]. *)
Fixpoint pcount (n : nat) (x : Z) : Z :=
  match n with
  | O => 0
  | S n' => b2z (Z.testbit x 0) + pcount n' (Z.div2 x)
  end.

(** Position of the lowest set bit. *)
Definition lowest_bit (x k : Z) : Prop :=
  0 <= k /\ Z.testbit x k = true /\ forall i, i < k -> Z.testbit x i = false.

(** ** Bytes of a word *)

Fixpoint unbytes (l : list Z) : Z :=
  match l with
  | [] => 0
  | b :: l => unbytes l * 2 ^ 8 + b
  end.

Fixpoint to_bytes (n : nat) (x : Z) : list Z :=
  match n with
  | O => []
  | S n' => x mod 2 ^ 8 :: to_bytes n' (x / 2 ^ 8)
  end.

Definition is_byte (b : Z) : Prop := 0 <= b < 2 ^ 8.

Lemma length_to_bytes n x : length (to_bytes n x) = n.
Proof. revert x. induction n; intros; simpl; auto. Qed.

Lemma to_bytes_bytes n x : Forall is_byte (to_bytes n x).
Proof. revert x. induction n; intros; simpl; constructor; auto. apply Z.mod_pos_bound. lia. Qed.

Lemma unbytes_to_bytes n x : 0 <= x < 2 ^ (8 * Z.of_nat n) -> unbytes (to_bytes n x) = x.
Proof.
  revert x. induction n as [|n IH]; intros x Hx; cbn [unbytes to_bytes].
  - simpl in Hx. lia.
  - rewrite IH.
    + pose proof (Z.div_mod x (2 ^ 8)). lia.
    + rewrite Nat2Z.inj_succ, Z.mul_succ_r, Z.pow_add_r in Hx by lia.
      split; [apply Z.div_pos; lia | apply Z.div_lt_upper_bound; lia].
Qed.

Lemma unbytes_range l : Forall is_byte l -> 0 <= unbytes l < 2 ^ (8 * Z.of_nat (length l)).
Proof.
  induction 1 as [|b l Hb _ IH]; [simpl; lia|].
  cbn [unbytes length]. unfold is_byte in Hb.
  rewrite Nat2Z.inj_succ, Z.mul_succ_r, Z.pow_add_r by lia. nia.
Qed.

(** A shift by less than the zero prefix of the mask acts byte by byte. *)
Lemma land_shiftr_bytes s y b m c : 0 <= s <= 8 -> is_byte b -> 0 <= c < 2 ^ (8 - s) ->
  Z.land (ushr (y * 2 ^ 8 + b) s) (m * 2 ^ 8 + c) =
  Z.land (ushr y s) m * 2 ^ 8 + Z.land (ushr b s) c.
Proof.
  unfold is_byte, ushr. intros Hs Hb Hc.
  assert (Hc8 : 0 <= c < 2 ^ 8).
  { pose proof (Z.pow_le_mono_r 2 (8 - s) 8). lia. }
  assert (Hl : 0 <= Z.land (Z.shiftr b s) c < 2 ^ 8) by (apply land_range_r; lia).
  apply Z.bits_inj'. intros i Hi.
  rewrite Z.land_spec, testbit_shiftr, !testbit_hi_lo by lia.
  autorewrite with zbit. zcases; simpl; try done; try lia.
  - rewrite (testbit_bounded c (8 - s) i Hc) by lia. by rewrite !andb_false_r.
  - rewrite testbit_shiftr by lia. do 2 f_equal. lia.
Qed.

(** ** Population count *)

(** One byte through the two masked additions of the SWAR count. *)
Definition pop8a (b : Z) : Z := b - Z.land (ushr b 1) 0x55.
Definition pop8b (b : Z) : Z := Z.land (ushr b 2) 0x33 + Z.land b 0x33.

Definition pop8 (b : Z) : Z := pop8b (pop8a b).

Lemma pop8_ok b : is_byte b ->
  is_byte (pop8a b) /\ is_byte (pop8 b) /\ pop8 b <= 0x44 /\ pop8 b mod 16 <= 4 /\
  Z.land (pop8 b + ushr (pop8 b) 4) 15 = pcount 8 b /\ 0 <= pcount 8 b <= 8.
Proof.
  intros Hb.
  pose proof (zrange_forall (fun b =>
     is_u 8 (pop8a b) && is_u 8 (pop8 b) && (pop8 b <=? 0x44) && (pop8 b mod 16 <=? 4) &&
     (Z.land (pop8 b + ushr (pop8 b) 4) 15 =? pcount 8 b) &&
     (0 <=? pcount 8 b) && (pcount 8 b <=? 8)) 256) as H.
  specialize (H ltac:(vm_compute; reflexivity) b Hb). cbv beta in H.
  rewrite !andb_true_iff, !is_u_spec, Z.eqb_eq, !Z.leb_le in H. unfold is_byte. tauto.
Qed.

Lemma pcount_byte n y b : is_byte b ->
  pcount (8 + n) (y * 2 ^ 8 + b) = pcount 8 b + pcount n y.
Proof.
  intros Hb.
  assert (G : forall k c z, 0 <= c < 2 ^ Z.of_nat k ->
     pcount (k + n) (z * 2 ^ Z.of_nat k + c) = pcount k c + pcount n z).
  { induction k as [|k IH]; intros c z Hc.
    - change (2 ^ Z.of_nat 0) with 1 in *. cbn [pcount Nat.add]. rewrite Z.add_0_l. f_equal. lia.
    - cbn [Nat.add pcount].
      replace (Z.div2 (z * 2 ^ Z.of_nat (S k) + c)) with (z * 2 ^ Z.of_nat k + Z.div2 c).
      + rewrite IH.
        * rewrite testbit_hi_lo by lia. zcases; lia.
        * rewrite Z.div2_div. rewrite Nat2Z.inj_succ, Z.pow_succ_r in Hc by lia. zlia.
      + rewrite !Z.div2_div, Nat2Z.inj_succ, Z.pow_succ_r by lia.
        replace (z * (2 * 2 ^ Z.of_nat k) + c) with (c + z * 2 ^ Z.of_nat k * 2) by ring.
        rewrite Z.div_add by lia. ring. }
  apply (G 8%nat). exact Hb.
Qed.

Definition sumZ (l : list Z) : Z := foldr Z.add 0 l.

Lemma pcount_unbytes l : Forall is_byte l ->
  pcount (8 * length l) (unbytes l) = sumZ (pcount 8 <$> l).
Proof.
  induction 1 as [|b l Hb _ IH]; [done|].
  cbn [length unbytes fmap list_fmap sumZ foldr].
  replace (8 * S (length l))%nat with (8 + 8 * length l)%nat by lia.
  rewrite pcount_byte by done. by rewrite IH.
Qed.

(** The masks of the count are a byte repeated. *)
Definition mask (n : nat) (c : Z) : Z := unbytes (replicate n c).

Lemma land_shiftr_mask s c l : 0 <= s <= 8 -> 0 <= c < 2 ^ (8 - s) -> Forall is_byte l ->
  Z.land (ushr (unbytes l) s) (mask (length l) c) = unbytes ((fun b => Z.land (ushr b s) c) <$> l).
Proof.
  intros Hs Hc. induction 1 as [|b l Hb _ IH].
  - unfold ushr. simpl. by rewrite Z.land_0_r.
  - unfold mask in *. cbn [length unbytes replicate fmap list_fmap].
    rewrite land_shiftr_bytes by done. by rewrite IH.
Qed.

Lemma unbytes_map2_add (f g : Z -> Z) (l : list Z) :
  unbytes (f <$> l) + unbytes (g <$> l) = unbytes ((fun b => f b + g b) <$> l).
Proof. induction l as [|b l IH]; rewrite ?fmap_cons; cbn [unbytes]; [done|lia]. Qed.

Lemma unbytes_map2_sub (f g : Z -> Z) (l : list Z) :
  unbytes (f <$> l) - unbytes (g <$> l) = unbytes ((fun b => f b - g b) <$> l).
Proof. induction l as [|b l IH]; rewrite ?fmap_cons; cbn [unbytes]; [done|lia]. Qed.

Lemma Forall_is_byte_map (f : Z -> Z) (l : list Z) : (forall b, is_byte b -> is_byte (f b)) ->
  Forall is_byte l -> Forall is_byte (f <$> l).
Proof. intros Hf. induction 1; constructor; auto. Qed.

(** The two stages of the count on a whole word, as byte maps. *)
Lemma pop_stage1 l : Forall is_byte l ->
  usub (8 * Z.of_nat (length l)) (unbytes l)
    (Z.land (ushr (unbytes l) 1) (mask (length l) 0x55)) = unbytes (pop8a <$> l).
Proof.
  intros Hl. rewrite land_shiftr_mask by (done || lia).
  unfold usub. rewrite <- (list_fmap_id l) at 2. rewrite unbytes_map2_sub.
  change (unbytes _) with (unbytes (pop8a <$> l)) at 1.
  apply wrap_small. rewrite <- (length_fmap pop8a l). apply unbytes_range.
  apply Forall_is_byte_map; [|done]. intros b Hb. apply pop8_ok, Hb.
Qed.

Lemma pop_stage2 l : Forall is_byte l ->
  uadd (8 * Z.of_nat (length l)) (Z.land (ushr (unbytes (pop8a <$> l)) 2) (mask (length l) 0x33))
    (Z.land (unbytes (pop8a <$> l)) (mask (length l) 0x33))
  = unbytes (pop8 <$> l).
Proof.
  intros Hl.
  assert (Ha : Forall is_byte (pop8a <$> l)).
  { apply Forall_is_byte_map; [|done]. intros b Hb. apply pop8_ok, Hb. }
  rewrite <- (length_fmap pop8a l) at 2 3.
  rewrite land_shiftr_mask by (done || lia).
  rewrite <- (Z.shiftr_0_r (unbytes (pop8a <$> l))). change (Z.shiftr ?x 0) with (ushr x 0).
  rewrite land_shiftr_mask by (done || lia).
  unfold uadd. rewrite unbytes_map2_add, <- list_fmap_compose.
  change (unbytes _) with (unbytes (pop8 <$> l)) at 1.
  apply wrap_small. rewrite <- (length_fmap pop8 l). apply unbytes_range.
  apply Forall_is_byte_map; [|done]. intros b Hb. apply pop8_ok, Hb.
Qed.

Lemma land_wrap w a b : 0 <= w -> 0 <= b < 2 ^ w -> Z.land (wrap w a) b = Z.land a b.
Proof. intros. unfold wrap. zbits. Qed.

Lemma mask_range n c : is_byte c -> 0 <= mask n c < 2 ^ (8 * Z.of_nat n).
Proof.
  intros. unfold mask. pose proof (unbytes_range (replicate n c)) as G.
  rewrite length_replicate in G. apply G. by apply Forall_replicate.
Qed.

Lemma unbytes_mod16 l : unbytes l mod 16 = default 0 (head l) mod 16.
Proof. destruct l as [|b l]; cbn [unbytes]; [done|]. cbn. change (Z.pow_pos 2 8) with 256. zlia. Qed.

Lemma pop_nibbles l : Forall (fun b => 0 <= b <= 0x44 /\ b mod 16 <= 4) l ->
  Z.land (unbytes l + ushr (unbytes l) 4) (mask (length l) 15)
  = unbytes ((fun b => Z.land (b + ushr b 4) 15) <$> l).
Proof.
  induction 1 as [|b l [Hb _] Hl IH].
  - simpl. apply Z.land_0_r.
  - rewrite fmap_cons. cbn [unbytes length]. rewrite <- IH. unfold mask. cbn [replicate unbytes].
    fold (mask (length l) 15).
    set (y := unbytes l) in *.
    assert (Hn : 0 <= y mod 16 <= 4).
    { unfold y. rewrite unbytes_mod16. destruct Hl; simpl; [done|]. zlia. }
    rewrite !ushr_val by lia.
    replace (y * 2 ^ 8 + b + (y * 2 ^ 8 + b) / 2 ^ 4)
      with ((y + y / 2 ^ 4) * 2 ^ 8 + ((b + b / 2 ^ 4) + 16 * (y mod 16))) by zlia.
    rewrite <- (Z.shiftr_0_r (_ * _ + (_ + _))).
    change (Z.shiftr ?x 0) with (ushr x 0).
    rewrite land_shiftr_bytes; [ | lia | unfold is_byte; zlia | lia ].
    unfold ushr. rewrite !Z.shiftr_0_r. f_equal.
    change 15 with (Z.ones 4). rewrite !Z.land_ones by lia.
    rewrite Z.mul_comm. apply Z_mod_plus_full.
Qed.

Lemma pop_stage3 l : Forall is_byte l ->
  Z.land (uadd (8 * Z.of_nat (length l)) (unbytes (pop8 <$> l)) (ushr (unbytes (pop8 <$> l)) 4))
    (mask (length l) 15) = unbytes (pcount 8 <$> l).
Proof.
  intros Hl. unfold uadd. rewrite land_wrap by (lia || by apply mask_range).
  rewrite <- (length_fmap pop8 l), pop_nibbles.
  - rewrite <- list_fmap_compose. f_equal. apply list_fmap_ext.
    intros i b Hb. apply pop8_ok. rewrite Forall_lookup in Hl. eauto.
  - apply Forall_fmap. eapply Forall_impl; [|exact Hl].
    intros b Hb. destruct (pop8_ok b Hb) as (_ & [? _] & ? & ? & _). simpl. auto.
Qed.

(** The final multiplication adds the bytes up into the top byte. *)
Lemma pop_stage4_32 l : length l = 4%nat -> Forall (fun c => 0 <= c <= 8) l ->
  ushr (umul 32 (unbytes l) 0x1010101) 24 = sumZ l.
Proof.
  intros Hn H. destruct l as [|a0 [|a1 [|a2 [|a3 [|]]]]]; try done.
  repeat match goal with H : Forall _ _ |- _ => apply Forall_cons_iff in H as [? H] end.
  cbn [unbytes sumZ foldr]. rewrite ushr_val by lia. unfold umul, wrap.
  symmetry. eapply (Z.div_unique_pos _ _ _ (a0 + 2 ^ 8 * (a0 + a1) + 2 ^ 16 * (a0 + a1 + a2))); [lia|].
  symmetry. apply (Z.mod_unique_pos _ _ ((a1 + a2 + a3) + 2 ^ 8 * (a2 + a3) + 2 ^ 16 * a3)); lia.
Qed.

Lemma pop_stage4_64 l : length l = 8%nat -> Forall (fun c => 0 <= c <= 8) l ->
  ushr (umul 64 (unbytes l) 0x0101010101010101) 56 = sumZ l.
Proof.
  intros Hn H. destruct l as [|a0 [|a1 [|a2 [|a3 [|a4 [|a5 [|a6 [|a7 [|]]]]]]]]]; try done.
  repeat match goal with H : Forall _ _ |- _ => apply Forall_cons_iff in H as [? H] end.
  cbn [unbytes sumZ foldr]. rewrite ushr_val by lia. unfold umul, wrap.
  symmetry. eapply (Z.div_unique_pos _ _ _ (a0 + 2 ^ 8 * (a0 + a1) + 2 ^ 16 * (a0 + a1 + a2)
    + 2 ^ 24 * (a0 + a1 + a2 + a3) + 2 ^ 32 * (a0 + a1 + a2 + a3 + a4)
    + 2 ^ 40 * (a0 + a1 + a2 + a3 + a4 + a5) + 2 ^ 48 * (a0 + a1 + a2 + a3 + a4 + a5 + a6))); [lia|].
  symmetry. apply (Z.mod_unique_pos _ _ ((a1 + a2 + a3 + a4 + a5 + a6 + a7)
    + 2 ^ 8 * (a2 + a3 + a4 + a5 + a6 + a7) + 2 ^ 16 * (a3 + a4 + a5 + a6 + a7)
    + 2 ^ 24 * (a4 + a5 + a6 + a7) + 2 ^ 32 * (a5 + a6 + a7) + 2 ^ 40 * (a6 + a7) + 2 ^ 48 * a7)); lia.
Qed.

Lemma pcount_map_small l : Forall is_byte l -> Forall (fun c => 0 <= c <= 8) (pcount 8 <$> l).
Proof. intros Hl. apply Forall_fmap. eapply Forall_impl; [|exact Hl]. intros b Hb. apply pop8_ok, Hb. Qed.

Lemma Popcount32_spec x : 0 <= x < 2 ^ 32 -> Popcount32 x = pcount 32 x.
Proof.
  intros Hx. assert (Hl := to_bytes_bytes 4 x). assert (Hn := length_to_bytes 4 x).
  rewrite <- (unbytes_to_bytes 4 x) by (exact Hx).
  generalize dependent (to_bytes 4 x). intros l Hl Hn.
  pose proof (pop_stage1 l Hl) as S1. pose proof (pop_stage2 l Hl) as S2.
  pose proof (pop_stage3 l Hl) as S3. pose proof (pcount_unbytes l Hl) as S4.
  rewrite Hn in *.
  unfold Popcount32. change 0x55555555 with (mask 4 0x55). change 0x33333333 with (mask 4 0x33).
  change 0xF0F0F0F with (mask 4 15). cbv zeta. change (8 * Z.of_nat 4) with 32 in S1, S2, S3.
  rewrite S1, S2, S3. change 32%nat with (8 * 4)%nat. rewrite S4.
  apply pop_stage4_32; [by rewrite length_fmap | by apply pcount_map_small].
Qed.

Lemma Popcount64_spec x : 0 <= x < 2 ^ 64 -> Popcount64 x = pcount 64 x.
Proof.
  intros Hx. assert (Hl := to_bytes_bytes 8 x). assert (Hn := length_to_bytes 8 x).
  rewrite <- (unbytes_to_bytes 8 x) by (exact Hx).
  generalize dependent (to_bytes 8 x). intros l Hl Hn.
  pose proof (pop_stage1 l Hl) as S1. pose proof (pop_stage2 l Hl) as S2.
  pose proof (pop_stage3 l Hl) as S3. pose proof (pcount_unbytes l Hl) as S4.
  rewrite Hn in *.
  unfold Popcount64. change 0x5555555555555555 with (mask 8 0x55).
  change 0x3333333333333333 with (mask 8 0x33).
  change 0x0F0F0F0F0F0F0F0F with (mask 8 15). cbv zeta. change (8 * Z.of_nat 8) with 64 in S1, S2, S3.
  rewrite S1, S2, S3. change 64%nat with (8 * 8)%nat. rewrite S4.
  apply pop_stage4_64; [by rewrite length_fmap | by apply pcount_map_small].
Qed.

Lemma pcount_extend n k x : 0 <= x < 2 ^ Z.of_nat n -> pcount (n + k) x = pcount n x.
Proof.
  revert x. induction n as [|n IH]; intros x Hx.
  - change (2 ^ Z.of_nat 0) with 1 in Hx. assert (x = 0) as -> by lia.
    cbn [Nat.add]. clear Hx. induction k as [|k IHk]; [done|]. cbn [pcount]. change (Z.div2 0) with 0. rewrite IHk. done.
  - cbn [Nat.add pcount]. rewrite IH; [done|].
    rewrite Nat2Z.inj_succ, Z.pow_succ_r in Hx by lia. rewrite Z.div2_div. zlia.
Qed.

(** ** Leading zeros *)

Lemma clz_step_ok s x z x' z' : 0 < s -> 0 <= x < 2 ^ (2 * s) -> clz_step s (x, z) = (x', z') ->
  0 <= x' < 2 ^ s /\ (x = 0 -> x' = 0 /\ z' = z) /\
  (0 < x -> 0 < x' /\ Z.log2 x - Z.log2 x' = z - z').
Proof.
  intros Hs Hx. unfold clz_step. rewrite ushr_val by lia.
  replace (2 ^ (2 * s)) with (2 ^ s * 2 ^ s) in Hx by (rewrite <- Z.pow_add_r by lia; f_equal; lia).
  pose proof (Z.pow_pos_nonneg 2 s). destruct (Z.eqb_spec (x / 2 ^ s) 0) as [E|E]; simpl; intros [= <- <-].
  - apply Z.div_small_iff in E; [|lia]. split; [lia|]. split; intros; lia.
  - assert (2 ^ s <= x). { destruct (Z.le_gt_cases (2 ^ s) x); [done|]. rewrite Z.div_small in E; lia. }
    split; [split; [apply Z.div_pos; lia | apply Z.div_lt_upper_bound; lia]|]. split; [lia|]. intros _.
    assert (0 < x / 2 ^ s) by (apply Z.div_str_pos; lia). split; [done|].
    rewrite <- Z.shiftr_div_pow2, Z.log2_shiftr by lia.
    assert (s <= Z.log2 x) by (rewrite <- (Z.log2_pow2 s) by lia; apply Z.log2_le_mono; lia). lia.
Qed.

Lemma clz_table_ok x : 0 <= x < 16 ->
  nth (Z.to_nat x) clz_table 0 = if x =? 0 then 4 else 3 - Z.log2 x.
Proof.
  intros Hx. apply Z.eqb_eq.
  exact (zrange_forall (fun x => nth (Z.to_nat x) clz_table 0 =? (if x =? 0 then 4 else 3 - Z.log2 x)) 16
    ltac:(vm_compute; reflexivity) x Hx).
Qed.

(** Chain the steps of the halving search. *)
Ltac clz_chain :=
  repeat match goal with
  | |- context [clz_step ?s (?x, ?z)] =>
      let x' := fresh "x" in let z' := fresh "z" in let E := fresh "E" in
      destruct (clz_step s (x, z)) as [x' z'] eqn:E; apply clz_step_ok in E; [|lia|simpl Z.mul; lia]
  end.

Lemma CountLeadingZeroes32_spec x : 0 <= x < 2 ^ 32 ->
  CountLeadingZeroes32 x = if x =? 0 then 32 else 31 - Z.log2 x.
Proof.
  intros Hx. unfold CountLeadingZeroes32. clz_chain.
  rewrite clz_table_ok by lia. zcases; lia.
Qed.

Lemma CountLeadingZeroes64_spec x : 0 <= x < 2 ^ 64 ->
  CountLeadingZeroes64 x = if x =? 0 then 64 else 63 - Z.log2 x.
Proof.
  intros Hx. unfold CountLeadingZeroes64. clz_chain.
  rewrite clz_table_ok by lia. zcases; lia.
Qed.

(** Evaluate the width tests of the templates at a literal width. *)
Ltac digits_cases :=
  repeat match goal with
  | |- context [Z.leb (Zpos ?a) (Zpos ?b)] => let r := eval vm_compute in (Z.leb (Zpos a) (Zpos b)) in change (Z.leb (Zpos a) (Zpos b)) with r
  | |- context [Z.ltb (Zpos ?a) (Zpos ?b)] => let r := eval vm_compute in (Z.ltb (Zpos a) (Zpos b)) in change (Z.ltb (Zpos a) (Zpos b)) with r
  end; cbv iota; rewrite ?wrap_small by lia.

Lemma countl_zero_spec w x : digits_ok w -> 0 <= x < 2 ^ w ->
  countl_zero w x = if x =? 0 then w else w - 1 - Z.log2 x.
Proof.
  unfold countl_zero, CountLeadingZeroes, CountLeadingZeroes16.
  intros [-> | [-> | [-> | ->]]] Hx; digits_cases;
  rewrite ?CountLeadingZeroes32_spec, ?CountLeadingZeroes64_spec by lia; zcases; lia.
Qed.

Lemma bit_width_spec w x : digits_ok w -> 0 <= x < 2 ^ w ->
  bit_width w x = if x =? 0 then 0 else Z.log2 x + 1.
Proof. intros Hw Hx. unfold bit_width. rewrite countl_zero_spec by done. zcases; lia. Qed.

Lemma log2_lt_digits w x : 0 < w -> 0 < x < 2 ^ w -> 0 <= Z.log2 x < w.
Proof. intros. split; [apply Z.log2_nonneg|]. apply Z.log2_lt_pow2; lia. Qed.

(** ** Trailing zeros *)

Lemma lowest_bit_exists x : 0 < x -> exists k, lowest_bit x k.
Proof.
  induction x as [x IH] using (well_founded_induction (Z.lt_wf 0)). intros Hx.
  destruct (Z.testbit x 0) eqn:E.
  - exists 0. split; [done|]. split; [done|]. intros i Hi. by apply Z.testbit_neg_r.
  - rewrite Z.bit0_odd in E.
    assert (Hev : x = 2 * (x / 2)).
    { assert (x mod 2 = 0) by (rewrite Zmod_odd, E; done). zlia. }
    destruct (IH (x / 2) ltac:(lia) ltac:(lia)) as (k & Hk & Hb & Hl).
    exists (k + 1). split; [lia|]. rewrite Hev. split.
    + replace (k + 1) with (Z.succ k) by lia. by rewrite Z.testbit_even_succ.
    + intros i Hi. destruct (Z.lt_ge_cases i 0); [by apply Z.testbit_neg_r|].
      destruct (Z.eq_dec i 0) as [->|]; [apply Z.testbit_even_0|].
      replace i with (Z.succ (i - 1)) by lia. rewrite Z.testbit_even_succ by lia. apply Hl. lia.
Qed.

(** A number is its lowest bit times an odd number. *)
Lemma lowest_bit_factor x k : lowest_bit x k -> x = (2 * (x / 2 ^ (k + 1)) + 1) * 2 ^ k.
Proof.
  intros (Hk & Hb & Hl).
  assert (Hdiv : x mod 2 ^ k = 0).
  { apply Z.bits_inj'. intros i Hi. rewrite testbit_mod_pow2, Z.bits_0 by done.
    destruct (Z.ltb_spec i k); simpl; [by apply Hl | done]. }
  assert (Hodd : x / 2 ^ k = 2 * (x / 2 ^ (k + 1)) + 1).
  { rewrite Z.pow_add_r, <- Z.div_div by lia. change (2 ^ 1) with 2.
    rewrite (Z.div_mod (x / 2 ^ k) 2) at 1 by lia. rewrite Zmod_odd, <- Z.bit0_odd.
    rewrite <- Z.shiftr_div_pow2, testbit_shiftr, Z.add_0_l, Hb by lia. done. }
  rewrite <- Hodd. rewrite (Z.div_mod x (2 ^ k)) at 1 by lia. lia.
Qed.

(** [x & (~x + 1)] isolates the lowest set bit. *)
Lemma isolate_lowest w x k : 0 < w -> 0 < x < 2 ^ w -> lowest_bit x k ->
  Z.land x (uadd w (unot w x) 1) = 2 ^ k /\ 0 <= k < w.
Proof.
  intros Hw Hx Hk. pose proof Hk as (Hk0 & Hb & Hl).
  assert (Hkw : k < w).
  { destruct (Z.lt_ge_cases k w); [done|]. rewrite (testbit_bounded x w) in Hb; lia. }
  split; [|lia].
  unfold uadd, unot. rewrite wrap_add_l by lia.
  replace (Z.lnot x + 1) with (- x) by (unfold Z.lnot; lia).
  rewrite Z.land_comm, land_wrap by lia. rewrite Z.land_comm.
  set (m := x / 2 ^ (k + 1)). pose proof (lowest_bit_factor x k Hk) as Hf. fold m in Hf.
  rewrite Hf. replace (- ((2 * m + 1) * 2 ^ k)) with ((2 * Z.lnot m + 1) * 2 ^ k) by (unfold Z.lnot; lia).
  rewrite <- !Z.shiftl_mul_pow2, <- Z.shiftl_land by lia.
  replace (Z.land (2 * m + 1) (2 * Z.lnot m + 1)) with 1.
  { by rewrite Z.shiftl_1_l. }
  apply Z.bits_inj'. intros i Hi. rewrite Z.land_spec.
  destruct (Z.eq_dec i 0) as [->|]; [by rewrite !Z.testbit_odd_0|].
  replace i with (Z.succ (i - 1)) by lia.
  rewrite !Z.testbit_odd_succ, testbit_lnot, andb_negb_r by lia.
  change 1 with (2 * 0 + 1) at 1. rewrite Z.testbit_odd_succ by lia. apply Z.bits_0.
Qed.

(** On a power of two the mask tests read the exponent off. *)
Lemma CountTrailingZeroesNonzero32_spec x k : 0 < x < 2 ^ 32 -> lowest_bit x k ->
  CountTrailingZeroesNonzero32 x = k.
Proof.
  intros Hx Hk. unfold CountTrailingZeroesNonzero32.
  destruct (isolate_lowest 32 x k ltac:(lia) Hx Hk) as [-> Hr]. cbv zeta. apply Z.eqb_eq.
  exact (zrange_forall (fun k => ctz_mask (2 ^ k) 0x55555555 1 (ctz_mask (2 ^ k) 0x33333333 2
    (ctz_mask (2 ^ k) 0x0F0F0F0F 4 (ctz_mask (2 ^ k) 0x00FF00FF 8 (ctz_mask (2 ^ k) 0x0000FFFF 16 31))))
      =? k) 32 ltac:(vm_compute; reflexivity) k Hr).
Qed.

Lemma CountTrailingZeroesNonzero64_spec x k : 0 < x < 2 ^ 64 -> lowest_bit x k ->
  CountTrailingZeroesNonzero64 x = k.
Proof.
  intros Hx Hk. unfold CountTrailingZeroesNonzero64.
  destruct (isolate_lowest 64 x k ltac:(lia) Hx Hk) as [-> Hr]. cbv zeta. apply Z.eqb_eq.
  exact (zrange_forall (fun k => ctz_mask (2 ^ k) 0x5555555555555555 1
    (ctz_mask (2 ^ k) 0x3333333333333333 2 (ctz_mask (2 ^ k) 0x0F0F0F0F0F0F0F0F 4
      (ctz_mask (2 ^ k) 0x00FF00FF00FF00FF 8 (ctz_mask (2 ^ k) 0x0000FFFF0000FFFF 16
        (ctz_mask (2 ^ k) 0x00000000FFFFFFFF 32 63))))) =? k) 64 ltac:(vm_compute; reflexivity) k Hr).
Qed.

Lemma countr_zero_spec w x k : digits_ok w -> 0 < x < 2 ^ w -> lowest_bit x k ->
  countr_zero w x = k.
Proof.
  unfold countr_zero, CountTrailingZeroes, CountTrailingZeroesNonzero16.
  intros Hw Hx Hk. destruct (Z.eqb_spec x 0); [lia|].
  destruct Hw as [-> | [-> | [-> | ->]]]; digits_cases;
  first [apply CountTrailingZeroesNonzero32_spec | apply CountTrailingZeroesNonzero64_spec];
  auto; lia.
Qed.

(** ** Powers of two *)

Lemma has_single_bit_spec w x : 0 < w -> 0 <= x < 2 ^ w ->
  has_single_bit w x = true <-> exists k, 0 <= k < w /\ x = 2 ^ k.
Proof.
  intros Hw Hx. unfold has_single_bit, usub.
  destruct (Z.eqb_spec x 0) as [->|Hn]; simpl.
  - split; [done|]. intros (k & Hk & E). pose proof (Z.pow_pos_nonneg 2 k). lia.
  - rewrite wrap_small by lia. rewrite Z.eqb_eq. split.
    + intros H0. exists (Z.log2 x). split; [apply log2_lt_digits; lia|].
      destruct (Z.log2_spec x ltac:(lia)) as [Hlo Hhi].
      destruct (Z.eq_dec x (2 ^ Z.log2 x)) as [|Hne]; [done|exfalso].
      (* x and x-1 share the top bit *)
      assert (Hlog : Z.log2 (x - 1) = Z.log2 x).
      { apply Z.log2_unique; [apply Z.log2_nonneg|]. lia. }
      pose proof (Z.bit_log2 x ltac:(lia)) as B1.
      pose proof (Z.pow_pos_nonneg 2 (Z.log2 x) ltac:(lia) (Z.log2_nonneg x)).
      pose proof (Z.bit_log2 (x - 1) ltac:(lia)) as B2. rewrite Hlog in B2.
      assert (B3 : Z.testbit (Z.land x (x - 1)) (Z.log2 x) = true) by (rewrite Z.land_spec, B1, B2; done).
      rewrite H0, Z.bits_0 in B3. done.
    + intros (k & Hk & ->). rewrite Z.sub_1_r, <- Z.ones_equiv, Z.land_ones by lia.
      apply Z.mod_same. lia.
Qed.

Lemma bit_floor_spec w x : digits_ok w -> 0 <= x < 2 ^ w ->
  bit_floor w x = if x =? 0 then 0 else 2 ^ Z.log2 x.
Proof.
  intros Hw Hx. unfold bit_floor. rewrite bit_width_spec by done.
  destruct (Z.eqb_spec x 0); [done|].
  assert (0 < w) by (unfold digits_ok in Hw; lia).
  pose proof (log2_lt_digits w x ltac:(lia) ltac:(lia)).
  rewrite ushl_val by lia. rewrite Z.add_simpl_r, Z.mul_1_l. apply wrap_small.
  split; [lia|]. apply Z.pow_lt_mono_r; lia.
Qed.

(** The promoted shift produces the power of two whatever the width. *)
Lemma BitCeilPromotionHelper_pow2 w n : digits_ok w -> 0 <= n <= w - 1 ->
  BitCeilPromotionHelper w (wrap w n) (if 32 <=? w then 0 else 32 - w) = Some (2 ^ n).
Proof.
  intros Hw Hn. assert (Hw0 : 0 < w) by (unfold digits_ok in Hw; lia).
  pose proof (Z.pow_lt_mono_r 2 n w ltac:(lia) ltac:(lia) ltac:(lia)).
  rewrite wrap_small by (pose proof (Z.pow_gt_lin_r 2 n); lia).
  unfold BitCeilPromotionHelper.
  destruct Hw as [-> | [-> | [-> | ->]]]; digits_cases;
  match goal with |- context [Z.ltb ?a ?b] => destruct (Z.ltb_spec a b); [|lia] end; f_equal;
  rewrite ?Z.add_0_r; unfold ushl; rewrite Z.shiftl_1_l.
  - apply Z.eqb_eq. exact (zrange_forall (fun n => wrap 8 (Z.shiftr (swrap 32 (2 ^ (n + (32 - 8))))
      (32 - 8)) =? 2 ^ n) 8 ltac:(vm_compute; reflexivity) n ltac:(lia)).
  - apply Z.eqb_eq. exact (zrange_forall (fun n => wrap 16 (Z.shiftr (swrap 32 (2 ^ (n + (32 - 16))))
      (32 - 16)) =? 2 ^ n) 16 ltac:(vm_compute; reflexivity) n ltac:(lia)).
  - rewrite (wrap_small _ (2 ^ n)), Z.shiftr_0_r by lia. apply wrap_small; lia.
  - rewrite (wrap_small _ (2 ^ n)), Z.shiftr_0_r by lia. apply wrap_small; lia.
Qed.

Lemma log2_up_not_pow2 x : 0 < x -> x <> 2 ^ Z.log2 x -> Z.log2_up x = Z.log2 x + 1.
Proof.
  intros Hx Hn. pose proof (Z.log2_spec x Hx) as [L1 L2]. pose proof (Z.log2_nonneg x).
  apply Z.log2_up_unique; [lia|]. replace (Z.pred (Z.log2 x + 1)) with (Z.log2 x) by lia.
  replace (Z.log2 x + 1) with (Z.succ (Z.log2 x)) by lia. lia.
Qed.

(** [bit_ceil] on every input whose ceiling is representable. *)
Lemma bit_ceil_spec w x : digits_ok w -> 0 <= x <= 2 ^ (w - 1) ->
  bit_ceil w x = Some (if x =? 0 then 1 else 2 ^ Z.log2_up x).
Proof.
  intros Hw Hx. assert (Hw0 : 0 < w) by (unfold digits_ok in Hw; lia).
  assert (H2w : 2 ^ w = 2 * 2 ^ (w - 1)) by (rewrite <- Z.pow_succ_r by lia; f_equal; lia).
  unfold bit_ceil. destruct (has_single_bit w x) eqn:E.
  - apply has_single_bit_spec in E; [|lia|lia]. destruct E as (k & Hk & ->).
    rewrite bit_width_spec by (done || lia). destruct (Z.eqb_spec (2 ^ k) 0); [lia|].
    rewrite Z.log2_pow2, Z.log2_up_pow2 by lia. f_equal.
    rewrite ushl_val by lia. rewrite Z.add_simpl_r, Z.mul_1_l. apply wrap_small; lia.
  - assert (Hnp : forall k, 0 <= k < w -> x <> 2 ^ k).
    { intros k Hk ->. assert (has_single_bit w (2 ^ k) = true); [|congruence].
      apply has_single_bit_spec; [lia| |by exists k].
      split; [lia|]. apply Z.pow_lt_mono_r; lia. }
    pose proof (Hnp (w - 1) ltac:(lia)). assert (Hb : 0 <= x < 2 ^ w) by lia.
    unfold BitCeilNonPowerOf2. fold (countl_zero w x). fold (bit_width w x).
    rewrite bit_width_spec by done.
    destruct (Z.eqb_spec x 0) as [->|Hx0].
    + by rewrite BitCeilPromotionHelper_pow2 by (done || lia).
    + pose proof (log2_lt_digits w x Hw0 ltac:(lia)).
      assert (Z.log2 x < w - 1) by (apply Z.log2_lt_pow2; lia).
      rewrite BitCeilPromotionHelper_pow2 by (done || lia).
      rewrite log2_up_not_pow2; [done | lia | by apply Hnp].
Qed.

(** ** Rotations *)

Lemma land_digits w s : digits_ok w -> Z.land s (w - 1) = s mod w.
Proof.
  intros Hw. assert (exists k, 0 <= k /\ w = 2 ^ k) as (k & Hk & ->).
  { destruct Hw as [-> | [-> | [-> | ->]]]; [exists 3|exists 4|exists 5|exists 6]; done. }
  by rewrite <- Z.land_ones, Z.ones_equiv, Z.sub_1_r by done.
Qed.

(** Bit [i] of a left rotation is bit [(i - s) mod w] of the input. *)
Lemma testbit_rotl w x s i : digits_ok w -> 0 <= x < 2 ^ w -> 0 <= i < w ->
  Z.testbit (rotl w x s) i = Z.testbit x ((i - s) mod w).
Proof.
  intros Hw Hx Hi. unfold rotl, RotateLeft, wrap, ushr. rewrite !land_digits by done.
  assert (Hw0 : 0 < w) by (unfold digits_ok in Hw; lia). clear Hw.
  pose proof (Z.mod_pos_bound s w Hw0). pose proof (Z.mod_pos_bound (- s) w Hw0).
  autorewrite with zbit. destruct (Z.ltb_spec i w); [|lia]. simpl.
  destruct (Z.eq_dec (s mod w) 0) as [E|E].
  - rewrite (Z_mod_zero_opp_full _ _ E), E, Z.sub_0_r, Z.add_0_r, orb_diag.
    rewrite Zminus_mod, E, Z.sub_0_r, Zmod_mod, Z.mod_small by lia. done.
  - rewrite (Z_mod_nz_opp_full _ _ E) in *. rewrite Zminus_mod, (Z.mod_small i) by lia.
    generalize dependent (s mod w). intros r Hr _ _. destruct (Z.lt_ge_cases i r).
    + rewrite (Z.testbit_neg_r x (i - r)) by lia. simpl.
      rewrite <- (Z_mod_plus_full (i - r) 1 w), Z.mod_small by lia. f_equal. lia.
    + rewrite (testbit_bounded x w (i + (w - r))) by lia.
      rewrite orb_false_r, Z.mod_small by lia. done.
Qed.

Lemma rotl_range w x s : digits_ok w -> 0 <= x < 2 ^ w -> 0 <= rotl w x s < 2 ^ w.
Proof. intros Hw Hx. assert (0 < w) by (unfold digits_ok in Hw; lia).
  unfold rotl, RotateLeft. apply lor_range; try apply wrap_range; lia. Qed.

Lemma rotr_rotl_opp w x s : rotr w x s = rotl w x (- s).
Proof. unfold rotr, rotl, RotateRight, RotateLeft. rewrite Z.opp_involutive. apply Z.lor_comm. Qed.

Lemma rotr_rotl w x s : digits_ok w -> 0 <= x < 2 ^ w -> rotr w (rotl w x s) s = x.
Proof.
  intros Hw Hx. assert (Hw0 : 0 < w) by (unfold digits_ok in Hw; lia).
  pose proof (rotl_range w x s Hw Hx) as Hr. rewrite rotr_rotl_opp. apply Z.bits_inj'. intros i Hi.
  destruct (Z.lt_ge_cases i w).
  - rewrite testbit_rotl by (done || lia). pose proof (Z.mod_pos_bound (i - - s) w Hw0).
    rewrite testbit_rotl by (done || lia). f_equal.
    rewrite Zminus_mod_idemp_l. rewrite Z.mod_small; lia.
  - rewrite !(testbit_bounded _ w i) by (done || lia || by apply rotl_range). done.
Qed.

(** ** Runs of equal bits *)

(** [n] is the length of the run of bits equal to [b] at the top of the [w] bits of [x]. *)
Definition top_run (b : bool) (w x n : Z) : Prop :=
  0 <= n <= w /\ (forall i, w - n <= i < w -> Z.testbit x i = b) /\
  (n < w -> Z.testbit x (w - 1 - n) = negb b).

(** [n] is the length of the run of bits equal to [b] at the bottom. *)
Definition bottom_run (b : bool) (w x n : Z) : Prop :=
  0 <= n <= w /\ (forall i, 0 <= i < n -> Z.testbit x i = b) /\ (n < w -> Z.testbit x n = negb b).

Lemma countl_zero_run w x : digits_ok w -> 0 <= x < 2 ^ w -> top_run false w x (countl_zero w x).
Proof.
  intros Hw Hx. assert (Hw0 : 0 < w) by (unfold digits_ok in Hw; lia).
  rewrite countl_zero_spec by done. destruct (Z.eqb_spec x 0) as [->|Hx0].
  - split_and!; [lia|lia| |lia]. intros. apply Z.testbit_0_l.
  - pose proof (log2_lt_digits w x Hw0 ltac:(lia)). split_and!; [lia|lia| |].
    + intros i Hi. apply Z.bits_above_log2; lia.
    + intros _. replace (w - 1 - (w - 1 - Z.log2 x)) with (Z.log2 x) by lia. apply Z.bit_log2. lia.
Qed.

Lemma countr_zero_run w x : digits_ok w -> 0 <= x < 2 ^ w -> bottom_run false w x (countr_zero w x).
Proof.
  intros Hw Hx. assert (Hw0 : 0 < w) by (unfold digits_ok in Hw; lia).
  destruct (Z.eq_dec x 0) as [->|Hx0].
  - change (countr_zero w 0) with w. split_and!; [lia|lia| |lia]. intros. apply Z.testbit_0_l.
  - destruct (lowest_bit_exists x ltac:(lia)) as (k & Hk). rewrite (countr_zero_spec w x k) by (done || lia).
    destruct Hk as (Hk0 & Hk1 & Hk2). assert (k < w).
    { destruct (Z.lt_ge_cases k w); [done|]. by rewrite (testbit_bounded x w k) in Hk1 by lia. }
    split_and!; [lia|lia| |done]. intros i Hi. apply Hk2. lia.
Qed.

Lemma testbit_unot w x i : 0 <= i < w -> Z.testbit (unot w x) i = negb (Z.testbit x i).
Proof. intros Hi. unfold unot, wrap. rewrite Z.mod_pow2_bits_low by lia. apply Z.lnot_spec. lia. Qed.

Lemma top_run_unot w x n : top_run false w (unot w x) n -> top_run true w x n.
Proof.
  intros (Hn & H1 & H2). split_and!; [lia|lia| |].
  - intros i Hi. specialize (H1 i Hi). rewrite testbit_unot in H1 by lia. by destruct (Z.testbit x i).
  - intros Hw. specialize (H2 Hw). rewrite testbit_unot in H2 by lia. by destruct (Z.testbit x _).
Qed.

Lemma bottom_run_unot w x n : bottom_run false w (unot w x) n -> bottom_run true w x n.
Proof.
  intros (Hn & H1 & H2). split_and!; [lia|lia| |].
  - intros i Hi. specialize (H1 i Hi). rewrite testbit_unot in H1 by lia. by destruct (Z.testbit x i).
  - intros Hw. specialize (H2 Hw). rewrite testbit_unot in H2 by lia. by destruct (Z.testbit x _).
Qed.

(** ** Properties *)

(** The portable SWAR code counts bit by bit. *)
Lemma popcount_spec w x : digits_ok w -> 0 <= x < 2 ^ w -> popcount w x = pcount (Z.to_nat w) x.
Proof.
  intros Hw Hx. unfold popcount, Popcount. destruct Hw as [-> | [-> | [-> | ->]]]; cbn [Z.leb Z.compare Pos.compare Pos.compare_cont].
  - rewrite Popcount32_spec by lia. exact (pcount_extend 8 24 x Hx).
  - rewrite Popcount32_spec by lia. exact (pcount_extend 16 16 x Hx).
  - by apply Popcount32_spec.
  - by apply Popcount64_spec.
Qed.

(** C40: the bit operations, on each of the four unsigned widths. [popcount] counts the set
    bits (the SWAR code agrees with the count bit by bit); the four counting functions return
    the length of the run of zeros or ones at the top or at the bottom of the word, the whole
    width included; a rotation by an [int] other than the least one, whose negation is undefined,
    negative ones included, moves bit [j] to bit [(j + s) mod w] (left) or [(j - s) mod w] (right),
    and a right rotation undoes a left one;
    [has_single_bit] recognises the powers of two; [bit_width], [bit_floor] and [bit_ceil] are
    the logarithm plus one, the largest power of two below and the least one above (without
    undefined shifts whenever it is representable). *)
Theorem bit_functions_correct w x s : digits_ok w -> 0 <= x < 2 ^ w -> rotation_amount s = true ->
  popcount w x = pcount (Z.to_nat w) x /\
  (top_run false w x (countl_zero w x) /\ top_run true w x (countl_one w x) /\
   bottom_run false w x (countr_zero w x) /\ bottom_run true w x (countr_one w x)) /\
  (forall i, 0 <= i < w -> Z.testbit (rotl w x s) i = Z.testbit x ((i - s) mod w) /\
                           Z.testbit (rotr w x s) i = Z.testbit x ((i + s) mod w)) /\
  rotr w (rotl w x s) s = x /\
  (has_single_bit w x = true <-> exists k, 0 <= k < w /\ x = 2 ^ k) /\
  bit_width w x = (if x =? 0 then 0 else Z.log2 x + 1) /\
  bit_floor w x = (if x =? 0 then 0 else 2 ^ Z.log2 x) /\
  (x <= 2 ^ (w - 1) -> bit_ceil w x = Some (if x =? 0 then 1 else 2 ^ Z.log2_up x)).
Proof.
  intros Hw Hx _. assert (0 <= unot w x < 2 ^ w) by (apply wrap_range; unfold digits_ok in Hw; lia).
  split_and!; [by apply popcount_spec|by apply countl_zero_run|by apply top_run_unot, countl_zero_run|
    by apply countr_zero_run|by apply bottom_run_unot, countr_zero_run| |by apply rotr_rotl|
    apply has_single_bit_spec; [unfold digits_ok in Hw; lia|done]|by apply bit_width_spec|by apply bit_floor_spec|].
  - intros i Hi. rewrite rotr_rotl_opp, !testbit_rotl by done. by rewrite Z.sub_opp_r.
  - intros. apply bit_ceil_spec; [done|lia].
Qed.

Lemma bit_functions_correct_witness : popcount 16 0xF0F1 = 9 /\ rotr 16 (rotl 16 0xF0F1 (-3)) (-3) = 0xF0F1.
Proof.
  destruct (bit_functions_correct 16 0xF0F1 (-3)) as (H1 & _ & _ & H2 & _); [right; left; reflexivity|lia|reflexivity|].
  split; [exact H1|exact H2].
Defined.
