(* ===== verification/Uint128.v ===== *)
(** * 128-bit unsigned integers (numeric/int128.h)

    [uint128] as its two 64-bit words.  The operators are the portable branches of
    the header (the ones compiled when the compiler has no [unsigned __int128]);
    the module [Intrinsic] holds the other branches, which delegate to the
    compiler's 128-bit type, a [Z] in [0, 2^128). *)
From S2P Require Import Prelude Words.

#[local] Open Scope u64_scope.

Record uint128 := MkU128 { hi_ : Z; lo_ : Z }.

#[export] Instance uint128_eq_dec : EqDecision uint128.
Proof. solve_decision. Defined.

(** ** Construction and access *)

Definition make_uint128 (high low : Z) : uint128 := MkU128 high low.
Definition uint128_low64 (v : uint128) : Z := lo_ v.
Definition uint128_high64 (v : uint128) : Z := hi_ v.
Definition uint128_max : uint128 := make_uint128 (2 ^ 64 - 1) (2 ^ 64 - 1).

(** Constructors from the signed and from the unsigned integer types. *)
Definition uint128_of_signed (v : Z) : uint128 :=
  MkU128 (if v <? 0 then 2 ^ 64 - 1 else 0) (wrap 64 v).
Definition uint128_of_unsigned (v : Z) : uint128 := MkU128 0 v.

(** Conversions to integer types of width [w]. *)
Definition uint128_to_bool (v : uint128) : bool := negb (lo_ v =? 0) || negb (hi_ v =? 0).
Definition uint128_to_signed (w : Z) (v : uint128) : Z := swrap w (lo_ v).
Definition uint128_to_unsigned (w : Z) (v : uint128) : Z := wrap w (lo_ v).

(** ** Comparison *)

Definition uint128_eqb (lhs rhs : uint128) : bool :=
  (uint128_low64 lhs =? uint128_low64 rhs) && (uint128_high64 lhs =? uint128_high64 rhs).
Definition uint128_neb (lhs rhs : uint128) : bool := negb (uint128_eqb lhs rhs).
Definition uint128_ltb (lhs rhs : uint128) : bool :=
  if uint128_high64 lhs =? uint128_high64 rhs then uint128_low64 lhs <? uint128_low64 rhs
  else uint128_high64 lhs <? uint128_high64 rhs.
Definition uint128_gtb (lhs rhs : uint128) : bool := uint128_ltb rhs lhs.
Definition uint128_leb (lhs rhs : uint128) : bool := negb (uint128_ltb rhs lhs).
Definition uint128_geb (lhs rhs : uint128) : bool := negb (uint128_ltb lhs rhs).

(** [operator<=>]. *)
Definition uint128_compare (lhs rhs : uint128) : comparison :=
  if uint128_high64 lhs <? uint128_high64 rhs then Lt
  else if uint128_high64 rhs <? uint128_high64 lhs then Gt
  else if uint128_low64 lhs <? uint128_low64 rhs then Lt
  else if uint128_low64 rhs <? uint128_low64 lhs then Gt
  else Eq.

(** ** Unary and bitwise operators *)

Definition uint128_neg (val : uint128) : uint128 :=
  make_uint128 (unot 64 (uint128_high64 val) ⊕ b2z (uint128_low64 val =? 0))
    (unot 64 (uint128_low64 val) ⊕ 1).
Definition uint128_lnot (val : uint128) : bool :=
  (uint128_high64 val =? 0) && (uint128_low64 val =? 0).
Definition uint128_not (val : uint128) : uint128 :=
  make_uint128 (unot 64 (uint128_high64 val)) (unot 64 (uint128_low64 val)).
Definition uint128_or (lhs rhs : uint128) : uint128 :=
  make_uint128 (Z.lor (uint128_high64 lhs) (uint128_high64 rhs))
    (Z.lor (uint128_low64 lhs) (uint128_low64 rhs)).
Definition uint128_and (lhs rhs : uint128) : uint128 :=
  make_uint128 (Z.land (uint128_high64 lhs) (uint128_high64 rhs))
    (Z.land (uint128_low64 lhs) (uint128_low64 rhs)).
Definition uint128_xor (lhs rhs : uint128) : uint128 :=
  make_uint128 (Z.lxor (uint128_high64 lhs) (uint128_high64 rhs))
    (Z.lxor (uint128_low64 lhs) (uint128_low64 rhs)).

Definition uint128_shl (lhs : uint128) (amount : Z) : uint128 :=
  if 64 <=? amount then make_uint128 (ushl 64 (uint128_low64 lhs) (amount - 64)) 0
  else if amount =? 0 then lhs
  else make_uint128
         (Z.lor (ushl 64 (uint128_high64 lhs) amount) (ushr (uint128_low64 lhs) (64 - amount)))
         (ushl 64 (uint128_low64 lhs) amount).

Definition uint128_shr (lhs : uint128) (amount : Z) : uint128 :=
  if 64 <=? amount then make_uint128 0 (ushr (uint128_high64 lhs) (amount - 64))
  else if amount =? 0 then lhs
  else make_uint128 (ushr (uint128_high64 lhs) amount)
         (Z.lor (ushr (uint128_low64 lhs) amount) (ushl 64 (uint128_high64 lhs) (64 - amount))).

(** ** Arithmetic *)

Definition AddResult (result lhs : uint128) : uint128 :=
  if uint128_low64 result <? uint128_low64 lhs
  then make_uint128 (uint128_high64 result ⊕ 1) (uint128_low64 result)
  else result.

Definition uint128_add (lhs rhs : uint128) : uint128 :=
  AddResult (make_uint128 (uint128_high64 lhs ⊕ uint128_high64 rhs)
               (uint128_low64 lhs ⊕ uint128_low64 rhs)) lhs.

Definition SubstructResult (result lhs rhs : uint128) : uint128 :=
  if uint128_low64 lhs <? uint128_low64 rhs
  then make_uint128 (uint128_high64 result ⊖ 1) (uint128_low64 result)
  else result.

Definition uint128_sub (lhs rhs : uint128) : uint128 :=
  SubstructResult (make_uint128 (uint128_high64 lhs ⊖ uint128_high64 rhs)
                     (uint128_low64 lhs ⊖ uint128_low64 rhs)) lhs rhs.

Definition uint128_mul (lhs rhs : uint128) : uint128 :=
  let a32 := ushr (uint128_low64 lhs) 32 in
  let a00 := Z.land (uint128_low64 lhs) 0xffffffff in
  let b32 := ushr (uint128_low64 rhs) 32 in
  let b00 := Z.land (uint128_low64 rhs) 0xffffffff in
  let result := make_uint128
      (((uint128_high64 lhs ⊗ uint128_low64 rhs) ⊕ (uint128_low64 lhs ⊗ uint128_high64 rhs))
         ⊕ (a32 ⊗ b32))
      (a00 ⊗ b00) in
  let result := uint128_add result (uint128_shl (uint128_of_unsigned (a32 ⊗ b00)) 32) in
  let result := uint128_add result (uint128_shl (uint128_of_unsigned (a00 ⊗ b32)) 32) in
  result.

(** Pre- and post-increment and -decrement: the returned value and the new [*this]. *)
Definition uint128_post_inc (this : uint128) : uint128 * uint128 :=
  (this, uint128_add this (uint128_of_signed 1)).
Definition uint128_post_dec (this : uint128) : uint128 * uint128 :=
  (this, uint128_sub this (uint128_of_signed 1)).
Definition uint128_pre_inc (this : uint128) : uint128 := uint128_add this (uint128_of_signed 1).
Definition uint128_pre_dec (this : uint128) : uint128 := uint128_sub this (uint128_of_signed 1).

(** ** The branches for compilers with a 128-bit integer type *)

Module Intrinsic.
(** [operator unsigned __int128] and the constructor from it. *)
Definition to_u128 (v : uint128) : Z := wrap 128 (wrap 128 (Z.shiftl (hi_ v) 64) + lo_ v).
Definition of_u128 (v : Z) : uint128 :=
  MkU128 (wrap 64 (Z.shiftr v 64)) (wrap 64 (Z.land v (2 ^ 64 - 1))).

Definition eqb (lhs rhs : uint128) : bool := to_u128 lhs =? to_u128 rhs.
Definition ltb (lhs rhs : uint128) : bool := to_u128 lhs <? to_u128 rhs.
Definition compare (lhs rhs : uint128) : comparison :=
  if to_u128 lhs <? to_u128 rhs then Lt else if to_u128 rhs <? to_u128 lhs then Gt else Eq.
Definition neg (val : uint128) : uint128 := of_u128 (wrap 128 (- to_u128 val)).
Definition lnot (val : uint128) : bool := to_u128 val =? 0.
Definition not (val : uint128) : uint128 := of_u128 (unot 128 (to_u128 val)).
Definition or (lhs rhs : uint128) : uint128 := of_u128 (Z.lor (to_u128 lhs) (to_u128 rhs)).
Definition and (lhs rhs : uint128) : uint128 := of_u128 (Z.land (to_u128 lhs) (to_u128 rhs)).
Definition xor (lhs rhs : uint128) : uint128 := of_u128 (Z.lxor (to_u128 lhs) (to_u128 rhs)).
Definition shl (lhs : uint128) (amount : Z) : uint128 := of_u128 (ushl 128 (to_u128 lhs) amount).
Definition shr (lhs : uint128) (amount : Z) : uint128 := of_u128 (ushr (to_u128 lhs) amount).
Definition add (lhs rhs : uint128) : uint128 := of_u128 (uadd 128 (to_u128 lhs) (to_u128 rhs)).
Definition sub (lhs rhs : uint128) : uint128 := of_u128 (usub 128 (to_u128 lhs) (to_u128 rhs)).
Definition mul (lhs rhs : uint128) : uint128 := of_u128 (umul 128 (to_u128 lhs) (to_u128 rhs)).
Definition div (lhs rhs : uint128) : uint128 := of_u128 (to_u128 lhs / to_u128 rhs).
Definition mod_ (lhs rhs : uint128) : uint128 := of_u128 (to_u128 lhs mod to_u128 rhs).
End Intrinsic.

(** ** Specification: the number a [uint128] stands for *)

Definition u128_wf (v : uint128) : Prop := 0 <= hi_ v < 2 ^ 64 /\ 0 <= lo_ v < 2 ^ 64.
Definition u128_val (v : uint128) : Z := hi_ v * 2 ^ 64 + lo_ v.

(** [v] is a well-formed [uint128] with value [z]. *)
Definition u128_is (v : uint128) (z : Z) : Prop := u128_wf v /\ u128_val v = z.

Create HintDb u128.

Lemma u128_is_intro h l : 0 <= h < 2 ^ 64 -> 0 <= l < 2 ^ 64 ->
  u128_is (MkU128 h l) (h * 2 ^ 64 + l).
Proof. intros. done. Qed.

Lemma u128_is_range v z : u128_is v z -> 0 <= z < 2 ^ 128.
Proof. intros [[? ?] <-]. unfold u128_val. lia. Qed.

Lemma u128_is_wf v : u128_wf v -> u128_is v (u128_val v).
Proof. done. Qed.

Lemma u128_is_hi v z : u128_is v z -> uint128_high64 v = z / 2 ^ 64.
Proof. intros [[? ?] <-]. unfold u128_val, uint128_high64. zlia. Qed.

Lemma u128_is_lo v z : u128_is v z -> uint128_low64 v = z mod 2 ^ 64.
Proof. intros [[? ?] <-]. unfold u128_val, uint128_low64. zlia. Qed.

Lemma u128_is_eq v z : u128_is v z -> v = MkU128 (z / 2 ^ 64) (z mod 2 ^ 64).
Proof.
  intros H. rewrite <- (u128_is_hi v z H), <- (u128_is_lo v z H). by destruct v.
Qed.

(** The representation is unique. *)
Lemma u128_is_inj a b z : u128_is a z -> u128_is b z -> a = b.
Proof. intros Ha Hb. by rewrite (u128_is_eq a z Ha), (u128_is_eq b z Hb). Qed.

Lemma u128_is_conv v z z' : u128_is v z -> z = z' -> u128_is v z'.
Proof. by intros ? <-. Qed.

(** Rewrite an operand's words by the number it stands for. *)
Ltac u128_open :=
  repeat match goal with H : u128_is ?v _ |- _ =>
    let Hh := fresh "Hh" in let Hl := fresh "Hl" in
    is_var v; destruct v as [? ?]; destruct H as [[Hh Hl] <-]; cbn [hi_ lo_] in Hh, Hl
  end;
  unfold u128_val, uint128_high64, uint128_low64, make_uint128; cbn [hi_ lo_].

Lemma of_signed_is v : - 2 ^ 63 <= v < 2 ^ 63 -> u128_is (uint128_of_signed v) (wrap 128 v).
Proof.
  intros H. unfold uint128_of_signed, wrap. eapply u128_is_conv.
  - apply u128_is_intro; zcases; zlia.
  - zcases; zlia.
Qed.

Lemma of_unsigned_is v : 0 <= v < 2 ^ 64 -> u128_is (uint128_of_unsigned v) v.
Proof. intros H. unfold uint128_of_unsigned. eapply u128_is_conv; [apply u128_is_intro; lia|lia]. Qed.

Lemma u128_max_is : u128_is uint128_max (2 ^ 128 - 1).
Proof. eapply u128_is_conv; [apply u128_is_intro; lia|lia]. Qed.

Lemma add_is a b x y : u128_is a x -> u128_is b y -> u128_is (uint128_add a b) (wrap 128 (x + y)).
Proof.
  intros. u128_open. unfold uint128_add, AddResult. u128_open. unfold uadd, wrap.
  zcases; (eapply u128_is_conv; [apply u128_is_intro; zlia | zlia]).
Qed.

Lemma sub_is a b x y : u128_is a x -> u128_is b y -> u128_is (uint128_sub a b) (wrap 128 (x - y)).
Proof.
  intros. u128_open. unfold uint128_sub, SubstructResult. u128_open. unfold usub, wrap.
  zcases; (eapply u128_is_conv; [apply u128_is_intro; zlia | zlia]).
Qed.

Lemma not_is a x : u128_is a x -> u128_is (uint128_not a) (2 ^ 128 - 1 - x).
Proof.
  intros. u128_open. unfold uint128_not. u128_open. rewrite !unot_val by lia.
  eapply u128_is_conv; [apply u128_is_intro; lia | lia].
Qed.

Lemma neg_is a x : u128_is a x -> u128_is (uint128_neg a) (wrap 128 (- x)).
Proof.
  intros. u128_open. unfold uint128_neg. u128_open. rewrite !unot_val by lia.
  unfold uadd, wrap, b2z.
  zcases; (eapply u128_is_conv; [apply u128_is_intro; zlia | zlia]).
Qed.

(** Bit [i] of a value through its words. *)
Ltac u128_bits :=
  apply Z.bits_inj'; let i := fresh "i" in let Hi := fresh "Hi" in intros i Hi;
  rewrite ?testbit_hi_lo by words; unfold ushl, ushr, wrap; autorewrite with zbit;
  repeat (progress (rewrite ?testbit_hi_lo by words; zbits_goal)).

Lemma or_is a b x y : u128_is a x -> u128_is b y -> u128_is (uint128_or a b) (Z.lor x y).
Proof.
  intros. u128_open. unfold uint128_or. u128_open.
  eapply u128_is_conv; [apply u128_is_intro; words | u128_bits].
Qed.

Lemma and_is a b x y : u128_is a x -> u128_is b y -> u128_is (uint128_and a b) (Z.land x y).
Proof.
  intros. u128_open. unfold uint128_and. u128_open.
  eapply u128_is_conv; [apply u128_is_intro; words | u128_bits].
Qed.

Lemma xor_is a b x y : u128_is a x -> u128_is b y -> u128_is (uint128_xor a b) (Z.lxor x y).
Proof.
  intros. u128_open. unfold uint128_xor. u128_open.
  eapply u128_is_conv; [apply u128_is_intro; words | u128_bits].
Qed.

Lemma ushl_range w a n : 0 <= w -> 0 <= ushl w a n < 2 ^ w.
Proof. intros. by apply wrap_range. Qed.
#[local] Hint Resolve ushl_range : words.

Lemma shl_is a x n : u128_is a x -> 0 <= n < 128 ->
  u128_is (uint128_shl a n) (wrap 128 (x * 2 ^ n)).
Proof.
  intros Ha Hn. rewrite <- Z.shiftl_mul_pow2 by lia. u128_open. unfold uint128_shl. u128_open. zcases.
  - eapply u128_is_conv; [apply u128_is_intro; words | u128_bits].
  - subst n. eapply u128_is_conv; [apply u128_is_intro; words | u128_bits].
  - eapply u128_is_conv; [apply u128_is_intro; words | u128_bits].
Qed.

Lemma shr_is a x n : u128_is a x -> 0 <= n < 128 -> u128_is (uint128_shr a n) (x / 2 ^ n).
Proof.
  intros Ha Hn. rewrite <- Z.shiftr_div_pow2 by lia. u128_open. unfold uint128_shr. u128_open. zcases.
  - eapply u128_is_conv; [apply u128_is_intro; words | u128_bits].
  - subst n. eapply u128_is_conv; [apply u128_is_intro; words | u128_bits].
  - eapply u128_is_conv; [apply u128_is_intro; words | u128_bits].
Qed.

Lemma wrap_quot w z : 0 <= w -> exists q, wrap w z = z - q * 2 ^ w.
Proof.
  intros. exists (z / 2 ^ w). unfold wrap. pose proof (Z.div_mod z (2 ^ w)). lia.
Qed.

(** The high word of the product is only needed modulo [2^64]. *)
Lemma mul_high_word p b : 0 <= b < 2 ^ 64 ->
  exists r, u128_is (make_uint128 (wrap 64 p) b) r /\ exists q, r = p * 2 ^ 64 + b - q * 2 ^ 128.
Proof.
  intros Hb. exists (wrap 64 p * 2 ^ 64 + b). split.
  - apply u128_is_intro; words.
  - destruct (wrap_quot 64 p ltac:(lia)) as [q ->]. exists q. lia.
Qed.

Lemma half_product a b : 0 <= a < 2 ^ 32 -> 0 <= b < 2 ^ 32 -> a ⊗ b = a * b.
Proof. intros. unfold umul. apply wrap_small. nia. Qed.

Lemma mul_is a b x y : u128_is a x -> u128_is b y -> u128_is (uint128_mul a b) (wrap 128 (x * y)).
Proof.
  destruct a as [ah al], b as [bh bl]. intros [[Hah Hal] <-] [[Hbh Hbl] <-].
  unfold uint128_mul. u128_open. cbn [hi_ lo_] in *.
  rewrite !ushr_val by lia. change 0xffffffff with (Z.ones 32). rewrite !Z.land_ones by lia.
  set (a32 := al / 2 ^ 32). set (a00 := al mod 2 ^ 32).
  set (b32 := bl / 2 ^ 32). set (b00 := bl mod 2 ^ 32).
  assert (0 <= a32 < 2 ^ 32 /\ 0 <= a00 < 2 ^ 32 /\ al = a32 * 2 ^ 32 + a00) as (? & ? & Ea)
    by (subst a32 a00; zlia).
  assert (0 <= b32 < 2 ^ 32 /\ 0 <= b00 < 2 ^ 32 /\ bl = b32 * 2 ^ 32 + b00) as (? & ? & Eb)
    by (subst b32 b00; zlia).
  rewrite (half_product a32 b32), (half_product a00 b00), (half_product a32 b00),
    (half_product a00 b32) by done.
  replace (ah ⊗ bl ⊕ al ⊗ bh ⊕ a32 * b32) with (wrap 64 (ah * bl + al * bh + a32 * b32))
    by (apply wrap_proper; by cong_strip).
  destruct (mul_high_word (ah * bl + al * bh + a32 * b32) (a00 * b00) ltac:(nia))
    as (r & Hr & q & Eq).
  pose proof (add_is _ _ _ _ Hr (shl_is _ _ 32 (of_unsigned_is (a32 * b00) ltac:(nia)) ltac:(lia))) as H1'.
  pose proof (add_is _ _ _ _ H1' (shl_is _ _ 32 (of_unsigned_is (a00 * b32) ltac:(nia)) ltac:(lia))) as H2'.
  eapply u128_is_conv; [exact H2'|]. apply wrap_proper. cong_strip.
  apply (cong_intro _ _ _ (- (ah * bh) - q)). rewrite Eq, Ea, Eb. ring.
Qed.

(** ** Comparisons decide the order of the values *)

Lemma eqb_is a b x y : u128_is a x -> u128_is b y -> uint128_eqb a b = (x =? y).
Proof. intros. unfold uint128_eqb. u128_open. zcases; simpl; lia || done. Qed.

Lemma ltb_is a b x y : u128_is a x -> u128_is b y -> uint128_ltb a b = (x <? y).
Proof. intros. unfold uint128_ltb. u128_open. zcases; simpl; lia || done. Qed.

Lemma gtb_is a b x y : u128_is a x -> u128_is b y -> uint128_gtb a b = (y <? x).
Proof. intros. unfold uint128_gtb. by apply ltb_is. Qed.

Lemma geb_is a b x y : u128_is a x -> u128_is b y -> uint128_geb a b = (y <=? x).
Proof. intros. unfold uint128_geb. rewrite (ltb_is a b x y) by done. zcases; simpl; lia || done. Qed.

Lemma leb_is a b x y : u128_is a x -> u128_is b y -> uint128_leb a b = (x <=? y).
Proof. intros. unfold uint128_leb. rewrite (ltb_is b a y x) by done. zcases; simpl; lia || done. Qed.

Lemma compare_is a b x y : u128_is a x -> u128_is b y -> uint128_compare a b = (x ?= y).
Proof.
  intros. unfold uint128_compare. u128_open.
  match goal with |- _ = (?p ?= ?q) => destruct (Z.compare_spec p q) end; zcases; lia || done.
Qed.

Lemma bool_is a x : u128_is a x -> uint128_to_bool a = negb (x =? 0).
Proof. intros. unfold uint128_to_bool. u128_open. zcases; simpl; lia || done. Qed.

Lemma lnot_is a x : u128_is a x -> uint128_lnot a = (x =? 0).
Proof. intros. unfold uint128_lnot. u128_open. zcases; simpl; lia || done. Qed.

#[export] Hint Resolve of_signed_is of_unsigned_is u128_max_is add_is sub_is mul_is not_is neg_is
  or_is and_is xor_is shl_is shr_is : u128.
#[export] Hint Extern 5 (_ <= _) => lia : u128.
#[export] Hint Extern 5 (_ < _) => lia : u128.

(** ** The two branches agree *)

Lemma to_u128_is v x : u128_is v x -> Intrinsic.to_u128 v = x.
Proof.
  intros. unfold Intrinsic.to_u128. rewrite Z.shiftl_mul_pow2 by lia. u128_open.
  unfold wrap. zlia.
Qed.

Lemma of_u128_is z : 0 <= z < 2 ^ 128 -> u128_is (Intrinsic.of_u128 z) z.
Proof.
  intros Hz. unfold Intrinsic.of_u128, wrap. change (2 ^ 64 - 1) with (Z.ones 64).
  rewrite Z.land_ones, Z.shiftr_div_pow2, Zmod_mod by lia.
  eapply u128_is_conv; [apply u128_is_intro; zlia | zlia].
Qed.

(** Close [portable = intrinsic]: both sides represent the same number. *)
Ltac intrinsic_eq :=
  eapply u128_is_inj; [eauto with u128 |
    unfold Intrinsic.add, Intrinsic.sub, Intrinsic.mul, Intrinsic.neg, Intrinsic.or, Intrinsic.and,
      Intrinsic.xor, Intrinsic.not, Intrinsic.shl, Intrinsic.shr;
    repeat (erewrite to_u128_is by eassumption);
    eapply u128_is_conv; [apply of_u128_is | try reflexivity]].

Section BranchEquivalence.
Context (a b : uint128) (x y : Z) (Ha : u128_is a x) (Hb : u128_is b y).

Lemma branches_additive :
  uint128_add a b = Intrinsic.add a b /\ uint128_sub a b = Intrinsic.sub a b /\
  uint128_mul a b = Intrinsic.mul a b /\ uint128_neg a = Intrinsic.neg a.
Proof. repeat split; intrinsic_eq; apply wrap_range; lia. Qed.

Lemma branches_bitwise :
  uint128_or a b = Intrinsic.or a b /\ uint128_and a b = Intrinsic.and a b /\
  uint128_xor a b = Intrinsic.xor a b /\ uint128_not a = Intrinsic.not a.
Proof.
  pose proof (u128_is_range a x Ha). pose proof (u128_is_range b y Hb).
  repeat split; intrinsic_eq; try words; rewrite unot_val; lia.
Qed.

Lemma branches_shift n : 0 <= n < 128 ->
  uint128_shl a n = Intrinsic.shl a n /\ uint128_shr a n = Intrinsic.shr a n.
Proof.
  intros Hn. pose proof (u128_is_range a x Ha). split; intrinsic_eq.
  - apply wrap_range; lia.
  - apply ushl_val; lia.
  - apply ushr_range; lia.
  - apply ushr_val; lia.
Qed.

Lemma branches_compare :
  uint128_eqb a b = Intrinsic.eqb a b /\ uint128_ltb a b = Intrinsic.ltb a b /\
  uint128_compare a b = Intrinsic.compare a b /\ uint128_lnot a = Intrinsic.lnot a.
Proof.
  unfold Intrinsic.eqb, Intrinsic.ltb, Intrinsic.compare, Intrinsic.lnot.
  rewrite (to_u128_is a x), (to_u128_is b y) by done. repeat split.
  - by apply eqb_is.
  - by apply ltb_is.
  - rewrite (compare_is a b x y) by done. destruct (Z.compare_spec x y); zcases; lia || done.
  - by apply lnot_is.
Qed.
End BranchEquivalence.

(** ** Properties *)

(** C21: on the two 64-bit words of the portable branch, addition, subtraction, multiplication
    (schoolbook on 32-bit halves) and negation are those of the integers modulo 2^128, the
    increments and decrements add or take one, the bitwise operators and the shifts by less
    than 128 act on the 128-bit number across the boundary of the words, the comparisons decide
    its order, and every result is again well formed. *)
Theorem uint128_operators_correct a b x y n : u128_is a x -> u128_is b y -> 0 <= n < 128 ->
  u128_is (uint128_add a b) (wrap 128 (x + y)) /\ u128_is (uint128_sub a b) (wrap 128 (x - y)) /\
  u128_is (uint128_mul a b) (wrap 128 (x * y)) /\ u128_is (uint128_neg a) (wrap 128 (- x)) /\
  uint128_post_inc a = (a, uint128_pre_inc a) /\ u128_is (uint128_pre_inc a) (wrap 128 (x + 1)) /\
  uint128_post_dec a = (a, uint128_pre_dec a) /\ u128_is (uint128_pre_dec a) (wrap 128 (x - 1)) /\
  u128_is (uint128_or a b) (Z.lor x y) /\ u128_is (uint128_and a b) (Z.land x y) /\
  u128_is (uint128_xor a b) (Z.lxor x y) /\ u128_is (uint128_not a) (2 ^ 128 - 1 - x) /\
  u128_is (uint128_shl a n) (wrap 128 (x * 2 ^ n)) /\ u128_is (uint128_shr a n) (x / 2 ^ n) /\
  uint128_compare a b = (x ?= y) /\ uint128_eqb a b = (x =? y) /\ uint128_ltb a b = (x <? y) /\
  uint128_leb a b = (x <=? y) /\ uint128_gtb a b = (y <? x) /\ uint128_geb a b = (y <=? x) /\
  uint128_to_bool a = negb (x =? 0) /\ uint128_lnot a = (x =? 0).
Proof.
  intros Ha Hb Hn. pose proof (of_signed_is 1 ltac:(lia)) as H1. change (wrap 128 1) with 1 in H1.
  split_and!; try reflexivity; [by apply add_is|by apply sub_is|by apply mul_is|by apply neg_is|by apply add_is|by apply sub_is
    |by apply or_is|by apply and_is|by apply xor_is|by apply not_is|by apply shl_is|by apply shr_is
    |by apply compare_is|by apply eqb_is|by apply ltb_is|by apply leb_is|by apply gtb_is|by apply geb_is|by apply bool_is|by apply lnot_is].
Qed.

Lemma uint128_operators_correct_witness :
  u128_is (uint128_mul (MkU128 1 1) (MkU128 0 (2 ^ 64 - 1))) (wrap 128 ((2 ^ 64 + 1) * (2 ^ 64 - 1))).
Proof.
  refine (proj1 (proj2 (proj2 (uint128_operators_correct (MkU128 1 1) (MkU128 0 (2 ^ 64 - 1)) (2 ^ 64 + 1) (2 ^ 64 - 1) 1 _ _ _)))).
  - split; [split; cbn [hi_ lo_]; lia|reflexivity].
  - split; [split; cbn [hi_ lo_]; lia|reflexivity].
  - lia.
Defined.

(** The code has a branch for compilers with [unsigned __int128] and a portable branch
    on words for the others; the two compute the same objects. *)
Theorem uint128_branches_agree a b x y n : u128_is a x -> u128_is b y -> 0 <= n < 128 ->
  (uint128_add a b = Intrinsic.add a b /\ uint128_sub a b = Intrinsic.sub a b /\
   uint128_mul a b = Intrinsic.mul a b /\ uint128_neg a = Intrinsic.neg a) /\
  (uint128_or a b = Intrinsic.or a b /\ uint128_and a b = Intrinsic.and a b /\
   uint128_xor a b = Intrinsic.xor a b /\ uint128_not a = Intrinsic.not a) /\
  (uint128_shl a n = Intrinsic.shl a n /\ uint128_shr a n = Intrinsic.shr a n) /\
  (uint128_eqb a b = Intrinsic.eqb a b /\ uint128_ltb a b = Intrinsic.ltb a b /\
   uint128_compare a b = Intrinsic.compare a b /\ uint128_lnot a = Intrinsic.lnot a).
Proof.
  intros Ha Hb Hn. split_and!; try (by eapply branches_additive); try (by eapply branches_bitwise);
    try (by eapply branches_shift); by eapply branches_compare.
Qed.

Lemma uint128_branches_agree_witness : uint128_add (MkU128 0 (2 ^ 64 - 1)) (MkU128 0 1) = Intrinsic.add (MkU128 0 (2 ^ 64 - 1)) (MkU128 0 1).
Proof.
  refine (proj1 (proj1 (uint128_branches_agree (MkU128 0 (2 ^ 64 - 1)) (MkU128 0 1) (2 ^ 64 - 1) 1 0 _ _ _))).
  - split; [split; cbn [hi_ lo_]; lia|reflexivity].
  - split; [split; cbn [hi_ lo_]; lia|reflexivity].
  - lia.
Defined.
