(* ===== verification/Uint128Div.v ===== *)
(** * Long division and printing of [uint128] (numeric/int128.cc)

    The shift-subtract division with its loop, the operators built on it, and the
    conversion to text in base 8, 10 and 16 with the stream's field padding. *)
From Stdlib Require Import Ascii.
From Stdlib Require String.
From S2P Require Import Prelude Words Bits Uint128.

#[local] Open Scope u64_scope.

(** ** Operations *)

(** Position of the most significant set bit; the argument is not 0. *)
Definition Fls128 (n : uint128) : Z :=
  let hi := uint128_high64 n in
  if negb (hi =? 0) then 127 - countl_zero 64 hi
  else let low := uint128_low64 n in 63 - countl_zero 64 low.

(** The locals the loop updates. *)
Record divmod_state := DivModState { dm_dividend : uint128; dm_denominator : uint128; dm_quotient : uint128 }.

(** One iteration of the shift-subtract loop. *)
Definition divmod_step (s : divmod_state) : divmod_state :=
  let quotient := uint128_shl (dm_quotient s) 1 in
  let '(dividend, quotient) :=
    if uint128_geb (dm_dividend s) (dm_denominator s)
    then (uint128_sub (dm_dividend s) (dm_denominator s), uint128_or quotient (uint128_of_signed 1))
    else (dm_dividend s, quotient) in
  DivModState dividend (uint128_shr (dm_denominator s) 1) quotient.

(** [( *quotient_ret, *remainder_ret)]. *)
Definition DivModImpl (dividend divisor : uint128) : uint128 * uint128 :=
  if uint128_gtb divisor dividend then (uint128_of_signed 0, dividend)
  else if uint128_eqb divisor dividend then (uint128_of_signed 1, uint128_of_signed 0)
  else
    let shift := Fls128 dividend - Fls128 divisor in
    let s := for_loop (Z.to_nat (shift + 1)) divmod_step
               (DivModState dividend (uint128_shl divisor shift) (uint128_of_signed 0)) in
    (dm_quotient s, dm_dividend s).

Definition uint128_div (lhs rhs : uint128) : uint128 := fst (DivModImpl lhs rhs).
Definition uint128_mod (lhs rhs : uint128) : uint128 := snd (DivModImpl lhs rhs).

(** *** Assigning operators: the new value of [*this] *)

Inductive assign_op := AddAssign | SubAssign | MulAssign | DivAssign | ModAssign.
Inductive bit_op := OrAssign | AndAssign | XorAssign.
Inductive shift_op := ShlAssign | ShrAssign.

Definition uint128_assign (op : assign_op) (this other : uint128) : uint128 :=
  match op with
  | AddAssign => uint128_add this other
  | SubAssign => uint128_sub this other
  | MulAssign => uint128_mul this other
  | DivAssign => uint128_div this other
  | ModAssign => uint128_mod this other
  end.

Definition uint128_bit_assign (op : bit_op) (this other : uint128) : uint128 :=
  match op with
  | OrAssign => uint128_or this other
  | AndAssign => uint128_and this other
  | XorAssign => uint128_xor this other
  end.

Definition uint128_shift_assign (op : shift_op) (this : uint128) (amount : Z) : uint128 :=
  match op with ShlAssign => uint128_shl this amount | ShrAssign => uint128_shr this amount end.

(** *** Stream formatting *)

(** [std::ios_base::fmtflags], the fields the code reads. *)
Inductive basefield := BaseDec | BaseOct | BaseHex | BaseNone.
Inductive adjustfield := AdjLeft | AdjInternal | AdjRight | AdjNone.
Record fmtflags := FmtFlags
  { base_ : basefield; adjust_ : adjustfield; showbase : bool; uppercase : bool; showpos : bool }.

Definition base_of (b : basefield) : Z :=
  match b with BaseHex => 16 | BaseOct => 8 | BaseDec | BaseNone => 10 end.

(** One digit character. *)
Definition digit_char (upper : bool) (d : Z) : ascii :=
  ascii_of_N (Z.to_N (if d <? 10 then 48 + d else (if upper then 55 else 87) + d)).

(** Digits of [n] in base [b], least significant first. *)
Fixpoint ldigits (fuel : nat) (b n : Z) : list Z :=
  match fuel with
  | O => []
  | S f => n mod b :: (if n / b =? 0 then [] else ldigits f b (n / b))
  end.

(** What the standard library prints before the digits under [std::showbase]. *)
Definition base_prefix (f : fmtflags) (n : Z) : list ascii :=
  if showbase f && negb (n =? 0) then
    match base_ f with
    | BaseHex => ["0"%char; if uppercase f then "X"%char else "x"%char]
    | BaseOct => ["0"%char]
    | _ => []
    end
  else [].

Definition digits_text (f : fmtflags) (n : Z) : list ascii :=
  digit_char (uppercase f) <$> rev (ldigits 128 (base_of (base_ f)) n).

(** [os << std::setfill('0') << std::setw(width) << n] for a [uint64_t]. *)
Definition put_u64 (f : fmtflags) (width n : Z) : list ascii :=
  let text := base_prefix f n ++ digits_text f n in
  replicate (Z.to_nat (width - Z.of_nat (length text))) "0"%char ++ text.

Definition noshowbase (f : fmtflags) : fmtflags :=
  FmtFlags (base_ f) (adjust_ f) false (uppercase f) (showpos f).

(** The largest power of the base below [2^64] and its exponent. *)
Definition chunk_divisor (b : basefield) : uint128 * Z :=
  match b with
  | BaseHex => (uint128_of_unsigned 0x1000000000000000, 15)
  | BaseOct => (uint128_of_unsigned (8 ^ 21), 21)
  | BaseDec | BaseNone => (uint128_of_unsigned 10000000000000000000, 19)
  end.

Definition Uint128ToFormattedString (v : uint128) (flags : fmtflags) : list ascii :=
  let '(div, div_base_log) := chunk_divisor (base_ flags) in
  let '(high, low) := DivModImpl v div in
  let '(high, mid) := DivModImpl high div in
  let high := uint128_low64 high in
  let mid := uint128_low64 mid in
  let low := uint128_low64 low in
  if negb (high =? 0) then
    put_u64 flags 0 high ++ put_u64 (noshowbase flags) div_base_log mid
      ++ put_u64 (noshowbase flags) div_base_log low
  else if negb (mid =? 0) then
    put_u64 flags 0 mid ++ put_u64 (noshowbase flags) div_base_log low
  else put_u64 flags 0 low.

Definition dec_flags : fmtflags := FmtFlags BaseDec AdjNone false false false.

Definition uint128_to_string (v : uint128) : list ascii := Uint128ToFormattedString v dec_flags.

(** [os << v] on a stream with the given flags, width and fill: the text written. *)
Definition uint128_ostream (flags : fmtflags) (width : Z) (fill : ascii) (v : uint128) : list ascii :=
  let rep := Uint128ToFormattedString v flags in
  if Z.of_nat (length rep) <? width then
    let count := Z.to_nat (width - Z.of_nat (length rep)) in
    match adjust_ flags with
    | AdjLeft => rep ++ replicate count fill
    | AdjInternal =>
        if showbase flags && (match base_ flags with BaseHex => true | _ => false end)
           && uint128_neb v (uint128_of_signed 0)
        then take 2 rep ++ replicate count fill ++ drop 2 rep
        else replicate count fill ++ rep
    | _ => replicate count fill ++ rep
    end
  else rep.

(** ** Division *)

Lemma fls_is n z : u128_is n z -> 0 < z -> Fls128 n = Z.log2 z.
Proof.
  intros H Hz. pose proof (u128_is_range n z H).
  unfold Fls128. rewrite (u128_is_hi n z H), (u128_is_lo n z H).
  assert (D : digits_ok 64) by (unfold digits_ok; lia).
  destruct (Z.eqb_spec (z / 2 ^ 64) 0) as [E|E]; simpl negb; cbv iota.
  - apply Z.div_small_iff in E; [|lia]. rewrite Z.mod_small by lia.
    rewrite countl_zero_spec by (done || lia). zcases; lia.
  - assert (0 < z / 2 ^ 64) by zlia.
    rewrite countl_zero_spec by (done || zlia). destruct (Z.eqb_spec (z / 2 ^ 64) 0); [lia|].
    rewrite <- Z.shiftr_div_pow2, Z.log2_shiftr by lia.
    assert (64 <= Z.log2 z); [|lia]. rewrite <- (Z.log2_pow2 64) by lia. apply Z.log2_le_mono. zlia.
Qed.

(** The loop invariant after [k] of [sh + 1] iterations dividing [n] by [d]. *)
Definition divmod_inv (n d : Z) (sh : nat) (k : nat) (s : divmod_state) : Prop :=
  exists q r,
    u128_is (dm_quotient s) q /\ u128_is (dm_dividend s) r /\
    u128_is (dm_denominator s) (d * 2 ^ Z.of_nat sh / 2 ^ Z.of_nat k) /\
    n = q * (d * 2 ^ (Z.of_nat sh + 1 - Z.of_nat k)) + r /\
    0 <= r < d * 2 ^ (Z.of_nat sh + 1 - Z.of_nat k) /\
    0 <= q < 2 ^ Z.of_nat k.

Lemma divmod_step_inv n d sh k s : 0 < d -> (k < S sh)%nat -> (Z.of_nat sh < 128) ->
  divmod_inv n d sh k s -> divmod_inv n d sh (S k) (divmod_step s).
Proof.
  intros Hd Hk Hsh (q & r & Hq & Hr & Hdn & En & Br & Bq).
  set (e := Z.of_nat sh - Z.of_nat k) in *. assert (0 <= e) by lia.
  replace (Z.of_nat sh + 1 - Z.of_nat k) with (e + 1) in * by lia.
  rewrite Z.pow_add_r in * by lia. change (2 ^ 1) with 2 in *.
  assert (Ed : d * 2 ^ Z.of_nat sh / 2 ^ Z.of_nat k = d * 2 ^ e).
  { replace (Z.of_nat sh) with (e + Z.of_nat k) by lia.
    rewrite Z.pow_add_r, Z.mul_assoc, Z.div_mul by lia. done. }
  assert (Bq' : q < 2 ^ 127).
  { pose proof (Z.pow_le_mono_r 2 (Z.of_nat k) 127). lia. }
  assert (Hdn' : u128_is (uint128_shr (dm_denominator s) 1) (d * 2 ^ Z.of_nat sh / (2 * 2 ^ Z.of_nat k))).
  { eapply u128_is_conv; [apply shr_is; [exact Hdn|lia]|].
    rewrite Z.div_div by lia. f_equal. lia. }
  assert (Hq2 : u128_is (uint128_shl (dm_quotient s) 1) (2 * q)).
  { eapply u128_is_conv; [apply shl_is; [exact Hq|lia]|]. apply wrap_small || (rewrite wrap_small; lia). }
  unfold divmod_step, divmod_inv.
  rewrite (geb_is _ _ _ _ Hr Hdn), Ed.
  replace (Z.of_nat sh + 1 - Z.of_nat (S k)) with e by lia.
  rewrite Nat2Z.inj_succ, Z.pow_succ_r by lia.
  destruct (Z.leb_spec (d * 2 ^ e) r); cbn [dm_quotient dm_dividend dm_denominator].
  - exists (2 * q + 1), (r - d * 2 ^ e). split_and!; try done; try nia; try (rewrite En; ring).
    + eapply u128_is_conv; [apply or_is; [exact Hq2 | apply of_signed_is; lia]|].
      change (wrap 128 1) with 1. rewrite lor_add; [lia|].
      apply Z.bits_inj'. intros i Hi. rewrite Z.land_spec, Z.bits_0.
      destruct (Z.eq_dec i 0) as [->|]; [by rewrite Z.testbit_even_0|].
      change 1 with (2 ^ 0). rewrite testbit_pow2 by lia. zcases; [lia|]. by rewrite andb_false_r.
    + rewrite Ed in Hdn. eapply u128_is_conv; [apply sub_is; [exact Hr | exact Hdn]|].
      apply wrap_small. pose proof (u128_is_range _ _ Hr). nia.
  - exists (2 * q), r. split_and!; try done; try nia; try (rewrite En; ring).
Qed.

(** Aligning the top bits keeps the divisor in range and above half the dividend. *)
Lemma align_bounds n d sh : 0 < d -> 0 < n < 2 ^ 128 -> Z.log2 n - Z.log2 d = Z.of_nat sh ->
  d * 2 ^ Z.of_nat sh < 2 ^ 128 /\ n < d * 2 ^ (Z.of_nat sh + 1).
Proof.
  intros Hd Hn Esh. pose proof (Z.log2_spec d Hd) as [Ld1 Ld2].
  pose proof (Z.log2_spec n ltac:(lia)) as [_ Ln]. pose proof (Z.log2_nonneg d).
  pose proof (log2_lt_digits 128 n ltac:(lia) ltac:(lia)). split.
  - apply Z.lt_le_trans with (2 ^ Z.succ (Z.log2 d) * 2 ^ Z.of_nat sh); [nia|].
    rewrite <- Z.pow_add_r by lia. apply Z.pow_le_mono_r; lia.
  - apply Z.lt_le_trans with (1 := Ln).
    apply Z.le_trans with (2 ^ Z.log2 d * 2 ^ (Z.of_nat sh + 1)); [|nia].
    rewrite <- Z.pow_add_r by lia. apply Z.pow_le_mono_r; lia.
Qed.

(** Every division by a non-zero number terminates with quotient and remainder. *)
Lemma DivModImpl_is a b n d : u128_is a n -> u128_is b d -> 0 < d ->
  u128_is (fst (DivModImpl a b)) (n / d) /\ u128_is (snd (DivModImpl a b)) (n mod d).
Proof.
  intros Ha Hb Hd. pose proof (u128_is_range a n Ha). unfold DivModImpl.
  rewrite (gtb_is _ _ _ _ Hb Ha), (eqb_is _ _ _ _ Hb Ha).
  destruct (Z.ltb_spec n d); [|destruct (Z.eqb_spec d n)]; cbn [fst snd].
  - rewrite Z.div_small, Z.mod_small by lia. split; [|done]. apply of_signed_is; lia.
  - subst. rewrite Z.div_same, Z.mod_same by lia. split; apply of_signed_is; lia.
  - rewrite (fls_is a n), (fls_is b d) by (done || lia).
    pose proof (Z.log2_le_mono d n ltac:(lia)). pose proof (Z.log2_nonneg d).
    pose proof (log2_lt_digits 128 n ltac:(lia) ltac:(lia)).
    pose proof (Z.log2_spec d Hd) as [_ Ld]. pose proof (Z.log2_spec n ltac:(lia)) as [_ Ln].
    set (sh := Z.to_nat (Z.log2 n - Z.log2 d)).
    assert (Esh : Z.log2 n - Z.log2 d = Z.of_nat sh) by lia. rewrite Esh.
    replace (Z.to_nat (Z.of_nat sh + 1)) with (S sh) by lia.
    assert (Edn : d * 2 ^ Z.of_nat sh < 2 ^ 128 /\ n < d * 2 ^ (Z.of_nat sh + 1)) by (apply align_bounds; lia).
    assert (I : divmod_inv n d sh (S sh) (for_loop (S sh) divmod_step
                 (DivModState a (uint128_shl b (Z.of_nat sh)) (uint128_of_signed 0)))).
    { apply for_loop_ind.
      - exists 0, n. cbn [dm_quotient dm_dividend dm_denominator].
        rewrite Z.pow_0_r, Z.div_1_r, Z.sub_0_r. split_and!; try done; try lia.
        eapply u128_is_conv; [apply shl_is; [exact Hb|lia]|]. apply wrap_small. lia.
      - intros k s Hk. apply divmod_step_inv; lia. }
    destruct I as (q & r & Hq & Hr & _ & En & Br & _).
    replace (Z.of_nat sh + 1 - Z.of_nat (S sh)) with 0 in * by lia. rewrite Z.pow_0_r, Z.mul_1_r in *.
    split.
    + eapply u128_is_conv; [exact Hq|]. apply (Z.div_unique_pos _ _ _ r); lia.
    + eapply u128_is_conv; [exact Hr|]. apply (Z.mod_unique_pos _ _ q); lia.
Qed.

(** ** Printing *)

(** The [k] lowest digits of [n], zeros included. *)
Fixpoint fdigits (k : nat) (b n : Z) : list Z :=
  match k with
  | O => []
  | S k' => n mod b :: fdigits k' b (n / b)
  end.

(** The number a digit list (least significant first) stands for. *)
Fixpoint of_ldigits (b : Z) (l : list Z) : Z :=
  match l with
  | [] => 0
  | d :: l => d + b * of_ldigits b l
  end.

Section Digits.
Context (b : Z) (Hb : 2 <= b).

Lemma pow_succ_bound k n : 0 <= n < b ^ Z.of_nat (S k) -> 0 <= n / b < b ^ Z.of_nat k.
Proof.
  rewrite Nat2Z.inj_succ, Z.pow_succ_r by lia. intros.
  split; [apply Z.div_pos; lia | apply Z.div_lt_upper_bound; lia].
Qed.

Lemma ldigits_fuel f g n : (0 < f)%nat -> (0 < g)%nat ->
  0 <= n < b ^ Z.of_nat f -> 0 <= n < b ^ Z.of_nat g -> ldigits f b n = ldigits g b n.
Proof.
  revert g n. induction f as [|f IH]; intros [|g] n Hf Hg Bf Bg; try lia.
  cbn [ldigits]. f_equal. apply pow_succ_bound in Bf, Bg.
  destruct (Z.eqb_spec (n / b) 0) as [|Hn]; [done|].
  destruct f; [change (b ^ Z.of_nat 0) with 1 in Bf; lia|].
  destruct g; [change (b ^ Z.of_nat 0) with 1 in Bg; lia|]. apply IH; auto; lia.
Qed.

(** A number split at digit [k]. *)
Lemma ldigits_split k f hi lo : 0 < hi -> 0 <= lo < b ^ Z.of_nat k ->
  ldigits (k + f) b (hi * b ^ Z.of_nat k + lo) = fdigits k b lo ++ ldigits f b hi.
Proof.
  intros Hhi. revert lo. induction k as [|k IH]; intros lo Hlo.
  - change (b ^ Z.of_nat 0) with 1 in *. cbn [Nat.add fdigits app]. f_equal. lia.
  - pose proof (pow_succ_bound k lo Hlo) as Hq.
    cbn [Nat.add ldigits fdigits app]. rewrite Nat2Z.inj_succ, Z.pow_succ_r by lia.
    replace (hi * (b * b ^ Z.of_nat k) + lo) with (lo + hi * b ^ Z.of_nat k * b) by ring.
    rewrite Z.mod_add, Z.div_add by lia. f_equal.
    assert (0 < b ^ Z.of_nat k) by lia.
    destruct (Z.eqb_spec (lo / b + hi * b ^ Z.of_nat k) 0); [nia|].
    rewrite Z.add_comm. apply IH, Hq.
Qed.

Lemma fdigits_0 k : fdigits k b 0 = replicate k 0.
Proof. induction k as [|k IH]; [done|]. cbn [fdigits replicate]. by rewrite Z.mod_0_l, Z.div_0_l, IH by lia. Qed.

(** Fixed-width digits are the digits padded with zeros. *)
Lemma fdigits_pad k f n : (0 < k)%nat -> (0 < f)%nat ->
  0 <= n < b ^ Z.of_nat k -> 0 <= n < b ^ Z.of_nat f ->
  fdigits k b n = ldigits f b n ++ replicate (k - length (ldigits f b n)) 0.
Proof.
  revert f n. induction k as [|k IH]; intros [|f] n Hk Hf Bk Bf; try lia.
  cbn [fdigits ldigits length Nat.sub app]. apply pow_succ_bound in Bk, Bf.
  f_equal. destruct (Z.eqb_spec (n / b) 0) as [->|Hn].
  - cbn [length app]. by rewrite Nat.sub_0_r, fdigits_0.
  - destruct k; [change (b ^ Z.of_nat 0) with 1 in Bk; lia|].
    destruct f; [change (b ^ Z.of_nat 0) with 1 in Bf; lia|]. apply IH; auto; lia.
Qed.

Lemma of_ldigits_ldigits f n : (0 < f)%nat -> 0 <= n < b ^ Z.of_nat f ->
  of_ldigits b (ldigits f b n) = n.
Proof.
  revert n. induction f as [|f IH]; intros n Hf Bn; [lia|].
  apply pow_succ_bound in Bn. cbn [ldigits of_ldigits].
  destruct (Z.eqb_spec (n / b) 0) as [E|E].
  - cbn [of_ldigits]. pose proof (Z.div_mod n b). lia.
  - destruct f; [change (b ^ Z.of_nat 0) with 1 in Bn; lia|].
    rewrite IH by (done || lia). pose proof (Z.div_mod n b). lia.
Qed.
End Digits.

Lemma base_of_range f : 8 <= base_of f <= 16.
Proof. destruct f; simpl; lia. Qed.

(** [n < 2^128] fits in the digits the printer may produce. *)
Lemma base_pow_bound f n k : 0 <= n < 2 ^ (3 * k) -> 0 <= k -> 0 <= n < base_of f ^ k.
Proof.
  intros Hn Hk. pose proof (base_of_range f). split; [lia|].
  apply Z.lt_le_trans with (1 := proj2 Hn). rewrite Z.pow_mul_r by lia.
  apply Z.pow_le_mono_l. change (2 ^ 3) with 8. lia.
Qed.

Lemma digits_text_noshow f n : digits_text (noshowbase f) n = digits_text f n.
Proof. done. Qed.

(** Text of a number split at the chunk divisor. *)
Lemma digits_text_split f k hi lo : 0 < hi -> (0 < k <= 85)%nat -> 0 <= lo < base_of (base_ f) ^ Z.of_nat k ->
  hi * base_of (base_ f) ^ Z.of_nat k + lo < 2 ^ 128 ->
  digits_text f (hi * base_of (base_ f) ^ Z.of_nat k + lo)
  = digits_text f hi ++ put_u64 (noshowbase f) (Z.of_nat k) lo.
Proof.
  intros Hhi Hk Hlo Hn. pose proof (base_of_range (base_ f)) as Hb.
  set (b := base_of (base_ f)) in *.
  assert (1 <= b ^ Z.of_nat k) by (pose proof (Z.pow_pos_nonneg b (Z.of_nat k)); lia).
  assert (Bhi : 0 <= hi < 2 ^ 128) by nia. assert (Blo : 0 <= lo < 2 ^ 128) by nia.
  unfold digits_text. fold b.
  replace 128%nat with (k + (128 - k))%nat at 1 by lia.
  rewrite ldigits_split, rev_app_distr, fmap_app by lia.
  rewrite (ldigits_fuel b ltac:(lia) (128 - k) 128 hi) by
    (first [lia | apply base_pow_bound; [|lia]; pose proof (Z.pow_le_mono_r 2 128 (3 * Z.of_nat (128 - k))); lia
           | apply base_pow_bound; lia]).
  f_equal. unfold put_u64, base_prefix. cbn [showbase noshowbase andb app].
  rewrite digits_text_noshow. unfold digits_text. fold b.
  rewrite (fdigits_pad b ltac:(lia) k 128) by (first [lia | done | apply base_pow_bound; lia]).
  rewrite rev_app_distr, fmap_app, (rev_alt (replicate _ _)).
  change (rev_append ?l []) with (reverse l). rewrite reverse_replicate, fmap_replicate.
  f_equal. rewrite length_fmap, length_rev. f_equal. lia.
Qed.

Lemma put_u64_0 f n : put_u64 f 0 n = base_prefix f n ++ digits_text f n.
Proof. unfold put_u64. replace (Z.to_nat _) with 0%nat by lia. done. Qed.

Lemma base_prefix_nz f n m : n <> 0 -> m <> 0 -> base_prefix f n = base_prefix f m.
Proof. intros Hn Hm. unfold base_prefix. destruct (Z.eqb_spec n 0), (Z.eqb_spec m 0); done. Qed.

(** The chunk divisor is a power of the base that fits in 64 bits. *)
Lemma chunk_divisor_ok b : exists k, chunk_divisor b = (fst (chunk_divisor b), Z.of_nat k) /\
  (0 < k <= 85)%nat /\ u128_is (fst (chunk_divisor b)) (base_of b ^ Z.of_nat k) /\
  2 ^ 60 <= base_of b ^ Z.of_nat k < 2 ^ 64.
Proof.
  assert (G : forall z k, 2 ^ 60 <= z < 2 ^ 64 -> z = base_of b ^ Z.of_nat k ->
    u128_is (uint128_of_unsigned z) (base_of b ^ Z.of_nat k) /\ 2 ^ 60 <= base_of b ^ Z.of_nat k < 2 ^ 64).
  { intros z k Hz <-. split; [apply of_unsigned_is; lia | done]. }
  destruct b; [exists 19%nat | exists 21%nat | exists 15%nat | exists 19%nat];
  (split; [reflexivity|]; split; [lia|]; apply G; [vm_compute; intuition congruence | vm_compute; reflexivity]).
Qed.

(** The three chunks printed in a row are the digits of the whole number. *)
Lemma formatted_is v n f : u128_is v n ->
  Uint128ToFormattedString v f = base_prefix f n ++ digits_text f n.
Proof.
  intros Hv. pose proof (u128_is_range v n Hv) as Hn.
  destruct (chunk_divisor_ok (base_ f)) as (k & Ek & Hk & HD & BD).
  unfold Uint128ToFormattedString. rewrite Ek.
  set (D := base_of (base_ f) ^ Z.of_nat k) in *.
  destruct (DivModImpl_is _ _ _ _ Hv HD ltac:(lia)) as [H1 L1].
  destruct (DivModImpl v _) as [high low]. cbn [fst snd] in H1, L1.
  destruct (DivModImpl_is _ _ _ _ H1 HD ltac:(lia)) as [H2 L2].
  destruct (DivModImpl high _) as [high2 mid]. cbn [fst snd] in H2, L2.
  rewrite (u128_is_lo _ _ L1), (u128_is_lo _ _ L2), (u128_is_lo _ _ H2).
  pose proof (Z.mod_pos_bound n D ltac:(lia)). pose proof (Z.mod_pos_bound (n / D) D ltac:(lia)).
  pose proof (Z.div_mod n D ltac:(lia)) as E1. pose proof (Z.div_mod (n / D) D ltac:(lia)) as E2.
  assert (0 <= n / D) by (apply Z.div_pos; lia). assert (0 <= n / D / D) by (apply Z.div_pos; lia).
  assert (n / D / D < 2 ^ 64) by nia.
  rewrite !(Z.mod_small _ (2 ^ 64)) by lia.
  assert (T : forall m, 0 < m / D -> m < 2 ^ 128 ->
    digits_text f m = digits_text f (m / D) ++ put_u64 (noshowbase f) (Z.of_nat k) (m mod D)).
  { intros m Hm Hm'. pose proof (Z.div_mod m D ltac:(lia)). pose proof (Z.mod_pos_bound m D ltac:(lia)).
    rewrite <- digits_text_split by (fold D; lia). f_equal. fold D. lia. }
  destruct (Z.eqb_spec (n / D / D) 0) as [Z2|Z2]; simpl negb; cbv iota.
  - destruct (Z.eqb_spec (n / D mod D) 0) as [Z1|Z1]; simpl negb; cbv iota.
    + rewrite put_u64_0. replace (n mod D) with n by lia. done.
    + rewrite put_u64_0, <- app_assoc. f_equal; [apply base_prefix_nz; nia|].
      rewrite (T n) by lia. f_equal. f_equal. lia.
  - rewrite put_u64_0, <- !app_assoc. f_equal; [apply base_prefix_nz; nia|].
    rewrite (T n), (T (n / D)) by nia. by rewrite <- app_assoc.
Qed.

(** ** Reading the printed text back *)

(** The value of a digit character, [None] for any other. *)
Definition char_digit (c : ascii) : option Z :=
  let n := Z.of_N (N_of_ascii c) in
  if (48 <=? n) && (n <=? 57) then Some (n - 48)
  else if (97 <=? n) && (n <=? 102) then Some (n - 87)
  else if (65 <=? n) && (n <=? 70) then Some (n - 55)
  else None.

(** Reference reader: Horner's rule over the digits. *)
Fixpoint parse_digits (b acc : Z) (l : list ascii) : option Z :=
  match l with
  | [] => Some acc
  | c :: l => d ← char_digit c; if d <? b then parse_digits b (acc * b + d) l else None
  end.

Lemma char_digit_char u d : 0 <= d < 16 -> char_digit (digit_char u d) = Some d.
Proof.
  intros Hd.
  pose proof (zrange_forall (fun d => bool_decide (char_digit (digit_char u d) = Some d)) 16) as G.
  specialize (G ltac:(destruct u; vm_compute; reflexivity) d Hd). cbv beta in G.
  by apply bool_decide_eq_true in G.
Qed.

Lemma parse_digits_app b acc l1 l2 :
  parse_digits b acc (l1 ++ l2) = a ← parse_digits b acc l1; parse_digits b a l2.
Proof.
  revert acc. induction l1 as [|c l1 IH]; intros acc; [done|].
  cbn [app parse_digits]. destruct (char_digit c) as [d|]; [|done]. simpl.
  destruct (d <? b); [apply IH | done].
Qed.

Lemma parse_digits_rev b u l acc : b <= 16 -> Forall (fun d => 0 <= d < b) l ->
  parse_digits b acc (digit_char u <$> rev l) = Some (acc * b ^ Z.of_nat (length l) + of_ldigits b l).
Proof.
  intros Hb Hl. revert acc. induction Hl as [|d l Hd Hl IH]; intros acc.
  - cbn. f_equal. lia.
  - cbn [rev length of_ldigits]. rewrite fmap_app, parse_digits_app, IH. cbn.
    rewrite char_digit_char by lia. cbn. destruct (Z.ltb_spec d b); [|lia]. f_equal.
    rewrite Nat2Z.inj_succ, Z.pow_succ_r by lia. ring.
Qed.

Lemma ldigits_digits f b n : 2 <= b -> 0 <= n -> Forall (fun d => 0 <= d < b) (ldigits f b n).
Proof.
  intros Hb. revert n. induction f as [|f IH]; intros n Hn; cbn [ldigits]; constructor.
  - apply Z.mod_pos_bound. lia.
  - destruct (n / b =? 0); [constructor|]. apply IH. apply Z.div_pos; lia.
Qed.

Lemma parse_digits_text f n : 0 <= n < 2 ^ 128 ->
  parse_digits (base_of (base_ f)) 0 (digits_text f n) = Some n.
Proof.
  intros Hn. pose proof (base_of_range (base_ f)). unfold digits_text.
  rewrite parse_digits_rev by (try apply ldigits_digits; lia). f_equal.
  rewrite of_ldigits_ldigits; [lia | lia | lia | apply base_pow_bound; lia].
Qed.

(** ** Properties *)

(** C20: the shift-and-subtract division terminates and returns the quotient and the remainder
    for every dividend and every non-zero divisor, and agrees with the branch that uses the
    compiler's 128-bit type. *)
Theorem uint128_division_correct a b n d : u128_is a n -> u128_is b d -> 0 < d ->
  u128_is (uint128_div a b) (n / d) /\ u128_is (uint128_mod a b) (n mod d) /\
  uint128_div a b = Intrinsic.div a b /\ uint128_mod a b = Intrinsic.mod_ a b.
Proof.
  intros Ha Hb Hd. pose proof (u128_is_range a n Ha). pose proof (Z.mod_pos_bound n d Hd).
  pose proof (Z.div_pos n d ltac:(lia) Hd). assert (n / d <= n) by (apply Z.div_le_upper_bound; nia).
  assert (n mod d <= n) by (apply Z.mod_le; lia).
  destruct (DivModImpl_is a b n d Ha Hb Hd) as [Q R]. split_and!; [exact Q|exact R| |].
  - eapply u128_is_inj; [exact Q|]. unfold Intrinsic.div.
    rewrite (to_u128_is a n), (to_u128_is b d) by done. apply of_u128_is. lia.
  - eapply u128_is_inj; [exact R|]. unfold Intrinsic.mod_.
    rewrite (to_u128_is a n), (to_u128_is b d) by done. apply of_u128_is. lia.
Qed.

Lemma uint128_division_correct_witness : u128_is (uint128_div (MkU128 5 7) (MkU128 1 0)) ((5 * 2 ^ 64 + 7) / 2 ^ 64).
Proof.
  refine (proj1 (uint128_division_correct (MkU128 5 7) (MkU128 1 0) (5 * 2 ^ 64 + 7) (2 ^ 64) _ _ _)).
  - split; [split; cbn [hi_ lo_]; lia|reflexivity].
  - split; [split; cbn [hi_ lo_]; lia|reflexivity].
  - lia.
Defined.

(** C26: the text assembled from up to three 64-bit chunks is the prefix the flags ask for
    followed by the digits of the number in the stream's base, without leading zeros lost or
    added between the chunks; reading the digits back gives the number. *)
Theorem uint128_format_correct v n f : u128_is v n ->
  Uint128ToFormattedString v f = base_prefix f n ++ digits_text f n /\
  parse_digits (base_of (base_ f)) 0 (digits_text f n) = Some n /\
  uint128_to_string v = digits_text dec_flags n /\ parse_digits 10 0 (uint128_to_string v) = Some n.
Proof.
  intros H. pose proof (u128_is_range v n H). assert (E : uint128_to_string v = digits_text dec_flags n) by exact (formatted_is v n dec_flags H).
  split_and!; [by apply formatted_is|by apply parse_digits_text|exact E|]. rewrite E.
  exact (parse_digits_text dec_flags n ltac:(lia)).
Qed.

Lemma uint128_format_correct_witness : parse_digits 10 0 (uint128_to_string (MkU128 1 5)) = Some (2 ^ 64 + 5).
Proof.
  refine (proj2 (proj2 (proj2 (uint128_format_correct (MkU128 1 5) (2 ^ 64 + 5) dec_flags _)))).
  split; [split; cbn [hi_ lo_]; lia|reflexivity].
Defined.
