(* ===== verification/Int128.v ===== *)
(** * 128-bit signed integers (numeric/int128_no_intrinsic.inc, numeric/int128.cc)

    [int128] of the portable build: a signed high word and an unsigned low word.
    The additive operators add the high words as [int64_t] before the carry is
    known, so they are partial: [None] is the signed overflow of that addition. *)
From Stdlib Require Import Ascii.
From S2P Require Import Prelude Words Bits Uint128 Uint128Div.

#[local] Open Scope u64_scope.

Record int128 := MkI128 { shi_ : Z; slo_ : Z }.

#[export] Instance int128_eq_dec : EqDecision int128.
Proof. solve_decision. Defined.

(** ** Construction and access *)

Definition make_int128 (high low : Z) : int128 := MkI128 high low.
Definition int128_low64 (v : int128) : Z := slo_ v.
Definition int128_high64 (v : int128) : Z := shi_ v.
Definition int128_max : int128 := make_int128 (2 ^ 63 - 1) (2 ^ 64 - 1).
Definition int128_min : int128 := make_int128 (- 2 ^ 63) 0.

(** [~x] of a signed word and [x << n] of a signed word, the latter the value
    congruent to [x * 2^n]. *)
Definition snot (x : Z) : Z := Z.lnot x.
Definition sshl (w x n : Z) : Z := swrap w (Z.shiftl x n).

(** Constructors from the signed types, the unsigned types and [uint128]. *)
Definition int128_of_signed (v : Z) : int128 := MkI128 (if v <? 0 then snot 0 else 0) (wrap 64 v).
Definition int128_of_unsigned (v : Z) : int128 := MkI128 0 v.
Definition int128_of_uint128 (v : uint128) : int128 :=
  MkI128 (swrap 64 (uint128_high64 v)) (uint128_low64 v).

(** The constructor of [uint128] from [int128]. *)
Definition uint128_of_int128 (v : int128) : uint128 :=
  MkU128 (wrap 64 (int128_high64 v)) (int128_low64 v).

(** The cast that avoids an out-of-range conversion. *)
Definition BitCastToSigned (v : Z) : Z :=
  if negb (Z.land v (ushl 64 1 63) =? 0) then snot (unot 64 v) else v.

(** Conversions to [bool], [long long], the narrower signed types and the unsigned types. *)
Definition int128_to_bool (v : int128) : bool := negb (slo_ v =? 0) || negb (shi_ v =? 0).
Definition int128_to_long_long (v : int128) : Z := BitCastToSigned (slo_ v).
Definition int128_to_signed (w : Z) (v : int128) : Z := swrap w (int128_to_long_long v).
Definition int128_to_unsigned (w : Z) (v : int128) : Z := wrap w (slo_ v).

(** ** Comparison *)

Definition int128_eqb (lhs rhs : int128) : bool :=
  (int128_low64 lhs =? int128_low64 rhs) && (int128_high64 lhs =? int128_high64 rhs).
Definition int128_neb (lhs rhs : int128) : bool := negb (int128_eqb lhs rhs).
Definition int128_ltb (lhs rhs : int128) : bool :=
  if int128_high64 lhs =? int128_high64 rhs then int128_low64 lhs <? int128_low64 rhs
  else int128_high64 lhs <? int128_high64 rhs.
Definition int128_gtb (lhs rhs : int128) : bool :=
  if int128_high64 lhs =? int128_high64 rhs then int128_low64 rhs <? int128_low64 lhs
  else int128_high64 rhs <? int128_high64 lhs.
Definition int128_leb (lhs rhs : int128) : bool := negb (int128_gtb lhs rhs).
Definition int128_geb (lhs rhs : int128) : bool := negb (int128_ltb lhs rhs).

(** ** Unary and bitwise operators *)

Definition int128_neg (v : int128) : option int128 :=
  h ← sadd 64 (snot (int128_high64 v)) (b2z (int128_low64 v =? 0));
  Some (make_int128 h (unot 64 (int128_low64 v) ⊕ 1)).
Definition int128_lnot (v : int128) : bool := (int128_low64 v =? 0) && (int128_high64 v =? 0).
Definition int128_not (val : int128) : int128 :=
  make_int128 (snot (int128_high64 val)) (unot 64 (int128_low64 val)).
Definition int128_or (lhs rhs : int128) : int128 :=
  make_int128 (Z.lor (int128_high64 lhs) (int128_high64 rhs))
    (Z.lor (int128_low64 lhs) (int128_low64 rhs)).
Definition int128_and (lhs rhs : int128) : int128 :=
  make_int128 (Z.land (int128_high64 lhs) (int128_high64 rhs))
    (Z.land (int128_low64 lhs) (int128_low64 rhs)).
Definition int128_xor (lhs rhs : int128) : int128 :=
  make_int128 (Z.lxor (int128_high64 lhs) (int128_high64 rhs))
    (Z.lxor (int128_low64 lhs) (int128_low64 rhs)).

Definition int128_shl (lhs : int128) (amount : Z) : int128 :=
  if amount <=? 0 then lhs
  else if amount <? 63 then
    make_int128
      (Z.lor (sshl 64 (int128_high64 lhs) amount) (swrap 64 (ushr (int128_low64 lhs) (64 - amount))))
      (ushl 64 (int128_low64 lhs) amount)
  else if amount =? 63 then
    make_int128
      (Z.lor (sshl 64 (sshl 64 (int128_high64 lhs) 32) 31) (swrap 64 (ushr (int128_low64 lhs) 1)))
      (ushl 64 (ushl 64 (int128_low64 lhs) 32) 31)
  else if amount =? 127 then make_int128 (swrap 64 (ushl 64 (int128_low64 lhs) 63)) 0
  else if 127 <? amount then make_int128 0 0
  else make_int128 (swrap 64 (ushl 64 (int128_low64 lhs) (amount - 64))) 0.

Definition int128_shr (lhs : int128) (amount : Z) : int128 :=
  if amount <=? 0 then lhs
  else if amount <? 63 then
    make_int128 (Z.shiftr (int128_high64 lhs) amount)
      (Z.lor (ushr (int128_low64 lhs) amount) (ushl 64 (wrap 64 (int128_high64 lhs)) (64 - amount)))
  else if amount =? 63 then
    make_int128 (Z.shiftr (Z.shiftr (int128_high64 lhs) 32) 31)
      (Z.lor (wrap 64 (sshl 64 (int128_high64 lhs) 1)) (ushr (ushr (int128_low64 lhs) 32) 31))
  else if 127 <=? amount then
    make_int128 (Z.shiftr (Z.shiftr (int128_high64 lhs) 32) 31)
      (wrap 64 (Z.shiftr (Z.shiftr (int128_high64 lhs) 32) 31))
  else
    make_int128 (Z.shiftr (Z.shiftr (int128_high64 lhs) 32) 31)
      (wrap 64 (Z.shiftr (int128_high64 lhs) (amount - 64))).

(** ** Arithmetic *)

Definition SignedAddResult (result lhs : int128) : option int128 :=
  if int128_low64 result <? int128_low64 lhs
  then h ← sadd 64 (int128_high64 result) 1; Some (make_int128 h (int128_low64 result))
  else Some result.

Definition int128_add (lhs rhs : int128) : option int128 :=
  h ← sadd 64 (int128_high64 lhs) (int128_high64 rhs);
  SignedAddResult (make_int128 h (int128_low64 lhs ⊕ int128_low64 rhs)) lhs.

Definition SignedSubstructResult (result lhs rhs : int128) : option int128 :=
  if int128_low64 lhs <? int128_low64 rhs
  then h ← ssub 64 (int128_high64 result) 1; Some (make_int128 h (int128_low64 result))
  else Some result.

Definition int128_sub (lhs rhs : int128) : option int128 :=
  h ← ssub 64 (int128_high64 lhs) (int128_high64 rhs);
  SignedSubstructResult (make_int128 h (int128_low64 lhs ⊖ int128_low64 rhs)) lhs rhs.

Definition int128_mul (lhs rhs : int128) : int128 :=
  make_int128
    (BitCastToSigned (uint128_high64 (uint128_mul (uint128_of_int128 lhs) (uint128_of_int128 rhs))))
    (uint128_low64 (uint128_mul (uint128_of_int128 lhs) (uint128_of_int128 rhs))).

(** Pre- and post-increment and -decrement: the returned value and the new [*this]. *)
Definition int128_post_inc (this : int128) : option (int128 * int128) :=
  n ← int128_add this (int128_of_signed 1); Some (this, n).
Definition int128_post_dec (this : int128) : option (int128 * int128) :=
  n ← int128_sub this (int128_of_signed 1); Some (this, n).
Definition int128_pre_inc (this : int128) : option int128 := int128_add this (int128_of_signed 1).
Definition int128_pre_dec (this : int128) : option int128 := int128_sub this (int128_of_signed 1).

Definition UnsignedAbsoluteValue (v : int128) : uint128 :=
  if int128_high64 v <? 0 then uint128_neg (uint128_of_int128 v) else uint128_of_int128 v.

Definition int128_div (lhs rhs : int128) : int128 :=
  let '(quotient, _) := DivModImpl (UnsignedAbsoluteValue lhs) (UnsignedAbsoluteValue rhs) in
  let quotient :=
    if negb (Bool.eqb (int128_high64 lhs <? 0) (int128_high64 rhs <? 0))
    then uint128_neg quotient else quotient in
  make_int128 (BitCastToSigned (uint128_high64 quotient)) (uint128_low64 quotient).

Definition int128_mod (lhs rhs : int128) : int128 :=
  let '(_, remainder) := DivModImpl (UnsignedAbsoluteValue lhs) (UnsignedAbsoluteValue rhs) in
  let remainder := if int128_high64 lhs <? 0 then uint128_neg remainder else remainder in
  make_int128 (BitCastToSigned (uint128_high64 remainder)) (uint128_low64 remainder).

Definition int128_compare (lhs rhs : int128) : comparison :=
  if int128_high64 lhs <? int128_high64 rhs then Lt
  else if int128_high64 rhs <? int128_high64 lhs then Gt
  else if int128_low64 lhs <? int128_low64 rhs then Lt
  else if int128_low64 rhs <? int128_low64 lhs then Gt else Eq.

(** Assigning operators: the new value of [*this]. *)
Definition int128_assign (op : assign_op) (this other : int128) : option int128 :=
  match op with
  | AddAssign => int128_add this other
  | SubAssign => int128_sub this other
  | MulAssign => Some (int128_mul this other)
  | DivAssign => Some (int128_div this other)
  | ModAssign => Some (int128_mod this other)
  end.

Definition int128_bit_assign (op : bit_op) (this other : int128) : int128 :=
  match op with
  | OrAssign => int128_or this other
  | AndAssign => int128_and this other
  | XorAssign => int128_xor this other
  end.

Definition int128_shift_assign (op : shift_op) (this : int128) (amount : Z) : int128 :=
  match op with ShlAssign => int128_shl this amount | ShrAssign => int128_shr this amount end.

(** ** Printing *)

Definition int128_to_string (this : int128) : list ascii :=
  (if int128_high64 this <? 0 then ["-"%char] else [])
    ++ Uint128ToFormattedString (UnsignedAbsoluteValue this) dec_flags.

(** [os << v]: the text written, for the stream's flags, width and fill. *)
Definition int128_ostream (flags : fmtflags) (width : Z) (fill : ascii) (v : int128) : list ascii :=
  let print_as_decimal := match base_ flags with BaseDec | BaseNone => true | _ => false end in
  let rep :=
    if print_as_decimal then
      (if int128_high64 v <? 0 then ["-"%char] else if showpos flags then ["+"%char] else [])
    else [] in
  let rep := rep ++ Uint128ToFormattedString
      (if print_as_decimal then UnsignedAbsoluteValue v else uint128_of_int128 v) flags in
  if Z.of_nat (length rep) <? width then
    let count := Z.to_nat (width - Z.of_nat (length rep)) in
    match adjust_ flags with
    | AdjLeft => rep ++ replicate count fill
    | AdjInternal =>
        if print_as_decimal && (match rep with c :: _ => Ascii.eqb c "+" || Ascii.eqb c "-" | [] => false end)
        then take 1 rep ++ replicate count fill ++ drop 1 rep
        else if (match base_ flags with BaseHex => true | _ => false end) && showbase flags
             && int128_neb v (int128_of_signed 0)
        then take 2 rep ++ replicate count fill ++ drop 2 rep
        else replicate count fill ++ rep
    | _ => replicate count fill ++ rep
    end
  else rep.

(** ** Specification: the number an [int128] stands for *)

Definition i128_wf (v : int128) : Prop := - 2 ^ 63 <= shi_ v < 2 ^ 63 /\ 0 <= slo_ v < 2 ^ 64.
Definition i128_val (v : int128) : Z := shi_ v * 2 ^ 64 + slo_ v.
Definition i128_is (v : int128) (z : Z) : Prop := i128_wf v /\ i128_val v = z.

Lemma i128_is_intro h l z : - 2 ^ 63 <= h < 2 ^ 63 -> 0 <= l < 2 ^ 64 -> z = h * 2 ^ 64 + l ->
  i128_is (MkI128 h l) z.
Proof. by intros ? ? ->. Qed.

Lemma i128_is_range v z : i128_is v z -> - 2 ^ 127 <= z < 2 ^ 127.
Proof. intros [[? ?] <-]. unfold i128_val. lia. Qed.

Lemma i128_is_hi v z : i128_is v z -> int128_high64 v = z / 2 ^ 64.
Proof. intros [[? ?] <-]. unfold i128_val, int128_high64. zlia. Qed.

Lemma i128_is_lo v z : i128_is v z -> int128_low64 v = z mod 2 ^ 64.
Proof. intros [[? ?] <-]. unfold i128_val, int128_low64. zlia. Qed.

Lemma i128_is_eq v z : i128_is v z -> v = MkI128 (z / 2 ^ 64) (z mod 2 ^ 64).
Proof. intros H. rewrite <- (i128_is_hi v z H), <- (i128_is_lo v z H). by destruct v. Qed.

Lemma i128_is_inj a b z : i128_is a z -> i128_is b z -> a = b.
Proof. intros Ha Hb. by rewrite (i128_is_eq a z Ha), (i128_is_eq b z Hb). Qed.

(** The sign test of the code. *)
Lemma i128_neg v z : i128_is v z -> (int128_high64 v <? 0) = (z <? 0).
Proof. intros H. rewrite (i128_is_hi v z H). zcases; zlia || done. Qed.

Lemma BitCast_spec v : 0 <= v < 2 ^ 64 -> BitCastToSigned v = swrap 64 v.
Proof.
  intros Hv. unfold BitCastToSigned, snot. rewrite swrap_cases by lia.
  change (ushl 64 1 63) with (2 ^ 63).
  assert (E : Z.land v (2 ^ 63) = if v <? 2 ^ 63 then 0 else 2 ^ 63).
  { replace (Z.land v (2 ^ 63)) with (Z.shiftl (v / 2 ^ 63) 63).
    2: { rewrite <- Z.shiftr_div_pow2 by lia. apply Z.bits_inj'. intros i Hi.
         rewrite testbit_shiftl, Z.land_spec, testbit_pow2 by lia.
         destruct (Z.lt_ge_cases i 63); [rewrite (Z.testbit_neg_r _ (i - 63)) by lia; zcases; [lia|by rewrite andb_false_r]|].
         rewrite testbit_shiftr by lia. replace (i - 63 + 63) with i by lia.
         destruct (Z.eqb_spec 63 i); [by rewrite andb_true_r|].
         rewrite (testbit_bounded v 64 i) by lia. done. }
    rewrite Z.shiftl_mul_pow2 by lia. zcases; zlia. }
  rewrite E. rewrite unot_val by lia. unfold Z.lnot. zcases; simpl negb; cbv iota; lia.
Qed.

(** Casts between the two types. *)
Lemma to_uint128_is v z : i128_is v z -> u128_is (uint128_of_int128 v) (wrap 128 z).
Proof.
  destruct v as [h l]. intros [[Hh Hl] <-]. unfold uint128_of_int128, i128_val, wrap. cbn [shi_ slo_ int128_high64 int128_low64] in *.
  eapply u128_is_conv; [apply u128_is_intro; zlia | zlia].
Qed.

Lemma cast_back h l z : u128_is (MkU128 h l) z -> i128_is (make_int128 (BitCastToSigned h) l) (swrap 128 z).
Proof.
  intros [[Hh Hl] <-]. unfold u128_val. cbn [hi_ lo_] in *. rewrite BitCast_spec by lia.
  rewrite (swrap_cases 128) by lia. rewrite swrap_cases by lia.
  zcases; apply i128_is_intro; lia.
Qed.

Lemma of_uint128_is v z : u128_is v z -> i128_is (int128_of_uint128 v) (swrap 128 z).
Proof.
  destruct v as [h l]. intros H. unfold int128_of_uint128.
  pose proof (cast_back h l z H) as C. destruct H as [[Hh Hl] _]. cbn [hi_ lo_] in *.
  by rewrite BitCast_spec in C by lia.
Qed.

(** ** The operators compute the arithmetic of the values *)

Ltac i128_open :=
  repeat match goal with H : i128_is ?v _ |- _ =>
    let Hh := fresh "Hh" in let Hl := fresh "Hl" in
    is_var v; destruct v as [? ?]; destruct H as [[Hh Hl] <-]; cbn [shi_ slo_] in Hh, Hl
  end;
  unfold i128_val, int128_high64, int128_low64, make_int128; cbn [shi_ slo_].

Lemma i128_of_signed_is v : - 2 ^ 63 <= v < 2 ^ 63 -> i128_is (int128_of_signed v) v.
Proof.
  intros H. unfold int128_of_signed, wrap, snot. change (Z.lnot 0) with (-1).
  apply i128_is_intro; zcases; zlia.
Qed.

Lemma i128_eqb_is a b x y : i128_is a x -> i128_is b y -> int128_eqb a b = (x =? y).
Proof. intros. unfold int128_eqb. i128_open. zcases; simpl; lia || done. Qed.

Lemma i128_ltb_is a b x y : i128_is a x -> i128_is b y -> int128_ltb a b = (x <? y).
Proof. intros. unfold int128_ltb. i128_open. zcases; simpl; lia || done. Qed.

Lemma i128_gtb_is a b x y : i128_is a x -> i128_is b y -> int128_gtb a b = (y <? x).
Proof. intros. unfold int128_gtb. i128_open. zcases; simpl; lia || done. Qed.

Lemma i128_compare_is a b x y : i128_is a x -> i128_is b y -> int128_compare a b = (x ?= y).
Proof.
  intros. unfold int128_compare. i128_open.
  match goal with |- _ = (?p ?= ?q) => destruct (Z.compare_spec p q) end; zcases; lia || done.
Qed.

(** The sum: defined when it is representable and the high words do not underflow
    before the carry. *)
Lemma i128_add_is a b x y : i128_is a x -> i128_is b y ->
  - 2 ^ 63 <= x / 2 ^ 64 + y / 2 ^ 64 -> x + y < 2 ^ 127 ->
  exists r, int128_add a b = Some r /\ i128_is r (x + y).
Proof.
  intros Ha Hb. rewrite <- (i128_is_hi a x Ha), <- (i128_is_hi b y Hb). i128_open. intros Hs Hr.
  unfold int128_add, SignedAddResult. i128_open. unfold sadd, uadd, wrap.
  rewrite chk_Some by lia. simpl. i128_open. zcases.
  - rewrite chk_Some by zlia. simpl. eexists. split; [done|]. apply i128_is_intro; zlia.
  - eexists. split; [done|]. apply i128_is_intro; zlia.
Qed.

Lemma i128_add_inv a b x y r : i128_is a x -> i128_is b y -> int128_add a b = Some r ->
  i128_is r (x + y) /\ - 2 ^ 63 <= x / 2 ^ 64 + y / 2 ^ 64.
Proof.
  intros Ha Hb. rewrite <- (i128_is_hi a x Ha), <- (i128_is_hi b y Hb). i128_open. intros H.
  unfold int128_add, SignedAddResult, sadd, uadd, wrap in H.
  unfold int128_high64, int128_low64, make_int128 in H. cbn [shi_ slo_] in H. bind_inv H.
  apply chk_inv in E as [-> Hs]. cbn [shi_ slo_] in H. zcases_in H.
  - bind_inv H. apply chk_inv in E as [-> ?]. injection H as <-.
    split; [apply i128_is_intro; zlia | lia].
  - injection H as <-. split; [apply i128_is_intro; zlia | lia].
Qed.

Lemma i128_sub_is a b x y : i128_is a x -> i128_is b y ->
  x / 2 ^ 64 - y / 2 ^ 64 < 2 ^ 63 -> - 2 ^ 127 <= x - y ->
  exists r, int128_sub a b = Some r /\ i128_is r (x - y).
Proof.
  intros Ha Hb. rewrite <- (i128_is_hi a x Ha), <- (i128_is_hi b y Hb). i128_open. intros Hs Hr.
  unfold int128_sub, SignedSubstructResult. i128_open. unfold ssub, usub, wrap.
  rewrite chk_Some by lia. simpl. i128_open. zcases.
  - rewrite chk_Some by zlia. simpl. eexists. split; [done|]. apply i128_is_intro; zlia.
  - eexists. split; [done|]. apply i128_is_intro; zlia.
Qed.

Lemma i128_sub_inv a b x y r : i128_is a x -> i128_is b y -> int128_sub a b = Some r ->
  i128_is r (x - y) /\ x / 2 ^ 64 - y / 2 ^ 64 < 2 ^ 63.
Proof.
  intros Ha Hb. rewrite <- (i128_is_hi a x Ha), <- (i128_is_hi b y Hb). i128_open. intros H.
  unfold int128_sub, SignedSubstructResult, ssub, usub, wrap in H.
  unfold int128_high64, int128_low64, make_int128 in H. cbn [shi_ slo_] in H. bind_inv H.
  apply chk_inv in E as [-> Hs]. cbn [shi_ slo_] in H. zcases_in H.
  - bind_inv H. apply chk_inv in E as [-> ?]. injection H as <-.
    split; [apply i128_is_intro; zlia | lia].
  - injection H as <-. split; [apply i128_is_intro; zlia | lia].
Qed.

Lemma i128_neg_is v x : i128_is v x -> x <> - 2 ^ 127 ->
  exists r, int128_neg v = Some r /\ i128_is r (- x).
Proof.
  intros Hv. i128_open. intros Hx. unfold int128_neg, snot. i128_open. unfold sadd, b2z.
  rewrite unot_val by lia. unfold uadd, wrap, Z.lnot.
  zcases; rewrite chk_Some by lia; simpl; eexists; (split; [done|]); apply i128_is_intro; zlia.
Qed.

Lemma i128_neg_min v : i128_is v (- 2 ^ 127) -> int128_neg v = None.
Proof.
  intros Hv. by rewrite (i128_is_eq v _ Hv).
Qed.

Lemma wrap_to_swrap w z : 0 < w -> swrap w (wrap w z) = swrap w z.
Proof. apply swrap_wrap. Qed.

Lemma i128_mul_is a b x y : i128_is a x -> i128_is b y ->
  i128_is (int128_mul a b) (swrap 128 (x * y)).
Proof.
  intros Ha Hb. unfold int128_mul.
  pose proof (mul_is _ _ _ _ (to_uint128_is a x Ha) (to_uint128_is b y Hb)) as M.
  destruct (uint128_mul _ _) as [h l]. apply cast_back in M. rewrite swrap_wrap in M by lia.
  unfold swrap in *. eapply i128_is_inj in M as E; [|exact M]. clear E.
  replace ((x * y + 2 ^ (128 - 1)) mod 2 ^ 128)
    with ((wrap 128 x * wrap 128 y + 2 ^ (128 - 1)) mod 2 ^ 128); [exact M|].
  unfold wrap. rewrite <- Zplus_mod_idemp_l, <- Zmult_mod, Zplus_mod_idemp_l. done.
Qed.

(** Absolute values are exact, [int128_min] included. *)
Lemma abs_is v x : i128_is v x -> u128_is (UnsignedAbsoluteValue v) (Z.abs x).
Proof.
  intros H. pose proof (i128_is_range v x H). unfold UnsignedAbsoluteValue.
  rewrite (i128_neg v x H). pose proof (to_uint128_is v x H) as U.
  destruct (Z.ltb_spec x 0).
  - eapply u128_is_conv; [apply neg_is, U|]. unfold wrap. zlia.
  - eapply u128_is_conv; [exact U|]. unfold wrap. zlia.
Qed.

(** Turn a magnitude with a sign back into an [int128]. *)
Lemma signed_result q z (s : bool) : u128_is q z -> z <= 2 ^ 127 -> (z = 2 ^ 127 -> s = true) ->
  let r := if s then uint128_neg q else q in
  i128_is (make_int128 (BitCastToSigned (uint128_high64 r)) (uint128_low64 r)) (if s then - z else z).
Proof.
  intros Hq Hz Hs r. pose proof (u128_is_range q z Hq).
  assert (Hr : u128_is r (wrap 128 (if s then - z else z))).
  { subst r. destruct s; [by apply neg_is|]. eapply u128_is_conv; [exact Hq|]. by rewrite wrap_small by lia. }
  destruct r as [h l]. apply cast_back in Hr. rewrite swrap_wrap in Hr by lia.
  rewrite swrap_small in Hr; [exact Hr | lia|]. destruct s; [lia|].
  assert (z <> 2 ^ 127) by (intros ->; discriminate Hs; done). lia.
Qed.

(** Truncating division and remainder. *)
Lemma i128_div_is a b x y : i128_is a x -> i128_is b y -> y <> 0 ->
  ~ (x = - 2 ^ 127 /\ y = -1) -> i128_is (int128_div a b) (Z.quot x y).
Proof.
  intros Ha Hb Hy Hov. pose proof (i128_is_range a x Ha). pose proof (i128_is_range b y Hb).
  unfold int128_div.
  destruct (DivModImpl_is _ _ _ _ (abs_is a x Ha) (abs_is b y Hb) ltac:(lia)) as [Q _].
  destruct (DivModImpl _ _) as [q r]. cbn [fst] in Q. rewrite (i128_neg a x Ha), (i128_neg b y Hb).
  assert (E : Z.quot x y = if negb (Bool.eqb (x <? 0) (y <? 0)) then - (Z.abs x / Z.abs y) else Z.abs x / Z.abs y).
  { rewrite (Z.quot_div x y) by done. destruct (Z.eq_dec x 0) as [->|Hx].
    - cbn [Z.abs Z.sgn]. rewrite Z.div_0_l by lia. destruct (negb _); lia.
    - zcases; cbn [negb Bool.eqb];
        rewrite ?(Z.sgn_neg x), ?(Z.sgn_neg y), ?(Z.sgn_pos x), ?(Z.sgn_pos y) by lia; lia. }
  rewrite E. apply signed_result; [done | |].
  - apply Z.div_le_upper_bound; nia.
  - intros E2. assert (Hq : Z.abs x / Z.abs y * Z.abs y <= Z.abs x) by zlia.
    assert (Z.abs y = 1) by nia. assert (x = - 2 ^ 127) by lia. subst x.
    destruct (Z.ltb_spec y 0); [exfalso; apply Hov; lia | done].
Qed.

Lemma i128_mod_is a b x y : i128_is a x -> i128_is b y -> y <> 0 ->
  i128_is (int128_mod a b) (Z.rem x y).
Proof.
  intros Ha Hb Hy. pose proof (i128_is_range a x Ha). pose proof (i128_is_range b y Hb).
  unfold int128_mod.
  destruct (DivModImpl_is _ _ _ _ (abs_is a x Ha) (abs_is b y Hb) ltac:(lia)) as [_ R].
  destruct (DivModImpl _ _) as [q r]. cbn [snd] in R. rewrite (i128_neg a x Ha).
  pose proof (Z.mod_pos_bound (Z.abs x) (Z.abs y) ltac:(lia)).
  assert (E : Z.rem x y = if x <? 0 then - (Z.abs x mod Z.abs y) else Z.abs x mod Z.abs y).
  { rewrite (Z.rem_mod x y) by done. destruct (Z.eq_dec x 0) as [->|Hx].
    - cbn [Z.abs Z.sgn]. rewrite Z.mod_0_l by lia. done.
    - zcases; rewrite ?(Z.sgn_neg x), ?(Z.sgn_pos x) by lia; lia. }
  rewrite E. apply signed_result; [done | lia | lia].
Qed.

(** ** Bitwise operators and shifts *)

(** A number fits in [w] signed bits exactly when the bits from [w - 1] on are all equal. *)
Lemma signed_range_iff w z : 0 < w ->
  - 2 ^ (w - 1) <= z < 2 ^ (w - 1) <-> Z.shiftr z (w - 1) = 0 \/ Z.shiftr z (w - 1) = -1.
Proof.
  intros Hw. rewrite Z.shiftr_div_pow2 by lia. pose proof (Z.pow_pos_nonneg 2 (w - 1)).
  pose proof (Z.div_mod z (2 ^ (w - 1))). pose proof (Z.mod_pos_bound z (2 ^ (w - 1))). split; intros H2.
  - destruct (Z.lt_ge_cases z 0); [right | left; apply Z.div_small; lia].
    symmetry. apply (Z.div_unique_pos _ _ _ (z + 2 ^ (w - 1))); lia.
  - destruct H2 as [E|E]; rewrite E in *; lia.
Qed.

Section SignedBitwise.
Context (w a b : Z) (Hw : 0 < w) (Ha : - 2 ^ (w - 1) <= a < 2 ^ (w - 1))
  (Hb : - 2 ^ (w - 1) <= b < 2 ^ (w - 1)).

Lemma slor_range : - 2 ^ (w - 1) <= Z.lor a b < 2 ^ (w - 1).
Proof.
  apply signed_range_iff in Ha, Hb; try done. apply signed_range_iff; [done|].
  rewrite Z.shiftr_lor. destruct Ha as [-> | ->], Hb as [-> | ->]; vm_compute; auto.
Qed.
Lemma sland_range : - 2 ^ (w - 1) <= Z.land a b < 2 ^ (w - 1).
Proof.
  apply signed_range_iff in Ha, Hb; try done. apply signed_range_iff; [done|].
  rewrite Z.shiftr_land. destruct Ha as [-> | ->], Hb as [-> | ->]; vm_compute; auto.
Qed.
Lemma slxor_range : - 2 ^ (w - 1) <= Z.lxor a b < 2 ^ (w - 1).
Proof.
  apply signed_range_iff in Ha, Hb; try done. apply signed_range_iff; [done|].
  rewrite Z.shiftr_lxor. destruct Ha as [-> | ->], Hb as [-> | ->]; vm_compute; auto.
Qed.
End SignedBitwise.

Ltac i128_bits :=
  apply Z.bits_inj'; let i := fresh "i" in let Hi := fresh "Hi" in intros i Hi;
  rewrite ?testbit_hi_lo by words; unfold ushl, ushr, wrap; autorewrite with zbit;
  repeat (progress (rewrite ?testbit_hi_lo by words; zbits_goal)).

Lemma i128_or_is a b x y : i128_is a x -> i128_is b y -> i128_is (int128_or a b) (Z.lor x y).
Proof.
  intros. unfold int128_or. i128_open.
  apply i128_is_intro; [apply (slor_range 64); lia | words | i128_bits].
Qed.
Lemma i128_and_is a b x y : i128_is a x -> i128_is b y -> i128_is (int128_and a b) (Z.land x y).
Proof.
  intros. unfold int128_and. i128_open.
  apply i128_is_intro; [apply (sland_range 64); lia | words | i128_bits].
Qed.
Lemma i128_xor_is a b x y : i128_is a x -> i128_is b y -> i128_is (int128_xor a b) (Z.lxor x y).
Proof.
  intros. unfold int128_xor. i128_open.
  apply i128_is_intro; [apply (slxor_range 64); lia | words | i128_bits].
Qed.
Lemma i128_not_is a x : i128_is a x -> i128_is (int128_not a) (- x - 1).
Proof.
  intros. unfold int128_not, snot. i128_open. rewrite unot_val by lia. unfold Z.lnot.
  apply i128_is_intro; lia.
Qed.

(** Arithmetic right shift. *)
Lemma i128_shr_is a x n : i128_is a x -> 0 <= n < 128 -> i128_is (int128_shr a n) (x / 2 ^ n).
Proof.
  intros Ha Hn. rewrite <- Z.shiftr_div_pow2 by lia. unfold int128_shr.
  destruct (Z.leb_spec n 0); [replace n with 0 by lia; by rewrite Z.shiftr_0_r|]. i128_open.
  rewrite !Z.shiftr_shiftr by lia. change (32 + 31) with 63.
  assert (R : forall h k, - 2 ^ 63 <= h < 2 ^ 63 -> 0 <= k -> - 2 ^ 63 <= Z.shiftr h k < 2 ^ 63).
  { intros h k Hh' Hk. rewrite Z.shiftr_div_pow2 by lia. pose proof (Z.pow_pos_nonneg 2 k).
    split; [apply Z.div_le_lower_bound; nia | apply Z.div_lt_upper_bound; nia]. }
  destruct (Z.ltb_spec n 63).
  { apply i128_is_intro; [apply R; lia | words | i128_bits]. }
  destruct (Z.eqb_spec n 63) as [->|].
  { unfold sshl. rewrite wrap_swrap by lia. apply i128_is_intro; [apply R; lia | | i128_bits].
    words. }
  assert (T : forall h, - 2 ^ 63 <= h < 2 ^ 63 -> forall i, 63 <= i -> Z.testbit h i = Z.testbit (Z.shiftr h 63) 0).
  { intros h Hh' i Hi. apply (signed_range_iff 64) in Hh' as [E|E]; [| |lia];
      change (64 - 1) with 63 in E; rewrite E; replace i with (i - 63 + 63) by lia;
      rewrite <- Z.shiftr_spec by lia; rewrite E, ?Z.testbit_0_l, ?Z.bits_m1 by lia; done. }
  destruct (Z.leb_spec 127 n).
  - apply i128_is_intro; [apply R; lia | words |].
    apply Z.bits_inj'. intros i Hi. rewrite testbit_hi_lo by words.
    unfold wrap. autorewrite with zbit. rewrite testbit_hi_lo by words. zcases; simpl; try lia.
    + rewrite ?Z.shiftr_spec by lia. rewrite !(T shi_0) by lia. done.
    + rewrite ?Z.shiftr_spec by lia. rewrite !(T shi_0) by lia. done.
  - apply i128_is_intro; [apply R; lia | words |].
    apply Z.bits_inj'. intros i Hi. rewrite testbit_hi_lo by words.
    unfold wrap. autorewrite with zbit. rewrite testbit_hi_lo by words. zcases; simpl; try lia.
    + rewrite ?Z.shiftr_spec by lia. f_equal. lia.
    + rewrite ?Z.shiftr_spec by lia. rewrite !(T shi_0) by lia. done.
Qed.

Lemma i128_is_wrap h l z : - 2 ^ 63 <= h < 2 ^ 63 -> 0 <= l < 2 ^ 64 ->
  wrap 128 (h * 2 ^ 64 + l) = wrap 128 z -> i128_is (MkI128 h l) (swrap 128 z).
Proof.
  intros Hh Hl E. rewrite <- swrap_wrap, <- E, swrap_wrap by lia.
  rewrite swrap_small by lia. by apply i128_is_intro.
Qed.

Lemma swrap_quot w z : 0 < w -> exists q, swrap w z = z + q * 2 ^ w.
Proof.
  intros. exists (- ((z + 2 ^ (w - 1)) / 2 ^ w)). unfold swrap.
  pose proof (Z.div_mod (z + 2 ^ (w - 1)) (2 ^ w)). lia.
Qed.

(** Joining the shifted high word with the bits carried over from the low word. *)
Lemma shl_join S h l n q : 0 < n <= 63 -> S = h * 2 ^ n + q * 2 ^ 64 -> - 2 ^ 63 <= S < 2 ^ 63 ->
  0 <= l < 2 ^ 64 ->
  i128_is (make_int128 (Z.lor S (swrap 64 (ushr l (64 - n)))) (wrap 64 (l * 2 ^ n)))
    (swrap 128 ((h * 2 ^ 64 + l) * 2 ^ n)).
Proof.
  intros Hn HS HR Hl. rewrite ushr_val by lia. set (m := l / 2 ^ (64 - n)).
  assert (E64 : 2 ^ 64 = 2 ^ (64 - n) * 2 ^ n) by (rewrite <- Z.pow_add_r by lia; f_equal; lia).
  assert (E63 : 2 ^ 63 = 2 ^ (63 - n) * 2 ^ n) by (rewrite <- Z.pow_add_r by lia; f_equal; lia).
  pose proof (Z.pow_pos_nonneg 2 n ltac:(lia) ltac:(lia)) as P1.
  pose proof (Z.pow_pos_nonneg 2 (64 - n) ltac:(lia) ltac:(lia)) as P2.
  assert (Hm : 0 <= m < 2 ^ n).
  { subst m. split; [apply Z.div_pos; lia | apply Z.div_lt_upper_bound; lia]. }
  assert (2 ^ n <= 2 ^ 63) by (apply Z.pow_le_mono_r; lia).
  rewrite (swrap_small 64 m) by lia.
  assert (SK : S = (h + q * 2 ^ (64 - n)) * 2 ^ n) by (rewrite HS, E64; ring).
  set (k := h + q * 2 ^ (64 - n)) in SK. rewrite SK, lor_shiftl_add by lia.
  assert (E : wrap 64 (l * 2 ^ n) = l * 2 ^ n - m * 2 ^ 64).
  { unfold wrap. rewrite Z.mod_eq by lia.
    assert (l * 2 ^ n / 2 ^ 64 = m) as -> by (rewrite E64, Z.div_mul_cancel_r by lia; done). lia. }
  apply i128_is_wrap.
  - rewrite SK in HR. split; [lia|]. assert (k < 2 ^ (63 - n)); nia.
  - apply wrap_range. lia.
  - rewrite E, <- SK, HS. apply (wrap_eq_intro _ _ _ q); [lia|]. ring.
Qed.

Lemma i128_shl_is a x n : i128_is a x -> 0 <= n ->
  i128_is (int128_shl a n) (swrap 128 (x * 2 ^ n)).
Proof.
  intros Ha Hn. unfold int128_shl, sshl.
  destruct (Z.leb_spec n 0).
  { pose proof (i128_is_range a x Ha). replace n with 0 by lia.
    rewrite Z.mul_1_r, swrap_small by lia. done. }
  i128_open. rewrite !ushl_val, !Z.shiftl_mul_pow2 by lia.
  destruct (Z.ltb_spec n 63); [|destruct (Z.eqb_spec n 63) as [->|]].
  - destruct (swrap_quot 64 (shi_0 * 2 ^ n) ltac:(lia)) as [q Hq].
    apply (shl_join _ _ _ _ q); [lia | done | apply (swrap_range 64); lia | done].
  - destruct (swrap_quot 64 (shi_0 * 2 ^ 32) ltac:(lia)) as [q1 Hq1].
    destruct (swrap_quot 64 (swrap 64 (shi_0 * 2 ^ 32) * 2 ^ 31) ltac:(lia)) as [q2 Hq2].
    replace (wrap 64 (wrap 64 (slo_0 * 2 ^ 32) * 2 ^ 31)) with (wrap 64 (slo_0 * 2 ^ 63)).
    2: { rewrite wrap_mul_l by lia. f_equal. lia. }
    apply (shl_join _ _ _ 63 (q1 * 2 ^ 31 + q2)); [lia | | apply (swrap_range 64); lia | done].
    rewrite Hq2, Hq1. lia.
  - destruct (Z.ltb_spec 127 n).
    { destruct (Z.eqb_spec n 127); [lia|]. apply i128_is_wrap; [lia|lia|].
      apply (wrap_eq_intro _ _ _ (- ((shi_0 * 2 ^ 64 + slo_0) * 2 ^ (n - 128)))); [lia|].
      replace (2 ^ n) with (2 ^ (n - 128) * 2 ^ 128) by (rewrite <- Z.pow_add_r by lia; f_equal; lia). ring. }
    rewrite (ushl_val 64 slo_0 (n - 64)) by lia.
    match goal with |- i128_is ?t _ => replace t with (make_int128 (swrap 64 (wrap 64 (slo_0 * 2 ^ (n - 64)))) 0)
      by (destruct (Z.eqb_spec n 127) as [->|]; done) end.
    rewrite swrap_wrap by lia. destruct (swrap_quot 64 (slo_0 * 2 ^ (n - 64)) ltac:(lia)) as [q Hq].
    apply i128_is_wrap; [apply (swrap_range 64); lia | lia |]. rewrite Hq.
    apply (wrap_eq_intro _ _ _ (q - shi_0 * 2 ^ (n - 64))); [lia|].
    replace (2 ^ n) with (2 ^ (n - 64) * 2 ^ 64) by (rewrite <- Z.pow_add_r by lia; f_equal; lia). ring.
Qed.

(** ** Reading printed text back *)

(** Reference reader of a signed decimal number. *)
Definition parse_signed (l : list ascii) : option Z :=
  match l with
  | c :: l' => if Ascii.eqb c "-" then Z.opp <$> parse_digits 10 0 l' else parse_digits 10 0 l
  | [] => None
  end.

Lemma parse_signed_digits n : 0 <= n < 2 ^ 128 ->
  parse_signed (digits_text dec_flags n) = Some n.
Proof.
  intros Hn. pose proof (parse_digits_text dec_flags n Hn) as P. cbn [base_ dec_flags base_of] in P.
  destruct (digits_text dec_flags n) as [|c l] eqn:E.
  - unfold digits_text in E. apply fmap_nil_inv in E. cbn [base_of base_ dec_flags ldigits rev] in E.
    by destruct (rev _).
  - unfold parse_signed. destruct (Ascii.eqb_spec c "-") as [->|]; [|done].
    cbn in P. discriminate.
Qed.

Lemma i128_to_string_digits v z : i128_is v z ->
  int128_to_string v = (if z <? 0 then ["-"%char] else []) ++ digits_text dec_flags (Z.abs z).
Proof.
  intros H. unfold int128_to_string. rewrite (i128_neg v z H), (formatted_is _ _ _ (abs_is v z H)).
  done.
Qed.

(** ** Properties *)

(** C25: addition, subtraction and negation of the portable signed type give the exact result
    whenever they are defined. Addition and subtraction are defined exactly when the result is
    representable and the [int64_t] operation on the high words does not overflow before the
    carry or borrow of the low words is known: a sum of negative numbers that is representable
    can be lost. Negation is defined exactly on the numbers other than the minimum, where the
    [int64_t] addition on the high word overflows. *)
Theorem int128_additive_correct a b x y : i128_is a x -> i128_is b y ->
  (forall r, int128_add a b = Some r -> i128_is r (x + y)) /\
  (is_Some (int128_add a b) <-> - 2 ^ 63 <= x / 2 ^ 64 + y / 2 ^ 64 /\ x + y < 2 ^ 127) /\
  (forall r, int128_sub a b = Some r -> i128_is r (x - y)) /\
  (is_Some (int128_sub a b) <-> x / 2 ^ 64 - y / 2 ^ 64 < 2 ^ 63 /\ - 2 ^ 127 <= x - y) /\
  (forall r, int128_neg a = Some r -> i128_is r (- x)) /\
  (is_Some (int128_neg a) <-> x <> - 2 ^ 127) /\
  int128_add (make_int128 (- 2 ^ 63) (2 ^ 64 - 1)) (make_int128 (-1) 1) = None /\
  i128_is (make_int128 (- 2 ^ 63) 0)
    (i128_val (make_int128 (- 2 ^ 63) (2 ^ 64 - 1)) + i128_val (make_int128 (-1) 1)) /\
  int128_sub (make_int128 (2 ^ 63 - 1) 0) (make_int128 (-1) 1) = None /\
  i128_is (make_int128 (2 ^ 63 - 1) (2 ^ 64 - 1))
    (i128_val (make_int128 (2 ^ 63 - 1) 0) - i128_val (make_int128 (-1) 1)).
Proof.
  intros Ha Hb. split_and!; [..|vm_compute; reflexivity| |vm_compute; reflexivity|];
    [..|apply i128_is_intro; [lia|lia|vm_compute; reflexivity]|apply i128_is_intro; [lia|lia|vm_compute; reflexivity]].
  - intros r E. by destruct (i128_add_inv a b x y r Ha Hb E).
  - split.
    + intros [r E]. destruct (i128_add_inv a b x y r Ha Hb E) as [Hr Hs]. pose proof (i128_is_range _ _ Hr). lia.
    + intros [H1 H2]. destruct (i128_add_is a b x y Ha Hb H1 H2) as (r & E & _). by exists r.
  - intros r E. by destruct (i128_sub_inv a b x y r Ha Hb E).
  - split.
    + intros [r E]. destruct (i128_sub_inv a b x y r Ha Hb E) as [Hr Hs]. pose proof (i128_is_range _ _ Hr). lia.
    + intros [H1 H2]. destruct (i128_sub_is a b x y Ha Hb H1 H2) as (r & E & _). by exists r.
  - intros r E. destruct (Z.eq_dec x (- 2 ^ 127)) as [->|Hx]; [by rewrite (i128_neg_min a Ha) in E|].
    destruct (i128_neg_is a x Ha Hx) as (r' & E' & Hr). by rewrite E in E'; injection E' as <-.
  - split; [|by intros Hx; destruct (i128_neg_is a x Ha Hx) as (r & E & _); exists r].
    intros [r E] ->. by rewrite (i128_neg_min a Ha) in E.
Qed.

Lemma int128_additive_correct_witness : is_Some (int128_add (make_int128 (-1) 5) (make_int128 0 (2 ^ 64 - 1))).
Proof.
  destruct (int128_additive_correct (make_int128 (-1) 5) (make_int128 0 (2 ^ 64 - 1)) (5 - 2 ^ 64) (2 ^ 64 - 1)) as (_ & H & _).
  - apply i128_is_intro; lia.
  - apply i128_is_intro; lia.
  - apply H. vm_compute. split; [discriminate|reflexivity].
Defined.

(** multiplication is exact modulo 2^128; division truncates and the remainder takes the
    sign of the dividend, for every divisor but zero and all operands except the one quotient
    that is not representable; the bitwise operators act on the two's complement
    representation, the right shift is arithmetic, the left shift keeps the low 128 bits, and
    the comparisons decide the order of the integers. *)
Theorem int128_operators_correct a b x y n : i128_is a x -> i128_is b y -> 0 <= n ->
  i128_is (int128_mul a b) (swrap 128 (x * y)) /\
  (y <> 0 -> i128_is (int128_mod a b) (Z.rem x y)) /\
  (y <> 0 -> ~ (x = - 2 ^ 127 /\ y = -1) -> i128_is (int128_div a b) (Z.quot x y)) /\
  i128_is (int128_or a b) (Z.lor x y) /\ i128_is (int128_and a b) (Z.land x y) /\
  i128_is (int128_xor a b) (Z.lxor x y) /\ i128_is (int128_not a) (- x - 1) /\
  (n < 128 -> i128_is (int128_shr a n) (x / 2 ^ n)) /\ i128_is (int128_shl a n) (swrap 128 (x * 2 ^ n)) /\
  int128_eqb a b = (x =? y) /\ int128_ltb a b = (x <? y) /\ int128_gtb a b = (y <? x) /\
  int128_leb a b = (x <=? y) /\ int128_geb a b = (y <=? x) /\ int128_compare a b = (x ?= y).
Proof.
  intros Ha Hb Hn. split_and!; [by apply i128_mul_is|intros; by apply i128_mod_is|intros; by apply i128_div_is
    |by apply i128_or_is|by apply i128_and_is|by apply i128_xor_is|by apply i128_not_is
    |intros; apply i128_shr_is; [done|lia]|by apply i128_shl_is|by apply i128_eqb_is|by apply i128_ltb_is|by apply i128_gtb_is| | |by apply i128_compare_is].
  - unfold int128_leb. rewrite (i128_gtb_is a b x y) by done. zcases; simpl; lia || done.
  - unfold int128_geb. rewrite (i128_ltb_is a b x y) by done. zcases; simpl; lia || done.
Qed.

Lemma int128_operators_correct_witness : i128_is (int128_div (make_int128 (-1) 0) (make_int128 0 3)) (Z.quot (- 2 ^ 64) 3).
Proof.
  destruct (int128_operators_correct (make_int128 (-1) 0) (make_int128 0 3) (- 2 ^ 64) 3 4) as (_ & _ & H & _).
  - apply i128_is_intro; lia.
  - apply i128_is_intro; lia.
  - lia.
  - apply H; lia.
Defined.

(** [to_string] writes the sign and the decimal digits of the magnitude, the least number
    included, and reading the text back gives the number; casts to [uint128] and back keep
    every number. *)
Theorem int128_to_string_roundtrip v z : i128_is v z ->
  parse_signed (int128_to_string v) = Some z /\ u128_is (uint128_of_int128 v) (wrap 128 z) /\
  int128_of_uint128 (uint128_of_int128 v) = v.
Proof.
  intros H. pose proof (i128_is_range v z H). split_and!; [|by apply to_uint128_is|].
  - rewrite (i128_to_string_digits v z H). destruct (Z.ltb_spec z 0).
    + cbn [app parse_signed Ascii.eqb Bool.eqb]. pose proof (parse_digits_text dec_flags (Z.abs z) ltac:(lia)) as P.
      cbn [base_ dec_flags base_of] in P. rewrite P. cbn. f_equal. lia.
    + rewrite app_nil_l, parse_signed_digits by lia. f_equal. lia.
  - eapply i128_is_inj; [apply of_uint128_is, to_uint128_is, H|]. rewrite swrap_wrap by lia. by rewrite swrap_small by lia.
Qed.

Lemma int128_to_string_roundtrip_witness : parse_signed (int128_to_string int128_min) = Some (- 2 ^ 127).
Proof. refine (proj1 (int128_to_string_roundtrip int128_min (- 2 ^ 127) _)). apply i128_is_intro; lia. Defined.
