(* ===== verification/CivilTime.v ===== *)
(** * Civil time arithmetic (times/cctz/civil_time_detail.h)

    Year-month-day hour:minute:second fields, their normalisation from arbitrary
    64-bit arguments, stepping, differences, alignment, comparison, weekdays and
    the day of the year.  [diff_t] and [year_t] are [int64_t]: every addition,
    subtraction and multiplication of the code that could leave the range is
    checked, [None] being the signed overflow. *)
From S2P Require Import Prelude Words.

Declare Scope i64_scope.
Delimit Scope i64_scope with i64.
Notation "a +? b" := (sadd 64 a b) (at level 50, left associativity) : i64_scope.
Notation "a -? b" := (ssub 64 a b) (at level 50, left associativity) : i64_scope.
Notation "a *? b" := (smul 64 a b) (at level 40, left associativity) : i64_scope.
#[local] Open Scope i64_scope.

(** C++ division and remainder truncate towards zero. *)
Notation "a /! b" := (Z.quot a b) (at level 40, left associativity) : i64_scope.
Notation "a %! b" := (Z.rem a b) (at level 40, left associativity) : i64_scope.

(** [for (;;) { ...; if (c) break; ... }] with fuel: [body] says whether it broke. *)
Fixpoint loop {S : Type} (fuel : nat) (body : S -> option (bool * S)) (s : S) : option S :=
  match fuel with
  | O => None
  | Datatypes.S fuel' =>
      '(stop, s') ← body s;
      if (stop : bool) then Some s' else loop fuel' body s'
  end.

(** A loop whose body keeps an indexed invariant and stops before the fuel runs out. *)
Lemma loop_total {S : Type} (I : nat -> S -> Prop) (Q : S -> Prop) body fuel s :
  (0 < fuel)%nat -> I O s ->
  (forall k s, (k < fuel)%nat -> I k s -> exists stop s', body s = Some (stop, s') /\
     if (stop : bool) then Q s' else (Datatypes.S k < fuel)%nat /\ I (Datatypes.S k) s') ->
  exists s', loop fuel body s = Some s' /\ Q s'.
Proof.
  revert I s. induction fuel as [|fuel IH]; intros I s Hf H0 HS; [lia|].
  destruct (HS O s ltac:(lia) H0) as (stop & s' & E & H). simpl. rewrite E. simpl.
  destruct stop; [by eexists|]. destruct H as [Hlt H].
  apply (IH (fun k => I (Datatypes.S k))); [lia | done|].
  intros k t Hk Ht. destruct (HS (Datatypes.S k) t ltac:(lia) Ht) as (st & t' & E' & H').
  exists st, t'. split; [done|]. destruct st; [done|]. destruct H'. split; [lia|done].
Qed.

(** ** Data *)

Record fields := Fields { y : Z; m : Z; d : Z; hh : Z; mm : Z; ss : Z }.

#[export] Instance fields_eq_dec : EqDecision fields.
Proof. solve_decision. Defined.

(** The alignment tags, from [second_tag] to [year_tag]. *)
Inductive tag := second_tag | minute_tag | hour_tag | day_tag | month_tag | year_tag.

#[export] Instance tag_eq_dec : EqDecision tag.
Proof. solve_decision. Defined.

(** ** Field normalisation *)

Definition is_leap_year (y : Z) : bool :=
  (y %! 4 =? 0) && (negb (y %! 100 =? 0) || (y %! 400 =? 0)).

Definition year_index (y m : Z) : option Z :=
  y' ← y +? b2z (2 <? m);
  let yi := y' %! 400 in
  Some (if yi <? 0 then yi + 400 else yi).

Definition days_per_century (yi : Z) : Z := 36524 + b2z ((yi =? 0) || (300 <? yi)).

Definition days_per_4years (yi : Z) : Z :=
  1460 + b2z ((yi =? 0) || (300 <? yi) || ((yi - 1) %! 100 <? 96)).

Definition days_per_year (y m : Z) : option Z :=
  y' ← y +? b2z (2 <? m); Some (if is_leap_year y' then 366 else 365).

Definition k_days_per_month : list Z := [-1; 31; 28; 31; 30; 31; 30; 31; 31; 30; 31; 30; 31].

Definition days_per_month (y m : Z) : Z :=
  nth (Z.to_nat m) k_days_per_month 0 + b2z ((m =? 2) && is_leap_year y).

(** The four counting loops of [n_day]; the state is [d], [ey] and [yi] or [m]. *)
Definition century_loop : Z * Z * Z -> option (Z * Z * Z) :=
  loop 6 (fun '(d, ey, yi) =>
    let n := days_per_century yi in
    if d <=? n then Some (true, (d, ey, yi)) else
    d ← d -? n; ey ← ey +? 100;
    let yi := yi + 100 in
    Some (false, (d, ey, if 400 <=? yi then yi - 400 else yi))).

Definition four_years_loop : Z * Z * Z -> option (Z * Z * Z) :=
  loop 27 (fun '(d, ey, yi) =>
    let n := days_per_4years yi in
    if d <=? n then Some (true, (d, ey, yi)) else
    d ← d -? n; ey ← ey +? 4;
    let yi := yi + 4 in
    Some (false, (d, ey, if 400 <=? yi then yi - 400 else yi))).

Definition year_loop (m : Z) : Z * Z -> option (Z * Z) :=
  loop 6 (fun '(d, ey) =>
    n ← days_per_year ey m;
    if d <=? n then Some (true, (d, ey)) else
    d ← d -? n; ey ← ey +? 1; Some (false, (d, ey))).

Definition month_loop : Z * Z * Z -> option (Z * Z * Z) :=
  loop 15 (fun '(d, ey, m) =>
    let n := days_per_month ey m in
    if d <=? n then Some (true, (d, ey, m)) else
    d ← d -? n;
    let m := m + 1 in
    if 12 <? m then ey ← ey +? 1; Some (false, (d, ey, 1)) else Some (false, (d, ey, m))).

Definition n_day (y m d cd hh mm ss : Z) : option fields :=
  let ey := y %! 400 in
  let oey := ey in
  ey ← ey +? (cd /! 146097) * 400;
  let cd := cd %! 146097 in
  '(ey, cd) ← (if cd <? 0 then ey ← ey -? 400; cd ← cd +? 146097; Some (ey, cd) else Some (ey, cd));
  ey ← ey +? (d /! 146097) * 400;
  d ← d %! 146097 +? cd;
  '(d, ey) ←
    (if 0 <? d then
       if 146097 <? d then ey ← ey +? 400; d ← d -? 146097; Some (d, ey) else Some (d, ey)
     else if - 365 <? d then
       ey ← ey -? 1; n ← days_per_year ey m; d ← d +? n; Some (d, ey)
     else ey ← ey -? 400; d ← d +? 146097; Some (d, ey));
  '(d, ey) ←
    (if 365 <? d then
       yi ← year_index ey m;
       '(d, ey, yi) ← century_loop (d, ey, yi);
       '(d, ey, yi) ← four_years_loop (d, ey, yi);
       year_loop m (d, ey)
     else Some (d, ey));
  '(d, ey, m) ← (if 28 <? d then month_loop (d, ey, m) else Some (d, ey, m));
  dy ← ey -? oey;
  y ← y +? dy;
  Some (Fields y m (swrap 8 d) hh mm ss).

Definition n_mon (y m d cd hh mm ss : Z) : option fields :=
  '(y, m) ←
    (if negb (m =? 12) then
       y ← y +? m /! 12;
       let m := m %! 12 in
       if m <=? 0 then y ← y -? 1; m ← m +? 12; Some (y, m) else Some (y, m)
     else Some (y, m));
  n_day y (swrap 8 m) d cd hh mm ss.

Definition n_hour (y m d cd hh mm ss : Z) : option fields :=
  cd ← cd +? hh /! 24;
  let hh := hh %! 24 in
  '(cd, hh) ← (if hh <? 0 then cd ← cd -? 1; hh ← hh +? 24; Some (cd, hh) else Some (cd, hh));
  n_mon y m d cd (swrap 8 hh) mm ss.

Definition n_min (y m d hh ch mm ss : Z) : option fields :=
  ch ← ch +? mm /! 60;
  let mm := mm %! 60 in
  '(ch, mm) ← (if mm <? 0 then ch ← ch -? 1; mm ← mm +? 60; Some (ch, mm) else Some (ch, mm));
  cd ← hh /! 24 +? ch /! 24;
  hh ← hh %! 24 +? ch %! 24;
  n_hour y m d cd hh (swrap 8 mm) ss.

Definition n_sec (y m d hh mm ss : Z) : option fields :=
  if (0 <=? ss) && (ss <? 60) then
    let nss := swrap 8 ss in
    if (0 <=? mm) && (mm <? 60) then
      let nmm := swrap 8 mm in
      if (0 <=? hh) && (hh <? 24) then
        let nhh := swrap 8 hh in
        if (1 <=? d) && (d <=? 28) && (1 <=? m) && (m <=? 12) then
          Some (Fields y (swrap 8 m) (swrap 8 d) nhh nmm nss)
        else n_mon y m d 0 nhh nmm nss
      else n_hour y m d (hh /! 24) (hh %! 24) nmm nss
    else n_min y m d hh (mm /! 60) (mm %! 60) nss
  else
    let cm := ss /! 60 in
    let ss := ss %! 60 in
    '(cm, ss) ← (if ss <? 0 then cm ← cm -? 1; ss ← ss +? 60; Some (cm, ss) else Some (cm, ss));
    ch ← mm /! 60 +? cm /! 60;
    mm ← mm %! 60 +? cm %! 60;
    n_min y m d hh ch mm (swrap 8 ss).

(** ** Stepping a normalised value *)

Definition step (T : tag) (f : fields) (n : Z) : option fields :=
  match T with
  | second_tag => mm' ← mm f +? n /! 60; ss' ← ss f +? n %! 60; n_sec (y f) (m f) (d f) (hh f) mm' ss'
  | minute_tag => hh' ← hh f +? n /! 60; mm' ← mm f +? n %! 60; n_min (y f) (m f) (d f) hh' 0 mm' (ss f)
  | hour_tag => d' ← d f +? n /! 24; hh' ← hh f +? n %! 24; n_hour (y f) (m f) d' 0 hh' (mm f) (ss f)
  | day_tag => n_day (y f) (m f) (d f) n (hh f) (mm f) (ss f)
  | month_tag => y' ← y f +? n /! 12; m' ← m f +? n %! 12; n_mon y' m' (d f) 0 (hh f) (mm f) (ss f)
  | year_tag => y' ← y f +? n; Some (Fields y' (m f) (d f) (hh f) (mm f) (ss f))
  end.

(** ** Differences *)

Definition scale_add (v f a : Z) : option Z :=
  if v <? 0 then t ← v +? 1; t ← t *? f; t ← t +? a; t -? f
  else t ← v -? 1; t ← t *? f; t ← t +? a; t +? f.

Definition ymd_ord (y m d : Z) : option Z :=
  eyear ← (if m <=? 2 then y -? 1 else Some y);
  era ← (if 0 <=? eyear then Some eyear else eyear -? 399);
  let era := era /! 400 in
  yoe ← era *? 400; yoe ← eyear -? yoe;
  let doy := (153 * (m + (if 2 <? m then -3 else 9)) + 2) /! 5 + d - 1 in
  let doe := yoe * 365 + yoe /! 4 - yoe /! 100 + doy in
  r ← era *? 146097; r ← r +? doe; r -? 719468.

Definition day_difference (y1 m1 d1 y2 m2 d2 : Z) : option Z :=
  let a_c4_off := y1 %! 400 in
  let b_c4_off := y2 %! 400 in
  a ← y1 -? a_c4_off; b ← y2 -? b_c4_off; c4_diff ← a -? b;
  o1 ← ymd_ord a_c4_off m1 d1; o2 ← ymd_ord b_c4_off m2 d2; delta ← o1 -? o2;
  '(delta, c4_diff) ←
    (if (0 <? c4_diff) && (delta <? 0) then
       delta ← delta +? 2 * 146097; c4_diff ← c4_diff -? 2 * 400; Some (delta, c4_diff)
     else if (c4_diff <? 0) && (0 <? delta) then
       delta ← delta -? 2 * 146097; c4_diff ← c4_diff +? 2 * 400; Some (delta, c4_diff)
     else Some (delta, c4_diff));
  r ← c4_diff /! 400 *? 146097; r +? delta.

Definition difference_year (f1 f2 : fields) : option Z := y f1 -? y f2.
Definition difference_month (f1 f2 : fields) : option Z :=
  v ← difference_year f1 f2; scale_add v 12 (m f1 - m f2).
Definition difference_day (f1 f2 : fields) : option Z :=
  day_difference (y f1) (m f1) (d f1) (y f2) (m f2) (d f2).
Definition difference_hour (f1 f2 : fields) : option Z :=
  v ← difference_day f1 f2; scale_add v 24 (hh f1 - hh f2).
Definition difference_minute (f1 f2 : fields) : option Z :=
  v ← difference_hour f1 f2; scale_add v 60 (mm f1 - mm f2).
Definition difference_second (f1 f2 : fields) : option Z :=
  v ← difference_minute f1 f2; scale_add v 60 (ss f1 - ss f2).

Definition difference (T : tag) : fields -> fields -> option Z :=
  match T with
  | year_tag => difference_year
  | month_tag => difference_month
  | day_tag => difference_day
  | hour_tag => difference_hour
  | minute_tag => difference_minute
  | second_tag => difference_second
  end.

(** ** Alignment *)

Definition align (T : tag) (f : fields) : fields :=
  match T with
  | second_tag => f
  | minute_tag => Fields (y f) (m f) (d f) (hh f) (mm f) 0
  | hour_tag => Fields (y f) (m f) (d f) (hh f) 0 0
  | day_tag => Fields (y f) (m f) (d f) 0 0 0
  | month_tag => Fields (y f) (m f) 1 0 0 0
  | year_tag => Fields (y f) 1 1 0 0 0
  end.

(** ** [civil_time<T>]: fields kept aligned to the tag *)

Record civil_time (T : tag) := CivilTime { f_ : fields }.
Arguments CivilTime {T} _.
Arguments f_ {T} _.

(** The designated constructor, the public one and the default one. *)
Definition civil_of_fields {T} (f : fields) : civil_time T := CivilTime (align T f).
Definition civil_make T (y m d hh mm ss : Z) : option (civil_time T) :=
  f ← n_sec y m d hh mm ss; Some (civil_of_fields f).
Definition civil_default T : civil_time T := @CivilTime T (Fields 1970 1 1 0 0 0).

(** Conversion between alignments. *)
Definition civil_convert {U} T (ct : civil_time U) : civil_time T := civil_of_fields (f_ ct).

Definition civil_max T : option (civil_time T) := civil_make T (2 ^ 63 - 1) 12 31 23 59 59.
Definition civil_min T : option (civil_time T) := civil_make T (- 2 ^ 63) 1 1 0 0 0.

Definition year {T} (c : civil_time T) : Z := y (f_ c).
Definition month {T} (c : civil_time T) : Z := m (f_ c).
Definition day {T} (c : civil_time T) : Z := d (f_ c).
Definition hour {T} (c : civil_time T) : Z := hh (f_ c).
Definition minute {T} (c : civil_time T) : Z := mm (f_ c).
Definition second {T} (c : civil_time T) : Z := ss (f_ c).

Definition civil_add {T} (a : civil_time T) (n : Z) : option (civil_time T) :=
  f ← step T (f_ a) n; Some (civil_of_fields f).

(** [operator-(civil_time, diff_t)]: the minimum cannot be negated. *)
Definition civil_sub {T} (a : civil_time T) (n : Z) : option (civil_time T) :=
  if negb (n =? - 2 ^ 63) then
    n' ← chk 64 (- n); f ← step T (f_ a) n'; Some (civil_of_fields f)
  else
    n' ← n +? 1; n' ← chk 64 (- n');
    f ← step T (f_ a) n'; f ← step T f 1; Some (civil_of_fields f).

Definition civil_diff {T} (lhs rhs : civil_time T) : option Z := difference T (f_ lhs) (f_ rhs).

(** Assigning and incrementing operators: the new [*this], with the returned copy
    for the postfix forms. *)
Definition civil_add_assign {T} (this : civil_time T) (n : Z) := civil_add this n.
Definition civil_sub_assign {T} (this : civil_time T) (n : Z) := civil_sub this n.
Definition civil_pre_inc {T} (this : civil_time T) := civil_add_assign this 1.
Definition civil_post_inc {T} (this : civil_time T) : option (civil_time T * civil_time T) :=
  this' ← civil_pre_inc this; Some (this, this').
Definition civil_pre_dec {T} (this : civil_time T) := civil_sub_assign this 1.
Definition civil_post_dec {T} (this : civil_time T) : option (civil_time T * civil_time T) :=
  this' ← civil_pre_dec this; Some (this, this').

(** ** Comparison *)

Definition civil_ltb {T1 T2} (lhs : civil_time T1) (rhs : civil_time T2) : bool :=
  (year lhs <? year rhs) ||
  ((year lhs =? year rhs) && ((month lhs <? month rhs) ||
   ((month lhs =? month rhs) && ((day lhs <? day rhs) ||
    ((day lhs =? day rhs) && ((hour lhs <? hour rhs) ||
     ((hour lhs =? hour rhs) && ((minute lhs <? minute rhs) ||
      ((minute lhs =? minute rhs) && (second lhs <? second rhs)))))))))).
Definition civil_leb {T1 T2} (lhs : civil_time T1) (rhs : civil_time T2) : bool :=
  negb (civil_ltb rhs lhs).
Definition civil_geb {T1 T2} (lhs : civil_time T1) (rhs : civil_time T2) : bool :=
  negb (civil_ltb lhs rhs).
Definition civil_gtb {T1 T2} (lhs : civil_time T1) (rhs : civil_time T2) : bool := civil_ltb rhs lhs.
Definition civil_eqb {T1 T2} (lhs : civil_time T1) (rhs : civil_time T2) : bool :=
  (year lhs =? year rhs) && (month lhs =? month rhs) && (day lhs =? day rhs) &&
  (hour lhs =? hour rhs) && (minute lhs =? minute rhs) && (second lhs =? second rhs).
Definition civil_neb {T1 T2} (lhs : civil_time T1) (rhs : civil_time T2) : bool :=
  negb (civil_eqb lhs rhs).

(** ** Weekdays and the day of the year *)

Inductive weekday := monday | tuesday | wednesday | thursday | friday | saturday | sunday.

#[export] Instance weekday_eq_dec : EqDecision weekday.
Proof. solve_decision. Defined.

Definition k_weekday_by_mon_off : list weekday :=
  [monday; tuesday; wednesday; thursday; friday; saturday; sunday;
   monday; tuesday; wednesday; thursday; friday; saturday].
Definition k_weekday_offsets : list Z := [-1; 0; 3; 2; 5; 0; 3; 5; 1; 4; 6; 2; 4].

Definition get_weekday (cs : civil_time second_tag) : weekday :=
  let wd := 2400 + year cs %! 400 - b2z (month cs <? 3) in
  let wd := wd + (wd /! 4 - wd /! 100 + wd /! 400) in
  let wd := wd + (nth (Z.to_nat (month cs)) k_weekday_offsets 0 + day cs) in
  nth (Z.to_nat (wd %! 7 + 6)) k_weekday_by_mon_off monday.

Definition k_weekdays_forw : list weekday :=
  [monday; tuesday; wednesday; thursday; friday; saturday; sunday;
   monday; tuesday; wednesday; thursday; friday; saturday; sunday].
Definition k_weekdays_back : list weekday :=
  [sunday; saturday; friday; thursday; wednesday; tuesday; monday;
   sunday; saturday; friday; thursday; wednesday; tuesday; monday].

(** The first index from [i] on that holds [w]: the loops [for (;; ++i) if (w == t[i]) ...]. *)
Fixpoint weekday_scan (w : weekday) (t : list weekday) (i : Z) : option Z :=
  match t with
  | [] => None
  | x :: t => if decide (w = x) then Some i else weekday_scan w t (i + 1)
  end.

(** The two nested loops over a table: [j - i]. *)
Definition weekday_gap (base wd : weekday) (t : list weekday) : option Z :=
  i ← weekday_scan base t 0;
  j ← weekday_scan wd (drop (Z.to_nat (i + 1)) t) (i + 1);
  Some (j - i).

Definition next_weekday (cd : civil_time day_tag) (wd : weekday) : option (civil_time day_tag) :=
  let base := get_weekday (civil_convert second_tag cd) in
  k ← weekday_gap base wd k_weekdays_forw; civil_add cd k.

Definition prev_weekday (cd : civil_time day_tag) (wd : weekday) : option (civil_time day_tag) :=
  let base := get_weekday (civil_convert second_tag cd) in
  k ← weekday_gap base wd k_weekdays_back; civil_sub cd k.

Definition k_month_offsets : list Z := [-1; 0; 31; 59; 90; 120; 151; 181; 212; 243; 273; 304; 334].

Definition get_yearday (cs : civil_time second_tag) : Z :=
  let feb29 := b2z ((2 <? month cs) && is_leap_year (year cs)) in
  nth (Z.to_nat (month cs)) k_month_offsets 0 + feb29 + day cs.

(** ** Reference calendar *)

Definition leap (y : Z) : bool := (y mod 4 =? 0) && (negb (y mod 100 =? 0) || (y mod 400 =? 0)).

(** Days of the years before [y], counted from 0001-01-01, and of the months before [m]. *)
Definition days_before_year (y : Z) : Z :=
  365 * (y - 1) + (y - 1) / 4 - (y - 1) / 100 + (y - 1) / 400.
Definition days_before_month (lp : bool) (m : Z) : Z :=
  nth (Z.to_nat (m - 1)) [0; 31; 59; 90; 120; 151; 181; 212; 243; 273; 304; 334] 365 + b2z ((2 <? m) && lp).
Definition month_length (lp : bool) (m : Z) : Z :=
  nth (Z.to_nat (m - 1)) [31; if lp then 29 else 28; 31; 30; 31; 30; 31; 31; 30; 31; 30; 31] 0.

(** Days from 1970-01-01 to the first of a month, and to a date. *)
Definition first_of (y m : Z) : Z := days_before_year y + days_before_month (leap y) m - 719162.
Definition days_from_civil (y m d : Z) : Z := first_of y m + (d - 1).

Definition valid_ymd (y m d : Z) : Prop := 1 <= m <= 12 /\ 1 <= d <= month_length (leap y) m.
Definition valid_hms (hh mm ss : Z) : Prop := 0 <= hh < 24 /\ 0 <= mm < 60 /\ 0 <= ss < 60.
Definition in64 (z : Z) : Prop := - 2 ^ 63 <= z < 2 ^ 63.
Definition valid_fields (f : fields) : Prop :=
  in64 (y f) /\ valid_ymd (y f) (m f) (d f) /\ valid_hms (hh f) (mm f) (ss f).

(** Seconds from 1970-01-01 00:00:00. *)
Definition second_count (f : fields) : Z :=
  ((days_from_civil (y f) (m f) (d f) * 24 + hh f) * 60 + mm f) * 60 + ss f.

(** ** The Gregorian cycle *)

Lemma is_leap_year_spec y : is_leap_year y = leap y.
Proof.
  unfold is_leap_year, leap.
  assert (E : forall k, 0 < k -> (y %! k =? 0) = (y mod k =? 0)).
  { intros k Hk. apply Bool.eq_true_iff_eq. rewrite !Z.eqb_eq, Z.rem_divide, Z.mod_divide by lia. done. }
  by rewrite !E by lia.
Qed.

Lemma leap_cycle y q : leap (y + q * 400) = leap y.
Proof.
  unfold leap. assert (E : forall k j, 0 < k -> 400 = j * k -> (y + q * 400) mod k = y mod k).
  { intros k j Hk ->. rewrite Z.mul_assoc. apply Z_mod_plus_full. }
  rewrite (E 4 100), (E 100 4), (E 400 1) by lia. done.
Qed.

Lemma first_of_cycle y q m : first_of (y + q * 400) m = first_of y m + q * 146097.
Proof.
  unfold first_of, days_before_year. rewrite leap_cycle.
  assert (E : forall k j, 0 < k -> 400 = j * k -> (y + q * 400 - 1) / k = (y - 1) / k + q * j).
  { intros k j Hk ->. replace (y + q * (j * k) - 1) with (y - 1 + q * j * k) by ring.
    apply Z.div_add. lia. }
  rewrite (E 4 100), (E 100 4), (E 400 1) by lia. lia.
Qed.

(** A fact about all years and months holds if it is invariant under whole cycles
    and checks on one cycle. *)
Lemma cycle_check (P : Z -> Z -> bool) :
  forallb (fun r => forallb (fun k => P r (k + 1)) (zrange 12)) (zrange 400) = true ->
  forall y m, 1 <= m <= 12 -> P (y mod 400) m = true.
Proof.
  intros H y m Hm. pose proof (zrange_forall _ _ H (y mod 400)) as H'. cbv beta in H'.
  specialize (H' ltac:(apply Z.mod_pos_bound; lia)).
  pose proof (zrange_forall _ _ H' (m - 1) ltac:(lia)) as H''. cbv beta in H''.
  by replace (m - 1 + 1) with m in H'' by lia.
Qed.

(** The position of a year in the cycle, from the reader's side of February. *)
Definition cycle_index (y m : Z) : Z := (y + b2z (2 <? m)) mod 400.

Lemma cycle_index_mod y m : cycle_index y m = cycle_index (y mod 400) m.
Proof. unfold cycle_index. by rewrite Zplus_mod_idemp_l. Qed.

Lemma split_cycle y : y = y mod 400 + y / 400 * 400.
Proof. pose proof (Z.div_mod y 400). lia. Qed.

Lemma leap_mod y : leap y = leap (y mod 400).
Proof. rewrite (split_cycle y) at 1. apply leap_cycle. Qed.

Lemma first_of_mod y m k : first_of (y + k) m - first_of y m
  = first_of (y mod 400 + k) m - first_of (y mod 400) m.
Proof.
  rewrite (split_cycle y) at 1 2.
  replace (y mod 400 + y / 400 * 400 + k) with (y mod 400 + k + y / 400 * 400) by ring.
  rewrite !first_of_cycle. lia.
Qed.

Lemma year_chunks y m : 1 <= m <= 12 ->
  first_of (y + 100) m = first_of y m + days_per_century (cycle_index y m) /\
  first_of (y + 4) m = first_of y m + days_per_4years (cycle_index y m) /\
  first_of (y + 1) m = first_of y m + (if leap (y + b2z (2 <? m)) then 366 else 365).
Proof.
  intros Hm.
  pose proof (cycle_check (fun r m =>
    (first_of (r + 100) m - first_of r m =? days_per_century (cycle_index r m)) &&
    (first_of (r + 4) m - first_of r m =? days_per_4years (cycle_index r m)) &&
    (first_of (r + 1) m - first_of r m =? (if leap (r + b2z (2 <? m)) then 366 else 365)))
    ltac:(vm_compute; reflexivity) y m Hm) as H.
  cbv beta in H. rewrite !andb_true_iff, !Z.eqb_eq in H. destruct H as [[H1 H2] H3].
  pose proof (first_of_mod y m 100). pose proof (first_of_mod y m 4). pose proof (first_of_mod y m 1).
  rewrite <- cycle_index_mod in H1, H2.
  assert (leap (y mod 400 + b2z (2 <? m)) = leap (y + b2z (2 <? m))) as E.
  { rewrite (leap_mod (y + _)), (leap_mod (y mod 400 + _)). by rewrite Zplus_mod_idemp_l. }
  rewrite E in H3. lia.
Qed.

(** Adding whole months. *)
Definition next_month (y m : Z) : Z * Z := if m <? 12 then (y, m + 1) else (y + 1, 1).

Lemma month_chunk y m : 1 <= m <= 12 ->
  days_per_month y m = month_length (leap y) m /\ 28 <= month_length (leap y) m <= 31 /\
  first_of (fst (next_month y m)) (snd (next_month y m)) = first_of y m + month_length (leap y) m.
Proof.
  intros Hm.
  pose proof (cycle_check (fun r m =>
    (days_per_month r m =? month_length (leap r) m) && (28 <=? month_length (leap r) m) &&
    (month_length (leap r) m <=? 31) &&
    (first_of (fst (next_month r m)) (snd (next_month r m)) =? first_of r m + month_length (leap r) m))
    ltac:(vm_compute; reflexivity) y m Hm) as H.
  cbv beta in H. rewrite !andb_true_iff, !Z.eqb_eq, !Z.leb_le in H. destruct H as [[[H1 H2] H3] H4].
  unfold days_per_month in *. rewrite is_leap_year_spec in *. rewrite (leap_mod y).
  split_and!; try lia. unfold next_month in *.
  pose proof (fun k => first_of_cycle (y mod 400) (y / 400) k) as C.
  pose proof (fun k => first_of_cycle (y mod 400 + 1) (y / 400) k) as C1.
  replace (y mod 400 + 1 + y / 400 * 400) with (y + 1) in C1 by (pose proof (split_cycle y); lia).
  rewrite <- split_cycle in C. destruct (m <? 12); cbn [fst snd] in *; rewrite ?C, ?C1; lia.
Qed.

(** ** The counting loops *)

(** Bounds under which no year computed by [n_day] overflows. *)
Abbreviation small ey := (- 2 ^ 61 <= ey <= 2 ^ 61).

Lemma i64_add a b : - 2 ^ 63 <= a + b < 2 ^ 63 -> sadd 64 a b = Some (a + b).
Proof. apply (chk_Some 64). Qed.
Lemma i64_sub a b : - 2 ^ 63 <= a - b < 2 ^ 63 -> ssub 64 a b = Some (a - b).
Proof. apply (chk_Some 64). Qed.
Lemma sadd_chk a b : sadd 64 a b = chk 64 (a + b).
Proof. done. Qed.
Lemma ssub_chk a b : ssub 64 a b = chk 64 (a - b).
Proof. done. Qed.
Lemma i64_mul a b : - 2 ^ 63 <= a * b < 2 ^ 63 -> smul 64 a b = Some (a * b).
Proof. apply (chk_Some 64). Qed.

(** Evaluate the checked operations whose range [tac] can establish. *)
Ltac i64 tac := repeat (first [rewrite i64_add by tac | rewrite i64_sub by tac | rewrite i64_mul by tac]; cbn [mbind option_bind]).

Lemma days_per_century_range yi : 36524 <= days_per_century yi <= 36525.
Proof. unfold days_per_century, b2z. destruct (_ || _); lia. Qed.
Lemma days_per_4years_range yi : 1460 <= days_per_4years yi <= 1461.
Proof. unfold days_per_4years, b2z. destruct (_ || _); lia. Qed.

Lemma cycle_index_step y m k : 0 <= k < 400 ->
  (if 400 <=? cycle_index y m + k then cycle_index y m + k - 400 else cycle_index y m + k)
  = cycle_index (y + k) m.
Proof. intros. unfold cycle_index, b2z. destruct (2 <? m); zcases; zlia. Qed.

Lemma year_index_spec y m : small y -> year_index y m = Some (cycle_index y m).
Proof.
  intros. unfold year_index, cycle_index, b2z. i64 ltac:(destruct (2 <? m); lia).
  f_equal. destruct (2 <? m); zcases; zlia.
Qed.

Lemma days_per_year_spec y m : small y ->
  days_per_year y m = Some (if leap (y + b2z (2 <? m)) then 366 else 365).
Proof.
  intros. unfold days_per_year. i64 ltac:(unfold b2z; destruct (2 <? m); lia).
  by rewrite is_leap_year_spec.
Qed.

Lemma century_loop_spec d0 ey0 m : 1 <= m <= 12 -> 1 <= d0 <= 146097 -> - 2 ^ 60 <= ey0 <= 2 ^ 60 ->
  exists s, century_loop (d0, ey0, cycle_index ey0 m) = Some s /\
    let '(d, ey, yi) := s in first_of ey m + d = first_of ey0 m + d0 /\ yi = cycle_index ey m /\
      1 <= d <= 36525 /\ ey0 <= ey <= ey0 + 600.
Proof.
  intros Hm Hd Hy.
  apply (loop_total (fun k s => let '(d, ey, yi) := s in first_of ey m + d = first_of ey0 m + d0 /\
    yi = cycle_index ey m /\ 1 <= d <= 146097 - 36524 * Z.of_nat k /\ ey = ey0 + 100 * Z.of_nat k)); [lia|split_and!; lia || done|].
  intros k [[dd ey] yi] Hk (E & -> & Bd & Ey). cbv zeta. pose proof (days_per_century_range (cycle_index ey m)).
  destruct (year_chunks ey m Hm) as (C & _ & _). destruct (Z.leb_spec dd (days_per_century (cycle_index ey m))).
  - eexists _, _. split; [done|]. cbn. split_and!; lia || done.
  - i64 lia. eexists _, _. split; [done|]. cbn. rewrite cycle_index_step by lia. split_and!; lia || done.
Qed.

Lemma four_years_loop_spec d0 ey0 m : 1 <= m <= 12 -> 1 <= d0 <= 36525 -> small ey0 ->
  exists s, four_years_loop (d0, ey0, cycle_index ey0 m) = Some s /\
    let '(d, ey, yi) := s in first_of ey m + d = first_of ey0 m + d0 /\
      1 <= d <= 1461 /\ ey0 <= ey <= ey0 + 108.
Proof.
  intros Hm Hd Hy.
  apply (loop_total (fun k s => let '(d, ey, yi) := s in first_of ey m + d = first_of ey0 m + d0 /\
    yi = cycle_index ey m /\ 1 <= d <= 36525 - 1460 * Z.of_nat k /\ ey = ey0 + 4 * Z.of_nat k)); [lia|split_and!; lia || done|].
  intros k [[dd ey] yi] Hk (E & -> & Bd & Ey). cbv zeta. pose proof (days_per_4years_range (cycle_index ey m)).
  destruct (year_chunks ey m Hm) as (_ & C & _). destruct (Z.leb_spec dd (days_per_4years (cycle_index ey m))).
  - eexists _, _. split; [done|]. cbn. split_and!; lia || done.
  - i64 lia. eexists _, _. split; [done|]. cbn. rewrite cycle_index_step by lia. split_and!; lia || done.
Qed.

Lemma year_loop_spec d0 ey0 m : 1 <= m <= 12 -> 1 <= d0 <= 1461 -> - 2 ^ 60 - 2000 <= ey0 <= 2 ^ 60 + 2000 ->
  exists s, year_loop m (d0, ey0) = Some s /\
    let '(d, ey) := s in first_of ey m + d = first_of ey0 m + d0 /\
      1 <= d <= 366 /\ ey0 <= ey <= ey0 + 6.
Proof.
  intros Hm Hd Hy.
  apply (loop_total (fun k s => let '(d, ey) := s in first_of ey m + d = first_of ey0 m + d0 /\
    1 <= d <= 1461 - 365 * Z.of_nat k /\ ey = ey0 + Z.of_nat k)); [lia|split_and!; lia || done|].
  intros k [dd ey] Hk (E & Bd & Ey). rewrite days_per_year_spec by lia. cbn [mbind option_bind].
  destruct (year_chunks ey m Hm) as (_ & _ & C).
  set (n := if leap (ey + b2z (2 <? m)) then 366 else 365) in *.
  assert (365 <= n <= 366) by (subst n; destruct (leap _); lia). destruct (Z.leb_spec dd n).
  - eexists _, _. split; [done|]. cbn. split_and!; lia || done.
  - i64 lia. eexists _, _. split; [done|]. cbn. split_and!; lia || done.
Qed.

Lemma month_loop_spec d0 ey0 m0 : 1 <= m0 <= 12 -> 1 <= d0 <= 366 -> small ey0 ->
  exists s, month_loop (d0, ey0, m0) = Some s /\
    let '(d, ey, m) := s in first_of ey m + d = first_of ey0 m0 + d0 /\
      valid_ymd ey m d /\ ey0 <= ey <= ey0 + 15.
Proof.
  intros Hm Hd Hy.
  apply (loop_total (fun k s => let '(d, ey, m) := s in first_of ey m + d = first_of ey0 m0 + d0 /\
    1 <= m <= 12 /\ 1 <= d <= 366 - 28 * Z.of_nat k /\ ey0 <= ey <= ey0 + Z.of_nat k)); [lia|split_and!; lia || done|].
  intros k [[dd ey] m] Hk (E & Bm & Bd & Ey). cbv zeta. destruct (month_chunk ey m Bm) as (L & R & C). rewrite L.
  unfold next_month in C. destruct (Z.leb_spec dd (month_length (leap ey) m)).
  - eexists _, _. split; [done|]. cbn. unfold valid_ymd. split_and!; lia || done.
  - i64 lia. destruct (Z.ltb_spec m 12), (Z.ltb_spec 12 (m + 1)); try lia; cbn [fst snd] in C; i64 lia;
      eexists _, _; (split; [done|]); cbv beta iota; split_and!; lia || done.
Qed.

(** ** Normalising a day count *)

(** [r] is the date of day number [n] with the given time of day: undefined exactly
    when the year of that date does not fit in 64 bits. *)
Definition is_date (r : option fields) (n hh mm ss : Z) : Prop :=
  exists y m d, valid_ymd y m d /\ days_from_civil y m d = n /\
    r = (y' ← chk 64 y; Some (Fields y' m d hh mm ss)).

Lemma n_day_tail y ey oey d m hh mm ss n : in64 y -> small ey -> small oey ->
  1 <= m <= 12 -> 1 <= d <= 146097 -> - 2 ^ 59 <= ey <= 2 ^ 59 ->
  first_of (y + (ey - oey)) m + (d - 1) = n -> (exists q, y - oey = q * 400) ->
  is_date
    ('(d, ey) ←
      (if 365 <? d then
         yi ← year_index ey m;
         '(d, ey, yi) ← century_loop (d, ey, yi);
         '(d, ey, yi) ← four_years_loop (d, ey, yi);
         year_loop m (d, ey)
       else Some (d, ey));
    '(d, ey, m) ← (if 28 <? d then month_loop (d, ey, m) else Some (d, ey, m));
    dy ← ey -? oey;
    y ← y +? dy;
    Some (Fields y m (swrap 8 d) hh mm ss)) n hh mm ss.
Proof.
  intros Hy Hey Hoey Hm Hd Hey' Hn [q Hq].
  assert (Shift : forall e k, first_of (y + (e - oey)) k = first_of e k + q * 146097).
  { intros e k. replace (y + (e - oey)) with (e + q * 400) by lia. apply first_of_cycle. }
  rewrite Shift in Hn.
  assert (Y : exists d1 e1,
    (if 365 <? d then
         yi ← year_index ey m;
         '(d, ey, yi) ← century_loop (d, ey, yi);
         '(d, ey, yi) ← four_years_loop (d, ey, yi);
         year_loop m (d, ey)
       else Some (d, ey)) = Some (d1, e1) /\
    first_of e1 m + d1 = first_of ey m + d /\ 1 <= d1 <= 366 /\ ey <= e1 <= ey + 1000).
  { destruct (Z.ltb_spec 365 d); [|exists d, ey; split_and!; lia || done].
    rewrite year_index_spec by lia. cbn [mbind option_bind].
    destruct (century_loop_spec d ey m) as ([[d1 e1] yi1] & -> & E1 & -> & B1 & Y1); [lia..|].
    cbn [mbind option_bind].
    destruct (four_years_loop_spec d1 e1 m) as ([[d2 e2] yi2] & -> & E2 & B2 & Y2); [lia..|].
    cbn [mbind option_bind].
    destruct (year_loop_spec d2 e2 m) as ([d3 e3] & -> & E3 & B3 & Y3); [lia..|].
    exists d3, e3. split_and!; lia || done. }
  destruct Y as (d1 & e1 & -> & E1 & B1 & Y1). cbn [mbind option_bind].
  assert (M : exists d2 e2 m2, (if 28 <? d1 then month_loop (d1, e1, m) else Some (d1, e1, m)) = Some (d2, e2, m2) /\
    first_of e2 m2 + d2 = first_of e1 m + d1 /\ valid_ymd e2 m2 d2 /\ e1 <= e2 <= e1 + 15).
  { destruct (Z.ltb_spec 28 d1).
    - destruct (month_loop_spec d1 e1 m) as ([[d2 e2] m2] & -> & E2 & B2 & Y2); [lia..|].
      exists d2, e2, m2. done.
    - destruct (month_chunk e1 m Hm) as (_ & R & _).
      exists d1, e1, m. unfold valid_ymd. split_and!; lia || done. }
  destruct M as (d2 & e2 & m2 & -> & E2 & V2 & Y2). cbn [mbind option_bind].
  rewrite i64_sub by lia. cbn [mbind option_bind].
  exists (y + (e2 - oey)), m2, d2. destruct V2 as [Vm Vd]. destruct (month_chunk e2 m2 Vm) as (_ & R & _).
  split_and!.
  - unfold valid_ymd. replace (y + (e2 - oey)) with (e2 + q * 400) by lia. by rewrite leap_cycle.
  - unfold days_from_civil. rewrite Shift. lia.
  - rewrite (swrap_small 8) by lia. done.
Qed.

Lemma n_day_spec y m d cd hh mm ss : in64 y -> 1 <= m <= 12 -> in64 d -> in64 cd ->
  is_date (n_day y m d cd hh mm ss) (first_of y m + (d - 1) + cd) hh mm ss.
Proof.
  intros Hy Hm Hd Hcd. unfold n_day. cbv zeta. unfold in64 in *.
  pose proof (Z.quot_rem' y 400) as Q0. pose proof (Z.rem_bound_abs y 400 ltac:(lia)) as R0.
  pose proof (Z.quot_rem' cd 146097) as Q1. pose proof (Z.rem_bound_abs cd 146097 ltac:(lia)) as R1.
  pose proof (Z.quot_rem' d 146097) as Q2. pose proof (Z.rem_bound_abs d 146097 ltac:(lia)) as R2.
  set (oey := y %! 400) in *. set (qc := cd /! 146097) in *. set (rc := cd %! 146097) in *.
  set (qd := d /! 146097) in *. set (rd := d %! 146097) in *.
  i64 lia.
  assert (C : exists e c, (if rc <? 0 then Some (oey + qc * 400 - 400, rc + 146097)
      else Some (oey + qc * 400, rc)) = Some (e, c) /\
     0 <= c < 146097 /\ (exists k, e = oey + k * 400 /\ cd = k * 146097 + c)).
  { destruct (Z.ltb_spec rc 0); i64 lia.
    - eexists _, _. split_and!; [done|lia|lia|]. exists (qc - 1). lia.
    - eexists _, _. split_and!; [done|lia|lia|]. exists qc. lia. }
  destruct C as (e & c & -> & Bc & k & -> & Ec). cbn [mbind option_bind]. i64 lia.
  set (s := rd + c). set (e := oey + k * 400 + qd * 400).
  assert (D : exists d' e', (if 0 <? s then if 146097 <? s then Some (s - 146097, e + 400) else Some (s, e)
     else if - 365 <? s then n ← days_per_year (e - 1) m; d ← s +? n; Some (d, e - 1)
     else Some (s + 146097, e - 400)) = Some (d', e') /\
     1 <= d' <= 146097 /\ first_of e' m + d' = first_of e m + s /\ e - 400 <= e' <= e + 400).
  { pose proof (first_of_cycle e 1 m) as F1. pose proof (first_of_cycle e (-1) m) as F2.
    replace (e + -1 * 400) with (e - 400) in * by lia. replace (e + 1 * 400) with (e + 400) in * by lia.
    destruct (Z.ltb_spec 0 s); [destruct (Z.ltb_spec 146097 s)|destruct (Z.ltb_spec (-365) s)]; i64 lia.
    - eexists _, _. split_and!; [done|lia..].
    - eexists _, _. split_and!; [done|lia..].
    - rewrite days_per_year_spec by lia. cbn [mbind option_bind].
      destruct (year_chunks (e - 1) m Hm) as (_ & _ & C). replace (e - 1 + 1) with e in C by lia.
      destruct (leap _); i64 lia; eexists _, _; (split_and!; [done|lia..]).
    - eexists _, _. split_and!; [done|lia..]. }
  destruct D as (d' & e' & -> & Bd & Ed & Be). cbn [mbind option_bind].
  apply n_day_tail; try lia; [done| |exists (y /! 400); lia].
  replace (y + (e' - oey)) with (e' + (y /! 400) * 400) by lia. rewrite first_of_cycle.
  assert (EY : first_of e m = first_of oey m + (k + qd) * 146097).
  { rewrite <- first_of_cycle. f_equal. lia. }
  assert (EY2 : first_of y m = first_of oey m + (y /! 400) * 146097).
  { rewrite <- first_of_cycle. f_equal. lia. }
  lia.
Qed.

(** ** Normalising months, hours, minutes and seconds *)

(** First day of the month that is [m - 1] months after January of [y]. *)
Definition nth_month (y m : Z) : Z := first_of (y + (m - 1) / 12) ((m - 1) mod 12 + 1).

Lemma nth_month_in y m : 1 <= m <= 12 -> nth_month y m = first_of y m.
Proof. intros. unfold nth_month. f_equal; zlia. Qed.

(** The years that [n_mon] computes on the way are representable. *)
Definition year_ok (y m : Z) : Prop := in64 (y + m /! 12) /\ in64 (y + (m - 1) / 12).

Lemma year_ok_in y m : in64 y -> 1 <= m <= 12 -> m <> 12 -> year_ok y m.
Proof. unfold year_ok, in64. intros. split; zlia. Qed.

Lemma is_date_conv r n n' hh hh' mm mm' ss ss' : is_date r n hh mm ss ->
  n = n' -> hh = hh' -> mm = mm' -> ss = ss' -> is_date r n' hh' mm' ss'.
Proof. by intros H -> -> -> ->. Qed.

(** The truncated quotient and remainder of the code, adjusted to the floored ones. *)
Lemma borrow_spec {A} w q v (k : Z -> Z -> option A) : w = 12 \/ w = 24 \/ w = 60 -> - 2 ^ 63 < q < 2 ^ 63 ->
  ('(c, r) ← (if v %! w <? 0 then c ← q -? 1; r ← v %! w +? w; Some (c, r) else Some (q, v %! w)); k c r)
  = k (q - v /! w + v / w) (v mod w).
Proof.
  intros Hw Hq. destruct (Z.ltb_spec (v %! w) 0).
  - rewrite i64_sub, i64_add by (destruct Hw as [ -> | [ -> | -> ]]; zlia). cbn [mbind option_bind].
    f_equal; destruct Hw as [ -> | [ -> | -> ]]; zlia.
  - cbn [mbind option_bind]. f_equal; destruct Hw as [ -> | [ -> | -> ]]; zlia.
Qed.

Lemma carry_spec {A} w c v (k : Z -> Z -> option A) : w = 24 \/ w = 60 -> - 2 ^ 62 <= c <= 2 ^ 62 -> in64 v ->
  (c ← c +? v /! w;
   '(c, r) ← (if v %! w <? 0 then c ← c -? 1; r ← v %! w +? w; Some (c, r) else Some (c, v %! w)); k c r)
  = k (c + v / w) (v mod w).
Proof.
  unfold in64. intros Hw Hc Hv.
  assert (- 2 ^ 62 < v /! w < 2 ^ 62) by (destruct Hw as [ -> | -> ]; zlia).
  rewrite (i64_add c (v /! w)) by lia. cbn [mbind option_bind]. rewrite (borrow_spec w (c + v /! w) v) by (destruct Hw as [ -> | -> ]; auto || lia). f_equal. lia.
Qed.

Lemma n_mon_spec y m d cd hh mm ss : in64 y -> in64 m -> year_ok y m \/ m = 12 -> in64 d -> in64 cd ->
  is_date (n_mon y m d cd hh mm ss) (nth_month y m + (d - 1) + cd) hh mm ss.
Proof.
  unfold year_ok, in64. intros Hy Hm Hok Hd Hcd. unfold n_mon. destruct (Z.eqb_spec m 12) as [->|Hne]; cbn [negb].
  - cbn [mbind option_bind]. rewrite (swrap_small 8), nth_month_in by lia. by apply n_day_spec; [|lia|..].
  - destruct Hok as [[H1 H2]|]; [|done].
    cbv zeta. rewrite (i64_add y (m /! 12)) by done. cbn [mbind option_bind].
    destruct (Z.leb_spec (m %! 12) 0).
    + assert ((m - 1) / 12 = m /! 12 - 1) by zlia.
      rewrite i64_sub by lia. cbn [mbind option_bind]. i64 zlia.
      rewrite (swrap_small 8) by zlia. replace (y + m /! 12 - 1) with (y + (m - 1) / 12) by lia.
      replace (m %! 12 + 12) with ((m - 1) mod 12 + 1) by zlia. by apply n_day_spec; [|zlia|..].
    + cbn [mbind option_bind]. rewrite (swrap_small 8) by zlia.
      replace (m /! 12) with ((m - 1) / 12) by zlia.
      replace (m %! 12) with ((m - 1) mod 12 + 1) by zlia. by apply n_day_spec; [|zlia|..].
Qed.

Section Times.
Context (y m d : Z) (Hy : in64 y) (Hm : in64 m) (Hok : year_ok y m \/ m = 12) (Hd : in64 d).

Lemma n_hour_spec cd hh mm ss : - 2 ^ 62 <= cd <= 2 ^ 62 -> in64 hh ->
  is_date (n_hour y m d cd hh mm ss) (nth_month y m + (d - 1) + cd + hh / 24) (hh mod 24) mm ss.
Proof.
  intros Hcd Hh. unfold n_hour. cbv zeta.
  pose proof (carry_spec 24 cd hh (fun cd hh => n_mon y m d cd (swrap 8 hh) mm ss) ltac:(auto) Hcd Hh) as C.
  cbv beta in C. rewrite C. unfold in64 in *. rewrite (swrap_small 8) by zlia.
  eapply is_date_conv; [apply n_mon_spec; try done; unfold in64; zlia|lia|done..].
Qed.

Lemma n_min_spec hh ch mm ss : in64 hh -> - 2 ^ 62 <= ch <= 2 ^ 62 -> in64 mm ->
  is_date (n_min y m d hh ch mm ss) (nth_month y m + (d - 1) + (hh + ch + mm / 60) / 24)
    ((hh + ch + mm / 60) mod 24) (mm mod 60) ss.
Proof.
  intros Hh Hch Hmm. unfold n_min. cbv zeta.
  pose proof (carry_spec 60 ch mm (fun ch mm => cd ← hh /! 24 +? ch /! 24; h ← hh %! 24 +? ch %! 24;
    n_hour y m d cd h (swrap 8 mm) ss) ltac:(auto) Hch Hmm) as C.
  cbv beta in C. rewrite C. unfold in64 in *.
  assert (- 2 ^ 63 <= ch + mm / 60 < 2 ^ 63) by zlia. set (c := ch + mm / 60) in *.
  rewrite (swrap_small 8) by zlia. i64 zlia. replace (hh + ch + mm / 60) with (hh + c) by lia.
  eapply is_date_conv; [apply n_hour_spec; unfold in64; zlia|zlia|zlia|done..].
Qed.

(** The shortcuts of [n_sec] for minutes and seconds that are in range. *)
Lemma n_sec_hours hh mm ss : in64 hh ->
  is_date
    (if (0 <=? hh) && (hh <? 24) then
       if (1 <=? d) && (d <=? 28) && (1 <=? m) && (m <=? 12)
       then Some (Fields y (swrap 8 m) (swrap 8 d) (swrap 8 hh) mm ss)
       else n_mon y m d 0 (swrap 8 hh) mm ss
     else n_hour y m d (hh /! 24) (hh %! 24) mm ss)
    (nth_month y m + (d - 1) + hh / 24) (hh mod 24) mm ss.
Proof.
  intros Hh. unfold in64 in *. destruct ((0 <=? hh) && (hh <? 24)) eqn:E.
  - rewrite andb_true_iff, Z.leb_le, Z.ltb_lt in E. rewrite (swrap_small 8 hh) by lia.
    replace (hh / 24) with 0 by zlia. replace (hh mod 24) with hh by zlia.
    destruct ((1 <=? d) && (d <=? 28) && (1 <=? m) && (m <=? 12)) eqn:E'.
    + rewrite !andb_true_iff, !Z.leb_le in E'. rewrite !(swrap_small 8) by lia.
      destruct (month_chunk y m ltac:(lia)) as (_ & R & _).
      exists y, m, d. unfold valid_ymd. split_and!; [lia..|rewrite nth_month_in by lia; unfold days_from_civil; lia|].
      by rewrite chk_Some by lia.
    + apply n_mon_spec; done || unfold in64; lia.
  - eapply is_date_conv; [apply n_hour_spec; unfold in64; zlia|zlia|zlia|done..].
Qed.

(** The normal form of [civil_second(y, m, d, hh, mm, ss)]. *)
Lemma n_sec_spec hh mm ss : in64 hh -> in64 mm -> in64 ss ->
  let M := mm + ss / 60 in let H := hh + M / 60 in
  is_date (n_sec y m d hh mm ss) (nth_month y m + (d - 1) + H / 24) (H mod 24) (M mod 60) (ss mod 60).
Proof.
  intros Hh Hmm Hss M H. subst M H. unfold n_sec. cbv zeta. unfold in64 in *.
  destruct ((0 <=? ss) && (ss <? 60)) eqn:E.
  - rewrite andb_true_iff, Z.leb_le, Z.ltb_lt in E. rewrite (swrap_small 8 ss) by lia.
    replace (ss / 60) with 0 by zlia. replace (ss mod 60) with ss by zlia. rewrite Z.add_0_r. clear E Hss.
    destruct ((0 <=? mm) && (mm <? 60)) eqn:E.
    + rewrite andb_true_iff, Z.leb_le, Z.ltb_lt in E. rewrite (swrap_small 8 mm) by lia.
      replace (mm / 60) with 0 by zlia. replace (mm mod 60) with mm by zlia. rewrite Z.add_0_r.
      by apply n_sec_hours.
    + eapply is_date_conv; [apply n_min_spec; unfold in64; zlia|zlia|zlia|zlia|done].
  - clear E.
    pose proof (borrow_spec 60 (ss /! 60) ss (fun cm ss => ch ← mm /! 60 +? cm /! 60;
      mm0 ← mm %! 60 +? cm %! 60; n_min y m d hh ch mm0 (swrap 8 ss)) ltac:(auto) ltac:(zlia)) as C.
    cbv beta in C. rewrite C. replace (ss /! 60 - ss /! 60 + ss / 60) with (ss / 60) by lia.
    rewrite (swrap_small 8) by zlia. assert (- 2 ^ 60 <= ss / 60 <= 2 ^ 60) by zlia.
    set (cm := ss / 60) in *. i64 zlia.
    eapply is_date_conv; [apply n_min_spec; unfold in64; zlia|zlia|zlia|zlia|done].
Qed.
End Times.

(** ** Dates are ordered like their day numbers *)

(** Months counted from January of year 0. *)
Definition month_count (y m : Z) : Z := 12 * y + (m - 1).
Definition month_start (k : Z) : Z := first_of (k / 12) (k mod 12 + 1).

Lemma nth_month_start y m : nth_month y m = month_start (month_count y m).
Proof. unfold nth_month, month_start, month_count. f_equal; zlia. Qed.

Lemma month_start_of y m : 1 <= m <= 12 -> month_start (month_count y m) = first_of y m.
Proof. intros. rewrite <- nth_month_start. by apply nth_month_in. Qed.

Lemma month_start_succ k :
  month_start (k + 1) = month_start k + month_length (leap (k / 12)) (k mod 12 + 1) /\
  28 <= month_length (leap (k / 12)) (k mod 12 + 1).
Proof.
  unfold month_start at 2. destruct (month_chunk (k / 12) (k mod 12 + 1)) as (_ & R & C); [zlia|].
  split; [|lia]. rewrite <- C. unfold month_start, next_month.
  destruct (Z.ltb_spec (k mod 12 + 1) 12); cbn [fst snd]; f_equal; zlia.
Qed.

Lemma month_start_mono k n : 0 <= n -> month_start k + 28 * n <= month_start (k + n).
Proof.
  intros Hn. revert n Hn. apply natlike_ind; [rewrite (Z.add_0_r k); lia|].
  intros n Hn IH. destruct (month_start_succ (k + n)) as [E R].
  replace (k + Z.succ n) with (k + n + 1) by lia. lia.
Qed.

(** A date lies in its month. *)
Lemma days_in_month y m d : valid_ymd y m d ->
  month_start (month_count y m) <= days_from_civil y m d < month_start (month_count y m + 1).
Proof.
  intros [Hm Hd]. destruct (month_start_succ (month_count y m)) as [E _]. rewrite E.
  rewrite month_start_of by done. unfold days_from_civil, month_count.
  replace ((12 * y + (m - 1)) / 12) with y by zlia. replace ((12 * y + (m - 1)) mod 12 + 1) with m by zlia. lia.
Qed.

Lemma days_month_lt y m d y' m' d' : valid_ymd y m d -> valid_ymd y' m' d' ->
  month_count y m < month_count y' m' -> days_from_civil y m d < days_from_civil y' m' d'.
Proof.
  intros H H' Hlt. pose proof (days_in_month _ _ _ H). pose proof (days_in_month _ _ _ H').
  pose proof (month_start_mono (month_count y m + 1) (month_count y' m' - month_count y m - 1) ltac:(lia)) as M.
  replace (month_count y m + 1 + (month_count y' m' - month_count y m - 1)) with (month_count y' m') in M by lia. lia.
Qed.

Lemma month_count_inj y m y' m' : 1 <= m <= 12 -> 1 <= m' <= 12 ->
  month_count y m = month_count y' m' -> y = y' /\ m = m'.
Proof. unfold month_count. lia. Qed.

(** The order of dates, by cases on the months. *)
Lemma days_compare y m d y' m' d' : valid_ymd y m d -> valid_ymd y' m' d' ->
  days_from_civil y m d < days_from_civil y' m' d' <->
  month_count y m < month_count y' m' \/ (y = y' /\ m = m' /\ d < d').
Proof.
  intros H H'. destruct (Z.lt_trichotomy (month_count y m) (month_count y' m')) as [L|[E|G]].
  - pose proof (days_month_lt _ _ _ _ _ _ H H' L). lia.
  - destruct H as [Hm Hd], H' as [Hm' Hd'].
    destruct (month_count_inj _ _ _ _ Hm Hm' E) as [-> ->]. unfold days_from_civil. lia.
  - pose proof (days_month_lt _ _ _ _ _ _ H' H G).
    split; [lia|]. intros [?|(-> & -> & ?)]; lia.
Qed.

(** The calendar names every day once. *)
Lemma days_inj y m d y' m' d' : valid_ymd y m d -> valid_ymd y' m' d' ->
  days_from_civil y m d = days_from_civil y' m' d' -> y = y' /\ m = m' /\ d = d'.
Proof.
  intros H H' E. pose proof (days_compare _ _ _ _ _ _ H H') as C1. pose proof (days_compare _ _ _ _ _ _ H' H) as C2.
  destruct (Z.lt_trichotomy (month_count y m) (month_count y' m')) as [L|[EM|G]]; [lia| |lia].
  destruct (month_count_inj _ _ _ _ (proj1 H) (proj1 H') EM) as [-> ->]. lia.
Qed.

(** ** Positions: the number a tag's arithmetic counts *)

Definition days_of (f : fields) : Z := days_from_civil (y f) (m f) (d f).

Definition pos (T : tag) (f : fields) : Z :=
  match T with
  | second_tag => second_count f
  | minute_tag => (days_of f * 24 + hh f) * 60 + mm f
  | hour_tag => days_of f * 24 + hh f
  | day_tag => days_of f
  | month_tag => month_count (y f) (m f)
  | year_tag => y f
  end.

(** Valid calendar fields whose year may be out of range. *)
Definition ideal_fields (f : fields) : Prop :=
  valid_ymd (y f) (m f) (d f) /\ valid_hms (hh f) (mm f) (ss f).

(** [r] is the aligned value at position [p]: defined when its year is representable. *)
Definition is_pos (T : tag) (r : option fields) (p : Z) : Prop :=
  exists f, ideal_fields f /\ align T f = f /\ pos T f = p /\ r = (_ ← chk 64 (y f); Some f).

(** Aligned values are ordered by their positions. *)
Lemma pos_year_le T f g : ideal_fields f -> ideal_fields g -> pos T f <= pos T g -> y f <= y g.
Proof.
  intros [V [Vh [Vm Vs]]] [V' [Vh' [Vm' Vs']]]. pose proof (days_compare _ _ _ _ _ _ V' V) as C. destruct V, V'.
  unfold month_count in C. destruct T; cbn [pos]; unfold second_count, days_of, month_count; lia.
Qed.

Lemma align_idem T f : align T (align T f) = align T f.
Proof. by destruct T, f. Qed.

Lemma align_pos T f : pos T (align T f) = pos T f.
Proof. by destruct T. Qed.

Lemma month_length_ge lp m : 1 <= m <= 12 -> 28 <= month_length lp m <= 31.
Proof.
  intros Hm. pose proof (zrange_forall (fun k => (28 <=? month_length lp (k + 1)) && (month_length lp (k + 1) <=? 31)) 12) as G.
  specialize (G ltac:(destruct lp; vm_compute; reflexivity) (m - 1) ltac:(lia)). cbv beta in G.
  rewrite andb_true_iff, !Z.leb_le in G. by replace (m - 1 + 1) with m in G by lia.
Qed.

Lemma align_ideal T f : ideal_fields f -> ideal_fields (align T f).
Proof.
  intros [[Hm Hd] (Hh & Hmm & Hs)]. pose proof (month_length_ge (leap (y f)) (m f) Hm).
  pose proof (month_length_ge (leap (y f)) 1 ltac:(lia)).
  destruct T; cbn -[month_length]; unfold ideal_fields, valid_ymd, valid_hms; cbn -[month_length]; lia.
Qed.

(** An aligned value is determined by its position. *)
Lemma pos_inj T f g : ideal_fields f -> ideal_fields g -> align T f = f -> align T g = g ->
  pos T f = pos T g -> f = g.
Proof.
  intros [V [Vh [Vm Vs]]] [V' [Vh' [Vm' Vs']]] Af Ag E.
  pose proof (days_inj _ _ _ _ _ _ V V') as I. destruct V as [Vm0 _], V' as [Vm0' _].
  pose proof (month_count_inj (y f) _ (y g) _ Vm0 Vm0') as I2.
  destruct f as [y1 m1 d1 h1 mi1 s1], g as [y2 m2 d2 h2 mi2 s2].
  destruct T; cbn [align pos y m d hh mm ss] in *; unfold second_count, days_of in E; cbn [y m d hh mm ss] in *;
    try (injection Af as Af1 Af2 Af3 Af4 Af5); try (injection Ag as Ag1 Ag2 Ag3 Ag4 Ag5);
    try (destruct I as (-> & -> & ->); [lia|]); try (destruct I2 as (-> & ->); [lia|]); f_equal; congruence || lia.
Qed.

(** ** Stepping *)

(** A normalised date is an aligned value once its fields below the tag are reset. *)
Lemma is_date_pos T r n hh mm ss p : is_date r n hh mm ss -> valid_hms hh mm ss ->
  (forall y m d, valid_ymd y m d -> days_from_civil y m d = n ->
     align T (Fields y m d hh mm ss) = Fields y m d hh mm ss /\ pos T (Fields y m d hh mm ss) = p) ->
  is_pos T r p.
Proof.
  intros (y & m & d & V & E & ->) Vh H. destruct (H y m d V E) as [HA HP].
  exists (Fields y m d hh mm ss). split_and!; [split; done|done|done|].
  cbn [CivilTime.y]. unfold chk. destruct (is_s 64 y); done.
Qed.

Lemma year_ok_valid y m : in64 y -> 1 <= m <= 12 -> year_ok y m \/ m = 12.
Proof. intros. destruct (Z.eq_dec m 12); [by right|left; by apply year_ok_in]. Qed.

(** Months: the overflow of an intermediate year is the overflow of the result's year. *)
Lemma step_month_pos y m n : in64 y -> 1 <= m <= 12 -> in64 n ->
  is_pos month_tag (y' ← y +? n /! 12; m' ← m +? n %! 12; n_mon y' m' 1 0 0 0 0) (month_count y m + n).
Proof.
  intros Hy Hm Hn. set (k := month_count y m + n). unfold in64, month_count in *.
  exists (Fields (k / 12) (k mod 12 + 1) 1 0 0 0). cbn [CivilTime.y].
  pose proof (month_length_ge (leap (k / 12)) (k mod 12 + 1) ltac:(zlia)) as BL.
  assert (V : valid_ymd (k / 12) (k mod 12 + 1) 1) by (unfold valid_ymd; zlia).
  split_and!; [split; [exact V|unfold valid_hms; cbn; lia] | done | cbn [pos CivilTime.y CivilTime.m]; unfold month_count; zlia|].
  rewrite (i64_add m (n %! 12)) by zlia.
  destruct (is_s 64 (k / 12)) eqn:EY; [apply is_s_spec in EY|].
  - rewrite (chk_Some 64 (k / 12)) by done. cbn in EY. rewrite i64_add by (subst k; zlia). cbn [mbind option_bind].
    destruct (n_mon_spec (y + n /! 12) (m + n %! 12) 1 0 0 0 0) as (y' & m' & d' & V' & E & ->);
      [unfold in64; subst k; zlia|unfold in64; zlia| |unfold in64; lia|unfold in64; lia|].
    { destruct (Z.eq_dec (m + n %! 12) 12); [by right|left]. unfold year_ok, in64. subst k. zlia. }
    rewrite nth_month_start in E. replace (month_count _ _) with k in E by (subst k; unfold month_count; zlia).
    replace (month_start k + (1 - 1) + 0) with (days_from_civil (k / 12) (k mod 12 + 1) 1) in E
      by (unfold days_from_civil, month_start; lia).
    destruct (days_inj _ _ _ _ _ _ V' V E) as (-> & -> & ->). by rewrite chk_Some by done.
  - unfold chk at 1. rewrite EY. destruct (chk 64 (y + n /! 12)) as [q|] eqn:EQ; rewrite (sadd_chk y); rewrite EQ; [|done].
    apply chk_inv in EQ as [-> BQ]. cbn [mbind option_bind].
    assert (BK : ~ (- 2 ^ 63 <= k / 12 < 2 ^ 63)) by (rewrite <- (is_s_spec 64); congruence).
    unfold n_mon. destruct (Z.eqb_spec (m + n %! 12) 12); [exfalso; apply BK; subst k; zlia|]. cbn [negb].
    destruct (chk 64 (y + n /! 12 + (m + n %! 12) /! 12)) as [q|] eqn:EQ; rewrite (sadd_chk (y + n /! 12)); rewrite EQ; [|done].
    apply chk_inv in EQ as [-> BQ']. cbn [mbind option_bind]. cbv zeta.
    destruct (Z.leb_spec ((m + n %! 12) %! 12) 0); [|exfalso; apply BK; subst k; zlia].
    destruct (chk 64 (y + n /! 12 + (m + n %! 12) /! 12 - 1)) as [q|] eqn:EQ; rewrite ssub_chk; rewrite EQ; [|done].
    apply chk_inv in EQ as [-> BQ'']. exfalso; apply BK; subst k; zlia.
Qed.

Lemma step_pos T f n : valid_fields f -> align T f = f -> in64 n -> is_pos T (step T f n) (pos T f + n).
Proof.
  destruct f as [y m d hh mm ss]. intros (Hy & V & Vh & Vm & Vs) HA Hn.
  pose proof V as [Bm Bd]. pose proof (month_length_ge (leap y) m Bm) as BL. cbn [CivilTime.y CivilTime.m CivilTime.d] in *.
  pose proof (year_ok_valid y m Hy Bm) as Hok. pose proof (nth_month_in y m Bm) as EN.
  cbn [CivilTime.hh CivilTime.mm CivilTime.ss] in *. unfold in64 in *.
  destruct T; cbn [step pos CivilTime.y CivilTime.m CivilTime.d CivilTime.hh CivilTime.mm CivilTime.ss].
  - i64 zlia. eapply is_date_pos; [apply n_sec_spec; unfold in64; done || zlia | unfold valid_hms; zlia|].
    intros y' m' d' V' E'. split; [done|]. cbn [pos]. unfold second_count, days_from_civil in *.
    cbn [CivilTime.y CivilTime.m CivilTime.d CivilTime.hh CivilTime.mm CivilTime.ss]. rewrite EN in E'. zlia.
  - injection HA as <-. i64 zlia. eapply is_date_pos; [apply n_min_spec; unfold in64; done || zlia | unfold valid_hms; zlia|].
    intros y' m' d' V' E'. split; [done|]. cbn [pos]. unfold days_of, days_from_civil in *.
    cbn [CivilTime.y CivilTime.m CivilTime.d CivilTime.hh CivilTime.mm CivilTime.ss]. rewrite EN in E'. zlia.
  - injection HA as <- <-. i64 zlia. eapply is_date_pos; [apply n_hour_spec; unfold in64; done || zlia | unfold valid_hms; zlia|].
    intros y' m' d' V' E'. split; [done|]. cbn [pos]. unfold days_of, days_from_civil in *.
    cbn [CivilTime.y CivilTime.m CivilTime.d CivilTime.hh CivilTime.mm CivilTime.ss]. rewrite EN in E'. zlia.
  - injection HA as <- <- <-. eapply is_date_pos; [apply n_day_spec; unfold in64; done || lia | unfold valid_hms; lia|].
    intros y' m' d' V' E'. split; [done|]. cbn [pos]. unfold days_of, days_from_civil in *.
    cbn [CivilTime.y CivilTime.m CivilTime.d]. lia.
  - injection HA as <- <- <- <-. by apply step_month_pos.
  - injection HA as <- <- <- <- <-. unfold is_pos.
    exists (Fields (y + n) 1 1 0 0 0). pose proof (month_length_ge (leap (y + n)) 1 ltac:(lia)).
    split_and!; [|done|done|unfold sadd, chk; cbn [CivilTime.y]; by destruct (is_s 64 (y + n))].
    unfold ideal_fields, valid_ymd, valid_hms.
    cbn [CivilTime.y CivilTime.m CivilTime.d CivilTime.hh CivilTime.mm CivilTime.ss]. lia.
Qed.

(** ** [civil_time] values *)

(** The class invariant: valid fields, reset below the tag. *)
Definition civil_ok {T} (c : civil_time T) : Prop := valid_fields (f_ c) /\ align T (f_ c) = f_ c.
Definition civil_pos {T} (c : civil_time T) : Z := pos T (f_ c).

Lemma valid_ideal f : valid_fields f <-> in64 (y f) /\ ideal_fields f.
Proof. unfold valid_fields, ideal_fields. tauto. Qed.

Lemma in64_chk z : in64 z -> chk 64 z = Some z.
Proof. apply (chk_Some 64). Qed.

Lemma is_pos_Some T r p g : is_pos T r p -> r = Some g ->
  valid_fields g /\ align T g = g /\ pos T g = p.
Proof.
  intros (f & Hf & HA & HP & ->) H. destruct (chk 64 (y f)) eqn:E; [|done].
  injection H as ->. apply chk_inv in E as [_ E]. rewrite valid_ideal. done.
Qed.

Lemma is_pos_defined T r p g : is_pos T r p -> valid_fields g -> align T g = g -> pos T g = p -> r = Some g.
Proof.
  intros (f & Hf & HA & HP & ->) Hg HAg HPg. apply valid_ideal in Hg as [Hy Hg].
  rewrite (pos_inj T f g) by (done || congruence). by rewrite in64_chk.
Qed.

(** Adding is exact, and defined whenever a value with the resulting position exists. *)
Lemma civil_add_iff T (a b : civil_time T) n : civil_ok a -> in64 n ->
  civil_add a n = Some b <-> civil_ok b /\ civil_pos b = civil_pos a + n.
Proof.
  intros [Ha HA] Hn. pose proof (step_pos T (f_ a) n Ha HA Hn) as P.
  unfold civil_add, civil_ok, civil_pos, civil_of_fields. split.
  - intros H. bind_inv H. injection H as <-. cbn [f_].
    destruct (is_pos_Some _ _ _ _ P eq_refl) as (V & A & Q). rewrite A. done.
  - intros [[Hb HB] HP]. rewrite (is_pos_defined _ _ _ _ P Hb HB HP). cbn [mbind option_bind].
    rewrite HB. by destruct b.
Qed.

(** A value between two positions has a representable year. *)
Lemma is_pos_between T r p a b : is_pos T r p -> valid_fields a -> valid_fields b ->
  pos T a <= p <= pos T b -> exists g, r = Some g.
Proof.
  intros (f & Hf & HA & HP & ->) Ha Hb Hp. apply valid_ideal in Ha as [Ya Ia], Hb as [Yb Ib].
  pose proof (pos_year_le T a f Ia Hf ltac:(lia)). pose proof (pos_year_le T f b Hf Ib ltac:(lia)).
  rewrite in64_chk by (unfold in64 in *; lia). by eexists.
Qed.

Lemma civil_sub_iff T (a b : civil_time T) n : civil_ok a -> in64 n ->
  civil_sub a n = Some b <-> civil_ok b /\ civil_pos b = civil_pos a - n.
Proof.
  intros Ha Hn. unfold civil_sub, in64 in *. destruct (Z.eqb_spec n (- 2 ^ 63)) as [->|]; cbn [negb].
  - rewrite i64_add by lia. cbn [mbind option_bind]. rewrite chk_Some by lia. cbn [mbind option_bind].
    destruct Ha as [Va Aa]. pose proof (step_pos T (f_ a) (- (- 2 ^ 63 + 1)) Va Aa ltac:(unfold in64; lia)) as P.
    unfold civil_ok, civil_pos, civil_of_fields. split.
    + intros H. bind_inv H. injection H as <-. destruct (is_pos_Some _ _ _ _ P eq_refl) as (V & A & Q).
      pose proof (step_pos T _ 1 V A ltac:(unfold in64; lia)) as P2.
      destruct (is_pos_Some _ _ _ _ P2 E0) as (V2 & A2 & Q2). cbn [f_]. rewrite A2. split; [done|]. lia.
    + intros [[Hb HB] HP]. destruct (is_pos_between _ _ _ (f_ a) (f_ b) P Va Hb ltac:(lia)) as [g E].
      destruct (is_pos_Some _ _ _ _ P E) as (V & A & Q). rewrite E. cbn [mbind option_bind].
      pose proof (step_pos T _ 1 V A ltac:(unfold in64; lia)) as P2.
      rewrite (is_pos_defined _ _ _ (f_ b) P2 Hb HB) by lia. cbn [mbind option_bind].
      rewrite HB. by destruct b.
  - rewrite chk_Some by lia. cbn [mbind option_bind].
    change (civil_add a (- n) = Some b <-> civil_ok b /\ civil_pos b = civil_pos a - n).
    rewrite civil_add_iff by (done || unfold in64; lia). by rewrite Z.add_opp_r.
Qed.

(** ** Differences *)

(** [scale_add] is [v * f + a], defined whenever that is representable. *)
Lemma scale_add_spec v f a : 1 < f <= 60 -> - f < a < f ->
  (v' ← chk 64 v; scale_add v' f a) = chk 64 (v * f + a).
Proof.
  intros Hf Ha. destruct (chk 64 v) eqn:E.
  - apply chk_inv in E as [-> Hv]. cbn [mbind option_bind]. cbn in Hv. unfold scale_add.
    destruct (chk 64 (v * f + a)) eqn:ER.
    + apply chk_inv in ER as [-> R]. cbn in R. destruct (Z.ltb_spec v 0); i64 nia; f_equal; ring.
    + apply chk_None in ER. cbn in ER.
      destruct (v <? 0); rewrite ?sadd_chk, ?ssub_chk; unfold smul;
        repeat match goal with |- (?o ≫= _) = None => let E := fresh in destruct o eqn:E; [|done];
          apply chk_inv in E as [-> ?]; cbn [mbind option_bind]; rewrite ?sadd_chk, ?ssub_chk; unfold smul end;
        apply chk_None; cbn; nia.
  - symmetry. apply chk_None in E. apply chk_None. cbn in *. nia.
Qed.

Definition ord_offset (m d : Z) : Z := (153 * (m + (if 2 <? m then -3 else 9)) + 2) / 5 + d - 1.

Lemma ymd_ord_spec y m d : - 2 ^ 50 <= y <= 2 ^ 50 -> valid_ymd y m d ->
  ymd_ord y m d = Some (days_from_civil y m d).
Proof.
  intros Hy [Hm Hd]. pose proof (month_length_ge (leap y) m Hm) as BL.
  assert (C : let e := y - b2z (m <=? 2) in
    first_of y m = e / 400 * 146097 + (e mod 400 * 365 + e mod 400 / 4 - e mod 400 / 100 +
      (153 * (m + (if 2 <? m then -3 else 9)) + 2) / 5) - 719468).
  { pose proof (cycle_check (fun r m => let e := r - b2z (m <=? 2) in
      first_of r m =? e / 400 * 146097 + (e mod 400 * 365 + e mod 400 / 4 - e mod 400 / 100 +
      (153 * (m + (if 2 <? m then -3 else 9)) + 2) / 5) - 719468) ltac:(vm_compute; reflexivity) y m Hm) as H.
    cbv beta zeta in H. apply Z.eqb_eq in H. cbv zeta.
    rewrite (split_cycle y) at 1. rewrite first_of_cycle, H.
    replace (y - b2z (m <=? 2)) with (y mod 400 - b2z (m <=? 2) + y / 400 * 400) by (pose proof (split_cycle y); lia).
    rewrite Z.div_add, Z_mod_plus_full by lia. lia. }
  cbv zeta in C. unfold ymd_ord, days_from_civil. rewrite C. unfold b2z.
  set (t := (153 * (m + (if 2 <? m then -3 else 9)) + 2)). assert (0 <= t <= 1700) by (subst t; zcases; lia).
  replace (if m <=? 2 then y -? 1 else Some y) with (Some (y - (if m <=? 2 then 1 else 0)))
    by (destruct (m <=? 2); [by rewrite i64_sub by lia|f_equal; lia]).
  cbn [mbind option_bind]. set (e := y - (if m <=? 2 then 1 else 0)).
  assert (- 2 ^ 51 <= e <= 2 ^ 51) by (subst e; destruct (m <=? 2); lia).
  replace (if 0 <=? e then Some e else e -? 399) with (Some (if 0 <=? e then e else e - 399))
    by (destruct (0 <=? e); [done|by rewrite i64_sub by lia]).
  cbn [mbind option_bind]. cbv zeta.
  replace ((if 0 <=? e then e else e - 399) /! 400) with (e / 400) by (zcases; zlia).
  pose proof (Z.div_mod e 400 ltac:(lia)) as DM. pose proof (Z.mod_pos_bound e 400 ltac:(lia)).
  i64 lia. replace (e - e / 400 * 400) with (e mod 400) by lia.
  rewrite !Z.quot_div_nonneg by lia. i64 zlia. f_equal. lia.
Qed.

(** Days of the years strictly between -400 and 400. *)
Lemma days_near y m d : - 400 < y < 400 -> valid_ymd y m d -> - 865259 <= days_from_civil y m d < - 573431.
Proof.
  intros Hy V. pose proof (days_in_month y m d V) as B. destruct V as [Hm _].
  assert (E1 : month_start (-4788) = - 865259) by reflexivity.
  assert (E2 : month_start 4800 = - 573431) by reflexivity.
  unfold month_count in B. set (k := 12 * y + (m - 1)) in B. assert (-4788 <= k <= 4799) by lia.
  pose proof (month_start_mono (-4788) (k + 4788) ltac:(lia)) as M1.
  pose proof (month_start_mono (k + 1) (4799 - k) ltac:(lia)) as M2.
  replace (-4788 + (k + 4788)) with k in M1 by lia. replace (k + 1 + (4799 - k)) with 4800 in M2 by lia. lia.
Qed.

Lemma cycle_cut y m d : valid_ymd y m d -> exists q o, y = y %! 400 + q * 400 /\
  - 400 < y %! 400 < 400 /\ ymd_ord (y %! 400) m d = Some o /\
  days_from_civil y m d = o + q * 146097 /\ - 865259 <= o < - 573431.
Proof.
  intros V. pose proof (Z.quot_rem' y 400). pose proof (Z.rem_bound_abs y 400 ltac:(lia)).
  assert (EY : y = y %! 400 + y /! 400 * 400) by lia.
  assert (V' : valid_ymd (y %! 400) m d).
  { destruct V as [Hm Hd]. split; [done|]. by rewrite EY, leap_cycle in Hd. }
  exists (y /! 400), (days_from_civil (y %! 400) m d). split_and!; [lia|lia|lia|apply ymd_ord_spec; [lia|done]| |apply days_near; done || lia|apply days_near; done || lia].
  unfold days_from_civil. rewrite EY at 1. rewrite first_of_cycle. lia.
Qed.

Lemma day_difference_spec y1 m1 d1 y2 m2 d2 : in64 y1 -> in64 y2 -> valid_ymd y1 m1 d1 -> valid_ymd y2 m2 d2 ->
  day_difference y1 m1 d1 y2 m2 d2 = chk 64 (days_from_civil y1 m1 d1 - days_from_civil y2 m2 d2).
Proof.
  intros H1 H2 V1 V2. unfold in64, day_difference in *. cbv zeta.
  destruct (cycle_cut y1 m1 d1 V1) as (q1 & o1 & E1 & R1 & -> & -> & B1).
  destruct (cycle_cut y2 m2 d2 V2) as (q2 & o2 & E2 & R2 & -> & -> & B2).
  set (r1 := y1 %! 400) in *. set (r2 := y2 %! 400) in *.
  rewrite (i64_sub y1 r1), (i64_sub y2 r2) by (subst r1 r2; zlia). cbn [mbind option_bind].
  replace (y1 - r1) with (q1 * 400) by lia. replace (y2 - r2) with (q2 * 400) by lia.
  set (c := q1 - q2). replace (o1 + q1 * 146097 - (o2 + q2 * 146097)) with (c * 146097 + (o1 - o2)) by lia.
  rewrite (ssub_chk (q1 * 400)). destruct (chk 64 (q1 * 400 - q2 * 400)) eqn:EC.
  2:{ apply chk_None in EC. symmetry. apply chk_None. cbn in *. lia. }
  apply chk_inv in EC as [-> BC]. cbn in BC. cbn [mbind option_bind]. rewrite (i64_sub o1 o2) by lia. cbn [mbind option_bind].
  replace (q1 * 400 - q2 * 400) with (c * 400) in * by lia. set (delta := o1 - o2).
  assert (BD : - 292194 < delta < 292194) by lia.
  assert (Fin : forall k dl, k * 146097 + dl = c * 146097 + delta -> (0 < k -> k * 146097 <= 146097 \/ 0 <= dl) -> (k < 0 -> - 146097 <= k * 146097 \/ dl <= 0) ->
    (r ← k * 400 /! 400 *? 146097; r +? dl) = chk 64 (c * 146097 + delta)).
  { intros k dl Ek Hp Hn. rewrite Z.quot_mul by lia. unfold smul. destruct (chk 64 (k * 146097)) eqn:EP.
    - apply chk_inv in EP as [-> _]. cbn [mbind option_bind]. by rewrite sadd_chk, Ek.
    - apply chk_None in EP. cbn in EP. symmetry. apply chk_None. cbn. lia. }
  destruct (Z.ltb_spec 0 (c * 400)), (Z.ltb_spec delta 0); cbn [andb].
  - i64 lia. replace (c * 400 - 2 * 400) with ((c - 2) * 400) by lia. apply Fin; lia.
  - destruct (Z.ltb_spec (c * 400) 0); [lia|]. cbn [andb mbind option_bind]. apply Fin; lia.
  - destruct (Z.ltb_spec (c * 400) 0), (Z.ltb_spec 0 delta); try lia; cbn [andb mbind option_bind]; apply Fin; lia.
  - destruct (Z.ltb_spec (c * 400) 0), (Z.ltb_spec 0 delta); try lia; cbn [andb].
    + i64 lia. replace (c * 400 + 2 * 400) with ((c + 2) * 400) by lia. apply Fin; lia.
    + cbn [mbind option_bind]; apply Fin; lia.
    + cbn [mbind option_bind]; apply Fin; lia.
    + cbn [mbind option_bind]; apply Fin; lia.
Qed.

(** The difference of two values is the difference of their positions, defined
    whenever that is representable. *)
Lemma difference_spec T f1 f2 : valid_fields f1 -> valid_fields f2 ->
  difference T f1 f2 = chk 64 (pos T f1 - pos T f2).
Proof.
  intros (Y1 & V1 & Vh1 & Vm1 & Vs1) (Y2 & V2 & Vh2 & Vm2 & Vs2).
  pose proof V1 as [Hm1 _]. pose proof V2 as [Hm2 _].
  assert (ED : difference_day f1 f2 = chk 64 (days_of f1 - days_of f2)) by (by apply day_difference_spec).
  assert (EH : difference_hour f1 f2 = chk 64 ((days_of f1 * 24 + hh f1) - (days_of f2 * 24 + hh f2))).
  { unfold difference_hour. rewrite ED, scale_add_spec by lia. f_equal. lia. }
  assert (EM : difference_minute f1 f2 = chk 64 (((days_of f1 * 24 + hh f1) * 60 + mm f1) - ((days_of f2 * 24 + hh f2) * 60 + mm f2))).
  { unfold difference_minute. rewrite EH, scale_add_spec by lia. f_equal. lia. }
  destruct T; cbn [difference pos].
  - unfold difference_second. rewrite EM, scale_add_spec by lia. unfold second_count, days_of. f_equal. lia.
  - exact EM.
  - exact EH.
  - exact ED.
  - unfold difference_month, difference_year. rewrite ssub_chk, scale_add_spec by lia. unfold month_count. f_equal. lia.
  - apply ssub_chk.
Qed.

(** ** Comparison *)

Lemma civil_ltb_spec {T1 T2} (a : civil_time T1) (b : civil_time T2) :
  valid_fields (f_ a) -> valid_fields (f_ b) ->
  civil_ltb a b = (second_count (f_ a) <? second_count (f_ b)).
Proof.
  intros (_ & V1 & Vh1 & Vm1 & Vs1) (_ & V2 & Vh2 & Vm2 & Vs2).
  pose proof (days_compare _ _ _ _ _ _ V1 V2) as C. pose proof (days_compare _ _ _ _ _ _ V2 V1) as C'.
  pose proof (days_inj _ _ _ _ _ _ V1 V2) as I. destruct V1 as [Hm1 _], V2 as [Hm2 _].
  unfold month_count in *. apply Bool.eq_true_iff_eq.
  unfold civil_ltb, year, month, day, hour, minute, second, second_count.
  rewrite !orb_true_iff, !andb_true_iff, !orb_true_iff, !andb_true_iff, !orb_true_iff, !andb_true_iff,
    !orb_true_iff, !andb_true_iff, !orb_true_iff, !andb_true_iff, !Z.ltb_lt, !Z.eqb_eq.
  destruct (Z.lt_trichotomy (days_from_civil (y (f_ a)) (m (f_ a)) (d (f_ a)))
    (days_from_civil (y (f_ b)) (m (f_ b)) (d (f_ b)))) as [L|[E|G]].
  - split; [lia|]. intros _. apply C in L. lia.
  - destruct (I E) as (-> & -> & ->). lia.
  - split; [|lia]. apply C' in G. lia.
Qed.

(** ** Weekdays *)

Definition weekday_num (w : weekday) : Z :=
  match w with
  | monday => 0 | tuesday => 1 | wednesday => 2 | thursday => 3 | friday => 4 | saturday => 5 | sunday => 6
  end.

Definition week_sum (t : Z) : Z := t + (t / 4 - t / 100 + t / 400).

Lemma weekday_table k : 0 <= k < 7 -> weekday_num (nth (Z.to_nat (k + 6)) k_weekday_by_mon_off monday) = (k + 6) mod 7.
Proof.
  intros Hk. apply Z.eqb_eq. apply (zrange_forall (fun k =>
    weekday_num (nth (Z.to_nat (k + 6)) k_weekday_by_mon_off monday) =? (k + 6) mod 7) 7); [reflexivity|done].
Qed.

Lemma get_weekday_num (cs : civil_time second_tag) : valid_fields (f_ cs) ->
  weekday_num (get_weekday cs) = (days_of (f_ cs) + 3) mod 7.
Proof.
  intros (_ & [Hm Hd] & _). pose proof (month_length_ge (leap (y (f_ cs))) _ Hm) as BL.
  unfold get_weekday, year, month, day, days_of, days_from_civil in *. cbv zeta.
  set (f := f_ cs) in *. set (w := 2400 + y f %! 400 - b2z (m f <? 3)).
  assert (Bw : 2000 <= w <= 2800) by (subst w; unfold b2z; pose proof (Z.rem_bound_abs (y f) 400); destruct (_ <? _); lia).
  rewrite !Z.quot_div_nonneg by lia. fold (week_sum w). set (off := nth (Z.to_nat (m f)) k_weekday_offsets 0).
  assert (C : (week_sum w + off + 7) mod 7 = (first_of (y f) (m f) + 3) mod 7).
  { pose proof (cycle_check (fun r m => forallb (fun z =>
       (week_sum (2400 + z - b2z (m <? 3)) + nth (Z.to_nat m) k_weekday_offsets 0 + 7) mod 7
       =? (first_of r m + 3) mod 7) [r; r - 400]) ltac:(vm_compute; reflexivity) (y f) (m f) Hm) as H.
    cbv beta in H. rewrite forallb_forall in H.
    replace ((first_of (y f) (m f) + 3) mod 7) with ((first_of (y f mod 400) (m f) + 3) mod 7).
    2:{ rewrite (split_cycle (y f)) at 2. rewrite first_of_cycle.
        replace (first_of (y f mod 400) (m f) + y f / 400 * 146097 + 3)
          with (first_of (y f mod 400) (m f) + 3 + (y f / 400 * 20871) * 7) by lia. by rewrite Z_mod_plus_full. }
    apply Z.eqb_eq. apply (H (y f %! 400)).
    destruct (Z.eq_dec (y f %! 400) (y f mod 400)) as [->|]; [by left|right; left; zlia]. }
  assert (Bo : 0 <= off <= 6).
  { subst off. pose proof (zrange_forall (fun k => (0 <=? nth (Z.to_nat (k + 1)) k_weekday_offsets 0) &&
      (nth (Z.to_nat (k + 1)) k_weekday_offsets 0 <=? 6)) 12 ltac:(reflexivity) (m f - 1) ltac:(lia)) as G.
    cbv beta in G. replace (m f - 1 + 1) with (m f) in G by lia. lia. }
  assert (Bs : 1900 <= week_sum w <= 5000) by (unfold week_sum; zlia).
  rewrite Z.rem_mod_nonneg by lia. rewrite weekday_table by (apply Z.mod_pos_bound; lia).
  rewrite Zplus_mod_idemp_l.
  replace (week_sum w + (off + d f) + 6) with (week_sum w + off + 7 + (d f - 1)) by lia.
  rewrite <- Zplus_mod_idemp_l, C, Zplus_mod_idemp_l. f_equal. lia.
Qed.

(** The distance found in the tables, forward and backward. *)
Lemma weekday_gap_forw a b : exists k, weekday_gap a b k_weekdays_forw = Some k /\ 1 <= k <= 7 /\
  (weekday_num a + k) mod 7 = weekday_num b.
Proof. destruct a, b; eexists; (split_and!; [reflexivity|lia|lia|reflexivity]). Qed.

Lemma weekday_gap_back a b : exists k, weekday_gap a b k_weekdays_back = Some k /\ 1 <= k <= 7 /\
  (weekday_num a - k) mod 7 = weekday_num b.
Proof. destruct a, b; eexists; (split_and!; [reflexivity|lia|lia|reflexivity]). Qed.

(** ** The day of the year *)

Lemma get_yearday_spec (cs : civil_time second_tag) : valid_fields (f_ cs) ->
  get_yearday cs = days_of (f_ cs) - first_of (y (f_ cs)) 1 + 1.
Proof.
  intros (_ & [Hm Hd] & _). unfold get_yearday, days_of, days_from_civil, first_of, month, year, day.
  rewrite is_leap_year_spec. set (f := f_ cs) in *.
  pose proof (zrange_forall (fun k => forallb (fun lp =>
     nth (Z.to_nat (k + 1)) k_month_offsets 0 + b2z ((2 <? k + 1) && lp) =?
     days_before_month lp (k + 1) - days_before_month lp 1) [true; false]) 12 ltac:(reflexivity) (m f - 1) ltac:(lia)) as G.
  cbv beta in G. replace (m f - 1 + 1) with (m f) in G by lia.
  rewrite forallb_forall in G. specialize (G (leap (y f)) ltac:(destruct (leap _); cbn; auto)).
  apply Z.eqb_eq in G. lia.
Qed.

(** ** Properties *)

(** C11: the constructor of a civil time from arbitrary 64-bit fields (months beyond 12,
    negative days, hours, minutes, seconds...) returns the valid date and time that
    names the same instant of the proleptic Gregorian calendar, and returns it whenever
    the years it goes through are representable: no spurious overflow, every loop ends. *)
Theorem civil_make_normalises (y m d hh mm ss : Z) (c : civil_time second_tag) :
  in64 y -> in64 m -> year_ok y m \/ m = 12 -> in64 d -> in64 hh -> in64 mm -> in64 ss ->
  civil_make second_tag y m d hh mm ss = Some c <->
  civil_ok c /\ civil_pos c = (((nth_month y m + (d - 1)) * 24 + hh) * 60 + mm) * 60 + ss.
Proof.
  intros Hy Hm Hok Hd Hh Hmm Hss. pose proof (n_sec_spec y m d Hy Hm Hok Hd hh mm ss Hh Hmm Hss) as P.
  cbv zeta in P. eapply (is_date_pos second_tag) in P; [|unfold valid_hms; zlia|].
  2:{ intros y' m' d' V E. split; [done|]. cbn [pos]. unfold second_count. cbn [CivilTime.y CivilTime.m CivilTime.d CivilTime.hh CivilTime.mm CivilTime.ss].
      rewrite E. reflexivity. }
  match type of P with is_pos _ _ ?p =>
    replace p with ((((nth_month y m + (d - 1)) * 24 + hh) * 60 + mm) * 60 + ss) in P by zlia end.
  unfold civil_make, civil_ok, civil_pos, civil_of_fields. split.
  - intros H. bind_inv H. injection H as <-. by destruct (is_pos_Some _ _ _ _ P eq_refl) as (V & A & Q).
  - intros [[Hb HB] HP]. rewrite (is_pos_defined _ _ _ _ P Hb HB HP). by destruct c.
Qed.

Lemma civil_make_normalises_witness :
  civil_make second_tag 2015 14 (-3) 25 61 (-1) = Some (CivilTime (Fields 2016 1 29 2 0 59)).
Proof.
  apply (civil_make_normalises 2015 14 (-3) 25 61 (-1) (CivilTime (Fields 2016 1 29 2 0 59)));
    try (unfold in64; lia).
  - left. unfold year_ok, in64. vm_compute. intuition congruence.
  - split; [|reflexivity]. split; [|reflexivity].
    unfold valid_fields, valid_ymd, valid_hms, in64. vm_compute. intuition congruence.
Defined.

(** C12: arithmetic of civil times of any granularity: adding or subtracting [n] units moves
    the position by exactly [n] (the smallest 64-bit [n], which cannot be negated, included),
    and is defined exactly when a value with that position exists, which then is the result,
    aligned and with valid fields; the difference is the exact distance of the positions and
    overflows only when that is not a 64-bit number; and adding the difference of two values
    to the second gives the first. *)
Theorem civil_arithmetic_correct (T : tag) (a b : civil_time T) (n : Z) : civil_ok a -> in64 n ->
  (civil_add a n = Some b <-> civil_ok b /\ civil_pos b = civil_pos a + n) /\
  (civil_sub a n = Some b <-> civil_ok b /\ civil_pos b = civil_pos a - n) /\
  (civil_ok b -> civil_diff a b = chk 64 (civil_pos a - civil_pos b)) /\
  (civil_ok b -> civil_diff b a = Some n <-> civil_add a n = Some b).
Proof.
  intros Ha Hn. split_and!; [by apply civil_add_iff|by apply civil_sub_iff|intros Hb; apply difference_spec; [apply Ha|apply Hb]|].
  intros Hb. rewrite civil_add_iff by done.
  change (difference T (f_ b) (f_ a) = Some n <-> civil_ok b /\ civil_pos b = civil_pos a + n).
  rewrite difference_spec by (apply Ha || apply Hb). fold (civil_pos b) (civil_pos a). split.
  - intros E. apply chk_inv in E as [-> _]. split; [done|lia].
  - intros [_ E]. replace (civil_pos b - civil_pos a) with n by lia. by apply in64_chk.
Qed.

Lemma civil_arithmetic_correct_witness :
  civil_add (T := day_tag) (CivilTime (Fields 2016 2 28 0 0 0)) 2 = Some (CivilTime (Fields 2016 3 1 0 0 0)).
Proof.
  destruct (civil_arithmetic_correct day_tag (CivilTime (Fields 2016 2 28 0 0 0)) (CivilTime (Fields 2016 3 1 0 0 0)) 2) as ([_ H] & _).
  - split; [|reflexivity]. unfold valid_fields, valid_ymd, valid_hms, in64. vm_compute. intuition congruence.
  - unfold in64; lia.
  - apply H. split; [|reflexivity]. split; [|reflexivity].
    unfold valid_fields, valid_ymd, valid_hms, in64. vm_compute. intuition congruence.
Defined.

(** The six comparison operators, between values of any two granularities, decide
    the order of the instants; equality is equality of instants. *)
Theorem civil_compare_correct (T1 T2 : tag) (a : civil_time T1) (b : civil_time T2) :
  valid_fields (f_ a) -> valid_fields (f_ b) ->
  let s := second_count (f_ a) in let t := second_count (f_ b) in
  civil_ltb a b = (s <? t) /\ civil_leb a b = (s <=? t) /\ civil_gtb a b = (t <? s) /\
  civil_geb a b = (t <=? s) /\ civil_eqb a b = (s =? t) /\ civil_neb a b = negb (s =? t).
Proof.
  intros Ha Hb s t. subst s t. unfold civil_leb, civil_geb, civil_gtb, civil_neb.
  rewrite !civil_ltb_spec by done.
  assert (E : civil_eqb a b = (second_count (f_ a) =? second_count (f_ b))).
  { apply Bool.eq_true_iff_eq. unfold civil_eqb, year, month, day, hour, minute, second.
    rewrite !andb_true_iff, !Z.eqb_eq. split.
    - intros (((((E1 & E2) & E3) & E4) & E5) & E6). unfold second_count. by rewrite E1, E2, E3, E4, E5, E6.
    - intros E. rewrite (pos_inj second_tag (f_ a) (f_ b)); [done|by apply valid_ideal..|done|done|done]. }
  rewrite E. split_and!; try done; zcases; simpl; lia || done.
Qed.

Lemma civil_compare_correct_witness :
  civil_ltb (T1 := year_tag) (T2 := minute_tag) (CivilTime (Fields 2016 1 1 0 0 0)) (CivilTime (Fields 2016 1 1 0 1 0)) = true.
Proof.
  etransitivity; [apply (civil_compare_correct year_tag minute_tag)|reflexivity];
    unfold valid_fields, valid_ymd, valid_hms, in64; vm_compute; intuition congruence.
Defined.

(** The weekday tables are right for the day number. *)
Lemma weekday_yearday_spec (cs : civil_time second_tag) : valid_fields (f_ cs) ->
  weekday_num (get_weekday cs) = (days_of (f_ cs) + 3) mod 7 /\
  get_yearday cs = days_of (f_ cs) - days_from_civil (year cs) 1 1 + 1.
Proof.
  intros H. split; [by apply get_weekday_num|]. rewrite get_yearday_spec by done.
  unfold days_from_civil, year. lia.
Qed.

(** the weekday computed from the tables is that of the day number (day 0, 1970-01-01, is
    a Thursday), and the day of the year counts from January 1st; [next_weekday] returns the
    first day strictly after the given one that falls on
    the weekday, and [prev_weekday] the last one strictly before; they are undefined only
    when that day does not exist in the 64-bit calendar. *)
Theorem weekday_correct (cs : civil_time second_tag) (cd r : civil_time day_tag) (wd : weekday) :
  valid_fields (f_ cs) -> civil_ok cd ->
  (weekday_num (get_weekday cs) = (days_of (f_ cs) + 3) mod 7 /\
   get_yearday cs = days_of (f_ cs) - days_from_civil (year cs) 1 1 + 1) /\
  (next_weekday cd wd = Some r <-> civil_ok r /\ civil_pos cd < civil_pos r <= civil_pos cd + 7 /\
     get_weekday (civil_convert second_tag r) = wd) /\
  (prev_weekday cd wd = Some r <-> civil_ok r /\ civil_pos cd - 7 <= civil_pos r < civil_pos cd /\
     get_weekday (civil_convert second_tag r) = wd).
Proof.
  intros Hcs Hcd. split; [by apply weekday_yearday_spec|]. assert (Inj : forall a b, weekday_num a = weekday_num b <-> a = b) by (intros [] []; done).
  assert (W : forall c : civil_time day_tag, civil_ok c ->
    weekday_num (get_weekday (civil_convert second_tag c)) = (civil_pos c + 3) mod 7).
  { intros c [Hc _]. by rewrite get_weekday_num. }
  unfold next_weekday, prev_weekday. pose proof (W cd Hcd) as Wc. split.
  - destruct (weekday_gap_forw (get_weekday (civil_convert second_tag cd)) wd) as (k & E & Hk & Ek).
    rewrite E. cbn [mbind option_bind]. rewrite civil_add_iff by (done || unfold in64; lia).
    rewrite <- Inj, <- Ek, Wc, Zplus_mod_idemp_l. split; [intros [Hr Er]|intros (Hr & Br & Er)]; rewrite W in * by done.
    + split_and!; [done|lia|lia|]. rewrite Er. f_equal. lia.
    + split; [done|]. zlia.
  - destruct (weekday_gap_back (get_weekday (civil_convert second_tag cd)) wd) as (k & E & Hk & Ek).
    rewrite E. cbn [mbind option_bind]. rewrite civil_sub_iff by (done || unfold in64; lia).
    rewrite <- Inj, <- Ek, Wc, Zminus_mod_idemp_l. split; [intros [Hr Er]|intros (Hr & Br & Er)]; rewrite W in * by done.
    + split_and!; [done|lia|lia|]. rewrite Er. f_equal. lia.
    + split; [done|]. zlia.
Qed.

Lemma weekday_correct_witness :
  next_weekday (CivilTime (Fields 2016 2 26 0 0 0)) friday = Some (CivilTime (Fields 2016 3 4 0 0 0)).
Proof.
  destruct (weekday_correct (CivilTime (Fields 2000 2 29 12 0 0)) (CivilTime (Fields 2016 2 26 0 0 0)) (CivilTime (Fields 2016 3 4 0 0 0)) friday) as (_ & [_ H] & _).
  - unfold valid_fields, valid_ymd, valid_hms, in64; vm_compute; intuition congruence.
  - split; [|reflexivity]. unfold valid_fields, valid_ymd, valid_hms, in64; vm_compute; intuition congruence.
  - apply H. split_and!; [|reflexivity..].
    split; [|reflexivity]. unfold valid_fields, valid_ymd, valid_hms, in64; vm_compute; intuition congruence.
Defined.
