(* ===== verification/Duration.v ===== *)
(** * Durations and times (times/time.h, times/duration.cc, times/time.cc)

    A [Duration] is a signed count of quarter nanoseconds kept as whole seconds
    ([rep_hi_], an [int64_t] stored as two 32-bit halves) and ticks below a second
    ([rep_lo_], a [uint32_t]); [rep_lo_ = 2^32 - 1] marks the two infinities.
    Signed 64-bit operations are checked ([None] is overflow); the 128-bit tick
    counts are the [uint128] of Uint128.v.  The overloads taking [double] are not
    modelled. *)
From Stdlib Require Import Zquot.
From S2P Require Import Prelude Words Bits Uint128 Uint128Div CivilTime.

#[local] Open Scope i64_scope.

Abbreviation kTicksPerNanosecond := 4.
Abbreviation kTicksPerSecond := 4000000000.
Abbreviation kint64max := (2 ^ 63 - 1).
Abbreviation kint64min := (- 2 ^ 63).
Abbreviation kuint32max := (2 ^ 32 - 1).

(** ** Representation *)

(** [Duration::HiRep]: a signed 64-bit number stored 4-byte aligned. *)
Record HiRep := MkHiRep { hr_hi : Z; hr_lo : Z }.

Definition HiRep_assign (value : Z) : HiRep :=
  let unsigned_value := wrap 64 value in
  MkHiRep (wrap 32 (ushr unsigned_value 32)) (wrap 32 unsigned_value).

Definition HiRep_Get (h : HiRep) : Z :=
  let unsigned_value := Z.lor (ushl 64 (hr_hi h) 32) (hr_lo h) in
  swrap 64 unsigned_value.

Record Duration := MkDuration { rep_hi_ : HiRep; rep_lo_ : Z }.

#[export] Instance HiRep_eq_dec : EqDecision HiRep.
Proof. solve_decision. Defined.
#[export] Instance Duration_eq_dec : EqDecision Duration.
Proof. solve_decision. Defined.

Definition MakeDuration (hi lo : Z) : Duration := MkDuration (HiRep_assign hi) (wrap 32 lo).
Definition GetRepHi (d : Duration) : Z := HiRep_Get (rep_hi_ d).
Definition GetRepLo (d : Duration) : Z := rep_lo_ d.
Definition IsInfiniteDuration (d : Duration) : bool := GetRepLo d =? kuint32max.

Definition MakeNormalizedDuration (sec ticks : Z) : option Duration :=
  if ticks <? 0 then s ← sec -? 1; t ← ticks +? kTicksPerSecond; Some (MakeDuration s t)
  else Some (MakeDuration sec ticks).

Definition OppositeInfinity (d : Duration) : Duration :=
  if GetRepHi d <? 0 then MakeDuration kint64max kuint32max else MakeDuration kint64min kuint32max.

Definition NegateAndSubtractOne (n : Z) : option Z :=
  if n <? 0 then t ← n +? 1; chk 64 (- t) else t ← chk 64 (- n); t -? 1.

Definition max_infinite : Duration := MakeDuration kint64max kuint32max.

Definition duration_neg (d : Duration) : option Duration :=
  if GetRepLo d =? 0 then
    if GetRepHi d =? kint64min then Some max_infinite
    else h ← chk 64 (- GetRepHi d); Some (MakeDuration h 0)
  else if IsInfiniteDuration d then Some (OppositeInfinity d)
  else h ← NegateAndSubtractOne (GetRepHi d); Some (MakeDuration h (kTicksPerSecond - GetRepLo d)).

(** [-max_infinite()], which takes the infinite branch. *)
Definition min_infinite : Duration := OppositeInfinity max_infinite.

Definition zero : Duration := MakeDuration 0 0.

(** ** Comparison *)

Definition duration_ltb (lhs rhs : Duration) : bool :=
  if negb (GetRepHi lhs =? GetRepHi rhs) then GetRepHi lhs <? GetRepHi rhs
  else if GetRepHi lhs =? kint64min then uadd 32 (GetRepLo lhs) 1 <? uadd 32 (GetRepLo rhs) 1
  else GetRepLo lhs <? GetRepLo rhs.
Definition duration_gtb (lhs rhs : Duration) : bool := duration_ltb rhs lhs.
Definition duration_geb (lhs rhs : Duration) : bool := negb (duration_ltb lhs rhs).
Definition duration_leb (lhs rhs : Duration) : bool := negb (duration_ltb rhs lhs).
Definition duration_eqb (lhs rhs : Duration) : bool :=
  (GetRepHi lhs =? GetRepHi rhs) && (GetRepLo lhs =? GetRepLo rhs).
Definition duration_neb (lhs rhs : Duration) : bool := negb (duration_eqb lhs rhs).

Definition duration_abs (d : Duration) : option Duration :=
  if duration_ltb d zero then duration_neg d else Some d.

(** ** Factories from integer counts *)

(** [FromInt64(v, std::ratio<1, N>)], [std::ratio<60>] and [std::ratio<3600>]. *)
Definition FromInt64_sub (N v : Z) : option Duration :=
  t ← v %! N *? kTicksPerNanosecond; t ← t *? 1000; t ← t *? 1000; t ← t *? 1000;
  MakeNormalizedDuration (v /! N) (t /! N).
Definition FromInt64_60 (v : Z) : option Duration :=
  if (v <=? kint64max /! 60) && (kint64min /! 60 <=? v) then s ← v *? 60; Some (MakeDuration s 0)
  else Some (if 0 <? v then max_infinite else min_infinite).
Definition FromInt64_3600 (v : Z) : option Duration :=
  if (v <=? kint64max /! 3600) && (kint64min /! 3600 <=? v) then s ← v *? 3600; Some (MakeDuration s 0)
  else Some (if 0 <? v then max_infinite else min_infinite).

Definition nanoseconds (n : Z) := FromInt64_sub 1000000000 n.
Definition microseconds (n : Z) := FromInt64_sub 1000000 n.
Definition milliseconds (n : Z) := FromInt64_sub 1000 n.
Definition seconds (n : Z) := FromInt64_sub 1 n.
Definition minutes (n : Z) := FromInt64_60 n.
Definition hours (n : Z) := FromInt64_3600 n.

(** ** Addition and subtraction *)

Definition EncodeTwosComp (v : Z) : Z := wrap 64 v.
Definition DecodeTwosComp (v : Z) : Z := swrap 64 v.

Definition duration_add (this rhs : Duration) : Duration :=
  if IsInfiniteDuration this then this
  else if IsInfiniteDuration rhs then rhs
  else
    let orig_rep_hi := HiRep_Get (rep_hi_ this) in
    let hi := HiRep_assign (DecodeTwosComp
      (uadd 64 (EncodeTwosComp (HiRep_Get (rep_hi_ this))) (EncodeTwosComp (HiRep_Get (rep_hi_ rhs))))) in
    let lo := rep_lo_ this in
    let '(hi, lo) :=
      if kTicksPerSecond - rep_lo_ rhs <=? lo
      then (HiRep_assign (DecodeTwosComp (uadd 64 (EncodeTwosComp (HiRep_Get hi)) 1)),
            wrap 32 (lo - kTicksPerSecond))
      else (hi, lo) in
    let lo := uadd 32 lo (rep_lo_ rhs) in
    if (if HiRep_Get (rep_hi_ rhs) <? 0 then orig_rep_hi <? HiRep_Get hi else HiRep_Get hi <? orig_rep_hi)
    then (if HiRep_Get (rep_hi_ rhs) <? 0 then min_infinite else max_infinite)
    else MkDuration hi lo.

Definition duration_sub (this rhs : Duration) : Duration :=
  if IsInfiniteDuration this then this
  else if IsInfiniteDuration rhs then
    (if 0 <=? HiRep_Get (rep_hi_ rhs) then min_infinite else max_infinite)
  else
    let orig_rep_hi := HiRep_Get (rep_hi_ this) in
    let hi := HiRep_assign (DecodeTwosComp
      (usub 64 (EncodeTwosComp (HiRep_Get (rep_hi_ this))) (EncodeTwosComp (HiRep_Get (rep_hi_ rhs))))) in
    let lo := rep_lo_ this in
    let '(hi, lo) :=
      if lo <? rep_lo_ rhs
      then (HiRep_assign (DecodeTwosComp (usub 64 (EncodeTwosComp (HiRep_Get hi)) 1)),
            wrap 32 (lo + kTicksPerSecond))
      else (hi, lo) in
    let lo := usub 32 lo (rep_lo_ rhs) in
    if (if HiRep_Get (rep_hi_ rhs) <? 0 then HiRep_Get hi <? orig_rep_hi else orig_rep_hi <? HiRep_Get hi)
    then (if 0 <=? HiRep_Get (rep_hi_ rhs) then min_infinite else max_infinite)
    else MkDuration hi lo.

(** ** 128-bit tick counts *)

Definition MakeU128 (a : Z) : option uint128 :=
  let u128 := uint128_of_signed 0 in
  '(u128, a) ← (if a <? 0 then
                  let u128 := uint128_pre_inc u128 in
                  a ← a +? 1; a ← chk 64 (- a); Some (u128, a)
                else Some (u128, a));
  Some (uint128_add u128 (uint128_of_unsigned (wrap 64 a))).

Definition MakeU128Ticks (d : Duration) : option uint128 :=
  let rep_hi := GetRepHi d in
  let rep_lo := GetRepLo d in
  '(rep_hi, rep_lo) ← (if rep_hi <? 0 then
      rep_hi ← rep_hi +? 1; rep_hi ← chk 64 (- rep_hi);
      Some (rep_hi, wrap 32 (kTicksPerSecond - rep_lo))
    else Some (rep_hi, rep_lo));
  let u128 := uint128_of_unsigned (wrap 64 rep_hi) in
  let u128 := uint128_mul u128 (uint128_of_unsigned (wrap 64 kTicksPerSecond)) in
  Some (uint128_add u128 (uint128_of_unsigned rep_lo)).

Definition MakeDurationFromU128 (u128 : uint128) (is_neg : bool) : option Duration :=
  let h64 := uint128_high64 u128 in
  let l64 := uint128_low64 u128 in
  let kMaxRepHi64 := 0x77359400 in
  let finish (rep_hi rep_lo : Z) :=
    '(rep_hi, rep_lo) ← (if (is_neg : bool) then
        rep_hi ← chk 64 (- rep_hi);
        if negb (rep_lo =? 0) then rep_hi ← rep_hi -? 1; Some (rep_hi, wrap 32 (kTicksPerSecond - rep_lo))
        else Some (rep_hi, rep_lo)
      else Some (rep_hi, rep_lo));
    Some (MakeDuration rep_hi rep_lo) in
  if h64 =? 0 then
    let hi := l64 / kTicksPerSecond in
    finish (swrap 64 hi) (wrap 32 (usub 64 l64 (umul 64 hi kTicksPerSecond)))
  else if kMaxRepHi64 <=? h64 then
    if is_neg && (h64 =? kMaxRepHi64) && (l64 =? 0) then Some (MakeDuration kint64min 0)
    else Some (if is_neg then min_infinite else max_infinite)
  else
    let kTicksPerSecond128 := uint128_of_unsigned kTicksPerSecond in
    let hi := uint128_div u128 kTicksPerSecond128 in
    finish (swrap 64 (uint128_low64 hi))
      (wrap 32 (uint128_low64 (uint128_sub u128 (uint128_mul hi kTicksPerSecond128)))).

(** [SafeMultiply] and [std::divides]. *)
Definition SafeMultiply (a b : uint128) : uint128 :=
  if uint128_high64 a =? 0 then
    if ushr (Z.lor (uint128_low64 a) (uint128_low64 b)) 32 =? 0
    then uint128_of_unsigned (umul 64 (uint128_low64 a) (uint128_low64 b))
    else uint128_mul a b
  else if uint128_eqb b (uint128_of_signed 0) then b
  else if uint128_gtb a (uint128_div uint128_max b) then uint128_max
  else uint128_mul a b.

Definition ScaleFixed (Operation : uint128 -> uint128 -> uint128) (d : Duration) (r : Z) : option Duration :=
  a ← MakeU128Ticks d;
  b ← MakeU128 r;
  let q := Operation a b in
  let is_neg := negb (Bool.eqb (GetRepHi d <? 0) (r <? 0)) in
  MakeDurationFromU128 q is_neg.

Definition duration_mul (this : Duration) (r : Z) : option Duration :=
  if IsInfiniteDuration this then
    let is_neg := negb (Bool.eqb (r <? 0) (GetRepHi this <? 0)) in
    Some (if is_neg then min_infinite else max_infinite)
  else ScaleFixed SafeMultiply this r.

Definition duration_div_int (this : Duration) (r : Z) : option Duration :=
  if IsInfiniteDuration this || (r =? 0) then
    let is_neg := negb (Bool.eqb (r <? 0) (GetRepHi this <? 0)) in
    Some (if is_neg then min_infinite else max_infinite)
  else ScaleFixed uint128_div this r.

(** ** Division of durations *)

(** [IDivFastPath]: the outer option is overflow, the inner one [return false]. *)
Definition IDivFastPath (num den : Duration) : option (option (Z * Duration)) :=
  if IsInfiniteDuration num || IsInfiniteDuration den then Some None
  else
    let num_hi := GetRepHi num in
    let num_lo := GetRepLo num in
    let den_hi := GetRepHi den in
    let den_lo := GetRepLo den in
    let by_unit (per_second ticks : Z) : option (option (Z * Duration)) :=
      if (0 <=? num_hi) && (num_hi <? (kint64max - kTicksPerSecond) /! per_second) then
        q ← num_hi *? per_second; q ← q +? num_lo /! ticks;
        Some (Some (q, MakeDuration 0 (num_lo %! den_lo)))
      else Some None in
    if den_hi =? 0 then
      if den_lo =? kTicksPerNanosecond then by_unit 1000000000 kTicksPerNanosecond
      else if den_lo =? 100 * kTicksPerNanosecond then by_unit 10000000 (100 * kTicksPerNanosecond)
      else if den_lo =? 1000 * kTicksPerNanosecond then by_unit 1000000 (1000 * kTicksPerNanosecond)
      else if den_lo =? 1000000 * kTicksPerNanosecond then by_unit 1000 (1000000 * kTicksPerNanosecond)
      else Some None
    else if (0 <? den_hi) && (den_lo =? 0) then
      if 0 <=? num_hi then
        if den_hi =? 1 then Some (Some (num_hi, MakeDuration 0 num_lo))
        else Some (Some (num_hi /! den_hi, MakeDuration (num_hi %! den_hi) num_lo))
      else
        num_hi ← (if negb (num_lo =? 0) then num_hi +? 1 else Some num_hi);
        let quotient := num_hi /! den_hi in
        let rem_sec := num_hi %! den_hi in
        '(rem_sec, quotient) ← (if 0 <? rem_sec then
            rem_sec ← rem_sec -? den_hi; quotient ← quotient +? 1; Some (rem_sec, quotient)
          else Some (rem_sec, quotient));
        rem_sec ← (if negb (num_lo =? 0) then rem_sec -? 1 else Some rem_sec);
        Some (Some (quotient, MakeDuration rem_sec num_lo))
    else Some None.

Definition IDivSlowPath (satq : bool) (num den : Duration) : option (Z * Duration) :=
  let num_neg := duration_ltb num zero in
  let den_neg := duration_ltb den zero in
  let quotient_neg := negb (Bool.eqb num_neg den_neg) in
  if IsInfiniteDuration num || duration_eqb den zero then
    Some (if quotient_neg then kint64min else kint64max, if num_neg then min_infinite else max_infinite)
  else if IsInfiniteDuration den then Some (0, num)
  else
    a ← MakeU128Ticks num;
    b ← MakeU128Ticks den;
    let quotient128 := uint128_div a b in
    let quotient128 :=
      if satq && uint128_gtb quotient128 (uint128_of_unsigned (wrap 64 kint64max))
      then (if quotient_neg then uint128_of_unsigned (wrap 64 kint64min)
            else uint128_of_unsigned (wrap 64 kint64max))
      else quotient128 in
    let remainder128 := uint128_sub a (uint128_mul quotient128 b) in
    rem ← MakeDurationFromU128 remainder128 num_neg;
    if negb quotient_neg || uint128_eqb quotient128 (uint128_of_signed 0)
    then Some (swrap 64 (Z.land (uint128_low64 quotient128) kint64max), rem)
    else
      q ← chk 64 (- swrap 64 (Z.land (uint128_low64 (uint128_sub quotient128 (uint128_of_signed 1))) kint64max));
      q ← q -? 1; Some (q, rem).

Definition IDivDurationImpl (satq : bool) (num den : Duration) : option (Z * Duration) :=
  fast ← IDivFastPath num den;
  match fast with
  | Some r => Some r
  | None => IDivSlowPath satq num den
  end.

Definition idiv (num den : Duration) : option (Z * Duration) := IDivDurationImpl true num den.

(** [operator/(Duration, Duration)] and [operator%=]. *)
Definition duration_div (lhs rhs : Duration) : option Z := fst <$> idiv lhs rhs.
Definition duration_mod (this rhs : Duration) : option Duration := snd <$> IDivDurationImpl false this rhs.

(** ** Rounding to a unit *)

Definition trunc (d unit : Duration) : option Duration :=
  r ← duration_mod d unit; Some (duration_sub d r).
Definition floor (d unit : Duration) : option Duration :=
  td ← trunc d unit;
  if duration_leb td d then Some td else u ← duration_abs unit; Some (duration_sub td u).
Definition ceil (d unit : Duration) : option Duration :=
  td ← trunc d unit;
  if duration_geb td d then Some td else u ← duration_abs unit; Some (duration_add td u).

(** ** Conversions to integer counts *)

Definition to_nanoseconds (d : Duration) : option Z :=
  if (0 <=? GetRepHi d) && (Z.shiftr (GetRepHi d) 33 =? 0) then
    t ← GetRepHi d *? 1000; t ← t *? 1000; t ← t *? 1000; t +? GetRepLo d /! kTicksPerNanosecond
  else u ← nanoseconds 1; duration_div d u.
Definition to_microseconds (d : Duration) : option Z :=
  if (0 <=? GetRepHi d) && (Z.shiftr (GetRepHi d) 43 =? 0) then
    t ← GetRepHi d *? 1000; t ← t *? 1000; t +? GetRepLo d /! (kTicksPerNanosecond * 1000)
  else u ← microseconds 1; duration_div d u.
Definition to_milliseconds (d : Duration) : option Z :=
  if (0 <=? GetRepHi d) && (Z.shiftr (GetRepHi d) 53 =? 0) then
    t ← GetRepHi d *? 1000; t +? GetRepLo d /! (kTicksPerNanosecond * 1000 * 1000)
  else u ← milliseconds 1; duration_div d u.

(** Whole seconds, truncated towards zero, of a finite duration. *)
Definition to_seconds (d : Duration) : option Z :=
  let hi := GetRepHi d in
  if IsInfiniteDuration d then Some hi
  else if (hi <? 0) && negb (GetRepLo d =? 0) then hi +? 1 else Some hi.
Definition to_minutes (d : Duration) : option Z :=
  let hi := GetRepHi d in
  if IsInfiniteDuration d then Some hi
  else hi ← (if (hi <? 0) && negb (GetRepLo d =? 0) then hi +? 1 else Some hi); Some (hi /! 60).
Definition to_hours (d : Duration) : option Z :=
  let hi := GetRepHi d in
  if IsInfiniteDuration d then Some hi
  else hi ← (if (hi <? 0) && negb (GetRepLo d =? 0) then hi +? 1 else Some hi); Some (hi /! (60 * 60)).

(** [timespec] and [timeval], with 64-bit [tv_sec]. *)
Record timespec := Timespec { tv_sec : Z; tv_nsec : Z }.
Record timeval := Timeval { tvv_sec : Z; tv_usec : Z }.

Definition from_timespec (ts : timespec) : option Duration :=
  if wrap 64 (tv_nsec ts) <? 1000 * 1000 * 1000 then
    ticks ← tv_nsec ts *? kTicksPerNanosecond; Some (MakeDuration (tv_sec ts) ticks)
  else a ← seconds (tv_sec ts); b ← nanoseconds (tv_nsec ts); Some (duration_add a b).

Definition from_timeval (tv : timeval) : option Duration :=
  if wrap 64 (tv_usec tv) <? 1000 * 1000 then
    ticks ← tv_usec tv *? 1000; ticks ← ticks *? kTicksPerNanosecond; Some (MakeDuration (tvv_sec tv) ticks)
  else a ← seconds (tvv_sec tv); b ← microseconds (tv_usec tv); Some (duration_add a b).

Definition to_timespec (d : Duration) : option timespec :=
  if negb (IsInfiniteDuration d) then
    let rep_hi := GetRepHi d in
    let rep_lo := GetRepLo d in
    '(rep_hi, rep_lo) ← (if rep_hi <? 0 then
        let rep_lo := uadd 32 rep_lo (kTicksPerNanosecond - 1) in
        if kTicksPerSecond <=? rep_lo
        then rep_hi ← rep_hi +? 1; Some (rep_hi, wrap 32 (rep_lo - kTicksPerSecond))
        else Some (rep_hi, rep_lo)
      else Some (rep_hi, rep_lo));
    Some (Timespec rep_hi (rep_lo /! kTicksPerNanosecond))
  else if duration_geb d zero then Some (Timespec kint64max (1000 * 1000 * 1000 - 1))
  else Some (Timespec kint64min 0).

Definition to_timeval (d : Duration) : option timeval :=
  ts ← to_timespec d;
  ts ← (if tv_sec ts <? 0 then
          let nsec := tv_nsec ts + (1000 - 1) in
          if 1000 * 1000 * 1000 <=? nsec
          then s ← tv_sec ts +? 1; Some (Timespec s (nsec - 1000 * 1000 * 1000))
          else Some (Timespec (tv_sec ts) nsec)
        else Some ts);
  Some (Timeval (tv_sec ts) (tv_nsec ts /! 1000)).

(** ** Times: durations since the Unix epoch *)

Record Time := MkTime { rep_ : Duration }.

Definition FromUnixDuration (d : Duration) : Time := MkTime d.
Definition ToUnixDuration (t : Time) : Duration := rep_ t.
Definition time_add (t : Time) (d : Duration) : Time := MkTime (duration_add (rep_ t) d).
Definition time_sub (t : Time) (d : Duration) : Time := MkTime (duration_sub (rep_ t) d).
Definition time_diff (lhs rhs : Time) : Duration := duration_sub (rep_ lhs) (rep_ rhs).
Definition time_ltb (lhs rhs : Time) : bool := duration_ltb (rep_ lhs) (rep_ rhs).
Definition time_gtb (lhs rhs : Time) : bool := time_ltb rhs lhs.
Definition time_geb (lhs rhs : Time) : bool := negb (time_ltb lhs rhs).
Definition time_leb (lhs rhs : Time) : bool := negb (time_ltb rhs lhs).
Definition time_eqb (lhs rhs : Time) : bool := duration_eqb (rep_ lhs) (rep_ rhs).
Definition time_neb (lhs rhs : Time) : bool := negb (time_eqb lhs rhs).

Definition time_from_nanoseconds (n : Z) : option Time := FromUnixDuration <$> nanoseconds n.
Definition time_from_microseconds (n : Z) : option Time := FromUnixDuration <$> microseconds n.
Definition time_from_milliseconds (n : Z) : option Time := FromUnixDuration <$> milliseconds n.
Definition time_from_seconds (n : Z) : option Time := FromUnixDuration <$> seconds n.
Definition future_infinite : Time := MkTime (MakeDuration kint64max kuint32max).
Definition past_infinite : Time := MkTime (MakeDuration kint64min kuint32max).
Definition from_unix_epoch : Time := MkTime zero.
Definition from_universal_epoch : Time := MkTime (MakeDuration (-24 * 719162 * 3600) 0).

(** Counts since the epoch, rounded down. *)
Definition FloorToUnit (d unit : Duration) : option Z :=
  '(q, rem) ← idiv d unit;
  if (0 <? q) || duration_geb rem zero || (q =? kint64min) then Some q else q -? 1.

Definition time_to_nanoseconds (t : Time) : option Z :=
  let d := ToUnixDuration t in
  if (0 <=? GetRepHi d) && (Z.shiftr (GetRepHi d) 33 =? 0) then
    t ← GetRepHi d *? 1000; t ← t *? 1000; t ← t *? 1000; t +? GetRepLo d /! 4
  else u ← nanoseconds 1; FloorToUnit d u.
Definition time_to_microseconds (t : Time) : option Z :=
  let d := ToUnixDuration t in
  if (0 <=? GetRepHi d) && (Z.shiftr (GetRepHi d) 43 =? 0) then
    t ← GetRepHi d *? 1000; t ← t *? 1000; t +? GetRepLo d /! 4000
  else u ← microseconds 1; FloorToUnit d u.
Definition time_to_milliseconds (t : Time) : option Z :=
  let d := ToUnixDuration t in
  if (0 <=? GetRepHi d) && (Z.shiftr (GetRepHi d) 53 =? 0) then
    t ← GetRepHi d *? 1000; t +? GetRepLo d /! (4000 * 1000)
  else u ← milliseconds 1; FloorToUnit d u.
Definition time_to_seconds (t : Time) : Z := GetRepHi (ToUnixDuration t).

(** ** Specification: extended tick counts *)

Inductive ext := NegInf | Fin (z : Z) | PosInf.

Abbreviation min_ticks := (- 2 ^ 63 * kTicksPerSecond).
Abbreviation max_ticks := (2 ^ 63 * kTicksPerSecond - 1).

(** Saturation of a tick count to the representable ones. *)
Definition sat (z : Z) : ext := if z <? min_ticks then NegInf else if max_ticks <? z then PosInf else Fin z.

(** [d] represents [e]. *)
Definition dur_is (d : Duration) (e : ext) : Prop :=
  match e with
  | Fin z => exists hi lo, d = MakeDuration hi lo /\ in64 hi /\ 0 <= lo < kTicksPerSecond /\ z = hi * kTicksPerSecond + lo
  | PosInf => d = MakeDuration kint64max kuint32max
  | NegInf => d = MakeDuration kint64min kuint32max
  end.

Lemma HiRep_get_assign v : HiRep_Get (HiRep_assign v) = swrap 64 v.
Proof.
  unfold HiRep_Get, HiRep_assign. cbn [hr_hi hr_lo].
  pose proof (wrap_range 64 v ltac:(lia)). set (u := wrap 64 v) in *.
  rewrite ushr_val, ushl_val by lia. unfold wrap at 1 2 3. fold (wrap 64 v).
  rewrite (Z.mod_small (u / 2 ^ 32)) by zlia.
  rewrite (Z.mod_small (u / 2 ^ 32 * 2 ^ 32)) by zlia.
  rewrite lor_shiftl_add by zlia. replace (u / 2 ^ 32 * 2 ^ 32 + u mod 2 ^ 32) with u by zlia.
  apply swrap_wrap. lia.
Qed.

Lemma hi_make hi lo : in64 hi -> GetRepHi (MakeDuration hi lo) = hi.
Proof. intros. unfold GetRepHi, MakeDuration. cbn [rep_hi_]. rewrite HiRep_get_assign. by apply (swrap_small 64). Qed.

Lemma lo_make hi lo : 0 <= lo < 2 ^ 32 -> GetRepLo (MakeDuration hi lo) = lo.
Proof. intros. by apply wrap_small. Qed.

Lemma inf_hi_pos : GetRepHi (MakeDuration kint64max kuint32max) = kint64max.
Proof. reflexivity. Qed.
Lemma inf_hi_neg : GetRepHi (MakeDuration kint64min kuint32max) = kint64min.
Proof. reflexivity. Qed.
Lemma min_infinite_eq : min_infinite = MakeDuration kint64min kuint32max.
Proof. reflexivity. Qed.
Lemma max_infinite_eq : max_infinite = MakeDuration kint64max kuint32max.
Proof. reflexivity. Qed.

(** The words of a finite duration. *)
Lemma fin_words d z : dur_is d (Fin z) ->
  GetRepHi d = z / kTicksPerSecond /\ GetRepLo d = z mod kTicksPerSecond /\ IsInfiniteDuration d = false /\
  d = MakeDuration (z / kTicksPerSecond) (z mod kTicksPerSecond) /\ min_ticks <= z <= max_ticks.
Proof.
  intros (hi & lo & -> & Hh & Hl & ->). unfold in64 in Hh.
  assert (EH : (hi * kTicksPerSecond + lo) / kTicksPerSecond = hi) by zlia.
  assert (EL : (hi * kTicksPerSecond + lo) mod kTicksPerSecond = lo) by zlia. rewrite EH, EL.
  rewrite hi_make by done. rewrite lo_make by lia. split_and!; try done; try lia.
  unfold IsInfiniteDuration. rewrite lo_make by lia. zcases; lia || done.
Qed.

Lemma make_fin hi lo z : in64 hi -> 0 <= lo < kTicksPerSecond -> z = hi * kTicksPerSecond + lo ->
  dur_is (MakeDuration hi lo) (Fin z).
Proof. intros. by exists hi, lo. Qed.

Lemma dur_is_inj a b e : dur_is a e -> dur_is b e -> a = b.
Proof.
  destruct e as [|z|]; cbn; [congruence| |congruence]. intros Ha Hb.
  destruct (fin_words a z Ha) as (_ & _ & _ & -> & _), (fin_words b z Hb) as (_ & _ & _ & -> & _). done.
Qed.

Lemma sat_fin z : min_ticks <= z <= max_ticks -> sat z = Fin z.
Proof. intros. unfold sat. zcases; lia || done. Qed.

Lemma dur_is_sat_fin d z : dur_is d (Fin z) -> dur_is d (sat z).
Proof. intros H. destruct (fin_words d z H) as (_ & _ & _ & _ & B). by rewrite sat_fin. Qed.

(** Saturation from the whole seconds. *)
Lemma sat_neg z : z < min_ticks -> dur_is min_infinite (sat z).
Proof. intros. unfold sat. zcases; [reflexivity|lia..]. Qed.
Lemma sat_pos z : max_ticks < z -> dur_is max_infinite (sat z).
Proof. intros. unfold sat. zcases; [lia|reflexivity|lia]. Qed.

Lemma inf_flags d e : dur_is d e -> IsInfiniteDuration d = match e with Fin _ => false | _ => true end.
Proof. destruct e; intros H; [by rewrite H|by apply (fin_words d z)|by rewrite H]. Qed.

(** The sign as the code reads it. *)
Definition ext_neg (e : ext) : bool := match e with NegInf => true | Fin z => z <? 0 | PosInf => false end.

Lemma hi_sign d e : dur_is d e -> (GetRepHi d <? 0) = ext_neg e.
Proof.
  destruct e as [|z|]; intros H; [by rewrite H| |by rewrite H].
  destruct (fin_words d z H) as (-> & _ & _ & _ & B). cbn. zcases; zlia || done.
Qed.

(** ** Addition, subtraction, negation *)

Definition ext_add (a b : ext) : ext :=
  match a, b with Fin x, Fin y => sat (x + y) | Fin _, _ => b | _, _ => a end.
Definition ext_opp (a : ext) : ext :=
  match a with NegInf => PosInf | Fin x => sat (- x) | PosInf => NegInf end.
Definition ext_sub (a b : ext) : ext :=
  match a, b with Fin x, Fin y => sat (x - y) | Fin _, _ => ext_opp b | _, _ => a end.

Lemma add_hi_carry a b c : in64 a -> in64 b -> c = 0 \/ c = 1 ->
  (if b <? 0 then a <? swrap 64 (a + b + c) else swrap 64 (a + b + c) <? a)
  = negb (is_s 64 (a + b + c)) /\ (is_s 64 (a + b + c) = false -> if b <? 0 then a + b + c < - 2 ^ 63 else 2 ^ 63 <= a + b + c).
Proof.
  unfold in64. intros Ha Hb Hc. destruct (is_s 64 (a + b + c)) eqn:E.
  - apply is_s_spec in E. cbn in E. rewrite swrap_small by lia. split; [|done].
    destruct (Z.ltb_spec b 0); zcases; lia || done.
  - assert (~ (- 2 ^ 63 <= a + b + c < 2 ^ 63)) as N by (rewrite <- (is_s_spec 64); congruence).
    unfold swrap. cbn -[Z.modulo Z.add Z.sub]. split; [|destruct (Z.ltb_spec b 0); lia].
    destruct (Z.ltb_spec b 0); zcases; zlia || done.
Qed.

Lemma encode_add a b : swrap 64 (uadd 64 (EncodeTwosComp a) (EncodeTwosComp b)) = swrap 64 (a + b).
Proof. unfold EncodeTwosComp, uadd. rewrite wrap_add_l, wrap_add_r, swrap_wrap by lia. done. Qed.

Lemma encode_sub a b : swrap 64 (usub 64 (EncodeTwosComp a) (EncodeTwosComp b)) = swrap 64 (a - b).
Proof. unfold EncodeTwosComp, usub. rewrite wrap_sub_l, wrap_sub_r, swrap_wrap by lia. done. Qed.

Lemma swrap_add_swrap a b : swrap 64 (swrap 64 a + b) = swrap 64 (a + b).
Proof.
  rewrite <- (swrap_wrap 64 (swrap 64 a + b)), <- (wrap_add_l 64 (swrap 64 a)), wrap_swrap, wrap_add_l, swrap_wrap by lia. done.
Qed.

Lemma sub_hi_borrow a b c : in64 a -> in64 b -> c = 0 \/ c = 1 ->
  (if b <? 0 then swrap 64 (a - b - c) <? a else a <? swrap 64 (a - b - c))
  = negb (is_s 64 (a - b - c)) /\ (is_s 64 (a - b - c) = false -> if 0 <=? b then a - b - c < - 2 ^ 63 else 2 ^ 63 <= a - b - c).
Proof.
  unfold in64. intros Ha Hb Hc. destruct (is_s 64 (a - b - c)) eqn:E.
  - apply is_s_spec in E. cbn in E. rewrite swrap_small by lia. split; [|done].
    destruct (Z.ltb_spec b 0); zcases; lia || done.
  - assert (~ (- 2 ^ 63 <= a - b - c < 2 ^ 63)) as N by (rewrite <- (is_s_spec 64); congruence).
    unfold swrap. cbn -[Z.modulo Z.add Z.sub]. split; [|destruct (Z.leb_spec 0 b); lia].
    destruct (Z.ltb_spec b 0); zcases; zlia || done.
Qed.

(** The words a finite operand is read as. *)
Ltac open_fin H :=
  let hi := fresh "hi" in let lo := fresh "lo" in let Bh := fresh "Bh" in let Bl := fresh "Bl" in
  destruct H as (hi & lo & -> & Bh & Bl & ->).

Lemma infinite_make hi lo : 0 <= lo < kTicksPerSecond -> IsInfiniteDuration (MakeDuration hi lo) = false.
Proof. intros. unfold IsInfiniteDuration. rewrite lo_make by lia. zcases; lia || done. Qed.

Lemma duration_add_fin a b x y : dur_is a (Fin x) -> dur_is b (Fin y) -> dur_is (duration_add a b) (sat (x + y)).
Proof.
  intros Ha Hb. open_fin Ha. open_fin Hb. unfold duration_add. rewrite !infinite_make by done.
  cbv zeta. fold (GetRepHi (MakeDuration hi lo)) (GetRepHi (MakeDuration hi0 lo0))
    (GetRepLo (MakeDuration hi lo)) (GetRepLo (MakeDuration hi0 lo0)).
  rewrite !hi_make, !lo_make by (done || lia).
  set (c := if kTicksPerSecond - lo0 <=? lo then 1 else 0).
  assert (Hc : c = 0 \/ c = 1) by (subst c; destruct (_ <=? _); auto).
  set (l := lo + lo0 - c * kTicksPerSecond).
  assert (Bl' : 0 <= l < kTicksPerSecond) by (subst l c; zcases; lia).
  assert (E : (if kTicksPerSecond - lo0 <=? lo
      then (HiRep_assign (DecodeTwosComp (uadd 64 (EncodeTwosComp (HiRep_Get (HiRep_assign (DecodeTwosComp
             (uadd 64 (EncodeTwosComp hi) (EncodeTwosComp hi0)))))) 1)), wrap 32 (lo - kTicksPerSecond))
      else (HiRep_assign (DecodeTwosComp (uadd 64 (EncodeTwosComp hi) (EncodeTwosComp hi0))), lo))
    = (HiRep_assign (swrap 64 (hi + hi0 + c)), wrap 32 (lo - c * kTicksPerSecond))).
  { unfold DecodeTwosComp. subst c. destruct (_ <=? _).
    - rewrite encode_add, HiRep_get_assign. change 1 with (EncodeTwosComp 1) at 1. rewrite encode_add.
      by rewrite !swrap_add_swrap.
    - rewrite encode_add, Z.add_0_r, wrap_small by lia. do 2 f_equal. lia. }
  rewrite E. rewrite HiRep_get_assign. destruct (add_hi_carry hi hi0 c Bh Bh0 Hc) as [T O].
  rewrite (swrap_small 64 (swrap 64 _)) by (lia || by apply (swrap_range 64)). rewrite T.
  destruct (is_s 64 (hi + hi0 + c)) eqn:ES; cbn [negb].
  - apply is_s_spec in ES. apply dur_is_sat_fin. rewrite swrap_small by lia.
    replace (MkDuration (HiRep_assign (hi + hi0 + c)) (uadd 32 (wrap 32 (lo - c * kTicksPerSecond)) lo0))
      with (MakeDuration (hi + hi0 + c) l).
    + apply make_fin; [exact ES|done|lia].
    + unfold MakeDuration. f_equal. unfold uadd. rewrite wrap_add_l by lia. f_equal. lia.
  - specialize (O eq_refl). destruct (hi0 <? 0); [apply sat_neg|apply sat_pos]; lia.
Qed.

Lemma duration_sub_fin a b x y : dur_is a (Fin x) -> dur_is b (Fin y) -> dur_is (duration_sub a b) (sat (x - y)).
Proof.
  intros Ha Hb. open_fin Ha. open_fin Hb. unfold duration_sub. rewrite !infinite_make by done.
  cbv zeta. fold (GetRepHi (MakeDuration hi lo)) (GetRepHi (MakeDuration hi0 lo0))
    (GetRepLo (MakeDuration hi lo)) (GetRepLo (MakeDuration hi0 lo0)).
  rewrite !hi_make, !lo_make by (done || lia).
  set (c := if lo <? lo0 then 1 else 0).
  assert (Hc : c = 0 \/ c = 1) by (subst c; destruct (_ <? _); auto).
  set (l := lo - lo0 + c * kTicksPerSecond).
  assert (Bl' : 0 <= l < kTicksPerSecond) by (subst l c; zcases; lia).
  assert (E : (if lo <? lo0
      then (HiRep_assign (DecodeTwosComp (usub 64 (EncodeTwosComp (HiRep_Get (HiRep_assign (DecodeTwosComp
             (usub 64 (EncodeTwosComp hi) (EncodeTwosComp hi0)))))) 1)), wrap 32 (lo + kTicksPerSecond))
      else (HiRep_assign (DecodeTwosComp (usub 64 (EncodeTwosComp hi) (EncodeTwosComp hi0))), lo))
    = (HiRep_assign (swrap 64 (hi - hi0 - c)), wrap 32 (lo + c * kTicksPerSecond))).
  { unfold DecodeTwosComp. subst c. destruct (_ <? _).
    - rewrite encode_sub, HiRep_get_assign. change 1 with (EncodeTwosComp 1) at 1. rewrite encode_sub.
      rewrite <- !Z.add_opp_r, !swrap_add_swrap. done.
    - rewrite encode_sub, wrap_small by lia. do 2 f_equal; lia || (f_equal; lia). }
  rewrite E. rewrite HiRep_get_assign. destruct (sub_hi_borrow hi hi0 c Bh Bh0 Hc) as [T O].
  rewrite (swrap_small 64 (swrap 64 _)) by (lia || by apply (swrap_range 64)). rewrite T.
  destruct (is_s 64 (hi - hi0 - c)) eqn:ES; cbn [negb].
  - apply is_s_spec in ES. apply dur_is_sat_fin. rewrite swrap_small by lia.
    replace (MkDuration (HiRep_assign (hi - hi0 - c)) (usub 32 (wrap 32 (lo + c * kTicksPerSecond)) lo0))
      with (MakeDuration (hi - hi0 - c) l).
    + apply make_fin; [exact ES|done|lia].
    + unfold MakeDuration. f_equal. unfold usub. rewrite wrap_sub_l by lia. f_equal. lia.
  - specialize (O eq_refl). destruct (0 <=? hi0); [apply sat_neg|apply sat_pos]; lia.
Qed.

Lemma duration_add_is a b x y : dur_is a x -> dur_is b y -> dur_is (duration_add a b) (ext_add x y).
Proof.
  intros Ha Hb. destruct x as [|x|], y as [|y|]; try (by apply duration_add_fin);
    unfold duration_add; rewrite (inf_flags a _ Ha); try exact Ha; rewrite (inf_flags b _ Hb); exact Hb.
Qed.

Lemma duration_sub_is a b x y : dur_is a x -> dur_is b y -> dur_is (duration_sub a b) (ext_sub x y).
Proof.
  intros Ha Hb. destruct x as [|x|], y as [|y|]; try (by apply duration_sub_fin);
    unfold duration_sub; rewrite (inf_flags a _ Ha); try exact Ha; rewrite (inf_flags b _ Hb), Hb; reflexivity.
Qed.

Lemma duration_neg_is d e : dur_is d e -> exists r, duration_neg d = Some r /\ dur_is r (ext_opp e).
Proof.
  destruct e as [|z|]; intros H; [rewrite H; eexists; split; reflexivity| |rewrite H; eexists; split; reflexivity].
  open_fin H. unfold duration_neg. rewrite infinite_make, hi_make, lo_make by (done || lia).
  cbn [ext_opp]. unfold in64 in *. destruct (Z.eqb_spec lo 0) as [->|].
  - destruct (Z.eqb_spec hi kint64min) as [->|].
    + eexists; split; [done|]. apply sat_pos. lia.
    + rewrite chk_Some by lia. eexists; split; [done|]. apply dur_is_sat_fin, make_fin; unfold in64; lia.
  - assert (NegateAndSubtractOne hi = Some (- hi - 1)) as ->.
    { unfold NegateAndSubtractOne. destruct (Z.ltb_spec hi 0).
      - i64 lia. rewrite chk_Some by lia. f_equal. lia.
      - rewrite chk_Some by lia. cbn [mbind option_bind]. by rewrite i64_sub by lia. }
    eexists; split; [done|]. apply dur_is_sat_fin, make_fin; unfold in64; lia.
Qed.

(** ** Comparison *)

Definition ext_ltb (a b : ext) : bool :=
  match a, b with
  | NegInf, NegInf => false | NegInf, _ => true
  | Fin x, Fin y => x <? y | Fin _, PosInf => true | _, _ => false
  end.

Lemma duration_ltb_is a b x y : dur_is a x -> dur_is b y -> duration_ltb a b = ext_ltb x y.
Proof.
  intros Ha Hb.
  assert (W : forall d e, dur_is d e -> exists hi lo, GetRepHi d = hi /\ GetRepLo d = lo /\
     match e with NegInf => hi = kint64min /\ lo = kuint32max | PosInf => hi = kint64max /\ lo = kuint32max
     | Fin z => in64 hi /\ 0 <= lo < kTicksPerSecond /\ z = hi * kTicksPerSecond + lo end).
  { intros d e H. destruct e as [|z|]; [rewrite H; by eexists _, _| |rewrite H; by eexists _, _].
    open_fin H. exists hi, lo. rewrite hi_make, lo_make by (done || lia). done. }
  destruct (W a x Ha) as (ah & al & EA1 & EA2 & Wa), (W b y Hb) as (bh & bl & EB1 & EB2 & Wb).
  unfold duration_ltb, uadd, wrap, in64 in *. rewrite EA1, EA2, EB1, EB2.
  destruct x as [|x|], y as [|y|]; cbn [ext_ltb]; destruct (Z.eqb_spec ah bh), (Z.eqb_spec ah kint64min); cbn [negb];
    zcases; zlia || done.
Qed.

Lemma duration_eqb_is a b x y : dur_is a x -> dur_is b y -> duration_eqb a b = true <-> x = y.
Proof.
  intros Ha Hb. unfold duration_eqb. rewrite andb_true_iff, !Z.eqb_eq. split.
  - intros [E1 E2]. destruct x as [|x|], y as [|y|]; try done; cbn in Ha, Hb;
      repeat match goal with
      | H : exists _, _ |- _ => open_fin H
      | H : _ = MakeDuration _ _ |- _ => rewrite H in *; clear H
      end; rewrite ?inf_hi_pos, ?inf_hi_neg in *;
      rewrite ?hi_make in E1 by done; rewrite ?lo_make in E2 by lia; try lia; try (subst; done).
  - intros ->. by rewrite (dur_is_inj _ _ _ Ha Hb).
Qed.

(** ** Scaling *)

Lemma MakeU128_is r : in64 r -> exists u, MakeU128 r = Some u /\ u128_is u (Z.abs r).
Proof.
  unfold in64. intros Hr. unfold MakeU128. destruct (Z.ltb_spec r 0).
  - cbv zeta. i64 lia. rewrite chk_Some by lia. cbn [mbind option_bind]. eexists. split; [done|].
    eapply u128_is_conv; [apply add_is; [unfold uint128_pre_inc; apply add_is; apply of_signed_is; lia|apply of_unsigned_is, wrap_range; lia]|].
    change (wrap 128 (wrap 128 0 + wrap 128 1)) with 1. rewrite (wrap_small 64), (wrap_small 128) by lia. lia.
  - cbv zeta. cbn [mbind option_bind]. eexists. split; [done|].
    eapply u128_is_conv; [apply add_is; [apply of_signed_is; lia|apply of_unsigned_is, wrap_range; lia]|].
    change (wrap 128 0) with 0. rewrite (wrap_small 64), (wrap_small 128) by lia. lia.
Qed.

Lemma MakeU128Ticks_is d x : dur_is d (Fin x) -> exists u, MakeU128Ticks d = Some u /\ u128_is u (Z.abs x).
Proof.
  intros H. open_fin H. unfold MakeU128Ticks. rewrite hi_make, lo_make by (done || lia). unfold in64 in *.
  cbv zeta. destruct (Z.ltb_spec hi 0); i64 lia; [rewrite chk_Some by lia|]; cbn [mbind option_bind];
    (eexists; split; [done|]); (eapply u128_is_conv;
      [apply add_is; [apply mul_is; apply of_unsigned_is; apply wrap_range; lia|apply of_unsigned_is; unfold wrap; zlia]|]);
    rewrite !(wrap_small 64) by lia; rewrite ?(wrap_small 32) by lia; rewrite (wrap_small 128 (_ * _)) by lia;
    rewrite (wrap_small 128) by lia; lia.
Qed.

(** The common tail of [MakeDurationFromU128]. *)
Lemma finish_is n (is_neg : bool) : 0 <= n < 2 ^ 63 * kTicksPerSecond -> exists d,
  ('(rep_hi, rep_lo) ← (if is_neg then
        rep_hi ← chk 64 (- (n / kTicksPerSecond));
        if negb (n mod kTicksPerSecond =? 0) then rep_hi ← rep_hi -? 1; Some (rep_hi, wrap 32 (kTicksPerSecond - n mod kTicksPerSecond))
        else Some (rep_hi, n mod kTicksPerSecond)
      else Some (n / kTicksPerSecond, n mod kTicksPerSecond));
    Some (MakeDuration rep_hi rep_lo)) = Some d /\ dur_is d (sat (if is_neg then - n else n)).
Proof.
  intros Hn. assert (0 <= n / kTicksPerSecond < 2 ^ 63) by zlia.
  pose proof (Z.mod_pos_bound n kTicksPerSecond ltac:(lia)). pose proof (Z.div_mod n kTicksPerSecond ltac:(lia)).
  destruct is_neg.
  - rewrite chk_Some by lia. cbn [mbind option_bind]. destruct (Z.eqb_spec (n mod kTicksPerSecond) 0); cbn [negb].
    + cbn [mbind option_bind]. eexists; split; [done|]. apply dur_is_sat_fin, make_fin; unfold in64; lia.
    + i64 lia. eexists; split; [done|]. rewrite wrap_small by lia. apply dur_is_sat_fin, make_fin; unfold in64; lia.
  - cbn [mbind option_bind]. eexists; split; [done|]. apply dur_is_sat_fin, make_fin; unfold in64; lia.
Qed.

Lemma MakeDurationFromU128_is u n (is_neg : bool) : u128_is u n ->
  exists d, MakeDurationFromU128 u is_neg = Some d /\ dur_is d (sat (if is_neg then - n else n)).
Proof.
  intros H. pose proof (u128_is_range u n H). unfold MakeDurationFromU128.
  rewrite (u128_is_hi u n H), (u128_is_lo u n H). cbv zeta.
  destruct (Z.eqb_spec (n / 2 ^ 64) 0).
  - assert (n < 2 ^ 64) by zlia. rewrite (Z.mod_small n (2 ^ 64)) by lia.
    rewrite (swrap_small 64 (n / _)) by zlia. unfold usub, umul. rewrite (wrap_small 64 (n / _ * _)) by zlia.
    replace (n - n / kTicksPerSecond * kTicksPerSecond) with (n mod kTicksPerSecond) by zlia.
    rewrite (wrap_small 64) by zlia. rewrite (wrap_small 32 (n mod _)) by zlia. apply finish_is. lia.
  - destruct (Z.leb_spec 0x77359400 (n / 2 ^ 64)).
    + assert (2 ^ 63 * kTicksPerSecond <= n) by zlia. destruct is_neg; cbn [andb].
      * destruct (Z.eqb_spec (n / 2 ^ 64) 0x77359400); [destruct (Z.eqb_spec (n mod 2 ^ 64) 0)|]; cbn [andb].
        -- eexists; split; [done|]. apply dur_is_sat_fin, make_fin; unfold in64; zlia.
        -- eexists; split; [done|]. apply sat_neg. zlia.
        -- eexists; split; [done|]. apply sat_neg. zlia.
      * eexists; split; [done|]. apply sat_pos. lia.
    + assert (n < 2 ^ 63 * kTicksPerSecond) by zlia.
      assert (HT : u128_is (uint128_of_unsigned kTicksPerSecond) kTicksPerSecond) by (apply of_unsigned_is; lia).
      destruct (DivModImpl_is _ _ _ _ H HT ltac:(lia)) as [HQ _]. fold (uint128_div u (uint128_of_unsigned kTicksPerSecond)) in HQ.
      rewrite (u128_is_lo _ _ HQ).
      rewrite (u128_is_lo _ _ (sub_is _ _ _ _ H (mul_is _ _ _ _ HQ HT))).
      assert (0 <= n / kTicksPerSecond < 2 ^ 63) by zlia.
      rewrite (Z.mod_small (n / kTicksPerSecond)) by lia. rewrite (swrap_small 64 (n / _)) by lia.
      rewrite (wrap_small 128 (n / _ * _)) by lia.
      replace (n - n / kTicksPerSecond * kTicksPerSecond) with (n mod kTicksPerSecond) by zlia.
      pose proof (Z.mod_pos_bound n kTicksPerSecond ltac:(lia)).
      rewrite (wrap_small 128) by lia. rewrite (Z.mod_small (n mod _)) by lia. rewrite (wrap_small 32 (n mod _)) by lia.
      apply finish_is; lia.
Qed.

Lemma SafeMultiply_is a b x y : u128_is a x -> u128_is b y -> y < 2 ^ 64 ->
  u128_is (SafeMultiply a b) (if x * y <? 2 ^ 128 then x * y else 2 ^ 128 - 1).
Proof.
  intros Ha Hb Hy. pose proof (u128_is_range a x Ha). pose proof (u128_is_range b y Hb).
  assert (M : x * y < 2 ^ 128 -> u128_is (uint128_mul a b) (x * y)).
  { intros. eapply u128_is_conv; [by apply mul_is|]. apply wrap_small. nia. }
  unfold SafeMultiply. rewrite (u128_is_hi a x Ha).
  destruct (Z.eqb_spec (x / 2 ^ 64) 0).
  - assert (x < 2 ^ 64) by zlia. assert (x * y < 2 ^ 128) by nia. rewrite (proj2 (Z.ltb_lt _ _)) by done.
    rewrite (u128_is_lo a x Ha), (u128_is_lo b y Hb), !Z.mod_small by lia.
    destruct (Z.eqb_spec (ushr (Z.lor x y) 32) 0) as [E|]; [|by apply M].
    rewrite ushr_val in E by lia.
    assert (S : forall z, 0 <= z -> z / 2 ^ 32 = 0 -> 0 <= z < 2 ^ 32) by (intros; zlia).
    assert (Z.lor x y = Z.lor x y mod 2 ^ 32) as EL.
    { symmetry. apply Z.mod_small, S; [|done]. apply Z.lor_nonneg; lia. }
    assert (x < 2 ^ 32 /\ y < 2 ^ 32) as [? ?].
    { assert (D : forall p q, 0 <= p -> 0 <= q -> Z.lor p q / 2 ^ 32 = 0 -> p < 2 ^ 32).
      { intros p q Hp Hq Ez. rewrite <- Z.shiftr_div_pow2, Z.shiftr_lor in Ez by lia.
        apply Z.lor_eq_0_iff in Ez as [Ez _]. rewrite Z.shiftr_div_pow2 in Ez by lia. apply S in Ez; lia. }
      split; [apply (D x y); lia|apply (D y x); try lia; by rewrite Z.lor_comm]. }
    unfold umul. rewrite wrap_small by nia. apply of_unsigned_is. nia.
  - rewrite (eqb_is b _ y (wrap 128 0) Hb (of_signed_is 0 ltac:(lia))). change (wrap 128 0) with 0.
    destruct (Z.eqb_spec y 0) as [->|].
    + rewrite Z.mul_0_r. exact Hb.
    + destruct (DivModImpl_is _ _ _ _ u128_max_is Hb ltac:(lia)) as [HQ _]. fold (uint128_div uint128_max b) in HQ.
      rewrite (gtb_is a _ x _ Ha HQ).
      pose proof (Z.div_mod (2 ^ 128 - 1) y ltac:(lia)). pose proof (Z.mod_pos_bound (2 ^ 128 - 1) y ltac:(lia)).
      destruct (Z.ltb_spec ((2 ^ 128 - 1) / y) x), (Z.ltb_spec (x * y) (2 ^ 128)); try nia; [exact u128_max_is|by apply M].
Qed.

(** The sign of a product and of a quotient from the signs of the operands. *)
Lemma sat_sign_mul x r (hneg : bool) : hneg = (x <? 0) ->
  (if negb (Bool.eqb hneg (r <? 0)) then - (Z.abs x * Z.abs r) else Z.abs x * Z.abs r) = x * r.
Proof. intros ->. zcases; simpl; nia. Qed.

Lemma duration_mul_fin d x r : dur_is d (Fin x) -> in64 r ->
  exists q, duration_mul d r = Some q /\ dur_is q (sat (x * r)).
Proof.
  intros H Hr. unfold duration_mul, ScaleFixed. rewrite (inf_flags d _ H).
  destruct (MakeU128Ticks_is d x H) as (a & -> & Ha), (MakeU128_is r Hr) as (b & -> & Hb). cbn [mbind option_bind].
  unfold in64 in Hr. pose proof (SafeMultiply_is a b _ _ Ha Hb ltac:(lia)) as HS. rewrite (hi_sign d _ H). cbn [ext_neg].
  destruct (MakeDurationFromU128_is _ _ (negb (Bool.eqb (x <? 0) (r <? 0))) HS) as (q & -> & Hq).
  exists q. split; [done|]. destruct (Z.ltb_spec (Z.abs x * Z.abs r) (2 ^ 128)).
  - by rewrite (sat_sign_mul x r (x <? 0) eq_refl) in Hq.
  - rewrite <- (sat_sign_mul x r (x <? 0) eq_refl). destruct (negb _).
    + unfold sat in *. zcases_in Hq; try lia. zcases; lia || done.
    + unfold sat in *. zcases_in Hq; try lia. zcases; lia || done.
Qed.

Lemma quot_sign x r : r <> 0 ->
  (if negb (Bool.eqb (x <? 0) (r <? 0)) then - (Z.abs x / Z.abs r) else Z.abs x / Z.abs r) = Z.quot x r.
Proof.
  intros Hr. rewrite (Z.quot_div x r) by done. destruct (Z.eq_dec x 0) as [->|Hx].
  - cbn [Z.abs Z.sgn]. rewrite Z.div_0_l by lia. destruct (negb _); lia.
  - zcases; cbn [negb Bool.eqb]; rewrite ?(Z.sgn_neg x), ?(Z.sgn_neg r), ?(Z.sgn_pos x), ?(Z.sgn_pos r) by lia; lia.
Qed.

Lemma duration_div_int_fin d x r : dur_is d (Fin x) -> in64 r -> r <> 0 ->
  exists q, duration_div_int d r = Some q /\ dur_is q (sat (Z.quot x r)).
Proof.
  intros H Hr Hr0. unfold duration_div_int, ScaleFixed. rewrite (inf_flags d _ H).
  destruct (Z.eqb_spec r 0); [done|]. cbn [orb].
  destruct (MakeU128Ticks_is d x H) as (a & -> & Ha), (MakeU128_is r Hr) as (b & -> & Hb). cbn [mbind option_bind].
  destruct (DivModImpl_is a b _ _ Ha Hb ltac:(lia)) as [HQ _]. fold (uint128_div a b) in HQ.
  rewrite (hi_sign d _ H). cbn [ext_neg].
  destruct (MakeDurationFromU128_is _ _ (negb (Bool.eqb (x <? 0) (r <? 0))) HQ) as (q & -> & Hq).
  exists q. split; [done|]. by rewrite quot_sign in Hq.
Qed.

(** Scaling of extended counts. *)
Definition ext_mul (a : ext) (r : Z) : ext :=
  match a with Fin x => sat (x * r) | _ => if r <? 0 then ext_opp a else a end.
Definition ext_div_int (a : ext) (r : Z) : ext :=
  match a with
  | Fin x => if r =? 0 then (if x <? 0 then NegInf else PosInf) else sat (Z.quot x r)
  | _ => if r <? 0 then ext_opp a else a
  end.

Lemma duration_mul_is d e r : dur_is d e -> in64 r ->
  exists q, duration_mul d r = Some q /\ dur_is q (ext_mul e r).
Proof.
  intros H Hr. destruct e as [|x|]; [| by apply duration_mul_fin |];
    unfold duration_mul; rewrite (inf_flags d _ H), (hi_sign d _ H); cbn [ext_neg ext_mul];
    destruct (r <? 0); eexists; (split; [reflexivity|]); reflexivity.
Qed.

Lemma duration_div_int_is d e r : dur_is d e -> in64 r ->
  exists q, duration_div_int d r = Some q /\ dur_is q (ext_div_int e r).
Proof.
  intros H Hr. destruct e as [|x|]; cbn [ext_div_int].
  - unfold duration_div_int. rewrite (inf_flags d _ H), (hi_sign d _ H). cbn [ext_neg orb].
    destruct (r <? 0); eexists; (split; [reflexivity|]); reflexivity.
  - destruct (Z.eqb_spec r 0) as [->|]; [|by apply duration_div_int_fin].
    unfold duration_div_int. rewrite (inf_flags d _ H), (hi_sign d _ H). cbn [ext_neg orb Z.eqb Z.ltb Z.compare].
    destruct (x <? 0); eexists; (split; [reflexivity|]); reflexivity.
  - unfold duration_div_int. rewrite (inf_flags d _ H), (hi_sign d _ H). cbn [ext_neg orb].
    destruct (r <? 0); eexists; (split; [reflexivity|]); reflexivity.
Qed.

(** ** Division of durations *)

Definition sat64 (z : Z) : Z := if z <? kint64min then kint64min else if kint64max <? z then kint64max else z.

(** Dividing a non-negative finite duration by a unit below a second. *)
Lemma by_unit_spec (per ticks hi lo : Z) : per * ticks = kTicksPerSecond -> 1000 <= per -> 0 < ticks ->
  0 <= hi < (kint64max - kTicksPerSecond) /! per -> 0 <= lo < kTicksPerSecond ->
  (q ← hi *? per; q +? lo /! ticks) = Some (Z.quot (hi * kTicksPerSecond + lo) ticks) /\
  Z.rem (hi * kTicksPerSecond + lo) ticks = lo %! ticks /\ 0 <= lo %! ticks < kTicksPerSecond.
Proof.
  intros HE Hp Ht Hh Hl. rewrite Z.quot_div_nonneg in Hh by lia.
  pose proof (Z.mul_div_le (kint64max - kTicksPerSecond) per ltac:(lia)).
  assert (0 <= hi * per <= kint64max - kTicksPerSecond) by nia.
  rewrite !Z.quot_div_nonneg, !Z.rem_mod_nonneg by lia.
  pose proof (Z.mod_pos_bound lo ticks ltac:(lia)). pose proof (Z.div_mod lo ticks ltac:(lia)).
  assert (0 <= lo / ticks <= lo) by nia.
  replace (hi * kTicksPerSecond + lo) with (lo + hi * per * ticks) by (rewrite <- HE; ring).
  rewrite Z.div_add, Z_mod_plus_full by lia. split_and!; [|done|nia|nia].
  i64 lia. f_equal. lia.
Qed.

Lemma IDivFastPath_is num den x y : dur_is num (Fin x) -> dur_is den (Fin y) ->
  IDivFastPath num den = Some None \/
  exists r, IDivFastPath num den = Some (Some (Z.quot x y, r)) /\ dur_is r (Fin (Z.rem x y)) /\ in64 (Z.quot x y) /\ y <> 0.
Proof.
  intros Hx Hy. open_fin Hx. open_fin Hy. unfold IDivFastPath. rewrite !infinite_make by done. cbn [orb].
  rewrite !hi_make, !lo_make by (done || lia). cbv zeta. unfold in64 in *.
  assert (U : forall per ticks, per * ticks = kTicksPerSecond -> 1000 <= per -> 0 < ticks -> hi0 = 0 -> lo0 = ticks ->
    forall (R := if (0 <=? hi) && (hi <? (kint64max - kTicksPerSecond) /! per) then
        q ← hi *? per; q ← q +? lo /! ticks; Some (Some (q, MakeDuration 0 (lo %! lo0))) else Some None),
    R = Some None \/ exists r, R = Some (Some (Z.quot (hi * kTicksPerSecond + lo) (hi0 * kTicksPerSecond + lo0), r)) /\
      dur_is r (Fin (Z.rem (hi * kTicksPerSecond + lo) (hi0 * kTicksPerSecond + lo0))) /\
      - 2 ^ 63 <= Z.quot (hi * kTicksPerSecond + lo) (hi0 * kTicksPerSecond + lo0) < 2 ^ 63 /\ hi0 * kTicksPerSecond + lo0 <> 0).
  { intros per ticks HE Hp Ht -> -> R. subst R. destruct ((0 <=? hi) && _) eqn:G; [|by left].
    apply andb_true_iff in G as [G1 G2]. apply Z.leb_le in G1. apply Z.ltb_lt in G2. right.
    destruct (by_unit_spec per ticks hi lo HE Hp Ht (conj G1 G2) Bl) as (E & ER & BR).
    rewrite Z.mul_0_l, Z.add_0_l. rewrite ER. exists (MakeDuration 0 (lo %! ticks)).
    assert (E2 : in64 (Z.quot (hi * kTicksPerSecond + lo) ticks)).
    { bind_inv E. apply chk_inv in E. unfold in64. cbn in E. destruct E as [-> ?]. lia. }
    split_and!; [|apply make_fin; unfold in64; lia|apply E2|apply E2|lia].
    bind_inv E. cbn [mbind option_bind]. rewrite E. done. }
  destruct (Z.eqb_spec hi0 0) as [->|].
  - destruct (Z.eqb_spec lo0 kTicksPerNanosecond); [by apply (U 1000000000)|].
    destruct (Z.eqb_spec lo0 (100 * kTicksPerNanosecond)); [by apply (U 10000000)|].
    destruct (Z.eqb_spec lo0 (1000 * kTicksPerNanosecond)); [by apply (U 1000000)|].
    destruct (Z.eqb_spec lo0 (1000000 * kTicksPerNanosecond)); [by apply (U 1000)|]. by left.
  - destruct ((0 <? hi0) && (lo0 =? 0)) eqn:G; [|by left].
    apply andb_true_iff in G as [G1 G2]. apply Z.ltb_lt in G1. apply Z.eqb_eq in G2 as ->. right.
    rewrite Z.add_0_r. clear U n.
    set (num := hi * kTicksPerSecond + lo). set (den := hi0 * kTicksPerSecond).
    assert (Sol : forall q rs, num = den * q + (rs * kTicksPerSecond + lo) ->
      Zquot.Remainder num den (rs * kTicksPerSecond + lo) -> - 2 ^ 63 <= q < 2 ^ 63 -> - 2 ^ 63 <= rs < 2 ^ 63 ->
      exists r, Some (Some (q, MakeDuration rs lo)) = Some (Some (Z.quot num den, r)) /\
      dur_is r (Fin (Z.rem num den)) /\ - 2 ^ 63 <= Z.quot num den < 2 ^ 63 /\ den <> 0).
    { intros q rs E HR Bq Brs. destruct (Zquot_mod_unique_full num den q _ HR E) as [<- <-].
      exists (MakeDuration rs lo). split_and!; [done|by apply make_fin|lia|lia|subst den; lia]. }
    unfold Zquot.Remainder in Sol. assert (Z.abs den = hi0 * kTicksPerSecond) as ED by (subst den; lia). rewrite ED in Sol.
    clear ED. destruct (Z.leb_spec 0 hi).
    + assert (0 <= hi / hi0 <= hi) by (split; [apply Z.div_pos; lia|apply Z.div_le_upper_bound; nia]).
      pose proof (Z.div_mod hi hi0 ltac:(lia)). pose proof (Z.mod_pos_bound hi hi0 ltac:(lia)).
      destruct (Z.eqb_spec hi0 1) as [->|].
      * apply Sol; subst num den; lia.
      * rewrite Z.quot_div_nonneg, Z.rem_mod_nonneg by lia. apply Sol; subst num den; nia.
    + set (c := if negb (lo =? 0) then 1 else 0).
      assert (Hc : c = 0 /\ lo = 0 \/ c = 1 /\ 0 < lo) by (subst c; destruct (Z.eqb_spec lo 0); cbn; lia).
      replace (if negb (lo =? 0) then hi +? 1 else Some hi) with (Some (hi + c))
        by (subst c; destruct (Z.eqb_spec lo 0); cbn [negb]; [f_equal; lia|by rewrite i64_add by lia]).
      cbn [mbind option_bind]. set (h := hi + c) in *. assert (h <= 0) by lia.
      pose proof (Z.quot_rem' h hi0). pose proof (Z.rem_nonpos h hi0 ltac:(lia)).
      pose proof (Z.rem_bound_abs h hi0 ltac:(lia)).
      set (q := h /! hi0) in *. set (rs := h %! hi0) in *.
      destruct (Z.ltb_spec 0 rs); [lia|]. cbn [mbind option_bind].
      replace (if negb (lo =? 0) then rs -? 1 else Some rs) with (Some (rs - c))
        by (subst c; destruct (Z.eqb_spec lo 0); cbn [negb]; [f_equal; lia|by rewrite i64_sub by lia]).
      cbn [mbind option_bind]. assert (h <= q <= 0) by nia.
      apply Sol; subst num den; nia.
Qed.

Lemma land_max z : 0 <= z -> Z.land z kint64max = z mod 2 ^ 63.
Proof. intros. change kint64max with (Z.ones 63). by rewrite Z.land_ones. Qed.

(** The quotient actually used, and the remainder that goes with it. *)
Definition used_quotient (satq : bool) (x y : Z) : Z := if satq then sat64 (Z.quot x y) else Z.quot x y.

Lemma zero_is : dur_is zero (Fin 0).
Proof. apply make_fin; unfold in64; lia. Qed.

Lemma IDivSlowPath_is satq num den x y : dur_is num (Fin x) -> dur_is den (Fin y) -> y <> 0 ->
  exists q r, IDivSlowPath satq num den = Some (q, r) /\ dur_is r (Fin (x - used_quotient satq x y * y)) /\
    (satq = true -> q = used_quotient satq x y).
Proof.
  intros Hx Hy Hy0. destruct (fin_words num x Hx) as (_ & _ & _ & _ & Bx), (fin_words den y Hy) as (_ & _ & _ & _ & By).
  unfold IDivSlowPath. rewrite (inf_flags _ _ Hx), (inf_flags _ _ Hy).
  rewrite (duration_ltb_is _ _ _ _ Hx zero_is), (duration_ltb_is _ _ _ _ Hy zero_is). cbn [ext_ltb].
  assert (duration_eqb den zero = false) as ->.
  { destruct (duration_eqb den zero) eqn:E; [|done]. apply (duration_eqb_is _ _ _ _ Hy zero_is) in E. congruence. }
  cbn [orb]. destruct (MakeU128Ticks_is _ x Hx) as (a & -> & Ha), (MakeU128Ticks_is _ y Hy) as (b & -> & Hb).
  cbn [mbind option_bind]. destruct (DivModImpl_is a b _ _ Ha Hb ltac:(lia)) as [HQ _]. fold (uint128_div a b) in HQ.
  set (Q := Z.abs x / Z.abs y) in *. set (neg := negb (Bool.eqb (x <? 0) (y <? 0))).
  assert (BQ : 0 <= Q /\ Q * Z.abs y <= Z.abs x) by (subst Q; split; [apply Z.div_pos|rewrite Z.mul_comm; apply Z.mul_div_le]; lia).
  assert (BQx : Q <= Z.abs x) by nia.
  assert (EQ : Z.quot x y = if neg then - Q else Q) by (subst neg Q; by rewrite quot_sign).
  rewrite (wrap_small 64 kint64max) by lia. change (wrap 64 kint64min) with (2 ^ 63).
  rewrite (gtb_is _ _ _ _ HQ (of_unsigned_is kint64max ltac:(lia))).
  set (Q' := if satq && (kint64max <? Q) then (if neg then 2 ^ 63 else kint64max) else Q).
  assert (EU : used_quotient satq x y = if neg then - Q' else Q').
  { unfold used_quotient, sat64. rewrite EQ. subst Q'. destruct satq, neg; cbn [andb]; zcases; lia. }
  assert (BQ' : 0 <= Q' <= Q) by (subst Q'; destruct satq, neg; cbn [andb]; zcases; lia).
  assert (HQ' : u128_is (if satq && (kint64max <? Q) then if neg then uint128_of_unsigned (2 ^ 63) else uint128_of_unsigned kint64max
      else uint128_div a b) Q').
  { subst Q'. destruct (satq && _); [destruct neg; apply of_unsigned_is; lia|exact HQ]. }
  set (u := if satq && _ then _ else uint128_div a b) in *. clearbody u.
  assert (BP : 0 <= Q' * Z.abs y <= Z.abs x) by nia.
  assert (HR : u128_is (uint128_sub a (uint128_mul u b)) (Z.abs x - Q' * Z.abs y)).
  { eapply u128_is_conv; [apply sub_is; [exact Ha|apply mul_is; [exact HQ'|exact Hb]]|].
    rewrite (wrap_small 128 (_ * _)), wrap_small by lia. done. }
  destruct (MakeDurationFromU128_is _ _ (x <? 0) HR) as (r & -> & Hr). cbn [mbind option_bind].
  assert (ER : (if x <? 0 then - (Z.abs x - Q' * Z.abs y) else Z.abs x - Q' * Z.abs y) = x - used_quotient satq x y * y).
  { rewrite EU. subst neg. zcases; cbn [negb Bool.eqb]; nia. }
  rewrite ER, sat_fin in Hr by (rewrite <- ER; zcases; lia).
  rewrite (eqb_is _ _ _ _ HQ' (of_signed_is 0 ltac:(lia))). change (wrap 128 0) with 0.
  assert (Bq : satq = true -> Q' <= if neg then 2 ^ 63 else kint64max).
  { intros ->. subst Q'. cbn [andb]. destruct neg; zcases; lia. }
  destruct (negb neg || (Q' =? 0)) eqn:G.
  - eexists _, r. split_and!; [done|done|]. intros Hs. rewrite (u128_is_lo _ _ HQ'), EU.
    assert (Q' <= kint64max). { specialize (Bq Hs). destruct neg; cbn in G; [apply Z.eqb_eq in G; lia|done]. }
    rewrite (Z.mod_small Q' (2 ^ 64)), land_max, (Z.mod_small Q' (2 ^ 63)), (swrap_small 64) by lia.
    destruct neg; cbn in G; [apply Z.eqb_eq in G; lia|done].
  - apply orb_false_iff in G as [G1 G2]. apply Z.eqb_neq in G2. destruct neg; [|done].
    assert (HS : u128_is (uint128_sub u (uint128_of_signed 1)) (Q' - 1)).
    { eapply u128_is_conv; [apply sub_is; [exact HQ'|apply of_signed_is; lia]|].
      change (wrap 128 1) with 1. apply wrap_small. lia. }
    rewrite (u128_is_lo _ _ HS). rewrite land_max by (apply Z.mod_pos_bound; lia).
    pose proof (Z.mod_pos_bound ((Q' - 1) mod 2 ^ 64) (2 ^ 63) ltac:(lia)).
    rewrite (swrap_small 64) by lia. rewrite chk_Some by lia. cbn [mbind option_bind]. rewrite i64_sub by lia.
    eexists _, r. split_and!; [done|done|]. intros Hs. specialize (Bq Hs). rewrite EU.
    rewrite (Z.mod_small (Q' - 1) (2 ^ 64)), (Z.mod_small (Q' - 1) (2 ^ 63)) by lia. lia.
Qed.

Lemma sat64_small z : in64 z -> sat64 z = z.
Proof. unfold in64, sat64. intros. zcases; lia. Qed.

Lemma sat64_range z : in64 (sat64 z).
Proof. unfold in64, sat64. zcases; lia. Qed.

Lemma IDivDurationImpl_is satq num den x y : dur_is num (Fin x) -> dur_is den (Fin y) -> y <> 0 ->
  exists q r, IDivDurationImpl satq num den = Some (q, r) /\ dur_is r (Fin (x - used_quotient satq x y * y)) /\
    (satq = true -> q = used_quotient satq x y).
Proof.
  intros Hx Hy Hy0. unfold IDivDurationImpl.
  destruct (IDivFastPath_is num den x y Hx Hy) as [-> | (r & -> & Hr & Hq & _)]; cbn [mbind option_bind].
  - by apply IDivSlowPath_is.
  - assert (E : used_quotient satq x y = Z.quot x y).
    { unfold used_quotient. destruct satq; [by apply sat64_small|done]. }
    exists (Z.quot x y), r. rewrite E. split_and!; [done| |done].
    pose proof (Z.quot_rem' x y). replace (x - Z.quot x y * y) with (Z.rem x y) by lia. done.
Qed.

Lemma idiv_fin num den x y : dur_is num (Fin x) -> dur_is den (Fin y) -> y <> 0 ->
  exists r, idiv num den = Some (sat64 (Z.quot x y), r) /\ dur_is r (Fin (x - sat64 (Z.quot x y) * y)).
Proof.
  intros Hx Hy Hy0. destruct (IDivDurationImpl_is true num den x y Hx Hy Hy0) as (q & r & E & Hr & Hq).
  rewrite (Hq eq_refl) in E. by exists r.
Qed.

Lemma duration_mod_fin num den x y : dur_is num (Fin x) -> dur_is den (Fin y) -> y <> 0 ->
  exists r, duration_mod num den = Some r /\ dur_is r (Fin (Z.rem x y)).
Proof.
  intros Hx Hy Hy0. destruct (IDivDurationImpl_is false num den x y Hx Hy Hy0) as (q & r & E & Hr & _).
  unfold duration_mod. rewrite E. exists r. split; [done|]. unfold used_quotient in Hr.
  pose proof (Z.quot_rem' x y). by replace (x - Z.quot x y * y) with (Z.rem x y) in Hr by lia.
Qed.

(** Division that involves an infinity or zero. *)
Lemma idiv_special num den x y : dur_is num x -> dur_is den y ->
  match x, y with
  | Fin x, Fin y => y = 0 -> idiv num den =
      Some (if x <? 0 then kint64min else kint64max, if x <? 0 then min_infinite else max_infinite)
  | Fin _, _ => idiv num den = Some (0, num)
  | _, _ => idiv num den = Some (if negb (Bool.eqb (ext_neg x) (ext_neg y)) then kint64min else kint64max, num)
  end.
Proof.
  intros Hx Hy.
  assert (S : forall d e, dur_is d e -> duration_ltb d zero = ext_neg e).
  { intros d e H. rewrite (duration_ltb_is _ _ _ _ H zero_is). by destruct e. }
  assert (Z0 : forall z, y = Fin z -> z = 0 -> duration_eqb den zero = true).
  { intros z -> ->. by apply (duration_eqb_is _ _ _ _ Hy zero_is). }
  unfold idiv, IDivDurationImpl, IDivFastPath, IDivSlowPath.
  rewrite !(inf_flags _ _ Hx), !(inf_flags _ _ Hy), (S _ _ Hx), (S _ _ Hy).
  destruct x as [|x|], y as [|y|]; cbn [orb mbind option_bind ext_neg]; try (rewrite Hx; destruct (y <? 0); done);
    try (rewrite Hx; done).
  - assert (duration_eqb den zero = false) as -> by (by rewrite Hy). done.
  - intros ->. destruct (fin_words den 0 Hy) as (_ & _ & _ & Ed & _).
    assert (den = zero) as -> by (apply (dur_is_inj _ _ _ Hy zero_is)).
    destruct (fin_words num x Hx) as (EH & EL & _). cbv zeta. cbn [GetRepHi].
    change (GetRepHi zero) with 0. change (GetRepLo zero) with 0. cbn [Z.eqb mbind option_bind Z.ltb Z.compare].
    change (duration_eqb zero zero) with true. cbn [orb]. destruct (x <? 0); done.
  - assert (duration_eqb den zero = false) as -> by (by rewrite Hy). done.
Qed.

(** ** Rounding *)

(** The truncated multiple lies between zero and the dividend. *)
Lemma quot_mul_between x y : y <> 0 ->
  Z.abs (Z.quot x y * y) <= Z.abs x /\ 0 <= Z.quot x y * y * x /\ (Z.quot x y * y <= x \/ x <= Z.quot x y * y < x + Z.abs y).
Proof.
  intros Hy. pose proof (Z.quot_rem' x y) as QR. pose proof (Z.rem_sign_mul x y Hy) as S.
  pose proof (Z.rem_abs x y Hy) as A. pose proof (Z.rem_le (Z.abs x) (Z.abs y) ltac:(lia) ltac:(lia)).
  pose proof (Z.rem_bound_abs x y Hy). rewrite A in *. nia.
Qed.

Lemma trunc_fin d u x y : dur_is d (Fin x) -> dur_is u (Fin y) -> y <> 0 ->
  exists r, trunc d u = Some r /\ dur_is r (Fin (Z.quot x y * y)).
Proof.
  intros Hx Hy Hy0. unfold trunc. destruct (duration_mod_fin d u x y Hx Hy Hy0) as (r & -> & Hr). cbn [mbind option_bind].
  destruct (fin_words d x Hx) as (_ & _ & _ & _ & Bx). pose proof (Z.quot_rem' x y).
  pose proof (duration_sub_fin _ _ _ _ Hx Hr) as HS. eexists; split; [done|].
  replace (x - Z.rem x y) with (Z.quot x y * y) in HS by lia.
  destruct (quot_mul_between x y Hy0) as (B & B2 & _). rewrite sat_fin in HS; [done|]. nia.
Qed.

Lemma duration_abs_fin d x : dur_is d (Fin x) -> exists r, duration_abs d = Some r /\ dur_is r (sat (Z.abs x)).
Proof.
  intros H. unfold duration_abs. rewrite (duration_ltb_is _ _ _ _ H zero_is). cbn [ext_ltb].
  destruct (Z.ltb_spec x 0).
  - destruct (duration_neg_is d _ H) as (r & -> & Hr). exists r. split; [done|]. cbn [ext_opp] in Hr.
    by replace (Z.abs x) with (- x) by lia.
  - exists d. split; [done|]. replace (Z.abs x) with x by lia. by apply dur_is_sat_fin.
Qed.

(** Floored and ceiled multiples from the truncated one. *)
Lemma floor_of_trunc x y : y <> 0 ->
  Z.abs y * (x / Z.abs y) = if Z.quot x y * y <=? x then Z.quot x y * y else Z.quot x y * y - Z.abs y.
Proof.
  intros Hy. pose proof (Z.quot_rem' x y) as QR. pose proof (Z.rem_sign_mul x y Hy) as S.
  pose proof (Z.rem_bound_abs x y Hy) as B. set (q := Z.quot x y) in *. set (r := Z.rem x y) in *.
  assert (K : forall k s, x = Z.abs y * k + s -> 0 <= s < Z.abs y -> Z.abs y * (x / Z.abs y) = x - s).
  { intros k s E Hs. rewrite <- (Z.div_unique_pos x (Z.abs y) k s) by lia. lia. }
  destruct (Z.leb_spec (q * y) x).
  - rewrite (K (q * Z.sgn y) r); [lia|nia|lia].
  - rewrite (K (q * Z.sgn y - 1) (r + Z.abs y)); [lia|nia|lia].
Qed.

Lemma floor_fin d u x y : dur_is d (Fin x) -> dur_is u (Fin y) -> y <> 0 -> y <> min_ticks ->
  exists r, floor d u = Some r /\ dur_is r (sat (Z.abs y * (x / Z.abs y))).
Proof.
  intros Hx Hy Hy0 Hm. unfold floor. destruct (trunc_fin d u x y Hx Hy Hy0) as (t & -> & Ht). cbn [mbind option_bind].
  destruct (fin_words u y Hy) as (_ & _ & _ & _ & By).
  unfold duration_leb. rewrite (duration_ltb_is _ _ _ _ Hx Ht). cbn [ext_ltb]. rewrite floor_of_trunc by done.
  rewrite Z.ltb_antisym, Bool.negb_involutive. destruct (Z.quot x y * y <=? x).
  - exists t. split; [done|]. by apply dur_is_sat_fin.
  - destruct (duration_abs_fin u y Hy) as (a & -> & Ha). cbn [mbind option_bind].
    rewrite sat_fin in Ha by lia. eexists; split; [done|]. by apply duration_sub_fin.
Qed.

Lemma ceil_of_trunc x y : y <> 0 ->
  - (Z.abs y * (- x / Z.abs y)) = if x <=? Z.quot x y * y then Z.quot x y * y else Z.quot x y * y + Z.abs y.
Proof.
  intros Hy. rewrite (floor_of_trunc (- x) y Hy). rewrite Z.quot_opp_l by done.
  replace (- (x /! y) * y) with (- (x /! y * y)) by ring. zcases; lia.
Qed.

Lemma ceil_fin d u x y : dur_is d (Fin x) -> dur_is u (Fin y) -> y <> 0 -> y <> min_ticks ->
  exists r, ceil d u = Some r /\ dur_is r (sat (- (Z.abs y * (- x / Z.abs y)))).
Proof.
  intros Hx Hy Hy0 Hm. unfold ceil. destruct (trunc_fin d u x y Hx Hy Hy0) as (t & -> & Ht). cbn [mbind option_bind].
  destruct (fin_words u y Hy) as (_ & _ & _ & _ & By).
  unfold duration_geb. rewrite (duration_ltb_is _ _ _ _ Ht Hx). cbn [ext_ltb]. rewrite ceil_of_trunc by done.
  rewrite Z.ltb_antisym, Bool.negb_involutive. destruct (x <=? Z.quot x y * y).
  - exists t. split; [done|]. by apply dur_is_sat_fin.
  - destruct (duration_abs_fin u y Hy) as (a & -> & Ha). cbn [mbind option_bind].
    rewrite sat_fin in Ha by lia. eexists; split; [done|]. by apply duration_add_fin.
Qed.

(** ** Factories and conversions *)

(** The factories of units of a second and below: [N] units per second, [t] ticks each. *)
Lemma FromInt64_sub_is N t v : N * t = kTicksPerSecond -> 0 < N <= 1000000000 -> 0 < t -> in64 v ->
  exists r, FromInt64_sub N v = Some r /\ dur_is r (Fin (v * t)).
Proof.
  intros HE HN Ht Hv. unfold in64, FromInt64_sub in *.
  pose proof (Z.quot_rem' v N) as QR. pose proof (Z.rem_bound_abs v N ltac:(lia)) as RB.
  assert (BQ : - 2 ^ 63 <= v /! N < 2 ^ 63 /\ (Z.rem v N < 0 -> - 2 ^ 63 < v /! N)).
  { destruct (Z.le_gt_cases 0 v).
    - pose proof (Z.rem_nonneg v N ltac:(lia) ltac:(lia)). split; [|lia]. split; nia.
    - pose proof (Z.rem_nonpos v N ltac:(lia) ltac:(lia)). assert (- 2 ^ 63 <= N * (v /! N)) by lia. split; [|intros]; nia. }
  set (r := v %! N) in *. set (q := v /! N) in *.
  i64 lia. replace (r * kTicksPerNanosecond * 1000 * 1000 * 1000) with (r * t * N)
    by (transitivity (r * (N * t)); [ring|rewrite HE; ring]).
  rewrite Z.quot_mul by lia. assert (- kTicksPerSecond < r * t < kTicksPerSecond) by nia.
  unfold MakeNormalizedDuration. destruct (Z.ltb_spec (r * t) 0).
  - assert (r < 0) by nia. i64 lia. eexists; split; [done|]. apply make_fin; unfold in64; lia || nia.
  - eexists; split; [done|]. apply make_fin; unfold in64; lia || nia.
Qed.

Lemma FromInt64_60_is v : in64 v -> exists r, FromInt64_60 v = Some r /\ dur_is r (sat (v * 60 * kTicksPerSecond)).
Proof.
  unfold in64, FromInt64_60. intros Hv. change (kint64max /! 60) with 153722867280912930.
  change (kint64min /! 60) with (-153722867280912930). destruct ((v <=? _) && _) eqn:G.
  - apply andb_true_iff in G as [G1 G2]. apply Z.leb_le in G1, G2. i64 lia.
    eexists; split; [done|]. apply dur_is_sat_fin, make_fin; unfold in64; lia.
  - eexists; split; [done|]. apply andb_false_iff in G as [G|G]; apply Z.leb_gt in G;
      destruct (Z.ltb_spec 0 v); try lia; [apply sat_pos|apply sat_neg]; lia.
Qed.

Lemma FromInt64_3600_is v : in64 v -> exists r, FromInt64_3600 v = Some r /\ dur_is r (sat (v * 3600 * kTicksPerSecond)).
Proof.
  unfold in64, FromInt64_3600. intros Hv. change (kint64max /! 3600) with 2562047788015215.
  change (kint64min /! 3600) with (-2562047788015215). destruct ((v <=? _) && _) eqn:G.
  - apply andb_true_iff in G as [G1 G2]. apply Z.leb_le in G1, G2. i64 lia.
    eexists; split; [done|]. apply dur_is_sat_fin, make_fin; unfold in64; lia.
  - eexists; split; [done|]. apply andb_false_iff in G as [G|G]; apply Z.leb_gt in G;
      destruct (Z.ltb_spec 0 v); try lia; [apply sat_pos|apply sat_neg]; lia.
Qed.

(** The shortcut of the conversions to sub-second units. *)
Lemma fast_count hi lo k per t : per * t = kTicksPerSecond -> 0 < t -> 0 <= k -> 2 ^ k * per <= 2 ^ 63 -> 0 <= hi -> Z.shiftr hi k = 0 ->
  0 <= lo < kTicksPerSecond ->
  0 <= hi * per + lo /! t < 2 ^ 63 /\ hi * per + lo /! t = (hi * kTicksPerSecond + lo) / t.
Proof.
  intros HE Ht Hk HK Hh HS Hl. rewrite Z.shiftr_div_pow2 in HS by lia.
  assert (hi < 2 ^ k). { apply Z.div_small_iff in HS; [lia|]. pose proof (Z.pow_pos_nonneg 2 k); lia. }
  rewrite Z.quot_div_nonneg by lia. pose proof (Z.div_mod lo t ltac:(lia)). pose proof (Z.mod_pos_bound lo t ltac:(lia)).
  assert (0 <= lo / t < per) by nia.
  replace (hi * kTicksPerSecond + lo) with (lo + hi * per * t) by (rewrite <- HE; ring).
  rewrite Z.div_add by lia. nia.
Qed.

Definition sat64_of (e : ext) (f : Z -> Z) : Z :=
  match e with NegInf => kint64min | Fin x => sat64 (f x) | PosInf => kint64max end.

Lemma sat64_in z : 0 <= z < 2 ^ 63 -> sat64 z = z.
Proof. intros. apply sat64_small. unfold in64. lia. Qed.

(** Division by a positive unit, truncated and floored, infinities included. *)
Lemma div_by_unit d e u t : dur_is d e -> dur_is u (Fin t) -> 0 < t ->
  duration_div d u = Some (sat64_of e (fun x => Z.quot x t)).
Proof.
  intros Hd Hu Ht. unfold duration_div. pose proof (idiv_special d u e (Fin t) Hd Hu) as S.
  destruct e as [|x|]; cbn in S |- *.
  - rewrite S. destruct (Z.ltb_spec t 0); [lia|done].
  - destruct (idiv_fin d u x t Hd Hu ltac:(lia)) as (r & -> & _). done.
  - rewrite S. destruct (Z.ltb_spec t 0); [lia|done].
Qed.

Lemma floor_by_unit d e u t : dur_is d e -> dur_is u (Fin t) -> 0 < t ->
  FloorToUnit d u = Some (sat64_of e (fun x => x / t)).
Proof.
  intros Hd Hu Ht. unfold FloorToUnit. pose proof (idiv_special d u e (Fin t) Hd Hu) as S.
  destruct e as [|x|]; cbn in S |- *.
  - rewrite S. destruct (Z.ltb_spec t 0); [lia|]. cbn. rewrite Hd. done.
  - destruct (idiv_fin d u x t Hd Hu ltac:(lia)) as (r & -> & Hr). cbn [mbind option_bind].
    unfold duration_geb. rewrite (duration_ltb_is _ _ _ _ Hr zero_is). cbn [ext_ltb].
    pose proof (Z.quot_rem' x t) as QR. pose proof (Z.rem_sign_mul x t ltac:(lia)) as RS.
    pose proof (Z.rem_bound_abs x t ltac:(lia)) as RB.
    assert (EF : x / t = if 0 <=? Z.rem x t then Z.quot x t else Z.quot x t - 1).
    { destruct (Z.leb_spec 0 (Z.rem x t)); symmetry;
        [apply (Z.div_unique_pos _ _ _ (Z.rem x t))|apply (Z.div_unique_pos _ _ _ (Z.rem x t + t))]; lia. }
    assert (0 < Z.quot x t -> 0 <= Z.rem x t) by (intros; assert (0 < x) by nia; nia).
    set (q := Z.quot x t) in *. set (m := Z.rem x t) in *. rewrite EF. unfold sat64.
    destruct (Z.ltb_spec q kint64min); [|destruct (Z.ltb_spec kint64max q)].
    + rewrite Z.eqb_refl, orb_true_r. f_equal. destruct (Z.leb_spec 0 m); zcases; lia.
    + cbn [orb Z.ltb Z.compare]. f_equal. destruct (Z.leb_spec 0 m); zcases; lia.
    + replace (x - q * t) with m by lia. rewrite <- Z.leb_antisym.
      destruct (Z.ltb_spec 0 q), (Z.leb_spec 0 m), (Z.eqb_spec q kint64min); cbn [orb]; try lia;
        try (f_equal; zcases; lia). rewrite i64_sub by lia. f_equal. zcases; lia.
  - rewrite S. destruct (Z.ltb_spec t 0); [lia|done].
Qed.

(** The shortcut test on the high word. *)
Lemma shortcut_words d e k : dur_is d e -> 0 <= k <= 53 ->
  (0 <=? GetRepHi d) && (Z.shiftr (GetRepHi d) k =? 0) = true ->
  exists hi lo, e = Fin (hi * kTicksPerSecond + lo) /\ GetRepHi d = hi /\ GetRepLo d = lo /\
    0 <= hi /\ Z.shiftr hi k = 0 /\ 0 <= lo < kTicksPerSecond.
Proof.
  intros Hd Hk G. apply andb_true_iff in G as [G1 G2]. apply Z.leb_le in G1. apply Z.eqb_eq in G2.
  destruct e as [|x|].
  - rewrite Hd, inf_hi_neg in G1. lia.
  - open_fin Hd. rewrite hi_make in * by done. rewrite lo_make by lia. by exists hi, lo.
  - rewrite Hd, inf_hi_pos in G2. rewrite Z.shiftr_div_pow2 in G2 by lia.
    assert (2 ^ k <= 2 ^ 53) by (apply Z.pow_le_mono_r; lia). pose proof (Z.pow_pos_nonneg 2 k ltac:(lia) ltac:(lia)).
    apply Z.div_small_iff in G2; lia.
Qed.

(** Conversion of a non-negative duration by the shortcut equals the general one,
    truncated or floored. *)
Lemma shortcut_value d e k per t : dur_is d e -> 0 <= k <= 53 -> per * t = kTicksPerSecond -> 0 < t ->
  2 ^ k * per <= 2 ^ 63 -> (0 <=? GetRepHi d) && (Z.shiftr (GetRepHi d) k =? 0) = true ->
  let v := GetRepHi d * per + GetRepLo d /! t in
  0 <= GetRepHi d * per < 2 ^ 63 /\ 0 <= v < 2 ^ 63 /\ 0 <= GetRepHi d < 2 ^ 53 /\
  sat64_of e (fun x => Z.quot x t) = v /\ sat64_of e (fun x => x / t) = v.
Proof.
  intros Hd Hk HE Ht HK G v. destruct (shortcut_words d e k Hd Hk G) as (hi & lo & -> & EH & EL & Bh & HS & Bl).
  subst v. rewrite EH, EL. destruct (fast_count hi lo k per t HE Ht ltac:(lia) HK Bh HS Bl) as [B E].
  assert (0 <= lo /! t) by (apply Z.quot_pos; lia). assert (0 < per) by nia.
  assert (hi < 2 ^ 53).
  { assert (2 ^ k <= 2 ^ 53) by (apply Z.pow_le_mono_r; lia). pose proof (Z.pow_pos_nonneg 2 k ltac:(lia) ltac:(lia)).
    rewrite Z.shiftr_div_pow2 in HS by lia. apply Z.div_small_iff in HS; lia. }
  cbn [sat64_of]. rewrite (Z.quot_div_nonneg (hi * kTicksPerSecond + lo)) by lia. rewrite <- E, sat64_in by lia. split_and!; lia || nia.
Qed.

Lemma nanoseconds_1 : exists u, nanoseconds 1 = Some u /\ dur_is u (Fin 4).
Proof. apply (FromInt64_sub_is 1000000000 4 1); unfold in64; lia. Qed.
Lemma microseconds_1 : exists u, microseconds 1 = Some u /\ dur_is u (Fin 4000).
Proof. apply (FromInt64_sub_is 1000000 4000 1); unfold in64; lia. Qed.
Lemma milliseconds_1 : exists u, milliseconds 1 = Some u /\ dur_is u (Fin 4000000).
Proof. apply (FromInt64_sub_is 1000 4000000 1); unfold in64; lia. Qed.

(** Evaluate a conversion on both of its paths. *)
Ltac count_conversion Hd k per t unit general :=
  let G := fresh "G" in
  match goal with |- (if ?g then _ else _) = _ => destruct g eqn:G end;
  [ destruct (shortcut_value _ _ k per t Hd ltac:(lia) ltac:(lia) ltac:(lia) ltac:(lia) G) as (B1 & B2 & B3 & E1 & E2);
    i64 lia; rewrite ?E1, ?E2; f_equal; lia
  | destruct unit as (u & -> & Hu); cbn [mbind option_bind]; apply (general _ _ _ _ Hd Hu); lia ].

Lemma to_nanoseconds_is d e : dur_is d e -> to_nanoseconds d = Some (sat64_of e (fun x => Z.quot x 4)).
Proof. intros Hd. unfold to_nanoseconds. count_conversion Hd 33 1000000000 4 nanoseconds_1 div_by_unit. Qed.
Lemma to_microseconds_is d e : dur_is d e -> to_microseconds d = Some (sat64_of e (fun x => Z.quot x 4000)).
Proof.
  intros Hd. unfold to_microseconds. change (kTicksPerNanosecond * 1000) with 4000.
  count_conversion Hd 43 1000000 4000 microseconds_1 div_by_unit.
Qed.
Lemma to_milliseconds_is d e : dur_is d e -> to_milliseconds d = Some (sat64_of e (fun x => Z.quot x 4000000)).
Proof.
  intros Hd. unfold to_milliseconds. change (kTicksPerNanosecond * 1000 * 1000) with 4000000.
  count_conversion Hd 53 1000 4000000 milliseconds_1 div_by_unit.
Qed.

Lemma time_to_nanoseconds_is t e : dur_is (rep_ t) e -> time_to_nanoseconds t = Some (sat64_of e (fun x => x / 4)).
Proof. intros Hd. unfold time_to_nanoseconds. cbv zeta. unfold ToUnixDuration. count_conversion Hd 33 1000000000 4 nanoseconds_1 floor_by_unit. Qed.
Lemma time_to_microseconds_is t e : dur_is (rep_ t) e -> time_to_microseconds t = Some (sat64_of e (fun x => x / 4000)).
Proof. intros Hd. unfold time_to_microseconds. cbv zeta. unfold ToUnixDuration. count_conversion Hd 43 1000000 4000 microseconds_1 floor_by_unit. Qed.
Lemma time_to_milliseconds_is t e : dur_is (rep_ t) e -> time_to_milliseconds t = Some (sat64_of e (fun x => x / 4000000)).
Proof.
  intros Hd. unfold time_to_milliseconds. cbv zeta. unfold ToUnixDuration. change (4000 * 1000) with 4000000.
  count_conversion Hd 53 1000 4000000 milliseconds_1 floor_by_unit.
Qed.
Lemma time_to_seconds_is t e : dur_is (rep_ t) e -> time_to_seconds t = sat64_of e (fun x => x / kTicksPerSecond).
Proof.
  intros Hd. unfold time_to_seconds, ToUnixDuration. destruct e as [|x|]; [by rewrite Hd| |by rewrite Hd].
  destruct (fin_words _ x Hd) as (-> & _ & _ & _ & B). cbn. rewrite sat64_small; [done|]. unfold in64. zlia.
Qed.

(** Whole seconds, and coarser units by a second truncating division. *)
Lemma ceil_seconds x : min_ticks <= x <= max_ticks ->
  (if (x / kTicksPerSecond <? 0) && negb (x mod kTicksPerSecond =? 0)
   then x / kTicksPerSecond +? 1 else Some (x / kTicksPerSecond)) = Some (Z.quot x kTicksPerSecond) /\
  in64 (Z.quot x kTicksPerSecond).
Proof.
  intros B. unfold in64. destruct (Z.ltb_spec (x / kTicksPerSecond) 0), (Z.eqb_spec (x mod kTicksPerSecond) 0); cbn [andb negb];
    i64 zlia; (split; [f_equal; zlia|zlia]).
Qed.

Lemma to_seconds_is d e : dur_is d e -> to_seconds d = Some (sat64_of e (fun x => Z.quot x kTicksPerSecond)).
Proof.
  intros Hd. unfold to_seconds. rewrite (inf_flags d e Hd). destruct e as [|x|]; [by rewrite Hd| |by rewrite Hd].
  destruct (fin_words d x Hd) as (-> & -> & _ & _ & B). destruct (ceil_seconds x B) as [-> I].
  cbn [sat64_of]. by rewrite sat64_small.
Qed.
Lemma to_minutes_is d e : dur_is d e -> to_minutes d = Some (sat64_of e (fun x => Z.quot x (60 * kTicksPerSecond))).
Proof.
  intros Hd. unfold to_minutes. rewrite (inf_flags d e Hd). destruct e as [|x|]; [by rewrite Hd| |by rewrite Hd].
  destruct (fin_words d x Hd) as (-> & -> & _ & _ & B). destruct (ceil_seconds x B) as [-> I].
  cbn [sat64_of mbind option_bind]. rewrite sat64_small by (unfold in64 in *; zlia). f_equal. zlia.
Qed.
Lemma to_hours_is d e : dur_is d e -> to_hours d = Some (sat64_of e (fun x => Z.quot x (3600 * kTicksPerSecond))).
Proof.
  intros Hd. unfold to_hours. rewrite (inf_flags d e Hd). destruct e as [|x|]; [by rewrite Hd| |by rewrite Hd].
  destruct (fin_words d x Hd) as (-> & -> & _ & _ & B). destruct (ceil_seconds x B) as [-> I].
  cbn [sat64_of mbind option_bind]. rewrite sat64_small by (unfold in64 in *; zlia). f_equal. zlia.
Qed.

(** [timespec] counts nanoseconds, rounded towards zero. *)
Lemma to_timespec_fin d x : dur_is d (Fin x) -> exists ts, to_timespec d = Some ts /\
  0 <= tv_nsec ts < 1000000000 /\ in64 (tv_sec ts) /\ tv_sec ts * 1000000000 + tv_nsec ts = Z.quot x 4.
Proof.
  intros Hd. unfold to_timespec. rewrite (inf_flags d _ Hd). cbn [negb].
  destruct (fin_words d x Hd) as (-> & -> & _ & _ & B). cbv zeta. change (kTicksPerNanosecond - 1) with 3.
  pose proof (Z.mod_pos_bound x kTicksPerSecond ltac:(lia)). unfold in64.
  destruct (Z.ltb_spec (x / kTicksPerSecond) 0).
  - unfold uadd. rewrite (wrap_small 32) by lia. destruct (Z.leb_spec kTicksPerSecond (x mod kTicksPerSecond + 3)).
    + i64 zlia. rewrite (wrap_small 32) by lia. eexists; split; [done|]. cbn [tv_sec tv_nsec]. zlia.
    + cbn [mbind option_bind]. eexists; split; [done|]. cbn [tv_sec tv_nsec]. zlia.
  - cbn [mbind option_bind]. eexists; split; [done|]. cbn [tv_sec tv_nsec]. zlia.
Qed.

Lemma from_timespec_fin ts : in64 (tv_sec ts) -> 0 <= tv_nsec ts < 1000000000 ->
  exists d, from_timespec ts = Some d /\ dur_is d (Fin (tv_sec ts * kTicksPerSecond + tv_nsec ts * 4)).
Proof.
  intros Hs Hn. unfold from_timespec. rewrite wrap_small by lia. destruct (Z.ltb_spec (tv_nsec ts) (1000 * 1000 * 1000)); [|lia].
  i64 lia. eexists; split; [done|]. apply make_fin; [done|lia|lia].
Qed.

(** ** Properties *)

(** C13: addition, subtraction and negation of durations are exact on the tick counts
    and saturate to the infinity of the right sign exactly when the exact result is not
    representable; an infinite left operand absorbs; the comparison operators order
    durations by their tick counts with the two infinities at the ends, and equality of
    representations is equality of values. *)
Theorem duration_additive_correct (a b : Duration) (x y : ext) : dur_is a x -> dur_is b y ->
  dur_is (duration_add a b) (ext_add x y) /\ dur_is (duration_sub a b) (ext_sub x y) /\
  (exists r, duration_neg a = Some r /\ dur_is r (ext_opp x)) /\
  duration_ltb a b = ext_ltb x y /\ duration_gtb a b = ext_ltb y x /\
  duration_leb a b = negb (ext_ltb y x) /\ duration_geb a b = negb (ext_ltb x y) /\
  (duration_eqb a b = true <-> x = y) /\ (a = b <-> x = y).
Proof.
  intros Ha Hb. unfold duration_gtb, duration_leb, duration_geb.
  rewrite (duration_ltb_is a b x y), (duration_ltb_is b a y x) by done.
  split_and!; [by apply duration_add_is|by apply duration_sub_is|by apply duration_neg_is|done..| |].
  - by apply duration_eqb_is.
  - split; [intros ->|intros ->; by apply (dur_is_inj _ _ _ Ha Hb)].
    by apply (duration_eqb_is _ _ _ _ Ha Hb); unfold duration_eqb; rewrite !Z.eqb_refl.
Qed.

Lemma duration_additive_correct_witness :
  dur_is (duration_add (MakeDuration kint64max 3999999999) (MakeDuration 0 1)) PosInf.
Proof.
  refine (proj1 (duration_additive_correct (MakeDuration kint64max 3999999999) (MakeDuration 0 1) (Fin max_ticks) (Fin 1) _ _));
    apply make_fin; unfold in64; lia.
Defined.

(** C14: multiplying and dividing a duration by a 64-bit integer, through 128-bit tick
    counts, is the exact (for division: truncated) result, saturated; dividing by zero
    gives the infinity of the sign of the operand. *)
Theorem duration_scale_correct (d : Duration) (e : ext) (r : Z) : dur_is d e -> in64 r ->
  (exists q, duration_mul d r = Some q /\ dur_is q (ext_mul e r)) /\
  (exists q, duration_div_int d r = Some q /\ dur_is q (ext_div_int e r)).
Proof. intros H Hr. split; [by apply duration_mul_is|by apply duration_div_int_is]. Qed.

Lemma duration_scale_correct_witness :
  exists q, duration_mul (MakeDuration (-5) 1) (2 ^ 62) = Some q /\ dur_is q NegInf.
Proof.
  replace NegInf with (ext_mul (Fin (-5 * kTicksPerSecond + 1)) (2 ^ 62)) by (vm_compute; reflexivity).
  refine (proj1 (duration_scale_correct (MakeDuration (-5) 1) (Fin (-5 * kTicksPerSecond + 1)) (2 ^ 62) _ _)).
  - apply make_fin; unfold in64; lia.
  - unfold in64; lia.
Defined.

(** integer division of finite durations returns the truncated quotient, capped to
    64 bits with the difference spilling into the remainder, so that the numerator is
    always denominator * quotient + remainder; the remainder operator is the exact
    remainder even when the quotient is huge. *)
Theorem idiv_correct (num den : Duration) (x y : Z) : dur_is num (Fin x) -> dur_is den (Fin y) -> y <> 0 ->
  (exists q r, idiv num den = Some (q, r) /\ q = sat64 (Z.quot x y) /\ dur_is r (Fin (x - q * y))) /\
  (exists r, duration_mod num den = Some r /\ dur_is r (Fin (Z.rem x y))).
Proof.
  intros Hx Hy Hy0. split; [|by apply duration_mod_fin].
  destruct (idiv_fin num den x y Hx Hy Hy0) as (r & E & Hr). by exists (sat64 (Z.quot x y)), r.
Qed.

Lemma idiv_correct_witness :
  exists q r, idiv (MakeDuration kint64min 0) (MakeDuration (-1) 3999999996) = Some (q, r) /\ q = kint64max /\
    dur_is r (Fin (min_ticks - kint64max * -4)).
Proof.
  destruct (idiv_correct (MakeDuration kint64min 0) (MakeDuration (-1) 3999999996) min_ticks (-4)) as [H _].
  - apply make_fin; unfold in64; lia.
  - apply make_fin; unfold in64; lia.
  - lia.
  - destruct H as (q & r & E & Eq & Hr). exists q, r. rewrite Eq in *. split_and!; [exact E|reflexivity|exact Hr].
Defined.

(** rounding to a unit: [trunc] is the multiple of the unit towards zero, [floor]
    the largest multiple not above the duration and [ceil] the smallest not below it
    (saturated), for every finite unit but zero and the one whose magnitude is not
    representable. *)
Theorem duration_rounding_correct (d u : Duration) (x y : Z) :
  dur_is d (Fin x) -> dur_is u (Fin y) -> y <> 0 -> y <> min_ticks ->
  (exists r, trunc d u = Some r /\ dur_is r (Fin (Z.quot x y * y))) /\
  (exists r, floor d u = Some r /\ dur_is r (sat (Z.abs y * (x / Z.abs y)))) /\
  (exists r, ceil d u = Some r /\ dur_is r (sat (- (Z.abs y * (- x / Z.abs y))))).
Proof.
  intros Hx Hy Hy0 Hm. split_and!; [by apply trunc_fin|by apply floor_fin|by apply ceil_fin].
Qed.

Lemma duration_rounding_correct_witness :
  exists r, floor (MakeDuration (-1) 3999999999) (MakeDuration 1 0) = Some r /\ dur_is r (Fin (- kTicksPerSecond)).
Proof.
  destruct (duration_rounding_correct (MakeDuration (-1) 3999999999) (MakeDuration 1 0) (-1) kTicksPerSecond) as (_ & H & _);
    [apply make_fin; unfold in64; lia|apply make_fin; unfold in64; lia|lia|lia|exact H].
Defined.

(** the conversions of a duration to integer counts give the truncated count, capped
    to 64 bits, on the fast and on the general path, and those of a time since the epoch
    the floored count; infinities give the extreme values. *)
Theorem to_counts_correct (d : Duration) (e : ext) : dur_is d e ->
  to_nanoseconds d = Some (sat64_of e (fun x => Z.quot x 4)) /\
  to_microseconds d = Some (sat64_of e (fun x => Z.quot x 4000)) /\
  to_milliseconds d = Some (sat64_of e (fun x => Z.quot x 4000000)) /\
  to_seconds d = Some (sat64_of e (fun x => Z.quot x kTicksPerSecond)) /\
  to_minutes d = Some (sat64_of e (fun x => Z.quot x (60 * kTicksPerSecond))) /\
  to_hours d = Some (sat64_of e (fun x => Z.quot x (3600 * kTicksPerSecond))) /\
  time_to_nanoseconds (MkTime d) = Some (sat64_of e (fun x => x / 4)) /\
  time_to_microseconds (MkTime d) = Some (sat64_of e (fun x => x / 4000)) /\
  time_to_milliseconds (MkTime d) = Some (sat64_of e (fun x => x / 4000000)) /\
  time_to_seconds (MkTime d) = sat64_of e (fun x => x / kTicksPerSecond).
Proof.
  intros H. split_and!; [by apply to_nanoseconds_is|by apply to_microseconds_is|by apply to_milliseconds_is
    |by apply to_seconds_is|by apply to_minutes_is|by apply to_hours_is|by apply time_to_nanoseconds_is
    |by apply time_to_microseconds_is|by apply time_to_milliseconds_is|by apply time_to_seconds_is].
Qed.

Lemma to_counts_correct_witness :
  to_milliseconds (MakeDuration (-1) 1) = Some (-999) /\ time_to_milliseconds (MkTime (MakeDuration (-1) 1)) = Some (-1000).
Proof.
  destruct (to_counts_correct (MakeDuration (-1) 1) (Fin (- kTicksPerSecond + 1))) as (_ & _ & E & _ & _ & _ & _ & _ & E2 & _).
  - apply make_fin; unfold in64; lia.
  - split; [exact E|exact E2].
Defined.

(** the factories build the exact count of ticks (minutes and hours saturated), and
    a [timespec] converts to a duration and back unchanged, while a duration converts to
    the [timespec] of its whole nanoseconds, truncated. *)
Theorem duration_conversions_correct (v : Z) (ts : timespec) (d : Duration) (x : Z) :
  in64 v -> in64 (tv_sec ts) -> 0 <= tv_nsec ts < 1000000000 -> dur_is d (Fin x) ->
  (exists r, nanoseconds v = Some r /\ dur_is r (Fin (v * 4))) /\
  (exists r, microseconds v = Some r /\ dur_is r (Fin (v * 4000))) /\
  (exists r, milliseconds v = Some r /\ dur_is r (Fin (v * 4000000))) /\
  (exists r, seconds v = Some r /\ dur_is r (Fin (v * kTicksPerSecond))) /\
  (exists r, minutes v = Some r /\ dur_is r (sat (v * 60 * kTicksPerSecond))) /\
  (exists r, hours v = Some r /\ dur_is r (sat (v * 3600 * kTicksPerSecond))) /\
  (r ← from_timespec ts; to_timespec r) = Some ts /\
  (exists t, to_timespec d = Some t /\ 0 <= tv_nsec t < 1000000000 /\ tv_sec t * 1000000000 + tv_nsec t = Z.quot x 4).
Proof.
  intros Hv Hs Hn Hd. unfold nanoseconds, microseconds, milliseconds, seconds, minutes, hours.
  split_and!; [by apply FromInt64_sub_is..|by apply FromInt64_60_is|by apply FromInt64_3600_is| |].
  - destruct (from_timespec_fin ts Hs Hn) as (r & -> & Hr). cbn [mbind option_bind].
    destruct (to_timespec_fin r _ Hr) as ([s n] & -> & B & Is & E). cbn [tv_sec tv_nsec] in *. f_equal.
    destruct ts as [s' n']. cbn [tv_sec tv_nsec] in *. unfold in64 in *.
    assert (EQ : Z.quot (s' * kTicksPerSecond + n' * 4) 4 = s' * 1000000000 + n').
    { replace (s' * kTicksPerSecond + n' * 4) with ((s' * 1000000000 + n') * 4) by ring. apply Z.quot_mul. lia. }
    rewrite EQ in E. f_equal; lia.
  - destruct (to_timespec_fin d x Hd) as (t & E & B & _ & E2). by exists t.
Qed.

Lemma duration_conversions_correct_witness :
  (r ← from_timespec (Timespec (-2) 999999999); to_timespec r) = Some (Timespec (-2) 999999999).
Proof.
  apply (duration_conversions_correct 0 (Timespec (-2) 999999999) zero 0); unfold in64; cbn [tv_sec tv_nsec]; try lia.
  exact zero_is.
Defined.
