(* ===== verification/Vec.v ===== *)
(** * Arrays indexed by machine integers, and ring buffers

    Reads and writes of a block of memory at an integer index; outside the block
    they are undefined behaviour, [None]. On top of them the indexing scheme shared
    by the two queues of container/: [l] is stored from slot [start] on, wrapping
    around at [cap]. *)
From S2P Require Import Prelude.

Section Vec.
Context {A : Type}.

Definition zlen (v : list A) : Z := Z.of_nat (length v).
Definition zget (v : list A) (i : Z) : option A := if i <? 0 then None else v !! Z.to_nat i.
Definition zset (v : list A) (i : Z) (x : A) : option (list A) :=
  if (0 <=? i) && (i <? zlen v) then Some (<[Z.to_nat i := x]> v) else None.

Lemma zlen_nonneg v : 0 <= zlen v.
Proof. unfold zlen. lia. Qed.
Lemma zlen_app v w : zlen (v ++ w) = zlen v + zlen w.
Proof. unfold zlen. rewrite length_app. lia. Qed.
Lemma zlen_cons x v : zlen (x :: v) = 1 + zlen v.
Proof. unfold zlen. cbn. lia. Qed.
Lemma zlen_1 x : zlen [x] = 1.
Proof. done. Qed.

Lemma zget_Some_range v i x : zget v i = Some x -> 0 <= i < zlen v.
Proof. unfold zget, zlen. destruct (Z.ltb_spec i 0); [done|]. intros E%lookup_lt_Some. lia. Qed.

Lemma zget_is_Some v i : 0 <= i < zlen v -> is_Some (zget v i).
Proof. unfold zget, zlen. intros H. destruct (Z.ltb_spec i 0); [lia|]. apply lookup_lt_is_Some. lia. Qed.

Lemma zset_inv v i x v' : zset v i x = Some v' -> 0 <= i < zlen v /\ v' = <[Z.to_nat i := x]> v.
Proof.
  unfold zset. destruct (Z.leb_spec 0 i), (Z.ltb_spec i (zlen v)); cbn; try done. by intros [= <-].
Qed.

Lemma zset_ok v i x : 0 <= i < zlen v -> zset v i x = Some (<[Z.to_nat i := x]> v).
Proof. unfold zset. destruct (Z.leb_spec 0 i), (Z.ltb_spec i (zlen v)); cbn; done || lia. Qed.

Lemma zset_len v i x v' : zset v i x = Some v' -> zlen v' = zlen v.
Proof. intros [_ ->]%zset_inv. unfold zlen. by rewrite length_insert. Qed.

Lemma zget_zset v i j x v' : zset v i x = Some v' -> zget v' j = if j =? i then Some x else zget v j.
Proof.
  intros [Hi ->]%zset_inv. unfold zget, zlen in *. zcases; try lia; [done| |].
  - subst. by rewrite list_lookup_insert_eq by lia.
  - rewrite list_lookup_insert_ne by lia. done.
Qed.

Lemma zget_app v w i : zget (v ++ w) i = if i <? zlen v then zget v i else zget w (i - zlen v).
Proof.
  unfold zget, zlen. zcases; try lia; [done| |].
  - by rewrite lookup_app_l by lia.
  - rewrite lookup_app_r by lia. f_equal. lia.
Qed.

Lemma zget_cons x v i : zget (x :: v) i = if i =? 0 then Some x else zget v (i - 1).
Proof.
  unfold zget. zcases; try lia; try done; [by subst|]. replace (Z.to_nat i) with (S (Z.to_nat (i - 1))) by lia. done.
Qed.

Lemma zget_nil i : zget ([] : list A) i = None.
Proof. unfold zget. by destruct (i <? 0). Qed.
End Vec.

Lemma zget_fmap {A B} (f : A -> B) v i : zget (f <$> v) i = f <$> zget v i.
Proof. unfold zget. destruct (i <? 0); [done|]. apply list_lookup_fmap. Qed.

Lemma zlen_fmap {A B} (f : A -> B) v : zlen (f <$> v) = zlen v.
Proof. unfold zlen. by rewrite length_fmap. Qed.

(** ** Ring buffers *)

Section Ring.
Context {A : Type}.

(** The slot of the [i]-th element. *)
Definition slot (cap start i : Z) : Z := (start + i) mod cap.

(** The elements of [l] are stored in order from slot [start] on. *)
Definition ring_is (v : list A) (cap start : Z) (l : list A) : Prop :=
  zlen l <= cap /\ cap <= zlen v /\ forall i x, zget l i = Some x -> zget v (slot cap start i) = Some x.

Lemma slot_range cap start i : 0 < cap -> 0 <= slot cap start i < cap.
Proof. intros. by apply Z.mod_pos_bound. Qed.

Lemma slot_0 cap start : 0 <= start < cap -> slot cap start 0 = start.
Proof. intros. unfold slot. rewrite Z.add_0_r. by apply Z.mod_small. Qed.

Lemma slot_inj cap start i j : 0 < cap -> 0 <= i < cap -> 0 <= j < cap -> slot cap start i = slot cap start j -> i = j.
Proof.
  unfold slot. intros Hc Hi Hj E.
  assert (Ez : (i - j) mod cap = 0).
  { replace (i - j) with ((start + i) - (start + j)) by lia. rewrite Zminus_mod, E, Z.sub_diag. apply Z.mod_0_l. lia. }
  apply Z.mod_divide in Ez; [|lia]. destruct Ez as [k Ek]. clear E. destruct (Z.lt_trichotomy k 0) as [|[|]]; nia.
Qed.

Lemma slot_slot cap start i j : slot cap (slot cap start i) j = slot cap start (i + j).
Proof. unfold slot. rewrite Zplus_mod_idemp_l. f_equal. lia. Qed.

(** One conditional subtraction computes the slot. *)
Lemma slot_sub cap start i : 0 <= start + i < 2 * cap ->
  slot cap start i = if start + i <? cap then start + i else start + i - cap.
Proof.
  unfold slot. intros H. zcases; [apply Z.mod_small; lia|]. symmetry. apply (Z.mod_unique_pos _ _ 1); lia.
Qed.

Lemma ring_write v cap start l i x v' : 0 < cap -> ring_is v cap start l -> zlen l <= i < cap ->
  zset v (slot cap start i) x = Some v' -> ring_is v' cap start l.
Proof.
  intros Hc (H1 & H2 & H3) Hi E. pose proof (zset_len _ _ _ _ E). split_and!; [done|lia|].
  intros j y Hj. rewrite (zget_zset _ _ _ _ _ E). destruct (Z.eqb_spec (slot cap start j) (slot cap start i)) as [Es|_]; [|by apply H3].
  apply zget_Some_range in Hj. apply slot_inj in Es; lia.
Qed.

Lemma ring_push_back v cap start l x v' : 0 < cap -> ring_is v cap start l -> zlen l < cap ->
  zset v (slot cap start (zlen l)) x = Some v' -> ring_is v' cap start (l ++ [x]).
Proof.
  intros Hc HR Hl E. pose proof (zlen_nonneg l). destruct (ring_write _ _ _ _ (zlen l) _ _ Hc HR ltac:(lia) E) as (H1 & H2 & H3).
  split_and!; [rewrite zlen_app, zlen_1; lia|done|]. intros i y. rewrite zget_app. destruct (Z.ltb_spec i (zlen l)); [apply H3|].
  intros Hy. pose proof (zget_Some_range _ _ _ Hy) as Hr. rewrite zlen_1 in Hr. replace (i - zlen l) with 0 in Hy by lia. injection Hy as <-.
  replace i with (zlen l) by lia. by rewrite (zget_zset _ _ _ _ _ E), Z.eqb_refl.
Qed.

Lemma ring_pop_front v cap start x l : ring_is v cap start (x :: l) -> ring_is v cap (slot cap start 1) l.
Proof.
  intros (H1 & H2 & H3). rewrite zlen_cons in H1. split_and!; [lia|done|]. intros i y Hy. rewrite slot_slot.
  apply H3. rewrite zget_cons. pose proof (zget_Some_range _ _ _ Hy). destruct (Z.eqb_spec (1 + i) 0); [lia|].
  by replace (1 + i - 1) with i by lia.
Qed.

Lemma ring_front v cap start x l : ring_is v cap start (x :: l) -> zget v (slot cap start 0) = Some x.
Proof. intros (_ & _ & H3). by apply H3. Qed.

Lemma ring_pop_back v cap start l x : ring_is v cap start (l ++ [x]) -> ring_is v cap start l.
Proof.
  intros (H1 & H2 & H3). rewrite zlen_app, zlen_1 in H1. split_and!; [lia|done|]. intros i y Hy. apply H3.
  rewrite zget_app. pose proof (zget_Some_range _ _ _ Hy). by destruct (Z.ltb_spec i (zlen l)); [|lia].
Qed.

Lemma ring_back v cap start l x : ring_is v cap start (l ++ [x]) -> zget v (slot cap start (zlen l)) = Some x.
Proof. intros (_ & _ & H3). apply H3. rewrite zget_app, Z.ltb_irrefl, Z.sub_diag. done. Qed.

Lemma ring_push_front v cap start l x v' : 0 < cap -> ring_is v cap start l -> zlen l < cap ->
  zset v (slot cap start (-1)) x = Some v' -> ring_is v' cap (slot cap start (-1)) (x :: l).
Proof.
  intros Hc HR Hl E. pose proof (zlen_nonneg l).
  assert (Es : slot cap start (-1) = slot cap start (cap - 1)).
  { unfold slot. replace (start + (cap - 1)) with (start + -1 + 1 * cap) by lia. by rewrite Z_mod_plus_full. }
  pose proof E as E'. rewrite Es in E'. destruct (ring_write _ _ _ _ (cap - 1) _ _ Hc HR ltac:(lia) E') as (H1 & H2 & H3).
  split_and!; [rewrite zlen_cons; lia|done|]. intros i y. rewrite zget_cons, slot_slot. destruct (Z.eqb_spec i 0) as [->|].
  - intros [= <-]. by rewrite (zget_zset _ _ _ _ _ E), Z.eqb_refl.
  - intros Hy. replace (-1 + i) with (i - 1) by lia. by apply H3.
Qed.

Lemma ring_get v cap start l i : ring_is v cap start l -> 0 <= i < zlen l -> zget v (slot cap start i) = zget l i.
Proof. intros (_ & _ & H3) Hi. destruct (zget_is_Some l i Hi) as [x Hx]. rewrite Hx. by apply H3. Qed.

Lemma ring_nil v cap start : 0 <= cap <= zlen v -> ring_is v cap start [].
Proof. intros [? ?]. split_and!; [done|done|]. intros i x. by rewrite zget_nil. Qed.

(** The stored list is determined by the memory. *)
Lemma ring_is_inj v cap start l l' : ring_is v cap start l -> ring_is v cap start l' -> zlen l = zlen l' -> l = l'.
Proof.
  intros H H' E. apply list_eq. intros i. pose proof (ring_get v cap start l (Z.of_nat i) H).
  pose proof (ring_get v cap start l' (Z.of_nat i) H') as G'. unfold zget in *. destruct (Z.ltb_spec (Z.of_nat i) 0); [lia|].
  rewrite Nat2Z.id in *. unfold zlen in *. destruct (Nat.lt_ge_cases i (length l)).
  - rewrite <- H0, <- G' by lia. done.
  - rewrite !lookup_ge_None_2 by lia. done.
Qed.
End Ring.
