(* ===== verification/Cache.v ===== *)
(** * Fixed-size caches and their replacement policies (container/cache)

    The policies keep a [std::list] or a [std::multimap] together with a hash map of
    iterators into it; the model keeps the nodes of the list with their identities, so
    that an iterator is a node identity and using one that is not in the list is
    undefined behaviour ([None]).  [fixed_sized_cache] is written against the interface
    [CachePolicy] (the virtual functions of [CachePolicyBase]) and proved against the
    contract [CachePolicySpec], which each policy discharges. *)
From Stdlib Require Import Sorted.
From S2P Require Import Prelude Words.
From stdpp Require Import list gmap fin_maps fin_sets.

#[local] Open Scope Z_scope.

(** ** The policy interface: [CachePolicyBase] *)

Class CachePolicy (K P : Type) := {
  pol_empty : P;
  pol_insert : K -> P -> option P;
  pol_touch : K -> P -> option P;
  pol_erase : K -> P -> option P;
  pol_candidate : P -> option K;
}.

(** What a policy promises to the cache: it tracks a set of keys. *)
Class CachePolicySpec (K P : Type) `{Countable K} `{CachePolicy K P} := {
  pol_ok : P -> Prop;
  pol_keys : P -> gset K;
  pol_empty_ok : pol_ok pol_empty /\ pol_keys pol_empty = ∅;
  pol_insert_ok : forall k p, pol_ok p -> k ∉ pol_keys p ->
    exists p', pol_insert k p = Some p' /\ pol_ok p' /\ pol_keys p' = {[k]} ∪ pol_keys p;
  pol_touch_ok : forall k p, pol_ok p -> k ∈ pol_keys p ->
    exists p', pol_touch k p = Some p' /\ pol_ok p' /\ pol_keys p' = pol_keys p;
  pol_erase_ok : forall k p, pol_ok p -> k ∈ pol_keys p ->
    exists p', pol_erase k p = Some p' /\ pol_ok p' /\ pol_keys p' = pol_keys p ∖ {[k]};
  pol_candidate_ok : forall p, pol_ok p -> pol_keys p <> ∅ ->
    exists k, pol_candidate p = Some k /\ k ∈ pol_keys p;
}.

(** ** The cache *)

Section FixedSizedCache.
Context {K V CB P : Type} `{Countable K} `{!CachePolicy K P}.

(** [CB] identifies a callable; an empty [std::function] is [None].  [calls] lists the
    callbacks made, the latest first. *)
Record fixed_sized_cache := FixedSizedCache {
  cache_items_map : gmap K V;
  cache_policy : P;
  max_cache_size : Z;
  on_erase_callback : option CB;
  calls : list (CB * K * V);
}.

Definition set_items (c : fixed_sized_cache) (m : gmap K V) : fixed_sized_cache :=
  FixedSizedCache m (cache_policy c) (max_cache_size c) (on_erase_callback c) (calls c).
Definition set_policy (c : fixed_sized_cache) (p : P) : fixed_sized_cache :=
  FixedSizedCache (cache_items_map c) p (max_cache_size c) (on_erase_callback c) (calls c).
Definition add_call (c : fixed_sized_cache) (x : CB * K * V) : fixed_sized_cache :=
  FixedSizedCache (cache_items_map c) (cache_policy c) (max_cache_size c) (on_erase_callback c) (x :: calls c).

Definition cache_size (c : fixed_sized_cache) : Z := Z.of_nat (size (cache_items_map c)).

(** The constructor throws [std::invalid_argument] ([None]) on a zero size. *)
Definition make_cache (max_size : Z) (policy : P) (on_erase : option CB) : option fixed_sized_cache :=
  if max_size =? 0 then None else Some (FixedSizedCache ∅ policy max_size on_erase []).

Definition find_elem (c : fixed_sized_cache) (key : K) : option V := cache_items_map c !! key.

Definition insert (c : fixed_sized_cache) (key : K) (value : V) : option fixed_sized_cache :=
  p ← pol_insert key (cache_policy c);
  Some (set_items (set_policy c p)
    (match cache_items_map c !! key with Some _ => cache_items_map c | None => <[key := value]> (cache_items_map c) end)).

(** Erasing at an iterator: the element [(key, value)] it points to. *)
Definition erase_itr (c : fixed_sized_cache) (key : K) (value : V) (cb : option CB) : option fixed_sized_cache :=
  let prune_cb := match cb with Some f => Some f | None => on_erase_callback c end in
  p ← pol_erase key (cache_policy c);
  f ← prune_cb;
  let c := add_call (set_policy c p) (f, key, value) in
  Some (set_items c (delete key (cache_items_map c))).

(** Dereferencing the end iterator is undefined. *)
Definition erase (c : fixed_sized_cache) (key : K) (cb : option CB) : option fixed_sized_cache :=
  v ← find_elem c key; erase_itr c key v cb.

Definition update (c : fixed_sized_cache) (key : K) (value : V) : option fixed_sized_cache :=
  p ← pol_touch key (cache_policy c);
  Some (set_items (set_policy c p) (<[key := value]> (cache_items_map c))).

Definition get_internal (c : fixed_sized_cache) (key : K) : option (option V * fixed_sized_cache) :=
  match find_elem c key with
  | Some v => p ← pol_touch key (cache_policy c); Some (Some v, set_policy c p)
  | None => Some (None, c)
  end.

Definition put (c : fixed_sized_cache) (key : K) (value : V) (cb : option CB) : option fixed_sized_cache :=
  match find_elem c key with
  | None =>
      c ← (if max_cache_size c <? cache_size c + 1 then
             disp_candidate_key ← pol_candidate (cache_policy c);
             erase c disp_candidate_key cb
           else Some c);
      insert c key value
  | Some _ => update c key value
  end.

(** [try_get]: the value and whether it was found. *)
Definition try_get (c : fixed_sized_cache) (key : K) : option (option V * bool * fixed_sized_cache) :=
  '(r, c) ← get_internal c key; Some (r, bool_decide (is_Some r), c).

(** [get_or_die]: [inr] is the thrown [std::range_error]. *)
Definition get_or_die (c : fixed_sized_cache) (key : K) : option ((V + unit) * fixed_sized_cache) :=
  '(r, c) ← get_internal c key;
  Some (match r with Some v => inl v | None => inr tt end, c).

Definition contains (c : fixed_sized_cache) (key : K) : bool := bool_decide (is_Some (find_elem c key)).

Definition remove (c : fixed_sized_cache) (key : K) (cb : option CB) : option (bool * fixed_sized_cache) :=
  match find_elem c key with
  | None => Some (false, c)
  | Some v => c ← erase_itr c key v cb; Some (true, c)
  end.

Definition set_prune_callback (c : fixed_sized_cache) (cb : option CB) : fixed_sized_cache :=
  FixedSizedCache (cache_items_map c) (cache_policy c) (max_cache_size c) cb (calls c).

(** The loop of [prune], with the count of pruned elements. *)
Fixpoint prune_loop (fuel : nat) (size_to_reserve : Z) (cb : option CB) (pruned : Z) (c : fixed_sized_cache)
  : option (Z * fixed_sized_cache) :=
  if size_to_reserve <? cache_size c then
    match fuel with
    | O => None
    | S fuel =>
        disp_candidate_key ← pol_candidate (cache_policy c);
        c ← erase c disp_candidate_key cb;
        prune_loop fuel size_to_reserve cb (pruned + 1) c
    end
  else Some (pruned, c).

Definition prune (c : fixed_sized_cache) (size_to_reserve : Z) (cb : option CB) : option (Z * fixed_sized_cache) :=
  prune_loop (size (cache_items_map c)) size_to_reserve cb 0 c.

(** [clear], which the destructor runs; [order] is the order in which the hash map is
    traversed. *)
Fixpoint clear_policy (order : list K) (p : P) : option P :=
  match order with [] => Some p | k :: order => p ← pol_erase k p; clear_policy order p end.

Definition clear (order : list K) (c : fixed_sized_cache) : option fixed_sized_cache :=
  p ← clear_policy order (cache_policy c);
  Some (set_items (set_policy c p) ∅).
End FixedSizedCache.
Arguments fixed_sized_cache K V CB P {_ _}.

(** ** FIFO and LRU: a list of nodes and a map of iterators into it *)

(** [std::list<Key>] with the identities of its nodes, and the hash map of iterators. *)
Record list_policy (K : Type) `{Countable K} := ListPolicy {
  queue : list (nat * K);
  lookup_itr : gmap K nat;
  next_node : nat;
}.
Arguments ListPolicy {K _ _} _ _ _.
Arguments queue {K _ _} _.
Arguments lookup_itr {K _ _} _.
Arguments next_node {K _ _} _.

(** [erase(it)] on a node-based container: remove the node an iterator points to; [None]
    when it is not a node of the container. *)
Fixpoint erase_node {A : Type} (n : nat) (q : list (nat * A)) : option (list (nat * A)) :=
  match q with
  | [] => None
  | x :: q => if decide (x.1 = n) then Some q else q' ← erase_node n q; Some (x :: q')
  end.

Section ListPolicies.
Context {K : Type} `{Countable K}.

Definition list_empty : list_policy K := ListPolicy [] ∅ 0.

(** [emplace_front] and recording the iterator: the same code in both policies. *)
Definition fifo_insert (key : K) (p : list_policy K) : option (list_policy K) :=
  Some (ListPolicy ((next_node p, key) :: queue p) (<[key := next_node p]> (lookup_itr p)) (S (next_node p))).

Definition fifo_touch (key : K) (p : list_policy K) : option (list_policy K) := Some p.

Definition fifo_erase (key : K) (p : list_policy K) : option (list_policy K) :=
  element ← lookup_itr p !! key;
  q ← erase_node element (queue p);
  Some (ListPolicy q (delete key (lookup_itr p)) (next_node p)).

Definition fifo_repl_candidate (p : list_policy K) : option K := snd <$> (last (queue p)).

(** [splice(begin(), queue, it)]: move the node to the front. *)
Definition lru_insert (key : K) (p : list_policy K) : option (list_policy K) :=
  Some (ListPolicy ((next_node p, key) :: queue p) (<[key := next_node p]> (lookup_itr p)) (S (next_node p))).

Definition lru_touch (key : K) (p : list_policy K) : option (list_policy K) :=
  element ← lookup_itr p !! key;
  node ← list_find (fun x => x.1 = element) (queue p);
  q ← erase_node element (queue p);
  Some (ListPolicy (snd node :: q) (lookup_itr p) (next_node p)).

Definition lru_erase (key : K) (p : list_policy K) : option (list_policy K) :=
  element ← lookup_itr p !! key;
  q ← erase_node element (queue p);
  Some (ListPolicy q (delete key (lookup_itr p)) (next_node p)).

Definition lru_repl_candidate (p : list_policy K) : option K := snd <$> (last (queue p)).
End ListPolicies.
#[global] Arguments fifo_insert : simpl never.
#[global] Arguments fifo_erase : simpl never.
#[global] Arguments lru_insert : simpl never.
#[global] Arguments lru_touch : simpl never.
#[global] Arguments lru_erase : simpl never.
#[global] Arguments fifo_repl_candidate : simpl never.
#[global] Arguments lru_repl_candidate : simpl never.

(** The two policies are distinct types with the same fields. *)
Record FIFOCachePolicy (K : Type) `{Countable K} := FIFO { fifo_queue : list_policy K }.
Record LRUCachePolicy (K : Type) `{Countable K} := LRU { lru_queue : list_policy K }.
Arguments FIFO {K _ _} _.
Arguments fifo_queue {K _ _} _.
Arguments LRU {K _ _} _.
Arguments lru_queue {K _ _} _.

#[export] Instance FIFO_policy {K} `{Countable K} : CachePolicy K (FIFOCachePolicy K) := {
  pol_empty := FIFO list_empty;
  pol_insert k p := FIFO <$> fifo_insert k (fifo_queue p);
  pol_touch k p := FIFO <$> fifo_touch k (fifo_queue p);
  pol_erase k p := FIFO <$> fifo_erase k (fifo_queue p);
  pol_candidate p := fifo_repl_candidate (fifo_queue p);
}.

#[export] Instance LRU_policy {K} `{Countable K} : CachePolicy K (LRUCachePolicy K) := {
  pol_empty := LRU list_empty;
  pol_insert k p := LRU <$> lru_insert k (lru_queue p);
  pol_touch k p := LRU <$> lru_touch k (lru_queue p);
  pol_erase k p := LRU <$> lru_erase k (lru_queue p);
  pol_candidate p := lru_repl_candidate (lru_queue p);
}.

(** ** LFU: a multimap from frequencies and a map of iterators into it *)

Record LFUCachePolicy (K : Type) `{Countable K} := LFU {
  frequency_storage : list (nat * (Z * K));
  lfu_storage : gmap K nat;
  lfu_next : nat;
}.
Arguments LFU {K _ _} _ _ _.
Arguments frequency_storage {K _ _} _.
Arguments lfu_storage {K _ _} _.
Arguments lfu_next {K _ _} _.

Section LFUPolicy.
Context {K : Type} `{Countable K}.

(** [emplace_hint(cbegin(), f, key)] puts the pair before the equal frequencies,
    [emplace_hint(cend(), f, key)] after them. *)
Fixpoint emplace_lower (x : nat * (Z * K)) (q : list (nat * (Z * K))) : list (nat * (Z * K)) :=
  match q with
  | [] => [x]
  | z :: q' => if z.2.1 <? x.2.1 then z :: emplace_lower x q' else x :: q
  end.
Fixpoint emplace_upper (x : nat * (Z * K)) (q : list (nat * (Z * K))) : list (nat * (Z * K)) :=
  match q with
  | [] => [x]
  | z :: q' => if x.2.1 <? z.2.1 then x :: q else z :: emplace_upper x q'
  end.

Definition lfu_insert (key : K) (p : LFUCachePolicy K) : option (LFUCachePolicy K) :=
  let INIT_VAL := 1 in
  Some (LFU (emplace_lower (lfu_next p, (INIT_VAL, key)) (frequency_storage p))
          (<[key := lfu_next p]> (lfu_storage p)) (S (lfu_next p))).

Definition lfu_touch (key : K) (p : LFUCachePolicy K) : option (LFUCachePolicy K) :=
  itr ← lfu_storage p !! key;
  elem_for_update ← list_find (fun x => x.1 = itr) (frequency_storage p);
  let updated_elem := (uadd 64 (snd elem_for_update).2.1 1, (snd elem_for_update).2.2) in
  q ← erase_node itr (frequency_storage p);
  Some (LFU (emplace_upper (lfu_next p, updated_elem) q) (<[key := lfu_next p]> (lfu_storage p)) (S (lfu_next p))).

Definition lfu_erase (key : K) (p : LFUCachePolicy K) : option (LFUCachePolicy K) :=
  itr ← lfu_storage p !! key;
  q ← erase_node itr (frequency_storage p);
  Some (LFU q (delete key (lfu_storage p)) (lfu_next p)).

Definition lfu_repl_candidate (p : LFUCachePolicy K) : option K := (fun x => x.2.2) <$> head (frequency_storage p).
End LFUPolicy.

#[export] Instance LFU_policy {K} `{Countable K} : CachePolicy K (LFUCachePolicy K) := {
  pol_empty := LFU [] ∅ 0;
  pol_insert := lfu_insert;
  pol_touch := lfu_touch;
  pol_erase := lfu_erase;
  pol_candidate := lfu_repl_candidate;
}.

(** ** No policy: a hash set, whose first element is unspecified *)

Record NoCachePolicy (K : Type) `{Countable K} := NoPolicy { key_storage : gset K }.
Arguments NoPolicy {K _ _} _.
Arguments key_storage {K _ _} _.

Section NoPolicyOps.
Context {K : Type} `{Countable K} (cbegin : gset K -> option K).

Definition no_insert (key : K) (p : NoCachePolicy K) : option (NoCachePolicy K) :=
  Some (NoPolicy ({[key]} ∪ key_storage p)).
Definition no_touch (key : K) (p : NoCachePolicy K) : option (NoCachePolicy K) := Some p.
Definition no_erase (key : K) (p : NoCachePolicy K) : option (NoCachePolicy K) :=
  Some (NoPolicy (key_storage p ∖ {[key]})).
Definition no_repl_candidate (p : NoCachePolicy K) : option K := cbegin (key_storage p).

(** Not a global instance: it depends on the traversal order of the hash set. *)
Definition No_policy : CachePolicy K (NoCachePolicy K) := {|
  pol_empty := NoPolicy ∅;
  pol_insert := no_insert;
  pol_touch := no_touch;
  pol_erase := no_erase;
  pol_candidate := no_repl_candidate;
|}.
End NoPolicyOps.

(** ** Containers of nodes and the map of iterators into them *)

Section Nodes.
Context {K A : Type} `{Countable K} (key : A -> K).

(** Node identities are distinct and below the counter, and the map points exactly to
    the nodes. *)
Record nodes_ok (q : list (nat * A)) (itr : gmap K nat) (next : nat) : Prop := {
  nodes_ids : NoDup (fst <$> q);
  nodes_itr : forall k n, itr !! k = Some n <-> exists a, (n, a) ∈ q /\ key a = k;
  nodes_next : forall x, x ∈ q -> (x.1 < next)%nat;
}.

Lemma nodes_ok_perm q q' itr next : q ≡ₚ q' -> nodes_ok q itr next -> nodes_ok q' itr next.
Proof.
  intros E [H1 H2 H3]. split.
  - by rewrite <- E.
  - intros k n. rewrite H2. by setoid_rewrite E.
  - intros x Hx. apply H3. by rewrite E.
Qed.

(** The node an iterator of the map points to. *)
Lemma nodes_split q itr next k n : nodes_ok q itr next -> itr !! k = Some n ->
  exists q1 a q2, q = q1 ++ (n, a) :: q2 /\ key a = k /\ (n ∉ fst <$> q1).
Proof.
  intros [H1 H2 H3] Hk. apply H2 in Hk as (a & Ha & Ek). apply list_elem_of_split in Ha as (q1 & q2 & ->).
  exists q1, a, q2. split_and!; [done|done|]. rewrite fmap_app in H1. apply NoDup_app in H1 as (_ & H1 & _).
  intros Hin. apply (H1 n Hin). cbn. left.
Qed.

Lemma erase_node_split n a (q1 q2 : list (nat * A)) : n ∉ fst <$> q1 -> erase_node n (q1 ++ (n, a) :: q2) = Some (q1 ++ q2).
Proof.
  induction q1 as [|x q1 IH]; cbn; intros Hn; [by rewrite decide_True|].
  apply not_elem_of_cons in Hn as [Hx Hn]. rewrite decide_False by congruence. by rewrite IH.
Qed.

Lemma find_node_split n a (q1 q2 : list (nat * A)) : n ∉ fst <$> q1 ->
  list_find (fun x => x.1 = n) (q1 ++ (n, a) :: q2) = Some (length q1, (n, a)).
Proof.
  intros Hn. apply list_find_Some. split_and!; [by rewrite list_lookup_middle|done|].
  intros j y Hj Hlt E. apply Hn. apply list_elem_of_fmap. exists y. split; [done|].
  rewrite lookup_app_l in Hj by lia. by apply list_elem_of_lookup_2 in Hj.
Qed.

Lemma nodes_erase q1 n a q2 itr next : nodes_ok (q1 ++ (n, a) :: q2) itr next ->
  nodes_ok (q1 ++ q2) (delete (key a) itr) next.
Proof.
  intros Hok. apply (nodes_ok_perm _ ((n, a) :: q1 ++ q2)) in Hok; [|by rewrite Permutation_middle].
  destruct Hok as [H1 H2 H3]. cbn in H1. apply NoDup_cons in H1 as [Hn H1]. split; [done| |].
  - intros k m. destruct (decide (k = key a)) as [->|Hne].
    + rewrite lookup_delete_eq. split; [done|]. intros (b & Hb & Eb).
      assert (itr !! key a = Some m) as E1 by (apply H2; exists b; split; [by right|done]).
      assert (itr !! key a = Some n) as E2 by (apply H2; exists a; split; [by left|done]).
      rewrite E1 in E2. injection E2 as ->. exfalso. apply Hn, list_elem_of_fmap. by exists (n, b).
    + rewrite lookup_delete_ne by done. rewrite H2. split; intros (b & Hb & Eb); exists b; (split; [|done]).
      * apply elem_of_cons in Hb as [[= -> ->]|]; [congruence|done].
      * by right.
  - intros x Hx. apply H3. by right.
Qed.

Lemma nodes_insert q1 a q2 itr next : nodes_ok (q1 ++ q2) itr next -> itr !! key a = None ->
  nodes_ok (q1 ++ (next, a) :: q2) (<[key a := next]> itr) (S next).
Proof.
  intros [H1 H2 H3] Hk. apply (nodes_ok_perm ((next, a) :: q1 ++ q2)); [by rewrite Permutation_middle|]. split.
  - cbn. apply NoDup_cons. split; [|done]. intros Hin. apply list_elem_of_fmap in Hin as (x & E & Hx).
    specialize (H3 x Hx). lia.
  - intros k m. destruct (decide (k = key a)) as [->|Hne].
    + rewrite lookup_insert_eq. split.
      * intros [= <-]. exists a. split; [by left|done].
      * intros (b & Hb & Eb). apply elem_of_cons in Hb as [[= -> ->]|Hb]; [done|].
        assert (itr !! key a = Some m) as E1 by (apply H2; by exists b). congruence.
    + rewrite lookup_insert_ne by done. rewrite H2. split; intros (b & Hb & Eb); exists b; (split; [|done]).
      * by right.
      * apply elem_of_cons in Hb as [[= -> ->]|]; [congruence|done].
  - intros x Hx. apply elem_of_cons in Hx as [->|Hx]; cbn; [lia|]. specialize (H3 x Hx). lia.
Qed.

(** Distinct nodes hold distinct keys. *)
Lemma nodes_keys q itr next : nodes_ok q itr next -> NoDup ((fun x => key x.2) <$> q).
Proof.
  intros Hok. induction q as [|[n a] q IH] in itr, Hok |- *; [constructor|].
  cbn. apply NoDup_cons. split.
  - intros Hin. apply list_elem_of_fmap in Hin as ([m b] & E & Hx). cbn in E. destruct Hok as [H1 H2 H3].
    assert (itr !! key a = Some n) as E1 by (apply H2; exists a; split; [by left|done]).
    assert (itr !! key a = Some m) as E2 by (apply H2; exists b; split; [by right|done]).
    rewrite E1 in E2. injection E2 as ->. cbn in H1. apply NoDup_cons in H1 as [Hn _].
    apply Hn, list_elem_of_fmap. by exists (m, b).
  - apply (IH (delete (key a) itr)). by apply (nodes_erase [] n a q).
Qed.

Lemma nodes_dom q itr next k : nodes_ok q itr next -> k ∈ dom itr <-> k ∈ (fun x => key x.2) <$> q.
Proof.
  intros [H1 H2 H3]. rewrite elem_of_dom, list_elem_of_fmap. split.
  - intros [n Hn]. apply H2 in Hn as (a & Ha & E). by exists (n, a).
  - intros ([n a] & E & Ha). exists n. apply H2. by exists a.
Qed.
End Nodes.

(** ** FIFO and LRU keep a list of keys, the newest first *)

(** A key's occurrence removed from a list of keys. *)
Definition without {K} `{EqDecision K} (k : K) (l : list K) : list K := filter (fun x => x <> k) l.

Lemma without_split {K} `{EqDecision K} (k : K) l1 l2 : NoDup (l1 ++ k :: l2) -> without k (l1 ++ k :: l2) = l1 ++ l2.
Proof.
  intros Hnd. apply NoDup_app in Hnd as (_ & H1 & H2). apply NoDup_cons in H2 as [H2 _].
  assert (F : forall l, k ∉ l -> without k l = l).
  { intros l Hl. unfold without. induction l as [|x l IH]; [done|]. apply not_elem_of_cons in Hl as [? ?].
    rewrite filter_cons_True by done. by rewrite IH. }
  unfold without. rewrite filter_app, filter_cons_False by (intros Hk; by apply Hk).
  fold (without k l1) (without k l2). rewrite !F; [done|done|]. intros Hk. apply (H1 k Hk). by left.
Qed.

Lemma elem_of_without {K} `{EqDecision K} (x k : K) l : x ∈ without k l <-> x ∈ l /\ x <> k.
Proof. unfold without. rewrite list_elem_of_filter. tauto. Qed.

Lemma without_set {K} `{Countable K} (k : K) l : list_to_set (C := gset K) (without k l) = list_to_set l ∖ {[k]}.
Proof. apply set_eq. intros x. rewrite elem_of_difference, !elem_of_list_to_set, elem_of_without. set_solver. Qed.

Lemma front_set {K} `{Countable K} (k : K) l : k ∈ l -> list_to_set (C := gset K) (k :: without k l) = list_to_set l.
Proof.
  intros Hk. cbn [list_to_set]. rewrite without_set. apply set_eq. intros x.
  rewrite elem_of_union, elem_of_difference, elem_of_singleton, elem_of_list_to_set.
  destruct (decide (x = k)) as [->|]; tauto.
Qed.

Section ListPolicyProofs.
Context {K : Type} `{Countable K}.
Implicit Types p : list_policy K.

Definition list_ok p : Prop := nodes_ok id (queue p) (lookup_itr p) (next_node p).
Definition list_keys p : list K := snd <$> queue p.

Lemma list_keys_nodup p : list_ok p -> NoDup (list_keys p).
Proof. intros Hp. exact (nodes_keys id _ _ _ Hp). Qed.

Lemma list_keys_dom p k : list_ok p -> k ∈ dom (lookup_itr p) <-> k ∈ list_keys p.
Proof. intros Hp. exact (nodes_dom id _ _ _ k Hp). Qed.

Lemma list_empty_ok : list_ok list_empty.
Proof.
  split; cbn; [constructor| |intros ? Hx; inversion Hx].
  intros k n. rewrite lookup_empty. split; [done|]. intros (a & Ha & _). inversion Ha.
Qed.

Lemma list_insert_ok k p : list_ok p -> k ∉ list_keys p ->
  exists p', fifo_insert k p = Some p' /\ lru_insert k p = Some p' /\ list_ok p' /\ list_keys p' = k :: list_keys p.
Proof.
  intros Hp Hk. eexists. split_and!; [reflexivity..| |done].
  apply (nodes_insert id [] k (queue p)); [exact Hp|].
  rewrite <- (list_keys_dom p k Hp) in Hk. by apply not_elem_of_dom in Hk.
Qed.

Lemma list_split k p : list_ok p -> k ∈ list_keys p ->
  exists q1 n q2, lookup_itr p !! k = Some n /\ queue p = q1 ++ (n, k) :: q2 /\ (n ∉ fst <$> q1) /\
    without k (list_keys p) = (snd <$> (q1 ++ q2)).
Proof.
  intros Hp Hk. rewrite <- (list_keys_dom p k Hp) in Hk. apply elem_of_dom in Hk as [n Hn].
  destruct (nodes_split _ _ _ _ _ _ Hp Hn) as (q1 & a & q2 & E & Ea & Hq). cbn in Ea. subst a.
  exists q1, n, q2. split_and!; [done..|]. pose proof (list_keys_nodup p Hp) as Hnd.
  unfold list_keys in *. rewrite E, fmap_app in *. cbn [fmap list_fmap snd] in *.
  rewrite without_split by done. by rewrite fmap_app.
Qed.

Lemma list_erase_ok k p : list_ok p -> k ∈ list_keys p ->
  exists p', fifo_erase k p = Some p' /\ lru_erase k p = Some p' /\ list_ok p' /\ list_keys p' = without k (list_keys p).
Proof.
  intros Hp Hk. destruct (list_split k p Hp Hk) as (q1 & n & q2 & E1 & E2 & Hq & E3).
  unfold fifo_erase, lru_erase. rewrite E1, E2. cbn [mbind option_bind]. rewrite erase_node_split by done.
  eexists. split_and!; [reflexivity..| |done].
  unfold list_ok in *. rewrite E2 in Hp. by apply (nodes_erase id q1 n k q2).
Qed.

Lemma lru_touch_ok k p : list_ok p -> k ∈ list_keys p ->
  exists p', lru_touch k p = Some p' /\ list_ok p' /\ list_keys p' = k :: without k (list_keys p).
Proof.
  intros Hp Hk. destruct (list_split k p Hp Hk) as (q1 & n & q2 & E1 & E2 & Hq & E3).
  unfold lru_touch. rewrite E1, E2. cbn [mbind option_bind]. rewrite find_node_split, erase_node_split by done.
  eexists. split_and!; [reflexivity| |].
  - unfold list_ok in *. rewrite E2 in Hp. eapply nodes_ok_perm; [|exact Hp]. cbn. by rewrite Permutation_middle.
  - rewrite E3. done.
Qed.

(** The candidate of both policies is the last key of the list. *)
Lemma list_candidate_ok p : list_keys p <> [] ->
  exists k, fifo_repl_candidate p = Some k /\ lru_repl_candidate p = Some k /\ last (list_keys p) = Some k /\ k ∈ list_keys p.
Proof.
  unfold list_keys, fifo_repl_candidate, lru_repl_candidate. intros Hne.
  destruct (queue p) as [|x q _] using rev_ind; [done|].
  exists x.2. rewrite fmap_app. cbn [fmap list_fmap]. rewrite !last_snoc. split_and!; [done..|].
  apply elem_of_app. right. by left.
Qed.
End ListPolicyProofs.

(** Both discharge the contract; the tracked keys are those of the iterator map. *)
Lemma dom_delete_keys {K} `{Countable K} (k : K) (m : gmap K nat) : dom (delete k m) = dom m ∖ {[k]}.
Proof. apply dom_delete_L. Qed.

Lemma list_dom_of {K} `{Countable K} (p : list_policy K) (l : list K) : list_ok p -> list_keys p = l ->
  dom (lookup_itr p) = list_to_set l.
Proof. intros Hp <-. apply set_eq. intros k. rewrite (list_keys_dom p k Hp). by rewrite elem_of_list_to_set. Qed.

#[export, refine] Instance FIFO_spec {K} `{Countable K} : CachePolicySpec K (FIFOCachePolicy K) := {
  pol_ok p := list_ok (fifo_queue p);
  pol_keys p := list_to_set (list_keys (fifo_queue p));
}.
Proof.
  - split; [apply list_empty_ok|done].
  - intros k [p] Hp Hk. cbn in *. rewrite elem_of_list_to_set in Hk.
    destruct (list_insert_ok k p Hp Hk) as (p' & E & _ & Hp' & Ek). exists (FIFO p'). rewrite E. cbn. by rewrite Ek.
  - intros k [p] Hp Hk. by exists (FIFO p).
  - intros k [p] Hp Hk. cbn in *. rewrite elem_of_list_to_set in Hk.
    destruct (list_erase_ok k p Hp Hk) as (p' & E & _ & Hp' & Ek). exists (FIFO p'). rewrite E. cbn. split_and!; [done..|].
    by rewrite Ek, without_set.
  - intros [p] Hp Hne. cbn in *. destruct (list_candidate_ok p) as (k & E & _ & _ & Hk).
    + intros E. rewrite E in Hne. done.
    + exists k. by rewrite elem_of_list_to_set.
Defined.

#[export, refine] Instance LRU_spec {K} `{Countable K} : CachePolicySpec K (LRUCachePolicy K) := {
  pol_ok p := list_ok (lru_queue p);
  pol_keys p := list_to_set (list_keys (lru_queue p));
}.
Proof.
  - split; [apply list_empty_ok|done].
  - intros k [p] Hp Hk. cbn in *. rewrite elem_of_list_to_set in Hk.
    destruct (list_insert_ok k p Hp Hk) as (p' & _ & E & Hp' & Ek). exists (LRU p'). rewrite E. cbn. by rewrite Ek.
  - intros k [p] Hp Hk. cbn in *. rewrite elem_of_list_to_set in Hk.
    destruct (lru_touch_ok k p Hp Hk) as (p' & E & Hp' & Ek). exists (LRU p'). rewrite E. cbn. split_and!; [done..|].
    by rewrite Ek, front_set.
  - intros k [p] Hp Hk. cbn in *. rewrite elem_of_list_to_set in Hk.
    destruct (list_erase_ok k p Hp Hk) as (p' & _ & E & Hp' & Ek). exists (LRU p'). rewrite E. cbn. split_and!; [done..|].
    by rewrite Ek, without_set.
  - intros [p] Hp Hne. cbn in *. destruct (list_candidate_ok p) as (k & _ & E & _ & Hk).
    + intros E. rewrite E in Hne. done.
    + exists k. by rewrite elem_of_list_to_set.
Defined.

(** ** LFU keeps its nodes sorted by frequency *)

Section LFUProofs.
Context {K : Type} `{Countable K}.
Implicit Types p : LFUCachePolicy K.
Implicit Types x z : nat * (Z * K).

Definition freq_le x z : Prop := x.2.1 <= z.2.1.

Record lfu_ok p : Prop := {
  lfu_nodes : nodes_ok snd (frequency_storage p) (lfu_storage p) (lfu_next p);
  lfu_sorted : StronglySorted freq_le (frequency_storage p);
}.

(** The frequency recorded for a key. *)
Definition lfu_count p (k : K) : option Z :=
  itr ← lfu_storage p !! k; e ← list_find (fun x => x.1 = itr) (frequency_storage p); Some (snd e).2.1.

Lemma emplace_lower_split x q : exists q1 q2, q = q1 ++ q2 /\ emplace_lower x q = q1 ++ x :: q2 /\
  (StronglySorted freq_le q -> StronglySorted freq_le (q1 ++ x :: q2)) /\ (forall z, z ∈ q1 -> z.2.1 < x.2.1).
Proof.
  induction q as [|z q IH]; cbn.
  - exists [], []. split_and!; [done..|intros; repeat constructor|]. intros z Hz. inversion Hz.
  - destruct (Z.ltb_spec z.2.1 x.2.1) as [Hlt|Hge].
    + destruct IH as (q1 & q2 & -> & -> & HS & HB). exists (z :: q1), q2. split_and!; [done..| |].
      * intros HSz. apply StronglySorted_inv in HSz as [HSq HF]. cbn. constructor; [by apply HS|].
        rewrite !Forall_app, Forall_cons in *. unfold freq_le at 2. naive_solver lia.
      * intros w Hw. apply elem_of_cons in Hw as [->|]; auto.
    + exists [], (z :: q). split_and!; [done..| |intros w Hw; inversion Hw].
      intros HSz. cbn. constructor; [done|]. apply StronglySorted_inv in HSz as [_ HF].
      constructor; [done|]. eapply Forall_impl; [exact HF|]. unfold freq_le. cbn. lia.
Qed.

Lemma emplace_upper_split x q : exists q1 q2, q = q1 ++ q2 /\ emplace_upper x q = q1 ++ x :: q2 /\
  (StronglySorted freq_le q -> StronglySorted freq_le (q1 ++ x :: q2)).
Proof.
  induction q as [|z q IH]; cbn.
  - exists [], []. split_and!; [done..|intros; repeat constructor].
  - destruct (Z.ltb_spec x.2.1 z.2.1) as [Hlt|Hge].
    + exists [], (z :: q). split_and!; [done..|].
      intros HSz. cbn. constructor; [done|]. apply StronglySorted_inv in HSz as [_ HF].
      constructor; [unfold freq_le; lia|]. eapply Forall_impl; [exact HF|]. unfold freq_le. cbn. lia.
    + destruct IH as (q1 & q2 & -> & -> & HS). exists (z :: q1), q2. split_and!; [done..|].
      intros HSz. apply StronglySorted_inv in HSz as [HSq HF]. cbn. constructor; [by apply HS|].
      rewrite !Forall_app, Forall_cons in *. unfold freq_le at 2. naive_solver lia.
Qed.

Lemma sorted_drop q1 x q2 : StronglySorted freq_le (q1 ++ x :: q2) -> StronglySorted freq_le (q1 ++ q2).
Proof.
  induction q1 as [|z q1 IH]; cbn; intros HS; apply StronglySorted_inv in HS as [HS HF]; [done|].
  constructor; [by apply IH|]. rewrite !Forall_app, Forall_cons in *. naive_solver.
Qed.

Lemma lfu_insert_ok k p : lfu_ok p -> lfu_storage p !! k = None ->
  exists p', lfu_insert k p = Some p' /\ lfu_ok p' /\ dom (lfu_storage p') = {[k]} ∪ dom (lfu_storage p).
Proof.
  intros [Hn Hs] Hk. unfold lfu_insert. eexists. split_and!; [reflexivity| |cbn [lfu_storage]; by rewrite dom_insert_L].
  destruct (emplace_lower_split (lfu_next p, (1, k)) (frequency_storage p)) as (q1 & q2 & Eq & E & HS & _).
  split; cbn [frequency_storage lfu_storage lfu_next]; rewrite E; [|by apply HS].
  apply (nodes_insert snd q1 (1, k) q2); [by rewrite <- Eq|done].
Qed.

Lemma lfu_erase_split k p : lfu_ok p -> k ∈ dom (lfu_storage p) ->
  exists n q1 a q2, lfu_storage p !! k = Some n /\ frequency_storage p = q1 ++ (n, a) :: q2 /\ a.2 = k /\ (n ∉ fst <$> q1).
Proof.
  intros [Hn Hs] Hk. apply elem_of_dom in Hk as [n Hk].
  destruct (nodes_split _ _ _ _ _ _ Hn Hk) as (q1 & a & q2 & E & Ea & Hq). by exists n, q1, a, q2.
Qed.

Lemma lfu_erase_ok k p : lfu_ok p -> k ∈ dom (lfu_storage p) ->
  exists p', lfu_erase k p = Some p' /\ lfu_ok p' /\ dom (lfu_storage p') = dom (lfu_storage p) ∖ {[k]}.
Proof.
  intros Hp Hk. destruct (lfu_erase_split k p Hp Hk) as (n & q1 & a & q2 & E1 & E2 & <- & Hq). destruct Hp as [Hn Hs].
  unfold lfu_erase. rewrite E1, E2. cbn [mbind option_bind]. rewrite erase_node_split by done.
  eexists. split_and!; [reflexivity| |cbn [lfu_storage]; apply dom_delete_L]. rewrite E2 in *.
  split; cbn [frequency_storage lfu_storage lfu_next]; [by eapply nodes_erase|by eapply sorted_drop].
Qed.

Lemma lfu_touch_ok k p : lfu_ok p -> k ∈ dom (lfu_storage p) ->
  exists p', lfu_touch k p = Some p' /\ lfu_ok p' /\ dom (lfu_storage p') = dom (lfu_storage p).
Proof.
  intros Hp Hk. destruct (lfu_erase_split k p Hp Hk) as (n & q1 & a & q2 & E1 & E2 & <- & Hq). destruct Hp as [Hn Hs].
  unfold lfu_touch. rewrite E1, E2. cbn [mbind option_bind]. rewrite find_node_split, erase_node_split by done.
  cbn [mbind option_bind snd]. eexists. split_and!; [reflexivity| |].
  2:{ cbn [lfu_storage]. rewrite dom_insert_L. set_solver. }
  set (x := (lfu_next p, _)). destruct (emplace_upper_split x (q1 ++ q2)) as (r1 & r2 & Eq & E & HS).
  rewrite E2 in *. split; cbn [frequency_storage lfu_storage lfu_next]; rewrite E.
  - assert (a.2 = x.2.2) as -> by done. rewrite <- insert_delete_eq.
    apply (nodes_insert snd r1 x.2 r2); [rewrite <- Eq; exact (nodes_erase snd q1 n a q2 _ _ Hn)|apply lookup_delete_eq].
  - apply HS. by eapply sorted_drop.
Qed.

(** The candidate has the least frequency. *)
Lemma lfu_candidate_ok p : lfu_ok p -> dom (lfu_storage p) <> ∅ ->
  exists n f k q, frequency_storage p = (n, (f, k)) :: q /\ lfu_repl_candidate p = Some k /\ k ∈ dom (lfu_storage p) /\
    Forall (fun z => f <= z.2.1) q.
Proof.
  intros [Hn Hs] Hne. unfold lfu_repl_candidate. destruct (frequency_storage p) as [|[n [f k]] q] eqn:E.
  - exfalso. apply Hne, set_eq. intros k. rewrite (nodes_dom snd _ _ _ k Hn). set_solver.
  - exists n, f, k, q. split_and!; [done..| |apply StronglySorted_inv in Hs as [_ Hs]; exact Hs].
    rewrite (nodes_dom snd _ _ _ k Hn). by left.
Qed.
End LFUProofs.
#[global] Arguments lfu_insert : simpl never.
#[global] Arguments lfu_touch : simpl never.
#[global] Arguments lfu_erase : simpl never.
#[global] Arguments lfu_repl_candidate : simpl never.

#[export, refine] Instance LFU_spec {K} `{Countable K} : CachePolicySpec K (LFUCachePolicy K) := {
  pol_ok p := lfu_ok p;
  pol_keys p := dom (lfu_storage p);
}.
Proof.
  - split; [|done]. split; [|constructor]. split; cbn; [constructor| |intros ? Hx; inversion Hx].
    intros k n. rewrite lookup_empty. split; [done|]. intros (a & Ha & _). inversion Ha.
  - intros k p Hp Hk. apply lfu_insert_ok; [done|]. by apply not_elem_of_dom in Hk.
  - intros k p Hp Hk. by apply lfu_touch_ok.
  - intros k p Hp Hk. by apply lfu_erase_ok.
  - intros p Hp Hne. destruct (lfu_candidate_ok p Hp Hne) as (n & f & k & q & _ & E & Hk & _). by exists k.
Defined.

(** ** The policy that keeps any key *)

Section NoPolicyProofs.
Context {K : Type} `{Countable K} (cbegin : gset K -> option K).

(** [*cbegin()] of a non-empty hash set is one of its elements. *)
Hypothesis cbegin_elem : forall s, s <> ∅ -> exists k, cbegin s = Some k /\ k ∈ s.

Definition No_spec : @CachePolicySpec K (NoCachePolicy K) _ _ (No_policy cbegin).
Proof.
  refine (@Build_CachePolicySpec K (NoCachePolicy K) _ _ (No_policy cbegin) (fun _ => True) key_storage _ _ _ _ _).
  - done.
  - intros k p _ _. by eexists.
  - intros k p _ _. by eexists.
  - intros k p _ _. by eexists.
  - intros p _ Hne. by apply cbegin_elem.
Defined.
End NoPolicyProofs.

Section LFUCounts.
Context {K : Type} `{Countable K}.
Implicit Types p : LFUCachePolicy K.

(** The node of a key is unique. *)
Lemma lfu_count_iff p k f : lfu_ok p -> lfu_count p k = Some f <-> exists n, (n, (f, k)) ∈ frequency_storage p.
Proof.
  intros [Hn Hs]. unfold lfu_count. split.
  - intros E. destruct (lfu_storage p !! k) as [n|] eqn:Ek; [|done]. cbn [mbind option_bind] in E.
    destruct (nodes_split _ _ _ _ _ _ Hn Ek) as (q1 & [f' k'] & q2 & Eq & Ea & Hq). cbn in Ea. subst k'.
    rewrite Eq, find_node_split in E by done. cbn in E. injection E as ->.
    exists n. rewrite Eq. apply elem_of_app. right. by left.
  - intros [n Hin]. assert (Ek : lfu_storage p !! k = Some n) by (apply (nodes_itr _ _ _ _ Hn); by exists (f, k)).
    rewrite Ek. cbn [mbind option_bind]. destruct (nodes_split _ _ _ _ _ _ Hn Ek) as (q1 & [f' k'] & q2 & Eq & Ea & Hq).
    cbn in Ea. subst k'. rewrite Eq, find_node_split by done. cbn. f_equal.
    destruct Hn as [H1 _ _]. rewrite Eq in H1, Hin. apply elem_of_app in Hin as [Hin|Hin].
    + exfalso. apply Hq, list_elem_of_fmap. by exists (n, (f, k)).
    + apply elem_of_cons in Hin as [[= ->]|Hin]; [done|]. exfalso.
      rewrite fmap_app in H1. apply NoDup_app in H1 as (_ & _ & H1). cbn in H1. apply NoDup_cons in H1 as [H1 _].
      apply H1, list_elem_of_fmap. by exists (n, (f, k)).
Qed.

Lemma lfu_insert_count k p p' : lfu_ok p -> lfu_storage p !! k = None -> lfu_insert k p = Some p' ->
  forall j, lfu_count p' j = if decide (j = k) then Some 1 else lfu_count p j.
Proof.
  intros Hp Hk E j. destruct (lfu_insert_ok k p Hp Hk) as (p'' & E' & Hp' & _).
  rewrite E in E'. injection E' as <-. unfold lfu_insert in E. injection E as <-.
  destruct (emplace_lower_split (lfu_next p, (1, k)) (frequency_storage p)) as (q1 & q2 & Eq & Ei & _ & _).
  apply option_eq. intros f. rewrite lfu_count_iff by done. cbn [frequency_storage]. rewrite Ei.
  destruct (decide (j = k)) as [->|Hne].
  - split.
    + intros [n Hin]. rewrite elem_of_app, elem_of_cons in Hin. destruct Hin as [Hin|[[= -> ->]|Hin]]; [|done|]; exfalso;
        (assert (lfu_storage p !! k = Some n); [|congruence]); apply (nodes_itr _ _ _ _ (lfu_nodes p Hp)); exists (f, k);
        rewrite Eq; set_solver.
    + intros [= <-]. exists (lfu_next p). set_solver.
  - rewrite lfu_count_iff by done. rewrite Eq. split; intros [n Hin]; exists n; set_solver.
Qed.

Lemma lfu_touch_count k p p' f : lfu_ok p -> lfu_count p k = Some f -> lfu_touch k p = Some p' ->
  forall j, lfu_count p' j = if decide (j = k) then Some (uadd 64 f 1) else lfu_count p j.
Proof.
  intros Hp Hf E j. assert (Hk : k ∈ dom (lfu_storage p)).
  { unfold lfu_count in Hf. apply elem_of_dom. destruct (lfu_storage p !! k); [done|discriminate]. }
  destruct (lfu_touch_ok k p Hp Hk) as (p'' & E' & Hp' & _). rewrite E in E'. injection E' as <-.
  destruct (lfu_erase_split k p Hp Hk) as (n & q1 & [f' k'] & q2 & E1 & E2 & Ea & Hq). cbn in Ea. subst k'.
  assert (f' = f) as ->.
  { assert (lfu_count p k = Some f') by (apply lfu_count_iff; [done|]; exists n; rewrite E2; set_solver). congruence. }
  unfold lfu_touch in E. rewrite E1, E2 in E. cbn [mbind option_bind] in E.
  rewrite find_node_split, erase_node_split in E by done. cbn [mbind option_bind snd fst] in E. injection E as <-.
  set (x := (lfu_next p, _)) in *. destruct (emplace_upper_split x (q1 ++ q2)) as (r1 & r2 & Eq & Ei & _).
  assert (Mem : forall z, z ∈ emplace_upper x (q1 ++ q2) <-> z = x \/ z ∈ q1 \/ z ∈ q2).
  { intros z. rewrite Ei, elem_of_app, elem_of_cons. assert (z ∈ q1 ++ q2 <-> z ∈ r1 ++ r2) as M by (by rewrite Eq).
    rewrite !elem_of_app in M. tauto. }
  apply option_eq. intros g. rewrite lfu_count_iff by done. cbn [frequency_storage]. setoid_rewrite Mem.
  destruct (decide (j = k)) as [->|Hne].
  - split.
    + intros [m Hin]. destruct Hin as [[= -> ->]|Hin]; [done|]. exfalso.
      assert (Em : lfu_storage p !! k = Some m).
      { apply (nodes_itr _ _ _ _ (lfu_nodes p Hp)). exists (g, k). rewrite E2. set_solver. }
      rewrite E1 in Em. injection Em as <-. pose proof (nodes_ids _ _ _ _ (lfu_nodes p Hp)) as Hnd.
      rewrite E2, fmap_app in Hnd. apply NoDup_app in Hnd as (_ & _ & Hnd). cbn in Hnd. apply NoDup_cons in Hnd as [Hnd _].
      destruct Hin as [Hin|Hin]; [apply Hq|apply Hnd]; apply list_elem_of_fmap; by exists (n, (g, k)).
    + intros [= <-]. exists (lfu_next p). by left.
  - rewrite lfu_count_iff, E2 by done. split; intros [m Hin]; exists m; subst x; set_solver.
Qed.
End LFUCounts.

(** ** The cache against the contract *)

Section CacheProofs.
Context {K V CB P : Type} `{Countable K} `{!CachePolicy K P} `{!CachePolicySpec K P}.
Implicit Types c : fixed_sized_cache K V CB P.

(** The policy tracks exactly the cached keys, the size is within the maximum and
    there is a callback to call. *)
Record cache_ok c : Prop := {
  ok_policy : pol_ok (cache_policy c);
  ok_keys : pol_keys (cache_policy c) = dom (cache_items_map c);
  ok_max : 0 < max_cache_size c;
  ok_size : cache_size c <= max_cache_size c;
  ok_callback : is_Some (on_erase_callback c);
}.

(** The callback of an erasure. *)
Definition prune_callback c (cb : option CB) : option CB :=
  match cb with Some f => Some f | None => on_erase_callback c end.

Lemma prune_callback_some c cb : cache_ok c -> exists f, prune_callback c cb = Some f.
Proof. intros [_ _ _ _ [f Hf]]. destruct cb as [g|]; [by exists g|by exists f]. Qed.

(** Same configuration, new items, policy and log. *)
Definition same_config c c' : Prop :=
  max_cache_size c' = max_cache_size c /\ on_erase_callback c' = on_erase_callback c.

Lemma cache_ok_intro c c' : cache_ok c -> same_config c c' -> pol_ok (cache_policy c') ->
  pol_keys (cache_policy c') = dom (cache_items_map c') -> cache_size c' <= max_cache_size c -> cache_ok c'.
Proof. intros [_ _ H3 _ H5] [E1 E2] Hp Hk Hs. split; rewrite ?E1, ?E2; done. Qed.

Lemma erase_itr_ok c k v cb : cache_ok c -> cache_items_map c !! k = Some v ->
  exists f c', erase_itr c k v cb = Some c' /\ cache_ok c' /\ same_config c c' /\ prune_callback c cb = Some f /\
    cache_items_map c' = delete k (cache_items_map c) /\ calls c' = (f, k, v) :: calls c.
Proof.
  intros Hc Hk. destruct (prune_callback_some c cb Hc) as [f Hf]. exists f. unfold erase_itr.
  fold (prune_callback c cb). rewrite Hf.
  assert (Hin : k ∈ pol_keys (cache_policy c)) by (rewrite (ok_keys c Hc); by apply elem_of_dom).
  destruct (pol_erase_ok k _ (ok_policy c Hc) Hin) as (p & E & Hp & Ek). rewrite E. cbn [mbind option_bind].
  eexists. split_and!; [reflexivity| |done|done|done|done].
  apply (cache_ok_intro c); [done|done|done| |]; cbn.
  - rewrite Ek, (ok_keys c Hc). by rewrite dom_delete_L.
  - pose proof (ok_size c Hc). unfold cache_size in *. cbn. rewrite map_size_delete, Hk. lia.
Qed.

Lemma cache_erase_ok c k cb : cache_ok c -> k ∈ dom (cache_items_map c) ->
  exists f v c', erase c k cb = Some c' /\ cache_ok c' /\ same_config c c' /\ prune_callback c cb = Some f /\
    cache_items_map c !! k = Some v /\
    cache_items_map c' = delete k (cache_items_map c) /\ calls c' = (f, k, v) :: calls c.
Proof.
  intros Hc Hk. apply elem_of_dom in Hk as [v Hv]. unfold erase, find_elem. rewrite Hv. cbn [mbind option_bind].
  destruct (erase_itr_ok c k v cb Hc Hv) as (f & c' & E & H'). exists f, v, c'. naive_solver.
Qed.

Lemma cache_insert_ok c k v : cache_ok c -> cache_items_map c !! k = None -> cache_size c < max_cache_size c ->
  exists c', insert c k v = Some c' /\ cache_ok c' /\ same_config c c' /\
    cache_items_map c' = <[k := v]> (cache_items_map c) /\ calls c' = calls c.
Proof.
  intros Hc Hk Hs. unfold insert.
  assert (Hin : k ∉ pol_keys (cache_policy c)) by (rewrite (ok_keys c Hc); by apply not_elem_of_dom).
  destruct (pol_insert_ok k _ (ok_policy c Hc) Hin) as (p & E & Hp & Ek). rewrite E, Hk. cbn [mbind option_bind].
  eexists. split_and!; [reflexivity| |done|done|done].
  apply (cache_ok_intro c); [done|done|done| |]; cbn.
  - rewrite Ek, (ok_keys c Hc). by rewrite dom_insert_L.
  - unfold cache_size in *. cbn. rewrite map_size_insert, Hk. cbn. lia.
Qed.

Lemma update_ok c k v : cache_ok c -> k ∈ dom (cache_items_map c) ->
  exists c', update c k v = Some c' /\ cache_ok c' /\ same_config c c' /\
    cache_items_map c' = <[k := v]> (cache_items_map c) /\ calls c' = calls c.
Proof.
  intros Hc Hk. unfold update.
  assert (Hin : k ∈ pol_keys (cache_policy c)) by (by rewrite (ok_keys c Hc)).
  destruct (pol_touch_ok k _ (ok_policy c Hc) Hin) as (p & E & Hp & Ek). rewrite E. cbn [mbind option_bind].
  eexists. split_and!; [reflexivity| |done|done|done]. apply elem_of_dom in Hk as [w Hw].
  apply (cache_ok_intro c); [done|done|done| |]; cbn.
  - rewrite Ek, (ok_keys c Hc). rewrite dom_insert_lookup_L; [done|by eexists].
  - pose proof (ok_size c Hc). unfold cache_size in *. cbn. rewrite map_size_insert, Hw. cbn. lia.
Qed.

(** The candidate of a non-empty cache is one of its keys. *)
Lemma candidate_ok c : cache_ok c -> 0 < cache_size c ->
  exists k, pol_candidate (cache_policy c) = Some k /\ k ∈ dom (cache_items_map c).
Proof.
  intros Hc Hs. rewrite <- (ok_keys c Hc). apply pol_candidate_ok; [by apply ok_policy|].
  rewrite (ok_keys c Hc). intros E. apply dom_empty_inv_L in E. unfold cache_size in Hs. rewrite E, map_size_empty in Hs. lia.
Qed.

(** [put] on its three branches. *)
Lemma put_ok c k v cb : cache_ok c ->
  exists c', put c k v cb = Some c' /\ cache_ok c' /\ same_config c c' /\
    ((k ∈ dom (cache_items_map c) \/ cache_size c < max_cache_size c) /\
       cache_items_map c' = <[k := v]> (cache_items_map c) /\ calls c' = calls c
     \/ k ∉ dom (cache_items_map c) /\ cache_size c = max_cache_size c /\
        exists f k' v', pol_candidate (cache_policy c) = Some k' /\ cache_items_map c !! k' = Some v' /\
          prune_callback c cb = Some f /\
          cache_items_map c' = <[k := v]> (delete k' (cache_items_map c)) /\ calls c' = (f, k', v') :: calls c).
Proof.
  intros Hc. unfold put, find_elem. pose proof (ok_size c Hc). pose proof (ok_max c Hc).
  destruct (cache_items_map c !! k) as [w|] eqn:Hk.
  - assert (Hd : k ∈ dom (cache_items_map c)) by (by apply elem_of_dom).
    destruct (update_ok c k v Hc Hd) as (c' & E & Hc' & Hs & E1 & E2). exists c'. split_and!; [done..|]. left. auto.
  - assert (Hd : k ∉ dom (cache_items_map c)) by (by apply not_elem_of_dom).
    destruct (Z.ltb_spec (max_cache_size c) (cache_size c + 1)).
    + destruct (candidate_ok c Hc ltac:(lia)) as (k' & Ek & Hk'). rewrite Ek. cbn [mbind option_bind].
      destruct (cache_erase_ok c k' cb Hc Hk') as (f & v' & c1 & E & Hc1 & [S1 S2] & Hf & Hv & E1 & E2). rewrite E. cbn [mbind option_bind].
      destruct (cache_insert_ok c1 k v Hc1) as (c' & E' & Hc' & [S3 S4] & E3 & E4).
      * rewrite E1. by apply lookup_delete_None; right.
      * rewrite S1. unfold cache_size. rewrite E1, map_size_delete, Hv. unfold cache_size in *. lia.
      * exists c'. rewrite E'. split_and!; [done|done|split; congruence|]. right. split_and!; [done|lia|].
        exists f, k', v'. rewrite E3, E4, E1, E2. done.
    + cbn [mbind option_bind]. destruct (cache_insert_ok c k v Hc Hk ltac:(lia)) as (c' & E' & Hc' & Hs & E3 & E4).
      exists c'. rewrite E'. split_and!; [done..|]. left. split_and!; [right; lia|done|done].
Qed.

Lemma get_internal_ok c k : cache_ok c ->
  exists c', get_internal c k = Some (cache_items_map c !! k, c') /\ cache_ok c' /\ same_config c c' /\
    cache_items_map c' = cache_items_map c /\ calls c' = calls c.
Proof.
  intros Hc. unfold get_internal, find_elem. destruct (cache_items_map c !! k) as [v|] eqn:Hk.
  - assert (Hin : k ∈ pol_keys (cache_policy c)) by (rewrite (ok_keys c Hc); by apply elem_of_dom).
    destruct (pol_touch_ok k _ (ok_policy c Hc) Hin) as (p & E & Hp & Ek). rewrite E. cbn [mbind option_bind].
    eexists. split_and!; [reflexivity| |done|done|done].
    apply (cache_ok_intro c); [done|done|done| |]; cbn; [by rewrite Ek, (ok_keys c Hc)|exact (ok_size c Hc)].
  - exists c. split_and!; done.
Qed.

(** The keys a list of callback calls was made for. *)
Definition called_keys (l : list (CB * K * V)) : list K := map (fun x => snd (fst x)) l.

Lemma no_calls (m : gmap K V) (g : option CB) f k v : (f, k, v) ∈ @nil (CB * K * V) <-> m !! k = Some v /\ m !! k = None /\ g = Some f.
Proof. split; [by intros ?%elem_of_nil|]. intros (E & E' & _). congruence. Qed.

(** Evicting the pair of one key first and the others afterwards. *)
Lemma evicted_calls (m m' : gmap K V) (g : option CB) f k v : m !! k = Some v -> m' ⊆ delete k m -> g = Some f ->
  forall f' k' v', (delete k m !! k' = Some v' /\ m' !! k' = None /\ g = Some f') \/ (f', k', v') = (f, k, v) <->
    m !! k' = Some v' /\ m' !! k' = None /\ g = Some f'.
Proof.
  intros Hk Hsub Hg f' k' v'. assert (m' !! k = None).
  { destruct (m' !! k) as [w|] eqn:E; [|done]. pose proof (lookup_weaken _ _ _ _ E Hsub) as E'. by rewrite lookup_delete_eq in E'. }
  destruct (decide (k' = k)) as [->|Hne].
  - rewrite lookup_delete_eq. split; [intros [[? _]|[= -> ->]]; [done|auto]|]. intros (E & _ & E'). right. congruence.
  - rewrite lookup_delete_ne by done. split; [intros [?|[= -> ->]]; [done|congruence]|auto].
Qed.

Lemma called_keys_snoc c1 c' cb f k v l : NoDup (called_keys l) ->
  (forall f k v, (f, k, v) ∈ l <-> cache_items_map c1 !! k = Some v /\ cache_items_map c' !! k = None /\ prune_callback c1 cb = Some f) ->
  cache_items_map c1 !! k = None -> NoDup (called_keys (l ++ [(f, k, v)])).
Proof.
  intros Hnd Hcalls Hk. unfold called_keys in *. rewrite map_app. apply NoDup_app. split_and!; [done| |apply NoDup_singleton].
  intros j Hj Hjk%list_elem_of_singleton. cbn in Hjk. subst j.
  apply list_elem_of_fmap in Hj as ([[f' k'] v'] & Ej & Hin). cbn in Ej. subst k'. apply Hcalls in Hin as [E _]. congruence.
Qed.

(** [prune] evicts down to the reserve, reports how many elements it evicted and calls the
    callback for exactly those. *)
Lemma prune_loop_ok n cb r fuel pruned c : cache_ok c -> 0 <= r -> cache_size c = Z.of_nat n -> (n <= fuel)%nat ->
  exists c', prune_loop fuel r cb pruned c = Some (pruned + (cache_size c - Z.min (cache_size c) r), c') /\
    cache_ok c' /\ same_config c c' /\ cache_size c' = Z.min (cache_size c) r /\
    cache_items_map c' ⊆ cache_items_map c /\
    exists l, calls c' = l ++ calls c /\ Z.of_nat (length l) = cache_size c - cache_size c' /\
      NoDup (called_keys l) /\
      (forall f k v, (f, k, v) ∈ l <->
         cache_items_map c !! k = Some v /\ cache_items_map c' !! k = None /\ prune_callback c cb = Some f).
Proof.
  revert fuel pruned c. induction n as [|n IH]; intros fuel pruned c Hc Hr Hn Hf.
  - assert (E : prune_loop fuel r cb pruned c = Some (pruned, c)).
    { destruct fuel; cbn; destruct (Z.ltb_spec r (cache_size c)); done || lia. }
    rewrite E. exists c. rewrite Z.min_l, Z.sub_diag, Z.add_0_r by lia. split_and!; [done..|]. exists []. split_and!; [done|cbn; lia|constructor|].
    apply no_calls.
  - destruct fuel as [|fuel]; [lia|]. cbn [prune_loop]. destruct (Z.ltb_spec r (cache_size c)).
    + destruct (candidate_ok c Hc ltac:(lia)) as (k & Ek & Hk). rewrite Ek. cbn [mbind option_bind].
      destruct (cache_erase_ok c k cb Hc Hk) as (f & v & c1 & E & Hc1 & [S1 S2] & Hf1 & Hv & E1 & E2). rewrite E. cbn [mbind option_bind].
      assert (Es : cache_size c1 = Z.of_nat n).
      { unfold cache_size in *. rewrite E1, map_size_delete, Hv. lia. }
      destruct (IH fuel (pruned + 1) c1 Hc1 Hr Es ltac:(lia)) as (c' & E' & Hc' & [S3 S4] & Es' & Hsub & l & El & Hl & Hnd & Hcalls).
      exists c'. rewrite E'. split_and!.
      * do 2 f_equal. lia.
      * done.
      * split; congruence.
      * lia.
      * etransitivity; [exact Hsub|]. rewrite E1. apply delete_subseteq.
      * exists (l ++ [(f, k, v)]). split_and!.
        -- rewrite El, E2, <- app_assoc. done.
        -- rewrite length_app. cbn. lia.
        -- apply (called_keys_snoc c1 c' cb); [done|done|]. rewrite E1. apply lookup_delete_eq.
        -- intros f' k' v'. rewrite elem_of_app, list_elem_of_singleton, Hcalls. unfold prune_callback in *. rewrite S2, E1.
           apply (evicted_calls (cache_items_map c) (cache_items_map c')); [done| |done]. by rewrite <- E1.
    + exists c. rewrite Z.min_l, Z.sub_diag, Z.add_0_r by lia. split_and!; [done..|].
      exists []. split_and!; [done|cbn; lia|constructor|]. apply no_calls.
Qed.
End CacheProofs.

(** ** Order of eviction *)

Section EvictionOrder.
Context {K V CB : Type} `{Countable K}.

Definition lru_keys (c : fixed_sized_cache K V CB (LRUCachePolicy K)) : list K := list_keys (lru_queue (cache_policy c)).
Definition fifo_keys (c : fixed_sized_cache K V CB (FIFOCachePolicy K)) : list K := list_keys (fifo_queue (cache_policy c)).

Lemma keys_length {P} `{!CachePolicy K P} `{!CachePolicySpec K P} (c : fixed_sized_cache K V CB P) (l : list K) :
  cache_ok c -> pol_keys (cache_policy c) = list_to_set l -> NoDup l -> Z.of_nat (length l) = cache_size c.
Proof.
  intros Hc E Hnd. unfold cache_size. rewrite <- size_dom, <- (ok_keys c Hc), E. by rewrite size_list_to_set.
Qed.

(** Dropping the last key of a full list and adding one in front. *)
Lemma take_full (k kl : K) l n : last l = Some kl -> NoDup l -> length l = n -> k :: without kl l = take n (k :: l).
Proof.
  intros Hl Hnd <-. destruct l as [|x l _] using rev_ind; [done|]. rewrite last_snoc in Hl. injection Hl as ->.
  change (l ++ [kl]) with (l ++ kl :: []) at 1. rewrite without_split by done. rewrite app_nil_r, length_app, Nat.add_1_r.
  cbn [take]. by rewrite take_app_length.
Qed.

Lemma without_notin (k : K) l : k ∉ l -> without k l = l.
Proof.
  intros Hk. induction l as [|x l IH]; [done|]. apply not_elem_of_cons in Hk as [? ?].
  unfold without in *. rewrite filter_cons_True by done. by rewrite IH.
Qed.

Lemma without_length (k : K) l : NoDup l -> k ∈ l -> S (length (without k l)) = length l.
Proof.
  intros Hnd Hk. apply list_elem_of_split in Hk as (l1 & l2 & ->). rewrite without_split, !length_app by done. cbn. lia.
Qed.

(** LRU: the accessed key moves to the front; what overflows the capacity is the least
    recently used key. *)
Lemma lru_put_keys (c c' : fixed_sized_cache K V CB (LRUCachePolicy K)) k v cb : cache_ok c -> put c k v cb = Some c' ->
  lru_keys c' = take (Z.to_nat (max_cache_size c)) (k :: without k (lru_keys c)).
Proof.
  intros Hc. pose proof (ok_policy c Hc) as Hp. cbn in Hp. pose proof (list_keys_nodup _ Hp) as Hnd.
  pose proof (keys_length c (lru_keys c) Hc eq_refl Hnd) as Hlen. pose proof (ok_size c Hc) as Hsz. pose proof (ok_max c Hc) as Hmax.
  assert (Hin : k ∈ lru_keys c <-> k ∈ dom (cache_items_map c)).
  { rewrite <- (ok_keys c Hc). cbn. by rewrite elem_of_list_to_set. }
  unfold put, find_elem. destruct (cache_items_map c !! k) as [w|] eqn:Hk.
  - assert (Hk' : k ∈ lru_keys c) by (apply Hin; by apply elem_of_dom).
    destruct (lru_touch_ok k _ Hp Hk') as (p' & E & _ & Ek). unfold update. cbn [pol_touch LRU_policy]. rewrite E. cbn.
    intros [= <-]. unfold lru_keys at 1. cbn. rewrite Ek. pose proof (without_length k _ Hnd Hk').
    symmetry. apply take_ge. cbn. unfold lru_keys in *. lia.
  - assert (Hk' : k ∉ lru_keys c) by (rewrite Hin; by apply not_elem_of_dom). rewrite (without_notin k) by done.
    destruct (Z.ltb_spec (max_cache_size c) (cache_size c + 1)).
    + destruct (list_candidate_ok (lru_queue (cache_policy c))) as (kl & _ & El & Elast & Hkl).
      { intros E. unfold lru_keys in Hlen. rewrite E in Hlen. cbn in Hlen. lia. }
      cbn [pol_candidate LRU_policy]. rewrite El. cbn [mbind option_bind]. unfold erase, find_elem.
      destruct (cache_items_map c !! kl) as [vl|]; [|done]. cbn [mbind option_bind]. unfold erase_itr.
      destruct (list_erase_ok kl _ Hp Hkl) as (p' & _ & E & Hp' & Ek). cbn [pol_erase LRU_policy]. rewrite E. cbn [fmap option_fmap option_map mbind option_bind].
      intros Hput. bind_inv Hput. bind_inv E0. injection E0 as <-. unfold insert in Hput. cbn in Hput.
      unfold lru_insert in Hput. cbn in Hput. injection Hput as <-. unfold lru_keys at 1, list_keys. cbn.
      fold (list_keys p'). rewrite Ek. apply take_full; [done|done|]. lia.
    + cbn [mbind option_bind]. unfold insert. cbn. unfold lru_insert. cbn. intros [= <-]. unfold lru_keys at 1, list_keys. cbn.
      symmetry. apply take_ge. cbn. unfold lru_keys, list_keys in *. lia.
Qed.

(** FIFO: a new key goes in front and pushes out the oldest; an access changes nothing. *)
Lemma fifo_put_keys (c c' : fixed_sized_cache K V CB (FIFOCachePolicy K)) k v cb : cache_ok c -> put c k v cb = Some c' ->
  fifo_keys c' = if decide (k ∈ fifo_keys c) then fifo_keys c else take (Z.to_nat (max_cache_size c)) (k :: fifo_keys c).
Proof.
  intros Hc. pose proof (ok_policy c Hc) as Hp. cbn in Hp. pose proof (list_keys_nodup _ Hp) as Hnd.
  pose proof (keys_length c (fifo_keys c) Hc eq_refl Hnd) as Hlen. pose proof (ok_size c Hc) as Hsz. pose proof (ok_max c Hc) as Hmax.
  assert (Hin : k ∈ fifo_keys c <-> k ∈ dom (cache_items_map c)).
  { rewrite <- (ok_keys c Hc). cbn. by rewrite elem_of_list_to_set. }
  unfold put, find_elem. destruct (cache_items_map c !! k) as [w|] eqn:Hk.
  - rewrite decide_True by (apply Hin; by apply elem_of_dom). unfold update. cbn. by intros [= <-].
  - rewrite decide_False by (rewrite Hin; by apply not_elem_of_dom).
    destruct (Z.ltb_spec (max_cache_size c) (cache_size c + 1)).
    + destruct (list_candidate_ok (fifo_queue (cache_policy c))) as (kl & El & _ & Elast & Hkl).
      { intros E. unfold fifo_keys in Hlen. rewrite E in Hlen. cbn in Hlen. lia. }
      cbn [pol_candidate FIFO_policy]. rewrite El. cbn [mbind option_bind]. unfold erase, find_elem.
      destruct (cache_items_map c !! kl) as [vl|]; [|done]. cbn [mbind option_bind]. unfold erase_itr.
      destruct (list_erase_ok kl _ Hp Hkl) as (p' & E & _ & Hp' & Ek). cbn [pol_erase FIFO_policy]. rewrite E. cbn [fmap option_fmap option_map mbind option_bind].
      intros Hput. bind_inv Hput. bind_inv E0. injection E0 as <-. unfold insert in Hput. cbn in Hput.
      unfold fifo_insert in Hput. cbn in Hput. injection Hput as <-. unfold fifo_keys at 1, list_keys. cbn.
      fold (list_keys p'). rewrite Ek. apply take_full; [done|done|]. lia.
    + cbn [mbind option_bind]. unfold insert. cbn. unfold fifo_insert. cbn. intros [= <-]. unfold fifo_keys at 1, list_keys. cbn.
      symmetry. apply take_ge. cbn. unfold fifo_keys, list_keys in *. lia.
Qed.
End EvictionOrder.

Section CacheLifecycle.
Context {K V CB P : Type} `{Countable K} `{!CachePolicy K P} `{!CachePolicySpec K P}.

Lemma cache_ok_empty n (f : CB) : 0 < n ->
  cache_ok (FixedSizedCache (∅ : gmap K V) (pol_empty : P) n (Some f) []).
Proof.
  intros Hn. destruct pol_empty_ok as [Hp He]. split; cbn; [done|by rewrite He, dom_empty_L|done| |by eexists].
  unfold cache_size. cbn. rewrite map_size_empty. lia.
Qed.

(** Erasing a list of distinct tracked keys from the policy. *)
Lemma clear_policy_ok order (p : P) : pol_ok p -> NoDup order -> (forall k, k ∈ order -> k ∈ pol_keys p) ->
  exists p', clear_policy order p = Some p' /\ pol_ok p' /\ pol_keys p' = pol_keys p ∖ list_to_set order.
Proof.
  revert p. induction order as [|k order IH]; intros p Hp Hnd Hin.
  - exists p. split_and!; [done..|]. cbn. set_solver.
  - apply NoDup_cons in Hnd as [Hk Hnd]. destruct (pol_erase_ok k p Hp) as (p1 & E & Hp1 & Ek); [apply Hin; by left|].
    destruct (IH p1 Hp1 Hnd) as (p' & E' & Hp' & Ek').
    + intros j Hj. rewrite Ek. apply elem_of_difference. split; [apply Hin; by right|].
      rewrite elem_of_singleton. intros ->. done.
    + exists p'. cbn. rewrite E. cbn. split_and!; [done..|]. rewrite Ek', Ek. cbn. set_solver.
Qed.
End CacheLifecycle.

(** ** Properties *)

(** C7: under any replacement policy that meets the contract, [put] always succeeds, keeps
    the invariant (the policy tracks the cached keys, the size stays within the maximum)
    and leaves the key bound to the value; a present key or a free place evicts nothing,
    otherwise exactly the policy's candidate goes, after its callback was called. *)
Theorem cache_put_correct {K V CB P : Type} `{Countable K} `{!CachePolicy K P} `{!CachePolicySpec K P}
    (c : fixed_sized_cache K V CB P) (k : K) (v : V) (cb : option CB) : cache_ok c ->
  exists c', put c k v cb = Some c' /\ cache_ok c' /\ cache_items_map c' !! k = Some v /\
    ((k ∈ dom (cache_items_map c) \/ cache_size c < max_cache_size c) /\
       cache_items_map c' = <[k := v]> (cache_items_map c) /\ calls c' = calls c
     \/ (k ∉ dom (cache_items_map c) /\ cache_size c = max_cache_size c /\
         exists f k' v', pol_candidate (cache_policy c) = Some k' /\ cache_items_map c !! k' = Some v' /\
          prune_callback c cb = Some f /\
          cache_items_map c' = <[k := v]> (delete k' (cache_items_map c)) /\ calls c' = (f, k', v') :: calls c)).
Proof.
  intros Hc. destruct (put_ok c k v cb Hc) as (c' & E & Hc' & _ & B). exists c'. split_and!; [done..| |done].
  destruct B as [(_ & -> & _)|(_ & _ & f & k' & v' & _ & _ & _ & -> & _)]; apply lookup_insert_eq.
Qed.

Lemma cache_put_correct_witness :
  exists c', put (FixedSizedCache ∅ pol_empty 1 (Some tt) [] : fixed_sized_cache nat nat unit (LFUCachePolicy nat)) 5%nat 7%nat None = Some c' /\
    cache_items_map c' !! 5%nat = Some 7%nat.
Proof.
  destruct (cache_put_correct (FixedSizedCache ∅ pol_empty 1 (Some tt) [] : fixed_sized_cache nat nat unit (LFUCachePolicy nat)) 5%nat 7%nat None)
    as (c' & E & _ & El & _); [apply cache_ok_empty; lia|]. exists c'. split; [exact E|exact El].
Defined.

(** C8: reading finds exactly the cached value, never changes the contents and calls no
    callback; [remove] deletes exactly the given key and reports whether it was there,
    calling the callback (the one given, else the cache's own) once with the pair when it
    was and leaving the cache as it is when it was not; [prune] evicts until the reserve is
    reached, reports the number of evictions and calls the callback exactly once for each
    pair that was cached and is gone, and for no other; [clear] empties the contents and
    the policy and calls no callback. *)
Theorem cache_access_correct {K V CB P : Type} `{Countable K} `{!CachePolicy K P} `{!CachePolicySpec K P}
    (c : fixed_sized_cache K V CB P) (k : K) (r : Z) (cb : option CB) : cache_ok c -> 0 <= r ->
  (exists c', try_get c k = Some (cache_items_map c !! k, bool_decide (k ∈ dom (cache_items_map c)), c') /\
     cache_ok c' /\ cache_items_map c' = cache_items_map c /\ calls c' = calls c) /\
  (exists c', get_or_die c k = Some (match cache_items_map c !! k with Some v => inl v | None => inr tt end, c') /\
     cache_ok c' /\ cache_items_map c' = cache_items_map c /\ calls c' = calls c) /\
  (exists c', remove c k cb = Some (bool_decide (k ∈ dom (cache_items_map c)), c') /\
     cache_ok c' /\ cache_items_map c' = delete k (cache_items_map c) /\
     match cache_items_map c !! k with
     | Some v => exists f, prune_callback c cb = Some f /\ calls c' = (f, k, v) :: calls c
     | None => c' = c
     end) /\
  (exists c' l, prune c r cb = Some (cache_size c - Z.min (cache_size c) r, c') /\ cache_ok c' /\
     cache_size c' = Z.min (cache_size c) r /\ cache_items_map c' ⊆ cache_items_map c /\
     calls c' = l ++ calls c /\ Z.of_nat (length l) = cache_size c - cache_size c' /\ NoDup (called_keys l) /\
     (forall f k v, (f, k, v) ∈ l <->
        cache_items_map c !! k = Some v /\ cache_items_map c' !! k = None /\ prune_callback c cb = Some f)) /\
  (forall order, NoDup order -> list_to_set order = dom (cache_items_map c) ->
     exists c', clear order c = Some c' /\ cache_items_map c' = ∅ /\ pol_keys (cache_policy c') = ∅ /\ calls c' = calls c).
Proof.
  intros Hc Hr. destruct (get_internal_ok c k Hc) as (c1 & E1 & Hc1 & _ & I1 & N1). split_and!.
  - exists c1. unfold try_get. rewrite E1. cbn. split_and!; [|done..]. do 3 f_equal. apply bool_decide_ext. by rewrite elem_of_dom.
  - exists c1. unfold get_or_die. rewrite E1. done.
  - unfold remove, find_elem. destruct (cache_items_map c !! k) as [v|] eqn:Hk.
    + destruct (erase_itr_ok c k v cb Hc Hk) as (f & c' & E & Hc' & _ & Hf & E' & En). exists c'. rewrite E. cbn.
      rewrite bool_decide_true by (by apply elem_of_dom). split_and!; [done..|]. by exists f.
    + exists c. rewrite bool_decide_false by (by apply not_elem_of_dom). split_and!; [done..| |done].
      symmetry. by apply delete_id.
  - unfold prune. destruct (prune_loop_ok (size (cache_items_map c)) cb r (size (cache_items_map c)) 0 c Hc Hr eq_refl ltac:(lia))
      as (c' & E & Hc' & _ & Es & Hsub & l & El & Hl & Hnd & Hcalls). exists c', l. split_and!; done.
  - intros order Hnd Ho. destruct (clear_policy_ok order _ (ok_policy c Hc) Hnd) as (p' & E & _ & Ek).
    + intros j Hj. rewrite (ok_keys c Hc), <- Ho. by apply elem_of_list_to_set.
    + unfold clear. rewrite E. eexists. split_and!; [reflexivity|done| |done]. cbn. rewrite Ek, Ho, (ok_keys c Hc). set_solver.
Qed.

Lemma cache_access_correct_witness :
  exists c', prune (FixedSizedCache ∅ pol_empty 3 (Some tt) [] : fixed_sized_cache nat nat unit (FIFOCachePolicy nat)) 1 None = Some (0, c').
Proof.
  destruct (cache_access_correct (FixedSizedCache ∅ pol_empty 3 (Some tt) [] : fixed_sized_cache nat nat unit (FIFOCachePolicy nat)) 0%nat 1 None)
    as (_ & _ & _ & (c' & l & E & _) & _); [apply cache_ok_empty; lia|lia|]. exists c'. exact E.
Defined.

(** the LRU cache keeps its keys in order of last use: a [put] moves or adds the key
    in front and drops from the end what exceeds the capacity, so that the key evicted is
    the least recently used one; a successful read moves its key to the front. The FIFO cache
    keeps them in order of insertion: a [put] of a new key adds it in front and drops the
    oldest when the capacity is exceeded, a [put] of a present key changes nothing. *)
Theorem lru_fifo_order {K V CB : Type} `{Countable K} (c c' : fixed_sized_cache K V CB (LRUCachePolicy K))
    (d d' : fixed_sized_cache K V CB (FIFOCachePolicy K)) (k : K) (v : V) (cb : option CB) :
  cache_ok c -> cache_ok d ->
  (put c k v cb = Some c' -> lru_keys c' = take (Z.to_nat (max_cache_size c)) (k :: without k (lru_keys c))) /\
  (k ∈ lru_keys c -> forall r, get_internal c k = Some (r, c') -> lru_keys c' = k :: without k (lru_keys c)) /\
  (forall kl, pol_candidate (cache_policy c) = Some kl -> last (lru_keys c) = Some kl) /\
  (put d k v cb = Some d' ->
   fifo_keys d' = if decide (k ∈ fifo_keys d) then fifo_keys d else take (Z.to_nat (max_cache_size d)) (k :: fifo_keys d)).
Proof.
  intros Hc Hdok. split_and!; [by apply lru_put_keys| | |by apply fifo_put_keys].
  - intros Hk r E. unfold get_internal in E. destruct (find_elem c k) as [w|] eqn:Hf.
    + destruct (lru_touch_ok k _ (ok_policy c Hc) Hk) as (p' & Et & _ & Ek). cbn [pol_touch LRU_policy] in E. rewrite Et in E.
      cbn in E. injection E as <- <-. exact Ek.
    + exfalso. assert (Hd : k ∈ pol_keys (cache_policy c)) by (cbn; by rewrite elem_of_list_to_set).
      rewrite (ok_keys c Hc) in Hd. unfold find_elem in Hf. apply not_elem_of_dom in Hf. contradiction.
  - intros kl E. destruct (list_candidate_ok (lru_queue (cache_policy c))) as (k' & _ & E' & El & _).
    + intros En. cbn in E. unfold lru_repl_candidate in E. unfold list_keys in En. apply fmap_nil_inv in En. by rewrite En in E.
    + cbn in E. rewrite E' in E. injection E as <-. exact El.
Qed.

Lemma lru_fifo_order_witness :
  lru_keys (FixedSizedCache {[1%nat := 2%nat]} (LRU (ListPolicy [(0%nat, 1%nat)] {[1%nat := 0%nat]} 1)) 1 (Some tt) []) = [1%nat].
Proof.
  pose (c0 := FixedSizedCache ∅ pol_empty 1 (Some tt) [] : fixed_sized_cache nat nat unit (LRUCachePolicy nat)).
  pose (d0 := FixedSizedCache ∅ pol_empty 1 (Some tt) [] : fixed_sized_cache nat nat unit (FIFOCachePolicy nat)).
  destruct (lru_fifo_order c0 (FixedSizedCache {[1%nat := 2%nat]} (LRU (ListPolicy [(0%nat, 1%nat)] {[1%nat := 0%nat]} 1)) 1 (Some tt) [])
    d0 d0 1%nat 2%nat None) as (E & _ & _); [apply cache_ok_empty; lia|apply cache_ok_empty; lia|]. apply E. vm_compute. reflexivity.
Defined.

(** the LFU policy counts accesses: insertion gives a key the count 1, each touch adds
    one (modulo 2^64) and leaves the other counts alone, and the replacement candidate
    always has the least count among the tracked keys. *)
Theorem lfu_least_frequent {K : Type} `{Countable K} (p p' : LFUCachePolicy K) (k : K) : lfu_ok p ->
  (lfu_insert k p = Some p' -> lfu_storage p !! k = None ->
     lfu_ok p' /\ forall j, lfu_count p' j = if decide (j = k) then Some 1 else lfu_count p j) /\
  (forall f, lfu_count p k = Some f -> lfu_touch k p = Some p' ->
     lfu_ok p' /\ forall j, lfu_count p' j = if decide (j = k) then Some (uadd 64 f 1) else lfu_count p j) /\
  (lfu_repl_candidate p = Some k -> exists f, lfu_count p k = Some f /\ forall j g, lfu_count p j = Some g -> f <= g).
Proof.
  intros Hp. split_and!.
  - intros E Hk. split; [|by apply lfu_insert_count]. destruct (lfu_insert_ok k p Hp Hk) as (q & E' & Hq & _). congruence.
  - intros f Hf E. split; [|by apply lfu_touch_count].
    assert (Hk : k ∈ dom (lfu_storage p)).
    { apply elem_of_dom. unfold lfu_count in Hf. destruct (lfu_storage p !! k); [done|discriminate]. }
    destruct (lfu_touch_ok k p Hp Hk) as (q & E' & Hq & _). congruence.
  - intros E. destruct (lfu_candidate_ok p Hp) as (n & f & k' & q & Eq & E' & Hk & HF).
    + intros Hd. assert (frequency_storage p = []) as En; [|unfold lfu_repl_candidate in E; by rewrite En in E].
      destruct (frequency_storage p) as [|[n [f j]] q] eqn:Eq; [done|]. exfalso.
      assert (j ∈ dom (lfu_storage p)); [|set_solver]. rewrite (nodes_dom snd _ _ _ j (lfu_nodes p Hp)), Eq. by left.
    + rewrite E in E'. injection E' as <-. exists f. split.
      * apply lfu_count_iff; [done|]. exists n. rewrite Eq. by left.
      * intros j g Hj. apply lfu_count_iff in Hj as [m Hm]; [|done]. rewrite Eq in Hm.
        apply elem_of_cons in Hm as [[= -> -> ->]|Hm]; [lia|]. rewrite Forall_forall in HF. by apply (HF (m, (g, j))).
Qed.

Lemma lfu_least_frequent_witness : lfu_count (LFU [(0%nat, (1, 7%nat))] {[7%nat := 0%nat]} 1) 7%nat = Some 1.
Proof.
  destruct (lfu_least_frequent (LFU [] ∅ 0) (LFU [(0%nat, (1, 7%nat))] {[7%nat := 0%nat]} 1) 7%nat) as (H & _ & _).
  - exact (proj1 (pol_empty_ok (P := LFUCachePolicy nat))).
  - destruct H as [_ H]; [vm_compute; reflexivity|reflexivity|]. exact (H 7%nat).
Defined.
