(* ===== verification/CircularQueue.v ===== *)
(** * Overwriting ring buffer (container/circular_queue.h)

    [circular_queue<T>] keeps up to [max_items_ - 1] items in a vector of [max_items_]
    slots, the spare slot telling a full queue from an empty one; pushing on a full queue
    drops the oldest item and counts the overrun. A default-constructed or moved-from
    queue is disabled: it has no slots and ignores pushes. Indices are [size_t].
    [None] is undefined behaviour (an access outside the vector, a modulo by zero). *)
From S2P Require Import Prelude Words Vec.

Section CircularQueue.
Context {T : Type}.

Record circular_queue := CircularQueue {
  max_items_ : Z;
  head_ : Z;
  tail_ : Z;
  overrun_counter_ : Z;
  v_ : list T;
}.

(** ** Operations *)

Definition cq_default : circular_queue := CircularQueue 0 0 0 0 [].

(** The vector holds [max_items_] value-initialised elements [T()]. *)
Definition cq_make (value_init : T) (max_items : Z) : circular_queue :=
  let m := uadd 64 max_items 1 in
  CircularQueue m 0 0 0 (replicate (Z.to_nat m) value_init).

(** [x % n] on [size_t]. *)
Definition umod (x n : Z) : option Z := if n =? 0 then None else Some (x mod n).

Definition push_back (item : T) (q : circular_queue) : option circular_queue :=
  if 0 <? max_items_ q then
    v ← zset (v_ q) (tail_ q) item;
    tail ← umod (uadd 64 (tail_ q) 1) (max_items_ q);
    if tail =? head_ q then
      head ← umod (uadd 64 (head_ q) 1) (max_items_ q);
      Some (CircularQueue (max_items_ q) head tail (uadd 64 (overrun_counter_ q) 1) v)
    else Some (CircularQueue (max_items_ q) (head_ q) tail (overrun_counter_ q) v)
  else Some q.

Definition front (q : circular_queue) : option T := zget (v_ q) (head_ q).

Definition size (q : circular_queue) : Z :=
  if head_ q <=? tail_ q then usub 64 (tail_ q) (head_ q)
  else usub 64 (max_items_ q) (usub 64 (head_ q) (tail_ q)).

(** [at(i)] of a release build; the debug build asserts [i < size()] first. *)
Definition at_ (i : Z) (q : circular_queue) : option T :=
  j ← umod (uadd 64 (head_ q) i) (max_items_ q); zget (v_ q) j.

Definition pop_front (q : circular_queue) : option circular_queue :=
  head ← umod (uadd 64 (head_ q) 1) (max_items_ q);
  Some (CircularQueue (max_items_ q) head (tail_ q) (overrun_counter_ q) (v_ q)).

Definition empty (q : circular_queue) : bool := tail_ q =? head_ q.

Definition full (q : circular_queue) : option bool :=
  if 0 <? max_items_ q then
    t ← umod (uadd 64 (tail_ q) 1) (max_items_ q); Some (t =? head_ q)
  else Some false.

Definition overrun_counter (q : circular_queue) : Z := overrun_counter_ q.

Definition reset_overrun_counter (q : circular_queue) : circular_queue :=
  CircularQueue (max_items_ q) (head_ q) (tail_ q) 0 (v_ q).

(** Move construction and assignment: the new value of [*this] and of [other], whose vector
    is left in some state [rest] by the move of [std::vector]. *)
Definition copy_moveable (rest : list T) (other : circular_queue) : circular_queue * circular_queue :=
  (CircularQueue (max_items_ other) (head_ other) (tail_ other) (overrun_counter_ other) (v_ other),
   CircularQueue 0 0 0 0 rest).

(** ** Invariant and abstraction *)

(** [q] holds the items [l], oldest first. *)
Record cq_is (q : circular_queue) (l : list T) : Prop := {
  cq_max : 0 < max_items_ q < 2 ^ 64;
  cq_head : 0 <= head_ q < max_items_ q;
  cq_tail : tail_ q = slot (max_items_ q) (head_ q) (zlen l);
  cq_room : zlen l < max_items_ q;
  cq_ring : ring_is (v_ q) (max_items_ q) (head_ q) l;
}.

(** A queue without slots. *)
Definition cq_disabled (q : circular_queue) : Prop := max_items_ q = 0 /\ head_ q = 0 /\ tail_ q = 0.

Lemma umod_succ x n : 0 <= x < n -> n < 2 ^ 64 -> umod (uadd 64 x 1) n = Some (slot n x 1).
Proof.
  intros Hx Hn. unfold umod, uadd, slot. destruct (Z.eqb_spec n 0); [lia|]. by rewrite wrap_small by lia.
Qed.

Lemma cq_make_is d m : 0 <= m < 2 ^ 64 - 1 -> cq_is (cq_make d m) [].
Proof.
  intros Hm. unfold cq_make, uadd. rewrite wrap_small by lia. split; cbn [max_items_ head_ tail_ v_]; [lia|lia| |change (zlen (@nil T)) with 0; lia|].
  - unfold slot. cbn. by rewrite Z.mod_0_l by lia.
  - apply ring_nil. unfold zlen. rewrite length_replicate. lia.
Qed.

(** The size is the number of items, on both sides of the wrap-around. *)
Lemma cq_size q l : cq_is q l -> size q = zlen l.
Proof.
  intros [Hm Hh Ht Hr _]. pose proof (zlen_nonneg l). unfold size. rewrite Ht, slot_sub by lia.
  unfold usub. zcases; try (rewrite (wrap_small 64 (head_ q - _)) by lia); rewrite wrap_small; lia.
Qed.

Lemma cq_empty q l : cq_is q l -> empty q = bool_decide (l = []).
Proof.
  intros [Hm Hh Ht Hr _]. unfold empty. rewrite Ht. pose proof (zlen_nonneg l).
  destruct (Z.eqb_spec (slot (max_items_ q) (head_ q) (zlen l)) (head_ q)) as [E|E].
  - rewrite <- (slot_0 (max_items_ q) (head_ q)) in E by lia. rewrite (slot_slot _ _ 0 (zlen l)), Z.add_0_l in E.
    apply slot_inj in E; [|lia|lia|lia]. rewrite bool_decide_true; [done|]. by destruct l.
  - rewrite bool_decide_false; [done|]. intros ->. apply E. cbn. by apply slot_0.
Qed.

Lemma cq_full q l : cq_is q l -> full q = Some (bool_decide (zlen l = max_items_ q - 1)).
Proof.
  intros [Hm Hh Ht Hr _]. pose proof (zlen_nonneg l). unfold full. destruct (Z.ltb_spec 0 (max_items_ q)); [|lia].
  pose proof (slot_range (max_items_ q) (head_ q) (zlen l) ltac:(lia)).
  rewrite Ht, umod_succ, slot_slot by lia. cbn. f_equal.
  rewrite <- (slot_0 (max_items_ q) (head_ q)) at 2 by lia.
  destruct (Z.eqb_spec (slot (max_items_ q) (head_ q) (zlen l + 1)) (slot (max_items_ q) (head_ q) 0)) as [E|E];
    [rewrite bool_decide_true|rewrite bool_decide_false]; try done.
  - destruct (Z.eq_dec (zlen l + 1) (max_items_ q)); [lia|]. apply slot_inj in E; lia.
  - intros El. apply E. rewrite El. unfold slot. replace (head_ q + (max_items_ q - 1 + 1)) with (head_ q + 0 + 1 * max_items_ q) by lia.
    apply Z_mod_plus_full.
Qed.

Lemma cq_push q l x : cq_is q l ->
  exists q', push_back x q = Some q' /\ max_items_ q' = max_items_ q /\
    if decide (zlen l = max_items_ q - 1)
    then cq_is q' (tail (l ++ [x])) /\ overrun_counter_ q' = uadd 64 (overrun_counter_ q) 1
    else cq_is q' (l ++ [x]) /\ overrun_counter_ q' = overrun_counter_ q.
Proof.
  intros H. pose proof H as [Hm Hh Ht Hr HR]. pose proof (zlen_nonneg l). unfold push_back.
  pose proof (cq_full q l H) as F. unfold full in F.
  destruct (Z.ltb_spec 0 (max_items_ q)); [|lia].
  pose proof (slot_range (max_items_ q) (head_ q) (zlen l) ltac:(lia)) as Hs. rewrite <- Ht in Hs.
  rewrite (umod_succ (tail_ q)) in F |- * by lia. cbn [mbind option_bind] in F |- *. injection F as F.
  assert (Hz : 0 <= tail_ q < zlen (v_ q)) by (destruct HR as (_ & ? & _); lia).
  pose proof (zset_ok (v_ q) (tail_ q) x Hz) as E. rewrite E. cbn [mbind option_bind]. rewrite F.
  rewrite Ht in E. assert (R : ring_is (<[Z.to_nat (tail_ q):=x]> (v_ q)) (max_items_ q) (head_ q) (l ++ [x])).
  { eapply ring_push_back; [| |lia|rewrite Ht; exact E]; [lia|done]. }
  destruct (decide (zlen l = max_items_ q - 1)) as [El|El].
  - rewrite bool_decide_true by done. rewrite umod_succ by lia. cbn [mbind option_bind]. eexists. split_and!; [reflexivity|done| |done].
    destruct (l ++ [x]) as [|y l'] eqn:Ea; [by destruct l|]. apply ring_pop_front in R.
    assert (El' : zlen l' = zlen l) by (assert (zlen (l ++ [x]) = zlen (y :: l')) by (by rewrite Ea); rewrite zlen_app, zlen_1, zlen_cons in *; lia).
    split; cbn [max_items_ head_ tail_ v_ List.tl]; [lia|apply slot_range; lia| |lia|done].
    rewrite Ht, !slot_slot. f_equal. lia.
  - rewrite bool_decide_false by done. eexists. split_and!; [reflexivity|done| |done].
    split; cbn [max_items_ head_ tail_ v_]; [lia|lia| |rewrite zlen_app, zlen_1; lia|done].
    by rewrite Ht, slot_slot, zlen_app, zlen_1.
Qed.

Lemma cq_pop q x l : cq_is q (x :: l) ->
  exists q', pop_front q = Some q' /\ cq_is q' l /\ overrun_counter_ q' = overrun_counter_ q.
Proof.
  intros [Hm Hh Ht Hr HR]. rewrite zlen_cons in *. pose proof (zlen_nonneg l). unfold pop_front. rewrite umod_succ by lia.
  eexists. split_and!; [reflexivity| |done]. split; cbn [max_items_ head_ tail_ v_].
  - done.
  - apply slot_range. lia.
  - by rewrite Ht, slot_slot.
  - lia.
  - by eapply ring_pop_front.
Qed.

Lemma cq_at q l i : cq_is q l -> 0 <= i < zlen l -> max_items_ q < 2 ^ 63 -> at_ i q = zget l i.
Proof.
  intros [Hm Hh Ht Hr HR] Hi Hb. unfold at_, umod, uadd. destruct (Z.eqb_spec (max_items_ q) 0); [lia|].
  rewrite wrap_small by lia. cbn [mbind option_bind]. by apply ring_get.
Qed.

Lemma cq_front q l : cq_is q l -> l <> [] -> front q = head l.
Proof.
  intros [Hm Hh Ht Hr HR] Hl. destruct l as [|x l]; [done|]. unfold front. rewrite <- (slot_0 (max_items_ q) (head_ q)) at 1 by done.
  by eapply ring_front.
Qed.
End CircularQueue.

(** ** Properties *)

(** C10: the queue implements a bounded list of its most recent items. From construction on,
    every push appends its item and, when the queue is full, drops the oldest one and
    counts the overrun; pops remove the oldest; the size and the two status tests agree with the list on
    both sides of the wrap-around; and no access leaves the vector. *)
Theorem circular_queue_refines_list {T : Type} (q : circular_queue (T := T)) (l : list T) (x : T) : cq_is q l ->
  (exists q', push_back x q = Some q' /\ max_items_ q' = max_items_ q /\
     if decide (zlen l = max_items_ q - 1)
     then cq_is q' (tail (l ++ [x])) /\ overrun_counter_ q' = uadd 64 (overrun_counter_ q) 1
     else cq_is q' (l ++ [x]) /\ overrun_counter_ q' = overrun_counter_ q) /\
  (l <> [] -> front q = head l /\ exists q', pop_front q = Some q' /\ cq_is q' (tail l)) /\
  (forall i, 0 <= i < zlen l -> max_items_ q < 2 ^ 63 -> at_ i q = zget l i) /\
  size q = zlen l /\ empty q = bool_decide (l = []) /\ full q = Some (bool_decide (zlen l = max_items_ q - 1)) /\
  (forall d m, 0 <= m < 2 ^ 64 - 1 -> cq_is (cq_make d m : circular_queue (T := T)) []).
Proof.
  intros H. split_and!; [by apply cq_push| |intros; by apply cq_at|by apply cq_size|by apply cq_empty|by apply cq_full|intros; by apply cq_make_is].
  intros Hl. split; [by apply cq_front|]. destruct l as [|y l]; [done|]. destruct (cq_pop q y l H) as (q' & E & Hq & _). by exists q'.
Qed.

Lemma circular_queue_refines_list_witness :
  exists q', push_back 7%nat (CircularQueue 3 2 1 0 [5; 0; 4]%nat) = Some q' /\ cq_is q' [5; 7]%nat.
Proof.
  destruct (circular_queue_refines_list (CircularQueue 3 2 1 0 [5; 0; 4]%nat) [4; 5]%nat 7%nat) as [(q' & E & _ & H) _].
  - split; cbn; [lia|lia|reflexivity|reflexivity|]. split; [vm_compute; discriminate|]. split; [vm_compute; discriminate|].
    intros i y Hy. pose proof (zget_Some_range _ _ _ Hy) as Hi. change (0 <= i < 2) in Hi.
    assert (i = 0 \/ i = 1) as [-> | ->] by lia; exact Hy.
  - exists q'. split; [exact E|]. exact (proj1 H).
Defined.

(** A disabled queue stays disabled: a push does nothing, it is empty, not full and has
    size zero; moving a queue transfers its items and leaves the source disabled. *)
Theorem circular_queue_move {T : Type} (q : circular_queue (T := T)) (l rest : list T) (x : T) :
  (cq_disabled q -> push_back x q = Some q /\ size q = 0 /\ empty q = true /\ full q = Some false /\ pop_front q = None) /\
  (cq_is q l -> cq_is (fst (copy_moveable rest q)) l /\ overrun_counter_ (fst (copy_moveable rest q)) = overrun_counter_ q) /\
  cq_disabled (snd (copy_moveable rest q)) /\ cq_disabled (cq_default : circular_queue (T := T)).
Proof.
  split_and!; try done.
  - intros (E1 & E2 & E3). unfold push_back, size, empty, full, pop_front, umod. rewrite E1, E2, E3. done.
  - intros [H1 H2 H3 H4 H5]. split; [split|]; done.
Qed.

Lemma circular_queue_move_witness :
  cq_is (fst (copy_moveable [] (cq_make 0%nat 2))) [] /\ push_back 1%nat cq_default = Some cq_default.
Proof.
  split.
  - destruct (circular_queue_move (cq_make 0%nat 2) [] [] 0%nat) as (_ & H & _). apply H. apply cq_make_is. lia.
  - destruct (circular_queue_move cq_default [] [] 1%nat) as (H & _). apply H. split; [|split]; reflexivity.
Defined.
