(* ===== verification/BoundedQueue.v ===== *)
(** * Double-ended ring buffer in raw storage (container/bounded_queue.h)

    [BoundedQueue<T>] places its items in memory given at construction, constructing and
    destroying them in place. A slot of the memory is [Some x] while it holds an object
    and [None] while it is raw; destroying or reading a raw slot, any access outside the
    memory and a loop that does not end are the value [None] of an operation. Counters
    are [uint32_t]. *)
From S2P Require Import Prelude Words Vec.

Inductive StorageOwnership := OWNS_STORAGE | NOT_OWN_STORAGE.

(** ** [_mod]: the remainder by repeated subtraction *)

Fixpoint mod_loop (fuel : nat) (off cap : Z) : option Z :=
  if cap <=? off then
    match fuel with
    | O => None
    | S fuel => mod_loop fuel (usub 32 off cap) cap
    end
  else Some off.

Definition mod_ (off cap : Z) : option Z := mod_loop (Z.to_nat (off / cap)) off cap.

Section BoundedQueue.
Context {T : Type}.

Record bounded_queue := BoundedQueue {
  _count : Z;
  _cap : Z;
  _start : Z;
  _ownership : StorageOwnership;
  _items : option (list (option T));
}.

(** ** Memory *)

Definition mem (q : bounded_queue) : list (option T) := default [] (_items q).

Definition set_mem (q : bounded_queue) (v : list (option T)) : bounded_queue :=
  BoundedQueue (_count q) (_cap q) (_start q) (_ownership q) (Some v).
Definition set_pos (count start : Z) (q : bounded_queue) : bounded_queue :=
  BoundedQueue count (_cap q) start (_ownership q) (_items q).

(** Placement new and the destructor call; assignment needs a live object. *)
Definition construct (i : Z) (x : T) (q : bounded_queue) : option bounded_queue :=
  v ← zset (mem q) i (Some x); Some (set_mem q v).
Definition deref (i : Z) (q : bounded_queue) : option T :=
  o ← zget (mem q) i; o.
Definition destroy (i : Z) (q : bounded_queue) : option bounded_queue :=
  _ ← deref i q; v ← zset (mem q) i None; Some (set_mem q v).
Definition assign (i : Z) (x : T) (q : bounded_queue) : option bounded_queue :=
  _ ← deref i q; v ← zset (mem q) i (Some x); Some (set_mem q v).

(** ** Operations *)

(** From caller memory of [memsize] bytes for objects of [sz] bytes, and from [malloc], which
    may fail. *)
Definition bq_of_memory (sz memsize : Z) (own : StorageOwnership) : bounded_queue :=
  BoundedQueue 0 (wrap 32 (memsize / sz)) 0 own (Some (replicate (Z.to_nat (memsize / sz)) None)).
Definition bq_of_capacity (malloc_ok : bool) (sz capacity : Z) : bounded_queue :=
  BoundedQueue 0 (wrap 32 capacity) 0 OWNS_STORAGE
    (if malloc_ok then Some (replicate (Z.to_nat (umul 64 capacity sz / sz)) None) else None).
Definition bq_default : bounded_queue := BoundedQueue 0 0 0 NOT_OWN_STORAGE None.

Definition push (item : T) (q : bounded_queue) : option (bool * bounded_queue) :=
  if _count q <? _cap q then
    i ← mod_ (uadd 32 (_start q) (_count q)) (_cap q);
    q' ← construct i item q;
    Some (true, set_pos (uadd 32 (_count q) 1) (_start q) q')
  else Some (false, q).

Definition elim_push (item : T) (q : bounded_queue) : option bounded_queue :=
  if _count q <? _cap q then
    i ← mod_ (uadd 32 (_start q) (_count q)) (_cap q);
    q' ← construct i item q;
    Some (set_pos (uadd 32 (_count q) 1) (_start q) q')
  else
    q' ← assign (_start q) item q;
    s ← mod_ (uadd 32 (_start q) 1) (_cap q);
    Some (set_pos (_count q) s q').

(** [T *push()] and [T *push_top()]: the slot returned, [None] for [nullptr]. *)
Definition push_default (init : T) (q : bounded_queue) : option (option Z * bounded_queue) :=
  if _count q <? _cap q then
    i ← mod_ (uadd 32 (_start q) (_count q)) (_cap q);
    q' ← construct i init q;
    Some (Some i, set_pos (uadd 32 (_count q) 1) (_start q) q')
  else Some (None, q).

Definition dec_start (q : bounded_queue) : Z :=
  if negb (_start q =? 0) then usub 32 (_start q) 1 else usub 32 (_cap q) 1.

Definition push_top (item : T) (q : bounded_queue) : option (bool * bounded_queue) :=
  if _count q <? _cap q then
    q' ← construct (dec_start q) item q;
    Some (true, set_pos (uadd 32 (_count q) 1) (dec_start q) q')
  else Some (false, q).

Definition push_top_default (init : T) (q : bounded_queue) : option (option Z * bounded_queue) :=
  if _count q <? _cap q then
    q' ← construct (dec_start q) init q;
    Some (Some (dec_start q), set_pos (uadd 32 (_count q) 1) (dec_start q) q')
  else Some (None, q).

Definition pop (q : bounded_queue) : option (bool * bounded_queue) :=
  if negb (_count q =? 0) then
    q' ← destroy (_start q) q;
    s ← mod_ (uadd 32 (_start q) 1) (_cap q);
    Some (true, set_pos (usub 32 (_count q) 1) s q')
  else Some (false, q).

(** [pop(T *item)]: the value copied out, if any. *)
Definition pop_to (q : bounded_queue) : option (option T * bounded_queue) :=
  if negb (_count q =? 0) then
    x ← deref (_start q) q;
    q' ← destroy (_start q) q;
    s ← mod_ (uadd 32 (_start q) 1) (_cap q);
    Some (Some x, set_pos (usub 32 (_count q) 1) s q')
  else Some (None, q).

Definition pop_bottom (q : bounded_queue) : option (bool * bounded_queue) :=
  if negb (_count q =? 0) then
    let count := usub 32 (_count q) 1 in
    i ← mod_ (uadd 32 (_start q) count) (_cap q);
    q' ← destroy i q;
    Some (true, set_pos count (_start q) q')
  else Some (false, q).

Definition pop_bottom_to (q : bounded_queue) : option (option T * bounded_queue) :=
  if negb (_count q =? 0) then
    let count := usub 32 (_count q) 1 in
    i ← mod_ (uadd 32 (_start q) count) (_cap q);
    x ← deref i q;
    q' ← destroy i q;
    Some (Some x, set_pos count (_start q) q')
  else Some (None, q).

Fixpoint clear_loop (n : nat) (i : Z) (q : bounded_queue) : option bounded_queue :=
  match n with
  | O => Some q
  | S n =>
      j ← mod_ (uadd 32 (_start q) i) (_cap q);
      q' ← destroy j q;
      clear_loop n (uadd 32 i 1) q'
  end.

Definition clear (q : bounded_queue) : option bounded_queue :=
  q' ← clear_loop (Z.to_nat (_count q)) 0 q; Some (set_pos 0 0 q').

(** The destructor: the memory it leaves, [None] when it was freed. *)
Definition bq_delete (q : bounded_queue) : option (option (list (option T))) :=
  q' ← clear q;
  Some (match _ownership q' with OWNS_STORAGE => None | NOT_OWN_STORAGE => _items q' end).

(** Pointers into the memory: a slot, or [None] for [nullptr]. *)
Definition top (q : bounded_queue) : option Z := if negb (_count q =? 0) then Some (_start q) else None.
Definition top_at (index : Z) (q : bounded_queue) : option (option Z) :=
  if index <? _count q then Some <$> mod_ (wrap 32 (uadd 64 (_start q) index)) (_cap q) else Some None.
Definition bottom (q : bounded_queue) : option (option Z) :=
  if negb (_count q =? 0) then Some <$> mod_ (usub 32 (uadd 32 (_start q) (_count q)) 1) (_cap q) else Some None.
Definition bottom_at (index : Z) (q : bounded_queue) : option (option Z) :=
  if index <? _count q
  then Some <$> mod_ (wrap 32 (usub 64 (usub 64 (uadd 32 (_start q) (_count q)) index) 1)) (_cap q)
  else Some None.

Definition empty (q : bounded_queue) : bool := negb (negb (_count q =? 0)).
Definition full (q : bounded_queue) : bool := _cap q =? _count q.
Definition size (q : bounded_queue) : Z := _count q.
Definition capacity (q : bounded_queue) : Z := _cap q.
Definition max_capacity : Z := usub 64 (ushl 64 1 32) 1.
Definition initialized (q : bounded_queue) : bool := match _items q with Some _ => true | None => false end.
Definition swap (this rhs : bounded_queue) : bounded_queue * bounded_queue := (rhs, this).

(** ** Invariant and abstraction *)

(** Slot [i] of the ring holds item [i] of [l], and is raw past its end. *)
Definition deque_is (v : list (option T)) (cap start : Z) (l : list T) : Prop :=
  zlen l <= cap <= zlen v /\ forall i, 0 <= i < cap -> zget v (slot cap start i) = Some (zget l i).

(** [q] holds the items [l], top first. *)
Record bq_is (q : bounded_queue) (l : list T) : Prop := {
  bq_cap : 0 <= _cap q <= 2 ^ 31;
  bq_count : _count q = zlen l;
  bq_start : 0 <= _start q < Z.max 1 (_cap q);
  bq_deque : deque_is (mem q) (_cap q) (_start q) l;
}.

Lemma mod_loop_spec fuel off cap : 0 < cap -> 0 <= off < 2 ^ 32 -> cap < 2 ^ 32 -> off / cap <= Z.of_nat fuel ->
  mod_loop fuel off cap = Some (off mod cap).
Proof.
  intros Hc. revert off. induction fuel as [|fuel IH]; intros off Ho Hc2 Hf; cbn [mod_loop]; destruct (Z.leb_spec cap off).
  - assert (1 <= off / cap) by (apply Z.div_le_lower_bound; lia). lia.
  - by rewrite Z.mod_small by lia.
  - unfold usub. rewrite wrap_small by lia. rewrite IH.
    + f_equal. rewrite <- (Z_mod_plus_full (off - cap) 1 cap). f_equal. lia.
    + lia.
    + lia.
    + replace (off - cap) with (off + (-1) * cap) by lia. rewrite Z_div_plus_full by lia. lia.
  - by rewrite Z.mod_small by lia.
Qed.

(** [_mod] terminates with the remainder for every positive capacity. *)
Lemma mod_spec off cap : 0 < cap < 2 ^ 32 -> 0 <= off < 2 ^ 32 -> mod_ off cap = Some (off mod cap).
Proof.
  intros. unfold mod_. pose proof (Z.div_pos off cap ltac:(lia) ltac:(lia)). apply mod_loop_spec; lia.
Qed.

(** With no capacity it does not end, whatever the fuel. *)
Lemma mod_loop_diverges fuel off : 0 <= off < 2 ^ 32 -> mod_loop fuel off 0 = None.
Proof.
  intros Ho. induction fuel as [|fuel IH]; cbn [mod_loop]; (destruct (Z.leb_spec 0 off); [|lia]); [done|].
  unfold usub. by rewrite Z.sub_0_r, wrap_small by lia.
Qed.

Lemma mod_index cap start i : 0 < cap <= 2 ^ 31 -> 0 <= start < cap -> 0 <= i <= cap ->
  mod_ (uadd 32 start i) cap = Some (slot cap start i).
Proof. intros. unfold uadd. rewrite wrap_small by lia. apply mod_spec; lia. Qed.

Lemma deque_nil v cap start : 0 < cap <= zlen v -> (forall i, 0 <= i < cap -> zget v i = Some None) -> deque_is v cap start [].
Proof.
  intros Hc Hv. split; [change (zlen (@nil T)) with 0; lia|]. intros i Hi. rewrite zget_nil. apply Hv. apply slot_range; lia.
Qed.

Section Writes.
Context (v v' : list (option T)) (cap start : Z) (l : list T) (Hcap : 0 < cap) (H : deque_is v cap start l).

Lemma deque_push_back x : zlen l < cap -> zset v (slot cap start (zlen l)) (Some x) = Some v' ->
  deque_is v' cap start (l ++ [x]).
Proof.
  intros Hl E. destruct H as [Hz Hv]. pose proof (zset_len _ _ _ _ E). pose proof (zlen_nonneg l).
  split; [rewrite zlen_app, zlen_1; lia|]. intros i Hi. rewrite (zget_zset _ _ _ _ _ E), zget_app.
  destruct (Z.eqb_spec (slot cap start i) (slot cap start (zlen l))) as [Es|Es].
  - apply slot_inj in Es; [|lia..]. subst i. by rewrite Z.ltb_irrefl, Z.sub_diag.
  - rewrite Hv by done. f_equal. destruct (Z.ltb_spec i (zlen l)); [done|].
    rewrite zget_cons, zget_nil. destruct (Z.eqb_spec (i - zlen l) 0); [exfalso; apply Es; f_equal; lia|].
    unfold zget. destruct (Z.ltb_spec i 0); [done|]. apply lookup_ge_None_2. unfold zlen in *. lia.
Qed.

Lemma deque_push_front x : zlen l < cap -> zset v (slot cap start (-1)) (Some x) = Some v' ->
  deque_is v' cap (slot cap start (-1)) (x :: l).
Proof.
  intros Hl E. destruct H as [Hz Hv]. pose proof (zset_len _ _ _ _ E). pose proof (zlen_nonneg l).
  split; [rewrite zlen_cons; lia|]. intros i Hi. rewrite (zget_zset _ _ _ _ _ E), slot_slot, zget_cons.
  assert (Es : slot cap start (-1) = slot cap start (cap - 1)).
  { unfold slot. replace (start + (cap - 1)) with (start + -1 + 1 * cap) by lia. by rewrite Z_mod_plus_full. }
  destruct (Z.eqb_spec i 0) as [->|]; [by rewrite Z.eqb_refl|].
  destruct (Z.eqb_spec (slot cap start (-1 + i)) (slot cap start (-1))) as [E1|E1].
  - rewrite Es in E1. apply slot_inj in E1; lia.
  - replace (-1 + i) with (i - 1) by lia. apply Hv. lia.
Qed.

Lemma deque_pop_back l' x : l = l' ++ [x] -> zset v (slot cap start (zlen l')) None = Some v' -> deque_is v' cap start l'.
Proof.
  intros El E. destruct H as [Hz Hv]. pose proof (zset_len _ _ _ _ E). pose proof (zlen_nonneg l').
  rewrite El, zlen_app, zlen_1 in Hz. split; [lia|]. intros i Hi. rewrite (zget_zset _ _ _ _ _ E).
  destruct (Z.eqb_spec (slot cap start i) (slot cap start (zlen l'))) as [Es|Es].
  - apply slot_inj in Es; [|lia..]. subst i. f_equal. unfold zget, zlen. destruct (Z.ltb_spec (Z.of_nat (length l')) 0); [done|].
    by rewrite lookup_ge_None_2 by lia.
  - rewrite Hv, El, zget_app by done. f_equal. destruct (Z.ltb_spec i (zlen l')); [done|].
    rewrite zget_cons, zget_nil. destruct (Z.eqb_spec (i - zlen l') 0); [exfalso; apply Es; f_equal; lia|].
    unfold zget. destruct (Z.ltb_spec i 0); [done|]. rewrite lookup_ge_None_2; [done|]. unfold zlen in *. lia.
Qed.

Lemma deque_pop_front l' x : l = x :: l' -> zset v (slot cap start 0) None = Some v' -> deque_is v' cap (slot cap start 1) l'.
Proof.
  intros El E. destruct H as [Hz Hv]. pose proof (zset_len _ _ _ _ E). pose proof (zlen_nonneg l').
  rewrite El, zlen_cons in Hz. split; [lia|]. intros i Hi. rewrite (zget_zset _ _ _ _ _ E), slot_slot.
  destruct (Z.eq_dec (1 + i) cap) as [Ei|Ei].
  - assert (slot cap start (1 + i) = slot cap start 0) as ->.
    { unfold slot. rewrite Ei. replace (start + cap) with (start + 0 + 1 * cap) by lia. apply Z_mod_plus_full. }
    rewrite Z.eqb_refl. f_equal. unfold zget. destruct (Z.ltb_spec i 0); [done|]. rewrite lookup_ge_None_2; [done|]. unfold zlen in *. lia.
  - destruct (Z.eqb_spec (slot cap start (1 + i)) (slot cap start 0)) as [Es|Es]; [apply slot_inj in Es; lia|].
    rewrite Hv, El, zget_cons by lia. destruct (Z.eqb_spec (1 + i) 0); [lia|]. by replace (1 + i - 1) with i by lia.
Qed.

(** Overwriting the first item and advancing [start] rotates it to the end: the full queue. *)
Lemma deque_replace l' x y : l = x :: l' -> zlen l = cap -> zset v (slot cap start 0) (Some y) = Some v' ->
  deque_is v' cap (slot cap start 1) (l' ++ [y]).
Proof.
  intros El Hl E. destruct H as [Hz Hv]. pose proof (zset_len _ _ _ _ E). pose proof (zlen_nonneg l').
  rewrite El, zlen_cons in Hl. split; [rewrite zlen_app, zlen_1; lia|]. intros i Hi.
  rewrite (zget_zset _ _ _ _ _ E), slot_slot, zget_app. destruct (Z.ltb_spec i (zlen l')).
  - destruct (Z.eqb_spec (slot cap start (1 + i)) (slot cap start 0)) as [Es|Es]; [apply slot_inj in Es; lia|].
    rewrite Hv, El, zget_cons by lia. destruct (Z.eqb_spec (1 + i) 0); [lia|]. by replace (1 + i - 1) with i by lia.
  - assert (slot cap start (1 + i) = slot cap start 0) as ->.
    { unfold slot. replace (start + (1 + i)) with (start + 0 + 1 * cap) by lia. apply Z_mod_plus_full. }
    rewrite Z.eqb_refl. by replace (i - zlen l') with 0 by lia.
Qed.
End Writes.

(** ** The operations on a well-formed queue *)

Lemma bq_slot_range q l i : bq_is q l -> 0 < _cap q -> 0 <= slot (_cap q) (_start q) i < zlen (mem q).
Proof. intros [_ _ _ [Hz _]] Hc. pose proof (slot_range (_cap q) (_start q) i Hc). lia. Qed.

Lemma construct_ok q l i x : bq_is q l -> 0 < _cap q ->
  exists v, zset (mem q) (slot (_cap q) (_start q) i) (Some x) = Some v /\
    construct (slot (_cap q) (_start q) i) x q = Some (set_mem q v).
Proof.
  intros H Hc. pose proof (zset_ok (mem q) _ (Some x) (bq_slot_range q l i H Hc)) as E.
  eexists. split; [exact E|]. unfold construct. by rewrite E.
Qed.

Lemma deref_ok q l i : bq_is q l -> 0 <= i < _cap q -> deref (slot (_cap q) (_start q) i) q = zget l i.
Proof. intros [_ _ _ [_ Hv]] Hi. unfold deref. by rewrite Hv. Qed.

Lemma destroy_ok q l i x : bq_is q l -> 0 <= i < _cap q -> zget l i = Some x ->
  exists v, zset (mem q) (slot (_cap q) (_start q) i) None = Some v /\
    destroy (slot (_cap q) (_start q) i) q = Some (set_mem q v).
Proof.
  intros H Hi Hx. pose proof (zset_ok (mem q) _ None (bq_slot_range q l i H ltac:(lia))) as E.
  eexists. split; [exact E|]. unfold destroy. rewrite (deref_ok q l i H Hi), Hx. cbn [mbind option_bind]. by rewrite E.
Qed.

Lemma bq_is_pos q l : bq_is q l -> l <> [] -> 0 < _cap q.
Proof. intros [_ _ _ [Hz _]] Hl. destruct l as [|x l]; [done|]. rewrite zlen_cons in Hz. pose proof (zlen_nonneg l). lia. Qed.

Lemma dec_start_slot q : 0 < _cap q <= 2 ^ 31 -> 0 <= _start q < _cap q -> dec_start q = slot (_cap q) (_start q) (-1).
Proof.
  intros Hc Hs. unfold dec_start, usub, slot. destruct (Z.eqb_spec (_start q) 0) as [->|]; cbn [negb]; rewrite wrap_small by lia.
  - apply (Z.mod_unique_pos _ _ (-1)); lia.
  - symmetry. apply Z.mod_small. lia.
Qed.

Lemma bq_count_zero q l : bq_is q l -> (_count q =? 0) = bool_decide (l = []).
Proof.
  intros H. rewrite (bq_count q l H). pose proof (zlen_nonneg l). destruct l as [|x l]; [done|].
  rewrite zlen_cons. pose proof (zlen_nonneg l). rewrite bool_decide_false by done. apply Z.eqb_neq. lia.
Qed.

(** Storing an item at the bottom, common to the three pushes there. *)
Lemma push_back_slot q l x : bq_is q l -> _count q < _cap q ->
  mod_ (uadd 32 (_start q) (_count q)) (_cap q) = Some (slot (_cap q) (_start q) (zlen l)) /\
  exists v, construct (slot (_cap q) (_start q) (zlen l)) x q = Some (set_mem q v) /\
    bq_is (set_pos (uadd 32 (_count q) 1) (_start q) (set_mem q v)) (l ++ [x]).
Proof.
  intros H Hl. pose proof H as [Hc Hn Hs Hd]. rewrite Hn in *. pose proof (zlen_nonneg l).
  split; [apply mod_index; lia|]. destruct (construct_ok q l (zlen l) x H ltac:(lia)) as (v & Ev & E).
  exists v. split; [done|]. split; cbn [_count _cap _start set_pos set_mem].
  - done.
  - unfold uadd. rewrite wrap_small, zlen_app, zlen_1; lia.
  - done.
  - eapply deque_push_back; [|exact Hd| |exact Ev]; lia.
Qed.

Lemma push_front_slot q l x : bq_is q l -> _count q < _cap q ->
  exists v, construct (dec_start q) x q = Some (set_mem q v) /\
    bq_is (set_pos (uadd 32 (_count q) 1) (dec_start q) (set_mem q v)) (x :: l).
Proof.
  intros H Hl. pose proof H as [Hc Hn Hs Hd]. rewrite Hn in *. pose proof (zlen_nonneg l). rewrite dec_start_slot by lia.
  destruct (construct_ok q l (-1) x H ltac:(lia)) as (v & Ev & E).
  exists v. split; [done|]. pose proof (slot_range (_cap q) (_start q) (-1) ltac:(lia)). split; cbn [_count _cap _start set_pos set_mem].
  - done.
  - unfold uadd. rewrite wrap_small, zlen_cons; lia.
  - lia.
  - eapply deque_push_front; [|exact Hd| |exact Ev]; lia.
Qed.

Lemma pop_front_slot q x l : bq_is q (x :: l) ->
  deref (_start q) q = Some x /\ mod_ (uadd 32 (_start q) 1) (_cap q) = Some (slot (_cap q) (_start q) 1) /\
  exists v, destroy (_start q) q = Some (set_mem q v) /\
    bq_is (set_pos (usub 32 (_count q) 1) (slot (_cap q) (_start q) 1) (set_mem q v)) l.
Proof.
  intros H. pose proof (bq_is_pos q _ H ltac:(done)) as Hpos. pose proof H as [Hc Hn Hs Hd].
  pose proof (zlen_nonneg l). pose proof Hd as [Hz _]. rewrite zlen_cons in *.
  assert (E0 : slot (_cap q) (_start q) 0 = _start q) by (apply slot_0; lia). split_and!.
  - rewrite <- E0. rewrite (deref_ok q _ 0 H); [done|lia].
  - apply mod_index; lia.
  - destruct (destroy_ok q _ 0 x H ltac:(lia) eq_refl) as (v & Ev & E). exists v. rewrite E0 in E. split; [done|].
    pose proof (slot_range (_cap q) (_start q) 1 ltac:(lia)). split; cbn [_count _cap _start set_pos set_mem].
    + done.
    + unfold usub. rewrite wrap_small; lia.
    + lia.
    + eapply deque_pop_front; [|exact Hd|done|exact Ev]; lia.
Qed.

Lemma pop_back_slot q l x : bq_is q (l ++ [x]) ->
  mod_ (uadd 32 (_start q) (usub 32 (_count q) 1)) (_cap q) = Some (slot (_cap q) (_start q) (zlen l)) /\
  deref (slot (_cap q) (_start q) (zlen l)) q = Some x /\
  exists v, destroy (slot (_cap q) (_start q) (zlen l)) q = Some (set_mem q v) /\
    bq_is (set_pos (usub 32 (_count q) 1) (_start q) (set_mem q v)) l.
Proof.
  intros H. pose proof (bq_is_pos q _ H ltac:(by destruct l)) as Hpos. pose proof H as [Hc Hn Hs Hd].
  pose proof (zlen_nonneg l). pose proof Hd as [Hz _]. rewrite zlen_app, zlen_1 in *.
  assert (En : usub 32 (_count q) 1 = zlen l) by (unfold usub; rewrite wrap_small; lia). rewrite En.
  assert (Ex : zget (l ++ [x]) (zlen l) = Some x) by (rewrite zget_app, Z.ltb_irrefl, Z.sub_diag; done). split_and!.
  - apply mod_index; lia.
  - rewrite (deref_ok q _ (zlen l) H); [done|lia].
  - destruct (destroy_ok q _ (zlen l) x H ltac:(lia) Ex) as (v & Ev & E). exists v. split; [done|].
    split; cbn [_count _cap _start set_pos set_mem]; [done|done|done|].
    eapply deque_pop_back; [|exact Hd|done|exact Ev]; lia.
Qed.

Lemma elim_push_ok q l x : bq_is q l -> 0 < _cap q ->
  exists q', elim_push x q = Some q' /\ bq_is q' (if zlen l <? _cap q then l ++ [x] else tail l ++ [x]).
Proof.
  intros H Hpos. unfold elim_push. rewrite (bq_count q l H). destruct (Z.ltb_spec (zlen l) (_cap q)) as [Hl|Hl].
  - destruct (push_back_slot q l x H) as (Ei & v & E & Hq); [rewrite (bq_count q l H); lia|].
    rewrite (bq_count q l H) in *. rewrite Ei. cbn [mbind option_bind]. rewrite E. eexists. split; [reflexivity|exact Hq].
  - destruct l as [|y l]; [change (zlen (@nil T)) with 0 in Hl; lia|].
    destruct (pop_front_slot q y l H) as (Ed & Em & _). pose proof H as [Hc Hn Hs Hd]. pose proof Hd as [Hz _].
    assert (E0 : slot (_cap q) (_start q) 0 = _start q) by (apply slot_0; lia).
    destruct (construct_ok q _ 0 x H Hpos) as (v & Ev & _). rewrite E0 in Ev.
    unfold assign. rewrite Ed. cbn [mbind option_bind]. rewrite Ev. cbn [mbind option_bind]. rewrite Em. cbn [mbind option_bind].
    eexists. split; [reflexivity|]. pose proof (slot_range (_cap q) (_start q) 1 Hpos). rewrite zlen_cons in *.
    split; cbn [_count _cap _start set_pos set_mem].
    + done.
    + rewrite zlen_app, zlen_1. cbn [tail]. lia.
    + lia.
    + eapply deque_replace; [|exact Hd|done|rewrite zlen_cons; lia|rewrite E0; exact Ev]. lia.
Qed.

(** An empty ring is raw everywhere, so it can start anywhere. *)
Lemma deque_nil_move v cap s s' : 0 < cap -> deque_is v cap s [] -> deque_is v cap s' [].
Proof.
  intros Hc [Hz Hv]. apply deque_nil; [change (zlen (@nil T)) with 0 in Hz; lia|]. intros j Hj.
  rewrite <- (zget_nil ((j - s) mod cap)). rewrite <- Hv by (apply Z.mod_pos_bound; lia). f_equal. unfold slot.
  rewrite Zplus_mod_idemp_r. replace (s + (j - s)) with j by lia. symmetry. by apply Z.mod_small.
Qed.

Lemma clear_loop_ok l q i : 0 < _cap q <= 2 ^ 31 -> 0 <= _start q < _cap q -> 0 <= i -> i + zlen l <= _cap q ->
  deque_is (mem q) (_cap q) (slot (_cap q) (_start q) i) l ->
  exists q', clear_loop (length l) i q = Some q' /\ _cap q' = _cap q /\ _start q' = _start q /\
    _ownership q' = _ownership q /\ deque_is (mem q') (_cap q) (slot (_cap q) (_start q) (i + zlen l)) [].
Proof.
  revert q i. induction l as [|x l IH]; intros q i Hc Hs Hi Hil Hd; cbn [clear_loop length].
  - exists q. change (zlen (@nil T)) with 0. by rewrite Z.add_0_r.
  - rewrite zlen_cons in *. pose proof (zlen_nonneg l). rewrite mod_index by lia. cbn [mbind option_bind].
    pose proof Hd as [Hz Hv]. assert (E0 : slot (_cap q) (slot (_cap q) (_start q) i) 0 = slot (_cap q) (_start q) i).
    { apply slot_0. apply slot_range. lia. }
    assert (Er : zget (mem q) (slot (_cap q) (_start q) i) = Some (Some x)) by (rewrite <- E0, Hv by lia; done).
    unfold destroy, deref. rewrite Er. cbn [mbind option_bind].
    pose proof (slot_range (_cap q) (_start q) i ltac:(lia)).
    assert (Ev : zset (mem q) (slot (_cap q) (_start q) i) None = Some (<[Z.to_nat (slot (_cap q) (_start q) i) := None]> (mem q))) by (apply zset_ok; lia).
    rewrite Ev. cbn [mbind option_bind]. unfold uadd at 1. rewrite wrap_small by lia.
    destruct (IH (set_mem q (<[Z.to_nat (slot (_cap q) (_start q) i) := None]> (mem q))) (i + 1)) as (q' & E & E1 & E2 & E3 & Hd');
      cbn [_cap _start set_mem]; [done|done|lia|lia| |].
    + rewrite <- (slot_slot _ _ i 1). eapply deque_pop_front; [|exact Hd|done|rewrite E0; exact Ev]. lia.
    + exists q'. split_and!; [done..|]. cbn [_cap _start set_mem] in Hd'. by replace (i + (1 + zlen l)) with (i + 1 + zlen l) by lia.
Qed.

Lemma bq_clear_ok q l : bq_is q l -> exists q', clear q = Some q' /\ bq_is q' [] /\ _cap q' = _cap q /\ _ownership q' = _ownership q.
Proof.
  intros H. pose proof H as [Hc Hn Hs Hd]. unfold clear. rewrite Hn. unfold zlen at 1. rewrite Nat2Z.id.
  destruct (Z.eq_dec (_cap q) 0) as [E0|E0].
  - destruct l as [|x l]; [|pose proof (bq_is_pos q _ H ltac:(done)); lia]. cbn. eexists. split_and!; [reflexivity| |done|done].
    split; cbn [_count _cap _start set_pos]; [done|done|lia|]. destruct Hd as [Hz _]. split; [exact Hz|]. intros; lia.
  - destruct (clear_loop_ok l q 0) as (q' & E & E1 & E2 & E3 & Hd').
    + lia.
    + lia.
    + lia.
    + destruct Hd as [Hz _]. lia.
    + rewrite slot_0 by lia. done.
    + rewrite E. cbn [mbind option_bind]. eexists. split_and!; [reflexivity| |done|done].
      split; cbn [_count _cap _start set_pos]; rewrite ?E1; [done|done|lia|]. eapply deque_nil_move; [|exact Hd']. lia.
Qed.

(** The accessors point at the items. *)
Lemma top_at_ok q l i : bq_is q l -> 0 <= i < 2 ^ 64 ->
  exists p, top_at i q = Some p /\ (p ≫= λ j, deref j q) = zget l i.
Proof.
  intros H Hi. pose proof H as [Hc Hn Hs [Hz Hv]]. unfold top_at. rewrite Hn. destruct (Z.ltb_spec i (zlen l)).
  - unfold uadd. rewrite (wrap_small 64), wrap_small, mod_spec by lia. cbn. eexists. split; [reflexivity|]. cbn [mbind option_bind].
    apply (deref_ok q l i H). lia.
  - exists None. split; [done|]. cbn. symmetry. unfold zget. destruct (Z.ltb_spec i 0); [done|]. apply lookup_ge_None_2. unfold zlen in *. lia.
Qed.

Lemma bottom_at_ok q l i : bq_is q l -> 0 <= i < 2 ^ 64 ->
  exists p, bottom_at i q = Some p /\ (p ≫= λ j, deref j q) = zget (reverse l) i.
Proof.
  intros H Hi. pose proof H as [Hc Hn Hs [Hz Hv]]. unfold bottom_at. rewrite Hn. destruct (Z.ltb_spec i (zlen l)).
  - unfold uadd, usub. rewrite (wrap_small 32 (_start q + zlen l)) by lia. rewrite (wrap_small 64 (_start q + zlen l - i)) by lia.
    rewrite (wrap_small 64), wrap_small, mod_spec by lia. cbn. eexists. split; [reflexivity|]. cbn [mbind option_bind].
    replace (_start q + zlen l - i - 1) with (_start q + (zlen l - i - 1)) by lia.
    etransitivity; [apply (deref_ok q l (zlen l - i - 1) H); lia|]. unfold zget, zlen in *. zcases; [lia..|].
    rewrite reverse_lookup by lia. f_equal. lia.
  - exists None. split; [done|]. cbn. symmetry. unfold zget. destruct (Z.ltb_spec i 0); [done|]. apply lookup_ge_None_2.
    rewrite length_reverse. unfold zlen in *. lia.
Qed.
End BoundedQueue.
Arguments bounded_queue : clear implicits.

(** ** Properties *)

(** C9: the queue refines a double-ended list of at most [capacity] items: each push adds at
    its end or reports that the queue is full, each pop removes there and reports emptiness,
    [elim_push] on a full queue drops the top item; objects are constructed only in raw
    slots and destroyed only where one lives, and no index leaves the memory. *)
Theorem bounded_queue_refines_deque {T : Type} (q : bounded_queue T) (l : list T) (x : T) : bq_is q l ->
  (if zlen l <? _cap q
   then (exists q', push x q = Some (true, q') /\ bq_is q' (l ++ [x])) /\
        (exists q' i, push_default x q = Some (Some i, q') /\ bq_is q' (l ++ [x]) /\ deref i q' = Some x) /\
        (exists q', push_top x q = Some (true, q') /\ bq_is q' (x :: l)) /\
        (exists q' i, push_top_default x q = Some (Some i, q') /\ bq_is q' (x :: l) /\ deref i q' = Some x)
   else push x q = Some (false, q) /\ push_default x q = Some (None, q) /\
        push_top x q = Some (false, q) /\ push_top_default x q = Some (None, q)) /\
  (0 < _cap q -> exists q', elim_push x q = Some q' /\ bq_is q' (if zlen l <? _cap q then l ++ [x] else tail l ++ [x])) /\
  match l with
  | [] => pop q = Some (false, q) /\ pop_to q = Some (None, q)
  | y :: l' => exists q', pop q = Some (true, q') /\ pop_to q = Some (Some y, q') /\ bq_is q' l'
  end /\
  (l = [] -> pop_bottom q = Some (false, q) /\ pop_bottom_to q = Some (None, q)) /\
  (forall l' y, l = l' ++ [y] -> exists q', pop_bottom q = Some (true, q') /\ pop_bottom_to q = Some (Some y, q') /\ bq_is q' l').
Proof.
  intros H. pose proof (bq_count_zero q l H) as Ez. pose proof (bq_count q l H) as En. split_and!.
  - unfold push, push_default, push_top, push_top_default. rewrite <- En. destruct (Z.ltb_spec (_count q) (_cap q)) as [Hl|Hl]; [|done].
    destruct (push_back_slot q l x H Hl) as (Ei & v & E & Hq). destruct (push_front_slot q l x H Hl) as (w & Ew & Hw).
    rewrite Ei. cbn [mbind option_bind]. rewrite E, Ew. cbn [mbind option_bind].
    assert (Hpos : 0 < _cap q) by (pose proof (zlen_nonneg l); lia).
    split_and!; eexists; try (by split); eexists; (split; [reflexivity|]); (split; [done|]).
    + destruct Hq as [_ _ _ [_ Hv]]. unfold deref. rewrite Hv by (cbn [_cap set_pos set_mem]; pose proof (zlen_nonneg l); lia).
      by rewrite zget_app, Z.ltb_irrefl, Z.sub_diag.
    + destruct Hw as [_ _ Hs [_ Hv]]. cbn [_cap _start set_pos set_mem] in *. specialize (Hv 0 ltac:(lia)).
      rewrite slot_0 in Hv by lia. unfold deref. by rewrite Hv.
  - by apply elim_push_ok.
  - unfold pop, pop_to. rewrite Ez. destruct l as [|y l']; [done|]. rewrite bool_decide_false by done. cbn [negb].
    destruct (pop_front_slot q y l' H) as (Ed & Em & v & E & Hq). rewrite Ed, E, Em. cbn. eexists. split_and!; done.
  - intros ->. unfold pop_bottom, pop_bottom_to. rewrite Ez. done.
  - intros l' y ->. unfold pop_bottom, pop_bottom_to. rewrite Ez, bool_decide_false by (by destruct l'). cbn [negb].
    destruct (pop_back_slot q l' y H) as (Em & Ed & v & E & Hq). rewrite Em. cbn [mbind option_bind]. rewrite Ed, E. cbn. eexists. split_and!; done.
Qed.

Lemma bq_is_example : bq_is (BoundedQueue 2 3 2 OWNS_STORAGE (Some [Some 5; None; Some 4]%nat)) [4; 5]%nat.
Proof.
  split; cbn; [lia|reflexivity|lia|]. split; [split; vm_compute; discriminate|]. intros i Hi.
  assert (i = 0 \/ i = 1 \/ i = 2) as [-> | [-> | ->]] by lia; reflexivity.
Qed.

Lemma bounded_queue_refines_deque_witness :
  exists q', elim_push 7%nat (BoundedQueue 2 3 2 OWNS_STORAGE (Some [Some 5; None; Some 4]%nat)) = Some q' /\ bq_is q' [4; 5; 7]%nat.
Proof.
  destruct (bounded_queue_refines_deque _ _ 7%nat bq_is_example) as (_ & H & _). apply H. cbn. lia.
Defined.

(** The accessors read the items from both ends and give a null pointer exactly out of
    range; [clear] and the destructor destroy every item and leave only raw memory; the
    constructors give an empty queue over as many slots as the memory holds. *)
Theorem bounded_queue_access_clear {T : Type} (q : bounded_queue T) (l : list T) (i sz n : Z) : bq_is q l ->
  0 <= i < 2 ^ 64 -> 0 < sz -> 0 <= n <= 2 ^ 31 -> n * sz < 2 ^ 64 ->
  ((top q ≫= λ j, deref j q) = list.head l) /\
  (exists p, bottom q = Some p /\ (p ≫= λ j, deref j q) = list.last l) /\
  (exists p, top_at i q = Some p /\ (p ≫= λ j, deref j q) = zget l i) /\
  (exists p, bottom_at i q = Some p /\ (p ≫= λ j, deref j q) = zget (reverse l) i) /\
  empty q = bool_decide (l = []) /\ size q = zlen l /\
  (exists q', clear q = Some q' /\ bq_is q' [] /\
     bq_delete q = Some (match _ownership q with OWNS_STORAGE => None | NOT_OWN_STORAGE => _items q' end)) /\
  bq_is (bq_of_capacity true sz n : bounded_queue T) [] /\ bq_is (bq_of_memory sz (n * sz) NOT_OWN_STORAGE : bounded_queue T) [].
Proof.
  intros H Hi Hsz Hn Hm. pose proof (bq_count_zero q l H) as Ez. pose proof (bq_count q l H) as En.
  assert (Raw : forall own, bq_is (BoundedQueue 0 (wrap 32 n) 0 own (Some (replicate (Z.to_nat n) None)) : bounded_queue T) []).
  { intros own. split; cbn [_cap _count _start]; rewrite ?wrap_small by lia; [lia|done|lia|].
    destruct (Z.eq_dec n 0) as [->|]; [split; [done|intros; lia]|]. apply deque_nil; cbn.
    - unfold zlen. rewrite length_replicate. lia.
    - intros j Hj. unfold zget. destruct (Z.ltb_spec j 0); [lia|]. apply lookup_replicate_2. lia. }
  assert (Hb : forall p, bottom_at 0 q = Some p -> bottom q = Some p).
  { unfold bottom, bottom_at. intros p. rewrite Ez. pose proof (zlen_nonneg l). rewrite En. destruct l as [|y l'].
    - done.
    - rewrite bool_decide_false by done. rewrite zlen_cons in *. destruct (Z.ltb_spec 0 (1 + zlen l')); [|pose proof (zlen_nonneg l'); lia].
      intros <-. cbn [negb]. pose proof H as [Hc _ Hs [Hz _]]. rewrite zlen_cons in *. unfold usub, uadd.
      rewrite (wrap_small 32 (_start q + _)), Z.sub_0_r, !(wrap_small 64) by (try rewrite wrap_small; lia). done. }
  split_and!.
  - unfold top. rewrite Ez. destruct l as [|y l']; [done|]. rewrite bool_decide_false by done. cbn.
    by destruct (pop_front_slot q y l' H).
  - destruct (bottom_at_ok q l 0 H ltac:(lia)) as (p & E & Ep). exists p. split; [by apply Hb|]. rewrite Ep.
    unfold zget. destruct (Z.ltb_spec 0 0); [lia|]. destruct l as [|y l' _] using rev_ind; [done|].
    by rewrite reverse_snoc, last_snoc.
  - by apply top_at_ok.
  - by apply bottom_at_ok.
  - unfold empty. rewrite Ez. by destruct (bool_decide _).
  - exact En.
  - destruct (bq_clear_ok q l H) as (q' & E & Hq & _ & Eo). exists q'. split_and!; [done..|]. unfold bq_delete. rewrite E. cbn. by rewrite Eo.
  - unfold bq_of_capacity, umul. rewrite (wrap_small 64), Z.div_mul by lia. apply Raw.
  - unfold bq_of_memory. rewrite Z.div_mul by lia. apply Raw.
Qed.

Lemma bounded_queue_access_clear_witness :
  exists p, bottom_at 1 (BoundedQueue 2 3 2 OWNS_STORAGE (Some [Some 5; None; Some 4]%nat)) = Some p /\
    (p ≫= λ j, deref j (BoundedQueue 2 3 2 OWNS_STORAGE (Some [Some 5; None; Some 4]%nat))) = zget (reverse [4; 5]%nat) 1.
Proof.
  destruct (bounded_queue_access_clear _ _ 1 8 4 bq_is_example) as (_ & _ & _ & H & _); [lia|lia|lia|lia|]. exact H.
Defined.

(** The loop of [_mod] ends with the remainder for every positive capacity; without any
    capacity it never ends, and [elim_push] is undefined there. Above a capacity of 2^31 the
    [uint32_t] sum [_start + _count] wraps, and then [push] constructs its item over the
    live item of another position. *)
Theorem bounded_queue_mod_limits {T : Type} (q : bounded_queue T) (x : T) (off cap : Z) : 0 <= off < 2 ^ 32 -> 0 < cap < 2 ^ 32 ->
  mod_ off cap = Some (off mod cap) /\ (forall fuel, mod_loop fuel off 0 = None) /\
  (_count q = 0 -> _cap q = 0 -> mem q = [] -> elim_push x q = None) /\
  (0 < _cap q < 2 ^ 32 -> 0 <= _start q < _cap q -> 0 <= _count q < _cap q -> 2 ^ 32 <= _start q + _count q ->
     exists i, 0 <= i < _count q /\ mod_ (uadd 32 (_start q) (_count q)) (_cap q) = Some (slot (_cap q) (_start q) i)).
Proof.
  intros Ho Hc. split_and!; [by apply mod_spec|intros; by apply mod_loop_diverges| |].
  - intros E1 E2 E3. unfold elim_push, assign, deref. rewrite E1, E2, E3, zget_nil. done.
  - intros H1 H2 H3 H4. exists (_count q + _cap q - 2 ^ 32). split; [lia|].
    unfold uadd. assert (E : wrap 32 (_start q + _count q) = _start q + _count q - 2 ^ 32).
    { unfold wrap. symmetry. apply (Z.mod_unique_pos _ _ 1); lia. }
    rewrite E, mod_spec by lia. unfold slot. f_equal.
    replace (_start q + (_count q + _cap q - 2 ^ 32)) with (_start q + _count q - 2 ^ 32 + 1 * _cap q) by lia.
    symmetry. apply Z_mod_plus_full.
Qed.

Lemma bounded_queue_mod_limits_witness :
  exists i, 0 <= i < 4294967293 /\ mod_ (uadd 32 4294967294 4294967293) 4294967295 = Some (slot 4294967295 4294967294 i).
Proof.
  destruct (bounded_queue_mod_limits (BoundedQueue 4294967293 4294967295 4294967294 OWNS_STORAGE (None : option (list (option nat)))) 0%nat 7 3)
    as (_ & _ & _ & H); [lia|lia|]. apply H; cbn; lia.
Defined.
