(* ===== verification/BitArray.v ===== *)
(** * Arrays of bits (container/internal/bit_array.h)

    Bits packed in 64-bit words, the summary of the occupied buckets of a sparse
    [FlatMap]. An access outside the array is [None]. The array comes from [malloc] and
    is not cleared; [ctzl] is the compiler's count of trailing zeros. *)
From S2P Require Import Prelude Words Bits Vec.

Section BitArray.
(** The compiler builtin, documented for non-zero arguments. *)
Context (ctzl : Z -> Z).

Definition ctzl_spec : Prop := forall v, 0 < v < 2 ^ 64 -> lowest_bit v (ctzl v).

(** ** Operations *)

(** [BIT_ARRAY_LEN], in bytes. *)
Definition BIT_ARRAY_LEN (nbit : Z) : Z := umul 64 (uadd 64 nbit 63 / 64) 8.

(** [malloc bytes] is the block the allocator gives, as words of any contents. *)
Definition bit_array_malloc (malloc : Z -> option (list Z)) (nbit : Z) : option (list Z) :=
  if nbit =? 0 then None else malloc (BIT_ARRAY_LEN nbit).

(** [~((1 << n) - 1)]: the mask of the bits from [n] on. *)
Definition high_mask (n : Z) : Z := unot 64 (usub 64 (ushl 64 1 n) 1).

Definition bit_array_clear (array : list Z) (nbit : Z) : option (list Z) :=
  let off := ushr nbit 6 in
  if zlen array <? off then None else
  let array := replicate (Z.to_nat off) 0 ++ drop (Z.to_nat off) array in
  let last := ushl 64 off 6 in
  if negb (last =? nbit) then
    w ← zget array off; zset array off (Z.land w (high_mask (usub 64 nbit last)))
  else Some array.

Definition bit_array_set (array : list Z) (i : Z) : option (list Z) :=
  let off := ushr i 6 in
  w ← zget array off; zset array off (Z.lor w (ushl 64 1 (usub 64 i (ushl 64 off 6)))).

Definition bit_array_unset (array : list Z) (i : Z) : option (list Z) :=
  let off := ushr i 6 in
  w ← zget array off; zset array off (Z.land w (unot 64 (ushl 64 1 (usub 64 i (ushl 64 off 6))))).

Definition bit_array_get (array : list Z) (i : Z) : option Z :=
  let off := ushr i 6 in
  w ← zget array off; Some (Z.land w (ushl 64 1 (usub 64 i (ushl 64 off 6)))).

(** The middle loop: the first non-zero word among [i .. off2 - 1], and its first bit. *)
Fixpoint first1_words (n : nat) (array : list Z) (i : Z) : option (option Z) :=
  match n with
  | O => Some None
  | S n =>
      w ← zget array i;
      if negb (w =? 0) then Some (Some (i * 64 + ctzl w)) else first1_words n array (i + 1)
  end.

(** The search in the words from [off1] on, after the partial first word. *)
Definition first1_rest (array : list Z) (off1 end_ : Z) : option Z :=
  let off2 := ushr end_ 6 in
  r ← first1_words (Z.to_nat (off2 - off1)) array off1;
  match r with
  | Some k => Some k
  | None =>
      let last := ushl 64 off2 6 in
      if negb (last =? end_) then
        w ← zget array off2;
        Some (if negb (w =? 0) then Z.min (last + ctzl w) end_ else end_)
      else Some end_
  end.

Definition bit_array_first1 (array : list Z) (begin end_ : Z) : option Z :=
  let off1 := ushr begin 6 in
  let first := ushl 64 off1 6 in
  if negb (first =? begin) then
    w ← zget array off1;
    let v := Z.land w (high_mask (usub 64 begin first)) in
    if negb (v =? 0) then Some (Z.min (first + ctzl v) end_) else first1_rest array (off1 + 1) end_
  else first1_rest array off1 end_.

End BitArray.

Section Words.
(** ** Specification *)

Definition words_ok (a : list Z) : Prop := Forall (fun w => 0 <= w < 2 ^ 64) a.

(** Bit [i] of the array. *)
Definition bit (a : list Z) (i : Z) : bool :=
  match zget a (i / 64) with Some w => Z.testbit w (i mod 64) | None => false end.

Lemma words_get a i w : words_ok a -> zget a i = Some w -> 0 <= w < 2 ^ 64.
Proof.
  intros Ha E. unfold zget in E. destruct (i <? 0); [done|]. unfold words_ok in Ha. rewrite Forall_lookup in Ha. by eapply Ha.
Qed.

Lemma words_set a i w a' : words_ok a -> 0 <= w < 2 ^ 64 -> zset a i w = Some a' -> words_ok a'.
Proof. intros Ha Hw [_ ->]%zset_inv. by apply Forall_insert. Qed.

(** The word and the position in it of an index. *)
Lemma index_split i : 0 <= i < 2 ^ 64 ->
  ushr i 6 = i / 64 /\ ushl 64 (ushr i 6) 6 = i / 64 * 64 /\ usub 64 i (ushl 64 (ushr i 6) 6) = i mod 64.
Proof.
  intros Hi. assert (E : ushr i 6 = i / 64) by (rewrite ushr_val by lia; done).
  assert (E2 : ushl 64 (ushr i 6) 6 = i / 64 * 64).
  { rewrite E, ushl_val by lia. change (2 ^ 6) with 64. apply wrap_small. zlia. }
  split_and!; [done|done|]. rewrite E2. unfold usub. rewrite wrap_small; zlia.
Qed.

Lemma one_shift n : 0 <= n < 64 -> ushl 64 1 n = 2 ^ n.
Proof. intros Hn. rewrite ushl_val, Z.mul_1_l by lia. apply wrap_small. split; [lia|]. apply Z.pow_lt_mono_r; lia. Qed.

Lemma high_mask_bit n j : 0 <= n < 64 -> 0 <= j < 64 -> Z.testbit (high_mask n) j = (n <=? j).
Proof.
  intros Hn Hj. unfold high_mask. rewrite testbit_unot by lia. rewrite one_shift by lia. unfold usub.
  assert (0 < 2 ^ n) by lia. assert (2 ^ n < 2 ^ 64) by (apply Z.pow_lt_mono_r; lia).
  rewrite wrap_small by lia. rewrite Z.sub_1_r, <- Z.ones_equiv, testbit_ones by lia. zcases; lia || done.
Qed.

Lemma high_mask_range n : 0 <= high_mask n < 2 ^ 64.
Proof. apply wrap_range. lia. Qed.

Lemma bit_zset a i w a' j : zset a (i / 64) w = Some a' ->
  bit a' j = if j / 64 =? i / 64 then Z.testbit w (j mod 64) else bit a j.
Proof. intros E. unfold bit. rewrite (zget_zset _ _ _ _ _ E). by destruct (Z.eqb_spec (j / 64) (i / 64)). Qed.

(** Writing the word of index [i]. *)
Lemma write_word a i w : words_ok a -> 0 <= w < 2 ^ 64 -> 0 <= i -> i / 64 < zlen a ->
  exists a', zset a (i / 64) w = Some a' /\ words_ok a' /\ zlen a' = zlen a /\
    forall j, bit a' j = if j / 64 =? i / 64 then Z.testbit w (j mod 64) else bit a j.
Proof.
  intros Ha Hw Hi Hl. pose proof (zset_ok a (i / 64) w ltac:(zlia)) as E. eexists. split_and!; [exact E| | |].
  - by eapply words_set.
  - by eapply zset_len.
  - intros j. by apply bit_zset.
Qed.

Lemma same_index i j : j / 64 = i / 64 -> (j mod 64 =? i mod 64) = (j =? i).
Proof. intros E. destruct (Z.eqb_spec j i); zcases; try done; zlia. Qed.

Lemma bit_array_set_ok a i : words_ok a -> 0 <= i < 2 ^ 64 -> i / 64 < zlen a ->
  exists a', bit_array_set a i = Some a' /\ words_ok a' /\ zlen a' = zlen a /\
    forall j, bit a' j = if j =? i then true else bit a j.
Proof.
  intros Ha Hi Hl. unfold bit_array_set. destruct (index_split i Hi) as (E1 & E2 & E3). rewrite E3, E1.
  destruct (zget_is_Some a (i / 64)) as [w Hw]; [zlia|]. rewrite Hw. cbn [mbind option_bind].
  pose proof (words_get a _ _ Ha Hw). assert (0 <= i mod 64 < 64) by zlia. rewrite one_shift by done.
  assert (2 ^ (i mod 64) < 2 ^ 64) by (apply Z.pow_lt_mono_r; lia).
  destruct (write_word a i (Z.lor w (2 ^ (i mod 64)))) as (a' & E & Ha' & El & Hb);
    [done|apply lor_range; lia|lia|done|]. exists a'. split_and!; [done..|]. intros j. rewrite Hb.
  destruct (Z.eqb_spec (j / 64) (i / 64)) as [Ej|Ej]; [|destruct (Z.eqb_spec j i); congruence].
  rewrite Z.lor_spec, testbit_pow2 by lia. rewrite (Z.eqb_sym (i mod 64)), same_index by done.
  destruct (Z.eqb_spec j i); [apply orb_true_r|]. unfold bit. by rewrite Ej, Hw, orb_false_r.
Qed.

Lemma bit_array_unset_ok a i : words_ok a -> 0 <= i < 2 ^ 64 -> i / 64 < zlen a ->
  exists a', bit_array_unset a i = Some a' /\ words_ok a' /\ zlen a' = zlen a /\
    forall j, bit a' j = if j =? i then false else bit a j.
Proof.
  intros Ha Hi Hl. unfold bit_array_unset. destruct (index_split i Hi) as (E1 & E2 & E3). rewrite E3, E1.
  destruct (zget_is_Some a (i / 64)) as [w Hw]; [zlia|]. rewrite Hw. cbn [mbind option_bind].
  pose proof (words_get a _ _ Ha Hw). assert (0 <= i mod 64 < 64) by zlia. rewrite one_shift by done.
  destruct (write_word a i (Z.land w (unot 64 (2 ^ (i mod 64))))) as (a' & E & Ha' & El & Hb);
    [done|apply land_range; lia|lia|done|]. exists a'. split_and!; [done..|]. intros j. rewrite Hb.
  destruct (Z.eqb_spec (j / 64) (i / 64)) as [Ej|Ej]; [|destruct (Z.eqb_spec j i); congruence].
  rewrite Z.land_spec, testbit_unot, testbit_pow2 by zlia. rewrite (Z.eqb_sym (i mod 64)), same_index by done.
  destruct (Z.eqb_spec j i); [apply andb_false_r|]. unfold bit. by rewrite Ej, Hw, andb_true_r.
Qed.

Lemma bit_array_get_ok a i : words_ok a -> 0 <= i < 2 ^ 64 -> i / 64 < zlen a ->
  exists r, bit_array_get a i = Some r /\ (r =? 0) = negb (bit a i).
Proof.
  intros Ha Hi Hl. unfold bit_array_get. destruct (index_split i Hi) as (E1 & E2 & E3). rewrite E3, E1.
  destruct (zget_is_Some a (i / 64)) as [w Hw]; [zlia|]. rewrite Hw. cbn [mbind option_bind].
  assert (0 <= i mod 64 < 64) by zlia. rewrite one_shift by done. eexists. split; [reflexivity|].
  unfold bit. rewrite Hw. destruct (Z.testbit w (i mod 64)) eqn:E.
  - apply Z.eqb_neq. intros E0. assert (Z.testbit (Z.land w (2 ^ (i mod 64))) (i mod 64) = true); [|by rewrite E0, Z.testbit_0_l in *].
    rewrite Z.land_spec, E, testbit_pow2, Z.eqb_refl by lia. done.
  - apply Z.eqb_eq. apply Z.bits_inj'. intros j Hj. rewrite Z.land_spec, testbit_pow2, Z.testbit_0_l by lia.
    destruct (Z.eqb_spec (i mod 64) j); [subst; by rewrite E|apply andb_false_r].
Qed.

Lemma bit_array_clear_ok a n : words_ok a -> 0 <= n -> n + 63 < 2 ^ 64 -> (n + 63) / 64 <= zlen a ->
  exists a', bit_array_clear a n = Some a' /\ words_ok a' /\ zlen a' = zlen a /\
    forall j, 0 <= j -> bit a' j = if j <? n then false else bit a j.
Proof.
  intros Ha Hn Hb Hl. unfold bit_array_clear. destruct (index_split n ltac:(lia)) as (E1 & E2 & E3). rewrite E3, E2, E1.
  destruct (Z.ltb_spec (zlen a) (n / 64)); [zlia|].
  set (a1 := replicate (Z.to_nat (n / 64)) 0 ++ drop (Z.to_nat (n / 64)) a).
  assert (Hd : 0 <= n / 64) by zlia.
  assert (Hl1 : zlen a1 = zlen a).
  { unfold a1. rewrite zlen_app. unfold zlen in *. rewrite length_replicate, length_drop. lia. }
  assert (Ha1 : words_ok a1) by (apply Forall_app; split; [apply Forall_replicate; lia|by apply Forall_drop]).
  assert (Hg : forall i, 0 <= i -> zget a1 i = if i <? n / 64 then Some 0 else zget a i).
  { intros i Hi. unfold a1. rewrite zget_app. unfold zlen. rewrite length_replicate, Z2Nat.id by done.
    destruct (Z.ltb_spec i (n / 64)); unfold zget.
    - destruct (Z.ltb_spec i 0); [lia|]. apply lookup_replicate_2. lia.
    - destruct (Z.ltb_spec i 0), (Z.ltb_spec (i - n / 64) 0); [lia..|]. rewrite lookup_drop. f_equal. lia. }
  assert (Hb1 : forall j, 0 <= j -> bit a1 j = if j / 64 <? n / 64 then false else bit a j).
  { intros j Hj. unfold bit. rewrite Hg by zlia. destruct (j / 64 <? n / 64); [apply Z.testbit_0_l|done]. }
  destruct (Z.eqb_spec (n / 64 * 64) n) as [E|E]; cbn [negb].
  - exists a1. split_and!; [done..|]. intros j Hj. rewrite Hb1 by done.
    destruct (Z.ltb_spec (j / 64) (n / 64)), (Z.ltb_spec j n); try done; zlia.
  - destruct (zget_is_Some a1 (n / 64)) as [w Hw]; [zlia|]. rewrite Hw. cbn [mbind option_bind].
    pose proof (words_get _ _ _ Ha1 Hw). pose proof (high_mask_range (n mod 64)).
    destruct (write_word a1 n (Z.land w (high_mask (n mod 64)))) as (a' & Ew & Ha' & El & Hb2);
      [done|apply land_range; lia|lia|zlia|]. exists a'. split_and!; [done|done|lia|].
    intros j Hj. rewrite Hb2, Hb1 by done. rewrite Hg, Z.ltb_irrefl in Hw by done.
    destruct (Z.eqb_spec (j / 64) (n / 64)) as [Ej|Ej].
    + rewrite Z.land_spec, high_mask_bit by zlia. unfold bit. rewrite Ej, Hw.
      destruct (Z.leb_spec (n mod 64) (j mod 64)), (Z.ltb_spec j n); first [apply andb_true_r | apply andb_false_r | zlia].
    + destruct (Z.ltb_spec (j / 64) (n / 64)), (Z.ltb_spec j n); try done; zlia.
Qed.

End Words.

Section Search.
(** ** The search *)

(** [r] is the first one of [b, e), or [e]. *)
Definition first_one (a : list Z) (b e r : Z) : Prop :=
  b <= r <= e /\ (forall j, b <= j < r -> bit a j = false) /\ (r < e -> bit a r = true).

Context (ctzl : Z -> Z) (Hctzl : ctzl_spec ctzl).

Lemma zero_word a i j : zget a i = Some 0 -> i * 64 <= j < i * 64 + 64 -> bit a j = false.
Proof. intros E Hj. unfold bit. replace (j / 64) with i by zlia. rewrite E. apply Z.testbit_0_l. Qed.

(** The lowest bit of a non-zero word, as an index. *)
Lemma word_first a i w : words_ok a -> 0 <= i -> zget a i = Some w -> w <> 0 ->
  i * 64 <= i * 64 + ctzl w < i * 64 + 64 /\ bit a (i * 64 + ctzl w) = true /\
  forall j, i * 64 <= j < i * 64 + ctzl w -> bit a j = false.
Proof.
  intros Ha Hi E Hw. pose proof (words_get _ _ _ Ha E). destruct (Hctzl w ltac:(lia)) as (H0 & H1 & H2).
  assert (ctzl w < 64).
  { destruct (Z.lt_ge_cases (ctzl w) 64); [done|]. by rewrite (testbit_bounded w 64) in H1. }
  split_and!; [lia|lia| |].
  - unfold bit. replace ((i * 64 + ctzl w) / 64) with i by zlia. rewrite E. by replace ((i * 64 + ctzl w) mod 64) with (ctzl w) by zlia.
  - intros j Hj. unfold bit. replace (j / 64) with i by zlia. rewrite E. apply H2. zlia.
Qed.

Lemma first1_words_ok a n i : words_ok a -> 0 <= i -> i + Z.of_nat n <= zlen a ->
  exists r, first1_words ctzl n a i = Some r /\
    match r with
    | Some k => i * 64 <= k < (i + Z.of_nat n) * 64 /\ (forall j, i * 64 <= j < k -> bit a j = false) /\ bit a k = true
    | None => forall j, i * 64 <= j < (i + Z.of_nat n) * 64 -> bit a j = false
    end.
Proof.
  intros Ha. revert i. induction n as [|n IH]; intros i Hi Hl; cbn [first1_words].
  - exists None. split; [done|]. intros; lia.
  - destruct (zget_is_Some a i) as [w Hw]; [lia|]. rewrite Hw. cbn [mbind option_bind].
    destruct (Z.eqb_spec w 0) as [->|Hz]; cbn [negb].
    + destruct (IH (i + 1)) as (r & E & Hr); [lia|lia|]. exists r. split; [done|].
      assert (Hz : forall j, i * 64 <= j < i * 64 + 64 -> bit a j = false) by (intros; by eapply zero_word).
      destruct r as [k|].
      * destruct Hr as (H1 & H2 & H3). split_and!; [lia|lia| |done]. intros j Hj.
        destruct (Z.lt_ge_cases j (i * 64 + 64)); [apply Hz; lia|apply H2; lia].
      * intros j Hj. destruct (Z.lt_ge_cases j (i * 64 + 64)); [apply Hz; lia|apply Hr; lia].
    + destruct (word_first a i w Ha Hi Hw Hz) as (H1 & H2 & H3). eexists. split; [reflexivity|]. split_and!; [lia|lia|done|done].
Qed.

Lemma first1_rest_ok a off e : words_ok a -> 0 <= off -> off * 64 <= e < 2 ^ 64 -> (e + 63) / 64 <= zlen a ->
  exists r, first1_rest ctzl a off e = Some r /\ first_one a (off * 64) e r.
Proof.
  intros Ha Ho He Hl. unfold first1_rest. destruct (index_split e ltac:(lia)) as (E1 & E2 & _). rewrite E2, E1.
  assert (Hd : off <= e / 64) by zlia.
  destruct (first1_words_ok a (Z.to_nat (e / 64 - off)) off Ha Ho) as (r & E & Hr); [zlia|].
  rewrite E. cbn [mbind option_bind]. rewrite Z2Nat.id in Hr by lia. replace (off + (e / 64 - off)) with (e / 64) in Hr by lia.
  destruct r as [k|].
  - exists k. split; [done|]. destruct Hr as (H1 & H2 & H3). split_and!; [lia|zlia|done|done].
  - destruct (Z.eqb_spec (e / 64 * 64) e) as [El|El]; cbn [negb].
    + exists e. split; [done|]. split_and!; [lia|lia| |lia]. intros j Hj. apply Hr. lia.
    + destruct (zget_is_Some a (e / 64)) as [w Hw]; [zlia|]. rewrite Hw. cbn [mbind option_bind].
      destruct (Z.eqb_spec w 0) as [->|Hz]; cbn [negb].
      * exists e. split; [done|]. split_and!; [lia|lia| |lia]. intros j Hj.
        destruct (Z.lt_ge_cases j (e / 64 * 64)); [apply Hr; lia|eapply zero_word; [done|zlia]].
      * destruct (word_first a (e / 64) w Ha ltac:(zlia) Hw Hz) as (H1 & H2 & H3). eexists. split; [reflexivity|].
        split_and!; [zlia|lia| |].
        -- intros j Hj. destruct (Z.lt_ge_cases j (e / 64 * 64)); [apply Hr; lia|apply H3; lia].
        -- intros Hm. by rewrite Z.min_l by lia.
Qed.

(** Masking the bits below [b]. *)
Lemma masked_word a b w : words_ok a -> 0 <= b < 2 ^ 64 -> zget a (b / 64) = Some w ->
  let v := Z.land w (high_mask (b mod 64)) in
  0 <= v < 2 ^ 64 /\ forall j, 0 <= j < 64 -> Z.testbit v j = (b mod 64 <=? j) && bit a (b / 64 * 64 + j).
Proof.
  intros Ha Hb E v. pose proof (words_get _ _ _ Ha E). pose proof (high_mask_range (b mod 64)).
  split; [apply land_range; lia|]. intros j Hj. unfold v. rewrite Z.land_spec, high_mask_bit by zlia. rewrite andb_comm. f_equal.
  unfold bit. replace ((b / 64 * 64 + j) / 64) with (b / 64) by zlia. rewrite E. f_equal. zlia.
Qed.

(** The search is right when the partial first word is not also the partial last word, and
    whenever it finds a bit in the first word. *)
Lemma bit_array_first1_ok a b e : words_ok a -> 0 <= b <= e -> e < 2 ^ 64 - 63 -> (e + 63) / 64 <= zlen a ->
  b mod 64 = 0 \/ b / 64 < e / 64 -> exists r, bit_array_first1 ctzl a b e = Some r /\ first_one a b e r.
Proof.
  intros Ha Hb He Hl Hc. unfold bit_array_first1. destruct (index_split b ltac:(lia)) as (E1 & E2 & E3). rewrite E3, E2, E1.
  destruct (Z.eqb_spec (b / 64 * 64) b) as [Eb|Eb]; cbn [negb].
  - destruct (first1_rest_ok a (b / 64) e) as (r & E & Hr); [done|zlia|lia|done|]. rewrite Eb in Hr. by exists r.
  - destruct Hc as [Hc|Hc]; [zlia|]. destruct (zget_is_Some a (b / 64)) as [w Hw]; [zlia|]. rewrite Hw. cbn [mbind option_bind].
    destruct (masked_word a b w Ha ltac:(lia) Hw) as [Hv Hvb]. set (v := Z.land w (high_mask (b mod 64))) in *.
    destruct (Z.eqb_spec v 0) as [Ev|Ev]; cbn [negb].
    + assert (Hz : forall j, b <= j < b / 64 * 64 + 64 -> bit a j = false).
      { intros j Hj. specialize (Hvb (j - b / 64 * 64) ltac:(zlia)). rewrite Ev, Z.testbit_0_l in Hvb.
        replace (b / 64 * 64 + (j - b / 64 * 64)) with j in Hvb by lia.
        destruct (Z.leb_spec (b mod 64) (j - b / 64 * 64)); [done|zlia]. }
      destruct (first1_rest_ok a (b / 64 + 1) e) as (r & E & H1 & H2 & H3); [done|zlia|zlia|done|].
      exists r. split; [done|]. split_and!; [zlia|lia| |done]. intros j Hj.
      destruct (Z.lt_ge_cases j (b / 64 * 64 + 64)); [apply Hz; lia|apply H2; lia].
    + destruct (Hctzl v ltac:(lia)) as (H0 & H1 & H2).
      assert (Hc64 : ctzl v < 64) by (destruct (Z.lt_ge_cases (ctzl v) 64); [done|]; by rewrite (testbit_bounded v 64) in H1).
      rewrite Hvb in H1 by lia. apply andb_true_iff in H1 as [H1 H1']. apply Z.leb_le in H1.
      eexists. split; [reflexivity|]. split_and!; [zlia|lia| |].
      * intros j Hj. specialize (H2 (j - b / 64 * 64) ltac:(lia)). rewrite Hvb in H2 by zlia.
        replace (b / 64 * 64 + (j - b / 64 * 64)) with j in H2 by lia.
        destruct (Z.leb_spec (b mod 64) (j - b / 64 * 64)); [done|zlia].
      * intros Hm. by rewrite Z.min_l by lia.
Qed.

(** Inside one partial word with no bit left from [b] on, the search starts again at the
    beginning of the word. *)
Lemma bit_array_first1_restart a b e w : words_ok a -> 0 <= b <= e -> e < 2 ^ 64 - 63 ->
  b mod 64 <> 0 -> b / 64 = e / 64 -> zget a (b / 64) = Some w -> w <> 0 ->
  (forall j, b <= j < b / 64 * 64 + 64 -> bit a j = false) ->
  bit_array_first1 ctzl a b e = Some (b / 64 * 64 + ctzl w) /\ b / 64 * 64 + ctzl w < b.
Proof.
  intros Ha Hb He Hm Hc Hw Hz Hn. unfold bit_array_first1. destruct (index_split b ltac:(lia)) as (E1 & E2 & E3). rewrite E3, E2, E1.
  destruct (Z.eqb_spec (b / 64 * 64) b) as [Eb|Eb]; [zlia|]. cbn [negb]. rewrite Hw. cbn [mbind option_bind].
  destruct (masked_word a b w Ha ltac:(lia) Hw) as [Hv Hvb]. set (v := Z.land w (high_mask (b mod 64))) in *.
  assert (v = 0) as ->.
  { apply Z.bits_inj'. intros j Hj. rewrite Z.testbit_0_l. destruct (Z.lt_ge_cases j 64); [|by apply (testbit_bounded v 64)].
    rewrite Hvb by lia. destruct (Z.leb_spec (b mod 64) j); [|done]. apply Hn. zlia. }
  cbn [Z.eqb negb]. unfold first1_rest. destruct (index_split e ltac:(lia)) as (F1 & F2 & _). rewrite F2, F1.
  replace (Z.to_nat (e / 64 - (b / 64 + 1))) with 0%nat by lia. cbn [first1_words mbind option_bind].
  destruct (Z.eqb_spec (e / 64 * 64) e); [zlia|]. cbn [negb]. rewrite <- Hc, Hw. cbn [mbind option_bind].
  destruct (Z.eqb_spec w 0); [done|]. cbn [negb].
  destruct (word_first a (b / 64) w Ha ltac:(zlia) Hw Hz) as (H1 & H2 & H3).
  assert (b / 64 * 64 + ctzl w < b).
  { destruct (Z.lt_ge_cases (b / 64 * 64 + ctzl w) b); [done|]. rewrite Hn in H2; [done|lia]. }
  split; [|done]. f_equal. apply Z.min_l. lia.
Qed.
End Search.

(** The portable count of trailing zeros is one such builtin. *)
Lemma ctz64_ctzl : ctzl_spec CountTrailingZeroesNonzero64.
Proof.
  intros v Hv. destruct (lowest_bit_exists v ltac:(lia)) as [k Hk].
  by rewrite (CountTrailingZeroesNonzero64_spec v k).
Qed.

(** ** Properties *)

(** Setting, clearing one bit, clearing a prefix and reading act on exactly the bits
    named and never leave an array that holds the index; the bits past a cleared prefix keep
    whatever the allocator left there. *)
Theorem bit_array_correct a i n : words_ok a -> 0 <= i < 2 ^ 64 -> i / 64 < zlen a ->
  0 <= n -> n + 63 < 2 ^ 64 -> (n + 63) / 64 <= zlen a ->
  (exists a', bit_array_set a i = Some a' /\ words_ok a' /\ zlen a' = zlen a /\
     forall j, bit a' j = if j =? i then true else bit a j) /\
  (exists a', bit_array_unset a i = Some a' /\ words_ok a' /\ zlen a' = zlen a /\
     forall j, bit a' j = if j =? i then false else bit a j) /\
  (exists r, bit_array_get a i = Some r /\ (r =? 0) = negb (bit a i)) /\
  (exists a', bit_array_clear a n = Some a' /\ words_ok a' /\ zlen a' = zlen a /\
     forall j, 0 <= j -> bit a' j = if j <? n then false else bit a j).
Proof.
  intros. split_and!; [by apply bit_array_set_ok|by apply bit_array_unset_ok|by apply bit_array_get_ok|by apply bit_array_clear_ok].
Qed.

Lemma bit_array_correct_witness : exists a', bit_array_set [0; 5] 70 = Some a' /\ bit a' 70 = true.
Proof.
  destruct (bit_array_correct [0; 5] 70 8) as ((a' & E & _ & _ & H) & _);
    [repeat constructor; discriminate|lia|reflexivity|lia|reflexivity|discriminate|].
  exists a'. split; [exact E|]. rewrite H. reflexivity.
Defined.

(** [bit_array_first1] finds the first one of the range, or its end, when the range
    starts at a word or ends in a later one. When the whole range lies inside one word,
    does not start with it and has no one left, the search starts over at the beginning of
    the word and returns a position {e before} the range. *)
Theorem bit_array_first1_correct (ctzl : Z -> Z) a b e : ctzl_spec ctzl -> words_ok a ->
  0 <= b <= e -> e < 2 ^ 64 - 63 -> (e + 63) / 64 <= zlen a ->
  (b mod 64 = 0 \/ b / 64 < e / 64 -> exists r, bit_array_first1 ctzl a b e = Some r /\ first_one a b e r) /\
  (forall w, b mod 64 <> 0 -> b / 64 = e / 64 -> zget a (b / 64) = Some w -> w <> 0 ->
     (forall j, b <= j < b / 64 * 64 + 64 -> bit a j = false) ->
     exists r, bit_array_first1 ctzl a b e = Some r /\ r < b /\ bit a r = true).
Proof.
  intros Hc Ha Hb He Hl. split; [by apply bit_array_first1_ok|]. intros w Hm Hd Hw Hz Hn.
  destruct (bit_array_first1_restart ctzl Hc a b e w Ha Hb He Hm Hd Hw Hz Hn) as [E L].
  eexists. split_and!; [exact E|exact L|]. by destruct (word_first ctzl Hc a (b / 64) w Ha ltac:(zlia) Hw Hz) as (_ & H & _).
Qed.

Lemma bit_array_first1_correct_witness :
  exists r, bit_array_first1 CountTrailingZeroesNonzero64 [2] 6 8 = Some r /\ r < 6 /\ bit [2] r = true.
Proof.
  destruct (bit_array_first1_correct CountTrailingZeroesNonzero64 [2] 6 8 ctz64_ctzl) as [_ H];
    [repeat constructor; discriminate|lia|reflexivity|discriminate|].
  apply (H 2); [discriminate|reflexivity|reflexivity|discriminate|].
  intros j Hj. change (6 / 64 * 64 + 64) with 64 in Hj. unfold bit. replace (j / 64) with 0 by zlia.
  replace (j mod 64) with j by zlia. change (zget [2] 0) with (Some 2). cbv beta iota.
  apply Z.bits_above_log2; [lia|]. change (Z.log2 2) with 1. lia.
Defined.
