(* ===== verification/FlatMap.v ===== *)
(** * Chained hash table (container/flat_map.h, container/flat_map_inl.h)

    [FlatMap<K, T>] keeps an array of buckets, a power of two in number; the first element
    of a bucket lies in the array and the others in a chain of pool nodes. A bucket is the
    list of its elements in chain order, and the empty list is a bucket marked invalid; one
    sentinel bucket past the end is always valid. Sparse maps also keep a bit array of the
    valid buckets, which their iterators search.

    [None] is undefined behaviour or an abort (an access outside the array, a fatal log on
    a failed allocation, an assignment to a destroyed element) or a loop that does not end. *)
From S2P Require Import Prelude Words Bits Vec BitArray.
From stdpp Require Import list gmap fin_maps.

#[local] Open Scope Z_scope.

(** ** Sizes and hashes *)

Definition prime_list : list Z :=
  [29; 53; 97; 193; 389; 769; 1543; 3079; 6151; 12289; 24593; 49157; 98317; 196613; 393241; 786433;
   1572869; 3145739; 6291469; 12582917; 25165843; 50331653; 100663319; 201326611; 402653189; 805306457;
   1610612741; 3221225473; 4294967291].

Definition find_next_prime (nbucket : Z) : Z :=
  default nbucket (snd <$> list_find (fun p => nbucket <= p) prime_list).

Definition find_power2 (b : Z) : Z :=
  let b := usub 64 b 1 in
  let b := Z.lor b (ushr b 1) in
  let b := Z.lor b (ushr b 2) in
  let b := Z.lor b (ushr b 4) in
  let b := Z.lor b (ushr b 8) in
  let b := Z.lor b (ushr b 16) in
  let b := Z.lor b (ushr b 32) in
  uadd 64 b 1.

Definition flatmap_round (nbucket : Z) : Z := if nbucket <=? 8 then 8 else find_power2 nbucket.
Definition flatmap_mod (hash_code nbucket : Z) : Z := Z.land hash_code (usub 64 nbucket 1).
Definition is_too_crowded (size nbucket load_factor : Z) : bool :=
  umul 64 nbucket load_factor <=? umul 64 size 100.

Section Table.
Context {K V : Type} `{EqDecision K}.
(** [_hashfn], [T()], the template flags [_Sparse] and [_Multi], whether elements may be
    assigned after their destructor ran (trivially destructible types), the allocator of
    buckets, [malloc] and the compiler's count of trailing zeros. *)
Context (hashfn : K -> Z) (vinit : V) (sparse multi trivially_destructible : bool)
  (alloc_ok : Z -> bool) (malloc : Z -> option (list Z)) (ctzl : Z -> Z).

Abbreviation bucket := (list (K * V)).

Record FlatMap := MkFlatMap {
  _size : Z;
  _nbucket : Z;
  _buckets : option (list bucket);
  _thumbnail : option (list Z);
  _load_factor : Z;
}.

(** ** Construction *)

Definition fm_empty : FlatMap := MkFlatMap 0 0 None None 0.

Definition initialized (m : FlatMap) : bool := match _buckets m with Some _ => true | None => false end.
Definition buckets (m : FlatMap) : list bucket := default [] (_buckets m).

Definition set_bucket (m : FlatMap) (i : Z) (b : bucket) : option FlatMap :=
  bs ← zset (buckets m) i b;
  Some (MkFlatMap (_size m) (_nbucket m) (Some bs) (_thumbnail m) (_load_factor m)).
Definition set_size (m : FlatMap) (n : Z) : FlatMap :=
  MkFlatMap n (_nbucket m) (_buckets m) (_thumbnail m) (_load_factor m).

(** [if (_S) op(_thumbnail, i)]. *)
Definition update_thumbnail (op : list Z -> option (list Z)) (m : FlatMap) : option FlatMap :=
  if sparse then
    t ← _thumbnail m; t' ← op t;
    Some (MkFlatMap (_size m) (_nbucket m) (_buckets m) (Some t') (_load_factor m))
  else Some m.

(** The [do ... while] of [new_buckets_and_thumbnail]: rounding again does not help a
    table that stays too crowded. *)
Fixpoint round_loop (fuel : nat) (size new_nbucket load_factor : Z) : option Z :=
  let n := flatmap_round new_nbucket in
  if is_too_crowded size n load_factor then
    match fuel with O => None | S fuel => round_loop fuel size n load_factor end
  else Some n.

(** New buckets, all invalid, and a cleared thumbnail. *)
Definition new_buckets_and_thumbnail (load_factor size new_nbucket : Z)
  : option (list bucket * option (list Z) * Z) :=
  n ← round_loop 2 size new_nbucket load_factor;
  if alloc_ok n then
    t ← (if sparse then
           t ← bit_array_malloc malloc n; t' ← bit_array_clear t n; Some (Some t')
         else Some None);
    Some (replicate (Z.to_nat n) [], t, n)
  else None.

Definition init (nbucket load_factor : Z) (m : FlatMap) : option (Z * FlatMap) :=
  if initialized m then Some (-1, m)
  else if nbucket =? 0 then Some (-1, m)
  else if (load_factor <? 10) || (100 <? load_factor) then Some (-1, m)
  else
    '(bs, t, n) ← new_buckets_and_thumbnail load_factor 0 nbucket;
    m ← update_thumbnail (fun a => bit_array_clear a n)
          (MkFlatMap 0 n (Some bs) (if sparse then t else _thumbnail m) load_factor);
    Some (0, m).

(** ** Iterators: an entry of the array and a position in its chain *)

Record iter := Iter { it_entry : Z; it_node : nat }.

#[export] Instance iter_eq_dec : EqDecision iter.
Proof. solve_decision. Defined.

Definition is_valid (m : FlatMap) (i : Z) : option bool :=
  if i =? _nbucket m then Some true
  else b ← zget (buckets m) i; Some (match b with [] => false | _ => true end).

(** [FlatMapIterator::find_and_set_valid_node]. *)
Fixpoint find_valid_dense (n : nat) (m : FlatMap) (entry : Z) : option Z :=
  v ← is_valid m entry;
  if (v : bool) then Some entry
  else match n with O => None | S n => find_valid_dense n m (entry + 1) end.

(** [SparseFlatMapIterator::find_and_set_valid_node]. *)
Definition find_valid_sparse (m : FlatMap) (pos : Z) : option Z :=
  v ← is_valid m pos;
  if (v : bool) then Some pos
  else t ← _thumbnail m; bit_array_first1 ctzl t (pos + 1) (_nbucket m).

Definition find_valid (m : FlatMap) (pos : Z) : option Z :=
  if sparse then find_valid_sparse m pos else find_valid_dense (length (buckets m)) m pos.

(** The constructor from a position, on an initialized map. *)
Definition iter_at (m : FlatMap) (pos : Z) : option iter :=
  e ← find_valid m pos; Some (Iter e 0).
Definition iter_begin (m : FlatMap) : option iter := iter_at m 0.
Definition iter_end (m : FlatMap) : option iter := iter_at m (_nbucket m).

Definition iter_deref (m : FlatMap) (it : iter) : option (K * V) :=
  b ← zget (buckets m) (it_entry it); b !! it_node it.

Definition iter_next (m : FlatMap) (it : iter) : option iter :=
  b ← (if it_entry it =? _nbucket m then Some [] else zget (buckets m) (it_entry it));
  if decide (S (it_node it) < length b)%nat then Some (Iter (it_entry it) (S (it_node it)))
  else iter_at m (it_entry it + 1).

(** The elements a loop from [it] to [end()] visits. *)
Fixpoint visit (n : nat) (m : FlatMap) (it : iter) : option (list (K * V)) :=
  e ← iter_end m;
  if decide (it = e) then Some []
  else match n with
       | O => None
       | S n => x ← iter_deref m it; it' ← iter_next m it; l ← visit n m it'; Some (x :: l)
       end.

(** ** Lookup and update *)

Definition bucket_of (m : FlatMap) (key : K) : Z := flatmap_mod (hashfn key) (_nbucket m).

Definition find_in (key : K) (b : bucket) : option (nat * (K * V)) := list_find (fun e : K * V => e.1 = key) b.

(** The elements of a bucket with the key, and the others. *)
Definition matching (key : K) (b : bucket) : bucket := filter (fun e => e.1 = key) b.
Definition others (key : K) (b : bucket) : bucket := filter (fun e => e.1 <> key) b.


Definition seek_all (key : K) (m : FlatMap) : option (list V) :=
  if negb (initialized m) then Some []
  else b ← zget (buckets m) (bucket_of m key); Some (matching key b).*2.

(** Assignment through the reference to the value of element [p] of bucket [i]. *)
Definition set_value (i : Z) (p : nat) (value : V) (m : FlatMap) : option FlatMap :=
  b ← zget (buckets m) i; e ← b !! p; set_bucket m i (<[p := (e.1, value)]> b).

Section Resize.
(** [operator[]] of the new map: the map, and the place of the element. *)
Context (index : K -> FlatMap -> option (FlatMap * Z * nat)).

Fixpoint copy_all (l : list (K * V)) (m : FlatMap) : option FlatMap :=
  match l with
  | [] => Some m
  | e :: l =>
      '(m, i, p) ← index e.1 m; m ← set_value i p e.2 m; copy_all l m
  end.

Definition resize_with (nbucket2 : Z) (m : FlatMap) : option (bool * FlatMap) :=
  let nbucket2 := flatmap_round nbucket2 in
  if _nbucket m =? nbucket2 then Some (false, m)
  else
    '(r, new_map) ← init nbucket2 (_load_factor m) fm_empty;
    if negb (r =? 0) then Some (false, m)
    else
      it ← (if initialized m then iter_begin m else Some (Iter 0 0));
      l ← (if initialized m then visit (length (concat (buckets m))) m it else Some []);
      new_map ← copy_all l new_map;
      Some (true, new_map).
End Resize.

(** Constructing a new element, in the first node of bucket [i] or at position [p]. *)
Definition new_element (key : K) (i : Z) (b : bucket) (p : nat) (m : FlatMap) : option (FlatMap * Z * nat) :=
  m ← set_bucket (set_size m (uadd 64 (_size m) 1)) i (take p b ++ (key, vinit) :: drop p b);
  Some (m, i, p).

(** [operator[]]; the fuel bounds the nested resizes. *)
Fixpoint index_ (fuel : nat) (key : K) (m : FlatMap) : option (FlatMap * Z * nat) :=
  match fuel with
  | O => None
  | S fuel =>
      let i := bucket_of m key in
      b ← zget (buckets m) i;
      match b with
      | [] =>
          m ← update_thumbnail (fun t => bit_array_set t i) m;
          new_element key i [] 0 m
      | _ :: _ =>
          let insert_at (p : nat) (scale : bool) :=
            '(r, m') ← (if is_too_crowded (_size m) (_nbucket m) (_load_factor m) && scale
                        then resize_with (index_ fuel) (uadd 64 (_nbucket m) 1) m else Some (false, m));
            if (r : bool) then index_ fuel key m' else new_element key i b p m in
          if multi then insert_at 1%nat (negb (forallb (fun e => bool_decide (e.1 = key)) b))
          else match find_in key b with
               | Some (p, _) => Some (m, i, p)
               | None => insert_at (length b) true
               end
      end
  end.

(** Each resize at least doubles the buckets, so 64 nested ones suffice. *)
Definition index (key : K) (m : FlatMap) : option (FlatMap * Z * nat) := index_ 64 key m.

Definition insert (key : K) (value : V) (m : FlatMap) : option (FlatMap * Z * nat) :=
  '(m, i, p) ← index key m; m ← set_value i p value m; Some (m, i, p).


(** ** Removal *)

(** [erase] of a map with unique keys: the count and the old value. *)
Definition erase (key : K) (m : FlatMap) : option (Z * option V * FlatMap) :=
  if negb (initialized m) then Some (0, None, m)
  else
    let i := bucket_of m key in
    b ← zget (buckets m) i;
    match b with
    | [] => Some (0, None, m)
    | e :: rest =>
        if decide (e.1 = key) then
          m ← (match rest with
               | [] => m ← set_bucket m i []; update_thumbnail (fun t => bit_array_unset t i) m
               | p :: rest' => set_bucket m i (p :: rest')
               end);
          Some (1, Some e.2, set_size m (usub 64 (_size m) 1))
        else
          match find_in key rest with
          | Some (p, e') =>
              m ← set_bucket m i (e :: delete p rest);
              Some (1, Some e'.2, set_size m (usub 64 (_size m) 1))
          | None => Some (0, None, m)
          end
    end.

(** [erase] of a map with repeated keys: when the first element of the bucket goes and
    another one stays, the one that stays is assigned to the destroyed first element. *)
Definition erase_multi (key : K) (m : FlatMap) : option (Z * list V * FlatMap) :=
  if negb (initialized m) then Some (0, [], m)
  else
    let i := bucket_of m key in
    b ← zget (buckets m) i;
    match b with
    | [] => Some (0, [], m)
    | e :: _ =>
        let gone := matching key b in
        let kept := others key b in
        let m := set_size m (usub 64 (_size m) (zlen gone)) in
        m ← (match kept with
             | [] => m ← set_bucket m i []; update_thumbnail (fun t => bit_array_unset t i) m
             | _ :: _ =>
                 if bool_decide (e.1 = key) && negb trivially_destructible then None
                 else set_bucket m i kept
             end);
        Some (zlen gone, gone.*2, m)
    end.

Definition clear (m : FlatMap) : option FlatMap :=
  if _size m =? 0 then Some m
  else
    let m := MkFlatMap 0 (_nbucket m) ((fun bs : list bucket => replicate (length bs) ([] : bucket)) <$> _buckets m) (_thumbnail m) (_load_factor m) in
    match _thumbnail m with
    | Some t => t' ← bit_array_clear t (_nbucket m);
                Some (MkFlatMap 0 (_nbucket m) (_buckets m) (Some t') (_load_factor m))
    | None => Some m
    end.

(** ** Assignment, swap, saved positions *)



Definition swap (this rhs : FlatMap) : FlatMap * FlatMap := (rhs, this).

(** ** Rounding and masking *)

(** One smearing step doubles the reach of every set bit. *)
Lemma smear_step x y n : 0 <= n ->
(forall i, 0 <= i -> Z.testbit y i = true <-> exists d, 0 <= d < n /\ Z.testbit x (i + d) = true) ->
forall i, 0 <= i -> Z.testbit (Z.lor y (ushr y n)) i = true <-> exists d, 0 <= d < 2 * n /\ Z.testbit x (i + d) = true.
Proof.
intros Hn H i Hi. unfold ushr. rewrite Z.lor_spec, Z.shiftr_spec, orb_true_iff, !H by lia. split.
- intros [(d & Hd & E)|(d & Hd & E)]; [exists d|exists (n + d)]; (split; [lia|]); [done|]. by rewrite Z.add_assoc.
- intros (d & Hd & E). destruct (Z.lt_ge_cases d n); [left; exists d|right; exists (d - n)]; (split; [lia|]); [done|].
  by replace (i + n + (d - n)) with (i + d) by lia.
Qed.

Lemma find_power2_spec b : 2 <= b <= 2 ^ 64 -> find_power2 b = wrap 64 (2 ^ Z.log2_up b).
Proof.
intros Hb. unfold find_power2, usub. rewrite wrap_small by lia. set (x := b - 1).
assert (H0 : forall i, 0 <= i -> Z.testbit x i = true <-> exists d, 0 <= d < 1 /\ Z.testbit x (i + d) = true).
{ intros i Hi. split; [intros E; exists 0; split; [lia|by rewrite Z.add_0_r]|].
  intros (d & Hd & E). replace d with 0 in E by lia. by rewrite Z.add_0_r in E. }
pose proof (smear_step _ _ 1 ltac:(lia) H0) as H1. pose proof (smear_step _ _ 2 ltac:(lia) H1) as H2.
pose proof (smear_step _ _ 4 ltac:(lia) H2) as H4. pose proof (smear_step _ _ 8 ltac:(lia) H4) as H8.
pose proof (smear_step _ _ 16 ltac:(lia) H8) as H16. pose proof (smear_step _ _ 32 ltac:(lia) H16) as H32.
cbv zeta. match goal with |- uadd 64 ?t 1 = _ => set (y := t) in * end.
assert (E : y = Z.ones (Z.log2 x + 1)).
{ pose proof (Z.log2_nonneg x). apply Z.bits_inj'. intros i Hi. rewrite testbit_ones by lia. apply eq_true_iff_eq. rewrite H32, Z.ltb_lt by done. split.
  - intros (d & Hd & E). destruct (Z.lt_ge_cases i (Z.log2 x + 1)); [done|]. by rewrite Z.bits_above_log2 in E by lia.
  - intros Hl. exists (Z.log2 x - i). split.
    + assert (Z.log2 x < 64) by (apply Z.log2_lt_pow2; lia). lia.
    + replace (i + (Z.log2 x - i)) with (Z.log2 x) by lia. apply Z.bit_log2. lia. }
rewrite E, Z.ones_equiv. unfold uadd. f_equal. rewrite Z.log2_up_eqn by lia.
assert (Z.log2 x + 1 = Z.succ (Z.log2 (Z.pred b))) as -> by (unfold x; rewrite Z.sub_1_r; lia). lia.
Qed.

(** The table sizes: the powers of two from 8 on. *)
Definition table_size (n : Z) : Prop := exists k, 3 <= k <= 57 /\ n = 2 ^ k.

Lemma table_size_range n : table_size n -> 8 <= n <= 2 ^ 57.
Proof.
intros (k & Hk & ->). split; [change 8 with (2 ^ 3)|]; apply Z.pow_le_mono_r; lia.
Qed.

(** The least table size above a requested count. *)
Lemma flatmap_round_spec n : 0 <= n <= 2 ^ 57 ->
table_size (flatmap_round n) /\ n <= flatmap_round n /\ (forall k, 3 <= k -> n <= 2 ^ k -> flatmap_round n <= 2 ^ k).
Proof.
intros Hn. unfold flatmap_round. destruct (Z.leb_spec n 8).
- split_and!; [exists 3; split; [lia|done]|lia|]. intros k Hk _. change 8 with (2 ^ 3). apply Z.pow_le_mono_r; lia.
- rewrite find_power2_spec by lia. pose proof (Z.log2_up_spec n ltac:(lia)) as [Hl Hu].
  assert (3 < Z.log2_up n) by (apply Z.log2_up_lt_pow2; lia).
  assert (Z.log2_up n <= 57) by (apply Z.log2_up_le_pow2; lia).
  assert (2 ^ Z.log2_up n <= 2 ^ 57) by (apply Z.pow_le_mono_r; lia).
  rewrite wrap_small by lia. split_and!; [exists (Z.log2_up n); split; [lia|done]|lia|].
  intros k Hk Hnk. apply Z.pow_le_mono_r; [lia|]. apply Z.log2_up_le_pow2; lia.
Qed.

Lemma flatmap_round_next n : table_size n -> n < 2 ^ 57 -> flatmap_round (uadd 64 n 1) = 2 * n.
Proof.
intros (k & Hk & ->) Hn. assert (8 <= 2 ^ k) by (change 8 with (2 ^ 3); apply Z.pow_le_mono_r; lia).
unfold uadd. rewrite wrap_small by lia. unfold flatmap_round. destruct (Z.leb_spec (2 ^ k + 1) 8); [lia|].
rewrite find_power2_spec by lia. replace (2 ^ k + 1) with (Z.succ (2 ^ k)) by lia.
rewrite Z.log2_up_succ_pow2 by lia. rewrite Z.pow_succ_r by lia. apply wrap_small. lia.
Qed.

Lemma flatmap_round_id n : table_size n -> flatmap_round n = n.
Proof.
intros Hn. pose proof (table_size_range _ Hn). destruct (flatmap_round_spec n ltac:(lia)) as (_ & Hge & Hle).
destruct Hn as (k & Hk & E). specialize (Hle k ltac:(lia) ltac:(lia)). lia.
Qed.

Lemma flatmap_mod_range h n : table_size n -> 0 <= flatmap_mod h n < n.
Proof.
intros Hn. pose proof (table_size_range n Hn). destruct Hn as (k & Hk & ->). unfold flatmap_mod, usub. rewrite wrap_small by lia.
rewrite Z.sub_1_r, <- Z.ones_equiv, Z.land_ones by lia. apply Z.mod_pos_bound. lia.
Qed.

Lemma crowded_spec size n lf : 0 <= size < 2 ^ 52 -> 0 <= n <= 2 ^ 57 -> 10 <= lf <= 100 ->
is_too_crowded size n lf = (n * lf <=? size * 100).
Proof. intros. unfold is_too_crowded, umul. rewrite !wrap_small by nia. done. Qed.

(** ** Invariant *)

Definition elements (m : FlatMap) : list (K * V) := concat (buckets m).

(** The thumbnail of a sparse map has the bit of every non-empty bucket and no other. *)
Definition thumb_ok (n : Z) (bs : list (list (K * V))) (t : option (list Z)) : Prop :=
if sparse then exists a, t = Some a /\ words_ok a /\ (n + 63) / 64 <= zlen a /\
  forall i b, zget bs i = Some b -> bit a i = match b with [] => false | _ => true end
else t = None.

Record fm_ok (m : FlatMap) : Prop := {
fo_init : initialized m = true;
fo_nbucket : table_size (_nbucket m);
fo_len : zlen (buckets m) = _nbucket m;
fo_hash : forall i b e, zget (buckets m) i = Some b -> e ∈ b -> bucket_of m e.1 = i;
fo_size : _size m = zlen (elements m);
fo_small : zlen (elements m) < 2 ^ 52;
fo_load : 10 <= _load_factor m <= 100;
fo_keys : multi = false -> NoDup (elements m).*1;
fo_thumb : thumb_ok (_nbucket m) (buckets m) (_thumbnail m);
}.

(** *** Buckets and elements *)

Lemma zget_split {A} (l : list A) i x : zget l i = Some x -> exists l1 l2, l = l1 ++ x :: l2 /\ zlen l1 = i.
Proof.
intros E. pose proof (zget_Some_range _ _ _ E). unfold zget in E. destruct (Z.ltb_spec i 0); [done|].
exists (take (Z.to_nat i) l), (drop (S (Z.to_nat i)) l). split; [symmetry; by apply take_drop_middle|].
unfold zlen in *. rewrite length_take. lia.
Qed.

Lemma zset_split {A} (l1 l2 : list A) x y : zset (l1 ++ x :: l2) (zlen l1) y = Some (l1 ++ y :: l2).
Proof.
rewrite zset_ok by (rewrite zlen_app, zlen_cons; pose proof (zlen_nonneg l1); pose proof (zlen_nonneg l2); lia).
f_equal. unfold zlen. rewrite Nat2Z.id. apply list_eq. intros i.
destruct (Nat.eq_dec i (length l1)) as [->|Hi].
- rewrite list_lookup_insert_eq by (rewrite length_app; cbn; lia). rewrite lookup_app_r, Nat.sub_diag by lia. done.
- rewrite list_lookup_insert_ne by done. destruct (Nat.lt_ge_cases i (length l1)).
  + by rewrite !lookup_app_l by lia.
  + rewrite !lookup_app_r by lia. destruct (i - length l1)%nat eqn:E; [lia|done].
Qed.

(** Replacing one bucket replaces its elements among all elements. *)
Lemma set_bucket_elements m i b b' : zget (buckets m) i = Some b ->
exists m' r, set_bucket m i b' = Some m' /\ zset (buckets m) i b' = Some (buckets m') /\
  _size m' = _size m /\ _nbucket m' = _nbucket m /\ _thumbnail m' = _thumbnail m /\ _load_factor m' = _load_factor m /\
  initialized m' = true /\ elements m ≡ₚ b ++ r /\ elements m' ≡ₚ b' ++ r.
Proof.
intros E. destruct (zget_split _ _ _ E) as (l1 & l2 & El & <-). unfold set_bucket. rewrite El, zset_split. cbn [mbind option_bind].
eexists _, (concat l1 ++ concat l2). split_and!; [reflexivity|done..| |]; unfold elements, buckets.
- fold (buckets m). rewrite El, concat_app. cbn [concat]. apply Permutation_app_swap_app.
- cbn. rewrite concat_app. cbn [concat]. apply Permutation_app_swap_app.
Qed.

(** *** Memory: what the allocators promise *)

Definition malloc_ok : Prop := (forall n, table_size n -> alloc_ok n = true) /\
forall n, 0 < n < 2 ^ 63 -> exists a, malloc n = Some a /\ words_ok a /\ zlen a = n / 8.

Lemma bit_array_malloc_ok n : malloc_ok -> 0 < n <= 2 ^ 57 ->
exists a, bit_array_malloc malloc n = Some a /\ words_ok a /\ zlen a = (n + 63) / 64.
Proof.
intros [_ Hm] Hn. unfold bit_array_malloc. destruct (Z.eqb_spec n 0); [lia|].
assert (E : BIT_ARRAY_LEN n = (n + 63) / 64 * 8).
{ unfold BIT_ARRAY_LEN, umul, uadd. rewrite (wrap_small 64 (n + 63)) by lia. apply wrap_small. clear - Hn. zlia. }
destruct (Hm (BIT_ARRAY_LEN n)) as (a & Ea & Ha & El); [rewrite E; clear - Hn; zlia|]. exists a. split_and!; [done|done|]. rewrite El, E. apply Z.div_mul. lia.
Qed.

Lemma zget_replicate {A} (x y : A) n i : zget (replicate n x) i = Some y -> y = x.
Proof. unfold zget. destruct (i <? 0); [done|]. by intros [-> _]%lookup_replicate. Qed.

Lemma concat_replicate_nil {A} n : concat (replicate n (@nil A)) = [].
Proof. by induction n. Qed.

(** A cleared thumbnail goes with buckets that are all invalid. *)
Lemma thumb_cleared n t : table_size n -> words_ok t -> (n + 63) / 64 <= zlen t ->
exists t', bit_array_clear t n = Some t' /\ words_ok t' /\ (n + 63) / 64 <= zlen t' /\
  forall i b, zget (replicate (Z.to_nat n) (@nil (K * V))) i = Some b -> bit t' i = match b with [] => false | _ => true end.
Proof.
intros Hn%table_size_range Ht Hl. destruct (bit_array_clear_ok t n Ht ltac:(lia) ltac:(lia) Hl) as (t' & E & Ht' & El & Hb).
exists t'. split_and!; [done|done|lia|]. intros i b Hi. pose proof (zget_Some_range _ _ _ Hi) as Hr.
apply zget_replicate in Hi as ->. unfold zlen in Hr. rewrite length_replicate in Hr. rewrite Hb by lia.
destruct (Z.ltb_spec i n); [done|lia].
Qed.

Lemma round_loop_ok fuel n lf : 0 <= n <= 2 ^ 57 -> 10 <= lf <= 100 -> round_loop fuel 0 n lf = Some (flatmap_round n).
Proof.
intros Hn Hlf. destruct (flatmap_round_spec n Hn) as (Ht & _ & _). pose proof (table_size_range _ Ht).
destruct fuel; cbn [round_loop]; rewrite crowded_spec by lia; destruct (Z.leb_spec (flatmap_round n * lf) (0 * 100)); done || lia.
Qed.

Lemma new_buckets_ok n lf : malloc_ok -> 0 < n <= 2 ^ 57 -> 10 <= lf <= 100 ->
exists t, new_buckets_and_thumbnail lf 0 n = Some (replicate (Z.to_nat (flatmap_round n)) [], t, flatmap_round n) /\
  thumb_ok (flatmap_round n) (replicate (Z.to_nat (flatmap_round n)) []) t.
Proof.
intros Hm Hn Hlf. unfold new_buckets_and_thumbnail, thumb_ok. rewrite round_loop_ok by lia. cbn [mbind option_bind].
destruct (flatmap_round_spec n ltac:(lia)) as (Ht & _ & _). pose proof (table_size_range _ Ht). rewrite (proj1 Hm) by done.
destruct sparse; [|by exists None].
destruct (bit_array_malloc_ok (flatmap_round n) Hm ltac:(lia)) as (a & -> & Ha & El). cbn [mbind option_bind].
destruct (thumb_cleared _ a Ht Ha ltac:(lia)) as (t' & -> & Ht' & Hl' & Hb). cbn [mbind option_bind].
exists (Some t'). split; [done|]. by exists t'.
Qed.

(** An empty map over fresh buckets. *)
Lemma fresh_ok n t lf : table_size n -> 10 <= lf <= 100 -> thumb_ok n (replicate (Z.to_nat n) []) t ->
fm_ok (MkFlatMap 0 n (Some (replicate (Z.to_nat n) [])) t lf) /\
elements (MkFlatMap 0 n (Some (replicate (Z.to_nat n) [])) t lf) = [].
Proof.
intros Hn Hlf Ht. pose proof (table_size_range _ Hn).
assert (E : elements (MkFlatMap 0 n (Some (replicate (Z.to_nat n) [])) t lf) = []) by apply concat_replicate_nil.
split; [|done]. split; rewrite ?E; cbn [_size _nbucket _load_factor _thumbnail]; try done.
- unfold zlen. cbn. rewrite length_replicate. lia.
- intros i b e Hb He. apply zget_replicate in Hb as ->. by apply elem_of_nil in He.
- intros _. constructor.
Qed.

Lemma init_ok nbucket lf m : malloc_ok -> initialized m = false -> _thumbnail m = None -> 0 < nbucket <= 2 ^ 57 -> 10 <= lf <= 100 ->
exists m', init nbucket lf m = Some (0, m') /\ fm_ok m' /\ elements m' = [] /\
  _nbucket m' = flatmap_round nbucket /\ _load_factor m' = lf.
Proof.
intros Hm Hi Ht0 Hn Hlf. unfold init. rewrite Hi. destruct (Z.eqb_spec nbucket 0), (Z.ltb_spec lf 10), (Z.ltb_spec 100 lf); try lia.
cbn [orb]. destruct (new_buckets_ok nbucket lf Hm Hn Hlf) as (t & -> & Ht). cbn [mbind option_bind].
destruct (flatmap_round_spec nbucket ltac:(lia)) as (Hs & _ & _). pose proof (table_size_range _ Hs).
assert (exists t', update_thumbnail (fun a => bit_array_clear a (flatmap_round nbucket))
  (MkFlatMap 0 (flatmap_round nbucket) (Some (replicate (Z.to_nat (flatmap_round nbucket)) [])) (if sparse then t else _thumbnail m) lf)
  = Some (MkFlatMap 0 (flatmap_round nbucket) (Some (replicate (Z.to_nat (flatmap_round nbucket)) [])) t' lf) /\
  thumb_ok (flatmap_round nbucket) (replicate (Z.to_nat (flatmap_round nbucket)) []) t') as (t' & -> & Ht').
{ unfold update_thumbnail, thumb_ok in *. destruct sparse; [|rewrite Ht0; by exists None].
  destruct Ht as (a & -> & Ha & Hl & _). cbn [_thumbnail mbind option_bind].
  destruct (thumb_cleared _ a Hs Ha Hl) as (t' & -> & Ht' & Hl' & Hb). exists (Some t'). split; [done|]. by exists t'. }
cbn [mbind option_bind]. destruct (fresh_ok _ t' lf Hs Hlf Ht') as [Hok He]. eexists. split_and!; [reflexivity|done..].
Qed.

(** *** Replacing a bucket *)

Definition valid_bucket (b : list (K * V)) : bool := match b with [] => false | _ => true end.

(** The thumbnail follows a bucket that becomes valid or invalid. *)
Lemma thumb_update (v : bool) bs bs' i b' m : thumb_ok (_nbucket m) bs (_thumbnail m) -> table_size (_nbucket m) ->
zlen bs = _nbucket m -> zset bs i b' = Some bs' -> valid_bucket b' = v ->
exists t', update_thumbnail (fun t => if v then bit_array_set t i else bit_array_unset t i) m
  = Some (MkFlatMap (_size m) (_nbucket m) (_buckets m) t' (_load_factor m)) /\ thumb_ok (_nbucket m) bs' t'.
Proof.
unfold thumb_ok, update_thumbnail. intros Ht Hn%table_size_range Hl Hs Hv. pose proof (zset_inv _ _ _ _ Hs) as [Hi _].
destruct sparse; [|exists None; by destruct m; cbn in *; subst].
destruct Ht as (a & -> & Ha & Hla & Hb). cbn [mbind option_bind].
assert (exists a', (if v then bit_array_set a i else bit_array_unset a i) = Some a' /\ words_ok a' /\ zlen a' = zlen a /\
  forall j, bit a' j = if j =? i then v else bit a j) as (a' & -> & Ha' & El & Hb').
{ destruct v; [apply bit_array_set_ok|apply bit_array_unset_ok]; try done; clear - Hi Hn Hl Hla; zlia. }
exists (Some a'). split; [done|]. exists a'. split_and!; [done|done|lia|]. intros j b Hj. rewrite Hb'.
rewrite (zget_zset _ _ _ _ _ Hs) in Hj. destruct (Z.eqb_spec j i); [|by apply Hb]. injection Hj as <-. by rewrite <- Hv.
Qed.

(** A bucket that stays valid, or stays invalid, leaves the thumbnail alone. *)
Lemma thumb_keep n bs bs' i b b' t : thumb_ok n bs t -> zget bs i = Some b -> zset bs i b' = Some bs' ->
valid_bucket b' = valid_bucket b -> thumb_ok n bs' t.
Proof.
unfold thumb_ok. intros Ht Hg Hs Hv. destruct sparse; [|done]. destruct Ht as (a & -> & Ha & Hla & Hb).
exists a. split_and!; [done..|]. intros j c Hj. rewrite (zget_zset _ _ _ _ _ Hs) in Hj.
destruct (Z.eqb_spec j i) as [->|]; [|by apply Hb]. injection Hj as <-. rewrite (Hb _ _ Hg). symmetry. exact Hv.
Qed.

(** The invariant after bucket [i] changed from [b] to [b'], [r] being the other elements. *)
Lemma replace_bucket m m' i b b' r : fm_ok m -> zget (buckets m) i = Some b -> zset (buckets m) i b' = Some (buckets m') ->
initialized m' = true -> _nbucket m' = _nbucket m -> _load_factor m' = _load_factor m ->
elements m' ≡ₚ b' ++ r -> _size m' = zlen (b' ++ r) -> zlen (b' ++ r) < 2 ^ 52 ->
(forall e, e ∈ b' -> bucket_of m e.1 = i) -> (multi = false -> NoDup (b' ++ r).*1) ->
thumb_ok (_nbucket m) (buckets m') (_thumbnail m') -> fm_ok m'.
Proof.
intros Hok Hg Hs Hi Hn Hlf He Hsz Hsm Hb Hk Ht.
assert (El : zlen (elements m') = zlen (b' ++ r)) by (unfold zlen; by rewrite He).
split; rewrite ?Hn, ?Hlf, ?El; try done.
- apply Hok.
- rewrite (zset_len _ _ _ _ Hs). apply Hok.
- intros j c e Hj Hej. unfold bucket_of. rewrite Hn. rewrite (zget_zset _ _ _ _ _ Hs) in Hj.
  destruct (Z.eqb_spec j i) as [->|]; [injection Hj as <-; by apply Hb|by eapply (fo_hash _ Hok)].
- apply Hok.
- intros Hm. rewrite He. by apply Hk.
Qed.

(** The bucket of a key exists and holds all the elements with the key. *)
Lemma bucket_get m key : fm_ok m -> exists b, zget (buckets m) (bucket_of m key) = Some b.
Proof.
intros Hok. apply zget_is_Some. rewrite (fo_len _ Hok). apply flatmap_mod_range, Hok.
Qed.

Lemma elements_bucket m e : e ∈ elements m -> exists i b, zget (buckets m) i = Some b /\ e ∈ b.
Proof.
unfold elements. rewrite list_elem_of_In, in_concat. intros (b & Hb & He). apply list_elem_of_In in Hb, He.
apply list_elem_of_lookup in Hb as [n Hn]. exists (Z.of_nat n), b. split; [|done]. unfold zget.
destruct (Z.ltb_spec (Z.of_nat n) 0); [lia|]. by rewrite Nat2Z.id.
Qed.

Lemma bucket_elements m i b e : zget (buckets m) i = Some b -> e ∈ b -> e ∈ elements m.
Proof.
intros Hg He. destruct (zget_split _ _ _ Hg) as (l1 & l2 & E & _). unfold elements. rewrite E, concat_app. cbn [concat].
rewrite !elem_of_app. auto.
Qed.

Lemma key_bucket m key b e : fm_ok m -> zget (buckets m) (bucket_of m key) = Some b -> e ∈ elements m -> e.1 = key -> e ∈ b.
Proof.
intros Hok Hb He <-. destruct (elements_bucket _ _ He) as (i & c & Hc & Hec).
rewrite (fo_hash _ Hok _ _ _ Hc Hec) in Hb. congruence.
Qed.

(** The elements with the key, in chain order, are those of its bucket. *)
Lemma matching_concat m key bs : (forall i b e, zget bs i = Some b -> e ∈ b -> bucket_of m e.1 = i) ->
forall b, zget bs (bucket_of m key) = Some b -> matching key (concat bs) = matching key b.
Proof.
intros Hh b Hb. destruct (zget_split _ _ _ Hb) as (l1 & l2 & -> & El). unfold matching. rewrite concat_app. cbn [concat].
assert (Hz : forall l, (forall i c, zget l i = Some c -> forall e, e ∈ c -> e.1 <> key) -> filter (fun e : K * V => e.1 = key) (concat l) = []).
{ intros l Hl. apply elem_of_nil_inv. intros e. rewrite list_elem_of_filter. intros [He Hin].
  apply list_elem_of_In, in_concat in Hin as (c & Hc & Hec). apply list_elem_of_In in Hc, Hec.
  apply list_elem_of_lookup in Hc as [n Hn]. apply (Hl (Z.of_nat n) c) in Hec; [done|].
  unfold zget. destruct (Z.ltb_spec (Z.of_nat n) 0); [lia|]. by rewrite Nat2Z.id. }
rewrite !filter_app, (Hz l1), (Hz l2); [by rewrite app_nil_r| |].
- intros i c Hc e He <-. pose proof (zget_Some_range _ _ _ Hc).
  specialize (Hh (zlen l1 + (1 + i)) c e). rewrite zget_app, zget_cons in Hh. pose proof (zlen_nonneg l1).
  destruct (Z.ltb_spec (zlen l1 + (1 + i)) (zlen l1)); [lia|]. replace (zlen l1 + (1 + i) - zlen l1) with (1 + i) in Hh by lia.
  destruct (Z.eqb_spec (1 + i) 0); [lia|]. replace (1 + i - 1) with i in Hh by lia. specialize (Hh Hc He). lia.
- intros i c Hc e He <-. pose proof (zget_Some_range _ _ _ Hc).
  specialize (Hh i c e). rewrite zget_app in Hh. destruct (Z.ltb_spec i (zlen l1)); [|lia]. specialize (Hh Hc He). lia.
Qed.

(** *** Iteration *)

(** The elements in the buckets from [pos] on. *)
Definition from_bucket (m : FlatMap) (pos : Z) : list (K * V) := concat (drop (Z.to_nat pos) (buckets m)).

Lemma from_bucket_step m i b : zget (buckets m) i = Some b -> from_bucket m i = b ++ from_bucket m (i + 1).
Proof.
intros E. pose proof (zget_Some_range _ _ _ E). unfold zget in E. destruct (Z.ltb_spec i 0); [lia|]. unfold from_bucket.
replace (Z.to_nat (i + 1)) with (S (Z.to_nat i)) by lia. by rewrite (drop_S _ _ _ E).
Qed.

Lemma from_bucket_end m : zlen (buckets m) = _nbucket m -> from_bucket m (_nbucket m) = [].
Proof. intros El. unfold from_bucket. rewrite drop_ge; [done|]. unfold zlen in El. lia. Qed.

(** Where the search for a valid bucket from [pos] must stop. *)
Definition stops_at (m : FlatMap) (pos e : Z) : Prop :=
pos <= e <= _nbucket m /\ from_bucket m pos = from_bucket m e /\
(e = _nbucket m \/ exists b, zget (buckets m) e = Some b /\ valid_bucket b = true).

Lemma is_valid_inside m pos b : zget (buckets m) pos = Some b -> pos <> _nbucket m -> is_valid m pos = Some (valid_bucket b).
Proof. intros E Hn. unfold is_valid. destruct (Z.eqb_spec pos (_nbucket m)); [done|]. by rewrite E. Qed.

Lemma find_valid_dense_ok m n pos : zlen (buckets m) = _nbucket m -> 0 <= pos <= _nbucket m -> _nbucket m - pos <= Z.of_nat n ->
exists e, find_valid_dense n m pos = Some e /\ stops_at m pos e.
Proof.
intros Hl. revert pos. induction n as [|n IH]; intros pos Hp Hn; cbn [find_valid_dense].
all: destruct (Z.eq_dec pos (_nbucket m)) as [->|Hne];
  [exists (_nbucket m); unfold is_valid; rewrite Z.eqb_refl; split; [done|split_and!; [lia|lia|done|by left]]|].
{ lia. }
destruct (zget_is_Some (buckets m) pos) as [b Hb]; [lia|]. rewrite (is_valid_inside _ _ _ Hb Hne). cbn [mbind option_bind].
destruct (valid_bucket b) eqn:E.
- exists pos. split; [done|]. split_and!; [lia|lia|done|]. right. by exists b.
- destruct (IH (pos + 1)) as (e & Ee & H1 & H2 & H3); [lia|lia|]. exists e. split; [done|]. split_and!; [lia|lia| |done].
  rewrite (from_bucket_step _ _ _ Hb). by destruct b.
Qed.

(** Buckets marked invalid hold nothing. *)
Lemma from_bucket_skip m (n : nat) pos : 0 <= pos -> (forall j, pos <= j < pos + Z.of_nat n -> zget (buckets m) j = Some []) ->
from_bucket m pos = from_bucket m (pos + Z.of_nat n).
Proof.
revert pos. induction n as [|n IH]; intros pos Hp H; [by rewrite Z.add_0_r|].
rewrite (from_bucket_step _ _ _ (H pos ltac:(lia))), app_nil_l, IH by (intros; try apply H; lia). f_equal. lia.
Qed.

Lemma find_valid_sparse_ok m pos : ctzl_spec ctzl -> fm_ok m -> sparse = true -> 64 <= _nbucket m -> 0 <= pos <= _nbucket m ->
exists e, find_valid_sparse m pos = Some e /\ stops_at m pos e.
Proof.
intros Hc Hok Hs Hw Hp. pose proof (fo_len _ Hok) as Hl. unfold find_valid_sparse.
destruct (Z.eq_dec pos (_nbucket m)) as [->|Hne].
{ exists (_nbucket m). unfold is_valid. rewrite Z.eqb_refl. split; [done|split_and!; [lia|lia|done|by left]]. }
destruct (zget_is_Some (buckets m) pos) as [b Hb]; [lia|]. rewrite (is_valid_inside _ _ _ Hb Hne). cbn [mbind option_bind].
destruct (valid_bucket b) eqn:E.
{ exists pos. split; [done|]. split_and!; [lia|lia|done|]. right. by exists b. }
pose proof (fo_thumb _ Hok) as Ht. unfold thumb_ok in Ht. rewrite Hs in Ht. destruct Ht as (a & -> & Ha & Hla & Hbit). cbn [mbind option_bind].
pose proof (table_size_range _ (fo_nbucket _ Hok)) as Hr.
assert (H64 : _nbucket m mod 64 = 0).
{ destruct (fo_nbucket _ Hok) as (k & Hk & Ek). assert (6 <= k).
  { apply (Z.pow_le_mono_r_iff 2); [lia|lia|]. rewrite <- Ek. exact Hw. }
  rewrite Ek. replace k with (k - 6 + 6) by lia. rewrite Z.pow_add_r by lia. change (2 ^ 6) with 64. apply Z.mod_mul. lia. }
destruct (bit_array_first1_ok ctzl Hc a (pos + 1) (_nbucket m) Ha) as (r & -> & H1 & H2 & H3);
  [lia|lia|done|clear - H64 Hp Hne; zlia|].
exists r. split; [done|]. split_and!; [lia|lia| |].
- replace r with (pos + Z.of_nat (Z.to_nat (r - pos))) by lia. apply from_bucket_skip; [lia|]. intros j Hj.
  destruct (zget_is_Some (buckets m) j) as [c Hcj]; [lia|]. rewrite Hcj. destruct (Z.eq_dec j pos) as [->|].
  + rewrite Hb in Hcj. injection Hcj as <-. by destruct b.
  + specialize (Hbit _ _ Hcj). rewrite H2 in Hbit by lia. by destruct c.
- destruct (Z.eq_dec r (_nbucket m)) as [|Hrn]; [by left|right]. destruct (zget_is_Some (buckets m) r) as [c Hcr]; [lia|].
  exists c. split; [done|]. specialize (Hbit _ _ Hcr). rewrite H3 in Hbit by lia. by destruct c.
Qed.

(** Iteration of dense maps always works, that of sparse maps from 64 buckets on. *)
Definition iterable (m : FlatMap) : Prop := if sparse then 64 <= _nbucket m /\ ctzl_spec ctzl else True.

Lemma iter_at_ok m pos : fm_ok m -> iterable m -> 0 <= pos <= _nbucket m ->
exists e, iter_at m pos = Some (Iter e 0) /\ stops_at m pos e.
Proof.
intros Hok Hi Hp. unfold iter_at, find_valid, iterable in *.
assert (exists e, (if sparse then find_valid_sparse m pos else find_valid_dense (length (buckets m)) m pos) = Some e /\ stops_at m pos e)
  as (e & -> & He); [|by exists e].
destruct sparse eqn:Es; [destruct Hi; by apply find_valid_sparse_ok|apply find_valid_dense_ok; [apply Hok|lia|]].
pose proof (fo_len _ Hok) as E. unfold zlen in E. lia.
Qed.

Lemma iter_end_ok m : fm_ok m -> iterable m -> iter_end m = Some (Iter (_nbucket m) 0).
Proof.
intros Hok Hi. pose proof (table_size_range _ (fo_nbucket _ Hok)).
destruct (iter_at_ok m (_nbucket m) Hok Hi ltac:(lia)) as (e & E & H1 & _). unfold iter_end. rewrite E. do 2 f_equal. lia.
Qed.

(** The elements an iterator still has to visit: [None] if it does not point to one. *)
Definition iter_rest (m : FlatMap) (it : iter) (l : list (K * V)) : Prop :=
it = Iter (_nbucket m) 0 /\ l = [] \/
exists b, zget (buckets m) (it_entry it) = Some b /\ (it_node it < length b)%nat /\
  l = drop (it_node it) b ++ from_bucket m (it_entry it + 1).

Lemma stops_rest m pos e : fm_ok m -> stops_at m pos e -> iter_rest m (Iter e 0) (from_bucket m pos).
Proof.
intros Hok (H1 & -> & [->|(b & Hb & Hv)]).
- left. split; [done|]. apply from_bucket_end, Hok.
- right. exists b. cbn. split_and!; [done|by destruct b; [|cbn; lia]|by apply from_bucket_step].
Qed.

Lemma iter_next_ok m it x l : fm_ok m -> iterable m -> iter_rest m it (x :: l) ->
iter_deref m it = Some x /\ exists it', iter_next m it = Some it' /\ iter_rest m it' l.
Proof.
intros Hok Hi [[_ ?]|(b & Hb & Hn & El)]; [done|]. unfold iter_deref, iter_next. rewrite Hb. cbn [mbind option_bind].
destruct (b !! it_node it) as [y|] eqn:Ey; [|apply lookup_ge_None in Ey; lia].
rewrite (drop_S _ _ _ Ey) in El. cbn in El. injection El as -> ->. split; [done|].
pose proof (zget_Some_range _ _ _ Hb) as Hr. rewrite (fo_len _ Hok) in Hr. destruct (Z.eqb_spec (it_entry it) (_nbucket m)); [lia|].
cbn [mbind option_bind]. destruct (decide (S (it_node it) < length b)%nat).
- eexists. split; [reflexivity|]. right. exists b. cbn. done.
- destruct (iter_at_ok m (it_entry it + 1) Hok Hi ltac:(lia)) as (e & -> & He). eexists. split; [reflexivity|].
  rewrite drop_ge by lia. by eapply stops_rest.
Qed.

Lemma iter_rest_nil m it : iter_rest m it [] -> it = Iter (_nbucket m) 0.
Proof.
intros [[-> _]|(b & _ & Hn & El)]; [done|]. symmetry in El. apply app_nil in El as [El _]. apply (f_equal length) in El.
rewrite length_drop in El. cbn in El. lia.
Qed.

Lemma iter_rest_cons m it x l : fm_ok m -> iter_rest m it (x :: l) -> it <> Iter (_nbucket m) 0.
Proof.
intros Hok [[_ ?]|(b & Hb & _)] ->; [done|]. apply zget_Some_range in Hb. cbn in Hb. rewrite (fo_len _ Hok) in Hb. lia.
Qed.

Lemma visit_ok m n it l : fm_ok m -> iterable m -> iter_rest m it l -> (length l <= n)%nat -> visit n m it = Some l.
Proof.
intros Hok Hi. revert n it. induction l as [|x l IH]; intros n it Hr Hn.
- apply iter_rest_nil in Hr as ->. destruct n; cbn [visit]; rewrite iter_end_ok by done; cbn [mbind option_bind]; by rewrite decide_True.
- destruct n; [cbn in Hn; lia|]. cbn [visit]. rewrite iter_end_ok by done. cbn [mbind option_bind].
  rewrite decide_False by (by eapply iter_rest_cons). destruct (iter_next_ok m it x l Hok Hi Hr) as (-> & it' & -> & Hr').
  cbn [mbind option_bind]. rewrite (IH n) by (done || cbn in Hn; lia). done.
Qed.

(** A full loop visits the elements once each, in bucket order. *)
Lemma visit_all m : fm_ok m -> iterable m ->
exists it, iter_begin m = Some it /\ iter_rest m it (elements m) /\ visit (length (concat (buckets m))) m it = Some (elements m).
Proof.
intros Hok Hi. pose proof (table_size_range _ (fo_nbucket _ Hok)). destruct (iter_at_ok m 0 Hok Hi ltac:(lia)) as (e & E & He).
exists (Iter e 0). apply stops_rest in He; [|done]. split_and!; [done|done|]. apply visit_ok; try done.
Qed.

(** *** Insertion *)

(** The place [index] returns: the bucket of the key and the position of an element with it. *)
Definition at_place (m : FlatMap) (key : K) (i : Z) (p : nat) (v : V) : Prop :=
i = bucket_of m key /\ exists b, zget (buckets m) i = Some b /\ b !! p = Some (key, v).

(** When a new element makes the table grow: the table is crowded, and the bucket of the key
    holds another key. *)
Definition must_grow (m : FlatMap) (key : K) : Prop :=
is_too_crowded (_size m) (_nbucket m) (_load_factor m) = true /\ (multi = false -> key ∉ (elements m).*1) /\
exists e, e ∈ elements m /\ e.1 <> key /\ bucket_of m e.1 = bucket_of m key.

Definition growth (key : K) (m m' : FlatMap) : Prop :=
(must_grow m key -> 2 * _nbucket m <= _nbucket m') /\ (~ must_grow m key -> _nbucket m' = _nbucket m).

Definition index_post (key : K) (m m' : FlatMap) (i : Z) (p : nat) : Prop :=
fm_ok m' /\ iterable m' /\ _nbucket m <= _nbucket m' /\ _load_factor m' = _load_factor m /\ growth key m m' /\
exists v, at_place m' key i p v /\
  (if decide (multi = false /\ key ∈ (elements m).*1) then m' = m
   else elements m' ≡ₚ (key, vinit) :: elements m /\ v = vinit).

Definition indexes (idx : K -> FlatMap -> option (FlatMap * Z * nat)) (n : Z) : Prop := forall key m,
fm_ok m -> iterable m -> zlen (elements m) + 1 < 2 ^ 52 -> n <= _nbucket m ->
exists m' i p, idx key m = Some (m', i, p) /\ index_post key m m' i p.

Lemma iterable_mono m m' : iterable m -> _nbucket m <= _nbucket m' -> iterable m'.
Proof. unfold iterable. destruct sparse; [|done]. intros [??] ?. split; [lia|done]. Qed.

Lemma new_element_ok m key b p t : fm_ok m -> iterable m -> ~ must_grow m key -> zlen (elements m) + 1 < 2 ^ 52 ->
zget (buckets m) (bucket_of m key) = Some b -> (p <= length b)%nat -> (multi = false -> key ∉ (elements m).*1) ->
(forall bs, zset (buckets m) (bucket_of m key) (take p b ++ (key, vinit) :: drop p b) = Some bs -> thumb_ok (_nbucket m) bs t) ->
exists m', new_element key (bucket_of m key) b p (MkFlatMap (_size m) (_nbucket m) (_buckets m) t (_load_factor m))
  = Some (m', bucket_of m key, p) /\ index_post key m m' (bucket_of m key) p.
Proof.
intros Hok Hi Hgr Hsz Hb Hp Hk Ht. unfold new_element.
set (b' := take p b ++ (key, vinit) :: drop p b) in *.
set (m1 := set_size _ _).
destruct (set_bucket_elements m1 (bucket_of m key) b b' Hb) as (m' & r & -> & Hs & F1 & F2 & F3 & F4 & F5 & He & He').
assert (Hp1 : b' ≡ₚ (key, vinit) :: b).
{ unfold b'. rewrite <- Permutation_middle, take_drop. done. }
assert (Hel : elements m' ≡ₚ (key, vinit) :: elements m) by (rewrite He', Hp1; cbn; f_equiv; symmetry; exact He).
pose proof (zlen_nonneg (elements m)) as Hnn. pose proof (fo_small _ Hok) as Hsm.
assert (Hlen : zlen (b' ++ r) = 1 + zlen (elements m)).
{ rewrite <- zlen_cons with (x := (key, vinit)). unfold zlen. by rewrite <- He', Hel. }
cbn [mbind option_bind]. exists m'. split; [done|].
assert (Hok' : fm_ok m').
{ apply (replace_bucket m m' (bucket_of m key) b b' r); try done.
  - rewrite F1, Hlen. cbn. rewrite (fo_size _ Hok). unfold uadd. rewrite wrap_small; lia.
  - lia.
  - intros e. rewrite Hp1. intros [->|He1]%elem_of_cons; [done|]. by eapply (fo_hash _ Hok).
  - intros Hm. rewrite <- He', Hel. cbn. constructor; [by apply Hk|by apply (fo_keys _ Hok)].
  - rewrite F3. by apply Ht. }
split_and!; [done|apply (iterable_mono m); [done|rewrite F2; cbn; lia]|rewrite F2; cbn; lia|done|by split|].
exists vinit. split.
- split; [unfold bucket_of; by rewrite F2|]. exists b'. rewrite (zget_zset _ _ _ _ _ Hs), Z.eqb_refl. split; [done|].
  unfold b'. rewrite lookup_app_r by (rewrite length_take; lia). rewrite length_take, Nat.min_l, Nat.sub_diag by lia. done.
- destruct (decide _) as [[Hm Hin]|]; [by apply Hk in Hm|done].
Qed.

(** Assignment through the place. *)
Lemma set_value_ok m key i p v value : fm_ok m -> at_place m key i p v ->
exists m' r, set_value i p value m = Some m' /\ fm_ok m' /\ _nbucket m' = _nbucket m /\ _load_factor m' = _load_factor m /\
  _size m' = _size m /\ at_place m' key i p value /\ elements m ≡ₚ (key, v) :: r /\ elements m' ≡ₚ (key, value) :: r.
Proof.
intros Hok (Ei & b & Hb & Hbp). unfold set_value. rewrite Hb. cbn [mbind option_bind]. rewrite Hbp. cbn [mbind option_bind fst].
destruct (set_bucket_elements m i b (<[p:=(key, value)]> b) Hb) as (m' & r & -> & Hs & F1 & F2 & F3 & F4 & F5 & He & He').
assert (Hp : (p < length b)%nat) by (by eapply lookup_lt_Some).
assert (Eb : b ≡ₚ (key, v) :: (take p b ++ drop (S p) b)).
{ rewrite <- (take_drop_middle _ _ _ Hbp) at 1. by rewrite <- Permutation_middle. }
assert (Eb' : <[p:=(key, value)]> b ≡ₚ (key, value) :: (take p b ++ drop (S p) b)).
{ rewrite insert_take_drop by done. by rewrite <- Permutation_middle. }
assert (Elen : zlen (<[p:=(key, value)]> b ++ r) = zlen (elements m)).
{ unfold zlen. rewrite He, !length_app, length_insert. done. }
set (b0 := take p b ++ drop (S p) b) in *. exists m', (b0 ++ r). split; [done|]. split.
{ apply (replace_bucket m m' i b (<[p:=(key, value)]> b) r); try done.
  - rewrite F1, Elen. apply Hok.
  - rewrite Elen. apply Hok.
  - intros e. rewrite Eb'. intros [->|Hin]%elem_of_cons; [done|]. apply (fo_hash _ Hok i b); [done|]. rewrite Eb. by right.
  - intros Hm. pose proof (fo_keys _ Hok Hm) as Hk. rewrite He in Hk. rewrite (Permutation_app_tail r Eb) in Hk. rewrite (Permutation_app_tail r Eb'). exact Hk.
  - rewrite F3. eapply thumb_keep; [apply Hok|done|done|]. destruct b; [done|]. by destruct p. }
split_and!; [done|done|done| | |].
- split; [unfold bucket_of in *; by rewrite F2|]. exists (<[p:=(key, value)]> b). rewrite (zget_zset _ _ _ _ _ Hs), Z.eqb_refl.
  split; [done|]. by apply list_lookup_insert_eq.
- etrans; [exact He|]. by apply (Permutation_app_tail r) in Eb.
- etrans; [exact He'|]. by apply (Permutation_app_tail r) in Eb'.
Qed.

Lemma at_place_key m key i p v : at_place m key i p v -> key ∈ (elements m).*1.
Proof.
intros (_ & b & Hb & Hp). apply list_elem_of_fmap. exists (key, v). split; [done|].
eapply bucket_elements; [done|]. by eapply list_elem_of_lookup_2.
Qed.

Lemma crowded_iff m : fm_ok m -> is_too_crowded (_size m) (_nbucket m) (_load_factor m) = true <->
  _nbucket m * _load_factor m <= zlen (elements m) * 100.
Proof.
intros Hok. pose proof (table_size_range _ (fo_nbucket _ Hok)). pose proof (fo_small _ Hok). pose proof (fo_load _ Hok).
rewrite (fo_size _ Hok). pose proof (zlen_nonneg (elements m)). rewrite crowded_spec by lia. apply Z.leb_le.
Qed.

(** Copying elements with fresh keys one by one; a table with room for all of them does not
    grow. *)
Lemma copy_all_ok idx n l m : indexes idx n -> fm_ok m -> iterable m -> zlen l + zlen (elements m) < 2 ^ 52 -> n <= _nbucket m ->
(multi = false -> NoDup (l.*1 ++ (elements m).*1)) ->
exists m', copy_all idx l m = Some m' /\ fm_ok m' /\ iterable m' /\ _nbucket m <= _nbucket m' /\
  _load_factor m' = _load_factor m /\ elements m' ≡ₚ l ++ elements m /\
  ((zlen l + zlen (elements m)) * 100 < _nbucket m * _load_factor m -> _nbucket m' = _nbucket m).
Proof.
intros Hx. revert m. induction l as [|[k v] l IH]; intros m Hok Hi Hsz Hn Hk; [by exists m|]. cbn [copy_all fst snd].
rewrite zlen_cons in Hsz. pose proof (zlen_nonneg l). pose proof (zlen_nonneg (elements m)).
destruct (Hx k m Hok Hi ltac:(lia) Hn) as (m1 & i & p & -> & Hok1 & Hi1 & Hn1 & Hl1 & [_ Hg] & w & Hpl & Hpost). cbn [mbind option_bind].
rewrite decide_False in Hpost; cycle 1.
{ intros [Hm Hin]. specialize (Hk Hm). cbn in Hk. apply NoDup_cons in Hk as [Hk _]. apply Hk, elem_of_app. by right. }
destruct Hpost as [He1 ->].
destruct (set_value_ok m1 k i p vinit v Hok1 Hpl) as (m2 & r & -> & Hok2 & Hn2 & Hl2 & _ & _ & Hr1 & Hr2). cbn [mbind option_bind].
assert (Er : r ≡ₚ elements m) by (apply (Permutation_cons_inv (a := (k, vinit))); by rewrite <- Hr1, He1).
rewrite Er in Hr2.
assert (Hz2 : zlen (elements m2) = 1 + zlen (elements m)) by (rewrite <- zlen_cons with (x := (k, v)); unfold zlen; by rewrite Hr2).
destruct (IH m2) as (m' & -> & Hok' & Hi' & Hn' & Hl' & He' & Hroom); try done.
- apply (iterable_mono m1); [done|lia].
- lia.
- lia.
- intros Hm. specialize (Hk Hm). rewrite Hr2. cbn in *. by rewrite <- Permutation_middle.
- exists m'. split_and!; [done|done|done|lia|congruence| |].
  + rewrite He', Hr2. cbn. by rewrite <- Permutation_middle.
  + rewrite zlen_cons. intros Hlt. assert (Hnot : ~ must_grow m k) by (intros [Hc _]; apply crowded_iff in Hc; [lia|done]).
    specialize (Hg Hnot). rewrite Hroom; [lia|]. rewrite Hz2, Hn2, Hl2, Hg, Hl1. lia.
Qed.

Lemma resize_with_ok idx nbucket2 m : malloc_ok -> fm_ok m -> iterable m -> 0 < nbucket2 <= 2 ^ 57 ->
indexes idx (flatmap_round nbucket2) -> flatmap_round nbucket2 <> _nbucket m -> (sparse = true -> 64 <= flatmap_round nbucket2) ->
exists m', resize_with idx nbucket2 m = Some (true, m') /\ fm_ok m' /\ iterable m' /\ flatmap_round nbucket2 <= _nbucket m' /\
  _load_factor m' = _load_factor m /\ elements m' ≡ₚ elements m /\
  (zlen (elements m) * 100 < flatmap_round nbucket2 * _load_factor m -> _nbucket m' = flatmap_round nbucket2).
Proof.
intros Hm Hok Hi Hn Hx Hne H64. unfold resize_with. destruct (Z.eqb_spec (_nbucket m) (flatmap_round nbucket2)); [lia|].
destruct (flatmap_round_spec nbucket2 ltac:(lia)) as (Ht & _ & _). pose proof (table_size_range _ Ht).
destruct (init_ok (flatmap_round nbucket2) (_load_factor m) fm_empty Hm) as (m0 & -> & Hok0 & He0 & Hn0 & Hl0);
  [done|done|lia|apply Hok|]. cbn [mbind option_bind]. rewrite Z.eqb_refl. cbn [negb].
destruct (flatmap_round_spec (flatmap_round nbucket2) ltac:(lia)) as (_ & Hge & _).
rewrite (fo_init _ Hok). destruct (visit_all m Hok Hi) as (it & -> & _ & Hv). cbn [mbind option_bind]. rewrite Hv. cbn [mbind option_bind].
destruct (copy_all_ok idx _ (elements m) m0 Hx Hok0) as (m' & -> & Hok' & Hi' & Hn' & Hl' & He' & Hroom).
- unfold iterable in *. destruct sparse; [|done]. split; [specialize (H64 eq_refl); lia|apply Hi].
- rewrite He0. change (zlen (@nil (K * V))) with 0. pose proof (fo_small _ Hok). lia.
- lia.
- intros Hmu. rewrite He0. cbn. rewrite app_nil_r. by apply (fo_keys _ Hok).
- cbn [mbind option_bind]. exists m'. split_and!; [done|done|done|lia|congruence|by rewrite He', He0, app_nil_r|].
  rewrite He0, Hl0, Hn0, (flatmap_round_id _ Ht), Z.add_0_r in Hroom. exact Hroom.
Qed.

Lemma find_in_Some key b p e : find_in key b = Some (p, e) -> b !! p = Some e /\ e.1 = key.
Proof. intros (Hp & Hk & _)%list_find_Some. done. Qed.

Lemma find_in_None key b : find_in key b = None -> forall e, e ∈ b -> e.1 <> key.
Proof. intros Hf%list_find_None e He. by eapply Forall_forall in Hf. Qed.

Lemma key_in_elements m key : key ∈ (elements m).*1 -> exists e, e ∈ elements m /\ e.1 = key.
Proof. intros (e & -> & He)%list_elem_of_fmap. eauto. Qed.

(** [find_in] decides whether the key is in the table. *)
Lemma find_in_absent m key b : fm_ok m -> zget (buckets m) (bucket_of m key) = Some b -> find_in key b = None ->
key ∉ (elements m).*1.
Proof.
intros Hok Hb Hf Hin. destruct (key_in_elements _ _ Hin) as (e & He & Hk).
apply (find_in_None _ _ Hf e); [|done]. by eapply key_bucket.
Qed.

Lemma thumb_other_valid m key b b' : fm_ok m -> zget (buckets m) (bucket_of m key) = Some b -> valid_bucket b' = valid_bucket b ->
forall bs, zset (buckets m) (bucket_of m key) b' = Some bs -> thumb_ok (_nbucket m) bs (_thumbnail m).
Proof. intros Hok Hb Hv bs Hs. eapply thumb_keep; [apply Hok|done|done|done]. Qed.

(** Adding to a bucket in use, after a resize if the table is crowded. *)
Lemma crowded_small m : fm_ok m -> is_too_crowded (_size m) (_nbucket m) (_load_factor m) = true -> _nbucket m < 2 ^ 56.
Proof.
intros Hok. rewrite crowded_iff by done. pose proof (fo_small _ Hok). pose proof (fo_load _ Hok).
pose proof (table_size_range _ (fo_nbucket _ Hok)). nia.
Qed.

Lemma table_size_double n : table_size n -> n < 2 ^ 56 -> table_size (2 * n).
Proof.
intros (k & Hk & ->) Hn. apply Z.pow_lt_mono_r_iff in Hn; [|lia|lia]. exists (k + 1). split; [lia|].
rewrite Z.pow_add_r by lia. lia.
Qed.

(** Resizing to the next size. *)
Lemma grow_ok idx m : malloc_ok -> fm_ok m -> iterable m -> _nbucket m < 2 ^ 56 -> indexes idx (2 * _nbucket m) ->
exists m', resize_with idx (uadd 64 (_nbucket m) 1) m = Some (true, m') /\ fm_ok m' /\ iterable m' /\ 2 * _nbucket m <= _nbucket m' /\
  _load_factor m' = _load_factor m /\ elements m' ≡ₚ elements m.
Proof.
intros Hm Hok Hi Hn Hx. pose proof (table_size_range _ (fo_nbucket _ Hok)).
pose proof (flatmap_round_next _ (fo_nbucket _ Hok) ltac:(lia)) as Er. rewrite <- Er in *.
destruct (resize_with_ok idx (uadd 64 (_nbucket m) 1) m) as (m' & ? & ? & ? & ? & ? & ? & _); try done.
- unfold uadd. rewrite wrap_small; lia.
- lia.
- intros Hs. unfold iterable in Hi. rewrite Hs in Hi. lia.
- by exists m'.
Qed.

Lemma index_post_resized key m m1 m' i p : fm_ok m1 -> elements m1 ≡ₚ elements m -> 2 * _nbucket m <= _nbucket m1 -> 0 <= _nbucket m ->
_load_factor m1 = _load_factor m -> must_grow m key -> index_post key m1 m' i p -> index_post key m m' i p.
Proof.
intros Hok He Hn Hn0 Hl Hgr (H1 & H2 & H3 & H4 & _ & v & H5 & H6). split_and!; [done|done|lia|congruence|split; [lia|done]|].
destruct Hgr as (_ & Hk & _). exists v. split; [done|]. rewrite decide_False in H6; [|intros [Hm Hin]; apply (Hk Hm); by rewrite <- He].
rewrite decide_False by (intros [Hm Hin]; by apply (Hk Hm)). destruct H6 as [H6 ->]. split; [|done]. by rewrite H6, He.
Qed.

Lemma eta m : MkFlatMap (_size m) (_nbucket m) (_buckets m) (_thumbnail m) (_load_factor m) = m.
Proof. by destruct m. Qed.

Lemma insert_at_ok fuel m key b p (scale : bool) : malloc_ok -> fm_ok m -> iterable m -> zlen (elements m) + 1 < 2 ^ 52 ->
zget (buckets m) (bucket_of m key) = Some b -> valid_bucket b = true -> (p <= length b)%nat -> (multi = false -> key ∉ (elements m).*1) ->
(scale = true <-> exists e, e ∈ elements m /\ e.1 <> key /\ bucket_of m e.1 = bucket_of m key) ->
(_nbucket m < 2 ^ 56 -> indexes (index_ fuel) (2 * _nbucket m)) ->
exists m' i p', ('(r, m') ← (if is_too_crowded (_size m) (_nbucket m) (_load_factor m) && scale
                        then resize_with (index_ fuel) (uadd 64 (_nbucket m) 1) m else Some (false, m));
   if (r : bool) then index_ fuel key m' else new_element key (bucket_of m key) b p m) = Some (m', i, p') /\ index_post key m m' i p'.
Proof.
intros Hm Hok Hi Hsz Hb Hv Hp Hk Hsc Hx.
assert (Hnew : ~ must_grow m key -> exists m', new_element key (bucket_of m key) b p m = Some (m', bucket_of m key, p) /\
  index_post key m m' (bucket_of m key) p).
{ intros Hgr. destruct (new_element_ok m key b p (_thumbnail m) Hok Hi Hgr Hsz Hb Hp Hk) as (m' & E & Hpost); [|rewrite eta in E; by exists m'].
  intros bs Hs. eapply thumb_other_valid; [done|done| |done]. rewrite Hv. by destruct (take p b). }
destruct (is_too_crowded _ _ _) eqn:Ec, scale; cbn [andb mbind option_bind].
2-4: destruct Hnew as (m' & -> & Hpost); [unfold must_grow; rewrite <- Hsc, Ec; naive_solver|by exists m', (bucket_of m key), p].
assert (Hgr : must_grow m key) by (split_and!; [done|done|by apply Hsc]).
apply crowded_small in Ec; [|done]. specialize (Hx Ec). destruct (grow_ok _ m Hm Hok Hi Ec Hx) as (m1 & -> & Hok1 & Hi1 & Hn1 & Hl1 & He1).
cbn [mbind option_bind]. pose proof (table_size_range _ (fo_nbucket _ Hok)).
destruct (Hx key m1 Hok1 Hi1) as (m' & i & p' & -> & Hpost); [by unfold zlen in *; rewrite He1|done|].
exists m', i, p'. split; [done|]. apply (index_post_resized key m m1); try done. lia.
Qed.

(** Another key in the bucket of [key]. *)
Lemma collision_bucket m key b : fm_ok m -> zget (buckets m) (bucket_of m key) = Some b ->
  (exists e, e ∈ elements m /\ e.1 <> key /\ bucket_of m e.1 = bucket_of m key) <-> exists e, e ∈ b /\ e.1 <> key.
Proof.
intros Hok Hb. split; intros (e & He & Hk).
- destruct Hk as [Hk Eb]. exists e. split; [|done]. rewrite <- Eb in Hb. by apply (key_bucket m e.1 b e).
- exists e. split_and!; [by eapply bucket_elements|done|]. by apply (fo_hash _ Hok _ b).
Qed.

Lemma collision_scale m key b : fm_ok m -> zget (buckets m) (bucket_of m key) = Some b ->
  negb (forallb (fun e => bool_decide (e.1 = key)) b) = true <->
  exists e, e ∈ elements m /\ e.1 <> key /\ bucket_of m e.1 = bucket_of m key.
Proof.
intros Hok Hb. rewrite (collision_bucket m key b Hok Hb). clear. induction b as [|x b IH]; cbn [forallb].
- split; [done|]. by intros (e & ?%elem_of_nil & _).
- destruct (bool_decide_reflect (x.1 = key)) as [Hx|Hx]; cbn [andb].
  + rewrite IH. split; intros (e & He & Hk); exists e; (split; [|done]); [by right|]. by apply elem_of_cons in He as [->|He].
  + split; [|done]. intros _. exists x. split; [by left|done].
Qed.

Lemma index_ok fuel n : malloc_ok -> 8 <= n -> 2 ^ 58 <= 2 ^ Z.of_nat fuel * n -> indexes (index_ fuel) n.
Proof.
intros Hm. revert n. induction fuel as [|fuel IH]; intros n Hn Hf key m Hok Hi Hsz Hnm.
{ pose proof (table_size_range _ (fo_nbucket _ Hok)). lia. }
pose proof (table_size_range _ (fo_nbucket _ Hok)).
assert (Hx : _nbucket m < 2 ^ 56 -> indexes (index_ fuel) (2 * _nbucket m)).
{ intros _. apply IH; [lia|]. rewrite Nat2Z.inj_succ, Z.pow_succ_r in Hf by lia. nia. }
cbn [index_]. destruct (bucket_get m key Hok) as [b Hb]. rewrite Hb. cbn [mbind option_bind]. destruct b as [|x b].
- destruct (thumb_update true (buckets m) _ (bucket_of m key) [(key, vinit)] m (fo_thumb _ Hok) (fo_nbucket _ Hok) (fo_len _ Hok)
    (zset_ok _ _ _ (zget_Some_range _ _ _ Hb)) eq_refl) as (t & -> & Ht). cbn [mbind option_bind].
  destruct (new_element_ok m key [] 0 t Hok Hi) as (m' & -> & Hpost); [|done|done|done| | |by exists m', (bucket_of m key), 0%nat].
  + intros (_ & _ & Hex). apply (collision_bucket m key [] Hok Hb) in Hex as (e & He & _). by apply elem_of_nil in He.
  + intros _ Hin. destruct (key_in_elements _ _ Hin) as (e & He & Hek). by apply (key_bucket m key [] e Hok Hb He), elem_of_nil in Hek.
  + intros bs Hs. cbn in Hs. rewrite zset_ok in Hs by (by eapply zget_Some_range). by injection Hs as <-.
- destruct multi eqn:Emu; [apply insert_at_ok; try done; [cbn; lia|congruence|by apply collision_scale]|].
  destruct (find_in key (x :: b)) as [[p e]|] eqn:Ef.
  + exists m, (bucket_of m key), p. split; [done|]. apply find_in_Some in Ef as [Hp <-]. assert (Hin : e.1 ∈ (elements m).*1).
    { apply list_elem_of_fmap. exists e. split; [done|]. eapply bucket_elements; [done|]. by eapply list_elem_of_lookup_2. }
    split_and!; [done|done|lia|done|split; [by intros (_ & Hk & _); apply Hk in Hin|done]|].
    exists e.2. assert (Hpl : at_place m e.1 (bucket_of m e.1) p e.2).
    { split; [done|]. exists (x :: b). split; [done|]. by destruct e. }
    split; [done|]. rewrite decide_True; [done|]. split; [done|]. by eapply at_place_key.
  + apply insert_at_ok; try done; [intros _; by eapply find_in_absent|]. split; [|done]. intros _.
    apply (collision_bucket m key (x :: b) Hok Hb). exists x. split; [by left|]. apply (find_in_None _ _ Ef). by left.
Qed.

Lemma index_total key m : malloc_ok -> fm_ok m -> iterable m -> zlen (elements m) + 1 < 2 ^ 52 ->
exists m' i p, index key m = Some (m', i, p) /\ index_post key m m' i p.
Proof.
intros Hm Hok Hi Hsz. pose proof (table_size_range _ (fo_nbucket _ Hok)).
eapply (index_ok 64 8); try done; lia.
Qed.

(** [insert] binds the key: a new element, or a new value for the only one. *)
Lemma insert_ok key value m : malloc_ok -> fm_ok m -> iterable m -> zlen (elements m) + 1 < 2 ^ 52 ->
exists m' i p, insert key value m = Some (m', i, p) /\ fm_ok m' /\ iterable m' /\ growth key m m' /\
  _load_factor m' = _load_factor m /\ at_place m' key i p value /\
  exists r, elements m' ≡ₚ (key, value) :: r /\
    if decide (multi = false /\ key ∈ (elements m).*1) then exists v, elements m ≡ₚ (key, v) :: r else r ≡ₚ elements m.
Proof.
intros Hm Hok Hi Hsz. unfold insert. destruct (index_total key m Hm Hok Hi Hsz) as (m1 & i & p & -> & H1 & H2 & H3 & H4 & [G1 G2] & v & Hp & Hpost).
cbn [mbind option_bind]. destruct (set_value_ok m1 key i p v value H1 Hp) as (m' & r & -> & Hok' & Hn' & Hl' & _ & Hp' & Hr & Hr').
cbn [mbind option_bind]. exists m', i, p. split_and!; [done|done| |unfold growth; by rewrite Hn'|congruence|done|].
- apply (iterable_mono m1); [done|lia].
- exists r. split; [done|]. destruct (decide _); [subst m1; by exists v|].
  destruct Hpost as [He ->]. apply (Permutation_cons_inv (a := (key, vinit))). by rewrite <- Hr, He.
Qed.


(** *** Lookup *)


Lemma seek_all_ok key m : fm_ok m -> seek_all key m = Some (matching key (elements m)).*2.
Proof.
intros Hok. unfold seek_all. rewrite (fo_init _ Hok). cbn [negb]. destruct (bucket_get m key Hok) as [b Hb]. rewrite Hb.
cbn [mbind option_bind]. do 2 f_equal. symmetry. apply (matching_concat m); [by apply fo_hash|done].
Qed.

(** *** Removal *)

Definition removed (m m' : FlatMap) (gone : list (K * V)) : Prop :=
fm_ok m' /\ _nbucket m' = _nbucket m /\ _load_factor m' = _load_factor m /\ elements m ≡ₚ gone ++ elements m'.

(** The facts common to both ways to store what is left of a bucket. *)
Lemma remove_bucket m m' i b b' gone r : fm_ok m -> zget (buckets m) i = Some b -> b ≡ₚ gone ++ b' ->
zset (buckets m) i b' = Some (buckets m') -> initialized m' = true -> _nbucket m' = _nbucket m -> _load_factor m' = _load_factor m ->
_size m' = usub 64 (_size m) (zlen gone) -> elements m ≡ₚ b ++ r -> elements m' ≡ₚ b' ++ r ->
thumb_ok (_nbucket m) (buckets m') (_thumbnail m') -> removed m m' gone.
Proof.
intros Hok Hb Eb Hs Hi Hn Hl Hsz He He' Ht.
assert (He2 : elements m ≡ₚ gone ++ (b' ++ r)) by (rewrite He, Eb; by rewrite app_assoc).
assert (El : zlen (elements m) = zlen gone + zlen (b' ++ r)) by (rewrite <- zlen_app; unfold zlen; by rewrite He2).
pose proof (zlen_nonneg gone). pose proof (zlen_nonneg (b' ++ r)). pose proof (fo_small _ Hok).
split_and!; [|done|done|by rewrite He2, He'].
apply (replace_bucket m m' i b b' r); try done.
- rewrite Hsz, (fo_size _ Hok). unfold usub. rewrite wrap_small; lia.
- lia.
- intros e Hin. apply (fo_hash _ Hok i b); [done|]. rewrite Eb. apply elem_of_app. by right.
- intros Hm. pose proof (fo_keys _ Hok Hm) as Hk. rewrite He2, fmap_app in Hk. by apply NoDup_app in Hk as (_ & _ & Hk).
Qed.

Lemma remove_some_ok m i b b' gone : fm_ok m -> zget (buckets m) i = Some b -> b ≡ₚ gone ++ b' -> valid_bucket b' = true ->
exists m', set_bucket (set_size m (usub 64 (_size m) (zlen gone))) i b' = Some m' /\ removed m m' gone.
Proof.
intros Hok Hb Eb Hv.
destruct (set_bucket_elements (set_size m (usub 64 (_size m) (zlen gone))) i b b' Hb) as (m' & r & -> & Hs & F1 & F2 & F3 & F4 & F5 & He & He').
exists m'. split; [done|]. apply (remove_bucket m m' i b b' gone r); try done. rewrite F3. eapply thumb_keep; [apply Hok|done|done|].
rewrite Hv. destruct b; [|done]. apply Permutation_nil in Eb. by destruct gone, b'.
Qed.

Lemma remove_last_ok m i b gone : fm_ok m -> zget (buckets m) i = Some b -> b ≡ₚ gone ->
exists m', (m1 ← set_bucket (set_size m (usub 64 (_size m) (zlen gone))) i []; update_thumbnail (fun t => bit_array_unset t i) m1) = Some m' /\
  removed m m' gone.
Proof.
intros Hok Hb Eb.
destruct (set_bucket_elements (set_size m (usub 64 (_size m) (zlen gone))) i b [] Hb) as (m1 & r & -> & Hs & F1 & F2 & F3 & F4 & F5 & He & He').
cbn [mbind option_bind].
destruct (thumb_update false (buckets m) (buckets m1) i [] m1) as (t & -> & Ht); try done.
{ rewrite F2, F3. apply Hok. } { rewrite F2. apply Hok. } { rewrite F2. apply Hok. }
eexists. split; [reflexivity|]. eapply (remove_bucket m _ i b [] gone r); try done; [by rewrite app_nil_r|]. by rewrite F2 in Ht.
Qed.

(** The size may be updated before or after. *)
Lemma set_bucket_size m i b n : set_bucket (set_size m n) i b = (fun m => set_size m n) <$> set_bucket m i b.
Proof. unfold set_bucket. cbn. by destruct (zset _ _ _). Qed.

Lemma update_thumbnail_size op m n : update_thumbnail op (set_size m n) = (fun m => set_size m n) <$> update_thumbnail op m.
Proof. unfold update_thumbnail. destruct sparse; [|done]. cbn. destruct (_thumbnail m); [|done]. cbn. by destruct (op l). Qed.

Lemma set_bucket_keeps m i b m' : set_bucket m i b = Some m' -> _size m' = _size m.
Proof. unfold set_bucket. destruct (zset _ _ _); [|done]. by intros [= <-]. Qed.

Lemma update_thumbnail_keeps op m m' : update_thumbnail op m = Some m' -> _size m' = _size m.
Proof.
unfold update_thumbnail. destruct sparse; [|by intros [= <-]]. destruct (_thumbnail m); [|done]. cbn.
destruct (op l); [|done]. by intros [= <-].
Qed.

Lemma find_in_delete key b p e : find_in key b = Some (p, e) -> b ≡ₚ (key, e.2) :: delete p b.
Proof. intros [Hp <-]%find_in_Some. destruct e. rewrite <- (delete_Permutation _ _ _ Hp). done. Qed.

Lemma erase_ok key m : fm_ok m -> exists c v m', erase key m = Some (c, v, m') /\
match v with
| Some x => c = 1 /\ removed m m' [(key, x)]
| None => c = 0 /\ m' = m /\ key ∉ (elements m).*1
end.
Proof.
intros Hok. unfold erase. rewrite (fo_init _ Hok). cbn [negb]. destruct (bucket_get m key Hok) as [b Hb]. rewrite Hb.
cbn [mbind option_bind]. destruct b as [|e rest].
{ exists 0, None, m. split_and!; [done..|]. by eapply find_in_absent. }
destruct (decide (e.1 = key)) as [Hk|Hk].
- assert (Eb : e :: rest ≡ₚ [(key, e.2)] ++ rest) by (destruct e; cbn in *; by subst).
  destruct rest as [|e2 rest].
  + destruct (remove_last_ok m _ _ [(key, e.2)] Hok Hb Eb) as (m' & E & Hr). rewrite set_bucket_size in E.
    destruct (set_bucket m (bucket_of m key) []) as [m1|] eqn:E1; [|done]. apply set_bucket_keeps in E1. cbn [mbind option_bind fmap option_fmap option_map] in *.
    rewrite update_thumbnail_size in E. destruct (update_thumbnail _ m1) as [m2|] eqn:E2; [|done]. apply update_thumbnail_keeps in E2. injection E as <-.
    eexists _, _, _. split; [reflexivity|]. by rewrite E2, E1.
  + destruct (remove_some_ok m _ _ (e2 :: rest) [(key, e.2)] Hok Hb Eb eq_refl) as (m' & E & Hr). rewrite set_bucket_size in E.
    destruct (set_bucket m (bucket_of m key) (e2 :: rest)) eqn:E1; [|done]. apply set_bucket_keeps in E1. injection E as <-.
    eexists _, _, _. split; [reflexivity|]. by rewrite E1.
- destruct (find_in key rest) as [[p e']|] eqn:Ef.
  + assert (Eb : e :: rest ≡ₚ [(key, e'.2)] ++ e :: delete p rest).
    { rewrite (find_in_delete _ _ _ _ Ef) at 1. cbn. apply Permutation_swap. }
    destruct (remove_some_ok m _ _ (e :: delete p rest) [(key, e'.2)] Hok Hb Eb eq_refl) as (m' & E & Hr). rewrite set_bucket_size in E.
    destruct (set_bucket m (bucket_of m key) (e :: delete p rest)) eqn:E1; [|done]. apply set_bucket_keeps in E1. injection E as <-.
    eexists _, _, _. split; [reflexivity|]. by rewrite E1.
  + exists 0, None, m. split_and!; [done..|]. eapply find_in_absent; [done|done|].
    unfold find_in in *. cbn. rewrite decide_False by done. by rewrite Ef.
Qed.

Lemma filter_split key (b : list (K * V)) : b ≡ₚ matching key b ++ others key b.
Proof.
unfold matching, others. induction b as [|e b IH]; [done|]. rewrite !filter_cons. destruct (decide (e.1 = key)) as [Hk|Hk].
- rewrite decide_False by (by intros []). cbn. by rewrite <- IH.
- rewrite decide_True by done. rewrite <- Permutation_middle. by rewrite <- IH.
Qed.

(** All the elements with the key leave, unless the first one does and others stay and the
  element type has a destructor to speak of. *)
Lemma erase_multi_ok key m : fm_ok m -> trivially_destructible = true ->
exists m', erase_multi key m = Some (zlen (matching key (elements m)), (matching key (elements m)).*2, m') /\
  removed m m' (matching key (elements m)).
Proof.
intros Hok Ht. unfold erase_multi. rewrite (fo_init _ Hok). cbn [negb]. destruct (bucket_get m key Hok) as [b Hb]. rewrite Hb.
cbn [mbind option_bind]. replace (matching key (elements m)) with (matching key b)
  by (symmetry; by apply (matching_concat m); [apply fo_hash|]).
destruct b as [|e rest].
{ exists m. split; [done|]. by split_and!. }
pose proof (filter_split key (e :: rest)) as Eb. destruct (others key (e :: rest)) as [|e2 kept] eqn:Ek.
- rewrite app_nil_r in Eb. destruct (remove_last_ok m _ _ _ Hok Hb Eb) as (m' & -> & Hr). by exists m'.
- rewrite Ht, andb_false_r. destruct (remove_some_ok m _ _ _ _ Hok Hb Eb eq_refl) as (m' & -> & Hr). by exists m'.
Qed.

(** The assignment to a destroyed element. *)
Lemma erase_multi_undefined key m b e : fm_ok m -> trivially_destructible = false -> zget (buckets m) (bucket_of m key) = Some b ->
head b = Some e -> e.1 = key -> others key b <> [] -> erase_multi key m = None.
Proof.
intros Hok Ht Hb Hh Hk Ho. unfold erase_multi. rewrite (fo_init _ Hok). cbn [negb]. rewrite Hb. cbn [mbind option_bind].
destruct b as [|e' rest]; [done|]. injection Hh as ->. destruct (others key (e :: rest)); [done|].
by rewrite bool_decide_eq_true_2, Ht.
Qed.

(** *** Clearing and assignment *)

Lemma clear_ok m : fm_ok m -> exists m', clear m = Some m' /\ fm_ok m' /\ elements m' = [] /\
_nbucket m' = _nbucket m /\ _load_factor m' = _load_factor m.
Proof.
intros Hok. unfold clear. destruct (Z.eqb_spec (_size m) 0) as [Hz|Hz].
- exists m. split_and!; try done. rewrite (fo_size _ Hok) in Hz. unfold zlen in Hz. by destruct (elements m).
- pose proof (fo_init _ Hok) as Hi. unfold initialized in Hi. destruct (_buckets m) as [bs|] eqn:Eb; [|done].
  pose proof (fo_len _ Hok) as El. unfold buckets in El. rewrite Eb in El. cbn in El. cbn [fmap option_fmap option_map _thumbnail _nbucket _buckets].
  assert (En : length bs = Z.to_nat (_nbucket m)) by (unfold zlen in El; lia). rewrite En.
  pose proof (fo_thumb _ Hok) as Ht. unfold thumb_ok in Ht. destruct sparse eqn:Es.
  + destruct Ht as (a & -> & Ha & Hl & _). cbn [_load_factor].
    destruct (thumb_cleared _ a (fo_nbucket _ Hok) Ha Hl) as (t' & -> & Ht' & Hl' & Hb). cbn [mbind option_bind].
    destruct (fresh_ok (_nbucket m) (Some t') (_load_factor m) (fo_nbucket _ Hok) (fo_load _ Hok)) as [H1 H2].
    { unfold thumb_ok. rewrite Es. by exists t'. }
    eexists. split_and!; [reflexivity|done..].
  + rewrite Ht. cbn [_load_factor]. destruct (fresh_ok (_nbucket m) None (_load_factor m) (fo_nbucket _ Hok) (fo_load _ Hok)) as [H1 H2].
    { unfold thumb_ok. by rewrite Es. }
    eexists. split_and!; [reflexivity|done..].
Qed.









(** ** Properties *)

(** The table sizes are the powers of two from 8 on: [flatmap_round] gives the least one
  that is not below the request, the next request after a size doubles it, and masking with
  a size takes the hash code modulo the size. *)
Theorem flat_map_hashing_correct h n : 0 <= h < 2 ^ 64 -> 0 <= n <= 2 ^ 57 ->
table_size (flatmap_round n) /\ n <= flatmap_round n /\ (forall k, 3 <= k -> n <= 2 ^ k -> flatmap_round n <= 2 ^ k) /\
(table_size n -> n < 2 ^ 57 -> flatmap_round (uadd 64 n 1) = 2 * n) /\
flatmap_mod h (flatmap_round n) = h mod flatmap_round n.
Proof.
intros Hh Hn. destruct (flatmap_round_spec n Hn) as (H1 & H2 & H3). split_and!; [done|done|done|apply flatmap_round_next|].
pose proof (table_size_range _ H1). destruct H1 as (k & Hk & E). unfold flatmap_mod, usub. rewrite wrap_small by lia.
rewrite E, Z.sub_1_r, <- Z.ones_equiv, Z.land_ones by lia. done.
Qed.

Context `{!Countable K}.

(** The finite map a table with unique keys stands for. *)
Definition contents (m : FlatMap) : gmap K V := list_to_map (elements m).


Lemma contents_None m key : contents m !! key = None <-> key ∉ (elements m).*1.
Proof. unfold contents. by rewrite not_elem_of_list_to_map. Qed.

Lemma contents_perm m l : multi = false -> fm_ok m -> elements m ≡ₚ l -> contents m = list_to_map l.
Proof. intros Hm Hok He. apply list_to_map_proper; [by apply (fo_keys _ Hok)|done]. Qed.



(** C2: [erase] of a map with unique keys deletes the key, returns how many elements went
  (none or one) and the old value, and leaves the map alone if the key is absent; [clear]
  empties the map; both keep the number of buckets and the invariant. *)
Theorem flat_map_erase_refines key m : multi = false -> fm_ok m ->
(exists m', erase key m = Some (match contents m !! key with Some _ => 1 | None => 0 end, contents m !! key, m') /\ fm_ok m' /\
   contents m' = delete key (contents m) /\ _nbucket m' = _nbucket m /\ _load_factor m' = _load_factor m) /\
(exists m', clear m = Some m' /\ fm_ok m' /\ contents m' = ∅ /\ _size m' = 0 /\
   _nbucket m' = _nbucket m /\ _load_factor m' = _load_factor m).
Proof.
intros Hmu Hok. split.
- destruct (erase_ok key m Hok) as (c & v & m' & E & Hr). destruct v as [x|].
  + destruct Hr as (-> & Hok' & Hn & Hl & He). cbn in He. pose proof (contents_perm _ _ Hmu Hok He) as Ec. cbn in Ec.
    assert (Ea : contents m' !! key = None).
    { apply contents_None. pose proof (fo_keys _ Hok Hmu) as Hk. rewrite He in Hk. cbn in Hk. by apply NoDup_cons in Hk as [Hk _]. }
    exists m'. rewrite Ec, lookup_insert_eq. split_and!; [done|done| |done|done]. by rewrite delete_insert_id.
  + destruct Hr as (-> & -> & Hr). apply contents_None in Hr. exists m. rewrite Hr. split_and!; [done|done| |done|done].
    by rewrite delete_id.
- destruct (clear_ok m Hok) as (m' & E & Hok' & He & Hn & Hl). exists m'. split_and!; [done|done| | |done|done].
  + unfold contents. by rewrite He.
  + by rewrite (fo_size _ Hok'), He.
Qed.

(** a map with repeated keys is a bag: [insert] adds one element and removes none,
  [seek_all] gives all the values of the key, [erase] removes exactly the elements with the
  key and returns their values - if the elements have no destructor to speak of. With any
  other type, erasing the first element of a bucket where another key stays assigns to an
  element whose destructor has run. *)
Theorem flat_map_multi_refines key value m : multi = true -> malloc_ok -> fm_ok m -> iterable m -> zlen (elements m) + 1 < 2 ^ 52 ->
(exists m' i p, insert key value m = Some (m', i, p) /\ fm_ok m' /\ iterable m' /\ at_place m' key i p value /\
   elements m' ≡ₚ (key, value) :: elements m) /\
seek_all key m = Some (matching key (elements m)).*2 /\
(trivially_destructible = true -> exists m',
   erase_multi key m = Some (zlen (matching key (elements m)), (matching key (elements m)).*2, m') /\ fm_ok m' /\
   elements m' ≡ₚ others key (elements m)) /\
(forall b e, trivially_destructible = false -> zget (buckets m) (bucket_of m key) = Some b ->
   head b = Some e -> e.1 = key -> others key b <> [] -> erase_multi key m = None).
Proof.
intros Hmu Hm Hok Hi Hsz. split_and!.
- destruct (insert_ok key value m Hm Hok Hi Hsz) as (m' & i & p & E & Hok' & Hi' & _ & _ & Hp & r & He' & Hr).
  exists m', i, p. split_and!; [done|done|done|done|]. rewrite decide_False in Hr by (intros [? _]; congruence). by rewrite He', Hr.
- by apply seek_all_ok.
- intros Ht. destruct (erase_multi_ok key m Hok Ht) as (m' & E & Hok' & _ & _ & He). exists m'. split_and!; [done|done|].
  apply (Permutation_app_inv_l (matching key (elements m))). rewrite <- He. apply filter_split.
- intros b e Ht Hb Hh Hk Ho. by eapply erase_multi_undefined.
Qed.


End Table.
Arguments FlatMap : clear implicits.

(** ** Saved positions

    [save_iterator] and [restore_iterator] use the private member [_entry] of the iterator. The
    sparse iterator has no such member, and the dense one grants it to the dense map with
    unique keys alone (the friend declaration fixes [_Sparse] to [false] and leaves [_Multi] at
    its default [false]), so for the other three kinds of map the two functions do not compile
    when they are used. They are modelled for this one kind; [kinit] is [key_type()]. *)
Section SavedPositions.
Context {K V : Type} `{EqDecision K} (hashfn : K -> Z) (kinit : K) (ctzl : Z -> Z).
Implicit Types m : FlatMap K V.

Record position_hint := PositionHint { h_nbucket : Z; h_offset : Z; h_at_entry : bool; h_key : K }.

Definition save_iterator (m : FlatMap K V) (it : iter) : option position_hint :=
  e ← iter_end false ctzl m;
  if decide (it = e) then Some (PositionHint (_nbucket m) (it_entry it) false kinit)
  else x ← iter_deref m it; Some (PositionHint (_nbucket m) (it_entry it) (bool_decide (it_node it = 0%nat)) x.1).

Definition restore_iterator (m : FlatMap K V) (hint : position_hint) : option iter :=
  if negb (h_nbucket hint =? _nbucket m) then iter_begin false ctzl m
  else if _nbucket m <=? h_offset hint then iter_end false ctzl m
  else if h_at_entry hint then iter_at false ctzl m (h_offset hint)
  else
    b ← zget (buckets m) (h_offset hint);
    match b with
    | [] => iter_at false ctzl m (h_offset hint + 1)
    | _ => match find_in (h_key hint) b with
           | Some (p, _) => Some (Iter (h_offset hint) p)
           | None => iter_at false ctzl m (h_offset hint)
           end
    end.

(** A hint always gives a usable iterator, and one that resumes no later than the next
  bucket if the table was not resized. *)
Lemma restore_ok m h : fm_ok hashfn false false m -> iterable false ctzl m -> 0 <= h_offset h ->
exists it l, restore_iterator m h = Some it /\ iter_rest m it l /\
  (h_nbucket h = _nbucket m -> h_offset h < _nbucket m -> from_bucket m (h_offset h + 1) `suffix_of` l) /\
  (h_nbucket h <> _nbucket m -> l = elements m).
Proof.
intros Hok Hi Ho. unfold restore_iterator. destruct (Z.eqb_spec (h_nbucket h) (_nbucket m)) as [E|E]; cbn [negb].
2: { destruct (visit_all hashfn false false ctzl m Hok Hi) as (it & -> & Hr & _). by exists it, (elements m). }
destruct (Z.leb_spec (_nbucket m) (h_offset h)).
{ rewrite (iter_end_ok hashfn false false ctzl m Hok Hi). eexists _, []. split_and!; [reflexivity|by left|lia|done]. }
destruct (iter_at_ok hashfn false false ctzl m (h_offset h) Hok Hi ltac:(lia)) as (e & Ee & He). apply (stops_rest hashfn false false) in He; [|done].
destruct (zget_is_Some (buckets m) (h_offset h)) as [b Hb]; [rewrite (fo_len _ _ _ _ Hok); lia|].
assert (Hsuf : from_bucket m (h_offset h + 1) `suffix_of` from_bucket m (h_offset h)).
{ rewrite (from_bucket_step _ _ _ Hb). by apply suffix_app_r. }
destruct (h_at_entry h); [rewrite Ee; by eexists _, _|]. rewrite Hb. cbn [mbind option_bind]. destruct b as [|x b].
- destruct (iter_at_ok hashfn false false ctzl m (h_offset h + 1) Hok Hi ltac:(lia)) as (e' & -> & He'). apply (stops_rest hashfn false false) in He'; [|done].
  eexists _, _. split_and!; [reflexivity|done|done|done].
- destruct (find_in (h_key h) (x :: b)) as [[p e']|] eqn:Ef; [|rewrite Ee; by eexists _, _]. apply find_in_Some in Ef as [Hp _].
  eexists _, _. split_and!; [reflexivity|right; eexists; split_and!; [exact Hb|exact (lookup_lt_Some _ _ _ Hp)|reflexivity]| |done].
  intros _ _. by apply suffix_app_r.
Qed.

Lemma bucket_keys m i b : fm_ok hashfn false false m -> zget (buckets m) i = Some b -> NoDup b.*1.
Proof.
intros Hok Hb. destruct (zget_split _ _ _ Hb) as (l1 & l2 & E & _). pose proof (fo_keys _ _ _ _ Hok eq_refl) as Hk.
unfold elements in Hk. rewrite E, concat_app in Hk. cbn [concat] in Hk. rewrite !fmap_app in Hk.
apply NoDup_app in Hk as (_ & _ & Hk). by apply NoDup_app in Hk as (Hk & _ & _).
Qed.

Lemma find_in_unique (key : K) (b : list (K * V)) p e : NoDup b.*1 -> b !! p = Some e -> e.1 = key -> find_in key b = Some (p, e).
Proof.
intros Hnd Hp Hk. apply list_find_Some. split_and!; [done|done|]. intros j y Hj Hlt Hy.
assert (j = p); [|lia]. apply (NoDup_lookup b.*1 j p key Hnd); rewrite list_lookup_fmap.
- rewrite Hj. cbn. by rewrite Hy.
- rewrite Hp. cbn. by rewrite Hk.
Qed.

(** Saving and restoring a position of an unchanged map with unique keys. *)
Lemma save_restore_ok m it l : fm_ok hashfn false false m -> iterable false ctzl m -> iter_rest m it l ->
exists h, save_iterator m it = Some h /\ restore_iterator m h = Some it /\ 0 <= h_offset h.
Proof.
intros Hok Hi Hr. pose proof (table_size_range _ (fo_nbucket _ _ _ _ Hok)). unfold save_iterator. rewrite (iter_end_ok hashfn false false ctzl m Hok Hi). cbn [mbind option_bind].
destruct (decide (it = Iter (_nbucket m) 0)) as [->|Hne].
{ eexists. split_and!; [reflexivity| |cbn; lia]. unfold restore_iterator. cbn. rewrite Z.eqb_refl, Z.leb_refl. by apply (iter_end_ok hashfn false false ctzl m Hok Hi). }
destruct Hr as [[? _]|(b & Hb & Hp & _)]; [done|]. pose proof (zget_Some_range _ _ _ Hb) as Hri. rewrite (fo_len _ _ _ _ Hok) in Hri.
unfold iter_deref. rewrite Hb. cbn [mbind option_bind]. destruct (lookup_lt_is_Some_2 b _ Hp) as [x Hx]. rewrite Hx. cbn [mbind option_bind].
eexists. split_and!; [reflexivity| |cbn; lia]. unfold restore_iterator. cbn [h_nbucket h_offset h_at_entry h_key].
rewrite Z.eqb_refl. destruct (Z.leb_spec (_nbucket m) (it_entry it)); [lia|]. cbn [negb]. destruct it as [en p]. cbn [it_entry it_node] in *.
destruct (bool_decide_reflect (p = 0%nat)) as [->|Hp0].
- destruct (iter_at_ok hashfn false false ctzl m en Hok Hi ltac:(lia)) as (e & -> & H1 & H2 & H3). do 2 f_equal.
  destruct (Z.eq_dec e en) as [|Hd]; [done|]. exfalso. rewrite (from_bucket_step _ _ _ Hb) in H2.
  apply (f_equal length) in H2. rewrite length_app in H2.
  assert (length (from_bucket m e) <= length (from_bucket m (en + 1)))%nat; [|lia].
  unfold from_bucket. replace (Z.to_nat e) with (Z.to_nat (en + 1) + Z.to_nat (e - (en + 1)))%nat by lia. rewrite <- drop_drop.
  set (d := drop (Z.to_nat (en + 1)) (buckets m)). set (n := Z.to_nat (e - (en + 1))).
  assert (E : length (concat d) = length (concat (take n d ++ drop n d))) by by rewrite take_drop.
  rewrite concat_app, length_app in E. lia.
- rewrite Hb. cbn [mbind option_bind]. destruct b as [|y b]; [cbn in Hp; lia|].
  rewrite (find_in_unique x.1 (y :: b) p x); try done. by apply (bucket_keys m en).
Qed.

(** C4: for a dense map, and for a sparse one of at least 64 buckets ([iterable]), a loop from
  [begin()] to [end()] visits every element exactly once, in bucket order. For the dense map
  with unique keys, the only kind that [save_iterator] and [restore_iterator] compile for: a
  saved position of an unchanged map is restored exactly, and after any changes a hint still
  gives a valid iterator, which skips no bucket after the saved one if the number of buckets
  is still the same, and starts over if it is not. *)
Theorem flat_map_iteration_correct (sparse multi : bool) m d : fm_ok hashfn sparse multi m -> iterable sparse ctzl m ->
  fm_ok hashfn false false d ->
  (exists it, iter_begin sparse ctzl m = Some it /\ visit sparse ctzl (length (elements m)) m it = Some (elements m)) /\
  (forall it l, iter_rest d it l -> exists h, save_iterator d it = Some h /\ restore_iterator d h = Some it) /\
  (forall h, 0 <= h_offset h -> exists it l, restore_iterator d h = Some it /\ iter_rest d it l /\
     visit false ctzl (length l) d it = Some l /\
     (h_nbucket h = _nbucket d -> h_offset h < _nbucket d -> from_bucket d (h_offset h + 1) `suffix_of` l) /\
     (h_nbucket h <> _nbucket d -> l = elements d)).
Proof.
  intros Hok Hi Hd. split_and!.
  - destruct (visit_all hashfn sparse multi ctzl m Hok Hi) as (it & E & _ & Hv). by exists it.
  - intros it l Hr. destruct (save_restore_ok d it l Hd I Hr) as (h & ? & ? & _). by exists h.
  - intros h Hh. destruct (restore_ok d h Hd I Hh) as (it & l & E & Hr & H1 & H2). exists it, l. split_and!; try done.
    by apply (visit_ok hashfn false false).
Qed.
End SavedPositions.
Arguments position_hint : clear implicits.

(** ** Instances *)

Lemma flat_map_hashing_correct_witness : flatmap_round 100 = 128 /\ flatmap_mod 1000 (flatmap_round 100) = 1000 mod flatmap_round 100.
Proof.
  destruct (flat_map_hashing_correct 1000 100) as (_ & _ & _ & _ & H); [lia|lia|]. split; [reflexivity|exact H].
Defined.

(** An allocator that always has memory, here zeroed. *)
Definition zero_malloc (bytes : Z) : option (list Z) := Some (replicate (Z.to_nat (bytes / 8)) 0).

Lemma zero_malloc_ok : malloc_ok (fun _ => true) zero_malloc.
Proof.
  split; [done|]. intros n Hn. eexists. split_and!; [reflexivity|apply Forall_replicate; lia|].
  unfold zlen. rewrite length_replicate, Z2Nat.id; [done|]. apply Z.div_pos; lia.
Qed.

(** Maps of machine words to numbers, hashed by the identity. *)
Definition word_map (sparse multi : bool) : option (Z * FlatMap Z Z) :=
  init sparse (fun _ => true) zero_malloc 64 80 fm_empty.

Lemma word_map_ok sparse multi : exists m, word_map sparse multi = Some (0, m) /\ fm_ok (fun k => k) sparse multi m /\
  iterable sparse CountTrailingZeroesNonzero64 m /\ elements m = [].
Proof.
  destruct (init_ok (K := Z) (V := Z) (fun k => k) sparse multi (fun _ => true) zero_malloc 64 80 fm_empty zero_malloc_ok)
    as (m & E & Hok & He & Hn & _); [done|done|lia|lia|]. exists m. split_and!; [done|done| |done].
  unfold iterable. rewrite Hn. destruct sparse; [|done]. split; [done|apply ctz64_ctzl].
Qed.


Abbreviation word_insert sparse multi :=
  (insert (fun k : Z => k) 0 sparse multi (fun _ => true) zero_malloc CountTrailingZeroesNonzero64).
Abbreviation word_ok sparse multi := (fm_ok (fun k : Z => k) sparse multi).
Abbreviation word_iterable sparse := (iterable sparse CountTrailingZeroesNonzero64).

(** A first insertion, for the properties of non-empty maps. *)
Lemma word_map_one sparse multi (key value : Z) : exists m, word_ok sparse multi m /\ word_iterable sparse m /\
  elements m ≡ₚ [(key, value)].
Proof.
  destruct (word_map_ok sparse multi) as (m & _ & Hok & Hi & He).
  destruct (insert_ok (fun k : Z => k) 0 sparse multi (fun _ => true) zero_malloc CountTrailingZeroesNonzero64 key value m zero_malloc_ok Hok Hi)
    as (m' & i & p & _ & Hok' & Hi' & _ & _ & _ & r & He' & Hr); [rewrite He; reflexivity|].
  exists m'. split_and!; [done|done|]. rewrite decide_False in Hr by (rewrite He; intros [_ Hin]; by apply elem_of_nil in Hin).
  by rewrite He', Hr, He.
Qed.


Lemma flat_map_erase_refines_witness : exists m m', word_ok false false m /\
  erase (fun k : Z => k) false 5 m = Some (1, Some 7, m') /\ contents m' = ∅.
Proof.
  destruct (word_map_one false false 5 7) as (m & Hok & Hi & He).
  destruct (flat_map_erase_refines (fun k : Z => k) false false 5 m eq_refl Hok) as ((m' & E & _ & Hc & _) & _).
  assert (Em : contents m = {[5 := 7]}) by by rewrite (contents_perm _ _ _ _ _ eq_refl Hok He).
  rewrite Em in E, Hc. exists m, m'. split_and!; [exact Hok|exact E|]. rewrite Hc. reflexivity.
Defined.

Lemma flat_map_multi_refines_witness : exists m m' i p, word_map false true = Some (0, m) /\
  word_insert false true 5 7 m = Some (m', i, p) /\ elements m' ≡ₚ [(5, 7)].
Proof.
  destruct (word_map_ok false true) as (m & E & Hok & Hi & He).
  destruct (flat_map_multi_refines (fun k : Z => k) 0 false true true (fun _ => true) zero_malloc CountTrailingZeroesNonzero64 5 7 m
    eq_refl zero_malloc_ok Hok Hi) as ((m' & i & p & E' & _ & _ & _ & Hc) & _); [rewrite He; reflexivity|].
  exists m, m', i, p. split_and!; [exact E|exact E'|]. by rewrite Hc, He.
Defined.


Lemma flat_map_iteration_correct_witness : exists m it h, word_ok false false m /\ elements m = [(5, 7)] /\
  iter_begin false CountTrailingZeroesNonzero64 m = Some it /\ visit false CountTrailingZeroesNonzero64 1 m it = Some [(5, 7)] /\
  save_iterator 0 CountTrailingZeroesNonzero64 m (Iter (_nbucket m) 0) = Some h /\
  restore_iterator CountTrailingZeroesNonzero64 m h = Some (Iter (_nbucket m) 0).
Proof.
  destruct (word_map_one false false 5 7) as (m & Hok & Hi & He). apply Permutation_sym, Permutation_length_1_inv in He.
  destruct (flat_map_iteration_correct (fun k : Z => k) 0 CountTrailingZeroesNonzero64 false false m m Hok Hi Hok) as ((it & E & Hv) & Hs & _).
  rewrite He in Hv. destruct (Hs (Iter (_nbucket m) 0) []) as (h & H1 & H2); [left; split; reflexivity|].
  exists m, it, h. split_and!; [exact Hok|exact He|exact E|exact Hv|exact H1|exact H2].
Defined.

(** In a sparse map of 8 buckets the iterator after the last element comes back to it:
    with the single key 3, [++it] from the first element is the first element again, and no
    number of steps reaches [end()]. *)
Theorem flat_map_sparse_small_loops : exists m m' i p it,
  init true (fun _ => true) zero_malloc 8 80 fm_empty = Some (0, m) /\
  word_insert true false 3 1 m = Some (m', i, p) /\
  elements m' = [(3, 1)] /\
  iter_begin true CountTrailingZeroesNonzero64 m' = Some it /\
  iter_next true CountTrailingZeroesNonzero64 m' it = Some it /\
  forall n, visit true CountTrailingZeroesNonzero64 n m' it = None.
Proof.
  set (m := MkFlatMap (K := Z) (V := Z) 0 8 (Some (replicate 8 [])) (Some [0]) 80).
  set (m' := MkFlatMap 1 8 (Some [[]; []; []; [(3, 1)]; []; []; []; []]) (Some [8]) 80).
  assert (Hb : iter_begin true CountTrailingZeroesNonzero64 m' = Some (Iter 3 0)) by (vm_compute; reflexivity).
  assert (Hn : iter_next true CountTrailingZeroesNonzero64 m' (Iter 3 0) = Some (Iter 3 0)) by (vm_compute; reflexivity).
  assert (He : iter_end true CountTrailingZeroesNonzero64 m' = Some (Iter 8 0)) by (vm_compute; reflexivity).
  exists m, m', 3, 0%nat, (Iter 3 0). split_and!; [vm_compute; reflexivity..|exact Hb|exact Hn|].
  induction n as [|n IH]; cbn [visit]; rewrite He; cbn [mbind option_bind]; rewrite decide_False by discriminate; [reflexivity|].
  change (iter_deref m' (Iter 3 0)) with (Some (3, 1)). rewrite Hn. cbn [mbind option_bind]. rewrite IH. reflexivity.
Qed.
