(* ===== verification/Pcg.v ===== *)
(** * PCG random number engines (random/internal/pcg_engine.h)

    [pcg_engine<Params, Mix>]: a linear congruential generator whose state is an unsigned
    integer of 64 or 128 bits, and a mixing function from states to results. What the engine
    needs of its state type is the class [StateType]; the 128-bit instance is the [uint128] of
    Uint128.v. A stream is the list of the numbers written to it, separated by spaces. *)
From S2P Require Import Prelude Words Bits Vec Uint128.

(** ** State types *)

Class StateType (T : Type) := {
  st_digits : Z;
  st_of_u64 : Z -> T;
  st_add : T -> T -> T;
  st_mul : T -> T -> T;
  st_shl : T -> Z -> T;
  st_or : T -> T -> T;
  st_eqb : T -> T -> bool;
  (** [operator<<] and [operator>>] of the state, through [stream_u128_helper] for 128 bits. *)
  st_write : T -> list Z;
  st_read : list Z -> option (T * list Z);
  (** The number a state stands for. *)
  st_is : T -> Z -> Prop;
}.

(** What the engine's correctness rests on: arithmetic modulo [2^st_digits]. *)
Class StateTypeOk (T : Type) `{!StateType T} := {
  st_digits_ok : 64 <= st_digits;
  st_is_range a x : st_is a x -> 0 <= x < 2 ^ st_digits;
  st_is_inj a b x : st_is a x -> st_is b x -> a = b;
  st_is_fun a x y : st_is a x -> st_is a y -> x = y;
  st_of_u64_is v : 0 <= v < 2 ^ 64 -> st_is (st_of_u64 v) v;
  st_add_is a b x y : st_is a x -> st_is b y -> st_is (st_add a b) (wrap st_digits (x + y));
  st_mul_is a b x y : st_is a x -> st_is b y -> st_is (st_mul a b) (wrap st_digits (x * y));
  st_shl_is a x n : st_is a x -> 0 <= n < st_digits -> st_is (st_shl a n) (wrap st_digits (x * 2 ^ n));
  st_or_is a b x y : st_is a x -> st_is b y -> st_is (st_or a b) (Z.lor x y);
  st_eqb_is a b x y : st_is a x -> st_is b y -> st_eqb a b = (x =? y);
  st_read_write a x l : st_is a x -> st_read (st_write a ++ l) = Some (a, l);
}.

(** A [uint64_t] is read if the next number of the stream fits it. *)
Definition read_u64 (l : list Z) : option (Z * list Z) :=
  match l with x :: l => if is_u 64 x then Some (x, l) else None | [] => None end.

Definition u64 : Type := Z.

#[export] Instance u64_state : StateType u64 := {
  st_digits := 64;
  st_of_u64 v := v;
  st_add := uadd 64;
  st_mul := umul 64;
  st_shl := ushl 64;
  st_or := Z.lor;
  st_eqb := Z.eqb;
  st_write v := [v];
  st_read := read_u64;
  st_is v x := v = x /\ 0 <= x < 2 ^ 64;
}.

(** [stream_u128_helper::write] and [::read]: the high word, then the low one. *)
Definition u128_write (val : uint128) : list Z := [uint128_high64 val; uint128_low64 val].
Definition u128_read (l : list Z) : option (uint128 * list Z) :=
  '(h, l) ← read_u64 l; '(lo, l) ← read_u64 l; Some (make_uint128 h lo, l).

#[export] Instance u128_state : StateType uint128 := {
  st_digits := 128;
  st_of_u64 := uint128_of_unsigned;
  st_add := uint128_add;
  st_mul := uint128_mul;
  st_shl := uint128_shl;
  st_or := uint128_or;
  st_eqb := uint128_eqb;
  st_write := u128_write;
  st_read := u128_read;
  st_is := u128_is;
}.

(** ** The engine *)

Section Engine.
Context {T : Type} `{StateType T} (multiplier increment : T) (Mix : T -> Z).

Definition lcg (s : T) : T := st_add (st_mul s multiplier) increment.

(** [operator()]: the result and the new state. *)
Definition pcg_next (s : T) : Z * T := let s := lcg s in (Mix s, s).

Definition pcg_seed (seed_value : Z) : T := lcg (st_add (st_of_u64 seed_value) increment).

(** [reseed] from the buffer filled by the seed sequence, words of [w] bits. *)
Definition pcg_reseed (w : Z) (buffer : list Z) : T :=
  match buffer with
  | [] => lcg (st_add (st_of_u64 0) increment)
  | b0 :: rest =>
      let tmp := fold_left (fun tmp b => st_or (st_shl tmp w) (st_of_u64 b)) rest (st_of_u64 b0) in
      lcg (st_add tmp increment)
  end.

(** The loop of [advance]; [fuel] bounds the bits of [n]. *)
Fixpoint advance_loop (fuel : nat) (n : Z) (m i mult inc : T) : option (T * T) :=
  if 0 <? n then
    match fuel with
    | O => None
    | S fuel =>
        let '(m, i) := if Z.odd n then (st_mul m mult, st_add (st_mul i mult) inc) else (m, i) in
        let inc := st_mul (st_add mult (st_of_u64 1)) inc in
        let mult := st_mul mult mult in
        advance_loop fuel (ushr n 1) m i mult inc
    end
  else Some (m, i).

Definition advance (s : T) (n : Z) : option T :=
  '(m, i) ← advance_loop 64 n (st_of_u64 1) (st_of_u64 0) multiplier increment;
  Some (st_add (st_mul m s) i).

Definition pcg_discard (count : Z) (s : T) : option T := advance s count.

Definition pcg_eqb (s other : T) : bool := st_eqb s other.

(** [operator<<]: the parameters and the state. *)
Definition pcg_write (s : T) : list Z := st_write multiplier ++ st_write increment ++ st_write s.

(** [operator>>]: the failbit and the new state; the state changes only on success. *)
Definition pcg_read (l : list Z) (s : T) : bool * T :=
  match ('(mult, l) ← st_read l; '(inc, l) ← st_read l; '(tmp, l) ← st_read l; Some (mult, inc, tmp)) with
  | Some (mult, inc, tmp) =>
      if negb (st_eqb mult multiplier) || negb (st_eqb inc increment) then (true, s) else (false, tmp)
  | None => (true, s)
  end.
End Engine.

(** ** Parameters and mixing functions *)

Definition pcg_xsl_rr_128_64 (state : uint128) : Z :=
  let rotate := uint128_low64 (uint128_shr state 122) in
  let state := uint128_xor state (uint128_shr state 64) in
  rotr 64 (uint128_low64 state) (swrap 32 rotate).

Definition pcg_xsh_rr_64_32 (state : u64) : Z :=
  rotr 32 (wrap 32 (ushr (Z.lxor (ushr state 18) state) 27)) (swrap 32 (ushr state 59)).

Definition pcg64_multiplier : uint128 := make_uint128 0x2360ed051fc65da4 0x4385df649fccf645.
Definition pcg64_increment : uint128 := make_uint128 0x5851f42d4c957f2d 0x14057b7ef767814f.
Definition pcg32_multiplier : u64 := 0x5851f42d4c957f2d.
Definition pcg32_increment : u64 := 0x14057b7ef767814f.

Definition pcg64_next : uint128 -> Z * uint128 := pcg_next pcg64_multiplier pcg64_increment pcg_xsl_rr_128_64.
Definition pcg32_next : u64 -> Z * u64 := pcg_next pcg32_multiplier pcg32_increment pcg_xsh_rr_64_32.

(** ** The instances keep their promise *)

Lemma read_u64_cons x l : 0 <= x < 2 ^ 64 -> read_u64 (x :: l) = Some (x, l).
Proof. intros Hx. cbn. by rewrite (proj2 (is_u_spec 64 x) Hx). Qed.

#[export] Instance u64_state_ok : StateTypeOk u64.
Proof.
  split; cbn.
  - lia.
  - by intros a x [_ ?].
  - by intros a b x [-> _] [-> _].
  - by intros a x y [-> _] [-> _].
  - done.
  - intros a b x y [-> ?] [-> ?]. split; [done|]. apply wrap_range. lia.
  - intros a b x y [-> ?] [-> ?]. split; [done|]. apply wrap_range. lia.
  - intros a x n [-> ?] Hn. rewrite ushl_val by lia. split; [done|]. apply wrap_range. lia.
  - intros a b x y [-> ?] [-> ?]. split; [done|]. by apply lor_range.
  - by intros a b x y [-> _] [-> _].
  - intros a x l [-> Hx]. by apply read_u64_cons.
Qed.

Lemma u128_read_write a x l : u128_is a x -> u128_read (u128_write a ++ l) = Some (a, l).
Proof.
  destruct a as [h lo]. intros [[Hh Hl] _]. unfold u128_read. change (u128_write (MkU128 h lo) ++ l) with (h :: lo :: l).
  rewrite read_u64_cons by done. cbn [mbind option_bind]. by rewrite read_u64_cons by done.
Qed.

#[export] Instance u128_state_ok : StateTypeOk uint128.
Proof.
  split; cbn.
  - lia.
  - apply u128_is_range.
  - apply u128_is_inj.
  - by intros a x y [_ <-] [_ <-].
  - apply of_unsigned_is.
  - apply add_is.
  - apply mul_is.
  - apply shl_is.
  - apply or_is.
  - apply eqb_is.
  - intros a x l. apply u128_read_write.
Qed.

(** ** Seeking *)

Lemma iter_double {A} (F : A -> A) k y : Nat.iter (2 * k) F y = Nat.iter k (fun y => F (F y)) y.
Proof.
  induction k as [|k IH]; [done|]. replace (2 * S k)%nat with (S (S (2 * k))) by lia. rewrite !Nat.iter_succ. by rewrite IH.
Qed.

Lemma iter_ext {A} (F G : A -> A) k y : (forall z, F z = G z) -> Nat.iter k F y = Nat.iter k G y.
Proof. intros E. induction k as [|k IH]; [done|]. by rewrite !Nat.iter_succ, E, IH. Qed.

Section EngineCorrect.
Context {T : Type} `{StateTypeOk T} (multiplier increment : T) (M C : Z).
Context (HM : st_is multiplier M) (HC : st_is increment C).

Abbreviation w := (st_digits (T := T)).

Lemma st_conv (a : T) x y : st_is a x -> x = y -> st_is a y.
Proof. by intros ? <-. Qed.

(** The step on numbers. *)
Definition affine (a b x : Z) : Z := wrap w (x * a + b).

Lemma affine_is (s a b : T) x av bv : st_is s x -> st_is a av -> st_is b bv ->
  st_is (st_add (st_mul s a) b) (affine av bv x).
Proof.
  intros Hs Ha Hb. eapply st_conv; [apply st_add_is; [by apply st_mul_is|done]|].
  unfold affine. apply wrap_proper. by rewrite wrap_cong.
Qed.

Lemma lcg_is s x : st_is s x -> st_is (lcg multiplier increment s) (affine M C x).
Proof. intros Hs. by apply affine_is. Qed.

Lemma lcg_iter_is n s x : st_is s x -> st_is (Nat.iter n (lcg multiplier increment) s) (Nat.iter n (affine M C) x).
Proof. intros Hs. induction n as [|n IH]; [done|]. rewrite !Nat.iter_succ. by apply lcg_is. Qed.

(** Composing two steps gives the squared multiplier and the next increment. *)
Lemma affine_square a b y :
  affine (wrap w (a * a)) (wrap w (wrap w (a + 1) * b)) y = affine a b (affine a b y).
Proof.
  unfold affine. apply wrap_proper. rewrite !wrap_cong. apply (cong_intro _ _ _ 0). ring.
Qed.

Lemma affine_compose a b m i x : affine (wrap w (m * a)) (affine a b i) x = affine a b (affine m i x).
Proof. unfold affine. apply wrap_proper. rewrite !wrap_cong. apply (cong_intro _ _ _ 0). ring. Qed.

Lemma one_is : st_is (st_of_u64 1 : T) 1.
Proof. apply st_of_u64_is. lia. Qed.

Lemma advance_loop_ok fuel n m i mult inc mv iv av bv : 0 <= n < 2 ^ Z.of_nat fuel ->
  st_is m mv -> st_is i iv -> st_is mult av -> st_is inc bv ->
  exists m' i' mv' iv', advance_loop fuel n m i mult inc = Some (m', i') /\ st_is m' mv' /\ st_is i' iv' /\
    forall x, affine mv' iv' x = Nat.iter (Z.to_nat n) (affine av bv) (affine mv iv x).
Proof.
  revert n m i mult inc mv iv av bv. induction fuel as [|fuel IH]; intros n m i mult inc mv iv av bv Hn Hm Hi Ha Hb; cbn [advance_loop].
  { replace n with 0 by lia. by exists m, i, mv, iv. }
  destruct (Z.ltb_spec 0 n) as [Hp|Hp]; [|replace n with 0 by lia; by exists m, i, mv, iv].
  rewrite Nat2Z.inj_succ, Z.pow_succ_r in Hn by lia. rewrite ushr_val by lia. change (2 ^ 1) with 2.
  pose proof (st_mul_is _ _ _ _ Ha Ha) as Ha2. pose proof (st_mul_is _ _ _ _ (st_add_is _ _ _ _ Ha one_is) Hb) as Hb2.
  assert (Hstep : exists m1 i1 mv1 iv1, (if Z.odd n then (st_mul m mult, st_add (st_mul i mult) inc) else (m, i)) = (m1, i1) /\
    st_is m1 mv1 /\ st_is i1 iv1 /\ forall x, affine mv1 iv1 x = if Z.odd n then affine av bv (affine mv iv x) else affine mv iv x).
  { destruct (Z.odd n); [|by exists m, i, mv, iv]. eexists _, _, _, _. split_and!; [reflexivity|by apply st_mul_is|by apply affine_is|].
    intros x. apply affine_compose. }
  destruct Hstep as (m1 & i1 & mv1 & iv1 & -> & Hm1 & Hi1 & Hx1).
  destruct (IH (n / 2) m1 i1 _ _ _ _ _ _ ltac:(zlia) Hm1 Hi1 Ha2 Hb2) as (m' & i' & mv' & iv' & -> & Hm' & Hi' & Hx').
  exists m', i', mv', iv'. split_and!; [done..|]. intros x. rewrite Hx', Hx1.
  rewrite (iter_ext _ (fun y => affine av bv (affine av bv y))) by apply affine_square. rewrite <- iter_double.
  pose proof (Zdiv2_odd_eqn n) as E. rewrite Z.div2_div in E.
  destruct (Z.odd n); rewrite ?Z.add_0_r in E.
  - replace (Z.to_nat n) with (S (2 * Z.to_nat (n / 2))) by lia. by rewrite Nat.iter_succ_r.
  - by replace (Z.to_nat n) with (2 * Z.to_nat (n / 2))%nat by lia.
Qed.

(** [advance] is [n] single steps, and 64 rounds are enough for every count. *)
Lemma advance_iter s x n : st_is s x -> 0 <= n < 2 ^ 64 ->
  advance multiplier increment s n = Some (Nat.iter (Z.to_nat n) (lcg multiplier increment) s).
Proof.
  intros Hs Hn. unfold advance. assert (Hz : st_is (st_of_u64 0 : T) 0) by (apply st_of_u64_is; lia).
  destruct (advance_loop_ok 64 n _ _ _ _ _ _ _ _ Hn one_is Hz HM HC) as (m & i & mv & iv & -> & Hm & Hi & Hx). cbn [mbind option_bind].
  f_equal. eapply st_is_inj; [|by apply lcg_iter_is]. eapply st_conv; [apply st_add_is; [by apply st_mul_is|done]|].
  specialize (Hx x). pose proof (st_is_range _ _ Hs) as Hr. pose proof (st_digits_ok (T := T)).
  assert (E : affine 1 0 x = x) by (unfold affine; rewrite Z.mul_1_r, Z.add_0_r; by apply wrap_small).
  rewrite E in Hx. rewrite <- Hx. unfold affine. apply wrap_proper. rewrite wrap_cong. by rewrite Z.mul_comm.
Qed.

(** ** Period *)

Fixpoint gsum (a : Z) (n : nat) : Z := match n with O => 0 | S n => 1 + a * gsum a n end.

Lemma affine_iter a b n x : 0 <= x < 2 ^ w ->
  Nat.iter n (affine a b) x = wrap w (x + ((a - 1) * x + b) * gsum a n).
Proof.
  intros Hx. induction n as [|n IH].
  - cbn [gsum]. rewrite Z.mul_0_r, Z.add_0_r. symmetry. by apply wrap_small.
  - rewrite Nat.iter_succ, IH. unfold affine. apply wrap_proper. rewrite wrap_cong. apply (cong_intro _ _ _ 0). cbn [gsum]. ring.
Qed.

Lemma gsum_add a m n : gsum a (m + n) = gsum a m + a ^ Z.of_nat m * gsum a n.
Proof.
  induction m as [|m IH]; [cbn [gsum Nat.add]; change (Z.of_nat 0) with 0; rewrite Z.pow_0_r; ring|]. cbn [gsum Nat.add]. rewrite IH, Nat2Z.inj_succ, Z.pow_succ_r by lia. ring.
Qed.

Lemma pow_mod4 a n : a mod 4 = 1 -> a ^ Z.of_nat n mod 4 = 1.
Proof.
  intros Ha. induction n as [|n IH]; [done|]. rewrite Nat2Z.inj_succ, Z.pow_succ_r, Zmult_mod, Ha, IH by lia. done.
Qed.

Lemma gsum_odd a n : a mod 4 = 1 -> (gsum a n - Z.of_nat n) mod 2 = 0.
Proof.
  intros Ha. assert (exists q, a = 2 * q + 1) as [q ->] by (exists (2 * (a / 4)); zlia). clear Ha.
  induction n as [|n IH]; [done|]. cbn [gsum]. rewrite Nat2Z.inj_succ.
  replace (1 + (2 * q + 1) * gsum (2 * q + 1) n - Z.succ (Z.of_nat n)) with (gsum (2 * q + 1) n - Z.of_nat n + q * gsum (2 * q + 1) n * 2) by lia.
  by rewrite Z_mod_plus_full.
Qed.

Lemma pow2_odd_divide k q g : 0 <= k -> q mod 2 = 1 -> (2 ^ k | g * q) -> (2 ^ k | g).
Proof.
  intros Hk Hq Hd. rewrite Z.mul_comm in Hd. apply Z.gauss in Hd; [done|]. apply Z.coprime_pow_l; [done|].
  replace q with (1 + q / 2 * 2) by zlia. unfold Z.coprime. by rewrite Z.gcd_add_mult_diag_r.
Qed.

(** The geometric sum has exactly the powers of two of its length. *)
Lemma gsum_divide a : a mod 4 = 1 -> forall n k, 0 <= k -> (2 ^ k | gsum a n) <-> (2 ^ k | Z.of_nat n).
Proof.
  intros Ha. induction n as [n IH] using lt_wf_ind. intros k Hk. destruct (Nat.eq_dec n 0%nat) as [->|Hn0]; [done|].
  destruct (Z.eq_dec k 0) as [->|Hk0]; [split; intros _; apply Z.divide_1_l|].
  assert (E2 : 2 ^ k = 2 * 2 ^ (k - 1)) by (rewrite <- Z.pow_succ_r by lia; f_equal; lia).
  pose proof (gsum_odd a n Ha) as Hodd. destruct (Nat.Even_or_Odd n) as [[m ->]|[m ->]].
  - replace (2 * m)%nat with (m + m)%nat in * by lia. rewrite gsum_add.
    pose proof (pow_mod4 a m Ha) as H4. set (p := a ^ Z.of_nat m) in *.
    assert (Eh : 1 + p = 2 * ((1 + p) / 2)) by zlia. assert (Hh : (1 + p) / 2 mod 2 = 1) by zlia. set (h := (1 + p) / 2) in *.
    replace (gsum a m + p * gsum a m) with (2 * (gsum a m * h)) by (rewrite <- (Z.mul_1_l (gsum a m)) at 2; rewrite <- Z.mul_add_distr_r, Eh; ring).
    rewrite Nat2Z.inj_add. replace (Z.of_nat m + Z.of_nat m) with (2 * Z.of_nat m) by lia.
    rewrite E2, !Z.mul_divide_cancel_l by lia. rewrite <- (IH m ltac:(lia) (k - 1) ltac:(lia)). split.
    + apply pow2_odd_divide; [lia|done].
    + intros. by apply Z.divide_mul_l.
  - rewrite E2. split; intros [q Hq]; exfalso; zlia.
Qed.

(** The generator comes back to a state after a multiple of [2^st_digits] steps, not before. *)
Lemma lcg_period n s x : M mod 4 = 1 -> C mod 2 = 1 -> st_is s x ->
  Nat.iter n (lcg multiplier increment) s = s <-> (2 ^ w | Z.of_nat n).
Proof.
  intros HM4 HC2 Hs. pose proof (st_digits_ok (T := T)) as Hw. pose proof (st_is_range _ _ Hs) as Hx.
  assert (0 < 2 ^ w) by (apply Z.pow_pos_nonneg; lia). pose proof (lcg_iter_is n s x Hs) as Hit. rewrite affine_iter in Hit by done.
  set (D := (M - 1) * x + C) in *. assert (HD : D mod 2 = 1).
  { unfold D. replace (M - 1) with (M / 4 * 2 * 2) by zlia. replace (M / 4 * 2 * 2 * x + C) with (C + (M / 4 * 2 * x) * 2) by ring.
    by rewrite Z_mod_plus_full. }
  assert (E : wrap w (x + D * gsum M n) = x <-> (2 ^ w | gsum M n)).
  { rewrite <- (wrap_small w x) at 2 by done. unfold wrap. split.
    - intros E. apply (pow2_odd_divide w D); [lia|done|]. rewrite Z.mul_comm. apply Z.mod_divide; [lia|].
      replace (D * gsum M n) with ((x + D * gsum M n) - x) by ring. by rewrite Zminus_mod, E, Z.sub_diag, Z.mod_0_l by lia.
    - intros [q ->]. replace (x + D * (q * 2 ^ w)) with (x + (D * q) * 2 ^ w) by ring. apply Z_mod_plus_full. }
  assert (Hw0 : 0 <= w) by lia. rewrite <- (gsum_divide M HM4 n w Hw0), <- E. split.
  - intros Es. rewrite Es in Hit. by eapply st_is_fun.
  - intros Ev. rewrite Ev in Hit. by eapply st_is_inj.
Qed.

(** ** Seeding and streams *)

Lemma reseed_words_is b ws : 0 < b <= 64 -> Forall (fun d => 0 <= d < 2 ^ b) ws -> forall tmp v j, 1 <= j ->
  st_is tmp v -> 0 <= v < 2 ^ (b * j) -> b * (j + zlen ws) <= w ->
  st_is (fold_left (fun tmp d => st_or (st_shl tmp b) (st_of_u64 d)) ws tmp) (fold_left (fun v d => v * 2 ^ b + d) ws v).
Proof.
  intros Hb. induction ws as [|d ws IH]; intros Hws tmp v j Hj Ht Hv Hl; [done|]. apply Forall_cons_1 in Hws as [Hd Hws].
  rewrite zlen_cons in Hl. pose proof (zlen_nonneg ws) as Hz. cbn [fold_left].
  assert (H64 : 2 ^ b <= 2 ^ 64) by (apply Z.pow_le_mono_r; lia).
  assert (Hp : 2 ^ (b * (j + 1)) = 2 ^ (b * j) * 2 ^ b) by (rewrite <- Z.pow_add_r by nia; f_equal; lia).
  assert (Hle : 2 ^ (b * (j + 1)) <= 2 ^ w) by (apply Z.pow_le_mono_r; nia).
  assert (Hnext : v * 2 ^ b + d < 2 ^ (b * (j + 1))) by nia.
  apply (IH Hws _ _ (j + 1)); [lia| |nia|lia]. eapply st_conv.
  - apply st_or_is; [apply st_shl_is; [done|nia]|apply st_of_u64_is; lia].
  - rewrite wrap_small by nia. apply lor_shiftl_add; lia.
Qed.

(** The seed words are read as one number, the first word the most significant. *)
Lemma reseed_is b b0 ws : 0 < b <= 64 -> Forall (fun d => 0 <= d < 2 ^ b) (b0 :: ws) -> b * zlen (b0 :: ws) = w ->
  st_is (pcg_reseed multiplier increment b (b0 :: ws)) (affine M C (wrap w (fold_left (fun v d => v * 2 ^ b + d) ws b0 + C))).
Proof.
  intros Hb Hws Hl. apply Forall_cons_1 in Hws as [Hb0 Hws]. rewrite zlen_cons in Hl. apply lcg_is, st_add_is; [|done].
  assert (2 ^ b <= 2 ^ 64) by (apply Z.pow_le_mono_r; lia).
  apply (reseed_words_is b ws Hb Hws _ _ 1); [lia|apply st_of_u64_is; lia|by rewrite Z.mul_1_r|lia].
Qed.

Lemma seed_is v : 0 <= v < 2 ^ 64 -> st_is (pcg_seed multiplier increment v) (affine M C (wrap w (v + C))).
Proof. intros Hv. apply lcg_is, st_add_is; [|done]. by apply st_of_u64_is. Qed.

(** Reading back what an engine with parameters [m] and [c] wrote. *)
Lemma pcg_read_write (m c s s0 : T) mv cv x : st_is m mv -> st_is c cv -> st_is s x ->
  pcg_read multiplier increment (pcg_write m c s) s0 = if (mv =? M) && (cv =? C) then (false, s) else (true, s0).
Proof.
  intros Hm Hc Hs. unfold pcg_read, pcg_write. rewrite (st_read_write _ _ _ Hm). cbn [mbind option_bind].
  rewrite (st_read_write _ _ _ Hc). cbn [mbind option_bind]. rewrite <- (app_nil_r (st_write s)), (st_read_write _ _ _ Hs).
  cbn [mbind option_bind]. rewrite (st_eqb_is _ _ _ _ Hm HM), (st_eqb_is _ _ _ _ Hc HC). by destruct (mv =? M), (cv =? C).
Qed.
End EngineCorrect.

(** ** Output *)

Lemma xsl_rr_spec s x i : u128_is s x -> 0 <= i < 64 ->
  Z.testbit (pcg_xsl_rr_128_64 s) i =
  xorb (Z.testbit x ((i + x / 2 ^ 122) mod 64)) (Z.testbit x (64 + (i + x / 2 ^ 122) mod 64)).
Proof.
  intros Hs Hi. pose proof (u128_is_range _ _ Hs) as Hx. unfold pcg_xsl_rr_128_64.
  rewrite (u128_is_lo _ _ (shr_is _ _ 122 Hs ltac:(lia))), (u128_is_lo _ _ (xor_is _ _ _ _ Hs (shr_is _ _ 64 Hs ltac:(lia)))).
  assert (Hr : 0 <= x / 2 ^ 122 < 64) by zlia. rewrite (Z.mod_small (x / 2 ^ 122)), swrap_small by lia.
  set (y := Z.lxor x (x / 2 ^ 64) mod 2 ^ 64). assert (Hy : 0 <= y < 2 ^ 64) by (apply Z.mod_pos_bound; lia).
  rewrite rotr_rotl_opp, testbit_rotl, Z.sub_opp_r by (unfold digits_ok; lia).
  pose proof (Z.mod_pos_bound (i + x / 2 ^ 122) 64 ltac:(lia)) as Hj. set (j := (i + x / 2 ^ 122) mod 64) in *.
  unfold y. rewrite testbit_mod_pow2, Z.lxor_spec by lia. rewrite <- Z.shiftr_div_pow2, Z.shiftr_spec by lia.
  rewrite (Z.add_comm 64). by destruct (Z.ltb_spec j 64); [|lia].
Qed.

Lemma xsh_rr_spec x i : 0 <= x < 2 ^ 64 -> 0 <= i < 32 ->
  Z.testbit (pcg_xsh_rr_64_32 x) i =
  xorb (Z.testbit x (27 + (i + x / 2 ^ 59) mod 32)) (Z.testbit x (45 + (i + x / 2 ^ 59) mod 32)).
Proof.
  intros Hx Hi. unfold pcg_xsh_rr_64_32. rewrite (ushr_val x 59) by lia.
  assert (Hr : 0 <= x / 2 ^ 59 < 32) by zlia. rewrite swrap_small by lia.
  set (y := wrap 32 _). assert (Hy : 0 <= y < 2 ^ 32) by (apply wrap_range; lia).
  rewrite rotr_rotl_opp, testbit_rotl, Z.sub_opp_r by (unfold digits_ok; lia).
  pose proof (Z.mod_pos_bound (i + x / 2 ^ 59) 32 ltac:(lia)) as Hj. set (j := (i + x / 2 ^ 59) mod 32) in *.
  unfold y, wrap, ushr. rewrite testbit_mod_pow2, Z.shiftr_spec, Z.lxor_spec, Z.shiftr_spec by lia.
  destruct (Z.ltb_spec j 32); [|lia]. cbn [andb]. rewrite xorb_comm. f_equal; f_equal; lia.
Qed.

Lemma pcg64_multiplier_is : st_is pcg64_multiplier (u128_val pcg64_multiplier).
Proof. done. Qed.
Lemma pcg64_increment_is : st_is pcg64_increment (u128_val pcg64_increment).
Proof. done. Qed.
Lemma pcg32_multiplier_is : st_is pcg32_multiplier pcg32_multiplier.
Proof. done. Qed.
Lemma pcg32_increment_is : st_is pcg32_increment pcg32_increment.
Proof. done. Qed.

(** ** Properties *)

(** C23: [discard(n)] leaves an engine in the state that [n] calls of [operator()] lead to, for
    any state type that does arithmetic modulo a power of two and any parameters: the loop of
    [advance], of at most 64 rounds, squares the affine step and composes the powers the bits
    of [n] name. *)
Theorem pcg_discard_correct {T} `{StateTypeOk T} (multiplier increment s : T) (Mix : T -> Z) M C x n :
  st_is multiplier M -> st_is increment C -> st_is s x -> 0 <= n < 2 ^ 64 ->
  pcg_discard multiplier increment n s =
    Some (Nat.iter (Z.to_nat n) (fun s => snd (pcg_next multiplier increment Mix s)) s).
Proof. intros HM HC Hs Hn. by apply (advance_iter _ _ M C HM HC s x). Qed.

Lemma pcg_discard_correct_witness : pcg_discard pcg64_multiplier pcg64_increment 3 (MkU128 1 2) =
  Some (Nat.iter 3 (fun s => snd (pcg64_next s)) (MkU128 1 2)).
Proof.
  apply (pcg_discard_correct pcg64_multiplier pcg64_increment (MkU128 1 2) pcg_xsl_rr_128_64
    (u128_val pcg64_multiplier) (u128_val pcg64_increment) (u128_val (MkU128 1 2)) 3); [done|done|done|lia].
Defined.

(** C24: both engines have full period: from any state, the generator comes back to the state
    after the multiples of 2^128 (2^64 for the 32-bit engine) steps and after no other
    number of steps, so no [discard] by a non-zero count leaves the 64-bit engine alone. *)
Theorem pcg_full_period (s : uint128) (t : u64) x : u128_is s x -> 0 <= t < 2 ^ 64 ->
  (forall n, Nat.iter n (fun s => snd (pcg64_next s)) s = s <-> (2 ^ 128 | Z.of_nat n)) /\
  (forall n, Nat.iter n (fun s => snd (pcg32_next s)) t = t <-> (2 ^ 64 | Z.of_nat n)) /\
  (forall n, 0 < n < 2 ^ 64 -> exists s', pcg_discard pcg64_multiplier pcg64_increment n s = Some s' /\ s' <> s).
Proof.
  intros Hs Ht.
  assert (H64 : forall n, Nat.iter n (lcg pcg64_multiplier pcg64_increment) s = s <-> (2 ^ 128 | Z.of_nat n)).
  { intros n. by apply (lcg_period _ _ _ _ pcg64_multiplier_is pcg64_increment_is n s x). }
  split_and!; [exact H64| |].
  - intros n. by apply (lcg_period _ _ _ _ pcg32_multiplier_is pcg32_increment_is n t t).
  - intros n Hn. eexists. split; [apply (advance_iter _ _ _ _ pcg64_multiplier_is pcg64_increment_is s x n Hs); lia|].
    rewrite H64, Z2Nat.id by lia. intros [q Hq]. nia.
Qed.

Lemma pcg_full_period_witness : exists s', pcg_discard pcg64_multiplier pcg64_increment 5 (MkU128 0 0) = Some s' /\ s' <> MkU128 0 0.
Proof. apply (pcg_full_period (MkU128 0 0) 0 0); [done|lia|lia]. Defined.

(** seeding reads the words of the seed sequence as one number, most significant first,
    adds the increment and steps once; a state written to a stream is read back exactly by an
    engine with the same parameters, and an engine with other parameters refuses it and keeps
    its own state; the results are the two halves of the state xor-ed (64-bit engine), or its
    upper middle bits (32-bit engine), rotated right by the top bits of the state. *)
Theorem pcg_state_correct (s s0 : uint128) (m c : uint128) (t : u64) x mv cv b0 b1 b2 b3 :
  u128_is s x -> u128_is m mv -> u128_is c cv -> 0 <= t < 2 ^ 64 -> Forall (fun d => 0 <= d < 2 ^ 32) [b0; b1; b2; b3] ->
  u128_is (pcg_reseed pcg64_multiplier pcg64_increment 32 [b0; b1; b2; b3])
    (wrap 128 ((b0 * 2 ^ 96 + b1 * 2 ^ 64 + b2 * 2 ^ 32 + b3 + u128_val pcg64_increment) * u128_val pcg64_multiplier
       + u128_val pcg64_increment)) /\
  pcg_read pcg64_multiplier pcg64_increment (pcg_write m c s) s0 =
    (if (mv =? u128_val pcg64_multiplier) && (cv =? u128_val pcg64_increment) then (false, s) else (true, s0)) /\
  pcg_read pcg32_multiplier pcg32_increment (pcg_write pcg32_multiplier pcg32_increment t) 0 = (false, t) /\
  (forall i, 0 <= i < 64 -> Z.testbit (pcg_xsl_rr_128_64 s) i =
     xorb (Z.testbit x ((i + x / 2 ^ 122) mod 64)) (Z.testbit x (64 + (i + x / 2 ^ 122) mod 64))) /\
  (forall i, 0 <= i < 32 -> Z.testbit (pcg_xsh_rr_64_32 t) i =
     xorb (Z.testbit t (27 + (i + t / 2 ^ 59) mod 32)) (Z.testbit t (45 + (i + t / 2 ^ 59) mod 32))).
Proof.
  intros Hs Hm Hc Ht Hb. split_and!.
  - pose proof (reseed_is _ _ _ _ pcg64_multiplier_is pcg64_increment_is 32 b0 [b1; b2; b3] ltac:(lia) Hb eq_refl) as Hr.
    eapply u128_is_conv; [exact Hr|]. cbn [fold_left]. unfold affine. cbn [st_digits u128_state]. apply wrap_proper. rewrite wrap_cong.
    apply (cong_intro _ _ _ 0). ring.
  - by apply (pcg_read_write _ _ _ _ pcg64_multiplier_is pcg64_increment_is m c s s0 mv cv x).
  - rewrite (pcg_read_write _ _ _ _ pcg32_multiplier_is pcg32_increment_is _ _ t 0 _ _ t pcg32_multiplier_is pcg32_increment_is) by done.
    by rewrite !Z.eqb_refl.
  - intros i Hi. by apply xsl_rr_spec.
  - intros i Hi. by apply xsh_rr_spec.
Qed.

Lemma pcg_state_correct_witness : pcg_read pcg64_multiplier pcg64_increment (pcg_write (MkU128 0 1) (MkU128 0 1) (MkU128 3 4)) (MkU128 5 6)
  = (true, MkU128 5 6).
Proof.
  destruct (pcg_state_correct (MkU128 3 4) (MkU128 5 6) (MkU128 0 1) (MkU128 0 1) 0 (u128_val (MkU128 3 4)) 1 1 1 2 3 4) as (_ & H & _);
    [done|done|done|lia|repeat constructor; lia|]. exact H.
Defined.
