(* ===== verification/FastBits.v ===== *)
(** * Uniform random bits and wide products (random/internal/fast_uniform_bits.h,
    random/internal/wide_multiply.h)

    [FastUniformBits<UIntType>] turns the values of any uniform random bit generator, between
    [min()] and [max()], into values of all the bits of another unsigned type. What it needs of
    a generator is the class [URBG]; the PCG engines of Pcg.v are instances. A rejection loop
    is a search with fuel: [None] is a generator that gave no acceptable value in time. *)
From S2P Require Import Prelude Words Bits Vec Uint128 Pcg.

(** ** Generators *)

Class URBG (S : Type) := {
  g_digits : Z;
  g_min : Z;
  g_max : Z;
  g_next : S -> Z * S;
}.

Class URBGOk (S : Type) `{!URBG S} := {
  g_digits_pos : 0 < g_digits;
  g_bounds : 0 <= g_min /\ g_min < g_max /\ g_max < 2 ^ g_digits;
  g_next_range s : g_min <= fst (g_next s) <= g_max;
}.

(** ** Constants *)

(** [IsPowerOfTwoOrZero] for a type of [w] bits. *)
Definition IsPowerOfTwoOrZero (w n : Z) : bool := (n =? 0) || (Z.land n (usub w n 1) =? 0).

(** [IntegerLog2]; the fuel bounds the bits of the argument. *)
Fixpoint IntegerLog2 (fuel : nat) (n : Z) : option Z :=
  if n <=? 1 then Some 0
  else match fuel with O => None | S fuel => r ← IntegerLog2 fuel (ushr n 1); Some (1 + r) end.

(** [MaskFromShift] for a type of [w] bits. *)
Definition MaskFromShift (w n : Z) : Z := if n mod w =? 0 then unot w 0 else usub w (ushl w 1 n) 1.

(** ** FastUniformBits *)

Section Generate.
Context {G : Type} `{URBG G}.

Definition RangeSize : Z :=
  if (g_max =? 2 ^ g_digits - 1) && (g_min =? 0) then 0 else uadd g_digits (usub g_digits g_max g_min) 1.

Definition NumBits : option Z :=
  if RangeSize =? 0 then Some g_digits else IntegerLog2 (Z.to_nat g_digits) RangeSize.

(** [g() - kMin]. *)
Definition g_draw (s : G) : Z * G := let '(v, s) := g_next s in (usub g_digits v g_min, s).

(** [Generate(g, SimplifiedLoopTag)] for a result of [w] bits. *)
Definition simple_shift (w kUrbgBits : Z) : Z :=
  let kIters := w / kUrbgBits + b2z (negb (w mod kUrbgBits =? 0)) in if kIters =? 1 then 0 else kUrbgBits.

Fixpoint simple_loop (n : nat) (w kShift r : Z) (s : G) : Z * G :=
  match n with
  | O => (r, s)
  | S n => let '(v, s) := g_draw s in simple_loop n w kShift (uadd w (ushl w r kShift) (wrap w v)) s
  end.

Definition generate_simple (w : Z) (s : G) : option (Z * G) :=
  kUrbgBits ← NumBits;
  let kIters := w / kUrbgBits + b2z (negb (w mod kUrbgBits =? 0)) in
  let '(v, s) := g_draw s in
  Some (simple_loop (Z.to_nat (kIters - 1)) w (simple_shift w kUrbgBits) (wrap w v) s).

(** The constants of the rejection loop: iterations, those with the small width, the widths. *)
Definition kTotalIters (w kUrbgBits : Z) : Z :=
  let kA := w / kUrbgBits + b2z (negb (w mod kUrbgBits =? 0)) in
  let kABits := w / kA in
  let kARejection := ushl g_digits (ushr RangeSize kABits) kABits in
  if usub g_digits RangeSize kARejection <=? kARejection / kA then kA else kA + 1.
Definition kSmallIters (w total : Z) : Z := total - w mod total.
Definition kSmallBits (w total : Z) : Z := w / total.
Definition kLargeBits (w total : Z) : Z := kSmallBits w total + 1.
Definition kRejection (bits : Z) : Z := ushl g_digits (ushr RangeSize bits) bits.

(** [do { v = g() - kMin; } while (v >= rejection)]. *)
Fixpoint draw_below (fuel : nat) (rejection : Z) (s : G) : option (Z * G) :=
  match fuel with
  | O => None
  | S fuel => let '(v, s) := g_draw s in if rejection <=? v then draw_below fuel rejection s else Some (v, s)
  end.

(** [n] iterations with [bits] bits each. *)
Fixpoint reject_loop (fuel n : nat) (w bits acc : Z) (s : G) : option (Z * G) :=
  match n with
  | O => Some (acc, s)
  | S n =>
      '(v, s) ← draw_below fuel (kRejection bits) s;
      let shift := bits mod w in
      reject_loop fuel n w bits (uadd w (ushl w acc shift) (wrap w (Z.land v (MaskFromShift g_digits shift)))) s
  end.

(** [Generate(g, RejectionLoopTag)]. *)
Definition generate_reject (fuel : nat) (w : Z) (s : G) : option (Z * G) :=
  kUrbgBits ← NumBits;
  let total := kTotalIters w kUrbgBits in
  let small := kSmallIters w total in
  '(acc, s) ← reject_loop fuel (Z.to_nat small) w (kSmallBits w total) 0 s;
  reject_loop fuel (Z.to_nat (total - small)) w (kLargeBits w total) acc s.

(** [operator()]. *)
Definition fast_bits (fuel : nat) (w : Z) (s : G) : option (Z * G) :=
  if IsPowerOfTwoOrZero g_digits RangeSize then generate_simple w s else generate_reject fuel w s.
End Generate.

(** ** Wide products *)

(** [wide_multiply<UIntType>] for [w]-bit types with a [2w]-bit result: the product and its
    two halves. *)
Definition wide_multiply (w a b : Z) : Z := umul (2 * w) a b.
Definition wide_hi (w r : Z) : Z := wrap w (ushr r w).
Definition wide_lo (w r : Z) : Z := wrap w r.

Record U256 := MkU256 { hi256 : uint128; lo256 : uint128 }.

Definition MultiplyU128ToU256 (a b : uint128) : U256 :=
  let a00 := uint128_of_unsigned (uint128_low64 a) in
  let a64 := uint128_shr a 64 in
  let b00 := uint128_of_unsigned (uint128_low64 b) in
  let b64 := uint128_shr b 64 in
  let c00 := uint128_mul a00 b00 in
  let c64a := uint128_mul a00 b64 in
  let c64b := uint128_mul a64 b00 in
  let c128 := uint128_mul a64 b64 in
  let carry := uint128_low64 (uint128_shr
      (uint128_add (uint128_add (uint128_shr c00 64) (uint128_of_unsigned (uint128_low64 c64a)))
         (uint128_of_unsigned (uint128_low64 c64b))) 64) in
  MkU256
    (uint128_add (uint128_add (uint128_add c128 (uint128_shr c64a 64)) (uint128_shr c64b 64)) (uint128_of_unsigned carry))
    (uint128_add (uint128_add c00 (uint128_shl c64a 64)) (uint128_shl c64b 64)).

(** *** Logarithms of the random distributions (random/internal/fastmath.h) *)

Definition IntLog2Floor (n : Z) : Z := if n <=? 1 then 0 else 63 - countl_zero 64 n.
Definition IntLog2Ceil (n : Z) : Z := if n <=? 1 then 0 else 64 - countl_zero 64 (usub 64 n 1).

(** ** The PCG engines are generators *)

#[export] Instance pcg64_urbg : URBG uint128 := {
  g_digits := 64; g_min := 0; g_max := 2 ^ 64 - 1; g_next := pcg64_next }.
#[export] Instance pcg32_urbg : URBG u64 := {
  g_digits := 32; g_min := 0; g_max := 2 ^ 32 - 1; g_next := pcg32_next }.

Lemma lor_le_max w a b : 0 <= w -> 0 <= a < 2 ^ w -> 0 <= b < 2 ^ w -> 0 <= Z.lor a b <= 2 ^ w - 1.
Proof. intros ? Ha Hb. pose proof (lor_range w a b ltac:(lia) Ha Hb). lia. Qed.

Lemma pcg64_range s : 0 <= fst (pcg64_next s) <= 2 ^ 64 - 1.
Proof.
  unfold pcg64_next, pcg_next. cbn [fst]. unfold pcg_xsl_rr_128_64, rotr, RotateRight.
  apply (lor_le_max 64); [lia|apply wrap_range; lia|apply wrap_range; lia].
Qed.

Lemma pcg32_range s : 0 <= fst (pcg32_next s) <= 2 ^ 32 - 1.
Proof.
  unfold pcg32_next, pcg_next. cbn [fst]. unfold pcg_xsh_rr_64_32, rotr, RotateRight.
  apply (lor_le_max 32); [lia|apply wrap_range; lia|apply wrap_range; lia].
Qed.

#[export] Instance pcg64_urbg_ok : URBGOk uint128.
Proof. split; [done|done|exact pcg64_range]. Qed.
#[export] Instance pcg32_urbg_ok : URBGOk u64.
Proof. split; [done|done|exact pcg32_range]. Qed.

(** ** What the loops should compute *)

(** The number written by digits [v mod 2^b], each [(b, v)] with a width of its own. *)
Definition mixed_step (r : Z) (bv : Z * Z) : Z := r * 2 ^ bv.1 + bv.2 mod 2 ^ bv.1.
Definition mixed (acc : Z) (l : list (Z * Z)) : Z := fold_left mixed_step l acc.
Definition bits_total (bs : list Z) : Z := foldr Z.add 0 bs.

Section Draws.
Context {G : Type} `{URBG G}.

(** The number of values the generator has, and the bits they surely carry. *)
Definition g_size : Z := g_max (S := G) - g_min (S := G) + 1.
Definition g_bits : Z := Z.log2 g_size.

Definition g_step (s : G) : G := snd (g_draw s).
Definition nth_draw (k : nat) (s : G) : Z := fst (g_draw (Nat.iter k g_step s)).
Definition draws (n : nat) (s : G) : list Z := (fun k => nth_draw k s) <$> seq 0 n.

(** For each width in turn, the first value drawn below its rejection bound. *)
Inductive accepted : list Z -> G -> list Z -> G -> Prop :=
| accepted_nil s : accepted [] s [] s
| accepted_cons b bs s k vs s' :
    (forall j, (j < k)%nat -> kRejection (G := G) b <= nth_draw j s) ->
    nth_draw k s < kRejection (G := G) b ->
    accepted bs (Nat.iter (S k) g_step s) vs s' ->
    accepted (b :: bs) s (nth_draw k s :: vs) s'.
End Draws.

(** ** Lemmas *)

Lemma IntegerLog2_spec fuel n : 0 <= n < 2 ^ Z.of_nat fuel -> IntegerLog2 fuel n = Some (Z.log2 n).
Proof.
  revert n. induction fuel as [|fuel IH]; intros n Hn; cbn [IntegerLog2].
  { replace n with 0 by lia. done. }
  destruct (Z.leb_spec n 1); [by assert (n = 0 \/ n = 1) as [-> | ->] by lia|].
  rewrite Nat2Z.inj_succ, Z.pow_succ_r in Hn by lia. rewrite ushr_val by lia. change (2 ^ 1) with 2.
  rewrite IH by zlia. cbn [mbind option_bind]. f_equal. pose proof (Z.log2_shiftr n 1 ltac:(lia)) as E.
  rewrite Z.shiftr_div_pow2 in E by lia. change (2 ^ 1) with 2 in E. rewrite E.
  pose proof (Z.log2_le_mono 2 n ltac:(lia)) as M. change (Z.log2 2) with 1 in M. lia.
Qed.


Lemma mixed_acc bs vs acc : length bs = length vs -> Forall (fun b => 0 <= b) bs ->
  mixed acc (zip bs vs) = acc * 2 ^ bits_total bs + mixed 0 (zip bs vs) /\ 0 <= bits_total bs /\
  0 <= mixed 0 (zip bs vs) < 2 ^ bits_total bs.
Proof.
  intros Hl Hb. revert vs acc Hl. induction Hb as [|b bs Hb0 Hb IH]; intros [|v vs] acc Hl; try done; cbn in Hl.
  { cbn. lia. }
  injection Hl as Hl. unfold mixed in *. cbn [zip_with fold_left bits_total foldr]. fold (bits_total bs).
  change (mixed_step 0 (b, v)) with (0 * 2 ^ b + v mod 2 ^ b).
  change (mixed_step acc (b, v)) with (acc * 2 ^ b + v mod 2 ^ b).
  destruct (IH vs (acc * 2 ^ b + v mod 2 ^ b) Hl) as (E & Ht & Hr). destruct (IH vs (0 * 2 ^ b + v mod 2 ^ b) Hl) as (E' & _).
  rewrite E, E', Z.pow_add_r by lia. pose proof (Z.mod_pos_bound v (2 ^ b) ltac:(lia)).
  pose proof (Z.pow_pos_nonneg 2 (bits_total bs) ltac:(lia) Ht). split_and!; [ring|lia|nia|nia].
Qed.

(** Every number of the total width has exactly one list of digits. *)
Lemma mixed_unique bs x : Forall (fun b => 0 <= b) bs -> 0 <= x < 2 ^ bits_total bs ->
  exists ds, (Forall2 (fun b v => 0 <= v < 2 ^ b) bs ds /\ mixed 0 (zip bs ds) = x) /\
    forall ds', Forall2 (fun b v => 0 <= v < 2 ^ b) bs ds' -> mixed 0 (zip bs ds') = x -> ds' = ds.
Proof.
  intros Hb. revert x. induction Hb as [|b bs Hb0 Hb IH]; intros x Hx.
  { exists []. cbn in *. split_and!; [constructor|lia|]. intros ds' H _. by inversion H. }
  cbn [bits_total foldr] in Hx. fold (bits_total bs) in Hx.
  destruct (mixed_acc bs (map (fun _ => 0) bs) 0 ltac:(by rewrite length_map) Hb) as (_ & Ht & _).
  rewrite Z.pow_add_r in Hx by lia. pose proof (Z.pow_pos_nonneg 2 (bits_total bs) ltac:(lia) Ht) as Hp.
  assert (Hcons : forall v vs, 0 <= v < 2 ^ b -> length bs = length vs ->
    mixed 0 (zip (b :: bs) (v :: vs)) = v * 2 ^ bits_total bs + mixed 0 (zip bs vs)).
  { intros v vs Hv Hl. unfold mixed at 1. cbn [zip_with fold_left]. unfold mixed_step at 2. cbn [fst snd].
    rewrite Z.mod_small by lia. destruct (mixed_acc bs vs (0 * 2 ^ b + v) Hl Hb) as (E & _). unfold mixed in E at 1.
    rewrite E. ring. }
  destruct (IH (x mod 2 ^ bits_total bs)) as (ds & (Hds & Em) & Hu); [apply Z.mod_pos_bound; lia|].
  pose proof (Z.div_mod x (2 ^ bits_total bs) ltac:(lia)) as Hdm.
  assert (Hq : 0 <= x / 2 ^ bits_total bs < 2 ^ b) by (split; [apply Z.div_pos; lia|apply Z.div_lt_upper_bound; nia]).
  exists (x / 2 ^ bits_total bs :: ds). split_and!.
  - by constructor.
  - rewrite Hcons by (done || by eapply Forall2_length). lia.
  - intros ds' H E. apply Forall2_cons_inv_l in H as (v & vs & Hv & Hvs & ->). pose proof (Forall2_length Hvs) as Hl. rewrite Hcons in E by done.
    destruct (mixed_acc bs vs 0 Hl Hb) as (_ & _ & Hm).
    assert (Ev : v = x / 2 ^ bits_total bs) by (apply (Z.div_unique x _ v (mixed 0 (zip bs vs))); lia).
    f_equal; [done|]. apply Hu; [done|]. apply (Z.mod_unique x _ v); lia.
Qed.

Lemma bits_total_app a b : bits_total (a ++ b) = bits_total a + bits_total b.
Proof. unfold bits_total. induction a as [|x a IH]; cbn [app foldr]; lia. Qed.

Lemma bits_total_replicate n b : bits_total (replicate n b) = Z.of_nat n * b.
Proof. unfold bits_total. induction n as [|n IH]; cbn [replicate foldr]; lia. Qed.

Section GenerateCorrect.
Context {G : Type} {gen : URBG G} {gen_ok : URBGOk G}.
Abbreviation d := (@g_digits G gen).
Abbreviation g_size := (@g_size G gen).
Abbreviation m := (@g_bits G gen).

Lemma g_size_range : 2 <= g_size <= 2 ^ d.
Proof. pose proof (g_bounds (S := G)). unfold FastBits.g_size. lia. Qed.

Lemma RangeSize_spec : RangeSize (G := G) = if g_size =? 2 ^ d then 0 else g_size.
Proof.
  pose proof (g_bounds (S := G)). unfold RangeSize, FastBits.g_size, uadd, usub.
  destruct (Z.eqb_spec g_max (2 ^ d - 1)), (Z.eqb_spec g_min 0), (Z.eqb_spec (g_max - g_min + 1) (2 ^ d)); cbn [andb]; try lia;
    rewrite (wrap_small d (g_max - g_min)) by lia; apply wrap_small; lia.
Qed.

Lemma NumBits_spec : NumBits (G := G) = Some m.
Proof.
  pose proof (g_digits_pos (S := G)). pose proof g_size_range. unfold NumBits, g_bits. rewrite RangeSize_spec.
  destruct (Z.eqb_spec g_size (2 ^ d)) as [E|E].
  - rewrite Z.eqb_refl, E, Z.log2_pow2 by lia. done.
  - destruct (Z.eqb_spec g_size 0); [lia|]. apply IntegerLog2_spec. rewrite Z2Nat.id; lia.
Qed.

Lemma log2_size : 1 <= m <= d /\ 2 ^ m <= g_size < 2 ^ (m + 1).
Proof.
  unfold g_bits.
  pose proof g_size_range. pose proof (g_digits_pos (S := G)). pose proof (Z.log2_spec g_size ltac:(lia)).
  rewrite <- Z.add_1_r in *. split_and!; try lia.
  - apply Z.log2_le_pow2; lia.
  - apply (Z.pow_le_mono_r_iff 2); lia.
Qed.

Lemma g_draw_range s : 0 <= fst (g_draw s) < g_size.
Proof.
  pose proof (g_next_range s). pose proof (g_bounds (S := G)). unfold g_draw, FastBits.g_size. destruct (g_next s) as [v s']. cbn [fst] in *.
  unfold usub. rewrite wrap_small by lia. lia.
Qed.

Lemma is_power_spec : IsPowerOfTwoOrZero d (RangeSize (G := G)) = true -> g_size = 2 ^ m.
Proof.
  unfold g_bits.
  pose proof g_size_range as Hr. pose proof (g_digits_pos (S := G)). rewrite RangeSize_spec. unfold IsPowerOfTwoOrZero.
  destruct (Z.eqb_spec g_size (2 ^ d)) as [E|E]; [intros _; by rewrite E, Z.log2_pow2 by lia|].
  destruct (Z.eqb_spec g_size 0); [lia|]. cbn [orb]. intros Hl.
  assert (Hs : has_single_bit d g_size = true) by (unfold has_single_bit; rewrite Hl; by destruct (Z.eqb_spec g_size 0); [lia|]).
  apply has_single_bit_spec in Hs as (k & Hk & ->); [by rewrite Z.log2_pow2 by lia|lia|lia].
Qed.

Lemma nth_draw_range k s : 0 <= nth_draw k s < g_size.
Proof. apply g_draw_range. Qed.

Lemma draws_S n s : draws (S n) s = nth_draw 0 s :: draws n (g_step s).
Proof.
  unfold draws. cbn [seq fmap list_fmap]. f_equal. rewrite <- fmap_S_seq, <- list_fmap_compose.
  apply list_fmap_ext. intros ? k _. unfold compose, nth_draw. by rewrite Nat.iter_succ_r.
Qed.

Lemma simple_loop_spec n w k r s : 0 <= w -> 0 <= k -> g_size = 2 ^ k ->
  simple_loop n w k (wrap w r) s = (wrap w (mixed r (zip (replicate n k) (draws n s))), Nat.iter n g_step s).
Proof.
  intros Hw Hk Hs. revert r s. induction n as [|n IH]; intros r s; [done|].
  cbn [simple_loop replicate]. rewrite draws_S, Nat.iter_succ_r. pose proof (g_draw_range s) as Hv.
  change (nth_draw 0 s) with (fst (g_draw s)). change (g_step s) with (snd (g_draw s)).
  destruct (g_draw s) as [v s1]. cbn [fst snd] in *. change (zip ?l (v :: ?l')) with (zip_with pair l (v :: l')).
  cbn [zip_with]. unfold mixed. cbn [fold_left].
  fold (mixed (mixed_step r (k, v)) (zip (replicate n k) (draws n s1))). rewrite <- IH. f_equal.
  unfold mixed_step, uadd. cbn [fst snd]. rewrite ushl_val, wrap_mul_l, wrap_add_l, wrap_add_r, Z.mod_small by lia. done.
Qed.

(** *** The number of iterations *)

Definition ceil_div (w k : Z) : Z := w / k + b2z (negb (w mod k =? 0)).

Lemma ceil_div_spec w k : 0 < w -> 0 < k -> 1 <= ceil_div w k <= w /\ w <= ceil_div w k * k < w + k.
Proof.
  intros Hw Hk. unfold ceil_div. pose proof (Z.div_mod w k ltac:(lia)). pose proof (Z.mod_pos_bound w k Hk).
  pose proof (Z.div_pos w k ltac:(lia) Hk). destruct (Z.eqb_spec (w mod k) 0); cbn [negb b2z]; nia.
Qed.

Lemma generate_simple_spec w s : 0 < w -> g_size = 2 ^ m ->
  let n := Z.to_nat (ceil_div w m) in
  generate_simple w s = Some (wrap w (mixed 0 (zip (replicate n m) (draws n s))), Nat.iter n g_step s).
Proof.
  intros Hw Hs n. pose proof log2_size as (Hm & _). destruct (ceil_div_spec w m) as (Hn & Hc); [lia..|].
  unfold generate_simple. rewrite NumBits_spec. cbn [mbind option_bind]. fold (ceil_div w m).
  assert (En : n = S (Z.to_nat (ceil_div w m - 1))) by lia. rewrite En. set (k := Z.to_nat (ceil_div w m - 1)) in *.
  rewrite draws_S, Nat.iter_succ_r. change (nth_draw 0 s) with (fst (g_draw s)). pose proof (g_draw_range s) as Hv.
  change (g_step s) with (snd (g_draw s)). destruct (g_draw s) as [v s1]. cbn [fst snd] in *.
  assert (E : simple_loop k w (simple_shift w m) (wrap w v) s1 = simple_loop k w m (wrap w v) s1).
  { unfold simple_shift. fold (ceil_div w m). destruct (Z.eqb_spec (ceil_div w m) 1) as [E|]; [|done].
    assert (Ek : k = 0%nat) by lia. by rewrite Ek. }
  rewrite E, simple_loop_spec by (done || lia). f_equal. f_equal. f_equal. unfold mixed.
  cbn [replicate zip_with fold_left]. unfold mixed_step at 3. cbn [fst snd]. by rewrite Z.mod_small by lia.
Qed.

(** *** The rejection loop *)

Lemma kRejection_spec b : 0 <= b -> g_size <> 2 ^ d -> kRejection (G := G) b = g_size / 2 ^ b * 2 ^ b.
Proof.
  intros Hb Hs. pose proof g_size_range. unfold kRejection. rewrite RangeSize_spec, (proj2 (Z.eqb_neq _ _) Hs).
  rewrite ushr_val, ushl_val by lia. apply wrap_small. pose proof (Z.pow_pos_nonneg 2 b ltac:(lia) Hb).
  pose proof (Z.mul_div_le g_size (2 ^ b) ltac:(lia)). pose proof (Z.div_pos g_size (2 ^ b) ltac:(lia) ltac:(lia)). lia.
Qed.

Lemma kRejection_min b : 0 <= b <= m -> g_size <> 2 ^ d -> 2 ^ m <= kRejection (G := G) b.
Proof.
  intros Hb Hs. pose proof log2_size as (Hm & Hl). rewrite kRejection_spec by (done || lia).
  assert (E : 2 ^ m = 2 ^ (m - b) * 2 ^ b) by (rewrite <- Z.pow_add_r by lia; f_equal; lia).
  pose proof (Z.pow_pos_nonneg 2 b ltac:(lia) ltac:(lia)). rewrite E at 1. apply Z.mul_le_mono_nonneg_r; [lia|].
  apply Z.div_le_lower_bound; lia.
Qed.

(** Every group of low bits is had by equally many accepted values. *)
Lemma accepted_uniform b r v : 0 <= b -> g_size <> 2 ^ d -> 0 <= r < 2 ^ b ->
  (0 <= v < kRejection (G := G) b /\ v mod 2 ^ b = r) <-> exists q, 0 <= q < g_size / 2 ^ b /\ v = r + q * 2 ^ b.
Proof.
  intros Hb Hs Hr. rewrite kRejection_spec by done. pose proof (Z.pow_pos_nonneg 2 b ltac:(lia) Hb). split.
  - intros (Hv & <-). exists (v / 2 ^ b). pose proof (Z.div_mod v (2 ^ b) ltac:(lia)).
    split_and!; [apply Z.div_pos; lia|apply Z.div_lt_upper_bound; lia|lia].
  - intros (q & Hq & ->). rewrite Z_mod_plus_full, Z.mod_small by lia. split_and!; nia.
Qed.

Lemma draw_below_spec fuel rej s : (exists k, (k < fuel)%nat /\ nth_draw k s < rej) ->
  exists k, (forall j, (j < k)%nat -> rej <= nth_draw j s) /\ nth_draw k s < rej /\
    draw_below fuel rej s = Some (nth_draw k s, Nat.iter (S k) g_step s).
Proof.
  revert s. induction fuel as [|fuel IH]; intros s (k & Hk & Hv); [lia|]. cbn [draw_below].
  assert (E : g_draw s = (nth_draw 0 s, g_step s)) by (unfold nth_draw, g_step; cbn; by destruct (g_draw s)).
  rewrite E. destruct (Z.leb_spec rej (nth_draw 0 s)) as [Hle|Hlt].
  - destruct k as [|k]; [lia|]. destruct (IH (g_step s)) as (k' & Hj & Hv' & ->).
    { exists k. split; [lia|]. unfold nth_draw in *. by rewrite Nat.iter_succ_r in Hv. }
    exists (S k'). unfold nth_draw in *. rewrite !(Nat.iter_succ_r (S k')), (Nat.iter_succ_r k'). split_and!; [|done..].
    intros [|j] Hlt; [done|]. rewrite Nat.iter_succ_r. apply Hj. lia.
  - exists 0%nat. split_and!; [lia|done|done].
Qed.

(** One iteration of the loop of the source. *)
Definition acc_step (w b acc v : Z) : Z :=
  uadd w (ushl w acc (b mod w)) (wrap w (Z.land v (MaskFromShift d (b mod w)))).

Lemma MaskFromShift_spec b v : 0 <= b <= d -> 0 <= v < 2 ^ d ->
  Z.land v (MaskFromShift d b) = if b =? 0 then v else v mod 2 ^ b.
Proof.
  intros Hb Hv. pose proof (g_digits_pos (S := G)). unfold MaskFromShift.
  assert (Hones : Z.land v (unot d 0) = v).
  { rewrite unot_val by lia. replace (2 ^ d - 1 - 0) with (Z.ones d) by (rewrite Z.ones_equiv; lia). rewrite Z.land_ones by lia. by apply Z.mod_small. }
  destruct (Z.eqb_spec (b mod d) 0) as [E|E]; destruct (Z.eqb_spec b 0) as [E'|E']; try (done || by subst; rewrite Z.mod_0_l in E by lia).
  - assert (b = d) as -> by (destruct (Z.eq_dec b d); [done|]; rewrite Z.mod_small in E by lia; lia).
    by rewrite Z.mod_small.
  - assert (b <> d) by (intros ->; by rewrite Z.mod_same in E by lia).
    assert (Hp : 2 * 2 ^ b <= 2 ^ d) by (rewrite <- Z.pow_succ_r by lia; apply Z.pow_le_mono_r; lia).
    pose proof (Z.pow_pos_nonneg 2 b ltac:(lia) ltac:(lia)).
    rewrite ushl_val, Z.mul_1_l by lia. unfold usub. rewrite (wrap_small d (2 ^ b)), wrap_small by lia.
    replace (2 ^ b - 1) with (Z.ones b) by (rewrite Z.ones_equiv; lia). apply Z.land_ones. lia.
Qed.

Lemma acc_step_mid w b r v : 0 < b < w -> b <= d -> 0 <= v < 2 ^ d ->
  acc_step w b (wrap w r) v = wrap w (mixed_step r (b, v)).
Proof.
  intros Hb Hd Hv. unfold acc_step, mixed_step. cbn [fst snd]. rewrite (Z.mod_small b w), MaskFromShift_spec by lia.
  destruct (Z.eqb_spec b 0); [lia|]. unfold uadd. by rewrite ushl_val, wrap_mul_l, wrap_add_l, wrap_add_r by lia.
Qed.

Lemma acc_step_edge w b v : 0 < w -> b = 0 \/ b = w -> 0 <= v < 2 ^ d -> acc_step w b 0 v = wrap w v.
Proof.
  intros Hw Hb Hv. pose proof (g_digits_pos (S := G)). unfold acc_step.
  assert (E : b mod w = 0) by (destruct Hb as [-> | ->]; [apply Z.mod_0_l; lia|by apply Z.mod_same; lia]).
  rewrite E, MaskFromShift_spec by lia. rewrite Z.eqb_refl, ushl_val by lia. unfold uadd.
  rewrite Z.mul_0_l, wrap_add_l, wrap_add_r, Z.add_0_l by lia. done.
Qed.

Section Rejection.
Context (fuel : nat) (not_full : g_size <> 2 ^ d).
Context (draws_low : forall s, exists k, (k < fuel)%nat /\ nth_draw k s < 2 ^ m).

Lemma reject_loop_spec n w b acc s : 0 <= b <= m ->
  exists vs s', accepted (replicate n b) s vs s' /\ Forall (fun v => 0 <= v < 2 ^ d) vs /\
    reject_loop fuel n w b acc s = Some (fold_left (acc_step w b) vs acc, s').
Proof.
  intros Hb. revert acc s. induction n as [|n IH]; intros acc s.
  { exists [], s. split_and!; [constructor|constructor|done]. }
  destruct (draw_below_spec fuel (kRejection (G := G) b) s) as (k & Hj & Hv & E).
  { destruct (draws_low s) as (k & Hk & Hv). exists k. split; [done|]. pose proof (kRejection_min b Hb not_full). lia. }
  cbn [reject_loop]. rewrite E. cbn [mbind option_bind].
  destruct (IH (acc_step w b acc (nth_draw k s)) (Nat.iter (S k) g_step s)) as (vs & s' & Ha & Hvs & Er).
  exists (nth_draw k s :: vs), s'. split_and!; [by constructor| |done].
  constructor; [|done]. pose proof (nth_draw_range k s). pose proof g_size_range. lia.
Qed.

Lemma accepted_app bs bs' s vs s' vs' s'' : accepted bs s vs s' -> accepted bs' s' vs' s'' ->
  accepted (bs ++ bs') s (vs ++ vs') s''.
Proof. induction 1 as [|b bs s k vs s' Hj Hv Ha IH]; intros H'; [done|]. cbn. constructor; auto. Qed.

Lemma accepted_length bs s vs s' : accepted bs s vs s' -> length bs = length vs.
Proof. induction 1; cbn; auto. Qed.

Lemma fold_acc_step n w b r vs : 0 < b < w -> b <= d -> Forall (fun v => 0 <= v < 2 ^ d) vs -> length vs = n ->
  fold_left (acc_step w b) vs (wrap w r) = wrap w (mixed r (zip (replicate n b) vs)).
Proof.
  intros Hb Hd Hvs <-. revert r. induction Hvs as [|v vs Hv Hvs IH]; intros r; [done|].
  cbn [length replicate zip_with fold_left]. unfold mixed. cbn [fold_left]. rewrite acc_step_mid by done. apply IH.
Qed.

Lemma fold_acc_step_0 n w b vs : 0 < b < w -> b <= d -> Forall (fun v => 0 <= v < 2 ^ d) vs -> length vs = n ->
  fold_left (acc_step w b) vs 0 = wrap w (mixed 0 (zip (replicate n b) vs)).
Proof. intros Hb ???. rewrite <- (fold_acc_step n) by done. by rewrite (wrap_small w 0) by lia. Qed.

(** The widths of the iterations: [total] of them, the last ones with one bit more. *)
Definition widths (w total : Z) : list Z :=
  replicate (Z.to_nat (kSmallIters w total)) (kSmallBits w total) ++
  replicate (Z.to_nat (total - kSmallIters w total)) (kLargeBits w total).

Lemma kTotalIters_cases w : kTotalIters (G := G) w m = ceil_div w m \/ kTotalIters (G := G) w m = ceil_div w m + 1.
Proof. unfold kTotalIters. fold (ceil_div w m). destruct (_ <=? _); auto. Qed.

(** The constants: the widths are at most [m] and sum to [w]; either all are positive and smaller than
    [w], or one iteration takes all bits, or the first one takes none. *)
Lemma widths_spec w : 8 <= w -> let total := kTotalIters (G := G) w m in let sm := kSmallBits w total in
  0 <= sm <= m /\ 1 <= kSmallIters w total /\ 0 <= total - kSmallIters w total /\
  (0 < total - kSmallIters w total -> sm + 1 <= m) /\
  kSmallIters w total * sm + (total - kSmallIters w total) * (sm + 1) = w /\
  (0 < sm /\ sm + 1 < w \/ sm = w /\ kSmallIters w total = 1 /\ total = 1 \/
   sm = 0 /\ kSmallIters w total = 1 /\ total = w + 1).
Proof.
  intros Hw total sm. pose proof log2_size as (Hm & _). destruct (ceil_div_spec w m ltac:(lia) ltac:(lia)) as (Hn & Hc).
  pose proof (kTotalIters_cases w) as Ht. fold total in Ht. unfold kSmallIters. subst sm. unfold kSmallBits.
  pose proof (Z.div_mod w total ltac:(lia)) as Hd. pose proof (Z.mod_pos_bound w total ltac:(lia)) as Hr.
  pose proof (Z.div_pos w total ltac:(lia) ltac:(lia)) as Hq. set (q := w / total) in *. set (r := w mod total) in *.
  clearbody total q r. assert (Htm : w <= total * m) by nia.
  split_and!; try nia. destruct (Z.eq_dec total 1) as [-> |]; [right; left; lia|].
  destruct (Z.eq_dec q 0) as [-> |]; [right; right; lia|]. left. nia.
Qed.

Lemma generate_reject_spec w s : 8 <= w -> exists vs s',
  accepted (widths w (kTotalIters (G := G) w m)) s vs s' /\
  generate_reject fuel w s = Some (mixed 0 (zip (widths w (kTotalIters (G := G) w m)) vs), s').
Proof.
  intros Hw. destruct (widths_spec w Hw) as (Hsm & Hn & Hl & Hlb & Htot & Hcase). pose proof log2_size as (Hm & _).
  unfold generate_reject. rewrite NumBits_spec. cbn [mbind option_bind]. unfold widths, kLargeBits.
  set (total := kTotalIters (G := G) w m) in *. set (b := kSmallBits w total) in *. set (n := kSmallIters w total) in *.
  destruct (reject_loop_spec (Z.to_nat n) w b 0 s Hsm) as (vs & s1 & Ha & Hvs & E). rewrite E. cbn [mbind option_bind].
  assert (Hlen : length vs = Z.to_nat n) by (by rewrite <- (accepted_length _ _ _ _ Ha), length_replicate).
  assert (Hb : Forall (fun b => 0 <= b) (replicate (Z.to_nat n) b ++ replicate (Z.to_nat (total - n)) (b + 1))).
  { apply Forall_app; split; apply Forall_replicate; lia. }
  assert (Ht : bits_total (replicate (Z.to_nat n) b ++ replicate (Z.to_nat (total - n)) (b + 1)) = w).
  { rewrite bits_total_app, !bits_total_replicate, !Z2Nat.id by lia. done. }
  destruct (Z.eq_dec (total - n) 0) as [El|El].
  - rewrite El in *. change (Z.to_nat 0) with 0%nat in *. cbn [replicate reject_loop] in *. rewrite app_nil_r in *.
    exists vs, s1. split; [done|]. f_equal. f_equal.
    destruct (mixed_acc (replicate (Z.to_nat n) b) vs 0) as (_ & _ & Hr); [by rewrite length_replicate|done|].
    rewrite Ht in Hr. destruct Hcase as [Hc|[(Hc & Hn1 & _)|Hc]]; [|..|lia].
    + rewrite (fold_acc_step_0 (Z.to_nat n)) by (done || lia). by apply wrap_small.
    + rewrite Hn1 in *. destruct vs as [|v [|]]; try done. cbn [fold_left]. apply Forall_cons_1 in Hvs as [Hv _].
      rewrite acc_step_edge by (lia || auto). unfold mixed. cbn. rewrite Hc. done.
  - destruct (reject_loop_spec (Z.to_nat (total - n)) w (b + 1) (fold_left (acc_step w b) vs 0) s1 ltac:(lia)) as (vs' & s2 & Ha' & Hvs' & E').
    rewrite E'. exists (vs ++ vs'), s2. split; [by eapply accepted_app|]. f_equal. f_equal.
    assert (Hlen' : length vs' = Z.to_nat (total - n)) by (by rewrite <- (accepted_length _ _ _ _ Ha'), length_replicate).
    destruct (mixed_acc (replicate (Z.to_nat n) b ++ replicate (Z.to_nat (total - n)) (b + 1)) (vs ++ vs') 0) as (_ & _ & Hr).
    { rewrite !length_app, !length_replicate. lia. }
    { done. }
    rewrite Ht in Hr. rewrite zip_with_app in * by (by rewrite length_replicate).
    destruct Hcase as [Hc|[Hc|(Hc & Hn1 & Htw)]]; [|lia|].
    + rewrite (fold_acc_step_0 (Z.to_nat n)), (fold_acc_step (Z.to_nat (total - n))) by (done || lia). unfold mixed in *. rewrite fold_left_app in *.
      by apply wrap_small.
    + rewrite Hn1 in *. destruct vs as [|v [|]]; try done. cbn [fold_left]. apply Forall_cons_1 in Hvs as [Hv _].
      rewrite acc_step_edge, (fold_acc_step (Z.to_nat (total - 1))) by (lia || auto). rewrite Hc in *.
      destruct (mixed_acc (replicate (Z.to_nat (total - 1)) (0 + 1)) vs' v) as (E1 & _); [by rewrite length_replicate|apply Forall_replicate; lia|].
      rewrite E1. change (replicate (Z.to_nat 1) 0) with [0] in *. unfold mixed in *. cbn [zip_with app fold_left] in *.
      change (mixed_step 0 (0, v)) with (0 * 1 + v mod 1) in *. rewrite Z.mod_1_r in *. cbn [Z.mul Z.add] in Hr |- *.
      rewrite bits_total_replicate, Z2Nat.id, Z.mul_1_r, Htw by lia. replace (w + 1 - 1) with w by lia.
      rewrite Z.add_comm, wrap_shift by lia. change (0 * 1 + 0) with 0 in *. rewrite Htw, Z.add_simpl_r in Hr. by apply wrap_small.
Qed.
End Rejection.
End GenerateCorrect.


Lemma widths_bits {G : Type} {gen : URBG G} {gen_ok : URBGOk G} w : 8 <= w ->
  let bs := widths w (kTotalIters (G := G) w g_bits) in
  bits_total bs = w /\ Forall (fun b => 0 <= b <= g_bits (G := G)) bs.
Proof.
  intros Hw bs. destruct (widths_spec (G := G) w Hw) as (Hsm & Hn & Hl & Hlb & Htot & _). subst bs. unfold widths, kLargeBits. split.
  - rewrite bits_total_app, !bits_total_replicate, !Z2Nat.id by lia. done.
  - apply Forall_app. split; [apply Forall_replicate; lia|].
    destruct (Z.eq_dec (kTotalIters (G := G) w g_bits - kSmallIters w (kTotalIters (G := G) w g_bits)) 0) as [-> |];
      [constructor|apply Forall_replicate; lia].
Qed.

(** ** The bits are uniform *)

(** [FastUniformBits] over any generator. If the generator has a power of two of values, the
    result of [w] bits is the low bits of the number written by ceil(w/m) successive draws of
    [m] bits, as few as suffice. Otherwise, if any [fuel] successive draws have one below 2^m,
    it returns a number written with exactly [w] bits: for each of its widths the low bits of the
    first draw below the rejection bound, where each value of the low bits comes from
    equally many accepted draws and each number of [w] bits is written by one choice of them. *)
Theorem fast_bits_correct {G : Type} {gen : URBG G} {gen_ok : URBGOk G} fuel w (s : G) : 8 <= w ->
  let m := g_bits (G := G) in
  (IsPowerOfTwoOrZero (g_digits (S := G)) (RangeSize (G := G)) = true ->
   let n := Z.to_nat (ceil_div w m) in
   fast_bits fuel w s = Some (wrap w (mixed 0 (zip (replicate n m) (draws n s))), Nat.iter n g_step s) /\
   w <= Z.of_nat n * m < w + m /\ Forall (fun v => 0 <= v < 2 ^ m) (draws n s)) /\
  (IsPowerOfTwoOrZero (g_digits (S := G)) (RangeSize (G := G)) = false ->
   (forall t : G, exists k, (k < fuel)%nat /\ nth_draw k t < 2 ^ m) ->
   exists bs vs s', accepted bs s vs s' /\ fast_bits fuel w s = Some (mixed 0 (zip bs vs), s') /\
     bits_total bs = w /\
     (forall b r v, b ∈ bs -> 0 <= r < 2 ^ b -> 0 <= v < kRejection (G := G) b /\ v mod 2 ^ b = r <->
        exists q, 0 <= q < g_size (G := G) / 2 ^ b /\ v = r + q * 2 ^ b) /\
     (forall x, 0 <= x < 2 ^ w -> exists ds, (Forall2 (fun b v => 0 <= v < 2 ^ b) bs ds /\ mixed 0 (zip bs ds) = x) /\
        forall ds', Forall2 (fun b v => 0 <= v < 2 ^ b) bs ds' -> mixed 0 (zip bs ds') = x -> ds' = ds)).
Proof.
  intros Hw m. pose proof (log2_size (G := G)) as (Hm & _). pose proof (g_size_range (G := G)) as Hsz. split; intros E; unfold fast_bits; rewrite E.
  - pose proof (is_power_spec E) as Hs. destruct (ceil_div_spec w m ltac:(lia) ltac:(lia)) as (Hn & Hc).
    rewrite generate_simple_spec by (done || lia). rewrite Z2Nat.id by lia. split_and!; [done|lia..|].
    apply Forall_fmap, Forall_forall. intros k _. cbn. unfold m. rewrite <- Hs. apply nth_draw_range.
  - intros Hd. assert (Hnf : g_size (G := G) <> 2 ^ g_digits (S := G)).
    { intros Hf. unfold IsPowerOfTwoOrZero in E. by rewrite RangeSize_spec, (proj2 (Z.eqb_eq _ _) Hf) in E. }
    destruct (generate_reject_spec fuel Hnf Hd w s Hw) as (vs & s' & Ha & Er). destruct (widths_bits (G := G) w Hw) as (Ht & Hb).
    assert (Hb0 : Forall (fun b => 0 <= b) (widths w (kTotalIters (G := G) w m))) by (revert Hb; rewrite !Forall_forall; intros Hb b Hin; specialize (Hb b Hin); lia).
    exists (widths w (kTotalIters (G := G) w m)), vs, s'. split_and!; [done..| |].
    + intros b r v Hin Hr. rewrite Forall_forall in Hb0. apply accepted_uniform; [by apply Hb0, list_elem_of_In|done|done].
    + intros x Hx. apply mixed_unique; [done|]. unfold m. by rewrite Ht.
Qed.

(** A generator of five values, for the rejection loop: a counter modulo 5. *)
Definition mod5_urbg : URBG nat := {|
  g_digits := 8; g_min := 0; g_max := 4; g_next s := (Z.of_nat (s mod 5), S s) |}.

Lemma mod5_urbg_ok : @URBGOk nat mod5_urbg.
Proof.
  split; cbn [g_digits g_min g_max g_next mod5_urbg fst]; [lia|lia|]. intros s. pose proof (Nat.mod_upper_bound s 5 ltac:(lia)). lia.
Qed.

Lemma fast_bits_correct_witness :
  (exists bs vs s', @accepted nat mod5_urbg bs 3%nat vs s' /\ @fast_bits nat mod5_urbg 2 8 3%nat = Some (mixed 0 (zip bs vs), s') /\ bits_total bs = 8) /\
  @fast_bits nat mod5_urbg 2 8 3%nat = Some (198, 8%nat).
Proof.
  split; [|by vm_compute].
  destruct (@fast_bits_correct nat mod5_urbg mod5_urbg_ok 2 8 3%nat) as (_ & H); [lia|].
  destruct H as (bs & vs & s' & Ha & E & Ht & _); [by vm_compute| |by exists bs, vs, s'].
  intros t. destruct (decide (t mod 5 = 4)%nat) as [E|E].
  - exists 1%nat. split; [lia|]. unfold nth_draw, g_step, g_draw. cbn [Nat.iter nat_rect snd fst g_next mod5_urbg].
    replace (S t mod 5)%nat with 0%nat; [by vm_compute|]. symmetry. rewrite (Nat.div_mod_eq t 5), E.
    replace (S (5 * (t / 5) + 4)) with (0 + (S (t / 5)) * 5)%nat by lia. by rewrite Nat.Div0.mod_add.
  - exists 0%nat. split; [lia|]. unfold nth_draw, g_draw. cbn [Nat.iter nat_rect snd fst g_next mod5_urbg].
    pose proof (Nat.mod_upper_bound t 5 ltac:(lia)). assert (t mod 5 = 0 \/ t mod 5 = 1 \/ t mod 5 = 2 \/ t mod 5 = 3)%nat as Hc by lia.
    destruct Hc as [-> | [-> | [-> | ->]]]; by vm_compute.
Defined.

(** ** Wide products are exact *)

Lemma wide_multiply_spec w a b : 0 < w -> 0 <= a < 2 ^ w -> 0 <= b < 2 ^ w ->
  wide_hi w (wide_multiply w a b) = a * b / 2 ^ w /\ wide_lo w (wide_multiply w a b) = (a * b) mod 2 ^ w.
Proof.
  intros Hw Ha Hb. assert (E : 2 ^ (2 * w) = 2 ^ w * 2 ^ w) by (rewrite <- Z.pow_add_r by lia; f_equal; lia).
  unfold wide_hi, wide_lo, wide_multiply, umul. rewrite (wrap_small (2 * w)) by (rewrite E; nia). rewrite ushr_val by lia.
  split; [|done]. apply wrap_small. split; [apply Z.div_pos; nia|apply Z.div_lt_upper_bound; nia].
Qed.

(** Products of halves and their sums as numbers. *)
Lemma half_product_is a b x y : 0 <= x < 2 ^ 64 -> 0 <= y < 2 ^ 64 -> u128_is a x -> u128_is b y -> u128_is (uint128_mul a b) (x * y).
Proof. intros Hx Hy Ha Hb. eapply u128_is_conv; [by apply mul_is|]. apply wrap_small. nia. Qed.

Lemma small_add_is a b x y : u128_is a x -> u128_is b y -> x + y < 2 ^ 128 -> u128_is (uint128_add a b) (x + y).
Proof.
  intros Ha Hb H. pose proof (u128_is_range _ _ Ha). pose proof (u128_is_range _ _ Hb).
  eapply u128_is_conv; [by apply add_is|]. apply wrap_small. lia.
Qed.

Lemma low64_is a x : u128_is a x -> u128_is (uint128_of_unsigned (uint128_low64 a)) (x mod 2 ^ 64).
Proof. intros H. rewrite (u128_is_lo a x H). apply of_unsigned_is. apply Z.mod_pos_bound. lia. Qed.

(** The arithmetic of the schoolbook product: the carry of the middle column. *)
Lemma schoolbook a0 a1 b0 b1 : 0 <= a0 < 2 ^ 64 -> 0 <= a1 < 2 ^ 64 -> 0 <= b0 < 2 ^ 64 -> 0 <= b1 < 2 ^ 64 ->
  let mid := a0 * b0 / 2 ^ 64 + (a0 * b1) mod 2 ^ 64 + (a1 * b0) mod 2 ^ 64 in
  let hi := a1 * b1 + a0 * b1 / 2 ^ 64 + a1 * b0 / 2 ^ 64 + mid / 2 ^ 64 in
  (0 <= mid < 2 ^ 128) /\ 0 <= mid / 2 ^ 64 < 2 ^ 64 /\ hi < 2 ^ 128 /\
  hi * 2 ^ 128 + (a0 * b0 + a0 * b1 * 2 ^ 64 + a1 * b0 * 2 ^ 64) mod 2 ^ 128 = (a1 * 2 ^ 64 + a0) * (b1 * 2 ^ 64 + b0).
Proof.
  intros H1 H2 H3 H4 mid hi. set (B := 2 ^ 64) in *. assert (HB : 2 ^ 128 = B * B) by done. rewrite HB.
  assert (4 <= B) by (subst B; lia). clearbody B. clear HB.
  pose proof (Z.div_mod (a0 * b0) B ltac:(lia)) as E1. pose proof (Z.mod_pos_bound (a0 * b0) B ltac:(lia)) as R1.
  pose proof (Z.div_mod (a0 * b1) B ltac:(lia)) as E2. pose proof (Z.mod_pos_bound (a0 * b1) B ltac:(lia)) as R2.
  pose proof (Z.div_mod (a1 * b0) B ltac:(lia)) as E3. pose proof (Z.mod_pos_bound (a1 * b0) B ltac:(lia)) as R3.
  assert (P1 : 0 <= a0 * b0 / B < B) by (split; [apply Z.div_pos; nia|apply Z.div_lt_upper_bound; nia]).
  assert (Hmid : 0 <= mid < B * B) by (subst mid; nia).
  pose proof (Z.div_mod mid B ltac:(lia)) as E4. pose proof (Z.mod_pos_bound mid B ltac:(lia)) as R4.
  assert (Hq : 0 <= mid / B < B) by (split; [apply Z.div_pos; lia|apply Z.div_lt_upper_bound; lia]).
  assert (E : (a1 * B + a0) * (b1 * B + b0) = a1 * b1 * (B * B) + (a0 * b1 + a1 * b0) * B + a0 * b0) by ring.
  assert (Hbound : (a1 * B + a0) * (b1 * B + b0) < (B * B) * (B * B)) by (apply Z.mul_lt_mono_nonneg; nia).
  rewrite E in *. clear E. unfold hi in *. set (qm := mid / B) in *. set (rm := mid mod B) in *.
  set (c0 := a0 * b0) in *. set (ca := a0 * b1) in *. set (cb := a1 * b0) in *. set (cc := a1 * b1) in *.
  set (q0 := c0 / B) in *. set (r0 := c0 mod B) in *. set (qa := ca / B) in *. set (ra := ca mod B) in *.
  set (qb := cb / B) in *. set (rb := cb mod B) in *. clearbody q0 r0 qa ra qb rb qm rm cc.
  clear hi P1. assert (Em : q0 = B * qm + rm - ra - rb) by (subst mid; lia). clearbody mid.
  assert (Hlo : (c0 + ca * B + cb * B) mod (B * B) = rm * B + r0).
  { symmetry. apply (Z.mod_unique _ _ (qa + qb + qm)); [left; nia|]. rewrite E1, E2, E3, Em. ring. }
  assert (Hprod : (cc + qa + qb + qm) * (B * B) + (rm * B + r0) = cc * (B * B) + (ca + cb) * B + c0).
  { rewrite E1, E2, E3, Em. ring. }
  rewrite Hlo. split_and!; try lia. assert (0 <= rm * B + r0) by nia. apply (Z.mul_lt_mono_pos_r (B * B)); nia.
Qed.

Lemma MultiplyU128ToU256_spec a b x y : u128_is a x -> u128_is b y ->
  exists h l, u128_is (hi256 (MultiplyU128ToU256 a b)) h /\ u128_is (lo256 (MultiplyU128ToU256 a b)) l /\ h * 2 ^ 128 + l = x * y.
Proof.
  intros Ha Hb. pose proof (u128_is_range _ _ Ha) as Hx. pose proof (u128_is_range _ _ Hb) as Hy.
  pose proof (low64_is a x Ha) as Ha0. pose proof (low64_is b y Hb) as Hb0.
  pose proof (shr_is a x 64 Ha ltac:(lia)) as Ha1. pose proof (shr_is b y 64 Hb ltac:(lia)) as Hb1.
  pose proof (Z.mod_pos_bound x (2 ^ 64) ltac:(lia)) as Rx0. pose proof (Z.mod_pos_bound y (2 ^ 64) ltac:(lia)) as Ry0.
  assert (Rx1 : 0 <= x / 2 ^ 64 < 2 ^ 64) by zlia. assert (Ry1 : 0 <= y / 2 ^ 64 < 2 ^ 64) by zlia.
  pose proof (Z.div_mod x (2 ^ 64) ltac:(lia)) as Ex. pose proof (Z.div_mod y (2 ^ 64) ltac:(lia)) as Ey.
  set (a0 := x mod 2 ^ 64) in *. set (b0 := y mod 2 ^ 64) in *. set (a1 := x / 2 ^ 64) in *. set (b1 := y / 2 ^ 64) in *.
  pose proof (half_product_is _ _ _ _ Rx0 Ry0 Ha0 Hb0) as C00. pose proof (half_product_is _ _ _ _ Rx0 Ry1 Ha0 Hb1) as C64a.
  pose proof (half_product_is _ _ _ _ Rx1 Ry0 Ha1 Hb0) as C64b. pose proof (half_product_is _ _ _ _ Rx1 Ry1 Ha1 Hb1) as C128.
  destruct (schoolbook a0 a1 b0 b1 Rx0 Rx1 Ry0 Ry1) as (Hmid & Hc & Hhi & Hprod).
  pose proof (Z.mod_pos_bound (a0 * b1) (2 ^ 64) ltac:(lia)). pose proof (Z.mod_pos_bound (a1 * b0) (2 ^ 64) ltac:(lia)).
  assert (0 <= a0 * b0 / 2 ^ 64) by (apply Z.div_pos; nia). assert (0 <= a0 * b1 / 2 ^ 64) by (apply Z.div_pos; nia).
  assert (0 <= a1 * b0 / 2 ^ 64) by (apply Z.div_pos; nia). assert (0 <= a1 * b1) by nia.
  pose proof (small_add_is _ _ _ _ (small_add_is _ _ _ _ (shr_is _ _ 64 C00 ltac:(lia)) (low64_is _ _ C64a) ltac:(lia))
    (low64_is _ _ C64b) ltac:(lia)) as Hm.
  pose proof (shr_is _ _ 64 Hm ltac:(lia)) as Hs.
  pose proof (small_add_is _ _ _ _ (small_add_is _ _ _ _ (small_add_is _ _ _ _ C128 (shr_is _ _ 64 C64a ltac:(lia)) ltac:(lia))
    (shr_is _ _ 64 C64b ltac:(lia)) ltac:(lia)) (low64_is _ _ Hs)) as Hh.
  rewrite (Z.mod_small (_ / 2 ^ 64) (2 ^ 64)) in Hh by exact Hc. specialize (Hh ltac:(lia)).
  pose proof (add_is _ _ _ _ (add_is _ _ _ _ C00 (shl_is _ _ 64 C64a ltac:(lia))) (shl_is _ _ 64 C64b ltac:(lia))) as Hl.
  rewrite wrap_add_r, wrap_add_l, (Z.add_comm _ (a1 * b0 * 2 ^ 64)), Z.add_assoc, wrap_add_r in Hl by lia.
  do 2 eexists. split_and!; [exact Hh|exact Hl|]. unfold wrap. rewrite Ex, Ey, (Z.mul_comm (2 ^ 64) a1), (Z.mul_comm (2 ^ 64) b1), <- Hprod.
  f_equal. f_equal. ring.
Qed.

(** [wide_multiply] is exact: for the built-in types the two halves are the quotient and the
    remainder of the product by 2^w, and [MultiplyU128ToU256] loses no carry, its halves
    being the 256-bit product. [IntLog2Floor] and [IntLog2Ceil] are the two logarithms. *)
Theorem wide_multiply_correct w a b x y : 0 < w -> 0 <= a < 2 ^ w -> 0 <= b < 2 ^ w -> u128_wf x -> u128_wf y ->
  (wide_hi w (wide_multiply w a b) = a * b / 2 ^ w /\ wide_lo w (wide_multiply w a b) = (a * b) mod 2 ^ w) /\
  (let r := MultiplyU128ToU256 x y in u128_wf (hi256 r) /\ u128_wf (lo256 r) /\
     u128_val (hi256 r) * 2 ^ 128 + u128_val (lo256 r) = u128_val x * u128_val y) /\
  (forall n, 1 <= n < 2 ^ 64 -> IntLog2Floor n = Z.log2 n /\ IntLog2Ceil n = Z.log2_up n).
Proof.
  intros Hw Ha Hb Hx Hy. split_and!.
  - by apply wide_multiply_spec.
  - by apply wide_multiply_spec.
  - destruct (MultiplyU128ToU256_spec x y _ _ (u128_is_wf x Hx) (u128_is_wf y Hy)) as (h & l & (? & <-) & (? & <-) & E). done.
  - intros n Hn. unfold IntLog2Floor, IntLog2Ceil. destruct (Z.leb_spec n 1).
    { assert (n = 1) as -> by lia. done. }
    unfold usub. rewrite (wrap_small 64 (n - 1)), !countl_zero_spec by (lia || by unfold digits_ok; lia).
    rewrite Z.log2_up_eqn by lia. destruct (Z.eqb_spec n 0), (Z.eqb_spec (n - 1) 0); try lia. rewrite <- Z.sub_1_r. lia.
Qed.

Lemma wide_multiply_correct_witness :
  (wide_hi 64 (wide_multiply 64 (2 ^ 64 - 1) (2 ^ 64 - 1)) = 2 ^ 64 - 2) /\
  (let r := MultiplyU128ToU256 (MkU128 (2 ^ 64 - 1) (2 ^ 64 - 1)) (MkU128 (2 ^ 64 - 1) (2 ^ 64 - 1)) in
   u128_val (hi256 r) * 2 ^ 128 + u128_val (lo256 r) = (2 ^ 128 - 1) * (2 ^ 128 - 1)).
Proof.
  destruct (wide_multiply_correct 64 (2 ^ 64 - 1) (2 ^ 64 - 1) (MkU128 (2 ^ 64 - 1) (2 ^ 64 - 1)) (MkU128 (2 ^ 64 - 1) (2 ^ 64 - 1)))
    as ((E & _) & (_ & _ & E') & _); [lia|lia|lia|by vm_compute|by vm_compute|].
  split; [by rewrite E|exact E'].
Defined.
