(* ===== verification/UniformInt.v ===== *)
(** * Uniform integers of an interval (random/uniform_int_distribution.h,
    random/internal/uniform_helper.h, random/distributions.h)

    [uniform_int_distribution<IntType>] over the uniform bits of FastBits.v, for an integer
    type of [w] bits, [w] one of 8, 16, 32 and 64, signed or not, and [Uniform], which first
    resolves the kind of interval. *)
From S2P Require Import Prelude Words Bits Vec Uint128 Pcg FastBits.

(** ** Integer types *)

Record int_type := MkInt { is_signed : bool; digits : Z }.

Definition int_min (T : int_type) : Z := if is_signed T then - 2 ^ (digits T - 1) else 0.
Definition int_max (T : int_type) : Z := if is_signed T then 2 ^ (digits T - 1) - 1 else 2 ^ digits T - 1.
Definition int_cast (T : int_type) (z : Z) : Z := if is_signed T then swrap (digits T) z else wrap (digits T) z.

(** ** uniform_int_distribution *)

Record param_type := MkParam { lo_ : Z; range_ : Z }.

Definition make_param (T : int_type) (lo hi : Z) : param_type :=
  MkParam lo (usub (digits T) (wrap (digits T) hi) (wrap (digits T) lo)).
Definition param_a (p : param_type) : Z := lo_ p.
Definition param_b (T : int_type) (p : param_type) : Z := int_cast T (uadd (digits T) (wrap (digits T) (lo_ p)) (range_ p)).

Section Distribution.
Context {G : Type} `{URBG G}.

(** [while (helper::lo(product) < threshold)]; [inner] is the fuel of the bits. *)
Fixpoint lemire_loop (inner fuel : nat) (w Lim threshold product : Z) (g : G) : option (Z * G) :=
  if wide_lo w product <? threshold then
    match fuel with
    | O => None
    | S fuel =>
        '(bits, g) ← fast_bits inner w g;
        lemire_loop inner fuel w Lim threshold (wide_multiply w bits Lim) g
    end
  else Some (product, g).

(** [Generate(g, R)]: a value of [0, R]. *)
Definition Generate (inner fuel : nat) (w : Z) (g : G) (R : Z) : option (Z * G) :=
  '(bits, g) ← fast_bits inner w g;
  let Lim := uadd w R 1 in
  if Z.land R Lim =? 0 then Some (Z.land bits R, g)
  else
    let product := wide_multiply w bits Lim in
    if wide_lo w product <? Lim then
      let threshold := uadd w (usub w (2 ^ w - 1) Lim) 1 mod Lim in
      '(product, g) ← lemire_loop inner fuel w Lim threshold product g;
      Some (wide_hi w product, g)
    else Some (wide_hi w product, g).

(** [operator()(gen, param)]. *)
Definition uniform_int (inner fuel : nat) (T : int_type) (p : param_type) (g : G) : option (Z * G) :=
  '(r, g) ← Generate inner fuel (digits T) g (range_ p);
  Some (int_cast T (param_a p + r), g).

(** ** Uniform *)

Inductive interval_tag := IntervalClosedClosed | IntervalClosedOpen | IntervalOpenClosed | IntervalOpenOpen.

Definition uniform_lower_bound (T : int_type) (tag : interval_tag) (a b : Z) : Z :=
  match tag with
  | IntervalOpenClosed | IntervalOpenOpen => if a <? int_max T then a + 1 else a
  | IntervalClosedClosed | IntervalClosedOpen => a
  end.

Definition uniform_upper_bound (T : int_type) (tag : interval_tag) (a b : Z) : Z :=
  match tag with
  | IntervalClosedOpen | IntervalOpenOpen => if int_min T <? b then b - 1 else b
  | IntervalClosedClosed | IntervalOpenClosed => b
  end.

Definition is_uniform_range_valid (a b : Z) : bool := a <=? b.

(** [UniformDistributionWrapper(tag, lo, hi)], without a tag and without bounds. *)
Definition uniform_wrapper (T : int_type) (tag : interval_tag) (lo hi : Z) : param_type :=
  make_param T (uniform_lower_bound T tag lo hi) (uniform_upper_bound T tag lo hi).
Definition uniform_wrapper_default (T : int_type) (lo hi : Z) : param_type := uniform_wrapper T IntervalClosedOpen lo hi.
Definition uniform_wrapper_full (T : int_type) : param_type := make_param T (int_min T) (int_max T).

(** [Uniform<R>(tag, urbg, lo, hi)]. *)
Definition Uniform (inner fuel : nat) (T : int_type) (tag : interval_tag) (g : G) (lo hi : Z) : option (Z * G) :=
  let a := uniform_lower_bound T tag lo hi in
  let b := uniform_upper_bound T tag lo hi in
  if negb (is_uniform_range_valid a b) then Some (lo, g)
  else uniform_int inner fuel T (uniform_wrapper T tag lo hi) g.

(** [Uniform<R>(urbg, lo, hi)] and [Uniform<R>(urbg)]. *)
Definition Uniform_default (inner fuel : nat) (T : int_type) (g : G) (lo hi : Z) : option (Z * G) :=
  let a := uniform_lower_bound T IntervalClosedOpen lo hi in
  let b := uniform_upper_bound T IntervalClosedOpen lo hi in
  if negb (is_uniform_range_valid a b) then Some (lo, g)
  else uniform_int inner fuel T (uniform_wrapper_default T lo hi) g.
Definition Uniform_full (inner fuel : nat) (T : int_type) (g : G) : option (Z * G) :=
  uniform_int inner fuel T (uniform_wrapper_full T) g.
End Distribution.

(** ** What the distribution should compute *)

Section Words.
Context {G : Type} `{URBG G}.

(** The [k]-th of the successive words of bits. *)
Fixpoint nth_word (inner : nat) (w : Z) (k : nat) (g : G) : option (Z * G) :=
  '(b, g) ← fast_bits inner w g; match k with O => Some (b, g) | S k => nth_word inner w k g end.
End Words.

(** A word that is not rejected for the range [R], and the value it gives. *)
Definition word_ok (w R b : Z) : Prop := 2 ^ w mod (R + 1) <= (b * (R + 1)) mod 2 ^ w.
Definition word_value (w R b : Z) : Z :=
  if Z.land R (uadd w R 1) =? 0 then b mod (R + 1) else b * (R + 1) / 2 ^ w.

(** ** Lemmas *)

Lemma pow2_range_spec w R : digits_ok w -> 0 <= R < 2 ^ w -> Z.land R (uadd w R 1) = 0 -> exists k, 0 <= k <= w /\ R + 1 = 2 ^ k.
Proof.
  intros Hw HR E. assert (0 < w) by (unfold digits_ok in Hw; lia). destruct (Z.eq_dec (R + 1) (2 ^ w)) as [|Hne]; [by exists w; lia|].
  assert (Hs : has_single_bit w (R + 1) = true).
  { unfold has_single_bit, usub. unfold uadd in E. rewrite wrap_small in E by lia. rewrite Z.add_simpl_r, wrap_small, Z.land_comm, E by lia.
    by destruct (Z.eqb_spec (R + 1) 0); [lia|]. }
  apply has_single_bit_spec in Hs as (k & Hk & ->); [by exists k; lia|done|lia].
Qed.

Lemma not_pow2_range w R : 0 < w -> 0 <= R < 2 ^ w -> Z.land R (uadd w R 1) <> 0 -> 1 <= R /\ R + 1 < 2 ^ w.
Proof.
  intros Hw HR E. assert (R <> 0) by (by intros ->). assert (R + 1 <> 2 ^ w); [|lia]. intros E'. apply E.
  unfold uadd. rewrite E'. unfold wrap. rewrite Z.mod_same by lia. apply Z.land_0_r.
Qed.

(** The threshold of the source. *)
Lemma threshold_spec w Lim : 0 < w -> 1 < Lim < 2 ^ w -> uadd w (usub w (2 ^ w - 1) Lim) 1 mod Lim = 2 ^ w mod Lim.
Proof.
  intros Hw HL. unfold uadd, usub. rewrite (wrap_small w (2 ^ w - 1 - Lim)), wrap_small by lia.
  replace (2 ^ w) with (2 ^ w - 1 - Lim + 1 + 1 * Lim) at 2 by lia. by rewrite Z_mod_plus_full.
Qed.

(** As many words as fit give each value, however the words are chosen among the residues. *)
Lemma lemire_uniform w Lim r : 0 < w -> 0 < Lim <= 2 ^ w -> 0 <= r < Lim -> exists c, forall b,
  (0 <= b < 2 ^ w /\ 2 ^ w mod Lim <= (b * Lim) mod 2 ^ w /\ b * Lim / 2 ^ w = r) <-> c <= b < c + 2 ^ w / Lim.
Proof.
  intros Hw HL Hr. set (N := 2 ^ w) in *. pose proof (Z.div_mod N Lim ltac:(lia)) as HN. pose proof (Z.mod_pos_bound N Lim ltac:(lia)) as Ht.
  set (t := N mod Lim) in *. set (F := N / Lim) in *. exists (- (- (r * N + t) / Lim)). set (c := - (- (r * N + t) / Lim)).
  assert (Hc : c * Lim - Lim < r * N + t <= c * Lim).
  { subst c. pose proof (Z.div_mod (- (r * N + t)) Lim ltac:(lia)). pose proof (Z.mod_pos_bound (- (r * N + t)) Lim ltac:(lia)). nia. }
  clearbody c. intros b. pose proof (Z.div_mod (b * Lim) N ltac:(lia)) as HbN. pose proof (Z.mod_pos_bound (b * Lim) N ltac:(lia)) as Hm.
  split.
  - intros (Hb & Hacc & Hq). rewrite Hq in HbN. split; [nia|]. assert (b * Lim < r * N + t + F * Lim) by nia. nia.
  - intros Hb. assert (Hlow : r * N + t <= b * Lim) by nia. assert (Hup : b * Lim < (r + 1) * N) by nia.
    assert (E : b * Lim / N = r) by (symmetry; apply (Z.div_unique _ _ _ (b * Lim - r * N)); lia).
    rewrite E in HbN. split_and!; [nia|nia|lia|done].
Qed.

Section GenerateCorrect.
Context {G : Type} {gen : URBG G} (inner fuel : nat) (w : Z).
Context (words_ok : forall g, exists b g', fast_bits inner w g = Some (b, g') /\ 0 <= b < 2 ^ w).

Lemma nth_word_S k g b g' : fast_bits inner w g = Some (b, g') -> nth_word inner w (S k) g = nth_word inner w k g'.
Proof. intros E. cbn [nth_word]. by rewrite E. Qed.

Lemma nth_word_0 g : nth_word inner w 0 g = fast_bits inner w g.
Proof. cbn [nth_word]. destruct (words_ok g) as (b & g' & -> & _). done. Qed.

(** [first_word R k g b g']: the [k]-th word is [b], the first that is not rejected. *)
Definition first_word (R : Z) (k : nat) (g : G) (b : Z) (g' : G) : Prop :=
  nth_word inner w k g = Some (b, g') /\ 0 <= b < 2 ^ w /\ word_ok w R b /\
  forall j, (j < k)%nat -> exists b' g'', nth_word inner w j g = Some (b', g'') /\ ~ word_ok w R b'.

Lemma first_word_here R g b g' : fast_bits inner w g = Some (b, g') -> 0 <= b < 2 ^ w -> word_ok w R b -> first_word R 0 g b g'.
Proof. intros E Hb Hok. split_and!; [by rewrite nth_word_0|lia|lia|done|lia]. Qed.

Lemma first_word_later R k g b g' v g'' : fast_bits inner w g = Some (b, g') -> ~ word_ok w R b ->
  first_word R k g' v g'' -> first_word R (S k) g v g''.
Proof.
  intros E Hno (Hk & Hv & Hok & Hj). split_and!; [by rewrite (nth_word_S _ _ _ _ E)|lia|lia|done|].
  intros [|j] Hlt; [exists b, g'; by rewrite nth_word_0|]. rewrite (nth_word_S _ _ _ _ E). apply Hj. lia.
Qed.

Lemma lemire_loop_spec R f g b : 0 < w -> 1 <= R -> R + 1 < 2 ^ w -> 0 <= b < 2 ^ w ->
  (exists k b' g', (k < f)%nat /\ nth_word inner w k g = Some (b', g') /\ word_ok w R b') ->
  exists v g', lemire_loop inner f w (R + 1) (2 ^ w mod (R + 1)) (wide_multiply w b (R + 1)) g = Some (wide_multiply w v (R + 1), g') /\
    0 <= v < 2 ^ w /\ (word_ok w R b /\ v = b /\ g' = g \/ ~ word_ok w R b /\ exists k, first_word R k g v g').
Proof.
  intros Hw HR HL Hb Hf.
  revert g b Hb Hf. induction f as [|f IH]; intros g b Hb (k & b' & g' & Hk & Hn & Hok); [lia|].
  cbn [lemire_loop]. destruct (wide_multiply_spec w b (R + 1) Hw Hb ltac:(lia)) as (_ & ->).
  destruct (Z.ltb_spec ((b * (R + 1)) mod 2 ^ w) (2 ^ w mod (R + 1))) as [Hlt|Hge].
  - assert (Hno : ~ word_ok w R b) by (unfold word_ok; lia).
    destruct (words_ok g) as (b1 & g1 & E & Hb1). rewrite E. cbn [mbind option_bind].
    destruct (decide (2 ^ w mod (R + 1) <= (b1 * (R + 1)) mod 2 ^ w)) as [Hok1|Hno1].
    + exists b1, g1. split_and!; [|lia|lia|right; split; [done|]; exists 0%nat; by apply first_word_here].
      destruct f; cbn [lemire_loop]; destruct (wide_multiply_spec w b1 (R + 1) Hw Hb1 ltac:(lia)) as (_ & ->);
        by destruct (Z.ltb_spec ((b1 * (R + 1)) mod 2 ^ w) (2 ^ w mod (R + 1))); [lia|].
    + destruct k as [|k]; [rewrite nth_word_0, E in Hn; injection Hn as -> ->; done|]. rewrite (nth_word_S _ _ _ _ E) in Hn.
      destruct (IH g1 b1 Hb1) as (v & g2 & El & Hv & [(Hok2 & _)|(_ & j & Hj)]); [exists k, b', g'; split_and!; [lia|done..]|done|].
      exists v, g2. split_and!; [done|lia|lia|]. right. split; [done|]. exists (S j). by eapply first_word_later.
  - exists b, g. split_and!; [done|lia|lia|]. by left.
Qed.

Lemma Generate_spec R g : digits_ok w -> 0 <= R < 2 ^ w ->
  (forall g, exists k b g', (k < fuel)%nat /\ nth_word inner w k g = Some (b, g') /\ word_ok w R b) ->
  exists k b g', first_word R k g b g' /\ Generate inner fuel w g R = Some (word_value w R b, g') /\ 0 <= word_value w R b <= R.
Proof.
  intros Hd HR Hacc. assert (Hw : 0 < w) by (unfold digits_ok in Hd; lia). unfold Generate, word_value.
  destruct (words_ok g) as (b & g1 & E & Hb). rewrite E. cbn [mbind option_bind].
  destruct (Z.eqb_spec (Z.land R (uadd w R 1)) 0) as [Ep|Ep].
  - destruct (pow2_range_spec w R Hd HR Ep) as (k & Hk & Ek). exists 0%nat, b, g1.
    pose proof (Z.mod_pos_bound b (R + 1) ltac:(lia)). split_and!; [|f_equal; f_equal|lia|lia].
    + apply first_word_here; [done..|]. unfold word_ok. rewrite Ek. replace (2 ^ w) with (2 ^ (w - k) * 2 ^ k) by (rewrite <- Z.pow_add_r by lia; f_equal; lia).
      rewrite Z.mod_mul by lia. apply Z.mod_pos_bound. rewrite <- Z.pow_add_r by lia. lia.
    + replace R with (Z.ones k) by (rewrite Z.ones_equiv; lia). rewrite Z.land_ones by lia. f_equal. rewrite Z.ones_equiv. lia.
  - destruct (not_pow2_range w R Hw HR Ep) as (HR1 & HL). assert (EL : uadd w R 1 = R + 1) by (unfold uadd; apply wrap_small; lia). rewrite !EL.
    assert (Hval : forall v, 0 <= v < 2 ^ w -> wide_hi w (wide_multiply w v (R + 1)) = v * (R + 1) / 2 ^ w /\ 0 <= v * (R + 1) / 2 ^ w <= R).
    { intros v Hv. destruct (wide_multiply_spec w v (R + 1) Hw Hv ltac:(lia)) as (-> & _). split_and!; [done|apply Z.div_pos; nia|].
      apply Z.lt_succ_r, Z.div_lt_upper_bound; nia. }
    destruct (wide_multiply_spec w b (R + 1) Hw Hb ltac:(lia)) as (_ & ->).
    destruct (Z.ltb_spec ((b * (R + 1)) mod 2 ^ w) (R + 1)) as [Hlt|Hge].
    + rewrite threshold_spec by lia.
      destruct (lemire_loop_spec R fuel g1 b Hw HR1 HL Hb (Hacc g1)) as (v & g2 & El & Hv & Hcase).
      rewrite El. cbn [mbind option_bind]. destruct (Hval v Hv) as (-> & Hr).
      destruct Hcase as [(Hok & -> & ->)|(Hno & k & Hk)].
      * exists 0%nat, b, g1. split_and!; [by apply first_word_here|done|lia|lia].
      * exists (S k), v, g2. split_and!; [by eapply first_word_later|done|lia|lia].
    + exists 0%nat, b, g1. destruct (Hval b Hb) as (-> & Hr). split_and!; [|done|lia|lia].
      apply first_word_here; [done..|]. unfold word_ok. pose proof (Z.mod_pos_bound (2 ^ w) (R + 1) ltac:(lia)). lia.
Qed.
End GenerateCorrect.

(** With a generator of a power of two of values, the words always come. *)
Lemma simple_words_ok {G : Type} {gen : URBG G} {gen_ok : URBGOk G} inner w : 0 < w ->
  IsPowerOfTwoOrZero (g_digits (S := G)) (RangeSize (G := G)) = true ->
  forall g : G, exists b g', fast_bits inner w g = Some (b, g') /\ 0 <= b < 2 ^ w.
Proof.
  intros Hw E g. do 2 eexists. unfold fast_bits. rewrite E, generate_simple_spec by (done || by apply is_power_spec).
  split; [done|]. apply wrap_range. lia.
Qed.

(** *** Integer types *)

Definition int_ok (T : int_type) (z : Z) : Prop := int_min T <= z <= int_max T.

Lemma int_cast_ok T z : 0 < digits T -> int_ok T z -> int_cast T z = z.
Proof.
  unfold int_ok, int_min, int_max, int_cast. destruct (is_signed T); intros Hw H; [apply swrap_small|apply wrap_small]; lia.
Qed.

Lemma int_cast_wrap T z : 0 < digits T -> int_cast T (wrap (digits T) z) = int_cast T z.
Proof. unfold int_cast. destruct (is_signed T); intros Hw; [by apply swrap_wrap|apply wrap_wrap; lia]. Qed.

Lemma int_width T : 0 < digits T -> int_max T - int_min T = 2 ^ digits T - 1.
Proof.
  intros Hw. unfold int_min, int_max. destruct (is_signed T); [|lia].
  replace (2 ^ digits T) with (2 * 2 ^ (digits T - 1)) by (rewrite <- Z.pow_succ_r by lia; f_equal; lia). lia.
Qed.

Lemma make_param_spec T lo hi : 0 < digits T -> int_ok T lo -> int_ok T hi -> lo <= hi ->
  range_ (make_param T lo hi) = hi - lo /\ 0 <= hi - lo < 2 ^ digits T /\ param_a (make_param T lo hi) = lo /\ param_b T (make_param T lo hi) = hi.
Proof.
  intros Hw Hlo Hhi Hle. pose proof (int_width T Hw). assert (Hr : 0 <= hi - lo < 2 ^ digits T) by (unfold int_ok in *; lia).
  assert (E : usub (digits T) (wrap (digits T) hi) (wrap (digits T) lo) = hi - lo).
  { unfold usub. rewrite wrap_sub_l, wrap_sub_r by lia. by apply wrap_small. }
  unfold param_b. cbn [make_param range_ lo_]. rewrite E. split_and!; [done|lia|lia|done|].
  unfold uadd. rewrite wrap_add_l, int_cast_wrap by lia. replace (lo + (hi - lo)) with hi by lia. by apply int_cast_ok.
Qed.

(** *** Uniformity *)

Lemma word_value_uniform w R r : digits_ok w -> 0 <= R < 2 ^ w -> 0 <= r <= R ->
  exists f : Z -> Z, (forall i j, 0 <= i < 2 ^ w / (R + 1) -> 0 <= j < 2 ^ w / (R + 1) -> f i = f j -> i = j) /\
    forall b, (0 <= b < 2 ^ w /\ word_ok w R b /\ word_value w R b = r) <-> exists q, 0 <= q < 2 ^ w / (R + 1) /\ b = f q.
Proof.
  intros Hd HR Hr. assert (Hw : 0 < w) by (unfold digits_ok in Hd; lia). unfold word_value, word_ok.
  destruct (Z.eqb_spec (Z.land R (uadd w R 1)) 0) as [Ep|Ep].
  - destruct (pow2_range_spec w R Hd HR Ep) as (k & Hk & Ek). exists (fun q => r + q * (R + 1)). split; [intros; nia|].
    assert (E : 2 ^ w = 2 ^ (w - k) * (R + 1)) by (rewrite Ek, <- Z.pow_add_r by lia; f_equal; lia).
    rewrite E, Z.mod_mul, Z.div_mul by lia. intros b. split.
    + intros (Hb & _ & <-). exists (b / (R + 1)). pose proof (Z.div_mod b (R + 1) ltac:(lia)).
      split; [split; [apply Z.div_pos; lia|apply Z.div_lt_upper_bound; lia]|lia].
    + intros (q & Hq & ->). rewrite (Z_mod_plus_full r q (R + 1)), (Z.mod_small r (R + 1)) by lia. split_and!; [nia|nia| |done].
      apply Z.mod_pos_bound. pose proof (Z.pow_pos_nonneg 2 (w - k) ltac:(lia) ltac:(lia)). nia.
  - destruct (lemire_uniform w (R + 1) r Hw ltac:(lia) ltac:(lia)) as (c & Hc). exists (fun q => c + q). split; [lia|].
    intros b. rewrite Hc. split; [intros; exists (b - c); lia|intros (q & Hq & ->); lia].
Qed.

(** ** The distribution is uniform on its interval *)

(** C22: [uniform_int_distribution(lo, hi)]: [a()] and [b()] are the bounds, and a draw gives
    lo plus the value of the first word of bits that is not rejected; it lies in [lo, hi], and every
    number of [lo, hi] is the value of exactly 2^w / (hi - lo + 1) of the 2^w words: the distribution has no
    bias. That the words come, and one acceptable within [fuel] of them, is the hypothesis. *)
Theorem uniform_int_correct {G : Type} {gen : URBG G} inner fuel T lo hi (g : G) :
  digits_ok (digits T) -> int_ok T lo -> int_ok T hi -> lo <= hi ->
  let w := digits T in let R := hi - lo in let p := make_param T lo hi in
  (forall g : G, exists b g', fast_bits inner w g = Some (b, g') /\ 0 <= b < 2 ^ w) ->
  (forall g : G, exists k b g', (k < fuel)%nat /\ nth_word inner w k g = Some (b, g') /\ word_ok w R b) ->
  (param_a p = lo /\ param_b T p = hi) /\
  (exists k b g', first_word inner w R k g b g' /\ uniform_int inner fuel T p g = Some (lo + word_value w R b, g') /\
     lo <= lo + word_value w R b <= hi) /\
  (forall v, lo <= v <= hi -> exists f : Z -> Z,
     (forall i j, 0 <= i < 2 ^ w / (R + 1) -> 0 <= j < 2 ^ w / (R + 1) -> f i = f j -> i = j) /\
     forall b, (0 <= b < 2 ^ w /\ word_ok w R b /\ lo + word_value w R b = v) <-> exists q, 0 <= q < 2 ^ w / (R + 1) /\ b = f q).
Proof.
  intros Hd Hlo Hhi Hle w R p Hwords Hacc. assert (Hw : 0 < w) by (unfold digits_ok in Hd; subst w; lia).
  destruct (make_param_spec T lo hi Hw Hlo Hhi Hle) as (Er & HR & Ea & Eb). split_and!; [done|done| |].
  - destruct (Generate_spec inner fuel w Hwords R g Hd HR Hacc) as (k & b & g' & Hf & E & Hv). exists k, b, g'. split_and!; [done| |lia|lia].
    unfold uniform_int, p. rewrite Er, Ea. fold w R. rewrite E. cbn [mbind option_bind]. f_equal. f_equal.
    apply int_cast_ok; [done|]. unfold int_ok in *. lia.
  - intros v Hv. destruct (word_value_uniform w R (v - lo) Hd HR ltac:(lia)) as (f & Hinj & Hf). exists f. split; [done|].
    intros b. rewrite <- Hf. split; intros (? & ? & ?); split_and!; (done || lia).
Qed.

(** *** Kinds of interval *)

(** The integers of the interval. *)
Definition in_interval (tag : interval_tag) (lo hi v : Z) : Prop :=
  match tag with
  | IntervalClosedClosed => lo <= v <= hi
  | IntervalClosedOpen => lo <= v < hi
  | IntervalOpenClosed => lo < v <= hi
  | IntervalOpenOpen => lo < v < hi
  end.

(** [Uniform(tag, urbg, lo, hi)] returns an integer of the interval the tag names, each
    one for equally many words, where there is one; where there is none it returns [lo], also at the
    ends of the type, where the bounds are not moved. *)
Theorem uniform_interval_correct {G : Type} {gen : URBG G} inner fuel T tag lo hi (g : G) :
  digits_ok (digits T) -> int_ok T lo -> int_ok T hi ->
  let w := digits T in
  (forall g : G, exists b g', fast_bits inner w g = Some (b, g') /\ 0 <= b < 2 ^ w) ->
  (forall R (g : G), 0 <= R < 2 ^ w -> exists k b g', (k < fuel)%nat /\ nth_word inner w k g = Some (b, g') /\ word_ok w R b) ->
  (exists v g', Uniform inner fuel T tag g lo hi = Some (v, g') /\
     (in_interval tag lo hi v \/ v = lo /\ forall u, ~ in_interval tag lo hi u)) /\
  (forall v, in_interval tag lo hi v <-> (exists u, in_interval tag lo hi u) /\
     let p := uniform_wrapper T tag lo hi in param_a p <= v <= param_b T p) /\
  (Uniform_default inner fuel T g lo hi = Uniform inner fuel T IntervalClosedOpen g lo hi) /\
  (Uniform_full inner fuel T g = Uniform inner fuel T IntervalClosedClosed g (int_min T) (int_max T)).
Proof.
  intros Hd Hlo Hhi w Hwords Hacc. assert (Hw : 0 < w) by (unfold digits_ok in Hd; subst w; lia).
  assert (Hb : int_ok T (uniform_lower_bound T tag lo hi) /\ int_ok T (uniform_upper_bound T tag lo hi)).
  { unfold int_ok, uniform_lower_bound, uniform_upper_bound in *. destruct tag; zcases; lia. }
  assert (Hin : forall v, in_interval tag lo hi v <-> (exists u, in_interval tag lo hi u) /\
    uniform_lower_bound T tag lo hi <= v <= uniform_upper_bound T tag lo hi).
  { intros v. unfold int_ok, uniform_lower_bound, uniform_upper_bound in *.
    destruct tag; cbn [in_interval]; (split; [intros Hv; split; [by exists v|zcases; lia]|intros ((u & Hu) & Hv); zcases_in Hv; lia]). }
  destruct Hb as (Ha & Hb). set (a := uniform_lower_bound T tag lo hi) in *. set (b := uniform_upper_bound T tag lo hi) in *.
  split_and!.
  - unfold Uniform. fold a b. unfold is_uniform_range_valid. destruct (Z.leb_spec a b) as [Hab|Hab]; cbn [negb].
    + destruct (make_param_spec T a b Hw Ha Hb Hab) as (Er & HR & Ea & Eb).
      destruct (Generate_spec inner fuel w Hwords (b - a) g Hd HR (fun g => Hacc _ g HR)) as (k & x & g' & Hf & E & Hv).
      exists (a + word_value w (b - a) x), g'. split.
      * unfold uniform_int, uniform_wrapper. fold a b. rewrite Er, Ea. fold w. rewrite E. cbn [mbind option_bind]. f_equal. f_equal.
        apply int_cast_ok; [done|]. unfold int_ok in *. lia.
      * subst a b. unfold int_ok, uniform_lower_bound, uniform_upper_bound in *. destruct tag; cbn [in_interval]; zcases_in Hv;
          first [left; lia|right; split; [lia|intros u; lia]].
    + exists lo, g. split; [done|]. right. split; [done|]. intros u Hu. apply Hin in Hu. lia.
  - intros v. rewrite Hin. split; intros (Hu & Hv); (split; [done|]); destruct (Z.le_gt_cases a b) as [Hab|Hab].
    + destruct (make_param_spec T a b Hw Ha Hb Hab) as (_ & _ & Ea & Eb). unfold uniform_wrapper. fold a b. by rewrite Ea, Eb.
    + lia.
    + destruct (make_param_spec T a b Hw Ha Hb Hab) as (_ & _ & Ea & Eb). unfold uniform_wrapper in Hv. fold a b in Hv. by rewrite Ea, Eb in Hv.
    + destruct Hu as (u & Hu). apply Hin in Hu. lia.
  - done.
  - unfold Uniform, is_uniform_range_valid. cbn [uniform_lower_bound uniform_upper_bound].
    pose proof (int_width T Hw). pose proof (Z.pow_pos_nonneg 2 (digits T) ltac:(lia) ltac:(lia)).
    destruct (Z.leb_spec (int_min T) (int_max T)); [done|lia].
Qed.

(** *** A generator for which the words come: a counter of eight bits *)

Definition counter_urbg : URBG nat := {|
  g_digits := 8; g_min := 0; g_max := 255; g_next s := (Z.of_nat s mod 256, S s) |}.
#[local] Existing Instance counter_urbg.

Lemma counter_word g : fast_bits 0 8 g = Some (Z.of_nat g mod 256, S g).
Proof.
  pose proof (Z.mod_pos_bound (Z.of_nat g) 256 ltac:(lia)). unfold fast_bits, generate_simple, NumBits.
  change (RangeSize (G := nat)) with 0. cbn -[Z.modulo Z.of_nat usub wrap]. unfold usub. rewrite Z.sub_0_r, !(wrap_small 8 (Z.of_nat g mod 256)) by lia. done.
Qed.

Lemma counter_words_ok g : exists b g', fast_bits 0 8 g = Some (b, g') /\ 0 <= b < 2 ^ 8.
Proof. rewrite counter_word. do 2 eexists. split; [done|]. apply Z.mod_pos_bound. lia. Qed.

Lemma counter_nth_word k g : nth_word 0 8 k g = Some (Z.of_nat (g + k) mod 256, S (g + k)).
Proof.
  revert g. induction k as [|k IH]; intros g; cbn [nth_word]; rewrite counter_word; cbn [mbind option_bind]; [by rewrite Nat.add_0_r|].
  rewrite IH. by rewrite <- Nat.add_succ_comm.
Qed.

(** The last word is never rejected. *)
Lemma last_word_ok w R : 0 < w -> 0 <= R < 2 ^ w -> word_ok w R (2 ^ w - 1).
Proof.
  intros Hw HR. unfold word_ok. pose proof (Z.div_mod (2 ^ w) (R + 1) ltac:(lia)). pose proof (Z.mod_pos_bound (2 ^ w) (R + 1) ltac:(lia)).
  assert (1 <= 2 ^ w / (R + 1)) by (apply Z.div_le_lower_bound; lia).
  rewrite <- (Z.mod_unique ((2 ^ w - 1) * (R + 1)) (2 ^ w) R (2 ^ w - (R + 1))); nia.
Qed.

Lemma counter_accepts R g : 0 <= R < 2 ^ 8 -> exists k b g', (k < 256)%nat /\ nth_word 0 8 k g = Some (b, g') /\ word_ok 8 R b.
Proof.
  intros HR. exists (255 - g mod 256)%nat, 255, (S (g + (255 - g mod 256))).
  pose proof (Nat.mod_upper_bound g 256 ltac:(lia)). split_and!; [lia| |by apply (last_word_ok 8)].
  rewrite counter_nth_word. f_equal. f_equal. pose proof (Nat.div_mod_eq g 256).
  symmetry. apply (Z.mod_unique _ _ (Z.of_nat (g / 256))); lia.
Qed.

Lemma uniform_int_correct_witness :
  (exists v g', uniform_int 0 256 (MkInt true 8) (make_param (MkInt true 8) (-3) 2) 40%nat = Some (v, g') /\ -3 <= v <= 2) /\
  uniform_int 0 256 (MkInt true 8) (make_param (MkInt true 8) (-3) 2) 43%nat = Some (-2, 45%nat).
Proof.
  split; [|by vm_compute].
  destruct (uniform_int_correct 0 256 (MkInt true 8) (-3) 2 40%nat) as (_ & (k & b & g' & _ & E & Hv) & _).
  1: by left. 1, 2: by vm_compute. 1: lia. 1: exact counter_words_ok. 1: intros g; apply (counter_accepts 5); lia.
  by exists (-3 + word_value 8 (2 - -3) b), g'.
Defined.

Lemma uniform_interval_correct_witness :
  (exists v g', Uniform 0 256 (MkInt false 8) IntervalOpenOpen 7%nat 10 13 = Some (v, g') /\ 10 < v < 13) /\
  Uniform 0 256 (MkInt true 8) IntervalClosedOpen 7%nat (-128) (-128) = Some (-128, 8%nat).
Proof.
  split; [|by vm_compute].
  destruct (uniform_interval_correct 0 256 (MkInt false 8) IntervalOpenOpen 10 13 7%nat) as ((v & g' & E & Hv) & _).
  1: by left. 1, 2: by vm_compute. 1: exact counter_words_ok. 1: intros R g HR; by apply counter_accepts.
  exists v, g'. split; [exact E|]. destruct Hv as [Hv|(_ & Hno)]; [exact Hv|]. destruct (Hno 11). cbn. lia.
Defined.
