(* ===== verification/Endian.v ===== *)
(** * Byte order (base/endian.h, base/internal/unaligned_access.h)

    Swapping the bytes of machine words, conversions between the order of the host and
    little-endian or big-endian order, and unaligned loads and stores. The host order is the parameter
    [little] ([TURBO_IS_LITTLE_ENDIAN] or [TURBO_IS_BIG_ENDIAN]); memory is a list of
    bytes, numbers of [0, 256), and a load is given the bytes it reads. *)
From S2P Require Import Prelude Words.

(** ** Words and bytes *)

(** The bytes of a word, least significant first, and back. *)
Fixpoint le_bytes (n : nat) (v : Z) : list Z :=
  match n with O => [] | S n => v mod 256 :: le_bytes n (v / 256) end.
Fixpoint le_combine (l : list Z) : Z := match l with [] => 0 | b :: l => b + 256 * le_combine l end.

Definition byte_ok (b : Z) : Prop := 0 <= b < 256.

(** ** Swapping bytes: the portable branches *)

Definition gbswap_64 (host_int : Z) : Z :=
  Z.lor (Z.lor (Z.lor (Z.lor (Z.lor (Z.lor (Z.lor
    (ushl 64 (Z.land host_int 0xFF) 56)
    (ushl 64 (Z.land host_int 0xFF00) 40))
    (ushl 64 (Z.land host_int 0xFF0000) 24))
    (ushl 64 (Z.land host_int 0xFF000000) 8))
    (ushr (Z.land host_int 0xFF00000000) 8))
    (ushr (Z.land host_int 0xFF0000000000) 24))
    (ushr (Z.land host_int 0xFF000000000000) 40))
    (ushr (Z.land host_int 0xFF00000000000000) 56).

Definition gbswap_32 (host_int : Z) : Z :=
  Z.lor (Z.lor (Z.lor
    (ushl 32 (Z.land host_int 0xFF) 24)
    (ushl 32 (Z.land host_int 0xFF00) 8))
    (ushr (Z.land host_int 0xFF0000) 8))
    (ushr (Z.land host_int 0xFF000000) 24).

Definition gbswap_16 (host_int : Z) : Z :=
  wrap 16 (Z.lor (Z.shiftl (Z.land host_int 0xFF) 8) (Z.shiftr (Z.land host_int 0xFF00) 8)).

(** [gbswap<T>] on the integer type of [n] bytes; other sizes are returned unchanged. *)
Definition gbswap (n : nat) (v : Z) : Z :=
  match n with 8%nat => gbswap_64 v | 4%nat => gbswap_32 v | 2%nat => gbswap_16 v | _ => v end.

Section Host.
Context (little : bool).

(** Copying a word to and from memory ([memcpy] in UnalignedStore and UnalignedLoad). *)
Definition UnalignedStore (n : nat) (v : Z) : list Z := if little then le_bytes n v else rev (le_bytes n v).
Definition UnalignedLoad (p : list Z) : Z := le_combine (if little then p else rev p).

Definition is_little_endian : bool := little.

(** Host order and network order. *)
Definition ghtons (x : Z) : Z := if little then gbswap_16 x else x.
Definition ghtonl (x : Z) : Z := if little then gbswap_32 x else x.
Definition ghtonll (x : Z) : Z := if little then gbswap_64 x else x.
Definition gntohs (x : Z) : Z := ghtons x.
Definition gntohl (x : Z) : Z := ghtonl x.
Definition gntohll (x : Z) : Z := ghtonll x.

(** [little_endian::from_host16] to [from_host64] and their inverses, by the size in bytes. *)
Definition le_from_host (n : nat) (x : Z) : Z := if little then x else gbswap n x.
Definition le_to_host (n : nat) (x : Z) : Z := if little then x else gbswap n x.
Definition be_from_host (n : nat) (x : Z) : Z := if little then gbswap n x else x.
Definition be_to_host (n : nat) (x : Z) : Z := if little then gbswap n x else x.

(** The overloads on signed integers go through [bit_cast] to the unsigned type and back. *)
Definition le_from_host_s (n : nat) (x : Z) : Z := swrap (8 * Z.of_nat n) (le_from_host n (wrap (8 * Z.of_nat n) x)).
Definition le_to_host_s (n : nat) (x : Z) : Z := swrap (8 * Z.of_nat n) (le_to_host n (wrap (8 * Z.of_nat n) x)).
Definition be_from_host_s (n : nat) (x : Z) : Z := swrap (8 * Z.of_nat n) (be_from_host n (wrap (8 * Z.of_nat n) x)).
Definition be_to_host_s (n : nat) (x : Z) : Z := swrap (8 * Z.of_nat n) (be_to_host n (wrap (8 * Z.of_nat n) x)).

(** [little_endian::load16] to [store64], [big_endian::load16] to [store64], host order [load16] to [store64]. *)
Definition le_load (p : list Z) : Z := le_to_host (length p) (UnalignedLoad p).
Definition le_store (n : nat) (v : Z) : list Z := UnalignedStore n (le_from_host n v).
Definition be_load (p : list Z) : Z := be_to_host (length p) (UnalignedLoad p).
Definition be_store (n : nat) (v : Z) : list Z := UnalignedStore n (be_from_host n v).
Definition host_load (p : list Z) : Z := if little then le_load p else be_load p.
Definition host_store (n : nat) (v : Z) : list Z := if little then le_store n v else be_store n v.
End Host.

(** ** Lemmas *)

Lemma length_le_bytes n v : length (le_bytes n v) = n.
Proof. revert v. induction n as [|n IH]; intros v; cbn; auto. Qed.

Lemma le_bytes_ok n v : Forall byte_ok (le_bytes n v).
Proof. revert v. induction n as [|n IH]; intros v; cbn; constructor; [apply Z.mod_pos_bound; lia|apply IH]. Qed.

Lemma pow256_S n : 2 ^ (8 * Z.of_nat (S n)) = 256 * 2 ^ (8 * Z.of_nat n).
Proof. replace (8 * Z.of_nat (S n)) with (8 + 8 * Z.of_nat n) by lia. rewrite Z.pow_add_r by lia. done. Qed.

Lemma le_combine_bytes n v : 0 <= v < 2 ^ (8 * Z.of_nat n) -> le_combine (le_bytes n v) = v.
Proof.
  revert v. induction n as [|n IH]; intros v Hv; cbn [le_bytes le_combine]; [cbn in Hv; lia|].
  rewrite pow256_S in Hv. rewrite IH by zlia. pose proof (Z.div_mod v 256 ltac:(lia)). lia.
Qed.

Lemma le_combine_range l : Forall byte_ok l -> 0 <= le_combine l < 2 ^ (8 * Z.of_nat (length l)).
Proof.
  induction 1 as [|b l Hb Hl IH]; cbn [le_combine length]; [cbn; lia|]. rewrite pow256_S. unfold byte_ok in Hb. lia.
Qed.

Lemma le_bytes_combine l : Forall byte_ok l -> le_bytes (length l) (le_combine l) = l.
Proof.
  induction 1 as [|b l Hb Hl IH]; cbn [le_combine length le_bytes]; [done|]. unfold byte_ok in Hb.
  replace ((b + 256 * le_combine l) mod 256) with b by zlia. replace ((b + 256 * le_combine l) / 256) with (le_combine l) by zlia.
  by rewrite IH.
Qed.

Lemma Forall_rev_bytes l : Forall byte_ok l -> Forall byte_ok (rev l).
Proof. intros H. by apply Forall_rev. Qed.

(** *** The masks and shifts of the swaps *)

Lemma byte_mask x k : 0 <= k -> Z.land x (255 * 2 ^ k) = (x / 2 ^ k) mod 256 * 2 ^ k.
Proof.
  intros Hk. rewrite <- !Z.shiftl_mul_pow2, <- Z.shiftr_div_pow2 by lia. change 256 with (2 ^ 8). apply Z.bits_inj'. intros i Hi.
  rewrite Z.land_spec, !testbit_shiftl by lia. destruct (Z.ltb_spec i k) as [Hlt|Hge].
  - rewrite !(Z.testbit_neg_r _ (i - k)) by lia. by rewrite andb_false_r.
  - rewrite testbit_mod_pow2, testbit_shiftr, Z.sub_add by lia. change 255 with (Z.ones 8). rewrite testbit_ones by lia. apply andb_comm.
Qed.

Lemma masked_shl w x k n : 0 <= k -> 0 <= n -> k + 8 + n <= w -> ushl w (Z.land x (255 * 2 ^ k)) n = (x / 2 ^ k) mod 256 * 2 ^ (k + n).
Proof.
  intros Hk Hn Hw. rewrite byte_mask, ushl_val, <- Z.mul_assoc, <- Z.pow_add_r by lia. apply wrap_small.
  pose proof (Z.mod_pos_bound (x / 2 ^ k) 256 ltac:(lia)). pose proof (Z.pow_pos_nonneg 2 (k + n) ltac:(lia) ltac:(lia)).
  assert (256 * 2 ^ (k + n) <= 2 ^ w) by (change 256 with (2 ^ 8); rewrite <- Z.pow_add_r by lia; apply Z.pow_le_mono_r; lia). nia.
Qed.

Lemma masked_shr x k n : 0 <= n <= k -> ushr (Z.land x (255 * 2 ^ k)) n = (x / 2 ^ k) mod 256 * 2 ^ (k - n).
Proof.
  intros Hn. rewrite byte_mask, ushr_val by lia. generalize ((x / 2 ^ k) mod 256) as b. intros b.
  assert (E : 2 ^ k = 2 ^ (k - n) * 2 ^ n) by (rewrite <- Z.pow_add_r by lia; f_equal; lia).
  rewrite E, Z.mul_assoc, Z.div_mul; [done|]. apply Z.pow_nonzero; lia.
Qed.

(** The value of [h] above a byte at position [n]. *)
Lemma lor_byte h b m n : m = n + 8 -> 0 <= n -> byte_ok b -> Z.lor (h * 2 ^ m) (b * 2 ^ n) = (h * 256 + b) * 2 ^ n.
Proof.
  intros -> Hn Hb. rewrite Z.pow_add_r by lia. change (2 ^ 8) with 256. replace (h * (2 ^ n * 256)) with (h * 256 * 2 ^ n) by ring.
  rewrite <- !Z.shiftl_mul_pow2 by lia. rewrite <- Z.shiftl_lor. f_equal.
  change 256 with (2 ^ 8). rewrite lor_shiftl_add by (unfold byte_ok in *; lia). done.
Qed.

Lemma byte_ok_mod v : byte_ok (v mod 256).
Proof. apply Z.mod_pos_bound. lia. Qed.

(** The byte of a word at bit [k]. *)
Definition nth_byte (x k : Z) : Z := (x / 2 ^ k) mod 256.

Lemma nth_byte_ok x k : byte_ok (nth_byte x k).
Proof. apply byte_ok_mod. Qed.

Lemma le_bytes_nth n x k : 0 <= k -> le_bytes (S n) (x / 2 ^ k) = nth_byte x k :: le_bytes n (x / 2 ^ (k + 8)).
Proof. intros Hk. cbn [le_bytes]. f_equal. change 256 with (2 ^ 8). by rewrite Z.div_div, <- Z.pow_add_r by lia. Qed.

Ltac gather_bytes x n :=
  rewrite !masked_shl, ?masked_shr by lia; rewrite !lor_byte by (lia || apply byte_ok_mod);
  replace (le_bytes n x) with (le_bytes n (x / 2 ^ 0)) by (by rewrite Z.div_1_r);
  rewrite !le_bytes_nth by lia; cbn [le_bytes rev app le_combine]; unfold nth_byte;
  repeat match goal with
  | |- context [2 ^ (?a + ?b)] => let v := eval vm_compute in (a + b) in change (a + b) with v
  | |- context [2 ^ (?a - ?b)] => let v := eval vm_compute in (a - b) in change (a - b) with v
  end;
  ring.

Lemma gbswap_64_spec x : gbswap_64 x = le_combine (rev (le_bytes 8 x)).
Proof.
  unfold gbswap_64.
  change 0xFF with (255 * 2 ^ 0). change 0xFF00 with (255 * 2 ^ 8). change 0xFF0000 with (255 * 2 ^ 16).
  change 0xFF000000 with (255 * 2 ^ 24). change 0xFF00000000 with (255 * 2 ^ 32). change 0xFF0000000000 with (255 * 2 ^ 40).
  change 0xFF000000000000 with (255 * 2 ^ 48). change 0xFF00000000000000 with (255 * 2 ^ 56).
  gather_bytes x 8%nat.
Qed.

Lemma gbswap_32_spec x : gbswap_32 x = le_combine (rev (le_bytes 4 x)).
Proof.
  unfold gbswap_32.
  change 0xFF with (255 * 2 ^ 0). change 0xFF00 with (255 * 2 ^ 8). change 0xFF0000 with (255 * 2 ^ 16).
  change 0xFF000000 with (255 * 2 ^ 24). gather_bytes x 4%nat.
Qed.

Lemma gbswap_16_spec x : gbswap_16 x = le_combine (rev (le_bytes 2 x)).
Proof.
  assert (E : gbswap_16 x = Z.lor (ushl 16 (Z.land x (255 * 2 ^ 0)) 8) (ushr (Z.land x (255 * 2 ^ 8)) 8)).
  { unfold gbswap_16, ushl, ushr. change 0xFF with (255 * 2 ^ 0). change 0xFF00 with (255 * 2 ^ 8).
    rewrite !byte_mask, Z.shiftl_mul_pow2, Z.shiftr_div_pow2 by lia. pose proof (byte_ok_mod (x / 2 ^ 0)). pose proof (byte_ok_mod (x / 2 ^ 8)).
    unfold byte_ok in *. rewrite Z.div_mul by lia. rewrite (wrap_small 16 (_ * _)) by lia. apply wrap_small, lor_range; lia. }
  rewrite E. gather_bytes x 2%nat.
Qed.

Definition size_ok (n : nat) : Prop := n = 1%nat \/ n = 2%nat \/ n = 4%nat \/ n = 8%nat.

Lemma gbswap_spec n x : size_ok n -> 0 <= x < 2 ^ (8 * Z.of_nat n) -> gbswap n x = le_combine (rev (le_bytes n x)).
Proof.
  intros [-> | [-> | [-> | ->]]] Hx; cbn [gbswap]; [|apply gbswap_16_spec|apply gbswap_32_spec|apply gbswap_64_spec].
  cbn. rewrite Z.mod_small by (cbn in Hx; lia). lia.
Qed.

Lemma gbswap_bytes n x : size_ok n -> 0 <= x < 2 ^ (8 * Z.of_nat n) -> le_bytes n (gbswap n x) = rev (le_bytes n x).
Proof.
  intros Hn Hx. rewrite gbswap_spec by done. pose proof (le_bytes_combine (rev (le_bytes n x)) (Forall_rev_bytes _ (le_bytes_ok n x))) as E.
  by rewrite length_rev, length_le_bytes in E.
Qed.

Lemma gbswap_range n x : size_ok n -> 0 <= x < 2 ^ (8 * Z.of_nat n) -> 0 <= gbswap n x < 2 ^ (8 * Z.of_nat n).
Proof.
  intros Hn Hx. rewrite gbswap_spec by done. pose proof (le_combine_range (rev (le_bytes n x)) (Forall_rev_bytes _ (le_bytes_ok n x))) as E.
  by rewrite length_rev, length_le_bytes in E.
Qed.

Lemma gbswap_involutive n x : size_ok n -> 0 <= x < 2 ^ (8 * Z.of_nat n) -> gbswap n (gbswap n x) = x.
Proof.
  intros Hn Hx. rewrite (gbswap_spec n (gbswap n x)) by (done || by apply gbswap_range).
  rewrite gbswap_bytes, rev_involutive by done. by apply le_combine_bytes.
Qed.

(** What a big-endian load of bytes is. *)
Lemma gbswap_combine p : size_ok (length p) -> Forall byte_ok p -> gbswap (length p) (le_combine p) = le_combine (rev p).
Proof. intros Hn Hp. rewrite gbswap_spec by (done || by apply le_combine_range). by rewrite le_bytes_combine. Qed.

(** ** Loads and stores *)

Lemma be_load_spec little p : size_ok (length p) -> Forall byte_ok p -> be_load little p = le_combine (rev p).
Proof. intros Hn Hp. unfold be_load, be_to_host, UnalignedLoad. destruct little; [by apply gbswap_combine|done]. Qed.

Lemma le_load_spec little p : size_ok (length p) -> Forall byte_ok p -> le_load little p = le_combine p.
Proof.
  intros Hn Hp. unfold le_load, le_to_host, UnalignedLoad. destruct little; [done|].
  rewrite <- (length_rev p), gbswap_combine, rev_involutive; [done|by rewrite length_rev|by apply Forall_rev_bytes].
Qed.

Lemma le_store_spec little n v : size_ok n -> 0 <= v < 2 ^ (8 * Z.of_nat n) -> le_store little n v = le_bytes n v.
Proof.
  intros Hn Hv. unfold le_store, le_from_host, UnalignedStore. destruct little; [done|]. by rewrite gbswap_bytes, rev_involutive.
Qed.

Lemma be_store_spec little n v : size_ok n -> 0 <= v < 2 ^ (8 * Z.of_nat n) -> be_store little n v = rev (le_bytes n v).
Proof. intros Hn Hv. unfold be_store, be_from_host, UnalignedStore. destruct little; [by rewrite gbswap_bytes|done]. Qed.

Lemma ghtons_be little x : ghtons little x = be_from_host little 2 x.
Proof. by destruct little. Qed.
Lemma ghtonl_be little x : ghtonl little x = be_from_host little 4 x.
Proof. by destruct little. Qed.
Lemma ghtonll_be little x : ghtonll little x = be_from_host little 8 x.
Proof. by destruct little. Qed.

(** A word of network order, for the three sizes. *)
Lemma network_order little n v : size_ok n -> 0 <= v < 2 ^ (8 * Z.of_nat n) ->
  UnalignedStore little n (be_from_host little n v) = rev (le_bytes n v) /\ be_from_host little n (be_from_host little n v) = v.
Proof.
  intros Hn Hv. split; [by apply be_store_spec|]. unfold be_from_host. destruct little; [by apply gbswap_involutive|done].
Qed.

(** byte order, on hosts of either order and for words of 1, 2, 4 and 8 bytes: [little_endian::store]
    writes the least significant byte first and [big_endian::store] the most significant one; each
    load undoes its store and each store its load; conversion from host and back is the
    identity, also on signed integers; the network conversions put the big-endian bytes in memory. *)
Theorem endian_correct little n v p : size_ok n -> 0 <= v < 2 ^ (8 * Z.of_nat n) -> length p = n -> Forall byte_ok p ->
  le_store little n v = le_bytes n v /\ be_store little n v = rev (le_bytes n v) /\
  le_load little (le_store little n v) = v /\ be_load little (be_store little n v) = v /\ host_load little (host_store little n v) = v /\
  le_store little n (le_load little p) = p /\ be_store little n (be_load little p) = p /\
  le_to_host little n (le_from_host little n v) = v /\ be_to_host little n (be_from_host little n v) = v /\
  (forall x, - 2 ^ (8 * Z.of_nat n - 1) <= x < 2 ^ (8 * Z.of_nat n - 1) ->
     le_to_host_s little n (le_from_host_s little n x) = x /\ be_to_host_s little n (be_from_host_s little n x) = x) /\
  (n = 2%nat -> UnalignedStore little n (ghtons little v) = rev (le_bytes n v) /\ gntohs little (ghtons little v) = v) /\
  (n = 4%nat -> UnalignedStore little n (ghtonl little v) = rev (le_bytes n v) /\ gntohl little (ghtonl little v) = v) /\
  (n = 8%nat -> UnalignedStore little n (ghtonll little v) = rev (le_bytes n v) /\ gntohll little (ghtonll little v) = v).
Proof.
  intros Hn Hv Hp Hb. pose proof (le_bytes_ok n v) as Hok. pose proof (Forall_rev_bytes _ Hok) as Hok'.
  assert (Hinv : forall x, 0 <= x < 2 ^ (8 * Z.of_nat n) -> le_to_host little n (le_from_host little n x) = x /\ be_to_host little n (be_from_host little n x) = x /\
    0 <= le_from_host little n x < 2 ^ (8 * Z.of_nat n) /\ 0 <= be_from_host little n x < 2 ^ (8 * Z.of_nat n)).
  { intros x Hx. pose proof (gbswap_range n x Hn Hx). unfold le_to_host, le_from_host, be_to_host, be_from_host.
    destruct little; split_and!; first [lia|done|by apply gbswap_involutive]. }
  assert (H8 : 0 < 8 * Z.of_nat n) by (unfold size_ok in Hn; lia).
  assert (Hle : le_load little (le_store little n v) = v).
  { rewrite le_store_spec, le_load_spec by (done || by rewrite length_le_bytes). by apply le_combine_bytes. }
  assert (Hbe : be_load little (be_store little n v) = v).
  { rewrite be_store_spec, be_load_spec by (done || by rewrite length_rev, length_le_bytes). rewrite rev_involutive. by apply le_combine_bytes. }
  pose proof (le_combine_range p Hb) as Rp. pose proof (le_combine_range (rev p) (Forall_rev_bytes _ Hb)) as Rp'. rewrite length_rev in Rp'. subst n.
  split_and!; try by apply Hinv.
  - by apply le_store_spec.
  - by apply be_store_spec.
  - exact Hle.
  - exact Hbe.
  - unfold host_load, host_store. by destruct little.
  - rewrite le_load_spec, le_store_spec by done. by apply le_bytes_combine.
  - rewrite be_load_spec, be_store_spec by done. rewrite <- (length_rev p), le_bytes_combine, rev_involutive; [done|by apply Forall_rev_bytes].
  - intros x Hx. unfold le_to_host_s, le_from_host_s, be_to_host_s, be_from_host_s.
    pose proof (wrap_range (8 * Z.of_nat (length p)) x ltac:(lia)) as Rx. destruct (Hinv _ Rx) as (E1 & E2 & R1 & R2).
    rewrite !wrap_swrap by lia. set (w := 8 * Z.of_nat (length p)) in *. rewrite (wrap_small w _ R1), (wrap_small w _ R2), E1, E2.
    rewrite swrap_wrap by lia. split; by apply swrap_small.
  - intros E. rewrite E in *. unfold gntohs. rewrite !ghtons_be. exact (network_order little 2 v Hn Hv).
  - intros E. rewrite E in *. unfold gntohl. rewrite !ghtonl_be. exact (network_order little 4 v Hn Hv).
  - intros E. rewrite E in *. unfold gntohll. rewrite !ghtonll_be. exact (network_order little 8 v Hn Hv).
Qed.

Lemma endian_correct_witness :
  be_store true 4 0x01020304 = [1; 2; 3; 4] /\ be_load true (be_store true 4 0x01020304) = 0x01020304 /\
  le_store false 4 (le_load false [1; 2; 3; 4]) = [1; 2; 3; 4].
Proof.
  destruct (endian_correct true 4 0x01020304 [1; 2; 3; 4]) as (_ & E1 & _ & E2 & _).
  1: by right; right; left. 1: by vm_compute. 1: done. 1: by repeat constructor; lia.
  destruct (endian_correct false 4 0x01020304 [1; 2; 3; 4]) as (_ & _ & _ & _ & _ & E3 & _).
  1: by right; right; left. 1: by vm_compute. 1: done. 1: by repeat constructor; lia.
  split; [exact E1|split; [exact E2|exact E3]].
Defined.
