(* ===== verification/Encoding.v ===== *)
(** * Order-preserving encodings (strings/encoding.h, strings/encoding.cc)

    Integers, doubles and strings written to bytes in an order that [memcmp] respects, and
    read back from a view that the decoders advance. A view or a string is a list of bytes; a
    decoder returns the decoded value, if any, and the view it leaves. A [double] is its
    64-bit pattern. [little] is the byte order of the host, as in Endian.v. *)
From S2P Require Import Prelude Words Endian.

(** ** Definitions *)

Section Host.
Context (little : bool).

(** [encode_fixed<T>] for the unsigned type of [n] bytes: the bytes written at [buf]. *)
Definition encode_fixed (n : nat) (value : Z) : list Z :=
  UnalignedStore little n (if is_little_endian little then gbswap n value else value).
Definition encode_fixed_str (n : nat) (buf : list Z) (value : Z) : list Z := buf ++ encode_fixed n value.

Definition encode_buffer (buf value : list Z) : list Z := buf ++ value.

(** [decode_fixed<T>(ptr)]. *)
Definition decode_fixed (n : nat) (ptr : list Z) : Z :=
  let value := UnalignedLoad little (take n ptr) in
  if is_little_endian little then gbswap n value else value.

(** [decode_fixed(input, value)]. *)
Definition decode_fixed_view (n : nat) (input : list Z) : option Z * list Z :=
  if decide (length input < n)%nat then (None, input) else (Some (decode_fixed n input), drop n input).

Definition encode_sized_string (dst value : list Z) : list Z :=
  encode_fixed_str 4 dst (wrap 32 (Z.of_nat (length value))) ++ value.

Definition decode_sized_string (input : list Z) : option (list Z) * list Z :=
  match decode_fixed_view 4 input with
  | (None, input) => (None, input)
  | (Some size, input) =>
      if Z.of_nat (length input) <? size then (None, input)
      else (Some (take (Z.to_nat size) input), drop (Z.to_nat size) input)
  end.

Definition EncodeDoubleToUInt64 (value : Z) : Z :=
  if ushr value 63 =? 1 then Z.lxor value 0xffffffffffffffff else Z.lor value 0x8000000000000000.
Definition DecodeDoubleFromUInt64 (value : Z) : Z :=
  if ushr value 63 =? 0 then Z.lxor value 0xffffffffffffffff else Z.land value 0x7fffffffffffffff.

Definition encode_double (value : Z) : list Z := encode_fixed 8 (EncodeDoubleToUInt64 value).
Definition decode_double (ptr : list Z) : Z := DecodeDoubleFromUInt64 (decode_fixed 8 ptr).
Definition decode_double_view (input : list Z) : option Z * list Z :=
  if decide (length input < 8)%nat then (None, input) else (Some (decode_double input), drop 8 input).
End Host.

(** The loop of [encode_varint32]: the bytes before the last one is masked; five suffice. *)
Fixpoint varint_loop (fuel : nat) (v : Z) : option (list Z) :=
  match fuel with
  | O => None
  | S fuel =>
      let b := wrap 8 (Z.lor 0x80 v) in
      let v := ushr v 7 in
      if v =? 0 then Some [b] else l ← varint_loop fuel v; Some (b :: l)
  end.

(** [*(ptr - 1) &= 0x7F]. *)
Definition mask_last (l : list Z) : list Z := alter (fun b => Z.land b 0x7F) (pred (length l)) l.

Definition encode_varint32 (v : Z) : option (list Z) := mask_last <$> varint_loop 5 v.

(** [get_varint32_ptr_fallback]: the value and what follows, [None] for [nullptr]. *)
Fixpoint varint_fallback (fuel : nat) (shift result : Z) (p : list Z) : option (Z * list Z) :=
  match fuel, p with
  | S fuel, byte :: p =>
      if shift <=? 28 then
        if negb (Z.land byte 0x80 =? 0)
        then varint_fallback fuel (shift + 7) (Z.lor result (ushl 32 (Z.land byte 0x7F) shift)) p
        else Some (Z.lor result (ushl 32 byte shift), p)
      else None
  | _, _ => None
  end.

Definition get_varint32_ptr (p : list Z) : option (Z * list Z) :=
  match p with
  | result :: p' => if Z.land result 0x80 =? 0 then Some (result, p') else varint_fallback 5 0 0 p
  | [] => varint_fallback 5 0 0 p
  end.

Definition decode_varint32 (input : list Z) : option Z * list Z :=
  match get_varint32_ptr input with
  | None => (None, input)
  | Some (value, q) => (Some value, q)
  end.

(** ** The order of [memcmp] *)

Fixpoint lex_compare (a b : list Z) : comparison :=
  match a, b with
  | [], [] => Eq
  | [], _ :: _ => Lt
  | _ :: _, [] => Gt
  | x :: a, y :: b => match x ?= y with Eq => lex_compare a b | c => c end
  end.

(** ** Lemmas *)

Lemma encode_fixed_be little n v : encode_fixed little n v = be_store little n v.
Proof. unfold encode_fixed, be_store, be_from_host, is_little_endian. by destruct little. Qed.

Lemma decode_fixed_be little n p : (n <= length p)%nat -> decode_fixed little n p = be_load little (take n p).
Proof.
  intros Hn. unfold decode_fixed, be_load, be_to_host, is_little_endian. rewrite length_take_le by done. by destruct little.
Qed.

Lemma length_be little n v : length (be_store little n v) = n.
Proof. unfold be_store, UnalignedStore. destruct little; rewrite ?length_rev; apply length_le_bytes. Qed.

Lemma length_encode_fixed little n v : length (encode_fixed little n v) = n.
Proof. rewrite encode_fixed_be. apply length_be. Qed.

Lemma decode_encode_fixed little n v rest : size_ok n -> 0 <= v < 2 ^ (8 * Z.of_nat n) ->
  decode_fixed_view little n (encode_fixed little n v ++ rest) = (Some v, rest).
Proof.
  intros Hn Hv. pose proof (length_encode_fixed little n v) as Hl. unfold decode_fixed_view.
  destruct (decide _) as [Hlt|_]; [rewrite length_app in Hlt; lia|]. rewrite drop_app_length' by done. f_equal. f_equal.
  rewrite decode_fixed_be, take_app_length' by (rewrite ?length_app; lia || done). rewrite encode_fixed_be.
  rewrite be_store_spec, be_load_spec, rev_involutive by (rewrite ?length_rev, ?length_le_bytes; try done; apply Forall_rev_bytes, le_bytes_ok).
  by apply le_combine_bytes.
Qed.

(** Big-endian bytes of equal length compare as the numbers. *)
Lemma lex_compare_snoc a b x y : length a = length b ->
  lex_compare (a ++ [x]) (b ++ [y]) = match lex_compare a b with Eq => x ?= y | c => c end.
Proof.
  revert b. induction a as [|c a IH]; intros [|d b] Hl; try done; cbn; [by destruct (x ?= y)|].
  destruct (c ?= d); [|done..]. apply IH. by injection Hl.
Qed.

Lemma lex_compare_bytes n u v : 0 <= u < 2 ^ (8 * Z.of_nat n) -> 0 <= v < 2 ^ (8 * Z.of_nat n) ->
  lex_compare (rev (le_bytes n u)) (rev (le_bytes n v)) = (u ?= v).
Proof.
  revert u v. induction n as [|n IH]; intros u v Hu Hv; cbn [le_bytes rev].
  { cbn in *. assert (u = 0) as -> by lia. assert (v = 0) as -> by lia. done. }
  rewrite pow256_S in Hu, Hv. rewrite lex_compare_snoc by (by rewrite !length_rev, !length_le_bytes).
  rewrite IH by zlia. destruct (Z.compare_spec (u / 256) (v / 256)); destruct (Z.compare_spec (u mod 256) (v mod 256));
    destruct (Z.compare_spec u v); (done || zlia).
Qed.

(** *** Doubles *)

(** A pattern as a sign and a magnitude; the numbers compare as the signed magnitudes. *)
Definition magnitude (p : Z) : Z := p mod 2 ^ 63.
Definition signed_magnitude (p : Z) : Z := if p <? 2 ^ 63 then magnitude p else - magnitude p.

Lemma EncodeDouble_val p : 0 <= p < 2 ^ 64 -> EncodeDoubleToUInt64 p = if p <? 2 ^ 63 then 2 ^ 63 + p else 2 ^ 64 - 1 - p.
Proof.
  intros Hp. unfold EncodeDoubleToUInt64. rewrite ushr_val by lia. destruct (Z.ltb_spec p (2 ^ 63)).
  - rewrite Z.div_small by lia. cbn [Z.eqb]. change 0x8000000000000000 with (1 * 2 ^ 63). rewrite Z.lor_comm, lor_shiftl_add by lia. lia.
  - replace (p / 2 ^ 63) with 1 by zlia. cbn [Z.eqb Pos.eqb]. pose proof (unot_val 64 p ltac:(lia) Hp) as E. rewrite <- E.
    unfold unot, wrap. change 0xffffffffffffffff with (Z.ones 64). apply Z.bits_inj'. intros i Hi.
    rewrite Z.lxor_spec, testbit_mod_pow2, testbit_lnot, testbit_ones by lia. destruct (Z.ltb_spec i 64); cbn [andb].
    + apply xorb_true_r.
    + rewrite xorb_false_r. apply (testbit_bounded _ 64); lia.
Qed.

Lemma DecodeDouble_val e : 0 <= e < 2 ^ 64 -> DecodeDoubleFromUInt64 e = if e <? 2 ^ 63 then 2 ^ 64 - 1 - e else e - 2 ^ 63.
Proof.
  intros He. unfold DecodeDoubleFromUInt64. rewrite ushr_val by lia. destruct (Z.ltb_spec e (2 ^ 63)).
  - rewrite Z.div_small by lia. cbn [Z.eqb]. pose proof (unot_val 64 e ltac:(lia) He) as E. rewrite <- E.
    unfold unot, wrap. change 0xffffffffffffffff with (Z.ones 64). apply Z.bits_inj'. intros i Hi.
    rewrite Z.lxor_spec, testbit_mod_pow2, testbit_lnot, testbit_ones by lia. destruct (Z.ltb_spec i 64); cbn [andb].
    + apply xorb_true_r.
    + rewrite xorb_false_r. apply (testbit_bounded _ 64); lia.
  - replace (e / 2 ^ 63) with 1 by zlia. cbn [Z.eqb]. change 0x7fffffffffffffff with (Z.ones 63). rewrite Z.land_ones by lia.
    symmetry. apply (Z.mod_unique _ _ 1); lia.
Qed.

(** *** Variable-length integers *)

(** Seven bits a byte, the high bit set on all but the last. *)
Fixpoint varint_bytes (fuel : nat) (v : Z) : list Z :=
  match fuel with
  | O => []
  | S fuel => if v <? 128 then [v] else (128 + v mod 128) :: varint_bytes fuel (v / 128)
  end.

Lemma high_bit_byte v : 0 <= v -> wrap 8 (Z.lor 0x80 v) = 128 + v mod 128.
Proof.
  intros Hv. change 0x80 with (2 ^ 7). transitivity (Z.lor (1 * 2 ^ 7) (v mod 2 ^ 7)).
  - unfold wrap. apply Z.bits_inj'. intros i Hi. rewrite Z.mul_1_l, testbit_mod_pow2, !Z.lor_spec, testbit_mod_pow2, testbit_pow2 by lia.
    destruct (Z.eqb_spec 7 i) as [<-|Hne]; [done|]. destruct (Z.ltb_spec i 8), (Z.ltb_spec i 7); try lia; done.
  - pose proof (Z.mod_pos_bound v (2 ^ 7) ltac:(lia)). rewrite lor_shiftl_add by lia. done.
Qed.

Lemma low_bits_byte b : Z.land b 0x7F = b mod 128.
Proof. change 0x7F with (Z.ones 7). apply Z.land_ones. lia. Qed.

Lemma mask_last_cons b l : l <> [] -> mask_last (b :: l) = b :: mask_last l.
Proof. destruct l as [|c l]; [done|]. intros _. done. Qed.

Lemma varint_loop_spec fuel v : 0 <= v < 128 ^ Z.of_nat fuel -> (0 < fuel)%nat ->
  exists l, varint_loop fuel v = Some l /\ l <> [] /\ mask_last l = varint_bytes fuel v.
Proof.
  revert v. induction fuel as [|fuel IH]; intros v Hv Hf; [lia|]. cbn [varint_loop varint_bytes].
  rewrite high_bit_byte, ushr_val by lia. change (2 ^ 7) with 128. destruct (Z.ltb_spec v 128).
  - rewrite (Z.div_small v 128) by lia. eexists. split_and!; [done..|]. unfold mask_last. cbn. f_equal.
    rewrite low_bits_byte. zlia.
  - destruct (Z.eqb_spec (v / 128) 0); [zlia|]. rewrite Nat2Z.inj_succ, Z.pow_succ_r in Hv by lia.
    destruct fuel as [|fuel]; [cbn in Hv; lia|]. destruct (IH (v / 128)) as (l & -> & Hl & Em); [zlia|lia|].
    eexists. split_and!; [done..|]. by rewrite mask_last_cons, Em.
Qed.

Lemma encode_varint32_spec v : 0 <= v < 2 ^ 32 -> encode_varint32 v = Some (varint_bytes 5 v).
Proof.
  intros Hv. unfold encode_varint32. destruct (varint_loop_spec 5 v) as (l & -> & _ & Em); [cbn; lia|lia|]. cbn. by rewrite Em.
Qed.

Lemma varint_bytes_length fuel v : 0 <= v < 128 ^ Z.of_nat fuel -> (0 < fuel)%nat ->
  let n := length (varint_bytes fuel v) in (1 <= n <= fuel)%nat /\ v < 128 ^ Z.of_nat n /\ (n = 1%nat \/ 128 ^ (Z.of_nat n - 1) <= v).
Proof.
  revert v. induction fuel as [|fuel IH]; intros v Hv Hf; [lia|]. cbn [varint_bytes].
  destruct (Z.ltb_spec v 128); [cbn; lia|]. rewrite Nat2Z.inj_succ, Z.pow_succ_r in Hv by lia.
  destruct fuel as [|fuel]; [cbn in Hv; lia|]. destruct (IH (v / 128)) as (Hn & Hlt & Hge); [zlia|lia|].
  set (n := length (varint_bytes (S fuel) (v / 128))) in *. cbn [length]. fold n. rewrite Nat2Z.inj_succ, Z.pow_succ_r by lia.
  split_and!; [lia|lia|zlia|right]. replace (Z.succ (Z.of_nat n) - 1) with (Z.succ (Z.of_nat n - 1)) by lia. rewrite Z.pow_succ_r by lia.
  destruct Hge as [->|Hge]; [cbn; lia|zlia].
Qed.

Lemma continuation_bit b : byte_ok b -> (Z.land b 0x80 =? 0) = (b <? 128).
Proof.
  intros Hb. change (Z.land b 0x80) with (Z.land b (1 * 2 ^ 7)). unfold byte_ok in Hb. destruct (Z.ltb_spec b 128) as [Hlt|Hge].
  - apply Z.eqb_eq, Z.bits_inj'. intros i Hi. rewrite Z.land_spec, Z.mul_1_l, testbit_pow2, Z.bits_0 by lia.
    destruct (Z.eqb_spec 7 i) as [<-|]; [|apply andb_false_r]. by rewrite (testbit_bounded b 7) by lia.
  - apply Z.eqb_neq. intros E. assert (Ht : Z.testbit (Z.land b (1 * 2 ^ 7)) 7 = Z.testbit b 7) by (rewrite Z.land_spec, Z.mul_1_l, testbit_pow2 by lia; apply andb_true_r).
    rewrite E, Z.bits_0 in Ht. symmetry in Ht. revert Ht. rewrite Z.testbit_false by lia. replace (b / 2 ^ 7) with 1 by zlia. done.
Qed.

Lemma varint_fallback_spec fuel shift result v rest : (0 < fuel)%nat -> 0 <= shift -> shift + 7 * Z.of_nat fuel = 35 ->
  0 <= result < 2 ^ shift -> 0 <= v -> v * 2 ^ shift < 2 ^ 32 ->
  varint_fallback fuel shift result (varint_bytes fuel v ++ rest) = Some (v * 2 ^ shift + result, rest).
Proof.
  revert shift result v. induction fuel as [|fuel IH]; intros shift result v Hf Hs Hsum Hr Hv Hb; [lia|].
  pose proof (Z.pow_pos_nonneg 2 shift ltac:(lia) Hs) as Hp. cbn [varint_bytes]. destruct (Z.ltb_spec v 128) as [Hlt|Hge].
  - cbn [app varint_fallback]. destruct (Z.leb_spec shift 28); [|lia]. rewrite continuation_bit by (unfold byte_ok; lia).
    destruct (Z.ltb_spec v 128); [|lia]. cbn [negb]. rewrite ushl_val, wrap_small by lia. rewrite Z.lor_comm, lor_shiftl_add by lia. done.
  - pose proof (Z.mod_pos_bound v 128 ltac:(lia)) as Hm. pose proof (Z.div_mod v 128 ltac:(lia)) as Hd. cbn [app varint_fallback].
    destruct (Z.leb_spec shift 28); [|lia]. rewrite continuation_bit by (unfold byte_ok; lia).
    destruct (Z.ltb_spec (128 + v mod 128) 128); [lia|]. cbn [negb]. rewrite low_bits_byte.
    replace ((128 + v mod 128) mod 128) with (v mod 128) by (rewrite (Z.add_mod 128), Z.mod_same, Z.add_0_l, !Z.mod_mod by lia; done).
    rewrite ushl_val, wrap_small by nia. rewrite Z.lor_comm, lor_shiftl_add by lia.
    assert (E7 : 2 ^ (shift + 7) = 128 * 2 ^ shift) by (rewrite Z.pow_add_r by lia; change (2 ^ 7) with 128; ring).
    destruct fuel as [|fuel]; [assert (shift = 28) as -> by lia; change (2 ^ 28) with 268435456 in *; lia|].
    rewrite IH; [|lia|lia|lia|rewrite E7; nia|zlia|rewrite E7; nia]. rewrite E7. f_equal. f_equal. nia.
Qed.

Lemma varint_fallback_None fuel shift result p : shift + 7 * Z.of_nat fuel = 35 -> Forall byte_ok p ->
  varint_fallback fuel shift result p = None <-> Forall (fun b => 128 <= b) (take fuel p).
Proof.
  intros Hsum Hp. revert shift result p Hsum Hp. induction fuel as [|fuel IH]; intros shift result p Hsum Hp.
  { cbn. split; [constructor|done]. }
  destruct p as [|b p]; cbn [varint_fallback take]; [split; [constructor|done]|]. apply Forall_cons_1 in Hp as [Hb Hp].
  destruct (Z.leb_spec shift 28); [|lia]. rewrite continuation_bit by done. destruct (Z.ltb_spec b 128); cbn [negb].
  - split; [done|]. intros Hf. apply Forall_cons_1 in Hf as [Hb' _]. lia.
  - rewrite IH by (done || lia). split; [by constructor|]. intros Hf. by apply Forall_cons_1 in Hf as [_ Hf].
Qed.

Lemma get_varint32_ptr_fallback p : Forall byte_ok p -> get_varint32_ptr p = varint_fallback 5 0 0 p.
Proof.
  intros Hp. destruct p as [|b p]; [done|]. cbn [get_varint32_ptr]. apply Forall_cons_1 in Hp as [Hb Hp].
  destruct (Z.land b 0x80 =? 0) eqn:E; [|done]. cbn [varint_fallback Z.leb Z.compare]. rewrite E. cbn [negb]. unfold byte_ok in Hb.
  rewrite ushl_val, wrap_small by lia. by rewrite Z.lor_0_l, Z.mul_1_r.
Qed.

Lemma varint_bytes_ok fuel v : 0 <= v -> Forall byte_ok (varint_bytes fuel v).
Proof.
  revert v. induction fuel as [|fuel IH]; intros v Hv; cbn [varint_bytes]; [constructor|].
  pose proof (Z.mod_pos_bound v 128 ltac:(lia)). destruct (Z.ltb_spec v 128); constructor; unfold byte_ok; try lia; [constructor|].
  apply IH. apply Z.div_pos; lia.
Qed.

Lemma varint_bytes_prefix fuel v k : 0 <= v -> (k < length (varint_bytes fuel v))%nat ->
  Forall (fun b => 128 <= b) (take k (varint_bytes fuel v)).
Proof.
  revert v k. induction fuel as [|fuel IH]; intros v k Hv; cbn [varint_bytes]; [cbn; lia|].
  pose proof (Z.mod_pos_bound v 128 ltac:(lia)). destruct (Z.ltb_spec v 128); cbn [length]; intros Hk.
  - assert (k = 0%nat) as -> by lia. constructor.
  - destruct k as [|k]; [constructor|]. cbn [take]. constructor; [lia|]. apply IH; [apply Z.div_pos; lia|lia].
Qed.

(** *** Strings with their size *)

Lemma decode_sized_encoded little value rest : let k := Z.to_nat (Z.of_nat (length value) mod 2 ^ 32) in
  decode_sized_string little (encode_sized_string little [] value ++ rest) = (Some (take k value), drop k value ++ rest).
Proof.
  intros k. unfold decode_sized_string, encode_sized_string, encode_fixed_str. cbn [app]. rewrite <- app_assoc.
  pose proof (Z.mod_pos_bound (Z.of_nat (length value)) (2 ^ 32) ltac:(lia)) as Hm.
  pose proof (Z.mod_le (Z.of_nat (length value)) (2 ^ 32) ltac:(lia) ltac:(lia)) as Hle.
  rewrite decode_encode_fixed by first [exact Hm|by right; right; left]. unfold wrap. fold k.
  destruct (Z.ltb_spec (Z.of_nat (length (value ++ rest))) (Z.of_nat (length value) mod 2 ^ 32)) as [Hlt|_].
  { rewrite length_app in Hlt. lia. }
  assert (Hk : (k <= length value)%nat) by lia. by rewrite take_app_le, drop_app_le.
Qed.

(** ** Properties *)

(** [encode_fixed] on words of 1, 2, 4 and 8 bytes: it writes the big-endian bytes on hosts of either order,
    [decode_fixed] gives the word back and leaves what follows, and fails without
    touching a view too short; [memcmp] on encodings is the order of the numbers. [encode_double] has
    the same properties for the order of doubles, that of the signed magnitudes of their patterns. *)
Theorem encode_fixed_correct little n u v rest : size_ok n ->
  0 <= u < 2 ^ (8 * Z.of_nat n) -> 0 <= v < 2 ^ (8 * Z.of_nat n) ->
  encode_fixed little n v = rev (le_bytes n v) /\
  decode_fixed_view little n (encode_fixed little n v ++ rest) = (Some v, rest) /\
  (forall input, (length input < n)%nat -> decode_fixed_view little n input = (None, input)) /\
  lex_compare (encode_fixed little n u) (encode_fixed little n v) = (u ?= v) /\
  (forall p q, 0 <= p < 2 ^ 64 -> 0 <= q < 2 ^ 64 ->
     decode_double_view little (encode_double little p ++ rest) = (Some p, rest) /\
     (signed_magnitude p < signed_magnitude q -> lex_compare (encode_double little p) (encode_double little q) = Lt) /\
     (lex_compare (encode_double little p) (encode_double little q) = Lt -> signed_magnitude p <= signed_magnitude q)).
Proof.
  intros Hn Hu Hv.
  assert (Hlex : forall n x y, size_ok n -> 0 <= x < 2 ^ (8 * Z.of_nat n) -> 0 <= y < 2 ^ (8 * Z.of_nat n) ->
    lex_compare (encode_fixed little n x) (encode_fixed little n y) = (x ?= y)).
  { intros k x y Hk Hx Hy. rewrite !encode_fixed_be, !be_store_spec by done. by apply lex_compare_bytes. }
  split_and!; [by rewrite encode_fixed_be, be_store_spec|by apply decode_encode_fixed| |by apply Hlex|].
  { intros input Hi. unfold decode_fixed_view. by destruct (decide _). }
  intros p q Hp Hq. assert (H8 : size_ok 8) by (by right; right; right).
  assert (Hr : forall p, 0 <= p < 2 ^ 64 -> 0 <= EncodeDoubleToUInt64 p < 2 ^ 64).
  { intros x Hx. rewrite EncodeDouble_val by done. destruct (Z.ltb_spec x (2 ^ 63)); lia. }
  unfold encode_double. rewrite (Hlex 8%nat) by (done || by apply Hr). split_and!.
  - pose proof (decode_encode_fixed little 8 (EncodeDoubleToUInt64 p) rest H8 (Hr p Hp)) as E. unfold decode_fixed_view in E.
    unfold decode_double_view, decode_double. destruct (decide _); [done|]. injection E as E1 E2. rewrite E1, E2. f_equal. f_equal.
    rewrite DecodeDouble_val by by apply Hr. rewrite EncodeDouble_val by done. destruct (Z.ltb_spec p (2 ^ 63)); zcases; lia.
  - intros Hlt. apply Z.compare_lt_iff. rewrite !EncodeDouble_val by done. unfold signed_magnitude, magnitude in Hlt.
    revert Hlt. destruct (Z.ltb_spec p (2 ^ 63)), (Z.ltb_spec q (2 ^ 63)); zlia.
  - intros Hlt. rewrite !EncodeDouble_val in Hlt by done. unfold signed_magnitude, magnitude.
    revert Hlt. destruct (Z.ltb_spec p (2 ^ 63)), (Z.ltb_spec q (2 ^ 63)); intros Hlt; apply -> Z.compare_lt_iff in Hlt; zlia.
Qed.

Lemma encode_fixed_correct_witness :
  decode_fixed_view true 4 (encode_fixed true 4 0xCAFEBABE ++ [7; 8]) = (Some 0xCAFEBABE, [7; 8]) /\
  lex_compare (encode_fixed true 4 0x100) (encode_fixed true 4 0xCAFEBABE) = Lt /\
  lex_compare (encode_double true 0xC000000000000000) (encode_double true 0x3FF0000000000000) = Lt.
Proof.
  destruct (encode_fixed_correct true 4 0x100 0xCAFEBABE [7; 8]) as (_ & E1 & _ & E2 & E3).
  1: by right; right; left. 1, 2: by vm_compute.
  destruct (E3 0xC000000000000000 0x3FF0000000000000) as (_ & E4 & _). 1, 2: by vm_compute.
  split; [exact E1|split; [by rewrite E2|by apply E4]].
Defined.

(** C33: [encode_varint32] writes a number in the fewest bytes of seven bits, one to five, and
    [decode_varint32] reads it back, leaving what follows. Decoding fails, without
    touching the view, exactly when none of its first five bytes ends a number, as
    with every proper prefix of an encoding. *)
Theorem varint32_correct v rest input : 0 <= v < 2 ^ 32 -> Forall byte_ok input ->
  (exists l, encode_varint32 v = Some l /\ (1 <= length l <= 5)%nat /\
     v < 128 ^ Z.of_nat (length l) /\ (length l = 1%nat \/ 128 ^ (Z.of_nat (length l) - 1) <= v) /\
     (Forall byte_ok rest -> decode_varint32 (l ++ rest) = (Some v, rest)) /\
     (forall k, (k < length l)%nat -> decode_varint32 (take k l) = (None, take k l))) /\
  (decode_varint32 input = (None, input) <-> Forall (fun b => 128 <= b) (take 5 input)) /\
  (fst (decode_varint32 input) = None -> snd (decode_varint32 input) = input).
Proof.
  intros Hv Hin. assert (Hnone : forall p, Forall byte_ok p -> decode_varint32 p = (None, p) <-> Forall (fun b => 128 <= b) (take 5 p)).
  { intros p Hp. rewrite <- (varint_fallback_None 5 0 0) by done. unfold decode_varint32. rewrite get_varint32_ptr_fallback by done.
    by destruct (varint_fallback 5 0 0 p) as [[]|]. }
  pose proof (varint_bytes_length 5 v ltac:(cbn; lia) ltac:(lia)) as (Hl & Hmax & Hmin). pose proof (varint_bytes_ok 5 v ltac:(lia)) as Hok.
  split_and!.
  - exists (varint_bytes 5 v). split_and!; [by apply encode_varint32_spec|lia|lia|done|done| |].
    + intros Hr. unfold decode_varint32. rewrite get_varint32_ptr_fallback by (apply Forall_app; done).
      rewrite varint_fallback_spec by (cbn; lia). f_equal. f_equal. lia.
    + intros k Hk. apply Hnone; [by apply Forall_take|]. rewrite take_take, Nat.min_r by lia. apply varint_bytes_prefix; lia.
  - by apply Hnone.
  - unfold decode_varint32. by destruct (get_varint32_ptr input) as [[]|].
Qed.

Lemma varint32_correct_witness :
  exists l, encode_varint32 300 = Some l /\ l = [172; 2] /\ decode_varint32 (l ++ [9]) = (Some 300, [9]) /\
    decode_varint32 (take 1 l) = (None, take 1 l).
Proof.
  destruct (varint32_correct 300 [9] []) as ((l & E & _ & _ & _ & E1 & E2) & _). 1: lia. 1: constructor.
  assert (El : l = [172; 2]) by (vm_compute in E; by injection E).
  exists l. split; [exact E|split; [exact El|split]].
  - apply E1. repeat constructor; lia.
  - apply E2. rewrite El. cbn. lia.
Defined.

(** [encode_sized_string] and [decode_sized_string]: the string comes back, and what follows it is
    left, when its size fits the 32 bits written before it; the size of a longer one is written modulo
    2^32, and a prefix comes back. Decoding fails on a view shorter than four bytes, leaving it, or than
    the size it reads, leaving the view behind the four bytes of the size. *)
Theorem sized_string_correct little dst value rest input :
  encode_sized_string little dst value = dst ++ encode_sized_string little [] value /\
  (Z.of_nat (length value) < 2 ^ 32 -> decode_sized_string little (encode_sized_string little [] value ++ rest) = (Some value, rest)) /\
  (let k := Z.to_nat (Z.of_nat (length value) mod 2 ^ 32) in
   decode_sized_string little (encode_sized_string little [] value ++ rest) = (Some (take k value), drop k value ++ rest)) /\
  ((length input < 4)%nat -> decode_sized_string little input = (None, input)) /\
  ((4 <= length input)%nat -> Z.of_nat (length (drop 4 input)) < decode_fixed little 4 input ->
     decode_sized_string little input = (None, drop 4 input)).
Proof.
  split_and!.
  - unfold encode_sized_string, encode_fixed_str. cbn [app]. by rewrite app_assoc.
  - intros Hl. rewrite decode_sized_encoded. rewrite Z.mod_small, Nat2Z.id by lia. by rewrite firstn_all, drop_all.
  - apply decode_sized_encoded.
  - intros Hi. unfold decode_sized_string, decode_fixed_view. by destruct (decide _).
  - intros Hi Hs. unfold decode_sized_string, decode_fixed_view. destruct (decide _); [lia|].
    by destruct (Z.ltb_spec (Z.of_nat (length (drop 4 input))) (decode_fixed little 4 input)); [|lia].
Qed.
