(* ===== verification/Digest.v ===== *)
(** * Block hashing of a stream of bytes (the part sha1.cc and sha256.cc of crypto/ share)

    The Merkle-Damgard construction on blocks of 64 bytes, and the buffering of
    [SHA1] and [SHA256]: both classes fill a buffer of 64 bytes, read as sixteen 32-bit words by
    their [hashBlock], which is a parameter here. On a little-endian host the bytes of
    each word are stored in reverse, so that the words are big-endian. [little] is the byte
    order of the host, as in Endian.v. *)
From S2P Require Import Prelude Words Endian.

(** ** The construction *)

Section Absorb.
Context {St : Type} (compress : St -> list Z -> St).

Fixpoint absorb_blocks (n : nat) (st : St) (m : list Z) : St :=
  match n with O => st | S n => absorb_blocks n (compress st (take 64 m)) (drop 64 m) end.

(** All full blocks of [m]. *)
Definition absorb (st : St) (m : list Z) : St := absorb_blocks (length m / 64) st m.

Lemma absorb_blocks_app n st a b : length a = (64 * n)%nat -> absorb_blocks n st (a ++ b) = absorb_blocks n st a.
Proof.
  revert st a. induction n as [|n IH]; intros st a Hl; [done|]. cbn [absorb_blocks].
  rewrite take_app_le, drop_app_le by lia. apply IH. rewrite length_drop. lia.
Qed.

Lemma absorb_blocks_add n k st a : absorb_blocks (n + k) st a = absorb_blocks k (absorb_blocks n st a) (drop (64 * n) a).
Proof.
  revert st a. induction n as [|n IH]; intros st a; [by rewrite drop_0|]. cbn [Nat.add absorb_blocks].
  rewrite IH, drop_drop. f_equal. f_equal. lia.
Qed.

Lemma absorb_app st a b n : length a = (64 * n)%nat -> absorb st (a ++ b) = absorb (absorb st a) b.
Proof.
  intros Hl. unfold absorb. rewrite length_app, Hl. replace (64 * n + length b)%nat with (length b + n * 64)%nat by lia.
  rewrite Nat.div_add by lia. replace (64 * n)%nat with (n * 64)%nat by lia. rewrite Nat.div_mul by lia.
  rewrite Nat.add_comm, absorb_blocks_add, absorb_blocks_app by done. by rewrite <- Hl, drop_app_length.
Qed.

Lemma absorb_short st a : (length a < 64)%nat -> absorb st a = st.
Proof. intros Hl. unfold absorb. by rewrite Nat.div_small. Qed.

Lemma absorb_block st a : length a = 64%nat -> absorb st a = compress st a.
Proof. intros Hl. unfold absorb. rewrite Hl. change (64 / 64)%nat with 1%nat. cbn [absorb_blocks]. by rewrite <- Hl, firstn_all. Qed.
End Absorb.

(** The big-endian words of a block. *)
Definition be_words (m : list Z) : list Z := (fun i => le_combine (rev (take 4 (drop (4 * i) m)))) <$> seq 0 (length m / 4).

(** Zero bytes of the padding of a message of [n] bytes, before the eight bytes of its length. *)
Definition zeros (n : nat) : nat := ((55 + 64 - n mod 64) mod 64)%nat.
Definition padded (m length_bytes : list Z) : list Z := m ++ [0x80] ++ replicate (zeros (length m)) 0 ++ length_bytes.

Lemma zeros_spec n : (n mod 64 + 1 + zeros n = 56 \/ n mod 64 + 1 + zeros n = 120)%nat.
Proof.
  unfold zeros. pose proof (Nat.mod_upper_bound n 64 ltac:(lia)). generalize dependent (n mod 64)%nat. intros r Hr.
  destruct (decide (r <= 55)%nat).
  - replace (55 + 64 - r)%nat with (55 - r + 1 * 64)%nat by lia. rewrite Nat.Div0.mod_add, Nat.mod_small by lia. lia.
  - rewrite Nat.mod_small by lia. lia.
Qed.

(** ** The buffer of SHA1 and SHA256 *)

Record sha_state := MkSha { State : list Z; ByteCount : Z; BufferOffset : Z; Buffer : list Z }.

Section Sha.
Context (little : bool) (hashBlock : list Z -> list Z -> list Z * list Z).

(** [Buffer.L], the words that share the memory of the bytes [Buffer.C]. *)
Definition buffer_word (buf : list Z) (i : nat) : Z := UnalignedLoad little (take 4 (drop (4 * i) buf)).
Definition buffer_words (buf : list Z) : list Z := buffer_word buf <$> seq 0 16.
Definition set_word (i : nat) (w : Z) (buf : list Z) : list Z := take (4 * i) buf ++ UnalignedStore little 4 w ++ drop (4 * i + 4) buf.

(** [hashBlock]: the new state of the hash and of the buffer. *)
Definition hash_block (s : sha_state) : sha_state :=
  let '(st, buf) := hashBlock (State s) (Buffer s) in MkSha st (ByteCount s) (BufferOffset s) buf.

Definition addUncounted (Data : Z) (s : sha_state) : sha_state :=
  let i := if is_little_endian little then Z.lxor (BufferOffset s) 3 else BufferOffset s in
  let s := MkSha (State s) (ByteCount s) (uadd 8 (BufferOffset s) 1) (<[Z.to_nat i := Data]> (Buffer s)) in
  if BufferOffset s =? 64 then
    let s := hash_block s in MkSha (State s) (ByteCount s) 0 (Buffer s)
  else s.

Definition writebyte (Data : Z) (s : sha_state) : sha_state :=
  addUncounted Data (MkSha (State s) (uadd 32 (ByteCount s) 1) (BufferOffset s) (Buffer s)).

Definition add_all (l : list Z) (s : sha_state) : sha_state := fold_left (fun s d => addUncounted d s) l s.

(** The loop of [update] over whole blocks, filling the buffer word by word. *)
Definition fill_buffer (Data buf : list Z) : list Z :=
  fold_left (fun buf i => set_word i (be_load little (take 4 (drop (4 * i) Data))) buf) (seq 0 16) buf.

Fixpoint block_loop (fuel : nat) (Data : list Z) (s : sha_state) : list Z * sha_state :=
  match fuel with
  | O => (Data, s)
  | S fuel =>
      if decide (64 <= length Data)%nat then
        block_loop fuel (drop 64 Data) (hash_block (MkSha (State s) (ByteCount s) (BufferOffset s) (fill_buffer Data (Buffer s))))
      else (Data, s)
  end.

Definition update (Data : list Z) (s : sha_state) : sha_state :=
  let s := MkSha (State s) (uadd 32 (ByteCount s) (wrap 32 (Z.of_nat (length Data)))) (BufferOffset s) (Buffer s) in
  let '(Data, s) :=
    if 0 <? BufferOffset s then
      let Remainder := Nat.min (length Data) (Z.to_nat (64 - BufferOffset s)) in
      (drop Remainder Data, add_all (take Remainder Data) s)
    else (Data, s) in
  let '(Data, s) := block_loop (length Data) Data s in
  add_all Data s.

(** [addUncounted(0x80); while (BufferOffset != 56) addUncounted(0x00);] *)
Fixpoint zero_loop (fuel : nat) (s : sha_state) : option sha_state :=
  if BufferOffset s =? 56 then Some s
  else match fuel with O => None | S fuel => zero_loop fuel (addUncounted 0x00 s) end.

Definition pad_with (length_bytes : Z -> list Z) (s : sha_state) : option sha_state :=
  s ← zero_loop 64 (addUncounted 0x80 s);
  Some (add_all (length_bytes (ByteCount s)) s).

(** The digest: the words of the state, swapped on a little-endian host, as bytes in memory. *)
Definition hash_result (s : sha_state) : list Z :=
  concat ((fun w => UnalignedStore little 4 (if negb (is_little_endian little) then w else gbswap_32 w)) <$> State s).
End Sha.

(** ** Lemmas *)

Lemma take4_drop (l : list Z) k : (k + 4 <= length l)%nat -> take 4 (drop k l) = [l !!! k; l !!! (k + 1)%nat; l !!! (k + 2)%nat; l !!! (k + 3)%nat].
Proof.
  intros Hk. assert (E : forall j, (j < 4)%nat -> drop k l !! j = Some (l !!! (k + j)%nat)).
  { intros j Hj. rewrite lookup_drop. by rewrite list_lookup_lookup_total_lt by lia. }
  destruct (drop k l) as [|a [|b [|c [|d r]]]];
    [specialize (E 0%nat ltac:(lia)); done|specialize (E 1%nat ltac:(lia)); done|specialize (E 2%nat ltac:(lia)); done|specialize (E 3%nat ltac:(lia)); done|].
  pose proof (E 0%nat ltac:(lia)) as E0. pose proof (E 1%nat ltac:(lia)) as E1. pose proof (E 2%nat ltac:(lia)) as E2. pose proof (E 3%nat ltac:(lia)) as E3.
  rewrite Nat.add_0_r in E0. cbn in E0, E1, E2, E3. injection E0 as ->. injection E1 as ->. injection E2 as ->. injection E3 as ->. done.
Qed.

(** Where byte [k] of a block is stored. *)
Definition place (little : bool) (k : nat) : nat := if little then Z.to_nat (Z.lxor (Z.of_nat k) 3) else k.

Lemma forall_below (P : nat -> bool) n : forallb P (seq 0 n) = true -> forall k, (k < n)%nat -> P k = true.
Proof. intros H k Hk. rewrite forallb_forall in H. apply H. apply in_seq. lia. Qed.

Lemma place_facts little k : (k < 64)%nat -> (place little k < 64)%nat /\ place little (place little k) = k /\
  (little = true -> place little k = (4 * (k / 4) + (3 - k mod 4))%nat).
Proof.
  intros Hk. destruct little; [|by unfold place].
  pose proof (forall_below (fun k => (place true k <? 64)%nat && (place true (place true k) =? k)%nat && (place true k =? 4 * (k / 4) + (3 - k mod 4))%nat) 64
    ltac:(by vm_compute) k Hk) as H.
  apply andb_true_iff in H as [H H3]. apply andb_true_iff in H as [H1 H2].
  split_and!; [by apply Nat.ltb_lt|by apply Nat.eqb_eq|intros _; by apply Nat.eqb_eq].
Qed.

(** The bytes of the buffer in the order of the message. *)
Definition logical (little : bool) (buf : list Z) : list Z := (fun k => buf !!! place little k) <$> seq 0 64.

Lemma length_logical little buf : length (logical little buf) = 64%nat.
Proof. unfold logical. by rewrite length_fmap, length_seq. Qed.

Lemma lookup_logical little buf k : (k < 64)%nat -> logical little buf !! k = Some (buf !!! place little k).
Proof. intros Hk. unfold logical. rewrite list_lookup_fmap, lookup_seq_lt by done. done. Qed.

Lemma lookup_total_logical little buf k : (k < 64)%nat -> logical little buf !!! k = buf !!! place little k.
Proof. intros Hk. apply list_lookup_total_correct. by apply lookup_logical. Qed.

Lemma logical_involutive little buf : length buf = 64%nat -> logical little (logical little buf) = buf.
Proof.
  intros Hl. apply list_eq. intros k. destruct (decide (k < 64)%nat) as [Hk|Hk].
  - destruct (place_facts little k Hk) as (Hp & Hpp & _). rewrite lookup_logical, lookup_total_logical, Hpp by done.
    symmetry. apply list_lookup_lookup_total_lt. lia.
  - rewrite !lookup_ge_None_2; [done|lia|rewrite length_logical; lia].
Qed.

Lemma logical_ok little buf : length buf = 64%nat -> Forall byte_ok buf -> Forall byte_ok (logical little buf).
Proof.
  intros Hl Hb. apply Forall_lookup. intros k x Hx. destruct (decide (k < 64)%nat) as [Hk|Hk].
  - rewrite lookup_logical in Hx by done. injection Hx as <-. destruct (place_facts little k Hk) as (Hp & _).
    destruct (lookup_lt_is_Some_2 buf (place little k) ltac:(lia)) as (y & Hy). rewrite (list_lookup_total_correct _ _ _ Hy).
    by eapply Forall_lookup_1.
  - apply lookup_lt_Some in Hx. rewrite length_logical in Hx. lia.
Qed.

Lemma logical_insert little buf k d : (k < 64)%nat -> length buf = 64%nat ->
  logical little (<[place little k := d]> buf) = <[k := d]> (logical little buf).
Proof.
  intros Hk Hl. apply list_eq. intros j. destruct (decide (j < 64)%nat) as [Hj|Hj].
  - rewrite lookup_logical by done. destruct (place_facts little k Hk) as (Hp & Hpp & _). destruct (place_facts little j Hj) as (Hq & Hqq & _).
    destruct (decide (j = k)) as [->|Hne].
    + rewrite list_lookup_total_insert_eq, list_lookup_insert_eq by (rewrite ?length_logical; lia). done.
    + rewrite list_lookup_total_insert_ne by congruence. rewrite list_lookup_insert_ne by done. by rewrite lookup_logical.
  - rewrite !lookup_ge_None_2; [done|rewrite length_insert, length_logical; lia|rewrite length_logical; lia].
Qed.

Lemma buffer_words_logical little buf : length buf = 64%nat -> buffer_words little buf = be_words (logical little buf).
Proof.
  intros Hl. unfold buffer_words, be_words. rewrite length_logical. apply list_fmap_ext. intros i x [-> Hi]%lookup_seq.
  unfold buffer_word, UnalignedLoad. cbn [Nat.add]. change (64 / 4)%nat with 16%nat in Hi. rewrite !take4_drop by (rewrite ?length_logical; lia).
  rewrite !lookup_total_logical by lia. destruct little; [|done].
  assert (Hd : forall j, (j < 4)%nat -> place true (4 * i + j) = (4 * i + (3 - j))%nat).
  { intros j Hj. destruct (place_facts true (4 * i + j) ltac:(lia)) as (_ & _ & E). rewrite E by done.
    replace (4 * i + j)%nat with (j + i * 4)%nat by lia. rewrite Nat.div_add, Nat.Div0.mod_add by lia.
    rewrite Nat.div_small, Nat.mod_small by lia. lia. }
  rewrite <- (Nat.add_0_r (4 * i)) at 5. rewrite !Hd by lia. cbn [rev app Nat.sub]. by rewrite Nat.add_0_r.
Qed.

(** *** Filling the buffer word by word *)

Lemma unaligned_load_store little n v : 0 <= v < 2 ^ (8 * Z.of_nat n) -> UnalignedLoad little (UnalignedStore little n v) = v.
Proof. intros Hv. unfold UnalignedLoad, UnalignedStore. destruct little; rewrite ?rev_involutive; by apply le_combine_bytes. Qed.

Lemma length_unaligned_store little n v : length (UnalignedStore little n v) = n.
Proof. unfold UnalignedStore. destruct little; rewrite ?length_rev; apply length_le_bytes. Qed.

Lemma unaligned_store_ok little n v : Forall byte_ok (UnalignedStore little n v).
Proof. unfold UnalignedStore. destruct little; [|apply Forall_rev_bytes]; apply le_bytes_ok. Qed.

Lemma stores_ok little W : length (concat (UnalignedStore little 4 <$> W)) = (4 * length W)%nat /\ Forall byte_ok (concat (UnalignedStore little 4 <$> W)).
Proof.
  induction W as [|w W (IH1 & IH2)]; [by split|]. cbn [fmap list_fmap concat length]. rewrite length_app, length_unaligned_store.
  split; [cbn [fmap] in *; lia|]. apply Forall_app. split; [apply unaligned_store_ok|exact IH2].
Qed.

(** The sums that end a block function. *)
Lemma zip_uadd_range l k : Forall (fun w => 0 <= w < 2 ^ 32) (zip_with (uadd 32) l k).
Proof. revert k. induction l as [|x l IH]; intros [|y k]; cbn; constructor; [apply wrap_range; lia|apply IH]. Qed.

Lemma set_word_ok little i w buf : (i < 16)%nat -> length buf = 64%nat -> Forall byte_ok buf -> 0 <= w < 2 ^ 32 ->
  length (set_word little i w buf) = 64%nat /\ Forall byte_ok (set_word little i w buf) /\
  buffer_word little (set_word little i w buf) i = w /\
  forall j, (j < 16)%nat -> j <> i -> buffer_word little (set_word little i w buf) j = buffer_word little buf j.
Proof.
  intros Hi Hl Hb Hw. pose proof (length_unaligned_store little 4 w) as Hs. unfold set_word.
  assert (Hlen : length (take (4 * i) buf ++ UnalignedStore little 4 w ++ drop (4 * i + 4) buf) = 64%nat).
  { rewrite !length_app, length_take, length_drop. lia. }
  split_and!; [done| | |].
  - rewrite !Forall_app. split_and!; [by apply Forall_take|apply unaligned_store_ok|by apply Forall_drop].
  - unfold buffer_word. rewrite drop_app_length' by (rewrite length_take; lia). rewrite take_app_length' by done.
    by apply unaligned_load_store.
  - intros j Hj Hne. unfold buffer_word. rewrite !take4_drop by lia. f_equal.
    assert (E : forall k, (k < 4)%nat -> (take (4 * i) buf ++ UnalignedStore little 4 w ++ drop (4 * i + 4) buf) !!! (4 * j + k)%nat = buf !!! (4 * j + k)%nat).
    { intros k Hk. rewrite !list_lookup_total_alt. f_equal. destruct (decide (j < i)%nat) as [Hlt|Hge].
      - rewrite lookup_app_l by (rewrite length_take; lia). by rewrite lookup_take_lt by lia.
      - rewrite lookup_app_r by (rewrite length_take; lia). rewrite lookup_app_r by (rewrite length_take; lia).
        rewrite lookup_drop, length_take, Hs. f_equal. lia. }
    pose proof (E 0%nat ltac:(lia)) as E0. rewrite Nat.add_0_r in E0. by rewrite E0, !E by lia.
Qed.

Lemma fill_buffer_ok little Data buf : (64 <= length Data)%nat -> Forall byte_ok Data -> length buf = 64%nat -> Forall byte_ok buf ->
  length (fill_buffer little Data buf) = 64%nat /\ Forall byte_ok (fill_buffer little Data buf) /\
  buffer_words little (fill_buffer little Data buf) = be_words (take 64 Data).
Proof.
  intros Hd HD Hl Hb. set (w := fun i => le_combine (rev (take 4 (drop (4 * i) Data)))).
  assert (Hw : forall i, (i < 16)%nat -> be_load little (take 4 (drop (4 * i) Data)) = w i /\ 0 <= w i < 2 ^ 32).
  { intros i Hi. assert (Hlen : length (take 4 (drop (4 * i) Data)) = 4%nat) by (rewrite length_take, length_drop; lia).
    assert (Hok : Forall byte_ok (take 4 (drop (4 * i) Data))) by by apply Forall_take, Forall_drop.
    split; [apply be_load_spec; [rewrite Hlen; by right; right; left|done]|].
    pose proof (le_combine_range _ (Forall_rev_bytes _ Hok)) as Hr. by rewrite length_rev, Hlen in Hr. }
  assert (Hfold : forall n, (n <= 16)%nat -> let b := fold_left (fun buf i => set_word little i (be_load little (take 4 (drop (4 * i) Data))) buf) (seq 0 n) buf in
    length b = 64%nat /\ Forall byte_ok b /\ forall j, (j < n)%nat -> buffer_word little b j = w j).
  { induction n as [|n IH]; intros Hn; [split_and!; [done..|lia]|]. rewrite seq_S, fold_left_app. cbn [fold_left Nat.add].
    destruct IH as (H1 & H2 & H3); [lia|]. destruct (Hw n ltac:(lia)) as (-> & Hr).
    destruct (set_word_ok little n (w n) _ ltac:(lia) H1 H2 Hr) as (G1 & G2 & G3 & G4). split_and!; [done|done|].
    intros j Hj. destruct (decide (j = n)) as [->|Hne]; [done|]. rewrite G4 by lia. apply H3. lia. }
  destruct (Hfold 16%nat ltac:(lia)) as (H1 & H2 & H3). split_and!; [done|done|].
  unfold buffer_words, be_words. rewrite length_take_le by done. change (64 / 4)%nat with 16%nat.
  apply list_fmap_ext. intros i x [-> Hi]%lookup_seq. cbn [Nat.add]. unfold fill_buffer. rewrite H3 by done. subst w. cbn. f_equal. f_equal.
  rewrite !take4_drop by (rewrite ?length_take; lia). f_equal; [|f_equal; [|f_equal; [|f_equal]]]; rewrite !list_lookup_total_alt, lookup_take_lt by lia; done.
Qed.

(** The digest is the big-endian bytes of the state. *)
Lemma hash_result_spec little s : Forall (fun w => 0 <= w < 2 ^ 32) (State s) ->
  hash_result little s = concat ((fun w => rev (le_bytes 4 w)) <$> State s).
Proof.
  intros Hw. unfold hash_result. f_equal. induction Hw as [|w l Hw Hl IH]; [done|]. rewrite !fmap_cons, IH. f_equal.
  transitivity (be_store little 4 w); [by destruct little|]. apply be_store_spec; [by right; right; left|done].
Qed.

(** ** The stream of updates is the message *)

Section ShaCorrect.
Context (little : bool) (hashBlock : list Z -> list Z -> list Z * list Z).
Context (compress : list Z -> list Z -> list Z) (st_ok : list Z -> Prop) (iv : list Z).
Context (iv_ok : st_ok iv).
Context (hashBlock_spec : forall st buf, st_ok st -> length buf = 64%nat -> Forall byte_ok buf ->
  fst (hashBlock st buf) = compress st (buffer_words little buf) /\ st_ok (fst (hashBlock st buf)) /\
  length (snd (hashBlock st buf)) = 64%nat /\ Forall byte_ok (snd (hashBlock st buf))).

(** The hash after the full blocks of [m]. *)
Definition block_compress (st blk : list Z) : list Z := compress st (be_words blk).
Definition chain (m : list Z) : list Z := absorb block_compress iv m.

Abbreviation add := (addUncounted little hashBlock).
Abbreviation add_all := (add_all little hashBlock).

(** [core_ok s m]: the bytes [m] have been added. *)
Definition core_ok (s : sha_state) (m : list Z) : Prop :=
  length (Buffer s) = 64%nat /\ Forall byte_ok (Buffer s) /\ st_ok (State s) /\
  exists q m0 tail, m = m0 ++ tail /\ length m0 = (64 * q)%nat /\ (length tail < 64)%nat /\
    State s = chain m0 /\ BufferOffset s = Z.of_nat (length tail) /\ take (length tail) (logical little (Buffer s)) = tail.

Lemma core_chain s m : core_ok s m -> State s = chain m.
Proof.
  intros (_ & _ & _ & q & m0 & tail & -> & Hq & Ht & -> & _). unfold chain. by rewrite (absorb_app _ _ _ _ q), (absorb_short _ _ tail).
Qed.

Lemma core_offset s m : core_ok s m -> BufferOffset s = Z.of_nat (length m mod 64).
Proof.
  intros (_ & _ & _ & q & m0 & tail & -> & Hq & Ht & _ & -> & _). rewrite length_app, Hq.
  replace (64 * q + length tail)%nat with (length tail + q * 64)%nat by lia. by rewrite Nat.Div0.mod_add, Nat.mod_small.
Qed.

(** A full buffer is hashed. *)
Lemma hash_block_ok s m0 q blk : length m0 = (64 * q)%nat -> State s = chain m0 -> st_ok (State s) ->
  length (Buffer s) = 64%nat -> Forall byte_ok (Buffer s) -> length blk = 64%nat -> buffer_words little (Buffer s) = be_words blk ->
  let s' := hash_block hashBlock s in
  State s' = chain (m0 ++ blk) /\ st_ok (State s') /\ length (Buffer s') = 64%nat /\ Forall byte_ok (Buffer s') /\
  ByteCount s' = ByteCount s /\ BufferOffset s' = BufferOffset s.
Proof.
  intros Hq Hst Hok Hl Hb Hlb Hw s'. destruct (hashBlock_spec (State s) (Buffer s) Hok Hl Hb) as (E1 & E2 & E3 & E4).
  subst s'. unfold hash_block. destruct (hashBlock (State s) (Buffer s)) as [st buf]. cbn [fst snd State Buffer ByteCount BufferOffset] in *.
  split_and!; try done. rewrite E1, Hw, Hst. unfold chain. rewrite (absorb_app _ _ m0 blk q) by done. rewrite (absorb_block _ _ blk) by done. done.
Qed.

Lemma add_ok s m d : core_ok s m -> byte_ok d -> core_ok (add d s) (m ++ [d]) /\ ByteCount (add d s) = ByteCount s.
Proof.
  intros (Hl & Hb & Hok & q & m0 & tail & -> & Hq & Ht & Hst & Ho & Htail) Hd. unfold addUncounted, is_little_endian.
  set (i := if little then Z.lxor (BufferOffset s) 3 else BufferOffset s).
  assert (Hi : Z.to_nat i = place little (length tail)) by (subst i; unfold place; rewrite Ho; destruct little; [done|apply Nat2Z.id]).
  rewrite Hi. destruct (place_facts little (length tail) Ht) as (Hp & _ & _). cbn [BufferOffset].
  assert (Ho' : uadd 8 (BufferOffset s) 1 = Z.of_nat (length (tail ++ [d]))).
  { unfold uadd. rewrite Ho, length_app. cbn [length]. rewrite wrap_small by lia. lia. }
  rewrite Ho'. assert (Hlog : take (length (tail ++ [d])) (logical little (<[place little (length tail) := d]> (Buffer s))) = tail ++ [d]).
  { rewrite logical_insert by done. rewrite length_app. cbn [length]. rewrite Nat.add_1_r.
    rewrite (take_S_r _ _ d) by (rewrite list_lookup_insert_eq; [done|by rewrite length_logical]). rewrite take_insert_ge by lia. by rewrite Htail. }
  assert (Hl' : length (<[place little (length tail) := d]> (Buffer s)) = 64%nat) by by rewrite length_insert.
  assert (Hb' : Forall byte_ok (<[place little (length tail) := d]> (Buffer s))) by by apply Forall_insert.
  assert (Hlt : length (tail ++ [d]) = S (length tail)) by (rewrite length_app; cbn; lia).
  destruct (Z.eqb_spec (Z.of_nat (length (tail ++ [d]))) 64) as [Hfull|Hpart].
  - destruct (hash_block_ok (MkSha (State s) (ByteCount s) (Z.of_nat (length (tail ++ [d]))) (<[place little (length tail) := d]> (Buffer s))) m0 q (tail ++ [d]))
      as (E1 & E2 & E3 & E4 & E5 & _); [done..|lia| |].
    { rewrite buffer_words_logical by done. f_equal. cbn [Buffer]. rewrite <- Hlog. symmetry. apply firstn_all2. rewrite length_logical. lia. }
    split; [|done]. split_and!; try done. exists (S q), (m0 ++ tail ++ [d]), []. cbn [State BufferOffset Buffer length].
    split_and!; [by rewrite app_nil_r, <- app_assoc|rewrite length_app; lia|lia|done|done|done].
  - split; [|done]. split_and!; try done. exists q, m0, (tail ++ [d]). cbn [State BufferOffset Buffer].
    split_and!; [by rewrite app_assoc|done|lia|done|done|done].
Qed.

Lemma add_all_ok l s m : core_ok s m -> Forall byte_ok l -> core_ok (add_all l s) (m ++ l) /\ ByteCount (add_all l s) = ByteCount s.
Proof.
  intros Hs Hl. revert s m Hs. induction Hl as [|d l Hd Hl IH]; intros s m Hs; [by rewrite app_nil_r|]. cbn.
  destruct (add_ok s m d Hs Hd) as (H1 & H2). destruct (IH (add d s) (m ++ [d]) H1) as (H3 & H4).
  unfold Digest.add_all in *. rewrite <- app_assoc in H3. split; [exact H3|by rewrite H4].
Qed.

(** *** Updates *)

Abbreviation upd := (update little hashBlock).

Lemma block_loop_ok fuel Data s m q : (length Data <= 64 * fuel)%nat -> Forall byte_ok Data -> core_ok s m -> length m = (64 * q)%nat ->
  let '(rest, s') := block_loop little hashBlock fuel Data s in
  exists blocks, Data = blocks ++ rest /\ core_ok s' (m ++ blocks) /\ ByteCount s' = ByteCount s /\ Forall byte_ok rest.
Proof.
  revert Data s m q. induction fuel as [|fuel IH]; intros Data s m q Hf HD Hs Hq; cbn [block_loop].
  { exists []. destruct Data; [|cbn in Hf; lia]. rewrite (app_nil_r m). by split_and!. }
  destruct (decide _) as [Hge|Hlt]; [|exists []; rewrite (app_nil_r m); by split_and!].
  pose proof (core_chain s m Hs) as Hst. pose proof (core_offset s m Hs) as Ho. destruct Hs as (Hl & Hb & Hok & _).
  destruct (fill_buffer_ok little Data (Buffer s) Hge HD Hl Hb) as (F1 & F2 & F3).
  destruct (hash_block_ok (MkSha (State s) (ByteCount s) (BufferOffset s) (fill_buffer little Data (Buffer s))) m q (take 64 Data))
    as (E1 & E2 & E3 & E4 & E5 & E6); [done..|by rewrite length_take_le|done|].
  set (s1 := hash_block hashBlock _) in *. cbn [ByteCount BufferOffset] in E5, E6.
  assert (Hc : core_ok s1 (m ++ take 64 Data)).
  { split_and!; [done..|]. exists (S q), (m ++ take 64 Data), []. cbn [length take]. split_and!; [by rewrite app_nil_r| |lia|done| |done].
    - rewrite length_app, length_take_le by done. lia.
    - rewrite E6, Ho, Hq. replace (64 * q)%nat with (q * 64)%nat by lia. by rewrite Nat.Div0.mod_mul. }
  specialize (IH (drop 64 Data) s1 (m ++ take 64 Data) (S q)). destruct (block_loop little hashBlock fuel (drop 64 Data) s1) as [rest s'].
  destruct IH as (blocks & Eb & Hc' & Hn & Hr).
  { rewrite length_drop. lia. } { by apply Forall_drop. } { done. } { rewrite length_app, length_take_le by done. lia. }
  exists (take 64 Data ++ blocks). rewrite <- !app_assoc in *. split_and!; [by rewrite <- Eb, take_drop|done|by rewrite Hn|done].
Qed.

Lemma core_set_count s m c : core_ok s m -> core_ok (MkSha (State s) c (BufferOffset s) (Buffer s)) m.
Proof. intros H. exact H. Qed.

Lemma sha_update_ok Data s m : core_ok s m -> Forall byte_ok Data -> core_ok (upd Data s) (m ++ Data) /\
  ByteCount (upd Data s) = wrap 32 (ByteCount s + Z.of_nat (length Data)).
Proof.
  intros Hs HD. unfold update. set (c := uadd 32 (ByteCount s) (wrap 32 (Z.of_nat (length Data)))).
  assert (Hc : c = wrap 32 (ByteCount s + Z.of_nat (length Data))) by (subst c; unfold uadd; by rewrite wrap_add_r by lia). rewrite <- Hc.
  pose proof (core_set_count s m c Hs) as Hs0. set (s0 := MkSha (State s) c (BufferOffset s) (Buffer s)) in *.
  assert (Hstep : forall Data s m q, Forall byte_ok Data -> core_ok s m -> length m = (64 * q)%nat ->
    let '(rest, s') := block_loop little hashBlock (length Data) Data s in core_ok (add_all rest s') (m ++ Data) /\ ByteCount (add_all rest s') = ByteCount s).
  { intros D t n q HDt Ht Hq. pose proof (block_loop_ok (length D) D t n q ltac:(lia) HDt Ht Hq) as H.
    destruct (block_loop _ _ _ _ _) as [rest t']. destruct H as (blocks & -> & Hc' & Hn & Hr).
    destruct (add_all_ok rest t' (n ++ blocks) Hc' Hr) as (H1 & H2). rewrite app_assoc. by rewrite H2. }
  pose proof (core_offset _ _ Hs0) as Ho. cbn [BufferOffset] in Ho. change (BufferOffset s0) with (BufferOffset s) in *.
  pose proof (Nat.div_mod_eq (length m) 64) as Hdm. pose proof (Nat.mod_upper_bound (length m) 64 ltac:(lia)) as Hm.
  destruct (Z.ltb_spec 0 (BufferOffset s)) as [Hpos|Hzero].
  - set (r := Nat.min (length Data) (Z.to_nat (64 - BufferOffset s))).
    destruct (add_all_ok (take r Data) s0 m Hs0 (Forall_take _ _ _ HD)) as (H1 & H2).
    replace (m ++ Data) with ((m ++ take r Data) ++ drop r Data) by (by rewrite <- app_assoc, take_drop).
    destruct (decide (length Data < Z.to_nat (64 - BufferOffset s))%nat) as [Hshort|Hlong].
    + assert (Hd : drop r Data = []) by (apply drop_ge; lia). rewrite Hd. cbn [length block_loop]. rewrite app_nil_r. by cbn.
    + specialize (Hstep (drop r Data) (add_all (take r Data) s0) (m ++ take r Data) (S (length m / 64)) (Forall_drop _ _ _ HD) H1).
      destruct (block_loop _ _ _ _ _) as [rest s']. destruct Hstep as (H3 & H4); [rewrite length_app, length_take; lia|]. by rewrite H4.
  - specialize (Hstep Data s0 m (length m / 64)%nat HD Hs0). destruct (block_loop _ _ _ _ _) as [rest s']. destruct Hstep as (H3 & H4); [lia|]. done.
Qed.

(** *** Padding *)

Lemma mod_succ n : (S n mod 64 = if decide (n mod 64 = 63) then 0 else S (n mod 64))%nat.
Proof.
  pose proof (Nat.div_mod_eq n 64). pose proof (Nat.mod_upper_bound n 64 ltac:(lia)). destruct (decide _) as [E|E].
  - symmetry. apply (Nat.mod_unique _ _ (S (n / 64))); lia.
  - symmetry. apply (Nat.mod_unique _ _ (n / 64)); lia.
Qed.

Lemma zero_loop_ok fuel z s m : core_ok s m -> (z <= fuel)%nat -> (z < 64)%nat ->
  (length m mod 64 + z = 56 \/ length m mod 64 + z = 120)%nat ->
  exists s', zero_loop little hashBlock fuel s = Some s' /\ core_ok s' (m ++ replicate z 0) /\ ByteCount s' = ByteCount s.
Proof.
  revert z s m. induction fuel as [|fuel IH]; intros z s m Hs Hf Hz Hmod; pose proof (core_offset s m Hs) as Ho;
    pose proof (Nat.mod_upper_bound (length m) 64 ltac:(lia)) as Hub; cbn [zero_loop]; destruct (Z.eqb_spec (BufferOffset s) 56) as [E|E].
  - assert (z = 0%nat) as -> by lia. exists s. rewrite app_nil_r. by split_and!.
  - lia.
  - assert (z = 0%nat) as -> by lia. exists s. rewrite app_nil_r. by split_and!.
  - destruct z as [|z]; [lia|]. assert (H0 : byte_ok 0) by (unfold byte_ok; lia). destruct (add_ok s m 0 Hs H0) as (H1 & H2).
    assert (Hlen : length (m ++ [0]) = S (length m)) by (rewrite length_app; cbn; lia).
    pose proof (Nat.mod_upper_bound (length m) 64 ltac:(lia)).
    destruct (IH z _ (m ++ [0]) H1) as (s' & Es & Hc & Hn); [lia|lia|rewrite Hlen, mod_succ; destruct (decide _); lia|].
    exists s'. rewrite <- app_assoc in Hc. split_and!; [done|done|by rewrite Hn].
Qed.

Lemma pad_ok length_bytes s m : core_ok s m -> length (length_bytes (ByteCount s)) = 8%nat -> Forall byte_ok (length_bytes (ByteCount s)) ->
  exists s', pad_with little hashBlock length_bytes s = Some s' /\ State s' = chain (padded m (length_bytes (ByteCount s))) /\ st_ok (State s').
Proof.
  intros Hs Hl Hb. unfold pad_with. assert (H80 : byte_ok 0x80) by (unfold byte_ok; lia). destruct (add_ok s m 0x80 Hs H80) as (H1 & H2).
  assert (Hlen : length (m ++ [0x80]) = S (length m)) by (rewrite length_app; cbn; lia).
  pose proof (zeros_spec (length m)) as Hz. pose proof (Nat.mod_upper_bound (length m) 64 ltac:(lia)).
  assert (Hlt : (zeros (length m) < 64)%nat) by (apply Nat.mod_upper_bound; lia).
  destruct (zero_loop_ok 64 (zeros (length m)) _ _ H1) as (s' & -> & Hc & Hn); [lia|done|rewrite Hlen, mod_succ; destruct (decide _); lia|].
  cbn [mbind option_bind]. rewrite Hn, H2. destruct (add_all_ok (length_bytes (ByteCount s)) s' _ Hc Hb) as (H3 & _).
  eexists. split; [done|]. split; [|by destruct H3 as (_ & _ & ? & _)].
  rewrite (core_chain _ _ H3). unfold padded. by rewrite <- !app_assoc.
Qed.
(** *** Streams *)

(** An object as [init] leaves it. *)
Definition fresh (s : sha_state) : Prop :=
  State s = iv /\ ByteCount s = 0 /\ BufferOffset s = 0 /\ length (Buffer s) = 64%nat /\ Forall byte_ok (Buffer s).

Definition updates (datas : list (list Z)) (s : sha_state) : sha_state := fold_left (fun s d => upd d s) datas s.

Lemma updates_ok datas s : fresh s -> Forall (Forall byte_ok) datas ->
  core_ok (updates datas s) (concat datas) /\ ByteCount (updates datas s) = wrap 32 (Z.of_nat (length (concat datas))).
Proof.
  intros (Hst & Hn & Ho & Hl & Hb). induction datas as [|d datas IH] using rev_ind; intros Hd.
  { unfold updates. cbn [fold_left concat length]. split; [|by rewrite Hn]. split_and!; [done|done|by rewrite Hst|]. exists 0%nat, [], []. split_and!; try done. cbn. lia. }
  apply Forall_app in Hd as [Hd Hd1]. apply Forall_cons_1 in Hd1 as [Hd1 _]. destruct (IH Hd) as (H1 & H2).
  unfold updates in *. rewrite fold_left_app, concat_app. cbn [fold_left concat]. rewrite app_nil_r.
  destruct (sha_update_ok d _ _ H1 Hd1) as (H3 & H4). split; [exact H3|]. rewrite H4, H2, length_app, wrap_add_l by lia. f_equal. lia.
Qed.

Context (st_words : forall st, st_ok st -> Forall (fun w => 0 <= w < 2 ^ 32) st).

(** The digest of the standard, the length of the message being written in [l]. *)
Definition digest (m l : list Z) : list Z := concat ((fun w => rev (le_bytes 4 w)) <$> chain (padded m l)).

Lemma digest_ok length_bytes s m : core_ok s m -> length (length_bytes (ByteCount s)) = 8%nat -> Forall byte_ok (length_bytes (ByteCount s)) ->
  exists s', pad_with little hashBlock length_bytes s = Some s' /\ hash_result little s' = digest m (length_bytes (ByteCount s)).
Proof.
  intros Hs Hl Hb. destruct (pad_ok length_bytes s m Hs Hl Hb) as (s' & E & Hst & Hok). exists s'. split; [done|].
  rewrite hash_result_spec by by apply st_words. by rewrite Hst.
Qed.
End ShaCorrect.
