(* ===== verification/Sha256.v ===== *)
(** * SHA-256 (crypto/sha256.h, crypto/sha256.cc)

    The unrolled block function of the source, on eight variables A to H and sixteen words that
    change roles from one line to the next, against the block function of FIPS 180-4; the
    stream interface against the hash of the whole message. The buffering is that of Digest.v. *)
From S2P Require Import Prelude Words Bits Endian Digest.

(** ** The macros of the source, on 32-bit words *)

Definition SHR (x c : Z) : Z := ushr x c.
Definition ROTR (x n : Z) : Z := Z.lor (ushr x n) (ushl 32 x (32 - n)).
Definition CH (x y z : Z) : Z := Z.lxor (Z.land x y) (Z.land (unot 32 x) z).
Definition MAJ (x y z : Z) : Z := Z.lxor (Z.lxor (Z.land x y) (Z.land x z)) (Z.land y z).
Definition SIGMA_0 (x : Z) : Z := Z.lxor (Z.lxor (ROTR x 2) (ROTR x 13)) (ROTR x 22).
Definition SIGMA_1 (x : Z) : Z := Z.lxor (Z.lxor (ROTR x 6) (ROTR x 11)) (ROTR x 25).
Definition SIGMA_2 (x : Z) : Z := Z.lxor (Z.lxor (ROTR x 17) (ROTR x 19)) (SHR x 10).
Definition SIGMA_3 (x : Z) : Z := Z.lxor (Z.lxor (ROTR x 7) (ROTR x 18)) (SHR x 3).

(** [F_EXPAND(A, B, C, D, E, F, G, H, M1, M2, M3, M4, k)] on the variables [R] and the words [W],
    given by their numbers. *)
Definition F_EXPAND (s : list Z * list Z) (args : list nat * list nat * Z) : list Z * list Z :=
  let '(R, W) := s in
  match args with
  | ([A; B; C; D; E; F; G; H], [M1; M2; M3; M4], k) =>
      let R := <[H := uadd 32 (R !!! H) (uadd 32 (uadd 32 (uadd 32 (SIGMA_1 (R !!! E)) (CH (R !!! E) (R !!! F) (R !!! G))) (W !!! M1)) k)]> R in
      let R := <[D := uadd 32 (R !!! D) (R !!! H)]> R in
      let R := <[H := uadd 32 (R !!! H) (uadd 32 (SIGMA_0 (R !!! A)) (MAJ (R !!! A) (R !!! B) (R !!! C)))]> R in
      let W := <[M1 := uadd 32 (W !!! M1) (uadd 32 (uadd 32 (SIGMA_2 (W !!! M2)) (W !!! M3)) (SIGMA_3 (W !!! M4)))]> W in
      (R, W)
  | _ => (R, W)
  end.

(** The sixty-four lines of [hashBlock]. *)
Definition expand_lines : list (list nat * list nat * Z) :=
  let A := 0%nat in let B := 1%nat in let C := 2%nat in let D := 3%nat in let E := 4%nat in let F := 5%nat in let G := 6%nat in let H := 7%nat in [
   ([A; B; C; D; E; F; G; H], [0; 14; 9; 1], 0x428A2F98%Z);
   ([H; A; B; C; D; E; F; G], [1; 15; 10; 2], 0x71374491%Z);
   ([G; H; A; B; C; D; E; F], [2; 0; 11; 3], 0xB5C0FBCF%Z);
   ([F; G; H; A; B; C; D; E], [3; 1; 12; 4], 0xE9B5DBA5%Z);
   ([E; F; G; H; A; B; C; D], [4; 2; 13; 5], 0x3956C25B%Z);
   ([D; E; F; G; H; A; B; C], [5; 3; 14; 6], 0x59F111F1%Z);
   ([C; D; E; F; G; H; A; B], [6; 4; 15; 7], 0x923F82A4%Z);
   ([B; C; D; E; F; G; H; A], [7; 5; 0; 8], 0xAB1C5ED5%Z);
   ([A; B; C; D; E; F; G; H], [8; 6; 1; 9], 0xD807AA98%Z);
   ([H; A; B; C; D; E; F; G], [9; 7; 2; 10], 0x12835B01%Z);
   ([G; H; A; B; C; D; E; F], [10; 8; 3; 11], 0x243185BE%Z);
   ([F; G; H; A; B; C; D; E], [11; 9; 4; 12], 0x550C7DC3%Z);
   ([E; F; G; H; A; B; C; D], [12; 10; 5; 13], 0x72BE5D74%Z);
   ([D; E; F; G; H; A; B; C], [13; 11; 6; 14], 0x80DEB1FE%Z);
   ([C; D; E; F; G; H; A; B], [14; 12; 7; 15], 0x9BDC06A7%Z);
   ([B; C; D; E; F; G; H; A], [15; 13; 8; 0], 0xC19BF174%Z);
   ([A; B; C; D; E; F; G; H], [0; 14; 9; 1], 0xE49B69C1%Z);
   ([H; A; B; C; D; E; F; G], [1; 15; 10; 2], 0xEFBE4786%Z);
   ([G; H; A; B; C; D; E; F], [2; 0; 11; 3], 0x0FC19DC6%Z);
   ([F; G; H; A; B; C; D; E], [3; 1; 12; 4], 0x240CA1CC%Z);
   ([E; F; G; H; A; B; C; D], [4; 2; 13; 5], 0x2DE92C6F%Z);
   ([D; E; F; G; H; A; B; C], [5; 3; 14; 6], 0x4A7484AA%Z);
   ([C; D; E; F; G; H; A; B], [6; 4; 15; 7], 0x5CB0A9DC%Z);
   ([B; C; D; E; F; G; H; A], [7; 5; 0; 8], 0x76F988DA%Z);
   ([A; B; C; D; E; F; G; H], [8; 6; 1; 9], 0x983E5152%Z);
   ([H; A; B; C; D; E; F; G], [9; 7; 2; 10], 0xA831C66D%Z);
   ([G; H; A; B; C; D; E; F], [10; 8; 3; 11], 0xB00327C8%Z);
   ([F; G; H; A; B; C; D; E], [11; 9; 4; 12], 0xBF597FC7%Z);
   ([E; F; G; H; A; B; C; D], [12; 10; 5; 13], 0xC6E00BF3%Z);
   ([D; E; F; G; H; A; B; C], [13; 11; 6; 14], 0xD5A79147%Z);
   ([C; D; E; F; G; H; A; B], [14; 12; 7; 15], 0x06CA6351%Z);
   ([B; C; D; E; F; G; H; A], [15; 13; 8; 0], 0x14292967%Z);
   ([A; B; C; D; E; F; G; H], [0; 14; 9; 1], 0x27B70A85%Z);
   ([H; A; B; C; D; E; F; G], [1; 15; 10; 2], 0x2E1B2138%Z);
   ([G; H; A; B; C; D; E; F], [2; 0; 11; 3], 0x4D2C6DFC%Z);
   ([F; G; H; A; B; C; D; E], [3; 1; 12; 4], 0x53380D13%Z);
   ([E; F; G; H; A; B; C; D], [4; 2; 13; 5], 0x650A7354%Z);
   ([D; E; F; G; H; A; B; C], [5; 3; 14; 6], 0x766A0ABB%Z);
   ([C; D; E; F; G; H; A; B], [6; 4; 15; 7], 0x81C2C92E%Z);
   ([B; C; D; E; F; G; H; A], [7; 5; 0; 8], 0x92722C85%Z);
   ([A; B; C; D; E; F; G; H], [8; 6; 1; 9], 0xA2BFE8A1%Z);
   ([H; A; B; C; D; E; F; G], [9; 7; 2; 10], 0xA81A664B%Z);
   ([G; H; A; B; C; D; E; F], [10; 8; 3; 11], 0xC24B8B70%Z);
   ([F; G; H; A; B; C; D; E], [11; 9; 4; 12], 0xC76C51A3%Z);
   ([E; F; G; H; A; B; C; D], [12; 10; 5; 13], 0xD192E819%Z);
   ([D; E; F; G; H; A; B; C], [13; 11; 6; 14], 0xD6990624%Z);
   ([C; D; E; F; G; H; A; B], [14; 12; 7; 15], 0xF40E3585%Z);
   ([B; C; D; E; F; G; H; A], [15; 13; 8; 0], 0x106AA070%Z);
   ([A; B; C; D; E; F; G; H], [0; 14; 9; 1], 0x19A4C116%Z);
   ([H; A; B; C; D; E; F; G], [1; 15; 10; 2], 0x1E376C08%Z);
   ([G; H; A; B; C; D; E; F], [2; 0; 11; 3], 0x2748774C%Z);
   ([F; G; H; A; B; C; D; E], [3; 1; 12; 4], 0x34B0BCB5%Z);
   ([E; F; G; H; A; B; C; D], [4; 2; 13; 5], 0x391C0CB3%Z);
   ([D; E; F; G; H; A; B; C], [5; 3; 14; 6], 0x4ED8AA4A%Z);
   ([C; D; E; F; G; H; A; B], [6; 4; 15; 7], 0x5B9CCA4F%Z);
   ([B; C; D; E; F; G; H; A], [7; 5; 0; 8], 0x682E6FF3%Z);
   ([A; B; C; D; E; F; G; H], [8; 6; 1; 9], 0x748F82EE%Z);
   ([H; A; B; C; D; E; F; G], [9; 7; 2; 10], 0x78A5636F%Z);
   ([G; H; A; B; C; D; E; F], [10; 8; 3; 11], 0x84C87814%Z);
   ([F; G; H; A; B; C; D; E], [11; 9; 4; 12], 0x8CC70208%Z);
   ([E; F; G; H; A; B; C; D], [12; 10; 5; 13], 0x90BEFFFA%Z);
   ([D; E; F; G; H; A; B; C], [13; 11; 6; 14], 0xA4506CEB%Z);
   ([C; D; E; F; G; H; A; B], [14; 12; 7; 15], 0xBEF9A3F7%Z);
   ([B; C; D; E; F; G; H; A], [15; 13; 8; 0], 0xC67178F2%Z)]%nat.

(** ** The class *)

Definition sha256_iv : list Z :=
  [0x6A09E667; 0xBB67AE85; 0x3C6EF372; 0xA54FF53A; 0x510E527F; 0x9B05688C; 0x1F83D9AB; 0x5BE0CD19].

Section Class.
Context (little : bool).

(** [init], which leaves the buffer as it is. *)
Definition init (s : sha_state) : sha_state := MkSha sha256_iv 0 0 (Buffer s).
(** The constructor, in memory with the bytes [raw]. *)
Definition SHA256 (raw : list Z) : sha_state := init (MkSha [] 0 0 raw).

Definition hashBlock (st buf : list Z) : list Z * list Z :=
  let '(R, _) := fold_left F_EXPAND expand_lines (st, buffer_words little buf) in
  (zip_with (uadd 32) st R, buf).

Definition sha256_addUncounted (Data : Z) (s : sha_state) : sha_state := addUncounted little hashBlock Data s.
Definition sha256_writebyte (Data : Z) (s : sha_state) : sha_state := writebyte little hashBlock Data s.
Definition sha256_update (Data : list Z) (s : sha_state) : sha_state := update little hashBlock Data s.

(** The length bytes of [pad]: the shift of the 32-bit count is a 32-bit operation. *)
Definition length_bytes (count : Z) : list Z :=
  let len := ushl 32 count 3 in
  [wrap 8 (ushr len 56); wrap 8 (ushr len 48); wrap 8 (ushr len 40); wrap 8 (ushr len 32);
   wrap 8 (ushr len 24); wrap 8 (ushr len 16); wrap 8 (ushr len 8); wrap 8 len].
Definition pad (s : sha_state) : option sha_state := pad_with little hashBlock length_bytes s.

(** [final()]: the digest and the object; [result()] restores the object. *)
Definition final (s : sha_state) : option (list Z * sha_state) := s ← pad s; Some (hash_result little s, s).
Definition result (s : sha_state) : option (list Z * sha_state) := '(h, _) ← final s; Some (h, s).
Definition hash (raw Data : list Z) : option (list Z) := fst <$> final (sha256_update Data (SHA256 raw)).
End Class.

(** ** FIPS 180-4 *)

(** The functions of section 4.1.2 on words as numbers below 2^32: shifts and rotations as divisions and products. *)
Definition fips_shr (n x : Z) : Z := x / 2 ^ n.
Definition fips_rotr (n x : Z) : Z := x / 2 ^ n + x mod 2 ^ n * 2 ^ (32 - n).
Definition fips_ch (x y z : Z) : Z := Z.lor (Z.land x y) (Z.land (2 ^ 32 - 1 - x) z).
Definition fips_maj (x y z : Z) : Z := Z.lor (Z.lor (Z.land x y) (Z.land y z)) (Z.land x z).
Definition fips_Sigma0 (x : Z) : Z := Z.lxor (fips_rotr 2 x) (Z.lxor (fips_rotr 13 x) (fips_rotr 22 x)).
Definition fips_Sigma1 (x : Z) : Z := Z.lxor (fips_rotr 6 x) (Z.lxor (fips_rotr 11 x) (fips_rotr 25 x)).
Definition fips_sigma0 (x : Z) : Z := Z.lxor (fips_rotr 7 x) (Z.lxor (fips_rotr 18 x) (fips_shr 3 x)).
Definition fips_sigma1 (x : Z) : Z := Z.lxor (fips_rotr 17 x) (Z.lxor (fips_rotr 19 x) (fips_shr 10 x)).

(** The first sixty-four primes, and the first 32 bits of the fractional parts of their cube roots. *)
Definition primes64 : list Z := filter (fun p => forallb (fun d => negb (p mod d =? 0)) (filter (fun d => d <? p) ((fun i => Z.of_nat i) <$> seq 2 17)))
  ((fun i => Z.of_nat i) <$> seq 2 310).
(** The cube root, rounded down, of a number below 8^[n]: bit by bit. *)
Fixpoint cube_root (n : nat) (root x : Z) : Z :=
  match n with O => root | S n => let r := root + 2 ^ Z.of_nat n in cube_root n (if r ^ 3 <=? x then r else root) x end.
Definition fips_K : list Z := (fun p => cube_root 35 0 (p * 2 ^ 96) mod 2 ^ 32) <$> primes64.
(** The first 32 bits of the fractional parts of the square roots of the first eight. *)
Definition fips_H0 : list Z := (fun p => Z.sqrt (p * 2 ^ 64) mod 2 ^ 32) <$> take 8 primes64.

(** Sections 6.2.1 and 6.2.2: the message schedule and the rounds. *)
Definition fips_extend (W : list Z) : list Z :=
  let t := length W in
  W ++ [(fips_sigma1 (W !!! (t - 2)%nat) + W !!! (t - 7)%nat + fips_sigma0 (W !!! (t - 15)%nat) + W !!! (t - 16)%nat) mod 2 ^ 32].
Definition fips_round (v : list Z) (k w : Z) : list Z :=
  match v with
  | [a; b; c; d; e; f; g; h] =>
      let T1 := h + fips_Sigma1 e + fips_ch e f g + k + w in
      let T2 := fips_Sigma0 a + fips_maj a b c in
      [(T1 + T2) mod 2 ^ 32; a; b; c; (d + T1) mod 2 ^ 32; e; f; g]
  | _ => v
  end.
Fixpoint fips_rounds (n : nat) (v W : list Z) : list Z :=
  match n with O => v | S n => fips_round (fips_rounds n v W) (fips_K !!! n) (W !!! n) end.
Definition fips_compress (H M : list Z) : list Z := zip_with (fun a b => (a + b) mod 2 ^ 32) H (fips_rounds 64 H (Nat.iter 48 fips_extend M)).

(** ** The same with the functions of the source *)

Section Fips.

(** The message schedule: the words of a block, extended one by one. *)
Definition extend (W : list Z) : list Z :=
  let t := length W in
  W ++ [uadd 32 (uadd 32 (uadd 32 (SIGMA_2 (W !!! (t - 2)%nat)) (W !!! (t - 7)%nat)) (SIGMA_3 (W !!! (t - 15)%nat))) (W !!! (t - 16)%nat)].
Definition schedule (M : list Z) : list Z := Nat.iter 48 extend M.

Definition K256 : list Z := snd <$> expand_lines.

(** One round, on the variables a to h. *)
Definition round (v : list Z) (k w : Z) : list Z :=
  match v with
  | [a; b; c; d; e; f; g; h] =>
      let T1 := uadd 32 (uadd 32 (uadd 32 (uadd 32 h (SIGMA_1 e)) (CH e f g)) k) w in
      let T2 := uadd 32 (SIGMA_0 a) (MAJ a b c) in
      [uadd 32 T1 T2; a; b; c; uadd 32 d T1; e; f; g]
  | _ => v
  end.

Fixpoint rounds (n : nat) (v W : list Z) : list Z :=
  match n with O => v | S n => round (rounds n v W) (K256 !!! n) (W !!! n) end.

Definition sha256_compress (st M : list Z) : list Z := zip_with (uadd 32) st (rounds 64 st (schedule M)).
End Fips.

(** The digest of the standard, the length of the message being written in [l]. *)
Definition sha256_digest (m l : list Z) : list Z := digest fips_compress fips_H0 m l.

(** ** The unrolled lines are the rounds *)

(** The role [i] at line [t] is played by variable [(i + 7 t) mod 8], word [j] of the window by [(t + j) mod 16]. *)
Definition reg (t i : nat) : nat := ((i + 7 * t) mod 8)%nat.
Definition wrd (t j : nat) : nat := ((t + j) mod 16)%nat.
Definition line_args (t : nat) (k : Z) : list nat * list nat * Z :=
  (reg t <$> seq 0 8, [wrd t 0; wrd t 14; wrd t 9; wrd t 1], k).

Lemma expand_lines_args : expand_lines = (fun t => line_args t (K256 !!! t)) <$> seq 0 64.
Proof. by vm_compute. Qed.

Definition view_regs (t : nat) (R : list Z) : list Z := (fun i => R !!! reg t i) <$> seq 0 8.
Definition view_words (t : nat) (W : list Z) : list Z := (fun j => W !!! wrd t j) <$> seq 0 16.

Lemma sha256_reg_mod t i : reg t i = reg (t mod 16) i.
Proof.
  unfold reg. rewrite (Nat.div_mod_eq t 16) at 1. replace (i + 7 * (16 * (t / 16) + t mod 16))%nat with (i + 7 * (t mod 16) + (14 * (t / 16)) * 8)%nat by lia.
  by rewrite Nat.Div0.mod_add.
Qed.

Lemma reg_mod_S t i : reg (S t) i = reg (S (t mod 16)) i.
Proof.
  unfold reg. rewrite (Nat.div_mod_eq t 16) at 1.
  replace (i + 7 * S (16 * (t / 16) + t mod 16))%nat with (i + 7 * S (t mod 16) + (14 * (t / 16)) * 8)%nat by lia. by rewrite Nat.Div0.mod_add.
Qed.

Lemma sha256_wrd_mod t j : wrd t j = wrd (t mod 16) j.
Proof.
  unfold wrd. rewrite (Nat.div_mod_eq t 16) at 1. replace (16 * (t / 16) + t mod 16 + j)%nat with (t mod 16 + j + t / 16 * 16)%nat by lia.
  by rewrite Nat.Div0.mod_add.
Qed.

Lemma wrd_mod_S t j : wrd (S t) j = wrd (S (t mod 16)) j.
Proof.
  unfold wrd. rewrite (Nat.div_mod_eq t 16) at 1. replace (S (16 * (t / 16) + t mod 16) + j)%nat with (S (t mod 16) + j + t / 16 * 16)%nat by lia.
  by rewrite Nat.Div0.mod_add.
Qed.

(** The sum of the source and the one of the standard. *)
Lemma uadd_T1 h s c w k : uadd 32 h (uadd 32 (uadd 32 (uadd 32 s c) w) k) = uadd 32 (uadd 32 (uadd 32 (uadd 32 h s) c) k) w.
Proof. unfold uadd at 1 5. apply wrap_proper. cong_strip. apply cong_intro with 0. ring. Qed.

Definition next_word (v : list Z) : Z :=
  uadd 32 (v !!! 0%nat) (uadd 32 (uadd 32 (SIGMA_2 (v !!! 14%nat)) (v !!! 9%nat)) (SIGMA_3 (v !!! 1%nat))).

Lemma uadd_next w s m e : uadd 32 w (uadd 32 (uadd 32 s m) e) = uadd 32 (uadd 32 (uadd 32 s m) e) w.
Proof. unfold uadd. by rewrite Z.add_comm. Qed.

Lemma F_EXPAND_line s k R W : (s < 16)%nat -> length R = 8%nat -> length W = 16%nat ->
  let '(R', W') := F_EXPAND (R, W) (line_args s k) in
  view_regs (S s) R' = round (view_regs s R) k (W !!! wrd s 0) /\
  view_words (S s) W' = drop 1 (view_words s W) ++ [next_word (view_words s W)] /\ length R' = 8%nat /\ length W' = 16%nat.
Proof.
  intros Hs HR HW. do 8 (destruct R as [|? R]; [done|]). destruct R; [|done]. do 16 (destruct W as [|? W]; [done|]). destruct W; [|done].
  do 16 (destruct s as [|s]; [lazy -[uadd SIGMA_0 SIGMA_1 SIGMA_2 SIGMA_3 CH MAJ]; rewrite uadd_T1; split_and!; reflexivity|]). lia.
Qed.

(** *** The window is the schedule *)

Lemma sha256_length_extend n M : length (Nat.iter n extend M) = (length M + n)%nat.
Proof. induction n as [|n IH]; [cbn; lia|]. rewrite Nat.iter_succ. unfold extend at 1. rewrite length_app, IH. cbn. lia. Qed.

Lemma sha256_extend_prefix n j M k : (k < length M + n)%nat -> Nat.iter (n + j) extend M !!! k = Nat.iter n extend M !!! k.
Proof.
  intros Hk. induction j as [|j IH]; [by rewrite Nat.add_0_r|]. rewrite Nat.add_succ_r, Nat.iter_succ. unfold extend at 1.
  rewrite !list_lookup_total_alt in *. rewrite lookup_app_l by (rewrite sha256_length_extend; lia). exact IH.
Qed.

Lemma sha256_extend_step n M : length M = 16%nat ->
  drop (S n) (Nat.iter (S n) extend M) = drop 1 (drop n (Nat.iter n extend M)) ++ [next_word (drop n (Nat.iter n extend M))].
Proof.
  intros HM. rewrite Nat.iter_succ. set (S_ := Nat.iter n extend M). assert (HS : length S_ = (16 + n)%nat) by (subst S_; rewrite sha256_length_extend; lia).
  unfold extend. rewrite HS, drop_app_le, drop_drop by lia. rewrite (Nat.add_comm n 1). f_equal. f_equal. unfold next_word.
  rewrite !lookup_total_drop, uadd_next. repeat f_equal; lia.
Qed.

Lemma schedule_lookup n M : length M = 16%nat -> (n < 64)%nat -> schedule M !!! n = Nat.iter n extend M !!! n.
Proof.
  intros HM Hn. unfold schedule. destruct (decide (n <= 48)%nat) as [Hle|Hgt].
  - replace 48%nat with (n + (48 - n))%nat by lia. apply sha256_extend_prefix. lia.
  - pose proof (sha256_extend_prefix 48 (n - 48) M n ltac:(lia)) as E. replace (48 + (n - 48))%nat with n in E by lia. by rewrite E.
Qed.

Lemma view_0 {R n} (f : nat -> nat) : length R = n -> (forall i, (i < n)%nat -> f i = i) -> ((fun i => R !!! f i) <$> seq 0 n) = R :> list Z.
Proof.
  intros HR Hf. apply list_eq. intros i. destruct (decide (i < n)%nat) as [Hi|Hi].
  - rewrite list_lookup_fmap, lookup_seq_lt by done. cbn. rewrite Hf by done. symmetry. apply list_lookup_lookup_total_lt. lia.
  - rewrite !lookup_ge_None_2; [done|lia|rewrite length_fmap, length_seq; lia].
Qed.

Lemma sha256_lines_rounds st M n : length st = 8%nat -> length M = 16%nat -> (n <= 64)%nat ->
  let '(R, W) := fold_left F_EXPAND ((fun t => line_args t (K256 !!! t)) <$> seq 0 n) (st, M) in
  view_regs n R = rounds n st (schedule M) /\ view_words n W = drop n (Nat.iter n extend M) /\ length R = 8%nat /\ length W = 16%nat.
Proof.
  intros Hst HM. induction n as [|n IH]; intros Hn.
  { cbn -[view_regs view_words]. split_and!; [|by apply view_0; [done|]; intros i Hi; unfold wrd; rewrite Nat.mod_small|done|done].
    apply view_0; [done|]. intros i Hi. unfold reg. rewrite Nat.mul_0_r, Nat.add_0_r. by apply Nat.mod_small. }
  specialize (IH ltac:(lia)). rewrite seq_S, fmap_app, fold_left_app. cbn [fmap list_fmap fold_left Nat.add].
  destruct (fold_left F_EXPAND _ (st, M)) as [R W]. destruct IH as (E1 & E2 & HR & HW).
  pose proof (Nat.mod_upper_bound n 16 ltac:(lia)) as Hs.
  pose proof (F_EXPAND_line (n mod 16) (K256 !!! n) R W Hs HR HW) as H.
  assert (Ea : line_args (n mod 16) (K256 !!! n) = line_args n (K256 !!! n)).
  { unfold line_args. rewrite <- !sha256_wrd_mod. f_equal. f_equal. apply list_fmap_ext. intros i x _. by rewrite <- sha256_reg_mod. }
  rewrite Ea in H. destruct (F_EXPAND (R, W) (line_args n (K256 !!! n))) as [R' W'].
  assert (Ev : forall V, view_regs (n mod 16) V = view_regs n V) by (intros V; apply list_fmap_ext; intros i x _; by rewrite <- sha256_reg_mod).
  assert (Ev' : forall V, view_regs (S (n mod 16)) V = view_regs (S n) V) by (intros V; apply list_fmap_ext; intros i x _; by rewrite <- reg_mod_S).
  assert (Ew : forall V, view_words (n mod 16) V = view_words n V) by (intros V; apply list_fmap_ext; intros i x _; by rewrite <- sha256_wrd_mod).
  assert (Ew' : forall V, view_words (S (n mod 16)) V = view_words (S n) V) by (intros V; apply list_fmap_ext; intros i x _; by rewrite <- wrd_mod_S).
  rewrite Ev, Ev', Ew, Ew', <- sha256_wrd_mod in H. destruct H as (H1 & H2 & H3 & H4). split_and!; [|by rewrite H2, E2, sha256_extend_step|done|done].
  rewrite H1, E1. cbn [rounds]. f_equal. rewrite schedule_lookup by (done || lia).
  transitivity (view_words n W !!! 0%nat); [done|]. rewrite E2, lookup_total_drop. by rewrite Nat.add_0_r.
Qed.

(** The block function of the source is the one of the standard. *)
Lemma sha256_hashBlock_compress little st buf : length st = 8%nat ->
  hashBlock little st buf = (sha256_compress st (buffer_words little buf), buf).
Proof.
  intros Hst. unfold hashBlock, sha256_compress. rewrite expand_lines_args.
  assert (HM : length (buffer_words little buf) = 16%nat) by (unfold buffer_words; by rewrite length_fmap, length_seq).
  pose proof (sha256_lines_rounds st (buffer_words little buf) 64 Hst HM ltac:(lia)) as H.
  destruct (fold_left F_EXPAND _ _) as [R W]. destruct H as (<- & _ & HR & _). f_equal. f_equal.
  symmetry. apply view_0; [done|]. intros i Hi. unfold reg. replace (i + 7 * 64)%nat with (i + 56 * 8)%nat by lia.
  rewrite Nat.Div0.mod_add. by apply Nat.mod_small.
Qed.

(** ** The functions of the source are those of the standard *)

Definition word (x : Z) : Prop := 0 <= x < 2 ^ 32.

Lemma rotr_word x n : word x -> 0 < n < 32 -> ROTR x n = fips_rotr n x.
Proof.
  intros Hx Hn. unfold ROTR, fips_rotr, ushl. rewrite ushr_val, Z.shiftl_mul_pow2 by lia. unfold wrap.
  replace (2 ^ 32) with (2 ^ n * 2 ^ (32 - n)) by (rewrite <- Z.pow_add_r by lia; f_equal; lia). assert (0 < 2 ^ n /\ 0 < 2 ^ (32 - n)) as [H1 H2] by (split; apply Z.pow_pos_nonneg; lia).
  rewrite Z.mul_mod_distr_r by lia. rewrite Z.lor_comm, lor_shiftl_add; [lia|lia|]. split; [apply Z.div_pos; unfold word in Hx; lia|].
  apply Z.div_lt_upper_bound; [lia|]. rewrite <- Z.pow_add_r by lia. replace (n + (32 - n)) with 32 by lia. apply Hx.
Qed.
Lemma sigmas_word x : word x -> SIGMA_0 x = fips_Sigma0 x /\ SIGMA_1 x = fips_Sigma1 x /\ SIGMA_2 x = fips_sigma1 x /\ SIGMA_3 x = fips_sigma0 x.
Proof.
  intros Hx. unfold SIGMA_0, SIGMA_1, SIGMA_2, SIGMA_3, fips_Sigma0, fips_Sigma1, fips_sigma0, fips_sigma1, SHR, fips_shr.
  rewrite !rotr_word, !ushr_val, !Z.lxor_assoc by (done || lia). done.
Qed.
Lemma ch_word x y z : word x -> CH x y z = fips_ch x y z.
Proof.
  intros Hx. unfold CH, fips_ch. rewrite <- (unot_val 32) by (done || lia). apply Z.bits_inj'. intros i Hi. rewrite Z.lxor_spec, Z.lor_spec, !Z.land_spec.
  unfold unot, wrap. rewrite testbit_mod_pow2, Z.lnot_spec by lia. by destruct (Z.testbit x i), (Z.testbit y i), (Z.testbit z i), (i <? 32).
Qed.
Lemma maj_word x y z : MAJ x y z = fips_maj x y z.
Proof. apply Z.bits_inj'. intros i Hi. unfold MAJ, fips_maj. rewrite !Z.lxor_spec, !Z.lor_spec, !Z.land_spec. by destruct (Z.testbit x i), (Z.testbit y i), (Z.testbit z i). Qed.


(** The words stay words. *)
Lemma round_fips v k w : Forall word v -> round v k w = fips_round v k w /\ Forall word (fips_round v k w).
Proof.
  intros Hv. do 8 (destruct v as [|? v]; [done|]). destruct v; [|done]. rewrite !Forall_cons_iff in Hv. destruct Hv as (Ha & Hb & Hc & Hd & He & Hf & Hg & Hh & _).
  assert (forall x, word (x mod 2 ^ 32)) as Hmod by (intros x; apply Z.mod_pos_bound; lia). cbn [round fips_round].
  split; [|repeat (constructor; [first [apply Hmod|assumption]|]); constructor].
  rewrite (proj1 (sigmas_word _ Ha)), (proj1 (proj2 (sigmas_word _ He))), (ch_word _ _ _ He), maj_word. fold (wrap 32).
  f_equal; [|do 4 f_equal]; apply wrap_proper; cong_strip; apply cong_intro with 0; ring.
Qed.
Lemma lookup_word W i : Forall word W -> (i < length W)%nat -> word (W !!! i).
Proof. intros HW Hi. rewrite list.Forall_lookup in HW. eapply HW. by apply list_lookup_lookup_total_lt. Qed.
Lemma extend_fips W : Forall word W -> (16 <= length W)%nat -> extend W = fips_extend W /\ Forall word (fips_extend W) /\ length (fips_extend W) = S (length W).
Proof.
  intros HW Hl. unfold extend, fips_extend. cbv zeta. set (t := length W) in *.
  assert (word (W !!! (t - 2)%nat) /\ word (W !!! (t - 15)%nat)) as [H2 H15] by (split; apply lookup_word; (done || (fold t; lia))).
  rewrite (proj1 (proj2 (proj2 (sigmas_word _ H2)))), (proj2 (proj2 (proj2 (sigmas_word _ H15)))). split; [|split].
  - f_equal. f_equal. fold (wrap 32 (fips_sigma1 (W !!! (t - 2)%nat) + W !!! (t - 7)%nat + fips_sigma0 (W !!! (t - 15)%nat) + W !!! (t - 16)%nat)).
    apply wrap_proper. cong_strip. apply cong_intro with 0. ring.
  - apply Forall_app. split; [done|]. constructor; [|constructor]. apply Z.mod_pos_bound. lia.
  - rewrite length_app. cbn [length]. fold t. lia.
Qed.
Lemma schedule_fips n M : Forall word M -> length M = 16%nat ->
  Nat.iter n extend M = Nat.iter n fips_extend M /\ Forall word (Nat.iter n fips_extend M) /\ length (Nat.iter n fips_extend M) = (16 + n)%nat.
Proof.
  intros HM Hl. induction n as [|n (E & Hw & Hn)]; [split; [done|]; split; [done|]; change (Nat.iter 0 fips_extend M) with M; lia|]. rewrite !Nat.iter_succ, E.
  destruct (extend_fips _ Hw ltac:(lia)) as (E' & Hw' & Hn'). split; [done|]. split; [done|]. rewrite Hn', Hn. lia.
Qed.
Lemma constants_fips : K256 = fips_K /\ sha256_iv = fips_H0.
Proof. split; vm_compute; reflexivity. Qed.
Lemma rounds_fips n v W : Forall word v -> rounds n v W = fips_rounds n v W /\ Forall word (fips_rounds n v W).
Proof.
  intros Hv. induction n as [|n (E & Hw)]; [done|]. cbn [rounds fips_rounds]. rewrite E, (proj1 constants_fips). by apply round_fips.
Qed.
Lemma compress_fips st M : Forall word st -> Forall word M -> length M = 16%nat -> sha256_compress st M = fips_compress st M.
Proof.
  intros Hst HM Hl. unfold sha256_compress, fips_compress, schedule. rewrite (proj1 (schedule_fips 48 M HM Hl)), (proj1 (rounds_fips 64 st _ Hst)). done.
Qed.
Lemma buffer_word_range little buf : length buf = 64%nat -> Forall byte_ok buf -> Forall word (buffer_words little buf) /\ length (buffer_words little buf) = 16%nat.
Proof.
  intros Hl Hb. split; [|unfold buffer_words; by rewrite length_fmap, length_seq]. rewrite buffer_words_logical by done. assert (Forall byte_ok (logical little buf)) as Hb' by by apply logical_ok.
  unfold be_words. apply Forall_fmap. apply List.Forall_forall. intros i Hi. rewrite length_logical in Hi. change (64 / 4)%nat with 16%nat in Hi. apply in_seq in Hi. cbn.
  assert (Forall byte_ok (take 4 (drop (4 * i) (logical little buf)))) as Hw by (by apply Forall_take, Forall_drop).
  pose proof (le_combine_range _ (Forall_rev_bytes _ Hw)) as Hr. rewrite length_rev, length_take, length_drop, length_logical in Hr. replace (4 `min` (64 - 4 * i))%nat with 4%nat in Hr by lia. exact Hr.
Qed.

(** ** The stream interface *)

Definition sha256_ok (st : list Z) : Prop := length st = 8%nat /\ Forall (fun w => 0 <= w < 2 ^ 32) st.

Lemma sha256_length_round v k w : length v = 8%nat -> length (round v k w) = 8%nat.
Proof. intros Hv. do 8 (destruct v as [|? v]; [done|]). by destruct v. Qed.

Lemma sha256_length_rounds n v W : length v = 8%nat -> length (rounds n v W) = 8%nat.
Proof. intros Hv. induction n as [|n IH]; [done|]. cbn [rounds]. by apply sha256_length_round. Qed.

Lemma sha256_compress_ok st M : sha256_ok st -> sha256_ok (sha256_compress st M).
Proof.
  intros (Hl & _). split; [|apply zip_uadd_range]. unfold sha256_compress. rewrite length_zip_with, sha256_length_rounds, Hl by done. done.
Qed.

Lemma sha256_block_spec little st buf : sha256_ok st -> length buf = 64%nat -> Forall byte_ok buf ->
  fst (hashBlock little st buf) = fips_compress st (buffer_words little buf) /\ sha256_ok (fst (hashBlock little st buf)) /\
  length (snd (hashBlock little st buf)) = 64%nat /\ Forall byte_ok (snd (hashBlock little st buf)).
Proof.
  intros Hst Hl Hb. rewrite sha256_hashBlock_compress by apply Hst. cbn [fst snd]. destruct (buffer_word_range little buf Hl Hb) as [Hw Hn].
  split_and!; [apply compress_fips; [apply Hst|done|done]|by apply sha256_compress_ok..|done|done].
Qed.

Lemma sha256_iv_ok : sha256_ok fips_H0.
Proof. rewrite <- (proj2 constants_fips). split; [done|]. unfold sha256_iv. repeat constructor; lia. Qed.

Lemma sha256_length_bytes_val count : length_bytes count = rev (le_bytes 8 (ushl 32 count 3)).
Proof.
  unfold length_bytes. set (len := ushl 32 count 3). replace (le_bytes 8 len) with (le_bytes 8 (len / 2 ^ 0)) by (by rewrite Z.div_1_r).
  rewrite !le_bytes_nth by lia. unfold nth_byte. cbn [le_bytes rev app]. rewrite !ushr_val by lia. rewrite Z.div_1_r. done.
Qed.

(** The state after a list of updates. *)
Definition sha256_updates (little : bool) (raw : list Z) (datas : list (list Z)) : sha_state :=
  fold_left (fun s d => sha256_update little d s) datas (SHA256 raw).

Lemma sha256_final_updates little raw datas : length raw = 64%nat -> Forall byte_ok raw -> Forall (Forall byte_ok) datas ->
  exists s', final little (sha256_updates little raw datas) =
    Some (sha256_digest (concat datas) (length_bytes (wrap 32 (Z.of_nat (length (concat datas))))), s').
Proof.
  intros Hl Hb Hd. destruct (updates_ok little (hashBlock little) fips_compress sha256_ok fips_H0 sha256_iv_ok (sha256_block_spec little) datas (SHA256 raw))
    as (Hs & Hn); [done|done|]. change (Digest.updates little (hashBlock little) datas (SHA256 raw)) with (sha256_updates little raw datas) in *.
  destruct (digest_ok little (hashBlock little) fips_compress sha256_ok fips_H0 (sha256_block_spec little) (fun st H => proj2 H) length_bytes _ _ Hs)
    as (s' & E & Hr).
  { by rewrite sha256_length_bytes_val, length_rev, length_le_bytes. } { rewrite sha256_length_bytes_val. apply Forall_rev_bytes, le_bytes_ok. }
  exists s'. unfold final, pad. rewrite E. cbn [mbind option_bind]. by rewrite Hr, Hn.
Qed.

(** ** Properties *)

(** C27: the block function of SHA-256: the sixty-four unrolled lines, with their rotating variables
    and sixteen words updated in place, compute the compression function of FIPS 180-4 on the big-endian words of the
    block, in host memory of either byte order. The standard is written apart from the code: shifts and rotations as divisions,
    Ch and Maj as choices by bits, the message schedule of sixty-four words, one round each, and as constants the
    fractional parts of the square roots of the first eight primes (the initial words) and of the cube roots of the first
    sixty-four. *)
Theorem sha256_block_correct little st blk : length st = 8%nat -> Forall word st -> length blk = 64%nat -> Forall byte_ok blk ->
  fst (hashBlock little st (logical little blk)) = fips_compress st (be_words blk) /\ sha256_iv = fips_H0 /\ length fips_K = 64%nat.
Proof.
  intros Hst Hw Hl Hb. split; [|split; [apply constants_fips|by rewrite <- (proj1 constants_fips)]].
  assert (length (logical little blk) = 64%nat) as Hll by (by rewrite length_logical). destruct (sha256_block_spec little st (logical little blk) (conj Hst Hw) Hll) as [-> _]; [by apply logical_ok|].
  f_equal. rewrite buffer_words_logical by done. by rewrite logical_involutive.
Qed.

Lemma sha256_block_correct_witness :
  fst (hashBlock true sha256_iv (logical true (0x80 :: replicate 63 0))) = fips_compress sha256_iv (be_words (0x80 :: replicate 63 0)) /\
  List.hd 0 (fst (hashBlock true sha256_iv (logical true (0x80 :: replicate 63 0)))) = 0xe3b0c442.
Proof.
  split; [|by vm_compute].
  apply (sha256_block_correct true sha256_iv (0x80 :: replicate 63 0)); [done|rewrite (proj2 constants_fips); apply sha256_iv_ok|done|]. constructor; [unfold byte_ok; lia|].
  apply Forall_replicate. unfold byte_ok. lia.
Defined.

(** C28: SHA-256 of a stream: after any list of updates, of any sizes, [final] gives the digest of the
    concatenated bytes and [result] the same without changing the object; [hash] is a
    single update. The length field is that of the standard below 2^29 bytes; from there on the 32-bit
    shift loses its upper bits, and the digest is computed with another length. *)
Theorem sha256_stream_correct little raw datas : length raw = 64%nat -> Forall byte_ok raw -> Forall (Forall byte_ok) datas ->
  let m := concat datas in let n := Z.of_nat (length m) in let s := sha256_updates little raw datas in
  (exists s', final little s = Some (sha256_digest m (length_bytes (wrap 32 n)), s')) /\
  result little s = Some (sha256_digest m (length_bytes (wrap 32 n)), s) /\
  hash little raw m = Some (sha256_digest m (length_bytes (wrap 32 n))) /\
  (n < 2 ^ 29 -> length_bytes (wrap 32 n) = rev (le_bytes 8 (8 * n))) /\
  (2 ^ 29 <= n < 2 ^ 61 -> length_bytes (wrap 32 n) <> rev (le_bytes 8 (8 * n))).
Proof.
  intros Hl Hb Hd m n s. destruct (sha256_final_updates little raw datas Hl Hb Hd) as (s' & E). fold m n s in E. split_and!.
  - by exists s'.
  - unfold result. by rewrite E.
  - assert (Hd1 : Forall (Forall byte_ok) [m]) by (constructor; [by apply Forall_concat|done]).
    destruct (sha256_final_updates little raw [m] Hl Hb Hd1) as (s1 & E1). cbn [concat] in E1. rewrite app_nil_r in E1.
    unfold hash. change (sha256_update little m (SHA256 raw)) with (sha256_updates little raw [m]). by rewrite E1.
  - intros Hlt. rewrite sha256_length_bytes_val, ushl_val, (wrap_small 32 n), wrap_small by lia. f_equal. f_equal. lia.
  - intros Hge Eq. rewrite sha256_length_bytes_val in Eq. apply (f_equal (fun l => le_combine (rev l))) in Eq. rewrite !rev_involutive in Eq.
    rewrite ushl_val, wrap_mul_l in Eq by lia. pose proof (wrap_range 32 (n * 2 ^ 3) ltac:(lia)) as Hr.
    rewrite !le_combine_bytes in Eq by lia. lia.
Qed.

Lemma sha256_stream_correct_witness :
  result true (sha256_updates true (replicate 64 0) [[97]; []; [98; 99]]) = Some (sha256_digest [97; 98; 99] (length_bytes (wrap 32 3)), sha256_updates true (replicate 64 0) [[97]; []; [98; 99]]) /\
  take 4 (sha256_digest [97; 98; 99] (length_bytes (wrap 32 3))) = [0xba; 0x78; 0x16; 0xbf].
Proof.
  split; [|by vm_compute].
  destruct (sha256_stream_correct true (replicate 64 0) [[97]; []; [98; 99]]) as (_ & E & _); [done| | |exact E].
  - apply Forall_replicate. unfold byte_ok. lia.
  - repeat constructor; lia.
Defined.
