(* ===== verification/Sha1.v ===== *)
(** * SHA-1 (crypto/sha1.h, crypto/sha1.cc)

    The eighty unrolled lines of [hashBlock], on five variables that change roles and on the sixteen
    words of the buffer, overwritten in place, against the block function of FIPS 180-4;
    the stream interface against the hash of the whole message. The buffering is that of Digest.v. *)
From S2P Require Import Prelude Words Bits Endian Digest.

(** ** The helpers of the source, on 32-bit words *)

Definition rol (Number Bits : Z) : Z := Z.lor (ushl 32 Number Bits) (ushr Number (32 - Bits)).

Definition blk0 (Buf : list Z) (I : nat) : Z * list Z := (Buf !!! I, Buf).

(** [blk] replaces the word it computes from. *)
Definition blk (Buf : list Z) (I : nat) : Z * list Z :=
  let w := rol (Z.lxor (Z.lxor (Z.lxor (Buf !!! Nat.land (I + 13) 15) (Buf !!! Nat.land (I + 8) 15)) (Buf !!! Nat.land (I + 2) 15))
                 (Buf !!! Nat.land I 15)) 1 in
  (w, <[Nat.land I 15 := w]> Buf).

(** The five kinds of lines: the word, the function of B, C and D, and the constant. *)
Inductive line_kind := R0 | R1 | R2 | R3 | R4.

Definition line_word (r : line_kind) (Buf : list Z) (I : nat) : Z * list Z :=
  match r with R0 => blk0 Buf I | R1 | R2 | R3 | R4 => blk Buf I end.
Definition line_fun (r : line_kind) (B C D : Z) : Z :=
  match r with
  | R0 | R1 => Z.lxor (Z.land B (Z.lxor C D)) D
  | R2 => Z.lxor (Z.lxor B C) D
  | R3 => Z.lor (Z.land (Z.lor B C) D) (Z.land B C)
  | R4 => Z.lxor (Z.lxor B C) D
  end.
Definition line_const (r : line_kind) : Z :=
  match r with R0 | R1 => 0x5A827999 | R2 => 0x6ED9EBA1 | R3 => 0x8F1BBCDC | R4 => 0xCA62C1D6 end.

(** A line [r(A, B, C, D, E, I, Buf)] on the variables [R], given by their numbers. *)
Definition run_line (s : list Z * list Z) (line : line_kind * list nat * nat) : list Z * list Z :=
  let '(R, Buf) := s in
  match line with
  | (r, [A; B; C; D; E], i) =>
      let '(w, Buf) := line_word r Buf i in
      let R := <[E := uadd 32 (R !!! E) (uadd 32 (uadd 32 (uadd 32 (line_fun r (R !!! B) (R !!! C) (R !!! D)) w) (line_const r)) (rol (R !!! A) 5))]> R in
      let R := <[B := rol (R !!! B) 30]> R in
      (R, Buf)
  | _ => (R, Buf)
  end.

Definition hash_lines : list (line_kind * list nat * nat) :=
  let A := 0%nat in let B := 1%nat in let C := 2%nat in let D := 3%nat in let E := 4%nat in [
   (R0, [A; B; C; D; E], 0); (R0, [E; A; B; C; D], 1);
   (R0, [D; E; A; B; C], 2); (R0, [C; D; E; A; B], 3);
   (R0, [B; C; D; E; A], 4); (R0, [A; B; C; D; E], 5);
   (R0, [E; A; B; C; D], 6); (R0, [D; E; A; B; C], 7);
   (R0, [C; D; E; A; B], 8); (R0, [B; C; D; E; A], 9);
   (R0, [A; B; C; D; E], 10); (R0, [E; A; B; C; D], 11);
   (R0, [D; E; A; B; C], 12); (R0, [C; D; E; A; B], 13);
   (R0, [B; C; D; E; A], 14); (R0, [A; B; C; D; E], 15);
   (R1, [E; A; B; C; D], 16); (R1, [D; E; A; B; C], 17);
   (R1, [C; D; E; A; B], 18); (R1, [B; C; D; E; A], 19);
   (R2, [A; B; C; D; E], 20); (R2, [E; A; B; C; D], 21);
   (R2, [D; E; A; B; C], 22); (R2, [C; D; E; A; B], 23);
   (R2, [B; C; D; E; A], 24); (R2, [A; B; C; D; E], 25);
   (R2, [E; A; B; C; D], 26); (R2, [D; E; A; B; C], 27);
   (R2, [C; D; E; A; B], 28); (R2, [B; C; D; E; A], 29);
   (R2, [A; B; C; D; E], 30); (R2, [E; A; B; C; D], 31);
   (R2, [D; E; A; B; C], 32); (R2, [C; D; E; A; B], 33);
   (R2, [B; C; D; E; A], 34); (R2, [A; B; C; D; E], 35);
   (R2, [E; A; B; C; D], 36); (R2, [D; E; A; B; C], 37);
   (R2, [C; D; E; A; B], 38); (R2, [B; C; D; E; A], 39);
   (R3, [A; B; C; D; E], 40); (R3, [E; A; B; C; D], 41);
   (R3, [D; E; A; B; C], 42); (R3, [C; D; E; A; B], 43);
   (R3, [B; C; D; E; A], 44); (R3, [A; B; C; D; E], 45);
   (R3, [E; A; B; C; D], 46); (R3, [D; E; A; B; C], 47);
   (R3, [C; D; E; A; B], 48); (R3, [B; C; D; E; A], 49);
   (R3, [A; B; C; D; E], 50); (R3, [E; A; B; C; D], 51);
   (R3, [D; E; A; B; C], 52); (R3, [C; D; E; A; B], 53);
   (R3, [B; C; D; E; A], 54); (R3, [A; B; C; D; E], 55);
   (R3, [E; A; B; C; D], 56); (R3, [D; E; A; B; C], 57);
   (R3, [C; D; E; A; B], 58); (R3, [B; C; D; E; A], 59);
   (R4, [A; B; C; D; E], 60); (R4, [E; A; B; C; D], 61);
   (R4, [D; E; A; B; C], 62); (R4, [C; D; E; A; B], 63);
   (R4, [B; C; D; E; A], 64); (R4, [A; B; C; D; E], 65);
   (R4, [E; A; B; C; D], 66); (R4, [D; E; A; B; C], 67);
   (R4, [C; D; E; A; B], 68); (R4, [B; C; D; E; A], 69);
   (R4, [A; B; C; D; E], 70); (R4, [E; A; B; C; D], 71);
   (R4, [D; E; A; B; C], 72); (R4, [C; D; E; A; B], 73);
   (R4, [B; C; D; E; A], 74); (R4, [A; B; C; D; E], 75);
   (R4, [E; A; B; C; D], 76); (R4, [D; E; A; B; C], 77);
   (R4, [C; D; E; A; B], 78); (R4, [B; C; D; E; A], 79)]%nat.

(** ** The class *)

Definition sha1_iv : list Z := [0x67452301; 0xefcdab89; 0x98badcfe; 0x10325476; 0xc3d2e1f0].

Section Class.
Context (little : bool).

(** [init], which leaves the buffer as it is. *)
Definition init (s : sha_state) : sha_state := MkSha sha1_iv 0 0 (Buffer s).
(** The constructor, in memory with the bytes [raw]. *)
Definition SHA1 (raw : list Z) : sha_state := init (MkSha [] 0 0 raw).

(** The words of the buffer are overwritten. *)
Definition hashBlock (st buf : list Z) : list Z * list Z :=
  let '(R, W) := fold_left run_line hash_lines (st, buffer_words little buf) in
  (zip_with (uadd 32) st R, concat (UnalignedStore little 4 <$> W)).

Definition sha1_addUncounted (Data : Z) (s : sha_state) : sha_state := addUncounted little hashBlock Data s.
Definition sha1_writebyte (Data : Z) (s : sha_state) : sha_state := writebyte little hashBlock Data s.
Definition sha1_update (Data : list Z) (s : sha_state) : sha_state := update little hashBlock Data s.

Definition length_bytes (count : Z) : list Z :=
  [0; 0; 0; wrap 8 (ushr count 29); wrap 8 (ushr count 21); wrap 8 (ushr count 13); wrap 8 (ushr count 5); wrap 8 (ushl 32 count 3)].
Definition pad (s : sha_state) : option sha_state := pad_with little hashBlock length_bytes s.

(** [final()]: the digest and the object; [result()] restores the object. *)
Definition final (s : sha_state) : option (list Z * sha_state) := s ← pad s; Some (hash_result little s, s).
Definition result (s : sha_state) : option (list Z * sha_state) := '(h, _) ← final s; Some (h, s).
Definition hash (raw Data : list Z) : option (list Z) := fst <$> final (sha1_update Data (SHA1 raw)).
End Class.

(** ** FIPS 180-4 *)

Definition extend (W : list Z) : list Z :=
  let t := length W in
  W ++ [rol (Z.lxor (Z.lxor (Z.lxor (W !!! (t - 3)%nat) (W !!! (t - 8)%nat)) (W !!! (t - 14)%nat)) (W !!! (t - 16)%nat)) 1].
Definition schedule (M : list Z) : list Z := Nat.iter 64 extend M.

Definition Ch (x y z : Z) : Z := Z.lxor (Z.land x y) (Z.land (Z.lnot x) z).
Definition Parity (x y z : Z) : Z := Z.lxor (Z.lxor x y) z.
Definition Maj (x y z : Z) : Z := Z.lxor (Z.lxor (Z.land x y) (Z.land x z)) (Z.land y z).

Definition fips_f (t : nat) : Z -> Z -> Z -> Z :=
  if decide (t < 20)%nat then Ch else if decide (t < 40)%nat then Parity else if decide (t < 60)%nat then Maj else Parity.
Definition fips_K (t : nat) : Z :=
  if decide (t < 20)%nat then 0x5a827999 else if decide (t < 40)%nat then 0x6ed9eba1 else if decide (t < 60)%nat then 0x8f1bbcdc else 0xca62c1d6.

Definition round (t : nat) (v : list Z) (w : Z) : list Z :=
  match v with
  | [a; b; c; d; e] =>
      let T := uadd 32 (uadd 32 (uadd 32 (uadd 32 (rol a 5) (fips_f t b c d)) e) (fips_K t)) w in
      [T; a; rol b 30; c; d]
  | _ => v
  end.

Fixpoint rounds (n : nat) (v W : list Z) : list Z :=
  match n with O => v | S n => round n (rounds n v W) (W !!! n) end.

Definition sha1_compress (st M : list Z) : list Z := zip_with (uadd 32) st (rounds 80 st (schedule M)).

(** The digest of the standard, the length of the message being written in [l]. *)
Definition sha1_digest (m l : list Z) : list Z := digest sha1_compress sha1_iv m l.

(** ** The unrolled lines are the rounds *)

Definition reg (t i : nat) : nat := ((i + 4 * t) mod 5)%nat.
Definition wrd (t j : nat) : nat := ((t + j) mod 16)%nat.
Definition kind (t : nat) : line_kind :=
  if decide (t < 16)%nat then R0 else if decide (t < 20)%nat then R1 else if decide (t < 40)%nat then R2 else if decide (t < 60)%nat then R3 else R4.

Lemma hash_lines_args : hash_lines = (fun t => (kind t, reg t <$> seq 0 5, t)) <$> seq 0 80.
Proof. by vm_compute. Qed.

Definition view_regs (t : nat) (R : list Z) : list Z := (fun i => R !!! reg t i) <$> seq 0 5.
Definition view_words (t : nat) (W : list Z) : list Z := (fun j => W !!! wrd t j) <$> seq 0 16.

Lemma sha1_reg_mod t i : reg t i = reg (t mod 5) i /\ reg (S t) i = reg (S (t mod 5)) i.
Proof.
  unfold reg. rewrite (Nat.div_mod_eq t 5) at 1 3.
  replace (i + 4 * (5 * (t / 5) + t mod 5))%nat with (i + 4 * (t mod 5) + (4 * (t / 5)) * 5)%nat by lia.
  replace (i + 4 * S (5 * (t / 5) + t mod 5))%nat with (i + 4 * S (t mod 5) + (4 * (t / 5)) * 5)%nat by lia. by rewrite !Nat.Div0.mod_add.
Qed.

Lemma sha1_wrd_mod t j : wrd t j = wrd (t mod 16) j /\ wrd (S t) j = wrd (S (t mod 16)) j.
Proof.
  unfold wrd. rewrite (Nat.div_mod_eq t 16) at 1 3. replace (16 * (t / 16) + t mod 16 + j)%nat with (t mod 16 + j + t / 16 * 16)%nat by lia.
  replace (S (16 * (t / 16) + t mod 16) + j)%nat with (S (t mod 16) + j + t / 16 * 16)%nat by lia. by rewrite !Nat.Div0.mod_add.
Qed.

(** The functions of the source and of the standard agree on every bit. *)
Lemma line_fun_fips t x y z : line_fun (kind t) x y z = fips_f t x y z.
Proof.
  unfold kind, fips_f. repeat destruct (decide _); try lia; cbn [line_fun]; try done; unfold Ch, Maj; apply Z.bits_inj'; intros i Hi;
    rewrite ?Z.lxor_spec, ?Z.lor_spec, ?Z.land_spec, ?Z.lxor_spec, ?Z.lor_spec, ?testbit_lnot by done;
    destruct (Z.testbit x i), (Z.testbit y i), (Z.testbit z i); done.
Qed.

Lemma line_const_fips t : line_const (kind t) = fips_K t.
Proof. unfold kind, fips_K. repeat destruct (decide _); try lia; done. Qed.

Lemma uadd_T e f w k r : uadd 32 e (uadd 32 (uadd 32 (uadd 32 f w) k) r) = uadd 32 (uadd 32 (uadd 32 (uadd 32 r f) e) k) w.
Proof. unfold uadd at 1 5. apply wrap_proper. cong_strip. apply cong_intro with 0. ring. Qed.

(** The variables of a line, once its word is known. *)
Lemma sha1_line_regs t r R f k w : (t < 5)%nat -> length R = 5%nat ->
  let R' := <[reg t 4 := uadd 32 (R !!! reg t 4) (uadd 32 (uadd 32 (uadd 32 (f (R !!! reg t 1) (R !!! reg t 2) (R !!! reg t 3)) w) k) (rol (R !!! reg t 0) 5))]> R in
  let R'' := <[reg t 1 := rol (R' !!! reg t 1) 30]> R' in
  (forall x y z, f x y z = fips_f r x y z) -> k = fips_K r ->
  view_regs (S t) R'' = round r (view_regs t R) w /\ length R'' = 5%nat.
Proof.
  intros Ht HR R' R'' Hf ->. subst R' R''. rewrite Hf. do 5 (destruct R as [|? R]; [done|]). destruct R; [|done].
  do 5 (destruct t as [|t]; [lazy -[uadd rol fips_f fips_K]; rewrite uadd_T; split; reflexivity|]). lia.
Qed.

Definition next_word (v : list Z) : Z := rol (Z.lxor (Z.lxor (Z.lxor (v !!! 13%nat) (v !!! 8%nat)) (v !!! 2%nat)) (v !!! 0%nat)) 1.

Lemma blk_window t W : length W = 16%nat ->
  fst (blk W t) = next_word (view_words t W) /\
  view_words (S t) (snd (blk W t)) = drop 1 (view_words t W) ++ [next_word (view_words t W)] /\ length (snd (blk W t)) = 16%nat.
Proof.
  intros HW. assert (E : forall n, Nat.land n 15 = (n mod 16)%nat) by (intros n; apply (Nat.land_ones n 4)).
  unfold blk. rewrite !E. change ((t + 13) mod 16)%nat with (wrd t 13). change ((t + 8) mod 16)%nat with (wrd t 8). change ((t + 2) mod 16)%nat with (wrd t 2).
  replace (t mod 16)%nat with (wrd t 0) by (unfold wrd; by rewrite Nat.add_0_r). cbn [fst snd].
  assert (Ev : forall V, view_words t V = view_words (t mod 16) V) by (intros V; apply list_fmap_ext; intros i x _; by rewrite (proj1 (sha1_wrd_mod t x))).
  assert (Ev' : forall V, view_words (S t) V = view_words (S (t mod 16)) V) by (intros V; apply list_fmap_ext; intros i x _; by rewrite (proj2 (sha1_wrd_mod t x))).
  rewrite Ev, Ev'. rewrite !(proj1 (sha1_wrd_mod t _)). pose proof (Nat.mod_upper_bound t 16 ltac:(lia)) as Hs. generalize dependent (t mod 16)%nat.
  intros s _ _ Hs. do 16 (destruct W as [|? W]; [done|]). destruct W; [|done].
  do 16 (destruct s as [|s]; [lazy -[rol Z.lxor]; split_and!; reflexivity|]). lia.
Qed.

(** *** The window is the schedule *)

Lemma sha1_length_extend n M : length (Nat.iter n extend M) = (length M + n)%nat.
Proof. induction n as [|n IH]; [cbn; lia|]. rewrite Nat.iter_succ. unfold extend at 1. rewrite length_app, IH. cbn. lia. Qed.

Lemma sha1_extend_prefix n j M k : (k < length M + n)%nat -> Nat.iter (n + j) extend M !!! k = Nat.iter n extend M !!! k.
Proof.
  intros Hk. induction j as [|j IH]; [by rewrite Nat.add_0_r|]. rewrite Nat.add_succ_r, Nat.iter_succ. unfold extend at 1.
  rewrite !list_lookup_total_alt in *. rewrite lookup_app_l by (rewrite sha1_length_extend; lia). exact IH.
Qed.

Lemma sha1_extend_step n M : length M = 16%nat -> let w := next_word (drop n (Nat.iter n extend M)) in
  drop (S n) (Nat.iter (S n) extend M) = drop 1 (drop n (Nat.iter n extend M)) ++ [w] /\ Nat.iter (S n) extend M !!! (16 + n)%nat = w.
Proof.
  intros HM. rewrite Nat.iter_succ. set (S_ := Nat.iter n extend M). assert (HS : length S_ = (16 + n)%nat) by (subst S_; rewrite sha1_length_extend; lia).
  assert (E : extend S_ = S_ ++ [next_word (drop n S_)]).
  { unfold extend. rewrite HS. f_equal. f_equal. unfold next_word. rewrite !lookup_total_drop. repeat f_equal; lia. }
  cbn zeta. rewrite E. split.
  - rewrite drop_app_le, drop_drop by lia. by rewrite (Nat.add_comm n 1).
  - apply list_lookup_total_correct. rewrite lookup_app_r, HS, Nat.sub_diag by lia. done.
Qed.

(** The word of line [n], and the window after it. *)
Lemma line_window M W n w W' : length M = 16%nat -> length W = 16%nat -> (S n <= 80)%nat -> line_word (kind n) W n = (w, W') ->
  ((n <= 16)%nat -> W = M) -> ((16 <= n)%nat -> view_words n W = drop (n - 16) (Nat.iter (n - 16) extend M)) ->
  w = schedule M !!! n /\ length W' = 16%nat /\ ((S n <= 16)%nat -> W' = M) /\
  ((16 <= S n)%nat -> view_words (S n) W' = drop (S n - 16) (Nat.iter (S n - 16) extend M)).
Proof.
  intros HM HW Hn E H16 Hge. destruct (decide (n < 16)%nat) as [Hlt|Hnlt].
  - assert (Ek : kind n = R0) by (unfold kind; by destruct (decide _)). rewrite Ek in E. injection E as <- <-. rewrite (H16 ltac:(lia)) in *.
    split_and!; [|done|done|].
    + symmetry. apply (sha1_extend_prefix 0 64 M n). lia.
    + intros H. assert (n = 15%nat) as -> by lia. cbn [Nat.sub Nat.iter nat_rect drop].
      do 16 (destruct M as [|? M]; [done|]). by destruct M.
  - assert (Ek : line_word (kind n) W n = blk W n).
    { unfold kind. destruct (decide _); [lia|]. by repeat destruct (decide _). }
    rewrite Ek in E. destruct (blk_window n W HW) as (B1 & B2 & B3). rewrite E in B1, B2, B3. cbn [fst snd] in B1, B2, B3.
    rewrite (Hge ltac:(lia)) in B1, B2. destruct (sha1_extend_step (n - 16) M HM) as (X1 & X2).
    replace (S n - 16)%nat with (S (n - 16)) by lia. split_and!; [|done|lia|by rewrite B2, X1].
    replace (16 + (n - 16))%nat with n in X2 by lia. rewrite B1, <- X2. unfold schedule.
    replace 64%nat with (S (n - 16) + (64 - S (n - 16)))%nat by lia. symmetry. apply sha1_extend_prefix. lia.
Qed.

Lemma sha1_lines_rounds st M n : length st = 5%nat -> length M = 16%nat -> (n <= 80)%nat ->
  let '(R, W) := fold_left run_line ((fun t => (kind t, reg t <$> seq 0 5, t)) <$> seq 0 n) (st, M) in
  view_regs n R = rounds n st (schedule M) /\ length R = 5%nat /\ length W = 16%nat /\
  ((n <= 16)%nat -> W = M) /\ ((16 <= n)%nat -> view_words n W = drop (n - 16) (Nat.iter (n - 16) extend M)).
Proof.
  intros Hst HM. induction n as [|n IH]; intros Hn.
  { cbn -[view_regs view_words]. split_and!; [|done|done|done|lia].
    do 5 (destruct st as [|? st]; [done|]). by destruct st. }
  specialize (IH ltac:(lia)). rewrite (seq_S n), fmap_app, fold_left_app. cbn [Nat.add]. rewrite list_fmap_singleton. cbn [fold_left].
  destruct (fold_left run_line _ (st, M)) as [R W]. destruct IH as (E1 & HR & HW & E2 & E3).
  unfold run_line at 1. cbn [fmap list_fmap seq].
  assert (Ev : forall V, view_regs n V = view_regs (n mod 5) V) by (intros V; apply list_fmap_ext; intros i x _; by rewrite (proj1 (sha1_reg_mod n x))).
  assert (Ev' : forall V, view_regs (S n) V = view_regs (S (n mod 5)) V) by (intros V; apply list_fmap_ext; intros i x _; by rewrite (proj2 (sha1_reg_mod n x))).
  pose proof (Nat.mod_upper_bound n 5 ltac:(lia)) as Hs.
  destruct (line_word (kind n) W n) as [w W'] eqn:Ew.
  rewrite !(proj1 (sha1_reg_mod n _)).
  pose proof (sha1_line_regs (n mod 5) n R (line_fun (kind n)) (line_const (kind n)) w Hs HR (line_fun_fips n) (line_const_fips n)) as (H1 & H2).
  rewrite <- Ev, <- Ev', E1 in H1.
  assert (Hw : w = schedule M !!! n /\ length W' = 16%nat /\ ((S n <= 16)%nat -> W' = M) /\
    ((16 <= S n)%nat -> view_words (S n) W' = drop (S n - 16) (Nat.iter (S n - 16) extend M))).
  { by apply (line_window M W n w W'). }
  destruct Hw as (-> & H3 & H4 & H5). split_and!; [exact H1|exact H2|done|done|done].
Qed.

(** The block function of the source is the one of the standard. *)
Lemma sha1_hashBlock_compress little st buf : length st = 5%nat ->
  fst (hashBlock little st buf) = sha1_compress st (buffer_words little buf) /\
  length (snd (hashBlock little st buf)) = 64%nat /\ Forall byte_ok (snd (hashBlock little st buf)).
Proof.
  intros Hst. unfold hashBlock, sha1_compress. rewrite hash_lines_args.
  assert (HM : length (buffer_words little buf) = 16%nat) by (unfold buffer_words; by rewrite length_fmap, length_seq).
  pose proof (sha1_lines_rounds st (buffer_words little buf) 80 Hst HM ltac:(lia)) as H.
  destruct (fold_left run_line _ _) as [R W]. destruct H as (<- & HR & HW & _). cbn [fst snd]. split_and!.
  - f_equal. do 5 (destruct R as [|? R]; [done|]). by destruct R.
  - destruct (stores_ok little W) as (-> & _). by rewrite HW.
  - apply stores_ok.
Qed.

(** ** The stream interface *)

Definition sha1_ok (st : list Z) : Prop := length st = 5%nat /\ Forall (fun w => 0 <= w < 2 ^ 32) st.

Lemma sha1_length_round t v w : length v = 5%nat -> length (round t v w) = 5%nat.
Proof. intros Hv. do 5 (destruct v as [|? v]; [done|]). by destruct v. Qed.

Lemma sha1_length_rounds n v W : length v = 5%nat -> length (rounds n v W) = 5%nat.
Proof. intros Hv. induction n as [|n IH]; [done|]. cbn [rounds]. by apply sha1_length_round. Qed.

Lemma sha1_block_spec little st buf : sha1_ok st -> length buf = 64%nat -> Forall byte_ok buf ->
  fst (hashBlock little st buf) = sha1_compress st (buffer_words little buf) /\ sha1_ok (fst (hashBlock little st buf)) /\
  length (snd (hashBlock little st buf)) = 64%nat /\ Forall byte_ok (snd (hashBlock little st buf)).
Proof.
  intros (Hst & _) Hl Hb. destruct (sha1_hashBlock_compress little st buf Hst) as (-> & H1 & H2). split_and!; [done| |done|done].
  split; [|apply zip_uadd_range]. unfold sha1_compress. rewrite length_zip_with, sha1_length_rounds, Hst by done. done.
Qed.

Lemma sha1_iv_ok : sha1_ok sha1_iv.
Proof. split; [done|]. unfold sha1_iv. repeat constructor; lia. Qed.

(** The five bytes of eight times a 32-bit count. *)
Lemma sha1_length_bytes_val count : 0 <= count < 2 ^ 32 -> length_bytes count = rev (le_bytes 8 (8 * count)).
Proof.
  intros Hc. replace (le_bytes 8 (8 * count)) with (le_bytes 8 (8 * count / 2 ^ 0)) by (by rewrite Z.div_1_r).
  rewrite !le_bytes_nth by lia. unfold nth_byte, length_bytes, wrap. cbn [le_bytes rev app]. rewrite !ushr_val, ushl_val by lia. unfold wrap.
  do 8 (apply (f_equal2 cons); [zlia|]). done.
Qed.

(** The state after a list of updates. *)
Definition sha1_updates (little : bool) (raw : list Z) (datas : list (list Z)) : sha_state :=
  fold_left (fun s d => sha1_update little d s) datas (SHA1 raw).

Lemma sha1_final_updates little raw datas : length raw = 64%nat -> Forall byte_ok raw -> Forall (Forall byte_ok) datas ->
  let n := Z.of_nat (length (concat datas)) in
  exists s', final little (sha1_updates little raw datas) = Some (sha1_digest (concat datas) (rev (le_bytes 8 (8 * wrap 32 n))), s').
Proof.
  intros Hl Hb Hd n. destruct (updates_ok little (hashBlock little) sha1_compress sha1_ok sha1_iv sha1_iv_ok (sha1_block_spec little) datas (SHA1 raw))
    as (Hs & Hn); [done|done|]. change (Digest.updates little (hashBlock little) datas (SHA1 raw)) with (sha1_updates little raw datas) in *.
  assert (Eb : length_bytes (ByteCount (sha1_updates little raw datas)) = rev (le_bytes 8 (8 * wrap 32 n))).
  { rewrite Hn. apply sha1_length_bytes_val. apply wrap_range. lia. }
  destruct (digest_ok little (hashBlock little) sha1_compress sha1_ok sha1_iv (sha1_block_spec little) (fun st H => proj2 H) length_bytes _ _ Hs)
    as (s' & E & Hr).
  { by rewrite Eb, length_rev, length_le_bytes. } { rewrite Eb. apply Forall_rev_bytes, le_bytes_ok. }
  exists s'. unfold final, pad. rewrite E. cbn [mbind option_bind]. by rewrite Hr, Eb.
Qed.

(** ** Properties *)

(** SHA-1: the eighty unrolled lines, with their rotating variables and the words of the buffer
    overwritten in place, compute the compression function of FIPS 180-4, whose constants are the
    integer parts of 2^30 times the roots of 2, 3, 5 and 10; after any list of updates [final] gives the digest of
    the concatenated bytes and [result] the same without changing the object; the length
    written is that of the message modulo 2^32 bytes. *)
Theorem sha1_correct little raw datas st blk : length raw = 64%nat -> Forall byte_ok raw -> Forall (Forall byte_ok) datas ->
  length st = 5%nat -> length blk = 64%nat ->
  let m := concat datas in let n := Z.of_nat (length m) in let s := sha1_updates little raw datas in
  let d := sha1_digest m (rev (le_bytes 8 (8 * wrap 32 n))) in
  fst (hashBlock little st (logical little blk)) = sha1_compress st (be_words blk) /\
  (forall t, (t < 80)%nat -> exists k, k ∈ [2; 3; 5; 10] /\ fips_K t = Z.sqrt (k * 2 ^ 60)) /\
  (exists s', final little s = Some (d, s')) /\ result little s = Some (d, s) /\ hash little raw m = Some d /\
  (n < 2 ^ 32 -> d = sha1_digest m (rev (le_bytes 8 (8 * n)))).
Proof.
  intros Hl Hb Hd Hst Hblk m n s d. destruct (sha1_final_updates little raw datas Hl Hb Hd) as (s' & E). fold m n s d in E. split_and!.
  - destruct (sha1_hashBlock_compress little st (logical little blk) Hst) as (-> & _).
    rewrite buffer_words_logical by apply length_logical. by rewrite logical_involutive.
  - intros t Ht. unfold fips_K. destruct (decide (t < 20)%nat); [exists 2|destruct (decide (t < 40)%nat); [exists 3|
      destruct (decide (t < 60)%nat); [exists 5|exists 10]]]; (split; [rewrite !elem_of_cons; lia|by vm_compute]).
  - by exists s'.
  - unfold result. by rewrite E.
  - assert (Hd1 : Forall (Forall byte_ok) [m]) by (constructor; [by apply Forall_concat|done]).
    destruct (sha1_final_updates little raw [m] Hl Hb Hd1) as (s1 & E1). cbn [concat] in E1. rewrite app_nil_r in E1.
    unfold hash. change (sha1_update little m (SHA1 raw)) with (sha1_updates little raw [m]). by rewrite E1.
  - intros Hn. subst d. by rewrite (wrap_small 32 n) by lia.
Qed.

Lemma sha1_correct_witness :
  result true (sha1_updates true (replicate 64 0) [[97]; [98; 99]]) =
    Some (sha1_digest [97; 98; 99] (rev (le_bytes 8 (8 * wrap 32 3))), sha1_updates true (replicate 64 0) [[97]; [98; 99]]) /\
  take 4 (sha1_digest [97; 98; 99] (rev (le_bytes 8 (8 * wrap 32 3)))) = [0xa9; 0x99; 0x3e; 0x36].
Proof.
  split; [|by vm_compute].
  destruct (sha1_correct true (replicate 64 0) [[97]; [98; 99]] sha1_iv (replicate 64 0)) as (_ & _ & _ & E & _); [done| | |done|done|exact E].
  - apply Forall_replicate. unfold byte_ok. lia.
  - repeat constructor; lia.
Defined.
