(* ===== verification/Md5.v ===== *)
(** * MD5 (crypto/md5.h, crypto/md5.cc)

    The sixty-four unrolled lines of [body] against the block function of RFC 1321, and the stream
    interface, with its own buffering by [memcpy] and its count of bits in two words, against
    the hash of the whole message. A call of [body] on memory that is not whole blocks is [None].
    [little] is the byte order of the host, as in Endian.v. *)
From S2P Require Import Prelude Words Bits Endian Digest.

(** ** The macros of the source, on 32-bit words *)

Definition F (x y z : Z) : Z := Z.lxor z (Z.land x (Z.lxor y z)).
Definition G (x y z : Z) : Z := Z.lxor y (Z.land z (Z.lxor x y)).
Definition H (x y z : Z) : Z := Z.lxor (Z.lxor x y) z.
Definition I (x y z : Z) : Z := Z.lxor y (Z.lor x (unot 32 z)).

Inductive step_fun := FF | FG | FH | FI.
Definition apply_fun (f : step_fun) : Z -> Z -> Z -> Z := match f with FF => F | FG => G | FH => H | FI => I end.

(** [SET(n)] reads four bytes in little-endian order and stores them in [block]; [GET(n)] reads [block]. *)
Inductive word_op := SET (n : nat) | GET (n : nat).

Definition do_word (ptr block : list Z) (x : word_op) : Z * list Z :=
  match x with
  | SET n =>
      let w := Z.lor (Z.lor (Z.lor (ptr !!! (n * 4)%nat) (ushl 32 (ptr !!! (n * 4 + 1)%nat) 8)) (ushl 32 (ptr !!! (n * 4 + 2)%nat) 16))
                 (ushl 32 (ptr !!! (n * 4 + 3)%nat) 24) in
      (w, <[n := w]> block)
  | GET n => (block !!! n, block)
  end.

(** [STEP(f, a, b, c, d, x, t, s)] on the variables [R], given by their numbers. *)
Definition STEP (ptr : list Z) (s : list Z * list Z) (line : step_fun * list nat * word_op * Z * Z) : list Z * list Z :=
  let '(R, block) := s in
  match line with
  | (f, [a; b; c; d], x, t, sh) =>
      let '(w, block) := do_word ptr block x in
      let R := <[a := uadd 32 (R !!! a) (uadd 32 (uadd 32 (apply_fun f (R !!! b) (R !!! c) (R !!! d)) w) t)]> R in
      let R := <[a := Z.lor (ushl 32 (R !!! a) sh) (ushr (Z.land (R !!! a) 0xffffffff) (32 - sh))]> R in
      let R := <[a := uadd 32 (R !!! a) (R !!! b)]> R in
      (R, block)
  | _ => (R, block)
  end.

Definition step_lines : list (step_fun * list nat * word_op * Z * Z) :=
  let a := 0%nat in let b := 1%nat in let c := 2%nat in let d := 3%nat in [
   (FF, [a; b; c; d], SET 0, 0xd76aa478%Z, 7%Z);
   (FF, [d; a; b; c], SET 1, 0xe8c7b756%Z, 12%Z);
   (FF, [c; d; a; b], SET 2, 0x242070db%Z, 17%Z);
   (FF, [b; c; d; a], SET 3, 0xc1bdceee%Z, 22%Z);
   (FF, [a; b; c; d], SET 4, 0xf57c0faf%Z, 7%Z);
   (FF, [d; a; b; c], SET 5, 0x4787c62a%Z, 12%Z);
   (FF, [c; d; a; b], SET 6, 0xa8304613%Z, 17%Z);
   (FF, [b; c; d; a], SET 7, 0xfd469501%Z, 22%Z);
   (FF, [a; b; c; d], SET 8, 0x698098d8%Z, 7%Z);
   (FF, [d; a; b; c], SET 9, 0x8b44f7af%Z, 12%Z);
   (FF, [c; d; a; b], SET 10, 0xffff5bb1%Z, 17%Z);
   (FF, [b; c; d; a], SET 11, 0x895cd7be%Z, 22%Z);
   (FF, [a; b; c; d], SET 12, 0x6b901122%Z, 7%Z);
   (FF, [d; a; b; c], SET 13, 0xfd987193%Z, 12%Z);
   (FF, [c; d; a; b], SET 14, 0xa679438e%Z, 17%Z);
   (FF, [b; c; d; a], SET 15, 0x49b40821%Z, 22%Z);
   (FG, [a; b; c; d], GET 1, 0xf61e2562%Z, 5%Z);
   (FG, [d; a; b; c], GET 6, 0xc040b340%Z, 9%Z);
   (FG, [c; d; a; b], GET 11, 0x265e5a51%Z, 14%Z);
   (FG, [b; c; d; a], GET 0, 0xe9b6c7aa%Z, 20%Z);
   (FG, [a; b; c; d], GET 5, 0xd62f105d%Z, 5%Z);
   (FG, [d; a; b; c], GET 10, 0x02441453%Z, 9%Z);
   (FG, [c; d; a; b], GET 15, 0xd8a1e681%Z, 14%Z);
   (FG, [b; c; d; a], GET 4, 0xe7d3fbc8%Z, 20%Z);
   (FG, [a; b; c; d], GET 9, 0x21e1cde6%Z, 5%Z);
   (FG, [d; a; b; c], GET 14, 0xc33707d6%Z, 9%Z);
   (FG, [c; d; a; b], GET 3, 0xf4d50d87%Z, 14%Z);
   (FG, [b; c; d; a], GET 8, 0x455a14ed%Z, 20%Z);
   (FG, [a; b; c; d], GET 13, 0xa9e3e905%Z, 5%Z);
   (FG, [d; a; b; c], GET 2, 0xfcefa3f8%Z, 9%Z);
   (FG, [c; d; a; b], GET 7, 0x676f02d9%Z, 14%Z);
   (FG, [b; c; d; a], GET 12, 0x8d2a4c8a%Z, 20%Z);
   (FH, [a; b; c; d], GET 5, 0xfffa3942%Z, 4%Z);
   (FH, [d; a; b; c], GET 8, 0x8771f681%Z, 11%Z);
   (FH, [c; d; a; b], GET 11, 0x6d9d6122%Z, 16%Z);
   (FH, [b; c; d; a], GET 14, 0xfde5380c%Z, 23%Z);
   (FH, [a; b; c; d], GET 1, 0xa4beea44%Z, 4%Z);
   (FH, [d; a; b; c], GET 4, 0x4bdecfa9%Z, 11%Z);
   (FH, [c; d; a; b], GET 7, 0xf6bb4b60%Z, 16%Z);
   (FH, [b; c; d; a], GET 10, 0xbebfbc70%Z, 23%Z);
   (FH, [a; b; c; d], GET 13, 0x289b7ec6%Z, 4%Z);
   (FH, [d; a; b; c], GET 0, 0xeaa127fa%Z, 11%Z);
   (FH, [c; d; a; b], GET 3, 0xd4ef3085%Z, 16%Z);
   (FH, [b; c; d; a], GET 6, 0x04881d05%Z, 23%Z);
   (FH, [a; b; c; d], GET 9, 0xd9d4d039%Z, 4%Z);
   (FH, [d; a; b; c], GET 12, 0xe6db99e5%Z, 11%Z);
   (FH, [c; d; a; b], GET 15, 0x1fa27cf8%Z, 16%Z);
   (FH, [b; c; d; a], GET 2, 0xc4ac5665%Z, 23%Z);
   (FI, [a; b; c; d], GET 0, 0xf4292244%Z, 6%Z);
   (FI, [d; a; b; c], GET 7, 0x432aff97%Z, 10%Z);
   (FI, [c; d; a; b], GET 14, 0xab9423a7%Z, 15%Z);
   (FI, [b; c; d; a], GET 5, 0xfc93a039%Z, 21%Z);
   (FI, [a; b; c; d], GET 12, 0x655b59c3%Z, 6%Z);
   (FI, [d; a; b; c], GET 3, 0x8f0ccc92%Z, 10%Z);
   (FI, [c; d; a; b], GET 10, 0xffeff47d%Z, 15%Z);
   (FI, [b; c; d; a], GET 1, 0x85845dd1%Z, 21%Z);
   (FI, [a; b; c; d], GET 8, 0x6fa87e4f%Z, 6%Z);
   (FI, [d; a; b; c], GET 15, 0xfe2ce6e0%Z, 10%Z);
   (FI, [c; d; a; b], GET 6, 0xa3014314%Z, 15%Z);
   (FI, [b; c; d; a], GET 13, 0x4e0811a1%Z, 21%Z);
   (FI, [a; b; c; d], GET 4, 0xf7537e82%Z, 6%Z);
   (FI, [d; a; b; c], GET 11, 0xbd3af235%Z, 10%Z);
   (FI, [c; d; a; b], GET 2, 0x2ad7d2bb%Z, 15%Z);
   (FI, [b; c; d; a], GET 9, 0xeb86d391%Z, 21%Z)]%nat.

(** ** The class *)

Record md5_state := MkMd5 { abcd : list Z; hi : Z; lo : Z; buffer : list Z; block : list Z }.

Definition md5_iv : list Z := [0x67452301; 0xefcdab89; 0x98badcfe; 0x10325476].

(** The constructor: [buffer] and [block] are whatever the memory holds. *)
Definition MD5 (raw_buffer raw_block : list Z) : md5_state := MkMd5 md5_iv 0 0 raw_buffer raw_block.

(** [body(Data)]: the state, and the memory behind the blocks; the fuel bounds the blocks. *)
Fixpoint body_loop (fuel : nat) (ptr : list Z) (Size : Z) (s : md5_state) : option (md5_state * list Z) :=
  match fuel with
  | O => None
  | S fuel =>
      if decide (length ptr < 64)%nat then None
      else
        let '(R, blk) := fold_left (STEP ptr) step_lines (abcd s, block s) in
        let s := MkMd5 (zip_with (uadd 32) R (abcd s)) (hi s) (lo s) (buffer s) blk in
        let Size := usub 64 Size 64 in
        if Size =? 0 then Some (s, drop 64 ptr) else body_loop fuel (drop 64 ptr) Size s
  end.
Definition body (Data : list Z) (Size : Z) (s : md5_state) : option (md5_state * list Z) := body_loop (S (length Data)) Data Size s.

(** [memcpy(&buffer[used], l, ...)] and [memset], on the fields of the object. *)
Definition write_buffer (used : nat) (l : list Z) (s : md5_state) : md5_state :=
  MkMd5 (abcd s) (hi s) (lo s) (take used (buffer s) ++ l ++ drop (used + length l) (buffer s)) (block s).

Definition set_bits (h l : Z) (s : md5_state) : md5_state := MkMd5 (abcd s) h l (buffer s) (block s).

(** The part of [update] after the buffered bytes are used up. *)
Definition update_rest (Ptr : list Z) (s : md5_state) : option md5_state :=
  let Size := Z.of_nat (length Ptr) in
  '(s, Ptr) ← (if 64 <=? Size then body Ptr (Z.land Size (unot 64 0x3f)) s else Some (s, Ptr));
  Some (write_buffer 0 Ptr s).

Definition md5_update (Data : list Z) (s : md5_state) : option md5_state :=
  let Size := Z.of_nat (length Data) in
  let saved_lo := lo s in
  let lo' := wrap 32 (Z.land (uadd 64 saved_lo Size) 0x1fffffff) in
  let hi' := if lo' <? saved_lo then uadd 32 (hi s) 1 else hi s in
  let s := set_bits (wrap 32 (hi' + ushr Size 29)) lo' s in
  let used := Z.land saved_lo 0x3f in
  if negb (used =? 0) then
    let free := 64 - used in
    if Size <? free then Some (write_buffer (Z.to_nat used) Data s)
    else
      let s := write_buffer (Z.to_nat used) (take (Z.to_nat free) Data) s in
      '(s, _) ← body (buffer s) 64 s;
      update_rest (drop (Z.to_nat free) Data) s
  else update_rest Data s.

Section Class.
Context (little : bool).

(** [final(Result)]: the sixteen bytes and the object. *)
Definition md5_final (s : md5_state) : option (list Z * md5_state) :=
  let used := Z.to_nat (Z.land (lo s) 0x3f) in
  let s := write_buffer used [0x80] s in
  let used := S used in
  let free := (64 - used)%nat in
  '(s, used, free) ←
    (if decide (free < 8)%nat then
       let s := write_buffer used (replicate free 0) s in
       '(s, _) ← body (buffer s) 64 s;
       Some (s, 0%nat, 64%nat)
     else Some (s, used, free));
  let s := write_buffer used (replicate (free - 8) 0) s in
  let s := set_bits (hi s) (ushl 32 (lo s) 3) s in
  let s := write_buffer 56 (le_store little 4 (lo s)) s in
  let s := write_buffer 60 (le_store little 4 (hi s)) s in
  '(s, _) ← body (buffer s) 64 s;
  Some (concat (le_store little 4 <$> abcd s), s).

(** [result()] restores the object. *)
Definition md5_result (s : md5_state) : option (list Z * md5_state) := '(h, _) ← md5_final s; Some (h, s).
Definition md5_hash_bytes (raw_buffer raw_block Data : list Z) : option (list Z) :=
  s ← md5_update Data (MD5 raw_buffer raw_block); fst <$> md5_final s.

(** [MD5Result::low] and [high], and [md5_hash]. *)
Definition low (r : list Z) : Z := le_load little (take 8 r).
Definition high (r : list Z) : Z := le_load little (take 8 (drop 8 r)).
Definition words (r : list Z) : Z * Z := (high r, low r).
Definition md5_hash (raw_buffer raw_block Str : list Z) : option Z := low <$> md5_hash_bytes raw_buffer raw_block Str.
End Class.

(** ** RFC 1321 *)

Definition rfc_F (x y z : Z) : Z := Z.lor (Z.land x y) (Z.land (Z.lnot x) z).
Definition rfc_G (x y z : Z) : Z := Z.lor (Z.land x z) (Z.land y (Z.lnot z)).
Definition rfc_H (x y z : Z) : Z := Z.lxor (Z.lxor x y) z.
Definition rfc_I (x y z : Z) : Z := Z.lxor y (Z.lor x (unot 32 z)).

Definition rfc_fun (t : nat) : Z -> Z -> Z -> Z :=
  if decide (t < 16)%nat then rfc_F else if decide (t < 32)%nat then rfc_G else if decide (t < 48)%nat then rfc_H else rfc_I.
(** The word of a step. *)
Definition rfc_index (t : nat) : nat :=
  if decide (t < 16)%nat then t else if decide (t < 32)%nat then ((5 * t + 1) mod 16)%nat
  else if decide (t < 48)%nat then ((3 * t + 5) mod 16)%nat else ((7 * t) mod 16)%nat.
Definition rfc_shift (t : nat) : Z :=
  (if decide (t < 16)%nat then [7; 12; 17; 22] else if decide (t < 32)%nat then [5; 9; 14; 20]
   else if decide (t < 48)%nat then [4; 11; 16; 23] else [6; 10; 15; 21]) !!! (t mod 4)%nat.
(** The table of section 3.4, T[1] to T[64]. *)
Definition T : list Z :=
  [0xd76aa478; 0xe8c7b756; 0x242070db; 0xc1bdceee;
   0xf57c0faf; 0x4787c62a; 0xa8304613; 0xfd469501;
   0x698098d8; 0x8b44f7af; 0xffff5bb1; 0x895cd7be;
   0x6b901122; 0xfd987193; 0xa679438e; 0x49b40821;
   0xf61e2562; 0xc040b340; 0x265e5a51; 0xe9b6c7aa;
   0xd62f105d; 0x02441453; 0xd8a1e681; 0xe7d3fbc8;
   0x21e1cde6; 0xc33707d6; 0xf4d50d87; 0x455a14ed;
   0xa9e3e905; 0xfcefa3f8; 0x676f02d9; 0x8d2a4c8a;
   0xfffa3942; 0x8771f681; 0x6d9d6122; 0xfde5380c;
   0xa4beea44; 0x4bdecfa9; 0xf6bb4b60; 0xbebfbc70;
   0x289b7ec6; 0xeaa127fa; 0xd4ef3085; 0x04881d05;
   0xd9d4d039; 0xe6db99e5; 0x1fa27cf8; 0xc4ac5665;
   0xf4292244; 0x432aff97; 0xab9423a7; 0xfc93a039;
   0x655b59c3; 0x8f0ccc92; 0xffeff47d; 0x85845dd1;
   0x6fa87e4f; 0xfe2ce6e0; 0xa3014314; 0x4e0811a1;
   0xf7537e82; 0xbd3af235; 0x2ad7d2bb; 0xeb86d391].

(** [1 - x^2 / (k (k + 1)) (1 - x^2 / ((k + 2) (k + 3)) (...))] with [n] of the brackets: a numerator and a denominator. *)
Fixpoint sine_series (n : nat) (x k : Z) : Z * Z :=
  match n with
  | O => (1, 1)
  | S n => let '(p, q) := sine_series n x (k + 2) in let d := k * (k + 1) * q in (d - x * x * p, d)
  end.
(** [T[i]] is the integer part of 4294967296 times abs(sin(i)), [i] in radians; the sine is its Taylor polynomial with
    13 + 3 i / 2 terms, whose error is below 10^-18 for every [i] up to 64. *)
Definition sine_entry (i : nat) (t : Z) : bool :=
  let x := Z.of_nat i in let '(p, q) := sine_series (12 + 3 * i / 2) x 2 in
  (t * q <=? 4294967296 * Z.abs (x * p)) && (4294967296 * Z.abs (x * p) <? (t + 1) * q).

(** The initial words, from the bytes in the standard. *)
Definition rfc_iv : list Z :=
  le_combine <$> [[0x01; 0x23; 0x45; 0x67]; [0x89; 0xab; 0xcd; 0xef]; [0xfe; 0xdc; 0xba; 0x98]; [0x76; 0x54; 0x32; 0x10]].

Definition rol (x n : Z) : Z := Z.lor (ushl 32 x n) (ushr x (32 - n)).

(** One step, [a = b + ((a + f(b, c, d) + X[k] + T[i]) <<< s)], after which the variables rotate. *)
Definition round (t : nat) (v X : list Z) : list Z :=
  match v with
  | [a; b; c; d] =>
      [d; uadd 32 (rol (uadd 32 (uadd 32 (uadd 32 a (rfc_fun t b c d)) (X !!! rfc_index t)) (T !!! t)) (rfc_shift t)) b; b; c]
  | _ => v
  end.

Fixpoint rounds (n : nat) (v X : list Z) : list Z :=
  match n with O => v | S n => round n (rounds n v X) X end.

Definition le_words (blk : list Z) : list Z := (fun i => le_combine (take 4 (drop (4 * i) blk))) <$> seq 0 16.
Definition md5_compress (st blk : list Z) : list Z := zip_with (uadd 32) (rounds 64 st (le_words blk)) st.

(** The digest of the standard of a message of [n] bytes. *)
Definition md5_digest (m : list Z) : list Z :=
  concat (le_bytes 4 <$> absorb md5_compress rfc_iv (padded m (le_bytes 8 ((8 * Z.of_nat (length m)) mod 2 ^ 64)))).

(** ** The unrolled lines are the steps *)

Lemma sines_ok i : (i < 64)%nat -> sine_entry (S i) (T !!! i) = true.
Proof.
  assert (forallb (fun i => sine_entry (S i) (T !!! i)) (seq 0 64) = true) as H by (vm_compute; reflexivity).
  rewrite forallb_forall in H. intros Hi. apply H, in_seq. lia.
Qed.

Definition reg (t i : nat) : nat := ((i + 3 * t) mod 4)%nat.
Definition fun_of (t : nat) : step_fun :=
  if decide (t < 16)%nat then FF else if decide (t < 32)%nat then FG else if decide (t < 48)%nat then FH else FI.
Definition op_of (t : nat) : word_op := if decide (t < 16)%nat then SET t else GET (rfc_index t).

Lemma step_lines_args : step_lines = (fun t => (fun_of t, reg t <$> seq 0 4, op_of t, T !!! t, rfc_shift t)) <$> seq 0 64.
Proof. by vm_compute. Qed.

Definition view_regs (t : nat) (R : list Z) : list Z := (fun i => R !!! reg t i) <$> seq 0 4.

Lemma md5_reg_mod t i : reg t i = reg (t mod 4) i /\ reg (S t) i = reg (S (t mod 4)) i.
Proof.
  unfold reg. rewrite (Nat.div_mod_eq t 4) at 1 3.
  replace (i + 3 * (4 * (t / 4) + t mod 4))%nat with (i + 3 * (t mod 4) + (3 * (t / 4)) * 4)%nat by lia.
  replace (i + 3 * S (4 * (t / 4) + t mod 4))%nat with (i + 3 * S (t mod 4) + (3 * (t / 4)) * 4)%nat by lia. by rewrite !Nat.Div0.mod_add.
Qed.

Lemma fun_of_rfc t x y z : apply_fun (fun_of t) x y z = rfc_fun t x y z.
Proof.
  unfold fun_of, rfc_fun. repeat destruct (decide _); try lia; cbn [apply_fun]; try done; unfold F, G, rfc_F, rfc_G; apply Z.bits_inj'; intros i Hi;
    rewrite ?Z.lxor_spec, ?Z.lor_spec, ?Z.land_spec, ?Z.lxor_spec, ?testbit_lnot by done;
    destruct (Z.testbit x i), (Z.testbit y i), (Z.testbit z i); done.
Qed.

Lemma uadd_sum a f w t : uadd 32 a (uadd 32 (uadd 32 f w) t) = uadd 32 (uadd 32 (uadd 32 a f) w) t.
Proof. unfold uadd at 1 4. apply wrap_proper. cong_strip. apply cong_intro with 0. ring. Qed.

Lemma mask_uadd x y : Z.land (uadd 32 x y) 0xffffffff = uadd 32 x y.
Proof. change 0xffffffff with (Z.ones 32). rewrite Z.land_ones by lia. apply Z.mod_small. apply wrap_range. lia. Qed.

Lemma md5_line_regs s t R f w k sh X : (s < 4)%nat -> length R = 4%nat ->
  (forall x y z, f x y z = rfc_fun t x y z) -> w = X !!! rfc_index t -> k = T !!! t -> sh = rfc_shift t ->
  let a := reg s 0 in let b := reg s 1 in
  let R1 := <[a := uadd 32 (R !!! a) (uadd 32 (uadd 32 (f (R !!! b) (R !!! reg s 2) (R !!! reg s 3)) w) k)]> R in
  let R2 := <[a := Z.lor (ushl 32 (R1 !!! a) sh) (ushr (Z.land (R1 !!! a) 0xffffffff) (32 - sh))]> R1 in
  let R3 := <[a := uadd 32 (R2 !!! a) (R2 !!! b)]> R2 in
  view_regs (S s) R3 = round t (view_regs s R) X /\ length R3 = 4%nat.
Proof.
  intros Hs HR Hf -> -> ->. cbn zeta. rewrite Hf. do 4 (destruct R as [|? R]; [done|]). destruct R; [|done].
  do 4 (destruct s as [|s]; [lazy -[uadd ushl ushr Z.lor Z.land Z.sub rfc_fun rfc_shift rfc_index lookup_total list_lookup_total T rol];
    cbn [lookup_total list_lookup_total]; rewrite mask_uadd, uadd_sum; split; reflexivity|]). lia.
Qed.

(** *** The words *)

Lemma md5_set_val b0 b1 b2 b3 : Forall byte_ok [b0; b1; b2; b3] ->
  Z.lor (Z.lor (Z.lor b0 (ushl 32 b1 8)) (ushl 32 b2 16)) (ushl 32 b3 24) = le_combine [b0; b1; b2; b3].
Proof.
  intros (H0 & (H1 & (H2 & (H3 & _)%Forall_cons_1)%Forall_cons_1)%Forall_cons_1)%Forall_cons_1. unfold byte_ok in *. rewrite !ushl_val, !wrap_small by lia. rewrite (Z.lor_comm b0), lor_shiftl_add by lia.
  rewrite (Z.lor_comm (_ + b0)), lor_shiftl_add by lia. rewrite (Z.lor_comm _ (b3 * _)), lor_shiftl_add by lia. cbn [le_combine]. lia.
Qed.

Lemma length_le_words blk : length (le_words blk) = 16%nat.
Proof. unfold le_words. by rewrite length_fmap, length_seq. Qed.

Lemma lookup_le_words blk i : (i < 16)%nat -> le_words blk !!! i = le_combine (take 4 (drop (4 * i) blk)).
Proof. intros Hi. apply list_lookup_total_correct. unfold le_words. rewrite list_lookup_fmap, lookup_seq_lt by done. done. Qed.

Lemma md5_set_word ptr n block : (n < 16)%nat -> (64 <= length ptr)%nat -> Forall byte_ok ptr ->
  do_word ptr block (SET n) = (le_words (take 64 ptr) !!! n, <[n := le_words (take 64 ptr) !!! n]> block).
Proof.
  intros Hn Hl Hb. cbn [do_word]. replace (n * 4)%nat with (4 * n)%nat by lia.
  assert (E : le_words (take 64 ptr) !!! n = le_combine [ptr !!! (4 * n)%nat; ptr !!! (4 * n + 1)%nat; ptr !!! (4 * n + 2)%nat; ptr !!! (4 * n + 3)%nat]).
  { rewrite lookup_le_words, take4_drop by (rewrite ?length_take; lia). rewrite !list_lookup_total_alt, !lookup_take_lt by lia. done. }
  rewrite E, md5_set_val; [done|]. repeat constructor; apply (Forall_lookup_total_1 _ _ _ Hb); lia.
Qed.

Lemma rfc_index_lt t : (t < 64)%nat -> (rfc_index t < 16)%nat.
Proof.
  intros Ht. unfold rfc_index. repeat destruct (decide _); [done|apply Nat.mod_upper_bound; lia..].
Qed.

Lemma md5_lines_rounds ptr st B n : length st = 4%nat -> length B = 16%nat -> (64 <= length ptr)%nat -> Forall byte_ok ptr -> (n <= 64)%nat ->
  let X := le_words (take 64 ptr) in
  let '(R, B) := fold_left (STEP ptr) ((fun t => (fun_of t, reg t <$> seq 0 4, op_of t, T !!! t, rfc_shift t)) <$> seq 0 n) (st, B) in
  view_regs n R = rounds n st X /\ length R = 4%nat /\ length B = 16%nat /\ forall j, (j < n)%nat -> (j < 16)%nat -> B !!! j = X !!! j.
Proof.
  intros Hst HB Hl Hb. cbn zeta. set (X := le_words (take 64 ptr)). induction n as [|n IH]; intros Hn.
  { cbn -[view_regs]. split_and!; [|done|done|lia]. do 4 (destruct st as [|? st]; [done|]). by destruct st. }
  specialize (IH ltac:(lia)). rewrite (seq_S n), fmap_app, fold_left_app. cbn [Nat.add]. rewrite list_fmap_singleton. cbn [fold_left].
  destruct (fold_left (STEP ptr) _ (st, B)) as [R C]. destruct IH as (E1 & HR & HC & E2).
  unfold STEP at 1. cbn [fmap list_fmap seq].
  assert (Ev : forall V, view_regs n V = view_regs (n mod 4) V) by (intros V; apply list_fmap_ext; intros i x _; by rewrite (proj1 (md5_reg_mod n x))).
  assert (Ev' : forall V, view_regs (S n) V = view_regs (S (n mod 4)) V) by (intros V; apply list_fmap_ext; intros i x _; by rewrite (proj2 (md5_reg_mod n x))).
  pose proof (Nat.mod_upper_bound n 4 ltac:(lia)) as Hs.
  assert (Hw : exists C', do_word ptr C (op_of n) = (X !!! rfc_index n, C') /\ length C' = 16%nat /\ forall j, (j < S n)%nat -> (j < 16)%nat -> C' !!! j = X !!! j).
  { unfold op_of. destruct (decide (n < 16)%nat) as [Hlt|Hge].
    - rewrite md5_set_word by done. eexists. split; [|split].
      + unfold rfc_index. rewrite decide_True by done. done.
      + by rewrite length_insert.
      + intros j Hj Hj16. destruct (decide (j = n)) as [->|Hne]; [by rewrite list_lookup_total_insert_eq by lia|].
        rewrite list_lookup_total_insert_ne by done. apply E2; lia.
    - exists C. cbn [do_word]. pose proof (rfc_index_lt n ltac:(lia)). split_and!; [rewrite E2 by lia; done|done|]. intros j _ Hj. apply E2; lia. }
  destruct Hw as (C' & -> & HC' & E3). rewrite !(proj1 (md5_reg_mod n _)).
  destruct (md5_line_regs (n mod 4) n R (apply_fun (fun_of n)) (X !!! rfc_index n) (T !!! n) (rfc_shift n) X Hs HR (fun_of_rfc n) eq_refl eq_refl eq_refl) as (H1 & H2).
  rewrite <- Ev, <- Ev', E1 in H1. by split_and!.
Qed.

(** *** Whole blocks *)

Definition words_ok (st : list Z) : Prop := length st = 4%nat /\ Forall (fun w => 0 <= w < 2 ^ 32) st.

Lemma length_round_4 t v X : length v = 4%nat -> length (round t v X) = 4%nat.
Proof. intros Hv. do 4 (destruct v as [|? v]; [done|]). by destruct v. Qed.

Lemma length_rounds_4 n v X : length v = 4%nat -> length (rounds n v X) = 4%nat.
Proof. intros Hv. induction n as [|n IH]; [done|]. cbn [rounds]. by apply length_round_4. Qed.

Lemma md5_compress_ok st blk : length st = 4%nat -> words_ok (md5_compress st blk).
Proof. intros Hst. split; [|apply zip_uadd_range]. unfold md5_compress. by rewrite length_zip_with, length_rounds_4, Hst. Qed.

Lemma md5_lines_compress ptr st B : length st = 4%nat -> length B = 16%nat -> (64 <= length ptr)%nat -> Forall byte_ok ptr ->
  let '(R, B) := fold_left (STEP ptr) step_lines (st, B) in
  zip_with (uadd 32) R st = md5_compress st (take 64 ptr) /\ length B = 16%nat.
Proof.
  intros Hst HB Hl Hb. rewrite step_lines_args. pose proof (md5_lines_rounds ptr st B 64 Hst HB Hl Hb ltac:(lia)) as H0. cbn zeta in H0.
  destruct (fold_left _ _ _) as [R C]. destruct H0 as (E & HR & HC & _). split; [|done]. unfold md5_compress. rewrite <- E. f_equal.
  do 4 (destruct R as [|? R]; [done|]). by destruct R.
Qed.

Lemma body_loop_ok fuel k ptr s : (0 < k <= fuel)%nat -> (64 * k <= length ptr)%nat -> Z.of_nat (64 * k) < 2 ^ 64 -> Forall byte_ok ptr ->
  words_ok (abcd s) -> length (block s) = 16%nat ->
  exists s', body_loop fuel ptr (Z.of_nat (64 * k)) s = Some (s', drop (64 * k) ptr) /\ abcd s' = absorb_blocks md5_compress k (abcd s) ptr /\
    words_ok (abcd s') /\ length (block s') = 16%nat /\ hi s' = hi s /\ lo s' = lo s /\ buffer s' = buffer s.
Proof.
  revert k ptr s. induction fuel as [|fuel IH]; intros k ptr s Hk Hl Hsz Hb Hst HB; [lia|]. cbn [body_loop].
  destruct (decide _) as [|_]; [lia|]. destruct Hst as (Hst & _).
  pose proof (md5_lines_compress ptr (abcd s) (block s) Hst HB ltac:(lia) Hb) as H0.
  destruct (fold_left _ _ _) as [R C]. destruct H0 as (-> & HC). cbn zeta.
  set (s1 := MkMd5 _ _ _ _ _). assert (Hok : words_ok (abcd s1)) by by apply md5_compress_ok.
  assert (E : usub 64 (Z.of_nat (64 * k)) 64 = Z.of_nat (64 * (k - 1))) by (unfold usub; rewrite wrap_small; lia). rewrite E.
  destruct k as [|k]; [lia|]. replace (S k - 1)%nat with k by lia. destruct (Z.eqb_spec (Z.of_nat (64 * k)) 0) as [Ek|Ek].
  - assert (k = 0%nat) as -> by lia. exists s1. split_and!; [reflexivity|cbn [absorb_blocks]; subst s1; cbn [abcd]; reflexivity|done..].
  - destruct (IH k (drop 64 ptr) s1) as (s' & -> & Ha & Hok' & HB' & Hh & Hlo & Hbuf); [lia|rewrite length_drop; lia|lia|by apply Forall_drop|done|done|].
    exists s'. rewrite drop_drop. replace (64 + 64 * k)%nat with (64 * S k)%nat by lia.
    split_and!; [reflexivity|cbn [absorb_blocks]; rewrite Ha; subst s1; cbn [abcd]; reflexivity|done..].
Qed.

Lemma body_ok k ptr s : (0 < k)%nat -> (64 * k <= length ptr)%nat -> Z.of_nat (64 * k) < 2 ^ 64 -> Forall byte_ok ptr ->
  words_ok (abcd s) -> length (block s) = 16%nat ->
  exists s', body ptr (Z.of_nat (64 * k)) s = Some (s', drop (64 * k) ptr) /\ abcd s' = absorb_blocks md5_compress k (abcd s) ptr /\
    words_ok (abcd s') /\ length (block s') = 16%nat /\ hi s' = hi s /\ lo s' = lo s /\ buffer s' = buffer s.
Proof. intros Hk Hl. apply body_loop_ok; lia. Qed.

(** *** The buffer *)

Definition filled (s : md5_state) (t : list Z) : Prop :=
  length (buffer s) = 64%nat /\ Forall byte_ok (buffer s) /\ take (length t) (buffer s) = t /\ (length t <= 64)%nat.

Lemma filled_write s t l used : filled s t -> used = length t -> (length t + length l <= 64)%nat -> Forall byte_ok l ->
  filled (write_buffer used l s) (t ++ l).
Proof.
  intros (Hl & Hb & Ht & Hle) -> Hfit Hbl. unfold filled. cbn [write_buffer buffer]. rewrite Ht. split_and!.
  - rewrite !length_app, length_drop. lia.
  - rewrite !Forall_app. split_and!; [rewrite <- Ht; by apply Forall_take|done|by apply Forall_drop].
  - rewrite app_assoc. by apply take_app_length'.
  - rewrite length_app. lia.
Qed.

Lemma filled_full s t : filled s t -> length t = 64%nat -> buffer s = t.
Proof. intros (Hl & _ & Ht & _) E. rewrite firstn_all2 in Ht; [done|lia]. Qed.

(** [core s m0 t]: the blocks [m0] are hashed and the bytes [t] are buffered. *)
Definition md5_chain (m : list Z) : list Z := absorb md5_compress md5_iv m.
Definition core (s : md5_state) (m0 t : list Z) : Prop :=
  abcd s = md5_chain m0 /\ words_ok (abcd s) /\ length (block s) = 16%nat /\ (exists q, length m0 = (64 * q)%nat) /\ filled s t.

Lemma core_write s m0 t l used : core s m0 t -> used = length t -> (length t + length l <= 64)%nat -> Forall byte_ok l ->
  core (write_buffer used l s) m0 (t ++ l).
Proof. intros (H1 & H2 & H3 & H4 & H5) Hu Hf Hl. split_and!; try done. by apply filled_write. Qed.

Lemma core_reset s m0 t : core s m0 t -> core s m0 [].
Proof. intros (H1 & H2 & H3 & H4 & H5 & H6 & _). split_and!; try done. split_and!; [done|done|done|cbn; lia]. Qed.

(** Blocks from anywhere in memory. *)
Lemma core_body k ptr s m0 t : core s m0 t -> (0 < k)%nat -> (64 * k <= length ptr)%nat -> Z.of_nat (64 * k) < 2 ^ 64 -> Forall byte_ok ptr ->
  exists s', body ptr (Z.of_nat (64 * k)) s = Some (s', drop (64 * k) ptr) /\ core s' (m0 ++ take (64 * k) ptr) [] /\ hi s' = hi s /\ lo s' = lo s.
Proof.
  intros (H1 & H2 & H3 & (q & H4) & H5 & H6 & _) Hk Hl Hsz Hb.
  destruct (body_ok k ptr s Hk Hl Hsz Hb H2 H3) as (s' & E & Ha & Hok & HB & Hh & Hlo & Hbuf). exists s'. unfold core. split_and!; try done.
  - rewrite Ha, H1. unfold md5_chain. rewrite (absorb_app _ _ m0 _ q) by done. unfold absorb at 2. rewrite length_take_le by done.
    replace (64 * k / 64)%nat with k by (rewrite Nat.mul_comm, Nat.div_mul; lia).
    rewrite <- (take_drop (64 * k) ptr) at 1. rewrite absorb_blocks_app by (rewrite length_take; lia). done.
  - exists (q + k)%nat. rewrite length_app, length_take. lia.
  - unfold filled. rewrite Hbuf. split_and!; [done|done|done|cbn; lia].
Qed.

(** A full buffer. *)
Lemma core_flush s m0 t : core s m0 t -> length t = 64%nat ->
  exists s', body (buffer s) 64 s = Some (s', []) /\ core s' (m0 ++ t) [] /\ hi s' = hi s /\ lo s' = lo s.
Proof.
  intros Hc Ht. pose proof Hc as (_ & _ & _ & _ & Hf). pose proof (filled_full s t Hf Ht) as Eb. destruct Hf as (Hl & Hb & _).
  destruct (core_body 1 (buffer s) s m0 t Hc) as (s' & E & Hc' & Hh & Hlo); [lia|lia|lia|done|].
  change (Z.of_nat (64 * 1)) with 64 in E. rewrite drop_ge in E by lia. rewrite firstn_all2 in Hc' by lia. rewrite Eb in Hc'. by exists s'.
Qed.

(** ** The stream interface *)

(** [md5_ok s m]: the object has seen the bytes [m]. *)
Definition md5_ok (s : md5_state) (m : list Z) : Prop :=
  (exists m0 t, m = m0 ++ t /\ (length t < 64)%nat /\ core s m0 t) /\
  lo s = Z.of_nat (length m) mod 2 ^ 29 /\ hi s = (Z.of_nat (length m) / 2 ^ 29) mod 2 ^ 32.

Lemma update_rest_ok Ptr s m0 t : core s m0 t -> Forall byte_ok Ptr -> Z.of_nat (length Ptr) < 2 ^ 64 ->
  exists s' m1 t1, update_rest Ptr s = Some s' /\ m0 ++ Ptr = m1 ++ t1 /\ (length t1 < 64)%nat /\ core s' m1 t1 /\ hi s' = hi s /\ lo s' = lo s.
Proof.
  intros Hc Hb Hsz. unfold update_rest. destruct (Z.leb_spec 64 (Z.of_nat (length Ptr))) as [Hge|Hlt].
  - pose proof (Nat.div_mod_eq (length Ptr) 64) as Hdm. pose proof (Nat.mod_upper_bound (length Ptr) 64 ltac:(lia)) as Hm.
    set (k := (length Ptr / 64)%nat) in *.
    assert (E : Z.land (Z.of_nat (length Ptr)) (unot 64 0x3f) = Z.of_nat (64 * k)).
    { change (unot 64 0x3f) with (Z.ldiff (Z.ones 64) (Z.ones 6)). rewrite Z.land_comm.
      rewrite <- (Z.land_ones_low (Z.of_nat (length Ptr)) 64) at 1; [|lia|apply Z.log2_lt_pow2; lia].
      replace (Z.land (Z.ldiff (Z.ones 64) (Z.ones 6)) (Z.land (Z.of_nat (length Ptr)) (Z.ones 64))) with (Z.ldiff (Z.land (Z.of_nat (length Ptr)) (Z.ones 64)) (Z.ones 6)).
      - rewrite Z.land_ones, Z.ldiff_ones_r by lia. rewrite Z.mod_small by lia. rewrite Z.shiftr_div_pow2, Z.shiftl_mul_pow2 by lia. subst k. rewrite Nat2Z.inj_mul, Nat2Z.inj_div. apply Z.mul_comm.
      - apply Z.bits_inj'. intros i Hi. rewrite ?Z.land_spec, ?Z.ldiff_spec, ?Z.land_spec. by destruct (Z.testbit _ i), (Z.testbit (Z.ones 64) i), (Z.testbit (Z.ones 6) i). }
    rewrite E. destruct (core_body k Ptr s m0 t Hc) as (s1 & -> & Hc1 & Hh & Hlo); [lia|lia|lia|done|]. cbn [mbind option_bind].
    exists (write_buffer 0 (drop (64 * k) Ptr) s1), (m0 ++ take (64 * k) Ptr), (drop (64 * k) Ptr).
    split_and!; [done|by rewrite <- app_assoc, take_drop|rewrite length_drop; lia| |done|done].
    apply (core_write s1 _ [] _ 0%nat Hc1 eq_refl); [rewrite length_drop; cbn [length]; lia|by apply Forall_drop].
  - cbn [mbind option_bind]. exists (write_buffer 0 Ptr s), m0, Ptr. split_and!; [done|done|lia| |done|done].
    apply (core_write s _ [] _ 0%nat (core_reset _ _ _ Hc) eq_refl); [cbn; lia|done].
Qed.

(** The two counters of bytes, the low one of 29 bits. *)
Lemma md5_count n z : 0 <= n -> 0 <= z ->
  let lo0 := n mod 2 ^ 29 in let lo' := wrap 32 (Z.land (uadd 64 lo0 z) 0x1fffffff) in
  lo' = (n + z) mod 2 ^ 29 /\
  wrap 32 ((if lo' <? lo0 then uadd 32 ((n / 2 ^ 29) mod 2 ^ 32) 1 else (n / 2 ^ 29) mod 2 ^ 32) + ushr z 29) = ((n + z) / 2 ^ 29) mod 2 ^ 32.
Proof.
  intros Hn Hz lo0 lo'. assert (E : lo' = (n + z) mod 2 ^ 29).
  { subst lo' lo0. change 0x1fffffff with (Z.ones 29). rewrite Z.land_ones by lia. change (wrap 32 (wrap 29 (wrap 64 (wrap 29 n + z))) = wrap 29 (n + z)).
    rewrite (wrap_wrap_narrow 29 64), wrap_add_l by lia. apply wrap_small. pose proof (wrap_range 29 (n + z) ltac:(lia)). lia. }
  split; [done|]. rewrite E, ushr_val by lia. subst lo0. clear lo' E. change ((n / 2 ^ 29) mod 2 ^ 32) with (wrap 32 (n / 2 ^ 29)).
  transitivity (wrap 32 (n / 2 ^ 29 + ((if (n + z) mod 2 ^ 29 <? n mod 2 ^ 29 then 1 else 0) + z / 2 ^ 29))).
  - unfold uadd. destruct (_ <? _); [rewrite wrap_add_l, <- Z.add_assoc by lia|]; rewrite wrap_add_l by lia; f_equal; lia.
  - unfold wrap. f_equal. zcases; zlia.
Qed.

Lemma set_bits_core h l s m0 t : core s m0 t -> core (set_bits h l s) m0 t.
Proof. intros H0. exact H0. Qed.

Lemma md5_used n : Z.land (n mod 2 ^ 29) 0x3f = n mod 64.
Proof. change 0x3f with (Z.ones 6). rewrite Z.land_ones by lia. zlia. Qed.

Lemma core_tail s m0 t : core s m0 t -> (length t < 64)%nat -> Z.of_nat (length (m0 ++ t)) mod 64 = Z.of_nat (length t).
Proof. intros (_ & _ & _ & (q & Hq) & _) Ht. rewrite length_app, Hq. zlia. Qed.

Lemma md5_update_ok Data s m : md5_ok s m -> Forall byte_ok Data -> Z.of_nat (length Data) < 2 ^ 64 ->
  exists s', md5_update Data s = Some s' /\ md5_ok s' (m ++ Data).
Proof.
  intros ((m0 & t & -> & Ht & Hc) & Hlo & Hhi) Hb Hsz. unfold md5_update. rewrite Hlo, Hhi, md5_used, (core_tail s m0 t Hc Ht).
  set (n := Z.of_nat (length (m0 ++ t))) in *. set (z := Z.of_nat (length Data)) in *.
  destruct (md5_count n z ltac:(lia) ltac:(lia)) as (E1 & E2). cbn zeta in E1, E2 |- *. rewrite E2, E1. clear E1 E2.
  assert (En : n + z = Z.of_nat (length ((m0 ++ t) ++ Data))) by (rewrite length_app; lia). rewrite En.
  set (s1 := set_bits _ _ s). assert (Hc1 : core s1 m0 t) by by apply set_bits_core.
  match goal with |- exists s', ?o = Some s' /\ _ => set (out := o) end.
  enough (Hgoal : exists s' m1 t1, out = Some s' /\ (m0 ++ t) ++ Data = m1 ++ t1 /\ (length t1 < 64)%nat /\ core s' m1 t1 /\ hi s' = hi s1 /\ lo s' = lo s1).
  { destruct Hgoal as (s' & m1 & t1 & E & Em & Ht1 & Hc' & Hh' & Hl'). exists s'. split; [exact E|]. split; [by exists m1, t1|]. by rewrite Hh', Hl'. }
  subst out. clearbody s1. destruct (Z.eqb_spec (Z.of_nat (length t)) 0) as [E0|E0]; cbn [negb].
  { assert (t = []) as -> by (apply nil_length_inv; lia). rewrite (app_nil_r m0). apply (update_rest_ok Data s1 m0 [] Hc1 Hb Hsz). }
  set (free := 64 - Z.of_nat (length t)). rewrite !Nat2Z.id. destruct (Z.ltb_spec z free) as [Hs|Hl].
  - exists (write_buffer (length t) Data s1), m0, (t ++ Data). split_and!; [done|by rewrite app_assoc|rewrite length_app; lia| |done|done].
    apply core_write; [done|done|lia|done].
  - assert (Hf : (Z.to_nat free <= length Data)%nat) by lia.
    assert (Hc2 : core (write_buffer (length t) (take (Z.to_nat free) Data) s1) m0 (t ++ take (Z.to_nat free) Data)).
    { apply core_write; [done|done|rewrite length_take; lia|by apply Forall_take]. }
    destruct (core_flush _ _ _ Hc2) as (s3 & -> & Hc3 & Hh3 & Hl3); [rewrite length_app, length_take; lia|]. cbn [mbind option_bind].
    destruct (update_rest_ok (drop (Z.to_nat free) Data) s3 _ _ Hc3) as (s' & m1 & t1 & -> & Em & Ht1 & Hc' & Hh' & Hl'); [by apply Forall_drop|rewrite length_drop; lia|].
    exists s', m1, t1. split_and!; [done| |done|done|by rewrite Hh', Hh3|by rewrite Hl', Hl3].
    rewrite <- Em, <- !app_assoc. by rewrite take_drop.
Qed.

(** *** The end of the message *)

Lemma byte_zeros z : Forall byte_ok (replicate z 0).
Proof. apply Forall_replicate. unfold byte_ok. lia. Qed.

Lemma md5_finish little s p t z : core s p t -> (length t + z = 56)%nat -> 0 <= hi s < 2 ^ 32 ->
  let s1 := write_buffer (length t) (replicate z 0) s in
  let s2 := set_bits (hi s1) (ushl 32 (lo s1) 3) s1 in
  let s3 := write_buffer 56 (le_store little 4 (lo s2)) s2 in
  let s4 := write_buffer 60 (le_store little 4 (hi s3)) s3 in
  exists s', body (buffer s4) 64 s4 = Some (s', []) /\ words_ok (abcd s') /\
    abcd s' = md5_chain (p ++ t ++ replicate z 0 ++ le_bytes 4 (ushl 32 (lo s) 3) ++ le_bytes 4 (hi s)).
Proof.
  intros Hc Hz Hh s1 s2 s3 s4.
  assert (Hl : 0 <= ushl 32 (lo s) 3 < 2 ^ 32) by (rewrite ushl_val by lia; apply wrap_range; lia).
  assert (Hs4 : size_ok 4) by (by right; right; left).
  assert (E3 : le_store little 4 (lo s2) = le_bytes 4 (ushl 32 (lo s) 3)) by by apply le_store_spec.
  assert (E4 : le_store little 4 (hi s3) = le_bytes 4 (hi s)) by by apply le_store_spec.
  subst s4 s3. rewrite E3. cbn [hi write_buffer set_bits] in E4 |- *. fold (write_buffer 56 (le_bytes 4 (ushl 32 (lo s) 3)) s2) in *. rewrite E4. clear E3 E4.
  assert (H1 : core s1 p (t ++ replicate z 0)) by (apply core_write; [done|done|rewrite length_replicate; lia|apply byte_zeros]).
  apply (set_bits_core (hi s1) (ushl 32 (lo s1) 3)) in H1. fold s2 in H1.
  assert (Ht : length (t ++ replicate z 0) = 56%nat) by (rewrite length_app, length_replicate; lia).
  apply (core_write _ _ _ (le_bytes 4 (ushl 32 (lo s) 3)) 56%nat) in H1; [|done|rewrite length_le_bytes; lia|apply le_bytes_ok].
  apply (core_write _ _ _ (le_bytes 4 (hi s)) 60%nat) in H1; [|by rewrite length_app, length_le_bytes, Ht|rewrite length_app, !length_le_bytes; lia|apply le_bytes_ok].
  destruct (core_flush _ _ _ H1) as (s' & E & (Ha & Hw & _) & _); [by rewrite !length_app, !length_le_bytes, length_replicate, Hz|].
  exists s'. split_and!; [exact E|exact Hw|]. rewrite Ha. by rewrite <- !app_assoc.
Qed.

(** The 64-bit count of bits is in the two counters. *)
Lemma md5_bits n : 0 <= n ->
  le_bytes 4 (ushl 32 (n mod 2 ^ 29) 3) ++ le_bytes 4 ((n / 2 ^ 29) mod 2 ^ 32) = le_bytes 8 ((8 * n) mod 2 ^ 64).
Proof.
  intros Hn. set (v := (8 * n) mod 2 ^ 64). assert (Hv : 0 <= v < 2 ^ 64) by (apply Z.mod_pos_bound; lia).
  assert (E1 : le_bytes 4 (ushl 32 (n mod 2 ^ 29) 3) = le_bytes 4 v).
  { rewrite ushl_val by lia. rewrite <- (Z.div_1_r v), <- (Z.div_1_r (wrap _ _)). change 1 with (2 ^ 0). rewrite !le_bytes_nth by lia. cbn [le_bytes].
    subst v. unfold nth_byte, wrap. change (2 ^ 3) with 8. do 4 (apply (f_equal2 cons); [zlia|]). done. }
  assert (E2 : le_bytes 4 ((n / 2 ^ 29) mod 2 ^ 32) = le_bytes 4 (v / 2 ^ 32)) by (f_equal; subst v; zlia).
  rewrite E1, E2. rewrite <- (Z.div_1_r v) at 1 3. change 1 with (2 ^ 0). rewrite !le_bytes_nth by lia. by cbn [le_bytes app].
Qed.

Lemma md5_final_ok little s m : md5_ok s m -> exists s', md5_final little s = Some (md5_digest m, s').
Proof.
  intros ((m0 & t & -> & Ht & Hc) & Hlo & Hhi). unfold md5_final. rewrite Hlo, md5_used, (core_tail s m0 t Hc Ht), Nat2Z.id.
  assert (Hh : 0 <= hi s < 2 ^ 32) by (rewrite Hhi; apply Z.mod_pos_bound; lia).
  assert (H1 : core (write_buffer (length t) [0x80] s) m0 (t ++ [0x80])) by (apply core_write; [done|done|cbn [length]; lia|repeat constructor; lia]).
  set (s1 := write_buffer (length t) [0x80] s) in *. assert (Hlen : length (t ++ [0x80]) = S (length t)) by (rewrite length_app; cbn [length]; lia).
  set (n := length (m0 ++ t)) in *. pose proof (zeros_spec n) as Hz. pose proof (core_tail s m0 t Hc Ht) as Hn. fold n in Hn.
  assert (Hmod : (n mod 64)%nat = length t) by (apply Nat2Z.inj; by rewrite Nat2Z.inj_mod). rewrite Hmod in Hz. pose proof (Nat.mod_upper_bound (55 + 64 - n mod 64) 64 ltac:(lia)) as Hz'. fold (zeros n) in Hz'.
  assert (Hgo : forall s2 p u z, core s2 p u -> (length u + z = 56)%nat -> hi s2 = hi s -> lo s2 = lo s ->
    p ++ u ++ replicate z 0 = m0 ++ t ++ [0x80] ++ replicate (zeros n) 0 ->
    exists s', ('(s, _) ← body (buffer (write_buffer 60 (le_store little 4 (hi s2)) (write_buffer 56 (le_store little 4 (ushl 32 (lo s2) 3))
        (set_bits (hi s2) (ushl 32 (lo s2) 3) (write_buffer (length u) (replicate z 0) s2))))) 64 (write_buffer 60 (le_store little 4 (hi s2)) (write_buffer 56 (le_store little 4 (ushl 32 (lo s2) 3))
        (set_bits (hi s2) (ushl 32 (lo s2) 3) (write_buffer (length u) (replicate z 0) s2))));
      Some (concat (le_store little 4 <$> abcd s), s)) = Some (md5_digest (m0 ++ t), s')).
  { intros s2 p u z Hc2 Hu Eh El Em. destruct (md5_finish little s2 p u z Hc2 Hu ltac:(by rewrite Eh)) as (s' & E & Hw & Ha). cbv zeta in E.
    exists s'. unfold write_buffer, set_bits in E |- *. cbn [buffer hi lo abcd block] in E |- *. rewrite E. cbn [mbind option_bind]. f_equal. f_equal. unfold md5_digest. f_equal.
    destruct Hw as (_ & Hw). assert (Es : le_store little 4 <$> abcd s' = le_bytes 4 <$> abcd s').
    { apply list_fmap_ext. intros i x Hx. apply le_store_spec; [by right; right; left|]. by apply (Forall_lookup_1 _ _ _ _ Hw Hx). }
    rewrite Es, Ha, Eh, El, Hlo, Hhi, md5_bits by lia. f_equal. unfold md5_chain, padded. f_equal. fold n. rewrite <- !app_assoc.
    assert (forall l, p ++ u ++ replicate z 0 ++ l = m0 ++ t ++ [0x80] ++ replicate (zeros n) 0 ++ l) as ->; [|done].
    intros l. rewrite !app_assoc. f_equal. by rewrite <- !app_assoc. }
  destruct (decide _) as [Hlt|Hge].
  - assert (H2 : core (write_buffer (S (length t)) (replicate (64 - S (length t)) 0) s1) m0 ((t ++ [0x80]) ++ replicate (64 - S (length t)) 0)).
    { apply core_write; [done|done|rewrite length_replicate; lia|apply byte_zeros]. }
    destruct (core_flush _ _ _ H2) as (s3 & -> & Hc3 & Hh3 & Hl3); [rewrite length_app, length_replicate; lia|]. cbn [mbind option_bind].
    apply (Hgo s3 _ [] 56%nat Hc3); [done|by rewrite Hh3|by rewrite Hl3|]. rewrite <- !app_assoc. cbn [app].
    replace (zeros n) with (64 - S (length t) + 56)%nat by lia. by rewrite replicate_add.
  - cbn [mbind option_bind]. rewrite <- Hlen. apply (Hgo s1 m0 (t ++ [0x80]) (64 - length (t ++ [0x80%Z]) - 8)%nat H1); [lia|done|done|].
    rewrite <- app_assoc. do 4 f_equal. lia.
Qed.

(** Successive calls of [update]. *)
Fixpoint md5_updates (datas : list (list Z)) (s : md5_state) : option md5_state :=
  match datas with [] => Some s | d :: datas => s ← md5_update d s; md5_updates datas s end.

(** What [update] is given: bytes, fewer than the address space. *)
Definition md5_data (d : list Z) : Prop := Forall byte_ok d /\ Z.of_nat (length d) < 2 ^ 64.

Lemma md5_updates_ok datas s m : md5_ok s m -> Forall md5_data datas -> exists s', md5_updates datas s = Some s' /\ md5_ok s' (m ++ concat datas).
Proof.
  revert s m. induction datas as [|d datas IH]; intros s m Hs Hd; [exists s; by rewrite app_nil_r|].
  apply Forall_cons_1 in Hd as [(Hb & Hl) Hd]. cbn [md5_updates concat]. destruct (md5_update_ok d s m Hs Hb Hl) as (s1 & -> & H1).
  cbn [mbind option_bind]. rewrite app_assoc. by apply IH.
Qed.

Lemma md5_init_ok raw_buffer raw_block : length raw_buffer = 64%nat -> Forall byte_ok raw_buffer -> length raw_block = 16%nat ->
  md5_ok (MD5 raw_buffer raw_block) [].
Proof.
  intros Hl Hb Hk. split; [|done]. exists [], []. split; [done|]. split; [cbn; lia|]. unfold core. split_and!; [done| |done|by exists 0%nat|].
  - split; [done|]. unfold MD5, md5_iv. cbn [abcd]. repeat constructor; lia.
  - split_and!; [done|done|done|cbn; lia].
Qed.

Lemma md5_iv_ok : words_ok md5_iv.
Proof. split; [done|]. unfold md5_iv. repeat constructor; lia. Qed.

Lemma md5_absorb_ok k st m : words_ok st -> words_ok (absorb_blocks md5_compress k st m).
Proof. revert st m. induction k as [|k IH]; intros st m Hst; [done|]. cbn [absorb_blocks]. apply IH, md5_compress_ok. by destruct Hst. Qed.

Lemma md5_digest_ok m : length (md5_digest m) = 16%nat /\ Forall byte_ok (md5_digest m).
Proof.
  unfold md5_digest. change rfc_iv with md5_iv. destruct (md5_absorb_ok (length (padded m (le_bytes 8 ((8 * Z.of_nat (length m)) mod 2 ^ 64))) / 64) md5_iv
    (padded m (le_bytes 8 ((8 * Z.of_nat (length m)) mod 2 ^ 64))) md5_iv_ok) as (Hl & _). fold (absorb md5_compress md5_iv (padded m (le_bytes 8 ((8 * Z.of_nat (length m)) mod 2 ^ 64)))) in Hl.
  generalize dependent (absorb md5_compress md5_iv (padded m (le_bytes 8 ((8 * Z.of_nat (length m)) mod 2 ^ 64)))). intros w Hl.
  do 4 (destruct w as [|? w]; [done|]). destruct w; [|done]. split; [done|]. cbn [fmap list_fmap concat]. rewrite !Forall_app. split_and!; try apply le_bytes_ok. done.
Qed.

(** ** Properties *)

(** C29: MD5: [body], with its sixty-four unrolled lines on rotating variables, applies the block function of RFC 1321 to each
    of any number of blocks and returns the pointer behind them; any list of updates succeeds, after it [final] gives the digest of
    the standard of the concatenated bytes for every length (the two counters are the length in bits
    modulo 2^64), [result] the same without changing the object, and [hash] and [md5_hash] the digest of the whole and
    its first eight bytes as a little-endian number; what the buffers hold at first does not matter. The functions, rotations,
    initial words and table of the standard are written apart from the code's, and the table is that of the sines. *)
Theorem md5_correct little raw_buffer raw_block datas k ptr s0 :
  length raw_buffer = 64%nat -> Forall byte_ok raw_buffer -> length raw_block = 16%nat -> Forall md5_data datas ->
  (0 < k)%nat -> (64 * k <= length ptr)%nat -> md5_data ptr -> words_ok (abcd s0) -> length (block s0) = 16%nat ->
  (forall i, (i < 64)%nat -> sine_entry (S i) (T !!! i) = true) /\
  (exists s', body ptr (Z.of_nat (64 * k)) s0 = Some (s', drop (64 * k) ptr) /\ abcd s' = absorb_blocks md5_compress k (abcd s0) ptr) /\
  exists s, md5_updates datas (MD5 raw_buffer raw_block) = Some s /\
    let d := md5_digest (concat datas) in
    (exists s', md5_final little s = Some (d, s')) /\ md5_result little s = Some (d, s) /\
    (md5_data (concat datas) -> md5_hash_bytes little raw_buffer raw_block (concat datas) = Some d /\
       md5_hash little raw_buffer raw_block (concat datas) = Some (le_combine (take 8 d))).
Proof.
  intros Hl Hb Hk Hd Hk0 Hptr (Hpb & Hpl) Hw HB. split; [apply sines_ok|split].
  { destruct (body_ok k ptr s0 Hk0 Hptr ltac:(lia) Hpb Hw HB) as (s' & E & Ha & _). by exists s'. }
  pose proof (md5_init_ok _ _ Hl Hb Hk) as H0. destruct (md5_updates_ok datas _ _ H0 Hd) as (s & E & Hs). exists s. split; [done|].
  destruct (md5_final_ok little s _ Hs) as (s' & Ef). cbn [app] in Ef. cbn zeta. split_and!; [by exists s'|unfold md5_result; by rewrite Ef|].
  intros (Hcb & Hcl). destruct (md5_update_ok (concat datas) _ _ H0 Hcb Hcl) as (s1 & E1 & Hs1). destruct (md5_final_ok little s1 _ Hs1) as (s2 & Ef1).
  assert (Eh : md5_hash_bytes little raw_buffer raw_block (concat datas) = Some (md5_digest (concat datas))).
  { unfold md5_hash_bytes. rewrite E1. cbn [mbind option_bind]. by rewrite Ef1. }
  split; [done|]. unfold md5_hash. rewrite Eh. cbn [fmap option_fmap option_map]. f_equal. unfold low.
  destruct (md5_digest_ok (concat datas)) as (H8 & Hd8). apply le_load_spec; [|by apply Forall_take].
  do 3 right. by rewrite length_take, H8.
Qed.

Lemma md5_correct_witness :
  let s := md5_updates [[97]; [98; 99]] (MD5 (replicate 64 0) (replicate 16 0)) in
  (exists s1, s = Some s1 /\ md5_result true s1 = Some (md5_digest [97; 98; 99], s1)) /\ take 4 (md5_digest [97; 98; 99]) = [0x90; 0x01; 0x50; 0x98].
Proof.
  split; [|by vm_compute].
  destruct (md5_correct true (replicate 64 0) (replicate 16 0) [[97]; [98; 99]] 1 (replicate 64 0) (MD5 (replicate 64 0) (replicate 16 0)))
    as (_ & _ & s1 & E & _ & Er & _); [done| |done| |lia|done| | |done|exists s1; by split].
  1: apply byte_zeros.
  1: repeat constructor; unfold byte_ok; lia.
  1: split; [apply byte_zeros|done].
  1: apply (md5_iv_ok).
Defined.
