(* ===== verification/Ascii.v ===== *)
(** * ASCII characters and case-insensitive matching (strings/ascii.h, strings/ascii.cc, strings/match.h,
    strings/match.cc, strings/internal/memutil.cc)

    The tables of character properties and of the two cases against the ranges of the ASCII
    standard, case folding, trimming (in place, through a pointer that writes behind the one that
    reads) and comparison without case. A character is its byte [0 <= c < 256], a string or
    a view the list of its bytes. *)
From S2P Require Import Prelude Words Endian.

(** ** Tables *)

Definition kPropertyBits : list Z :=
  [0x40; 0x40; 0x40; 0x40; 0x40; 0x40; 0x40; 0x40; 0x40; 0x68; 0x48; 0x48; 0x48; 0x48; 0x40; 0x40;
   0x40; 0x40; 0x40; 0x40; 0x40; 0x40; 0x40; 0x40; 0x40; 0x40; 0x40; 0x40; 0x40; 0x40; 0x40; 0x40;
   0x28; 0x10; 0x10; 0x10; 0x10; 0x10; 0x10; 0x10; 0x10; 0x10; 0x10; 0x10; 0x10; 0x10; 0x10; 0x10;
   0x84; 0x84; 0x84; 0x84; 0x84; 0x84; 0x84; 0x84; 0x84; 0x84; 0x10; 0x10; 0x10; 0x10; 0x10; 0x10;
   0x10; 0x85; 0x85; 0x85; 0x85; 0x85; 0x85; 0x05; 0x05; 0x05; 0x05; 0x05; 0x05; 0x05; 0x05; 0x05;
   0x05; 0x05; 0x05; 0x05; 0x05; 0x05; 0x05; 0x05; 0x05; 0x05; 0x05; 0x10; 0x10; 0x10; 0x10; 0x10;
   0x10; 0x85; 0x85; 0x85; 0x85; 0x85; 0x85; 0x05; 0x05; 0x05; 0x05; 0x05; 0x05; 0x05; 0x05; 0x05;
   0x05; 0x05; 0x05; 0x05; 0x05; 0x05; 0x05; 0x05; 0x05; 0x05; 0x05; 0x10; 0x10; 0x10; 0x10; 0x40] ++ replicate 128 0.

Definition kToLower : list Z :=
  [0x00; 0x01; 0x02; 0x03; 0x04; 0x05; 0x06; 0x07; 0x08; 0x09; 0x0a; 0x0b; 0x0c; 0x0d; 0x0e; 0x0f;
   0x10; 0x11; 0x12; 0x13; 0x14; 0x15; 0x16; 0x17; 0x18; 0x19; 0x1a; 0x1b; 0x1c; 0x1d; 0x1e; 0x1f;
   0x20; 0x21; 0x22; 0x23; 0x24; 0x25; 0x26; 0x27; 0x28; 0x29; 0x2a; 0x2b; 0x2c; 0x2d; 0x2e; 0x2f;
   0x30; 0x31; 0x32; 0x33; 0x34; 0x35; 0x36; 0x37; 0x38; 0x39; 0x3a; 0x3b; 0x3c; 0x3d; 0x3e; 0x3f;
   0x40; 0x61; 0x62; 0x63; 0x64; 0x65; 0x66; 0x67; 0x68; 0x69; 0x6a; 0x6b; 0x6c; 0x6d; 0x6e; 0x6f;
   0x70; 0x71; 0x72; 0x73; 0x74; 0x75; 0x76; 0x77; 0x78; 0x79; 0x7a; 0x5b; 0x5c; 0x5d; 0x5e; 0x5f;
   0x60; 0x61; 0x62; 0x63; 0x64; 0x65; 0x66; 0x67; 0x68; 0x69; 0x6a; 0x6b; 0x6c; 0x6d; 0x6e; 0x6f;
   0x70; 0x71; 0x72; 0x73; 0x74; 0x75; 0x76; 0x77; 0x78; 0x79; 0x7a; 0x7b; 0x7c; 0x7d; 0x7e; 0x7f;
   0x80; 0x81; 0x82; 0x83; 0x84; 0x85; 0x86; 0x87; 0x88; 0x89; 0x8a; 0x8b; 0x8c; 0x8d; 0x8e; 0x8f;
   0x90; 0x91; 0x92; 0x93; 0x94; 0x95; 0x96; 0x97; 0x98; 0x99; 0x9a; 0x9b; 0x9c; 0x9d; 0x9e; 0x9f;
   0xa0; 0xa1; 0xa2; 0xa3; 0xa4; 0xa5; 0xa6; 0xa7; 0xa8; 0xa9; 0xaa; 0xab; 0xac; 0xad; 0xae; 0xaf;
   0xb0; 0xb1; 0xb2; 0xb3; 0xb4; 0xb5; 0xb6; 0xb7; 0xb8; 0xb9; 0xba; 0xbb; 0xbc; 0xbd; 0xbe; 0xbf;
   0xc0; 0xc1; 0xc2; 0xc3; 0xc4; 0xc5; 0xc6; 0xc7; 0xc8; 0xc9; 0xca; 0xcb; 0xcc; 0xcd; 0xce; 0xcf;
   0xd0; 0xd1; 0xd2; 0xd3; 0xd4; 0xd5; 0xd6; 0xd7; 0xd8; 0xd9; 0xda; 0xdb; 0xdc; 0xdd; 0xde; 0xdf;
   0xe0; 0xe1; 0xe2; 0xe3; 0xe4; 0xe5; 0xe6; 0xe7; 0xe8; 0xe9; 0xea; 0xeb; 0xec; 0xed; 0xee; 0xef;
   0xf0; 0xf1; 0xf2; 0xf3; 0xf4; 0xf5; 0xf6; 0xf7; 0xf8; 0xf9; 0xfa; 0xfb; 0xfc; 0xfd; 0xfe; 0xff].

Definition kToUpper : list Z :=
  [0x00; 0x01; 0x02; 0x03; 0x04; 0x05; 0x06; 0x07; 0x08; 0x09; 0x0a; 0x0b; 0x0c; 0x0d; 0x0e; 0x0f;
   0x10; 0x11; 0x12; 0x13; 0x14; 0x15; 0x16; 0x17; 0x18; 0x19; 0x1a; 0x1b; 0x1c; 0x1d; 0x1e; 0x1f;
   0x20; 0x21; 0x22; 0x23; 0x24; 0x25; 0x26; 0x27; 0x28; 0x29; 0x2a; 0x2b; 0x2c; 0x2d; 0x2e; 0x2f;
   0x30; 0x31; 0x32; 0x33; 0x34; 0x35; 0x36; 0x37; 0x38; 0x39; 0x3a; 0x3b; 0x3c; 0x3d; 0x3e; 0x3f;
   0x40; 0x41; 0x42; 0x43; 0x44; 0x45; 0x46; 0x47; 0x48; 0x49; 0x4a; 0x4b; 0x4c; 0x4d; 0x4e; 0x4f;
   0x50; 0x51; 0x52; 0x53; 0x54; 0x55; 0x56; 0x57; 0x58; 0x59; 0x5a; 0x5b; 0x5c; 0x5d; 0x5e; 0x5f;
   0x60; 0x41; 0x42; 0x43; 0x44; 0x45; 0x46; 0x47; 0x48; 0x49; 0x4a; 0x4b; 0x4c; 0x4d; 0x4e; 0x4f;
   0x50; 0x51; 0x52; 0x53; 0x54; 0x55; 0x56; 0x57; 0x58; 0x59; 0x5a; 0x7b; 0x7c; 0x7d; 0x7e; 0x7f;
   0x80; 0x81; 0x82; 0x83; 0x84; 0x85; 0x86; 0x87; 0x88; 0x89; 0x8a; 0x8b; 0x8c; 0x8d; 0x8e; 0x8f;
   0x90; 0x91; 0x92; 0x93; 0x94; 0x95; 0x96; 0x97; 0x98; 0x99; 0x9a; 0x9b; 0x9c; 0x9d; 0x9e; 0x9f;
   0xa0; 0xa1; 0xa2; 0xa3; 0xa4; 0xa5; 0xa6; 0xa7; 0xa8; 0xa9; 0xaa; 0xab; 0xac; 0xad; 0xae; 0xaf;
   0xb0; 0xb1; 0xb2; 0xb3; 0xb4; 0xb5; 0xb6; 0xb7; 0xb8; 0xb9; 0xba; 0xbb; 0xbc; 0xbd; 0xbe; 0xbf;
   0xc0; 0xc1; 0xc2; 0xc3; 0xc4; 0xc5; 0xc6; 0xc7; 0xc8; 0xc9; 0xca; 0xcb; 0xcc; 0xcd; 0xce; 0xcf;
   0xd0; 0xd1; 0xd2; 0xd3; 0xd4; 0xd5; 0xd6; 0xd7; 0xd8; 0xd9; 0xda; 0xdb; 0xdc; 0xdd; 0xde; 0xdf;
   0xe0; 0xe1; 0xe2; 0xe3; 0xe4; 0xe5; 0xe6; 0xe7; 0xe8; 0xe9; 0xea; 0xeb; 0xec; 0xed; 0xee; 0xef;
   0xf0; 0xf1; 0xf2; 0xf3; 0xf4; 0xf5; 0xf6; 0xf7; 0xf8; 0xf9; 0xfa; 0xfb; 0xfc; 0xfd; 0xfe; 0xff].

(** ** Characters *)

(** [table[c]]. *)
Definition at_byte (table : list Z) (c : Z) : Z := table !!! Z.to_nat c.

Definition ascii_isalpha (c : Z) : bool := negb (Z.land (at_byte kPropertyBits c) 0x01 =? 0).
Definition ascii_isalnum (c : Z) : bool := negb (Z.land (at_byte kPropertyBits c) 0x04 =? 0).
Definition ascii_isspace (c : Z) : bool := negb (Z.land (at_byte kPropertyBits c) 0x08 =? 0).
Definition ascii_ispunct (c : Z) : bool := negb (Z.land (at_byte kPropertyBits c) 0x10 =? 0).
Definition ascii_isblank (c : Z) : bool := negb (Z.land (at_byte kPropertyBits c) 0x20 =? 0).
Definition ascii_iscntrl (c : Z) : bool := negb (Z.land (at_byte kPropertyBits c) 0x40 =? 0).
Definition ascii_isxdigit (c : Z) : bool := negb (Z.land (at_byte kPropertyBits c) 0x80 =? 0).
Definition ascii_isdigit (c : Z) : bool := (48 <=? c) && (c <=? 57).
Definition ascii_isprint (c : Z) : bool := (32 <=? c) && (c <? 127).
Definition ascii_isgraph (c : Z) : bool := (32 <? c) && (c <? 127).
Definition ascii_isupper (c : Z) : bool := (65 <=? c) && (c <=? 90).
Definition ascii_islower (c : Z) : bool := (97 <=? c) && (c <=? 122).
Definition ascii_isascii (c : Z) : bool := c <? 128.
Definition ascii_tolower (c : Z) : Z := at_byte kToLower c.
Definition ascii_toupper (c : Z) : Z := at_byte kToUpper c.

(** [AsciiInAZRange<ToUpper>], in 8-bit arithmetic, compared as [signed char]. *)
Definition AsciiInAZRange (ToUpper : bool) (c : Z) : bool :=
  let sub := wrap 8 ((if ToUpper then 97 else 65) - (-128)) in
  let u := usub 8 c sub in
  swrap 8 u <? -128 + 26.

(** [AsciiStrCaseFoldImpl], every byte in place. *)
Definition case_fold_byte (ToUpper : bool) (v : Z) : Z := Z.lxor v (if AsciiInAZRange ToUpper v then Z.lxor 97 65 else 0).
Definition AsciiStrCaseFold (ToUpper : bool) (p : list Z) : list Z := case_fold_byte ToUpper <$> p.

Definition str_to_lower (s : list Z) : list Z := AsciiStrCaseFold false s.
Definition str_to_upper (s : list Z) : list Z := AsciiStrCaseFold true s.

(** [ValidateAsciiCasefold], which a static assertion compares with zero. *)
Definition ValidateAsciiCasefold : Z :=
  let num_chars := 1 + 127 - (-128) in
  let chars := zrange 256 in
  let lowered := AsciiStrCaseFold false chars in
  let uppered := AsciiStrCaseFold true chars in
  let wrong i :=
    let ch := swrap 8 i in
    let ch_upper := if (97 <=? ch) && (ch <=? 122) then 65 + (ch - 97) else ch in
    let ch_lower := if (65 <=? ch) && (ch <=? 90) then 97 + (ch - 65) else ch in
    negb (swrap 8 (at_byte uppered i) =? ch_upper) || negb (swrap 8 (at_byte lowered i) =? ch_lower) in
  match filter (fun i => wrong i = true) chars with
  | [] => 0
  | i :: _ => if 0 <? i then i else num_chars
  end.

(** ** Trimming *)

(** [std::find_if_not], as an offset. *)
Fixpoint find_if_not (p : Z -> bool) (l : list Z) : nat :=
  match l with [] => 0%nat | c :: l => if p c then S (find_if_not p l) else 0%nat end.

Definition trim_left (str : list Z) : list Z := drop (find_if_not ascii_isspace str) str.
Definition trim_right (str : list Z) : list Z := take (length str - find_if_not ascii_isspace (rev str)) str.
Definition trim_all (str : list Z) : list Z := trim_right (trim_left str).

(** The overloads for [std::string*] erase in place; [trim_all] in the other order. *)
Definition trim_left_in_place (str : list Z) : list Z :=
  let it := find_if_not ascii_isspace str in take 0 str ++ drop it str.
Definition trim_right_in_place (str : list Z) : list Z := take (length str - find_if_not ascii_isspace (rev str)) str.
Definition trim_all_in_place (str : list Z) : list Z := trim_left_in_place (trim_right_in_place str).

(** The loop of [trim_complete] on the one buffer it reads at [input_it] and writes at [output_it]; the
    number of steps is the length of the stripped view. *)
Fixpoint trim_loop (steps : nat) (input_it output_it : nat) (is_ws : bool) (buf : list Z) : nat * list Z :=
  match steps with
  | O => (output_it, buf)
  | S steps =>
      let c := buf !!! input_it in
      let ws := ascii_isspace c in
      let output_it := if is_ws && ws then (output_it - 1)%nat else output_it in
      trim_loop steps (S input_it) (S output_it) ws (<[output_it := buf !!! input_it]> buf)
  end.

Definition trim_complete (str : list Z) : list Z :=
  let stripped := trim_all str in
  match stripped with
  | [] => []
  | _ :: _ => let '(output_it, buf) := trim_loop (length stripped) (find_if_not ascii_isspace str) 0 false str in take output_it buf
  end.

(** ** Comparison without case *)

(** [memcasecmp] on the first bytes of both. *)
Fixpoint memcasecmp (us1 us2 : list Z) : Z :=
  match us1, us2 with
  | c1 :: us1, c2 :: us2 =>
      if negb (c1 =? c2) then
        let c1 := if (65 <=? c1) && (c1 <=? 90) then c1 - 65 + 97 else c1 in
        let c2 := if (65 <=? c2) && (c2 <=? 90) then c2 - 65 + 97 else c2 in
        let diff := c1 - c2 in
        if negb (diff =? 0) then diff else memcasecmp us1 us2
      else memcasecmp us1 us2
  | _, _ => 0
  end.

Definition equals_ignore_case (piece1 piece2 : list Z) : bool :=
  (length piece1 =? length piece2)%nat && (0 =? memcasecmp piece1 piece2).
Definition starts_with_ignore_case (text prefix : list Z) : bool :=
  (length prefix <=? length text)%nat && equals_ignore_case (take (length prefix) text) prefix.
Definition ends_with_ignore_case (text suffix : list Z) : bool :=
  (length suffix <=? length text)%nat && equals_ignore_case (drop (length text - length suffix) text) suffix.

(** [str_contains_ignore_case]; the view gets shorter by one each time ([remove_prefix] of an empty view is undefined). *)
Fixpoint contains_loop (fuel : nat) (haystack needle : list Z) : option bool :=
  match fuel with
  | O => None
  | S fuel =>
      if (length needle <=? length haystack)%nat then
        if starts_with_ignore_case haystack needle then Some true
        else match haystack with [] => None | _ :: haystack => contains_loop fuel haystack needle end
      else Some false
  end.
Definition str_contains_ignore_case (haystack needle : list Z) : option bool := contains_loop (S (length haystack)) haystack needle.

Definition str_contains_char_ignore_case (haystack : list Z) (needle : Z) : bool :=
  let upper_needle := ascii_toupper needle in
  let lower_needle := ascii_tolower needle in
  if upper_needle =? lower_needle then existsb (Z.eqb needle) haystack
  else existsb (fun c => (c =? lower_needle) || (c =? upper_needle)) haystack.

(** ** The tables and the ASCII ranges *)

(** A statement about every byte, checked byte by byte. *)
Lemma byte_forall (P : Z -> bool) : forallb P (zrange 256) = true -> forall c, byte_ok c -> P c = true.
Proof. intros H c Hc. by apply (zrange_forall P 256). Qed.

Definition in_range (a b c : Z) : bool := (a <=? c) && (c <=? b).
Definition lower_of (c : Z) : Z := if in_range 65 90 c then c + 32 else c.
Definition upper_of (c : Z) : Z := if in_range 97 122 c then c - 32 else c.

Definition properties_agree (c : Z) : bool :=
  let alpha := in_range 65 90 c || in_range 97 122 c in
  let digit := in_range 48 57 c in
  let space := in_range 9 13 c || (c =? 32) in
  Bool.eqb (ascii_isalpha c) alpha && Bool.eqb (ascii_isalnum c) (alpha || digit) && Bool.eqb (ascii_isspace c) space &&
  Bool.eqb (ascii_ispunct c) (in_range 33 126 c && negb (alpha || digit)) && Bool.eqb (ascii_isblank c) ((c =? 9) || (c =? 32)) &&
  Bool.eqb (ascii_iscntrl c) ((c <? 32) || (c =? 127)) && Bool.eqb (ascii_isxdigit c) (digit || in_range 65 70 c || in_range 97 102 c) &&
  (ascii_tolower c =? lower_of c) && (ascii_toupper c =? upper_of c) &&
  (case_fold_byte false c =? lower_of c) && (case_fold_byte true c =? upper_of c).

Lemma properties_agree_all c : byte_ok c -> properties_agree c = true.
Proof. apply byte_forall. by vm_compute. Qed.

Lemma isspace_spec c : byte_ok c -> ascii_isspace c = in_range 9 13 c || (c =? 32).
Proof. intros H. pose proof (properties_agree_all c H) as E. unfold properties_agree in E. rewrite !andb_true_iff in E. destruct_and!. by apply eqb_prop. Qed.

Lemma isxdigit_spec c : byte_ok c -> ascii_isxdigit c = in_range 48 57 c || in_range 65 70 c || in_range 97 102 c.
Proof. intros H. pose proof (properties_agree_all c H) as E. unfold properties_agree in E. rewrite !andb_true_iff in E. destruct_and!. by apply eqb_prop. Qed.

Lemma tolower_spec c : byte_ok c -> ascii_tolower c = lower_of c /\ ascii_toupper c = upper_of c.
Proof. intros H. pose proof (properties_agree_all c H) as E. unfold properties_agree in E. rewrite !andb_true_iff in E. destruct_and!. split; by apply Z.eqb_eq. Qed.

Lemma case_fold_spec p : Forall byte_ok p -> str_to_lower p = lower_of <$> p /\ str_to_upper p = upper_of <$> p.
Proof.
  intros H. unfold str_to_lower, str_to_upper, AsciiStrCaseFold. induction H as [|c p Hc Hp (IH1 & IH2)]; [done|].
  pose proof (properties_agree_all c Hc) as E. unfold properties_agree in E. rewrite !andb_true_iff in E. destruct_and!. rewrite !fmap_cons, IH1, IH2.
  split; f_equal; by apply Z.eqb_eq.
Qed.

(** ** Trimming *)

Definition space (c : Z) : Prop := ascii_isspace c = true.

Lemma find_if_not_split p (l : list Z) : Forall (fun c => p c = true) (take (find_if_not p l) l) /\
  forall c, head (drop (find_if_not p l) l) = Some c -> p c = false.
Proof.
  induction l as [|x l (IH1 & IH2)]; [by split|]. cbn [find_if_not]. destruct (p x) eqn:E; cbn [take drop firstn skipn]; [by split; [constructor|]|].
  split; [done|]. intros c [= <-]. done.
Qed.

Lemma find_if_not_app p (l t : list Z) : Forall (fun c => p c = true) l -> (forall c, head t = Some c -> p c = false) ->
  find_if_not p (l ++ t) = length l.
Proof.
  intros Hl Ht. induction Hl as [|x l Hx Hl IH]; cbn [app length find_if_not]; [|by rewrite Hx, IH].
  destruct t as [|c t]; [done|]. cbn [find_if_not]. by rewrite (Ht c eq_refl).
Qed.

(** [t] is what is left of [s] without the whitespace at both ends. *)
Definition trimmed (s t : list Z) : Prop :=
  exists l r, s = l ++ t ++ r /\ Forall space l /\ Forall space r /\
    (forall c, head t = Some c -> ascii_isspace c = false) /\ (forall c, head (rev t) = Some c -> ascii_isspace c = false).

Lemma trim_right_rev s : trim_right s = rev (trim_left (rev s)).
Proof. unfold trim_right, trim_left. rewrite skipn_rev, rev_involutive. done. Qed.

Lemma Forall_rev_iff (P : Z -> Prop) l : Forall P l -> Forall P (rev l).
Proof. rewrite !List.Forall_forall. intros H x Hx. apply H. by apply in_rev. Qed.

(** Without the whitespace at the start. *)
Lemma trim_left_app l t : Forall space l -> (forall c, head t = Some c -> ascii_isspace c = false) -> trim_left (l ++ t) = t.
Proof. intros Hl Ht. unfold trim_left. rewrite (find_if_not_app _ l t Hl Ht). apply drop_app_length. Qed.

Lemma trim_right_app t r : Forall space r -> (forall c, head (rev t) = Some c -> ascii_isspace c = false) -> trim_right (t ++ r) = t.
Proof.
  intros Hr Ht. rewrite trim_right_rev, rev_app_distr, trim_left_app, rev_involutive; [done|by apply Forall_rev_iff|done].
Qed.

Lemma trimmed_all s t : trimmed s t -> trim_all s = t.
Proof.
  intros (l & r & -> & Hl & Hr & Ht & Ht'). unfold trim_all. destruct t as [|c t].
  - cbn [app]. assert (Hs : Forall space (l ++ r)) by (by apply Forall_app). rewrite <- (app_nil_r (l ++ r)). by rewrite trim_left_app.
  - rewrite trim_left_app; [by apply trim_right_app|done|]. intros d E. by apply Ht.
Qed.

Lemma trim_left_split s : exists l, s = l ++ trim_left s /\ Forall space l /\ (forall c, head (trim_left s) = Some c -> ascii_isspace c = false).
Proof.
  destruct (find_if_not_split ascii_isspace s) as (H1 & H2). exists (take (find_if_not ascii_isspace s) s). unfold trim_left. by rewrite take_drop.
Qed.

Lemma trim_right_split s : exists r, s = trim_right s ++ r /\ Forall space r /\ (forall c, head (rev (trim_right s)) = Some c -> ascii_isspace c = false).
Proof.
  destruct (trim_left_split (rev s)) as (l & E & Hl & Hh). exists (rev l). rewrite trim_right_rev, rev_involutive. split_and!; [|by apply Forall_rev_iff|done].
  by rewrite <- rev_app_distr, <- E, rev_involutive.
Qed.

(** Both orders give the same. *)
Lemma trim_all_trimmed s : trimmed s (trim_all s) /\ trim_all_in_place s = trim_all s.
Proof.
  assert (H1 : trimmed s (trim_all s)).
  { destruct (trim_left_split s) as (l & E & Hl & Hh). destruct (trim_right_split (trim_left s)) as (r & E' & Hr & Hh').
    exists l, r. unfold trim_all. rewrite <- E', <- E. split_and!; try done. intros c Hc. apply Hh. rewrite E'. by destruct (trim_right (trim_left s)). }
  split; [done|]. symmetry. apply trimmed_all. destruct (trim_right_split s) as (r & E & Hr & Hh). destruct (trim_left_split (trim_right s)) as (l & E' & Hl & Hh').
  exists l, r. unfold trim_all_in_place. change (trim_right_in_place s) with (trim_right s). change (trim_left_in_place (trim_right s)) with (trim_left (trim_right s)).
  rewrite app_assoc, <- E', <- E. split_and!; try done. intros c Hc. apply Hh. rewrite E', rev_app_distr. by destruct (rev (trim_left (trim_right s))).
Qed.

(** Every run of whitespace keeps its last character. *)
Fixpoint squeeze (l : list Z) : list Z :=
  match l with
  | [] => []
  | c :: l' => match l' with d :: _ => if ascii_isspace c && ascii_isspace d then squeeze l' else c :: squeeze l' | [] => [c] end
  end.

Definition last_space (l : list Z) : bool := match rev l with c :: _ => ascii_isspace c | [] => false end.

Lemma last_space_cons x y l : last_space (x :: y :: l) = last_space (y :: l).
Proof. unfold last_space. cbn [rev]. destruct (rev l); done. Qed.

Lemma last_space_snoc l c : last_space (l ++ [c]) = ascii_isspace c.
Proof. unfold last_space. by rewrite rev_app_distr. Qed.

Lemma squeeze_cons2 x y l : squeeze (x :: y :: l) = if ascii_isspace x && ascii_isspace y then squeeze (y :: l) else x :: squeeze (y :: l).
Proof. done. Qed.

Lemma squeeze_length l : (length (squeeze l) <= length l)%nat /\ (l <> [] -> (0 < length (squeeze l))%nat).
Proof.
  induction l as [|x l (IH1 & IH2)]; [done|]. destruct l as [|y l]; [cbn; lia|]. rewrite squeeze_cons2.
  destruct (_ && _); cbn [length] in *; [specialize (IH2 ltac:(done)); lia|lia].
Qed.

Lemma squeeze_snoc l c : squeeze (l ++ [c]) =
  take (length (squeeze l) - (if last_space l && ascii_isspace c then 1 else 0)) (squeeze l) ++ [c].
Proof.
  induction l as [|x l IH]; [by destruct (_ && _)|]. destruct l as [|y l].
  { cbn [app]. rewrite squeeze_cons2. unfold last_space. cbn [rev app squeeze length]. destruct (ascii_isspace x && ascii_isspace c); done. }
  cbn [app] in *. rewrite !squeeze_cons2, last_space_cons. destruct (ascii_isspace x && ascii_isspace y); [done|]. rewrite IH.
  pose proof (proj2 (squeeze_length (y :: l)) ltac:(done)). generalize dependent (squeeze (y :: l)). intros q _ Hq. cbn [length].
  assert (E : forall k, (k <= 1)%nat -> (S (length q) - k)%nat = S (length q - k)) by lia.
  rewrite E by (destruct (_ && _); lia). done.
Qed.

Lemma trim_loop_ok q : forall p rest a buf, take (length (squeeze p)) buf = squeeze p -> drop (a + length p) buf = q ++ rest ->
  let '(o, buf') := trim_loop (length q) (a + length p) (length (squeeze p)) (last_space p) buf in take o buf' = squeeze (p ++ q).
Proof.
  induction q as [|c q IH]; intros p rest a buf Ht Hd; cbn [length trim_loop]; [by rewrite app_nil_r|].
  assert (Hlt : (a + length p < length buf)%nat).
  { destruct (decide (a + length p < length buf)%nat) as [|Hge]; [done|]. rewrite drop_ge in Hd by lia. done. }
  assert (Hc : buf !!! (a + length p)%nat = c).
  { apply list_lookup_total_correct. rewrite <- (Nat.add_0_r (a + length p)), <- lookup_drop, Hd. done. }
  rewrite Hc. set (o := if last_space p && ascii_isspace c then (length (squeeze p) - 1)%nat else length (squeeze p)).
  pose proof (proj1 (squeeze_length p)) as Hl. assert (Ho : (o <= length (squeeze p))%nat) by (subst o; destruct (_ && _); lia).
  assert (Es : squeeze (p ++ [c]) = take o buf ++ [c]).
  { rewrite squeeze_snoc. f_equal. replace (length (squeeze p) - _)%nat with o by (subst o; destruct (_ && _); lia).
    rewrite <- Ht, take_take. f_equal. lia. }
  specialize (IH (p ++ [c]) rest a (<[o := c]> buf)). rewrite <- app_assoc in IH. cbn [app] in IH.
  assert (El : length (squeeze (p ++ [c])) = S o) by (rewrite Es, length_app, length_take; cbn [length]; lia).
  rewrite El, length_app, last_space_snoc in IH. cbn [length] in IH. rewrite Nat.add_1_r, Nat.add_succ_r in IH. apply IH.
  - rewrite Es. rewrite (take_S_r _ _ c) by (apply list_lookup_insert_eq; lia). rewrite take_insert_ge by lia. done.
  - rewrite drop_insert_lt by lia. rewrite <- Nat.add_1_r, <- drop_drop, Hd. done.
Qed.

Lemma trim_complete_squeeze s : trim_complete s = squeeze (trim_all s).
Proof.
  unfold trim_complete. destruct (trim_all s) as [|c t] eqn:E; [done|]. rewrite <- E.
  assert (Hd : exists rest, drop (find_if_not ascii_isspace s) s = trim_all s ++ rest).
  { destruct (trim_right_split (trim_left s)) as (r & E' & _). exists r. exact E'. }
  destruct Hd as (rest & Hd). pose proof (trim_loop_ok (trim_all s) [] rest (find_if_not ascii_isspace s) s) as H.
  cbn [length squeeze app] in H. rewrite Nat.add_0_r in H. specialize (H eq_refl Hd). by destruct (trim_loop _ _ _ _ _).
Qed.

Lemma squeeze_no_double l i c d : squeeze l !! i = Some c -> squeeze l !! S i = Some d -> ascii_isspace c && ascii_isspace d = false.
Proof.
  assert (Hhd : forall x m, exists e r, squeeze (x :: m) = e :: r /\ (ascii_isspace x = false -> e = x)).
  { intros x m. revert x. induction m as [|y m IHm]; intros x; [by exists x, []|]. rewrite squeeze_cons2. destruct (IHm y) as (e & r & Er & _).
    destruct (ascii_isspace x) eqn:Ex; cbn [andb]; [|by eexists x, _]. destruct (ascii_isspace y); [by exists e, r|by eexists x, _]. }
  revert i. induction l as [|x l IH]; [done|]. intros i. destruct l as [|y l]; [by destruct i|]. rewrite squeeze_cons2.
  destruct (ascii_isspace x && ascii_isspace y) eqn:Exy; [apply IH|]. destruct i as [|i]; [|apply IH]. cbn [lookup list_lookup]. intros [= <-] Hd.
  destruct (Hhd y l) as (e & r & Er & He). rewrite Er in Hd. injection Hd as <-. destruct (ascii_isspace x) eqn:Ex; [|done]. cbn [andb] in *.
  by rewrite (He Exy).
Qed.

(** ** Comparison *)

Lemma lower_step c : (if (65 <=? c) && (c <=? 90) then c - 65 + 97 else c) = lower_of c.
Proof. unfold lower_of, in_range. destruct (_ && _); lia. Qed.

(** The result is the difference of the first characters that differ. *)
Lemma memcasecmp_spec a b : length a = length b ->
  (memcasecmp a b = 0 /\ (lower_of <$> a) = (lower_of <$> b)) \/
  exists p x y a' b', (lower_of <$> a) = p ++ lower_of x :: a' /\ (lower_of <$> b) = p ++ lower_of y :: b' /\
    memcasecmp a b = lower_of x - lower_of y /\ lower_of x <> lower_of y.
Proof.
  revert b. induction a as [|x a IH]; intros [|y b] Hl; [by left|done|done|]. injection Hl as Hl. specialize (IH b Hl).
  cbn [memcasecmp]. rewrite !lower_step, !fmap_cons.
  assert (Hsame : lower_of x = lower_of y -> (memcasecmp a b = 0 /\ lower_of x :: (lower_of <$> a) = lower_of y :: (lower_of <$> b)) \/
    exists p x0 y0 a' b', lower_of x :: (lower_of <$> a) = p ++ lower_of x0 :: a' /\ lower_of y :: (lower_of <$> b) = p ++ lower_of y0 :: b' /\
      memcasecmp a b = lower_of x0 - lower_of y0 /\ lower_of x0 <> lower_of y0).
  { intros E. destruct IH as [(IH1 & IH2)|(p & x0 & y0 & a' & b' & E1 & E2 & E3 & E4)]; [left; by rewrite E, IH2|right].
    exists (lower_of x :: p), x0, y0, a', b'. cbn [app]. by rewrite E1, E2, E3, <- E. }
  destruct (Z.eqb_spec x y) as [->|Hne]; [by apply Hsame|]. cbn [negb]. destruct (Z.eqb_spec (lower_of x - lower_of y) 0) as [E|E]; cbn [negb].
  - apply Hsame. lia.
  - right. exists [], x, y, (lower_of <$> a), (lower_of <$> b). split_and!; [done|done|done|lia].
Qed.

Lemma equals_ignore_case_spec a b : equals_ignore_case a b = true <-> (lower_of <$> a) = (lower_of <$> b).
Proof.
  unfold equals_ignore_case. rewrite andb_true_iff, Nat.eqb_eq, Z.eqb_eq. split.
  - intros (Hl & E). destruct (memcasecmp_spec a b Hl) as [(_ & H)|(p & x & y & a' & b' & _ & _ & E' & Hne)]; [done|lia].
  - intros E. assert (Hl : length a = length b) by (rewrite <- (length_fmap lower_of a), E; apply length_fmap). split; [done|].
    destruct (memcasecmp_spec a b Hl) as [(H & _)|(p & x & y & a' & b' & E1 & E2 & _ & Hne)]; [done|].
    rewrite E, E2 in E1. apply app_inv_head in E1. by injection E1.
Qed.

Lemma starts_with_ignore_case_spec t p : starts_with_ignore_case t p = true <-> exists r, (lower_of <$> t) = (lower_of <$> p) ++ r.
Proof.
  unfold starts_with_ignore_case. rewrite andb_true_iff, Nat.leb_le, equals_ignore_case_spec, fmap_take. split.
  - intros (_ & <-). exists (drop (length p) (lower_of <$> t)). by rewrite take_drop.
  - intros (r & E). split.
    + rewrite <- (length_fmap lower_of p), <- (length_fmap lower_of t), E, length_app. lia.
    + rewrite E. apply take_app_length'. by rewrite length_fmap.
Qed.

Lemma ends_with_ignore_case_spec t p : ends_with_ignore_case t p = true <-> exists r, (lower_of <$> t) = r ++ (lower_of <$> p).
Proof.
  unfold ends_with_ignore_case. rewrite andb_true_iff, Nat.leb_le, equals_ignore_case_spec, fmap_drop. split.
  - intros (_ & <-). exists (take (length t - length p) (lower_of <$> t)). by rewrite take_drop.
  - intros (r & E). assert (Hl : length t = (length r + length p)%nat) by (rewrite <- (length_fmap lower_of p), <- (length_fmap lower_of t), E, length_app; lia).
    split; [lia|]. rewrite E. apply drop_app_length'. lia.
Qed.

Lemma contains_loop_spec fuel h n : (length h < fuel)%nat ->
  exists r, contains_loop fuel h n = Some r /\ (r = true <-> exists p q, (lower_of <$> h) = p ++ (lower_of <$> n) ++ q).
Proof.
  revert h. induction fuel as [|fuel IH]; intros h Hf; [lia|]. cbn [contains_loop]. destruct (Nat.leb_spec (length n) (length h)) as [Hle|Hgt].
  - destruct (starts_with_ignore_case h n) eqn:E.
    + apply starts_with_ignore_case_spec in E as (r & E). exists true. split; [done|]. split; [|done]. intros _. by exists [], r.
    + assert (Hno : ~ exists r, (lower_of <$> h) = (lower_of <$> n) ++ r) by (intros H; apply starts_with_ignore_case_spec in H; congruence).
      destruct h as [|c h]; [exfalso; apply Hno; exists []; destruct n; [done|cbn in Hle; lia]|].
      destruct (IH h) as (r & -> & Hr); [cbn [length] in Hf; lia|]. exists r. split; [done|]. rewrite Hr, fmap_cons. split; intros (p & q & E').
      * exists (lower_of c :: p), q. by rewrite E'.
      * destruct p as [|x p]; [exfalso; apply Hno; exists q; exact E'|]. exists p, q. by injection E'.
  - exists false. split; [done|]. split; [done|]. intros (p & q & E). apply (f_equal length) in E. rewrite !length_app, !length_fmap in E. lia.
Qed.

Lemma contains_char_spec h c : Forall byte_ok h -> byte_ok c ->
  str_contains_char_ignore_case h c = true <-> lower_of c ∈ (lower_of <$> h).
Proof.
  intros Hh Hc. unfold str_contains_char_ignore_case. destruct (tolower_spec c Hc) as (-> & ->).
  assert (Hx : forall x, byte_ok x -> (if upper_of c =? lower_of c then c =? x else (x =? lower_of c) || (x =? upper_of c)) = true <-> lower_of c = lower_of x).
  { intros x Hx. unfold upper_of, lower_of, in_range, byte_ok in *. zcases; cbn [andb orb] in *; zcases; cbn [orb andb]; split; intros ?; solve [done|lia|discriminate]. }
  rewrite list_elem_of_fmap. split.
  - intros E. destruct (upper_of c =? lower_of c) eqn:Eu; apply existsb_exists in E as (x & Hin & Ex); exists x;
      (split; [|by apply list_elem_of_In]); apply Hx; rewrite ?Eu; try done; rewrite List.Forall_forall in Hh; by apply Hh.
  - intros (x & E & Hin%list_elem_of_In). rewrite List.Forall_forall in Hh. apply Hx in E; [|by apply Hh].
    destruct (upper_of c =? lower_of c) eqn:Eu; apply existsb_exists; by exists x.
Qed.

(** ** Properties *)

(** The tables are those of the ASCII standard: every predicate, both conversions, the case
    folding by one flipped bit, for each of the 256 bytes; the static assertion of the source holds. *)
Lemma ascii_tables_correct c : byte_ok c -> properties_agree c = true /\ ValidateAsciiCasefold = 0.
Proof. intros Hc. split; [by apply properties_agree_all|by vm_compute]. Qed.

(** Trimming removes exactly the whitespace at both ends, in either order and in place or not, and nothing else has
    that property; [trim_complete], which writes the buffer it reads, leaves of the trimmed
    string the last character of each run of whitespace and every other character, so that the
    result has no two adjacent whitespace characters. *)
Theorem trim_correct s :
  trimmed s (trim_all s) /\ (forall t, trimmed s t -> t = trim_all s) /\ trim_all_in_place s = trim_all s /\
  (exists l, s = l ++ trim_left s /\ Forall space l /\ trim_left_in_place s = trim_left s) /\
  (exists r, s = trim_right s ++ r /\ Forall space r /\ trim_right_in_place s = trim_right s) /\
  trim_complete s = squeeze (trim_all s) /\
  (forall i c d, trim_complete s !! i = Some c -> trim_complete s !! S i = Some d -> ascii_isspace c && ascii_isspace d = false).
Proof.
  destruct (trim_all_trimmed s) as (H1 & H2). split_and!; [done| |done| | |apply trim_complete_squeeze|].
  - intros t Ht. symmetry. by apply trimmed_all.
  - destruct (trim_left_split s) as (l & E & Hl & _). by exists l.
  - destruct (trim_right_split s) as (r & E & Hr & _). by exists r.
  - intros i c d. rewrite trim_complete_squeeze. apply squeeze_no_double.
Qed.

(** Comparison without case: [equals_ignore_case], [starts_with_ignore_case], [ends_with_ignore_case] and both [str_contains_ignore_case] decide
    equality, prefix, suffix, substring and membership of the lower-case strings; the search never removes a byte from an empty
    view; [memcasecmp] is the difference of the first two different lower-case characters. *)
Theorem ignore_case_correct text pattern c :
  Forall byte_ok text -> byte_ok c ->
  (equals_ignore_case text pattern = true <-> (lower_of <$> text) = (lower_of <$> pattern)) /\
  (starts_with_ignore_case text pattern = true <-> exists r, (lower_of <$> text) = (lower_of <$> pattern) ++ r) /\
  (ends_with_ignore_case text pattern = true <-> exists r, (lower_of <$> text) = r ++ (lower_of <$> pattern)) /\
  (exists r, str_contains_ignore_case text pattern = Some r /\ (r = true <-> exists p q, (lower_of <$> text) = p ++ (lower_of <$> pattern) ++ q)) /\
  (str_contains_char_ignore_case text c = true <-> lower_of c ∈ (lower_of <$> text)) /\
  (length text = length pattern -> (memcasecmp text pattern = 0 /\ (lower_of <$> text) = (lower_of <$> pattern)) \/
    exists p x y a b, (lower_of <$> text) = p ++ lower_of x :: a /\ (lower_of <$> pattern) = p ++ lower_of y :: b /\
      memcasecmp text pattern = lower_of x - lower_of y /\ lower_of x <> lower_of y) /\
  str_to_lower text = (lower_of <$> text) /\ str_to_upper text = (upper_of <$> text).
Proof.
  intros Ht Hc. split_and!.
  - apply equals_ignore_case_spec.
  - apply starts_with_ignore_case_spec.
  - apply ends_with_ignore_case_spec.
  - apply contains_loop_spec. lia.
  - by apply contains_char_spec.
  - apply memcasecmp_spec.
  - by apply case_fold_spec.
  - by apply case_fold_spec.
Qed.

Lemma ignore_case_correct_witness :
  equals_ignore_case [84; 117; 114; 66; 79] [116; 85; 82; 98; 111] = true /\ str_to_lower [84; 117; 114; 66; 79] = [116; 117; 114; 98; 111].
Proof.
  assert (Ht : Forall byte_ok [84; 117; 114; 66; 79]) by (repeat constructor; lia).
  destruct (ignore_case_correct [84; 117; 114; 66; 79] [116; 85; 82; 98; 111] 65 Ht ltac:(unfold byte_ok; lia)) as ((_ & H) & _ & _ & _ & _ & _ & E & _).
  split; [by apply H|exact E].
Defined.
