(* ===== verification/Match.v ===== *)
(** * Common prefixes and suffixes (strings/match.cc)

    [find_longest_common_prefix] compares two or eight bytes at a time and finds the first
    difference in the exclusive or of two words; it is compared with the search byte by byte.
    A view is the list of its bytes; [little] is the byte order of the host. *)
From S2P Require Import Prelude Words Bits Endian.

(** ** Definitions *)

Section Host.
Context (little : bool).

(** The loop for short views, two bytes at a time: the count it returns ([inl]) or falls through with ([inr]). *)
Fixpoint short_prefix_loop (fuel limit count : nat) (pa pb : list Z) : option (nat + nat) :=
  match fuel with
  | O => None
  | S fuel =>
      if (count + 2 <=? limit)%nat then
        let xor_bytes := Z.lxor (le_load little (take 2 (drop count pa))) (le_load little (take 2 (drop count pb))) in
        if negb (xor_bytes =? 0) then Some (inl (if Z.land xor_bytes 0xff =? 0 then S count else count))
        else short_prefix_loop fuel limit (count + 2) pa pb
      else Some (inr count)
  end.

(** The loop for long views, eight bytes at a time. *)
Fixpoint long_prefix_loop (fuel limit count : nat) (pa pb : list Z) : option (nat + nat) :=
  match fuel with
  | O => None
  | S fuel =>
      let xor_bytes := Z.lxor (le_load little (take 8 (drop count pa))) (le_load little (take 8 (drop count pb))) in
      if negb (xor_bytes =? 0) then Some (inl (count + Z.to_nat (Z.shiftr (countr_zero 64 xor_bytes) 3))%nat)
      else
        let count := (count + 8)%nat in
        if (count + 8 <? limit)%nat then long_prefix_loop fuel limit count pa pb else Some (inr count)
  end.

(** The view of [a] that is returned. *)
Definition find_longest_common_prefix (a b : list Z) : option (list Z) :=
  let limit := Nat.min (length a) (length b) in
  if (limit <? 8)%nat then
    r ← short_prefix_loop (S limit) limit 0 a b;
    match r with
    | inl count => Some (take count a)
    | inr count =>
        let count := if negb (count =? limit)%nat then if a !!! count =? b !!! count then S count else count else count in
        Some (take count a)
    end
  else
    r ← long_prefix_loop (S limit) limit 0 a b;
    match r with
    | inl count => Some (take count a)
    | inr _ =>
        let count := (limit - 8)%nat in
        let xor_bytes := Z.lxor (le_load little (take 8 (drop count a))) (le_load little (take 8 (drop count b))) in
        if negb (xor_bytes =? 0) then Some (take (count + Z.to_nat (Z.shiftr (countr_zero 64 xor_bytes) 3)) a)
        else Some (take limit a)
    end.
End Host.

(** The loop of [find_longest_common_suffix], from the last bytes. *)
Fixpoint suffix_loop (fuel limit count : nat) (a b : list Z) : option nat :=
  match fuel with
  | O => None
  | S fuel =>
      if (count <? limit)%nat && (a !!! (length a - 1 - count)%nat =? b !!! (length b - 1 - count)%nat)
      then suffix_loop fuel limit (S count) a b else Some count
  end.

Definition find_longest_common_suffix (a b : list Z) : option (list Z) :=
  let limit := Nat.min (length a) (length b) in
  if (limit =? 0)%nat then Some []
  else count ← suffix_loop (S limit) limit 0 a b; Some (take count (drop (length a - count) a)).

(** ** The longest common prefix *)

Fixpoint common_prefix (a b : list Z) : nat :=
  match a, b with x :: a, y :: b => if x =? y then S (common_prefix a b) else 0%nat | _, _ => 0%nat end.

Lemma common_prefix_le a b : (common_prefix a b <= Nat.min (length a) (length b))%nat.
Proof. revert b. induction a as [|x a IH]; intros [|y b]; cbn; try lia. specialize (IH b). destruct (_ =? _); lia. Qed.

(** It is a common prefix, and the next characters differ. *)
Lemma common_prefix_spec a b : take (common_prefix a b) a = take (common_prefix a b) b /\
  forall x y, a !! common_prefix a b = Some x -> b !! common_prefix a b = Some y -> x <> y.
Proof.
  revert b. induction a as [|x a IH]; intros [|y b]; cbn [common_prefix]; [done..|]. destruct (IH b) as (IH1 & IH2).
  destruct (Z.eqb_spec x y) as [->|Hne]; [|by split; [|intros ? ? [= <-] [= <-]]]. cbn [take firstn lookup list_lookup]. by rewrite IH1.
Qed.

Lemma common_prefix_full a b n : (n <= length a)%nat -> (n <= length b)%nat -> take n a = take n b ->
  common_prefix a b = (n + common_prefix (drop n a) (drop n b))%nat.
Proof.
  revert a b. induction n as [|n IH]; intros a b Ha Hb E; [done|]. destruct a as [|x a], b as [|y b]; cbn [length] in *; try lia.
  cbn [take firstn] in E. injection E as -> E. cbn [common_prefix drop skipn]. rewrite Z.eqb_refl. cbn [Nat.add]. f_equal. apply IH; [lia|lia|done].
Qed.

Lemma common_prefix_take a b n : (n <= length a)%nat -> (n <= length b)%nat -> take n a <> take n b ->
  common_prefix a b = common_prefix (take n a) (take n b).
Proof.
  revert a b. induction n as [|n IH]; intros a b Ha Hb E; [done|]. destruct a as [|x a], b as [|y b]; cbn [length] in *; try lia.
  cbn [take firstn common_prefix] in *. destruct (Z.eqb_spec x y) as [->|]; [|done]. f_equal. apply IH; [lia|lia|congruence].
Qed.

(** ** The first difference in a word *)

Lemma lxor_byte b x c y : byte_ok b -> byte_ok c -> 0 <= x -> 0 <= y -> Z.lxor (b + 256 * x) (c + 256 * y) = Z.lxor b c + 256 * Z.lxor x y.
Proof.
  unfold byte_ok. intros Hb Hc Hx Hy. assert (Hbc : 0 <= Z.lxor b c < 2 ^ 8) by (apply lxor_range; lia).
  rewrite !(Z.add_comm _ (256 * _)), !(Z.mul_comm 256). change 256 with (2 ^ 8). apply Z.bits_inj'. intros i Hi.
  rewrite Z.lxor_spec, !testbit_hi_lo, !Z.lxor_spec by lia. by destruct (i <? 8).
Qed.

(** The words differ when the bytes do, in the lowest bit of the first byte that differs. *)
Lemma xor_words p q : length p = length q -> Forall byte_ok p -> Forall byte_ok q ->
  (Z.lxor (le_combine p) (le_combine q) = 0 <-> p = q) /\
  forall k, lowest_bit (Z.lxor (le_combine p) (le_combine q)) k -> k / 8 = Z.of_nat (common_prefix p q).
Proof.
  revert q. induction p as [|b p IH]; intros [|c q] Hl Hp Hq; [|done|done|].
  { split; [done|]. intros k (_ & H & _). by rewrite Z.testbit_0_l in H. }
  injection Hl as Hl. apply Forall_cons_1 in Hp as [Hb Hp]. apply Forall_cons_1 in Hq as [Hc Hq]. destruct (IH q Hl Hp Hq) as (IH1 & IH2).
  pose proof (le_combine_range p Hp) as Hx. pose proof (le_combine_range q Hq) as Hy. cbn [le_combine common_prefix].
  rewrite lxor_byte by (done || lia). assert (He : 0 <= Z.lxor b c < 2 ^ 8) by (unfold byte_ok in *; apply lxor_range; lia).
  assert (HX : 0 <= Z.lxor (le_combine p) (le_combine q)) by (apply Z.lxor_nonneg; lia).
  set (X := Z.lxor (le_combine p) (le_combine q)) in *. split.
  - split.
    + intros E. assert (Ex : X = 0) by lia. assert (Eb : Z.lxor b c = 0) by lia. apply Z.lxor_eq_0_iff in Eb as ->. f_equal. by apply IH1.
    + intros [= -> ->]. rewrite Z.lxor_nilpotent. rewrite (proj2 IH1 eq_refl). done.
  - intros k (Hk0 & Hk1 & Hk2). replace (Z.lxor b c + 256 * X) with (X * 2 ^ 8 + Z.lxor b c) in * by lia.
    assert (Hbit : forall i, 0 <= i -> Z.testbit (X * 2 ^ 8 + Z.lxor b c) i = if i <? 8 then Z.testbit (Z.lxor b c) i else Z.testbit X (i - 8)).
    { intros i Hi. apply testbit_hi_lo; lia. }
    destruct (Z.eqb_spec b c) as [->|Hne].
    + rewrite Z.lxor_nilpotent in Hbit, Hk1. rewrite Hbit in Hk1 by done. destruct (Z.ltb_spec k 8) as [|Hge]; [by rewrite Z.testbit_0_l in Hk1|].
      assert (Hlow : lowest_bit X (k - 8)).
      { split_and!; [lia|done|]. intros i Hi. destruct (Z.ltb_spec i 0); [by apply Z.testbit_neg_r|].
        specialize (Hk2 (i + 8) ltac:(lia)). rewrite Z.lxor_nilpotent, Hbit in Hk2 by lia. destruct (Z.ltb_spec (i + 8) 8); [lia|].
        by rewrite Z.add_simpl_r in Hk2. }
      specialize (IH2 (k - 8) Hlow). rewrite Nat2Z.inj_succ, <- IH2. zlia.
    + destruct (lowest_bit_exists (Z.lxor b c)) as (j & Hj0 & Hj1 & _).
      { assert (Z.lxor b c <> 0) by (intros E; by apply Hne, Z.lxor_eq). lia. }
      assert (Hj8 : j < 8) by (destruct (Z.lt_ge_cases j 8); [done|]; by rewrite (testbit_bounded _ 8 j He) in Hj1 by done).
      destruct (Z.lt_ge_cases j k) as [Hlt|Hge]; [|zlia]. specialize (Hk2 j Hlt). rewrite Hbit in Hk2 by done.
      destruct (Z.ltb_spec j 8); [congruence|lia].
Qed.

(** A comparison of [n] bytes at [c], where the views agree up to there. *)
Section Step.
Context (little : bool) (a b : list Z) (Ha : Forall byte_ok a) (Hb : Forall byte_ok b).

Definition agree (c : nat) : Prop := (c <= length a)%nat /\ (c <= length b)%nat /\ take c a = take c b.
Definition word_xor (n c : nat) : Z := Z.lxor (le_load little (take n (drop c a))) (le_load little (take n (drop c b))).

Lemma agree_le c : agree c -> common_prefix a b = (c + common_prefix (drop c a) (drop c b))%nat.
Proof. intros (H1 & H2 & H3). by apply common_prefix_full. Qed.

Lemma word_step n c : size_ok n -> agree c -> (c + n <= Nat.min (length a) (length b))%nat ->
  0 <= word_xor n c < 2 ^ (8 * Z.of_nat n) /\ (word_xor n c = 0 -> agree (c + n)) /\
  forall k, lowest_bit (word_xor n c) k -> common_prefix a b = (c + Z.to_nat (k / 8))%nat /\ 0 <= k.
Proof.
  intros Hn Hc Hle. assert (Hla : length (take n (drop c a)) = n) by (rewrite length_take, length_drop; lia).
  assert (Hlb : length (take n (drop c b)) = n) by (rewrite length_take, length_drop; lia).
  assert (Hpa : Forall byte_ok (take n (drop c a))) by by apply Forall_take, Forall_drop.
  assert (Hpb : Forall byte_ok (take n (drop c b))) by by apply Forall_take, Forall_drop.
  assert (E : word_xor n c = Z.lxor (le_combine (take n (drop c a))) (le_combine (take n (drop c b)))).
  { unfold word_xor. by rewrite !le_load_spec by (rewrite ?Hla, ?Hlb; done). }
  destruct (xor_words (take n (drop c a)) (take n (drop c b))) as (H0 & Hk); [lia|done|done|]. rewrite <- E in H0, Hk.
  assert (Hr : 0 <= word_xor n c < 2 ^ (8 * Z.of_nat n)).
  { pose proof (le_combine_range _ Hpa) as Ra. pose proof (le_combine_range _ Hpb) as Rb. rewrite Hla in Ra. rewrite Hlb in Rb.
    rewrite E. apply lxor_range; [lia|done|done]. }
  split_and!; [apply Hr|apply Hr| |].
  - intros E0. apply H0 in E0. destruct Hc as (H1 & H2 & H3). split_and!; [lia|lia|].
    rewrite <- (take_drop c a) at 1. rewrite <- (take_drop c b) at 1. rewrite !take_app_ge by (rewrite length_take; lia).
    rewrite !length_take, H3. replace (c + n - c `min` length a)%nat with n by lia. replace (c + n - c `min` length b)%nat with n by lia. by rewrite E0.
  - intros k Hlow. pose proof (Hk k Hlow) as Ek. split; [|by destruct Hlow]. rewrite (agree_le c Hc), Ek, Nat2Z.id. f_equal.
    apply common_prefix_take; [rewrite length_drop; lia|rewrite length_drop; lia|]. intros Eq. apply H0 in Eq. destruct Hlow as (_ & Hlow & _).
    by rewrite Eq, Z.testbit_0_l in Hlow.
Qed.

Lemma agree_common c : agree c -> c = common_prefix a b -> take c a = take (common_prefix a b) a.
Proof. by intros _ ->. Qed.

Lemma xor8_step c : agree c -> (c + 8 <= Nat.min (length a) (length b))%nat -> word_xor 8 c <> 0 ->
  (c + Z.to_nat (Z.shiftr (countr_zero 64 (word_xor 8 c)) 3))%nat = common_prefix a b.
Proof.
  intros Hc Hle Hne. destruct (word_step 8 c ltac:(do 3 right; done) Hc Hle) as (Hr & _ & Hk). change (2 ^ (8 * Z.of_nat 8)) with (2 ^ 64) in Hr.
  destruct (lowest_bit_exists (word_xor 8 c) ltac:(lia)) as (k & Hlow). rewrite (countr_zero_spec 64 _ k); [|by do 3 right|lia|done].
  rewrite Z.shiftr_div_pow2 by lia. symmetry. by apply Hk.
Qed.

Lemma xor2_step c : agree c -> (c + 2 <= Nat.min (length a) (length b))%nat -> word_xor 2 c <> 0 ->
  (if Z.land (word_xor 2 c) 0xff =? 0 then S c else c) = common_prefix a b.
Proof.
  intros Hc Hle Hne. destruct (word_step 2 c ltac:(right; left; done) Hc Hle) as (Hr & _ & Hk). change (2 ^ (8 * Z.of_nat 2)) with (2 ^ 16) in Hr.
  destruct (lowest_bit_exists (word_xor 2 c) ltac:(lia)) as (k & Hlow). destruct (Hk k Hlow) as (-> & Hk0). destruct Hlow as (_ & Hk1 & Hk2).
  assert (Hk16 : k < 16) by (destruct (Z.lt_ge_cases k 16); [done|]; by rewrite (testbit_bounded _ 16 k Hr) in Hk1 by done).
  change 0xff with (Z.ones 8). rewrite Z.land_ones by lia. destruct (Z.eqb_spec (word_xor 2 c mod 2 ^ 8) 0) as [E|E].
  - destruct (Z.lt_ge_cases k 8) as [Hlt|Hge]; [|zlia]. rewrite <- (Z.mod_pow2_bits_low _ 8 k) in Hk1 by done. by rewrite E, Z.testbit_0_l in Hk1.
  - destruct (Z.lt_ge_cases k 8) as [Hlt|Hge]; [zlia|]. exfalso. apply E. apply Z.bits_inj'. intros i Hi. rewrite Z.testbit_0_l.
    destruct (Z.lt_ge_cases i 8); [rewrite Z.mod_pow2_bits_low by lia; apply Hk2; lia|apply Z.mod_pow2_bits_high; lia].
Qed.
End Step.

(** ** The loops *)

Section Loops.
Context (little : bool) (a b : list Z) (Ha : Forall byte_ok a) (Hb : Forall byte_ok b).
Abbreviation limit := (Nat.min (length a) (length b)).

Lemma short_prefix_loop_ok fuel c : agree a b c -> (c <= limit)%nat -> (limit < c + fuel)%nat ->
  exists r, short_prefix_loop little fuel limit c a b = Some r /\
    match r with inl n => n = common_prefix a b | inr n => agree a b n /\ (n <= limit < n + 2)%nat end.
Proof.
  revert c. induction fuel as [|fuel IH]; intros c Hc Hle Hf; [lia|]. cbn [short_prefix_loop].
  destruct (Nat.leb_spec (c + 2) limit) as [H2|H2]; [|exists (inr c); by split_and!; [..|lia]].
  change (Z.lxor _ _) with (word_xor little a b 2 c). destruct (Z.eqb_spec (word_xor little a b 2 c) 0) as [E|E]; cbn [negb].
  - destruct (word_step little a b Ha Hb 2 c ltac:(right; left; done) Hc H2) as (_ & Hz & _). apply IH; [by apply Hz|lia|lia].
  - eexists. split; [done|]. by apply xor2_step.
Qed.

Lemma long_prefix_loop_ok fuel c : agree a b c -> (c + 8 <= limit)%nat -> (limit < c + fuel)%nat ->
  exists r, long_prefix_loop little fuel limit c a b = Some r /\
    match r with inl n => n = common_prefix a b | inr n => agree a b n /\ (n <= limit <= n + 8)%nat end.
Proof.
  revert c. induction fuel as [|fuel IH]; intros c Hc Hle Hf; [lia|]. cbn [long_prefix_loop].
  change (Z.lxor _ _) with (word_xor little a b 8 c). destruct (Z.eqb_spec (word_xor little a b 8 c) 0) as [E|E]; cbn [negb].
  - destruct (word_step little a b Ha Hb 8 c ltac:(do 3 right; done) Hc Hle) as (_ & Hz & _). specialize (Hz E).
    destruct (Nat.ltb_spec (c + 8 + 8) limit) as [Hlt|Hge]; [apply IH; [done|lia|lia]|]. exists (inr (c + 8)%nat). by split_and!; [..|lia].
  - eexists. split; [done|]. by apply xor8_step.
Qed.

Lemma agree_weaken c d : agree a b c -> (d <= c)%nat -> agree a b d.
Proof.
  intros (H1 & H2 & H3) Hd. split_and!; [lia|lia|]. transitivity (take d (take c a)); [by rewrite take_take, Nat.min_l by lia|].
  by rewrite H3, take_take, Nat.min_l by lia.
Qed.

Lemma agree_full c : agree a b c -> c = limit -> common_prefix a b = c.
Proof. intros Hc ->. pose proof (common_prefix_le a b). pose proof (agree_le a b _ Hc). lia. Qed.

Lemma prefix_ok : find_longest_common_prefix little a b = Some (take (common_prefix a b) a).
Proof.
  assert (H0 : agree a b 0) by by split_and!; [lia|lia|]. unfold find_longest_common_prefix. destruct (Nat.ltb_spec limit 8) as [Hlt|Hge].
  - destruct (short_prefix_loop_ok (S limit) 0 H0 ltac:(lia) ltac:(lia)) as ([n|n] & -> & Hr); cbn [mbind option_bind]; [by rewrite Hr|].
    destruct Hr as (Hn & Hlim). destruct (Nat.eqb_spec n limit) as [E|E]; cbn [negb]; [by rewrite (agree_full n Hn E)|].
    rewrite (agree_le a b n Hn). destruct (lookup_lt_is_Some_2 a n ltac:(lia)) as (x & Ex). destruct (lookup_lt_is_Some_2 b n ltac:(lia)) as (y & Ey).
    rewrite (list_lookup_total_correct _ _ _ Ex), (list_lookup_total_correct _ _ _ Ey), (drop_S _ _ _ Ex), (drop_S _ _ _ Ey). cbn [common_prefix].
    destruct (Z.eqb_spec x y) as [->|]; [|by rewrite Nat.add_0_r].
    pose proof (common_prefix_le (drop (S n) a) (drop (S n) b)) as Hz. rewrite !length_drop in Hz.
    replace (common_prefix _ _) with 0%nat by lia. by rewrite Nat.add_1_r.
  - destruct (long_prefix_loop_ok (S limit) 0 H0 ltac:(lia) ltac:(lia)) as ([n|n] & -> & Hr); cbn [mbind option_bind]; [by rewrite Hr|].
    destruct Hr as (Hn & Hlim). pose proof (agree_weaken n (limit - 8) Hn ltac:(lia)) as Hw. change (Z.lxor _ _) with (word_xor little a b 8 (limit - 8)).
    destruct (Z.eqb_spec (word_xor little a b 8 (limit - 8)) 0) as [E|E]; cbn [negb]; [|by rewrite xor8_step by (done || lia)].
    destruct (word_step little a b Ha Hb 8 (limit - 8) ltac:(do 3 right; done) Hw ltac:(lia)) as (_ & Hz & _). specialize (Hz E).
    rewrite (agree_full _ Hz) by lia. do 2 f_equal. lia.
Qed.
End Loops.

Lemma lookup_total_rev (l : list Z) i : (i < length l)%nat -> rev l !!! i = l !!! (length l - 1 - i)%nat.
Proof.
  intros Hi. change (rev l) with (List.rev l). rewrite rev_alt. change (rev_append l []) with (reverse l). rewrite !list_lookup_total_alt.
  rewrite reverse_lookup by done. do 2 f_equal. lia.
Qed.

Lemma suffix_loop_ok a b fuel c : (c <= Nat.min (length a) (length b))%nat -> (Nat.min (length a) (length b) < c + fuel)%nat ->
  suffix_loop fuel (Nat.min (length a) (length b)) c a b = Some (c + common_prefix (drop c (rev a)) (drop c (rev b)))%nat.
Proof.
  revert c. induction fuel as [|fuel IH]; intros c Hc Hf; [lia|]. cbn [suffix_loop]. destruct (Nat.ltb_spec c (Nat.min (length a) (length b))) as [Hlt|Hge]; cbn [andb].
  - destruct (lookup_lt_is_Some_2 (rev a) c ltac:(rewrite length_rev; lia)) as (x & Ex). destruct (lookup_lt_is_Some_2 (rev b) c ltac:(rewrite length_rev; lia)) as (y & Ey).
    rewrite <- !lookup_total_rev by lia. rewrite (list_lookup_total_correct _ _ _ Ex), (list_lookup_total_correct _ _ _ Ey), (drop_S _ _ _ Ex), (drop_S _ _ _ Ey).
    cbn [common_prefix]. destruct (Z.eqb_spec x y); [|by rewrite Nat.add_0_r]. rewrite IH by lia. f_equal. lia.
  - pose proof (common_prefix_le (drop c (rev a)) (drop c (rev b))) as Hz. rewrite !length_drop, !length_rev in Hz. f_equal. lia.
Qed.

(** ** Properties *)

(** The word-wise searches are the searches byte by byte: on hosts of both byte orders [find_longest_common_prefix] (two bytes at a time below eight, then
    eight at a time with a last word that overlaps the one before) ends without reading outside the views and returns the longest common prefix, which is a prefix of both
    whose next characters differ; [find_longest_common_suffix] likewise from the end. *)
Theorem common_prefix_correct little a b : Forall byte_ok a -> Forall byte_ok b ->
  let n := common_prefix a b in let m := common_prefix (rev a) (rev b) in
  find_longest_common_prefix little a b = Some (take n a) /\ take n a = take n b /\
  (forall x y, a !! n = Some x -> b !! n = Some y -> x <> y) /\
  find_longest_common_suffix a b = Some (drop (length a - m) a) /\ drop (length a - m) a = drop (length b - m) b.
Proof.
  intros Ha Hb n m. destruct (common_prefix_spec a b) as (H1 & H2). split_and!; [by apply prefix_ok|exact H1|exact H2| |].
  - assert (Hm : (m <= Nat.min (length a) (length b))%nat) by (pose proof (common_prefix_le (rev a) (rev b)) as H; by rewrite !length_rev in H).
    unfold find_longest_common_suffix. destruct (Nat.eqb_spec (Nat.min (length a) (length b)) 0) as [E|E].
    + f_equal. symmetry. rewrite drop_ge; [done|lia].
    + rewrite suffix_loop_ok by lia. cbn [mbind option_bind]. rewrite !drop_0. cbn [Nat.add]. fold m. f_equal. rewrite firstn_all2; [done|rewrite length_drop; lia].
  - destruct (common_prefix_spec (rev a) (rev b)) as (H3 & _). fold m in H3. rewrite !firstn_rev in H3. apply (f_equal (@rev Z)) in H3. by rewrite !rev_involutive in H3.
Qed.

Lemma common_prefix_correct_witness : find_longest_common_prefix true [102; 111; 111; 98; 97; 114; 45; 49; 50; 51] [102; 111; 111; 98; 97; 114; 45; 49; 50; 52; 53] =
  Some [102; 111; 111; 98; 97; 114; 45; 49; 50].
Proof.
  destruct (common_prefix_correct true [102; 111; 111; 98; 97; 114; 45; 49; 50; 51] [102; 111; 111; 98; 97; 114; 45; 49; 50; 52; 53]) as (E & _);
    [repeat constructor; lia|repeat constructor; lia|exact E].
Defined.
