(* ===== verification/NumFormat.v ===== *)
(** * Integers to decimal strings (strings/numbers.h, strings/numbers.cc)

    [FastIntToBuffer] turns two, four or eight digits at a time into bytes by multiplications that divide in
    parallel, and removes leading zeros by counting trailing zero bits; it is compared with the decimal
    expansion. The caller's buffer is a list of bytes and a pointer into it an offset: a store outside the
    buffer is [None], as is an assumption ([TURBO_ASSUME]) that fails. [little] is the byte order of the host. *)
From S2P Require Import Prelude Words Bits Uint128Div Endian Match.

(** ** Definitions *)

Definition kTwoZeroBytes : Z := 0x0101 * 48.
Definition kFourZeroBytes : Z := 0x01010101 * 48.
Definition kEightZeroBytes : Z := 0x0101010101010101 * 48.
Definition kDivisionBy10Mul : Z := 103.
Definition kDivisionBy10Div : Z := 2 ^ 10.
Definition kDivisionBy100Mul : Z := 10486.
Definition kDivisionBy100Div : Z := 2 ^ 20.
Definition kFastToBufferSize : nat := 32%nat.

(** Bytes stored at an offset of the buffer. *)
Definition put (out_str : nat) (bytes buf : list Z) : option (list Z) :=
  if decide (out_str + length bytes <= length buf)%nat
  then Some (take out_str buf ++ bytes ++ drop (out_str + length bytes) buf) else None.

(** [PrepareEightDigits], in 64 bits but for [hi] and [lo]. *)
Definition PrepareEightDigits (i : Z) : option Z :=
  if negb (i <? 100000000) then None
  else
    let hi := i / 10000 in
    let lo := i mod 10000 in
    let merged := Z.lor hi (ushl 64 lo 32) in
    let div100 := Z.land (umul 64 merged kDivisionBy100Mul / kDivisionBy100Div) (Z.lor (Z.shiftl 0x7F 32) 0x7F) in
    let mod100 := usub 64 merged (umul 64 100 div100) in
    let hundreds := uadd 64 (ushl 64 mod100 16) div100 in
    let tens := umul 64 hundreds kDivisionBy10Mul / kDivisionBy10Div in
    let tens := Z.land tens (Z.lor (Z.lor (Z.lor (Z.shiftl 0xF 48) (Z.shiftl 0xF 32)) (Z.shiftl 0xF 16)) 0xF) in
    Some (uadd 64 tens (ushl 64 (usub 64 hundreds (umul 64 10 tens)) 8)).

(** [0 - 8u], and the count of trailing zeros rounded down to whole bytes. *)
Definition zero_bits (w x : Z) : Z := Z.land (countr_zero w x) (usub 32 0 8).

Section Host.
Context (little : bool).

(** A pointer into the buffer, and the buffer. *)
Abbreviation out := (nat * list Z)%type.

Definition EncodeHundred (n : Z) (o : out) : option out :=
  let num_digits := Z.shiftr (swrap 32 (usub 32 n 10)) 8 in
  let div10 := wrap 32 (umul 64 n kDivisionBy10Mul / kDivisionBy10Div) in
  let mod10 := usub 32 n (umul 32 10 div10) in
  let base := uadd 32 (uadd 32 kTwoZeroBytes div10) (ushl 32 mod10 8) in
  let base := ushr base (Z.land num_digits 8) in
  buf ← put (fst o) (le_store little 2 (wrap 16 base)) (snd o);
  Some (Z.to_nat (Z.of_nat (fst o) + 2 + num_digits), buf).

Definition EncodeTenThousand (n : Z) (o : out) : option out :=
  let div100 := wrap 32 (umul 64 n kDivisionBy100Mul / kDivisionBy100Div) in
  let mod100 := wrap 32 (usub 64 n (umul 64 100 div100)) in
  let hundreds := uadd 32 (ushl 32 mod100 16) div100 in
  let tens := wrap 32 (umul 64 hundreds kDivisionBy10Mul / kDivisionBy10Div) in
  let tens := Z.land tens (Z.lor (Z.shiftl 0xF 16) 0xF) in
  let tens := wrap 32 (uadd 64 tens (ushl 64 (usub 64 hundreds (umul 64 10 tens)) 8)) in
  if tens =? 0 then None
  else
    let zeroes := zero_bits 32 tens in
    let tens := wrap 32 (uadd 64 tens kFourZeroBytes) in
    let tens := ushr tens zeroes in
    buf ← put (fst o) (le_store little 4 tens) (snd o);
    Some ((fst o + 4 - Z.to_nat (zeroes / 8))%nat, buf).

Definition EncodeFullU32 (n : Z) (o : out) : option out :=
  if n <? 10 then buf ← put (fst o) [wrap 8 (48 + n)] (snd o); Some ((fst o + 1)%nat, buf)
  else if n <? 100000000 then
    bottom ← PrepareEightDigits n;
    if bottom =? 0 then None
    else
      let zeroes := zero_bits 64 bottom in
      buf ← put (fst o) (le_store little 8 (ushr (uadd 64 bottom kEightZeroBytes) zeroes)) (snd o);
      Some ((fst o + 8 - Z.to_nat (zeroes / 8))%nat, buf)
  else
    let div08 := n / 100000000 in
    let mod08 := n mod 100000000 in
    bottom ← PrepareEightDigits mod08;
    o ← EncodeHundred div08 o;
    buf ← put (fst o) (le_store little 8 (uadd 64 bottom kEightZeroBytes)) (snd o);
    Some ((fst o + 8)%nat, buf).

Definition EncodeFullU64 (i : Z) (o : out) : option out :=
  if i <=? 2 ^ 32 - 1 then EncodeFullU32 (wrap 32 i) o
  else
    '(mod08, o) ←
      (if i <? 10000000000000000 then
         let div08 := wrap 32 (i / 100000000) in
         let mod08 := wrap 32 (i mod 100000000) in
         o ← EncodeFullU32 div08 o; Some (mod08, o)
       else
         let div08 := i / 100000000 in
         let mod08 := wrap 32 (i mod 100000000) in
         let div016 := wrap 32 (div08 / 100000000) in
         let div08mod08 := wrap 32 (div08 mod 100000000) in
         mid ← PrepareEightDigits div08mod08;
         o ← EncodeTenThousand div016 o;
         buf ← put (fst o) (le_store little 8 (uadd 64 mid kEightZeroBytes)) (snd o);
         Some (mod08, ((fst o + 8)%nat, buf)));
    mod_result ← PrepareEightDigits mod08;
    buf ← put (fst o) (le_store little 8 (uadd 64 mod_result kEightZeroBytes)) (snd o);
    Some ((fst o + 8)%nat, buf).

Definition PutTwoDigits (i : Z) (o : nat) (buf : list Z) : option (list Z) :=
  let base := kTwoZeroBytes in
  let div10 := wrap 32 (umul 64 i kDivisionBy10Mul / kDivisionBy10Div) in
  let mod10 := usub 32 i (umul 32 10 div10) in
  let base := uadd 32 base (uadd 32 div10 (ushl 32 mod10 8)) in
  put o (le_store little 2 (wrap 16 base)) buf.

(** The overloads of [FastIntToBuffer]: the pointer to the terminating zero, and the buffer. *)
Definition FastUint32ToBuffer (n : Z) (o : out) : option out :=
  o ← EncodeFullU32 n o; buf ← put (fst o) [0] (snd o); Some (fst o, buf).
Definition FastInt32ToBuffer (i : Z) (o : out) : option out :=
  let u := wrap 32 i in
  '(u, o) ← (if i <? 0 then buf ← put (fst o) [45] (snd o); Some (usub 32 0 u, (S (fst o), buf)) else Some (u, o));
  o ← EncodeFullU32 u o; buf ← put (fst o) [0] (snd o); Some (fst o, buf).
Definition FastUint64ToBuffer (i : Z) (o : out) : option out :=
  o ← EncodeFullU64 i o; buf ← put (fst o) [0] (snd o); Some (fst o, buf).
Definition FastInt64ToBuffer (i : Z) (o : out) : option out :=
  let u := wrap 64 i in
  '(u, o) ← (if i <? 0 then buf ← put (fst o) [45] (snd o); Some (usub 64 0 u, (S (fst o), buf)) else Some (u, o));
  o ← EncodeFullU64 u o; buf ← put (fst o) [0] (snd o); Some (fst o, buf).

(** The template for integer types of [bits] bits. *)
Definition FastIntToBuffer (kIsSigned : bool) (bits : Z) (i : Z) (o : out) : option out :=
  let kUse64Bit := 32 <? bits in
  if kIsSigned then if kUse64Bit then FastInt64ToBuffer (swrap 64 i) o else FastInt32ToBuffer (swrap 32 i) o
  else if kUse64Bit then FastUint64ToBuffer (wrap 64 i) o else FastUint32ToBuffer (wrap 32 i) o.
End Host.

(** ** The decimal expansion *)

Definition decimal (n : Z) : list Z := (fun d => 48 + d) <$> rev (ldigits 40 10 n).
(** With leading zeros, [k] digits. *)
Definition padded_decimal (k : nat) (n : Z) : list Z := (fun d => 48 + d) <$> rev (fdigits k 10 n).

(** *** Words made of bytes *)

Lemma le_combine_add l c : le_combine ((fun d => c + d) <$> l) = le_combine l + le_combine (replicate (length l) c).
Proof. induction l as [|x l IH]; [done|]. cbn [fmap list_fmap length replicate le_combine]. rewrite IH. lia. Qed.

Lemma le_combine_drop z l : Forall byte_ok l -> ushr (le_combine l) (8 * Z.of_nat z) = le_combine (drop z l).
Proof.
  intros Hl. rewrite ushr_val by lia. revert l Hl. induction z as [|z IH]; intros l Hl.
  - change (2 ^ (8 * Z.of_nat 0)) with 1. by rewrite Z.div_1_r.
  - rewrite pow256_S, <- Z.div_div by lia. destruct l as [|x l]; [by rewrite !Z.div_0_l by lia|]. apply Forall_cons_1 in Hl as [Hx Hl].
    unfold byte_ok in Hx. cbn [le_combine drop skipn]. rewrite <- IH by done. f_equal. zlia.
Qed.

Lemma le_combine_app l z : le_combine (l ++ replicate z 0) = le_combine l.
Proof. induction l as [|x l IH]; cbn [app le_combine]; [|by rewrite IH]. induction z as [|z IH]; [done|]. cbn [replicate le_combine]. lia. Qed.

Lemma le_bytes_short l z : Forall byte_ok l -> le_bytes (length l + z) (le_combine l) = l ++ replicate z 0.
Proof.
  intros Hl. rewrite <- (le_combine_app l z). rewrite <- (length_replicate z 0), <- length_app at 1. apply le_bytes_combine.
  apply Forall_app. split; [done|]. apply Forall_replicate. unfold byte_ok. lia.
Qed.

Lemma fdigits_ok k n : length (fdigits k 10 n) = k /\ Forall (fun d => 0 <= d < 10) (fdigits k 10 n).
Proof.
  revert n. induction k as [|k IH]; intros n; [by split|]. cbn [fdigits length]. destruct (IH (n / 10)) as (-> & H). split; [done|].
  constructor; [apply Z.mod_pos_bound; lia|done].
Qed.

Lemma ldigits_ok f n : 0 <= n -> Forall (fun d => 0 <= d < 10) (ldigits f 10 n).
Proof.
  revert n. induction f as [|f IH]; intros n Hn; [done|]. cbn [ldigits]. constructor; [apply Z.mod_pos_bound; lia|].
  destruct (_ =? 0); [done|]. apply IH. apply Z.div_pos; lia.
Qed.

Lemma Forall_rev_Z (P : Z -> Prop) l : Forall P l -> Forall P (rev l).
Proof. rewrite !List.Forall_forall. intros H x Hx. apply H. by apply in_rev. Qed.

Lemma digit_bytes c l : 0 <= c <= 200 -> Forall (fun d => 0 <= d < 10) l -> Forall byte_ok ((fun d => c + d) <$> l).
Proof. intros Hc Hl. apply Forall_fmap. revert Hl; apply Forall_impl; intros d Hd. unfold byte_ok. cbn. lia. Qed.

Lemma digits_are_bytes l : Forall (fun d => 0 <= d < 10) l -> Forall byte_ok l.
Proof. intros Hl. revert Hl; apply Forall_impl; intros d Hd. unfold byte_ok. cbn in *. lia. Qed.

(** *** The division of several numbers at a time *)

Lemma land_ones_shift x w k : 0 <= w -> 0 <= k -> Z.land x (Z.ones w * 2 ^ k) = (x / 2 ^ k) mod 2 ^ w * 2 ^ k.
Proof.
  intros Hw Hk. rewrite <- !Z.shiftl_mul_pow2, <- Z.shiftr_div_pow2, <- Z.land_ones by done. apply Z.bits_inj'. intros i Hi.
  rewrite Z.land_spec, !Z.shiftl_spec by done. destruct (Z.lt_ge_cases i k) as [Hlt|Hge].
  - rewrite !(Z.testbit_neg_r _ (i - k)) by lia. apply andb_false_r.
  - rewrite Z.land_spec, Z.shiftr_spec by lia. do 2 f_equal. lia.
Qed.

Lemma div10_small n : 0 <= n < 100 -> n * 103 / 1024 = n / 10.
Proof. zlia. Qed.

Lemma div100_small n : 0 <= n < 10000 -> n * 10486 / 1048576 = n / 100.
Proof. zlia. Qed.

(** A lane of the product, between the lanes below and above. *)
Lemma lane10 k l x h : 0 <= k -> 0 <= l * 103 < 2 ^ k -> 0 <= x < 100 ->
  ((l + x * 2 ^ k + h * (2 ^ k * 2 ^ 16)) * 103 / 2 ^ 10 / 2 ^ k) mod 2 ^ 4 = x / 10.
Proof.
  intros Hk Hl Hx. rewrite Z.div_div, (Z.mul_comm (2 ^ 10)), <- Z.div_div by lia.
  replace ((l + x * 2 ^ k + h * (2 ^ k * 2 ^ 16)) * 103) with (l * 103 + (x * 103 + h * 103 * 2 ^ 16) * 2 ^ k) by ring.
  rewrite Z.div_add, (Z.div_small (l * 103)) by lia. change (2 ^ 16) with (64 * 2 ^ 10). rewrite Z.add_0_l, Z.mul_assoc, Z.div_add by lia.
  change (2 ^ 10) with 1024. rewrite div10_small by done. change (2 ^ 4) with 16. zlia.
Qed.

Lemma lor_lanes a b c d : 0 <= a < 2 ^ 16 -> 0 <= b < 2 ^ 16 -> 0 <= c < 2 ^ 16 -> 0 <= d ->
  Z.lor (Z.lor (Z.lor (d * 2 ^ 48) (c * 2 ^ 32)) (b * 2 ^ 16)) a = a + b * 2 ^ 16 + c * 2 ^ 32 + d * 2 ^ 48.
Proof.
  intros Ha Hb Hc Hd. rewrite (lor_shiftl_add d (c * 2 ^ 32) 48) by lia.
  replace (d * 2 ^ 48 + c * 2 ^ 32) with ((d * 2 ^ 16 + c) * 2 ^ 32) by lia. rewrite (lor_shiftl_add _ (b * 2 ^ 16) 32) by lia.
  replace ((d * 2 ^ 16 + c) * 2 ^ 32 + b * 2 ^ 16) with ((d * 2 ^ 32 + c * 2 ^ 16 + b) * 2 ^ 16) by lia. rewrite lor_shiftl_add by lia. lia.
Qed.

(** Division by one hundred of the two halves of a word. *)
Lemma div100_lanes a b : 0 <= a < 10000 -> 0 <= b < 10000 ->
  Z.land ((a + b * 2 ^ 32) * 10486 / 2 ^ 20) (Z.lor (Z.shiftl 0x7F 32) 0x7F) = a / 100 + b / 100 * 2 ^ 32.
Proof.
  intros Ha Hb. replace ((a + b * 2 ^ 32) * 10486) with (a * 10486 + b * 10486 * 2 ^ 12 * 2 ^ 20) by lia. rewrite Z.div_add by lia.
  change (2 ^ 20) with 1048576 at 1. rewrite div100_small by done.
  change (Z.lor (Z.shiftl 0x7F 32) 0x7F) with (Z.lor (Z.ones 7 * 2 ^ 32) (Z.ones 7 * 2 ^ 0)). rewrite Z.land_lor_distr_r, !land_ones_shift by lia.
  assert (Ha' : 0 <= a / 100 < 100) by zlia. set (A := a / 100) in *.
  replace ((A + b * 10486 * 2 ^ 12) / 2 ^ 32) with (b / 100).
  - assert (Hb' : 0 <= b / 100 < 100) by zlia. rewrite (Z.mod_small (b / 100)) by lia. change (2 ^ 0) with 1. rewrite Z.div_1_r, Z.mul_1_r.
    replace ((A + b * 10486 * 2 ^ 12) mod 2 ^ 7) with A by zlia. rewrite lor_shiftl_add by lia. lia.
  - change (2 ^ 32) with (2 ^ 12 * 2 ^ 20). rewrite <- Z.div_div, Z.div_add by lia. rewrite (Z.div_small A) by lia. rewrite Z.add_0_l.
    change (2 ^ 20) with 1048576. by rewrite div100_small.
Qed.

(** Division by ten of four lanes. *)
Lemma div10_lanes a b c d : 0 <= a < 100 -> 0 <= b < 100 -> 0 <= c < 100 -> 0 <= d < 100 ->
  Z.land ((a + b * 2 ^ 16 + c * 2 ^ 32 + d * 2 ^ 48) * 103 / 2 ^ 10)
    (Z.lor (Z.lor (Z.lor (Z.shiftl 0xF 48) (Z.shiftl 0xF 32)) (Z.shiftl 0xF 16)) 0xF) =
  a / 10 + b / 10 * 2 ^ 16 + c / 10 * 2 ^ 32 + d / 10 * 2 ^ 48.
Proof.
  intros Ha Hb Hc Hd. set (S := a + b * 2 ^ 16 + c * 2 ^ 32 + d * 2 ^ 48).
  change (Z.lor (Z.lor (Z.lor (Z.shiftl 0xF 48) (Z.shiftl 0xF 32)) (Z.shiftl 0xF 16)) 0xF)
    with (Z.lor (Z.lor (Z.lor (Z.ones 4 * 2 ^ 48) (Z.ones 4 * 2 ^ 32)) (Z.ones 4 * 2 ^ 16)) (Z.ones 4 * 2 ^ 0)).
  rewrite !Z.land_lor_distr_r, !land_ones_shift by lia.
  assert (E0 : (S * 103 / 2 ^ 10 / 2 ^ 0) mod 2 ^ 4 = a / 10).
  { replace S with (0 + a * 2 ^ 0 + (b + c * 2 ^ 16 + d * 2 ^ 32) * (2 ^ 0 * 2 ^ 16)) by (subst S; lia). apply lane10; lia. }
  assert (E1 : (S * 103 / 2 ^ 10 / 2 ^ 16) mod 2 ^ 4 = b / 10).
  { replace S with (a + b * 2 ^ 16 + (c + d * 2 ^ 16) * (2 ^ 16 * 2 ^ 16)) by (subst S; lia). apply lane10; lia. }
  assert (E2 : (S * 103 / 2 ^ 10 / 2 ^ 32) mod 2 ^ 4 = c / 10).
  { replace S with (a + b * 2 ^ 16 + c * 2 ^ 32 + d * (2 ^ 32 * 2 ^ 16)) by (subst S; lia). apply lane10; lia. }
  assert (E3 : (S * 103 / 2 ^ 10 / 2 ^ 48) mod 2 ^ 4 = d / 10).
  { replace S with (a + b * 2 ^ 16 + c * 2 ^ 32 + d * 2 ^ 48 + 0 * (2 ^ 48 * 2 ^ 16)) by (subst S; lia). apply lane10; lia. }
  rewrite E0, E1, E2, E3. change (2 ^ 0) with 1. rewrite Z.mul_1_r. apply lor_lanes; zlia.
Qed.

(** The digits of two numbers below one hundred, in a lane each. *)
Lemma digits_of_lanes a b c d : 0 <= a < 100 -> 0 <= b < 100 -> 0 <= c < 100 -> 0 <= d < 100 ->
  let hundreds := a + b * 2 ^ 16 + c * 2 ^ 32 + d * 2 ^ 48 in
  let tens := a / 10 + b / 10 * 2 ^ 16 + c / 10 * 2 ^ 32 + d / 10 * 2 ^ 48 in
  tens + (hundreds - 10 * tens) * 2 ^ 8 =
    le_combine [a / 10; a mod 10; b / 10; b mod 10; c / 10; c mod 10; d / 10; d mod 10].
Proof. intros Ha Hb Hc Hd. cbv zeta. rewrite !Z.mod_eq by lia. cbn [le_combine]. lia. Qed.

Lemma eight_digits i : 0 <= i < 100000000 -> PrepareEightDigits i = Some (le_combine (rev (fdigits 8 10 i))).
Proof.
  intros Hi. unfold PrepareEightDigits. destruct (Z.ltb_spec i 100000000) as [_|]; [|lia]. cbn [negb]. cbv zeta. f_equal.
  set (a := i / 10000). set (b := i mod 10000). assert (Ha : 0 <= a < 10000) by (subst a; zlia). assert (Hb : 0 <= b < 10000) by (subst b; zlia).
  assert (Em : Z.lor a (ushl 64 b 32) = a + b * 2 ^ 32).
  { rewrite ushl_val, wrap_small by lia. rewrite Z.lor_comm, lor_shiftl_add by lia. lia. }
  rewrite Em. unfold kDivisionBy100Mul, kDivisionBy100Div, kDivisionBy10Mul, kDivisionBy10Div, umul. rewrite (wrap_small 64 ((a + b * 2 ^ 32) * 10486)) by lia.
  rewrite div100_lanes by done. assert (Ha1 : 0 <= a / 100 < 100) by zlia. assert (Hb1 : 0 <= b / 100 < 100) by zlia.
  assert (Ha2 : 0 <= a mod 100 < 100) by zlia. assert (Hb2 : 0 <= b mod 100 < 100) by zlia.
  assert (Eh : uadd 64 (ushl 64 (usub 64 (a + b * 2 ^ 32) (wrap 64 (100 * (a / 100 + b / 100 * 2 ^ 32)))) 16) (a / 100 + b / 100 * 2 ^ 32) =
    a / 100 + a mod 100 * 2 ^ 16 + b / 100 * 2 ^ 32 + b mod 100 * 2 ^ 48).
  { rewrite (wrap_small 64 (100 * _)) by lia. unfold usub, uadd. rewrite (wrap_small 64 (_ - _)) by zlia. rewrite ushl_val by lia.
    replace (a + b * 2 ^ 32 - 100 * (a / 100 + b / 100 * 2 ^ 32)) with (a mod 100 + b mod 100 * 2 ^ 32) by zlia. rewrite (wrap_small 64 (_ * _)) by lia.
    rewrite wrap_small by lia. lia. }
  rewrite Eh. clear Eh Em.
  assert (Ed : [a / 100 / 10; a / 100 mod 10; a mod 100 / 10; a mod 100 mod 10; b / 100 / 10; b / 100 mod 10; b mod 100 / 10; b mod 100 mod 10] = rev (fdigits 8 10 i)).
  { cbn [fdigits rev app]. subst a b. do 8 (apply (f_equal2 cons); [zlia|]). done. }
  rewrite <- Ed. clear Ed. set (p := a / 100) in *. set (q := a mod 100) in *. set (r := b / 100) in *. set (t := b mod 100) in *. clearbody p q r t.
  rewrite <- digits_of_lanes by done. rewrite (wrap_small 64 (_ * 103)), div10_lanes by lia.
  assert (0 <= p / 10 < 10 /\ 0 <= q / 10 < 10 /\ 0 <= r / 10 < 10 /\ 0 <= t / 10 < 10) as (Hp & Hq & Hr & Ht) by zlia.
  assert (0 <= p - 10 * (p / 10) < 10 /\ 0 <= q - 10 * (q / 10) < 10 /\ 0 <= r - 10 * (r / 10) < 10 /\ 0 <= t - 10 * (t / 10) < 10) as (Hp' & Hq' & Hr' & Ht') by zlia.
  generalize dependent (p / 10). generalize dependent (q / 10). generalize dependent (r / 10). generalize dependent (t / 10). intros.
  unfold usub, uadd. rewrite (wrap_small 64 (10 * _)) by lia. rewrite (wrap_small 64 (_ - _)) by lia. rewrite ushl_val by lia.
  rewrite (wrap_small 64 (_ * 2 ^ 8)) by lia. rewrite wrap_small by lia. done.
Qed.

Lemma div10_two_lanes a b : 0 <= a < 100 -> 0 <= b < 100 ->
  Z.land ((a + b * 2 ^ 16) * 103 / 2 ^ 10) (Z.lor (Z.shiftl 0xF 16) 0xF) = a / 10 + b / 10 * 2 ^ 16.
Proof.
  intros Ha Hb. set (S := a + b * 2 ^ 16). change (Z.lor (Z.shiftl 0xF 16) 0xF) with (Z.lor (Z.ones 4 * 2 ^ 16) (Z.ones 4 * 2 ^ 0)).
  rewrite !Z.land_lor_distr_r, !land_ones_shift by lia.
  assert (E0 : (S * 103 / 2 ^ 10 / 2 ^ 0) mod 2 ^ 4 = a / 10).
  { replace S with (0 + a * 2 ^ 0 + b * (2 ^ 0 * 2 ^ 16)) by (subst S; lia). apply lane10; lia. }
  assert (E1 : (S * 103 / 2 ^ 10 / 2 ^ 16) mod 2 ^ 4 = b / 10).
  { replace S with (a + b * 2 ^ 16 + 0 * (2 ^ 16 * 2 ^ 16)) by (subst S; lia). apply lane10; lia. }
  rewrite E0, E1. change (2 ^ 0) with 1. rewrite Z.mul_1_r. rewrite lor_shiftl_add by zlia. lia.
Qed.

(** *** Leading zeros *)

Lemma common_prefix_zeros z d l n : d <> 0 -> (z < n)%nat -> common_prefix (replicate z 0 ++ d :: l) (replicate n 0) = z.
Proof.
  intros Hd. revert n. induction z as [|z IH]; intros [|n] Hn; try lia; cbn [replicate app common_prefix].
  - destruct (Z.eqb_spec d 0); [done|done].
  - rewrite Z.eqb_refl. f_equal. apply IH. lia.
Qed.

Lemma ldigits_last f n : 0 < n < 10 ^ Z.of_nat f -> exists d l, rev (ldigits f 10 n) = d :: l /\ d <> 0.
Proof.
  revert n. induction f as [|f IH]; intros n Hn; [change (10 ^ Z.of_nat 0) with 1 in Hn; lia|].
  destruct (pow_succ_bound 10 ltac:(lia) f n ltac:(lia)) as (_ & Hlt). cbn [ldigits]. destruct (Z.eqb_spec (n / 10) 0) as [E|E].
  - exists (n mod 10), []. split; [done|]. zlia.
  - assert (0 <= n / 10) by (apply Z.div_pos; lia). destruct (IH (n / 10) ltac:(lia)) as (d & l & El & Hd). exists d, (l ++ [n mod 10]). cbn [rev]. by rewrite El.
Qed.

Lemma land_down8 k : 0 <= k < 64 -> Z.land k (usub 32 0 8) = 8 * (k / 8).
Proof. intros Hk. apply Z.eqb_eq. by apply (zrange_forall (fun k => Z.land k (usub 32 0 8) =? 8 * (k / 8)) 64 ltac:(by vm_compute)). Qed.

Lemma ldigits_length f k n : (0 < f)%nat -> (0 < k)%nat -> 0 <= n < 10 ^ Z.of_nat k -> (length (ldigits f 10 n) <= k)%nat /\ (0 < length (ldigits f 10 n))%nat.
Proof.
  revert k n. induction f as [|f IH]; intros k n Hf Hk Hn; [lia|]. cbn [ldigits]. destruct k as [|k]; [lia|].
  pose proof (pow_succ_bound 10 ltac:(lia) k n Hn) as Hq. destruct (Z.eqb_spec (n / 10) 0) as [E|E]; [cbn [length]; lia|].
  destruct k as [|k]; [change (10 ^ Z.of_nat 0) with 1 in Hq; lia|]. destruct f as [|f]; [cbn [ldigits length]; lia|].
  destruct (IH (S k) (n / 10) ltac:(lia) ltac:(lia) Hq) as (H1 & H2). cbn [length]. lia.
Qed.

(** The word of the digits, the count of its leading zeros, and the text that is left. *)
Lemma strip_zeros k n : (k = 4 \/ k = 8)%nat -> 0 < n < 10 ^ Z.of_nat k ->
  let X := le_combine (rev (fdigits k 10 n)) in let z := (k - length (ldigits 40 10 n))%nat in let w := 8 * Z.of_nat k in
  0 < X < 2 ^ w /\ zero_bits w X = 8 * Z.of_nat z /\
  X + le_combine (replicate k 48) < 2 ^ w /\ ushr (X + le_combine (replicate k 48)) (8 * Z.of_nat z) = le_combine (decimal n).
Proof.
  intros Hk Hn X z w. assert (Hn20 : 0 <= n < 10 ^ Z.of_nat 40) by (destruct Hk as [-> | ->]; cbn in *; lia).
  destruct (fdigits_ok k n) as (Hl & Hd). pose proof (Forall_rev_Z _ _ Hd) as Hrd.
  assert (Ep : rev (fdigits k 10 n) = replicate z 0 ++ rev (ldigits 40 10 n)).
  { rewrite (fdigits_pad 10 ltac:(lia) k 40 n) by lia. rewrite rev_app_distr. f_equal. rewrite rev_alt. change (rev_append _ []) with (reverse (replicate z 0)). by rewrite reverse_replicate. }
  destruct (ldigits_last 40 n ltac:(lia)) as (d & l & El & Hd0). destruct (ldigits_length 40 k n ltac:(lia) ltac:(lia) ltac:(lia)) as (Hlen & Hlen0).
  assert (Hbytes : Forall byte_ok (rev (fdigits k 10 n))) by by apply digits_are_bytes.
  assert (HX : 0 <= X < 2 ^ w).
  { pose proof (le_combine_range _ Hbytes) as H. rewrite length_rev, Hl in H. exact H. }
  destruct (xor_words (rev (fdigits k 10 n)) (replicate k 0)) as (H0 & Hk0); [by rewrite length_rev, Hl, length_replicate|done|apply Forall_replicate; unfold byte_ok; lia|].
  rewrite <- (app_nil_l (replicate k 0)), le_combine_app in H0, Hk0. cbn [le_combine app] in H0, Hk0. rewrite Z.lxor_0_r in H0, Hk0. fold X in H0, Hk0.
  rewrite Ep, El, common_prefix_zeros in Hk0 by (done || lia).
  assert (HX0 : X <> 0).
  { intros E. apply H0 in E. rewrite Ep, El in E. apply (f_equal (fun l => l !! z)) in E. rewrite lookup_app_r, length_replicate, Nat.sub_diag in E by (rewrite length_replicate; lia).
    rewrite lookup_replicate_2 in E by lia. cbn in E. congruence. }
  assert (Hw : digits_ok w) by (subst w; destruct Hk as [-> | ->]; [right; right; left|do 3 right]; done).
  assert (Hw0 : w <= 64) by (subst w; lia).
  split_and!; [lia|lia| | |].
  - destruct (lowest_bit_exists X ltac:(lia)) as (j & Hj). unfold zero_bits. rewrite (countr_zero_spec w X j) by (done || lia). destruct (Hk0 j Hj).
    destruct Hj as (Hj0 & Hj1 & _). apply land_down8. split; [done|]. destruct (Z.lt_ge_cases j w); [lia|]. by rewrite (testbit_bounded X w j HX) in Hj1.
  - unfold X. rewrite <- Hl at 2. rewrite <- length_rev, <- le_combine_add.
    pose proof (le_combine_range _ (digit_bytes 48 _ ltac:(lia) Hrd)) as H. rewrite length_fmap, length_rev, Hl in H. by apply H.
  - unfold X. rewrite <- Hl at 2. rewrite <- length_rev, <- le_combine_add. rewrite le_combine_drop by (apply digit_bytes; [lia|done]).
    rewrite Ep, fmap_app, drop_app_length' by (by rewrite length_fmap, length_replicate). done.
Qed.

(** *** The buffer *)

(** The text [l] has been written at the pointer, which moved behind it; [m] bytes from the old pointer may have changed. *)
Definition wrote (m : nat) (o : nat * list Z) (l : list Z) (r : option (nat * list Z)) : Prop :=
  exists o', r = Some o' /\ fst o' = (fst o + length l)%nat /\ length (snd o') = length (snd o) /\
    take (fst o') (snd o') = take (fst o) (snd o) ++ l /\ drop (fst o + m) (snd o') = drop (fst o + m) (snd o).

Lemma put_buffer_ok m pos l g buf : (pos + length (l ++ g) <= length buf)%nat -> (length (l ++ g) <= m)%nat ->
  exists buf', put pos (l ++ g) buf = Some buf' /\ length buf' = length buf /\ take (pos + length l) buf' = take pos buf ++ l /\
    drop (pos + m) buf' = drop (pos + m) buf.
Proof.
  intros Hf Hm. unfold put. rewrite decide_True by done. eexists. split; [done|]. rewrite length_app in *.
  assert (Hp : length (take pos buf) = pos) by (rewrite length_take; lia). split_and!.
  - rewrite !length_app, length_drop, Hp. lia.
  - rewrite <- app_assoc, (app_assoc (take pos buf)). apply take_app_length'. rewrite length_app. lia.
  - rewrite (app_assoc (take pos buf)), drop_app_ge by (rewrite !length_app; lia). rewrite drop_drop. f_equal. rewrite !length_app, Hp. lia.
Qed.

Lemma put_wrote m pos l g buf bytes : bytes = l ++ g -> (pos + length bytes <= length buf)%nat -> (length bytes <= m)%nat ->
  forall p, p = (pos + length l)%nat -> wrote m (pos, buf) l (buf' ← put pos bytes buf; Some (p, buf')).
Proof.
  intros -> Hf Hm p ->. destruct (put_buffer_ok m pos l g buf Hf Hm) as (buf' & -> & H1 & H2 & H3). cbn [mbind option_bind].
  exists (pos + length l, buf')%nat. by split_and!.
Qed.

Lemma wrote_trans m1 m2 m o o1 l1 l2 r : wrote m1 o l1 (Some o1) -> (m1 <= m)%nat -> (length l1 + m2 <= m)%nat -> wrote m2 o1 l2 r -> wrote m o (l1 ++ l2) r.
Proof.
  intros (o1' & [= <-] & Hp & Hl & Ht & Hd) Hm1 Hm2 (o2 & -> & Hp2 & Hl2 & Ht2 & Hd2).
  exists o2. split_and!; [done|rewrite Hp2, Hp, length_app; lia|by rewrite Hl2|by rewrite Ht2, Ht, app_assoc|].
  rewrite Hp in Hd2. replace (fst o + m)%nat with (fst o + length l1 + m2 + (m - length l1 - m2))%nat by lia.
  rewrite <- drop_drop, Hd2, drop_drop. replace (fst o + length l1 + m2 + (m - length l1 - m2))%nat with (fst o + m1 + (m - m1))%nat by lia.
  by rewrite <- drop_drop, Hd, drop_drop.
Qed.

Lemma wrote_Some m o l r : wrote m o l r -> exists o1, r = Some o1 /\ wrote m o l (Some o1) /\ fst o1 = (fst o + length l)%nat /\ length (snd o1) = length (snd o).
Proof. intros (o1 & -> & H1 & H2 & H3 & H4). exists o1. split_and!; [done| |done|done]. exists o1. by split_and!. Qed.

Lemma wrote_bind m1 m2 m o l1 l2 r (k : nat * list Z -> option (nat * list Z)) : wrote m1 o l1 r -> (m1 <= m)%nat -> (length l1 + m2 <= m)%nat ->
  (forall o', (fst o' = fst o + length l1)%nat -> length (snd o') = length (snd o) -> wrote m2 o' l2 (k o')) ->
  wrote m o (l1 ++ l2) (o' ← r; k o').
Proof.
  intros Hw Hm1 Hm2 Hk. destruct (wrote_Some _ _ _ _ Hw) as (o1 & -> & Hw1 & Hp & Hl). cbn [mbind option_bind].
  by apply (wrote_trans m1 m2 m o o1); [..|apply Hk].
Qed.

Lemma wrote_weaken m1 m o l r : wrote m1 o l r -> (m1 <= m)%nat -> wrote m o l r.
Proof.
  intros (o1 & -> & Hp & Hl & Ht & Hd) Hm. exists o1. split_and!; try done.
  replace (fst o + m)%nat with (fst o + m1 + (m - m1))%nat by lia. by rewrite <- drop_drop, Hd, drop_drop.
Qed.

Lemma bind_some {A B : Type} (x : A) (f : A -> option B) : (Some x ≫= f) = f x.
Proof. done. Qed.

(** *** The encoders *)

Section Encoders.
Context (little : bool).

Lemma length_decimal n : 0 <= n < 10 ^ 40 -> (0 < length (decimal n))%nat /\ forall k, (0 < k)%nat -> n < 10 ^ Z.of_nat k -> (length (decimal n) <= k)%nat.
Proof.
  intros Hn. unfold decimal. rewrite length_fmap, length_rev. split.
  - apply (ldigits_length 40 40 n); [lia|lia|done].
  - intros k Hk Hlt. apply ldigits_length; lia.
Qed.

Lemma decimal_ok n : 0 <= n -> Forall byte_ok (decimal n).
Proof. intros Hn. apply digit_bytes; [lia|]. by apply Forall_rev_Z, ldigits_ok. Qed.

(** Leading digits followed by a fixed number of digits. *)
Lemma decimal_split k hi lo : (k < 40)%nat -> 0 < hi -> hi * 10 ^ Z.of_nat k + lo < 10 ^ 40 -> 0 <= lo < 10 ^ Z.of_nat k ->
  decimal (hi * 10 ^ Z.of_nat k + lo) = decimal hi ++ padded_decimal k lo.
Proof.
  intros Hk Hhi Hb Hlo. unfold decimal, padded_decimal. rewrite <- fmap_app, <- rev_app_distr. do 2 f_equal.
  assert (H10 : 0 < 10 ^ Z.of_nat k) by (apply Z.pow_pos_nonneg; lia).
  rewrite <- (ldigits_split 10 ltac:(lia) k 40) by lia. apply ldigits_fuel; [lia|lia|lia|nia|].
  rewrite Nat2Z.inj_add, Z.pow_add_r by lia. change (Z.of_nat 40) with 40. nia.
Qed.

(** Eight digits with their zeros. *)
Lemma store_eight i : 0 <= i < 100000000 -> exists b, PrepareEightDigits i = Some b /\
  le_store little 8 (uadd 64 b kEightZeroBytes) = padded_decimal 8 i.
Proof.
  intros Hi. eexists. split; [by apply eight_digits|]. destruct (fdigits_ok 8 i) as (Hl & Hd). pose proof (Forall_rev_Z _ _ Hd) as Hrd.
  change kEightZeroBytes with (le_combine (replicate 8 48)). pose proof (le_combine_add (rev (fdigits 8 10 i)) 48) as E. rewrite length_rev, Hl in E. unfold uadd. rewrite <- E.
  pose proof (digit_bytes 48 _ ltac:(lia) Hrd) as Hb. pose proof (le_combine_range _ Hb) as Hr. rewrite length_fmap, length_rev, Hl in Hr. change (2 ^ (8 * Z.of_nat 8)) with (2 ^ 64) in Hr.
  rewrite wrap_small by done. rewrite le_store_spec; [|do 3 right; done|done]. pose proof (le_bytes_combine _ Hb) as Eb. by rewrite length_fmap, length_rev, Hl in Eb.
Qed.

(** The digits of a word without its leading zeros. *)
Lemma store_stripped k n X c : (k = 4 \/ k = 8)%nat -> 0 < n < 10 ^ Z.of_nat k -> X = le_combine (rev (fdigits k 10 n)) -> c = le_combine (replicate k 48) ->
  let zeroes := zero_bits (8 * Z.of_nat k) X in
  X <> 0 /\ 0 <= X < 2 ^ (8 * Z.of_nat k) /\ 0 <= X + c < 2 ^ (8 * Z.of_nat k) /\ (k - Z.to_nat (zeroes / 8))%nat = length (decimal n) /\ (0 < length (decimal n) <= k)%nat /\
  le_store little k (ushr (X + c) zeroes) = decimal n ++ replicate (k - length (decimal n)) 0.
Proof.
  intros Hk Hn -> -> zeroes. destruct (strip_zeros k n Hk Hn) as (H1 & H2 & H3 & H4). fold zeroes in H2. rewrite <- H2 in H4.
  assert (Hlen : length (decimal n) = length (ldigits 40 10 n)) by (unfold decimal; by rewrite length_fmap, length_rev).
  destruct (ldigits_length 40 k n ltac:(lia) ltac:(lia) ltac:(lia)) as (Hle & Hpos).
  assert (Hc : 0 <= le_combine (replicate k 48)) by (destruct Hk as [-> | ->]; by vm_compute).
  assert (Hz : Z.to_nat (zeroes / 8) = (k - length (decimal n))%nat) by (rewrite H2, Hlen, (Z.mul_comm 8), Z.div_mul by lia; lia).
  rewrite Hz. split_and!; [lia|lia|lia|lia|lia|lia|lia|lia|]. rewrite H4. pose proof (decimal_ok n ltac:(lia)) as Hd.
  rewrite <- (le_bytes_short (decimal n) (k - length (decimal n)) Hd). replace (length (decimal n) + (k - length (decimal n)))%nat with k by lia.
  apply le_store_spec; [destruct Hk as [-> | ->]; [right; right; left|do 3 right]; done|]. rewrite <- H4. rewrite H2.
  rewrite ushr_val by lia. split; [apply Z.div_pos; lia|]. apply Z.le_lt_trans with (2 := H3). apply Z.div_le_upper_bound; [lia|]. 
  assert (0 < 2 ^ (8 * Z.of_nat (k - length (ldigits 40 10 n)))) by lia. nia.
Qed.

(** Two digits, for each of the hundred arguments. *)
Definition hundred_base (n : Z) : Z :=
  let num_digits := Z.shiftr (swrap 32 (usub 32 n 10)) 8 in
  let div10 := wrap 32 (umul 64 n kDivisionBy10Mul / kDivisionBy10Div) in
  let mod10 := usub 32 n (umul 32 10 div10) in
  let base := uadd 32 (uadd 32 kTwoZeroBytes div10) (ushl 32 mod10 8) in
  ushr base (Z.land num_digits 8).

Lemma hundred_table n : 0 <= n < 100 ->
  (le_bytes 2 (wrap 16 (hundred_base n)) = decimal n ++ replicate (2 - length (decimal n)) 0) /\
  Z.of_nat (length (decimal n)) = 2 + Z.shiftr (swrap 32 (usub 32 n 10)) 8 /\
  le_bytes 2 (wrap 16 (uadd 32 kTwoZeroBytes (uadd 32 (wrap 32 (umul 64 n kDivisionBy10Mul / kDivisionBy10Div))
    (ushl 32 (usub 32 n (umul 32 10 (wrap 32 (umul 64 n kDivisionBy10Mul / kDivisionBy10Div)))) 8)))) = padded_decimal 2 n.
Proof.
  intros Hn. pose proof (zrange_forall (fun n => bool_decide (
    (le_bytes 2 (wrap 16 (hundred_base n)) = decimal n ++ replicate (2 - length (decimal n)) 0) /\
    Z.of_nat (length (decimal n)) = 2 + Z.shiftr (swrap 32 (usub 32 n 10)) 8 /\
    le_bytes 2 (wrap 16 (uadd 32 kTwoZeroBytes (uadd 32 (wrap 32 (umul 64 n kDivisionBy10Mul / kDivisionBy10Div))
      (ushl 32 (usub 32 n (umul 32 10 (wrap 32 (umul 64 n kDivisionBy10Mul / kDivisionBy10Div)))) 8)))) = padded_decimal 2 n)) 100 ltac:(by vm_compute) n Hn) as H.
  by apply bool_decide_eq_true in H.
Qed.

Lemma le_store_2 v : le_store little 2 (wrap 16 v) = le_bytes 2 (wrap 16 v).
Proof. apply le_store_spec; [right; left; done|]. apply wrap_range. lia. Qed.

Lemma EncodeHundred_ok n o : 0 <= n < 100 -> (fst o + 2 <= length (snd o))%nat -> wrote 2 o (decimal n) (EncodeHundred little n o).
Proof.
  intros Hn Hf. destruct o as [pos buf]. cbn [fst snd] in *. unfold EncodeHundred. cbn [fst snd]. destruct (hundred_table n Hn) as (E1 & E2 & _).
  fold (hundred_base n). rewrite le_store_2. pose proof (length_le_bytes 2 (wrap 16 (hundred_base n))) as Hl.
  eapply put_wrote; [exact E1|lia|lia|lia].
Qed.

Lemma PutTwoDigits_ok i pos buf : 0 <= i < 100 -> (pos + 2 <= length buf)%nat ->
  PutTwoDigits little i pos buf = Some (take pos buf ++ padded_decimal 2 i ++ drop (pos + 2) buf).
Proof.
  intros Hi Hf. unfold PutTwoDigits. destruct (hundred_table i Hi) as (_ & _ & E). rewrite le_store_2, E. unfold put.
  assert (Hl : length (padded_decimal 2 i) = 2%nat) by (unfold padded_decimal; by rewrite length_fmap, length_rev, (proj1 (fdigits_ok 2 i))).
  rewrite Hl. by rewrite decide_True.
Qed.

Lemma ten_thousand_word n : 0 < n < 10000 ->
  let div100 := wrap 32 (umul 64 n kDivisionBy100Mul / kDivisionBy100Div) in
  let mod100 := wrap 32 (usub 64 n (umul 64 100 div100)) in
  let hundreds := uadd 32 (ushl 32 mod100 16) div100 in
  let tens := Z.land (wrap 32 (umul 64 hundreds kDivisionBy10Mul / kDivisionBy10Div)) (Z.lor (Z.shiftl 0xF 16) 0xF) in
  wrap 32 (uadd 64 tens (ushl 64 (usub 64 hundreds (umul 64 10 tens)) 8)) = le_combine (rev (fdigits 4 10 n)).
Proof.
  intros Hn. unfold kDivisionBy100Mul, kDivisionBy100Div, kDivisionBy10Mul, kDivisionBy10Div, umul. cbv zeta.
  rewrite (wrap_small 64 (n * 10486)) by lia. change (2 ^ 20) with 1048576. rewrite div100_small by lia.
  assert (Ha : 0 <= n / 100 < 100) by zlia. assert (Hb : 0 <= n mod 100 < 100) by zlia. rewrite (wrap_small 32 (n / 100)) by lia.
  assert (Em : wrap 32 (usub 64 n (wrap 64 (100 * (n / 100)))) = n mod 100).
  { rewrite (wrap_small 64) by lia. unfold usub. rewrite (wrap_small 64) by zlia. rewrite wrap_small by zlia. zlia. }
  rewrite Em. assert (Eh : uadd 32 (ushl 32 (n mod 100) 16) (n / 100) = n / 100 + n mod 100 * 2 ^ 16).
  { rewrite ushl_val, (wrap_small 32) by lia. unfold uadd. rewrite wrap_small by lia. lia. }
  rewrite Eh. assert (Ed : [n / 100 / 10; n / 100 mod 10; n mod 100 / 10; n mod 100 mod 10] = rev (fdigits 4 10 n)).
  { cbn [fdigits rev app]. do 4 (apply (f_equal2 cons); [zlia|]). done. }
  rewrite <- Ed. clear Ed Em Eh. set (a := n / 100) in *. set (b := n mod 100) in *. clearbody a b.
  rewrite (wrap_small 64 (_ * 103)) by lia. rewrite (wrap_small 32 (_ / 2 ^ 10)) by (change (2 ^ 10) with 1024; zlia). rewrite div10_two_lanes by done.
  assert (0 <= a / 10 < 10 /\ 0 <= b / 10 < 10) as (Hp & Hq) by zlia. assert (0 <= a - 10 * (a / 10) < 10 /\ 0 <= b - 10 * (b / 10) < 10) as (Hp' & Hq') by zlia.
  rewrite !Z.mod_eq by lia. generalize dependent (a / 10). generalize dependent (b / 10). intros.
  unfold usub, uadd. rewrite (wrap_small 64 (10 * _)) by lia. rewrite (wrap_small 64 (_ - _)) by lia. rewrite ushl_val by lia.
  rewrite (wrap_small 64 (_ * 2 ^ 8)) by lia. rewrite (wrap_small 64) by lia. rewrite wrap_small by lia. cbn [le_combine]. lia.
Qed.

Lemma EncodeTenThousand_ok n o : 0 < n < 10000 -> (fst o + 4 <= length (snd o))%nat -> wrote 4 o (decimal n) (EncodeTenThousand little n o).
Proof.
  intros Hn Hf. destruct o as [pos buf]. cbn [fst snd] in *. unfold EncodeTenThousand. cbn [fst snd].
  pose proof (ten_thousand_word n Hn) as E. cbv zeta in E |- *. rewrite E. clear E.
  destruct (store_stripped 4 n _ kFourZeroBytes (or_introl eq_refl) ltac:(cbn; lia) eq_refl ltac:(by vm_compute)) as (H0 & Hr & Hc & Hz & Hle & E).
  change (8 * Z.of_nat 4) with 32 in *. destruct (Z.eqb_spec (le_combine (rev (fdigits 4 10 n))) 0) as [|_]; [done|].
  assert (Ew : wrap 32 (uadd 64 (le_combine (rev (fdigits 4 10 n))) kFourZeroBytes) = le_combine (rev (fdigits 4 10 n)) + kFourZeroBytes).
  { unfold uadd. rewrite (wrap_small 64) by lia. by apply wrap_small. }
  rewrite Ew. eapply put_wrote; [exact E|rewrite E, length_app, length_replicate; lia|rewrite E, length_app, length_replicate; lia|lia].
Qed.

Lemma length_padded k n : length (padded_decimal k n) = k.
Proof. unfold padded_decimal. by rewrite length_fmap, length_rev, (proj1 (fdigits_ok k n)). Qed.

(** A store of eight digits. *)
Lemma put_eight i o : 0 <= i < 100000000 -> (fst o + 8 <= length (snd o))%nat ->
  exists b, PrepareEightDigits i = Some b /\
    wrote 8 o (padded_decimal 8 i) (buf ← put (fst o) (le_store little 8 (uadd 64 b kEightZeroBytes)) (snd o); Some ((fst o + 8)%nat, buf)).
Proof.
  intros Hi Hf. destruct (store_eight i Hi) as (b & E1 & E2). exists b. split; [done|]. rewrite E2. destruct o as [pos buf]. cbn [fst snd] in *.
  eapply put_wrote; [symmetry; apply app_nil_r|rewrite length_padded; lia|rewrite length_padded; lia|by rewrite length_padded].
Qed.

Lemma decimal_digit n : 0 <= n < 10 -> decimal n = [48 + n].
Proof. intros Hn. unfold decimal. cbn [ldigits]. rewrite Z.div_small by done. cbn [Z.eqb rev app fmap list_fmap]. by rewrite Z.mod_small. Qed.

Lemma decimal_10_8 n : 100000000 <= n -> n < 10 ^ 40 -> decimal n = decimal (n / 100000000) ++ padded_decimal 8 (n mod 100000000).
Proof.
  intros Hn Hlt. rewrite (Z.div_mod n 100000000) at 1 by lia. rewrite (Z.mul_comm 100000000). apply (decimal_split 8 (n / 100000000) (n mod 100000000)); [lia|zlia| |].
  - change (10 ^ Z.of_nat 8) with 100000000. rewrite Z.mul_comm, <- Z.div_mod by lia. done.
  - apply Z.mod_pos_bound. lia.
Qed.

Lemma EncodeFullU32_small n o : 0 <= n < 100000000 -> (fst o + 8 <= length (snd o))%nat -> wrote 8 o (decimal n) (EncodeFullU32 little n o).
Proof.
  intros Hn Hf. destruct o as [pos buf]. cbn [fst snd] in *. unfold EncodeFullU32. cbn [fst snd]. destruct (Z.ltb_spec n 10) as [H10|H10].
  - rewrite decimal_digit by lia. rewrite wrap_small by lia. eapply put_wrote; [symmetry; apply app_nil_r|cbn [length]; lia|cbn [length]; lia|done].
  - destruct (Z.ltb_spec n 100000000) as [_|]; [|lia]. rewrite eight_digits by lia. cbn [mbind option_bind].
    destruct (store_stripped 8 n _ kEightZeroBytes (or_intror eq_refl) ltac:(cbn; lia) eq_refl ltac:(by vm_compute)) as (H0 & Hr & Hc & Hz & Hle & E).
    change (8 * Z.of_nat 8) with 64 in *. destruct (Z.eqb_spec (le_combine (rev (fdigits 8 10 n))) 0) as [|_]; [done|].
    unfold uadd. rewrite (wrap_small 64) by lia. eapply put_wrote; [exact E|rewrite E, length_app, length_replicate; lia|rewrite E, length_app, length_replicate; lia|lia].
Qed.

Lemma EncodeFullU32_ok n o : 0 <= n < 2 ^ 32 -> (fst o + 10 <= length (snd o))%nat -> wrote 10 o (decimal n) (EncodeFullU32 little n o).
Proof.
  intros Hn Hf. destruct (Z.lt_ge_cases n 100000000) as [Hlt|Hge]; [eapply wrote_weaken; [apply EncodeFullU32_small; [lia|lia]|lia]|].
  unfold EncodeFullU32. destruct (Z.ltb_spec n 10) as [|_]; [lia|]. destruct (Z.ltb_spec n 100000000) as [|_]; [lia|].
  rewrite (decimal_10_8 n) by lia. destruct (store_eight (n mod 100000000) ltac:(apply Z.mod_pos_bound; lia)) as (b & Eb & _). rewrite Eb. cbn [mbind option_bind].
  assert (Hh : 0 <= n / 100000000 < 100) by zlia. destruct (length_decimal (n / 100000000) ltac:(lia)) as (_ & Hlen). specialize (Hlen 2%nat ltac:(lia) ltac:(change (10 ^ Z.of_nat 2) with 100; lia)).
  apply (wrote_bind 2 8); [apply EncodeHundred_ok; [done|lia]|lia|lia|]. intros o' Hp Hl.
  destruct (put_eight (n mod 100000000) o' ltac:(apply Z.mod_pos_bound; lia) ltac:(lia)) as (b' & Eb' & Hw). rewrite Eb in Eb'. by injection Eb' as ->.
Qed.

Lemma EncodeFullU64_ok i o : 0 <= i < 2 ^ 64 -> (fst o + 20 <= length (snd o))%nat -> wrote 20 o (decimal i) (EncodeFullU64 little i o).
Proof.
  intros Hi Hf. unfold EncodeFullU64. destruct (Z.leb_spec i (2 ^ 32 - 1)) as [Hle|Hgt].
  { rewrite wrap_small by lia. eapply wrote_weaken; [apply EncodeFullU32_ok; lia|lia]. }
  rewrite (decimal_10_8 i) by lia. assert (Hm : 0 <= i mod 100000000 < 100000000) by (apply Z.mod_pos_bound; lia). rewrite (wrap_small 32 (i mod _)) by lia.
  assert (Hlast : forall o', (fst o' + 8 <= length (snd o'))%nat -> wrote 8 o' (padded_decimal 8 (i mod 100000000))
    (mod_result ← PrepareEightDigits (i mod 100000000);
     buf ← put (fst o') (le_store little 8 (uadd 64 mod_result kEightZeroBytes)) (snd o'); Some ((fst o' + 8)%nat, buf))).
  { intros o' Hf'. destruct (put_eight (i mod 100000000) o' Hm Hf') as (b & -> & Hw). exact Hw. }
  assert (Hd : 0 < i / 100000000 < 10 ^ 40) by zlia. destruct (length_decimal (i / 100000000) ltac:(lia)) as (_ & Hlen).
  destruct (Z.ltb_spec i 10000000000000000) as [Hs|Hb].
  - assert (Hd8 : i / 100000000 < 100000000) by zlia. specialize (Hlen 8%nat ltac:(lia) ltac:(change (10 ^ Z.of_nat 8) with 100000000; lia)). rewrite (wrap_small 32) by lia.
    destruct (wrote_Some _ _ _ _ (EncodeFullU32_small (i / 100000000) o ltac:(lia) ltac:(lia))) as (o1 & -> & Hw & Hp & Hl). rewrite !bind_some.
    apply (wrote_trans 8 8 20 o o1); [exact Hw|lia|lia|]. apply Hlast. lia.
  - assert (Hd8 : 100000000 <= i / 100000000) by zlia. rewrite (decimal_10_8 (i / 100000000)) by lia.
    assert (Hdm : 0 <= (i / 100000000) mod 100000000 < 100000000) by (apply Z.mod_pos_bound; lia). assert (Hdd : 0 < i / 100000000 / 100000000 < 10000) by zlia.
    rewrite (wrap_small 32 (_ mod _)), (wrap_small 32) by lia.
    destruct (length_decimal (i / 100000000 / 100000000) ltac:(lia)) as (_ & Hlen4). specialize (Hlen4 4%nat ltac:(lia) ltac:(change (10 ^ Z.of_nat 4) with 10000; lia)).
    destruct (store_eight ((i / 100000000) mod 100000000) Hdm) as (b & Eb & _). rewrite Eb, bind_some.
    destruct (wrote_Some _ _ _ _ (EncodeTenThousand_ok (i / 100000000 / 100000000) o ltac:(lia) ltac:(lia))) as (o1 & -> & Hw & Hp & Hl). rewrite !bind_some.
    destruct (put_eight ((i / 100000000) mod 100000000) o1 Hdm ltac:(lia)) as (b' & Eb' & Hw'). rewrite Eb in Eb'. injection Eb' as <-.
    destruct (wrote_Some _ _ _ _ Hw') as (o2 & E2 & Hw2 & Hp2 & Hl2). rewrite length_padded in Hp2.
    destruct (put (fst o1) _ (snd o1)) as [buf|]; [|done]. rewrite bind_some in E2. rewrite !bind_some. injection E2 as <-. cbn [fst snd] in *.
    apply (wrote_trans 12 8 20 o (fst o1 + 8, buf)%nat); [|lia|rewrite length_app, length_padded; lia|apply Hlast; cbn [fst snd]; lia].
    apply (wrote_trans 4 8 12 o o1); [exact Hw|lia|lia|exact Hw2].
Qed.

(** *** Terminated text *)

(** The text and its terminating zero are in the buffer, the pointer is on the zero, and nothing beyond [kFastToBufferSize] bytes has changed. *)
Definition wrote_text (o : nat * list Z) (l : list Z) (r : option (nat * list Z)) : Prop :=
  exists o', r = Some o' /\ fst o' = (fst o + length l)%nat /\ length (snd o') = length (snd o) /\
    take (S (fst o')) (snd o') = take (fst o) (snd o) ++ l ++ [0] /\
    drop (fst o + kFastToBufferSize) (snd o') = drop (fst o + kFastToBufferSize) (snd o).

Lemma terminate m o l r : wrote m o l r -> (m <= 31)%nat -> (length l <= m)%nat -> (fst o + 32 <= length (snd o))%nat ->
  wrote_text o l (o ← r; buf ← put (fst o) [0] (snd o); Some (fst o, buf)).
Proof.
  intros Hw Hm Hl Hf. destruct (wrote_Some _ _ _ _ Hw) as (o1 & -> & Hw1 & Hp & Hlen). rewrite bind_some.
  destruct (put_buffer_ok 1 (fst o1) [0] [] (snd o1)) as (buf & E & H1 & H2 & H3); [cbn [app length]; lia|cbn; lia|]. cbn [app] in E. rewrite E, bind_some.
  destruct Hw1 as (o1' & [= <-] & _ & _ & Ht & Hd). exists (fst o1, buf). cbn [fst snd]. split_and!; [done|done|by rewrite H1| |].
  - rewrite <- Nat.add_1_r. cbn [length] in H2. rewrite H2, Ht. by rewrite <- app_assoc.
  - unfold kFastToBufferSize. replace (fst o + 32)%nat with (fst o1 + 1 + (31 - length l))%nat by lia. rewrite <- drop_drop, H3, drop_drop.
    replace (fst o1 + 1 + (31 - length l))%nat with (fst o + m + (32 - m))%nat by lia.
    by rewrite <- (drop_drop (snd o1) (32 - m) (fst o + m)), Hd, drop_drop.
Qed.

Definition signed_decimal (i : Z) : list Z := if i <? 0 then 45 :: decimal (- i) else decimal i.

Lemma minus_ok o : (fst o + 1 <= length (snd o))%nat -> wrote 1 o [45] (buf ← put (fst o) [45] (snd o); Some (S (fst o), buf)).
Proof. intros Hf. destruct o as [pos buf]. cbn [fst snd] in *. eapply put_wrote; [symmetry; apply app_nil_r|cbn [length]; lia|cbn; lia|cbn [length]; lia]. Qed.

Lemma negated w i : 0 < w -> - 2 ^ (w - 1) <= i < 0 -> usub w 0 (wrap w i) = - i.
Proof.
  intros Hw Hi. assert (Hp : 2 ^ w = 2 * 2 ^ (w - 1)) by (rewrite <- Z.pow_succ_r by lia; f_equal; lia).
  unfold usub. rewrite wrap_sub_r by lia. apply wrap_small. lia.
Qed.

Lemma FastUint32_ok n o : 0 <= n < 2 ^ 32 -> (fst o + 32 <= length (snd o))%nat -> wrote_text o (decimal n) (FastUint32ToBuffer little n o).
Proof.
  intros Hn Hf. destruct (length_decimal n ltac:(lia)) as (_ & Hl). specialize (Hl 10%nat ltac:(lia) ltac:(change (10 ^ Z.of_nat 10) with 10000000000; lia)).
  apply (terminate 10); [apply EncodeFullU32_ok; lia|lia|lia|lia].
Qed.

Lemma FastUint64_ok n o : 0 <= n < 2 ^ 64 -> (fst o + 32 <= length (snd o))%nat -> wrote_text o (decimal n) (FastUint64ToBuffer little n o).
Proof.
  intros Hn Hf. destruct (length_decimal n ltac:(lia)) as (_ & Hl). specialize (Hl 20%nat ltac:(lia) ltac:(change (10 ^ Z.of_nat 40) with (10 ^ 40); lia)).
  apply (terminate 20); [apply EncodeFullU64_ok; lia|lia|lia|lia].
Qed.

(** A sign before the digits. *)
Lemma signed_ok enc m i o : (m <= 20)%nat -> (length (decimal (- i)) <= m)%nat -> (fst o + 32 <= length (snd o))%nat ->
  (forall o', (fst o' + m <= length (snd o'))%nat -> wrote m o' (decimal (- i)) (enc (- i) o')) ->
  wrote_text o (45 :: decimal (- i))
    ('(u, o) ← (buf ← put (fst o) [45] (snd o); Some (- i, (S (fst o), buf))); o ← enc u o; buf ← put (fst o) [0] (snd o); Some (fst o, buf)).
Proof.
  intros Hm Hl Hf Henc. destruct (wrote_Some _ _ _ _ (minus_ok o ltac:(lia))) as (o1 & E1 & Hw1 & Hp1 & Hl1).
  destruct (put (fst o) [45] (snd o)) as [buf|]; [|done]. rewrite bind_some in E1. injection E1 as E1. rewrite !bind_some. cbn [fst snd] in *. rewrite E1.
  cbn [length] in Hp1. apply (terminate (1 + m)); [|lia|cbn [length]; lia|lia]. change (45 :: decimal (- i)) with ([45] ++ decimal (- i)).
  apply (wrote_trans 1 m (1 + m) o o1); [exact Hw1|lia|cbn [length]; lia|]. apply Henc. lia.
Qed.

Lemma FastInt32_ok i o : - 2 ^ 31 <= i < 2 ^ 31 -> (fst o + 32 <= length (snd o))%nat -> wrote_text o (signed_decimal i) (FastInt32ToBuffer little i o).
Proof.
  intros Hi Hf. unfold FastInt32ToBuffer, signed_decimal. cbv zeta. destruct (Z.ltb_spec i 0) as [Hneg|Hpos].
  - rewrite (negated 32 i) by lia. destruct (length_decimal (- i) ltac:(lia)) as (_ & Hl). specialize (Hl 10%nat ltac:(lia) ltac:(change (10 ^ Z.of_nat 10) with 10000000000; lia)).
    apply (signed_ok (EncodeFullU32 little) 10 i o); [lia|lia|lia|]. intros o' Ho'. apply EncodeFullU32_ok; lia.
  - rewrite wrap_small, bind_some by lia. apply (FastUint32_ok i o); lia.
Qed.

Lemma FastInt64_ok i o : - 2 ^ 63 <= i < 2 ^ 63 -> (fst o + 32 <= length (snd o))%nat -> wrote_text o (signed_decimal i) (FastInt64ToBuffer little i o).
Proof.
  intros Hi Hf. unfold FastInt64ToBuffer, signed_decimal. cbv zeta. destruct (Z.ltb_spec i 0) as [Hneg|Hpos].
  - rewrite (negated 64 i) by lia. destruct (length_decimal (- i) ltac:(lia)) as (_ & Hl). specialize (Hl 20%nat ltac:(lia) ltac:(change (10 ^ Z.of_nat 40) with (10 ^ 40); lia)).
    apply (signed_ok (EncodeFullU64 little) 20 i o); [lia|lia|lia|]. intros o' Ho'. apply EncodeFullU64_ok; lia.
  - rewrite wrap_small, bind_some by lia. apply (FastUint64_ok i o); lia.
Qed.
End Encoders.

(** *** What the text means *)

(** Horner's rule on the characters. *)
Definition text_value (base : Z) (l : list Z) : Z := fold_left (fun v d => v * base + d) l 0.

Lemma text_value_rev b l : text_value b (rev l) = of_ldigits b l.
Proof. unfold text_value. rewrite <- fold_left_rev_right, rev_involutive. induction l as [|d l IH]; [done|]. cbn [fold_right of_ldigits]. rewrite IH. lia. Qed.

Lemma decimal_value n : 0 <= n < 10 ^ 40 -> text_value 10 ((fun c => c - 48) <$> decimal n) = n /\ (0 < n -> head (decimal n) <> Some 48) /\
  Forall (fun c => 48 <= c <= 57) (decimal n).
Proof.
  intros Hn. unfold decimal. rewrite <- list_fmap_compose. split_and!.
  - transitivity (text_value 10 (rev (ldigits 40 10 n))); [|rewrite text_value_rev; apply of_ldigits_ldigits; [lia|lia|exact Hn]].
    f_equal. rewrite <- (list_fmap_id (rev (ldigits 40 10 n))) at 2. apply list_fmap_ext. intros i x _. cbn. lia.
  - intros H0. destruct (ldigits_last 40 n) as (d & l & -> & Hd); [change (10 ^ Z.of_nat 40) with (10 ^ 40); lia|]. cbn. intros [= E]. lia.
  - apply Forall_fmap. pose proof (Forall_rev_Z _ _ (ldigits_ok 40 n ltac:(lia))) as H. revert H. apply Forall_impl. intros d Hd. cbn in *. lia.
Qed.

(** ** Properties *)

Definition int_type (kIsSigned : bool) (bits : Z) (i : Z) : Prop :=
  (bits = 8 \/ bits = 16 \/ bits = 32 \/ bits = 64) /\
  if kIsSigned then - 2 ^ (bits - 1) <= i < 2 ^ (bits - 1) else 0 <= i < 2 ^ bits.

Lemma fast_int_writes little kIsSigned bits i o : int_type kIsSigned bits i -> (fst o + kFastToBufferSize <= length (snd o))%nat ->
  wrote_text o (signed_decimal i) (FastIntToBuffer little kIsSigned bits i o).
Proof.
  intros (Hw & Hi) Hf. unfold kFastToBufferSize in Hf. unfold FastIntToBuffer. destruct kIsSigned.
  - destruct Hw as [-> | [-> | [-> | ->]]]; cbn [Z.ltb Z.compare Pos.compare Pos.compare_cont]; cbn in Hi; rewrite swrap_small by lia;
      first [apply FastInt32_ok; lia|apply FastInt64_ok; lia].
  - unfold signed_decimal. destruct (Z.ltb_spec i 0); [lia|].
    destruct Hw as [-> | [-> | [-> | ->]]]; cbn [Z.ltb Z.compare Pos.compare Pos.compare_cont]; rewrite wrap_small by lia;
      first [apply FastUint32_ok; lia|apply FastUint64_ok; lia].
Qed.

Lemma fast_int_to_buffer_text little kIsSigned bits i buf : int_type kIsSigned bits i -> (kFastToBufferSize <= length buf)%nat ->
  exists n buf', FastIntToBuffer little kIsSigned bits i (0%nat, buf) = Some (n, buf') /\ take n buf' = signed_decimal i.
Proof.
  intros Hi Hf. destruct (fast_int_writes little kIsSigned bits i (0%nat, buf) Hi Hf) as ([n buf'] & E & Hn & _ & Ht & _).
  exists n, buf'. split; [done|]. cbn [fst snd] in *. rewrite (take_0 buf) in Ht. cbn [app] in Ht. rewrite Hn in *.
  apply (f_equal (take (0 + length (signed_decimal i)))) in Ht. rewrite take_take in Ht. rewrite Nat.min_l in Ht by lia. rewrite Ht. apply take_app_length.
Qed.

(** [FastIntToBuffer], for every value of every signed and unsigned integer type of 8 to 64 bits and any buffer with 32 bytes behind the
    pointer, stays inside those bytes (no assumption of the source fails), leaves what precedes them, and writes the
    decimal expansion of the number: a sign if it is negative, digits without leading zeros whose value by Horner's rule is the absolute value, and
    a terminating zero on which the returned pointer stands; [PutTwoDigits] writes both digits of a number below one hundred. The divisions of
    several digits at a time, by multiplication and masking, are thereby exact. *)
Theorem fast_int_to_buffer_correct little kIsSigned bits i o : int_type kIsSigned bits i -> (fst o + kFastToBufferSize <= length (snd o))%nat ->
  wrote_text o (signed_decimal i) (FastIntToBuffer little kIsSigned bits i o) /\
  (exists digits, signed_decimal i = (if i <? 0 then [45] else []) ++ digits /\ Forall (fun c => 48 <= c <= 57) digits /\
     text_value 10 ((fun c => c - 48) <$> digits) = Z.abs i /\ (i <> 0 -> head digits <> Some 48) /\ (0 < length digits <= 20)%nat) /\
  (0 <= i < 100 -> exists a b, padded_decimal 2 i = [48 + a; 48 + b] /\ i = 10 * a + b /\ 0 <= a < 10 /\ 0 <= b < 10 /\
     PutTwoDigits little i (fst o) (snd o) = Some (take (fst o) (snd o) ++ [48 + a; 48 + b] ++ drop (fst o + 2) (snd o))).
Proof.
  intros (Hw & Hi) Hf. pose proof Hf as Hf'. unfold kFastToBufferSize in Hf'. assert (Ha20 : 0 <= Z.abs i < 10 ^ 20 /\ (kIsSigned = false -> 0 <= i)).
  { destruct Hw as [-> | [-> | [-> | ->]]]; destruct kIsSigned; (split; [cbn in Hi; lia|intros; first [discriminate|lia]]). }
  destruct Ha20 as (Ha20 & Hu). assert (Ha : 0 <= Z.abs i < 10 ^ 40) by lia. split_and!.
  - apply fast_int_writes; [by split|done].
  - exists (decimal (Z.abs i)). destruct (decimal_value (Z.abs i) Ha) as (H1 & H2 & H3). destruct (length_decimal (Z.abs i) Ha) as (H4 & H5).
    split_and!; [|exact H3|exact H1|intros; apply H2; lia|exact H4|apply H5; [lia|change (10 ^ Z.of_nat 20) with (10 ^ 20); lia]].
    unfold signed_decimal. destruct (Z.ltb_spec i 0); [by rewrite Z.abs_neq by lia|by rewrite Z.abs_eq by lia].
  - intros H100. exists (i / 10), (i mod 10). assert (E : padded_decimal 2 i = [48 + i / 10; 48 + i mod 10]).
    { unfold padded_decimal. cbn [fdigits rev app fmap list_fmap]. by rewrite (Z.mod_small (i / 10)) by zlia. }
    split_and!; [exact E|zlia|zlia|zlia|zlia|zlia|]. rewrite <- E. apply PutTwoDigits_ok; lia.
Qed.

Lemma fast_int_to_buffer_correct_witness :
  FastIntToBuffer true true 32 (-2147483648) (1%nat, replicate 33 7) =
    Some (12%nat, 7 :: [45; 50; 49; 52; 55; 52; 56; 51; 54; 52; 56; 0] ++ replicate 20 7) /\
  wrote_text (1%nat, replicate 33 7) [45; 50; 49; 52; 55; 52; 56; 51; 54; 52; 56] (FastIntToBuffer true true 32 (-2147483648) (1%nat, replicate 33 7)).
Proof.
  split; [by vm_compute|].
  destruct (fast_int_to_buffer_correct true true 32 (-2147483648) (1%nat, replicate 33 7)) as (H & _); [split; [tauto|lia]|cbn; unfold kFastToBufferSize; lia|exact H].
Defined.
