(* ===== verification/NumParse.v ===== *)
(** * Strings to integers, and hexadecimal digits (strings/numbers.h, strings/numbers.cc)

    [simple_atoi] and [simple_hex_atoi] on 32, 64 and 128 bits: whitespace, sign and prefix, then the digits with a
    check for overflow before each operation. The result is the returned boolean and the number written; [None] is an overflow
    of a signed operation. The operations on 128 bits are those of Uint128.v and Int128.v, taken here as numbers. A view
    is [Some] of its bytes or [None] when it points nowhere. *)
From S2P Require Import Prelude Words Bits Uint128Div Endian Ascii NumFormat.

(** ** Tables *)

Definition kAsciiToInt : list Z :=
  [36; 36; 36; 36; 36; 36; 36; 36; 36; 36; 36; 36; 36; 36; 36; 36; 36; 36; 36; 36; 36; 36; 36; 36; 36; 36; 36; 36; 36; 36; 36; 36;
   36; 36; 36; 36; 36; 36; 36; 36; 36; 36; 36; 36; 36; 36; 36; 36; 0; 1; 2; 3; 4; 5; 6; 7; 8; 9; 36; 36; 36; 36; 36; 36;
   36; 10; 11; 12; 13; 14; 15; 16; 17; 18; 19; 20; 21; 22; 23; 24; 25; 26; 27; 28; 29; 30; 31; 32; 33; 34; 35; 36; 36; 36; 36; 36;
   36; 10; 11; 12; 13; 14; 15; 16; 17; 18; 19; 20; 21; 22; 23; 24; 25; 26; 27; 28; 29; 30; 31; 32; 33; 34; 35; 36; 36; 36; 36; 36;
   36; 36; 36; 36; 36; 36; 36; 36; 36; 36; 36; 36; 36; 36; 36; 36; 36; 36; 36; 36; 36; 36; 36; 36; 36; 36; 36; 36; 36; 36; 36; 36;
   36; 36; 36; 36; 36; 36; 36; 36; 36; 36; 36; 36; 36; 36; 36; 36; 36; 36; 36; 36; 36; 36; 36; 36; 36; 36; 36; 36; 36; 36; 36; 36;
   36; 36; 36; 36; 36; 36; 36; 36; 36; 36; 36; 36; 36; 36; 36; 36; 36; 36; 36; 36; 36; 36; 36; 36; 36; 36; 36; 36; 36; 36; 36; 36;
   36; 36; 36; 36; 36; 36; 36; 36; 36; 36; 36; 36; 36; 36; 36; 36; 36; 36; 36; 36; 36; 36; 36; 36; 36; 36; 36; 36; 36; 36; 36; 36].

Definition kHexChar : list Z := [48; 49; 50; 51; 52; 53; 54; 55; 56; 57; 97; 98; 99; 100; 101; 102].
Definition kHexTable : list Z :=
  [48; 48; 48; 49; 48; 50; 48; 51; 48; 52; 48; 53; 48; 54; 48; 55; 48; 56; 48; 57; 48; 97; 48; 98; 48; 99; 48; 100; 48; 101; 48; 102;
   49; 48; 49; 49; 49; 50; 49; 51; 49; 52; 49; 53; 49; 54; 49; 55; 49; 56; 49; 57; 49; 97; 49; 98; 49; 99; 49; 100; 49; 101; 49; 102;
   50; 48; 50; 49; 50; 50; 50; 51; 50; 52; 50; 53; 50; 54; 50; 55; 50; 56; 50; 57; 50; 97; 50; 98; 50; 99; 50; 100; 50; 101; 50; 102;
   51; 48; 51; 49; 51; 50; 51; 51; 51; 52; 51; 53; 51; 54; 51; 55; 51; 56; 51; 57; 51; 97; 51; 98; 51; 99; 51; 100; 51; 101; 51; 102;
   52; 48; 52; 49; 52; 50; 52; 51; 52; 52; 52; 53; 52; 54; 52; 55; 52; 56; 52; 57; 52; 97; 52; 98; 52; 99; 52; 100; 52; 101; 52; 102;
   53; 48; 53; 49; 53; 50; 53; 51; 53; 52; 53; 53; 53; 54; 53; 55; 53; 56; 53; 57; 53; 97; 53; 98; 53; 99; 53; 100; 53; 101; 53; 102;
   54; 48; 54; 49; 54; 50; 54; 51; 54; 52; 54; 53; 54; 54; 54; 55; 54; 56; 54; 57; 54; 97; 54; 98; 54; 99; 54; 100; 54; 101; 54; 102;
   55; 48; 55; 49; 55; 50; 55; 51; 55; 52; 55; 53; 55; 54; 55; 55; 55; 56; 55; 57; 55; 97; 55; 98; 55; 99; 55; 100; 55; 101; 55; 102;
   56; 48; 56; 49; 56; 50; 56; 51; 56; 52; 56; 53; 56; 54; 56; 55; 56; 56; 56; 57; 56; 97; 56; 98; 56; 99; 56; 100; 56; 101; 56; 102;
   57; 48; 57; 49; 57; 50; 57; 51; 57; 52; 57; 53; 57; 54; 57; 55; 57; 56; 57; 57; 57; 97; 57; 98; 57; 99; 57; 100; 57; 101; 57; 102;
   97; 48; 97; 49; 97; 50; 97; 51; 97; 52; 97; 53; 97; 54; 97; 55; 97; 56; 97; 57; 97; 97; 97; 98; 97; 99; 97; 100; 97; 101; 97; 102;
   98; 48; 98; 49; 98; 50; 98; 51; 98; 52; 98; 53; 98; 54; 98; 55; 98; 56; 98; 57; 98; 97; 98; 98; 98; 99; 98; 100; 98; 101; 98; 102;
   99; 48; 99; 49; 99; 50; 99; 51; 99; 52; 99; 53; 99; 54; 99; 55; 99; 56; 99; 57; 99; 97; 99; 98; 99; 99; 99; 100; 99; 101; 99; 102;
   100; 48; 100; 49; 100; 50; 100; 51; 100; 52; 100; 53; 100; 54; 100; 55; 100; 56; 100; 57; 100; 97; 100; 98; 100; 99; 100; 100; 100; 101; 100; 102;
   101; 48; 101; 49; 101; 50; 101; 51; 101; 52; 101; 53; 101; 54; 101; 55; 101; 56; 101; 57; 101; 97; 101; 98; 101; 99; 101; 100; 101; 101; 101; 102;
   102; 48; 102; 49; 102; 50; 102; 51; 102; 52; 102; 53; 102; 54; 102; 55; 102; 56; 102; 57; 102; 97; 102; 98; 102; 99; 102; 100; 102; 101; 102; 102].

(** [make_uint128(high, low)] and [make_int128(high, low)]. *)
Definition of_words (x : Z * Z) : Z := fst x * 2 ^ 64 + snd x.

Definition kVmaxOverBase_uint128 : list (Z * Z) :=
  [(0, 0); (0, 0);
   (9223372036854775807, 18446744073709551615); (6148914691236517205, 6148914691236517205); (4611686018427387903, 18446744073709551615);
   (3689348814741910323, 3689348814741910323); (3074457345618258602, 12297829382473034410); (2635249153387078802, 5270498306774157604);
   (2305843009213693951, 18446744073709551615); (2049638230412172401, 14347467612885206812); (1844674407370955161, 11068046444225730969);
   (1676976733973595601, 8384883669867978007); (1537228672809129301, 6148914691236517205); (1418980313362273201, 4256940940086819603);
   (1317624576693539401, 2635249153387078802); (1229782938247303441, 1229782938247303441); (1152921504606846975, 18446744073709551615);
   (1085102592571150095, 1085102592571150095); (1024819115206086200, 16397105843297379214); (970881267037344821, 16504981539634861972);
   (922337203685477580, 14757395258967641292); (878416384462359600, 14054662151397753612); (838488366986797800, 13415813871788764811);
   (802032351030850070, 4812194106185100421); (768614336404564650, 12297829382473034410); (737869762948382064, 11805916207174113034);
   (709490156681136600, 11351842506898185609); (683212743470724133, 17080318586768103348); (658812288346769700, 10540996613548315209);
   (636094623231363848, 15266270957552732371); (614891469123651720, 9838263505978427528); (595056260442243600, 9520900167075897608);
   (576460752303423487, 18446744073709551615); (558992244657865200, 8943875914525843207); (542551296285575047, 9765923333140350855);
   (527049830677415760, 8432797290838652167); (512409557603043100, 8198552921648689607)].
Definition kVmaxOverBase_int128 : list (Z * Z) :=
  [(0, 0); (0, 0);
   (4611686018427387903, 18446744073709551615); (3074457345618258602, 12297829382473034410); (2305843009213693951, 18446744073709551615);
   (1844674407370955161, 11068046444225730969); (1537228672809129301, 6148914691236517205); (1317624576693539401, 2635249153387078802);
   (1152921504606846975, 18446744073709551615); (1024819115206086200, 16397105843297379214); (922337203685477580, 14757395258967641292);
   (838488366986797800, 13415813871788764811); (768614336404564650, 12297829382473034410); (709490156681136600, 11351842506898185609);
   (658812288346769700, 10540996613548315209); (614891469123651720, 9838263505978427528); (576460752303423487, 18446744073709551615);
   (542551296285575047, 9765923333140350855); (512409557603043100, 8198552921648689607); (485440633518672410, 17475862806672206794);
   (461168601842738790, 7378697629483820646); (439208192231179800, 7027331075698876806); (419244183493398900, 6707906935894382405);
   (401016175515425035, 2406097053092550210); (384307168202282325, 6148914691236517205); (368934881474191032, 5902958103587056517);
   (354745078340568300, 5675921253449092804); (341606371735362066, 17763531330238827482); (329406144173384850, 5270498306774157604);
   (318047311615681924, 7633135478776366185); (307445734561825860, 4919131752989213764); (297528130221121800, 4760450083537948804);
   (288230376151711743, 18446744073709551615); (279496122328932600, 4471937957262921603); (271275648142787523, 14106333703424951235);
   (263524915338707880, 4216398645419326083); (256204778801521550, 4099276460824344803)].
Definition kVminOverBase_int128 : list (Z * Z) :=
  [(0, 0); (0, 0);
   (-4611686018427387904, 0); (-3074457345618258603, 6148914691236517206); (-2305843009213693952, 0);
   (-1844674407370955162, 7378697629483820647); (-1537228672809129302, 12297829382473034411); (-1317624576693539402, 15811494920322472814);
   (-1152921504606846976, 0); (-1024819115206086201, 2049638230412172402); (-922337203685477581, 3689348814741910324);
   (-838488366986797801, 5030930201920786805); (-768614336404564651, 6148914691236517206); (-709490156681136601, 7094901566811366007);
   (-658812288346769701, 7905747460161236407); (-614891469123651721, 8608480567731124088); (-576460752303423488, 0);
   (-542551296285575048, 8680820740569200761); (-512409557603043101, 10248191152060862009); (-485440633518672411, 970881267037344822);
   (-461168601842738791, 11068046444225730970); (-439208192231179801, 11419412998010674810); (-419244183493398901, 11738837137815169211);
   (-401016175515425036, 16040647020617001406); (-384307168202282326, 12297829382473034411); (-368934881474191033, 12543785970122495099);
   (-354745078340568301, 12770822820260458812); (-341606371735362067, 683212743470724134); (-329406144173384851, 13176245766935394012);
   (-318047311615681925, 10813608594933185431); (-307445734561825861, 13527612320720337852); (-297528130221121801, 13686293990171602812);
   (-288230376151711744, 0); (-279496122328932601, 13974806116446630013); (-271275648142787524, 4340410370284600381);
   (-263524915338707881, 14230345428290225533); (-256204778801521551, 14347467612885206813)].

(** ** Definitions *)

(** An integer type: its signedness and width. *)
Section Type_.
Context (kIsSigned : bool) (w : Z).

Definition vmax : Z := if kIsSigned then 2 ^ (w - 1) - 1 else 2 ^ w - 1.
Definition vmin : Z := if kIsSigned then - 2 ^ (w - 1) else 0.

(** The value of an operation of the type. *)
Definition arith (z : Z) : option Z := if kIsSigned then chk w z else Some (wrap w z).

(** [X_OVER_BASE_INITIALIZER], and the tables written out for 128 bits. *)
Definition x_over_base (x : Z) : list Z := 0 :: 0 :: ((fun base => Z.quot x base) <$> (Z.of_nat <$> seq 2 35)).
Definition kVmaxOverBase : list Z :=
  if w =? 128 then of_words <$> (if kIsSigned then kVmaxOverBase_int128 else kVmaxOverBase_uint128) else x_over_base vmax.
Definition kVminOverBase : list Z := if w =? 128 then of_words <$> kVminOverBase_int128 else x_over_base vmin.

Fixpoint positive_loop (base vmax_over_base : Z) (text : list Z) (value : Z) : option (bool * Z) :=
  match text with
  | [] => Some (true, value)
  | c :: text =>
      let digit := at_byte kAsciiToInt c in
      if base <=? digit then Some (false, value)
      else if vmax_over_base <? value then Some (false, vmax)
      else
        value ← arith (value * base);
        room ← arith (vmax - digit);
        if room <? value then Some (false, vmax)
        else value ← arith (value + digit); positive_loop base vmax_over_base text value
  end.
Definition safe_parse_positive_int (text : list Z) (base : Z) : option (bool * Z) :=
  positive_loop base (kVmaxOverBase !!! Z.to_nat base) text 0.

Fixpoint negative_loop (base vmin_over_base : Z) (text : list Z) (value : Z) : option (bool * Z) :=
  match text with
  | [] => Some (true, value)
  | c :: text =>
      let digit := at_byte kAsciiToInt c in
      if base <=? digit then Some (false, value)
      else if value <? vmin_over_base then Some (false, vmin)
      else
        value ← arith (value * base);
        room ← arith (vmin + digit);
        if value <? room then Some (false, vmin)
        else value ← arith (value - digit); negative_loop base vmin_over_base text value
  end.
Definition safe_parse_negative_int (text : list Z) (base : Z) : option (bool * Z) :=
  let vmin_over_base := kVminOverBase !!! Z.to_nat base in
  let vmin_over_base := if 0 <? Z.rem vmin base then vmin_over_base + 1 else vmin_over_base in
  negative_loop base vmin_over_base text 0.
End Type_.

(** The two loops over whitespace. *)
Fixpoint skip_space (l : list Z) : list Z := match l with c :: l' => if ascii_isspace c then skip_space l' else l | [] => [] end.

(** The base-dependent prefix: the digits after it and the base. *)
Definition parse_prefix (s : list Z) (base : Z) : option (list Z * Z) :=
  let prefix := (2 <=? length s)%nat && (s !!! 0%nat =? 48) && ((s !!! 1%nat =? 120) || (s !!! 1%nat =? 88)) in
  if base =? 0 then
    if prefix then match drop 2 s with [] => None | s => Some (s, 16) end
    else if (1 <=? length s)%nat && (s !!! 0%nat =? 48) then Some (drop 1 s, 8)
    else Some (s, 10)
  else if base =? 16 then
    if prefix then match drop 2 s with [] => None | s => Some (s, 16) end else Some (s, 16)
  else if (2 <=? base) && (base <=? 36) then Some (s, base)
  else None.

(** [safe_parse_sign_and_base]: the digits, the base and the sign. *)
Definition safe_parse_sign_and_base (text : option (list Z)) (base : Z) : option (list Z * Z * bool) :=
  text ← text;
  let s := skip_space text in
  let s := rev (skip_space (rev s)) in
  match s with
  | [] => None
  | c :: s' =>
      let negative := c =? 45 in
      s ← (if negative || (c =? 43) then match s' with [] => None | _ :: _ => Some s' end else Some s);
      '(s, base) ← parse_prefix s base;
      Some (s, base, negative)
  end.

Definition safe_int_internal (w : Z) (text : option (list Z)) (base : Z) : option (bool * Z) :=
  match safe_parse_sign_and_base text base with
  | None => Some (false, 0)
  | Some (text, base, negative) =>
      if negb negative then safe_parse_positive_int true w text base else safe_parse_negative_int true w text base
  end.
Definition safe_uint_internal (w : Z) (text : option (list Z)) (base : Z) : option (bool * Z) :=
  match safe_parse_sign_and_base text base with
  | None => Some (false, 0)
  | Some (text, base, negative) => if negative then Some (false, 0) else safe_parse_positive_int false w text base
  end.

Definition safe_strto32_base := safe_int_internal 32.
Definition safe_strto64_base := safe_int_internal 64.
Definition safe_strto128_base := safe_int_internal 128.
Definition safe_strtou32_base := safe_uint_internal 32.
Definition safe_strtou64_base := safe_uint_internal 64.
Definition safe_strtou128_base := safe_uint_internal 128.

(** [safe_strtoi_base], for types of 32 and 64 bits, and the overloads for 128 bits. *)
Definition safe_strtoi_base (kIsSigned : bool) (bits : Z) (s : option (list Z)) (base : Z) : option (bool * Z) :=
  if bits =? 128 then if kIsSigned then safe_strto128_base s base else safe_strtou128_base s base
  else
    let kUse64Bit := bits =? 64 in
    if kIsSigned then
      if kUse64Bit then '(parsed, val) ← safe_strto64_base s base; Some (parsed, swrap bits val)
      else '(parsed, val) ← safe_strto32_base s base; Some (parsed, swrap bits val)
    else
      if kUse64Bit then '(parsed, val) ← safe_strtou64_base s base; Some (parsed, wrap bits val)
      else '(parsed, val) ← safe_strtou32_base s base; Some (parsed, wrap bits val).

Definition simple_atoi (kIsSigned : bool) (bits : Z) (str : option (list Z)) : option (bool * Z) := safe_strtoi_base kIsSigned bits str 10.
Definition simple_hex_atoi (kIsSigned : bool) (bits : Z) (str : option (list Z)) : option (bool * Z) := safe_strtoi_base kIsSigned bits str 16.

(** [simple_atob], the text in bytes. *)
Definition simple_atob (str : list Z) : option bool :=
  if equals_ignore_case str [116; 114; 117; 101] || equals_ignore_case str [116] || equals_ignore_case str [121; 101; 115] ||
     equals_ignore_case str [121] || equals_ignore_case str [49] then Some true
  else if equals_ignore_case str [102; 97; 108; 115; 101] || equals_ignore_case str [102] || equals_ignore_case str [110; 111] ||
     equals_ignore_case str [110] || equals_ignore_case str [48] then Some false
  else None.

(** [FastHexToBufferZeroPad16], the portable branch: the sixteen characters and the number of digits. *)
Definition FastHexToBufferZeroPad16 (val : Z) : list Z * Z :=
  (concat ((fun i => let byte := Z.land (ushr val (56 - 8 * i)) 0xFF in take 2 (drop (Z.to_nat (byte * 2)) kHexTable)) <$> (Z.of_nat <$> seq 0 8)),
   16 - countl_zero 64 (Z.lor val 0x1) / 4).

(** ** Digits *)

(** The value of a character as a digit, 36 if it is none. *)
Definition digit_of (c : Z) : Z :=
  if in_range 48 57 c then c - 48 else if in_range 65 90 c then c - 55 else if in_range 97 122 c then c - 87 else 36.

Lemma kAsciiToInt_spec c : byte_ok c -> at_byte kAsciiToInt c = digit_of c.
Proof. intros Hc. apply Z.eqb_eq. by apply (byte_forall (fun c => at_byte kAsciiToInt c =? digit_of c) ltac:(by vm_compute)). Qed.

Lemma digit_of_range c : byte_ok c -> 0 <= digit_of c <= 36.
Proof.
  intros Hc. pose proof (byte_forall (fun c => (0 <=? digit_of c) && (digit_of c <=? 36)) ltac:(by vm_compute) c Hc) as H.
  apply andb_true_iff in H as [H1 H2]. lia.
Qed.

(** The digits of the base at the start of the text. *)
Fixpoint good_digits (base : Z) (text : list Z) : list Z :=
  match text with c :: text => if digit_of c <? base then digit_of c :: good_digits base text else [] | [] => [] end.

Definition horner (v base : Z) (ds : list Z) : Z := fold_left (fun v d => v * base + d) ds v.

Lemma good_digits_range base text : Forall byte_ok text -> Forall (fun d => 0 <= d < base) (good_digits base text).
Proof.
  induction 1 as [|c text Hc Ht IH]; [done|]. cbn [good_digits]. pose proof (digit_of_range c Hc). destruct (Z.ltb_spec (digit_of c) base); [|done].
  by constructor; [lia|].
Qed.

Lemma horner_ge base ds : 1 <= base -> Forall (fun d => 0 <= d < base) ds -> forall v, 0 <= v -> v <= horner v base ds.
Proof.
  intros Hb. induction 1 as [|d ds Hd Hds IH]; intros v Hv; [done|]. unfold horner. cbn [fold_left].
  specialize (IH (v * base + d) ltac:(nia)). unfold horner in IH. nia.
Qed.

Lemma horner_text_value base ds : horner 0 base ds = text_value base ds.
Proof. done. Qed.

(** ** The tables of quotients *)

Definition type_ok (w : Z) : Prop := w = 32 \/ w = 64 \/ w = 128.

Lemma base_forall (P : Z -> bool) : forallb P (zrange 37) = true -> forall b, 0 <= b <= 36 -> P b = true.
Proof. intros H b Hb. by apply (zrange_forall P 37 H); lia. Qed.

Lemma kVmaxOverBase_spec s w b : type_ok w -> 2 <= b <= 36 -> kVmaxOverBase s w !!! Z.to_nat b = vmax s w / b.
Proof.
  intros Hw Hb. apply Z.eqb_eq.
  assert (H : forall P : Z -> bool, forallb P (zrange 37) = true -> P b = true) by (intros P HP; apply base_forall; [done|lia]).
  assert (Hx : (2 <=? b) = true) by lia.
  destruct Hw as [-> | [-> | ->]]; destruct s; match goal with |- (kVmaxOverBase ?s ?w !!! _ =? _) = true =>
    specialize (H (fun b => implb (2 <=? b) (kVmaxOverBase s w !!! Z.to_nat b =? vmax s w / b)) ltac:(by vm_compute)) end; cbv beta in H; by rewrite Hx in H.
Qed.

Lemma kVminOverBase_spec w b : type_ok w -> 2 <= b <= 36 -> kVminOverBase true w !!! Z.to_nat b = - (2 ^ (w - 1) / b) /\ Z.rem (vmin true w) b <= 0.
Proof.
  intros Hw Hb. assert (H : forall P : Z -> bool, forallb P (zrange 37) = true -> P b = true) by (intros P HP; apply base_forall; [done|lia]).
  assert (Hx : (2 <=? b) = true) by lia. assert (Hgoal : (kVminOverBase true w !!! Z.to_nat b =? - (2 ^ (w - 1) / b)) && (Z.rem (vmin true w) b <=? 0) = true).
  { destruct Hw as [-> | [-> | ->]]; match goal with |- context [kVminOverBase true ?w] =>
      specialize (H (fun b => implb (2 <=? b) ((kVminOverBase true w !!! Z.to_nat b =? - (2 ^ (w - 1) / b)) && (Z.rem (vmin true w) b <=? 0))) ltac:(by vm_compute)) end;
      cbv beta in H; by rewrite Hx in H. }
  apply andb_true_iff in Hgoal as [H1 H2]. lia.
Qed.

(** ** The loops *)

(** What the loops compute: the value of the leading digits if it fits, and whether they are the whole text. *)
Definition positive_spec (hi base : Z) (text : list Z) (v : Z) : bool * Z :=
  if hi <? horner v base (good_digits base text) then (false, hi)
  else (bool_decide (length (good_digits base text) = length text), horner v base (good_digits base text)).
Definition negative_spec (lo base : Z) (text : list Z) (v : Z) : bool * Z :=
  if - lo <? horner v base (good_digits base text) then (false, lo)
  else (bool_decide (length (good_digits base text) = length text), - horner v base (good_digits base text)).

Section Loops.
Context (s : bool) (w : Z) (Hw : type_ok w) (base : Z) (Hbase : 2 <= base <= 36).

Lemma type_bounds : 36 < vmax s w /\ vmin s w <= 0 /\ (s = true -> vmin s w = - 2 ^ (w - 1) /\ vmax s w = 2 ^ (w - 1) - 1).
Proof. unfold vmax, vmin. destruct Hw as [-> | [-> | ->]]; destruct s; (split_and!; [by vm_compute|by vm_compute|done]). Qed.

Lemma arith_ok z : vmin s w <= z <= vmax s w -> arith s w z = Some z.
Proof.
  unfold arith, vmin, vmax. intros Hz. destruct s; [apply chk_Some; lia|]. rewrite wrap_small; [done|lia].
Qed.

Lemma positive_loop_ok text : Forall byte_ok text -> forall v, 0 <= v <= vmax s w ->
  positive_loop s w base (vmax s w / base) text v = Some (positive_spec (vmax s w) base text v).
Proof.
  destruct type_bounds as (Hmax & Hmin & _). induction 1 as [|c text Hc Ht IH]; intros v Hv; unfold positive_spec.
  { cbn [positive_loop good_digits horner fold_left]. unfold horner. cbn [fold_left]. destruct (Z.ltb_spec (vmax s w) v); [lia|]. by rewrite bool_decide_true. }
  cbn [positive_loop good_digits]. rewrite kAsciiToInt_spec by done. pose proof (digit_of_range c Hc) as Hd.
  destruct (Z.leb_spec base (digit_of c)) as [Hbad|Hgood].
  { destruct (Z.ltb_spec (digit_of c) base); [lia|]. unfold horner. cbn [fold_left]. destruct (Z.ltb_spec (vmax s w) v); [lia|]. by rewrite bool_decide_false. }
  destruct (Z.ltb_spec (digit_of c) base) as [_|]; [|lia]. pose proof (good_digits_range base text Ht) as Hg.
  assert (Hstep : horner v base (digit_of c :: good_digits base text) = horner (v * base + digit_of c) base (good_digits base text)) by done. rewrite Hstep.
  pose proof (horner_ge base _ ltac:(lia) Hg (v * base + digit_of c) ltac:(nia)) as Hge.
  destruct (Z.ltb_spec (vmax s w / base) v) as [Hbig|Hsmall].
  { assert (vmax s w < v * base) by (pose proof (Z.mul_succ_div_gt (vmax s w) base ltac:(lia)); nia).
    destruct (Z.ltb_spec (vmax s w) (horner (v * base + digit_of c) base (good_digits base text))); [done|lia]. }
  assert (Hvb : v * base <= vmax s w) by (pose proof (Z.mul_div_le (vmax s w) base ltac:(lia)); nia).
  rewrite (arith_ok (v * base)), (arith_ok (vmax s w - digit_of c)) by nia. cbn [mbind option_bind].
  destruct (Z.ltb_spec (vmax s w - digit_of c) (v * base)) as [Ho|Hok].
  { destruct (Z.ltb_spec (vmax s w) (horner (v * base + digit_of c) base (good_digits base text))); [done|lia]. }
  rewrite (arith_ok (v * base + digit_of c)) by nia. cbn [mbind option_bind]. rewrite IH by nia. unfold positive_spec. destruct (_ <? _); [done|].
  do 2 f_equal. apply bool_decide_ext. cbn [length]. lia.
Qed.

Lemma negative_loop_ok text : s = true -> Forall byte_ok text -> forall v, 0 <= v <= 2 ^ (w - 1) ->
  negative_loop s w base (- (2 ^ (w - 1) / base)) text (- v) = Some (negative_spec (vmin s w) base text v).
Proof.
  intros Hs. destruct type_bounds as (Hmax & Hmin & Hsigned). destruct (Hsigned Hs) as (Emin & Emax).
  induction 1 as [|c text Hc Ht IH]; intros v Hv; unfold negative_spec.
  { cbn [negative_loop good_digits]. unfold horner. cbn [fold_left]. destruct (Z.ltb_spec (- vmin s w) v); [lia|]. by rewrite bool_decide_true. }
  cbn [negative_loop good_digits]. rewrite kAsciiToInt_spec by done. pose proof (digit_of_range c Hc) as Hd.
  destruct (Z.leb_spec base (digit_of c)) as [Hbad|Hgood].
  { destruct (Z.ltb_spec (digit_of c) base); [lia|]. unfold horner. cbn [fold_left]. destruct (Z.ltb_spec (- vmin s w) v); [lia|]. by rewrite bool_decide_false. }
  destruct (Z.ltb_spec (digit_of c) base) as [_|]; [|lia]. pose proof (good_digits_range base text Ht) as Hg.
  assert (Hstep : horner v base (digit_of c :: good_digits base text) = horner (v * base + digit_of c) base (good_digits base text)) by done. rewrite Hstep.
  pose proof (horner_ge base _ ltac:(lia) Hg (v * base + digit_of c) ltac:(nia)) as Hge.
  destruct (Z.ltb_spec (- v) (- (2 ^ (w - 1) / base))) as [Hbig|Hsmall].
  { assert (2 ^ (w - 1) < v * base) by (pose proof (Z.mul_succ_div_gt (2 ^ (w - 1)) base ltac:(lia)); nia).
    destruct (Z.ltb_spec (- vmin s w) (horner (v * base + digit_of c) base (good_digits base text))); [done|lia]. }
  assert (Hvb : v * base <= 2 ^ (w - 1)) by (pose proof (Z.mul_div_le (2 ^ (w - 1)) base ltac:(lia)); nia).
  rewrite (arith_ok (- v * base)), (arith_ok (vmin s w + digit_of c)) by nia. cbn [mbind option_bind].
  destruct (Z.ltb_spec (- v * base) (vmin s w + digit_of c)) as [Ho|Hok].
  { destruct (Z.ltb_spec (- vmin s w) (horner (v * base + digit_of c) base (good_digits base text))); [done|lia]. }
  rewrite (arith_ok (- v * base - digit_of c)) by nia. cbn [mbind option_bind]. replace (- v * base - digit_of c) with (- (v * base + digit_of c)) by lia.
  rewrite IH by nia. unfold negative_spec. destruct (_ <? _); [done|].
  do 2 f_equal. apply bool_decide_ext. cbn [length]. lia.
Qed.
End Loops.

(** ** The grammar *)

(** A prefix, the base it gives, and the digits after it. *)
Definition numeral_prefix (base : Z) (prefix : list Z) (b : Z) (ds : list Z) : Prop :=
  (2 <= base <= 36 /\ prefix = [] /\ b = base /\ ds <> []) \/
  ((base = 0 \/ base = 16) /\ (prefix = [48; 120] \/ prefix = [48; 88]) /\ b = 16 /\ ds <> []) \/
  (base = 0 /\ prefix = [48] /\ b = 8) \/
  (base = 0 /\ prefix = [] /\ b = 10 /\ ds <> [] /\ head ds <> Some 48).
Definition numeral_sign (sign : list Z) (negative : bool) : Prop :=
  (negative = true /\ sign = [45]) \/ (negative = false /\ (sign = [] \/ sign = [43])).

(** [text] is a numeral: whitespace, a sign, a prefix, digits of base [b], whitespace. *)
Definition numeral (base : Z) (text : list Z) (negative : bool) (b : Z) (ds : list Z) : Prop :=
  exists l sign prefix r, text = l ++ sign ++ prefix ++ ds ++ r /\ Forall space l /\ Forall space r /\
    numeral_sign sign negative /\ numeral_prefix base prefix b ds /\ Forall (fun c => digit_of c < b) ds.

Lemma skip_space_trim l : skip_space l = trim_left l.
Proof. unfold trim_left. induction l as [|c l IH]; [done|]. cbn [skip_space find_if_not]. by destruct (ascii_isspace c). Qed.

Lemma skip_both text : rev (skip_space (rev (skip_space text))) = trim_all text.
Proof. by rewrite !skip_space_trim, <- trim_right_rev. Qed.

Lemma digit_not_special c b : byte_ok c -> digit_of c < b -> b <= 36 -> ascii_isspace c = false /\ c <> 45 /\ c <> 43 /\ (b <= 16 -> c <> 120 /\ c <> 88).
Proof.
  intros Hc Hd Hb. rewrite isspace_spec by done. unfold digit_of, in_range in *. unfold byte_ok in Hc.
  destruct ((48 <=? c) && (c <=? 57)) eqn:E1; [lia|]. destruct ((65 <=? c) && (c <=? 90)) eqn:E2; [lia|]. destruct ((97 <=? c) && (c <=? 122)) eqn:E3; lia.
Qed.

Lemma parse_prefix_sound s base ds b : s <> [] -> parse_prefix s base = Some (ds, b) ->
  2 <= b <= 36 /\ exists prefix, s = prefix ++ ds /\ numeral_prefix base prefix b ds.
Proof.
  unfold parse_prefix, numeral_prefix. cbv zeta. intros Hs H.
  destruct ((2 <=? length s)%nat && (s !!! 0%nat =? 48) && ((s !!! 1%nat =? 120) || (s !!! 1%nat =? 88))) eqn:Ep.
  - assert (exists x u, s = 48 :: x :: u /\ (x = 120 \/ x = 88)) as (x & u & -> & Hx).
    { destruct s as [|x0 [|x1 u]]; [done|done|]. cbn [lookup_total list_lookup_total] in Ep. exists x1, u. split; [f_equal|]; lia. }
    cbn [drop skipn] in H. destruct (Z.eqb_spec base 0) as [->|H0]; [|destruct (Z.eqb_spec base 16) as [->|H16]].
    1,2: destruct u as [|y u]; [done|]; injection H as <- <-; split; [lia|]; exists [48; x]; split; [done|];
      right; left; destruct Hx as [-> | ->]; split_and!; auto.
    destruct ((2 <=? base) && (base <=? 36)) eqn:Eb; [|done]. injection H as <- <-. split; [lia|]. exists []. split; [done|]. left. split_and!; [lia|lia|done|done|done].
  - destruct (Z.eqb_spec base 0) as [->|H0]; [|destruct (Z.eqb_spec base 16) as [->|H16]].
    + destruct s as [|y s]; [done|]. cbn [length lookup_total list_lookup_total Nat.leb] in H. destruct (Z.eqb_spec y 48) as [->|Hy]; cbn [andb] in H; injection H as <- <-.
      * split; [lia|]. exists [48]. split; [done|]. by right; right; left.
      * split; [lia|]. exists []. split; [done|]. right; right; right. split_and!; try done. cbn. congruence.
    + injection H as <- <-. split; [lia|]. exists []. split; [done|]. left. split_and!; [lia|lia|done|done|done].
    + destruct ((2 <=? base) && (base <=? 36)) eqn:Eb; [|done]. injection H as <- <-. split; [lia|]. exists []. split; [done|]. left. split_and!; [lia|lia|done|done|done].
Qed.

Lemma parse_prefix_complete prefix ds base b : numeral_prefix base prefix b ds -> Forall (fun c => b <= 16 -> c <> 120 /\ c <> 88) ds ->
  parse_prefix (prefix ++ ds) base = Some (ds, b).
Proof.
  intros Hpre Hds. unfold parse_prefix. cbv zeta.
  destruct Hpre as [(Hb & -> & -> & Hne)|[(Hb & Hp & -> & Hne)|[(-> & -> & ->)|(-> & -> & -> & Hne & Hh)]]]; cbn [app].
  - destruct (Z.eqb_spec base 0); [lia|]. destruct (Z.eqb_spec base 16) as [->|H16]; [|by replace ((2 <=? base) && (base <=? 36)) with true by lia].
    destruct ds as [|x [|y u]]; [done|done|]. cbn [length lookup_total list_lookup_total Nat.leb andb]. inversion Hds as [|? ? _ H1]. inversion H1 as [|? ? Hy _].
    destruct (Hy ltac:(lia)). replace ((y =? 120) || (y =? 88)) with false by lia. by rewrite andb_false_r.
  - destruct ds as [|y u]; [done|]. destruct Hb as [-> | ->], Hp as [-> | ->]; done.
  - destruct ds as [|x u]; [done|]. cbn [length lookup_total list_lookup_total Nat.leb andb]. inversion Hds as [|? ? Hx _].
    destruct (Hx ltac:(lia)). by replace ((x =? 120) || (x =? 88)) with false by lia.
  - destruct ds as [|x u]; [done|]. cbn [head] in Hh. cbn [lookup_total list_lookup_total]. assert (x <> 48) by congruence. replace (x =? 48) with false by lia.
    by rewrite !andb_false_r.
Qed.

(** The sign leaves something. *)
Lemma parse_sign_cases (c : Z) t : (exists sign s, c :: t = sign ++ s /\ numeral_sign sign (c =? 45) /\ s <> [] /\
    (if (c =? 45) || (c =? 43) then match t with [] => None | _ :: _ => Some t end else Some (c :: t)) = Some s) \/
  (if (c =? 45) || (c =? 43) then match t with [] => None | _ :: _ => Some t end else Some (c :: t)) = None.
Proof.
  destruct (Z.eqb_spec c 45) as [->|Hn45]; [|destruct (Z.eqb_spec c 43) as [->|Hn43]]; cbn [orb]; [| |left].
  - destruct t as [|d t]; [by right|left]. exists [45], (d :: t). split_and!; [done|by left|done|done].
  - destruct t as [|d t]; [by right|left]. exists [43], (d :: t). split_and!; [done|right; tauto|done|done].
  - exists [], (c :: t). split_and!; [done|right; tauto|done|done].
Qed.

Lemma parse_sound text base ds b neg : safe_parse_sign_and_base (Some text) base = Some (ds, b, neg) ->
  2 <= b <= 36 /\ exists l sign prefix r, text = l ++ sign ++ prefix ++ ds ++ r /\ Forall space l /\ Forall space r /\
    numeral_sign sign neg /\ numeral_prefix base prefix b ds.
Proof.
  unfold safe_parse_sign_and_base. rewrite bind_some. cbv zeta. rewrite skip_both. destruct (trim_all_trimmed text) as ((l & r & E & Hl & Hr & _) & _).
  destruct (trim_all text) as [|c t] eqn:Et; [done|]. intros H. destruct (parse_sign_cases c t) as [(sign & s & Ec & Hsg & Hs & Es)|Es]; rewrite Es in H; [|done].
  rewrite bind_some in H. destruct (parse_prefix s base) as [[ds' b']|] eqn:Ep; [|done]. rewrite bind_some in H. injection H as -> -> <-.
  destruct (parse_prefix_sound _ _ _ _ Hs Ep) as (Hb & prefix & -> & Hpre). split; [done|]. exists l, sign, prefix, r. split_and!; try done.
  by rewrite E, Ec, <- !app_assoc.
Qed.

Lemma trim_body l t r : Forall space l -> Forall space r -> Forall (fun c => ascii_isspace c = false) t -> trim_all (l ++ t ++ r) = t.
Proof.
  intros Hl Hr Ht. apply trimmed_all. exists l, r. split_and!; try done; intros c Hc.
  - destruct t as [|d t]; [done|]. injection Hc as <-. by inversion Ht.
  - apply (Forall_rev_iff _ _) in Ht. destruct (rev t) as [|d u]; [done|]. injection Hc as <-. by inversion Ht.
Qed.

Lemma parse_complete text base neg b ds : Forall byte_ok text -> numeral base text neg b ds -> 2 <= b <= 36 /\ safe_parse_sign_and_base (Some text) base = Some (ds, b, neg).
Proof.
  intros Htext (l & sign & prefix & r & -> & Hl & Hr & Hsg & Hpre & Hds). assert (Hb : 2 <= b <= 36) by (unfold numeral_prefix in Hpre; lia). split; [done|].
  rewrite !Forall_app in Htext. destruct Htext as (_ & _ & _ & Hbytes & _).
  assert (Hgood : Forall (fun c => ascii_isspace c = false /\ c <> 45 /\ c <> 43 /\ (b <= 16 -> c <> 120 /\ c <> 88)) ds).
  { apply Forall_forall. intros c Hin. rewrite Forall_forall in Hds, Hbytes. apply (digit_not_special c b); [by apply Hbytes|by apply Hds|lia]. }
  assert (Hns : Forall (fun c => ascii_isspace c = false) (sign ++ prefix ++ ds)).
  { rewrite !Forall_app. split_and!; [destruct Hsg as [(_ & ->)|(_ & [-> | ->])]; repeat constructor| |revert Hgood; apply Forall_impl; tauto].
    destruct Hpre as [(_ & -> & _)|[(_ & [-> | ->] & _)|[(_ & -> & _)|(_ & -> & _)]]]; repeat constructor. }
  assert (Hbody : exists c s, prefix ++ ds = c :: s /\ c <> 45 /\ c <> 43).
  { destruct Hpre as [(_ & -> & _ & Hne)|[(_ & [-> | ->] & _)|[(_ & -> & _)|(_ & -> & _ & Hne & _)]]];
      try (eexists _, _; split_and!; [done|lia|lia]); destruct ds as [|c s]; try done; exists c, s; inversion Hgood; tauto. }
  destruct Hbody as (c & s & Ebody & Hc45 & Hc43).
  unfold safe_parse_sign_and_base. rewrite bind_some. cbv zeta. rewrite skip_both.
  replace (l ++ sign ++ prefix ++ ds ++ r) with (l ++ (sign ++ prefix ++ ds) ++ r) by (by rewrite <- !app_assoc).
  rewrite trim_body by done. assert (Ep : parse_prefix (prefix ++ ds) base = Some (ds, b)).
  { apply parse_prefix_complete; [done|]. revert Hgood. apply Forall_impl. tauto. }
  destruct Hsg as [(-> & ->)|(-> & [-> | ->])]; cbn [app]; rewrite Ebody in *; cbn [Z.eqb Pos.eqb orb]; try (by rewrite bind_some, Ep, bind_some).
  replace (c =? 45) with false by lia. replace (c =? 43) with false by lia. cbn [orb]. by rewrite bind_some, Ep, bind_some.
Qed.

(** ** The functions *)

Lemma good_digits_all b ds : Forall (fun c => digit_of c < b) ds -> good_digits b ds = digit_of <$> ds.
Proof. induction 1 as [|c ds Hc Hds IH]; [done|]. cbn [good_digits]. destruct (Z.ltb_spec (digit_of c) b); [|lia]. cbn. by rewrite IH. Qed.

Lemma good_digits_length b ds : length (good_digits b ds) = length ds -> Forall (fun c => digit_of c < b) ds.
Proof.
  induction ds as [|c ds IH]; [done|]. cbn [good_digits]. destruct (Z.ltb_spec (digit_of c) b) as [H|H]; cbn [length]; [|lia].
  intros E. constructor; [done|]. apply IH. lia.
Qed.

(** The result in terms of the digits found. *)
Definition result_of (s : bool) (w : Z) (p : option (list Z * Z * bool)) : bool * Z :=
  match p with
  | None => (false, 0)
  | Some (ds, b, neg) => if neg then if s then negative_spec (vmin s w) b ds 0 else (false, 0) else positive_spec (vmax s w) b ds 0
  end.

Lemma zero_in_range s w : type_ok w -> vmin s w <= 0 <= vmax s w.
Proof. intros Hw. destruct (type_bounds s w Hw) as (H1 & H2 & _). lia. Qed.

Lemma result_range s w text base : type_ok w -> Forall byte_ok text ->
  vmin s w <= snd (result_of s w (safe_parse_sign_and_base (Some text) base)) <= vmax s w.
Proof.
  intros Hw Ht. pose proof (zero_in_range s w Hw) as H0. destruct (type_bounds s w Hw) as (Hmax & _ & Hsg).
  destruct (safe_parse_sign_and_base (Some text) base) as [[[ds b] neg]|] eqn:E; [|done]. cbn [result_of].
  destruct (parse_sound _ _ _ _ _ E) as (Hb & l & sign & prefix & r & -> & _). rewrite !Forall_app in Ht. destruct Ht as (_ & _ & _ & Ht & _).
  pose proof (horner_ge b _ ltac:(lia) (good_digits_range b ds Ht) 0 ltac:(lia)). unfold positive_spec, negative_spec.
  destruct neg; [destruct s; [destruct (Hsg eq_refl)|done]|]; destruct (Z.ltb_spec (- vmin true w) (horner 0 b (good_digits b ds)));
    try (destruct (Z.ltb_spec (vmax s w) (horner 0 b (good_digits b ds)))); cbn [snd]; lia.
Qed.

Lemma internal_result (s : bool) w text base : type_ok w -> Forall byte_ok text ->
  (if s then safe_int_internal w (Some text) base else safe_uint_internal w (Some text) base) =
    Some (result_of s w (safe_parse_sign_and_base (Some text) base)).
Proof.
  intros Hw Ht. pose proof (zero_in_range s w Hw) as H0. destruct (type_bounds s w Hw) as (_ & _ & Hsg). unfold safe_int_internal, safe_uint_internal.
  destruct (safe_parse_sign_and_base (Some text) base) as [[[ds b] neg]|] eqn:E; [|by destruct s]. cbn [result_of].
  destruct (parse_sound _ _ _ _ _ E) as (Hb & l & sign & prefix & r & -> & _). rewrite !Forall_app in Ht. destruct Ht as (_ & _ & _ & Ht & _).
  assert (Hpos : safe_parse_positive_int s w ds b = Some (positive_spec (vmax s w) b ds 0)).
  { unfold safe_parse_positive_int. rewrite kVmaxOverBase_spec by done. apply positive_loop_ok; [done|lia|done|lia]. }
  destruct s, neg; cbn [negb]; try done. destruct (Hsg eq_refl) as (Emin & Emax). unfold safe_parse_negative_int.
  destruct (kVminOverBase_spec w b Hw Hb) as (-> & Hrem). cbv zeta. destruct (Z.ltb_spec 0 (Z.rem (vmin true w) b)); [lia|].
  change 0 with (- 0). apply negative_loop_ok; [done|lia|done|done|lia].
Qed.

Lemma strtoi_result s w text base : type_ok w -> Forall byte_ok text ->
  safe_strtoi_base s w (Some text) base = Some (result_of s w (safe_parse_sign_and_base (Some text) base)).
Proof.
  intros Hw Ht. pose proof (internal_result s w text base Hw Ht) as H. pose proof (result_range s w text base Hw Ht) as Hr.
  unfold safe_strtoi_base, safe_strto128_base, safe_strtou128_base, safe_strto64_base, safe_strtou64_base, safe_strto32_base, safe_strtou32_base. unfold vmin, vmax in Hr.
  destruct (result_of s w (safe_parse_sign_and_base (Some text) base)) as [ok v]. cbn [snd] in Hr.
  destruct Hw as [-> | [-> | ->]]; cbn [Z.eqb Pos.eqb]; destruct s; rewrite H; rewrite ?bind_some; [| | | |done|done];
    rewrite ?swrap_small, ?wrap_small; try done; lia.
Qed.

Lemma result_true s w text base v : type_ok w -> Forall byte_ok text ->
  result_of s w (safe_parse_sign_and_base (Some text) base) = (true, v) <->
  exists neg b ds, numeral base text neg b ds /\ (neg = true -> s = true) /\
    v = (if neg then - text_value b (digit_of <$> ds) else text_value b (digit_of <$> ds)) /\ vmin s w <= v <= vmax s w.
Proof.
  intros Hw Ht. split.
  - intros H. pose proof (result_range s w text base Hw Ht) as Hr. rewrite H in Hr. cbn [snd] in Hr.
    destruct (safe_parse_sign_and_base (Some text) base) as [[[ds b] neg]|] eqn:E; [|done]. cbn [result_of] in H.
    destruct (parse_sound _ _ _ _ _ E) as (Hb & l & sign & prefix & r & Etext & Hl & Hrr & Hsg & Hpre). exists neg, b, ds.
    assert (Hgood : length (good_digits b ds) = length ds /\ v = (if neg then - horner 0 b (good_digits b ds) else horner 0 b (good_digits b ds)) /\ (neg = true -> s = true)).
    { unfold positive_spec, negative_spec in H. destruct neg; [destruct s; [|done]|]; destruct (_ <? _) in H; try done; injection H as Hd <-;
        apply bool_decide_eq_true in Hd; split_and!; try done; lia. }
    destruct Hgood as (Hgood & -> & Hneg). apply good_digits_length in Hgood. rewrite (good_digits_all b ds Hgood) in Hr |- *.
    split; [by exists l, sign, prefix, r|]. split; [done|]. split; [by destruct neg|exact Hr].
  - intros (neg & b & ds & Hnum & Hs & -> & Hr). destruct (parse_complete _ _ _ _ _ Ht Hnum) as (Hb & ->). cbn [result_of].
    destruct Hnum as (l & sign & prefix & r & _ & _ & _ & _ & _ & Hds). unfold positive_spec, negative_spec. rewrite (good_digits_all b ds Hds), horner_text_value, length_fmap, bool_decide_true by done.
    destruct neg; [rewrite Hs in * by done|]; destruct (Z.ltb_spec (- vmin true w) (text_value b (digit_of <$> ds))); try lia; try done;
    destruct (Z.ltb_spec (vmax s w) (text_value b (digit_of <$> ds))); try lia; done.
Qed.

Lemma result_out_of_range s w text base neg b ds : type_ok w -> Forall byte_ok text -> numeral base text neg b ds -> (neg = true -> s = true) ->
  ~ vmin s w <= (if neg then - text_value b (digit_of <$> ds) else text_value b (digit_of <$> ds)) <= vmax s w ->
  result_of s w (safe_parse_sign_and_base (Some text) base) = (false, if neg then vmin s w else vmax s w).
Proof.
  intros Hw Ht Hnum Hs Hr. destruct (parse_complete _ _ _ _ _ Ht Hnum) as (Hb & ->). cbn [result_of]. pose proof (zero_in_range s w Hw) as H0.
  destruct Hnum as (l & sign & prefix & r & -> & _ & _ & _ & _ & Hds). rewrite !Forall_app in Ht. destruct Ht as (_ & _ & _ & Ht & _).
  pose proof (horner_ge b _ ltac:(lia) (good_digits_range b ds Ht) 0 ltac:(lia)) as Hge. unfold positive_spec, negative_spec.
  rewrite (good_digits_all b ds Hds), horner_text_value in *. destruct neg; [rewrite Hs in * by done|].
  - destruct (Z.ltb_spec (- vmin true w) (text_value b (digit_of <$> ds))); [done|lia].
  - destruct (Z.ltb_spec (vmax s w) (text_value b (digit_of <$> ds))); [done|lia].
Qed.

(** ** Round trips *)

Lemma digit_of_decimal c : 48 <= c <= 57 -> digit_of c = c - 48.
Proof. intros Hc. unfold digit_of, in_range. by replace ((48 <=? c) && (c <=? 57)) with true by lia. Qed.

Lemma numeral_decimal l i r : Z.abs i < 10 ^ 40 -> Forall space l -> Forall space r ->
  numeral 10 (l ++ signed_decimal i ++ r) (i <? 0) 10 (decimal (Z.abs i)) /\ text_value 10 (digit_of <$> decimal (Z.abs i)) = Z.abs i.
Proof.
  intros Hi Hl Hr. destruct (decimal_value (Z.abs i) ltac:(lia)) as (Hv & _ & Hd). destruct (length_decimal (Z.abs i) ltac:(lia)) as (Hn & _).
  assert (Hdig : digit_of <$> decimal (Z.abs i) = (fun c => c - 48) <$> decimal (Z.abs i)).
  { apply list_fmap_ext. intros k c Hc. apply digit_of_decimal. rewrite Forall_forall in Hd. apply Hd, list_elem_of_In. by eapply list_elem_of_lookup_2. }
  rewrite Hdig. split; [|done]. exists l, (if i <? 0 then [45] else []), [], r. cbn [app]. split_and!; try done.
  - unfold signed_decimal. destruct (Z.ltb_spec i 0); [by rewrite Z.abs_neq by lia|by rewrite Z.abs_eq by lia].
  - destruct (i <? 0); [by left|right; tauto].
  - left. split; [lia|]. split; [done|]. split; [done|]. by destruct (decimal (Z.abs i)); [cbn in Hn; lia|].
  - revert Hd. apply Forall_impl. intros c Hc. rewrite digit_of_decimal by done. lia.
Qed.

(** The two characters of a byte. *)
Lemma hex_pair b : byte_ok b -> exists h k, take 2 (drop (Z.to_nat (b * 2)) kHexTable) = [h; k] /\
  digit_of h = b / 16 /\ digit_of k = b mod 16 /\ (b / 16 < 10 <-> h < 58) /\ byte_ok h /\ byte_ok k.
Proof.
  intros Hb. pose proof (byte_forall (fun b => match take 2 (drop (Z.to_nat (b * 2)) kHexTable) with
    | [h; k] => (digit_of h =? b / 16) && (digit_of k =? b mod 16) && Bool.eqb (b / 16 <? 10) (h <? 58) && (0 <=? h) && (h <? 256) && (0 <=? k) && (k <? 256)
    | _ => false end) ltac:(by vm_compute) b Hb) as H. cbv beta in H.
  destruct (take 2 (drop (Z.to_nat (b * 2)) kHexTable)) as [|h [|k [|? ?]]]; try done. exists h, k.
  rewrite !andb_true_iff in H. destruct_and! H. unfold byte_ok.
  match goal with E : Bool.eqb _ _ = true |- _ => apply Bool.eqb_prop in E end. split; [done|]. lia.
Qed.

(** Bytes from the highest down. *)
Definition hex_bytes (bs : list Z) : list Z := concat ((fun b => take 2 (drop (Z.to_nat (b * 2)) kHexTable)) <$> bs).

Lemma hex_bytes_value bs : Forall byte_ok bs -> forall v, horner v 16 (digit_of <$> hex_bytes bs) = horner v 256 bs /\
  Forall (fun c => digit_of c < 16) (hex_bytes bs) /\ Forall byte_ok (hex_bytes bs) /\ length (hex_bytes bs) = (2 * length bs)%nat.
Proof.
  induction 1 as [|b bs Hb Hbs IH]; intros v; [done|]. unfold hex_bytes in *. cbn [fmap list_fmap concat].
  destruct (hex_pair b Hb) as (h & k & -> & Hh & Hk & _ & Hhb & Hkb). cbn [app fmap list_fmap]. rewrite Hh, Hk. unfold horner in *. cbn [fold_left].
  destruct (IH (v * 256 + b)) as (IH1 & IH2 & IH3 & IH4). unfold byte_ok in Hb.
  replace ((v * 16 + b / 16) * 16 + b mod 16) with (v * 256 + b) by zlia. split_and!; [done| | |cbn [length]; lia].
  - constructor; [rewrite Hh; zlia|constructor; [rewrite Hk; zlia|done]].
  - constructor; [done|by constructor].
Qed.

(** The number of digits. *)
Lemma hex_digits_count val : 0 <= val < 2 ^ 64 -> let n := 16 - countl_zero 64 (Z.lor val 1) / 4 in
  1 <= n <= 16 /\ (1 < n -> 16 ^ (n - 1) <= val) /\ val < 16 ^ n.
Proof.
  intros Hv n. assert (Hx : 0 < Z.lor val 1 < 2 ^ 64).
  { assert (0 <= Z.lor val 1 < 2 ^ 64) by (apply lor_range; lia). assert (Z.lor val 1 <> 0) by (intros E; apply Z.lor_eq_0_iff in E; lia). lia. }
  assert (Hn : n = 1 + Z.log2 val / 4).
  { unfold n. rewrite countl_zero_spec by (first [by unfold digits_ok; lia|lia]). destruct (Z.eqb_spec (Z.lor val 1) 0); [lia|].
    rewrite Z.log2_lor by lia. change (Z.log2 1) with 0. pose proof (Z.log2_nonneg val). rewrite Z.max_l by done. zlia. }
  pose proof (Z.log2_nonneg val) as HL. assert (HL' : Z.log2 val < 64) by (destruct (Z.eq_dec val 0) as [->|]; [cbn; lia|apply Z.log2_lt_pow2; lia]).
  rewrite Hn. assert (Hq : 0 <= Z.log2 val / 4 /\ 4 * (Z.log2 val / 4) <= Z.log2 val < 4 * (Z.log2 val / 4) + 4) by zlia.
  assert (H16 : forall m, 0 <= m -> 16 ^ m = 2 ^ (4 * m)) by (intros m Hm; rewrite Z.pow_mul_r by lia; done).
  split; [lia|]. rewrite !H16 by lia. destruct (Z.eq_dec val 0) as [->|Hv0]; [split; [intros H; exfalso; revert H; by vm_compute|by vm_compute]|].
  destruct (Z.log2_spec val ltac:(lia)) as (H1 & H2). split.
  - intros _. replace (4 * (1 + Z.log2 val / 4 - 1)) with (4 * (Z.log2 val / 4)) by lia. pose proof (Z.pow_le_mono_r 2 (4 * (Z.log2 val / 4)) (Z.log2 val)). lia.
  - pose proof (Z.pow_le_mono_r 2 (Z.succ (Z.log2 val)) (4 * (1 + Z.log2 val / 4))). lia.
Qed.

Lemma fast_hex_ok val : 0 <= val < 2 ^ 64 -> exists out n, FastHexToBufferZeroPad16 val = (out, n) /\
  length out = 16%nat /\ Forall byte_ok out /\ Forall (fun c => digit_of c < 16) out /\ text_value 16 (digit_of <$> out) = val /\
  1 <= n <= 16 /\ (1 < n -> 16 ^ (n - 1) <= val) /\ val < 16 ^ n.
Proof.
  intros Hv. unfold FastHexToBufferZeroPad16. eexists _, _. split; [reflexivity|]. cbn [seq fmap list_fmap]. cbv zeta.
  change (Z.sub 56 (8 * Z.of_nat 0)) with 56. change (Z.sub 56 (8 * Z.of_nat 1)) with 48. change (Z.sub 56 (8 * Z.of_nat 2)) with 40.
  change (Z.sub 56 (8 * Z.of_nat 3)) with 32. change (Z.sub 56 (8 * Z.of_nat 4)) with 24. change (Z.sub 56 (8 * Z.of_nat 5)) with 16.
  change (Z.sub 56 (8 * Z.of_nat 6)) with 8. change (Z.sub 56 (8 * Z.of_nat 7)) with 0.
  set (b := fun k => Z.land (ushr val k) 255).
  assert (Hb : forall k, 0 <= k -> b k = val / 2 ^ k mod 256) by (intros k Hk; unfold b; rewrite ushr_val by done; apply (Z.land_ones _ 8); lia).
  assert (Hbytes : Forall byte_ok [b 56; b 48; b 40; b 32; b 24; b 16; b 8; b 0]).
  { repeat constructor; rewrite Hb by lia; unfold byte_ok; zlia. }
  destruct (hex_bytes_value _ Hbytes 0) as (H1 & H2 & H3 & H4). unfold hex_bytes in *. cbn [fmap list_fmap] in *. fold (b 56) (b 48) (b 40) (b 32) (b 24) (b 16) (b 8) (b 0).
  split; [exact H4|]. split; [exact H3|]. split; [exact H2|]. split; [|exact (hex_digits_count val Hv)].
  rewrite <- horner_text_value. rewrite H1. unfold horner. cbn [fold_left].
    assert (Hs : forall k, 0 <= k -> val / 2 ^ k = 256 * (val / 2 ^ (k + 8)) + b k).
    { intros k Hk. rewrite Hb by done. rewrite Z.pow_add_r, <- Z.div_div by lia. change (2 ^ 8) with 256. zlia. }
    pose proof (Hs 0 ltac:(lia)) as E0. pose proof (Hs 8 ltac:(lia)) as E1. pose proof (Hs 16 ltac:(lia)) as E2. pose proof (Hs 24 ltac:(lia)) as E3. pose proof (Hs 32 ltac:(lia)) as E4. pose proof (Hs 40 ltac:(lia)) as E5.
    pose proof (Hs 48 ltac:(lia)) as E6. pose proof (Hs 56 ltac:(lia)) as E7. rewrite (Z.div_small val (2 ^ (56 + 8))) in E7 by (change (2 ^ (56 + 8)) with (2 ^ 64); lia). rewrite Z.pow_0_r, Z.div_1_r in E0. clear -E0 E1 E2 E3 E4 E5 E6 E7. clearbody b.
    change (0 + 8) with 8 in E0. change (8 + 8) with 16 in E1. change (16 + 8) with 24 in E2. change (24 + 8) with 32 in E3. change (32 + 8) with 40 in E4.
    change (40 + 8) with 48 in E5. change (48 + 8) with 56 in E6. lia.
Qed.

(** ** Properties *)

(** C34: [safe_strtoi_base], the parser behind [simple_atoi] and [simple_hex_atoi], for signed and unsigned types of 32, 64 and 128 bits, any base and any
    text: no signed operation overflows and the number written is in the type's range; it returns true with [v] exactly when the text is
    whitespace, an optional sign, a prefix the base allows, at least one digit (or the lone prefix 0 of base 0), every one below the
    base, and whitespace, and [v] is its value by Horner's rule, within the type's range; a numeral whose value is out of range returns false with the
    nearest bound; the table of quotients of 128 bits is thereby right. A view that points nowhere is refused. *)
Theorem safe_strtoi_correct s w text base : type_ok w -> Forall byte_ok text ->
  safe_strtoi_base s w None base = Some (false, 0) /\
  (exists ok v, safe_strtoi_base s w (Some text) base = Some (ok, v) /\ vmin s w <= v <= vmax s w) /\
  (forall v, safe_strtoi_base s w (Some text) base = Some (true, v) <->
    exists neg b ds, numeral base text neg b ds /\ (neg = true -> s = true) /\
      v = (if neg then - text_value b (digit_of <$> ds) else text_value b (digit_of <$> ds)) /\ vmin s w <= v <= vmax s w) /\
  (forall neg b ds, numeral base text neg b ds -> (neg = true -> s = true) ->
    ~ vmin s w <= (if neg then - text_value b (digit_of <$> ds) else text_value b (digit_of <$> ds)) <= vmax s w ->
    safe_strtoi_base s w (Some text) base = Some (false, if neg then vmin s w else vmax s w)).
Proof.
  intros Hw Ht. rewrite (strtoi_result s w text base Hw Ht). split_and!.
  - destruct Hw as [-> | [-> | ->]]; by destruct s.
  - pose proof (result_range s w text base Hw Ht) as H. destruct (result_of s w _) as [ok v]. by exists ok, v.
  - intros v. rewrite <- (result_true s w text base v Hw Ht). split; [by intros [= E]|by intros ->].
  - intros neg b ds Hnum Hs Hr. by rewrite (result_out_of_range s w text base neg b ds Hw Ht Hnum Hs Hr).
Qed.

Lemma safe_strtoi_correct_witness :
  safe_strtoi_base true 32 (Some [32; 45; 48; 120; 102; 70; 10]) 0 = Some (true, -255) /\
  exists ok v, safe_strtoi_base true 32 (Some [32; 45; 48; 120; 102; 70; 10]) 0 = Some (ok, v) /\ vmin true 32 <= v <= vmax true 32.
Proof.
  split; [by vm_compute|]. destruct (safe_strtoi_correct true 32 [32; 45; 48; 120; 102; 70; 10] 0) as (_ & H & _).
  - by left.
  - repeat constructor; lia.
  - exact H.
Defined.

(** C35: Formatting and parsing are inverse: [simple_atoi] of the decimal text of a number of its type, with any whitespace around, returns true
    with the number; so it does on the characters [FastIntToBuffer] put before the terminating zero, for types of 32 and 64 bits; and
    [simple_hex_atoi] on the sixteen characters of [FastHexToBufferZeroPad16] gives the number back, where the count returned is the number
    of significant digits. *)
Theorem integer_text_roundtrip little s w i l r buf : type_ok w -> vmin s w <= i <= vmax s w ->
  Forall space l -> Forall space r -> Forall byte_ok (l ++ r) -> (kFastToBufferSize <= length buf)%nat ->
  simple_atoi s w (Some (l ++ signed_decimal i ++ r)) = Some (true, i) /\
  (w <= 64 -> exists n buf', FastIntToBuffer little s w i (0%nat, buf) = Some (n, buf') /\ simple_atoi s w (Some (take n buf')) = Some (true, i)) /\
  (0 <= i < 2 ^ 64 -> exists out n, FastHexToBufferZeroPad16 i = (out, n) /\ length out = 16%nat /\
    simple_hex_atoi false 64 (Some out) = Some (true, i) /\ 1 <= n <= 16 /\ (1 < n -> 16 ^ (n - 1) <= i) /\ i < 16 ^ n).
Proof.
  intros Hw Hi Hl Hr Hb Hbuf.
  assert (Ha : Z.abs i < 10 ^ 40) by (destruct Hw as [-> | [-> | ->]]; unfold vmin, vmax in Hi; destruct s; lia).
  assert (Hatoi : forall l r, Forall space l -> Forall space r -> Forall byte_ok (l ++ r) -> simple_atoi s w (Some (l ++ signed_decimal i ++ r)) = Some (true, i)).
  { clear l r Hl Hr Hb. intros l r Hl Hr Hb. destruct (numeral_decimal l i r Ha Hl Hr) as (Hnum & Hv). apply Forall_app in Hb as (Hbl & Hbr).
    assert (Ht : Forall byte_ok (l ++ signed_decimal i ++ r)).
    { rewrite !Forall_app. split_and!; try done. unfold signed_decimal. destruct (Z.ltb_spec i 0); [constructor; [done|]|]; apply decimal_ok; lia. }
    unfold simple_atoi. rewrite strtoi_result by done. f_equal. apply result_true; [done|done|]. exists (i <? 0), 10, (decimal (Z.abs i)).
    rewrite Hv. split; [done|]. split; [|split; [|done]]; destruct (Z.ltb_spec i 0); try done; try lia.
    intros _. destruct s; [done|]. unfold vmin in Hi. lia. }
  split; [by apply Hatoi|]. split.
  - intros H64. destruct (fast_int_to_buffer_text little s w i buf) as (n & buf' & E & Et).
    + destruct Hw as [-> | [-> | ->]]; [split; [tauto|]|split; [tauto|]|lia]; unfold vmin, vmax in Hi; destruct s; lia.
    + done.
    + exists n, buf'. split; [done|]. rewrite Et. specialize (Hatoi [] [] ltac:(constructor) ltac:(constructor) ltac:(constructor)). by rewrite app_nil_r in Hatoi.
  - intros H. destruct (fast_hex_ok i H) as (out & n & E & Hlen & Hbytes & Hdig & Hv & Hn). exists out, n. split; [done|]. split; [done|]. split; [|done].
    unfold simple_hex_atoi. rewrite strtoi_result by (done || by right; left). f_equal. apply result_true; [by right; left|done|]. exists false, 16, out.
    rewrite Hv. split; [|split; [done|split; [done|unfold vmin, vmax; lia]]]. exists [], [], [], []. cbn [app]. rewrite app_nil_r. split_and!; try done; [right; tauto|].
    left. split; [lia|]. split; [done|]. split; [done|]. by destruct out.
Qed.

Lemma integer_text_roundtrip_witness :
  simple_atoi true 64 (Some [9; 45; 57; 50; 50; 51; 51; 55; 50; 48; 51; 54; 56; 53; 52; 55; 55; 53; 56; 48; 56]) = Some (true, - 2 ^ 63) /\
  simple_atoi true 64 (Some ([9] ++ signed_decimal (- 2 ^ 63) ++ [])) = Some (true, - 2 ^ 63).
Proof.
  split; [by vm_compute|]. apply (integer_text_roundtrip true true 64 (- 2 ^ 63) [9] [] (replicate 32 0)).
  - right; by left.
  - by vm_compute.
  - by repeat constructor.
  - constructor.
  - repeat constructor; lia.
  - by vm_compute.
Defined.
