(* ===== verification/CEscape.v ===== *)
(** * C escape sequences (strings/escaping.cc) and UTF-8 (strings/internal/utf8.cc)

    [c_decode] as it runs: a read index and a write index into memory, where the destination may be the source itself,
    with an out-of-bounds access as [None]; the four encoders, one of which computes the length of the result first and then
    writes into the resized string. The decoder is proved against a function on lists, and the encoders are inverted by it. *)
From S2P Require Import Prelude Words Bits Endian Ascii NumFormat NumParse.

(** ** Definitions *)

Definition is_octal_digit (c : Z) : bool := (48 <=? c) && (c <=? 55).
Definition hex_digit_to_int (c : Z) : Z := Z.land (if 57 <? c then c + 9 else c) 0xf.

(** The bytes [EncodeUTF8Char] writes. *)
Definition EncodeUTF8Char (utf8_char : Z) : list Z :=
  if utf8_char <=? 0x7F then [utf8_char]
  else if utf8_char <=? 0x7FF then
    let b1 := Z.lor 0x80 (Z.land utf8_char 0x3F) in
    let utf8_char := ushr utf8_char 6 in
    [wrap 8 (Z.lor 0xC0 utf8_char); b1]
  else if utf8_char <=? 0xFFFF then
    let b2 := Z.lor 0x80 (Z.land utf8_char 0x3F) in
    let utf8_char := ushr utf8_char 6 in
    let b1 := Z.lor 0x80 (Z.land utf8_char 0x3F) in
    let utf8_char := ushr utf8_char 6 in
    [wrap 8 (Z.lor 0xE0 utf8_char); b1; b2]
  else
    let b3 := Z.lor 0x80 (Z.land utf8_char 0x3F) in
    let utf8_char := ushr utf8_char 6 in
    let b2 := Z.lor 0x80 (Z.land utf8_char 0x3F) in
    let utf8_char := ushr utf8_char 6 in
    let b1 := Z.lor 0x80 (Z.land utf8_char 0x3F) in
    let utf8_char := ushr utf8_char 6 in
    [wrap 8 (Z.lor 0xF0 utf8_char); b1; b2; b3].

(** The error messages, with the text they quote. *)
Inductive decode_error : Type :=
  | EndsWithBackslash
  | EndsWithX
  | NotHexDigit
  | Exceeds0xff (text : list Z)
  | NeedsHexDigits (n : nat) (text : list Z)
  | ExceedsUnicode (text : list Z)
  | SurrogateCharacter (text : list Z)
  | UnknownEscape (c : Z).

Definition IsSurrogate (c : Z) : bool := (0xD800 <=? c) && (c <=? 0xDFFF).

(** One more octal digit, if there is one: the value, the text read, the rest. *)
Definition octal_more (x : Z * list Z * list Z) : Z * list Z * list Z :=
  let '(ch, text, rest) := x in
  match rest with
  | c :: rest' => if is_octal_digit c then (uadd 32 (umul 32 ch 8) (c - 48), text ++ [c], rest') else x
  | [] => x
  end.

(** As many hexadecimal digits as there are. *)
Fixpoint hex_loop (ch : Z) (text rest : list Z) : Z * list Z * list Z :=
  match rest with
  | c :: rest' =>
      if ascii_isxdigit c then hex_loop (uadd 32 (ushl 32 ch 4) (hex_digit_to_int c)) (text ++ [c]) rest' else (ch, text, rest)
  | [] => (ch, text, rest)
  end.

(** The four or eight digits of a rune. *)
Fixpoint rune_loop (n : nat) (limit : bool) (digits : nat) (rune : Z) (text rest : list Z) : decode_error + (Z * list Z * list Z) :=
  match n with
  | O => inr (rune, text, rest)
  | S n =>
      match rest with
      | c :: rest' =>
          if ascii_isxdigit c then
            let newrune := uadd 32 (ushl 32 rune 4) (hex_digit_to_int c) in
            if limit && (0x10FFFF <? newrune) then inl (ExceedsUnicode (text ++ [c])) else rune_loop n limit digits newrune (text ++ [c]) rest'
          else inl (NeedsHexDigits digits text)
      | [] => inl (NeedsHexDigits digits text)
      end
  end.

(** The character escapes: the letter and what it stands for. *)
Definition letter_escape (c : Z) : option Z :=
  if c =? 97 then Some 7 else if c =? 98 then Some 8 else if c =? 102 then Some 12 else if c =? 110 then Some 10
  else if c =? 114 then Some 13 else if c =? 116 then Some 9 else if c =? 118 then Some 11 else if c =? 92 then Some 92
  else if c =? 63 then Some 63 else if c =? 39 then Some 39 else if c =? 34 then Some 34 else None.

(** What follows a backslash: the bytes to write and the rest of the source. *)
Definition escape (leave_nulls_escaped : bool) (l : list Z) : decode_error + (list Z * list Z) :=
  match l with
  | [] => inl EndsWithBackslash
  | c :: rest =>
      match letter_escape c with
      | Some v => inr ([v], rest)
      | None =>
          if is_octal_digit c then
            let '(ch, text, rest) := octal_more (octal_more (c - 48, [c], rest)) in
            if 0xff <? ch then inl (Exceeds0xff text)
            else if (ch =? 0) && leave_nulls_escaped then inr (92 :: text, rest)
            else inr ([ch], rest)
          else if (c =? 120) || (c =? 88) then
            match rest with
            | [] => inl EndsWithX
            | x :: _ =>
                if negb (ascii_isxdigit x) then inl NotHexDigit
                else
                  let '(ch, text, rest) := hex_loop 0 [c] rest in
                  if 0xff <? ch then inl (Exceeds0xff text)
                  else if (ch =? 0) && leave_nulls_escaped then inr (92 :: text, rest)
                  else inr ([ch], rest)
            end
          else if (c =? 117) || (c =? 85) then
            let digits := if c =? 117 then 4%nat else 8%nat in
            if (length rest <? digits)%nat then inl (NeedsHexDigits digits [c])
            else
              match rune_loop digits (c =? 85) digits 0 [c] rest with
              | inl e => inl e
              | inr (rune, text, rest) =>
                  if (rune =? 0) && leave_nulls_escaped then inr (92 :: text, rest)
                  else if IsSurrogate rune then inl (SurrogateCharacter text)
                  else inr (EncodeUTF8Char rune, rest)
              end
          else inl (UnknownEscape c)
      end
  end.

(** [CUnescapeInternal] on memory: [same] if the destination is the source; [p] and [d] are the indices of the two
    pointers. The result is the length written and the destination. *)
Section Unescape.
Context (leave_nulls_escaped same : bool) (source : list Z).

Definition source_of (dest : list Z) : list Z := if same then dest else source.

Fixpoint skip_plain (l : list Z) : nat :=
  match l with c :: l => if negb (c =? 92) then S (skip_plain l) else O | [] => O end.

Fixpoint unescape_loop (fuel p d : nat) (dest : list Z) : option (decode_error + (nat * list Z)) :=
  match fuel with
  | O => None
  | S fuel =>
      match drop p (source_of dest) with
      | [] => Some (inr (d, dest))
      | c :: rest =>
          if negb (c =? 92) then dest ← put d [c] dest; unescape_loop fuel (S p) (S d) dest
          else
            match escape leave_nulls_escaped rest with
            | inl e => Some (inl e)
            | inr (out, rest) => dest ← put d out dest; unescape_loop fuel (length (source_of dest) - length rest) (d + length out) dest
            end
      end
  end.

Definition CUnescapeInternal (dest : list Z) : option (decode_error + (nat * list Z)) :=
  let n := if same then skip_plain dest else O in
  unescape_loop (S (length (source_of dest))) n n dest.
End Unescape.

(** [c_decode]: the string left in [dest], or the error. [uninit] is what the resized string holds. *)
Definition c_decode (same : bool) (source uninit : list Z) : option (decode_error + list Z) :=
  r ← CUnescapeInternal false same source (if same then source else uninit);
  Some (match r with inl e => inl e | inr (dest_size, dest) => inr (take dest_size dest) end).

(** *** Encoders *)

(** [CEscapeInternal]. *)
Fixpoint escape_loop (use_hex utf8_safe last_hex_escape : bool) (src : list Z) : list Z :=
  match src with
  | [] => []
  | c :: src =>
      if c =? 10 then [92; 110] ++ escape_loop use_hex utf8_safe false src
      else if c =? 13 then [92; 114] ++ escape_loop use_hex utf8_safe false src
      else if c =? 9 then [92; 116] ++ escape_loop use_hex utf8_safe false src
      else if c =? 34 then [92; 34] ++ escape_loop use_hex utf8_safe false src
      else if c =? 39 then [92; 39] ++ escape_loop use_hex utf8_safe false src
      else if c =? 92 then [92; 92] ++ escape_loop use_hex utf8_safe false src
      else if (negb utf8_safe || (c <? 0x80)) && (negb (ascii_isprint c) || (last_hex_escape && ascii_isxdigit c)) then
        if use_hex then
          [92; 120; at_byte kHexChar (c / 16); at_byte kHexChar (c mod 16)] ++ escape_loop use_hex utf8_safe true src
        else
          [92; at_byte kHexChar (c / 64); at_byte kHexChar (c mod 64 / 8); at_byte kHexChar (c mod 8)] ++ escape_loop use_hex utf8_safe false src
      else [c] ++ escape_loop use_hex utf8_safe false src
  end.
Definition CEscapeInternal (src : list Z) (use_hex utf8_safe : bool) : list Z := escape_loop use_hex utf8_safe false src.

Definition kCEscapedLen : list Z :=
  [4; 4; 4; 4; 4; 4; 4; 4; 4; 2; 2; 4; 4; 2; 4; 4] ++
  replicate 16 4 ++
  [1; 1; 2; 1; 1; 1; 1; 2; 1; 1; 1; 1; 1; 1; 1; 1] ++
  replicate 16 1 ++
  replicate 16 1 ++
  [1; 1; 1; 1; 1; 1; 1; 1; 1; 1; 1; 1; 2; 1; 1; 1] ++
  replicate 16 1 ++
  [1; 1; 1; 1; 1; 1; 1; 1; 1; 1; 1; 1; 1; 1; 1; 4] ++
  replicate 128 4.

(** [CEscapedLength]: no check up to [unchecked_limit], a check per character beyond. *)
Fixpoint checked_length (escaped_len : Z) (src : list Z) : option Z :=
  match src with
  | [] => Some escaped_len
  | c :: src =>
      let char_len := at_byte kCEscapedLen c in
      if negb (escaped_len <=? (2 ^ 64 - 1) - char_len) then None else checked_length (uadd 64 escaped_len char_len) src
  end.
Definition CEscapedLength (src : list Z) : option Z :=
  let unchecked_limit := Z.min (Z.of_nat (length src)) ((2 ^ 64 - 1) / 4) in
  let escaped_len := fold_left (fun n c => uadd 64 n (at_byte kCEscapedLen c)) (take (Z.to_nat unchecked_limit) src) 0 in
  checked_length escaped_len (drop (Z.to_nat unchecked_limit) src).

(** The characters written for one of [src]. *)
Definition escaped_char (c : Z) : list Z :=
  let char_len := at_byte kCEscapedLen c in
  if char_len =? 1 then [c]
  else if char_len =? 2 then
    if c =? 10 then [92; 110] else if c =? 13 then [92; 114] else if c =? 9 then [92; 116]
    else if c =? 34 then [92; 34] else if c =? 39 then [92; 39] else if c =? 92 then [92; 92] else []
  else [92; 48 + c / 64; 48 + c mod 64 / 8; 48 + c mod 8].
Fixpoint append_loop (src : list Z) (append_ptr : nat) (dest : list Z) : option (list Z) :=
  match src with
  | [] => Some dest
  | c :: src => dest ← put append_ptr (escaped_char c) dest; append_loop src (append_ptr + length (escaped_char c)) dest
  end.
Definition CEscapeAndAppendInternal (src dest : list Z) (uninit : Z) : option (list Z) :=
  escaped_len ← CEscapedLength src;
  if escaped_len =? Z.of_nat (length src) then Some (dest ++ src)
  else
    let cur_dest_len := Z.of_nat (length dest) in
    if negb (cur_dest_len <=? (2 ^ 64 - 1) - escaped_len) then None
    else append_loop src (length dest) (dest ++ replicate (Z.to_nat escaped_len) uninit).

Definition c_encode (src : list Z) (uninit : Z) : option (list Z) := CEscapeAndAppendInternal src [] uninit.
Definition c_hex_encode (src : list Z) : list Z := CEscapeInternal src true false.
Definition utf8_safe_encode (src : list Z) : list Z := CEscapeInternal src false true.
Definition utf8_safe_hex_encode (src : list Z) : list Z := CEscapeInternal src true true.

(** ** UTF-8 *)

Definition continuation (b : Z) : bool := in_range 0x80 0xBF b.

(** A decoder that accepts the shortest form of the Unicode scalar values only. *)
Definition utf8_decode (l : list Z) : option (Z * list Z) :=
  match l with
  | [] => None
  | a :: l =>
      if a <? 0x80 then Some (a, l)
      else
        let '(n, v) := if in_range 0xC0 0xDF a then (1%nat, a - 0xC0) else if in_range 0xE0 0xEF a then (2%nat, a - 0xE0) else (3%nat, a - 0xF0) in
        let v := fold_left (fun v b => v * 64 + (b - 0x80)) (take n l) v in
        if (a <? 0xF8) && (length (take n l) =? n)%nat && forallb continuation (take n l) && negb (IsSurrogate v) &&
           (match n with 1%nat => 0x80 | 2%nat => 0x800 | _ => 0x10000 end <=? v) && (v <=? 0x10FFFF)
        then Some (v, drop n l) else None
  end.

(** The length of the encoding. *)
Definition utf8_length (c : Z) : nat := if c <=? 0x7F then 1%nat else if c <=? 0x7FF then 2%nat else if c <=? 0xFFFF then 3%nat else 4%nat.

Lemma tail_byte c : Z.lor 0x80 (Z.land c 0x3F) = 0x80 + c mod 64.
Proof.
  change 0x3F with (Z.ones 6). rewrite Z.land_ones by lia. change (2 ^ 6) with 64. change 0x80 with (2 * 2 ^ 6).
  rewrite lor_shiftl_add; [done|lia|]. pose proof (Z.mod_pos_bound c 64). lia.
Qed.

Lemma lead_byte k n x : 0 <= n -> 0 <= x < 2 ^ n -> 0 <= k -> k * 2 ^ n + x < 256 -> wrap 8 (Z.lor (k * 2 ^ n) x) = k * 2 ^ n + x.
Proof. intros Hn Hx Hk H. rewrite lor_shiftl_add by done. apply wrap_small. change (2 ^ 8) with 256. nia. Qed.

Lemma utf8_bytes c : 0 <= c <= 0x10FFFF -> EncodeUTF8Char c =
  if c <=? 0x7F then [c] else if c <=? 0x7FF then [0xC0 + c / 64; 0x80 + c mod 64]
  else if c <=? 0xFFFF then [0xE0 + c / 4096; 0x80 + c / 64 mod 64; 0x80 + c mod 64]
  else [0xF0 + c / 262144; 0x80 + c / 4096 mod 64; 0x80 + c / 64 mod 64; 0x80 + c mod 64].
Proof.
  intros Hc. unfold EncodeUTF8Char. cbv zeta. rewrite !tail_byte. rewrite !ushr_val by lia. change (2 ^ 6) with 64.
  replace (c / 64 / 64 / 64) with (c / 262144) by zlia. replace (c / 64 / 64) with (c / 4096) by zlia.
  destruct (Z.leb_spec c 0x7F); [done|]. destruct (Z.leb_spec c 0x7FF); [|destruct (Z.leb_spec c 0xFFFF)].
  - by rewrite (lead_byte 6 5) by (change (2 ^ 5) with 32; zlia).
  - by rewrite (lead_byte 14 4) by (change (2 ^ 4) with 16; zlia).
  - by rewrite (lead_byte 30 3) by (change (2 ^ 3) with 8; zlia).
Qed.

Lemma utf8_ok c rest : 0 <= c <= 0x10FFFF -> IsSurrogate c = false ->
  length (EncodeUTF8Char c) = utf8_length c /\ Forall byte_ok (EncodeUTF8Char c) /\ utf8_decode (EncodeUTF8Char c ++ rest) = Some (c, rest).
Proof.
  intros Hc Hs. rewrite utf8_bytes by done. unfold utf8_length, utf8_decode.
  destruct (Z.leb_spec c 0x7F); [|destruct (Z.leb_spec c 0x7FF); [|destruct (Z.leb_spec c 0xFFFF)]]; cbn [app].
  - split_and!; [done|repeat constructor; unfold byte_ok; lia|]. by destruct (Z.ltb_spec c 0x80); [|lia].
  - split_and!; [done|repeat constructor; unfold byte_ok; zlia|]. destruct (Z.ltb_spec (192 + c / 64) 0x80); [zlia|].
    replace (in_range 0xC0 0xDF (192 + c / 64)) with true by (unfold in_range; zlia). cbn [take firstn drop skipn fold_left length forallb Nat.eqb].
    rewrite ?take_0, ?drop_0. cbn [fold_left length forallb Nat.eqb]. replace ((192 + c / 64 - 192) * 64 + (128 + c mod 64 - 128)) with c by zlia. rewrite Hs. unfold continuation, in_range.
    match goal with |- (if ?b then _ else _) = _ => replace b with true by zlia end. done.
  - split_and!; [done|repeat constructor; unfold byte_ok; zlia|]. destruct (Z.ltb_spec (224 + c / 4096) 0x80); [zlia|].
    replace (in_range 0xC0 0xDF (224 + c / 4096)) with false by (unfold in_range; zlia).
    replace (in_range 0xE0 0xEF (224 + c / 4096)) with true by (unfold in_range; zlia). cbn [take firstn drop skipn fold_left length forallb Nat.eqb].
    rewrite ?take_0, ?drop_0. cbn [fold_left length forallb Nat.eqb]. replace (((224 + c / 4096 - 224) * 64 + (128 + c / 64 mod 64 - 128)) * 64 + (128 + c mod 64 - 128)) with c by zlia. rewrite Hs. unfold continuation, in_range.
    match goal with |- (if ?b then _ else _) = _ => replace b with true by zlia end. done.
  - split_and!; [done|repeat constructor; unfold byte_ok; zlia|]. destruct (Z.ltb_spec (240 + c / 262144) 0x80); [zlia|].
    replace (in_range 0xC0 0xDF (240 + c / 262144)) with false by (unfold in_range; zlia).
    replace (in_range 0xE0 0xEF (240 + c / 262144)) with false by (unfold in_range; zlia). cbn [take firstn drop skipn fold_left length forallb Nat.eqb].
    rewrite ?take_0, ?drop_0. cbn [fold_left length forallb Nat.eqb]. replace ((((240 + c / 262144 - 240) * 64 + (128 + c / 4096 mod 64 - 128)) * 64 + (128 + c / 64 mod 64 - 128)) * 64 + (128 + c mod 64 - 128)) with c by zlia.
    rewrite Hs. unfold continuation, in_range. match goal with |- (if ?b then _ else _) = _ => replace b with true by zlia end. done.
Qed.

(** ** Decoding *)

(** What the decoder makes of a text. *)
Inductive unescaped (lv : bool) : list Z -> decode_error + list Z -> Prop :=
  | unescaped_nil : unescaped lv [] (inr [])
  | unescaped_plain c l out : c <> 92 -> unescaped lv l (inr out) -> unescaped lv (c :: l) (inr (c :: out))
  | unescaped_plain_error c l e : c <> 92 -> unescaped lv l (inl e) -> unescaped lv (c :: l) (inl e)
  | unescaped_escape l bytes rest out : escape lv l = inr (bytes, rest) -> unescaped lv rest (inr out) -> unescaped lv (92 :: l) (inr (bytes ++ out))
  | unescaped_escape_error l bytes rest e : escape lv l = inr (bytes, rest) -> unescaped lv rest (inl e) -> unescaped lv (92 :: l) (inl e)
  | unescaped_error l e : escape lv l = inl e -> unescaped lv (92 :: l) (inl e).

(** An escape reads some of the text and writes no more than it has read, the backslash included. *)
Definition reads (l out rest : list Z) : Prop := exists text, l = text ++ rest /\ text <> [] /\ (length out <= S (length text))%nat.

Lemma octal_more_text ch text rest ch' text' rest' : octal_more (ch, text, rest) = (ch', text', rest') ->
  text' ++ rest' = text ++ rest /\ (length text <= length text')%nat.
Proof.
  unfold octal_more. destruct rest as [|c rest]; [by intros [= <- <- <-]|]. destruct (is_octal_digit c); intros [= <- <- <-]; [|done].
  rewrite <- app_assoc, length_app. cbn [app length]. split; [done|lia].
Qed.

Lemma hex_loop_text rest : forall ch text ch' text' rest', hex_loop ch text rest = (ch', text', rest') ->
  text' ++ rest' = text ++ rest /\ (length text <= length text')%nat.
Proof.
  induction rest as [|c rest IH]; intros ch text ch' text' rest'; cbn [hex_loop]; [by intros [= <- <- <-]|].
  destruct (ascii_isxdigit c); [|by intros [= <- <- <-]]. intros H. apply IH in H as (-> & H). rewrite <- app_assoc. rewrite length_app in H. split; [done|lia].
Qed.

Lemma rune_loop_text n limit digits rest : forall rune text rune' text' rest', rune_loop n limit digits rune text rest = inr (rune', text', rest') ->
  text' ++ rest' = text ++ rest /\ length text' = (length text + n)%nat.
Proof.
  revert rest. induction n as [|n IH]; intros rest rune text rune' text' rest'; cbn [rune_loop]; [intros [= <- <- <-]; split; [done|lia]|].
  destruct rest as [|c rest]; [done|]. destruct (ascii_isxdigit c); [|done]. cbv zeta. destruct (limit && _); [done|].
  intros H. apply IH in H as (-> & ->). rewrite <- app_assoc, length_app. cbn [length]. split; [done|lia].
Qed.

Lemma utf8_length_max c : (length (EncodeUTF8Char c) <= 4)%nat.
Proof. unfold EncodeUTF8Char. destruct (c <=? 0x7F); [cbn; lia|]. destruct (c <=? 0x7FF); [cbn; lia|]. destruct (c <=? 0xFFFF); cbn [length]; lia. Qed.

Lemma escape_reads lv l out rest : escape lv l = inr (out, rest) -> reads l out rest.
Proof.
  assert (Hgo : forall text c t r o, text ++ r = [c] ++ t -> (1 <= length text)%nat -> (length o <= S (length text))%nat -> reads (c :: t) o r).
  { intros text c t r o E Hn Ho. exists text. split; [by symmetry|]. split; [by destruct text; cbn in Hn; [lia|]|done]. }
  unfold escape. destruct l as [|c l]; [done|]. destruct (letter_escape c); [intros [= <- <-]; by apply (Hgo [c]); [done|cbn; lia|cbn; lia]|].
  destruct (is_octal_digit c).
  { destruct (octal_more (c - 48, [c], l)) as [[ch1 text1] rest1] eqn:E1. destruct (octal_more (ch1, text1, rest1)) as [[ch2 text2] rest2] eqn:E2.
    apply octal_more_text in E1 as (E1 & H1). apply octal_more_text in E2 as (E2 & H2). cbn [length] in H1.
    destruct (0xff <? ch2); [done|]. destruct (_ && lv); intros [= <- <-]; apply (Hgo text2); try congruence; cbn [length]; lia. }
  destruct ((c =? 120) || (c =? 88)).
  { destruct l as [|x l']; [done|]. destruct (negb (ascii_isxdigit x)); [done|].
    destruct (hex_loop 0 [c] (x :: l')) as [[ch text] rest1] eqn:E. apply hex_loop_text in E as (E & H). cbn [length] in H.
    destruct (0xff <? ch); [done|]. destruct (_ && lv); intros [= <- <-]; apply (Hgo text); try congruence; cbn [length]; lia. }
  destruct ((c =? 117) || (c =? 85)); [|done]. cbv zeta. destruct (_ <? _)%nat; [done|].
  destruct (rune_loop _ _ _ _ _ _) as [|[[rune text] rest1]] eqn:E; [done|]. apply rune_loop_text in E as (E & H). cbn [length] in H.
  assert (Hlen : (5 <= length text)%nat) by (destruct (c =? 117); lia). pose proof (utf8_length_max rune).
  destruct (_ && lv); [|destruct (IsSurrogate rune); [done|]]; intros [= <- <-]; apply (Hgo text); try congruence; cbn [length]; lia.
Qed.

Lemma unescaped_length lv l r : unescaped lv l r -> forall out, r = inr out -> (length out <= length l)%nat.
Proof.
  induction 1 as [|c l out Hc H IH|c l e Hc H IH|l bytes rest out He H IH|l bytes rest e He H IH|l e He]; intros out' [= <-]; cbn [length].
  - lia.
  - specialize (IH _ eq_refl). lia.
  - specialize (IH _ eq_refl). destruct (escape_reads _ _ _ _ He) as (text & -> & _ & Hn). rewrite !length_app. lia.
Qed.

Lemma unescaped_exists lv : forall n l, (length l <= n)%nat -> exists r, unescaped lv l r.
Proof.
  induction n as [|n IH]; intros l Hn; (destruct l as [|c l]; [by exists (inr []); constructor|]); [cbn in Hn; lia|]. cbn [length] in Hn.
  destruct (Z.eq_dec c 92) as [->|Hc].
  - destruct (escape lv l) as [e|[bytes rest]] eqn:E; [eexists; by apply unescaped_error|].
    destruct (IH rest) as (r & Hr); [|destruct r as [e|out]; eexists; [by eapply unescaped_escape_error|by eapply unescaped_escape]].
    destruct (escape_reads _ _ _ _ E) as (text & -> & Hne & _). rewrite length_app in Hn. destruct text; [done|]. cbn [length] in Hn. lia.
  - destruct (IH l ltac:(lia)) as (r & Hr). destruct r as [e|out]; eexists; [by apply unescaped_plain_error|by apply unescaped_plain].
Qed.

Lemma unescaped_unique lv l r1 : unescaped lv l r1 -> forall r2, unescaped lv l r2 -> r1 = r2.
Proof.
  induction 1 as [|c l out Hc H IH|c l e Hc H IH|l bytes rest out He H IH|l bytes rest e He H IH|l e He]; intros r2 H2; inversion H2; subst; try done; try congruence.
  all: repeat match goal with IH : forall r, unescaped _ _ r -> _, H : unescaped _ _ _ |- _ => apply IH in H end; simplify_eq; try done.
  all: match goal with H1 : escape ?lv ?l = _, H2 : escape ?lv ?l = _ |- _ => rewrite H1 in H2; simplify_eq end.
  all: match goal with IH : forall r, unescaped _ _ r -> _, H : unescaped _ _ _ |- _ => apply IH in H end; by simplify_eq.
Qed.

(** A write inside the buffer. *)
Lemma put_spec d bytes dest : (d + length bytes <= length dest)%nat -> exists dest', put d bytes dest = Some dest' /\
  length dest' = length dest /\ take (d + length bytes) dest' = take d dest ++ bytes /\
  (forall q, (d + length bytes <= q)%nat -> drop q dest' = drop q dest).
Proof.
  intros Hd. unfold put. rewrite decide_True by done. eexists. split; [done|]. assert (Ht : length (take d dest) = d) by (rewrite length_take; lia).
  split_and!.
  - rewrite !length_app, length_drop, Ht. lia.
  - rewrite app_assoc, take_app_le by (rewrite length_app; lia). rewrite take_ge; [done|rewrite length_app; lia].
  - intros q Hq. rewrite app_assoc, drop_app_ge by (rewrite length_app; lia). rewrite drop_drop. f_equal. rewrite length_app. lia.
Qed.

Section UnescapeCorrect.
Context (lv same : bool) (source : list Z).

(** A write behind the read index leaves what is still to be read. *)
Lemma write_behind p d n bytes rest dest : drop (p + n) (source_of same source dest) = rest -> (same = true -> d <= p)%nat ->
  (length bytes <= n)%nat -> (d + length bytes <= length dest)%nat ->
  exists dest', put d bytes dest = Some dest' /\ length dest' = length dest /\ take (d + length bytes) dest' = take d dest ++ bytes /\
    drop (p + n) (source_of same source dest') = rest /\ length (source_of same source dest') = length (source_of same source dest).
Proof.
  intros Hp Hs Hn Hd. destruct (put_spec d bytes dest Hd) as (dest' & E & Hl & Ht & Hdr). exists dest'.
  split; [done|]. split; [done|]. split; [done|]. unfold source_of in *. destruct same; [|done]. specialize (Hs eq_refl). by rewrite Hdr by lia.
Qed.

(** What a run leaves in the destination. *)
Definition left_in (d : nat) (dest : list Z) (r : decode_error + list Z) (r' : decode_error + (nat * list Z)) : Prop :=
  match r with
  | inl e => r' = inl e
  | inr out => exists dest', r' = inr ((d + length out)%nat, dest') /\ take (d + length out) dest' = take d dest ++ out
  end.

Lemma left_in_step d dest dest1 bytes r r' : take (d + length bytes) dest1 = take d dest ++ bytes ->
  left_in (d + length bytes) dest1 r r' -> left_in d dest (match r with inl e => inl e | inr out => inr (bytes ++ out) end) r'.
Proof.
  intros Ht. destruct r as [e|out]; [done|]. intros (dest' & -> & H). exists dest'. rewrite length_app, Nat.add_assoc. split; [done|].
  by rewrite H, Ht, app_assoc.
Qed.

Lemma unescape_loop_ok l r : unescaped lv l r -> forall fuel p d dest, (length l < fuel)%nat -> drop p (source_of same source dest) = l ->
  (same = true -> d <= p)%nat -> (d + length l <= length dest)%nat ->
  exists r', unescape_loop lv same source fuel p d dest = Some r' /\ left_in d dest r r'.
Proof.
  assert (Hplain : forall c l r fuel p d dest, c <> 92 -> drop p (source_of same source dest) = c :: l -> (same = true -> d <= p)%nat ->
    (d + S (length l) <= length dest)%nat -> (forall dest1, drop (S p) (source_of same source dest1) = l -> length dest1 = length dest ->
      exists r', unescape_loop lv same source fuel (S p) (S d) dest1 = Some r' /\ left_in (S d) dest1 r r') ->
    exists r', unescape_loop lv same source (S fuel) p d dest = Some r' /\ left_in d dest (match r with inl e => inl e | inr out => inr (c :: out) end) r').
  { intros c l0 r0 fuel p d dest Hc Hp Hs Hd Hk. cbn [unescape_loop]. rewrite Hp. destruct (Z.eqb_spec c 92); [done|]. cbn [negb].
    destruct (write_behind p d 1 [c] l0 dest) as (dest1 & -> & Hl & Ht & Hr & _); [by rewrite <- drop_drop, Hp|done|done|cbn [length]; lia|].
    rewrite bind_some. rewrite Nat.add_1_r in Hr. destruct (Hk dest1 Hr Hl) as (r' & E & Hleft). exists r'. split; [done|].
    apply (left_in_step d dest dest1 [c] r0 r' Ht). by rewrite Nat.add_1_r. }
  assert (Hescape : forall l bytes rest r fuel p d dest, escape lv l = inr (bytes, rest) -> drop p (source_of same source dest) = 92 :: l -> (same = true -> d <= p)%nat ->
    (d + S (length l) <= length dest)%nat -> (length l < fuel)%nat ->
    (forall p1 d1 dest1, drop p1 (source_of same source dest1) = rest -> (length rest < fuel)%nat -> (same = true -> d1 <= p1)%nat -> (d1 + length rest <= length dest1)%nat ->
      exists r', unescape_loop lv same source fuel p1 d1 dest1 = Some r' /\ left_in d1 dest1 r r') ->
    exists r', unescape_loop lv same source (S fuel) p d dest = Some r' /\ left_in d dest (match r with inl e => inl e | inr out => inr (bytes ++ out) end) r').
  { intros l0 bytes rest r0 fuel p d dest He Hp Hs Hd Hf Hk. cbn [unescape_loop]. rewrite Hp. cbn [Z.eqb Pos.eqb negb]. rewrite He.
    destruct (escape_reads _ _ _ _ He) as (text & -> & Hne & Hn). rewrite length_app in *.
    destruct (write_behind p d (S (length text)) bytes rest dest) as (dest1 & -> & Hl & Ht & Hr & Hlen); [|done|done|lia|].
    { rewrite <- drop_drop, Hp. cbn [drop skipn]. apply drop_app_length. }
    rewrite bind_some. assert (Hsrc : (length (source_of same source dest) = p + S (length text + length rest))%nat).
    { apply (f_equal length) in Hp. rewrite length_drop in Hp. cbn [length] in Hp. rewrite length_app in Hp. lia. }
    replace (length (source_of same source dest1) - length rest)%nat with (p + S (length text))%nat by lia.
    destruct (Hk (p + S (length text))%nat (d + length bytes)%nat dest1) as (r' & E & Hleft); [done|lia|intros Hsm; specialize (Hs Hsm); lia|lia|].
    exists r'. split; [done|]. by apply (left_in_step d dest dest1 bytes r0 r' Ht). }
  intros Hu. induction Hu as [|c l out Hc Hu IH|c l e Hc Hu IH|l bytes rest out He Hu IH|l bytes rest e He Hu IH|l e He]; intros fuel p d dest Hf Hp Hs Hd;
    (destruct fuel as [|fuel]; [cbn [length] in Hf; lia|]); cbn [length] in Hf, Hd.
  - cbn [unescape_loop]. rewrite Hp. eexists. split; [done|]. exists dest. by rewrite Nat.add_0_r, app_nil_r.
  - apply (Hplain c l (inr out)); [done|done|done|lia|]. intros dest1 Hd1 Hl1. apply IH; [lia|done|intros Hsm; specialize (Hs Hsm); lia|lia].
  - apply (Hplain c l (inl e)); [done|done|done|lia|]. intros dest1 Hd1 Hl1. apply IH; [lia|done|intros Hsm; specialize (Hs Hsm); lia|lia].
  - apply (Hescape l bytes rest (inr out)); [done|done|done|lia|lia|]. intros p1 d1 dest1 H1 H2 H3 H4. by apply IH.
  - apply (Hescape l bytes rest (inl e)); [done|done|done|lia|lia|]. intros p1 d1 dest1 H1 H2 H3 H4. by apply IH.
  - cbn [unescape_loop]. rewrite Hp. cbn [Z.eqb Pos.eqb negb]. rewrite He. by exists (inl e).
Qed.
End UnescapeCorrect.

(** The characters skipped at the start stay. *)
Lemma skip_plain_split l : exists rest, l = take (skip_plain l) l ++ rest /\ Forall (fun c => c <> 92) (take (skip_plain l) l) /\ (skip_plain l <= length l)%nat.
Proof.
  exists (drop (skip_plain l) l). rewrite take_drop. split; [done|]. induction l as [|c l (IH1 & IH2)]; [done|]. cbn [skip_plain].
  destruct (Z.eqb_spec c 92); cbn [negb take firstn length]; [split; [constructor|lia]|split; [by constructor|lia]].
Qed.

Lemma unescaped_prefix lv pre l r : Forall (fun c => c <> 92) pre -> unescaped lv l r ->
  unescaped lv (pre ++ l) (match r with inl e => inl e | inr out => inr (pre ++ out) end).
Proof.
  intros Hpre Hr. induction Hpre as [|c pre Hc Hpre IH]; [by destruct r|]. cbn [app]. by destruct r as [e|out]; [apply unescaped_plain_error|apply unescaped_plain].
Qed.

Lemma c_decode_ok same source uninit r : length uninit = length source -> unescaped false source r -> c_decode same source uninit = Some r.
Proof.
  intros Hl Hu. unfold c_decode, CUnescapeInternal. destruct same.
  - destruct (skip_plain_split source) as (rest & E & Hpre & Hn). destruct (unescaped_exists false _ rest (Nat.le_refl _)) as (r1 & Hr1).
    pose proof (unescaped_unique _ _ _ Hu _ (eq_ind_r (fun s => unescaped false s _) (unescaped_prefix false _ rest r1 Hpre Hr1) E)) as ->.
    cbn [source_of]. assert (Hrest : drop (skip_plain source) source = rest) by (rewrite E at 2; apply drop_app_length'; rewrite length_take; lia).
    assert (Hlen : (length rest <= length source)%nat) by (rewrite <- Hrest, length_drop; lia).
    destruct (unescape_loop_ok false true source rest r1 Hr1 (S (length source)) (skip_plain source) (skip_plain source) source) as (r' & -> & Hleft);
      [lia|done|done|rewrite <- Hrest, length_drop; lia|].
    rewrite bind_some. destruct r1 as [e|out]; cbn [left_in] in Hleft; [by subst|]. destruct Hleft as (dest' & -> & Ht). by rewrite Ht.
  - cbn [source_of]. destruct (unescape_loop_ok false false source source r Hu (S (length source)) 0 0 uninit) as (r' & -> & Hleft); [lia|done|done|lia|].
    rewrite bind_some. destruct r as [e|out]; cbn [left_in] in Hleft; [by subst|]. destruct Hleft as (dest' & -> & Ht). by rewrite Ht.
Qed.

(** *** Digits of escapes *)

Definition xdigit (c : Z) : Prop := ascii_isxdigit c = true.

Lemma xdigit_value c : byte_ok c -> xdigit c -> hex_digit_to_int c = digit_of c /\ 0 <= digit_of c < 16.
Proof.
  intros Hc Hx. unfold xdigit in Hx. pose proof (byte_forall (fun c => implb (ascii_isxdigit c) ((hex_digit_to_int c =? digit_of c) && (0 <=? digit_of c) && (digit_of c <? 16)))
    ltac:(by vm_compute) c Hc) as H. cbv beta in H. rewrite Hx in H. cbn [implb] in H. rewrite !andb_true_iff in H. lia.
Qed.

Lemma digit_step ch d : 0 <= d < 16 -> uadd 32 (ushl 32 ch 4) d = wrap 32 (ch * 16 + d).
Proof. intros Hd. unfold uadd, ushl. rewrite Z.shiftl_mul_pow2 by lia. change (2 ^ 4) with 16. by rewrite wrap_add_l. Qed.

Lemma horner_cons v b d ds : horner v b (d :: ds) = horner (v * b + d) b ds.
Proof. done. Qed.

Lemma horner_wrap ds : forall v, wrap 32 (horner (wrap 32 v) 16 ds) = wrap 32 (horner v 16 ds).
Proof.
  induction ds as [|d ds IH]; intros v; [unfold horner; cbn [fold_left]; unfold wrap; by rewrite Z.mod_mod|].
  rewrite !horner_cons, <- IH, <- (IH (v * 16 + d)). do 2 f_equal. by rewrite <- wrap_add_l, wrap_mul_l, wrap_add_l.
Qed.

Definition ends_digits (rest : list Z) : Prop := forall c, head rest = Some c -> ascii_isxdigit c = false.

Lemma hex_loop_ok ds rest : Forall byte_ok ds -> Forall xdigit ds -> ends_digits rest -> forall ch text, 0 <= ch < 2 ^ 32 ->
  hex_loop ch text (ds ++ rest) = (wrap 32 (horner ch 16 (digit_of <$> ds)), text ++ ds, rest).
Proof.
  intros Hb Hx Hr. induction ds as [|c ds IH]; intros ch text Hch; cbn [app fmap list_fmap].
  - rewrite app_nil_r. unfold horner. cbn [fold_left]. rewrite wrap_small by done. destruct rest as [|c rest]; [done|]. cbn [hex_loop]. by rewrite (Hr c eq_refl).
  - inversion Hb as [|? ? Hbc Hbs]; subst. inversion Hx as [|? ? Hxc Hxs]; subst. cbn [hex_loop]. rewrite Hxc.
    destruct (xdigit_value c Hbc Hxc) as (-> & Hd). rewrite digit_step by done. rewrite IH by (done || apply wrap_range; lia).
    rewrite horner_wrap, <- app_assoc. done.
Qed.

Lemma rune_loop_ok ds rest : Forall byte_ok ds -> Forall xdigit ds -> forall limit digits rune text, 0 <= rune ->
  horner rune 16 (digit_of <$> ds) <= 0x10FFFF ->
  rune_loop (length ds) limit digits rune text (ds ++ rest) = inr (horner rune 16 (digit_of <$> ds), text ++ ds, rest).
Proof.
  intros Hb Hx limit digits. induction ds as [|c ds IH]; intros rune text Hr Hv; cbn [length rune_loop app fmap list_fmap].
  - by rewrite app_nil_r.
  - inversion Hb as [|? ? Hbc Hbs]; subst. inversion Hx as [|? ? Hxc Hxs]; subst. rewrite Hxc. destruct (xdigit_value c Hbc Hxc) as (-> & Hd). cbv zeta.
    cbn [fmap list_fmap] in Hv. rewrite horner_cons in Hv.
    assert (Hds : Forall (fun d => 0 <= d < 16) (digit_of <$> ds)).
    { apply Forall_fmap. apply List.Forall_forall. intros x Hin. rewrite List.Forall_forall in Hbs, Hxs. apply (xdigit_value x); [by apply Hbs|by apply Hxs]. }
    pose proof (horner_ge 16 _ ltac:(lia) Hds (rune * 16 + digit_of c) ltac:(lia)) as Hge. rewrite digit_step by done. rewrite wrap_small by lia.
    replace (0x10FFFF <? rune * 16 + digit_of c) with false by lia. rewrite andb_false_r. rewrite IH; [|done|done|lia|done]. by rewrite <- app_assoc.
Qed.

(** *** Single escapes *)

Lemma octal_escape d1 d2 d3 rest : 0 <= d1 <= 3 -> 0 <= d2 <= 7 -> 0 <= d3 <= 7 ->
  escape false ([48 + d1; 48 + d2; 48 + d3] ++ rest) = inr ([64 * d1 + 8 * d2 + d3], rest).
Proof.
  intros H1 H2 H3. cbn [app]. assert (Hl : letter_escape (48 + d1) = None /\ is_octal_digit (48 + d1) = true).
  { assert (d1 = 0 \/ d1 = 1 \/ d1 = 2 \/ d1 = 3) as [-> | [-> | [-> | ->]]] by lia; done. }
  destruct Hl as (Hl & Ho). unfold escape. rewrite Hl, Ho. unfold octal_more at 2. assert (Ho2 : is_octal_digit (48 + d2) = true) by (unfold is_octal_digit; lia).
  assert (Ho3 : is_octal_digit (48 + d3) = true) by (unfold is_octal_digit; lia). rewrite Ho2. unfold octal_more. rewrite Ho3.
  assert (Hsmall : forall x y, 0 <= x <= 100 -> 0 <= y <= 7 -> uadd 32 (umul 32 x 8) y = 8 * x + y).
  { intros x y Hx Hy. unfold uadd, umul. rewrite (wrap_small 32 (x * 8)) by lia. rewrite wrap_small by lia. lia. }
  rewrite !Hsmall by (rewrite ?Hsmall; lia). replace (_ <? _) with false by lia. cbn [andb]. rewrite andb_false_r. do 3 f_equal. lia.
Qed.

Lemma hex_escape lv x ds rest : x = 120 \/ x = 88 -> ds <> [] -> Forall byte_ok ds -> Forall xdigit ds -> ends_digits rest ->
  let v := text_value 16 (digit_of <$> ds) mod 2 ^ 32 in
  escape lv (x :: ds ++ rest) = if 0xff <? v then inl (Exceeds0xff (x :: ds)) else if (v =? 0) && lv then inr (92 :: x :: ds, rest) else inr ([v], rest).
Proof.
  intros Hx Hne Hb Hd Hr v. unfold escape. destruct ds as [|c ds]; [done|]. cbn [app].
  assert (Hfirst : letter_escape x = None /\ is_octal_digit x = false /\ (x =? 120) || (x =? 88) = true) by (by destruct Hx as [-> | ->]).
  destruct Hfirst as (-> & -> & ->). inversion Hd as [|? ? Hxc _]; subst. rewrite Hxc. cbn [negb].
  pose proof (hex_loop_ok (c :: ds) rest Hb Hd Hr 0 [x] ltac:(lia)) as H. cbn [app] in H. rewrite H. done.
Qed.

Lemma unicode_escape lv x ds rest : (x = 117 /\ length ds = 4%nat) \/ (x = 85 /\ length ds = 8%nat) -> Forall byte_ok ds -> Forall xdigit ds ->
  let v := text_value 16 (digit_of <$> ds) in v <= 0x10FFFF -> IsSurrogate v = false ->
  escape lv (x :: ds ++ rest) = if (v =? 0) && lv then inr (92 :: x :: ds, rest) else inr (EncodeUTF8Char v, rest).
Proof.
  intros Hx Hb Hd v Hv Hs. unfold escape. assert (Hfirst : letter_escape x = None /\ is_octal_digit x = false /\ (x =? 120) || (x =? 88) = false /\
    (x =? 117) || (x =? 85) = true /\ length ds = (if x =? 117 then 4%nat else 8%nat)) by (by destruct Hx as [(-> & ->)|(-> & ->)]).
  destruct Hfirst as (-> & -> & -> & -> & Hn). cbv zeta. rewrite length_app. rewrite <- Hn. destruct (Nat.ltb_spec (length ds + length rest) (length ds)); [lia|].
  rewrite rune_loop_ok by (done || lia). rewrite horner_text_value. fold v. by rewrite Hs.
Qed.

(** ** Encoding *)

(** One character of [CEscapeInternal]. *)
Definition hex_escaped (use_hex utf8_safe last : bool) (c : Z) : bool :=
  negb ((c =? 10) || (c =? 13) || (c =? 9) || (c =? 34) || (c =? 39) || (c =? 92)) &&
  ((negb utf8_safe || (c <? 0x80)) && (negb (ascii_isprint c) || (last && ascii_isxdigit c))) && use_hex.
Definition char_text (use_hex utf8_safe last : bool) (c : Z) : list Z := escape_loop use_hex utf8_safe last [c].

Lemma escape_loop_cons use_hex utf8_safe last c src : escape_loop use_hex utf8_safe last (c :: src) =
  char_text use_hex utf8_safe last c ++ escape_loop use_hex utf8_safe (hex_escaped use_hex utf8_safe last c) src.
Proof.
  unfold char_text, hex_escaped. cbn [escape_loop].
  destruct (c =? 10); [done|]. destruct (c =? 13); [done|]. destruct (c =? 9); [done|]. destruct (c =? 34); [done|].
  destruct (c =? 39); [done|]. destruct (c =? 92); [done|]. cbn [orb negb andb]. destruct ((negb utf8_safe || (c <? 0x80)) && _); [|done].
  destruct use_hex; done.
Qed.

(** The shapes of the text of a character. *)
Inductive text_shape (use_hex : bool) (c : Z) : bool -> list Z -> Prop :=
  | shape_plain : c <> 92 -> text_shape use_hex c false [c]
  | shape_letter l : letter_escape l = Some c -> text_shape use_hex c false [92; l]
  | shape_octal d1 d2 d3 : 0 <= d1 <= 3 -> 0 <= d2 <= 7 -> 0 <= d3 <= 7 -> c = 64 * d1 + 8 * d2 + d3 ->
      text_shape use_hex c false [92; 48 + d1; 48 + d2; 48 + d3]
  | shape_hex h k : byte_ok h -> byte_ok k -> xdigit h -> xdigit k -> digit_of h * 16 + digit_of k = c -> text_shape use_hex c true [92; 120; h; k].

Lemma hex_chars c : byte_ok c -> byte_ok (at_byte kHexChar (c / 16)) /\ byte_ok (at_byte kHexChar (c mod 16)) /\
  xdigit (at_byte kHexChar (c / 16)) /\ xdigit (at_byte kHexChar (c mod 16)) /\
  digit_of (at_byte kHexChar (c / 16)) * 16 + digit_of (at_byte kHexChar (c mod 16)) = c.
Proof.
  intros Hc. pose proof (byte_forall (fun c => let h := at_byte kHexChar (c / 16) in let k := at_byte kHexChar (c mod 16) in
    (0 <=? h) && (h <? 256) && (0 <=? k) && (k <? 256) && ascii_isxdigit h && ascii_isxdigit k && (digit_of h * 16 + digit_of k =? c)) ltac:(by vm_compute) c Hc) as H.
  cbv zeta beta in H. rewrite !andb_true_iff in H. unfold byte_ok, xdigit. destruct_and! H. split_and!; first [assumption|lia].
Qed.

Lemma octal_chars c : byte_ok c -> at_byte kHexChar (c / 64) = 48 + c / 64 /\ at_byte kHexChar (c mod 64 / 8) = 48 + c mod 64 / 8 /\
  at_byte kHexChar (c mod 8) = 48 + c mod 8.
Proof.
  intros Hc. pose proof (byte_forall (fun c => (at_byte kHexChar (c / 64) =? 48 + c / 64) && (at_byte kHexChar (c mod 64 / 8) =? 48 + c mod 64 / 8) &&
    (at_byte kHexChar (c mod 8) =? 48 + c mod 8)) ltac:(by vm_compute) c Hc) as H. cbv beta in H. rewrite !andb_true_iff in H. lia.
Qed.

Lemma char_text_shape use_hex utf8_safe last c : byte_ok c ->
  text_shape use_hex c (hex_escaped use_hex utf8_safe last c) (char_text use_hex utf8_safe last c).
Proof.
  intros Hc. unfold char_text, hex_escaped. cbn [escape_loop]. rewrite ?app_nil_r.
  destruct (Z.eqb_spec c 10) as [->|]; [by apply (shape_letter _ 10 110)|]. destruct (Z.eqb_spec c 13) as [->|]; [by apply (shape_letter _ 13 114)|].
  destruct (Z.eqb_spec c 9) as [->|]; [by apply (shape_letter _ 9 116)|]. destruct (Z.eqb_spec c 34) as [->|]; [by apply (shape_letter _ 34 34)|].
  destruct (Z.eqb_spec c 39) as [->|]; [by apply (shape_letter _ 39 39)|]. destruct (Z.eqb_spec c 92) as [->|]; [by apply (shape_letter _ 92 92)|].
  cbn [orb negb andb]. destruct ((negb utf8_safe || (c <? 0x80)) && _); [|by apply shape_plain]. destruct use_hex.
  - destruct (hex_chars c Hc) as (H1 & H2 & H3 & H4 & H5). by apply shape_hex.
  - destruct (octal_chars c Hc) as (-> & -> & ->). unfold byte_ok in Hc. apply shape_octal; zlia.
Qed.

(** After a hexadecimal escape the text does not go on with a hexadecimal digit. *)
Lemma escape_loop_ends utf8_safe src : Forall byte_ok src -> ends_digits (escape_loop true utf8_safe true src).
Proof.
  intros Hsrc. destruct src as [|c src]; [done|]. inversion Hsrc as [|? ? Hc _]; subst. intros x. cbn [escape_loop].
  repeat match goal with |- context [if ?c =? ?k then _ else _] => destruct (Z.eqb_spec c k); [by intros [= <-]|] end.
  destruct ((negb utf8_safe || (c <? 0x80)) && (negb (ascii_isprint c) || (true && ascii_isxdigit c))) eqn:E; [by intros [= <-]|]. intros [= <-].
  destruct (ascii_isxdigit c) eqn:Ex; [|done]. exfalso. cbn [andb] in E. rewrite orb_true_r, andb_true_r in E. rewrite isxdigit_spec in Ex by done.
  unfold in_range in Ex. destruct utf8_safe; cbn [negb orb] in E; [|done]. lia.
Qed.

Lemma unescaped_text lv use_hex c hex text rest r : text_shape use_hex c hex text -> lv = false -> byte_ok c -> (hex = true -> ends_digits rest) ->
  unescaped lv rest (inr r) -> unescaped lv (text ++ rest) (inr (c :: r)).
Proof.
  intros Ht -> Hc He Hr. destruct Ht as [Hp|l Hl|d1 d2 d3 H1 H2 H3 ->|h k Hh Hk Hxh Hxk Hv]; cbn [app].
  - by apply unescaped_plain.
  - apply (unescaped_escape false (l :: rest) [c] rest r); [|done]. unfold escape. by rewrite Hl.
  - apply (unescaped_escape false _ [64 * d1 + 8 * d2 + d3] rest r); [|done]. by apply (octal_escape d1 d2 d3 rest).
  - apply (unescaped_escape false _ [c] rest r); [|done]. assert (Hb : Forall byte_ok [h; k]) by (constructor; [done|constructor; [done|constructor]]).
    assert (Hx : Forall xdigit [h; k]) by (constructor; [done|constructor; [done|constructor]]).
    pose proof (hex_escape false 120 [h; k] rest ltac:(by left) ltac:(done) Hb Hx (He eq_refl)) as H. cbn [app fmap list_fmap] in H. cbv zeta in H.
    assert (Ev : text_value 16 [digit_of h; digit_of k] mod 2 ^ 32 = c).
    { unfold text_value. cbn [fold_left]. unfold byte_ok in Hc. rewrite Z.mod_small by lia. lia. }
    rewrite Ev in H. rewrite H. unfold byte_ok in Hc. destruct (Z.ltb_spec 0xff c); [lia|]. by rewrite andb_false_r.
Qed.

Lemma escape_unescaped use_hex utf8_safe src : Forall byte_ok src -> forall last, unescaped false (escape_loop use_hex utf8_safe last src) (inr src).
Proof.
  induction 1 as [|c src Hc Hsrc IH]; intros last; [constructor|]. rewrite escape_loop_cons.
  apply (unescaped_text false use_hex c (hex_escaped use_hex utf8_safe last c)); [by apply char_text_shape|done|done| |apply IH].
  intros Hh. rewrite Hh. destruct use_hex; [by apply escape_loop_ends|]. unfold hex_escaped in Hh. by rewrite andb_false_r in Hh.
Qed.

(** *** The length first *)

Lemma octal_text c : byte_ok c -> char_text false false false c = escaped_char c /\ Z.of_nat (length (escaped_char c)) = at_byte kCEscapedLen c /\
  1 <= at_byte kCEscapedLen c <= 4 /\ (at_byte kCEscapedLen c = 1 -> escaped_char c = [c]).
Proof.
  intros Hc. pose proof (byte_forall (fun c => bool_decide (char_text false false false c = escaped_char c) && (Z.of_nat (length (escaped_char c)) =? at_byte kCEscapedLen c) &&
    (1 <=? at_byte kCEscapedLen c) && (at_byte kCEscapedLen c <=? 4) && implb (at_byte kCEscapedLen c =? 1) (bool_decide (escaped_char c = [c])))
    ltac:(by vm_compute) c Hc) as H. cbv beta in H. rewrite !andb_true_iff, bool_decide_eq_true in H. destruct H as ((((H1 & H2) & H3) & H4) & H5).
  split; [done|]. split; [lia|]. split; [lia|]. intros E. rewrite E in H5. cbn in H5. by apply bool_decide_eq_true in H5.
Qed.

Definition octal_escaped (src : list Z) : list Z := concat (escaped_char <$> src).

Lemma octal_escaped_loop src : Forall byte_ok src -> escape_loop false false false src = octal_escaped src.
Proof.
  unfold octal_escaped. induction 1 as [|c src Hc Hsrc IH]; [done|]. rewrite escape_loop_cons. cbn [fmap list_fmap concat].
  destruct (octal_text c Hc) as (-> & _). f_equal. rewrite <- IH. unfold hex_escaped. by rewrite andb_false_r.
Qed.

Lemma octal_escaped_length src : Forall byte_ok src -> (length src <= length (octal_escaped src) <= 4 * length src)%nat /\
  (length (octal_escaped src) = length src -> octal_escaped src = src).
Proof.
  unfold octal_escaped. induction 1 as [|c src Hc Hsrc (IH1 & IH2)]; [done|]. cbn [fmap list_fmap concat length]. rewrite length_app.
  destruct (octal_text c Hc) as (_ & H2 & H3 & H4). split; [lia|]. intros E. rewrite H4 by lia. cbn [app]. f_equal. apply IH2. rewrite H4 in E by lia. cbn [length] in E. lia.
Qed.

Lemma CEscapedLength_ok src : Forall byte_ok src -> Z.of_nat (length src) < 2 ^ 62 -> CEscapedLength src = Some (Z.of_nat (length (octal_escaped src))).
Proof.
  intros Hb Hn. unfold CEscapedLength. change ((2 ^ 64 - 1) / 4) with (2 ^ 62 - 1). rewrite Z.min_l by lia. cbv zeta. rewrite Nat2Z.id, drop_all, firstn_all. cbn [checked_length].
  f_equal. assert (H : forall n, 0 <= n -> n + 4 * Z.of_nat (length src) < 2 ^ 64 ->
    fold_left (fun n c => uadd 64 n (at_byte kCEscapedLen c)) src n = n + Z.of_nat (length (octal_escaped src))).
  { clear Hn. induction Hb as [|c src Hc Hb IH]; intros n Hn0 Hn; [cbn; lia|]. cbn [fold_left]. unfold octal_escaped in *. cbn [fmap list_fmap concat length] in *. rewrite length_app.
    destruct (octal_text c Hc) as (_ & H2 & H3 & _). unfold uadd at 2. rewrite wrap_small by lia. rewrite IH by lia. lia. }
  rewrite H by lia. lia.
Qed.

Lemma append_loop_ok src : forall ptr dest, (ptr + length (octal_escaped src) = length dest)%nat ->
  append_loop src ptr dest = Some (take ptr dest ++ octal_escaped src).
Proof.
  unfold octal_escaped. induction src as [|c src IH]; intros ptr dest Hn; cbn [append_loop fmap list_fmap concat length] in *.
  - rewrite app_nil_r, take_ge by lia. done.
  - rewrite length_app in Hn. destruct (put_spec ptr (escaped_char c) dest) as (dest1 & -> & Hl & Ht & _); [lia|]. rewrite bind_some, IH by lia.
    by rewrite Ht, <- app_assoc.
Qed.

Lemma append_internal_ok src dest uninit : Forall byte_ok src -> Z.of_nat (length src) < 2 ^ 62 -> Z.of_nat (length dest) + 4 * Z.of_nat (length src) < 2 ^ 64 ->
  CEscapeAndAppendInternal src dest uninit = Some (dest ++ CEscapeInternal src false false).
Proof.
  intros Hb Hn Hd. unfold CEscapeAndAppendInternal, CEscapeInternal. rewrite CEscapedLength_ok, bind_some by done. rewrite octal_escaped_loop by done.
  destruct (octal_escaped_length src Hb) as (Hlen & Hsame). destruct (Z.eqb_spec (Z.of_nat (length (octal_escaped src))) (Z.of_nat (length src))) as [E|E].
  - rewrite Hsame by lia. done.
  - cbv zeta. destruct (Z.leb_spec (Z.of_nat (length dest)) (2 ^ 64 - 1 - Z.of_nat (length (octal_escaped src)))); [|lia]. cbn [negb].
    rewrite append_loop_ok; [by rewrite take_app_length|]. rewrite length_app, length_replicate. lia.
Qed.

(** Without UTF-8 safety the characters are printable. *)
Lemma char_text_printable use_hex last c : byte_ok c -> Forall (fun c => ascii_isprint c = true) (char_text use_hex false last c).
Proof.
  intros Hc. pose proof (byte_forall (fun c => forallb ascii_isprint (char_text false false false c) && forallb ascii_isprint (char_text false false true c) &&
    forallb ascii_isprint (char_text true false false c) && forallb ascii_isprint (char_text true false true c)) ltac:(by vm_compute) c Hc) as H.
  cbv beta in H. rewrite !andb_true_iff, !forallb_forall in H. apply List.Forall_forall. destruct use_hex, last; tauto.
Qed.

Lemma escape_printable use_hex src : Forall byte_ok src -> forall last, Forall (fun c => ascii_isprint c = true) (escape_loop use_hex false last src).
Proof.
  induction 1 as [|c src Hc Hsrc IH]; intros last; [constructor|]. rewrite escape_loop_cons. apply Forall_app. split; [by apply char_text_printable|apply IH].
Qed.

(** ** Properties *)

(** C37: Each of the four encoders is inverted by [c_decode], on every string of bytes: [c_encode] appends to a string sized beforehand by [CEscapedLength],
    which is exactly the length written, and is the same as the loop of [CEscapeInternal] in octal; and every text the loops produce decodes,
    in place or not, to the original. The encodings that are not UTF-8 safe consist of printable characters. *)
Theorem c_escape_roundtrip src dest uninit : Forall byte_ok src -> Z.of_nat (length src) < 2 ^ 62 -> Z.of_nat (length dest) + 4 * Z.of_nat (length src) < 2 ^ 64 ->
  CEscapeAndAppendInternal src dest uninit = Some (dest ++ CEscapeInternal src false false) /\
  c_encode src uninit = Some (CEscapeInternal src false false) /\
  CEscapedLength src = Some (Z.of_nat (length (CEscapeInternal src false false))) /\
  (forall use_hex utf8_safe same fresh, length fresh = length (CEscapeInternal src use_hex utf8_safe) ->
     c_decode same (CEscapeInternal src use_hex utf8_safe) fresh = Some (inr src)) /\
  (forall use_hex, Forall (fun c => ascii_isprint c = true) (CEscapeInternal src use_hex false)).
Proof.
  intros Hb Hn Hd. split; [by apply append_internal_ok|]. split; [apply (append_internal_ok src []); [done|done|cbn [length]; lia]|].
  split; [rewrite CEscapedLength_ok by done; unfold CEscapeInternal; by rewrite octal_escaped_loop|]. split.
  - intros use_hex utf8_safe same fresh Hf. apply c_decode_ok; [done|]. by apply escape_unescaped.
  - intros use_hex. by apply escape_printable.
Qed.

Lemma c_escape_roundtrip_witness :
  c_hex_encode [1; 49; 10; 255] = [92; 120; 48; 49; 92; 120; 51; 49; 92; 110; 92; 120; 102; 102] /\
  c_decode true (CEscapeInternal [1; 49; 10; 255] true false) (CEscapeInternal [1; 49; 10; 255] true false) = Some (inr [1; 49; 10; 255]).
Proof.
  split; [by vm_compute|]. destruct (c_escape_roundtrip [1; 49; 10; 255] [] 0) as (_ & _ & _ & H & _).
  - repeat constructor; lia.
  - by vm_compute.
  - by vm_compute.
  - by apply H.
Defined.
