(* ===== verification/EscapeGrammar.v ===== *)
(** * The grammar of C escape sequences

    What [c_decode] (strings/escaping.cc) is to accept and to give, written without the functions of the decoder: the
    escapes with the bytes they stand for, and the error of everything else. *)
From S2P Require Import Prelude Words Bits Endian Ascii NumFormat NumParse CEscape.

(** ** The grammar *)

Definition octal_digit (c : Z) : Prop := 48 <= c <= 55.
Definition hex_digit (c : Z) : Prop := 48 <= c <= 57 \/ 65 <= c <= 70 \/ 97 <= c <= 102.
Definition hex_value (c : Z) : Z := if c <=? 57 then c - 48 else if c <=? 70 then c - 55 else c - 87.
Definition octal_number (ds : list Z) : Z := text_value 8 ((fun c => c - 48) <$> ds).
Definition hex_number (ds : list Z) : Z := text_value 16 (hex_value <$> ds).
(** The text does not go on with such a character. *)
Definition not_next (P : Z -> Prop) (rest : list Z) : Prop := match rest with [] => True | c :: _ => ~ P c end.

(** The letters and what they stand for: bell, backspace, form feed, new line, carriage return, tab, vertical tab, and
    themselves. *)
Definition letters : list (Z * Z) := [(97, 7); (98, 8); (102, 12); (110, 10); (114, 13); (116, 9); (118, 11); (92, 92); (63, 63); (39, 39); (34, 34)].
(** [\u] has four digits and [\U] eight. *)
Definition rune_letter (c : Z) (n : nat) : Prop := (c = 117 /\ n = 4%nat) \/ (c = 85 /\ n = 8%nat).

(** UTF-8 of a number up to 0x10FFFF. *)
Definition utf8_of (c : Z) : list Z :=
  if c <=? 0x7F then [c] else if c <=? 0x7FF then [0xC0 + c / 64; 0x80 + c mod 64]
  else if c <=? 0xFFFF then [0xE0 + c / 4096; 0x80 + c / 64 mod 64; 0x80 + c mod 64]
  else [0xF0 + c / 262144; 0x80 + c / 4096 mod 64; 0x80 + c / 64 mod 64; 0x80 + c mod 64].

(** What the text behind a backslash denotes: an error, or bytes and the text that follows the escape. *)
Inductive denotes : list Z -> decode_error + (list Z * list Z) -> Prop :=
  | d_end : denotes [] (inl EndsWithBackslash)
  | d_letter c v rest : In (c, v) letters -> denotes (c :: rest) (inr ([v], rest))
  | d_octal ds rest : (1 <= length ds <= 3)%nat -> Forall octal_digit ds -> length ds = 3%nat \/ not_next octal_digit rest ->
      denotes (ds ++ rest) (if octal_number ds <=? 255 then inr ([octal_number ds], rest) else inl (Exceeds0xff ds))
  | d_hex x ds rest : x = 120 \/ x = 88 -> ds <> [] -> Forall hex_digit ds -> not_next hex_digit rest ->
      denotes (x :: ds ++ rest) (if hex_number ds mod 2 ^ 32 <=? 255 then inr ([hex_number ds mod 2 ^ 32], rest) else inl (Exceeds0xff (x :: ds)))
  | d_hex_end x : x = 120 \/ x = 88 -> denotes [x] (inl EndsWithX)
  | d_hex_none x c rest : x = 120 \/ x = 88 -> ~ hex_digit c -> denotes (x :: c :: rest) (inl NotHexDigit)
  | d_rune c n ds rest : rune_letter c n -> length ds = n -> Forall hex_digit ds -> hex_number ds <= 0x10FFFF -> ~ 0xD800 <= hex_number ds <= 0xDFFF ->
      denotes (c :: ds ++ rest) (inr (utf8_of (hex_number ds), rest))
  | d_rune_surrogate c n ds rest : rune_letter c n -> length ds = n -> Forall hex_digit ds -> 0xD800 <= hex_number ds <= 0xDFFF ->
      denotes (c :: ds ++ rest) (inl (SurrogateCharacter (c :: ds)))
  | d_rune_large c n ds d rest : rune_letter c n -> (length ds < n <= length (ds ++ d :: rest))%nat -> Forall hex_digit (ds ++ [d]) ->
      hex_number ds <= 0x10FFFF < hex_number (ds ++ [d]) -> denotes (c :: ds ++ d :: rest) (inl (ExceedsUnicode (c :: ds ++ [d])))
  | d_rune_stop c n ds x rest : rune_letter c n -> (length ds < n <= length (ds ++ x :: rest))%nat -> Forall hex_digit ds -> ~ hex_digit x ->
      hex_number ds <= 0x10FFFF -> denotes (c :: ds ++ x :: rest) (inl (NeedsHexDigits n (c :: ds)))
  | d_rune_short c n rest : rune_letter c n -> (length rest < n)%nat -> denotes (c :: rest) (inl (NeedsHexDigits n [c]))
  | d_unknown c rest : ~ In c (fst <$> letters) -> ~ octal_digit c -> c <> 120 -> c <> 88 -> c <> 117 -> c <> 85 -> denotes (c :: rest) (inl (UnknownEscape c)).

(** What a text denotes: the characters other than the backslash stand for themselves; the first error is the result. *)
Inductive decodes : list Z -> decode_error + list Z -> Prop :=
  | decodes_nil : decodes [] (inr [])
  | decodes_plain c l out : c <> 92 -> decodes l (inr out) -> decodes (c :: l) (inr (c :: out))
  | decodes_plain_error c l e : c <> 92 -> decodes l (inl e) -> decodes (c :: l) (inl e)
  | decodes_escape l bytes rest out : denotes l (inr (bytes, rest)) -> decodes rest (inr out) -> decodes (92 :: l) (inr (bytes ++ out))
  | decodes_escape_error l bytes rest e : denotes l (inr (bytes, rest)) -> decodes rest (inl e) -> decodes (92 :: l) (inl e)
  | decodes_error l e : denotes l (inl e) -> decodes (92 :: l) (inl e).

(** ** The digits *)

Lemma xdigit_iff c : byte_ok c -> ascii_isxdigit c = true <-> hex_digit c.
Proof.
  intros Hc. pose proof (byte_forall (fun c => Bool.eqb (ascii_isxdigit c) (((48 <=? c) && (c <=? 57)) || ((65 <=? c) && (c <=? 70)) || ((97 <=? c) && (c <=? 102)))) ltac:(by vm_compute) c Hc) as H.
  cbv beta in H. apply Bool.eqb_prop in H. rewrite H. unfold hex_digit. lia.
Qed.
Lemma hex_value_spec c : byte_ok c -> hex_digit c -> hex_digit_to_int c = hex_value c /\ digit_of c = hex_value c /\ 0 <= hex_value c < 16.
Proof.
  intros Hc Hx. apply xdigit_iff in Hx; [|done].
  pose proof (byte_forall (fun c => implb (ascii_isxdigit c) ((hex_digit_to_int c =? hex_value c) && (digit_of c =? hex_value c) && (0 <=? hex_value c) && (hex_value c <? 16))) ltac:(by vm_compute) c Hc) as H.
  cbv beta in H. rewrite Hx in H. cbn [implb] in H. lia.
Qed.
Lemma is_octal_digit_spec c : is_octal_digit c = true <-> octal_digit c.
Proof. unfold is_octal_digit, octal_digit. lia. Qed.

Lemma number_snoc b ds d : text_value b (ds ++ [d]) = text_value b ds * b + d.
Proof. unfold text_value. by rewrite fold_left_app. Qed.
Lemma hex_number_snoc ds d : hex_number (ds ++ [d]) = hex_number ds * 16 + hex_value d.
Proof. unfold hex_number. rewrite fmap_app. apply number_snoc. Qed.
Lemma hex_number_bound ds : Forall byte_ok ds -> Forall hex_digit ds -> 0 <= hex_number ds < 16 ^ Z.of_nat (length ds).
Proof.
  induction ds as [|d ds IH] using rev_ind; intros Hb Hx; [cbn; lia|]. apply Forall_app in Hb as [Hb Hbd]. apply Forall_app in Hx as [Hx Hxd].
  apply Forall_cons_iff in Hbd as [Hbd _]. apply Forall_cons_iff in Hxd as [Hxd _]. specialize (IH Hb Hx). destruct (hex_value_spec d Hbd Hxd) as (_ & _ & Hd).
  rewrite hex_number_snoc, length_app, Nat2Z.inj_add, Z.pow_add_r by lia. change (16 ^ Z.of_nat (length [d])) with 16. lia.
Qed.
Lemma hex_number_digits ds : Forall byte_ok ds -> Forall hex_digit ds -> digit_of <$> ds = hex_value <$> ds.
Proof.
  intros Hb Hx. apply list_fmap_ext. intros i c Hi. rewrite list.Forall_lookup in Hb, Hx. by apply hex_value_spec; [eapply Hb|eapply Hx].
Qed.
Lemma hex_digits_bool ds : Forall byte_ok ds -> Forall hex_digit ds -> Forall xdigit ds.
Proof. intros Hb Hx. rewrite list.Forall_lookup in *. intros i c Hi. apply xdigit_iff; [by eapply Hb|by eapply Hx]. Qed.
Lemma not_next_ends rest : Forall byte_ok rest -> not_next hex_digit rest <-> ends_digits rest.
Proof.
  intros Hb. destruct rest as [|c rest]; [split; [by intros _ ? [=]|done]|]. apply Forall_cons_iff in Hb as [Hc _]. cbn [not_next]. unfold ends_digits.
  rewrite <- xdigit_iff by done. split; [intros H ? [= <-]; by apply not_true_iff_false|intros H; apply not_true_iff_false; by apply H].
Qed.
(** The run of hexadecimal digits at the front. *)
Lemma hex_run l : Forall byte_ok l -> exists ds rest, l = ds ++ rest /\ Forall hex_digit ds /\ not_next hex_digit rest.
Proof.
  induction 1 as [|c l Hc Hl (ds & rest & -> & Hd & Hr)]; [by exists [], []|]. destruct (ascii_isxdigit c) eqn:E.
  - exists (c :: ds), rest. split; [done|]. split; [|done]. constructor; [|done]. by apply xdigit_iff.
  - exists [], (c :: ds ++ rest). split; [done|]. split; [done|]. cbn. rewrite <- xdigit_iff by done. by rewrite E.
Qed.

(** ** The decoder follows the grammar *)

Lemma letter_escape_spec c v : letter_escape c = Some v <-> In (c, v) letters.
Proof.
  unfold letter_escape, letters. cbn [In]. split.
  - repeat (match goal with |- context [c =? ?k] => destruct (Z.eqb_spec c k) as [->|] end; [intros [= <-]; tauto|]). done.
  - intros H. repeat (destruct H as [[= <- <-]|H]; [done|]). done.
Qed.
Lemma letter_escape_none c : letter_escape c = None <-> ~ In c (fst <$> letters).
Proof.
  unfold letter_escape, letters. cbn [In fmap list_fmap fst]. split.
  - repeat (match goal with |- context [c =? ?k] => destruct (Z.eqb_spec c k) as [->|] end; [done|]). intros _ H. tauto || (repeat destruct H as [H|H]; congruence).
  - intros H. repeat (match goal with |- context [c =? ?k] => destruct (Z.eqb_spec c k) as [->|] end; [by destruct H; tauto|]). done.
Qed.

Lemma EncodeUTF8Char_of c : 0 <= c <= 0x10FFFF -> EncodeUTF8Char c = utf8_of c.
Proof. apply utf8_bytes. Qed.

(** One, two or three octal digits. *)
Ltac octal_case := split_and!; try done; try (cbn; lia); try (solve [repeat (constructor; [assumption|]); constructor]); first [by left|by right|do 2 f_equal; unfold octal_number, text_value; cbn; lia|right; cbn; match goal with H : forall _, _ = false -> _ |- _ => by apply H end].
Lemma octal_step ch d : 0 <= ch < 64 -> octal_digit d -> uadd 32 (umul 32 ch 8) (d - 48) = ch * 8 + (d - 48).
Proof. unfold octal_digit, uadd, umul. intros Hch Hd. rewrite (wrap_small 32 (ch * 8)) by lia. apply wrap_small. lia. Qed.
Lemma octal_run c rest : octal_digit c -> exists ds rest', c :: rest = ds ++ rest' /\ (1 <= length ds <= 3)%nat /\ Forall octal_digit ds /\
  (length ds = 3%nat \/ not_next octal_digit rest') /\ octal_more (octal_more (c - 48, [c], rest)) = (octal_number ds, ds, rest').
Proof.
  intros Hc. assert (forall x, is_octal_digit x = false -> ~ octal_digit x) as Hn by (intros x E; rewrite <- is_octal_digit_spec; congruence).
  unfold octal_more at 2. destruct rest as [|d rest]; [exists [c], []; octal_case|].
  destruct (is_octal_digit d) eqn:Ed; cycle 1.
  { exists [c], (d :: rest). unfold octal_more. rewrite Ed. octal_case. }
  apply is_octal_digit_spec in Ed. rewrite octal_step by (unfold octal_digit in *; lia). cbn [app octal_more]. destruct rest as [|e rest].
  { exists [c; d], []. octal_case. }
  destruct (is_octal_digit e) eqn:Ee; cycle 1.
  { exists [c; d], (e :: rest). octal_case. }
  apply is_octal_digit_spec in Ee. rewrite octal_step by (unfold octal_digit in *; lia).
  exists [c; d; e], rest. octal_case.
Qed.

Lemma range_branch {A} v (a b : A) : (if 0xff <? v then a else b) = (if v <=? 255 then b else a).
Proof. destruct (Z.ltb_spec 0xff v), (Z.leb_spec v 255); (done || lia). Qed.

Lemma escape_octal c rest : octal_digit c -> denotes (c :: rest) (escape false (c :: rest)).
Proof.
  intros Hc. assert (letter_escape c = None) as El by (apply letter_escape_none; unfold octal_digit in Hc; cbn; intuition lia).
  unfold escape. rewrite El, (proj2 (is_octal_digit_spec c) Hc). destruct (octal_run c rest Hc) as (ds & rest' & -> & Hn & Hd & Hnext & ->).
  rewrite range_branch, andb_false_r. by apply d_octal.
Qed.

(** The loop over the digits of a rune, from the digits [ds] on. *)
Lemma rune_loop_denotes c n k : rune_letter c n -> forall ds rest, Forall byte_ok (ds ++ rest) -> Forall hex_digit ds -> hex_number ds <= 0x10FFFF ->
  (length ds + k)%nat = n -> (k <= length rest)%nat ->
  denotes (c :: ds ++ rest) (match rune_loop k (c =? 85) n (hex_number ds) (c :: ds) rest with
    | inl e => inl e
    | inr (rune, text, rest) => if IsSurrogate rune then inl (SurrogateCharacter text) else inr (EncodeUTF8Char rune, rest) end).
Proof.
  intros Hc. induction k as [|k IH]; intros ds rest Hb Hd Hv Hn Hk.
  - cbn [rune_loop]. apply Forall_app in Hb as [Hb _]. pose proof (hex_number_bound ds Hb Hd) as [H0 _]. unfold IsSurrogate. destruct (Z.leb_spec 0xD800 (hex_number ds)), (Z.leb_spec (hex_number ds) 0xDFFF); cbn [andb];
      try (rewrite EncodeUTF8Char_of by done; apply (d_rune c n); [done|lia|done|done|lia]). apply (d_rune_surrogate c n); [done|lia|done|lia].
  - destruct rest as [|x rest]; [cbn in Hk; lia|]. cbn [length] in Hk. cbn [rune_loop]. pose proof (Forall_app byte_ok ds (x :: rest)) as [Hsp _]. destruct (Hsp Hb) as [Hbd Hbx]. apply Forall_cons_iff in Hbx as [Hbx Hbr].
    destruct (ascii_isxdigit x) eqn:Ex; cycle 1.
    { assert (~ hex_digit x) by (rewrite <- xdigit_iff by done; congruence). apply (d_rune_stop c n); [done|rewrite length_app; cbn [length]; lia|done|done|done]. }
    apply xdigit_iff in Ex; [|done]. destruct (hex_value_spec x Hbx Ex) as (-> & _ & Hx). pose proof (hex_number_bound ds Hbd Hd) as [H0 _].
    rewrite digit_step by done. rewrite wrap_small by lia. rewrite <- hex_number_snoc.
    assert (Forall byte_ok (ds ++ [x]) /\ Forall hex_digit (ds ++ [x])) as [Hb1 Hd1] by (split; apply Forall_app; split; try done; by constructor).
    destruct (Z.ltb_spec 0x10FFFF (hex_number (ds ++ [x]))) as [Hlt|Hle].
    + destruct Hc as [[-> ->]|[-> ->]]; cbn [Z.eqb Pos.eqb andb].
      * pose proof (hex_number_bound _ Hb1 Hd1) as [_ Hup]. assert (16 ^ Z.of_nat (length (ds ++ [x])) <= 16 ^ 4) by (apply Z.pow_le_mono_r; [lia|]; rewrite length_app; cbn [length]; lia). lia.
      * apply (d_rune_large 85 8); [by right|rewrite length_app; cbn [length]; lia|done|lia].
    + rewrite andb_false_r. specialize (IH (ds ++ [x]) rest). rewrite <- !app_assoc in IH. cbn [app] in IH. apply IH; [done|done|done|rewrite length_app; cbn [length]; lia|lia].
Qed.

Lemma escape_denotes l : Forall byte_ok l -> denotes l (escape false l).
Proof.
  intros Hb. destruct l as [|c rest]; [apply d_end|]. pose proof Hb as Hb'. apply Forall_cons_iff in Hb' as [Hc Hr].
  destruct (letter_escape c) as [v|] eqn:El; [unfold escape; rewrite El; by apply d_letter, letter_escape_spec|].
  destruct (is_octal_digit c) eqn:Eo; [by apply escape_octal, is_octal_digit_spec|].
  destruct ((c =? 120) || (c =? 88)) eqn:Ex.
  { assert (c = 120 \/ c = 88) as Hx by lia. destruct rest as [|x rest]; [unfold escape; rewrite El, Eo, Ex; by apply d_hex_end|].
    destruct (ascii_isxdigit x) eqn:Exd; cycle 1.
    { unfold escape. rewrite El, Eo, Ex, Exd. apply d_hex_none; [done|]. apply Forall_cons_iff in Hr as [Hx0 _]. rewrite <- xdigit_iff by done. congruence. }
    destruct (hex_run (x :: rest) Hr) as (ds & rest' & E & Hd & Hn). rewrite E in *. apply Forall_app in Hr as [Hbd Hbr].
    assert (ds <> []) as Hne. { intros ->. cbn [app] in E. subst rest'. cbn in Hn. apply Hn, xdigit_iff; [by apply Forall_cons_iff in Hbr as [? _]|done]. }
    rewrite hex_escape by (done || by apply hex_digits_bool || by apply not_next_ends). rewrite hex_number_digits by done. rewrite range_branch, andb_false_r. by apply d_hex. }
  destruct ((c =? 117) || (c =? 85)) eqn:Eu.
  - assert (exists n, rune_letter c n /\ (if c =? 117 then 4%nat else 8%nat) = n) as (n & Hrl & En).
    { assert (c = 117 \/ c = 85) as [-> | ->] by lia; eexists; (split; [|done]); [by left|by right]. }
    unfold escape. rewrite El, Eo, Ex, Eu. cbv zeta. rewrite En. destruct (Nat.ltb_spec (length rest) n) as [Hlt|Hle]; [by apply (d_rune_short c n)|].
    pose proof (rune_loop_denotes c n n Hrl [] rest Hr ltac:(constructor) ltac:(done) eq_refl Hle) as H. change (hex_number []) with 0 in H. cbn [app] in H.
    destruct (rune_loop n (c =? 85) n 0 [c] rest) as [e|[[rune text] rest']]; [done|]. by rewrite andb_false_r.
  - unfold escape. rewrite El, Eo, Ex, Eu. apply letter_escape_none in El. apply d_unknown; [done|rewrite <- is_octal_digit_spec; congruence|lia|lia|lia|lia].
Qed.

(** Digits that are read before the loop stops. *)
Lemma rune_loop_prefix limit n k rest ds : Forall byte_ok ds -> Forall hex_digit ds -> forall rune text, 0 <= rune ->
  horner rune 16 (hex_value <$> ds) <= 0x10FFFF ->
  rune_loop (length ds + k) limit n rune text (ds ++ rest) = rune_loop k limit n (horner rune 16 (hex_value <$> ds)) (text ++ ds) rest.
Proof.
  intros Hb Hx. induction ds as [|c ds IH]; intros rune text Hr Hv; [by rewrite app_nil_r|].
  apply Forall_cons_iff in Hb as [Hbc Hbs]. apply Forall_cons_iff in Hx as [Hxc Hxs]. destruct (hex_value_spec c Hbc Hxc) as (Eh & _ & Hd).
  cbn [length Nat.add rune_loop app fmap list_fmap] in *. rewrite horner_cons in Hv. rewrite (proj2 (xdigit_iff c Hbc) Hxc), Eh, digit_step by done.
  assert (Forall (fun d => 0 <= d < 16) (hex_value <$> ds)) as Hds.
  { apply Forall_fmap. rewrite list.Forall_lookup in *. intros i x Hi. apply hex_value_spec; [by eapply Hbs|by eapply Hxs]. }
  pose proof (horner_ge 16 _ ltac:(lia) Hds (rune * 16 + hex_value c) ltac:(lia)) as Hge. change (list_fmap Z Z hex_value ds) with (hex_value <$> ds) in *. rewrite wrap_small by lia.
  replace (0x10FFFF <? rune * 16 + hex_value c) with false by lia. rewrite andb_false_r, IH by (done || lia). by rewrite <- app_assoc.
Qed.

Lemma rune_head c n : rune_letter c n -> letter_escape c = None /\ is_octal_digit c = false /\ (c =? 120) || (c =? 88) = false /\ (c =? 117) || (c =? 85) = true /\
  (if c =? 117 then 4%nat else 8%nat) = n.
Proof. by intros [[-> ->]|[-> ->]]. Qed.

(** The loop of [\u] and [\U], behind [k] digits that are read. *)
Lemma escape_rune c n k ds rest : rune_letter c n -> (length ds + k)%nat = n -> (k <= length rest)%nat -> Forall byte_ok ds -> Forall hex_digit ds -> hex_number ds <= 0x10FFFF ->
  escape false (c :: ds ++ rest) = match rune_loop k (c =? 85) n (hex_number ds) (c :: ds) rest with
    | inl e => inl e
    | inr (rune, text, rest) => if IsSurrogate rune then inl (SurrogateCharacter text) else inr (EncodeUTF8Char rune, rest) end.
Proof.
  intros Hc Hn Hk Hb Hx Hv. destruct (rune_head c n Hc) as (El & Eo & Eh & Eu & En). unfold escape. rewrite El, Eo, Eh, Eu. cbv zeta. rewrite En.
  rewrite length_app. destruct (Nat.ltb_spec (length ds + length rest) n); [lia|]. rewrite <- Hn at 1. rewrite rune_loop_prefix by (done || lia).
  rewrite horner_text_value. fold (hex_number ds). cbn [app]. destruct (rune_loop _ _ _ _ _ _) as [e|[[rune text] rest']]; [done|]. by rewrite andb_false_r.
Qed.

Lemma octal_digits_read ds rest : (1 <= length ds <= 3)%nat -> Forall octal_digit ds -> length ds = 3%nat \/ not_next octal_digit rest ->
  escape false (ds ++ rest) = if octal_number ds <=? 255 then inr ([octal_number ds], rest) else inl (Exceeds0xff ds).
Proof.
  intros Hn Hd Hr. destruct ds as [|c ds]; [cbn in Hn; lia|]. apply Forall_cons_iff in Hd as [Hc Hd].
  assert (letter_escape c = None) as El by (apply letter_escape_none; unfold octal_digit in Hc; cbn; intuition lia).
  cbn [app]. unfold escape. rewrite El, (proj2 (is_octal_digit_spec c) Hc). clear El.
  assert (octal_more (octal_more (c - 48, [c], ds ++ rest)) = (octal_number (c :: ds), c :: ds, rest)) as ->; [|by rewrite range_branch, andb_false_r].
  assert (forall rest, not_next octal_digit rest -> forall v t, octal_more (v, t, rest) = (v, t, rest)) as Hstop.
  { intros [|x r] Hx v t; [done|]. unfold octal_more. destruct (is_octal_digit x) eqn:E; [|done]. by apply is_octal_digit_spec in E. }
  destruct ds as [|d ds]; [destruct Hr as [Hr|Hr]; [done|]; cbn [app]; by rewrite !Hstop|]. apply Forall_cons_iff in Hd as [Hd1 Hd]. cbn [app].
  unfold octal_more at 2. rewrite (proj2 (is_octal_digit_spec d) Hd1). rewrite octal_step by (unfold octal_digit in *; lia).
  destruct ds as [|e ds]; [destruct Hr as [Hr|Hr]; [done|]; cbn [app]; rewrite Hstop by done|].
  - done.
  - apply Forall_cons_iff in Hd as [Hd2 Hd]. destruct ds as [|f ds]; [|cbn in Hn; lia]. cbn [app]. unfold octal_more. rewrite (proj2 (is_octal_digit_spec e) Hd2). rewrite octal_step by (unfold octal_digit in *; lia).
    done.
Qed.

Lemma denotes_escape l r : Forall byte_ok l -> denotes l r -> escape false l = r.
Proof.
  intros Hb H. destruct H as [|c v rest Hin|ds rest Hn Hd Hr|x ds rest Hx Hne Hd Hr|x Hx|x c rest Hx Hc|c n ds rest Hc Hn Hd Hv Hs|c n ds rest Hc Hn Hd Hs|c n ds d rest Hc Hn Hd Hv|c n ds x rest Hc Hn Hd Hx Hv|c n rest Hc Hn|c rest Hl Ho H1 H2 H3 H4].
  - done.
  - apply letter_escape_spec in Hin. unfold escape. by rewrite Hin.
  - by apply octal_digits_read.
  - apply Forall_cons_iff in Hb as [_ Hb]. apply Forall_app in Hb as [Hb Hbr]. rewrite hex_escape by (done || by apply hex_digits_bool || by apply not_next_ends).
    by rewrite hex_number_digits, range_branch, andb_false_r by done.
  - by destruct Hx as [-> | ->].
  - apply Forall_cons_iff in Hb as [_ Hb]. apply Forall_cons_iff in Hb as [Hb _]. unfold escape. rewrite <- xdigit_iff in Hc by done. apply not_true_iff_false in Hc. destruct Hx as [-> | ->]; cbn; by rewrite Hc.
  - apply Forall_cons_iff in Hb as [_ Hb]. apply Forall_app in Hb as [Hb _]. rewrite (escape_rune c n 0) by (done || lia). cbn [rune_loop]. pose proof (hex_number_bound ds Hb Hd) as [H0 _].
    rewrite EncodeUTF8Char_of by done. unfold IsSurrogate. destruct (Z.leb_spec 0xD800 (hex_number ds)), (Z.leb_spec (hex_number ds) 0xDFFF); (done || lia).
  - apply Forall_cons_iff in Hb as [_ Hb]. apply Forall_app in Hb as [Hb _]. rewrite (escape_rune c n 0) by (done || lia). cbn [rune_loop].
    unfold IsSurrogate. destruct (Z.leb_spec 0xD800 (hex_number ds)), (Z.leb_spec (hex_number ds) 0xDFFF); (done || lia).
  - apply Forall_cons_iff in Hb as [_ Hb]. apply Forall_app in Hb as [Hb Hbr]. apply Forall_cons_iff in Hbr as [Hbd _]. apply Forall_app in Hd as [Hd Hdd]. apply Forall_cons_iff in Hdd as [Hdd _].
    rewrite length_app in Hn. cbn [length] in Hn. rewrite (escape_rune c n (S (n - length ds - 1))) by (done || cbn [length]; lia || lia). cbn [rune_loop].
    destruct (hex_value_spec d Hbd Hdd) as (Eh & _ & Hd16). pose proof (hex_number_bound ds Hb Hd) as [H0 Hup]. rewrite hex_number_snoc in Hv.
    rewrite (proj2 (xdigit_iff d Hbd) Hdd), Eh, digit_step, wrap_small by (done || lia). destruct (Z.ltb_spec 0x10FFFF (hex_number ds * 16 + hex_value d)); [|lia].
    destruct Hc as [[-> ->]|[-> ->]]; [|done]. assert (16 ^ Z.of_nat (length ds) <= 16 ^ 3) by (apply Z.pow_le_mono_r; lia). lia.
  - apply Forall_cons_iff in Hb as [_ Hb]. apply Forall_app in Hb as [Hb Hbr]. apply Forall_cons_iff in Hbr as [Hbd _].
    rewrite length_app in Hn. cbn [length] in Hn. rewrite (escape_rune c n (S (n - length ds - 1))) by (done || cbn [length]; lia || lia). cbn [rune_loop].
    rewrite <- xdigit_iff in Hx by done. apply not_true_iff_false in Hx. by rewrite Hx.
  - destruct (rune_head c n Hc) as (El & Eo & Eh & Eu & En). unfold escape. rewrite El, Eo, Eh, Eu. cbv zeta. rewrite En. by rewrite (proj2 (Nat.ltb_lt _ _) Hn).
  - unfold escape. rewrite (proj2 (letter_escape_none c) Hl). rewrite <- is_octal_digit_spec in Ho. apply not_true_iff_false in Ho. rewrite Ho.
    rewrite (proj2 (Z.eqb_neq c 120)), (proj2 (Z.eqb_neq c 88)), (proj2 (Z.eqb_neq c 117)), (proj2 (Z.eqb_neq c 85)) by done. done.
Qed.

(** The grammar of the model and this one. *)
Lemma decodes_unescaped l r : Forall byte_ok l -> decodes l r <-> unescaped false l r.
Proof.
  intros Hb. split.
  - intros H. induction H as [|c l out Hc H IH|c l e Hc H IH|l bytes rest out He H IH|l bytes rest e He H IH|l e He]; try (apply Forall_cons_iff in Hb as [_ Hb]); try apply denotes_escape in He; try done.
    + constructor.
    + by apply unescaped_plain, IH.
    + by apply unescaped_plain_error, IH.
    + eapply unescaped_escape; [exact He|]. apply IH. destruct (escape_reads _ _ _ _ He) as (text & -> & _). by apply Forall_app in Hb as [_ ?].
    + eapply unescaped_escape_error; [exact He|]. apply IH. destruct (escape_reads _ _ _ _ He) as (text & -> & _). by apply Forall_app in Hb as [_ ?].
    + by apply unescaped_error.
  - intros H. induction H as [|c l out Hc H IH|c l e Hc H IH|l bytes rest out He H IH|l bytes rest e He H IH|l e He]; try (apply Forall_cons_iff in Hb as [_ Hb]); try (pose proof (escape_denotes l Hb) as Hden; rewrite He in Hden).
    + constructor.
    + by apply decodes_plain, IH.
    + by apply decodes_plain_error, IH.
    + eapply decodes_escape; [exact Hden|]. apply IH. destruct (escape_reads _ _ _ _ He) as (text & -> & _). by apply Forall_app in Hb as [_ ?].
    + eapply decodes_escape_error; [exact Hden|]. apply IH. destruct (escape_reads _ _ _ _ He) as (text & -> & _). by apply Forall_app in Hb as [_ ?].
    + by apply decodes_error.
Qed.

(** ** The property *)

(** C36: [c_decode], into its own source or into another string of the same size, makes no access out of bounds and ends,
    on any string of bytes; its result is exactly the one that the grammar [decodes] gives, which shares no function with
    the decoder: the letters, one to three octal digits up to 255, any number of hexadecimal digits whose value modulo
    2^32 is at most 255 (so [\x100000041] is taken for one character: the sum wraps before it is compared), four or eight
    hexadecimal digits of a number up to 0x10FFFF that is no surrogate, which stands for its UTF-8 encoding, and the error
    of every other text, with the text that the message quotes. The string is never longer than the source, and the UTF-8
    is what a strict decoder reads back. *)
Theorem c_decode_correct same source uninit : Forall byte_ok source -> length uninit = length source ->
  (forall r, c_decode same source uninit = Some r <-> decodes source r) /\
  (exists r, c_decode same source uninit = Some r /\ (forall out, r = inr out -> (length out <= length source)%nat)) /\
  (forall v rest, 0 <= v <= 0x10FFFF -> ~ 0xD800 <= v <= 0xDFFF -> Forall byte_ok (utf8_of v) /\ utf8_decode (utf8_of v ++ rest) = Some (v, rest)) /\
  decodes [92; 120; 49; 48; 48; 48; 48; 48; 48; 52; 49] (inr [65]).
Proof.
  intros Hb Hl. split; [|split; [|split]].
  - intros r. rewrite (decodes_unescaped source r Hb). split; [|by apply c_decode_ok]. intros Hr. destruct (unescaped_exists false _ source (Nat.le_refl _)) as (r' & Hr').
    rewrite (c_decode_ok same source uninit r' Hl Hr') in Hr. by injection Hr as <-.
  - destruct (unescaped_exists false _ source (Nat.le_refl _)) as (r & Hr). exists r. split; [by apply c_decode_ok|]. intros out Hout. by apply (unescaped_length false source r).
  - intros v rest Hv Hs. rewrite <- EncodeUTF8Char_of by done. destruct (utf8_ok v rest Hv) as (_ & H1 & H2); [|by split].
    unfold IsSurrogate. destruct (Z.leb_spec 0xD800 v), (Z.leb_spec v 0xDFFF); (done || lia).
  - assert (denotes ([120; 49; 48; 48; 48; 48; 48; 48; 52; 49] ++ []) (inr ([65], []))) as H; [|by apply (decodes_escape _ [65] [] [] H); constructor].
    apply (d_hex 120 [49; 48; 48; 48; 48; 48; 48; 52; 49] []); [by left|done| |done]. repeat (constructor; [unfold hex_digit; lia|]); constructor.
Qed.

Lemma c_decode_correct_witness :
  Forall byte_ok [97; 92; 110; 92; 117; 48; 48; 101; 57] /\ decodes [97; 92; 110; 92; 117; 48; 48; 101; 57] (inr [97; 10; 195; 169]).
Proof.
  assert (Forall byte_ok [97; 92; 110; 92; 117; 48; 48; 101; 57]) as Hb by (repeat (constructor; [unfold byte_ok; lia|]); constructor). split; [exact Hb|].
  destruct (c_decode_correct true [97; 92; 110; 92; 117; 48; 48; 101; 57] (replicate 9 0) Hb eq_refl) as (H & _). apply H. vm_compute. reflexivity.
Defined.
