(* ===== verification/Base64.v ===== *)
(** * Base64 and hexadecimal text (strings/escaping.cc, strings/internal/escaping.h, internal/escaping.cc)

    The encoder writes four characters for three bytes read as one big-endian word; the decoder reads four characters at a
    time as long as they are data and falls back to a loop that skips whitespace. Both write into a string sized beforehand,
    and an access outside of it or of the source is [None]. The decoder is proved against a function on characters. *)
From Stdlib Require Import ZifyNat.
From S2P Require Import Prelude Words Bits Endian Ascii NumFormat NumParse CEscape.

(** ** Tables *)

Definition kUnBase64 : list Z :=
  [(-1); (-1); (-1); (-1); (-1); (-1); (-1); (-1); (-1); (-1); (-1); (-1); (-1); (-1); (-1); (-1); (-1); (-1); (-1); (-1); (-1); (-1); (-1); (-1); (-1); (-1); (-1); (-1); (-1); (-1); (-1); (-1);
   (-1); (-1); (-1); (-1); (-1); (-1); (-1); (-1); (-1); (-1); (-1); 62; (-1); (-1); (-1); 63; 52; 53; 54; 55; 56; 57; 58; 59; 60; 61; (-1); (-1); (-1); (-1); (-1); (-1);
   (-1); 0; 1; 2; 3; 4; 5; 6; 7; 8; 9; 10; 11; 12; 13; 14; 15; 16; 17; 18; 19; 20; 21; 22; 23; 24; 25; (-1); (-1); (-1); (-1); (-1);
   (-1); 26; 27; 28; 29; 30; 31; 32; 33; 34; 35; 36; 37; 38; 39; 40; 41; 42; 43; 44; 45; 46; 47; 48; 49; 50; 51; (-1); (-1); (-1); (-1); (-1);
   (-1); (-1); (-1); (-1); (-1); (-1); (-1); (-1); (-1); (-1); (-1); (-1); (-1); (-1); (-1); (-1); (-1); (-1); (-1); (-1); (-1); (-1); (-1); (-1); (-1); (-1); (-1); (-1); (-1); (-1); (-1); (-1);
   (-1); (-1); (-1); (-1); (-1); (-1); (-1); (-1); (-1); (-1); (-1); (-1); (-1); (-1); (-1); (-1); (-1); (-1); (-1); (-1); (-1); (-1); (-1); (-1); (-1); (-1); (-1); (-1); (-1); (-1); (-1); (-1);
   (-1); (-1); (-1); (-1); (-1); (-1); (-1); (-1); (-1); (-1); (-1); (-1); (-1); (-1); (-1); (-1); (-1); (-1); (-1); (-1); (-1); (-1); (-1); (-1); (-1); (-1); (-1); (-1); (-1); (-1); (-1); (-1);
   (-1); (-1); (-1); (-1); (-1); (-1); (-1); (-1); (-1); (-1); (-1); (-1); (-1); (-1); (-1); (-1); (-1); (-1); (-1); (-1); (-1); (-1); (-1); (-1); (-1); (-1); (-1); (-1); (-1); (-1); (-1); (-1)].
Definition kUnWebSafeBase64 : list Z :=
  [(-1); (-1); (-1); (-1); (-1); (-1); (-1); (-1); (-1); (-1); (-1); (-1); (-1); (-1); (-1); (-1); (-1); (-1); (-1); (-1); (-1); (-1); (-1); (-1); (-1); (-1); (-1); (-1); (-1); (-1); (-1); (-1);
   (-1); (-1); (-1); (-1); (-1); (-1); (-1); (-1); (-1); (-1); (-1); (-1); (-1); 62; (-1); (-1); 52; 53; 54; 55; 56; 57; 58; 59; 60; 61; (-1); (-1); (-1); (-1); (-1); (-1);
   (-1); 0; 1; 2; 3; 4; 5; 6; 7; 8; 9; 10; 11; 12; 13; 14; 15; 16; 17; 18; 19; 20; 21; 22; 23; 24; 25; (-1); (-1); (-1); (-1); 63;
   (-1); 26; 27; 28; 29; 30; 31; 32; 33; 34; 35; 36; 37; 38; 39; 40; 41; 42; 43; 44; 45; 46; 47; 48; 49; 50; 51; (-1); (-1); (-1); (-1); (-1);
   (-1); (-1); (-1); (-1); (-1); (-1); (-1); (-1); (-1); (-1); (-1); (-1); (-1); (-1); (-1); (-1); (-1); (-1); (-1); (-1); (-1); (-1); (-1); (-1); (-1); (-1); (-1); (-1); (-1); (-1); (-1); (-1);
   (-1); (-1); (-1); (-1); (-1); (-1); (-1); (-1); (-1); (-1); (-1); (-1); (-1); (-1); (-1); (-1); (-1); (-1); (-1); (-1); (-1); (-1); (-1); (-1); (-1); (-1); (-1); (-1); (-1); (-1); (-1); (-1);
   (-1); (-1); (-1); (-1); (-1); (-1); (-1); (-1); (-1); (-1); (-1); (-1); (-1); (-1); (-1); (-1); (-1); (-1); (-1); (-1); (-1); (-1); (-1); (-1); (-1); (-1); (-1); (-1); (-1); (-1); (-1); (-1);
   (-1); (-1); (-1); (-1); (-1); (-1); (-1); (-1); (-1); (-1); (-1); (-1); (-1); (-1); (-1); (-1); (-1); (-1); (-1); (-1); (-1); (-1); (-1); (-1); (-1); (-1); (-1); (-1); (-1); (-1); (-1); (-1)].
Definition kHexValueLenient : list Z :=
  [0; 0; 0; 0; 0; 0; 0; 0; 0; 0; 0; 0; 0; 0; 0; 0; 0; 0; 0; 0; 0; 0; 0; 0; 0; 0; 0; 0; 0; 0; 0; 0;
   0; 0; 0; 0; 0; 0; 0; 0; 0; 0; 0; 0; 0; 0; 0; 0; 0; 1; 2; 3; 4; 5; 6; 7; 8; 9; 0; 0; 0; 0; 0; 0;
   0; 10; 11; 12; 13; 14; 15; 0; 0; 0; 0; 0; 0; 0; 0; 0; 0; 0; 0; 0; 0; 0; 0; 0; 0; 0; 0; 0; 0; 0; 0; 0;
   0; 10; 11; 12; 13; 14; 15; 0; 0; 0; 0; 0; 0; 0; 0; 0; 0; 0; 0; 0; 0; 0; 0; 0; 0; 0; 0; 0; 0; 0; 0; 0;
   0; 0; 0; 0; 0; 0; 0; 0; 0; 0; 0; 0; 0; 0; 0; 0; 0; 0; 0; 0; 0; 0; 0; 0; 0; 0; 0; 0; 0; 0; 0; 0;
   0; 0; 0; 0; 0; 0; 0; 0; 0; 0; 0; 0; 0; 0; 0; 0; 0; 0; 0; 0; 0; 0; 0; 0; 0; 0; 0; 0; 0; 0; 0; 0;
   0; 0; 0; 0; 0; 0; 0; 0; 0; 0; 0; 0; 0; 0; 0; 0; 0; 0; 0; 0; 0; 0; 0; 0; 0; 0; 0; 0; 0; 0; 0; 0;
   0; 0; 0; 0; 0; 0; 0; 0; 0; 0; 0; 0; 0; 0; 0; 0; 0; 0; 0; 0; 0; 0; 0; 0; 0; 0; 0; 0; 0; 0; 0; 0].
Definition kHexValueStrict : list Z :=
  [(-1); (-1); (-1); (-1); (-1); (-1); (-1); (-1); (-1); (-1); (-1); (-1); (-1); (-1); (-1); (-1); (-1); (-1); (-1); (-1); (-1); (-1); (-1); (-1); (-1); (-1); (-1); (-1); (-1); (-1); (-1); (-1);
   (-1); (-1); (-1); (-1); (-1); (-1); (-1); (-1); (-1); (-1); (-1); (-1); (-1); (-1); (-1); (-1); 0; 1; 2; 3; 4; 5; 6; 7; 8; 9; (-1); (-1); (-1); (-1); (-1); (-1);
   (-1); 10; 11; 12; 13; 14; 15; (-1); (-1); (-1); (-1); (-1); (-1); (-1); (-1); (-1); (-1); (-1); (-1); (-1); (-1); (-1); (-1); (-1); (-1); (-1); (-1); (-1); (-1); (-1); (-1); (-1);
   (-1); 10; 11; 12; 13; 14; 15; (-1); (-1); (-1); (-1); (-1); (-1); (-1); (-1); (-1); (-1); (-1); (-1); (-1); (-1); (-1); (-1); (-1); (-1); (-1); (-1); (-1); (-1); (-1); (-1); (-1);
   (-1); (-1); (-1); (-1); (-1); (-1); (-1); (-1); (-1); (-1); (-1); (-1); (-1); (-1); (-1); (-1); (-1); (-1); (-1); (-1); (-1); (-1); (-1); (-1); (-1); (-1); (-1); (-1); (-1); (-1); (-1); (-1);
   (-1); (-1); (-1); (-1); (-1); (-1); (-1); (-1); (-1); (-1); (-1); (-1); (-1); (-1); (-1); (-1); (-1); (-1); (-1); (-1); (-1); (-1); (-1); (-1); (-1); (-1); (-1); (-1); (-1); (-1); (-1); (-1);
   (-1); (-1); (-1); (-1); (-1); (-1); (-1); (-1); (-1); (-1); (-1); (-1); (-1); (-1); (-1); (-1); (-1); (-1); (-1); (-1); (-1); (-1); (-1); (-1); (-1); (-1); (-1); (-1); (-1); (-1); (-1); (-1);
   (-1); (-1); (-1); (-1); (-1); (-1); (-1); (-1); (-1); (-1); (-1); (-1); (-1); (-1); (-1); (-1); (-1); (-1); (-1); (-1); (-1); (-1); (-1); (-1); (-1); (-1); (-1); (-1); (-1); (-1); (-1); (-1)].
Definition kBase64Chars : list Z :=
  [65; 66; 67; 68; 69; 70; 71; 72; 73; 74; 75; 76; 77; 78; 79; 80; 81; 82; 83; 84; 85; 86; 87; 88; 89; 90; 97; 98; 99; 100; 101; 102;
   103; 104; 105; 106; 107; 108; 109; 110; 111; 112; 113; 114; 115; 116; 117; 118; 119; 120; 121; 122; 48; 49; 50; 51; 52; 53; 54; 55; 56; 57; 43; 47].
Definition kWebSafeBase64Chars : list Z :=
  [65; 66; 67; 68; 69; 70; 71; 72; 73; 74; 75; 76; 77; 78; 79; 80; 81; 82; 83; 84; 85; 86; 87; 88; 89; 90; 97; 98; 99; 100; 101; 102;
   103; 104; 105; 106; 107; 108; 109; 110; 111; 112; 113; 114; 115; 116; 117; 118; 119; 120; 121; 122; 48; 49; 50; 51; 52; 53; 54; 55; 56; 57; 45; 95].

(** ** Definitions *)

(** [CalculateBase64EscapedLenInternal]; [None] is the failed check. *)
Definition CalculateBase64EscapedLenInternal (input_len : Z) (do_padding : bool) : option Z :=
  let kMaxSize := (2 ^ 64 - 1 - 1) / 4 * 3 in
  if negb (input_len <=? kMaxSize) then None
  else
    let len := umul 64 (input_len / 3) 4 in
    if input_len mod 3 =? 0 then Some len
    else if input_len mod 3 =? 1 then
      let len := uadd 64 len 2 in Some (if do_padding then uadd 64 len 2 else len)
    else
      let len := uadd 64 len 3 in Some (if do_padding then uadd 64 len 1 else len).

(** The four characters of a word of 24 bits. *)
Definition four_chars (base64 : list Z) (word : Z) : list Z :=
  let c0 := at_byte base64 (ushr word 18) in
  let word := Z.land word 0x3FFFF in
  let c1 := at_byte base64 (ushr word 12) in
  let word := Z.land word 0xFFF in
  let c2 := at_byte base64 (ushr word 6) in
  let word := Z.land word 0x3F in
  [c0; c1; c2; at_byte base64 word].

Section Encode.
Context (little : bool) (base64 : list Z) (do_padding : bool).

(** While at least four bytes are left; then the index written, what is left of the source, and the destination. *)
Fixpoint encode_loop (cur_src : list Z) (cur_dest : nat) (dest : list Z) : option (list Z * nat * list Z) :=
  match cur_src with
  | a :: ((b :: ((c :: ((d :: _) as rest)))) ) =>
      let word := ushr (be_load little [a; b; c; d]) 8 in
      dest ← put cur_dest (four_chars base64 word) dest;
      encode_loop rest (cur_dest + 4) dest
  | _ => Some (cur_src, cur_dest, dest)
  end.

(** [Base64EscapeInternal] on a buffer: the size written (0 if there is no room) and the destination. *)
Definition Base64EscapeInternal (src dest : list Z) : option (nat * list Z) :=
  if umul 64 (Z.of_nat (length dest)) 3 <? umul 64 (Z.of_nat (length src)) 4 then Some (O, dest)
  else
    '(cur_src, cur_dest, dest) ← (if (3 <=? length src)%nat then encode_loop src O dest else Some (src, O, dest));
    let szdest := (length dest - cur_dest)%nat in
    match cur_src with
    | [] => Some (cur_dest, dest)
    | [a] =>
        if (szdest <? 2)%nat then Some (O, dest)
        else
          let word := a in
          dest ← put cur_dest [at_byte base64 (ushr word 2); at_byte base64 (ushl 32 (Z.land word 0x3) 4)] dest;
          if do_padding then
            if (szdest - 2 <? 2)%nat then Some (O, dest)
            else dest ← put (cur_dest + 2) [61; 61] dest; Some ((cur_dest + 4)%nat, dest)
          else Some ((cur_dest + 2)%nat, dest)
    | [a; b] =>
        if (szdest <? 3)%nat then Some (O, dest)
        else
          let word := be_load little [a; b] in
          let c0 := at_byte base64 (ushr word 10) in
          let word := Z.land word 0x3FF in
          let c1 := at_byte base64 (ushr word 4) in
          let word := Z.land word 0xF in
          dest ← put cur_dest [c0; c1; at_byte base64 (ushl 32 word 2)] dest;
          if do_padding then
            if (szdest - 3 <? 1)%nat then Some (O, dest)
            else dest ← put (cur_dest + 3) [61] dest; Some ((cur_dest + 4)%nat, dest)
          else Some ((cur_dest + 3)%nat, dest)
    | [a; b; c] =>
        if (szdest <? 4)%nat then Some (O, dest)
        else
          let word := uadd 32 (ushl 32 a 16) (be_load little [b; c]) in
          dest ← put cur_dest (four_chars base64 word) dest; Some ((cur_dest + 4)%nat, dest)
    | _ => None
    end.

(** [Base64EscapeInternal] on a string, resized first and cut to the size written. *)
Definition Base64EscapeString (src : list Z) (uninit : Z) : option (list Z) :=
  calc_escaped_size ← CalculateBase64EscapedLenInternal (Z.of_nat (length src)) do_padding;
  '(escaped_len, dest) ← Base64EscapeInternal src (replicate (Z.to_nat calc_escaped_size) uninit);
  if calc_escaped_size =? Z.of_nat escaped_len then Some (take escaped_len dest) else None.
End Encode.

Definition base64_encode (little : bool) (src : list Z) (uninit : Z) : option (list Z) := Base64EscapeString little kBase64Chars true src uninit.
Definition web_safe_base64_encode (little : bool) (src : list Z) (uninit : Z) : option (list Z) := Base64EscapeString little kWebSafeBase64Chars false src uninit.

(** *** The decoder *)

(** The variables of the decoder: the source left, what has been written and where, the last value looked up and its character, the
    count of characters in [temp], and [temp]. The destination may be null. *)
Record decoder : Type := Decoder {
  src_left : list Z; destidx : nat; dest_ : option (list Z); decode_ : Z; ch_ : Z; state_ : nat; temp_ : Z
}.

(** A step goes on, or the function returns false. *)
Inductive outcome (A : Type) : Type := Goes (a : A) | ReturnsFalse.
#[global] Arguments Goes {A} a.
#[global] Arguments ReturnsFalse {A}.

Section Decode.
Context (unbase64 : list Z) (szdest : nat).

(** The macro GET_INPUT: skips whitespace while [remain] characters are left; the source left, the character, its value. *)
Fixpoint GET_INPUT (remain : nat) (src : list Z) : option (list Z * Z * Z) :=
  match src with
  | [] => None
  | ch :: src =>
      let decode := at_byte unbase64 ch in
      if (decode <? 0) && ascii_isspace ch && (remain <=? length src)%nat then GET_INPUT remain src else Some (src, ch, decode)
  end.

(** The bytes of [temp], the last one first. *)
Definition write_three (s : decoder) : option (outcome decoder) :=
  match dest_ s with
  | None => Some (Goes (Decoder (src_left s) (destidx s + 3) None (decode_ s) (ch_ s) (state_ s) (temp_ s)))
  | Some dest =>
      if (szdest <? destidx s + 3)%nat then Some ReturnsFalse
      else
        let temp := temp_ s in
        dest ← put (destidx s + 2) [wrap 8 temp] dest;
        let temp := ushr temp 8 in
        dest ← put (destidx s + 1) [wrap 8 temp] dest;
        let temp := ushr temp 8 in
        dest ← put (destidx s) [wrap 8 temp] dest;
        Some (Goes (Decoder (src_left s) (destidx s + 3) (Some dest) (decode_ s) (ch_ s) (state_ s) temp))
  end.

(** [temp] after another character; without a destination it is left alone. *)
Definition shift_in (dest : option (list Z)) (temp decode : Z) : Z :=
  match dest with Some _ => Z.lor (ushl 32 temp 6) (wrap 8 decode) | None => temp end.

(** The four characters one by one: the state after the fourth, or after the one that breaks. *)
Definition slow_four (s : decoder) : option (bool * decoder) :=
  '(src, ch, decode) ← GET_INPUT 4 (src_left s);
  if decode <? 0 then Some (false, Decoder src (destidx s) (dest_ s) decode ch 0 (temp_ s))
  else
    let temp := match dest_ s with Some _ => wrap 8 decode | None => temp_ s end in
    '(src, ch, decode) ← GET_INPUT 3 src;
    if decode <? 0 then Some (false, Decoder src (destidx s) (dest_ s) decode ch 1 temp)
    else
      let temp := shift_in (dest_ s) temp decode in
      '(src, ch, decode) ← GET_INPUT 2 src;
      if decode <? 0 then Some (false, Decoder src (destidx s) (dest_ s) decode ch 2 temp)
      else
        let temp := shift_in (dest_ s) temp decode in
        '(src, ch, decode) ← GET_INPUT 1 src;
        if decode <? 0 then Some (false, Decoder src (destidx s) (dest_ s) decode ch 3 temp)
        else Some (true, Decoder src (destidx s) (dest_ s) decode ch (state_ s) (shift_in (dest_ s) temp decode)).

(** The main loop, while four characters are left. *)
Fixpoint main_loop (fuel : nat) (s : decoder) : option (outcome decoder) :=
  match fuel with
  | O => None
  | S fuel =>
      match src_left s with
      | c0 :: c1 :: c2 :: c3 :: src =>
          let zero := (c0 =? 0) || (c1 =? 0) || (c2 =? 0) in
          let word := Z.lor (Z.lor (Z.lor (ushl 32 (wrap 32 (at_byte unbase64 c0)) 18) (ushl 32 (wrap 32 (at_byte unbase64 c1)) 12))
            (ushl 32 (wrap 32 (at_byte unbase64 c2)) 6)) (wrap 32 (at_byte unbase64 c3)) in
          let temp := if zero then temp_ s else word in
          if zero || negb (Z.land word 0x80000000 =? 0) then
            '(complete, s) ← slow_four (Decoder (src_left s) (destidx s) (dest_ s) (decode_ s) (ch_ s) (state_ s) temp);
            if negb complete then Some (Goes s)
            else
              r ← write_three s;
              match r with ReturnsFalse => Some ReturnsFalse | Goes s => main_loop fuel s end
          else
            r ← write_three (Decoder src (destidx s) (dest_ s) (decode_ s) (ch_ s) (state_ s) temp);
            match r with ReturnsFalse => Some ReturnsFalse | Goes s => main_loop fuel s end
      | _ => Some (Goes s)
      end
  end.

Definition is_pad (ch : Z) : bool := (ch =? 61) || (ch =? 46).

(** The loop over single characters. *)
Fixpoint rest_loop (src : list Z) (s : decoder) : option (outcome decoder) :=
  match src with
  | [] => Some (Goes (Decoder [] (destidx s) (dest_ s) (decode_ s) (ch_ s) (state_ s) (temp_ s)))
  | ch :: src' =>
      let decode := at_byte unbase64 ch in
      if decode <? 0 then
        if ascii_isspace ch then rest_loop src' (Decoder src' (destidx s) (dest_ s) decode ch (state_ s) (temp_ s))
        else if is_pad ch then Some (Goes (Decoder src (destidx s) (dest_ s) decode ch (state_ s) (temp_ s)))
        else Some ReturnsFalse
      else
        let temp := Z.lor (ushl 32 (temp_ s) 6) (wrap 8 decode) in
        let state := S (state_ s) in
        if (state =? 4)%nat then
          r ← write_three (Decoder src' (destidx s) (dest_ s) decode ch 0 temp);
          match r with
          | ReturnsFalse => Some ReturnsFalse
          | Goes s => rest_loop src' (Decoder src' (destidx s) (dest_ s) decode ch 0 0)
          end
        else rest_loop src' (Decoder src' (destidx s) (dest_ s) decode ch state temp)
  end.

(** The bytes left over in [temp], and the number of pad characters they call for. *)
Definition leftover (s : decoder) : option (outcome (nat * option (list Z) * nat)) :=
  match state_ s with
  | 0%nat => Some (Goes (destidx s, dest_ s, 0%nat))
  | 1%nat => Some ReturnsFalse
  | 2%nat =>
      match dest_ s with
      | None => Some (Goes ((destidx s + 1)%nat, None, 2%nat))
      | Some dest =>
          if (szdest <? destidx s + 1)%nat then Some ReturnsFalse
          else dest ← put (destidx s) [wrap 8 (ushr (temp_ s) 4)] dest; Some (Goes ((destidx s + 1)%nat, Some dest, 2%nat))
      end
  | 3%nat =>
      match dest_ s with
      | None => Some (Goes ((destidx s + 2)%nat, None, 1%nat))
      | Some dest =>
          if (szdest <? destidx s + 2)%nat then Some ReturnsFalse
          else
            let temp := ushr (temp_ s) 2 in
            dest ← put (destidx s + 1) [wrap 8 temp] dest;
            let temp := ushr temp 8 in
            dest ← put (destidx s) [wrap 8 temp] dest;
            Some (Goes ((destidx s + 2)%nat, Some dest, 1%nat))
      end
  | _ => None
  end.

(** Pad characters and whitespace to the end: how many of the former, counted in an [int]; [None] inside: returns
    false. *)
Fixpoint count_equals (src : list Z) (equals : Z) : option (option Z) :=
  match src with
  | [] => Some (Some equals)
  | ch :: src =>
      if is_pad ch then equals ← chk 32 (equals + 1); count_equals src equals
      else if ascii_isspace ch then count_equals src equals else Some None
  end.

(** What is left in [temp], then the count of pad characters. *)
Definition finish (s : decoder) : option (outcome (nat * option (list Z))) :=
  r ← leftover s;
  match r with
  | ReturnsFalse => Some ReturnsFalse
  | Goes (len, dest, expected_equals) =>
      equals ← count_equals (src_left s) 0;
      match equals with
      | None => Some ReturnsFalse
      | Some equals => if (equals =? 0) || (equals =? Z.of_nat expected_equals) then Some (Goes (len, dest)) else Some ReturnsFalse
      end
  end.

(** After the main loop. *)
Definition after_main (s : decoder) : option (outcome (nat * option (list Z))) :=
  if (decode_ s <? 0) && negb (ch_ s =? 61) && negb (ch_ s =? 46) && negb (ascii_isspace (ch_ s)) then Some ReturnsFalse
  else
    r ← (if is_pad (ch_ s) then Some (Goes (Decoder (ch_ s :: src_left s) (destidx s) (dest_ s) (decode_ s) (ch_ s) (state_ s) (temp_ s)))
         else rest_loop (src_left s) s);
    match r with ReturnsFalse => Some ReturnsFalse | Goes s => finish s end.

(** [Base64UnescapeInternal] on a buffer: false, or the length and the destination. *)
Definition Base64UnescapeInternal (src : list Z) (dest : option (list Z)) : option (outcome (nat * option (list Z))) :=
  r ← main_loop (S (length src)) (Decoder src 0 dest 0 0 0 0);
  match r with ReturnsFalse => Some ReturnsFalse | Goes s => after_main s end.
End Decode.

(** [Base64UnescapeInternal] on a string: false with an empty string, or the decoded bytes. *)
Definition Base64UnescapeString (unbase64 src : list Z) (uninit : Z) : option (bool * list Z) :=
  let slen := length src in
  let dest_len := (3 * (slen / 4) + slen mod 4)%nat in
  r ← Base64UnescapeInternal unbase64 dest_len src (Some (replicate dest_len uninit));
  match r with
  | ReturnsFalse => Some (false, [])
  | Goes (len, dest) => dest ← dest; if (len <=? dest_len)%nat then Some (true, take len dest) else None
  end.
Definition base64_decode (src : list Z) (uninit : Z) : option (bool * list Z) := Base64UnescapeString kUnBase64 src uninit.
Definition web_safe_base64_decode (src : list Z) (uninit : Z) : option (bool * list Z) := Base64UnescapeString kUnWebSafeBase64 src uninit.

(** *** Hexadecimal *)

Section Hex.
Context (char_is_signed : bool).

(** An entry of [kHexValueStrict] indexed by a [char] converted to [size_t]. *)
Definition strict_value (c : Z) : option Z :=
  let index := if char_is_signed then wrap 64 (swrap 8 c) else c in
  if index <? 256 then Some (at_byte kHexValueStrict index) else None.

Fixpoint strict_loop (hex output : list Z) : option (outcome (list Z)) :=
  match hex with
  | [] => Some (Goes output)
  | [_] => None
  | c1 :: c2 :: hex =>
      h1 ← strict_value c1;
      h2 ← strict_value c2;
      if (h1 =? -1) || (h2 =? -1) then Some ReturnsFalse else strict_loop hex (output ++ [wrap 8 (Z.shiftl h1 4 + h2)])
  end.

(** [hex_string_to_bytes] with a result: the boolean, and the string if it is true. *)
Definition hex_string_to_bytes (hex : list Z) : option (outcome (list Z)) :=
  let num_bytes := (length hex / 2)%nat in
  if negb (length hex =? num_bytes * 2)%nat then Some ReturnsFalse else strict_loop hex [].
End Hex.

(** [hex_string_to_bytes] without one, lenient. *)
Definition HexStringToBytesInternal (from : list Z) (num : nat) : list Z :=
  (fun i => wrap 8 (wrap 8 (Z.shiftl (at_byte kHexValueLenient (Z.land (from !!! (i * 2)%nat) 0xFF)) 4) +
    at_byte kHexValueLenient (Z.land (from !!! (i * 2 + 1)%nat) 0xFF))) <$> seq 0 num.
Definition hex_string_to_bytes_lenient (from : list Z) : list Z := HexStringToBytesInternal from (length from / 2).

Definition BytesToHexStringInternal (src : list Z) : list Z := concat ((fun b => take 2 (drop (Z.to_nat (b * 2)) kHexTable)) <$> src).
Definition bytes_to_hex_string (from : list Z) : list Z := BytesToHexStringInternal from.

(** ** The reference decoder *)

(** The bytes of sextets: three for four, one for two, two for three. *)
Fixpoint bytes_of (p : list Z) : list Z :=
  match p with
  | a :: b :: c :: d :: p => [a * 4 + b / 16; b mod 16 * 16 + c / 4; c mod 4 * 64 + d] ++ bytes_of p
  | [a; b; c] => [a * 4 + b / 16; b mod 16 * 16 + c / 4]
  | [a; b] => [a * 4 + b / 16]
  | _ => []
  end.
Definition expected_pads (n : nat) : nat := match (n mod 4)%nat with 2%nat => 2%nat | 3%nat => 1%nat | _ => 0%nat end.

(** Pad characters and whitespace: how many of the former. *)
Fixpoint pad_count (src : list Z) (n : nat) : option nat :=
  match src with
  | [] => Some n
  | ch :: src => if is_pad ch then pad_count src (S n) else if ascii_isspace ch then pad_count src n else None
  end.
(** All pad characters of a text. *)
Fixpoint pads (l : list Z) : nat := match l with [] => 0%nat | c :: l => if is_pad c then S (pads l) else pads l end.

Lemma pads_app l m : pads (l ++ m) = (pads l + pads m)%nat.
Proof. induction l as [|c l IH]; [done|]. cbn [app pads]. rewrite IH. by destruct (is_pad c). Qed.
Lemma pad_count_pads l : forall n k, pad_count l n = Some k -> k = (n + pads l)%nat.
Proof.
  induction l as [|c l IH]; intros n k; cbn [pad_count pads]; [intros [= <-]; lia|]. destruct (is_pad c); [intros H; rewrite (IH _ _ H); lia|].
  destruct (ascii_isspace c); [apply IH|done].
Qed.
(** The count in an [int] is right as long as it fits. *)
Lemma count_equals_ok l : forall n, Z.of_nat (n + pads l) < 2 ^ 31 -> count_equals l (Z.of_nat n) = Some (Z.of_nat <$> pad_count l n).
Proof.
  induction l as [|c l IH]; intros n Hn; cbn [count_equals pad_count pads] in *; [done|]. destruct (is_pad c).
  - rewrite chk_Some by (change (32 - 1) with 31; lia). rewrite bind_some. replace (Z.of_nat n + 1) with (Z.of_nat (S n)) by lia. apply IH. lia.
  - destruct (ascii_isspace c); [by apply IH|done].
Qed.
Lemma finish_pads {A} l expected (a : A) : Z.of_nat (pads l) < 2 ^ 31 ->
  (equals ← count_equals l 0; match equals with None => Some ReturnsFalse | Some equals => if (equals =? 0) || (equals =? Z.of_nat expected) then Some (Goes a) else Some ReturnsFalse end) =
  match pad_count l 0 with None => Some ReturnsFalse | Some n => if (n =? 0)%nat || (n =? expected)%nat then Some (Goes a) else Some ReturnsFalse end.
Proof.
  intros Hl. pose proof (count_equals_ok l 0 Hl) as E. change (Z.of_nat 0) with 0 in E. rewrite E, bind_some. destruct (pad_count l 0) as [n|]; [|done]. cbn [fmap option_fmap option_map].
  by destruct (Z.eqb_spec (Z.of_nat n) 0), (Nat.eqb_spec n 0), (Z.eqb_spec (Z.of_nat n) (Z.of_nat expected)), (Nat.eqb_spec n expected); try lia.
Qed.

Section Reference.
Context (unbase64 : list Z).

Definition value_of (c : Z) : Z := at_byte unbase64 c.

(** The end of the text with [p] sextets pending. *)
Definition ref_finish (p tail : list Z) : option (list Z) :=
  if (length p =? 1)%nat then None
  else
    match pad_count tail 0 with
    | Some n => if (n =? 0)%nat || (n =? expected_pads (length p))%nat then Some (bytes_of p) else None
    | None => None
    end.

(** One character after the other. *)
Fixpoint ref_decode (p l : list Z) : option (list Z) :=
  match l with
  | [] => ref_finish p []
  | c :: l' =>
      if value_of c <? 0 then if ascii_isspace c then ref_decode p l' else if is_pad c then ref_finish p l else None
      else if (length p =? 3)%nat then (fun out => bytes_of (p ++ [value_of c]) ++ out) <$> ref_decode [] l'
      else ref_decode (p ++ [value_of c]) l'
  end.

(** How long the result can be. *)
Definition out_size (m : nat) : nat := (3 * (m / 4) + m mod 4)%nat.

Lemma bytes_of_length p : (length p <= 4)%nat -> (length (bytes_of p) <= out_size (length p))%nat.
Proof. destruct p as [|a [|b [|c [|d [|? ?]]]]]; cbn [length bytes_of app]; intros; unfold out_size; try lia; cbn; lia. Qed.

Lemma out_size_mono m n : (m <= n)%nat -> (out_size m <= out_size n)%nat.
Proof. unfold out_size. intros H. zify. zlia. Qed.

Lemma ref_finish_length p l out : (length p <= 3)%nat -> ref_finish p l = Some out -> (length out <= out_size (length p))%nat.
Proof.
  intros Hp. unfold ref_finish. destruct (length p =? 1)%nat; [done|]. destruct (pad_count l 0); [|done]. destruct (_ || _); [|done]. intros [= <-].
  apply bytes_of_length. lia.
Qed.

Lemma ref_decode_length l : forall p out, ref_decode p l = Some out -> (length p <= 3)%nat -> (length out <= out_size (length p + length l))%nat.
Proof.
  induction l as [|c l IH]; intros p out H Hp; cbn [ref_decode] in H.
  - rewrite Nat.add_0_r. by apply (ref_finish_length p []).
  - cbn [length]. destruct (value_of c <? 0).
    + destruct (ascii_isspace c); [pose proof (IH _ _ H Hp); pose proof (out_size_mono (length p + length l) (length p + S (length l))); lia|].
      destruct (is_pad c); [|done]. pose proof (ref_finish_length _ _ _ Hp H). pose proof (out_size_mono (length p) (length p + S (length l))). lia.
    + destruct (Nat.eqb_spec (length p) 3) as [E|E].
      * destruct (ref_decode [] l) as [o|] eqn:Eo; [|done]. injection H as <-. specialize (IH [] o Eo ltac:(cbn; lia)). cbn [length] in IH. rewrite length_app.
        destruct p as [|x [|y [|z [|? ?]]]]; cbn [length] in E; try lia. cbn [app bytes_of length]. unfold out_size in *. zify. zlia.
      * specialize (IH _ _ H). rewrite length_app in IH. cbn [length] in IH. specialize (IH ltac:(lia)). by replace (length p + 1 + length l)%nat with (length p + S (length l))%nat in IH by lia.
Qed.

(** A table that maps characters other than the pads, whitespace and the null character to sextets. *)
Definition table_ok : Prop := forall c, byte_ok c ->
  (value_of c = -1 \/ 0 <= value_of c < 64) /\ (c = 0 \/ is_pad c = true \/ ascii_isspace c = true -> value_of c = -1).
End Reference.

Lemma tables_ok : table_ok kUnBase64 /\ table_ok kUnWebSafeBase64.
Proof.
  assert (H : forall t, forallb (fun c => ((at_byte t c =? -1) || ((0 <=? at_byte t c) && (at_byte t c <? 64))) &&
    implb ((c =? 0) || is_pad c || ascii_isspace c) (at_byte t c =? -1)) (zrange 256) = true -> table_ok t).
  { intros t Ht c Hc. pose proof (byte_forall _ Ht c Hc) as H. cbv beta in H. unfold value_of. apply andb_true_iff in H as (H1 & H2). split; [lia|].
    intros Hor. assert (E : (c =? 0) || is_pad c || ascii_isspace c = true) by (destruct Hor as [-> | [-> | ->]]; [done|by rewrite orb_true_r|by rewrite !orb_true_r]).
    rewrite E in H2. cbn in H2. lia. }
  split; apply H; by vm_compute.
Qed.

(** *** The word of characters *)

(** [temp] holds the sextets [p] in its low bits. *)
Definition holds (t : Z) (p : list Z) : Prop := 0 <= t < 2 ^ 32 /\ t mod 2 ^ (6 * Z.of_nat (length p)) = horner 0 64 p.
Definition sextets (p : list Z) : Prop := Forall (fun v => 0 <= v < 64) p.

Lemma holds_nil t : 0 <= t < 2 ^ 32 -> holds t [].
Proof. intros Ht. split; [done|]. cbn [length]. change (2 ^ (6 * Z.of_nat 0)) with 1. by rewrite Z.mod_1_r. Qed.

Lemma mod_shift x v m : 0 < m -> 0 <= v < 64 -> (x * 64 + v) mod (m * 64) = x mod m * 64 + v.
Proof.
  intros Hm Hv. symmetry. pose proof (Z.mod_pos_bound x m Hm). pose proof (Z.div_mod x m ltac:(lia)). apply (Z.mod_unique _ _ (x / m)); [left; nia|nia].
Qed.

Lemma holds_snoc t p v : holds t p -> (length p <= 3)%nat -> 0 <= v < 64 -> holds (Z.lor (ushl 32 t 6) (wrap 8 v)) (p ++ [v]).
Proof.
  intros (Ht & Hp) Hn Hv. rewrite (wrap_small 8 v) by lia.
  assert (E : Z.lor (ushl 32 t 6) v = (t mod 2 ^ 26) * 64 + v).
  { unfold ushl, wrap. rewrite Z.shiftl_mul_pow2 by lia. change (2 ^ 32) with (2 ^ 26 * 2 ^ 6). rewrite Z.mul_mod_distr_r by lia.
    rewrite lor_shiftl_add; [done|lia|lia]. }
  rewrite E. split; [pose proof (Z.mod_pos_bound t (2 ^ 26)); lia|]. rewrite length_app, Nat2Z.inj_add. cbn [length].
  unfold horner in *. rewrite fold_left_app. cbn [fold_left]. rewrite <- Hp. set (k := 6 * Z.of_nat (length p)).
  replace (6 * (Z.of_nat (length p) + Z.of_nat 1)) with (k + 6) by lia. assert (Hk : 0 <= k <= 18) by lia.
  rewrite Z.pow_add_r by lia. change (2 ^ 6) with 64. rewrite mod_shift by lia. f_equal. f_equal.
  apply Z.mod_mod_divide. exists (2 ^ (26 - k)). rewrite <- Z.pow_add_r by lia. f_equal. lia.
Qed.

(** The bytes of a full word. *)
Lemma holds_bytes t a b c d : holds t [a; b; c; d] -> sextets [a; b; c; d] ->
  [wrap 8 (ushr (ushr t 8) 8); wrap 8 (ushr t 8); wrap 8 t] = bytes_of [a; b; c; d].
Proof.
  intros (Ht & Hp) Hs. unfold sextets in Hs. rewrite !Forall_cons_iff in Hs. destruct Hs as (Ha & Hb & Hc & Hd & _).
  cbn [length] in Hp. change (2 ^ (6 * Z.of_nat 4)) with 16777216 in Hp. unfold horner in Hp. cbn [fold_left] in Hp.
  cbn [bytes_of app]. rewrite !ushr_val by lia. unfold wrap. change (2 ^ 8) with 256.
  assert (Hq : t = 16777216 * (t / 16777216) + ((((0 * 64 + a) * 64 + b) * 64 + c) * 64 + d)) by zlia. clear Hp. set (q := t / 16777216) in *. clearbody q. clear Ht.
  f_equal; [|f_equal; [|f_equal]]; zlia.
Qed.

Lemma holds_two t a b : holds t [a; b] -> sextets [a; b] -> [wrap 8 (ushr t 4)] = bytes_of [a; b].
Proof.
  intros (Ht & Hp) Hs. unfold sextets in Hs. rewrite !Forall_cons_iff in Hs. destruct Hs as (Ha & Hb & _).
  cbn [length] in Hp. change (2 ^ (6 * Z.of_nat 2)) with 4096 in Hp. unfold horner in Hp. cbn [fold_left] in Hp.
  cbn [bytes_of]. rewrite ushr_val by lia. unfold wrap. change (2 ^ 8) with 256. change (2 ^ 4) with 16. f_equal. zlia.
Qed.

Lemma holds_three t a b c : holds t [a; b; c] -> sextets [a; b; c] -> [wrap 8 (ushr (ushr t 2) 8); wrap 8 (ushr t 2)] = bytes_of [a; b; c].
Proof.
  intros (Ht & Hp) Hs. unfold sextets in Hs. rewrite !Forall_cons_iff in Hs. destruct Hs as (Ha & Hb & Hc & _).
  cbn [length] in Hp. change (2 ^ (6 * Z.of_nat 3)) with 262144 in Hp. unfold horner in Hp. cbn [fold_left] in Hp.
  cbn [bytes_of]. rewrite !ushr_val by lia. unfold wrap. change (2 ^ 8) with 256. change (2 ^ 2) with 4.
  assert (Hq : t = 262144 * (t / 262144) + (((0 * 64 + a) * 64 + b) * 64 + c)) by zlia. clear Hp. set (q := t / 262144) in *. clearbody q. clear Ht.
  f_equal; [|f_equal]; zlia.
Qed.

(** *** Writing backwards *)

Lemma put_back i vs : forall d, (i + length vs <= length d)%nat -> forall v, (i + S (length vs) <= length d)%nat ->
  (d1 ← put (i + 1) vs d; put i [v] d1) = put i (v :: vs) d.
Proof.
  intros d Hd v Hv. unfold put. cbn [length]. rewrite (decide_True (P := (i + 1 + length vs <= length d)%nat)) by lia. rewrite bind_some.
  assert (Ht : length (take (i + 1) d) = (i + 1)%nat) by (rewrite length_take; lia).
  rewrite decide_True by (rewrite !length_app, length_drop; lia). rewrite decide_True by lia. f_equal.
  rewrite take_app_le by lia. rewrite take_take, Nat.min_l by lia. f_equal. cbn [app]. f_equal.
  rewrite drop_app_ge by lia. rewrite Ht. replace (i + 1 - (i + 1))%nat with 0%nat by lia. rewrite drop_0. f_equal. f_equal. lia.
Qed.

Section Written.
Context (unbase64 : list Z) (szdest : nat).

(** The decoder has written [out] and holds [p]. *)
Definition written (s : decoder) (p out : list Z) : Prop :=
  destidx s = length out /\ sextets p /\ 0 <= temp_ s < 2 ^ 32 /\
  match dest_ s with Some d => length d = szdest /\ take (length out) d = out /\ holds (temp_ s) p | None => True end.

(** Room for what is left of the source, and few enough pad characters in it. *)
Definition room (p l out : list Z) : Prop :=
  let m := (length p + length l)%nat in (length out + 3 * (m / 4) + m mod 4 <= szdest)%nat /\ Z.of_nat (pads l) < 2 ^ 31.

(** The outcome is that of the reference. *)
Definition agrees (dest : option (list Z)) (r : option (outcome (nat * option (list Z)))) (spec : option (list Z)) : Prop :=
  match spec with
  | None => r = Some ReturnsFalse
  | Some out => match dest with
                | None => r = Some (Goes (length out, None))
                | Some _ => exists d, r = Some (Goes (length out, Some d)) /\ take (length out) d = out
                end
  end.

Lemma agrees_same d d' r spec : (d = None <-> d' = None) -> agrees d r spec -> agrees d' r spec.
Proof. intros H Ha. destruct spec as [out|]; [|done]. destruct d, d'; try done; cbn in *; destruct H as [H1 H2]; first [by specialize (H1 eq_refl)|by specialize (H2 eq_refl)]. Qed.

Lemma write_three_ok s a b c d out : written s [a; b; c; d] out -> (length out + 3 <= szdest)%nat ->
  exists dest temp, write_three szdest s = Some (Goes (Decoder (src_left s) (destidx s + 3) dest (decode_ s) (ch_ s) (state_ s) temp)) /\
    (forall src dec ch st t, (t = temp \/ t = 0) -> written (Decoder src (destidx s + 3) dest dec ch st t) [] (out ++ bytes_of [a; b; c; d])) /\
    (dest = None <-> dest_ s = None).
Proof.
  intros (Hi & Hs & Ht & Hd) Hr. unfold write_three. destruct (dest_ s) as [dest|] eqn:Ed.
  - destruct Hd as (Hl & Hout & Hh). destruct (Nat.ltb_spec szdest (destidx s + 3)); [lia|]. cbv zeta.
    pose proof (put_back (destidx s + 1) [wrap 8 (temp_ s)] dest ltac:(cbn [length]; lia) (wrap 8 (ushr (temp_ s) 8)) ltac:(cbn [length]; lia)) as E1.
    pose proof (put_back (destidx s) [wrap 8 (ushr (temp_ s) 8); wrap 8 (temp_ s)] dest ltac:(cbn [length]; lia) (wrap 8 (ushr (ushr (temp_ s) 8) 8)) ltac:(cbn [length]; lia)) as E2.
    rewrite (holds_bytes _ a b c d) in E2 by done. replace (destidx s + 1 + 1)%nat with (destidx s + 2)%nat in E1 by lia.
    destruct (put_spec (destidx s) (bytes_of [a; b; c; d]) dest) as (dest3 & E3 & Hl3 & Ht3 & _); [cbn [bytes_of app length]; lia|].
    rewrite E3 in E2. destruct (put (destidx s + 2) [wrap 8 (temp_ s)] dest) as [d1|] eqn:P1; [rewrite bind_some in E1|cbn in E1; rewrite <- E1 in E2; by cbn in E2].
    rewrite bind_some, E1. destruct (put (destidx s + 1) _ dest) as [d2|] eqn:P2; [|by cbn in E2].
    rewrite bind_some in E2. rewrite bind_some, E2, bind_some. eexists _, _. split; [reflexivity|]. split; [|done].
    intros src dec ch st t Htt. unfold written. cbn [destidx dest_ temp_]. rewrite length_app, Hi. cbn [bytes_of app length].
    assert (Htr : 0 <= t < 2 ^ 32) by (destruct Htt as [-> | ->]; [|lia]; rewrite !ushr_val by lia; zlia).
    split; [lia|]. split; [constructor|]. split; [done|]. split; [lia|]. split; [|by apply holds_nil].
    rewrite Hi in Ht3. cbn [bytes_of app length] in Ht3. by rewrite Ht3, Hout.
  - exists None, (temp_ s). split; [done|]. split; [|done]. intros src dec ch st t Htt. unfold written. cbn [destidx dest_ temp_]. rewrite length_app, Hi. cbn [bytes_of app length].
    split; [lia|]. split; [constructor|]. split; [|done]. destruct Htt as [-> | ->]; [done|lia].
Qed.

(** *** The end of the text *)

Lemma sextets_app p v : sextets p -> 0 <= v < 64 -> sextets (p ++ [v]).
Proof. intros Hp Hv. apply Forall_app. split; [done|]. by constructor. Qed.

Lemma finish_ok s p out l : written s p out -> state_ s = length p -> src_left s = l -> (length p <= 3)%nat -> room p l out ->
  agrees (dest_ s) (finish szdest s) (app out <$> ref_finish p l).
Proof.
  intros (Hi & Hs & Ht & Hd) Hst Hl Hn Hr. unfold room in Hr. cbv zeta in Hr. destruct Hr as [Hr Hpads]. unfold finish, leftover, ref_finish. rewrite Hst, Hl. destruct p as [|a [|b [|c [|? ?]]]]; cbn [length Nat.eqb] in *; [| | | |lia].
  - rewrite bind_some. rewrite finish_pads by done. destruct (pad_count l 0) as [n|]; [|done]. change (expected_pads 0) with 0%nat. destruct ((n =? 0)%nat || _); [|done].
    cbn [agrees fmap option_fmap option_map bytes_of]. rewrite app_nil_r, Hi. destruct (dest_ s) as [d|]; [|done]. exists d. split; [done|apply Hd].
  - done.
  - change (expected_pads 2) with 2%nat. destruct (dest_ s) as [d|].
    + destruct Hd as (Hld & Hout & Hh). destruct (Nat.ltb_spec szdest (destidx s + 1)); [zify; zlia|].
      destruct (put_spec (destidx s) [wrap 8 (ushr (temp_ s) 4)] d) as (d1 & -> & Hl1 & Ht1 & _); [cbn [length]; lia|]. rewrite !bind_some.
      rewrite finish_pads by done. destruct (pad_count l 0) as [n|]; [|done]. destruct ((n =? 0)%nat || _); [|done]. cbn [agrees fmap option_fmap option_map].
      rewrite (holds_two _ a b) in Ht1 by done. exists d1. rewrite length_app. cbn [bytes_of length] in *. rewrite Hi in *. split; [done|by rewrite Ht1, Hout].
    + rewrite bind_some. rewrite finish_pads by done. destruct (pad_count l 0) as [n|]; [|done]. destruct ((n =? 0)%nat || _); [|done].
      cbn [agrees fmap option_fmap option_map]. rewrite length_app, Hi. done.
  - change (expected_pads 3) with 1%nat. destruct (dest_ s) as [d|].
    + destruct Hd as (Hld & Hout & Hh). destruct (Nat.ltb_spec szdest (destidx s + 2)); [zify; zlia|]. cbv zeta.
      pose proof (put_back (destidx s) [wrap 8 (ushr (temp_ s) 2)] d ltac:(cbn [length]; lia) (wrap 8 (ushr (ushr (temp_ s) 2) 8)) ltac:(cbn [length]; lia)) as E2.
      rewrite (holds_three _ a b c) in E2 by done. destruct (put_spec (destidx s) (bytes_of [a; b; c]) d) as (d3 & E3 & Hl3 & Ht3 & _); [cbn [bytes_of length]; lia|].
      rewrite E3 in E2. destruct (put (destidx s + 1) _ d) as [d2|]; [|by cbn in E2]. rewrite bind_some in E2. rewrite bind_some, E2, !bind_some.
      rewrite finish_pads by done. destruct (pad_count l 0) as [n|]; [|done]. destruct ((n =? 0)%nat || _); [|done]. cbn [agrees fmap option_fmap option_map].
      exists d3. rewrite length_app. cbn [bytes_of length] in *. rewrite Hi in *. split; [done|by rewrite Ht3, Hout].
    + rewrite bind_some. rewrite finish_pads by done. destruct (pad_count l 0) as [n|]; [|done]. destruct ((n =? 0)%nat || _); [|done].
      cbn [agrees fmap option_fmap option_map]. rewrite length_app, Hi. done.
Qed.

Context (Htable : table_ok unbase64).

Lemma room_skip p c l out : room p (c :: l) out -> room p l out.
Proof. unfold room. cbv zeta. cbn [length pads]. intros [H1 H2]. split; [revert H1; zify; zlia|destruct (is_pad c); lia]. Qed.

Lemma room_shift p v c l out : room p (c :: l) out -> room (p ++ [v]) l out.
Proof. unfold room. cbv zeta. rewrite length_app. cbn [length pads]. intros [H1 H2]. split; [revert H1; zify; zlia|destruct (is_pad c); lia]. Qed.

Lemma room_flush a b c d l out : room [a; b; c; d] l out -> (length out + 3 <= szdest)%nat /\ room [] l (out ++ bytes_of [a; b; c; d]).
Proof. unfold room. cbv zeta. rewrite length_app. cbn [bytes_of app length]. intros [H1 H2]. split; [revert H1; zify; zlia|]. split; [revert H1; zify; zlia|done]. Qed.

Lemma fmap_app_assoc (o a : list Z) (x : option (list Z)) : app (o ++ a) <$> x = app o <$> ((fun out => a ++ out) <$> x).
Proof. destruct x as [x|]; [|done]. cbn. by rewrite app_assoc. Qed.

Lemma four_list (p : list Z) v : (length p = 3)%nat -> exists a b c, p = [a; b; c] /\ p ++ [v] = [a; b; c; v].
Proof. destruct p as [|a [|b [|c [|? ?]]]]; cbn [length]; intros; try lia. by exists a, b, c. Qed.

Lemma rest_loop_ok l : Forall byte_ok l -> forall s p out, written s p out -> state_ s = length p -> (length p <= 3)%nat -> room p l out ->
  agrees (dest_ s) (r ← rest_loop unbase64 szdest l s; match r with ReturnsFalse => Some ReturnsFalse | Goes s => finish szdest s end)
    (app out <$> ref_decode unbase64 p l).
Proof.
  induction 1 as [|c l Hc Hl IH]; intros s p out Hw Hst Hn Hr; cbn [rest_loop ref_decode].
  - rewrite bind_some. by apply (finish_ok (Decoder [] (destidx s) (dest_ s) (decode_ s) (ch_ s) (state_ s) (temp_ s)) p out []).
  - destruct (Htable c Hc) as (Hv & Hbad). fold (value_of unbase64 c). cbv zeta. destruct (Z.ltb_spec (value_of unbase64 c) 0) as [Hneg|Hpos].
    + destruct (ascii_isspace c).
      * apply (IH (Decoder l (destidx s) (dest_ s) _ c (state_ s) (temp_ s)) p out); [done|done|done|by apply room_skip in Hr].
      * destruct (is_pad c); [|done]. rewrite bind_some. by apply (finish_ok (Decoder (c :: l) (destidx s) (dest_ s) (value_of unbase64 c) c (state_ s) (temp_ s)) p out (c :: l)).
    + assert (Hv64 : 0 <= value_of unbase64 c < 64) by lia. destruct Hw as (Hi & Hs & Ht & Hd). rewrite Hst.
      assert (Htemp : 0 <= Z.lor (ushl 32 (temp_ s) 6) (wrap 8 (value_of unbase64 c)) < 2 ^ 32).
      { apply lor_range; [lia|apply wrap_range; lia|]. rewrite wrap_small by lia. lia. }
      assert (Hw' : forall st, written (Decoder l (destidx s) (dest_ s) (value_of unbase64 c) c st (Z.lor (ushl 32 (temp_ s) 6) (wrap 8 (value_of unbase64 c)))) (p ++ [value_of unbase64 c]) out).
      { intros st. split; [done|]. split; [by apply sextets_app|]. split; [done|]. cbn [dest_ temp_]. destruct (dest_ s); [|done].
        destruct Hd as (Hd1 & Hd2 & Hd3). split; [done|]. split; [done|]. by apply holds_snoc. }
      change (S (length p) =? 4)%nat with (length p =? 3)%nat. destruct (Nat.eqb_spec (length p) 3) as [E3|E3].
      * destruct (four_list p (value_of unbase64 c) E3) as (x & y & z & -> & E). rewrite E in Hw'. apply (room_shift _ (value_of unbase64 c)) in Hr. rewrite E in Hr.
        destruct (room_flush _ _ _ _ _ _ Hr) as (Hroom & Hr'). destruct (write_three_ok _ x y z (value_of unbase64 c) out (Hw' 0%nat) Hroom) as (dest & temp & -> & Hnext & Hnone).
        rewrite bind_some. cbn [destidx dest_ src_left decode_ ch_ state_]. rewrite E, <- fmap_app_assoc.
        specialize (IH (Decoder l (destidx s + 3) dest (value_of unbase64 c) c 0 0) [] _ (Hnext l (value_of unbase64 c) c 0%nat 0 (or_intror eq_refl)) eq_refl ltac:(cbn; lia) Hr').
        cbn [dest_] in IH, Hnone. by apply (agrees_same dest).
      * apply (IH (Decoder l (destidx s) (dest_ s) (value_of unbase64 c) c (S (length p)) _) (p ++ [value_of unbase64 c]) out (Hw' _)); cbn [state_]; rewrite ?length_app; cbn [length]; [lia|lia|by apply (room_shift p (value_of unbase64 c)) in Hr].
Qed.

(** *** The main loop *)

(** Whitespace at the start is skipped; the character found is data, or the text goes on with it. *)
Lemma GET_INPUT_ok remain l : Forall byte_ok l -> (remain <= length l)%nat -> (0 < remain)%nat -> exists sp c l',
  GET_INPUT unbase64 remain l = Some (l', c, value_of unbase64 c) /\ l = sp ++ c :: l' /\ byte_ok c /\ Forall byte_ok l' /\
  (forall p, ref_decode unbase64 p l = ref_decode unbase64 p (c :: l')) /\
  (remain <= S (length l'))%nat.
Proof.
  induction 1 as [|c l Hc Hl IH]; intros Hn Hr; cbn [length] in Hn; [lia|]. cbn [GET_INPUT]. fold (value_of unbase64 c). cbv zeta.
  destruct ((value_of unbase64 c <? 0) && ascii_isspace c && (remain <=? length l)%nat) eqn:E.
  - apply andb_true_iff in E as (E & Hlen). apply andb_true_iff in E as (Hneg & Hsp). apply Nat.leb_le in Hlen.
    destruct (IH Hlen Hr) as (sp & d & l' & -> & -> & Hd & Hl' & Href & Hlen'). exists (c :: sp), d, l'. split; [done|]. split; [done|]. split; [done|]. split; [done|].
    split; [|done]. intros p. cbn [ref_decode]. rewrite Hneg, Hsp. apply Href.
  - exists [], c, l. by split_and!.
Qed.

(** The state after a character that is no data: what the rest of the function makes of it. *)
Lemma after_break s p out c l : written s p out -> state_ s = length p -> (length p <= 3)%nat -> src_left s = l -> ch_ s = c -> decode_ s = value_of unbase64 c ->
  value_of unbase64 c < 0 -> Forall byte_ok l -> room p (c :: l) out ->
  agrees (dest_ s) (after_main unbase64 szdest s) (app out <$> ref_decode unbase64 p (c :: l)).
Proof.
  intros Hw Hst Hn Hl Hch Hdec Hneg Hb Hr. unfold after_main. rewrite Hch, Hdec. cbn [ref_decode]. destruct (Z.ltb_spec (value_of unbase64 c) 0); [|lia]. cbn [andb].
  unfold is_pad. destruct (c =? 61) eqn:E61; cbn [negb andb orb].
  { assert (Hs : ascii_isspace c = false) by (apply Z.eqb_eq in E61 as ->; by vm_compute). rewrite Hs, bind_some. rewrite <- Hl.
    by apply (finish_ok (Decoder (c :: src_left s) (destidx s) (dest_ s) (value_of unbase64 c) c (state_ s) (temp_ s)) p out (c :: src_left s)); rewrite ?Hl. }
  destruct (c =? 46) eqn:E46; cbn [negb andb orb].
  { assert (Hs : ascii_isspace c = false) by (apply Z.eqb_eq in E46 as ->; by vm_compute). rewrite Hs, bind_some. rewrite <- Hl.
    by apply (finish_ok (Decoder (c :: src_left s) (destidx s) (dest_ s) (value_of unbase64 c) c (state_ s) (temp_ s)) p out (c :: src_left s)); rewrite ?Hl. }
  destruct (ascii_isspace c); cbn [negb]; [|done]. rewrite Hl. apply rest_loop_ok; try done. by apply room_skip in Hr.
Qed.

Definition continue (r : option (bool * decoder)) (fuel : nat) : option (outcome (nat * option (list Z))) :=
  '(complete, s) ← r;
  if negb complete then after_main unbase64 szdest s
  else
    r ← write_three szdest s;
    match r with
    | ReturnsFalse => Some ReturnsFalse
    | Goes s => r ← main_loop unbase64 szdest fuel s; match r with ReturnsFalse => Some ReturnsFalse | Goes s => after_main unbase64 szdest s end
    end.

(** Another character read by the slow path. *)
Lemma slow_step s p out c : written s p out -> (length p <= 3)%nat -> byte_ok c -> 0 <= value_of unbase64 c ->
  forall src dec ch st, (length p = 0%nat -> written (Decoder src (destidx s) (dest_ s) dec ch st (match dest_ s with Some _ => wrap 8 (value_of unbase64 c) | None => temp_ s end)) [value_of unbase64 c] out) /\
    written (Decoder src (destidx s) (dest_ s) dec ch st (shift_in (dest_ s) (temp_ s) (value_of unbase64 c))) (p ++ [value_of unbase64 c]) out.
Proof.
  intros (Hi & Hs & Ht & Hd) Hn Hc Hv src dec ch st. destruct (Htable c Hc) as (Hv64 & _). assert (Hval : 0 <= value_of unbase64 c < 64) by lia. split.
  - intros Hp. split; [done|]. split; [constructor; [done|constructor]|]. cbn [dest_ temp_]. rewrite wrap_small by lia. destruct (dest_ s) as [d|]; [|done].
    destruct Hd as (H1 & H2 & H3). split; [lia|]. split; [done|]. split; [done|]. split; [lia|]. cbn [length]. change (2 ^ (6 * Z.of_nat 1)) with 64. rewrite Z.mod_small by lia. unfold horner. cbn [fold_left]. lia.
  - unfold shift_in. split; [done|]. split; [by apply sextets_app|]. cbn [dest_ temp_]. destruct (dest_ s) as [d|]; [|done].
    destruct Hd as (H1 & H2 & H3). split; [|split; [done|split; [done|by apply holds_snoc]]]. apply lor_range; [lia|apply wrap_range; lia|]. rewrite wrap_small by lia. lia.
Qed.

Lemma room_skips p sp l out : room p (sp ++ l) out -> room p l out.
Proof. induction sp as [|c sp IH]; [done|]. intros H. apply IH. by apply room_skip in H. Qed.

Lemma slow_four_ok s out fuel : written s [] out -> Forall byte_ok (src_left s) -> (4 <= length (src_left s))%nat -> room [] (src_left s) out -> state_ s = 0%nat ->
  (forall s' out', written s' [] out' -> state_ s' = 0%nat -> 0 <= decode_ s' -> is_pad (ch_ s') = false -> Forall byte_ok (src_left s') ->
     (length (src_left s') < length (src_left s))%nat -> room [] (src_left s') out' ->
     agrees (dest_ s') (r ← main_loop unbase64 szdest fuel s'; match r with ReturnsFalse => Some ReturnsFalse | Goes s => after_main unbase64 szdest s end)
       (app out' <$> ref_decode unbase64 [] (src_left s'))) ->
  agrees (dest_ s) (continue (slow_four unbase64 s) fuel) (app out <$> ref_decode unbase64 [] (src_left s)).
Proof.
  intros Hw Hb Hn Hr Hst Hnext. unfold slow_four, continue.
  destruct (GET_INPUT_ok 4 (src_left s) Hb Hn ltac:(lia)) as (sp1 & c1 & l1 & -> & E1 & Hc1 & Hl1 & -> & Hn1). rewrite bind_some. rewrite E1 in Hr. apply room_skips in Hr.
  destruct (Z.ltb_spec (value_of unbase64 c1) 0) as [Hneg|Hp1].
  { rewrite bind_some. cbn [negb]. apply (after_break (Decoder l1 (destidx s) (dest_ s) (value_of unbase64 c1) c1 0 (temp_ s)) [] out c1 l1); try done. by cbn; lia. }
  assert (Hlen1 : (length l1 < length (src_left s))%nat) by (rewrite E1, length_app; cbn [length]; lia). clear E1 Hn Hb.
  destruct (slow_step s [] out c1 Hw ltac:(cbn; lia) Hc1 Hp1 l1 0 0 1%nat) as (Hw1 & _). specialize (Hw1 eq_refl). apply (room_shift _ (value_of unbase64 c1)) in Hr. cbn [app] in Hr.
  cbv zeta. set (t1 := match dest_ s with Some _ => wrap 8 (value_of unbase64 c1) | None => temp_ s end) in *. clearbody t1. cbn [ref_decode].
  destruct (Z.ltb_spec (value_of unbase64 c1) 0) as [|_]; [lia|]. cbn [length Nat.eqb app].
  destruct (GET_INPUT_ok 3 l1 Hl1 ltac:(lia) ltac:(lia)) as (sp2 & c2 & l2 & -> & E2 & Hc2 & Hl2 & -> & Hn2). rewrite bind_some. rewrite E2 in Hr. apply room_skips in Hr.
  destruct (Z.ltb_spec (value_of unbase64 c2) 0) as [Hneg|Hp2].
  { rewrite bind_some. cbn [negb]. by apply (after_break (Decoder l2 (destidx s) (dest_ s) (value_of unbase64 c2) c2 1 t1) [value_of unbase64 c1] out c2 l2); [| |cbn; lia| | | | | |]. }
  assert (Hlen2 : (length l2 < length (src_left s))%nat) by (rewrite E2, length_app in Hlen1; cbn [length] in Hlen1; lia). clear E2 Hn1 Hl1 Hlen1.
  destruct (slow_step _ _ _ c2 Hw1 ltac:(cbn; lia) Hc2 Hp2 l2 0 0 2%nat) as (_ & Hw2). cbn [destidx dest_ temp_ app] in Hw2. apply (room_shift _ (value_of unbase64 c2)) in Hr. cbn [app] in Hr.
  set (t2 := shift_in (dest_ s) t1 (value_of unbase64 c2)) in *. clearbody t2. cbn [ref_decode].
  destruct (Z.ltb_spec (value_of unbase64 c2) 0) as [|_]; [lia|]. cbn [length Nat.eqb app].
  destruct (GET_INPUT_ok 2 l2 Hl2 ltac:(lia) ltac:(lia)) as (sp3 & c3 & l3 & -> & E3 & Hc3 & Hl3 & -> & Hn3). rewrite bind_some. rewrite E3 in Hr. apply room_skips in Hr.
  destruct (Z.ltb_spec (value_of unbase64 c3) 0) as [Hneg|Hp3].
  { rewrite bind_some. cbn [negb]. by apply (after_break (Decoder l3 (destidx s) (dest_ s) (value_of unbase64 c3) c3 2 t2) [value_of unbase64 c1; value_of unbase64 c2] out c3 l3); [| |cbn; lia| | | | | |]. }
  assert (Hlen3 : (length l3 < length (src_left s))%nat) by (rewrite E3, length_app in Hlen2; cbn [length] in Hlen2; lia). clear E3 Hn2 Hl2 Hlen2.
  destruct (slow_step _ _ _ c3 Hw2 ltac:(cbn; lia) Hc3 Hp3 l3 0 0 3%nat) as (_ & Hw3). cbn [destidx dest_ temp_ app] in Hw3. apply (room_shift _ (value_of unbase64 c3)) in Hr. cbn [app] in Hr.
  set (t3 := shift_in (dest_ s) t2 (value_of unbase64 c3)) in *. clearbody t3. cbn [ref_decode].
  destruct (Z.ltb_spec (value_of unbase64 c3) 0) as [|_]; [lia|]. cbn [length Nat.eqb app].
  destruct (GET_INPUT_ok 1 l3 Hl3 ltac:(lia) ltac:(lia)) as (sp4 & c4 & l4 & -> & E4 & Hc4 & Hl4 & -> & Hn4). rewrite bind_some. rewrite E4 in Hr. apply room_skips in Hr.
  destruct (Z.ltb_spec (value_of unbase64 c4) 0) as [Hneg|Hp4].
  { rewrite bind_some. cbn [negb]. by apply (after_break (Decoder l4 (destidx s) (dest_ s) (value_of unbase64 c4) c4 3 t3) [value_of unbase64 c1; value_of unbase64 c2; value_of unbase64 c3] out c4 l4); [| |cbn; lia| | | | | |]. }
  assert (Hlen4 : (length l4 < length (src_left s))%nat) by (rewrite E4, length_app in Hlen3; cbn [length] in Hlen3; lia).
  destruct (slow_step _ _ _ c4 Hw3 ltac:(cbn; lia) Hc4 Hp4 l4 (value_of unbase64 c4) c4 (state_ s)) as (_ & Hw4). cbn [destidx dest_ temp_ app] in Hw4.
  apply (room_shift _ (value_of unbase64 c4)) in Hr. cbn [app] in Hr. destruct (room_flush _ _ _ _ _ _ Hr) as (Hroom & Hr').
  rewrite bind_some. cbn [negb ref_decode]. destruct (Z.ltb_spec (value_of unbase64 c4) 0) as [|_]; [lia|]. cbn [length Nat.eqb app].
  destruct (write_three_ok _ _ _ _ _ _ Hw4 Hroom) as (dest & temp & -> & Hnew & Hnone). rewrite bind_some. rewrite <- fmap_app_assoc.
  cbn [destidx dest_ src_left decode_ ch_ state_] in *. specialize (Hnext _ _ (Hnew l4 (value_of unbase64 c4) c4 0%nat temp (or_introl eq_refl)) eq_refl Hp4).
  rewrite Hst. cbn [ch_ src_left dest_] in Hnext. assert (Hpad : is_pad c4 = false).
  { destruct (is_pad c4) eqn:Ep; [|done]. destruct (Htable c4 Hc4) as (_ & Hbad). rewrite Hbad in Hp4 by tauto. lia. }
  apply (agrees_same dest); [done|]. exact (Hnext Hpad Hl4 Hlen4 Hr').
Qed.

(** The test of the fast path: the highest bit of the word. *)
Lemma lane_bit v k : 0 <= k <= 18 -> v = -1 \/ 0 <= v < 64 -> Z.testbit (ushl 32 (wrap 32 v) k) 31 = (v <? 0).
Proof.
  intros Hk Hv. unfold ushl, wrap. rewrite testbit_mod_pow2, testbit_shiftl, testbit_mod_pow2 by lia.
  replace (31 - k <? 32) with true by lia. replace (31 <? 32) with true by lia. cbn [andb]. destruct Hv as [-> | Hv].
  - rewrite Z.bits_m1 by lia. done.
  - rewrite (testbit_bounded v 6) by lia. lia.
Qed.

Lemma fast_test c0 c1 c2 c3 : byte_ok c0 -> byte_ok c1 -> byte_ok c2 -> byte_ok c3 ->
  let word := Z.lor (Z.lor (Z.lor (ushl 32 (wrap 32 (value_of unbase64 c0)) 18) (ushl 32 (wrap 32 (value_of unbase64 c1)) 12))
    (ushl 32 (wrap 32 (value_of unbase64 c2)) 6)) (wrap 32 (value_of unbase64 c3)) in
  0 <= word < 2 ^ 32 /\
  (if (c0 =? 0) || (c1 =? 0) || (c2 =? 0) || negb (Z.land word 0x80000000 =? 0)
   then exists c, (c = c0 \/ c = c1 \/ c = c2 \/ c = c3) /\ value_of unbase64 c < 0
   else Forall (fun c => 0 <= value_of unbase64 c < 64) [c0; c1; c2; c3] /\
     word = horner 0 64 [value_of unbase64 c0; value_of unbase64 c1; value_of unbase64 c2; value_of unbase64 c3]).
Proof.
  intros H0 H1 H2 H3 word. destruct (Htable c0 H0) as (V0 & Z0), (Htable c1 H1) as (V1 & Z1), (Htable c2 H2) as (V2 & Z2), (Htable c3 H3) as (V3 & _).
  assert (Hlane : forall v k, 0 <= ushl 32 (wrap 32 v) k < 2 ^ 32) by (intros v k; unfold ushl; apply wrap_range; lia).
  assert (Hword : 0 <= word < 2 ^ 32) by (unfold word; repeat apply lor_range; try lia; try apply Hlane; apply wrap_range; lia).
  split; [done|].
  assert (Hland : (Z.land word 0x80000000 =? 0) = negb (Z.testbit word 31)).
  { destruct (Z.testbit word 31) eqn:Eb; cbn [negb]; apply eq_true_iff_eq; split; intros H; try done.
    - apply Z.eqb_eq in H. apply (f_equal (fun z => Z.testbit z 31)) in H. rewrite Z.land_spec, Eb in H. by cbn in H.
    - apply Z.eqb_eq. apply Z.bits_inj'. intros i Hi. rewrite Z.land_spec, Z.testbit_0_l. change 0x80000000 with (2 ^ 31). rewrite testbit_pow2 by lia.
      destruct (Z.eqb_spec 31 i) as [<-|]; [by rewrite Eb|by rewrite andb_false_r]. }
  assert (Hbit : Z.testbit word 31 = (value_of unbase64 c0 <? 0) || (value_of unbase64 c1 <? 0) || (value_of unbase64 c2 <? 0) || (value_of unbase64 c3 <? 0)).
  { unfold word. rewrite !Z.lor_spec, !lane_bit by (lia || done). do 1 f_equal. rewrite <- (lane_bit (value_of unbase64 c3) 0) by (lia || done). unfold ushl. rewrite Z.shiftl_0_r.
    unfold wrap. by rewrite Z.mod_mod. }
  rewrite Hland, negb_involutive, Hbit. destruct ((c0 =? 0) || (c1 =? 0) || (c2 =? 0)) eqn:Ez; cbn [orb].
  { apply orb_true_iff in Ez as [Ez|Ez]; [apply orb_true_iff in Ez as [Ez|Ez]|]; apply Z.eqb_eq in Ez.
    - exists c0. rewrite Z0 by tauto. split; [tauto|lia].
    - exists c1. rewrite Z1 by tauto. split; [tauto|lia].
    - exists c2. rewrite Z2 by tauto. split; [tauto|lia]. }
  destruct (Z.ltb_spec (value_of unbase64 c0) 0); cbn [orb]; [by exists c0; tauto|]. destruct (Z.ltb_spec (value_of unbase64 c1) 0); cbn [orb]; [by exists c1; tauto|].
  destruct (Z.ltb_spec (value_of unbase64 c2) 0); cbn [orb]; [by exists c2; tauto|]. destruct (Z.ltb_spec (value_of unbase64 c3) 0); [by exists c3; tauto|].
  split; [repeat constructor; lia|]. unfold word, ushl. rewrite !(wrap_small 32 (value_of unbase64 _)) by lia. rewrite !Z.shiftl_mul_pow2 by lia.
  change (2 ^ 18) with 262144. change (2 ^ 12) with 4096. change (2 ^ 6) with 64. rewrite !wrap_small by lia.
  unfold horner. cbn [fold_left]. set (v0 := value_of unbase64 c0) in *. set (v1 := value_of unbase64 c1) in *. set (v2 := value_of unbase64 c2) in *. set (v3 := value_of unbase64 c3) in *.
  replace (v0 * 262144) with (v0 * 64 * 2 ^ 12) by lia. change 4096 with (2 ^ 12). rewrite <- Z.lor_assoc, <- Z.lor_assoc.
  change 64 with (2 ^ 6). rewrite (lor_shiftl_add v2 v3 6) by lia. change (2 ^ 6) with 64.
  replace (v1 * 2 ^ 12) with (v1 * 2 ^ 12) by lia. rewrite (lor_shiftl_add v1 (v2 * 64 + v3) 12) by lia.
  replace (v0 * 64 * 2 ^ 12) with (v0 * 2 ^ 18) by lia. rewrite (lor_shiftl_add v0 _ 18) by lia. lia.
Qed.

Lemma main_loop_ok fuel : forall s out, written s [] out -> state_ s = 0%nat -> 0 <= decode_ s -> is_pad (ch_ s) = false -> Forall byte_ok (src_left s) ->
  (length (src_left s) < fuel)%nat -> room [] (src_left s) out ->
  agrees (dest_ s) (r ← main_loop unbase64 szdest fuel s; match r with ReturnsFalse => Some ReturnsFalse | Goes s => after_main unbase64 szdest s end)
    (app out <$> ref_decode unbase64 [] (src_left s)).
Proof.
  induction fuel as [|fuel IH]; intros s out Hw Hst Hdec Hch Hb Hf Hr; [lia|]. cbn [main_loop].
  assert (Hdone : agrees (dest_ s) (after_main unbase64 szdest s) (app out <$> ref_decode unbase64 [] (src_left s))).
  { unfold after_main. destruct (Z.ltb_spec (decode_ s) 0); [lia|]. cbn [andb]. rewrite Hch. by apply rest_loop_ok; cbn [length]; try done; lia. }
  destruct (src_left s) as [|c0 [|c1 [|c2 [|c3 src]]]] eqn:Esrc; [exact Hdone..|]. clear Hdone.
  rewrite !Forall_cons_iff in Hb. destruct Hb as (H0 & H1 & H2 & H3 & Hb). destruct (fast_test c0 c1 c2 c3 H0 H1 H2 H3) as (Hword & Htest). cbv zeta.
  fold (value_of unbase64 c0) (value_of unbase64 c1) (value_of unbase64 c2) (value_of unbase64 c3).
  match type of Hword with _ <= ?w < _ => set (word := w) in * end. destruct Hw as (Hi & Hs & Ht & Hd).
  destruct ((c0 =? 0) || (c1 =? 0) || (c2 =? 0) || negb (Z.land word 0x80000000 =? 0)) eqn:Eslow.
  - set (temp := if (c0 =? 0) || (c1 =? 0) || (c2 =? 0) then temp_ s else word). assert (Htemp : 0 <= temp < 2 ^ 32) by (unfold temp; by destruct ((c0 =? 0) || (c1 =? 0) || (c2 =? 0))).
    clearbody temp. set (s0 := Decoder (src_left s) (destidx s) (dest_ s) (decode_ s) (ch_ s) (state_ s) temp).
    assert (Hw0 : written s0 [] out).
    { split; [done|]. split; [done|]. split; [done|]. cbn [dest_ temp_]. destruct (dest_ s); [|done]. destruct Hd as (Hd1 & Hd2 & _). split; [done|]. split; [done|]. by apply holds_nil. }
    rewrite <- Esrc in *. assert (Hall : Forall byte_ok (src_left s)) by (rewrite Esrc; by repeat (constructor; [assumption|])).
    assert (H4 : (4 <= length (src_left s))%nat) by (rewrite Esrc; cbn [length]; lia).
    assert (Hslow : agrees (dest_ s) (continue (slow_four unbase64 s0) fuel) (app out <$> ref_decode unbase64 [] (src_left s))).
    { apply (slow_four_ok s0 out fuel Hw0 Hall H4 Hr Hst). cbn [s0 src_left]. intros s' out' G1 G2 G3 G4 G5 G6 G7. apply IH; try done. lia. }
    fold s0. unfold continue in Hslow. revert Hslow. destruct (slow_four unbase64 s0) as [[complete s1]|]; [|done]. rewrite !bind_some. destruct complete; cbn [negb]; [|by rewrite bind_some].
    by destruct (write_three szdest s1) as [[s2|]|].
  - destruct Htest as (Hall & Hval). rewrite !Forall_cons_iff in Hall. destruct Hall as (V0 & V1 & V2 & V3 & _).
    apply orb_false_iff in Eslow as (-> & _).
    set (s0 := Decoder src (destidx s) (dest_ s) (decode_ s) (ch_ s) (state_ s) word).
    assert (Hw0 : written s0 [value_of unbase64 c0; value_of unbase64 c1; value_of unbase64 c2; value_of unbase64 c3] out).
    { split; [done|]. split; [by repeat (constructor; [assumption|])|]. split; [done|]. cbn [s0 dest_ temp_]. destruct (dest_ s); [|done]. destruct Hd as (Hd1 & Hd2 & _).
      split; [done|]. split; [done|]. split; [done|]. rewrite <- Hval. cbn [length]. apply Z.mod_small. rewrite Hval. unfold horner. cbn [fold_left]. change (2 ^ (6 * Z.of_nat 4)) with 16777216. lia. }
    do 4 apply (room_shift _ 0) in Hr. cbn [app] in Hr.
    assert (Hroom : (length out + 3 <= szdest)%nat /\ room [] src (out ++ bytes_of [value_of unbase64 c0; value_of unbase64 c1; value_of unbase64 c2; value_of unbase64 c3])).
    { apply room_flush. exact Hr. }
    destruct Hroom as (Hroom & Hr'). destruct (write_three_ok s0 _ _ _ _ out Hw0 Hroom) as (dest & temp & -> & Hnext & Hnone). rewrite bind_some.
    cbn [ref_decode]. destruct (Z.ltb_spec (value_of unbase64 c0) 0); [lia|]. cbn [length Nat.eqb app]. destruct (Z.ltb_spec (value_of unbase64 c1) 0); [lia|]. cbn [length Nat.eqb app].
    destruct (Z.ltb_spec (value_of unbase64 c2) 0); [lia|]. cbn [length Nat.eqb app]. destruct (Z.ltb_spec (value_of unbase64 c3) 0); [lia|]. cbn [length Nat.eqb app].
    rewrite <- fmap_app_assoc. apply (agrees_same dest); [done|]. cbn [length] in Hf.
    apply (IH (Decoder src (destidx s0 + 3) dest (decode_ s0) (ch_ s0) (state_ s0) temp)); [apply Hnext; by left|exact Hst|exact Hdec|exact Hch|exact Hb|cbn [src_left]; lia|exact Hr'].
Qed.

(** *** The whole *)

Lemma decode_internal_ok src dest : Forall byte_ok src -> (forall d, dest = Some d -> length d = szdest) -> (3 * (length src / 4) + length src mod 4 <= szdest)%nat -> Z.of_nat (pads src) < 2 ^ 31 ->
  agrees dest (Base64UnescapeInternal unbase64 szdest src dest) (ref_decode unbase64 [] src).
Proof.
  intros Hb Hd Hr Hpads. unfold Base64UnescapeInternal. replace (ref_decode unbase64 [] src) with (app [] <$> ref_decode unbase64 [] src) by (by destruct (ref_decode unbase64 [] src)).
  apply (main_loop_ok (S (length src)) (Decoder src 0 dest 0 0 0 0)); try done; cbn [src_left]; [|lia].
  split; [done|]. split; [constructor|]. split; [done|]. cbn [dest_ temp_]. destruct dest as [d|]; [|done]. split; [by apply Hd|]. split; [done|]. by apply holds_nil.
Qed.
End Written.

Lemma decode_string_ok unbase64 src uninit : table_ok unbase64 -> Forall byte_ok src -> Z.of_nat (pads src) < 2 ^ 31 ->
  Base64UnescapeString unbase64 src uninit = Some (match ref_decode unbase64 [] src with Some out => (true, out) | None => (false, []) end).
Proof.
  intros Ht Hb Hpads. unfold Base64UnescapeString. cbv zeta. set (n := (3 * (length src / 4) + length src mod 4)%nat).
  pose proof (decode_internal_ok unbase64 n Ht src (Some (replicate n uninit)) Hb ltac:(intros d [= <-]; apply length_replicate) ltac:(done) Hpads) as H.
  destruct (ref_decode unbase64 [] src) as [out|] eqn:E; cbn [agrees] in H; [|by rewrite H].
  destruct H as (d & -> & Hd). rewrite !bind_some. rewrite Hd. destruct (Nat.leb_spec (length out) n) as [|Hlt]; [done|].
  exfalso. pose proof (ref_decode_length unbase64 src [] out E ltac:(cbn; lia)) as Hlen. unfold out_size in Hlen. cbn [length] in Hlen. unfold n in Hlt. rewrite Nat.add_0_l in Hlen. lia.
Qed.

(** *** The texts accepted *)

(** Data characters and whitespace, then pad characters and whitespace: no pad, or as many as the count of data calls for. *)
Definition base64_text (unbase64 l out : list Z) : Prop :=
  exists body tail n, l = body ++ tail /\ Forall (fun c => 0 <= value_of unbase64 c \/ space c) body /\ pad_count tail 0 = Some n /\
    let data := filter (fun v => 0 <= v) (value_of unbase64 <$> body) in
    (length data mod 4 <> 1)%nat /\ (n = 0%nat \/ n = expected_pads (length data)) /\ out = bytes_of data.

Definition text_from (unbase64 p l out : list Z) : Prop :=
  exists body tail n, l = body ++ tail /\ Forall (fun c => 0 <= value_of unbase64 c \/ space c) body /\ pad_count tail 0 = Some n /\
    let data := p ++ filter (fun v => 0 <= v) (value_of unbase64 <$> body) in
    (length data mod 4 <> 1)%nat /\ (n = 0%nat \/ n = expected_pads (length data)) /\ out = bytes_of data.

Lemma expected_pads_4 n : expected_pads (4 + n) = expected_pads n /\ ((4 + n) mod 4 = n mod 4)%nat.
Proof. unfold expected_pads. assert (E : ((4 + n) mod 4 = n mod 4)%nat) by (zify; zlia). by rewrite E. Qed.

Lemma ref_finish_iff p tail out : (length p <= 3)%nat -> ref_finish p tail = Some out <->
  exists n, pad_count tail 0 = Some n /\ (length p mod 4 <> 1)%nat /\ (n = 0%nat \/ n = expected_pads (length p)) /\ out = bytes_of p.
Proof.
  intros Hp. unfold ref_finish. rewrite Nat.mod_small by lia. destruct (Nat.eqb_spec (length p) 1) as [E|E]; [split; [done|]; by intros (n & _ & H & _)|].
  destruct (pad_count tail 0) as [n|]; [|split; [done|]; by intros (n & H & _)]. destruct ((n =? 0)%nat || (n =? expected_pads (length p))%nat) eqn:En.
  - apply orb_true_iff in En. rewrite !Nat.eqb_eq in En. split; [intros [= <-]; by exists n|]. by intros (m & [= <-] & _ & _ & ->).
  - apply orb_false_iff in En. rewrite !Nat.eqb_neq in En. split; [done|]. intros (m & [= <-] & _ & Hn & _). tauto.
Qed.

Section Accepted.
Context (unbase64 : list Z) (Htable : table_ok unbase64).

Lemma ref_decode_tail p tail : Forall byte_ok tail -> (exists n, pad_count tail 0 = Some n) -> ref_decode unbase64 p tail = ref_finish p tail.
Proof.
  induction 1 as [|c tail Hc Ht IH]; intros (n & Hn); [done|]. cbn [ref_decode pad_count] in *. destruct (Htable c Hc) as (_ & Hbad).
  destruct (is_pad c) eqn:Ep.
  - rewrite Hbad by tauto. change (-1 <? 0) with true. cbv iota. assert (Hs : ascii_isspace c = false).
    { unfold is_pad in Ep. apply orb_true_iff in Ep as [E|E]; apply Z.eqb_eq in E as ->; by vm_compute. }
    by rewrite Hs.
  - destruct (ascii_isspace c) eqn:Es; [|done]. rewrite Hbad by tauto. change (-1 <? 0) with true. cbv iota. rewrite IH by (by exists n).
    unfold ref_finish. cbn [pad_count]. by rewrite Ep, Es.
Qed.

Lemma filter_data c body : filter (fun v => 0 <= v) (value_of unbase64 <$> (c :: body)) =
  if value_of unbase64 c <? 0 then filter (fun v => 0 <= v) (value_of unbase64 <$> body) else value_of unbase64 c :: filter (fun v => 0 <= v) (value_of unbase64 <$> body).
Proof. rewrite fmap_cons, filter_cons. destruct (decide (0 <= value_of unbase64 c)); destruct (Z.ltb_spec (value_of unbase64 c) 0); done || lia. Qed.

Lemma ref_decode_iff l : Forall byte_ok l -> forall p out, (length p <= 3)%nat -> ref_decode unbase64 p l = Some out <-> text_from unbase64 p l out.
Proof.
  induction 1 as [|c l Hc Hl IH]; intros p out Hp.
  - cbn [ref_decode]. rewrite ref_finish_iff by done. unfold text_from. split.
    + intros (n & H). exists [], [], n. cbv zeta. cbn [fmap list_fmap]. rewrite filter_nil, !app_nil_r. destruct H as (H1 & H2 & H3 & H4). split_and!; first [done|constructor].
    + intros (body & tail & n & E & _ & Hn & H). symmetry in E. apply app_nil in E as (-> & ->). cbv zeta in H. cbn [fmap list_fmap] in H. rewrite filter_nil, !app_nil_r in H. by exists n.
  - destruct (Htable c Hc) as (Hv & Hbad). cbn [ref_decode]. destruct (Z.ltb_spec (value_of unbase64 c) 0) as [Hneg|Hpos].
    + assert (Hpad : is_pad c = true -> ascii_isspace c = false).
      { unfold is_pad. intros E. apply orb_true_iff in E as [E|E]; apply Z.eqb_eq in E as ->; by vm_compute. }
      assert (Hback : text_from unbase64 p (c :: l) out -> (ascii_isspace c = true /\ text_from unbase64 p l out) \/ (is_pad c = true /\ ref_finish p (c :: l) = Some out)).
      { intros (body & tail & n & E & Hbody & Hn & H). cbv zeta in H. destruct body as [|d body].
        - cbn [app] in E. subst tail. cbn [fmap list_fmap] in H. rewrite filter_nil, !app_nil_r in H. destruct (is_pad c) eqn:Ep.
          + right. split; [done|]. apply ref_finish_iff; [done|]. by exists n.
          + left. cbn [pad_count] in Hn. rewrite Ep in Hn. destruct (ascii_isspace c) eqn:Es; [|done]. split; [done|]. exists [], l, n. cbv zeta. cbn [fmap list_fmap].
            rewrite filter_nil, !app_nil_r. destruct H as (H1 & H2 & H3). split_and!; first [done|constructor].
        - cbn [app] in E. injection E as <- ->. inversion Hbody as [|? ? Hd Hbody']; subst. left. destruct Hd as [Hd|Hd]; [lia|]. split; [done|].
          rewrite filter_data in H. destruct (Z.ltb_spec (value_of unbase64 c) 0); [|lia]. exists body, tail, n. cbv zeta. destruct H as (H1 & H2 & H3). split_and!; first [done|constructor]. }
      destruct (ascii_isspace c) eqn:Es.
      * rewrite IH by done. split.
        -- intros (body & tail & n & -> & Hbody & Hn & H). exists (c :: body), tail, n. cbv zeta in *. rewrite filter_data. destruct (Z.ltb_spec (value_of unbase64 c) 0); [|lia].
           destruct H as (H1 & H2 & H3). split_and!; try done. by constructor; [right|].
        -- intros H. destruct (Hback H) as [(_ & H1)|(H1 & _)]; [done|]. specialize (Hpad H1). congruence.
      * destruct (is_pad c) eqn:Ep.
        -- split; [|intros H; by destruct (Hback H) as [(H1 & _)|(_ & H1)]]. intros H. apply ref_finish_iff in H as (n & Hn & H1 & H2 & H3); [|done].
           exists [], (c :: l), n. cbv zeta. cbn [fmap list_fmap]. rewrite filter_nil, !app_nil_r. split_and!; first [done|constructor].
        -- split; [done|]. intros H. by destruct (Hback H) as [(H1 & _)|(H1 & _)].
    + assert (Hgood : forall q out', text_from unbase64 q (c :: l) out' <-> text_from unbase64 (q ++ [value_of unbase64 c]) l out').
      { intros q out'. split.
        - intros (body & tail & n & E & Hbody & Hn & H). destruct body as [|d body].
          + cbn [app] in E. subst tail. cbn [pad_count] in Hn. destruct (is_pad c) eqn:Ep; [rewrite Hbad in Hpos by tauto; lia|].
            destruct (ascii_isspace c) eqn:Es; [rewrite Hbad in Hpos by tauto; lia|done].
          + cbn [app] in E. injection E as <- ->. inversion Hbody as [|? ? _ Hbody']; subst. exists body, tail, n. cbv zeta in *. rewrite filter_data in H.
            destruct (Z.ltb_spec (value_of unbase64 c) 0); [lia|]. rewrite <- app_assoc. cbn [app]. destruct H as (H1 & H2 & H3). split_and!; first [done|constructor].
        - intros (body & tail & n & -> & Hbody & Hn & H). exists (c :: body), tail, n. cbv zeta in *. rewrite filter_data. destruct (Z.ltb_spec (value_of unbase64 c) 0); [lia|].
          rewrite <- app_assoc in H. cbn [app] in H. destruct H as (H1 & H2 & H3). split_and!; try done. by constructor; [left|]. }
      rewrite Hgood. destruct (Nat.eqb_spec (length p) 3) as [E|E].
      * destruct (four_list p (value_of unbase64 c) E) as (x & y & z & _ & ->). assert (Hfour : forall o, text_from unbase64 [x; y; z; value_of unbase64 c] l o <->
          exists o', text_from unbase64 [] l o' /\ o = bytes_of [x; y; z; value_of unbase64 c] ++ o').
        { intros o. split.
          - intros (body & tail & n & -> & Hbody & Hn & H1 & H2 & H3). cbn [app] in *.
            set (data := filter _ _) in *. change (length (x :: y :: z :: value_of unbase64 c :: data)) with (4 + length data)%nat in *.
            destruct (expected_pads_4 (length data)) as (E1 & E2). rewrite E1 in H2. rewrite E2 in H1. exists (bytes_of data). split; [|exact H3].
            exists body, tail, n. cbv zeta. cbn [app]. split_and!; first [done|constructor].
          - intros (o' & (body & tail & n & -> & Hbody & Hn & H1 & H2 & ->) & ->). exists body, tail, n. cbv zeta. cbn [app] in *.
            set (data := filter _ _) in *. change (length (x :: y :: z :: value_of unbase64 c :: data)) with (4 + length data)%nat.
            destruct (expected_pads_4 (length data)) as (E1 & E2). rewrite E1, E2. split_and!; first [done|constructor]. }
        rewrite Hfour. split.
        -- destruct (ref_decode unbase64 [] l) as [o|] eqn:Eo; [|done]. intros [= <-]. exists o. split; [by apply IH; [cbn; lia|]|done].
        -- intros (o' & Ho' & ->). apply IH in Ho'; [|cbn; lia]. by rewrite Ho'.
      * apply IH. rewrite length_app. cbn [length]. lia.
Qed.

Lemma ref_decode_text l out : Forall byte_ok l -> ref_decode unbase64 [] l = Some out <-> base64_text unbase64 l out.
Proof. intros Hl. by apply (ref_decode_iff l Hl []); cbn; lia. Qed.

(** A text that is accepted has at most two pad characters. *)
Lemma decoded_pads l out : Forall byte_ok l -> ref_decode unbase64 [] l = Some out -> Z.of_nat (pads l) < 2 ^ 31.
Proof.
  intros Hb Hd. apply ref_decode_text in Hd as (body & tail & n & -> & Hbody & Hn & _ & Hex & _); [|done]. apply Forall_app in Hb as [Hb _].
  apply pad_count_pads in Hn. assert (n <= 2)%nat by (destruct Hex as [-> | ->]; [lia|unfold expected_pads; repeat case_match; lia]).
  assert (pads body = 0)%nat as E; [|rewrite pads_app; lia]. clear Hex Hn. induction body as [|c body IH]; [done|]. apply Forall_cons_iff in Hbody as [Hc Hbody]. apply Forall_cons_iff in Hb as [Hcb Hb].
  cbn [pads]. destruct (is_pad c) eqn:Ep; [|by apply IH]. destruct (Htable c Hcb) as (_ & Hbad). rewrite Hbad in Hc by tauto. destruct Hc as [Hc|Hc]; [lia|].
  exfalso. unfold is_pad in Ep. assert (c = 61 \/ c = 46) as [-> | ->] by lia; by vm_compute in Hc.
Qed.
End Accepted.

(** ** The encoder *)

(** The text of a string of bytes. *)
Fixpoint encode_text (base64 : list Z) (do_padding : bool) (src : list Z) : list Z :=
  match src with
  | a :: b :: c :: src =>
      [at_byte base64 (a / 4); at_byte base64 (a mod 4 * 16 + b / 16); at_byte base64 (b mod 16 * 4 + c / 64); at_byte base64 (c mod 64)] ++
      encode_text base64 do_padding src
  | [a; b] => [at_byte base64 (a / 4); at_byte base64 (a mod 4 * 16 + b / 16); at_byte base64 (b mod 16 * 4)] ++ (if do_padding then [61] else [])
  | [a] => [at_byte base64 (a / 4); at_byte base64 (a mod 4 * 16)] ++ (if do_padding then [61; 61] else [])
  | [] => []
  end.

(** Induction by threes. *)
Lemma list_ind_3 (P : list Z -> Prop) : P [] -> (forall a, P [a]) -> (forall a b, P [a; b]) -> (forall a b c l, P l -> P (a :: b :: c :: l)) -> forall l, P l.
Proof.
  intros H0 H1 H2 H3. assert (H : forall n l, (length l <= n)%nat -> P l); [|by intros l; apply (H (length l))].
  induction n as [|n IH]; intros l Hl; destruct l as [|a [|b [|c l]]]; cbn [length] in Hl; try done; try lia. apply H3, IH. lia.
Qed.

Lemma encode_text_length base64 pad src : (4 * length src <= 3 * length (encode_text base64 pad src))%nat /\
  Z.of_nat (length (encode_text base64 pad src)) = Z.of_nat (length src) / 3 * 4 +
    (if Z.of_nat (length src) mod 3 =? 0 then 0 else if Z.of_nat (length src) mod 3 =? 1 then (if pad then 4 else 2) else (if pad then 4 else 3)).
Proof.
  induction src as [|a|a b|a b c src (IH1 & IH2)] using list_ind_3; [done|destruct pad; split; [cbn; lia|done|cbn; lia|done]|destruct pad; split; [cbn; lia|done|cbn; lia|done]|].
  cbn [encode_text app length] in *. split; [lia|]. rewrite !Nat2Z.inj_succ. replace (Z.succ (Z.succ (Z.succ (Z.of_nat (length src))))) with (Z.of_nat (length src) + 1 * 3) by lia.
  rewrite Z.mod_add, Z.div_add by lia. lia.
Qed.

Lemma calculate_length base64 pad src : Z.of_nat (length src) < 2 ^ 61 ->
  CalculateBase64EscapedLenInternal (Z.of_nat (length src)) pad = Some (Z.of_nat (length (encode_text base64 pad src))).
Proof.
  intros Hn. unfold CalculateBase64EscapedLenInternal. cbv zeta. change ((2 ^ 64 - 1 - 1) / 4 * 3) with (3 * (2 ^ 62 - 1)).
  destruct (Z.leb_spec (Z.of_nat (length src)) (3 * (2 ^ 62 - 1))); [|lia]. cbn [negb]. destruct (encode_text_length base64 pad src) as (_ & ->).
  assert (Hm : umul 64 (Z.of_nat (length src) / 3) 4 = Z.of_nat (length src) / 3 * 4) by (unfold umul; rewrite wrap_small; zlia). rewrite Hm.
  assert (Ha : forall k, 0 <= k <= 10 -> uadd 64 (Z.of_nat (length src) / 3 * 4) k = Z.of_nat (length src) / 3 * 4 + k) by (intros k Hk; unfold uadd; rewrite wrap_small; zlia).
  assert (Ha2 : forall k j, 0 <= k <= 5 -> 0 <= j <= 5 -> uadd 64 (Z.of_nat (length src) / 3 * 4 + k) j = Z.of_nat (length src) / 3 * 4 + k + j) by (intros k j Hk Hj; unfold uadd; rewrite wrap_small; zlia).
  destruct (_ =? 0); [f_equal; lia|]. destruct (_ =? 1); destruct pad; rewrite Ha, ?Ha2 by lia; f_equal; lia.
Qed.

Lemma four_chars_ok base64 a b c : byte_ok a -> byte_ok b -> byte_ok c ->
  four_chars base64 (a * 65536 + b * 256 + c) =
  [at_byte base64 (a / 4); at_byte base64 (a mod 4 * 16 + b / 16); at_byte base64 (b mod 16 * 4 + c / 64); at_byte base64 (c mod 64)].
Proof.
  unfold byte_ok. intros Ha Hb Hc. unfold four_chars. cbv zeta. rewrite !ushr_val by lia. change 0x3FFFF with (Z.ones 18). change 0xFFF with (Z.ones 12). change 0x3F with (Z.ones 6).
  rewrite !Z.land_ones by lia. change (2 ^ 18) with 262144. change (2 ^ 12) with 4096. change (2 ^ 6) with 64. f_equal; [f_equal; zlia|f_equal; [f_equal; zlia|f_equal; [f_equal; zlia|f_equal; f_equal; zlia]]].
Qed.

(** Two writes that fill the buffer. *)
Lemma put_two cur t1 t2 d done : length d = (cur + length (t1 ++ t2))%nat -> take cur d = done ->
  exists d2, put cur t1 d = Some d2 /\ put (cur + length t1) t2 d2 = Some (done ++ t1 ++ t2).
Proof.
  intros Hl Ht. rewrite length_app in Hl. destruct (put_spec cur t1 d) as (d2 & E & Hl2 & Ht2 & _); [lia|]. exists d2. split; [done|].
  unfold put. rewrite decide_True by lia. rewrite Ht2, Ht, drop_ge by lia. by rewrite app_nil_r, <- app_assoc.
Qed.

Lemma put_nil i (d d' : list Z) : put i [] d = Some d' -> d = d'.
Proof.
  unfold put. destruct (decide _); [|done]. cbn [length app]. rewrite Nat.add_0_r, take_drop. by intros [= <-].
Qed.

Section EncodeCorrect.
Context (little : bool) (base64 : list Z) (pad : bool).

Lemma load_two b c : byte_ok b -> byte_ok c -> be_load little [b; c] = b * 256 + c.
Proof.
  intros Hb Hc. rewrite be_load_spec; [|by right; left|by repeat (constructor; [assumption|])]. cbn [rev app le_combine]. lia.
Qed.

Lemma load_four a b c d : byte_ok a -> byte_ok b -> byte_ok c -> byte_ok d -> ushr (be_load little [a; b; c; d]) 8 = a * 65536 + b * 256 + c.
Proof.
  intros Ha Hb Hc Hd. rewrite be_load_spec; [|by right; right; left|by repeat (constructor; [assumption|])]. cbn [rev app le_combine].
  rewrite ushr_val by lia. unfold byte_ok in *. change (2 ^ 8) with 256. zlia.
Qed.

Lemma encode_loop_ok src : Forall byte_ok src -> forall cur dest, (cur + length (encode_text base64 pad src) <= length dest)%nat ->
  exists rest cur' dest' done, encode_loop little base64 src cur dest = Some (rest, cur', dest') /\ (length rest <= 3)%nat /\ Forall byte_ok rest /\
    encode_text base64 pad src = done ++ encode_text base64 pad rest /\ cur' = (cur + length done)%nat /\ length dest' = length dest /\
    take cur' dest' = take cur dest ++ done.
Proof.
  assert (Hstop : forall src cur dest, Forall byte_ok src -> (length src <= 3)%nat -> encode_loop little base64 src cur dest = Some (src, cur, dest) ->
    exists rest cur' dest' done, encode_loop little base64 src cur dest = Some (rest, cur', dest') /\ (length rest <= 3)%nat /\ Forall byte_ok rest /\
    encode_text base64 pad src = done ++ encode_text base64 pad rest /\ cur' = (cur + length done)%nat /\ length dest' = length dest /\ take cur' dest' = take cur dest ++ done).
  { intros l cur dest Hb Hl E. exists l, cur, dest, []. rewrite app_nil_r. split_and!; done || (cbn; lia). }
  induction src as [|a|a b|a b c src IH] using list_ind_3; intros Hb cur dest Hd; [by apply Hstop; [|cbn; lia|]..|].
  destruct src as [|d src]; [by apply Hstop; [|cbn; lia|]|]. rewrite !Forall_cons_iff in Hb. destruct Hb as (Ha & Hbb & Hc & Hd' & Hsrc).
  cbn [encode_loop]. rewrite load_four, four_chars_ok by done. cbv zeta. set (t := [_; _; _; _]).
  assert (Et : encode_text base64 pad (a :: b :: c :: d :: src) = t ++ encode_text base64 pad (d :: src)) by done.
  rewrite Et, length_app in Hd. change (length t) with 4%nat in Hd.
  destruct (put_spec cur t dest) as (dest1 & -> & Hl1 & Ht1 & _); [change (length t) with 4%nat; lia|]. rewrite bind_some. change (length t) with 4%nat in Ht1.
  destruct (IH ltac:(by constructor) (cur + 4)%nat dest1 ltac:(lia)) as (rest & cur' & dest' & done & E & H1 & H2 & H3 & H4 & H5 & H6).
  exists rest, cur', dest', (t ++ done). split_and!; [exact E|done|done|by rewrite Et, H3, <- app_assoc|rewrite length_app; change (length t) with 4%nat; lia|lia|].
  by rewrite H6, Ht1, <- app_assoc.
Qed.

Lemma encode_internal_ok src dest : Forall byte_ok src -> Z.of_nat (length src) < 2 ^ 61 -> length dest = length (encode_text base64 pad src) ->
  Base64EscapeInternal little base64 pad src dest = Some (length dest, encode_text base64 pad src).
Proof.
  intros Hb Hn Hd. unfold Base64EscapeInternal. destruct (encode_text_length base64 pad src) as (Hlow & Hlen).
  assert (Hup : Z.of_nat (length dest) < 2 ^ 62) by (rewrite Hd, Hlen; destruct (_ =? 0); [zlia|destruct (_ =? 1), pad; zlia]).
  unfold umul. rewrite !wrap_small by lia. destruct (Z.ltb_spec (Z.of_nat (length dest) * 3) (Z.of_nat (length src) * 4)); [lia|].
  assert (Eif : (if (3 <=? length src)%nat then encode_loop little base64 src 0 dest else Some (src, 0%nat, dest)) = encode_loop little base64 src 0 dest).
  { destruct (Nat.leb_spec 3 (length src)); [done|]. destruct src as [|a [|b [|c src]]]; cbn [length] in *; done || lia. }
  rewrite Eif. destruct (encode_loop_ok src Hb 0 dest ltac:(lia)) as (rest & cur & dest1 & done & -> & Hr & Hbr & Et & Hc & Hl1 & Ht). rewrite bind_some. cbn [Nat.add] in Hc.
  rewrite (take_0 dest) in Ht. cbn [app] in Ht.
  assert (Hroom : (length dest1 - cur = length (encode_text base64 pad rest))%nat) by (rewrite Hl1, Hd, Et, length_app; lia). rewrite Et.
  assert (Hdl : length dest1 = (cur + length (encode_text base64 pad rest))%nat) by (rewrite Hl1, Hd, Et, length_app; lia).
  rewrite <- Hl1, Hroom, Hdl. clear Hl1 Hd Hc Eif Et Hroom. cbv zeta.
  destruct rest as [|a [|b [|c [|? ?]]]]; cbn [length] in Hr; [| | | |lia]; rewrite ?Forall_cons_iff in Hbr.
  - cbn [encode_text length] in *. rewrite app_nil_r, Nat.add_0_r in *. rewrite <- Hdl, firstn_all in Ht. by rewrite Ht.
  - destruct Hbr as (Ha & _). cbn [encode_text] in *. unfold byte_ok in Ha.
    assert (E1 : ushr a 2 = a / 4) by (by rewrite ushr_val). assert (E2 : ushl 32 (Z.land a 0x3) 4 = a mod 4 * 16).
    { change 0x3 with (Z.ones 2). rewrite Z.land_ones by lia. unfold ushl. rewrite Z.shiftl_mul_pow2 by lia. change (2 ^ 2) with 4. change (2 ^ 4) with 16. apply wrap_small. zlia. }
    rewrite E1, E2. destruct pad; cbn [app length Nat.ltb Nat.leb Nat.sub] in *.
    + destruct (put_two cur [at_byte base64 (a / 4); at_byte base64 (a mod 4 * 16)] [61; 61] dest1 done) as (d2 & E3 & E4); [done|done|].
      rewrite E3, bind_some. cbn [length] in E4. rewrite E4, bind_some. done.
    + destruct (put_two cur [at_byte base64 (a / 4); at_byte base64 (a mod 4 * 16)] [] dest1 done) as (d2 & E3 & E4); [exact Hdl|done|].
      rewrite E3, bind_some. rewrite (put_nil _ _ _ E4). done.
  - destruct Hbr as (Ha & Hb2 & _). cbn [encode_text] in *. rewrite load_two by done. unfold byte_ok in Ha, Hb2.
    assert (E1 : ushr (a * 256 + b) 10 = a / 4) by (rewrite ushr_val by lia; change (2 ^ 10) with 1024; zlia).
    assert (E2 : ushr (Z.land (a * 256 + b) 0x3FF) 4 = a mod 4 * 16 + b / 16).
    { change 0x3FF with (Z.ones 10). rewrite Z.land_ones, ushr_val by lia. change (2 ^ 10) with 1024. change (2 ^ 4) with 16. zlia. }
    assert (E5 : ushl 32 (Z.land (Z.land (a * 256 + b) 0x3FF) 0xF) 2 = b mod 16 * 4).
    { change 0x3FF with (Z.ones 10). change 0xF with (Z.ones 4). rewrite !Z.land_ones by lia. unfold ushl. rewrite Z.shiftl_mul_pow2 by lia.
      change (2 ^ 10) with 1024. change (2 ^ 4) with 16. change (2 ^ 2) with 4. rewrite wrap_small; zlia. }
    rewrite E1, E2, E5. destruct pad; cbn [app length Nat.ltb Nat.leb Nat.sub] in *.
    + destruct (put_two cur [at_byte base64 (a / 4); at_byte base64 (a mod 4 * 16 + b / 16); at_byte base64 (b mod 16 * 4)] [61] dest1 done) as (d2 & E3 & E4); [done|done|].
      rewrite E3, bind_some. cbn [length] in E4. rewrite E4, bind_some. done.
    + destruct (put_two cur [at_byte base64 (a / 4); at_byte base64 (a mod 4 * 16 + b / 16); at_byte base64 (b mod 16 * 4)] [] dest1 done) as (d2 & E3 & E4); [exact Hdl|done|].
      rewrite E3, bind_some. rewrite (put_nil _ _ _ E4). done.
  - destruct Hbr as (Ha & Hb2 & Hc2 & _). rewrite load_two by done. assert (E1 : uadd 32 (ushl 32 a 16) (b * 256 + c) = a * 65536 + b * 256 + c).
    { unfold byte_ok in *. unfold uadd, ushl. rewrite Z.shiftl_mul_pow2 by lia. change (2 ^ 16) with 65536. rewrite (wrap_small 32 (a * 65536)) by lia. rewrite wrap_small by lia. lia. }
    rewrite E1, four_chars_ok by done. cbn [encode_text app length Nat.ltb Nat.leb] in *.
    match goal with |- context [put cur ?t dest1] => destruct (put_two cur t [] dest1 done) as (d2 & E3 & E4); [exact Hdl|done|] end.
    rewrite E3, bind_some. rewrite (put_nil _ _ _ E4). done.
Qed.

Lemma encode_string_ok src uninit : Forall byte_ok src -> Z.of_nat (length src) < 2 ^ 61 ->
  Base64EscapeString little base64 pad src uninit = Some (encode_text base64 pad src).
Proof.
  intros Hb Hn. unfold Base64EscapeString. rewrite (calculate_length base64) by done. rewrite bind_some, Nat2Z.id.
  rewrite encode_internal_ok by (done || apply length_replicate). rewrite bind_some. cbn [fst snd]. rewrite length_replicate, Z.eqb_refl, firstn_all. done.
Qed.
End EncodeCorrect.

(** ** Round trips *)

(** The alphabet and the table are inverse. *)
Definition alphabet_ok (base64 unbase64 : list Z) : Prop :=
  forall v, 0 <= v < 64 -> byte_ok (at_byte base64 v) /\ value_of unbase64 (at_byte base64 v) = v.

Lemma alphabets_ok : alphabet_ok kBase64Chars kUnBase64 /\ alphabet_ok kWebSafeBase64Chars kUnWebSafeBase64.
Proof.
  assert (H : forall b u, forallb (fun v => (0 <=? at_byte b v) && (at_byte b v <? 256) && (at_byte u (at_byte b v) =? v)) (zrange 64) = true -> alphabet_ok b u).
  { intros b u Hf v Hv. pose proof (zrange_forall _ 64 Hf v Hv) as H. cbv beta in H. unfold byte_ok, value_of. lia. }
  split; apply H; by vm_compute.
Qed.

Lemma encode_decode base64 unbase64 pad src : alphabet_ok base64 unbase64 -> table_ok unbase64 -> Forall byte_ok src ->
  ref_decode unbase64 [] (encode_text base64 pad src) = Some src /\ Forall byte_ok (encode_text base64 pad src).
Proof.
  intros Ha Ht. destruct (Ht 61 ltac:(unfold byte_ok; lia)) as (_ & Hpad). specialize (Hpad ltac:(right; by left)).
  assert (Hdata : forall p v l, 0 <= v < 64 -> ref_decode unbase64 p (at_byte base64 v :: l) =
    if (length p =? 3)%nat then (fun out => bytes_of (p ++ [v]) ++ out) <$> ref_decode unbase64 [] l else ref_decode unbase64 (p ++ [v]) l).
  { intros p v l Hv. destruct (Ha v Hv) as (_ & E). cbn [ref_decode]. rewrite E. by destruct (Z.ltb_spec v 0); [lia|]. }
  assert (Hpads : forall p l, ref_decode unbase64 p (61 :: l) = ref_finish p (61 :: l)) by (intros p l; cbn [ref_decode]; by rewrite Hpad).
  induction src as [|a|a b|a b c src IH] using list_ind_3; intros Hb; rewrite ?Forall_cons_iff in Hb; [done|..]; unfold byte_ok in Hb; cbn [encode_text].
  - assert (H1 : 0 <= a / 4 < 64) by zlia. assert (H2 : 0 <= a mod 4 * 16 < 64) by zlia. split.
    + cbn [app]. rewrite !Hdata by done. cbn [length Nat.eqb app]. assert (E : ref_finish [a / 4; a mod 4 * 16] [] = Some [a]).
      { unfold ref_finish. cbn [length Nat.eqb pad_count bytes_of]. do 2 f_equal. zlia. }
      destruct pad; [rewrite Hpads|]; exact E.
    + destruct (Ha _ H1), (Ha _ H2). destruct pad; repeat (constructor; [first [assumption|unfold byte_ok; lia]|]); constructor.
  - assert (H1 : 0 <= a / 4 < 64) by zlia. assert (H2 : 0 <= a mod 4 * 16 + b / 16 < 64) by zlia. assert (H3 : 0 <= b mod 16 * 4 < 64) by zlia. split.
    + cbn [app]. rewrite !Hdata by done. cbn [length Nat.eqb app]. assert (E : ref_finish [a / 4; a mod 4 * 16 + b / 16; b mod 16 * 4] [] = Some [a; b]).
      { unfold ref_finish. cbn [length Nat.eqb pad_count bytes_of]. f_equal. f_equal; [zlia|f_equal; zlia]. }
      destruct pad; [rewrite Hpads|]; exact E.
    + destruct (Ha _ H1), (Ha _ H2), (Ha _ H3). destruct pad; repeat (constructor; [first [assumption|unfold byte_ok; lia]|]); constructor.
  - destruct Hb as (Ha1 & Hb1 & Hc1 & Hsrc). destruct (IH Hsrc) as (IH1 & IH2).
    assert (H1 : 0 <= a / 4 < 64) by zlia. assert (H2 : 0 <= a mod 4 * 16 + b / 16 < 64) by zlia. assert (H3 : 0 <= b mod 16 * 4 + c / 64 < 64) by zlia. assert (H4 : 0 <= c mod 64 < 64) by zlia. split.
    + cbn [app]. rewrite !Hdata by done. cbn [length Nat.eqb app]. rewrite IH1. cbn [fmap option_fmap option_map bytes_of app]. f_equal. f_equal; [zlia|f_equal; [zlia|f_equal; zlia]].
    + destruct (Ha _ H1), (Ha _ H2), (Ha _ H3), (Ha _ H4). cbn [app]. by repeat (constructor; [assumption|]).
Qed.

(** *** Hexadecimal *)

Lemma strict_value_ascii signed c : byte_ok c -> c < 128 -> strict_value signed c = Some (if digit_of c <? 16 then digit_of c else -1).
Proof.
  intros Hc Hlt. unfold strict_value. assert (Hi : (if signed then wrap 64 (swrap 8 c) else c) = c).
  { unfold byte_ok in Hc. destruct signed; [|done]. rewrite swrap_small, wrap_small; lia. }
  rewrite Hi. unfold byte_ok in Hc. destruct (Z.ltb_spec c 256); [|lia]. f_equal.
  pose proof (byte_forall (fun c => implb (c <? 128) (at_byte kHexValueStrict c =? if digit_of c <? 16 then digit_of c else -1)) ltac:(by vm_compute) c ltac:(unfold byte_ok; lia)) as Hs.
  cbv beta in Hs. replace (c <? 128) with true in Hs by lia. cbn [implb] in Hs. lia.
Qed.

(** Pairs of digits. *)
Fixpoint hex_pairs (hex : list Z) : option (list Z) :=
  match hex with
  | [] => Some []
  | [_] => None
  | h :: k :: hex => if (digit_of h <? 16) && (digit_of k <? 16) then cons (digit_of h * 16 + digit_of k) <$> hex_pairs hex else None
  end.

Lemma strict_loop_ok signed : forall n hex output, (length hex <= n)%nat -> Forall byte_ok hex -> Forall (fun c => c < 128) hex -> Nat.Even (length hex) ->
  strict_loop signed hex output = Some (match hex_pairs hex with Some l => Goes (output ++ l) | None => ReturnsFalse end).
Proof.
  induction n as [|n IH]; intros hex output Hn Hb Ha He; destruct hex as [|h [|k hex]]; cbn [length] in Hn; try lia; cbn [strict_loop hex_pairs]; try (by rewrite app_nil_r).
  - by destruct He as [m Hm]; cbn [length] in Hm; lia.
  - rewrite !Forall_cons_iff in Hb, Ha. destruct Hb as (Hh & Hk & Hb), Ha as (Hha & Hka & Ha). rewrite (strict_value_ascii signed h), bind_some by done.
    rewrite (strict_value_ascii signed k), bind_some by done. pose proof (digit_of_range h Hh). pose proof (digit_of_range k Hk).
    destruct (Z.ltb_spec (digit_of h) 16); [destruct (Z.ltb_spec (digit_of k) 16)|]; cbn [andb].
    + replace ((digit_of h =? -1) || (digit_of k =? -1)) with false by lia. rewrite IH; [|lia|done|done|by destruct He as [m Hm]; exists (m - 1)%nat; cbn [length] in Hm; lia].
      rewrite Z.shiftl_mul_pow2 by lia. change (2 ^ 4) with 16. rewrite wrap_small by lia. destruct (hex_pairs hex); cbn [fmap option_fmap option_map]; [by rewrite <- app_assoc|done].
    + by replace ((digit_of h =? -1) || (-1 =? -1)) with true by lia.
    + done.
Qed.

Lemma hex_pairs_odd : forall hex, ~ Nat.Even (length hex) -> hex_pairs hex = None.
Proof.
  assert (H : forall n hex, (length hex <= n)%nat -> ~ Nat.Even (length hex) -> hex_pairs hex = None); [|intros hex; by apply (H (length hex))].
  induction n as [|n IH]; intros hex Hn He; destruct hex as [|h [|k hex]]; cbn [length] in Hn; try lia; cbn [hex_pairs]; try done.
  - exfalso. apply He. by exists 0%nat.
  - exfalso. apply He. by exists 0%nat.
  - rewrite IH; [by destruct (_ && _)|lia|]. intros [m Hm]. apply He. exists (S m). cbn [length]. lia.
Qed.

Lemma bytes_to_hex_ok src : Forall byte_ok src -> hex_pairs (bytes_to_hex_string src) = Some src /\ Forall byte_ok (bytes_to_hex_string src) /\
  Forall (fun c => c < 128) (bytes_to_hex_string src) /\ length (bytes_to_hex_string src) = (2 * length src)%nat.
Proof.
  induction 1 as [|b src Hb Hsrc IH]; [done|]. unfold bytes_to_hex_string, BytesToHexStringInternal in *. cbn [fmap list_fmap concat].
  destruct (hex_pair b Hb) as (h & k & -> & Hh & Hk & _ & Hhb & Hkb). destruct IH as (IH1 & IH2 & IH3 & IH4). cbn [app hex_pairs length]. unfold byte_ok in Hb.
  assert (Hlt : forall c, byte_ok c -> digit_of c < 16 -> c < 128).
  { intros c Hc Hd. unfold digit_of, in_range in Hd. destruct (Z.ltb_spec c 128); [done|]. exfalso.
    replace ((48 <=? c) && (c <=? 57)) with false in Hd by lia. replace ((65 <=? c) && (c <=? 90)) with false in Hd by lia. replace ((97 <=? c) && (c <=? 122)) with false in Hd by lia. lia. }
  split_and!.
  - destruct (Z.ltb_spec (digit_of h) 16); [|zlia]. destruct (Z.ltb_spec (digit_of k) 16); [|zlia]. cbn [andb]. rewrite IH1. cbn [fmap option_fmap option_map]. do 2 f_equal. zlia.
  - by constructor; [|constructor].
  - constructor; [apply Hlt; [done|zlia]|constructor; [apply Hlt; [done|zlia]|done]].
  - lia.
Qed.

Lemma lenient_ok : forall n hex l, (length hex <= n)%nat -> Forall byte_ok hex -> hex_pairs hex = Some l -> hex_string_to_bytes_lenient hex = l.
Proof.
  intros n hex l Hn Hb. unfold hex_string_to_bytes_lenient, HexStringToBytesInternal. revert hex l Hn Hb.
  induction n as [|n IH]; intros hex l Hn Hb Hp; destruct hex as [|h [|k hex]]; cbn [length] in Hn; try lia; cbn [hex_pairs] in Hp; try done; try (by injection Hp as <-).
  rewrite !Forall_cons_iff in Hb. destruct Hb as (Hh & Hk & Hb). destruct (Z.ltb_spec (digit_of h) 16) as [Hdh|]; [|done]. destruct (Z.ltb_spec (digit_of k) 16) as [Hdk|]; [|done].
  cbn [andb] in Hp. destruct (hex_pairs hex) as [l'|] eqn:E; [|done]. injection Hp as <-. specialize (IH hex l' ltac:(lia) Hb E).
  replace (length (h :: k :: hex) / 2)%nat with (S (length hex / 2)) by (cbn [length]; zify; zlia). cbn [seq fmap list_fmap]. rewrite <- seq_shift. rewrite <- IH.
  assert (Hlen : forall c, byte_ok c -> digit_of c < 16 -> at_byte kHexValueLenient (Z.land c 0xFF) = digit_of c).
  { intros c Hc Hd. change 0xFF with (Z.ones 8). rewrite Z.land_ones, Z.mod_small by (unfold byte_ok in Hc; lia).
    pose proof (byte_forall (fun c => implb (digit_of c <? 16) (at_byte kHexValueLenient c =? digit_of c)) ltac:(by vm_compute) c Hc) as H. cbv beta in H.
    replace (digit_of c <? 16) with true in H by lia. cbn [implb] in H. lia. }
  f_equal.
  - cbn [Nat.mul Nat.add lookup_total list_lookup_total]. rewrite !Hlen by done. pose proof (digit_of_range h Hh). pose proof (digit_of_range k Hk).
    rewrite Z.shiftl_mul_pow2 by lia. change (2 ^ 4) with 16. rewrite (wrap_small 8 (digit_of h * 16)) by lia. apply wrap_small. lia.
  - rewrite List.map_map. done.
Qed.

(** ** Properties *)

(** C38: [base64_decode] and [web_safe_base64_decode] on any text with fewer than 2^31 pad characters (the code counts them in an [int]): no access outside the source or the destination, and the fast path over four characters
    with its fallback gives what the character-by-character reference gives. They return true exactly on
    data characters mixed with whitespace, in a number that is not one more than a multiple of four, followed by pad characters (equals signs or dots) mixed with
    whitespace, as many as complete the last group or none, with the bytes of the data as result; otherwise false with an empty
    string. Without a destination the decoder computes the same length. *)
Theorem base64_decode_correct src uninit unbase64 : Forall byte_ok src -> Z.of_nat (pads src) < 2 ^ 31 -> unbase64 = kUnBase64 \/ unbase64 = kUnWebSafeBase64 ->
  Base64UnescapeString unbase64 src uninit = Some (match ref_decode unbase64 [] src with Some out => (true, out) | None => (false, []) end) /\
  (forall out, Base64UnescapeString unbase64 src uninit = Some (true, out) <-> base64_text unbase64 src out) /\
  Base64UnescapeInternal unbase64 (out_size (length src)) src None =
    Some (match ref_decode unbase64 [] src with Some out => Goes (length out, None) | None => ReturnsFalse end).
Proof.
  intros Hb Hpads Hu. assert (Ht : table_ok unbase64) by (destruct tables_ok; by destruct Hu as [-> | ->]). pose proof (decode_string_ok unbase64 src uninit Ht Hb Hpads) as E. split; [done|]. split.
  - intros out. rewrite <- (ref_decode_text unbase64 Ht src out Hb), E. destruct (ref_decode unbase64 [] src); split; by intros [= ->].
  - pose proof (decode_internal_ok unbase64 (out_size (length src)) Ht src None Hb ltac:(done) ltac:(done) Hpads) as H. by destruct (ref_decode unbase64 [] src).
Qed.

Lemma base64_decode_correct_witness :
  base64_decode [84; 87; 70; 32; 117; 10; 77; 65; 61; 32; 61] 0 = Some (true, [77; 97; 110; 48]) /\
  Base64UnescapeInternal kUnBase64 (out_size 11) [84; 87; 70; 32; 117; 10; 77; 65; 61; 32; 61] None = Some (Goes (4%nat, None)).
Proof.
  split; [by vm_compute|]. destruct (base64_decode_correct [84; 87; 70; 32; 117; 10; 77; 65; 61; 32; 61] 0 kUnBase64) as (_ & _ & H).
  - repeat constructor; lia.
  - vm_compute. reflexivity.
  - by left.
  - exact H.
Defined.

(** C39: Base64: the encoders return the text of RFC 4648, with padding for the standard alphabet and without for the web-safe one, whose length is what
    [CalculateBase64EscapedLenInternal] computed beforehand (no overflow, no access out of bounds, on hosts of both byte
    orders); and each decoder gives the bytes back. *)
Theorem base64_roundtrip little src u1 u2 : Forall byte_ok src -> Z.of_nat (length src) < 2 ^ 61 ->
  (forall base64 pad, CalculateBase64EscapedLenInternal (Z.of_nat (length src)) pad = Some (Z.of_nat (length (encode_text base64 pad src)))) /\
  base64_encode little src u1 = Some (encode_text kBase64Chars true src) /\
  base64_decode (encode_text kBase64Chars true src) u2 = Some (true, src) /\
  web_safe_base64_encode little src u1 = Some (encode_text kWebSafeBase64Chars false src) /\
  web_safe_base64_decode (encode_text kWebSafeBase64Chars false src) u2 = Some (true, src).
Proof.
  intros Hb Hn. destruct alphabets_ok as (A1 & A2), tables_ok as (T1 & T2). split; [intros; by apply calculate_length|].
  destruct (encode_decode _ _ true src A1 T1 Hb) as (D1 & B1). destruct (encode_decode _ _ false src A2 T2 Hb) as (D2 & B2).
  split; [by apply encode_string_ok|]. split; [|split; [by apply encode_string_ok|]].
  - unfold base64_decode. rewrite decode_string_ok by (done || by apply (decoded_pads _ T1 _ src)). by rewrite D1.
  - unfold web_safe_base64_decode. rewrite decode_string_ok by (done || by apply (decoded_pads _ T2 _ src)). by rewrite D2.
Qed.

Lemma base64_roundtrip_witness :
  base64_encode true [77; 97; 110; 251] 0 = Some [84; 87; 70; 117; 43; 119; 61; 61] /\
  base64_decode (encode_text kBase64Chars true [77; 97; 110; 251]) 0 = Some (true, [77; 97; 110; 251]).
Proof.
  split; [by vm_compute|]. destruct (base64_roundtrip true [77; 97; 110; 251] 0 0) as (_ & _ & H & _); [repeat constructor; lia|by vm_compute|exact H].
Defined.

(** Hexadecimal text: [hex_string_to_bytes] on ASCII text returns the bytes of its pairs of digits, of either case, and false if the length is
    odd or a character is no digit; it inverts [bytes_to_hex_string], and so does the lenient variant. Where [char] is signed, a first character beyond ASCII
    in a text of even length makes it read outside of its table (the [char] is converted to [size_t] without passing by
    [unsigned char]). *)
Theorem hex_string_correct signed hex src : Forall byte_ok hex -> Forall (fun c => c < 128) hex -> Forall byte_ok src ->
  hex_string_to_bytes signed hex = Some (match hex_pairs hex with Some l => Goes l | None => ReturnsFalse end) /\
  hex_string_to_bytes signed (bytes_to_hex_string src) = Some (Goes src) /\
  hex_string_to_bytes_lenient (bytes_to_hex_string src) = src /\
  (forall c d rest, 128 <= c < 256 -> Nat.Even (length rest) -> hex_string_to_bytes true (c :: d :: rest) = None).
Proof.
  intros Hb Ha Hs. assert (Hok : forall hex, Forall byte_ok hex -> Forall (fun c => c < 128) hex ->
    hex_string_to_bytes signed hex = Some (match hex_pairs hex with Some l => Goes l | None => ReturnsFalse end)).
  { clear hex Hb Ha. intros hex Hb Ha. unfold hex_string_to_bytes. cbv zeta. destruct (Nat.eqb_spec (length hex) (length hex / 2 * 2)) as [E|E]; cbn [negb].
    - rewrite (strict_loop_ok signed (length hex)) by (done || exists (length hex / 2)%nat; lia). by destruct (hex_pairs hex).
    - rewrite hex_pairs_odd; [done|]. intros [m Hm]. apply E. rewrite Hm. zify. zlia. }
  destruct (bytes_to_hex_ok src Hs) as (H1 & H2 & H3 & H4). split; [by apply Hok|]. split; [|split].
  - rewrite Hok by done. by rewrite H1.
  - by apply (lenient_ok _ _ _ (Nat.le_refl _) H2).
  - intros c d rest Hc [m Hm]. unfold hex_string_to_bytes. cbv zeta. destruct (Nat.eqb_spec (length (c :: d :: rest)) (length (c :: d :: rest) / 2 * 2)) as [E|E].
    + cbn [negb strict_loop]. assert (Ew : wrap 64 (swrap 8 c) = 2 ^ 64 - 256 + c).
      { assert (Esw : swrap 8 c = c - 256) by (unfold swrap; zlia). rewrite Esw. unfold wrap. symmetry. apply (Z.mod_unique _ _ (-1)); lia. }
      assert (Ev : strict_value true c = None) by (unfold strict_value; cbv zeta; rewrite Ew; by destruct (Z.ltb_spec (2 ^ 64 - 256 + c) 256); [lia|]). by rewrite Ev.
    + exfalso. apply E. cbn [length]. rewrite Hm. zify. zlia.
Qed.

Lemma hex_string_correct_witness :
  hex_string_to_bytes true [48; 70; 97; 48] = Some (Goes [15; 160]) /\ hex_string_to_bytes true [195; 169] = None /\
  hex_string_to_bytes true (bytes_to_hex_string [0; 171]) = Some (Goes [0; 171]).
Proof.
  split; [by vm_compute|]. split; [by vm_compute|]. destruct (hex_string_correct true [] [0; 171]) as (_ & H & _); [constructor|constructor|repeat constructor; lia|exact H].
Defined.
