(* ===== verification/Loops.v ===== *)
(** * Loops with fuel

    [while_ fuel cond body s] is the loop [while (cond) body] on a state, whose body may fail ([None]: an access out
    of bounds, a failed check). Running out of fuel is [None] too, so an equation [while_ ... = Some s'] says that the
    loop ends. The rule below asks for an invariant and a measure. *)
From Stdlib Require Export ZifyNat ZifyBool.
From S2P Require Import Prelude.

Section While.
Context {S : Type}.

Fixpoint while_ (fuel : nat) (cond : S -> bool) (body : S -> option S) (s : S) : option S :=
  if cond s then
    match fuel with
    | O => None
    | Datatypes.S fuel => s ← body s; while_ fuel cond body s
    end
  else Some s.

(** The rule of the loop: an invariant that the body preserves while it decreases a measure. *)
Lemma while_rule (I : S -> Prop) (measure : S -> nat) cond body fuel s :
  I s -> (measure s <= fuel)%nat ->
  (forall s, I s -> cond s = true -> exists s', body s = Some s' /\ I s' /\ (measure s' < measure s)%nat) ->
  exists s', while_ fuel cond body s = Some s' /\ I s' /\ cond s' = false.
Proof.
  intros HI Hm Hb. revert s HI Hm. induction fuel as [|fuel IH]; intros s HI Hm; simpl.
  - destruct (cond s) eqn:E; [|by exists s].
    destruct (Hb s HI E) as (s' & _ & _ & ?). lia.
  - destruct (cond s) eqn:E; [|by exists s].
    destruct (Hb s HI E) as (s' & -> & HI' & ?). simpl. apply IH; [done|lia].
Qed.

(** A loop that runs [n] times through the states [st 0], [st 1], ... *)
Lemma while_steps (st : nat -> S) n cond body fuel :
  (n <= fuel)%nat ->
  (forall k, (k < n)%nat -> cond (st k) = true /\ body (st k) = Some (st (Datatypes.S k))) ->
  cond (st n) = false ->
  while_ fuel cond body (st O) = Some (st n).
Proof.
  revert n st. induction fuel as [|fuel IH]; intros [|n] st Hf Hk Hn; simpl; try lia; try by rewrite Hn.
  destruct (Hk O) as [-> ->]; [lia|]. simpl.
  apply (IH n (fun k => st (Datatypes.S k))); [lia| |done]. intros k Hlt. apply Hk. lia.
Qed.

(** The same, with an invariant instead of a state. *)
Lemma while_count (I : nat -> S -> Prop) n cond body fuel s :
  (n <= fuel)%nat -> I O s ->
  (forall k s, (k < n)%nat -> I k s -> cond s = true /\ exists s', body s = Some s' /\ I (Datatypes.S k) s') ->
  (forall s, I n s -> cond s = false) ->
  exists s', while_ fuel cond body s = Some s' /\ I n s'.
Proof.
  revert n I s. induction fuel as [|fuel IH]; intros [|n] I s Hf H0 Hk Hn; simpl; try lia.
  - rewrite Hn by done. by exists s.
  - rewrite Hn by done. by exists s.
  - destruct (Hk O s) as (-> & s' & -> & H1); [lia|done|]. simpl.
    apply (IH n (fun k => I (Datatypes.S k))); [lia|done| |done]. intros k s0 Hlt. apply Hk. lia.
Qed.

(** More fuel gives the same result. *)
Lemma while_more cond body fuel fuel' s s' :
  while_ fuel cond body s = Some s' -> (fuel <= fuel')%nat -> while_ fuel' cond body s = Some s'.
Proof.
  revert fuel' s. induction fuel as [|fuel IH]; intros [|fuel'] s; simpl; intros H Hle; try lia.
  - destruct (cond s); [done|]. done.
  - by destruct (cond s).
  - destruct (cond s); [|done]. bind_inv H. simpl. apply IH; [done|lia].
Qed.

End While.

(** Run the first loop of the goal with the invariant [I], [n] times; the last goal has the final state. *)
Ltac run_loop I n :=
  match goal with
  | |- context [while_ ?fuel ?cond ?body ?s] =>
      let s' := fresh "s" in let H := fresh "Hs" in
      destruct (while_count I n cond body fuel s) as (s' & -> & H); [lia| | | |]
  end.

(** Take the known result of a step through the bind that follows it. *)
Lemma bind_value {A B : Type} (x : A) (f : A -> option B) : (Some x ≫= f) = f x.
Proof. reflexivity. Qed.
Ltac run := rewrite bind_value; cbn beta iota.

(** Equality of tuples and of states, component by component. *)
Ltac pairs :=
  repeat match goal with
  | |- Some _ = Some _ => apply f_equal
  | |- @pair _ _ _ _ = @pair _ _ _ _ => apply f_equal2
  | |- @cons _ _ _ = @cons _ _ _ => apply f_equal2
  end; try reflexivity; try lia.

(** Case analysis on the tests of the goal, without the impossible cases. *)
Ltac ifs := repeat match goal with |- context [if ?b then _ else _] => let E := fresh "E" in destruct b eqn:E; try lia end; try done.
