(* ===== verification/Crc.v ===== *)
(** * Cyclic redundancy checks (crypto/internal/crc.cc, crypto/internal/crc_internal.h)

    The table-driven engine of CRC-32C: its tables and how they are built, the interleaved loop over words, the
    extension by zeroes in logarithmic time and its inverse, and scrambling. A buffer is the list of the bytes left to read; a read past its end or outside of a table is
    [None], and memory that the code has not written holds an unknown value. *)
From Stdlib Require Import Btauto.
From S2P Require Import Prelude Words Endian Loops.

(** ** Helpers of crc.cc and crc_internal.h *)

Definition ZEROES_BASE_LG : Z := 4.
Definition ZEROES_BASE : Z := Z.shiftl 1 ZEROES_BASE_LG.
Definition kCrc32cPoly : Z := 0x82f63b78.
Definition kScrambleLo : Z := Z.lor (Z.shiftl 0xf9ce6030 32) 0x2e76e41b.

Definition ReverseBits (bits : Z) : Z :=
  let bits := Z.lor (ushr (Z.land bits 0xaaaaaaaa) 1) (ushl 32 (Z.land bits 0x55555555) 1) in
  let bits := Z.lor (ushr (Z.land bits 0xcccccccc) 2) (ushl 32 (Z.land bits 0x33333333) 2) in
  let bits := Z.lor (ushr (Z.land bits 0xf0f0f0f0) 4) (ushl 32 (Z.land bits 0x0f0f0f0f) 4) in
  gbswap_32 bits.

(** [(m >> 1) ^ poly] if the low bit is set, [m >> 1] otherwise: one step of the polynomial division. *)
Definition advance_bit (poly m : Z) : Z := if Z.testbit m 0 then Z.lxor (ushr m 1) poly else ushr m 1.

(** The state of the loop of [PolyMultiply]: [one], [result] and [m]. *)
Definition PolyMultiply (val m poly : Z) : option Z :=
  let l := val in
  '(_, result, _) ← while_ 33 (fun '(one, _, _) => negb (one =? 0))
    (fun '(one, result, m) =>
       let result := if negb (Z.land l one =? 0) then Z.lxor result m else result in
       Some (ushr one 1, result, advance_bit poly m))
    (0x80000000, 0, m);
  Some result.

Definition MaskOfLength (w len : Z) : Z := usub w (ushl w 2 (len - 1)) 1.
Definition RotateRight (w in_ width r : Z) : Z :=
  Z.lor (ushl w in_ (width - r)) (Z.land (ushr in_ r) (MaskOfLength w (width - r))).

(** [RoundUp<4>] on an address. *)
Definition RoundUp4 (as_uintptr : Z) : Z := Z.land (uadd 64 as_uintptr 3) (unot 64 3).

(** ** Tables *)

(** A [Uint32By256] array: [t[j][i]], reads and writes checked. *)
Definition Table := list (list Z).
Definition get (t : Table) (j i : Z) : option Z :=
  if (j <? 0) || (i <? 0) then None else row ← t !! Z.to_nat j; row !! Z.to_nat i.
Definition set (t : Table) (j i v : Z) : option Table :=
  if (j <? 0) || (i <? 0) then None
  else
    row ← t !! Z.to_nat j;
    if (Z.to_nat i <? length row)%nat then Some (<[Z.to_nat j := <[Z.to_nat i := v]> row]> t) else None.

(** [new Uint32By256[4]] and the members of a new engine: memory with unknown contents. *)
Definition fresh (uninit : nat -> Z) : list Z := uninit <$> seq 0 256.

(** The entries of one table at the powers of two, [i] from 128 down to 1. *)
Definition fill_powers (poly last j : Z) (t : Table) : option Table :=
  '(_, t) ← while_ 9 (fun '(i, _) => negb (i =? 0))
    (fun '(i, t) =>
       t ←
         if (j =? 0) && (i =? 128) then set t j i last
         else
           pred ← if i =? 128 then get t (j - 1) 1 else get t j (Z.shiftl i 1);
           set t j i (advance_bit poly pred);
       Some (ushr i 1, t))
    (128, t);
  Some t.

(** The other entries, by exclusive or. *)
Definition fill_others (j : Z) (t : Table) : option Table :=
  '(_, t) ← while_ 9 (fun '(i, _) => negb (i =? 256))
    (fun '(i, t) =>
       '(_, t) ← while_ 256 (fun '(k, _) => negb (k =? Z.shiftl i 1))
         (fun '(k, t) =>
            a ← get t j i;
            b ← get t j (k - i);
            t ← set t j k (Z.lxor a b);
            Some (k + 1, t))
         (i + 1, t);
       Some (Z.shiftl i 1, t))
    (2, t);
  Some t.

Definition FillWordTable (poly last word_size : Z) (t : Table) : option Table :=
  '(_, t) ← while_ 5 (fun '(j, _) => negb (j =? word_size))
    (fun '(j, t) =>
       t ← set t j 0 0;
       t ← fill_powers poly last j t;
       t ← fill_others j t;
       Some (j + 1, t))
    (0, t);
  Some t.

(** The fifteen entries of one base-16 digit: the state is [a], [v], [j] and the table. *)
Definition fill_digit (poly inc j : Z) (t : Table) : option (Z * Z * Table) :=
  '(_, v, j, t) ← while_ 16 (fun '(a, _, _, _) => negb (a =? ZEROES_BASE))
    (fun '(a, v, j, t) =>
       t ← set t 0 j v;
       v ← PolyMultiply v inc poly;
       Some (a + 1, v, j + 1, t))
    (1, inc, j, t);
  Some (v, j, t).

(** The loops of [FillZeroesTable], then its check that the table has room. *)
Definition FillZeroesTable (poly : Z) (t : Table) : option (Z * Table) :=
  let inc := ushr (ushl 32 1 31) 1 in
  '(_, inc) ← while_ 4 (fun '(i, _) => i <? 3)
    (fun '(i, inc) => inc ← PolyMultiply inc inc poly; Some (i + 1, inc))
    (0, inc);
  '(_, _, j, t) ← while_ 17 (fun '(inc_len, _, _, _) => negb (inc_len =? 0))
    (fun '(inc_len, inc, j, t) =>
       '(inc, j, t) ← fill_digit poly inc j t;
       Some (ushl 64 inc_len ZEROES_BASE_LG, inc, j, t))
    (1, inc, 0, t);
  if j <=? 256 then Some (j, t) else None.

(** ** The engine *)

Record CRC32 := {
  table0_ : list Z;
  zeroes_ : list Z;
  table_ : Table;
  reverse_table0_ : list Z;
  reverse_zeroes_ : list Z
}.

(** [for (i = 0; i != n; i++) dst[i] = src[i]] *)
Definition copy_entries (n : Z) (src dst : list Z) : option (list Z) :=
  '(_, dst) ← while_ 257 (fun '(i, _) => i <? n)
    (fun '(i, dst) =>
       v ← src !! Z.to_nat i;
       if (Z.to_nat i <? length dst)%nat then Some (i + 1, <[Z.to_nat i := v]> dst) else None)
    (0, dst);
  Some dst.

Definition kCrc32cUnextendPoly : Z := ReverseBits (wrap 32 (Z.lxor (ushl 32 kCrc32cPoly 1) 1)).

(** [CRC32::InitTables]; [uninit] gives the contents of the memory before it is written, member by member and then
    the four rows of the scratch array. *)
Definition InitTables (uninit : nat -> nat -> Z) : option CRC32 :=
  let t := (fun j => fresh (uninit (8 + j)%nat)) <$> seq 0 4 in
  t ← FillWordTable kCrc32cPoly kCrc32cPoly 1 t;
  row ← t !! 0%nat;
  table0 ← copy_entries 256 row (fresh (uninit 0%nat));
  '(_, last) ← while_ 13 (fun '(i, _) => i <? 12)
    (fun '(i, last) => e ← table0 !! Z.to_nat (Z.land last 0xff); Some (i + 1, Z.lxor (ushr last 8) e))
    (0, kCrc32cPoly);
  t ← FillWordTable kCrc32cPoly last 4 t;
  '(_, table) ← while_ 5 (fun '(b, _) => b <? 4)
    (fun '(b, table) =>
       src ← t !! Z.to_nat b;
       dst ← table !! Z.to_nat b;
       dst ← copy_entries 256 src dst;
       Some (b + 1, <[Z.to_nat b := dst]> table))
    (0, (fun j => fresh (uninit (1 + j)%nat)) <$> seq 0 4);
  '(j, t) ← FillZeroesTable kCrc32cPoly t;
  row ← t !! 0%nat;
  zeroes ← copy_entries j row (fresh (uninit 5%nat));
  rt ← FillWordTable kCrc32cUnextendPoly kCrc32cUnextendPoly 1 [fresh (uninit 6%nat)];
  reverse_table0 ← rt !! 0%nat;
  '(_, rz) ← FillZeroesTable kCrc32cUnextendPoly [fresh (uninit 7%nat)];
  reverse_zeroes ← rz !! 0%nat;
  Some {| table0_ := table0; zeroes_ := zeroes; table_ := table;
          reverse_table0_ := reverse_table0; reverse_zeroes_ := reverse_zeroes |}.

Section Engine.
Variable little : bool.              (* TURBO_IS_LITTLE_ENDIAN *)
Variable kNeedAlignedLoads : bool.   (* not x86 *)
Variable kPrefetchHorizon : Z.       (* four cache lines *)
Variable c : CRC32.

(** A byte is read at [p], then [p] moves; the state is [p] and [l]. *)
Definition step_one_byte (s : list Z * Z) : option (list Z * Z) :=
  let '(p, l) := s in
  match p with
  | [] => None
  | b :: p =>
      let x := Z.lxor (Z.land l 0xff) b in
      e ← table0_ c !! Z.to_nat x;
      Some (p, Z.lxor e (ushr l 8))
  end.

(** [little_endian::load32], at [p + n] *)
Definition load32 (p : list Z) (n : nat) : option Z :=
  if (n + 4 <=? length p)%nat then Some (le_load little (take 4 (drop n p))) else None.

Definition step_swath (crc_in : Z) (p : list Z) (n : nat) : option Z :=
  w ← load32 p n;
  e3 ← get (table_ c) 3 (Z.land crc_in 0xff);
  e2 ← get (table_ c) 2 (Z.land (ushr crc_in 8) 0xff);
  e1 ← get (table_ c) 1 (Z.land (ushr crc_in 16) 0xff);
  e0 ← get (table_ c) 0 (ushr crc_in 24);
  Some (Z.lxor (Z.lxor (Z.lxor (Z.lxor w e3) e2) e1) e0).

(** [p] and the four operating buffers *)
Record swath := Swath { at_ : list Z; buf0 : Z; buf1 : Z; buf2 : Z; buf3 : Z }.

Definition step_stride (s : swath) : option swath :=
  let p := at_ s in
  b0 ← step_swath (buf0 s) p 0;
  b1 ← step_swath (buf1 s) p 4;
  b2 ← step_swath (buf2 s) p 8;
  b3 ← step_swath (buf3 s) p 12;
  Some (Swath (drop 16 p) b0 b1 b2 b3).

Definition combine_one_word (crc_in w : Z) : option Z :=
  '(_, w) ← while_ 5 (fun '(i, _) => i <? 4)
    (fun '(i, w) => e ← table0_ c !! Z.to_nat (Z.land w 0xff); Some (i + 1, Z.lxor (ushr w 8) e))
    (0, Z.lxor w crc_in);
  Some w.

(** The three loops over the buffer: 64 bytes, 16 bytes, one word. *)
Definition long_strides (s : swath) : option swath :=
  while_ (length (at_ s)) (fun s => kPrefetchHorizon <? Z.of_nat (length (at_ s)))
    (fun s => s ← step_stride s; s ← step_stride s; s ← step_stride s; step_stride s) s.
Definition strides (s : swath) : option swath :=
  while_ (length (at_ s)) (fun s => (16 <=? length (at_ s))%nat) step_stride s.
Definition words (s : swath) : option swath :=
  while_ (length (at_ s)) (fun s => (4 <=? length (at_ s))%nat)
    (fun s =>
       tmp ← step_swath (buf0 s) (at_ s) 0;
       Some (Swath (drop 4 (at_ s)) (buf1 s) (buf2 s) (buf3 s) tmp)) s.

Definition swaths (p : list Z) (l : Z) : option (list Z * Z) :=
  w0 ← load32 p 0;
  b1 ← load32 p 4;
  b2 ← load32 p 8;
  b3 ← load32 p 12;
  s ← long_strides (Swath (drop 16 p) (Z.lxor w0 l) b1 b2 b3);
  s ← strides s;
  s ← words s;
  l ← combine_one_word 0 (buf0 s);
  l ← combine_one_word l (buf1 s);
  l ← combine_one_word l (buf2 s);
  l ← combine_one_word l (buf3 s);
  Some (at_ s, l).

(** The bytes before the first aligned address; [address] is that of the first byte of the buffer. *)
Definition align_prefix (address : Z) (p : list Z) (l : Z) : option (list Z * Z) :=
  if kNeedAlignedLoads then
    let x := RoundUp4 address - address in
    if x <? 0 then None
    else if x <=? Z.of_nat (length p) then
      let left := (length p - Z.to_nat x)%nat in
      while_ (length p) (fun '(p, _) => negb (length p =? left)%nat) step_one_byte (p, l)
    else Some (p, l)
  else Some (p, l).

(** [CRC32::Extend] *)
Definition Extend (crc : Z) (address : Z) (bytes : list Z) : option Z :=
  '(p, l) ← align_prefix address bytes crc;
  '(p, l) ← if (16 <=? length p)%nat then swaths p l else Some (p, l);
  '(_, l) ← while_ (length p) (fun '(p, _) => negb (length p =? 0)%nat) step_one_byte (p, l);
  Some l.

(** One step of the multiplication by [m], of the low byte of [l]; the state is [x], [l] and [result]. *)
Definition multiply_byte (poly_table : list Z) (m : Z) (s : Z * Z * Z) : option (Z * Z * Z) :=
  let '(x, l, result) := s in
  let m2 := ushl 64 m 1 in
  let mtab := [0; m; m2; Z.lxor m2 m] in
  t0 ← mtab !! Z.to_nat (Z.land l 3);
  t1 ← mtab !! Z.to_nat (Z.land (ushr l 2) 3);
  t2 ← mtab !! Z.to_nat (Z.land (ushr l 4) 3);
  t3 ← mtab !! Z.to_nat (Z.land (ushr l 6) 3);
  let result := Z.lxor result (Z.lxor (Z.lxor (Z.lxor t0 (ushl 64 t1 2)) (ushl 64 t2 4)) (ushl 64 t3 6)) in
  e ← poly_table !! Z.to_nat (Z.land result 0xff);
  Some (x + 8, ushr l 8, Z.lxor (ushr result 8) e).

(** [CRC32::ExtendByZeroesImpl] *)
Definition ExtendByZeroesImpl (crc length : Z) (zeroes_table poly_table : list Z) : option Z :=
  if negb (length =? 0) then
    '(l, _, _) ← while_ 17 (fun '(_, _, length) => negb (length =? 0))
      (fun '(l, i, length) =>
         let d := Z.land length (ZEROES_BASE - 1) in
         l ←
           if negb (d =? 0) then
             m ← zeroes_table !! Z.to_nat (d + i - 1);
             '(_, _, result) ← while_ 5 (fun '(x, _, _) => x <? 32) (multiply_byte poly_table (ushl 64 m 1)) (0, l, 0);
             Some (wrap 32 result)
           else Some l;
         Some (l, i + (ZEROES_BASE - 1), ushr length ZEROES_BASE_LG))
      (crc, 0, length);
    Some l
  else Some crc.

Definition ExtendByZeroes (crc length : Z) : option Z := ExtendByZeroesImpl crc length (zeroes_ c) (table0_ c).
Definition UnextendByZeroes (crc length : Z) : option Z :=
  crc ← ExtendByZeroesImpl (ReverseBits crc) length (reverse_zeroes_ c) (reverse_table0_ c);
  Some (ReverseBits crc).

End Engine.

Definition Scramble (crc : Z) : Z :=
  Z.land (RotateRight 32 (wrap 32 (uadd 64 crc kScrambleLo)) 32 17) (MaskOfLength 32 32).
Definition Unscramble (crc : Z) : Z :=
  let rotated := RotateRight 32 crc 32 (32 - 17) in
  wrap 32 (Z.land (usub 64 rotated kScrambleLo) (MaskOfLength 32 32)).


(** ** Polynomials modulo the generator *)

(** Exclusive or on either side of an equation, up to associativity and commutativity. *)
Ltac xor_ac :=
  apply Z.bits_inj'; intros ? _; rewrite ?Z.lxor_spec, ?Z.testbit_0_l, ?xorb_false_l, ?xorb_false_r; btauto.

(** A function is linear when it commutes with exclusive or. *)
Definition linear (f : Z -> Z) : Prop := forall a b, f (Z.lxor a b) = Z.lxor (f a) (f b).

Lemma linear_0 f : linear f -> f 0 = 0.
Proof. intros Hf. specialize (Hf 0 0). rewrite Z.lxor_0_l in Hf. rewrite Hf at 1. by rewrite Z.lxor_nilpotent. Qed.

Lemma linear_comp f g : linear f -> linear g -> linear (fun x => f (g x)).
Proof. intros Hf Hg a b. by rewrite Hg, Hf. Qed.

Lemma split_top_bit n a : 0 <= n -> 0 <= a < 2 ^ (n + 1) ->
  exists b a', a = Z.lxor (if (b : bool) then 2 ^ n else 0) a' /\ 0 <= a' < 2 ^ n.
Proof.
  intros Hn Ha. exists (Z.testbit a n), (a mod 2 ^ n). split.
  - apply Z.bits_inj'. intros i Hi. rewrite Z.lxor_spec.
    rewrite testbit_mod_pow2 by lia.
    assert (Z.testbit (if Z.testbit a n then 2 ^ n else 0) i = (n =? i) && Z.testbit a n) as ->.
    { destruct (Z.testbit a n); [rewrite testbit_pow2 by lia; by rewrite andb_true_r|].
      by rewrite Z.testbit_0_l, andb_false_r. }
    destruct (Z.eqb_spec n i) as [->|]; simpl.
    + replace (i <? i) with false by lia. by rewrite xorb_false_r.
    + destruct (Z.ltb_spec i n); simpl; [by destruct (Z.testbit a i)|].
      rewrite (testbit_bounded a (n + 1)) by lia. done.
  - apply Z.mod_pos_bound. lia.
Qed.

(** Two linear functions that agree on the powers of two agree. *)
Lemma linear_ext n f g : linear f -> linear g -> 0 <= n ->
  (forall k, 0 <= k < n -> f (2 ^ k) = g (2 ^ k)) -> forall a, 0 <= a < 2 ^ n -> f a = g a.
Proof.
  intros Hf Hg Hn. revert n Hn. apply (natlike_ind (fun n => (forall k, 0 <= k < n -> f (2 ^ k) = g (2 ^ k)) -> forall a, 0 <= a < 2 ^ n -> f a = g a)).
  - intros _ a Ha. replace a with 0 by lia. by rewrite !linear_0.
  - intros n Hn IH Hk a Ha. change (Z.succ n) with (n + 1) in *.
    destruct (split_top_bit n a Hn Ha) as (b & a' & -> & Ha'). rewrite Hf, Hg. f_equal.
    + destruct b; [apply Hk; lia|by rewrite !linear_0].
    + apply IH; [|done]. intros; apply Hk; lia.
Qed.

Lemma set_row row rest i v : 0 <= i < Z.of_nat (length row) ->
  set (row :: rest) 0 i v = Some (<[Z.to_nat i := v]> row :: rest).
Proof.
  intros Hi. unfold set. simpl. destruct (Z.ltb_spec i 0); [lia|]. destruct (Nat.ltb_spec (Z.to_nat i) (length row)); [done|lia].
Qed.

Lemma lxor_shiftl b x : byte_ok b -> b + 256 * x = Z.lxor b (Z.shiftl x 8).
Proof.
  intros Hb. symmetry. rewrite <- Z.add_nocarry_lxor.
  - rewrite Z.shiftl_mul_pow2 by lia. lia.
  - apply Z.bits_inj'. intros i Hi. rewrite Z.land_spec, testbit_shiftl, Z.testbit_0_l by lia.
    destruct (Z.lt_ge_cases i 8); [rewrite (Z.testbit_neg_r x) by lia; apply andb_false_r|].
    rewrite (testbit_bounded b 8); [done|exact Hb|lia].
Qed.

Lemma load32_spec little p n : Forall byte_ok p -> (n + 4 <= length p)%nat ->
  load32 little p n = Some (le_combine (take 4 (drop n p))) /\ 0 <= le_combine (take 4 (drop n p)) < 2 ^ 32.
Proof.
  intros Hp Hn. unfold load32. destruct (Nat.leb_spec (n + 4) (length p)); [|lia].
  assert (length (take 4 (drop n p)) = 4%nat) as Hlen by (rewrite length_take, length_drop; lia).
  assert (Forall byte_ok (take 4 (drop n p))) as Hb by (by apply Forall_take, Forall_drop). split.
  - f_equal. apply le_load_spec; [|done]. rewrite Hlen. unfold size_ok. tauto.
  - pose proof (le_combine_range _ Hb) as Hr. by rewrite Hlen in Hr.
Qed.


Lemma RoundUp4_spec a : 0 <= a -> a + 3 < 2 ^ 64 -> 0 <= RoundUp4 a - a.
Proof.
  intros Ha Hb. unfold RoundUp4. unfold uadd. rewrite wrap_small by lia. rewrite unot_val by lia.
  assert (Z.land (a + 3) (2 ^ 64 - 1 - 3) = (a + 3) / 4 * 4) as ->; [|zlia].
  change 4 with (2 ^ 2) at 1 2. rewrite <- Z.shiftl_mul_pow2, <- Z.shiftr_div_pow2 by lia.
  change (2 ^ 64 - 1 - 3) with (Z.shiftl (Z.ones 62) 2). apply Z.bits_inj'. intros i Hi.
  rewrite Z.land_spec, !testbit_shiftl by lia. destruct (Z.lt_ge_cases i 2).
  { rewrite !(Z.testbit_neg_r _ (i - 2)) by lia. apply andb_false_r. }
  rewrite testbit_shiftr, testbit_ones by lia. replace (i - 2 + 2) with i by lia.
  destruct (Z.ltb_spec (i - 2) 62); [apply andb_true_r|]. rewrite (testbit_bounded (a + 3) 64) by lia. done.
Qed.

Section Polynomial.
Variable poly : Z.

(** Multiplication by [x^n]: [n] steps of the division. *)
Definition zpow (n r : Z) : Z := Nat.iter (Z.to_nat n) (advance_bit poly) r.

Lemma advance_linear : linear (advance_bit poly).
Proof using.
  intros a b. unfold advance_bit, ushr. rewrite Z.lxor_spec, Z.shiftr_lxor.
  destruct (Z.testbit a 0), (Z.testbit b 0); simpl; xor_ac.
Qed.

Lemma zpow_linear n : linear (zpow n).
Proof using.
  unfold zpow. induction (Z.to_nat n) as [|k IH]; intros a b; simpl; [done|].
  rewrite IH. apply advance_linear.
Qed.

Lemma zpow_lxor n a b : zpow n (Z.lxor a b) = Z.lxor (zpow n a) (zpow n b).
Proof using. apply zpow_linear. Qed.

Lemma zpow_0 n : zpow n 0 = 0.
Proof using. apply linear_0, zpow_linear. Qed.

Lemma zpow_zpow m n a : 0 <= m -> 0 <= n -> zpow m (zpow n a) = zpow (m + n) a.
Proof using. intros. unfold zpow. rewrite <- Nat.iter_add. f_equal. lia. Qed.

Lemma zpow_none a : zpow 0 a = a.
Proof using. done. Qed.

Lemma zpow_one a : zpow 1 a = advance_bit poly a.
Proof using. done. Qed.

(** A value shifted left by [n] comes back. *)
Lemma zpow_shiftl n a : 0 <= n -> zpow n (Z.shiftl a n) = a.
Proof using.
  intros Hn. revert n Hn a. apply (natlike_ind (fun n => forall a, zpow n (Z.shiftl a n) = a)).
  - intros a. by rewrite Z.shiftl_0_r.
  - intros n Hn IH a. replace (Z.succ n) with (n + 1) by lia. rewrite <- zpow_zpow, zpow_one by lia.
    assert (advance_bit poly (Z.shiftl a (n + 1)) = Z.shiftl a n) as ->; [|done].
    unfold advance_bit. rewrite testbit_shiftl by lia. rewrite Z.testbit_neg_r by lia.
    unfold ushr. apply Z.bits_inj'. intros i Hi. rewrite testbit_shiftr, !testbit_shiftl by lia. f_equal; lia.
Qed.

(** The low [n] bits go through the division, the rest moves down. *)
Lemma zpow_split n a : 0 <= n -> zpow n a = Z.lxor (zpow n (a mod 2 ^ n)) (Z.shiftr a n).
Proof using.
  intros Hn. rewrite <- (zpow_shiftl n (Z.shiftr a n)) by done.
  rewrite <- zpow_lxor. f_equal. apply Z.bits_inj'. intros i Hi.
  rewrite Z.lxor_spec, testbit_mod_pow2, testbit_shiftl by lia. destruct (Z.ltb_spec i n); simpl.
  - rewrite (Z.testbit_neg_r _ (i - n)) by lia. by destruct (Z.testbit a i).
  - rewrite testbit_shiftr by lia. replace (i - n + n) with i by lia. by destruct (Z.testbit a i).
Qed.

(** The product of [a] and [b]: the sum of the [x^k b] for the bits [31 - k] of [a]. *)
Fixpoint mul_bits (n : nat) (a b : Z) : Z :=
  match n with
  | O => 0
  | S k => Z.lxor (mul_bits k a b) (if Z.testbit a (31 - Z.of_nat k) then zpow (Z.of_nat k) b else 0)
  end.

Lemma mul_bits_linear n b : linear (fun a => mul_bits n a b).
Proof using.
  intros a a'. induction n as [|n IH]; simpl; [done|]. rewrite IH, Z.lxor_spec.
  destruct (Z.testbit a _), (Z.testbit a' _); simpl; xor_ac.
Qed.

Lemma mul_bits_pow2 n k b : 0 <= k <= 31 ->
  mul_bits n (2 ^ k) b = if 31 - k <? Z.of_nat n then zpow (31 - k) b else 0.
Proof using.
  intros Hk. induction n as [|n IH]; cbn [mul_bits].
  - change (Z.of_nat 0) with 0. zcases; [lia|done].
  - rewrite IH. destruct (Z.lt_ge_cases (31 - Z.of_nat n) 0).
    + rewrite Z.testbit_neg_r by lia. rewrite Z.lxor_0_r. zcases; try lia; done.
    + rewrite testbit_pow2 by lia. zcases; try lia; rewrite ?Z.lxor_0_r, ?Z.lxor_0_l; try done. f_equal; lia.
Qed.

Definition one : Z := 2 ^ 31.

Lemma mul_zpow n a : 0 <= n -> 0 <= a < 2 ^ 32 -> mul_bits 32 a (zpow n one) = zpow n a.
Proof using.
  intros Hn. revert a.
  apply (linear_ext 32 (fun a => mul_bits 32 a (zpow n one)) (zpow n)); [apply mul_bits_linear|apply zpow_linear|lia|].
  intros k Hk. rewrite mul_bits_pow2 by lia. change (Z.of_nat 32) with 32. zcases; [|lia].
  rewrite zpow_zpow by lia. rewrite Z.add_comm, <- zpow_zpow by lia. f_equal. unfold one.
  replace (2 ^ 31) with (Z.shiftl (2 ^ k) (31 - k)).
  - apply zpow_shiftl. lia.
  - rewrite Z.shiftl_mul_pow2 by lia. rewrite <- Z.pow_add_r by lia. f_equal. lia.
Qed.

(** The bit that [PolyMultiply] looks at. *)
Lemma one_bit l k : 0 <= k < 32 -> negb (Z.land l (Z.shiftr 0x80000000 k) =? 0) = Z.testbit l (31 - k).
Proof using.
  intros Hk. change 0x80000000 with (2 ^ 31). rewrite Z.shiftr_div_pow2, <- Z.pow_sub_r by lia.
  destruct (Z.testbit l (31 - k)) eqn:E.
  - apply negb_true_iff, Z.eqb_neq. intros E0. apply (f_equal (fun z => Z.testbit z (31 - k))) in E0.
    rewrite Z.land_spec, testbit_pow2, E, Z.eqb_refl, Z.testbit_0_l in E0 by lia. done.
  - apply negb_false_iff, Z.eqb_eq. apply Z.bits_inj'. intros i Hi.
    rewrite Z.land_spec, testbit_pow2, Z.testbit_0_l by lia. destruct (Z.eqb_spec (31 - k) i) as [<-|]; [by rewrite E|].
    apply andb_false_r.
Qed.

Lemma PolyMultiply_spec l m : PolyMultiply l m poly = Some (mul_bits 32 l m).
Proof using.
  unfold PolyMultiply.
  pose (st := fun k : nat => (Z.shiftr 0x80000000 (Z.of_nat k), mul_bits k l m, zpow (Z.of_nat k) m)).
  change (0x80000000, 0, m) with (st O).
  rewrite (while_steps st 32); [done|lia| |done]. intros k Hk. unfold st. split.
  - assert (H := zrange_forall (fun i => negb (Z.shiftr 0x80000000 i =? 0)) 32 eq_refl (Z.of_nat k)). apply H. lia.
  - rewrite one_bit by lia. f_equal. f_equal; [f_equal|].
    + unfold ushr. rewrite Z.shiftr_shiftr by lia. f_equal. lia.
    + simpl. destruct (Z.testbit l _); [done|by rewrite Z.lxor_0_r].
    + replace (Z.of_nat (S k)) with (1 + Z.of_nat k) by lia. by rewrite <- zpow_zpow, zpow_one by lia.
Qed.

(** The table that [FillWordTable] makes for the last byte. *)
Definition byte_table (t : list Z) : Prop := forall i, 0 <= i < 256 -> t !! Z.to_nat i = Some (zpow 8 i).

(** *** Multiplying a byte at a time *)

Definition bit_of (m l i : Z) : Z := if Z.testbit l i then Z.shiftl m i else 0.

(** The carry-less product of the low byte of [l] and [m]. *)
Definition clmul8 (m l : Z) : Z :=
  Z.lxor (Z.lxor (Z.lxor (Z.lxor (bit_of m l 1) (bit_of m l 0)) (Z.lxor (bit_of m l 3) (bit_of m l 2)))
    (Z.lxor (bit_of m l 5) (bit_of m l 4))) (Z.lxor (bit_of m l 7) (bit_of m l 6)).

Lemma bit_of_lxor m i a b : bit_of m (Z.lxor a b) i = Z.lxor (bit_of m a i) (bit_of m b i).
Proof using. unfold bit_of. rewrite Z.lxor_spec. destruct (Z.testbit a i), (Z.testbit b i); simpl; xor_ac. Qed.

Lemma clmul8_linear m : linear (clmul8 m).
Proof using. intros a b. unfold clmul8. rewrite !bit_of_lxor. xor_ac. Qed.

Lemma land_3 x : Z.land x 3 = Z.b2z (Z.testbit x 0) + 2 * Z.b2z (Z.testbit x 1).
Proof using.
  replace (Z.testbit x 1) with (Z.testbit (x / 2) 0).
  - rewrite !Z.bit0_mod. change 3 with (Z.ones 2). rewrite Z.land_ones by lia. change (2 ^ 2) with 4. zlia.
  - change (x / 2) with (x / 2 ^ 1). rewrite <- Z.shiftr_div_pow2, testbit_shiftr by lia. done.
Qed.

Lemma shiftl_lt m i w n : 0 <= i -> 0 <= w -> n = w + i -> 0 <= m < 2 ^ w -> 0 <= Z.shiftl m i < 2 ^ n.
Proof using. intros Hi Hw -> Hm. rewrite Z.shiftl_mul_pow2, Z.pow_add_r by lia. nia. Qed.

Lemma mtab_lookup m l j : 0 <= j -> 0 <= m < 2 ^ 33 ->
  exists v, [0; m; ushl 64 m 1; Z.lxor (ushl 64 m 1) m] !! Z.to_nat (Z.land (ushr l j) 3) = Some v /\
    0 <= v < 2 ^ 34 /\ Z.shiftl v j = Z.lxor (bit_of m l (j + 1)) (bit_of m l j).
Proof using.
  intros Hj Hm. rewrite land_3. unfold ushr. rewrite !testbit_shiftr by lia. rewrite Z.add_0_l, (Z.add_comm 1 j).
  assert (ushl 64 m 1 = Z.shiftl m 1) as ->.
  { apply wrap_small. pose proof (shiftl_lt m 1 33 34). lia. }
  pose proof (shiftl_lt m 1 33 34 ltac:(lia) ltac:(lia) eq_refl Hm).
  exists (Z.lxor (if Z.testbit l (j + 1) then Z.shiftl m 1 else 0) (if Z.testbit l j then m else 0)). split.
  { destruct (Z.testbit l j), (Z.testbit l (j + 1)); cbn -[Z.lxor Z.shiftl]; by rewrite ?Z.lxor_0_r, ?Z.lxor_0_l. }
  split.
  - destruct (Z.testbit l j), (Z.testbit l (j + 1)); apply lxor_range; lia.
  - unfold bit_of. replace (Z.shiftl m (j + 1)) with (Z.shiftl (Z.shiftl m 1) j) by (rewrite Z.shiftl_shiftl by lia; f_equal; lia).
    destruct (Z.testbit l j), (Z.testbit l (j + 1)); rewrite ?Z.lxor_0_r, ?Z.lxor_0_l, ?Z.shiftl_lxor, ?Z.shiftl_0_l; done.
Qed.

(** The low byte of [l], multiplied and moved by eight bits. *)
Lemma zpow_clmul8 n l : 0 <= n -> 0 <= l < 2 ^ 8 ->
  zpow 8 (clmul8 (Z.shiftl (zpow n one) 1) l) = zpow n (Z.shiftl l 24).
Proof using.
  intros Hn. revert l. apply (linear_ext 8 (fun l => zpow 8 (clmul8 (Z.shiftl (zpow n one) 1) l)) (fun l => zpow n (Z.shiftl l 24))).
  - apply (linear_comp (zpow 8)); [apply zpow_linear|apply clmul8_linear].
  - apply (linear_comp (zpow n)); [apply zpow_linear|]. intros a b. apply Z.shiftl_lxor.
  - lia.
  - intros k Hk. transitivity (zpow 8 (Z.shiftl (zpow n one) (k + 1))).
    + f_equal. unfold clmul8, bit_of. rewrite !testbit_pow2, !Z.shiftl_shiftl by lia.
      assert (k = 0 \/ k = 1 \/ k = 2 \/ k = 3 \/ k = 4 \/ k = 5 \/ k = 6 \/ k = 7) as Hc by lia.
      destruct_or! Hc; subst k; simpl; rewrite ?Z.lxor_0_r, ?Z.lxor_0_l; done.
    + replace (zpow 8 (Z.shiftl (zpow n one) (k + 1))) with (zpow (7 - k) (zpow n one)).
      * rewrite zpow_zpow, Z.add_comm, <- zpow_zpow by lia. f_equal.
        replace one with (Z.shiftl (Z.shiftl (2 ^ k) 24) (7 - k)); [by apply zpow_shiftl; lia|].
        rewrite Z.shiftl_shiftl, Z.shiftl_mul_pow2, <- Z.pow_add_r by lia. unfold one. f_equal. lia.
      * replace 8 with ((7 - k) + (k + 1)) by lia. rewrite <- zpow_zpow, zpow_shiftl by lia. done.
Qed.

(** A table lookup on the low byte is eight steps of the division. *)
Lemma byte_step t r : byte_table t -> 0 <= r ->
  exists e, t !! Z.to_nat (Z.land r 0xff) = Some e /\ Z.lxor (ushr r 8) e = zpow 8 r.
Proof using.
  intros Ht Hr. exists (zpow 8 (Z.land r 0xff)). change 0xff with (Z.ones 8). rewrite Z.land_ones by lia. split.
  - apply Ht. apply Z.mod_pos_bound. lia.
  - rewrite (zpow_split 8 r) by lia. apply Z.lxor_comm.
Qed.

Lemma clmul8_nonneg m l : 0 <= m -> 0 <= clmul8 m l.
Proof using.
  intros Hm. assert (forall i, 0 <= bit_of m l i) by (intros i; unfold bit_of; destruct (Z.testbit l i); [|done]; by apply Z.shiftl_nonneg).
  assert (forall a b, 0 <= a -> 0 <= b -> 0 <= Z.lxor a b) as L by (intros a b; rewrite Z.lxor_nonneg; tauto).
  unfold clmul8. repeat apply L; auto.
Qed.

Lemma clmul8_low m l : clmul8 m l = clmul8 m (l mod 2 ^ 8).
Proof using. unfold clmul8, bit_of. rewrite !testbit_mod_pow2 by lia. done. Qed.

(** The next byte of [l]. *)
Lemma low_bytes l x : 0 <= x ->
  l mod 2 ^ (8 * (x + 1)) = Z.lxor (l mod 2 ^ (8 * x)) (Z.shiftl (Z.shiftr l (8 * x) mod 2 ^ 8) (8 * x)).
Proof using.
  intros Hx. apply Z.bits_inj'. intros i Hi.
  rewrite Z.lxor_spec, testbit_shiftl, !testbit_mod_pow2 by lia.
  destruct (Z.lt_ge_cases i (8 * x)).
  - rewrite (Z.testbit_neg_r _ (i - 8 * x)) by lia. rewrite andb_false_r, xorb_false_r.
    rewrite !(proj2 (Z.ltb_lt _ _)) by lia. done.
  - rewrite testbit_shiftr by lia. replace (i - 8 * x + 8 * x) with i by lia.
    rewrite (proj2 (Z.ltb_ge i (8 * x))) by lia. cbn [andb xorb]. rewrite ?xorb_false_l. f_equal.
    destruct (Z.ltb_spec i (8 * (x + 1))), (Z.ltb_spec (i - 8 * x) 8); lia.
Qed.

(** *** Extension by bytes *)

(** The reference: a byte is added to the low end of the register, which then moves by eight bits. *)
Definition crc_bytes (l : Z) (p : list Z) : Z := foldl (fun l b => zpow 8 (Z.lxor l b)) l p.

Definition word_table (t : Table) : Prop :=
  forall b i, 0 <= b < 4 -> 0 <= i < 256 -> get t b i = Some (zpow (104 + 8 * b) i).

Lemma crc_bytes_app l p q : crc_bytes l (p ++ q) = crc_bytes (crc_bytes l p) q.
Proof using. apply foldl_app. Qed.

(** Bytes are added as one little-endian number. *)
Lemma crc_bytes_word l p : Forall byte_ok p -> crc_bytes l p = zpow (8 * Z.of_nat (length p)) (Z.lxor l (le_combine p)).
Proof using.
  revert l. induction p as [|b p IH]; intros l Hp.
  - simpl. by rewrite Z.lxor_0_r.
  - apply Forall_cons_iff in Hp as [Hb Hp]. simpl. fold (crc_bytes (zpow 8 (Z.lxor l b)) p). rewrite IH by done.
    rewrite lxor_shiftl by done.
    rewrite <- (zpow_shiftl 8 (le_combine p)) at 1 by lia. rewrite <- zpow_lxor, zpow_zpow by lia.
    f_equal; [lia|]. xor_ac.
Qed.

(** A register of 32 bits is the sum of its bytes. *)
Lemma zpow_bytes n r : 0 <= n -> 0 <= r < 2 ^ 32 ->
  zpow (n + 24) r = Z.lxor (Z.lxor (Z.lxor (zpow (n + 24) (Z.land r 0xff)) (zpow (n + 16) (Z.land (ushr r 8) 0xff)))
    (zpow (n + 8) (Z.land (ushr r 16) 0xff))) (zpow n (ushr r 24)).
Proof using.
  intros Hn Hr. change 0xff with (Z.ones 8). rewrite !Z.land_ones by lia.
  assert (forall m, 0 <= m -> forall x, zpow (m + 8) x = Z.lxor (zpow (m + 8) (x mod 2 ^ 8)) (zpow m (ushr x 8))) as Hs.
  { intros m Hm x. rewrite <- !(zpow_zpow m 8) by lia. rewrite (zpow_split 8 x) by lia. by rewrite zpow_lxor. }
  replace (n + 24) with (n + 16 + 8) at 1 by lia. rewrite (Hs (n + 16) ltac:(lia) r).
  replace (n + 16) with (n + 8 + 8) at 2 by lia.
  rewrite (Hs (n + 8) ltac:(lia) (ushr r 8)).
  rewrite (Hs n ltac:(lia) (ushr (ushr r 8) 8)).
  unfold ushr. rewrite !Z.shiftr_shiftr by lia. change (8 + 8) with 16. change (16 + 8) with 24.
  replace (n + 16 + 8) with (n + 24) by lia. replace (n + 8 + 8) with (n + 16) by lia. xor_ac.
Qed.


Hypothesis Hpoly : 0 <= poly < 2 ^ 32.

Lemma advance_range a : 0 <= a < 2 ^ 32 -> 0 <= advance_bit poly a < 2 ^ 32.
Proof using Hpoly.
  intros Ha. unfold advance_bit. pose proof (ushr_range 32 a 1 ltac:(lia) Ha).
  destruct (Z.testbit a 0); [|done]. apply lxor_range; done.
Qed.

Lemma zpow_range n a : 0 <= a < 2 ^ 32 -> 0 <= zpow n a < 2 ^ 32.
Proof using Hpoly.
  intros Ha. unfold zpow. induction (Z.to_nat n) as [|k IH]; simpl; [done|]. by apply advance_range.
Qed.

Lemma PolyMultiply_zpow m n : 0 <= m -> 0 <= n -> PolyMultiply (zpow m one) (zpow n one) poly = Some (zpow (m + n) one).
Proof using Hpoly.
  intros. rewrite PolyMultiply_spec, mul_zpow, zpow_zpow by (try apply zpow_range; done || lia). f_equal. f_equal. lia.
Qed.

(** *** The tables *)

#[local] Opaque while_ PolyMultiply set get zpow mul_bits.

Definition zero_entries (n : Z) (t : list Z) : Prop :=
  forall d a, 0 <= d < n -> 1 <= a < 16 -> t !! Z.to_nat (15 * d + a - 1) = Some (zpow (8 * a * 16 ^ d) one).
Definition zero_table (t : list Z) : Prop := zero_entries 16 t.

(** The entries of one digit, for an [inc] of [u] zero bits. *)
Lemma fill_digit_spec u j row rest : 0 <= u -> 0 <= j -> j + 15 <= Z.of_nat (length row) ->
  exists row', fill_digit poly (zpow u one) j (row :: rest) = Some (zpow (16 * u) one, j + 15, row' :: rest) /\
    length row' = length row /\
    forall i, 0 <= i -> row' !! Z.to_nat i =
      if (j <=? i) && (i <? j + 15) then Some (zpow (u * (i - j + 1)) one) else row !! Z.to_nat i.
Proof using Hpoly.
  intros Hu Hj Hl. unfold fill_digit.
  pose (I := fun (k : nat) (s : Z * Z * Z * Table) => exists row',
    s = (1 + Z.of_nat k, zpow (u * (1 + Z.of_nat k)) one, j + Z.of_nat k, row' :: rest) /\ length row' = length row /\
    forall i, 0 <= i -> row' !! Z.to_nat i =
      if (j <=? i) && (i <? j + Z.of_nat k) then Some (zpow (u * (i - j + 1)) one) else row !! Z.to_nat i).
  run_loop I 15%nat.
  - exists row. split_and!; [repeat f_equal; lia|done|].
    intros i Hi. destruct ((j <=? i) && (i <? j + Z.of_nat 0)) eqn:E; [lia|done].
  - intros k s Hk (row' & -> & Hlen & Hr). split; [change ZEROES_BASE with 16; lia|].
    rewrite set_row by lia. run. rewrite PolyMultiply_zpow by lia. run.
    eexists. split; [done|]. eexists. split.
    { pairs. f_equal; lia. }
    split; [by rewrite length_insert|]. intros i Hi. destruct (decide (i = j + Z.of_nat k)) as [->|Hne].
    + rewrite list_lookup_insert_eq by lia. ifs. do 2 f_equal. lia.
    + rewrite list_lookup_insert_ne by lia. rewrite Hr by done. ifs.
  - intros s (row' & -> & _). reflexivity.
  - destruct Hs as (row' & -> & Hlen & Hr). run. exists row'. split_and!; [|done|].
    + pairs. f_equal; lia.
    + intros i Hi. rewrite Hr by done. done.
Qed.

Lemma FillZeroesTable_spec row rest : length row = 256%nat ->
  exists row', FillZeroesTable poly (row :: rest) = Some (240, row' :: rest) /\ length row' = 256%nat /\ zero_table row'.
Proof using Hpoly.
  intros Hlen. unfold FillZeroesTable.
  replace (ushr (ushl 32 1 31) 1) with (zpow 1 one) by reflexivity.
  rewrite (while_steps (fun k : nat => (Z.of_nat k, zpow (2 ^ Z.of_nat k) one)) 3).
  2: lia.
  2: { intros k Hk. split; [lia|]. rewrite PolyMultiply_zpow by lia. run. do 2 f_equal; [lia|].
       f_equal. rewrite Nat2Z.inj_succ, Z.pow_succ_r by lia. lia. }
  2: done.
  run.
  pose (I := fun (k : nat) (s : Z * Z * Z * Table) => exists row',
    s = (wrap 64 (16 ^ Z.of_nat k), zpow (8 * 16 ^ Z.of_nat k) one, 15 * Z.of_nat k, row' :: rest) /\ length row' = 256%nat /\
    zero_entries (Z.of_nat k) row').
  run_loop I 16%nat.
  - exists row. split_and!; [done|done|]. intros d a Hd. lia.
  - intros k s Hk (row' & -> & Hl & Hr). split.
    { assert (H := zrange_forall (fun i => negb (wrap 64 (16 ^ i) =? 0)) 16 eq_refl (Z.of_nat k)). apply H. lia. }
    destruct (fill_digit_spec (8 * 16 ^ Z.of_nat k) (15 * Z.of_nat k) row' rest) as (row2 & -> & Hl2 & Hr2); [lia..|].
    run. eexists. split; [done|]. exists row2. split_and!.
    + change ZEROES_BASE_LG with 4. rewrite Nat2Z.inj_succ, Z.pow_succ_r by lia. rewrite ushl_val by lia.
      rewrite wrap_mul_l by lia. change (2 ^ 4) with 16.
      pairs; f_equal; lia.
    + lia.
    + intros d a Hd Ha. rewrite Hr2 by lia. destruct (_ && _) eqn:E.
      * assert (d = Z.of_nat k) as -> by lia. do 2 f_equal. lia.
      * apply Hr; [|done]. split; [lia|]. apply Z.le_neq. split; [lia|]. intros ->. lia.
  - intros s (row' & -> & _). reflexivity.
  - destruct Hs as (row' & -> & Hlen' & Hr). run. exists row'. by split_and!.
Qed.

(** *** Extension by zeroes *)

Lemma multiply_byte_spec poly_table n l x : byte_table poly_table -> 0 <= n -> 0 <= l < 2 ^ 32 -> 0 <= x < 4 ->
  multiply_byte poly_table (ushl 64 (zpow n one) 1) (8 * x, Z.shiftr l (8 * x), zpow n (Z.shiftl (l mod 2 ^ (8 * x)) (32 - 8 * x))) =
    Some (8 * (x + 1), Z.shiftr l (8 * (x + 1)), zpow n (Z.shiftl (l mod 2 ^ (8 * (x + 1))) (32 - 8 * (x + 1)))).
Proof using Hpoly.
  intros Ht Hn Hl Hx. unfold multiply_byte.
  pose proof (zpow_range n one ltac:(unfold one; lia)) as Hm.
  assert (ushl 64 (zpow n one) 1 = Z.shiftl (zpow n one) 1) as ->.
  { apply wrap_small. pose proof (shiftl_lt (zpow n one) 1 32 33). lia. }
  pose proof (shiftl_lt (zpow n one) 1 32 33 ltac:(lia) ltac:(lia) eq_refl Hm) as Hm1.
  set (m := Z.shiftl (zpow n one) 1) in *. set (s := Z.shiftr l (8 * x)).
  destruct (mtab_lookup m s 0) as (t0 & E0 & B0 & S0); [lia|done|].
  destruct (mtab_lookup m s 2) as (t1 & E1 & B1 & S1); [lia|done|].
  destruct (mtab_lookup m s 4) as (t2 & E2 & B2 & S2); [lia|done|].
  destruct (mtab_lookup m s 6) as (t3 & E3 & B3 & S3); [lia|done|].
  change (ushr s 0) with s in E0. rewrite E0; run. rewrite E1; run. rewrite E2; run. rewrite E3; run.
  assert (forall t j, 0 <= t < 2 ^ 34 -> 0 <= j <= 6 -> ushl 64 t j = Z.shiftl t j) as Hs.
  { intros t j Ht' Hj. apply wrap_small. rewrite Z.shiftl_mul_pow2 by lia. pose proof (Z.pow_le_mono_r 2 j 6). nia. }
  rewrite !Hs by lia. rewrite Z.shiftl_0_r in S0. rewrite S0, S1, S2, S3.
  change (Z.lxor (Z.lxor (Z.lxor (Z.lxor (bit_of m s (0 + 1)) (bit_of m s 0)) (Z.lxor (bit_of m s (2 + 1)) (bit_of m s 2)))
    (Z.lxor (bit_of m s (4 + 1)) (bit_of m s 4))) (Z.lxor (bit_of m s (6 + 1)) (bit_of m s 6))) with (clmul8 m s).
  set (r := zpow n (Z.shiftl (l mod 2 ^ (8 * x)) (32 - 8 * x))).
  assert (0 <= l mod 2 ^ (8 * x) < 2 ^ (8 * x)) as Hlo by (apply Z.mod_pos_bound; lia).
  assert (0 <= Z.shiftl (l mod 2 ^ (8 * x)) (32 - 8 * x) < 2 ^ 32) as Hlow.
  { apply (shiftl_lt _ (32 - 8 * x) (8 * x)); lia. }
  destruct (byte_step poly_table (Z.lxor r (clmul8 m s))) as (e & He & Hz); [done| |].
  { apply Z.lxor_nonneg. split; intros _; [apply clmul8_nonneg|apply zpow_range]; done || lia. }
  rewrite He. run. rewrite Hz. pairs.
  - unfold s, ushr. rewrite Z.shiftr_shiftr by lia. f_equal. lia.
  - rewrite zpow_lxor, clmul8_low. unfold m. rewrite zpow_clmul8 by (try apply Z.mod_pos_bound; lia).
    unfold r. rewrite zpow_zpow, Z.add_comm, <- zpow_zpow by lia.
    replace (Z.shiftl (l mod 2 ^ (8 * x)) (32 - 8 * x)) with (Z.shiftl (Z.shiftl (l mod 2 ^ (8 * x)) (24 - 8 * x)) 8)
      by (rewrite Z.shiftl_shiftl by lia; f_equal; lia).
    rewrite zpow_shiftl, <- zpow_lxor by lia. f_equal. rewrite (low_bytes l x) by lia.
    rewrite Z.shiftl_lxor, Z.shiftl_shiftl by lia. f_equal; f_equal; lia.
Qed.


Lemma multiply_loop poly_table n l : byte_table poly_table -> 0 <= n -> 0 <= l < 2 ^ 32 ->
  while_ 5 (fun '(x, _, _) => x <? 32) (multiply_byte poly_table (ushl 64 (zpow n one) 1)) (0, l, 0) = Some (32, 0, zpow n l).
Proof using Hpoly.
  intros Ht Hn Hl.
  pose (st := fun x : nat => (8 * Z.of_nat x, Z.shiftr l (8 * Z.of_nat x), zpow n (Z.shiftl (l mod 2 ^ (8 * Z.of_nat x)) (32 - 8 * Z.of_nat x)))).
  replace (0, l, 0) with (st O) by (unfold st; change (8 * Z.of_nat 0) with 0; rewrite Z.mod_1_r, Z.shiftl_0_l, zpow_0; done).
  rewrite (while_steps st 4); [|lia| |done].
  - unfold st. change (8 * Z.of_nat 4) with 32. rewrite Z.mod_small, Z.shiftr_div_pow2, Z.div_small by lia. done.
  - intros k Hk. split; [unfold st; lia|]. unfold st. rewrite multiply_byte_spec by (done || lia). pairs; do 2 f_equal; lia.
Qed.

(** The digits of [length] in base 16, one entry of the table each. *)
Lemma ExtendByZeroesImpl_spec zeroes poly_table crc n :
  byte_table poly_table -> zero_table zeroes -> 0 <= crc < 2 ^ 32 -> 0 <= n < 2 ^ 64 ->
  ExtendByZeroesImpl crc n zeroes poly_table = Some (zpow (8 * n) crc).
Proof using Hpoly.
  intros Ht Hz Hc Hn. unfold ExtendByZeroesImpl. destruct (Z.eqb_spec n 0) as [->|Hn0]; [done|]. cbn [negb].
  match goal with |- context [while_ 17 ?cond ?body _] =>
    destruct (while_rule (fun '(l, i, len) => exists k, 0 <= k <= 16 /\ l = zpow (8 * (n mod 16 ^ k)) crc /\ i = 15 * k /\ len = n / 16 ^ k)
      (fun '(_, i, _) => Z.to_nat (16 - i / 15)) cond body 17 (crc, 0, n)) as (((l & i) & len) & -> & (k & Hk & -> & -> & ->) & Hend) end.
  - exists 0. rewrite Z.pow_0_r, Z.mod_1_r, Z.div_1_r. split_and!; done.
  - vm_compute. lia.
  - intros ((l & i) & len) (k & Hk & -> & -> & ->) Hcond.
    assert (0 < 16 ^ k) as Hp by lia.
    assert (k < 16) as Hk16.
    { destruct (Z.lt_ge_cases k 16); [done|]. replace k with 16 in Hcond by lia.
      rewrite Z.div_small in Hcond by lia. done. }
    change (ZEROES_BASE - 1) with (Z.ones 4). rewrite Z.land_ones by lia. change (2 ^ 4) with 16.
    set (d := (n / 16 ^ k) mod 16). assert (0 <= d < 16) as Hd by (apply Z.mod_pos_bound; lia).
    assert (n mod 16 ^ (k + 1) = n mod 16 ^ k + 16 ^ k * d) as Hmod.
    { rewrite Z.pow_add_r, Z.rem_mul_r by lia. reflexivity. }
    pose proof (Z.mod_pos_bound n (16 ^ k) Hp) as Hlow.
    exists (zpow (8 * (n mod 16 ^ (k + 1))) crc, 15 * (k + 1), n / 16 ^ (k + 1)). split_and!.
    + destruct (Z.eqb_spec d 0) as [Hd0|Hd0]; cbn [negb].
      * run. rewrite Hmod, Hd0. unfold ushr, ZEROES_BASE_LG. rewrite Z.shiftr_div_pow2, Z.div_div, Z.pow_add_r by lia.
        pairs; [f_equal; lia|change (Z.ones 4) with 15; lia].
      * replace (d + 15 * k - 1) with (15 * k + d - 1) by lia. rewrite Hz by lia. run.
        rewrite multiply_loop by (try apply zpow_range; lia || done). run. rewrite zpow_zpow by lia.
        rewrite wrap_small by (by apply zpow_range). run.
        rewrite Hmod. unfold ushr, ZEROES_BASE_LG. rewrite Z.shiftr_div_pow2, Z.div_div, Z.pow_add_r by lia.
        pairs; [f_equal; lia|change (Z.ones 4) with 15; lia].
    + exists (k + 1). split_and!; try reflexivity; lia.
    + rewrite !(Z.mul_comm 15), !Z.div_mul by lia. lia.
  - run. do 2 f_equal. apply negb_false_iff, Z.eqb_eq, Z.div_small_iff in Hend; [|lia]. rewrite Z.mod_small by lia. done.
Qed.

(** *** The loops of [Extend] *)

Lemma crc_bytes_range l p : 0 <= l < 2 ^ 32 -> Forall byte_ok p -> 0 <= crc_bytes l p < 2 ^ 32.
Proof using Hpoly.
  revert l. induction p as [|b p IH]; intros l Hl Hp; [done|].
  apply Forall_cons_iff in Hp as [Hb Hp]. simpl. apply IH; [|done]. apply zpow_range, lxor_range; [lia..|].
  unfold byte_ok in Hb. lia.
Qed.

Section Extend.
Variable little kNeedAlignedLoads : bool.
Variable kPrefetchHorizon : Z.
Variable c : CRC32.
Hypothesis Hhorizon : 64 <= kPrefetchHorizon.
Hypothesis Htable0 : byte_table (table0_ c).
Hypothesis Htable : word_table (table_ c).

Lemma step_one_byte_spec b p l : byte_ok b -> 0 <= l -> step_one_byte c (b :: p, l) = Some (p, zpow 8 (Z.lxor l b)).
Proof using Htable0 Hpoly.
  intros Hb Hl. unfold step_one_byte.
  assert (Z.lxor (Z.land l 255) b = Z.lxor l b mod 2 ^ 8) as ->.
  { change 255 with (Z.ones 8). rewrite Z.land_ones by lia. apply Z.bits_inj'. intros i Hi.
    rewrite Z.lxor_spec, !testbit_mod_pow2, Z.lxor_spec by lia. destruct (Z.ltb_spec i 8); [done|].
    rewrite (testbit_bounded b 8); [done|exact Hb|lia]. }
  rewrite Htable0 by (apply Z.mod_pos_bound; lia). run. pairs. rewrite (zpow_split 8 (Z.lxor l b)) by lia.
  f_equal. unfold ushr. rewrite Z.shiftr_lxor. rewrite (Z.shiftr_div_pow2 b), (Z.div_small b) by (exact Hb || lia).
  by rewrite Z.lxor_0_r.
Qed.

(** The loop over single bytes, until [left] of them are left. *)
Lemma bytes_loop p l left : Forall byte_ok p -> 0 <= l < 2 ^ 32 -> (left <= length p)%nat ->
  while_ (length p) (fun '(p, _) => negb (length p =? left)%nat) (step_one_byte c) (p, l) =
    Some (drop (length p - left) p, crc_bytes l (take (length p - left) p)).
Proof using Htable0 Hpoly.
  intros Hp Hl Hle.
  change (p, l) with ((fun k => (drop k p, crc_bytes l (take k p))) O).
  rewrite (while_steps (fun k => (drop k p, crc_bytes l (take k p))) (length p - left)); [done|lia| |].
  - intros k Hk. rewrite length_drop. split; [lia|].
    destruct (lookup_lt_is_Some_2 p k) as [b Hb]; [lia|].
    rewrite (drop_S p b k) by done. rewrite step_one_byte_spec.
    + rewrite (take_S_r p k b) by done. by rewrite crc_bytes_app.
    + by eapply Forall_lookup_1.
    + apply crc_bytes_range; [done|]. by apply Forall_take.
  - rewrite length_drop. lia.
Qed.

Lemma step_swath_spec r p n : Forall byte_ok p -> (n + 4 <= length p)%nat -> 0 <= r < 2 ^ 32 ->
  step_swath little c r p n = Some (Z.lxor (zpow 128 r) (le_combine (take 4 (drop n p)))) /\
  0 <= Z.lxor (zpow 128 r) (le_combine (take 4 (drop n p))) < 2 ^ 32.
Proof using Htable Hpoly.
  intros Hp Hn Hr. destruct (load32_spec little p n Hp Hn) as [E Hw]. unfold step_swath. rewrite E. run.
  assert (0 <= ushr r 24 < 256) as Ht.
  { unfold ushr. rewrite Z.shiftr_div_pow2 by lia. change (2 ^ 24) with 16777216. zlia. }
  assert (forall x, 0 <= Z.land x 255 < 256) as Hb by (intros x; change 255 with (Z.ones 8); rewrite Z.land_ones by lia; apply Z.mod_pos_bound; lia).
  do 4 rewrite Htable by (lia || auto). do 4 run. split.
  - f_equal. change 128 with (104 + 24). rewrite (zpow_bytes 104 r) by lia. change (104 + 8 * 3) with (104 + 24).
    change (104 + 8 * 2) with (104 + 16). change (104 + 8 * 1) with (104 + 8). change (104 + 8 * 0) with 104. xor_ac.
  - apply lxor_range; [lia|by apply zpow_range|done].
Qed.

(** The register that the four buffers stand for. *)
Definition combined (s : swath) : Z :=
  Z.lxor (Z.lxor (Z.lxor (zpow 128 (buf0 s)) (zpow 96 (buf1 s))) (zpow 64 (buf2 s))) (zpow 32 (buf3 s)).
Definition swath_ok (s : swath) : Prop :=
  Forall byte_ok (at_ s) /\ 0 <= buf0 s < 2 ^ 32 /\ 0 <= buf1 s < 2 ^ 32 /\ 0 <= buf2 s < 2 ^ 32 /\ 0 <= buf3 s < 2 ^ 32.
Definition word_at (p : list Z) (n : nat) : Z := le_combine (take 4 (drop n p)).

(** One word goes into the first buffer, and the buffers turn. *)
Definition turn (s : swath) : swath :=
  Swath (drop 4 (at_ s)) (buf1 s) (buf2 s) (buf3 s) (Z.lxor (zpow 128 (buf0 s)) (word_at (at_ s) 0)).

Lemma crc_word l p : Forall byte_ok p -> (4 <= length p)%nat -> crc_bytes l p = crc_bytes (zpow 32 (Z.lxor l (word_at p 0))) (drop 4 p).
Proof using Hpoly.
  intros Hp Hlen. rewrite <- (take_drop 4 p) at 1. rewrite crc_bytes_app. f_equal.
  rewrite crc_bytes_word by (by apply Forall_take). f_equal. rewrite length_take. lia.
Qed.

Lemma word_at_range p n : Forall byte_ok p -> (n + 4 <= length p)%nat -> 0 <= word_at p n < 2 ^ 32.
Proof using. intros Hp Hn. exact (proj2 (load32_spec true p n Hp Hn)). Qed.

Lemma turn_spec s : swath_ok s -> (4 <= length (at_ s))%nat ->
  swath_ok (turn s) /\ crc_bytes (combined (turn s)) (at_ (turn s)) = crc_bytes (combined s) (at_ s) /\
  length (at_ (turn s)) = (length (at_ s) - 4)%nat.
Proof using Hpoly.
  intros (Hp & H0 & H1 & H2 & H3) Hlen.
  assert (0 <= Z.lxor (zpow 128 (buf0 s)) (word_at (at_ s) 0) < 2 ^ 32) as Hn.
  { apply lxor_range; [lia|by apply zpow_range|apply word_at_range; [done|lia]]. }
  split; [|split].
  - unfold swath_ok. cbn [turn at_ buf0 buf1 buf2 buf3]. auto using Forall_drop.
  - symmetry. etransitivity; [exact (crc_word (combined s) (at_ s) Hp Hlen)|]. symmetry.
    apply (f_equal (fun l => crc_bytes l (drop 4 (at_ s)))). unfold combined. cbn [turn at_ buf0 buf1 buf2 buf3].
    rewrite !zpow_lxor, !zpow_zpow by lia. change (32 + 96) with 128. change (32 + 64) with 96. change (32 + 32) with 64.
    generalize (zpow (32 + 128) (buf0 s)). intros. xor_ac.
  - apply length_drop.
Qed.

(** One turn of the last loop, one stride, four strides. *)
Definition turns (n : nat) (s : swath) : swath := Nat.iter n turn s.

Lemma turns_spec n s : swath_ok s -> (4 * n <= length (at_ s))%nat ->
  swath_ok (turns n s) /\ crc_bytes (combined (turns n s)) (at_ (turns n s)) = crc_bytes (combined s) (at_ s) /\
  length (at_ (turns n s)) = (length (at_ s) - 4 * n)%nat.
Proof using Hpoly.
  intros Hs. induction n as [|n IH]; intros Hn; [split_and!; [done..|simpl; lia]|].
  destruct IH as (Hok & Hc & Hl); [lia|]. destruct (turn_spec (turns n s) Hok) as (Hok' & Hc' & Hl'); [lia|].
  change (turns (S n) s) with (turn (turns n s)). split_and!; [done| |lia]. by rewrite Hc'.
Qed.

Lemma turns_add m n s : turns m (turns n s) = turns (m + n) s.
Proof using. unfold turns. by rewrite Nat.iter_add. Qed.

Lemma step_word s : swath_ok s -> (4 <= length (at_ s))%nat ->
  (tmp ← step_swath little c (buf0 s) (at_ s) 0;
   Some (Swath (drop 4 (at_ s)) (buf1 s) (buf2 s) (buf3 s) tmp)) = Some (turns 1 s).
Proof using Htable Hpoly.
  intros (Hp & H0 & _) Hlen. destruct (step_swath_spec (buf0 s) (at_ s) 0 Hp) as [-> _]; [lia|done|]. by run.
Qed.

Lemma step_stride_spec s : swath_ok s -> (16 <= length (at_ s))%nat -> step_stride little c s = Some (turns 4 s).
Proof using Htable Hpoly.
  intros (Hp & H0 & H1 & H2 & H3) Hlen. unfold step_stride.
  destruct (step_swath_spec (buf0 s) (at_ s) 0 Hp) as [-> _]; [lia|done|]. run.
  destruct (step_swath_spec (buf1 s) (at_ s) 4 Hp) as [-> _]; [lia|done|]. run.
  destruct (step_swath_spec (buf2 s) (at_ s) 8 Hp) as [-> _]; [lia|done|]. run.
  destruct (step_swath_spec (buf3 s) (at_ s) 12 Hp) as [-> _]; [lia|done|]. run.
  apply f_equal. change (turns 4 s) with (turn (turn (turn (turn s)))). unfold word_at, turn.
  cbn [at_ buf0 buf1 buf2 buf3]. rewrite !drop_drop. reflexivity.
Qed.

(** A loop whose body makes [n] turns keeps the register that the buffers stand for. *)
Lemma turning_loop n cond body s :
  swath_ok s ->
  (forall s, cond s = true -> (4 * n <= length (at_ s))%nat) -> (0 < n)%nat ->
  (forall s, swath_ok s -> (4 * n <= length (at_ s))%nat -> body s = Some (turns n s)) ->
  exists s', while_ (length (at_ s)) cond body s = Some s' /\ swath_ok s' /\
    crc_bytes (combined s') (at_ s') = crc_bytes (combined s) (at_ s) /\ cond s' = false.
Proof using Hpoly.
  intros Hs Hcond Hn Hbody.
  destruct (while_rule (fun s' => swath_ok s' /\ crc_bytes (combined s') (at_ s') = crc_bytes (combined s) (at_ s))
    (fun s => length (at_ s)) cond body (length (at_ s)) s) as (s' & -> & (Hok & Hc) & Hend).
  - done.
  - lia.
  - intros s1 [Hok Hc] E. apply Hcond in E. destruct (turns_spec n s1 Hok E) as (Hok' & Hc' & Hl').
    exists (turns n s1). rewrite Hbody by done. split; [done|]. split; [|lia]. split; [done|]. by rewrite Hc'.
  - by exists s'.
Qed.

Lemma four_strides s : swath_ok s -> (64 <= length (at_ s))%nat ->
  (s ← step_stride little c s; s ← step_stride little c s; s ← step_stride little c s; step_stride little c s) = Some (turns 16 s).
Proof using Htable Hpoly.
  intros Hok Hlen.
  destruct (turns_spec 4 s Hok) as (Hok1 & _ & Hl1); [lia|].
  destruct (turns_spec 4 (turns 4 s) Hok1) as (Hok2 & _ & Hl2); [lia|].
  destruct (turns_spec 4 (turns 4 (turns 4 s)) Hok2) as (Hok3 & _ & Hl3); [lia|].
  rewrite step_stride_spec by (done || lia). run. rewrite step_stride_spec by (done || lia). run.
  rewrite step_stride_spec by (done || lia). run. rewrite step_stride_spec, !turns_add by (done || lia). reflexivity.
Qed.

Lemma combine_one_word_spec crc_in w : 0 <= Z.lxor w crc_in < 2 ^ 32 -> combine_one_word c crc_in w = Some (zpow 32 (Z.lxor w crc_in)).
Proof using Htable0 Hpoly.
  intros Hw. unfold combine_one_word.
  pose (I := fun (k : nat) (s : Z * Z) => s = (Z.of_nat k, zpow (8 * Z.of_nat k) (Z.lxor w crc_in))).
  run_loop I 4%nat.
  - done.
  - intros k s Hk H. unfold I in H. subst s. split; [lia|]. cbn beta iota.
    destruct (byte_step (table0_ c) (zpow (8 * Z.of_nat k) (Z.lxor w crc_in)) Htable0) as (e & -> & E); [by apply zpow_range|].
    run. eexists. split; [done|]. unfold I. rewrite E, zpow_zpow by lia. pairs. f_equal. lia.
  - by intros s ->.
  - rewrite Hs. by run.
Qed.

(** The four words loaded first are the buffers. *)
Lemma load_swath p l : Forall byte_ok p -> 0 <= l < 2 ^ 32 -> (16 <= length p)%nat ->
  let s := Swath (drop 16 p) (Z.lxor (word_at p 0) l) (word_at p 4) (word_at p 8) (word_at p 12) in
  swath_ok s /\ crc_bytes (combined s) (at_ s) = crc_bytes l p.
Proof using Hpoly.
  intros Hp Hl Hlen s. split.
  - unfold swath_ok. cbn [s at_ buf0 buf1 buf2 buf3].
    pose proof (word_at_range p 0 Hp ltac:(lia)). pose proof (word_at_range p 4 Hp ltac:(lia)).
    pose proof (word_at_range p 8 Hp ltac:(lia)). pose proof (word_at_range p 12 Hp ltac:(lia)).
    split; [by apply Forall_drop|]. split; [apply lxor_range; [lia|done|done]|auto].
  - pose proof (crc_word l p Hp ltac:(lia)) as E1.
    rewrite (crc_word _ (drop 4 p)) in E1 by (rewrite ?length_drop; auto using Forall_drop || lia).
    rewrite drop_drop in E1.
    rewrite (crc_word _ (drop (4 + 4) p)) in E1 by (rewrite ?length_drop; auto using Forall_drop || lia).
    rewrite drop_drop in E1.
    rewrite (crc_word _ (drop (4 + 4 + 4) p)) in E1 by (rewrite ?length_drop; auto using Forall_drop || lia).
    rewrite drop_drop in E1. rewrite E1. unfold s. cbn [at_]. change (4 + 4 + 4 + 4)%nat with 16%nat.
    apply (f_equal (fun l => crc_bytes l (drop 16 p))). unfold combined. cbn [buf0 buf1 buf2 buf3]. unfold word_at. rewrite !drop_drop.
    change (4 + 0)%nat with 4%nat. change (4 + 4 + 0)%nat with 8%nat. change (4 + 4 + 4 + 0)%nat with 12%nat.
    rewrite !zpow_lxor, !zpow_zpow by lia. change (32 + 32 + 32 + 32) with 128. change (32 + 32 + 32) with 96. change (32 + 32) with 64.
    xor_ac.
Qed.

(** The four buffers are combined in order. *)
Lemma combine_words s : swath_ok s ->
  (l ← combine_one_word c 0 (buf0 s); l ← combine_one_word c l (buf1 s);
   l ← combine_one_word c l (buf2 s); l ← combine_one_word c l (buf3 s); Some (at_ s, l)) = Some (at_ s, combined s) /\
  0 <= combined s < 2 ^ 32.
Proof using Htable0 Hpoly.
  intros (Hp & H0 & H1 & H2 & H3).
  assert (forall a b, 0 <= a < 2 ^ 32 -> 0 <= b < 2 ^ 32 -> 0 <= Z.lxor a b < 2 ^ 32) as Hx by (intros; apply lxor_range; [lia|done|done]).
  assert (forall n a, 0 <= a < 2 ^ 32 -> 0 <= zpow n a < 2 ^ 32) as Hz by (intros; by apply zpow_range).
  assert (0 <= 0 < 2 ^ 32) as Hzero by lia. split.
  - do 4 (rewrite combine_one_word_spec by (repeat first [done | apply Hx | apply Hz]); run). pairs.
    unfold combined. rewrite Z.lxor_0_r, !zpow_lxor, !zpow_zpow by lia.
    change (32 + 32 + 32 + 32) with 128. change (32 + 32 + 32) with 96. change (32 + 32) with 64. xor_ac.
  - unfold combined. repeat first [done | apply Hx | apply Hz].
Qed.

Lemma swaths_spec p l : Forall byte_ok p -> 0 <= l < 2 ^ 32 -> (16 <= length p)%nat ->
  exists q l', swaths little kPrefetchHorizon c p l = Some (q, l') /\ Forall byte_ok q /\ 0 <= l' < 2 ^ 32 /\
    crc_bytes l' q = crc_bytes l p.
Proof using Htable0 Htable Hpoly Hhorizon.
  intros Hp Hl Hlen. unfold swaths.
  destruct (load32_spec little p 0 Hp) as [-> _]; [lia|]. run. destruct (load32_spec little p 4 Hp) as [-> _]; [lia|]. run.
  destruct (load32_spec little p 8 Hp) as [-> _]; [lia|]. run. destruct (load32_spec little p 12 Hp) as [-> _]; [lia|]. run.
  destruct (load_swath p l Hp Hl Hlen) as [Hs0 Hc0]. fold (word_at p 0) (word_at p 4) (word_at p 8) (word_at p 12).
  set (s0 := Swath (drop 16 p) _ _ _ _) in *.
  destruct (turning_loop 16 (fun s => kPrefetchHorizon <? Z.of_nat (length (at_ s)))
    (fun s => s ← step_stride little c s; s ← step_stride little c s; s ← step_stride little c s; step_stride little c s) s0 Hs0)
    as (s1 & E1 & Hs1 & Hc1 & _); [intros s ?; lia|lia|intros s ? ?; apply four_strides; [done|lia]|].
  destruct (turning_loop 4 (fun s => (16 <=? length (at_ s))%nat) (step_stride little c) s1 Hs1)
    as (s2 & E2 & Hs2 & Hc2 & _); [intros s ?; lia|lia|intros s ? ?; apply step_stride_spec; [done|lia]|].
  destruct (turning_loop 1 (fun s => (4 <=? length (at_ s))%nat)
    (fun s => tmp ← step_swath little c (buf0 s) (at_ s) 0; Some (Swath (drop 4 (at_ s)) (buf1 s) (buf2 s) (buf3 s) tmp)) s2 Hs2)
    as (s3 & E3 & Hs3 & Hc3 & _); [intros s ?; lia|lia|intros s ? ?; apply step_word; [done|lia]|].
  unfold long_strides, strides, words. rewrite E1. run. rewrite E2. run. rewrite E3. run.
  destruct (combine_words s3 Hs3) as [-> Hl']. exists (at_ s3), (combined s3).
  split; [done|]. split; [apply Hs3|]. split; [done|]. by rewrite Hc3, Hc2, Hc1.
Qed.

Lemma align_prefix_spec address p l : Forall byte_ok p -> 0 <= l < 2 ^ 32 -> 0 <= address -> address + 3 < 2 ^ 64 ->
  exists q l', align_prefix kNeedAlignedLoads c address p l = Some (q, l') /\ Forall byte_ok q /\ 0 <= l' < 2 ^ 32 /\
    crc_bytes l' q = crc_bytes l p.
Proof using Htable0 Hpoly.
  intros Hp Hl Ha Hb. unfold align_prefix. pose proof (RoundUp4_spec address Ha Hb) as Hx.
  destruct kNeedAlignedLoads; [|by exists p, l]. destruct (Z.ltb_spec (RoundUp4 address - address) 0); [lia|].
  destruct (Z.leb_spec (RoundUp4 address - address) (Z.of_nat (length p))); [|by exists p, l].
  rewrite bytes_loop by (done || lia). eexists _, _. split; [done|]. split; [by apply Forall_drop|].
  split; [apply crc_bytes_range; [done|by apply Forall_take]|]. by rewrite <- crc_bytes_app, take_drop.
Qed.

(** The word-by-word loop computes the same register as one byte after another. *)
Lemma Extend_spec crc address p : Forall byte_ok p -> 0 <= crc < 2 ^ 32 -> 0 <= address -> address + 3 < 2 ^ 64 ->
  Extend little kNeedAlignedLoads kPrefetchHorizon c crc address p = Some (crc_bytes crc p).
Proof using Htable0 Htable Hpoly Hhorizon.
  intros Hp Hc Ha Hb. unfold Extend. destruct (align_prefix_spec address p crc Hp Hc Ha Hb) as (q & l & -> & Hq & Hl & E). run.
  assert (exists q' l', (if (16 <=? length q)%nat then swaths little kPrefetchHorizon c q l else Some (q, l)) = Some (q', l') /\
    Forall byte_ok q' /\ 0 <= l' < 2 ^ 32 /\ crc_bytes l' q' = crc_bytes l q) as (q' & l' & -> & Hq' & Hl' & E').
  { destruct (Nat.leb_spec 16 (length q)); [by apply swaths_spec|by exists q, l]. }
  run. rewrite bytes_loop by (done || lia). run. rewrite Nat.sub_0_r, take_ge by lia. by rewrite E', E.
Qed.

End Extend.
End Polynomial.

(** *** Reversing the bits *)

Definition stage (m1 m2 s bits : Z) : Z := Z.lor (ushr (Z.land bits m1) s) (ushl 32 (Z.land bits m2) s).

Lemma in_range n i : 0 <= i < Z.of_nat n -> In i (zrange n).
Proof. intros Hi. unfold zrange. rewrite <- list_elem_of_In, list_elem_of_fmap. exists (Z.to_nat i). split; [lia|]. apply elem_of_seq. lia. Qed.

Ltac each_bit i Hi :=
  let H := fresh in pose proof (in_range 32 i Hi) as H; cbv in H;
  repeat (destruct H as [<-|H]; [|]); [..|destruct H].

Lemma stage_bit m1 m2 s b i : In (m1, m2, s) [(0xaaaaaaaa, 0x55555555, 1); (0xcccccccc, 0x33333333, 2); (0xf0f0f0f0, 0x0f0f0f0f, 4)] ->
  0 <= i < 32 -> Z.testbit (stage m1 m2 s b) i = Z.testbit b (Z.lxor i s).
Proof.
  intros Hs Hi. unfold stage, ushr, ushl, wrap.
  assert (0 <= s) by (repeat (destruct Hs as [E|Hs]; [injection E as <- <- <-; lia|]); destruct Hs).
  rewrite Z.lor_spec, testbit_shiftr, testbit_mod_pow2, testbit_shiftl, !Z.land_spec by lia.
  replace (i <? 32) with true by lia. cbn [andb].
  assert (forallb (fun i => (Z.testbit m1 (i + s) && negb (Z.testbit m2 (i - s)) && (Z.lxor i s =? i + s)) ||
    (negb (Z.testbit m1 (i + s)) && Z.testbit m2 (i - s) && (Z.lxor i s =? i - s))) (zrange 32) = true) as Hc.
  { repeat (destruct Hs as [E|Hs]; [injection E as <- <- <-; reflexivity|]). destruct Hs. }
  pose proof (zrange_forall _ 32 Hc i Hi) as Hb. cbv beta in Hb.
  destruct (Z.testbit m1 (i + s)), (Z.testbit m2 (i - s)); cbn [andb orb negb] in Hb; try discriminate.
  - rewrite andb_true_r, andb_false_r, orb_false_r. f_equal. lia.
  - rewrite andb_true_r, andb_false_r, orb_false_l. f_equal. lia.
Qed.

Lemma gbswap_bit b i : 0 <= i < 32 -> Z.testbit (gbswap_32 b) i = Z.testbit b (Z.lxor i 24).
Proof.
  intros Hi. unfold gbswap_32, ushr, ushl, wrap.
  rewrite !Z.lor_spec, !testbit_shiftr, !testbit_mod_pow2, !testbit_shiftl, !Z.land_spec by lia.
  replace (i <? 32) with true by lia. cbn [andb].
  assert (forallb (fun i =>
    let b1 := Z.testbit 255 (i - 24) in let b2 := Z.testbit 65280 (i - 8) in
    let b3 := Z.testbit 16711680 (i + 8) in let b4 := Z.testbit 4278190080 (i + 24) in
    (b1 && negb b2 && negb b3 && negb b4 && (Z.lxor i 24 =? i - 24)) ||
    (negb b1 && b2 && negb b3 && negb b4 && (Z.lxor i 24 =? i - 8)) ||
    (negb b1 && negb b2 && b3 && negb b4 && (Z.lxor i 24 =? i + 8)) ||
    (negb b1 && negb b2 && negb b3 && b4 && (Z.lxor i 24 =? i + 24))) (zrange 32) = true) as Hc by reflexivity.
  pose proof (zrange_forall _ 32 Hc i Hi) as Hb. cbv beta zeta in Hb. clear Hc.
  destruct (Z.testbit 255 _), (Z.testbit 65280 _), (Z.testbit 16711680 _), (Z.testbit 4278190080 _); cbn [andb orb negb] in Hb; try discriminate;
  rewrite ?andb_true_r, ?andb_false_r, ?orb_false_r, ?orb_false_l; f_equal; lia.
Qed.

Lemma xor_index s i : 0 <= s < 32 -> 0 <= i < 32 -> 0 <= Z.lxor i s < 32.
Proof. intros Hs Hi. change 32 with (2 ^ 5) in *. apply lxor_range; lia. Qed.

Lemma ReverseBits_bit b i : 0 <= i < 32 -> Z.testbit (ReverseBits b) i = Z.testbit b (31 - i).
Proof.
  intros Hi. unfold ReverseBits.
  fold (stage 0xaaaaaaaa 0x55555555 1 b). fold (stage 0xcccccccc 0x33333333 2 (stage 0xaaaaaaaa 0x55555555 1 b)).
  fold (stage 0xf0f0f0f0 0x0f0f0f0f 4 (stage 0xcccccccc 0x33333333 2 (stage 0xaaaaaaaa 0x55555555 1 b))).
  rewrite gbswap_bit by done.
  rewrite !stage_bit by (simpl; tauto || (repeat apply xor_index; lia)).
  assert (forallb (fun i => Z.lxor (Z.lxor (Z.lxor (Z.lxor i 24) 4) 2) 1 =? 31 - i) (zrange 32) = true) as Hc by reflexivity.
  pose proof (zrange_forall _ 32 Hc i Hi) as Hb. cbv beta in Hb. f_equal. lia.
Qed.

Lemma ReverseBits_range b : 0 <= ReverseBits b < 2 ^ 32.
Proof.
  unfold ReverseBits. generalize (Z.lor (ushr (Z.land (Z.lor (ushr (Z.land (Z.lor (ushr (Z.land b 0xaaaaaaaa) 1) (ushl 32 (Z.land b 0x55555555) 1)) 0xcccccccc) 2)
    (ushl 32 (Z.land (Z.lor (ushr (Z.land b 0xaaaaaaaa) 1) (ushl 32 (Z.land b 0x55555555) 1)) 0x33333333) 2)) 0xf0f0f0f0) 4)
    (ushl 32 (Z.land (Z.lor (ushr (Z.land (Z.lor (ushr (Z.land b 0xaaaaaaaa) 1) (ushl 32 (Z.land b 0x55555555) 1)) 0xcccccccc) 2)
    (ushl 32 (Z.land (Z.lor (ushr (Z.land b 0xaaaaaaaa) 1) (ushl 32 (Z.land b 0x55555555) 1)) 0x33333333) 2)) 0x0f0f0f0f) 4)).
  intros x. unfold gbswap_32. repeat apply lor_range; try lia; try (apply wrap_range; lia); apply (ushr_range 32); try lia; apply land_range_r; lia.
Qed.

(** Words of 32 bits with the same bits are equal. *)
Lemma bits32_eq a b : 0 <= a < 2 ^ 32 -> 0 <= b < 2 ^ 32 -> (forall i, 0 <= i < 32 -> Z.testbit a i = Z.testbit b i) -> a = b.
Proof.
  intros Ha Hb H. apply Z.bits_inj'. intros i Hi. destruct (Z.lt_ge_cases i 32); [by apply H|].
  rewrite (testbit_bounded a 32), (testbit_bounded b 32) by lia. done.
Qed.

Lemma ReverseBits_lxor : linear ReverseBits.
Proof.
  intros a b. apply bits32_eq; [apply ReverseBits_range|apply lxor_range; [lia|apply ReverseBits_range..]|].
  intros i Hi. rewrite Z.lxor_spec, !ReverseBits_bit, Z.lxor_spec by lia. done.
Qed.

Lemma ReverseBits_involutive a : 0 <= a < 2 ^ 32 -> ReverseBits (ReverseBits a) = a.
Proof.
  intros Ha. apply bits32_eq; [apply ReverseBits_range|done|].
  intros i Hi. rewrite !ReverseBits_bit by lia. f_equal. lia.
Qed.

(** *** Division backwards *)

Lemma poly_range : 0 <= kCrc32cPoly < 2 ^ 32.
Proof. done. Qed.
Lemma unextend_poly_range : 0 <= kCrc32cUnextendPoly < 2 ^ 32.
Proof. apply ReverseBits_range. Qed.

(** On reversed bits, a step with the other generator undoes a step, and the other way around. *)
Lemma unextend_step c : 0 <= c < 2 ^ 32 ->
  advance_bit kCrc32cUnextendPoly (ReverseBits (advance_bit kCrc32cPoly c)) = ReverseBits c.
Proof.
  revert c. apply (linear_ext 32 (fun c => advance_bit kCrc32cUnextendPoly (ReverseBits (advance_bit kCrc32cPoly c))) ReverseBits).
  - apply linear_comp; [apply advance_linear|]. apply linear_comp; [apply ReverseBits_lxor|apply advance_linear].
  - apply ReverseBits_lxor.
  - lia.
  - intros k Hk. apply Z.eqb_eq.
    apply (zrange_forall (fun k => advance_bit kCrc32cUnextendPoly (ReverseBits (advance_bit kCrc32cPoly (2 ^ k))) =? ReverseBits (2 ^ k)) 32); [|done].
    vm_compute. reflexivity.
Qed.

Lemma extend_step c : 0 <= c < 2 ^ 32 ->
  advance_bit kCrc32cPoly (ReverseBits (advance_bit kCrc32cUnextendPoly c)) = ReverseBits c.
Proof.
  revert c. apply (linear_ext 32 (fun c => advance_bit kCrc32cPoly (ReverseBits (advance_bit kCrc32cUnextendPoly c))) ReverseBits).
  - apply linear_comp; [apply advance_linear|]. apply linear_comp; [apply ReverseBits_lxor|apply advance_linear].
  - apply ReverseBits_lxor.
  - lia.
  - intros k Hk. apply Z.eqb_eq.
    apply (zrange_forall (fun k => advance_bit kCrc32cPoly (ReverseBits (advance_bit kCrc32cUnextendPoly (2 ^ k))) =? ReverseBits (2 ^ k)) 32); [|done].
    vm_compute. reflexivity.
Qed.

(** The same for any number of steps. *)
Lemma back_and_forth p q n c : 0 <= q < 2 ^ 32 -> 
  (forall c, 0 <= c < 2 ^ 32 -> advance_bit p (ReverseBits (advance_bit q c)) = ReverseBits c) ->
  0 <= n -> 0 <= c < 2 ^ 32 -> zpow p n (ReverseBits (zpow q n c)) = ReverseBits c.
Proof.
  intros Hq Hstep Hn Hc. revert n Hn. apply (natlike_ind (fun n => zpow p n (ReverseBits (zpow q n c)) = ReverseBits c)); [done|].
  intros n Hn IH. change (Z.succ n) with (n + 1). rewrite <- (zpow_zpow p n 1) by lia.
  rewrite (Z.add_comm n 1), <- (zpow_zpow q 1 n), !zpow_one by lia. rewrite Hstep; [done|]. by apply zpow_range.
Qed.

(** *** The tables of the engine *)

Definition entry_is (poly m : Z) (t : Table) (j i : Z) : bool :=
  match get t j i with Some v => v =? zpow poly m i | None => false end.

(** [FillWordTable] on arrays of unknown contents, checked entry by entry. *)
Definition fills (poly last m : Z) (word_size : nat) (arrays : list (nat -> Z)) : bool :=
  match FillWordTable poly last (Z.of_nat word_size) (fresh <$> arrays) with
  | Some t =>
      forallb (fun row => (length row =? 256)%nat) t && (length t =? length arrays)%nat &&
      forallb (fun j => forallb (entry_is poly (m + 8 * j) t j) (zrange 256)) (zrange word_size)
  | None => false
  end.

Lemma fills_byte u0 u1 u2 u3 : fills kCrc32cPoly kCrc32cPoly 8 1 [u0; u1; u2; u3] = true.
Proof. vm_compute. reflexivity. Qed.
Lemma fills_word u0 u1 u2 u3 : fills kCrc32cPoly (zpow kCrc32cPoly 96 kCrc32cPoly) 104 4 [u0; u1; u2; u3] = true.
Proof. vm_compute. reflexivity. Qed.
Lemma fills_reverse u : fills kCrc32cUnextendPoly kCrc32cUnextendPoly 8 1 [u] = true.
Proof. vm_compute. reflexivity. Qed.

(** Any array of 256 entries is one with unknown contents. *)
Lemma any_fresh row : length row = 256%nat -> row = fresh (fun i => nth i row 0).
Proof.
  intros Hl. apply list_eq. intros i. unfold fresh. rewrite list_lookup_fmap.
  destruct (decide (i < 256)%nat).
  - rewrite lookup_seq_lt by lia. cbn. destruct (lookup_lt_is_Some_2 row i) as [v E]; [lia|].
    rewrite nth_lookup, E. done.
  - rewrite lookup_seq_ge by lia. apply lookup_ge_None_2. lia.
Qed.

Definition table_shape (n : nat) (t : Table) : Prop := length t = n /\ Forall (fun row => length row = 256%nat) t.

Lemma any_fresh_table n t : table_shape n t -> exists arrays, length arrays = n /\ t = fresh <$> arrays.
Proof.
  intros [Hn Ht]. exists ((fun row i => nth i row 0) <$> t). split; [by rewrite length_fmap|].
  rewrite <- list_fmap_compose. rewrite <- (list_fmap_id t) at 1. apply list_fmap_ext.
  intros i row Hr. apply any_fresh. exact (Forall_lookup_1 _ t i row Ht Hr).
Qed.

Lemma fills_spec poly last m word_size arrays : fills poly last m word_size arrays = true ->
  exists t, FillWordTable poly last (Z.of_nat word_size) (fresh <$> arrays) = Some t /\ table_shape (length arrays) t /\
    forall j i, 0 <= j < Z.of_nat word_size -> 0 <= i < 256 -> get t j i = Some (zpow poly (m + 8 * j) i).
Proof.
  unfold fills. destruct (FillWordTable _ _ _ _) as [t|]; [|done]. intros H. exists t. split; [done|].
  apply andb_true_iff in H as [H Hj]. apply andb_true_iff in H as [Hrow Hlen]. split.
  - split; [lia|]. apply Forall_forall. intros row Hin. rewrite forallb_forall in Hrow.
    specialize (Hrow row Hin). lia.
  - intros j i Hj' Hi. pose proof (zrange_forall _ word_size Hj j Hj') as Hr. cbv beta in Hr.
    pose proof (zrange_forall _ 256 Hr i Hi) as He. unfold entry_is in He.
    destruct (get t j i) as [v|]; [f_equal; lia|done].
Qed.

Lemma FillWordTable_byte t : table_shape 4 t ->
  exists t', FillWordTable kCrc32cPoly kCrc32cPoly 1 t = Some t' /\ table_shape 4 t' /\
    forall i, 0 <= i < 256 -> get t' 0 i = Some (zpow kCrc32cPoly 8 i).
Proof.
  intros Ht. destruct (any_fresh_table 4 t Ht) as (arrays & Hl & ->).
  destruct arrays as [|u0 [|u1 [|u2 [|u3 [|]]]]]; try done.
  destruct (fills_spec _ _ _ _ _ (fills_byte u0 u1 u2 u3)) as (t' & E & Hs & Hg). exists t'.
  split; [exact E|]. split; [exact Hs|]. intros i Hi. exact (Hg 0 i ltac:(lia) Hi).
Qed.

Lemma FillWordTable_word t : table_shape 4 t ->
  exists t', FillWordTable kCrc32cPoly (zpow kCrc32cPoly 96 kCrc32cPoly) 4 t = Some t' /\ table_shape 4 t' /\ word_table kCrc32cPoly t'.
Proof.
  intros Ht. destruct (any_fresh_table 4 t Ht) as (arrays & Hl & ->).
  destruct arrays as [|u0 [|u1 [|u2 [|u3 [|]]]]]; try done.
  destruct (fills_spec _ _ _ _ _ (fills_word u0 u1 u2 u3)) as (t' & E & Hs & Hg). exists t'.
  split; [exact E|]. split; [exact Hs|]. exact Hg.
Qed.

Lemma FillWordTable_reverse u : exists t', FillWordTable kCrc32cUnextendPoly kCrc32cUnextendPoly 1 [fresh u] = Some t' /\
  table_shape 1 t' /\ forall i, 0 <= i < 256 -> get t' 0 i = Some (zpow kCrc32cUnextendPoly 8 i).
Proof.
  destruct (fills_spec _ _ _ _ _ (fills_reverse u)) as (t' & E & Hs & Hg). exists t'.
  split; [exact E|]. split; [exact Hs|]. intros i Hi. exact (Hg 0 i ltac:(lia) Hi).
Qed.

Lemma copy_entries_spec n src dst : 0 <= n <= 256 -> n <= Z.of_nat (length src) -> n <= Z.of_nat (length dst) ->
  copy_entries n src dst = Some (take (Z.to_nat n) src ++ drop (Z.to_nat n) dst).
Proof.
  intros Hn Hs Hd. unfold copy_entries.
  change (0, dst) with ((fun k : nat => (Z.of_nat k, take k src ++ drop k dst)) O).
  rewrite (while_steps (fun k : nat => (Z.of_nat k, take k src ++ drop k dst)) (Z.to_nat n)); [by run|lia| |lia].
  intros k Hk. split; [lia|]. rewrite Nat2Z.id.
  destruct (lookup_lt_is_Some_2 src k) as [v Ev]; [lia|]. rewrite Ev. run.
  rewrite length_app, length_take, length_drop. rewrite (proj2 (Nat.ltb_lt _ _)) by lia. pairs.
  destruct (lookup_lt_is_Some_2 dst k) as [d Ed]; [lia|].
  rewrite (drop_S dst d k) by done. rewrite (take_S_r src k v) by done. rewrite insert_app_r_alt by (rewrite length_take; lia).
  rewrite length_take, Nat.min_l, Nat.sub_diag by lia. simpl. by rewrite <- app_assoc.
Qed.

(** All of the tables are right. *)
Record engine_ok (c : CRC32) : Prop := {
  table0_ok : byte_table kCrc32cPoly (table0_ c);
  zeroes_ok : zero_table kCrc32cPoly (zeroes_ c);
  table_ok : word_table kCrc32cPoly (table_ c);
  reverse_table0_ok : byte_table kCrc32cUnextendPoly (reverse_table0_ c);
  reverse_zeroes_ok : zero_table kCrc32cUnextendPoly (reverse_zeroes_ c)
}.

Lemma length_fresh u : length (fresh u) = 256%nat.
Proof. unfold fresh. by rewrite length_fmap, length_seq. Qed.

Lemma fresh_shape n (u : nat -> nat -> Z) : table_shape n ((fun j => fresh (u j)) <$> seq 0 n).
Proof.
  split; [by rewrite length_fmap, length_seq|]. apply Forall_forall. intros row Hin.
  apply list_elem_of_In, list_elem_of_fmap in Hin as (j & -> & _). apply length_fresh.
Qed.

Lemma first_row n t : table_shape (S n) t -> exists row rest, t = row :: rest /\ length row = 256%nat.
Proof. intros [Hl Ht]. destruct t as [|row rest]; [done|]. exists row, rest. split; [done|]. apply Forall_cons_iff in Ht as [H _]. exact H. Qed.

Lemma get_row row rest i : 0 <= i -> get (row :: rest) 0 i = row !! Z.to_nat i.
Proof. intros Hi. unfold get. destruct (Z.ltb_spec i 0); [lia|done]. Qed.

(** The four rows are copied. *)
Lemma copy_table t uninit : table_shape 4 t ->
  while_ 5 (fun '(b, _) => b <? 4)
    (fun '(b, table) =>
       src ← t !! Z.to_nat b;
       dst ← table !! Z.to_nat b;
       dst ← copy_entries 256 src dst;
       Some (b + 1, <[Z.to_nat b := dst]> table))
    (0, (fun j => fresh (uninit j)) <$> seq 0 4) = Some (4, t).
Proof.
  intros [Hl Ht]. destruct t as [|r0 [|r1 [|r2 [|r3 [|]]]]]; try done.
  rewrite !Forall_cons_iff in Ht. destruct Ht as (L0 & L1 & L2 & L3 & _).
  assert (forall src u, length src = 256%nat -> copy_entries 256 src (fresh u) = Some src) as Hc.
  { intros src u Hs. rewrite copy_entries_spec by (rewrite ?length_fresh; lia).
    rewrite take_ge, drop_ge, app_nil_r by (rewrite ?length_fresh; lia). done. }
  pose (rows := [r0; r1; r2; r3]).
  pose (st := fun k : nat => (Z.of_nat k, take k rows ++ drop k ((fun j => fresh (uninit j)) <$> seq 0 4))).
  match goal with |- while_ ?f ?cond ?body _ = _ => change (while_ f cond body (st O) = Some (st 4%nat)) end.
  apply while_steps; [lia| |done].
  intros k Hk. unfold st. split; [lia|]. cbn beta iota. rewrite Nat2Z.id.
  destruct k as [|[|[|[|]]]]; [..|lia]; cbn [rows lookup list_lookup take drop app fmap list_fmap seq]; run; run; rewrite Hc by done; run; done.
Qed.

(** [InitTables] succeeds, reads no memory before it is written, and every table is right. *)
Lemma InitTables_spec uninit : exists c, InitTables uninit = Some c /\ engine_ok c.
Proof.
  unfold InitTables.
  destruct (FillWordTable_byte _ (fresh_shape 4 (fun j => uninit (8 + j)%nat))) as (t1 & -> & S1 & T1). run.
  destruct (first_row 3 t1 S1) as (row0 & rest1 & -> & L0). rewrite lookup_cons_O || cbn [lookup list_lookup]. run.
  rewrite copy_entries_spec by (rewrite ?length_fresh; lia). run.
  rewrite (take_ge row0), (drop_ge (fresh _)), app_nil_r by (rewrite ?length_fresh; lia).
  assert (byte_table kCrc32cPoly row0) as B0. { intros i Hi. rewrite <- T1 by done. symmetry. apply get_row. lia. }
  rewrite (while_steps (fun k : nat => (Z.of_nat k, zpow kCrc32cPoly (8 * Z.of_nat k) kCrc32cPoly)) 12); [|lia| |done].
  2: { intros k Hk. split; [lia|]. cbn beta iota.
       destruct (byte_step kCrc32cPoly row0 (zpow kCrc32cPoly (8 * Z.of_nat k) kCrc32cPoly) B0) as (e & -> & E).
       - by apply zpow_range, poly_range.
       - run. rewrite E, zpow_zpow by lia. pairs. f_equal. lia. }
  run. change (8 * Z.of_nat 12) with 96.
  destruct (FillWordTable_word _ S1) as (t2 & -> & S2 & T2). run.
  rewrite (copy_table t2 (fun j => uninit (1 + j)%nat) S2). run.
  destruct (first_row 3 t2 S2) as (row2 & rest2 & -> & L2).
  destruct (FillZeroesTable_spec kCrc32cPoly poly_range row2 rest2 L2) as (row3 & -> & L3 & Z3). run.
  cbn [lookup list_lookup]. run. rewrite copy_entries_spec by (rewrite ?length_fresh; lia). run.
  destruct (FillWordTable_reverse (uninit 6%nat)) as (t4 & -> & S4 & T4). run.
  destruct (first_row 0 t4 S4) as (row4 & rest4 & -> & L4). cbn [lookup list_lookup]. run.
  destruct (FillZeroesTable_spec kCrc32cUnextendPoly unextend_poly_range (fresh (uninit 7%nat)) [] (length_fresh _)) as (row5 & -> & L5 & Z5). run.
  cbn [lookup list_lookup]. run. eexists. split; [done|]. split; cbn [table0_ zeroes_ table_ reverse_table0_ reverse_zeroes_].
  - exact B0.
  - intros d a Hd Ha. rewrite lookup_app_l by (rewrite length_take; lia). rewrite lookup_take_lt by lia. by apply Z3.
  - exact T2.
  - intros i Hi. rewrite <- T4 by done. symmetry. apply get_row. lia.
  - exact Z5.
Qed.

(** ** Scrambling *)

Lemma RotateRight_range r x : 0 <= r <= 32 -> 0 <= x < 2 ^ 32 -> 0 <= RotateRight 32 x 32 r < 2 ^ 32.
Proof.
  intros Hr Hx. unfold RotateRight. apply lor_range; [lia|apply wrap_range; lia|].
  apply land_range_r; [lia|]. unfold MaskOfLength, usub. apply wrap_range. lia.
Qed.

(** Rotations by [r] and by the rest of the word are inverse. *)
Lemma RotateRight_17_15 x : 0 <= x < 2 ^ 32 -> RotateRight 32 (RotateRight 32 x 32 17) 32 15 = x.
Proof.
  intros Hx. unfold RotateRight.
  change (MaskOfLength 32 (32 - 17)) with (Z.ones 15). change (MaskOfLength 32 (32 - 15)) with (Z.ones 17).
  unfold ushl, ushr, wrap. change (32 - 17) with 15. change (32 - 15) with 17. zbits.
  - autorewrite with zbit. zcases; try lia. rewrite andb_false_r, orb_false_r. f_equal; lia.
  - autorewrite with zbit. zcases; try lia. rewrite andb_true_r, (Z.testbit_neg_r x (i - 17 - 15)) by lia. simpl. f_equal; lia.
Qed.

(** [Unscramble] undoes [Scramble]. *)
Lemma mask32 x : Z.land x (MaskOfLength 32 32) = wrap 32 x.
Proof. change (MaskOfLength 32 32) with (Z.ones 32). by rewrite Z.land_ones by lia. Qed.

Lemma Unscramble_Scramble crc : 0 <= crc < 2 ^ 32 -> Unscramble (Scramble crc) = crc.
Proof.
  intros Hc. unfold Unscramble, Scramble. rewrite !mask32. change (32 - 17) with 15.
  rewrite (wrap_small 32 (RotateRight _ _ _ 17)) by (apply RotateRight_range; [lia|apply wrap_range; lia]).
  rewrite RotateRight_17_15 by (apply wrap_range; lia). rewrite wrap_wrap by lia.
  unfold usub, uadd. rewrite wrap_wrap_narrow by lia. unfold wrap. rewrite Zminus_mod.
  rewrite Z.mod_mod by lia. rewrite (Z.mod_mod_divide _ (2 ^ 64) (2 ^ 32)) by (by exists (2 ^ 32)).
  rewrite <- Zminus_mod. rewrite Z.add_simpl_r. by apply Z.mod_small.
Qed.

