(* ===== verification/Crc32c.v ===== *)
(** * Checksums of strings (crypto/crc32c.cc, crypto/crc32c.h, crypto/internal/crc32c_inline.h, crypto/internal/crc_memcpy_fallback.cc)

    CRC-32C of strings, with the instructions of the processor where it has them, and the arithmetic of checksums of
    concatenated strings; a copy that computes the checksum on its way. The checksum of a string is specified as the
    register of the bitwise division, started from ones and complemented. *)
From S2P Require Import Prelude Words Endian Loops Crc.

(** ** Checksums of strings: crypto/crc32c.cc, crypto/crc32c.h, crypto/internal/crc32c_inline.h *)

Definition kCRC32Xor : Z := 0xffffffff.

(** The instructions of the processor that [ExtendCrc32cInline] uses, where it has them. *)
Record crc_simd := {
  CRC32_u8 : Z -> Z -> Z;
  CRC32_u16 : Z -> Z -> Z;
  CRC32_u32 : Z -> Z -> Z;
  CRC32_u64 : Z -> Z -> Z
}.

(** A string in memory: its address and its bytes. *)
Record string_view := { address : Z; bytes : list Z }.

Section Strings.
Variable little : bool.
Variable kNeedAlignedLoads : bool.
Variable kPrefetchHorizon : Z.
Variable engine : CRC32.             (* CrcEngine() *)
Variable simd : option crc_simd.

Definition load (n : nat) (p : list Z) : option Z :=
  if (n <=? length p)%nat then Some (le_load little (take n p)) else None.

(** One instruction on the first [k] bytes; the state is [crc] and [p]. *)
Definition consume (k : nat) (instr : Z -> Z -> Z) (s : Z * list Z) : option (Z * list Z) :=
  let '(crc, p) := s in v ← load k p; Some (instr crc v, drop k p).
Definition consume_if (k : nat) (instr : Z -> Z -> Z) (s : Z * list Z) : option (Z * list Z) :=
  if negb (Z.land (Z.of_nat (length s.2)) (Z.of_nat k) =? 0) then consume k instr s else Some s.

(** [None] when the processor has no such instructions ([false]), an inner [None] when a read is out of bounds. *)
Definition ExtendCrc32cInline (crc : Z) (p : list Z) : option (option Z) :=
  match simd with
  | None => None
  | Some i => Some (
      s ← consume_if 1 (CRC32_u8 i) (Z.lxor crc kCRC32Xor, p);
      s ← consume_if 2 (CRC32_u16 i) s;
      s ← consume_if 4 (CRC32_u32 i) s;
      '(crc, _) ← while_ (length p) (fun '(_, p) => negb (length p =? 0)%nat) (consume 8 (CRC32_u64 i)) s;
      Some (Z.lxor crc kCRC32Xor))
  end.

Definition UnextendCrc32cByZeroes (initial_crc length : Z) : option Z :=
  crc ← UnextendByZeroes engine (Z.lxor initial_crc kCRC32Xor) length;
  Some (Z.lxor crc kCRC32Xor).

Definition extend_crc32c_internal (initial_crc : Z) (buf_to_add : string_view) : option Z :=
  crc ← Extend little kNeedAlignedLoads kPrefetchHorizon engine (Z.lxor initial_crc kCRC32Xor)
          (address buf_to_add) (bytes buf_to_add);
  Some (Z.lxor crc kCRC32Xor).

Definition extend_crc32c (initial_crc : Z) (buf_to_add : string_view) : option Z :=
  if (length (bytes buf_to_add) <=? 64)%nat then
    match ExtendCrc32cInline initial_crc (bytes buf_to_add) with
    | Some r => r
    | None => extend_crc32c_internal initial_crc buf_to_add
    end
  else extend_crc32c_internal initial_crc buf_to_add.

Definition compute_crc32c (buf : string_view) : option Z := extend_crc32c 0 buf.

Definition extend_crc32c_by_zeroes (initial_crc length : Z) : option Z :=
  crc ← ExtendByZeroes engine (Z.lxor initial_crc kCRC32Xor) length;
  Some (Z.lxor crc kCRC32Xor).

Definition concat_crc32c (lhs_crc rhs_crc rhs_len : Z) : option Z :=
  result ← ExtendByZeroes engine lhs_crc rhs_len;
  Some (Z.lxor result rhs_crc).

Definition remove_crc32c_prefix (crc_a crc_ab length_b : Z) : option Z := concat_crc32c crc_a crc_ab length_b.

Definition remove_crc32c_suffix (full_string_crc suffix_crc suffix_len : Z) : option Z :=
  UnextendByZeroes engine (Z.lxor full_string_crc suffix_crc) suffix_len.

(** [FallbackCrcMemcpyEngine::Compute]: the source at [src_address] is copied to a buffer [dst]; the state of the loop is
    [offset], the checksum and the destination. *)
Definition sub_view (src : string_view) (offset n : nat) : string_view :=
  {| address := uadd 64 (address src) (Z.of_nat offset); bytes := take n (drop offset (bytes src)) |}.
Definition memcpy (dst : list Z) (offset : nat) (data : list Z) : option (list Z) :=
  if (offset + length data <=? length dst)%nat
  then Some (take offset dst ++ data ++ drop (offset + length data) dst) else None.

Definition fallback_Compute (dst : list Z) (src : string_view) (initial_crc : Z) : option (Z * list Z) :=
  let length_ := length (bytes src) in
  let kBlockSize := Z.to_nat 8192 in
  '(offset, crc, dst) ← while_ (S length_) (fun '(offset, _, _) => (offset + kBlockSize <? length_)%nat)
    (fun '(offset, crc, dst) =>
       crc ← extend_crc32c crc (sub_view src offset kBlockSize);
       dst ← memcpy dst offset (bytes (sub_view src offset kBlockSize));
       Some ((offset + kBlockSize)%nat, crc, dst))
    (0%nat, initial_crc, dst);
  if (offset <? length_)%nat then
    let final_copy_size := (length_ - offset)%nat in
    crc ← extend_crc32c crc (sub_view src offset final_copy_size);
    dst ← memcpy dst offset (bytes (sub_view src offset final_copy_size));
    Some (crc, dst)
  else Some (crc, dst).

(** [memcpy_crc32c], with the portable engine that [GetArchSpecificEngines] makes. *)
Definition memcpy_crc32c (dst : list Z) (src : string_view) (initial_crc : Z) : option (Z * list Z) :=
  fallback_Compute dst src initial_crc.

End Strings.

(** ** The checksum of a string, by definition *)

Definition crc32c (p : list Z) : Z := Z.lxor (crc_bytes kCrc32cPoly 0xffffffff p) 0xffffffff.

(** What the instructions are documented to compute: the register extended by the bytes of a word. *)
Definition simd_ok (i : crc_simd) : Prop :=
  forall crc v, 0 <= crc < 2 ^ 32 -> 0 <= v ->
    (v < 2 ^ 8 -> CRC32_u8 i crc v = zpow kCrc32cPoly 8 (Z.lxor crc v)) /\
    (v < 2 ^ 16 -> CRC32_u16 i crc v = zpow kCrc32cPoly 16 (Z.lxor crc v)) /\
    (v < 2 ^ 32 -> CRC32_u32 i crc v = zpow kCrc32cPoly 32 (Z.lxor crc v)) /\
    (v < 2 ^ 64 -> CRC32_u64 i crc v = zpow kCrc32cPoly 64 (Z.lxor crc v)).

Definition view_ok (s : string_view) : Prop :=
  Forall byte_ok (bytes s) /\ 0 <= address s /\ address s + Z.of_nat (length (bytes s)) + 3 < 2 ^ 64.

#[local] Abbreviation P := kCrc32cPoly.

(** ** Theorems *)

Lemma xor_ones a : 0 <= a < 2 ^ 32 -> 0 <= Z.lxor a 0xffffffff < 2 ^ 32.
Proof. intros Ha. apply lxor_range; lia. Qed.

Lemma xor_twice a : Z.lxor (Z.lxor a 0xffffffff) 0xffffffff = a.
Proof. rewrite Z.lxor_assoc. rewrite (Z.lxor_nilpotent 0xffffffff). apply Z.lxor_0_r. Qed.

Lemma crc32c_range p : Forall byte_ok p -> 0 <= crc32c p < 2 ^ 32.
Proof. intros Hp. apply xor_ones, crc_bytes_range; [exact poly_range|lia|done]. Qed.

Lemma crc_bytes_zeroes l n : crc_bytes P l (replicate n 0) = zpow P (8 * Z.of_nat n) l.
Proof.
  rewrite crc_bytes_word.
  - rewrite length_replicate. f_equal. replace (le_combine (replicate n 0)) with 0; [apply Z.lxor_0_r|].
    induction n as [|n IH]; [done|]. simpl. by rewrite <- IH.
  - apply Forall_replicate. unfold byte_ok. lia.
Qed.

(** Registers that differ by [d] still differ by [d], moved, after the same bytes. *)
Lemma crc_bytes_xor d l p : Forall byte_ok p ->
  crc_bytes P (Z.lxor l d) p = Z.lxor (crc_bytes P l p) (zpow P (8 * Z.of_nat (length p)) d).
Proof. intros Hp. rewrite !crc_bytes_word by done. rewrite <- zpow_lxor. f_equal. xor_ac. Qed.

(** The checksum of a concatenation. *)
Lemma crc32c_app p q : Forall byte_ok q ->
  crc32c (p ++ q) = Z.lxor (zpow P (8 * Z.of_nat (length q)) (crc32c p)) (crc32c q).
Proof.
  intros Hq. unfold crc32c. rewrite crc_bytes_app.
  replace (crc_bytes P 0xffffffff p) with (Z.lxor 0xffffffff (Z.lxor (crc_bytes P 0xffffffff p) 0xffffffff)) at 1 by xor_ac.
  rewrite crc_bytes_xor by done. xor_ac.
Qed.

Section Proofs.
Variable little kNeedAlignedLoads : bool.
Variable kPrefetchHorizon : Z.
Variable engine : CRC32.
Variable simd : option crc_simd.
Hypothesis Hhorizon : 64 <= kPrefetchHorizon.
Hypothesis Hengine : engine_ok engine.
Hypothesis Hsimd : forall i, simd = Some i -> simd_ok i.

Lemma extend_internal_spec crc v : view_ok v -> 0 <= crc < 2 ^ 32 ->
  extend_crc32c_internal little kNeedAlignedLoads kPrefetchHorizon engine crc v =
    Some (Z.lxor (crc_bytes P (Z.lxor crc 0xffffffff) (bytes v)) 0xffffffff).
Proof using Hhorizon Hengine.
  intros (Hp & Ha & Hb) Hc. unfold extend_crc32c_internal.
  rewrite (Extend_spec P poly_range) by (try apply Hengine; try apply xor_ones; done || lia). by run.
Qed.

(** One instruction on [n] bytes. *)
Lemma consume_spec n instr crc p : size_ok n -> Forall byte_ok p -> 0 <= crc < 2 ^ 32 -> (n <= length p)%nat ->
  (forall v, 0 <= v < 2 ^ (8 * Z.of_nat n) -> instr crc v = zpow P (8 * Z.of_nat n) (Z.lxor crc v)) ->
  consume little n instr (crc, p) = Some (crc_bytes P crc (take n p), drop n p).
Proof using.
  intros Hn Hp Hc Hlen Hi. unfold consume, load. destruct (Nat.leb_spec n (length p)); [|lia].
  assert (length (take n p) = n) as El by (rewrite length_take; lia).
  assert (Forall byte_ok (take n p)) as Hb by (by apply Forall_take).
  rewrite le_load_spec by (rewrite ?El; done). run. pairs.
  pose proof (le_combine_range _ Hb) as Hr. rewrite El in Hr.
  rewrite Hi by exact Hr. rewrite crc_bytes_word by done. by rewrite El.
Qed.

Lemma land_low n k : 0 <= k -> n mod 2 ^ k = 0 -> Z.land n (2 ^ k) = n mod 2 ^ (k + 1).
Proof using.
  intros Hk Hn. apply Z.bits_inj'. intros i Hi. rewrite Z.land_spec, testbit_pow2, testbit_mod_pow2 by lia.
  destruct (Z.eqb_spec k i) as [->|Hne]; [rewrite andb_true_r; destruct (Z.ltb_spec i (i + 1)); [done|lia]|].
  rewrite andb_false_r. destruct (Z.ltb_spec i (k + 1)); [|done]. simpl. 
  apply (f_equal (fun z => Z.testbit z i)) in Hn. rewrite testbit_mod_pow2, Z.testbit_0_l in Hn by lia.
  destruct (Z.ltb_spec i k); [by rewrite <- Hn|lia].
Qed.

(** The low bits of the length go one at a time. *)
Lemma consume_if_spec k n instr crc p : (k <= 2)%nat -> n = (2 ^ k)%nat -> Forall byte_ok p -> 0 <= crc < 2 ^ 32 ->
  Z.of_nat (length p) mod 2 ^ Z.of_nat k = 0 ->
  (forall v, 0 <= v < 2 ^ (8 * Z.of_nat n) -> instr crc v = zpow P (8 * Z.of_nat n) (Z.lxor crc v)) ->
  exists q crc', consume_if little n instr (crc, p) = Some (crc', q) /\ Forall byte_ok q /\ 0 <= crc' < 2 ^ 32 /\
    crc_bytes P crc' q = crc_bytes P crc p /\ Z.of_nat (length q) mod 2 ^ Z.of_nat (S k) = 0 /\ (length q <= length p)%nat.
Proof using.
  intros Hk Hn Hp Hc Hmod Hi. unfold consume_if. cbn [snd].
  assert (Z.of_nat n = 2 ^ Z.of_nat k) as En by (subst n; rewrite Nat2Z.inj_pow; done).
  rewrite En, land_low by (done || lia). rewrite Nat2Z.inj_succ. change (Z.succ (Z.of_nat k)) with (Z.of_nat k + 1).
  assert (size_ok n) as Hsize by (subst n; destruct k as [|[|[|]]]; [unfold size_ok; simpl; tauto..|lia]).
  destruct (Z.eqb_spec (Z.of_nat (length p) mod 2 ^ (Z.of_nat k + 1)) 0) as [E|E]; cbn [negb]; [by exists p, crc|].
  assert (Z.of_nat (length p) mod 2 ^ (Z.of_nat k + 1) = 2 ^ Z.of_nat k) as E1.
  { rewrite Z.pow_add_r, Z.rem_mul_r in * by lia. rewrite Hmod in *. change (2 ^ 1) with 2 in *.
    assert ((Z.of_nat (length p) / 2 ^ Z.of_nat k) mod 2 = 0 \/ (Z.of_nat (length p) / 2 ^ Z.of_nat k) mod 2 = 1) as [Er|Er]
      by (pose proof (Z.mod_pos_bound (Z.of_nat (length p) / 2 ^ Z.of_nat k) 2 ltac:(lia)); lia); rewrite Er in *; lia. }
  assert (n <= length p)%nat as Hlen.
  { pose proof (Z.mod_le (Z.of_nat (length p)) (2 ^ (Z.of_nat k + 1)) ltac:(lia) ltac:(lia)). lia. }
  rewrite consume_spec by done. eexists _, _. split; [done|]. split; [by apply Forall_drop|].
  split; [apply crc_bytes_range; [exact poly_range|done|by apply Forall_take]|].
  split; [by rewrite <- crc_bytes_app, take_drop|].
  rewrite length_drop, Nat2Z.inj_sub, En by done. rewrite Zminus_mod, E1.
  split; [|lia]. rewrite (Z.mod_small (2 ^ Z.of_nat k)) by (rewrite Z.pow_add_r by lia; lia). by rewrite Z.sub_diag.
Qed.

Lemma inline_spec i crc p : simd_ok i -> Forall byte_ok p -> 0 <= crc < 2 ^ 32 ->
  ExtendCrc32cInline little (Some i) crc p =
    Some (Some (Z.lxor (crc_bytes P (Z.lxor crc 0xffffffff) p) 0xffffffff)).
Proof using.
  intros Hi Hp Hc. unfold ExtendCrc32cInline. f_equal.
  destruct (consume_if_spec 0 1 (CRC32_u8 i) (Z.lxor crc kCRC32Xor) p) as (q1 & c1 & -> & Hq1 & Hc1 & E1 & M1 & L1);
    [lia|done|done|by apply xor_ones|by rewrite Z.mod_1_r|intros v Hv; by apply Hi; [apply xor_ones|lia|lia]|].
  run.
  destruct (consume_if_spec 1 2 (CRC32_u16 i) c1 q1) as (q2 & c2 & -> & Hq2 & Hc2 & E2 & M2 & L2);
    [lia|done|done|done|done|intros v Hv; by apply Hi; [|lia|lia]|].
  run.
  destruct (consume_if_spec 2 4 (CRC32_u32 i) c2 q2) as (q3 & c3 & -> & Hq3 & Hc3 & E3 & M3 & L3);
    [lia|done|done|done|done|intros v Hv; by apply Hi; [|lia|lia]|].
  run. change (2 ^ Z.of_nat 3) with 8 in M3.
  match goal with |- context [while_ _ ?cond ?body _] =>
    destruct (while_rule (fun '(c, q) => Forall byte_ok q /\ 0 <= c < 2 ^ 32 /\ crc_bytes P c q = crc_bytes P c3 q3 /\ Z.of_nat (length q) mod 8 = 0)
      (fun '(_, q) => length q) cond body (length p) (c3, q3)) as ((c4 & q4) & -> & (Hq4 & Hc4 & E4 & M4) & Hend) end.
  - done.
  - lia.
  - intros (c & q) (Hq & Hc' & E & M) Hne. assert (8 <= length q)%nat as H8 by zlia.
    exists (crc_bytes P c (take 8 q), drop 8 q). split; [|split].
    + apply consume_spec; [unfold size_ok; tauto|done|done|done|]. intros v Hv. by apply Hi; [|lia|lia].
    + split; [by apply Forall_drop|]. split; [apply crc_bytes_range; [exact poly_range|done|by apply Forall_take]|].
      split; [by rewrite <- crc_bytes_app, take_drop|]. rewrite length_drop. zlia.
    + rewrite length_drop. lia.
  - destruct q4; [|done]. run. cbn in E4. rewrite E4, E3, E2, E1. done.
Qed.

(** Every path computes the same register. *)
Lemma extend_spec crc v : view_ok v -> 0 <= crc < 2 ^ 32 ->
  extend_crc32c little kNeedAlignedLoads kPrefetchHorizon engine simd crc v =
    Some (Z.lxor (crc_bytes P (Z.lxor crc 0xffffffff) (bytes v)) 0xffffffff).
Proof using Hhorizon Hengine Hsimd.
  intros Hv Hc. unfold extend_crc32c. pose proof (extend_internal_spec crc v Hv Hc) as E.
  destruct (length (bytes v) <=? 64)%nat; [|exact E]. destruct simd as [i|] eqn:Es; [|exact E].
  rewrite inline_spec; [done|by apply Hsimd|apply Hv|done].
Qed.

Lemma extend_append p v : Forall byte_ok p -> view_ok v ->
  extend_crc32c little kNeedAlignedLoads kPrefetchHorizon engine simd (crc32c p) v = Some (crc32c (p ++ bytes v)).
Proof using Hhorizon Hengine Hsimd.
  intros Hp Hv. rewrite extend_spec by (done || by apply crc32c_range). unfold crc32c. by rewrite xor_twice, crc_bytes_app.
Qed.

Lemma crc32c_nil : crc32c [] = 0.
Proof using. reflexivity. Qed.

Lemma compute_spec v : view_ok v ->
  compute_crc32c little kNeedAlignedLoads kPrefetchHorizon engine simd v = Some (crc32c (bytes v)).
Proof using Hhorizon Hengine Hsimd. intros Hv. exact (extend_append [] v ltac:(constructor) Hv). Qed.

Lemma ExtendByZeroes_spec crc n : 0 <= crc < 2 ^ 32 -> 0 <= n < 2 ^ 64 -> ExtendByZeroes engine crc n = Some (zpow P (8 * n) crc).
Proof using Hengine. intros Hc Hn. apply ExtendByZeroesImpl_spec; [exact poly_range|apply Hengine..|done|done]. Qed.

Lemma UnextendByZeroes_spec crc n : 0 <= crc < 2 ^ 32 -> 0 <= n < 2 ^ 64 ->
  exists r, UnextendByZeroes engine crc n = Some r /\ 0 <= r < 2 ^ 32 /\ zpow P (8 * n) r = crc.
Proof using Hengine.
  intros Hc Hn. unfold UnextendByZeroes.
  rewrite (ExtendByZeroesImpl_spec kCrc32cUnextendPoly unextend_poly_range) by (apply Hengine || apply ReverseBits_range || done).
  run. eexists. split; [done|]. split; [apply ReverseBits_range|].
  rewrite (back_and_forth P kCrc32cUnextendPoly) by (apply unextend_poly_range || apply extend_step || apply ReverseBits_range || lia).
  by apply ReverseBits_involutive.
Qed.

Lemma UnextendByZeroes_zpow crc n : 0 <= crc < 2 ^ 32 -> 0 <= n < 2 ^ 64 -> UnextendByZeroes engine (zpow P (8 * n) crc) n = Some crc.
Proof using Hengine.
  intros Hc Hn. unfold UnextendByZeroes.
  rewrite (ExtendByZeroesImpl_spec kCrc32cUnextendPoly unextend_poly_range) by (apply Hengine || apply ReverseBits_range || done).
  run. rewrite (back_and_forth kCrc32cUnextendPoly P) by (apply poly_range || apply unextend_step || lia).
  by rewrite ReverseBits_involutive.
Qed.

(** *** The arithmetic of checksums *)

Lemma by_zeroes_spec p n : Forall byte_ok p -> Z.of_nat n < 2 ^ 64 ->
  extend_crc32c_by_zeroes engine (crc32c p) (Z.of_nat n) = Some (crc32c (p ++ replicate n 0)).
Proof using Hengine.
  intros Hp Hn. unfold extend_crc32c_by_zeroes, crc32c. rewrite xor_twice.
  rewrite ExtendByZeroes_spec by (lia || (apply crc_bytes_range; [exact poly_range|lia|done])).
  run. by rewrite crc_bytes_app, crc_bytes_zeroes.
Qed.

Lemma unextend_spec p n : Forall byte_ok p -> Z.of_nat n < 2 ^ 64 ->
  UnextendCrc32cByZeroes engine (crc32c (p ++ replicate n 0)) (Z.of_nat n) = Some (crc32c p).
Proof using Hengine.
  intros Hp Hn. unfold UnextendCrc32cByZeroes, crc32c. rewrite xor_twice, crc_bytes_app, crc_bytes_zeroes.
  rewrite UnextendByZeroes_zpow by (lia || (apply crc_bytes_range; [exact poly_range|lia|done])). by run.
Qed.

Lemma concat_spec p q : Forall byte_ok p -> Forall byte_ok q -> Z.of_nat (length q) < 2 ^ 64 ->
  concat_crc32c engine (crc32c p) (crc32c q) (Z.of_nat (length q)) = Some (crc32c (p ++ q)).
Proof using Hengine.
  intros Hp Hq Hn. unfold concat_crc32c. rewrite ExtendByZeroes_spec by (lia || by apply crc32c_range). run.
  by rewrite crc32c_app.
Qed.

Lemma remove_prefix_spec p q : Forall byte_ok p -> Forall byte_ok q -> Z.of_nat (length q) < 2 ^ 64 ->
  remove_crc32c_prefix engine (crc32c p) (crc32c (p ++ q)) (Z.of_nat (length q)) = Some (crc32c q).
Proof using Hengine.
  intros Hp Hq Hn. unfold remove_crc32c_prefix, concat_crc32c.
  rewrite ExtendByZeroes_spec by (lia || by apply crc32c_range). run.
  rewrite crc32c_app by done. rewrite <- Z.lxor_assoc, Z.lxor_nilpotent. by rewrite Z.lxor_0_l.
Qed.

Lemma remove_suffix_spec p q : Forall byte_ok p -> Forall byte_ok q -> Z.of_nat (length q) < 2 ^ 64 ->
  remove_crc32c_suffix engine (crc32c (p ++ q)) (crc32c q) (Z.of_nat (length q)) = Some (crc32c p).
Proof using Hengine.
  intros Hp Hq Hn. unfold remove_crc32c_suffix.
  rewrite crc32c_app, Z.lxor_assoc, Z.lxor_nilpotent, Z.lxor_0_r by done.
  apply UnextendByZeroes_zpow; [by apply crc32c_range|lia].
Qed.

(** *** Copying *)

Lemma sub_view_ok v offset n : view_ok v -> (offset + n <= length (bytes v))%nat -> view_ok (sub_view v offset n).
Proof using.
  intros (Hp & Ha & Hb) Hle. unfold view_ok, sub_view, uadd. cbn [bytes address]. rewrite length_take, length_drop.
  rewrite wrap_small by lia. split; [by apply Forall_take, Forall_drop|lia].
Qed.

Lemma memcpy_spec dst data offset n : (offset + n <= length data)%nat -> (length data <= length dst)%nat ->
  memcpy (take offset data ++ drop offset dst) offset (take n (drop offset data)) =
    Some (take (offset + n) data ++ drop (offset + n) dst).
Proof using.
  intros Hn Hle. unfold memcpy. assert (length (take offset data) = offset) as Eo by (rewrite length_take; lia).
  assert (length (take n (drop offset data)) = n) as En by (rewrite length_take, length_drop; lia).
  rewrite length_app, length_drop, Eo, En. rewrite (proj2 (Nat.leb_le _ _)) by lia. f_equal.
  rewrite take_app_le, take_take, Nat.min_id by lia.
  rewrite drop_app_ge by lia. rewrite drop_drop, Eo. rewrite app_assoc. f_equal; [|f_equal; lia].
  by rewrite take_take_drop.
Qed.

Lemma copy_step p dst v offset n : Forall byte_ok p -> view_ok v ->
  (offset + n <= length (bytes v))%nat -> (length (bytes v) <= length dst)%nat ->
  extend_crc32c little kNeedAlignedLoads kPrefetchHorizon engine simd (crc32c (p ++ take offset (bytes v))) (sub_view v offset n) =
    Some (crc32c (p ++ take (offset + n) (bytes v))) /\
  memcpy (take offset (bytes v) ++ drop offset dst) offset (bytes (sub_view v offset n)) =
    Some (take (offset + n) (bytes v) ++ drop (offset + n) dst).
Proof using Hhorizon Hengine Hsimd.
  intros Hp Hv Hn Hd. split; [|by apply memcpy_spec].
  rewrite extend_append.
  - cbn [sub_view bytes]. by rewrite <- app_assoc, take_take_drop.
  - apply Forall_app. split; [done|]. apply Forall_take, Hv.
  - by apply sub_view_ok.
Qed.

Lemma copy_spec p dst v : Forall byte_ok p -> view_ok v -> (length (bytes v) <= length dst)%nat ->
  memcpy_crc32c little kNeedAlignedLoads kPrefetchHorizon engine simd dst v (crc32c p) =
    Some (crc32c (p ++ bytes v), bytes v ++ drop (length (bytes v)) dst).
Proof using Hhorizon Hengine Hsimd.
  intros Hp Hv Hd. unfold memcpy_crc32c, fallback_Compute. set (block := Z.to_nat 8192).
  assert (0 < block)%nat as Hb by (unfold block; lia). clearbody block.
  match goal with |- context [while_ _ ?cond ?body _] =>
    destruct (while_rule (fun '(offset, crc, d) => (offset <= length (bytes v))%nat /\ crc = crc32c (p ++ take offset (bytes v)) /\
        d = take offset (bytes v) ++ drop offset dst)
      (fun '(offset, _, _) => length (bytes v) - offset)%nat cond body (S (length (bytes v))) (0%nat, crc32c p, dst))
      as (((offset & crc) & d) & -> & (Ho & -> & ->) & Hend) end.
  - rewrite take_0, app_nil_r. split; [lia|done].
  - lia.
  - intros ((offset & crc) & d) (Ho & -> & ->) Hc. assert (offset + block < length (bytes v))%nat as Hlt by lia.
    destruct (copy_step p dst v offset block Hp Hv) as [-> E]; [lia|done|]. run. rewrite E. run.
    eexists (_, _, _). split; [done|]. split; [|lia]. split; [lia|done].
  - run. destruct (Nat.ltb_spec offset (length (bytes v))).
    + destruct (copy_step p dst v offset (length (bytes v) - offset) Hp Hv) as [-> E]; [lia|done|]. run. rewrite E. run.
      replace (offset + (length (bytes v) - offset))%nat with (length (bytes v)) by lia. by rewrite take_ge by lia.
    + replace offset with (length (bytes v)) by lia. by rewrite take_ge by lia.
Qed.

End Proofs.

(** C30: The engine that [InitTables] builds, whatever the memory held before, computes CRC-32C on hosts of either
    byte order, with and without aligned loads or the instructions of the processor: the checksum of a string, of a
    string extended by another (where the code goes through words, strides of four words or single instructions), and of
    a string while it is copied, is the register of the bitwise division of all of its bytes. *)
Theorem crc32c_correct uninit : exists engine, InitTables uninit = Some engine /\
  forall little kNeedAlignedLoads kPrefetchHorizon simd p v dst,
    64 <= kPrefetchHorizon -> (forall i, simd = Some i -> simd_ok i) -> Forall byte_ok p -> view_ok v ->
    (length (bytes v) <= length dst)%nat ->
    compute_crc32c little kNeedAlignedLoads kPrefetchHorizon engine simd v = Some (crc32c (bytes v)) /\
    extend_crc32c little kNeedAlignedLoads kPrefetchHorizon engine simd (crc32c p) v = Some (crc32c (p ++ bytes v)) /\
    memcpy_crc32c little kNeedAlignedLoads kPrefetchHorizon engine simd dst v (crc32c p) =
      Some (crc32c (p ++ bytes v), bytes v ++ drop (length (bytes v)) dst).
Proof.
  destruct (InitTables_spec uninit) as (engine & E & He). exists engine. split; [done|].
  intros. split; [by apply compute_spec|]. split; [by apply extend_append|by apply copy_spec].
Qed.

(** An instance of the instructions, and the nine digits. *)
Definition documented_simd : crc_simd := {|
  CRC32_u8 := fun crc v => zpow kCrc32cPoly 8 (Z.lxor crc v);
  CRC32_u16 := fun crc v => zpow kCrc32cPoly 16 (Z.lxor crc v);
  CRC32_u32 := fun crc v => zpow kCrc32cPoly 32 (Z.lxor crc v);
  CRC32_u64 := fun crc v => zpow kCrc32cPoly 64 (Z.lxor crc v)
|}.

Lemma documented_simd_ok : simd_ok documented_simd.
Proof. intros crc v _ _. done. Qed.

Definition digits : string_view := {| address := 4097; bytes := [49; 50; 51; 52; 53; 54; 55; 56; 57] |}.

Lemma crc32c_correct_witness : exists engine, InitTables (fun _ _ => 0) = Some engine /\
  compute_crc32c false true 256 engine (Some documented_simd) digits = Some 0xE3069283.
Proof.
  destruct (crc32c_correct (fun _ _ => 0)) as (engine & E & H). exists engine. split; [exact E|].
  destruct (H false true 256 (Some documented_simd) [] digits (replicate 9 0)) as [H1 _].
  - lia.
  - intros i [= <-]. exact documented_simd_ok.
  - constructor.
  - split; [|split; [done|reflexivity]]. repeat (constructor; [split; [done|reflexivity]|]). constructor.
  - simpl. lia.
  - rewrite H1. vm_compute. reflexivity.
Defined.

(** Checksums are computed from checksums: of a concatenation, of a string without a prefix or without a suffix, of a
    string with any number of zero bytes appended or taken away, all in logarithmic time and without the bytes; and
    scrambling is undone. *)
Theorem crc32c_arithmetic uninit : exists engine, InitTables uninit = Some engine /\
  forall p q n crc, Forall byte_ok p -> Forall byte_ok q -> Z.of_nat (length q) < 2 ^ 64 -> Z.of_nat n < 2 ^ 64 -> 0 <= crc < 2 ^ 32 ->
    concat_crc32c engine (crc32c p) (crc32c q) (Z.of_nat (length q)) = Some (crc32c (p ++ q)) /\
    remove_crc32c_prefix engine (crc32c p) (crc32c (p ++ q)) (Z.of_nat (length q)) = Some (crc32c q) /\
    remove_crc32c_suffix engine (crc32c (p ++ q)) (crc32c q) (Z.of_nat (length q)) = Some (crc32c p) /\
    extend_crc32c_by_zeroes engine (crc32c p) (Z.of_nat n) = Some (crc32c (p ++ replicate n 0)) /\
    UnextendCrc32cByZeroes engine (crc32c (p ++ replicate n 0)) (Z.of_nat n) = Some (crc32c p) /\
    Unscramble (Scramble crc) = crc.
Proof.
  destruct (InitTables_spec uninit) as (engine & E & He). exists engine. split; [done|]. intros. split_and!.
  - by apply concat_spec.
  - by apply remove_prefix_spec.
  - by apply remove_suffix_spec.
  - by apply by_zeroes_spec.
  - by apply unextend_spec.
  - by apply Unscramble_Scramble.
Qed.

Lemma crc32c_arithmetic_witness : exists engine, InitTables (fun _ _ => 0) = Some engine /\
  remove_crc32c_suffix engine (crc32c [49; 50; 51; 52; 53]) (crc32c [52; 53]) 2 = Some (crc32c [49; 50; 51]).
Proof.
  destruct (crc32c_arithmetic (fun _ _ => 0)) as (engine & E & H). exists engine. split; [exact E|].
  assert (forall l, Forall (fun b => is_u 8 b = true) l -> Forall byte_ok l) as Hl.
  { intros l. apply Forall_impl. intros b Hb. by apply is_u_spec in Hb. }
  destruct (H [49; 50; 51] [52; 53] 0%nat 0) as (_ & _ & H1 & _).
  - apply Hl. by repeat constructor.
  - apply Hl. by repeat constructor.
  - reflexivity.
  - reflexivity.
  - split; [done|reflexivity].
  - exact H1.
Defined.
