(* ===== verification/CrcCord.v ===== *)
(** * The checksum state of a cord (crypto/internal/crc_cord_state.h, crypto/internal/crc_cord_state.cc)

    [CrcCordState] is a pointer to a reference-counted record, copied when a shared record is to be changed. The model
    has the heap of records with their counts, the objects as pointers into it and the shared empty record. The
    operations are proved against objects that hold a record of their own; the meaning of the record (checksums of
    prefixes of a string, some of them relative to a removed prefix) is proved against an interface for checksums. *)
From stdpp Require Import gmap fin_maps.
From S2P Require Import Prelude Words Bits Endian Loops Crc Crc32c.

(** ** The records *)

Record PrefixCrc := { length_ : Z; crc : Z }.
Record Rep := { removed_prefix : PrefixCrc; prefix_crc : list PrefixCrc }.

Definition empty_prefix : PrefixCrc := {| length_ := 0; crc := 0 |}.
Definition empty_rep : Rep := {| removed_prefix := empty_prefix; prefix_crc := [] |}.

(** What the class uses of checksums. *)
Class Checksums := {
  remove_prefix_crc : Z -> Z -> Z -> option Z;   (* remove_crc32c_prefix *)
  checksum : list Z -> Z
}.
Class ChecksumsOk `{!Checksums} := {
  checksum_nil : checksum [] = 0;
  remove_prefix_crc_ok : forall p q, Forall byte_ok p -> Forall byte_ok q -> Z.of_nat (length q) < 2 ^ 64 ->
    remove_prefix_crc (checksum p) (checksum (p ++ q)) (Z.of_nat (length q)) = Some (checksum q)
}.

Section Records.
Context `{!Checksums}.

Definition IsNormalized (rep : Rep) : bool := length_ (removed_prefix rep) =? 0.

Definition Checksum (rep : Rep) : option Z :=
  match list.last (prefix_crc rep) with
  | None => Some 0
  | Some back =>
      if IsNormalized rep then Some (crc back)
      else remove_prefix_crc (crc (removed_prefix rep)) (crc back) (usub 64 (length_ back) (length_ (removed_prefix rep)))
  end.

Definition NumChunks (rep : Rep) : nat := length (prefix_crc rep).

Definition NormalizedPrefixCrcAtNthChunk (rep : Rep) (n : nat) : option PrefixCrc :=
  chunk ← prefix_crc rep !! n;
  if IsNormalized rep then Some chunk
  else
    let length := usub 64 (length_ chunk) (length_ (removed_prefix rep)) in
    c ← remove_prefix_crc (crc (removed_prefix rep)) (crc chunk) length;
    Some {| length_ := length; crc := c |}.

(** The loop of [Normalize] over the chunks. *)
Fixpoint normalize_chunks (removed : PrefixCrc) (chunks : list PrefixCrc) : option (list PrefixCrc) :=
  match chunks with
  | [] => Some []
  | chunk :: chunks =>
      let remaining := usub 64 (length_ chunk) (length_ removed) in
      c ← remove_prefix_crc (crc removed) (crc chunk) remaining;
      chunks ← normalize_chunks removed chunks;
      Some ({| length_ := remaining; crc := c |} :: chunks)
  end.

(** The record that [Normalize] leaves when it does not return at once. *)
Definition normalize_rep (rep : Rep) : option Rep :=
  chunks ← normalize_chunks (removed_prefix rep) (prefix_crc rep);
  Some {| removed_prefix := empty_prefix; prefix_crc := chunks |}.

Definition poison_chunk (chunk : PrefixCrc) : PrefixCrc :=
  {| length_ := length_ chunk; crc := rotr 32 (uadd 32 (crc chunk) 0x2e76e41b) 17 |}.
Definition poison_rep (rep : Rep) : Rep :=
  {| removed_prefix := removed_prefix rep;
     prefix_crc := if (0 <? NumChunks rep)%nat then poison_chunk <$> prefix_crc rep
                   else prefix_crc rep ++ [{| length_ := 0; crc := 1 |}] |}.

(** ** The heap *)

Record RefcountedRep := { count : Z; rep : Rep }.

(** [objects] are the [CrcCordState]s that exist, with their [refcounted_rep_]; [shared] is the record of
    [RefSharedEmptyRep], made at its first call; [next] is an address not in use. *)
Record world := { heap : gmap nat RefcountedRep; objects : gmap nat nat; shared : option nat; next : nat }.

Definition with_heap (w : world) (h : gmap nat RefcountedRep) : world :=
  {| heap := h; objects := objects w; shared := shared w; next := next w |}.
Definition with_objects (w : world) (o : gmap nat nat) : world :=
  {| heap := heap w; objects := o; shared := shared w; next := next w |}.

(** [new RefcountedRep] *)
Definition alloc (r : Rep) (w : world) : nat * world :=
  (next w, {| heap := <[next w := {| count := 1; rep := r |}]> (heap w); objects := objects w; shared := shared w; next := S (next w) |}).

Definition Ref (l : nat) (w : world) : option world :=
  r ← heap w !! l;
  Some (with_heap w (<[l := {| count := swrap 32 (count r + 1); rep := rep r |}]> (heap w))).

Definition Unref (l : nat) (w : world) : option world :=
  r ← heap w !! l;
  Some (with_heap w (if count r =? 1 then delete l (heap w)
                     else <[l := {| count := swrap 32 (count r - 1); rep := rep r |}]> (heap w))).

Definition RefSharedEmptyRep (w : world) : option (nat * world) :=
  let '(l, w) :=
    match shared w with
    | Some l => (l, w)
    | None => let '(l, w) := alloc empty_rep w in
              (l, {| heap := heap w; objects := objects w; shared := Some l; next := next w |})
    end in
  w ← Ref l w;
  Some (l, w).

Definition point (id l : nat) (w : world) : world := with_objects w (<[id := l]> (objects w)).

(** The constructors, on an identifier that is not in use. *)
Definition construct (id : nat) (w : world) : option world :=
  let '(l, w) := alloc empty_rep w in Some (point id l w).
Definition copy_construct (id other : nat) (w : world) : option world :=
  l ← objects w !! other;
  Ref l (point id l w).
Definition move_construct (id other : nat) (w : world) : option world :=
  l ← objects w !! other;
  '(e, w) ← RefSharedEmptyRep (point id l w);
  Some (point other e w).

Definition copy_assign (id other : nat) (w : world) : option world :=
  if (id =? other)%nat then Some w
  else
    mine ← objects w !! id;
    w ← Unref mine w;
    l ← objects w !! other;
    Ref l (point id l w).
Definition move_assign (id other : nat) (w : world) : option world :=
  if (id =? other)%nat then Some w
  else
    mine ← objects w !! id;
    w ← Unref mine w;
    l ← objects w !! other;
    '(e, w) ← RefSharedEmptyRep (point id l w);
    Some (point other e w).

Definition destroy (id : nat) (w : world) : option world :=
  l ← objects w !! id;
  w ← Unref l w;
  Some (with_objects w (delete id (objects w))).

(** [rep()], and [mutable_rep()]: the address of a record that only this object points to. *)
Definition get_rep (id : nat) (w : world) : option Rep := l ← objects w !! id; r ← heap w !! l; Some (rep r).

Definition mutable_rep (id : nat) (w : world) : option (nat * world) :=
  l ← objects w !! id;
  r ← heap w !! l;
  if negb (count r =? 1) then
    let '(copy, w) := alloc (rep r) w in
    w ← Unref l w;
    Some (copy, point id copy w)
  else Some (l, w).

Definition write_rep (l : nat) (f : Rep -> option Rep) (w : world) : option world :=
  r ← heap w !! l;
  r' ← f (rep r);
  Some (with_heap w (<[l := {| count := count r; rep := r' |}]> (heap w))).

(** What a user does with [mutable_rep()]: an assignment through the pointer it returns, of any new value; so
    [Cord::set_expected_checksum] adds a chunk, and removing a prefix of a cord sets [removed_prefix]. *)
Definition mutate (id : nat) (f : Rep -> Rep) (w : world) : option world :=
  '(l, w) ← mutable_rep id w;
  write_rep l (fun r => Some (f r)) w.

(** [state.mutable_rep()->prefix_crc.push_back(PrefixCrc(length, crc))] *)
Definition push_chunk (chunk : PrefixCrc) (r : Rep) : Rep :=
  {| removed_prefix := removed_prefix r; prefix_crc := prefix_crc r ++ [chunk] |}.
(** [mutable_rep()->removed_prefix = removed] *)
Definition set_removed_prefix (removed : PrefixCrc) (r : Rep) : Rep :=
  {| removed_prefix := removed; prefix_crc := prefix_crc r |}.

Definition Normalize (id : nat) (w : world) : option world :=
  r ← get_rep id w;
  if IsNormalized r || (NumChunks r =? 0)%nat then Some w
  else '(l, w) ← mutable_rep id w; write_rep l normalize_rep w.

Definition Poison (id : nat) (w : world) : option world :=
  '(l, w) ← mutable_rep id w;
  write_rep l (fun r => Some (poison_rep r)) w.

(** ** Sequences of operations, and the same on objects with a record of their own *)

Inductive op :=
  | Construct (id : nat) | CopyConstruct (id other : nat) | MoveConstruct (id other : nat)
  | CopyAssign (id other : nat) | MoveAssign (id other : nat) | Destroy (id : nat)
  | DoNormalize (id : nat) | DoPoison (id : nat) | DoMutate (id : nat) (f : Rep -> Rep).

Definition step (o : op) (w : world) : option world :=
  match o with
  | Construct id => construct id w
  | CopyConstruct id other => copy_construct id other w
  | MoveConstruct id other => move_construct id other w
  | CopyAssign id other => copy_assign id other w
  | MoveAssign id other => move_assign id other w
  | Destroy id => destroy id w
  | DoNormalize id => Normalize id w
  | DoPoison id => Poison id w
  | DoMutate id f => mutate id f w
  end.

Fixpoint run (os : list op) (w : world) : option world :=
  match os with [] => Some w | o :: os => w ← step o w; run os w end.

Definition initial : world := {| heap := ∅; objects := ∅; shared := None; next := 0 |}.

(** An operation applies to objects that exist, a constructor to one that does not. *)
Definition there {A} (m : gmap nat A) (id : nat) : bool := match m !! id with Some _ => true | None => false end.
Definition applies {A} (o : op) (m : gmap nat A) : bool :=
  match o with
  | Construct id => negb (there m id)
  | CopyConstruct id other | MoveConstruct id other => negb (there m id) && there m other
  | CopyAssign id other | MoveAssign id other => there m id && there m other
  | Destroy id | DoNormalize id | DoPoison id | DoMutate id _ => there m id
  end.

Definition value_normalize (r : Rep) : option Rep :=
  if IsNormalized r || (NumChunks r =? 0)%nat then Some r else normalize_rep r.

(** The operations on values. *)
Definition value_step (o : op) (m : gmap nat Rep) : option (gmap nat Rep) :=
  match o with
  | Construct id => Some (<[id := empty_rep]> m)
  | CopyConstruct id other => r ← m !! other; Some (<[id := r]> m)
  | MoveConstruct id other => r ← m !! other; Some (<[other := empty_rep]> (<[id := r]> m))
  | CopyAssign id other => r ← m !! other; Some (<[id := r]> m)
  | MoveAssign id other => if (id =? other)%nat then Some m else r ← m !! other; Some (<[other := empty_rep]> (<[id := r]> m))
  | Destroy id => Some (delete id m)
  | DoNormalize id => r ← m !! id; r' ← value_normalize r; Some (<[id := r']> m)
  | DoPoison id => r ← m !! id; Some (<[id := poison_rep r]> m)
  | DoMutate id f => r ← m !! id; Some (<[id := f r]> m)
  end.

Fixpoint value_run (os : list op) (m : gmap nat Rep) : option (gmap nat Rep) :=
  match os with [] => Some m | o :: os => m ← value_step o m; value_run os m end.

(** The values of the objects of a world. *)
Definition values (w : world) : gmap nat Rep := omap (fun l => rep <$> heap w !! l) (objects w).

End Records.

(** ** Counting references *)

Section Counting.

Definition hit (l l' : nat) : nat := if (l =? l')%nat then 1%nat else 0%nat.
Definition bump (f : nat -> nat) (l l' : nat) : nat := (f l' + hit l l')%nat.

(** How many objects point to an address. *)
Definition pointers (o : gmap nat nat) (l : nat) : nat := size (filter (fun p => p.2 = l) o).

Lemma hit_eq l : hit l l = 1%nat.
Proof using. unfold hit. by rewrite Nat.eqb_refl. Qed.
Lemma hit_ne l l' : l <> l' -> hit l l' = 0%nat.
Proof using. unfold hit. intros H. by destruct (Nat.eqb_spec l l'). Qed.

Lemma pointers_delete o id m l : o !! id = Some m -> (pointers (delete id o) l + hit m l)%nat = pointers o l.
Proof using.
  intros E. unfold pointers. rewrite map_filter_delete. destruct (decide (m = l)) as [->|Hne].
  - assert (filter (fun p : nat * nat => p.2 = l) o !! id = Some l) as Hf by (by apply map_lookup_filter_Some).
    rewrite map_size_delete_Some, hit_eq by (by exists l).
    assert (size (filter (fun p : nat * nat => p.2 = l) o) <> 0)%nat; [|lia].
    intros H0%map_size_empty_inv. by rewrite H0, lookup_empty in Hf.
  - rewrite map_size_delete_None, hit_ne, Nat.add_0_r by done || (apply map_lookup_filter_None_2; right; intros x Hx; rewrite E in Hx; by injection Hx as <-).
    done.
Qed.

Lemma pointers_new o id m l : o !! id = None -> pointers (<[id := m]> o) l = (pointers o l + hit m l)%nat.
Proof using.
  intros E. rewrite <- (pointers_delete (<[id := m]> o) id m l) by apply lookup_insert_eq.
  by rewrite delete_insert_id.
Qed.

Lemma pointers_insert o id m m' l : o !! id = Some m -> (pointers (<[id := m']> o) l + hit m l)%nat = (pointers o l + hit m' l)%nat.
Proof using.
  intros E. rewrite <- (pointers_delete (<[id := m']> o) id m' l) by apply lookup_insert_eq.
  rewrite delete_insert_eq. rewrite <- (pointers_delete o id m l) by done. lia.
Qed.

Lemma pointers_pos o id l : o !! id = Some l -> (0 < pointers o l)%nat.
Proof using. intros E. rewrite <- (pointers_delete o id l l), hit_eq by done. lia. Qed.

Lemma pointers_two o id id' l : o !! id = Some l -> o !! id' = Some l -> id <> id' -> (1 < pointers o l)%nat.
Proof using.
  intros E E' Hne. rewrite <- (pointers_delete o id l l), hit_eq by done.
  pose proof (pointers_pos (delete id o) id' l) as H. rewrite lookup_delete_ne in H by done. specialize (H E'). lia.
Qed.

Lemma pointers_le o l : (pointers o l <= size o)%nat.
Proof using. unfold pointers. apply map_size_filter. Qed.

(** The counts of the heap are those of [f], and what nothing refers to is not there. *)
Definition counts (h : gmap nat RefcountedRep) (f : nat -> nat) : Prop :=
  forall l, match h !! l with Some r => count r = Z.of_nat (f l) /\ (0 < f l)%nat | None => f l = 0%nat end.

Definition reps (w : world) : gmap nat Rep := rep <$> heap w.
Definition unused (w : world) : Prop := forall l, (next w <= l)%nat -> heap w !! l = None.

Lemma counts_ext h f g : (forall l, f l = g l) -> counts h f -> counts h g.
Proof using. intros E H l. specialize (H l). by rewrite E in H. Qed.

Lemma counts_lookup h f l : counts h f -> (0 < f l)%nat -> exists r, h !! l = Some r /\ count r = Z.of_nat (f l).
Proof using. intros H Hl. specialize (H l). destruct (h !! l) as [r|]; [|lia]. exists r. tauto. Qed.

Lemma counts_zero h f l : counts h f -> h !! l = None -> f l = 0%nat.
Proof using. intros H E. specialize (H l). by rewrite E in H. Qed.

Lemma reps_lookup w l r : reps w !! l = Some r <-> exists c, heap w !! l = Some c /\ rep c = r.
Proof using. unfold reps. rewrite lookup_fmap_Some. firstorder. Qed.

Lemma reps_with_heap w h l : reps (with_heap w h) !! l = rep <$> h !! l.
Proof using. unfold reps. by rewrite lookup_fmap. Qed.

(** The effect of [Ref] and of [Unref]. *)
Lemma Ref_spec w f l : counts (heap w) f -> (0 < f l)%nat -> Z.of_nat (f l) < 2 ^ 31 - 1 ->
  exists h, Ref l w = Some (with_heap w h) /\ counts h (bump f l) /\ (rep <$> h) = reps w.
Proof using.
  intros Hc Hl Hb. destruct (counts_lookup _ _ _ Hc Hl) as (r & E & Ec). unfold Ref. rewrite E. simpl.
  eexists. split; [done|]. split.
  - intros l'. unfold bump. destruct (decide (l = l')) as [<-|Hne].
    + rewrite lookup_insert_eq, hit_eq. simpl. rewrite swrap_small; lia.
    + rewrite lookup_insert_ne, hit_ne, Nat.add_0_r by done. apply Hc.
  - unfold reps. rewrite fmap_insert. simpl. apply insert_id. by rewrite lookup_fmap, E.
Qed.

Lemma Unref_spec w f g l : counts (heap w) f -> (0 < f l)%nat -> Z.of_nat (f l) < 2 ^ 31 -> (forall l', f l' = bump g l l') ->
  exists h, Unref l w = Some (with_heap w h) /\ counts h g /\
    (forall l', l <> l' \/ (0 < g l)%nat -> rep <$> h !! l' = reps w !! l').
Proof using.
  intros Hc Hl Hb Hg. destruct (counts_lookup _ _ _ Hc Hl) as (r & E & Ec). unfold Unref. rewrite E. simpl.
  assert (f l = S (g l)) as El by (rewrite Hg; unfold bump; rewrite hit_eq; lia).
  eexists. split; [done|]. split.
  - intros l'. destruct (decide (l = l')) as [<-|Hne].
    + destruct (Z.eqb_spec (count r) 1); [rewrite lookup_delete_eq; lia|].
      rewrite lookup_insert_eq. simpl. rewrite swrap_small; lia.
    + specialize (Hc l'). rewrite Hg in Hc. unfold bump in Hc. rewrite hit_ne, Nat.add_0_r in Hc by done.
      destruct (count r =? 1); [rewrite lookup_delete_ne by done|rewrite lookup_insert_ne by done]; exact Hc.
  - intros l' Hl'. unfold reps. rewrite lookup_fmap. destruct (decide (l = l')) as [<-|Hne].
    + destruct Hl' as [|Hl']; [done|]. destruct (Z.eqb_spec (count r) 1); [lia|]. by rewrite lookup_insert_eq, E.
    + destruct (count r =? 1); [by rewrite lookup_delete_ne|by rewrite lookup_insert_ne].
Qed.

(** A new record. *)
Lemma alloc_counts h f l r : counts h f -> h !! l = None -> counts (<[l := {| count := 1; rep := r |}]> h) (bump f l).
Proof using.
  intros Hc E l'. unfold bump. destruct (decide (l = l')) as [<-|Hne].
  - rewrite lookup_insert_eq, hit_eq. rewrite (counts_zero h f l) by done. simpl. lia.
  - rewrite lookup_insert_ne, hit_ne, Nat.add_0_r by done. apply Hc.
Qed.

Lemma counts_unused w f h g : unused w -> counts (heap w) f -> counts h g -> (forall l, f l = 0%nat -> g l = 0%nat) -> unused (with_heap w h).
Proof using.
  intros Hu Hf Hg Hle l Hl. simpl in *. specialize (Hg l). destruct (h !! l); [|done].
  rewrite (Hle l) in Hg; [lia|]. apply (counts_zero (heap w)); [done|]. by apply Hu.
Qed.

(** *** The invariant *)

(** The references to a record: of the objects and of the shared empty record. *)
Definition total (w : world) (l : nat) : nat := (pointers (objects w) l + match shared w with Some s => hit s l | None => 0 end)%nat.

Record wf (w : world) : Prop := {
  wf_counts : counts (heap w) (total w);
  wf_unused : unused w;
  wf_shared : forall s, shared w = Some s -> reps w !! s = Some empty_rep
}.

(** The counts stay within 32 bits. *)
Definition room (w : world) : Prop := Z.of_nat (size (objects w)) + 3 < 2 ^ 31.

Lemma total_room w l : room w -> Z.of_nat (total w l) + 2 < 2 ^ 31.
Proof using.
  unfold room, total. intros Hr. pose proof (pointers_le (objects w) l).
  assert (match shared w with Some s => hit s l | None => 0%nat end <= 1)%nat; [|lia].
  destruct (shared w); [|lia]. unfold hit. destruct (_ =? _)%nat; lia.
Qed.

Lemma values_lookup w id : values w !! id = objects w !! id ≫= (fun l => reps w !! l).
Proof using.
  unfold values. rewrite lookup_omap. destruct (objects w !! id); [|done]. simpl. unfold reps. by rewrite lookup_fmap.
Qed.

Lemma object_live w id l : wf w -> objects w !! id = Some l -> (0 < total w l)%nat /\ exists r, reps w !! l = Some r.
Proof using.
  intros Hw E. pose proof (pointers_pos _ _ _ E). assert (0 < total w l)%nat as Ht by (unfold total; lia). split; [done|].
  destruct (counts_lookup _ _ _ (wf_counts w Hw) Ht) as (r & Er & _). exists (rep r). unfold reps. by rewrite lookup_fmap, Er.
Qed.

Lemma reps_live w l r : unused w -> reps w !! l = Some r -> (l < next w)%nat.
Proof using.
  intros Hu Hr. destruct (Nat.lt_ge_cases l (next w)) as [|Hge]; [done|]. unfold reps in Hr. by rewrite lookup_fmap, (Hu l Hge) in Hr.
Qed.

Lemma values_some w id : wf w -> is_Some (values w !! id) <-> is_Some (objects w !! id).
Proof using.
  intros Hw. rewrite values_lookup. destruct (objects w !! id) as [l|] eqn:E; [|split; intros [? [=]]].
  destruct (object_live w id l Hw E) as (_ & r & Hr). simpl. rewrite Hr. split; by eexists.
Qed.

(** The shared record, one reference more. *)
Lemma RefSharedEmptyRep_spec w f : counts (heap w) f -> unused w ->
  (forall s, shared w = Some s -> reps w !! s = Some empty_rep /\ (0 < f s)%nat) -> (forall l, Z.of_nat (f l) + 1 < 2 ^ 31) ->
  exists e w', RefSharedEmptyRep w = Some (e, w') /\ objects w' = objects w /\ shared w' = Some e /\ unused w' /\
    counts (heap w') (fun l => bump f e l + match shared w with Some _ => 0 | None => hit e l end)%nat /\
    (shared w = None \/ shared w = Some e) /\ reps w' !! e = Some empty_rep /\
    (forall l r, reps w !! l = Some r -> reps w' !! l = Some r).
Proof using.
  intros Hc Hu Hs Hb. unfold RefSharedEmptyRep. destruct (shared w) as [e|] eqn:Es.
  - destruct (Hs e) as [He Hpos]; [done|]. destruct (Ref_spec w f e Hc Hpos) as (h & -> & Hh & Hr); [specialize (Hb e); lia|]. simpl.
    exists e, (with_heap w h). split; [done|]. split; [done|]. split; [done|].
    assert (reps (with_heap w h) = reps w) as Er by exact Hr.
    split; [apply (counts_unused w f h (bump f e)); try done|].
    { intros l Hl. unfold bump. rewrite Hl. destruct (decide (e = l)) as [<-|]; [lia|by rewrite hit_ne]. }
    split; [eapply counts_ext; [|exact Hh]; intros l; simpl; lia|]. rewrite Er. split; [by right|]. by split.
  - set (w1 := {| heap := <[next w := {| count := 1; rep := empty_rep |}]> (heap w); objects := objects w; shared := Some (next w); next := S (next w) |}).
    assert (heap w !! next w = None) as En by (by apply Hu).
    pose proof (alloc_counts (heap w) f (next w) empty_rep Hc En) as Hc1.
    pose proof (counts_zero _ _ _ Hc En) as Hz.
    destruct (Ref_spec w1 (bump f (next w)) (next w) Hc1) as (h & E & Hh & Hr).
    { unfold bump. rewrite hit_eq. lia. } { unfold bump. rewrite hit_eq. lia. }
    unfold alloc. cbn [heap objects shared next]. fold w1. rewrite E. simpl.
    exists (next w), (with_heap w1 h). split; [done|]. split; [done|]. split; [done|].
    assert (reps (with_heap w1 h) = reps w1) as Er by exact Hr.
    split; [|split; [|split; [by left|rewrite Er; unfold reps, w1; cbn [heap]; rewrite fmap_insert; split]]].
    + apply (counts_unused w1 (bump f (next w)) h (bump (bump f (next w)) (next w))); try done.
      * intros l Hl. cbn [w1 heap next] in *. rewrite lookup_insert_ne by lia. apply Hu. lia.
      * intros l Hl. unfold bump in *. lia.
    + eapply counts_ext; [|exact Hh]. intros l. unfold bump. lia.
    + by rewrite lookup_insert_eq.
    + intros l r Hl. rewrite lookup_insert_ne; [done|]. intros <-. by rewrite lookup_fmap, En in Hl.
Qed.

(** *** The operations keep the invariant *)

Lemma unused_reps w w' : unused w -> next w' = next w -> (forall l, heap w !! l = None -> heap w' !! l = None) -> unused w'.
Proof using. intros Hu En H l Hl. apply H, Hu. lia. Qed.

Lemma construct_spec id w : wf w -> objects w !! id = None ->
  exists w', construct id w = Some w' /\ wf w' /\ values w' = <[id := empty_rep]> (values w).
Proof using.
  intros Hw Hid. unfold construct, alloc. eexists. split; [done|].
  assert (heap w !! next w = None) as En by (by apply (wf_unused w Hw)).
  assert (forall l r, reps w !! l = Some r -> (next w =? l)%nat = false) as Hl.
  { intros l r Hr. apply Nat.eqb_neq. intros <-. unfold reps in Hr. by rewrite lookup_fmap, En in Hr. }
  split; [split|].
  - eapply counts_ext; [|exact (alloc_counts _ _ _ empty_rep (wf_counts w Hw) En)]. intros l.
    unfold total, bump. cbn [point with_objects objects shared]. rewrite pointers_new by done. lia.
  - intros l Hle. cbn [point with_objects heap next] in *. rewrite lookup_insert_ne by lia. apply (wf_unused w Hw). lia.
  - intros s Hs. unfold reps. cbn [point with_objects heap shared] in *. rewrite fmap_insert, lookup_insert_ne; [by apply (wf_shared w Hw)|].
    intros <-. pose proof (Hl _ _ (wf_shared w Hw _ Hs)). lia.
  - apply map_eq. intros id'. rewrite values_lookup. unfold reps. cbn [point with_objects objects heap]. rewrite fmap_insert.
    destruct (decide (id = id')) as [<-|Hne]; [by rewrite !lookup_insert_eq; simpl; rewrite lookup_insert_eq|].
    rewrite !lookup_insert_ne by done. rewrite values_lookup. destruct (objects w !! id') as [l|] eqn:E; [|done]. simpl.
    destruct (object_live w id' l Hw E) as (_ & r & Hr). rewrite lookup_insert_ne; [done|]. intros <-. pose proof (Hl _ _ Hr). lia.
Qed.

(** A pointer to a record that is there, counted once more. *)
Lemma copy_construct_spec id other w : wf w -> room w -> objects w !! id = None -> is_Some (objects w !! other) ->
  exists w' r, copy_construct id other w = Some w' /\ wf w' /\ values w !! other = Some r /\ values w' = <[id := r]> (values w).
Proof using.
  intros Hw Hroom Hid [l El]. unfold copy_construct. rewrite El. simpl.
  destruct (object_live w other l Hw El) as (Hpos & r & Hr). pose proof (total_room w l Hroom).
  destruct (Ref_spec (point id l w) (total w) l (wf_counts w Hw) Hpos) as (h & -> & Hh & Hreps); [lia|].
  assert (forall l', reps (with_heap (point id l w) h) !! l' = reps w !! l') as Er by (intros l'; unfold reps; cbn [with_heap heap]; by rewrite Hreps).
  eexists _, r. split; [done|]. split; [split|split].
  - eapply counts_ext; [|exact Hh]. intros l'. unfold total, bump. cbn [with_heap point with_objects objects shared]. rewrite pointers_new by done. lia.
  - apply (counts_unused (point id l w) (total w) h (bump (total w) l)); [exact (wf_unused w Hw)|exact (wf_counts w Hw)|exact Hh|].
    intros l' Hl'. unfold bump. destruct (decide (l = l')) as [<-|]; [lia|by rewrite hit_ne, Hl'].
  - intros s Hs. rewrite Er. by apply (wf_shared w Hw).
  - by rewrite values_lookup, El.
  - apply map_eq. intros id'. rewrite values_lookup. cbn [with_heap point with_objects objects].
    destruct (decide (id = id')) as [<-|Hne]; [rewrite !lookup_insert_eq; simpl; by rewrite Er|].
    rewrite !lookup_insert_ne by done. rewrite values_lookup. destruct (objects w !! id') as [l'|]; [|done]. simpl. by rewrite Er.
Qed.

(** What a move leaves behind, from a state where [f] counts the references but the one to come. *)
Lemma move_tail id other l w w0 f r : wf w ->
  objects w0 = <[id := l]> (objects w) -> shared w0 = shared w -> id <> other -> objects w !! other = Some l -> reps w0 !! l = Some r ->
  counts (heap w0) f -> unused w0 -> (forall s, shared w = Some s -> (0 < f s)%nat) -> (forall s, (0 < f s)%nat -> reps w0 !! s = reps w !! s) ->
  (forall l', Z.of_nat (f l') + 1 < 2 ^ 31) ->
  (forall e l', f l' + hit e l' = pointers (<[other := e]> (<[id := l]> (objects w))) l' + match shared w with Some s => hit s l' | None => 0 end)%nat ->
  exists e w1, RefSharedEmptyRep w0 = Some (e, w1) /\ wf (point other e w1) /\
    values (point other e w1) = <[other := empty_rep]> (<[id := r]> (values w)).
Proof using.
  intros Hw Ho Hs Hne El Hr Hc Hu Hsh Hsame Hb Hcount.
  destruct (RefSharedEmptyRep_spec w0 f Hc Hu) as (e & w1 & E & Eo & Es & Hu1 & Hc1 & Hcase & He & Hkeep).
  { intros s E. rewrite Hs in E. split; [rewrite Hsame by (by apply Hsh); by apply (wf_shared w Hw)|by apply Hsh]. }
  { exact Hb. }
  exists e, w1. split; [done|]. split; [split|].
  - eapply counts_ext; [|exact Hc1]. intros l'. unfold total, bump. cbn [point with_objects objects shared]. rewrite Eo, Ho, Es.
    specialize (Hcount e l'). rewrite Hs in *. destruct Hcase as [Hn|Hn]; rewrite Hn in *; lia.
  - exact Hu1.
  - intros s E1. cbn [point with_objects shared] in E1. rewrite Es in E1. injection E1 as <-. exact He.
  - apply map_eq. intros id'. rewrite values_lookup. cbn [point with_objects objects]. rewrite Eo, Ho.
    change (reps (with_objects w1 _)) with (reps w1).
    destruct (decide (other = id')) as [<-|Hne1]; [by rewrite !lookup_insert_eq|].
    rewrite (lookup_insert_ne _ other) by done. rewrite (lookup_insert_ne _ other id') by done.
    destruct (decide (id = id')) as [<-|Hne2]; [rewrite !lookup_insert_eq; simpl; by apply Hkeep|].
    rewrite !lookup_insert_ne by done. rewrite values_lookup. destruct (objects w !! id') as [l'|] eqn:E'; [|done]. simpl.
    destruct (object_live w id' l' Hw E') as (_ & r' & Hr'). rewrite Hr'. apply Hkeep.
    rewrite Hsame; [done|]. specialize (Hcount e l').
    assert (<[other := e]> (<[id := l]> (objects w)) !! id' = Some l') as E2 by (by rewrite !lookup_insert_ne).
    destruct (decide (e = l')) as [<-|Hne3].
    + pose proof (pointers_two _ other id' e (lookup_insert_eq _ _ _) E2 Hne1). rewrite hit_eq in Hcount. lia.
    + pose proof (pointers_pos _ _ _ E2). rewrite hit_ne in Hcount by done. lia.
Qed.

Lemma move_construct_spec id other w : wf w -> room w -> objects w !! id = None -> is_Some (objects w !! other) ->
  exists w' r, move_construct id other w = Some w' /\ wf w' /\ values w !! other = Some r /\
    values w' = <[other := empty_rep]> (<[id := r]> (values w)).
Proof using.
  intros Hw Hroom Hid [l El]. unfold move_construct. rewrite El. simpl.
  assert (id <> other) as Hne by congruence. destruct (object_live w other l Hw El) as (Hpos & r & Hr).
  destruct (move_tail id other l w (point id l w) (total w) r Hw) as (e & w1 & -> & Hw1 & Hv); try done.
  - exact (wf_counts w Hw).
  - exact (wf_unused w Hw).
  - intros s Hs. unfold total. rewrite Hs, hit_eq. lia.
  - intros l'. pose proof (total_room w l' Hroom). lia.
  - intros e l'. unfold total.
    pose proof (pointers_insert (<[id := l]> (objects w)) other l e l') as H1. rewrite lookup_insert_ne in H1 by done. specialize (H1 El).
    rewrite (pointers_new (objects w) id l l' Hid) in H1. lia.
  - exists (point other e w1), r. split; [done|]. split; [done|]. split; [|done]. by rewrite values_lookup, El.
Qed.

(** An object lets go of its record: what the others point to stays. *)
Lemma release id m w : wf w -> room w -> objects w !! id = Some m ->
  let g := fun l => (total w l - hit m l)%nat in
  exists h, Unref m w = Some (with_heap w h) /\ counts h g /\ unused (with_heap w h) /\
    (forall l, (0 < g l)%nat -> reps (with_heap w h) !! l = reps w !! l) /\
    (forall s, shared w = Some s -> (0 < g s)%nat) /\
    (forall id' l, id' <> id -> objects w !! id' = Some l -> (0 < g l)%nat).
Proof using.
  intros Hw Hroom Em g. destruct (object_live w id m Hw Em) as (Hpos & _). pose proof (total_room w m Hroom).
  assert (forall l, total w l = bump g m l) as Hg.
  { intros l. unfold bump, g. destruct (decide (m = l)) as [<-|]; [rewrite hit_eq; lia|rewrite hit_ne by done; lia]. }
  destruct (Unref_spec w (total w) g m (wf_counts w Hw) Hpos) as (h & -> & Hh & Hr); [lia|done|].
  exists h. split; [done|]. split; [done|]. split; [|split; [|split]].
  - apply (counts_unused w (total w) h g); [exact (wf_unused w Hw)|exact (wf_counts w Hw)|done|]. intros l Hl. unfold g. lia.
  - intros l Hl. rewrite reps_with_heap. apply Hr. destruct (decide (m = l)) as [<-|]; [by right|by left].
  - intros s Hs. unfold g, total. rewrite Hs, hit_eq. pose proof (pointers_pos _ _ _ Em).
    destruct (decide (m = s)) as [<-|]; [rewrite hit_eq; lia|rewrite hit_ne by done; lia].
  - intros id' l Hne El. unfold g, total. destruct (decide (m = l)) as [<-|].
    + pose proof (pointers_two _ id id' m Em El ltac:(congruence)). rewrite hit_eq. lia.
    + pose proof (pointers_pos _ _ _ El). rewrite hit_ne by done. lia.
Qed.

Lemma copy_assign_spec id other w : wf w -> room w -> is_Some (objects w !! id) -> is_Some (objects w !! other) ->
  exists w' r, copy_assign id other w = Some w' /\ wf w' /\ values w !! other = Some r /\ values w' = <[id := r]> (values w).
Proof using.
  intros Hw Hroom [m Em] [l El]. unfold copy_assign. destruct (object_live w other l Hw El) as (_ & r & Hr).
  assert (values w !! other = Some r) as Ev by (by rewrite values_lookup, El).
  destruct (Nat.eqb_spec id other) as [->|Hne].
  { exists w, r. split; [done|]. split; [done|]. split; [done|]. by rewrite insert_id. }
  rewrite Em. simpl. destruct (release id m w Hw Hroom Em) as (h & -> & Hh & Hu & Hreps & Hsh & Hothers). simpl. rewrite El. simpl.
  set (g := fun l => (total w l - hit m l)%nat) in *.
  assert (0 < g l)%nat as Hgl by (apply (Hothers other); done || congruence).
  pose proof (total_room w l Hroom).
  destruct (Ref_spec (point id l (with_heap w h)) g l Hh Hgl) as (h' & -> & Hh' & Hreps'); [unfold g; lia|].
  assert (forall l', reps (with_heap (point id l (with_heap w h)) h') !! l' = reps (with_heap w h) !! l') as Er
    by (intros l'; unfold reps at 1; cbn [with_heap heap]; by rewrite Hreps').
  eexists _, r. split; [done|]. split; [split|split; [done|]].
  - eapply counts_ext; [|exact Hh']. intros l'. unfold g, total, bump. cbn [with_heap point with_objects objects shared].
    pose proof (pointers_insert (objects w) id m l l' Em).
    pose proof (pointers_delete (objects w) id m l' Em). lia.
  - apply (counts_unused (point id l (with_heap w h)) g h' (bump g l)); [exact Hu|exact Hh|exact Hh'|].
    intros l' Hl'. unfold bump. destruct (decide (l = l')) as [<-|]; [lia|by rewrite hit_ne, Hl'].
  - intros s Hs. cbn [with_heap point with_objects shared] in Hs. rewrite Er, Hreps by (by apply Hsh). by apply (wf_shared w Hw).
  - apply map_eq. intros id'. rewrite values_lookup. cbn [with_heap point with_objects objects].
    destruct (decide (id = id')) as [<-|Hne']; [rewrite !lookup_insert_eq; simpl; by rewrite Er, Hreps|].
    rewrite !lookup_insert_ne by done. rewrite values_lookup. destruct (objects w !! id') as [l'|] eqn:E'; [|done]. simpl.
    rewrite Er. apply Hreps. apply (Hothers id'); done || congruence.
Qed.

Lemma move_assign_spec id other w : wf w -> room w -> is_Some (objects w !! id) -> is_Some (objects w !! other) ->
  exists w' r, move_assign id other w = Some w' /\ wf w' /\ values w !! other = Some r /\
    values w' = if (id =? other)%nat then values w else <[other := empty_rep]> (<[id := r]> (values w)).
Proof using.
  intros Hw Hroom [m Em] [l El]. unfold move_assign. destruct (object_live w other l Hw El) as (_ & r & Hr).
  assert (values w !! other = Some r) as Ev by (by rewrite values_lookup, El).
  destruct (Nat.eqb_spec id other) as [->|Hne]; [by exists w, r|].
  rewrite Em. simpl. destruct (release id m w Hw Hroom Em) as (h & -> & Hh & Hu & Hreps & Hsh & Hothers). simpl. rewrite El. simpl.
  set (g := fun l => (total w l - hit m l)%nat) in *.
  assert (0 < g l)%nat as Hgl by (apply (Hothers other); done || congruence).
  destruct (move_tail id other l w (point id l (with_heap w h)) g r Hw) as (e & w1 & -> & Hw1 & Hv); try done.
  - change (reps (point id l (with_heap w h))) with (reps (with_heap w h)). by rewrite Hreps.
  - intros l'. pose proof (total_room w l' Hroom). unfold g. lia.
  - intros e l'. unfold g, total.
    pose proof (pointers_insert (<[id := l]> (objects w)) other l e l') as H1. rewrite lookup_insert_ne in H1 by done. specialize (H1 El).
    pose proof (pointers_insert (objects w) id m l l' Em). pose proof (pointers_delete (objects w) id m l' Em). lia.
  - exists (point other e w1), r. done.
Qed.

Lemma destroy_spec id w : wf w -> room w -> is_Some (objects w !! id) ->
  exists w', destroy id w = Some w' /\ wf w' /\ values w' = delete id (values w).
Proof using.
  intros Hw Hroom [m Em]. unfold destroy. rewrite Em. simpl.
  destruct (release id m w Hw Hroom Em) as (h & -> & Hh & Hu & Hreps & Hsh & Hothers). simpl. eexists. split; [done|]. split; [split|].
  - eapply counts_ext; [|exact Hh]. intros l. unfold total. cbn [with_heap with_objects objects shared].
    pose proof (pointers_delete (objects w) id m l Em). lia.
  - exact Hu.
  - intros s Hs. cbn [with_heap with_objects shared] in Hs. change (reps (with_objects (with_heap w h) _)) with (reps (with_heap w h)).
    rewrite Hreps by (by apply Hsh). by apply (wf_shared w Hw).
  - apply map_eq. intros id'. rewrite values_lookup. cbn [with_heap with_objects objects].
    change (reps (with_objects (with_heap w h) _)) with (reps (with_heap w h)).
    destruct (decide (id = id')) as [<-|Hne]; [by rewrite !lookup_delete_eq|].
    rewrite !lookup_delete_ne by done. rewrite values_lookup. destruct (objects w !! id') as [l'|] eqn:E'; [|done]. simpl.
    apply Hreps. apply (Hothers id'); done || congruence.
Qed.

Lemma only_pointer w id l : objects w !! id = Some l -> total w l = 1%nat ->
  shared w <> Some l /\ forall id', id' <> id -> objects w !! id' <> Some l.
Proof using.
  intros El Ht. unfold total in Ht. pose proof (pointers_pos _ _ _ El). split.
  - intros Hs. rewrite Hs, hit_eq in Ht. lia.
  - intros id' Hne E'. pose proof (pointers_two _ id id' l El E' ltac:(congruence)). lia.
Qed.

(** [mutable_rep] gives a record of the same value that only this object points to. *)
Lemma mutable_rep_spec id l w r : wf w -> room w -> objects w !! id = Some l -> reps w !! l = Some r ->
  exists l' w', mutable_rep id w = Some (l', w') /\ wf w' /\ values w' = values w /\
    objects w' !! id = Some l' /\ reps w' !! l' = Some r /\ total w' l' = 1%nat.
Proof using.
  intros Hw Hroom El Hr. unfold mutable_rep. rewrite El. simpl.
  destruct (object_live w id l Hw El) as (Hpos & _).
  destruct (counts_lookup _ _ _ (wf_counts w Hw) Hpos) as (c & Ec & Hcount). rewrite Ec. simpl.
  assert (rep c = r) as Erep by (unfold reps in Hr; rewrite lookup_fmap, Ec in Hr; by injection Hr).
  rewrite Hcount, Erep. destruct (Z.eqb_spec (Z.of_nat (total w l)) 1) as [E1|E1]; cbn [negb].
  { exists l, w. split_and!; done || lia. }
  set (n := next w). assert (heap w !! n = None) as En by (by apply (wf_unused w Hw)).
  pose proof (counts_zero _ _ _ (wf_counts w Hw) En) as Hn0.
  assert (l <> n) as Hln by (intros ->; congruence).
  unfold alloc. fold n. set (w1 := {| heap := _; objects := _; shared := _; next := _ |}).
  pose proof (total_room w l Hroom).
  pose (g := fun l' => (total w l' + hit n l' - hit l l')%nat).
  destruct (Unref_spec w1 (bump (total w) n) g l) as (h & -> & Hh & Hreps).
  - exact (alloc_counts (heap w) (total w) n r (wf_counts w Hw) En).
  - unfold bump. lia.
  - unfold bump. rewrite hit_ne by done. lia.
  - intros l'. unfold bump, g. destruct (decide (l = l')) as [<-|]; [rewrite hit_eq, hit_ne by done; lia|rewrite (hit_ne l l') by done; lia].
  - simpl. assert (forall l' r', reps w !! l' = Some r' -> reps (with_heap w1 h) !! l' = Some r') as Hkeep.
    { intros l' r' Hr'. rewrite reps_with_heap, Hreps.
      - unfold reps, w1. cbn [heap]. rewrite fmap_insert, lookup_insert_ne; [done|]. intros <-. unfold reps in Hr'. by rewrite lookup_fmap, En in Hr'.
      - destruct (decide (l = l')) as [<-|]; [right|by left]. unfold g. rewrite hit_eq. lia. }
    assert (reps (with_heap w1 h) !! n = Some r) as Hrn.
    { rewrite reps_with_heap, Hreps by (by left). unfold reps, w1. cbn [heap]. by rewrite fmap_insert, lookup_insert_eq. }
    eexists n, _. split; [done|]. cbn [point with_objects with_heap objects shared heap].
    assert (forall l', total (point id n (with_heap w1 h)) l' = g l') as Htot.
    { intros l'. unfold total, g, total. cbn [point with_objects with_heap w1 objects shared].
      pose proof (pointers_insert (objects w) id l n l' El). pose proof (pointers_delete (objects w) id l l' El). lia. }
    split; [split|split; [|split; [|split]]].
    + eapply counts_ext; [|exact Hh]. intros l'. by rewrite Htot.
    + intros l' Hl'. cbn [point with_objects with_heap w1 next heap] in *.
      assert (h !! l' = None) as Hnone; [|exact Hnone].
      specialize (Hh l'). destruct (h !! l') eqn:E; [|done]. exfalso.
      assert (total w l' = 0)%nat as Hz by (apply (counts_zero (heap w)); [exact (wf_counts w Hw)|apply (wf_unused w Hw); lia]).
      unfold g in Hh. rewrite Hz, (hit_ne n) in Hh by (unfold n; lia). lia.
    + intros s Hs. change (reps (point id n (with_heap w1 h))) with (reps (with_heap w1 h)). apply Hkeep. by apply (wf_shared w Hw).
    + apply map_eq. intros id'. rewrite !values_lookup. cbn [point with_objects with_heap w1 objects].
      change (reps (point id n (with_heap w1 h))) with (reps (with_heap w1 h)).
      destruct (decide (id = id')) as [<-|Hne]; [rewrite lookup_insert_eq, El; simpl; by rewrite Hr|].
      rewrite lookup_insert_ne by done. destruct (objects w !! id') as [l'|] eqn:E'; [|done]. simpl.
      destruct (object_live w id' l' Hw E') as (_ & r' & Hr'). rewrite Hr'. by apply Hkeep.
    + by rewrite lookup_insert_eq.
    + exact Hrn.
    + rewrite Htot. unfold g. rewrite Hn0, hit_eq, hit_ne by done. lia.
Qed.

(** Writing through the only pointer to a record changes one value. *)
Lemma write_rep_spec id l w r r' f : wf w -> objects w !! id = Some l -> reps w !! l = Some r -> total w l = 1%nat -> f r = Some r' ->
  exists w', write_rep l f w = Some w' /\ wf w' /\ values w' = <[id := r']> (values w).
Proof using.
  intros Hw El Hr Ht Hf. destruct (only_pointer w id l El Ht) as [Hs Hothers]. unfold write_rep.
  apply reps_lookup in Hr as (c & Ec & <-). rewrite Ec. simpl. rewrite Hf. simpl. eexists. split; [done|]. split; [split|].
  - intros l'. cbn [with_heap heap]. change (total (with_heap w _) l') with (total w l').
    pose proof (wf_counts w Hw l') as Hc. destruct (decide (l = l')) as [<-|Hne]; [rewrite lookup_insert_eq; rewrite Ec in Hc; exact Hc|].
    rewrite lookup_insert_ne by done. exact Hc.
  - intros l' Hl'. cbn [with_heap heap next] in *. rewrite lookup_insert_ne; [by apply (wf_unused w Hw)|]. intros <-.
    rewrite (wf_unused w Hw) in Ec; done.
  - intros s E. cbn [with_heap shared] in E. rewrite reps_with_heap, lookup_insert_ne by congruence.
    pose proof (wf_shared w Hw s E) as He. unfold reps in He. by rewrite lookup_fmap in He.
  - apply map_eq. intros id'. rewrite values_lookup. cbn [with_heap objects]. destruct (decide (id = id')) as [<-|Hne].
    + rewrite El, lookup_insert_eq. simpl. rewrite reps_with_heap, lookup_insert_eq. done.
    + rewrite lookup_insert_ne, values_lookup by done. destruct (objects w !! id') as [l'|] eqn:E'; [|done]. simpl.
      rewrite reps_with_heap, lookup_insert_ne by (intros <-; by apply (Hothers id')). unfold reps. by rewrite lookup_fmap.
Qed.

End Counting.

Section Steps.
Context `{!Checksums}.

Lemma Normalize_spec id w r r' : wf w -> room w -> values w !! id = Some r -> value_normalize r = Some r' ->
  exists w', Normalize id w = Some w' /\ wf w' /\ values w' = <[id := r']> (values w).
Proof.
  intros Hw Hroom Hv Hn. pose proof Hv as Hv2. rewrite values_lookup in Hv. destruct (objects w !! id) as [l|] eqn:El; [|done]. simpl in Hv.
  unfold Normalize, get_rep. rewrite El. simpl. pose proof Hv as Hr. apply reps_lookup in Hv as (c & Ec & E). rewrite Ec. simpl. rewrite E.
  unfold value_normalize in Hn. destruct (_ || _).
  - injection Hn as <-. exists w. split; [done|]. split; [done|]. by rewrite insert_id.
  - destruct (mutable_rep_spec id l w r Hw Hroom El Hr) as (l' & w' & -> & Hw' & Hvals & El' & Hr' & Ht). simpl.
    rewrite <- Hvals. by apply (write_rep_spec id l' w' r r' normalize_rep).
Qed.

Lemma mutate_spec id f w r : wf w -> room w -> values w !! id = Some r ->
  exists w', mutate id f w = Some w' /\ wf w' /\ values w' = <[id := f r]> (values w).
Proof.
  intros Hw Hroom Hv. rewrite values_lookup in Hv. destruct (objects w !! id) as [l|] eqn:El; [|done]. simpl in Hv.
  unfold mutate. destruct (mutable_rep_spec id l w r Hw Hroom El Hv) as (l' & w' & -> & Hw' & Hvals & El' & Hr' & Ht). simpl.
  rewrite <- Hvals. by apply (write_rep_spec id l' w' r (f r) (fun r => Some (f r))).
Qed.

Lemma Poison_spec id w r : wf w -> room w -> values w !! id = Some r ->
  exists w', Poison id w = Some w' /\ wf w' /\ values w' = <[id := poison_rep r]> (values w).
Proof. apply (mutate_spec id poison_rep). Qed.

Lemma there_some {A} (m : gmap nat A) id : there m id = true <-> is_Some (m !! id).
Proof. unfold there. destruct (m !! id); [split; [by eexists|done]|split; [done|by intros [? [=]]]]. Qed.
Lemma there_none {A} (m : gmap nat A) id : negb (there m id) = true <-> m !! id = None.
Proof. unfold there. by destruct (m !! id). Qed.

(** Every operation does to the objects what it does to values. *)
Lemma step_spec o w m : wf w -> room w -> applies o (objects w) = true -> value_step o (values w) = Some m ->
  exists w', step o w = Some w' /\ wf w' /\ values w' = m.
Proof.
  intros Hw Hroom Ha Hm. destruct o as [id|id other|id other|id other|id other|id|id|id|id f]; simpl in *;
    rewrite ?andb_true_iff, ?there_none, ?there_some in Ha.
  - injection Hm as <-. by apply construct_spec.
  - destruct Ha as [H1 H2]. destruct (copy_construct_spec id other w Hw Hroom H1 H2) as (w' & r & E & Hw' & Ev & Ev').
    rewrite Ev in Hm. injection Hm as <-. by exists w'.
  - destruct Ha as [H1 H2]. destruct (move_construct_spec id other w Hw Hroom H1 H2) as (w' & r & E & Hw' & Ev & Ev').
    rewrite Ev in Hm. injection Hm as <-. by exists w'.
  - destruct Ha as [H1 H2]. destruct (copy_assign_spec id other w Hw Hroom H1 H2) as (w' & r & E & Hw' & Ev & Ev').
    rewrite Ev in Hm. injection Hm as <-. by exists w'.
  - destruct Ha as [H1 H2]. destruct (move_assign_spec id other w Hw Hroom H1 H2) as (w' & r & E & Hw' & Ev & Ev').
    exists w'. split; [done|]. split; [done|]. rewrite Ev'. destruct (id =? other)%nat; [by injection Hm|].
    rewrite Ev in Hm. by injection Hm.
  - injection Hm as <-. by apply destroy_spec.
  - destruct (values w !! id) as [r|] eqn:E; [|done]. simpl in Hm. destruct (value_normalize r) as [r'|] eqn:En; [|done].
    injection Hm as <-. by apply (Normalize_spec id w r r').
  - destruct (values w !! id) as [r|] eqn:E; [|done]. injection Hm as <-. by apply Poison_spec.
  - destruct (values w !! id) as [r|] eqn:E; [|done]. injection Hm as <-. by apply mutate_spec.
Qed.

Lemma values_dom w : wf w -> dom (values w) = dom (objects w).
Proof. intros Hw. apply set_eq. intros id. rewrite !elem_of_dom. by apply values_some. Qed.

Lemma there_values w id : wf w -> there (values w) id = there (objects w) id.
Proof. intros Hw. apply eq_bool_prop_intro. rewrite !Is_true_true, !there_some. by apply values_some. Qed.

Lemma applies_values o w : wf w -> applies o (values w) = applies o (objects w).
Proof. intros Hw. destruct o; simpl; by rewrite ?there_values. Qed.

Lemma room_values w : wf w -> Z.of_nat (size (values w)) + 3 < 2 ^ 31 -> room w.
Proof. intros Hw. unfold room. by rewrite <- !size_dom, values_dom. Qed.

(** A sequence of operations each of which applies, with fewer than [2 ^ 31 - 3] objects at a time. *)
Fixpoint legal (os : list op) (m : gmap nat Rep) : bool :=
  match os with
  | [] => true
  | o :: os => applies o m && (Z.of_nat (size m) + 3 <? 2 ^ 31) && match value_step o m with Some m' => legal os m' | None => false end
  end.

Lemma run_spec os w : wf w -> legal os (values w) = true -> exists w', run os w = Some w' /\ wf w' /\ value_run os (values w) = Some (values w').
Proof.
  revert w. induction os as [|o os IH]; intros w Hw Hl; simpl in *; [by exists w|].
  apply andb_true_iff in Hl as [[Ha Hsize]%andb_true_iff Hl]. destruct (value_step o (values w)) as [m|] eqn:Em; [|done].
  rewrite applies_values in Ha by done. apply Z.ltb_lt in Hsize.
  destruct (step_spec o w m Hw (room_values w Hw Hsize) Ha Em) as (w1 & -> & Hw1 & <-). simpl. by apply IH.
Qed.

Lemma initial_wf : wf initial.
Proof.
  split.
  - intros l. simpl. rewrite lookup_empty. unfold total, pointers. simpl. by rewrite map_filter_empty.
  - intros l _. apply lookup_empty.
  - done.
Qed.

(** ** What the record means *)

Context `{!ChecksumsOk}.

(** The record of a cord whose text is [full] without [pre]. *)
Definition chunk_of (full : list Z) (n : nat) : PrefixCrc := {| length_ := Z.of_nat n; crc := checksum (take n full) |}.
Definition represents (pre full : list Z) (lens : list nat) (r : Rep) : Prop :=
  Forall byte_ok full /\ Z.of_nat (length full) < 2 ^ 64 /\ pre = take (length pre) full /\
  removed_prefix r = chunk_of full (length pre) /\ prefix_crc r = chunk_of full <$> lens /\
  Forall (fun n => (length pre <= n <= length full)%nat) lens /\ (lens = [] \/ list.last lens = Some (length full)).

Lemma remove_spec pre full n : Forall byte_ok full -> Z.of_nat (length full) < 2 ^ 64 -> pre = take (length pre) full ->
  (length pre <= n <= length full)%nat ->
  remove_prefix_crc (checksum pre) (checksum (take n full)) (usub 64 (Z.of_nat n) (Z.of_nat (length pre))) =
    Some (checksum (take (n - length pre) (drop (length pre) full))) /\
  usub 64 (Z.of_nat n) (Z.of_nat (length pre)) = Z.of_nat (n - length pre).
Proof.
  intros Hb Hl Hpre Hn. assert (usub 64 (Z.of_nat n) (Z.of_nat (length pre)) = Z.of_nat (n - length pre)) as Es.
  { unfold usub. rewrite wrap_small by lia. lia. }
  split; [|done]. rewrite Es.
  assert (take n full = pre ++ take (n - length pre) (drop (length pre) full)) as ->.
  { rewrite Hpre at 1. rewrite take_take_drop. f_equal. lia. }
  set (rest := take (n - length pre) (drop (length pre) full)).
  assert (length rest = n - length pre)%nat as <- by (unfold rest; rewrite length_take, length_drop; lia).
  apply remove_prefix_crc_ok.
  - rewrite Hpre. by apply Forall_take.
  - by apply Forall_take, Forall_drop.
  - unfold rest. rewrite length_take, length_drop. lia.
Qed.

Lemma chunk_of_pre pre full : pre = take (length pre) full -> chunk_of full (length pre) = {| length_ := Z.of_nat (length pre); crc := checksum pre |}.
Proof. intros Hpre. unfold chunk_of. by rewrite <- Hpre. Qed.

Lemma normalized_iff pre full lens r : represents pre full lens r -> IsNormalized r = (length pre =? 0)%nat.
Proof. intros (_ & _ & _ & Er & _). unfold IsNormalized. rewrite Er. simpl. destruct (Nat.eqb_spec (length pre) 0); lia. Qed.

Lemma Checksum_spec pre full lens r : represents pre full lens r -> lens <> [] ->
  Checksum r = Some (checksum (drop (length pre) full)).
Proof.
  intros Hr Hne. pose proof (normalized_iff _ _ _ _ Hr) as En.
  destruct Hr as (Hb & Hl & Hpre & Er & Ec & Hlens & Hlast). destruct Hlast as [|Hlast]; [done|].
  unfold Checksum. rewrite Ec, fmap_last, Hlast, En, Er. simpl. destruct (Nat.eqb_spec (length pre) 0) as [E0|E0].
  - by rewrite E0, take_ge by lia.
  - rewrite <- Hpre. destruct (remove_spec pre full (length full) Hb Hl Hpre) as [-> _].
    + rewrite Hpre, length_take. lia.
    + by rewrite take_ge by (rewrite length_drop; lia).
Qed.

Lemma Nth_spec pre full lens r i n : represents pre full lens r -> lens !! i = Some n ->
  NormalizedPrefixCrcAtNthChunk r i = Some (chunk_of (drop (length pre) full) (n - length pre)).
Proof.
  intros Hr Hi. pose proof (normalized_iff _ _ _ _ Hr) as En.
  destruct Hr as (Hb & Hl & Hpre & Er & Ec & Hlens & _).
  pose proof (Forall_lookup_1 _ _ _ _ Hlens Hi) as Hn. unfold NormalizedPrefixCrcAtNthChunk. rewrite Ec, list_lookup_fmap, Hi. simpl. rewrite En, Er. simpl.
  destruct (Nat.eqb_spec (length pre) 0) as [E0|E0].
  - unfold chunk_of. rewrite E0, Nat.sub_0_r. done.
  - rewrite <- Hpre. destruct (remove_spec pre full n Hb Hl Hpre Hn) as [-> ->]. done.
Qed.

Lemma normalize_chunks_spec pre full lens : Forall byte_ok full -> Z.of_nat (length full) < 2 ^ 64 -> pre = take (length pre) full ->
  Forall (fun n => (length pre <= n <= length full)%nat) lens ->
  normalize_chunks (chunk_of full (length pre)) (chunk_of full <$> lens) =
    Some (chunk_of (drop (length pre) full) <$> ((fun n => n - length pre)%nat <$> lens)).
Proof.
  intros Hb Hl Hpre Hlens. assert (crc (chunk_of full (length pre)) = checksum pre) as Ecrc by (simpl; by rewrite <- Hpre).
  assert (length_ (chunk_of full (length pre)) = Z.of_nat (length pre)) as Elen by done.
  set (removed := chunk_of full (length pre)) in *. clearbody removed.
  induction Hlens as [|n lens Hn Hlens IH]; [done|]. cbn [fmap list_fmap normalize_chunks]. rewrite Ecrc, Elen.
  cbn [chunk_of length_ crc]. destruct (remove_spec pre full n Hb Hl Hpre Hn) as [-> ->]. simpl in *. by rewrite IH.
Qed.

(** [Normalize] drops the removed prefix from the record and keeps its text. *)
Lemma normalize_spec pre full lens r : represents pre full lens r -> lens <> [] ->
  exists r', value_normalize r = Some r' /\ IsNormalized r' = true /\
    represents [] (drop (length pre) full) ((fun n => n - length pre)%nat <$> lens) r'.
Proof.
  intros Hr Hne. pose proof (normalized_iff _ _ _ _ Hr) as En. pose proof Hr as (Hb & Hl & Hpre & Er & Ec & Hlens & Hlast).
  unfold value_normalize, NumChunks. rewrite En, Ec, length_fmap.
  assert ((length lens =? 0)%nat = false) as -> by (by destruct lens). rewrite orb_false_r.
  destruct (Nat.eqb_spec (length pre) 0) as [E0|E0].
  - exists r. rewrite E0, drop_0. split; [done|]. split; [exact En|]. apply nil_length_inv in E0. subst pre.
    replace ((fun n => n - 0)%nat <$> lens) with lens; [done|]. rewrite <- (list_fmap_id lens) at 1. apply list_fmap_ext. intros; simpl; lia.
  - unfold normalize_rep. rewrite Er, Ec, normalize_chunks_spec by done. simpl. eexists. split; [done|]. split; [done|].
    split; [by apply Forall_drop|]. split; [rewrite length_drop; lia|]. split; [done|]. split; [|split; [done|split]].
    + unfold chunk_of, empty_prefix. simpl. by rewrite checksum_nil.
    + apply Forall_fmap. eapply Forall_impl; [|exact Hlens]. intros n Hn. cbv beta in Hn. simpl. rewrite length_drop. lia.
    + right. rewrite fmap_last. destruct Hlast as [|Hlast]; [done|]. rewrite Hlast. simpl. by rewrite length_drop.
Qed.

End Steps.

(** ** With the checksums of crypto/crc32c.cc *)

#[export] Instance crc32c_checksums (engine : CRC32) : Checksums := {|
  remove_prefix_crc := remove_crc32c_prefix engine;
  checksum := crc32c
|}.

Lemma crc32c_checksums_ok engine : engine_ok engine -> @ChecksumsOk (crc32c_checksums engine).
Proof. intros He. split; [apply crc32c_nil|]. intros p q Hp Hq Hl. by apply remove_prefix_spec. Qed.

(** [Poison] is the scrambling of crypto/internal/crc.cc. *)
Lemma poison_chunk_scrambles chunk : 0 <= crc chunk < 2 ^ 32 -> crc (poison_chunk chunk) = Scramble (crc chunk).
Proof.
  intros Hc. unfold poison_chunk, Scramble. cbn [crc]. rewrite mask32.
  assert (wrap 32 (uadd 64 (crc chunk) kScrambleLo) = uadd 32 (crc chunk) 0x2e76e41b) as ->.
  { unfold uadd. rewrite wrap_wrap_narrow by lia. apply (wrap_eq_intro 32 _ _ 0xf9ce6030); [lia|].
    change kScrambleLo with (0x2e76e41b + 0xf9ce6030 * 2 ^ 32). lia. }
  assert (0 <= uadd 32 (crc chunk) 0x2e76e41b < 2 ^ 32) as Hx by (apply wrap_range; lia).
  rewrite wrap_small by (apply RotateRight_range; [lia|done]).
  unfold rotr, Bits.RotateRight, Crc.RotateRight. rewrite Z.lor_comm. f_equal.
  change (Z.land 17 (32 - 1)) with 17. change (MaskOfLength 32 (32 - 17)) with (Z.ones 15).
  rewrite Z.land_ones, ushr_val by lia. change (2 ^ 17) with 131072. change (2 ^ 15) with 32768. unfold wrap.
  rewrite !Z.mod_small by zlia. done.
Qed.

(** C31: The states of cords behave as if each had a record of its own, although they share reference-counted records that
    are copied before they are changed: any sequence of constructions, copies, moves, assignments (of an object to itself
    too), normalizations, poisonings, writes of any value through [mutable_rep()] (chunks added, a removed prefix set) and
    destructions runs without touching a record that was freed, gives every object the value the same operations give on
    plain values, so that a normalization or a write of one object never shows in another one that shares its record, and
    ends with the count of every record equal to the number of references to it: once all objects are destroyed, only the
    shared empty record is left. *)
Theorem cord_state_refines_values `{!Checksums} (os : list op) : legal os ∅ = true ->
  exists w, run os initial = Some w /\ wf w /\ value_run os ∅ = Some (values w) /\
    (forall l r, heap w !! l = Some r -> count r = Z.of_nat (total w l) /\ (0 < total w l)%nat) /\
    (values w = ∅ -> forall l r, heap w !! l = Some r -> shared w = Some l /\ rep r = empty_rep).
Proof.
  intros Hl. destruct (run_spec os initial initial_wf) as (w & E & Hw & Ev); [exact Hl|].
  exists w. split; [done|]. split; [done|]. split; [exact Ev|]. split.
  - intros l r Er. pose proof (wf_counts w Hw l) as Hc. by rewrite Er in Hc.
  - intros He l r Er. assert (objects w = ∅) as Ho.
    { apply dom_empty_inv_L. by rewrite <- values_dom, He, dom_empty_L. }
    pose proof (wf_counts w Hw l) as Hc. rewrite Er in Hc. unfold total in Hc. rewrite Ho in Hc. unfold pointers in Hc. rewrite map_filter_empty, map_size_empty in Hc.
    destruct (shared w) as [s|] eqn:Es; [|lia]. destruct (decide (s = l)) as [->|Hne]; [|rewrite hit_ne in Hc by done; lia].
    split; [done|]. pose proof (wf_shared w Hw l Es) as Hr. unfold reps in Hr. rewrite lookup_fmap, Er in Hr. by injection Hr.
Qed.

(** Two objects share a record with a removed prefix, one is normalized, the other is poisoned, moved from and assigned. *)
Definition demo : list op :=
  [Construct 0; DoMutate 0 (push_chunk {| length_ := 5; crc := 7 |}); DoMutate 0 (set_removed_prefix {| length_ := 2; crc := 1 |});
   CopyConstruct 1 0; DoNormalize 1; CopyConstruct 3 1; DoPoison 1; MoveConstruct 2 1; CopyAssign 1 2; MoveAssign 0 2;
   DoNormalize 0; Destroy 2].

(** Checksums that are easy to evaluate: sums of bytes. *)
Definition sum_checksums : Checksums := {|
  remove_prefix_crc := fun pre full _ => Some (usub 32 full pre);
  checksum := fun l => wrap 32 (fold_right Z.add 0 l)
|}.

Lemma cord_state_refines_values_witness : exists w, @run sum_checksums demo initial = Some w /\
  @value_run sum_checksums demo ∅ = Some (values w) /\
  values w !! 3%nat = Some {| removed_prefix := empty_prefix; prefix_crc := [{| length_ := 3; crc := 6 |}] |}.
Proof.
  destruct (@cord_state_refines_values sum_checksums demo) as (w & Er & _ & Ev & _).
  - vm_compute. reflexivity.
  - exists w. split; [exact Er|]. split; [exact Ev|]. vm_compute in Er. injection Er as <-. vm_compute. reflexivity.
Defined.

(** C32: The record of a cord means what it says: when its chunks are checksums of prefixes of a text [full] from which
    the prefix [pre] was removed, the checksum is that of the rest of the text, a chunk is the checksum of the prefix of
    the rest, and normalizing gives a record of the rest alone that says the same; the checksums of removed prefixes
    come from the engine of crypto/crc32c.cc. *)
Theorem cord_checksum_correct uninit : exists engine, InitTables uninit = Some engine /\
  let _ := crc32c_checksums engine in
  forall pre full lens r, represents pre full lens r -> lens <> [] ->
    Checksum r = Some (crc32c (drop (length pre) full)) /\
    (forall i n, lens !! i = Some n ->
       NormalizedPrefixCrcAtNthChunk r i = Some (chunk_of (drop (length pre) full) (n - length pre))) /\
    exists r', value_normalize r = Some r' /\ IsNormalized r' = true /\
      represents [] (drop (length pre) full) ((fun n => n - length pre)%nat <$> lens) r'.
Proof.
  destruct (InitTables_spec uninit) as (engine & E & He). exists engine. split; [done|]. intros sums pre full lens r Hr Hne.
  pose proof (crc32c_checksums_ok engine He) as Hok. split; [exact (Checksum_spec pre full lens r Hr Hne)|]. split.
  - intros i n Hi. by apply (Nth_spec pre full lens).
  - by apply normalize_spec.
Qed.

Lemma cord_checksum_correct_witness : exists engine, InitTables (fun _ _ => 0) = Some engine /\
  @Checksum (crc32c_checksums engine)
    {| removed_prefix := {| length_ := 2; crc := crc32c [49; 50] |};
       prefix_crc := [{| length_ := 3; crc := crc32c [49; 50; 51] |}; {| length_ := 5; crc := crc32c [49; 50; 51; 52; 53] |}] |} =
    Some (crc32c [51; 52; 53]).
Proof.
  destruct (cord_checksum_correct (fun _ _ => 0)) as (engine & E & H). exists engine. split; [exact E|].
  destruct (H [49; 50] [49; 50; 51; 52; 53] [3%nat; 5%nat]
    {| removed_prefix := {| length_ := 2; crc := crc32c [49; 50] |};
       prefix_crc := [{| length_ := 3; crc := crc32c [49; 50; 51] |}; {| length_ := 5; crc := crc32c [49; 50; 51; 52; 53] |}] |}) as [H1 _].
  - split; [repeat (constructor; [split; [done|reflexivity]|]); constructor|].
    split; [reflexivity|]. split; [reflexivity|]. split; [reflexivity|]. split; [reflexivity|]. split; [|right; reflexivity].
    repeat (constructor; [simpl; lia|]). constructor.
  - done.
  - exact H1.
Defined.
