(* ===== verification/Levenshtein.v ===== *)
(** * Edit distance (strings/internal/damerau_levenshtein_distance.cc)

    [CappedDamerauLevenshteinDistance] fills a band of a 102 by 102 array of bytes; a cell that was not written is
    [None], as is one outside of the array. It is proved to compute the distance of the recursion over the two strings
    (insertions, deletions, replacements, swaps of neighbours), cut at one more than the cutoff. *)
From stdpp Require Import gmap.
From S2P Require Import Prelude Words Loops.

(** ** The code *)

Definition MAX_SIZE : Z := 100.

(** The array [d]. *)
Definition grid : Type := gmap (Z * Z) Z.
Definition in_grid (i j : Z) : bool := (0 <=? i) && (i <? MAX_SIZE + 2) && (0 <=? j) && (j <? MAX_SIZE + 2).
Definition cell (d : grid) (i j : Z) : option Z := if in_grid i j then d !! (i, j) else None.
Definition set_cell (d : grid) (i j v : Z) : option grid := if in_grid i j then Some (<[(i, j) := v]> d) else None.

(** A character of a string. *)
Definition char_at (s : list Z) (i : Z) : option Z := if i <? 0 then None else s !! Z.to_nat i.

(** [std::iota(d[0].begin(), d[0].begin() + n, 0)] *)
Definition iota_row (n : Z) (d : grid) : option grid :=
  '(_, d) ← while_ (Z.to_nat n) (fun '(j, _) => j <? n) (fun '(j, d) => d ← set_cell d 0 j (wrap 8 j); Some (j + 1, d)) (0, d);
  Some d.

(** The cost of a swap of the last two characters. *)
Definition transposition (_cutoff : Z) (s1 s2 : list Z) (d : grid) (i j : Z) : option Z :=
  let transposition_distance := wrap 8 (_cutoff + 1) in
  if (1 <? i) && (1 <? j) then
    a ← char_at s1 (i - 1); b ← char_at s2 (j - 2);
    if a =? b then
      a ← char_at s1 (i - 2); b ← char_at s2 (j - 1);
      if a =? b then v ← cell d (i - 2) (j - 2); Some (wrap 8 (v + 1)) else Some transposition_distance
    else Some transposition_distance
  else Some transposition_distance.

(** The body of the inner loop. *)
Definition fill_cell (_cutoff : Z) (s1 s2 : list Z) (i j : Z) (d : grid) : option grid :=
  deletion ← cell d (i - 1) j;
  insertion ← cell d i (j - 1);
  a ← char_at s1 (i - 1); b ← char_at s2 (j - 1);
  diagonal ← cell d (i - 1) (j - 1);
  let mismatched_tail_cost := if a =? b then 0 else 1 in
  transposition_distance ← transposition _cutoff s1 s2 d i j;
  set_cell d i j
    (Z.min (Z.min (Z.min (Z.min (wrap 8 (_cutoff + 1)) (wrap 8 (deletion + 1))) (wrap 8 (insertion + 1)))
      (wrap 8 (diagonal + mismatched_tail_cost))) transposition_distance).

(** The body of the outer loop. *)
Definition fill_row (_cutoff lower_diag upper_diag : Z) (s1 s2 : list Z) (i : Z) (d : grid) : option grid :=
  let cutoff_plus_1 := wrap 8 (_cutoff + 1) in
  '(j_begin, d) ←
    (if lower_diag <? i then d ← set_cell d i (i - lower_diag - 1) cutoff_plus_1; Some (i - lower_diag, d)
     else d ← set_cell d i 0 (wrap 8 i); Some (1, d));
  let j_end := i + upper_diag in
  '(j_end, d) ←
    (if Z.of_nat (length s2) <? j_end then Some (Z.of_nat (length s2), d)
     else d ← set_cell d i (j_end + 1) cutoff_plus_1; Some (j_end, d));
  '(_, d) ← while_ (Z.to_nat MAX_SIZE) (fun '(j, _) => j <=? j_end)
    (fun '(j, d) => d ← fill_cell _cutoff s1 s2 i j d; Some (j + 1, d)) (j_begin, d);
  Some d.

Definition CappedDamerauLevenshteinDistance (s1 s2 : list Z) (cutoff : Z) : option Z :=
  let _cutoff := Z.min MAX_SIZE cutoff in
  let cutoff_plus_1 := wrap 8 (_cutoff + 1) in
  let '(s1, s2) := if (length s2 <? length s1)%nat then (s2, s1) else (s1, s2) in
  let size1 := Z.of_nat (length s1) in
  let size2 := Z.of_nat (length s2) in
  if (size1 + _cutoff <? size2) || (MAX_SIZE <? size2) then Some cutoff_plus_1
  else if size1 =? 0 then Some (wrap 8 size2)
  else
    let lower_diag := wrap 8 (_cutoff - wrap 8 (size2 - size1)) in
    let upper_diag := _cutoff in
    d ← iota_row (upper_diag + 1) ∅;
    d ← set_cell d 0 cutoff_plus_1 cutoff_plus_1;
    '(_, d) ← while_ (length s1) (fun '(i, _) => i <=? size1)
      (fun '(i, d) => d ← fill_row _cutoff lower_diag upper_diag s1 s2 i d; Some (i + 1, d)) (1, d);
    cell d size1 size2.

(** ** The distance *)

(** By recursion over the reversed strings: the distance of two strings from those of their prefixes. *)
Fixpoint dist (n : nat) (a b : list Z) : Z :=
  match n with
  | O => 0
  | S n =>
      match a, b with
      | [], _ => Z.of_nat (length b)
      | _, [] => Z.of_nat (length a)
      | x :: a', y :: b' =>
          let deletion := dist n a' b + 1 in
          let insertion := dist n a b' + 1 in
          let replacement := dist n a' b' + (if x =? y then 0 else 1) in
          let swap := match a', b' with
                      | x' :: a'', y' :: b'' => if (x =? y') && (x' =? y) then dist n a'' b'' + 1 else insertion
                      | _, _ => insertion
                      end in
          Z.min (Z.min (Z.min deletion insertion) replacement) swap
      end
  end.
(** The optimal string alignment distance of two strings. *)
Definition distance (s1 s2 : list Z) : Z := dist (length s1 + length s2) (rev s1) (rev s2).

(** ** The recursion *)

Lemma dist_fuel n a b : (length a + length b <= n)%nat -> dist n a b = dist (length a + length b) a b.
Proof.
  revert a b. induction n as [n IH] using lt_wf_ind. intros a b Hn.
  destruct (decide (n = length a + length b)%nat) as [->|Hne]; [done|].
  destruct n as [|n]; [lia|]. destruct a as [|x a]; [cbn [length Nat.add] in *; by destruct b|].
  destruct b as [|y b]; [cbn [length] in *; by rewrite Nat.add_0_r|]. cbn [length] in *.
  rewrite Nat.add_succ_l. cbn [dist].
  assert (forall a' b' k, (k <= n)%nat -> (length a' + length b' <= k)%nat -> dist k a' b' = dist (length a' + length b') a' b') as E by (intros; apply IH; lia).
  rewrite (E a (y :: b) n), (E (x :: a) b n), (E a b n) by (cbn [length]; lia).
  rewrite (E a (y :: b) (length a + S (length b))%nat), (E (x :: a) b (length a + S (length b))%nat), (E a b (length a + S (length b))%nat) by (cbn [length]; lia).
  destruct a as [|x' a]; [done|]. destruct b as [|y' b]; [done|]. cbn [length] in *.
  by rewrite (E a b n), (E a b (S (length a) + S (S (length b)))%nat) by lia.
Qed.

Section Distance.
Variables s1 s2 : list Z.
#[local] Abbreviation m := (length s1).
#[local] Abbreviation n := (length s2).

(** The distance of the first [i] characters of one from the first [j] of the other. *)
Definition D (i j : nat) : Z := distance (take i s1) (take j s2).

(** The cheapest swap. *)
Definition swap_cost (i j : nat) : option Z :=
  match i, j with
  | S (S i), S (S j) => if decide (s1 !! S i = s2 !! j /\ s1 !! i = s2 !! S j) then Some (D i j + 1) else None
  | _, _ => None
  end.

Lemma rev_take_S (s : list Z) i x : s !! i = Some x -> rev (take (S i) s) = x :: rev (take i s).
Proof. intros E. rewrite (take_S_r _ _ _ E), rev_app_distr. done. Qed.

Lemma D_fuel k i j : (i <= m)%nat -> (j <= n)%nat -> (i + j <= k)%nat -> dist k (rev (take i s1)) (rev (take j s2)) = D i j.
Proof.
  intros Hi Hj Hk. unfold D, distance. rewrite dist_fuel by (rewrite !length_rev, !length_take; lia). by rewrite !length_rev.
Qed.

Lemma D_0_l j : (j <= n)%nat -> D 0 j = Z.of_nat j.
Proof.
  intros Hj. unfold D, distance. rewrite take_0. change (rev []) with (@nil Z). rewrite dist_fuel by (rewrite !length_rev; lia).
  cbn [length Nat.add]. rewrite length_rev, length_take, Nat.min_l by lia. destruct j; cbn [dist]; [done|].
  by rewrite length_rev, length_take, Nat.min_l by lia.
Qed.
Lemma D_0_r i : (i <= m)%nat -> D i 0 = Z.of_nat i.
Proof.
  intros Hi. unfold D, distance. rewrite take_0. change (rev []) with (@nil Z). rewrite length_take, Nat.min_l by lia. cbn [length]. rewrite Nat.add_0_r.
  destruct i; [done|]. destruct (lookup_lt_is_Some_2 s1 i) as [x E]; [lia|]. rewrite (rev_take_S _ _ _ E). cbn [dist length].
  rewrite length_rev, length_take, Nat.min_l by lia. done.
Qed.

Lemma D_step i j x y : s1 !! i = Some x -> s2 !! j = Some y ->
  D (S i) (S j) = Z.min (Z.min (Z.min (D i (S j) + 1) (D (S i) j + 1)) (D i j + (if x =? y then 0 else 1))) (default (D (S i) j + 1) (swap_cost (S i) (S j))).
Proof.
  intros Ex Ey. pose proof (lookup_lt_Some _ _ _ Ex). pose proof (lookup_lt_Some _ _ _ Ey).
  rewrite <- (D_fuel (S (i + j + 1)) (S i) (S j)) by lia.
  rewrite <- (D_fuel (i + j + 1) i (S j)), <- (D_fuel (i + j + 1) (S i) j), <- (D_fuel (i + j + 1) i j) by lia.
  rewrite (rev_take_S s1 i x Ex), (rev_take_S s2 j y Ey). cbn [dist]. f_equal.
  destruct i as [|i]; [done|]. destruct j as [|j]; [cbn [rev take]; by destruct (rev (take (S i) s1))|].
  destruct (lookup_lt_is_Some_2 s1 i) as [x' Ex']; [lia|]. destruct (lookup_lt_is_Some_2 s2 j) as [y' Ey']; [lia|].
  unfold swap_cost. rewrite Ex, Ey, Ex', Ey'. rewrite (rev_take_S s1 i x' Ex'), (rev_take_S s2 j y' Ey').
  destruct (decide (Some x = Some y' /\ Some x' = Some y)) as [[[= <-] [= <-]]|Hne].
  - rewrite !Z.eqb_refl. cbn [andb from_option id]. by rewrite D_fuel by lia.
  - destruct (Z.eqb_spec x y'), (Z.eqb_spec x' y); try done. subst. by destruct Hne.
Qed.

(** A distance is at least the difference of the lengths. *)
Lemma D_diag i j : (i <= m)%nat -> (j <= n)%nat -> Z.abs (Z.of_nat i - Z.of_nat j) <= D i j.
Proof.
  remember (i + j)%nat as k eqn:Ek. revert i j Ek. induction k as [k IH] using lt_wf_ind. intros i j -> Hi Hj.
  destruct i as [|i]; [rewrite D_0_l by done; lia|]. destruct j as [|j]; [rewrite D_0_r by done; lia|].
  destruct (lookup_lt_is_Some_2 s1 i) as [x Ex]; [lia|]. destruct (lookup_lt_is_Some_2 s2 j) as [y Ey]; [lia|].
  rewrite (D_step i j x y Ex Ey).
  pose proof (IH (i + S j)%nat ltac:(lia) i (S j) eq_refl ltac:(lia) ltac:(lia)). pose proof (IH (S i + j)%nat ltac:(lia) (S i) j eq_refl ltac:(lia) ltac:(lia)).
  pose proof (IH (i + j)%nat ltac:(lia) i j eq_refl ltac:(lia) ltac:(lia)).
  assert (Z.abs (Z.of_nat (S i) - Z.of_nat (S j)) <= default (D (S i) j + 1) (swap_cost (S i) (S j))).
  { destruct i as [|i]; [simpl; lia|]. destruct j as [|j]; [simpl; lia|]. unfold swap_cost. destruct (decide _); cbn [from_option id]; [|lia].
    pose proof (IH (i + j)%nat ltac:(lia) i j eq_refl ltac:(lia) ltac:(lia)). lia. }
  destruct (x =? y); lia.
Qed.

End Distance.

(** ** The band *)

Section Band.
Variables s1 s2 : list Z.
#[local] Abbreviation m := (length s1).
#[local] Abbreviation n := (length s2).
#[local] Abbreviation D := (D s1 s2).
Variable c : Z.
Hypothesis Hc : 0 <= c <= 100.
Hypothesis Hmn : (m <= n)%nat.
Hypothesis Hn : Z.of_nat n <= 100.
Hypothesis Hdiff : Z.of_nat n - Z.of_nat m <= c.

Definition lower : Z := c - (Z.of_nat n - Z.of_nat m).

(** What is left to do at least, from a cell to the last one. *)
Definition rest (i j : nat) : Z := Z.abs ((Z.of_nat n - Z.of_nat j) - (Z.of_nat m - Z.of_nat i)).

(** The content of a cell: never below the distance, and the distance itself where it matters. *)
Definition good (i j : nat) (v : Z) : Prop :=
  0 <= v <= c + 1 /\ Z.min (D i j) (c + 1) <= v /\ (D i j + rest i j <= c -> v = D i j).

(** The cells that row [i] has when it is complete. *)
Definition row_low (i : nat) : Z := Z.max 0 (Z.of_nat i - lower - 1).
Definition row_high (i : nat) : Z := if Z.of_nat n <? Z.of_nat i + c then Z.of_nat n else Z.of_nat i + c + 1.
Definition filled (d : grid) (i j : nat) : Prop := exists v, cell d (Z.of_nat i) (Z.of_nat j) = Some v /\ ((j <= n)%nat -> good i j v).

(** A candidate for a cell with [r] left to do: its value [v] against the distance [d] it stands for. *)
Definition candidate (r d v : Z) : Prop := 0 <= v /\ Z.min d (c + 1) <= v /\ (d + r <= c -> v = d).

Lemma min_absorb a b x : Z.min (Z.min (Z.min a b) x) b = Z.min (Z.min a b) x.
Proof using. clear. lia. Qed.
Lemma candidate_min r d d' v v' : 0 <= r -> candidate r d v -> candidate r d' v' -> candidate r (Z.min d d') (Z.min v v').
Proof using. clear. unfold candidate. lia. Qed.
Lemma candidate_cap r d v : 0 <= r -> candidate r d v -> candidate r d (Z.min (c + 1) v).
Proof using Hc. clear - Hc. unfold candidate. lia. Qed.
Lemma candidate_none r d v : 0 <= r -> candidate r d v -> candidate r d (Z.min v (c + 1)).
Proof using Hc. clear - Hc. unfold candidate. lia. Qed.
Lemma candidate_from i j k r v w : good i j v -> 0 <= w -> rest i j <= r + w -> k = v + w -> candidate r (D i j + w) k.
Proof using Hc. clear - Hc. unfold good, candidate, rest. lia. Qed.
Lemma good_candidate i j d v : d = D i j -> v <= c + 1 -> candidate (rest i j) d v -> good i j v.
Proof using. clear. unfold good, candidate. lia. Qed.

Lemma outside_good i j : (i <= m)%nat -> (j <= n)%nat -> lower < Z.of_nat i - Z.of_nat j \/ c < Z.of_nat j - Z.of_nat i -> good i j (c + 1).
Proof using Hc Hmn Hdiff.
  intros Hi Hj Hout. pose proof (D_diag s1 s2 i j Hi Hj). unfold good, rest, lower in *. lia.
Qed.

Lemma cell_set d i j v : in_grid i j = true -> exists d', set_cell d i j v = Some d' /\ cell d' i j = Some v /\
  (forall i' j', (i', j') <> (i, j) -> cell d' i' j' = cell d i' j').
Proof using.
  clear. intros Hg. unfold set_cell, cell. rewrite Hg. eexists. split; [done|]. split; [apply lookup_insert_eq|].
  intros i' j' Hne. destruct (in_grid i' j'); [|done]. apply (lookup_insert_ne (M := gmap (Z * Z))); congruence.
Qed.

Lemma char_spec s i x : (1 <= i)%nat -> s !! (i - 1)%nat = Some x -> char_at s (Z.of_nat i - 1) = Some x.
Proof using. clear. intros Hi E. unfold char_at. destruct (Z.ltb_spec (Z.of_nat i - 1) 0); [lia|]. by replace (Z.to_nat (Z.of_nat i - 1)) with (i - 1)%nat by lia. Qed.

(** The swap. *)
Lemma transposition_spec d i j : (i < m)%nat -> (j < n)%nat -> (forall k l, i = S k -> j = S l -> filled d k l) ->
  exists v, transposition c s1 s2 d (Z.of_nat (S i)) (Z.of_nat (S j)) = Some v /\
    v = match swap_cost s1 s2 (S i) (S j) with
        | None => c + 1
        | Some _ => match cell d (Z.of_nat (S i) - 2) (Z.of_nat (S j) - 2) with Some w => w + 1 | None => 0 end
        end.
Proof using Hc Hmn Hn Hdiff.
  intros Hi Hj Hfill. unfold transposition. rewrite (wrap_small 8 (c + 1)) by lia.
  destruct i as [|i]; [eexists; split; [done|done]|]. destruct j as [|j]; [exists (c + 1); split; [|done]; replace ((1 <? Z.of_nat (S (S i))) && (1 <? Z.of_nat 1)) with false by lia; done|].
  replace ((1 <? Z.of_nat (S (S i))) && (1 <? Z.of_nat (S (S j)))) with true by lia.
  destruct (lookup_lt_is_Some_2 s1 i) as [x' Ex']; [lia|]. destruct (lookup_lt_is_Some_2 s2 j) as [y' Ey']; [lia|].
  destruct (lookup_lt_is_Some_2 s1 (S i)) as [x Ex]; [lia|]. destruct (lookup_lt_is_Some_2 s2 (S j)) as [y Ey]; [lia|].
  destruct (Hfill i j eq_refl eq_refl) as (w & Ew & Hw). destruct (Hw ltac:(lia)) as (Hr & _).
  replace (Z.of_nat (S (S i)) - 2) with (Z.of_nat i) by lia. replace (Z.of_nat (S (S j)) - 2) with (Z.of_nat j) by lia.
  rewrite (char_spec s1 (S (S i)) x), (char_spec s2 (S (S j)) y) by (done || lia). run.
  replace (char_at s2 (Z.of_nat j)) with (Some y') by (unfold char_at; destruct (Z.ltb_spec (Z.of_nat j) 0); [lia|by rewrite Nat2Z.id]).
  replace (char_at s1 (Z.of_nat i)) with (Some x') by (unfold char_at; destruct (Z.ltb_spec (Z.of_nat i) 0); [lia|by rewrite Nat2Z.id]).
  run. unfold swap_cost. rewrite Ex, Ey, Ex', Ey', Ew.
  destruct (decide (Some x = Some y' /\ Some x' = Some y)) as [[[= <-] [= <-]]|Hne].
  - rewrite !Z.eqb_refl. repeat run. rewrite ?Z.eqb_refl; repeat run. rewrite (wrap_small 8 (w + 1)) by lia. by eexists.
  - destruct (Z.eqb_spec x y') as [->|]; [repeat run; destruct (Z.eqb_spec x' y) as [->|]; [by destruct Hne|]|]; by eexists.
Qed.

Lemma rest_nonneg i j : 0 <= rest i j.
Proof using. clear. unfold rest. lia. Qed.
Lemma rest_left i j : rest i (S j) <= rest (S i) (S j) + 1.
Proof using. clear. unfold rest. lia. Qed.
Lemma rest_above i j : rest (S i) j <= rest (S i) (S j) + 1.
Proof using. clear. unfold rest. lia. Qed.
Lemma rest_corner i j w : 0 <= w -> rest i j <= rest (S i) (S j) + w.
Proof using. clear. unfold rest. lia. Qed.
Lemma rest_swap i j : rest i j <= rest (S (S i)) (S (S j)) + 1.
Proof using. clear. unfold rest. lia. Qed.

(** One cell, from its neighbours. *)
Lemma fill_cell_spec d i j : (i < m)%nat -> (j < n)%nat -> filled d i (S j) -> filled d (S i) j -> filled d i j ->
  (forall k l, i = S k -> j = S l -> filled d k l) ->
  exists d', fill_cell c s1 s2 (Z.of_nat (S i)) (Z.of_nat (S j)) d = Some d' /\ filled d' (S i) (S j) /\
    (forall i' j', (i', j') <> (S i, S j) -> cell d' (Z.of_nat i') (Z.of_nat j') = cell d (Z.of_nat i') (Z.of_nat j')).
Proof using Hc Hmn Hn Hdiff.
  intros Hi Hj (v1 & E1 & G1) (v2 & E2 & G2) (v3 & E3 & G3) Hsw. unfold fill_cell.
  destruct (transposition_spec d i j Hi Hj Hsw) as (v4 & E4 & Ev4). rewrite E4.
  destruct (lookup_lt_is_Some_2 s1 i) as [x Ex]; [lia|]. destruct (lookup_lt_is_Some_2 s2 j) as [y Ey]; [lia|].
  pose proof (D_step s1 s2 i j x y Ex Ey) as HD.
  rewrite (char_spec s1 (S i) x), (char_spec s2 (S j) y) by (lia || by rewrite Nat.sub_succ, Nat.sub_0_r).
  replace (Z.of_nat (S i) - 1) with (Z.of_nat i) by lia. replace (Z.of_nat (S j) - 1) with (Z.of_nat j) by lia.
  rewrite E1, E2, E3. do 6 run. cbv zeta. specialize (G1 ltac:(lia)). specialize (G2 ltac:(lia)). specialize (G3 ltac:(lia)).
  set (cost := if x =? y then 0 else 1) in *. assert (0 <= cost <= 1) as Hcost by (unfold cost; ifs; lia). clearbody cost.
  destruct G1 as (R1 & L1 & X1), G2 as (R2 & L2 & X2), G3 as (R3 & L3 & X3).
  rewrite !wrap_small by lia.
  match goal with |- context [set_cell _ _ _ ?e] => destruct (cell_set d (Z.of_nat (S i)) (Z.of_nat (S j)) e) as (d' & -> & Enew & Eold); [unfold in_grid, MAX_SIZE; lia|] end.
  exists d'. split; [done|]. split; [|intros i' j' Hne; apply Eold; intros [= H1 H2]; apply Hne; f_equal; by apply Nat2Z.inj; rewrite ?H1, ?H2].
  eexists. split; [exact Enew|]. intros _.
  assert (candidate (rest (S i) (S j)) (D i (S j) + 1) (v1 + 1)) as C1 by (apply (candidate_from _ _ _ _ v1); [done|done|apply rest_left|done]).
  assert (candidate (rest (S i) (S j)) (D (S i) j + 1) (v2 + 1)) as C2 by (apply (candidate_from _ _ _ _ v2); [done|done|apply rest_above|done]).
  assert (candidate (rest (S i) (S j)) (D i j + cost) (v3 + cost)) as C3 by (apply (candidate_from _ _ _ _ v3); [done|apply Hcost|apply rest_corner, Hcost|done]).
  pose proof (candidate_min _ _ _ _ _ (rest_nonneg _ _) (candidate_min _ _ _ _ _ (rest_nonneg _ _) C1 C2) C3) as C.
  apply good_candidate with (d := D (S i) (S j)); [done|apply Z.le_min_l || (clear; lia)|]. rewrite HD. rewrite <- !(Z.min_assoc (c + 1)).
  destruct (swap_cost s1 s2 (S i) (S j)) as [k|] eqn:Ek; cbn [from_option id].
  - apply candidate_cap; [apply rest_nonneg|]. apply candidate_min; [apply rest_nonneg|exact C|].
    destruct i as [|i]; [done|]. destruct j as [|j]; [done|]. destruct (Hsw i j eq_refl eq_refl) as (w & Ew & Hw).
    replace (Z.of_nat (S (S i)) - 2) with (Z.of_nat i) in Ev4 by lia. replace (Z.of_nat (S (S j)) - 2) with (Z.of_nat j) in Ev4 by lia.
    rewrite Ew in Ev4. unfold swap_cost in Ek. destruct (decide _); [|done]. injection Ek as <-.
    apply (candidate_from _ _ _ _ w); [apply Hw; clear - Hj; lia|done|apply rest_swap|done].
  - subst v4. rewrite min_absorb. apply candidate_cap; [apply rest_nonneg|]. apply candidate_none; [apply rest_nonneg|]. exact C.
Qed.

Lemma filled_eq d d' i j : cell d' (Z.of_nat i) (Z.of_nat j) = cell d (Z.of_nat i) (Z.of_nat j) -> filled d i j -> filled d' i j.
Proof using. intros E (v & Ev & Hv). exists v. by rewrite E. Qed.

Definition row_ok (d : grid) (i : nat) : Prop := forall j, row_low i <= Z.of_nat j <= row_high i -> filled d i j.

(** A cell just outside of the band. *)
Lemma filled_outside d i j : (i <= m)%nat -> lower < Z.of_nat i - Z.of_nat j \/ c < Z.of_nat j - Z.of_nat i ->
  cell d (Z.of_nat i) (Z.of_nat j) = Some (c + 1) -> filled d i j.
Proof using Hc Hmn Hdiff. intros Hi Ho E. exists (c + 1). split; [done|]. intros Hj. by apply outside_good. Qed.
Lemma good_first i : (i <= m)%nat -> Z.of_nat i <= c + 1 -> good i 0 (Z.of_nat i).
Proof using Hc Hmn Hn Hdiff. intros Hi Hle. unfold good. rewrite D_0_r by done. lia. Qed.
Lemma good_top j : (j <= n)%nat -> Z.of_nat j <= c + 1 -> good 0 j (Z.of_nat j).
Proof using Hc Hmn Hn Hdiff. intros Hi Hle. unfold good. rewrite D_0_l by done. lia. Qed.

(** The inner loop. *)
Lemma fill_loop d i jb je : (i < m)%nat -> 1 <= jb -> je <= Z.of_nat n -> jb <= je + 1 ->
  jb = Z.max 1 (Z.of_nat (S i) - lower) -> je = Z.min (Z.of_nat n) (Z.of_nat (S i) + c) -> 
  row_ok d i -> (forall k, i = S k -> row_ok d k) ->
  (forall j, row_low (S i) <= Z.of_nat j < jb -> filled d (S i) j) -> (forall j, je < Z.of_nat j <= row_high (S i) -> filled d (S i) j) ->
  exists j' d', while_ (Z.to_nat MAX_SIZE) (fun '(j, _) => j <=? je)
    (fun '(j, d) => d ← fill_cell c s1 s2 (Z.of_nat (S i)) j d; Some (j + 1, d)) (jb, d) = Some (j', d') /\
    row_ok d' (S i) /\ (forall i' j', i' <> S i -> cell d' (Z.of_nat i') (Z.of_nat j') = cell d (Z.of_nat i') (Z.of_nat j')).
Proof using Hc Hmn Hn Hdiff.
  intros Hi Hjb Hje Hle Ejb Eje Hrow Hrow2 Hlow Hhigh.
  match goal with |- context [while_ ?f ?cond ?body ?s0] =>
    destruct (while_rule (fun '(j, d') => jb <= j <= je + 1 /\ (forall j', row_low (S i) <= Z.of_nat j' < j -> filled d' (S i) j') /\
        (forall j, je < Z.of_nat j <= row_high (S i) -> filled d' (S i) j) /\
        (forall i' j', i' <> S i -> cell d' (Z.of_nat i') (Z.of_nat j') = cell d (Z.of_nat i') (Z.of_nat j')))
      (fun '(j, _) => Z.to_nat (je + 1 - j)) cond body f s0) as ((j & d') & -> & (Hj & Hd1 & Hd2 & Hd3) & Hend) end.
  - done.
  - unfold MAX_SIZE. lia.
  - intros (j & d') (Hj & Hd1 & Hd2 & Hd3) Hcond.
    assert (exists k, j = Z.of_nat (S k) /\ (k < n)%nat) as (k & -> & Hk) by (exists (Z.to_nat (j - 1)); lia).
    destruct (fill_cell_spec d' i k Hi Hk) as (d2 & -> & Hnew & Hold).
    + apply (filled_eq d); [apply Hd3; lia|]. apply Hrow. unfold row_low, row_high. destruct (Z.ltb_spec (Z.of_nat n) (Z.of_nat i + c)); lia.
    + apply Hd1. unfold row_low. lia.
    + apply (filled_eq d); [apply Hd3; lia|]. apply Hrow. unfold row_low, row_high. destruct (Z.ltb_spec (Z.of_nat n) (Z.of_nat i + c)); lia.
    + intros a b -> ->. apply (filled_eq d); [apply Hd3; lia|]. apply (Hrow2 a eq_refl). unfold row_low, row_high.
      destruct (Z.ltb_spec (Z.of_nat n) (Z.of_nat a + c)); lia.
    + run. eexists. split; [done|]. split; [|lia]. split; [lia|]. split; [|split].
      * intros j' Hj'. destruct (decide (j' = S k)) as [->|Hne]; [done|]. apply (filled_eq d'); [apply Hold; congruence|]. apply Hd1. lia.
      * intros j' Hj'. apply (filled_eq d'); [apply Hold; intros [= ->]; lia|]. by apply Hd2.
      * intros i' j' Hne. rewrite Hold by congruence. by apply Hd3.
  - exists j, d'. split; [done|]. split; [|done]. intros j' Hj'. destruct (Z.lt_ge_cases (Z.of_nat j') j); [apply Hd1; lia|apply Hd2; lia].
Qed.

Lemma fill_row_spec d i : (i < m)%nat -> row_ok d i -> (forall k, i = S k -> row_ok d k) ->
  exists d', fill_row c lower c s1 s2 (Z.of_nat (S i)) d = Some d' /\ row_ok d' (S i) /\
    (forall i' j', i' <> S i -> cell d' (Z.of_nat i') (Z.of_nat j') = cell d (Z.of_nat i') (Z.of_nat j')).
Proof using Hc Hmn Hn Hdiff.
  intros Hi Hrow Hrow2. unfold fill_row. cbv zeta. rewrite (wrap_small 8 (c + 1)) by lia.
  assert (exists jb d1, (if lower <? Z.of_nat (S i)
     then d ← set_cell d (Z.of_nat (S i)) (Z.of_nat (S i) - lower - 1) (c + 1); Some (Z.of_nat (S i) - lower, d)
     else d ← set_cell d (Z.of_nat (S i)) 0 (wrap 8 (Z.of_nat (S i))); Some (1, d)) = Some (jb, d1) /\
     jb = Z.max 1 (Z.of_nat (S i) - lower) /\ (forall j, row_low (S i) <= Z.of_nat j < jb -> filled d1 (S i) j) /\
     (forall i' j', i' <> S i -> cell d1 (Z.of_nat i') (Z.of_nat j') = cell d (Z.of_nat i') (Z.of_nat j'))) as (jb & d1 & -> & Ejb & Hlow & Hd1).
  { unfold row_low. destruct (Z.ltb_spec lower (Z.of_nat (S i))) as [Hl|Hl].
    - destruct (cell_set d (Z.of_nat (S i)) (Z.of_nat (S i) - lower - 1) (c + 1)) as (d1 & -> & E & Hold); [unfold in_grid, MAX_SIZE, lower in *; lia|]. run.
      eexists _, _. split; [done|]. split; [lia|]. split; [|intros i' j' Hne; apply Hold; intros [= H _]; lia].
      intros j Hj. apply filled_outside; [lia|lia|]. by replace (Z.of_nat j) with (Z.of_nat (S i) - lower - 1) by lia.
    - destruct (cell_set d (Z.of_nat (S i)) 0 (wrap 8 (Z.of_nat (S i)))) as (d1 & -> & E & Hold); [unfold in_grid, MAX_SIZE, lower in *; lia|]. run.
      eexists _, _. split; [done|]. split; [lia|]. split; [|intros i' j' Hne; apply Hold; intros [= H _]; lia].
      intros j Hj. assert (j = 0)%nat as -> by lia. exists (Z.of_nat (S i)). rewrite wrap_small in E by (unfold lower in *; lia). split; [exact E|].
      intros _. apply good_first; unfold lower in *; lia. }
  run.
  assert (exists je d2, (if Z.of_nat n <? Z.of_nat (S i) + c then Some (Z.of_nat n, d1)
     else d ← set_cell d1 (Z.of_nat (S i)) (Z.of_nat (S i) + c + 1) (c + 1); Some (Z.of_nat (S i) + c, d)) = Some (je, d2) /\
     je = Z.min (Z.of_nat n) (Z.of_nat (S i) + c) /\ (forall j, je < Z.of_nat j <= row_high (S i) -> filled d2 (S i) j) /\
     (forall j, row_low (S i) <= Z.of_nat j < jb -> filled d2 (S i) j) /\
     (forall i' j', i' <> S i -> cell d2 (Z.of_nat i') (Z.of_nat j') = cell d (Z.of_nat i') (Z.of_nat j'))) as (je & d2 & -> & Eje & Hhigh & Hlow2 & Hd2).
  { unfold row_high. destruct (Z.ltb_spec (Z.of_nat n) (Z.of_nat (S i) + c)) as [Hh|Hh].
    - eexists _, _. split; [done|]. split; [lia|]. split; [lia|]. done.
    - destruct (cell_set d1 (Z.of_nat (S i)) (Z.of_nat (S i) + c + 1) (c + 1)) as (d2 & -> & E & Hold); [unfold in_grid, MAX_SIZE; lia|]. run.
      eexists _, _. split; [done|]. split; [lia|]. split; [|split].
      + intros j Hj. apply filled_outside; [lia|lia|]. by replace (Z.of_nat j) with (Z.of_nat (S i) + c + 1) by lia.
      + intros j Hj. apply (filled_eq d1); [|by apply Hlow]. apply Hold. intros [= H]. unfold lower in *. lia.
      + intros i' j' Hne. rewrite Hold by (intros [= H _]; lia). by apply Hd1. }
  run.
  destruct (fill_loop d2 i jb je Hi) as (j' & d' & E & Hd' & Hd3); try done; try (unfold lower in *; lia).
  - intros j Hj. apply (filled_eq d); [apply Hd2; lia|]. by apply Hrow.
  - intros k -> j Hj. apply (filled_eq d); [apply Hd2; lia|]. by apply Hrow2.
  - rewrite E. run. exists d'. split; [done|]. split; [done|]. intros i' j'' Hne. rewrite Hd3 by done. by apply Hd2.
Qed.

(** The first row. *)
Lemma iota_row_spec : exists d d', iota_row (c + 1) ∅ = Some d /\ set_cell d 0 (c + 1) (c + 1) = Some d' /\ row_ok d' 0.
Proof using Hc Hmn Hn Hdiff.
  unfold iota_row. pose (I := fun (k : nat) (s : Z * grid) => exists d, s = (Z.of_nat k, d) /\ forall j, (j < k)%nat -> cell d 0 (Z.of_nat j) = Some (Z.of_nat j)).
  run_loop I (Z.to_nat (c + 1)).
  - exists ∅. split; [done|]. lia.
  - intros k s Hk (d & -> & Hd). split; [lia|].
    destruct (cell_set d 0 (Z.of_nat k) (wrap 8 (Z.of_nat k))) as (d' & -> & E & Hold); [unfold in_grid, MAX_SIZE; lia|]. run. eexists. split; [done|].
    exists d'. split; [pairs|]. intros j Hj. rewrite wrap_small in E by lia. destruct (decide (j = k)) as [->|Hne]; [exact E|].
    rewrite Hold by (intros [= H]; lia). apply Hd. lia.
  - intros s (d & -> & _). lia.
  - destruct Hs as (d & -> & Hd). run. destruct (cell_set d 0 (c + 1) (c + 1)) as (d' & E' & E & Hold); [unfold in_grid, MAX_SIZE; lia|].
    exists d, d'. split; [done|]. split; [done|]. intros j Hj. assert (Z.of_nat j <= c + 1) as Hj2.
    { unfold row_high in Hj. destruct (Z.ltb_spec (Z.of_nat n) (Z.of_nat 0 + c)); lia. }
    exists (Z.of_nat j). split; [|intros Hjn; by apply good_top]. change (Z.of_nat 0) with 0. destruct (decide (Z.of_nat j = c + 1)) as [Ej|Hne]; [by rewrite Ej|].
    rewrite Hold by (intros [= H]; lia). apply Hd. lia.
Qed.

End Band.

(** ** The distance that is returned *)

Lemma distance_sym a b : distance a b = distance b a.
Proof.
  unfold distance. rewrite (Nat.add_comm (length b)). generalize (length a + length b)%nat (rev a) (rev b). clear.
  intros k. induction k as [k IH] using lt_wf_ind. intros a b. destruct k as [|k]; [done|]. destruct a as [|x a], b as [|y b]; try done.
  cbn [dist]. rewrite (IH k ltac:(lia) a (y :: b)), (IH k ltac:(lia) (x :: a) b), (IH k ltac:(lia) a b), (Z.eqb_sym x y).
  rewrite (Z.min_comm (dist k (y :: b) a + 1)).
  destruct a as [|x' a], b as [|y' b]; try lia.
  rewrite (IH k ltac:(lia) a b). rewrite (Z.eqb_sym x y'), (Z.eqb_sym x' y), (andb_comm (y' =? x)). destruct ((y =? x') && (y' =? x)); lia.
Qed.

Lemma distance_diag a b : Z.abs (Z.of_nat (length a) - Z.of_nat (length b)) <= distance a b.
Proof. pose proof (D_diag a b (length a) (length b) ltac:(lia) ltac:(lia)) as H. unfold D in H. by rewrite !take_ge in H by lia. Qed.

(** The shorter string first. *)
Lemma capped_sorted s1 s2 cutoff : 0 <= cutoff < 256 -> (length s1 <= length s2)%nat -> Z.of_nat (length s2) <= 100 -> 
  Z.of_nat (length s2) <= Z.of_nat (length s1) + Z.min 100 cutoff -> (1 <= length s1)%nat ->
  exists d, (d ← iota_row (Z.min 100 cutoff + 1) ∅; d ← set_cell d 0 (Z.min 100 cutoff + 1) (Z.min 100 cutoff + 1);
    '(_, d) ← while_ (length s1) (fun '(i, _) => i <=? Z.of_nat (length s1))
      (fun '(i, d) => d ← fill_row (Z.min 100 cutoff) (Z.min 100 cutoff - (Z.of_nat (length s2) - Z.of_nat (length s1))) (Z.min 100 cutoff) s1 s2 i d; Some (i + 1, d)) (1, d);
    cell d (Z.of_nat (length s1)) (Z.of_nat (length s2))) = Some d /\ d = Z.min (distance s1 s2) (Z.min 100 cutoff + 1).
Proof.
  intros Hcut Hmn Hn Hdiff Hm. set (c := Z.min 100 cutoff) in *. assert (0 <= c <= 100) as Hc by lia.
  destruct (iota_row_spec s1 s2 c Hc Hmn Hn ltac:(lia)) as (d0 & d1 & -> & E1 & Hrow0). run. rewrite E1. run.
  pose (I := fun (k : nat) (s : Z * grid) => exists d, s = (Z.of_nat (S k), d) /\ row_ok s1 s2 c d k /\ (forall l, k = S l -> row_ok s1 s2 c d l)).
  run_loop I (length s1).
  - exists d1. split; [done|]. split; [exact Hrow0|done].
  - intros k s Hk (d & -> & Hd & Hd'). split; [lia|].
    destruct (fill_row_spec s1 s2 c Hc Hmn Hn ltac:(lia) d k Hk Hd Hd') as (d2 & E & Hd2 & Hold). fold (lower s1 s2 c). rewrite E. run.
    eexists. split; [done|]. exists d2. split; [pairs|]. split; [done|]. intros l [= <-] j Hj. apply (filled_eq s1 s2 c d); [apply Hold; lia|]. by apply Hd.
  - intros s (d & -> & _). lia.
  - destruct Hs as (d & -> & Hd & _). run. destruct (Hd (length s2)) as (v & -> & Hv).
    + unfold row_low, row_high, lower. destruct (Z.ltb_spec (Z.of_nat (length s2)) (Z.of_nat (length s1) + c)); lia.
    + exists v. split; [done|]. specialize (Hv ltac:(lia)). unfold good, D, rest in Hv. rewrite !take_ge in Hv by lia. lia.
Qed.

(** C19: The capped edit distance never leaves its 102 by 102 array nor reads a cell that it has not written, and it is
    the distance by insertions, deletions, replacements and swaps of neighbours that the recursion defines, cut at one
    more than the smaller of the cutoff and 100, which is also what strings above 100 characters get. *)
Theorem capped_distance_correct s1 s2 cutoff : 0 <= cutoff < 256 ->
  CappedDamerauLevenshteinDistance s1 s2 cutoff =
  Some (let limit := Z.min 100 cutoff + 1 in
        if (100 <? length s1)%nat || (100 <? length s2)%nat then limit else Z.min (distance s1 s2) limit).
Proof.
  assert (forall a b, 0 <= cutoff < 256 -> (length a <= length b)%nat ->
    (if (Z.of_nat (length a) + Z.min 100 cutoff <? Z.of_nat (length b)) || (100 <? Z.of_nat (length b)) then Some (wrap 8 (Z.min 100 cutoff + 1))
     else if Z.of_nat (length a) =? 0 then Some (wrap 8 (Z.of_nat (length b)))
     else
       d ← iota_row (Z.min 100 cutoff + 1) ∅; d ← set_cell d 0 (wrap 8 (Z.min 100 cutoff + 1)) (wrap 8 (Z.min 100 cutoff + 1));
       '(_, d) ← while_ (length a) (fun '(i, _) => i <=? Z.of_nat (length a))
         (fun '(i, d) => d ← fill_row (Z.min 100 cutoff) (wrap 8 (Z.min 100 cutoff - wrap 8 (Z.of_nat (length b) - Z.of_nat (length a)))) (Z.min 100 cutoff) a b i d; Some (i + 1, d)) (1, d);
       cell d (Z.of_nat (length a)) (Z.of_nat (length b))) =
    Some (if (100 <? length b)%nat then Z.min 100 cutoff + 1 else Z.min (distance a b) (Z.min 100 cutoff + 1))) as H.
  { intros a b Hcut Hle. rewrite (wrap_small 8 (Z.min 100 cutoff + 1)) by lia. pose proof (distance_diag a b).
    destruct (Z.ltb_spec (Z.of_nat (length a) + Z.min 100 cutoff) (Z.of_nat (length b))); cbn [orb]; [f_equal; destruct (Nat.ltb_spec 100 (length b)); lia|].
    destruct (Z.ltb_spec 100 (Z.of_nat (length b))); [f_equal; destruct (Nat.ltb_spec 100 (length b)); lia|].
    destruct (Nat.ltb_spec 100 (length b)); [lia|].
    destruct (Z.eqb_spec (Z.of_nat (length a)) 0) as [E0|].
    - destruct a; [|done]. rewrite wrap_small by (cbn [length] in *; lia). f_equal. pose proof (D_0_l [] b (length b) ltac:(lia)) as Hd. unfold D in Hd.
      rewrite take_nil, take_ge in Hd by lia. rewrite Hd. cbn [length] in *. lia.
    - rewrite (wrap_small 8 (Z.of_nat (length b) - _)), (wrap_small 8 (Z.min 100 cutoff - _)) by lia.
      destruct (capped_sorted a b cutoff) as (d & -> & ->); try done; lia. }
  intros Hcut. unfold CappedDamerauLevenshteinDistance. cbv zeta. unfold MAX_SIZE.
  destruct (Nat.ltb_spec (length s2) (length s1)); cbn beta iota; rewrite H by lia; f_equal.
  - rewrite (distance_sym s2 s1). destruct (Nat.ltb_spec 100 (length s1)), (Nat.ltb_spec 100 (length s2)); (done || lia).
  - destruct (Nat.ltb_spec 100 (length s1)), (Nat.ltb_spec 100 (length s2)); (done || lia).
Qed.

Lemma capped_distance_correct_witness : 0 <= 2 < 256 /\
  CappedDamerauLevenshteinDistance [98; 97; 110] [97; 98; 110; 100] 2 = Some 2.
Proof. split; [lia|]. rewrite (capped_distance_correct _ _ 2) by lia. vm_compute. reflexivity. Defined.
