(* ===== verification/MpscQueue.v ===== *)
(** * The multi-producer, single-consumer queue (container/mpsc_queue.h)

    Any number of threads run [Enqueue] and one runs [Dequeue]. The model is a step relation: a step is one access to
    memory that another thread can see, of any of the threads.

    The assumption of the whole file is sequential consistency: every load returns the value of the last store before
    it in the interleaving. The code asks for less: the exchange of [_head] is a release (line 116), the
    compare-exchange an acquire (line 162), the accesses to [_cur_enqueue_node] are relaxed (lines 122, 136 and 142), and
    [next] is a plain field that one thread stores (line 118) while another loads it (line 176). So the steps are named
    [sc_...], they are the steps of the sequentially consistent executions only, and nothing here is said of the
    executions that the weaker orderings allow besides.

    A thread whose step function is [None] has failed: it followed a pointer to no node, or a check did not hold.
    Memory comes from the allocator, a parameter of the queue: what is used of it is that it returns memory that is not
    in use. *)
From stdpp Require Import gmap.
From S2P Require Import Prelude.

Section Queue.
Context {T : Type}.

(** ** Memory *)

(** A pointer to a node; [UNCONNECTED] is the special value of [next]. *)
Inductive ptr := UNCONNECTED | nullptr | at_node (a : positive).
#[export] Instance ptr_eq_dec : EqDecision ptr.
Proof. solve_decision. Defined.

Record MPSCQueueNode := { next : ptr; data_mem : T }.
Record MPSCQueue := {
  heap : gmap positive MPSCQueueNode;
  _head : ptr;
  _cur_enqueue_node : ptr;
  _cur_dequeue_node : ptr
}.
Definition new_queue : MPSCQueue :=
  {| heap := ∅; _head := nullptr; _cur_enqueue_node := nullptr; _cur_dequeue_node := nullptr |}.

Definition set_heap (q : MPSCQueue) h :=
  {| heap := h; _head := _head q; _cur_enqueue_node := _cur_enqueue_node q; _cur_dequeue_node := _cur_dequeue_node q |}.
Definition set_head (q : MPSCQueue) p :=
  {| heap := heap q; _head := p; _cur_enqueue_node := _cur_enqueue_node q; _cur_dequeue_node := _cur_dequeue_node q |}.
Definition set_enqueue (q : MPSCQueue) p :=
  {| heap := heap q; _head := _head q; _cur_enqueue_node := p; _cur_dequeue_node := _cur_dequeue_node q |}.
Definition set_dequeue (q : MPSCQueue) p :=
  {| heap := heap q; _head := _head q; _cur_enqueue_node := _cur_enqueue_node q; _cur_dequeue_node := p |}.

(** [p->next], and the assignment to it. *)
Definition load (q : MPSCQueue) (p : ptr) : option MPSCQueueNode :=
  match p with at_node a => heap q !! a | _ => None end.
Definition store_next (q : MPSCQueue) (p v : ptr) : option MPSCQueue :=
  match p with
  | at_node a => n ← heap q !! a; Some (set_heap q (<[a := {| next := v; data_mem := data_mem n |}]> (heap q)))
  | _ => None
  end.
Definition free (q : MPSCQueue) (p : ptr) : option MPSCQueue :=
  match p with
  | at_node a => _ ← heap q !! a; Some (set_heap q (delete a (heap q)))
  | _ => None
  end.

(** ** Enqueue *)

(** Where a call of [Enqueue] stands: at its start, before the exchange of [_head], before the assignment to
    [node->next], before the store to [_cur_enqueue_node], returned. *)
Inductive producer :=
  | P_enqueue (data : T)
  | P_exchange (node : positive)
  | P_link (node : positive) (prev : ptr)
  | P_publish (node : positive)
  | P_return.

(** The next access of a call of [Enqueue] in a sequentially consistent execution: the stores of [P_link] and [P_publish]
    are visible to the consumer at once, which the plain store of [next] and the relaxed store of [_cur_enqueue_node] do
    not promise. *)
Definition sc_producer_step (fresh : positive) (s : producer) (q : MPSCQueue) : option (producer * MPSCQueue) :=
  match s with
  | P_enqueue data => Some (P_exchange fresh, set_heap q (<[fresh := {| next := UNCONNECTED; data_mem := data |}]> (heap q)))
  | P_exchange node => Some (P_link node (_head q), set_head q (at_node node))
  | P_link node prev =>
      if decide (prev <> nullptr) then q ← store_next q (at_node node) prev; Some (P_return, q)
      else q ← store_next q (at_node node) nullptr; Some (P_publish node, q)
  | P_publish node => Some (P_return, set_enqueue q (at_node node))
  | P_return => Some (P_return, q)
  end.

(** ** Dequeue *)

(** Where a call of [DequeueImpl] stands; [C_reverse] and [C_reverse_next] are in the loop of [ReverseList], whose
    variables are [tail], [p] and [saved_next]. [C_return] holds the element, [None] for the result [false]. *)
Inductive consumer :=
  | C_idle
  | C_load
  | C_clear (node : ptr)
  | C_move (node : ptr)
  | C_last (node : ptr) (data : T)
  | C_compare (node : ptr) (data : T)
  | C_reverse (node : ptr) (data : T) (tail p : ptr)
  | C_reverse_next (node : ptr) (data : T) (tail p saved_next : ptr)
  | C_connect (node : ptr) (data : T) (tail : ptr)
  | C_advance (node : ptr) (data : T)
  | C_free (node : ptr) (data : T)
  | C_return (result : option T).

(** The next access of a call of [Dequeue] in a sequentially consistent execution: each load sees the last store, where
    the relaxed load of [C_load] and the plain loads of [next] could see an older one. *)
Definition sc_consumer_step (s : consumer) (q : MPSCQueue) : option (consumer * MPSCQueue) :=
  match s with
  | C_idle => Some (C_idle, q)
  | C_load =>
      let node := if decide (_cur_dequeue_node q <> nullptr) then _cur_dequeue_node q else _cur_enqueue_node q in
      Some (if decide (node = nullptr) then C_return None else C_clear node, q)
  | C_clear node => Some (C_move node, set_enqueue q nullptr)
  | C_move node => n ← load q node; Some (C_last node (data_mem n), q)
  | C_last node data =>
      n ← load q node;
      Some (if decide (next n = nullptr) then C_compare node data else C_advance node data, q)
  | C_compare node data =>
      if decide (_head q = node) then Some (C_advance node data, set_head q nullptr)
      else Some (C_reverse node data nullptr (_head q), q)
  | C_reverse node data tail p =>
      n ← load q p;
      Some (if decide (next n = UNCONNECTED) then C_reverse node data tail p else C_reverse_next node data tail p (next n), q)
  | C_reverse_next node data tail p saved_next =>
      q ← store_next q p tail;
      if decide (saved_next = nullptr) then None
      else Some (if decide (saved_next <> node) then C_reverse node data p saved_next else C_connect node data p, q)
  | C_connect node data tail => q ← store_next q node tail; Some (C_advance node data, q)
  | C_advance node data => n ← load q node; Some (C_free node data, set_dequeue q (next n))
  | C_free node data => q ← free q node; Some (C_return (Some data), q)
  | C_return _ => Some (C_idle, q)
  end.

(** ** All threads *)

(** [enqueued] lists the elements in the order of the exchanges of [_head], [dequeued] those that calls of [Dequeue]
    have returned. *)
Record conf := {
  queue : MPSCQueue;
  producers : gmap nat producer;
  the_consumer : consumer;
  enqueued : list T;
  dequeued : list T
}.
Definition initial : conf :=
  {| queue := new_queue; producers := ∅; the_consumer := C_idle; enqueued := []; dequeued := [] |}.

Definition enqueues (s : producer) (q : MPSCQueue) : list T :=
  match s with P_exchange node => match load q (at_node node) with Some n => [data_mem n] | None => [] end | _ => [] end.
Definition dequeues (s : consumer) : list T :=
  match s with C_return (Some data) => [data] | _ => [] end.

(** One step of any thread; the interleavings of these are the sequentially consistent executions. *)
Inductive sc_step (c : conf) : conf -> Prop :=
  | sc_step_call i data : producers c !! i = None ->
      sc_step c {| queue := queue c; producers := <[i := P_enqueue data]> (producers c); the_consumer := the_consumer c;
                enqueued := enqueued c; dequeued := dequeued c |}
  | sc_step_producer i s fresh s' q : producers c !! i = Some s -> heap (queue c) !! fresh = None ->
      sc_producer_step fresh s (queue c) = Some (s', q) ->
      sc_step c {| queue := q; producers := <[i := s']> (producers c); the_consumer := the_consumer c;
                enqueued := enqueued c ++ enqueues s (queue c); dequeued := dequeued c |}
  | sc_step_returned i : producers c !! i = Some P_return ->
      sc_step c {| queue := queue c; producers := delete i (producers c); the_consumer := the_consumer c;
                enqueued := enqueued c; dequeued := dequeued c |}
  | sc_step_dequeue : the_consumer c = C_idle ->
      sc_step c {| queue := queue c; producers := producers c; the_consumer := C_load;
                enqueued := enqueued c; dequeued := dequeued c |}
  | sc_step_consumer s q : sc_consumer_step (the_consumer c) (queue c) = Some (s, q) ->
      sc_step c {| queue := q; producers := producers c; the_consumer := s;
                enqueued := enqueued c; dequeued := dequeued c ++ dequeues s |}.

Definition sc_reachable : conf -> Prop := rtc sc_step initial.

End Queue.

(** ** Lists of nodes *)

Section Invariant.
Context {T : Type}.
Implicit Types (q : MPSCQueue (T := T)) (c : conf (T := T)) (l : list positive) (a b : positive).

Definition next_of q a : option ptr := next <$> heap q !! a.

(** The last node of [a :: l]. *)
Fixpoint end_of a l : positive := match l with [] => a | b :: l => end_of b l end.

(** Nodes linked from the first to the last, which has no next one. *)
Fixpoint chain q l : Prop :=
  match l with
  | [] => True
  | a :: l => next_of q a = Some (match l with [] => nullptr | b :: _ => at_node b end) /\ chain q l
  end.
(** Nodes linked to the ones before them, or about to be. *)
Fixpoint linked q a l : Prop :=
  match l with
  | [] => True
  | b :: l => (next_of q b = Some UNCONNECTED \/ next_of q b = Some (at_node a)) /\ linked q b l
  end.

(** [b] follows [a]. *)
Definition adjacent a b l : Prop := exists i, l !! i = Some a /\ l !! S i = Some b.

Lemma end_of_app a l1 l2 : end_of a (l1 ++ l2) = end_of (end_of a l1) l2.
Proof. revert a. induction l1 as [|b l1 IH]; intros a; simpl; [done|]. apply IH. Qed.
Lemma end_of_snoc a l b : end_of a (l ++ [b]) = b.
Proof. by rewrite end_of_app. Qed.
Lemma end_of_in a l : end_of a l ∈ a :: l.
Proof. revert a. induction l as [|b l IH]; intros a; simpl; [by apply list_elem_of_singleton|]. apply elem_of_cons. right. apply IH. Qed.

Lemma linked_app q a l1 l2 : linked q a (l1 ++ l2) <-> linked q a l1 /\ linked q (end_of a l1) l2.
Proof. revert a. induction l1 as [|b l1 IH]; intros a; simpl; [tauto|]. rewrite IH. tauto. Qed.

(** Only the [next] fields of their own nodes matter. *)
Lemma chain_frame q q' l : (forall b, b ∈ l -> next_of q' b = next_of q b) -> chain q l -> chain q' l.
Proof.
  induction l as [|a l IH]; intros H; [done|]. intros [Ha Hl]. split; [by rewrite H by left|]. apply IH; [|done]. intros b Hb. apply H. by right.
Qed.
Lemma linked_frame q q' a l : (forall b, b ∈ l -> next_of q' b = next_of q b) -> linked q a l -> linked q' a l.
Proof.
  revert a. induction l as [|b l IH]; intros a H; [done|]. intros [Hb Hl]. split; [by rewrite H by left|]. apply IH; [|done]. intros x Hx. apply H. by right.
Qed.
Lemma chain_unconnected q l b : chain q l -> b ∈ l -> next_of q b <> Some UNCONNECTED.
Proof.
  induction l as [|a l IH]; intros Hc Hb; [by apply not_elem_of_nil in Hb|]. destruct Hc as [Ha Hc]. apply elem_of_cons in Hb as [->|Hb]; [|by apply IH].
  rewrite Ha. by destruct l.
Qed.

(** A node that is connected at last is connected to the one before it. *)
Lemma linked_connect q q' a l b p :
  (forall x, x <> b -> next_of q' x = next_of q x) -> next_of q' b = Some (at_node p) ->
  (forall x, adjacent x b (a :: l) -> x = p) -> linked q a l -> linked q' a l.
Proof.
  intros Hold Hnew. revert a. induction l as [|y l IH]; intros a Hadj; [done|]. intros [Hy Hl]. split.
  - destruct (decide (y = b)) as [->|Hne]; [|by rewrite Hold]. right. rewrite Hnew. rewrite (Hadj a); [done|]. by exists O.
  - apply IH; [|done]. intros x (i & E1 & E2). apply Hadj. by exists (S i).
Qed.

Lemma adjacent_unique a a' b l : NoDup l -> adjacent a b l -> adjacent a' b l -> a = a'.
Proof.
  intros Hnd (i & Ea & Eb) (j & Ea' & Eb'). assert (S i = S j) as [= <-] by (by apply (NoDup_lookup l _ _ b)). congruence.
Qed.
Lemma adjacent_in a b l : adjacent a b l -> a ∈ l /\ b ∈ l.
Proof. intros (i & Ea & Eb). split; by eapply list_elem_of_lookup_2. Qed.
Lemma adjacent_app a b l1 l l2 : adjacent a b l -> adjacent a b (l1 ++ l ++ l2).
Proof.
  intros (i & Ea & Eb). exists (length l1 + i)%nat. pose proof (lookup_lt_Some _ _ _ Eb). rewrite <- Nat.add_succ_r.
  by split; rewrite lookup_app_r, Nat.add_sub', lookup_app_l by lia.
Qed.
Lemma adjacent_end a l b : adjacent (end_of a l) b ((a :: l) ++ [b]).
Proof.
  revert a. induction l as [|y l IH]; intros a; [by exists O|]. destruct (IH y) as (i & Ea & Eb). by exists (S i).
Qed.
Lemma adjacent_first a b l : NoDup l -> adjacent a b l -> head l = Some b -> False.
Proof.
  intros Hnd (i & Ea & Eb) E. assert (l !! O = Some b) as E0 by (by destruct l). by assert (S i = O) by (by apply (NoDup_lookup l _ _ b)).
Qed.

(** ** The invariant *)

(** The nodes of the queue, from the oldest, when the consumer holds the first of them: [a :: rest] linked from the
    oldest on, [mid] linked towards the oldest and about to be turned, [post] turned, and [back], added since. *)
Record held q a rest mid post back : Prop := {
  held_front : chain q (a :: rest);
  held_mid : linked q (end_of a rest) mid;
  held_post : chain q post;
  held_back : linked q (end_of a (rest ++ mid ++ post)) back;
  held_head : _head q = at_node (end_of a (rest ++ mid ++ post ++ back))
}.

(** The nodes of the queue when the consumer holds none. *)
Definition unheld q nodes : Prop :=
  match nodes with
  | [] => _head q = nullptr /\ _cur_enqueue_node q = nullptr
  | a :: back =>
      linked q a back /\ _head q = at_node (end_of a back) /\
      (next_of q a = Some UNCONNECTED /\ _cur_enqueue_node q = nullptr \/
       next_of q a = Some nullptr /\ (_cur_enqueue_node q = nullptr \/ _cur_enqueue_node q = at_node a))
  end.

(** What the consumer knows between two steps: whether it holds the oldest node ([front] is [None] when not), and the
    node that it is about to free ([limbo]). *)
Inductive consumer_at q nodes : consumer (T := T) -> bool -> list positive -> Prop :=
  | at_rest s : (s = C_idle \/ s = C_load \/ exists r, s = C_return r) -> _cur_dequeue_node q = nullptr -> unheld q nodes -> consumer_at q nodes s false []
  | at_rest_held s a rest back : (s = C_idle \/ s = C_load \/ exists r, s = C_return r) -> _cur_dequeue_node q = at_node a ->
      _cur_enqueue_node q = nullptr -> nodes = a :: rest ++ back -> held q a rest [] [] back -> consumer_at q nodes s true []
  | at_clear a rest back : nodes = a :: rest ++ back -> held q a rest [] [] back -> consumer_at q nodes (C_clear (at_node a)) true []
  | at_move a rest back : nodes = a :: rest ++ back -> held q a rest [] [] back -> _cur_enqueue_node q = nullptr ->
      consumer_at q nodes (C_move (at_node a)) true []
  | at_last a rest back v n : nodes = a :: rest ++ back -> held q a rest [] [] back -> _cur_enqueue_node q = nullptr ->
      heap q !! a = Some n -> data_mem n = v -> consumer_at q nodes (C_last (at_node a) v) true []
  | at_compare a back v n : nodes = a :: back -> held q a [] [] [] back -> _cur_enqueue_node q = nullptr ->
      heap q !! a = Some n -> data_mem n = v -> consumer_at q nodes (C_compare (at_node a) v) true []
  | at_reverse a pre p post back v n tail : nodes = a :: pre ++ p :: post ++ back -> held q a [] (pre ++ [p]) post back -> _cur_enqueue_node q = nullptr ->
      heap q !! a = Some n -> data_mem n = v -> tail = match post with [] => nullptr | b :: _ => at_node b end ->
      consumer_at q nodes (C_reverse (at_node a) v tail (at_node p)) true []
  | at_reverse_next a pre p post back v n tail : nodes = a :: pre ++ p :: post ++ back -> held q a [] (pre ++ [p]) post back -> _cur_enqueue_node q = nullptr ->
      heap q !! a = Some n -> data_mem n = v -> tail = match post with [] => nullptr | b :: _ => at_node b end ->
      next_of q p = Some (at_node (end_of a pre)) ->
      consumer_at q nodes (C_reverse_next (at_node a) v tail (at_node p) (at_node (end_of a pre))) true []
  | at_connect a b post back v n : nodes = a :: b :: post ++ back -> held q a [] [] (b :: post) back -> _cur_enqueue_node q = nullptr ->
      heap q !! a = Some n -> data_mem n = v -> consumer_at q nodes (C_connect (at_node a) v (at_node b)) true []
  | at_advance a n : unheld q nodes -> heap q !! a = Some n -> next n = nullptr -> consumer_at q nodes (C_advance (at_node a) (data_mem n)) false [a]
  | at_advance_held a n b rest back : nodes = b :: rest ++ back -> held q b rest [] [] back -> _cur_enqueue_node q = nullptr ->
      heap q !! a = Some n -> next n = at_node b -> consumer_at q nodes (C_advance (at_node a) (data_mem n)) true [a]
  | at_free a n : unheld q nodes -> heap q !! a = Some n -> _cur_dequeue_node q = nullptr -> consumer_at q nodes (C_free (at_node a) (data_mem n)) false [a]
  | at_free_held a n b rest back : nodes = b :: rest ++ back -> held q b rest [] [] back -> _cur_enqueue_node q = nullptr ->
      heap q !! a = Some n -> _cur_dequeue_node q = at_node b -> consumer_at q nodes (C_free (at_node a) (data_mem n)) true [a].

(** The node that a call of [Enqueue] still has to write to. *)
Definition owned (s : producer (T := T)) : option positive :=
  match s with P_exchange a | P_link a _ | P_publish a => Some a | _ => None end.

(** What a call of [Enqueue] knows between two steps. *)
Definition producer_at q nodes (limbo : list positive) (is_held : bool) (s : producer (T := T)) : Prop :=
  match s with
  | P_exchange a => next_of q a = Some UNCONNECTED /\ a ∉ limbo ++ nodes
  | P_link a nullptr => next_of q a = Some UNCONNECTED /\ is_held = false /\ head nodes = Some a
  | P_link a (at_node p) => next_of q a = Some UNCONNECTED /\ adjacent p a nodes
  | P_link a UNCONNECTED => False
  | P_publish a => next_of q a = Some nullptr /\ _cur_enqueue_node q = nullptr /\ is_held = false /\ head nodes = Some a
  | _ => True
  end.

Record inv c (nodes limbo : list positive) (is_held : bool) : Prop := {
  inv_consumer : consumer_at (queue c) nodes (the_consumer c) is_held limbo;
  inv_producers : forall i s, producers c !! i = Some s -> producer_at (queue c) nodes limbo is_held s;
  inv_owned : forall i j s s' a, producers c !! i = Some s -> producers c !! j = Some s' -> owned s = Some a -> owned s' = Some a -> i = j;
  inv_nodup : NoDup (limbo ++ nodes);
  inv_alloc : forall a, is_Some (heap (queue c) !! a) <-> a ∈ limbo ++ nodes \/ exists i, producers c !! i = Some (P_exchange a);
  inv_pending : forall a, a ∈ nodes -> next_of (queue c) a = Some UNCONNECTED -> exists i p, producers c !! i = Some (P_link a p);
  inv_first : forall a, is_held = false -> head nodes = Some a -> next_of (queue c) a = Some nullptr -> _cur_enqueue_node (queue c) = nullptr ->
    exists i, producers c !! i = Some (P_publish a);
  inv_data : exists data, Forall2 (fun a v => data_mem <$> heap (queue c) !! a = Some v) (limbo ++ nodes) data /\ enqueued c = dequeued c ++ data
}.

(** Apply the constructor that the state of the consumer calls for. *)
Ltac consumer_case :=
  match goal with
  | |- consumer_at _ _ ?s ?h _ =>
      lazymatch s with
      | C_clear _ => eapply at_clear
      | C_move _ => eapply at_move
      | C_last _ _ => eapply at_last
      | C_compare _ _ => eapply at_compare
      | C_reverse _ _ _ _ => eapply at_reverse
      | C_reverse_next _ _ _ _ _ => eapply at_reverse_next
      | C_connect _ _ _ => eapply at_connect
      | C_advance _ _ => lazymatch h with true => eapply at_advance_held | false => eapply at_advance end
      | C_free _ _ => lazymatch h with true => eapply at_free_held | false => eapply at_free end
      | _ => lazymatch h with true => eapply at_rest_held | false => eapply at_rest end
      end
  end.

(** *** Changes of memory *)

(** The same nodes and the same pointers to them. *)
Record agree q q' l : Prop := {
  agree_nodes : forall a, a ∈ l -> heap q' !! a = heap q !! a;
  agree_head : _head q' = _head q;
  agree_enqueue : _cur_enqueue_node q' = _cur_enqueue_node q;
  agree_dequeue : _cur_dequeue_node q' = _cur_dequeue_node q
}.

Lemma next_frame q q' a : heap q' !! a = heap q !! a -> next_of q' a = next_of q a.
Proof. unfold next_of. congruence. Qed.

Lemma held_nodes q q' a rest mid post back : (forall b, b ∈ a :: rest ++ mid ++ post ++ back -> next_of q' b = next_of q b) -> _head q' = _head q ->
  held q a rest mid post back -> held q' a rest mid post back.
Proof.
  intros Hn Hh [H1 H2 H3 H4 H5]. split; try congruence.
  - revert H1. apply chain_frame. intros b Hb. apply Hn. rewrite app_comm_cons, elem_of_app. by left.
  - revert H2. apply linked_frame. intros b Hb. apply Hn. rewrite elem_of_cons, !elem_of_app. auto.
  - revert H3. apply chain_frame. intros b Hb. apply Hn. rewrite elem_of_cons, !elem_of_app. auto.
  - revert H4. apply linked_frame. intros b Hb. apply Hn. rewrite elem_of_cons, !elem_of_app. auto.
Qed.
Lemma unheld_frame q q' l : agree q q' l -> unheld q l -> unheld q' l.
Proof.
  intros [Hn Hh He Hd]. destruct l as [|a back]; simpl; rewrite Hh, He; [done|]. intros (H1 & H2 & H3). split; [|split; [done|]].
  - revert H1. apply linked_frame. intros b Hb. apply next_frame, Hn. by right.
  - by rewrite (next_frame q q' a) by (apply Hn; by left).
Qed.
Lemma held_frame q q' a rest mid post back : agree q q' (a :: rest ++ mid ++ post ++ back) -> held q a rest mid post back -> held q' a rest mid post back.
Proof. intros [Hn Hh _ _]. apply held_nodes; [|done]. intros b Hb. by apply next_frame, Hn. Qed.

Lemma agree_sub q q' l l' : agree q q' l -> (forall a, a ∈ l' -> a ∈ l) -> agree q q' l'.
Proof. intros [H1 H2 H3 H4] H. split; auto. Qed.

Lemma consumer_frame q q' nodes s is_held limbo : agree q q' (limbo ++ nodes) -> consumer_at q nodes s is_held limbo -> consumer_at q' nodes s is_held limbo.
Proof.
  intros Ha Hc. assert (agree q q' nodes) as Hn by (eapply agree_sub; [exact Ha|]; intros; apply elem_of_app; auto).
  assert (forall a n, a ∈ limbo ++ nodes -> heap q !! a = Some n -> heap q' !! a = Some n) as Hh by (intros a n Hin <-; by apply (agree_nodes _ _ _ Ha)).
  pose proof (agree_enqueue _ _ _ Ha) as He. pose proof (agree_dequeue _ _ _ Ha) as Hd.
  assert (forall a (x : ptr), a ∈ limbo ++ nodes -> next_of q a = Some x -> next_of q' a = Some x) as Hx by (intros a x Hin <-; by apply next_frame, (agree_nodes _ _ _ Ha)).
  destruct Hc; subst; rewrite <- ?He, <- ?Hd in *; consumer_case; try eassumption; try reflexivity;
    try (match goal with |- unheld _ _ => eapply unheld_frame; eassumption end);
    try (match goal with |- held _ _ _ _ _ _ => eapply held_frame; [|eassumption]; simpl; rewrite <- ?app_assoc; exact Hn end);
    try (match goal with |- heap _ !! _ = _ => eapply Hh; [|eassumption]; by left end).
  apply Hx; [|done]. apply elem_of_app. right. apply elem_of_cons. right. apply elem_of_app. right. by left.
Qed.

(** An exchange of [_head]. *)
Lemma held_exchange q a rest mid post back b : held q a rest mid post back -> next_of q b = Some UNCONNECTED ->
  held (set_head q (at_node b)) a rest mid post (back ++ [b]).
Proof.
  intros [H1 H2 H3 H4 H5] Hb. split.
  - revert H1. by apply chain_frame.
  - revert H2. by apply linked_frame.
  - revert H3. by apply chain_frame.
  - apply linked_app. split; [revert H4; by apply linked_frame|]. simpl. split; [by left|done].
  - cbn [set_head _head]. by rewrite !app_assoc, end_of_snoc.
Qed.
Lemma unheld_exchange q nodes b : unheld q nodes -> next_of q b = Some UNCONNECTED -> unheld (set_head q (at_node b)) (nodes ++ [b]).
Proof.
  intros H Hb. destruct nodes as [|a back]; simpl in *.
  - destruct H as [_ He]. auto.
  - destruct H as (H1 & H2 & H3). rewrite end_of_snoc. split; [|done]. apply linked_app. split; [revert H1; by apply linked_frame|]. simpl. auto.
Qed.
Lemma consumer_exchange q nodes s is_held limbo b : consumer_at q nodes s is_held limbo -> next_of q b = Some UNCONNECTED ->
  consumer_at (set_head q (at_node b)) (nodes ++ [b]) s is_held limbo.
Proof.
  intros Hc Hb. destruct Hc; subst; consumer_case;
    try (match goal with |- held _ _ _ _ _ _ => apply held_exchange; eassumption end);
    try eassumption; try reflexivity; try (by apply unheld_exchange);
    simpl; rewrite <- ?app_assoc; simpl; rewrite <- ?app_assoc; done.
Qed.

Lemma next_alloc q a (p : ptr) : next_of q a = Some p -> is_Some (heap q !! a).
Proof. unfold next_of. by destruct (heap q !! a). Qed.

(** An assignment to [next]. *)
Record stored q q' b (v : ptr) : Prop := {
  stored_at : exists n, heap q !! b = Some n /\ heap q' = <[b := {| next := v; data_mem := data_mem n |}]> (heap q);
  stored_head : _head q' = _head q;
  stored_enqueue : _cur_enqueue_node q' = _cur_enqueue_node q;
  stored_dequeue : _cur_dequeue_node q' = _cur_dequeue_node q
}.

Lemma store_stored q b v : is_Some (heap q !! b) -> exists q', store_next q (at_node b) v = Some q' /\ stored q q' b v.
Proof. intros [n E]. simpl. rewrite E. simpl. eexists. split; [done|]. split; [|done..]. by exists n. Qed.
Lemma stored_other q q' b v x : stored q q' b v -> x <> b -> heap q' !! x = heap q !! x.
Proof. intros [(n & _ & ->) _ _ _] Hne. by apply lookup_insert_ne. Qed.
Lemma stored_next q q' b v : stored q q' b v -> next_of q' b = Some v.
Proof. intros [(n & _ & E) _ _ _]. unfold next_of. by rewrite E, lookup_insert_eq. Qed.
Lemma stored_data q q' b v x : stored q q' b v -> data_mem <$> heap q' !! x = data_mem <$> heap q !! x.
Proof.
  intros [(n & E & ->) _ _ _]. destruct (decide (x = b)) as [->|Hne]; [by rewrite lookup_insert_eq, E|by rewrite lookup_insert_ne].
Qed.
Lemma stored_alloc q q' b v x : stored q q' b v -> is_Some (heap q' !! x) <-> is_Some (heap q !! x).
Proof.
  intros H. pose proof (stored_data _ _ _ _ x H) as E. destruct (heap q' !! x), (heap q !! x); try discriminate; split; intros [? Hd]; (done || discriminate).
Qed.
Lemma stored_agree q q' b v l : stored q q' b v -> b ∉ l -> agree q q' l.
Proof. intros H Hb. split; try apply H. intros a Ha. apply (stored_other _ _ _ _ _ H). by intros ->. Qed.

Lemma split_end a l : exists l', a :: l = l' ++ [end_of a l].
Proof.
  revert a. induction l as [|b l IH]; intros a; [by exists []|]. destruct (IH b) as [l' E]. exists (a :: l'). simpl. by rewrite E.
Qed.

Lemma held_connect q q' a rest mid post back b p : held q a rest mid post back -> stored q q' b (at_node p) ->
  next_of q b = Some UNCONNECTED -> NoDup (a :: rest ++ mid ++ post ++ back) -> adjacent p b (a :: rest ++ mid ++ post ++ back) ->
  held q' a rest mid post back.
Proof.
  intros [H1 H2 H3 H4 H5] Hs Hb Hnd Hadj.
  assert (forall x, x <> b -> next_of q' x = next_of q x) as Hold by (intros x Hx; by apply next_frame, (stored_other _ _ _ _ _ Hs)).
  assert (forall l, chain q l -> chain q' l) as Hchain.
  { intros l Hl. apply (chain_frame q); [|done]. intros x Hx. apply Hold. intros ->. by apply (chain_unconnected q l b). }
  assert (forall l1 y l l2, a :: rest ++ mid ++ post ++ back = l1 ++ (y :: l) ++ l2 -> linked q y l -> linked q' y l) as Hlinked.
  { intros l1 y l l2 E. apply (linked_connect q q' y l b p); [done|by apply stored_next in Hs|]. intros x Hx.
    apply (adjacent_unique x p b _ Hnd); [|done]. rewrite E. by apply adjacent_app. }
  split; [by apply Hchain| |by apply Hchain| |by rewrite (stored_head _ _ _ _ Hs)].
  - destruct (split_end a rest) as [l' E]. apply (Hlinked l' _ _ (post ++ back)); [|done]. rewrite app_comm_cons, E, <- !app_assoc. done.
  - destruct (split_end a (rest ++ mid ++ post)) as [l' E]. apply (Hlinked l' _ _ []); [|done].
    rewrite app_nil_r, !app_assoc, app_comm_cons. rewrite <- !app_assoc in *. rewrite E. by rewrite <- !app_assoc.
Qed.

Lemma unheld_connect q q' nodes b p : unheld q nodes -> stored q q' b (at_node p) -> next_of q b = Some UNCONNECTED -> NoDup nodes -> adjacent p b nodes ->
  unheld q' nodes.
Proof.
  intros H Hs Hb Hnd Hadj. assert (head nodes <> Some b) as Hfirst by (intros E; by apply (adjacent_first p b nodes)).
  assert (forall x, x <> b -> next_of q' x = next_of q x) as Hold by (intros x Hx; by apply next_frame, (stored_other _ _ _ _ _ Hs)).
  destruct nodes as [|a back]; [destruct Hadj as (? & ? & ?); done|]. simpl in *. destruct H as (H1 & H2 & H3).
  rewrite (stored_head _ _ _ _ Hs), (stored_enqueue _ _ _ _ Hs), Hold by congruence. split; [|done].
  apply (linked_connect q q' a back b p); [done|by apply stored_next in Hs| |done]. intros x Hx. by apply (adjacent_unique x p b _ Hnd).
Qed.

Lemma consumer_connect q q' nodes s is_held limbo b p : consumer_at q nodes s is_held limbo -> stored q q' b (at_node p) ->
  next_of q b = Some UNCONNECTED -> NoDup (limbo ++ nodes) -> adjacent p b nodes -> consumer_at q' nodes s is_held limbo.
Proof.
  intros Hc Hs Hb Hnd Hadj. assert (NoDup nodes) as Hnd' by (by apply list.NoDup_app in Hnd as (_ & _ & ?)).
  assert (head nodes <> Some b) as Hfirst by (intros E; by apply (adjacent_first p b nodes)).
  assert (b ∉ limbo) as Hlimbo by (intros H; apply list.NoDup_app in Hnd as (_ & Hd & _); apply (Hd b H), (adjacent_in p b nodes Hadj)).
  assert (forall x, x <> b -> heap q' !! x = heap q !! x) as Hold by (intros x Hx; by apply (stored_other _ _ _ _ _ Hs)).
  pose proof (stored_enqueue _ _ _ _ Hs) as He. pose proof (stored_dequeue _ _ _ _ Hs) as Hd.
  destruct Hc; subst; rewrite <- ?He, <- ?Hd in *; consumer_case;
    try (match goal with |- held _ _ _ _ _ _ => eapply held_connect; try eassumption; simpl; rewrite <- ?app_assoc; eassumption end);
    try eassumption; try reflexivity;
    try (match goal with |- unheld _ _ => by eapply unheld_connect end);
    try (match goal with |- heap _ !! _ = _ => rewrite Hold; [eassumption|] end;
         first [simpl in Hfirst; congruence | intros ->; apply Hlimbo; by left]).
  rewrite (next_frame q q'); [done|]. apply Hold. intros ->. congruence.
Qed.

(** The first node of a queue that nobody holds: its [next], then the pointer to it. *)
Lemma unheld_first q q' nodes b : unheld q nodes -> stored q q' b nullptr -> next_of q b = Some UNCONNECTED -> NoDup nodes -> head nodes = Some b ->
  unheld q' nodes.
Proof.
  intros H Hs Hb Hnd Hh. destruct nodes as [|a back]; [done|]. injection Hh as ->. simpl in *. destruct H as (H1 & H2 & H3).
  apply list.NoDup_cons in Hnd as [Hnb Hnd]. rewrite (stored_head _ _ _ _ Hs), (stored_enqueue _ _ _ _ Hs), (stored_next _ _ _ _ Hs).
  split; [|split; [done|]].
  - revert H1. apply linked_frame. intros x Hx. apply next_frame, (stored_other _ _ _ _ _ Hs). by intros ->.
  - right. split; [done|]. destruct H3 as [[_ H3]|[H3 _]]; [by left|congruence].
Qed.
Lemma unheld_publish q nodes b : unheld q nodes -> next_of q b = Some nullptr -> head nodes = Some b -> unheld (set_enqueue q (at_node b)) nodes.
Proof.
  intros H Hb Hh. destruct nodes as [|a back]; [done|]. injection Hh as ->. simpl in *. destruct H as (H1 & H2 & H3).
  split; [revert H1; by apply linked_frame|]. split; [done|]. right. auto.
Qed.
Lemma consumer_first q q' nodes s limbo b : consumer_at q nodes s false limbo -> stored q q' b nullptr -> next_of q b = Some UNCONNECTED ->
  NoDup (limbo ++ nodes) -> head nodes = Some b -> consumer_at q' nodes s false limbo.
Proof.
  intros Hc Hs Hb Hnd Hh. apply list.NoDup_app in Hnd as (_ & Hd & Hnd).
  assert (b ∈ nodes) as Hin by (destruct nodes; [done|]; injection Hh as ->; by left).
  assert (forall x, x ∈ limbo -> heap q' !! x = heap q !! x) as Hold by (intros x Hx; apply (stored_other _ _ _ _ _ Hs); intros ->; by apply (Hd b)).
  pose proof (stored_dequeue _ _ _ _ Hs) as Hdq.
  inversion Hc; subst; rewrite <- ?Hdq in *; consumer_case; try eassumption; try reflexivity; try (by eapply unheld_first);
    rewrite Hold; (eassumption || by left).
Qed.
Lemma consumer_publish q nodes s limbo b : consumer_at q nodes s false limbo -> next_of q b = Some nullptr -> head nodes = Some b ->
  consumer_at (set_enqueue q (at_node b)) nodes s false limbo.
Proof.
  intros Hc Hb Hh. inversion Hc; subst; consumer_case; try eassumption; try reflexivity; by apply unheld_publish.
Qed.

(** Where [_head] points to. *)
Lemma consumer_head q nodes s is_held limbo : consumer_at q nodes s is_held limbo ->
  match nodes with [] => _head q = nullptr /\ is_held = false | a :: l => _head q = at_node (end_of a l) end.
Proof.
  intros Hc. assert (forall l, unheld q l -> match l with [] => _head q = nullptr | a :: l => _head q = at_node (end_of a l) end) as Hu.
  { intros [|a l]; simpl; tauto. }
  destruct Hc; subst; try (match goal with H : held _ _ _ _ _ _ |- _ => apply held_head in H; simpl in H; rewrite <- ?app_assoc in H; exact H end);
    match goal with H : unheld _ ?l |- _ => apply Hu in H; by destruct l end.
Qed.

(** *** Steps of the calls of [Enqueue] *)

Lemma owned_alloc q nodes limbo is_held s a : producer_at q nodes limbo is_held s -> owned s = Some a -> is_Some (heap q !! a).
Proof.
  assert (forall p, next_of q a = Some p -> is_Some (heap q !! a)) as Hn by (unfold next_of; intros p; by destruct (heap q !! a)).
  destruct s as [| |b p| |]; simpl; intros H E; try done; injection E as ->; try destruct p; first [destruct H; fail | eapply Hn, H].
Qed.
Lemma producer_frame q q' nodes limbo is_held s : (forall a, owned s = Some a -> heap q' !! a = heap q !! a) ->
  _cur_enqueue_node q' = _cur_enqueue_node q -> producer_at q nodes limbo is_held s -> producer_at q' nodes limbo is_held s.
Proof.
  intros Hn He. destruct s as [|a|a p|a|]; simpl; try done; specialize (Hn a eq_refl); apply next_frame in Hn; rewrite Hn, ?He; [done|by destruct p|done].
Qed.

Definition after_producer c i s q (new : list T) : conf (T := T) :=
  {| queue := q; producers := <[i := s]> (producers c); the_consumer := the_consumer c; enqueued := enqueued c ++ new; dequeued := dequeued c |}.

Lemma inv_update c nodes limbo is_held i s s' q nodes' (new : list T) : inv c nodes limbo is_held -> producers c !! i = Some s ->
  (forall a, owned s' = Some a -> owned s = Some a \/ heap (queue c) !! a = None) ->
  consumer_at q nodes' (the_consumer c) is_held limbo ->
  producer_at q nodes' limbo is_held s' ->
  (forall j t, j <> i -> producers c !! j = Some t -> (forall a, owned s = Some a -> owned t <> Some a) -> producer_at (queue c) nodes limbo is_held t -> producer_at q nodes' limbo is_held t) ->
  NoDup (limbo ++ nodes') ->
  (forall a, is_Some (heap q !! a) <-> a ∈ limbo ++ nodes' \/ exists j, <[i := s']> (producers c) !! j = Some (P_exchange a)) ->
  (forall a, a ∈ nodes' -> next_of q a = Some UNCONNECTED -> exists j p, <[i := s']> (producers c) !! j = Some (P_link a p)) ->
  (forall a, is_held = false -> head nodes' = Some a -> next_of q a = Some nullptr -> _cur_enqueue_node q = nullptr ->
    exists j, <[i := s']> (producers c) !! j = Some (P_publish a)) ->
  (forall data, Forall2 (fun a v => data_mem <$> heap (queue c) !! a = Some v) (limbo ++ nodes) data ->
    Forall2 (fun a v => data_mem <$> heap q !! a = Some v) (limbo ++ nodes') (data ++ new)) ->
  inv (after_producer c i s' q new) nodes' limbo is_held.
Proof.
  intros Hi Es Hown Hcons Hs' Hothers Hnd Halloc Hpend Hfirst Hdata.
  assert (forall j t a, j <> i -> producers c !! j = Some t -> owned s = Some a -> owned t <> Some a) as Hdist.
  { intros j t a Hne Et Ea Ea'. apply Hne. by apply (inv_owned _ _ _ _ Hi j i t s a). }
  assert (forall j t a, j <> i -> producers c !! j = Some t -> owned s' = Some a -> owned t <> Some a) as Hdist'.
  { intros j t a Hne Et Ea Ea'. destruct (Hown a Ea) as [Es'|En]; [by apply (Hdist j t a)|].
    destruct (owned_alloc _ _ _ _ _ a (inv_producers _ _ _ _ Hi j t Et) Ea'). congruence. }
  split; [exact Hcons| | |exact Hnd|exact Halloc|exact Hpend|exact Hfirst|]; cbn [after_producer queue producers the_consumer enqueued dequeued].
  - intros j t Et. destruct (decide (j = i)) as [->|Hne]; [rewrite lookup_insert_eq in Et; by injection Et as <-|].
    rewrite lookup_insert_ne in Et by done. apply (Hothers j t Hne Et); [intros; by apply (Hdist j t)|]. by apply (inv_producers _ _ _ _ Hi j).
  - intros j k t t' a. destruct (decide (j = i)) as [->|Hj], (decide (k = i)) as [->|Hk]; rewrite ?lookup_insert_eq, ?lookup_insert_ne by done; [done| | |].
    + intros [= <-] Et' Ea Ea'. by destruct (Hdist' k t' a).
    + intros Et [= <-] Ea Ea'. by destruct (Hdist' j t a).
    + apply (inv_owned _ _ _ _ Hi).
  - destruct (inv_data _ _ _ _ Hi) as (data & Hd & E). exists (data ++ new). split; [by apply Hdata|]. by rewrite E, app_assoc.
Qed.

Lemma fresh_not_in c nodes limbo is_held a : inv c nodes limbo is_held -> heap (queue c) !! a = None -> a ∉ limbo ++ nodes.
Proof. intros Hi E Ha. assert (is_Some (heap (queue c) !! a)) as [? ?] by (apply (inv_alloc _ _ _ _ Hi); by left). congruence. Qed.
Lemma forall2_data q q' l data : (forall a, a ∈ l -> data_mem <$> heap q' !! a = data_mem <$> heap q !! a) ->
  Forall2 (fun a v => data_mem <$> heap q !! a = Some v) l data -> Forall2 (fun a v => data_mem <$> heap q' !! a = Some v) l data.
Proof.
  intros H Hd. induction Hd as [|a v l data E Hd IH]; constructor; [rewrite H by left; done|]. apply IH. intros x Hx. apply H. by right.
Qed.
Lemma exchange_elsewhere (ps : gmap nat (producer (T := T))) i s s' a : ps !! i = Some s -> s <> P_exchange a -> s' <> P_exchange a ->
  (exists j, <[i := s']> ps !! j = Some (P_exchange a)) <-> (exists j, ps !! j = Some (P_exchange a)).
Proof.
  intros Es Hs Hs'. split; intros [j E]; exists j; (destruct (decide (j = i)) as [->|Hne]; [|by rewrite ?lookup_insert_ne in * by done]);
    rewrite ?lookup_insert_eq in *; congruence.
Qed.

Lemma enqueue_inv c nodes limbo is_held i v fresh : inv c nodes limbo is_held -> producers c !! i = Some (P_enqueue v) -> heap (queue c) !! fresh = None ->
  inv (after_producer c i (P_exchange fresh) (set_heap (queue c) (<[fresh := {| next := UNCONNECTED; data_mem := v |}]> (heap (queue c)))) []) nodes limbo is_held.
Proof.
  intros Hi Es Hfresh. set (q' := set_heap _ _). pose proof (fresh_not_in _ _ _ _ _ Hi Hfresh) as Hnot.
  assert (forall a, a <> fresh -> heap q' !! a = heap (queue c) !! a) as Hold by (intros a Hne; by apply lookup_insert_ne).
  assert (heap q' !! fresh = Some {| next := UNCONNECTED; data_mem := v |}) as Hnew by apply lookup_insert_eq.
  assert (forall a, a ∈ limbo ++ nodes -> heap q' !! a = heap (queue c) !! a) as Hin by (intros a Ha; apply Hold; by intros ->).
  apply (inv_update c nodes limbo is_held i (P_enqueue v)); try done.
  - intros a [= <-]. by right.
  - apply (consumer_frame (queue c)); [by split|apply Hi].
  - simpl. split; [|done]. unfold next_of. by rewrite Hnew.
  - intros j t _ _ _ Ht. apply (producer_frame (queue c)); [|done|done]. intros a Ea. apply Hold. intros ->.
    destruct (owned_alloc _ _ _ _ _ _ Ht Ea). congruence.
  - apply Hi.
  - intros a. destruct (decide (a = fresh)) as [->|Hne].
    + rewrite Hnew. split; [|by eexists]. intros _. right. exists i. apply lookup_insert_eq.
    + rewrite Hold by done. rewrite exchange_elsewhere by (done || congruence). apply (inv_alloc _ _ _ _ Hi).
  - intros a Ha Hn. rewrite (next_frame (queue c)) in Hn by (apply Hin, elem_of_app; by right).
    destruct (inv_pending _ _ _ _ Hi a Ha Hn) as (j & p & E). exists j, p. rewrite lookup_insert_ne; [done|]. congruence.
  - intros a Hh Ha Hn He. rewrite (next_frame (queue c)) in Hn by (apply Hin, elem_of_app; right; destruct nodes; [done|]; injection Ha as ->; by left).
    destruct (inv_first _ _ _ _ Hi a Hh Ha Hn He) as (j & E). exists j. rewrite lookup_insert_ne; [done|]. congruence.
  - intros data. rewrite app_nil_r. apply forall2_data. intros a Ha. by rewrite Hin.
Qed.


Lemma exchange_inv c nodes limbo is_held i a n : inv c nodes limbo is_held -> producers c !! i = Some (P_exchange a) -> heap (queue c) !! a = Some n ->
  inv (after_producer c i (P_link a (_head (queue c))) (set_head (queue c) (at_node a)) [data_mem n]) (nodes ++ [a]) limbo is_held.
Proof.
  intros Hi Es En. destruct (inv_producers _ _ _ _ Hi i _ Es) as [Hnext Hnot]. rewrite not_elem_of_app in Hnot. destruct Hnot as [Hl Hn].
  pose proof (consumer_head _ _ _ _ _ (inv_consumer _ _ _ _ Hi)) as Hhead.
  apply (inv_update c nodes limbo is_held i (P_exchange a)); try done.
  - intros b Eb. by left.
  - apply consumer_exchange; [apply Hi|done].
  - simpl. destruct nodes as [|b l]; [destruct Hhead as [-> ->]; done|]. rewrite Hhead. split; [done|]. apply adjacent_end.
  - intros j t Hne Et Hd Ht. destruct t as [|b|b p|b|]; simpl in *; try done.
    + destruct Ht as [Hb Hnb]. split; [done|]. rewrite !elem_of_app, list_elem_of_singleton in *. specialize (Hd a eq_refl). intros [?|[?|Hba]]; [tauto|tauto|congruence].
    + destruct p; [done| |]; destruct Ht as [Hb Ht]; (split; [done|]).
      * destruct Ht as [-> Ht]. split; [done|]. by destruct nodes.
      * by apply (adjacent_app _ _ [] _ [a]) in Ht.
    + destruct Ht as (Hb & He & Hh & Hf). split_and!; try done. by destruct nodes.
  - rewrite app_assoc. apply list.NoDup_app. split; [apply Hi|]. split; [|apply NoDup_singleton].
    intros x Hx ->%list_elem_of_singleton. apply elem_of_app in Hx. tauto.
  - intros b. change (heap (set_head (queue c) (at_node a))) with (heap (queue c)). rewrite (inv_alloc _ _ _ _ Hi b), !elem_of_app, list_elem_of_singleton.
    split.
    + intros [?|[j Ej]]; [left; tauto|]. destruct (decide (j = i)) as [->|Hne]; [left; right; right; congruence|].
      right. exists j. by rewrite lookup_insert_ne.
    + intros [[?|[?|Hba]]|[j Ej]]; [left; tauto|left; tauto|subst b; right; by exists i|]. right.
      destruct (decide (j = i)) as [->|Hne]; [by rewrite lookup_insert_eq in Ej|]. rewrite lookup_insert_ne in Ej by done. by exists j.
  - intros b Hb Hu. apply elem_of_app in Hb as [Hb|Hb]; [|apply list_elem_of_singleton in Hb as ->; exists i; eexists; apply lookup_insert_eq].
    destruct (inv_pending _ _ _ _ Hi b Hb Hu) as (j & p & Ej). exists j, p. rewrite lookup_insert_ne; [done|]. congruence.
  - intros b Hh Hb Hnb He. assert (head nodes = Some b) as Hf.
    { destruct nodes as [|x l]; [|done]. injection Hb as <-. change (next_of (queue c) a = Some nullptr) in Hnb. congruence. }
    destruct (inv_first _ _ _ _ Hi b Hh Hf Hnb He) as (j & Ej). exists j. rewrite lookup_insert_ne; [done|]. congruence.
  - intros data Hd. rewrite app_assoc. apply Forall2_app; [exact Hd|]. constructor; [by cbn [set_head heap]; rewrite En|constructor].
Qed.

(** The last step of a call: the address of the node is given up. *)
Lemma pending_elsewhere (ps : gmap nat (producer (T := T))) i a s s' b : ps !! i = Some s -> (forall p, s = P_link b p -> b = a) -> b <> a ->
  (exists j p, ps !! j = Some (P_link b p)) -> exists j p, <[i := s']> ps !! j = Some (P_link b p).
Proof. intros Es Hs Hne (j & p & Ej). exists j, p. rewrite lookup_insert_ne; [done|]. intros <-. apply Hne, (Hs p). congruence. Qed.

Lemma connect_inv c nodes limbo is_held i a p : inv c nodes limbo is_held -> producers c !! i = Some (P_link a (at_node p)) ->
  exists q', store_next (queue c) (at_node a) (at_node p) = Some q' /\ inv (after_producer c i P_return q' []) nodes limbo is_held.
Proof.
  intros Hi Es. destruct (inv_producers _ _ _ _ Hi i _ Es) as [Hnext Hadj].
  destruct (store_stored (queue c) a (at_node p)) as (q' & -> & Hs); [by eapply next_alloc|].
  exists q'. split; [done|].
  assert (forall x, x <> a -> next_of q' x = next_of (queue c) x) as Hold by (intros x Hx; by apply next_frame, (stored_other _ _ _ _ _ Hs)).
  apply (inv_update c nodes limbo is_held i (P_link a (at_node p))); try done.
  - by eapply consumer_connect; [apply Hi|exact Hs|exact Hnext|apply Hi|].
  - intros j t Hne Et Hd Ht. apply (producer_frame (queue c)); [|apply Hs|done]. intros b Eb. apply (stored_other _ _ _ _ _ Hs). intros ->. by apply (Hd a).
  - apply Hi.
  - intros b. rewrite (stored_alloc _ _ _ _ b Hs), exchange_elsewhere by done. apply (inv_alloc _ _ _ _ Hi).
  - intros b Hb Hu. assert (b <> a) as Hne by (intros ->; rewrite (stored_next _ _ _ _ Hs) in Hu; done). rewrite Hold in Hu by done.
    apply (pending_elsewhere _ i a (P_link a (at_node p))); [done|congruence|done|]. by apply (inv_pending _ _ _ _ Hi).
  - intros b Hh Hb Hu He. assert (b <> a) as Hne by (intros ->; rewrite (stored_next _ _ _ _ Hs) in Hu; done). rewrite Hold in Hu by done.
    rewrite (stored_enqueue _ _ _ _ Hs) in He. destruct (inv_first _ _ _ _ Hi b Hh Hb Hu He) as (j & E). exists j. rewrite lookup_insert_ne; [done|]. congruence.
  - intros data. rewrite app_nil_r. apply forall2_data. intros b _. by apply (stored_data _ _ _ _ _ Hs).
Qed.

Lemma first_inv c nodes limbo is_held i a : inv c nodes limbo is_held -> producers c !! i = Some (P_link a nullptr) ->
  exists q', store_next (queue c) (at_node a) nullptr = Some q' /\ inv (after_producer c i (P_publish a) q' []) nodes limbo is_held.
Proof.
  intros Hi Es. destruct (inv_producers _ _ _ _ Hi i _ Es) as (Hnext & -> & Hfirst).
  destruct (store_stored (queue c) a nullptr) as (q' & -> & Hs); [by eapply next_alloc|].
  exists q'. split; [done|].
  assert (forall x, x <> a -> next_of q' x = next_of (queue c) x) as Hold by (intros x Hx; by apply next_frame, (stored_other _ _ _ _ _ Hs)).
  assert (_cur_enqueue_node (queue c) = nullptr) as He0.
  { pose proof (inv_consumer _ _ _ _ Hi) as Hc. assert (forall q, unheld q nodes -> next_of q a = Some UNCONNECTED -> _cur_enqueue_node q = nullptr) as Hu.
    { intros q. destruct nodes as [|b l]; [done|]. injection Hfirst as ->. simpl. intros (_ & _ & [[_ ?]|[? _]]); congruence. }
    inversion Hc; subst; by apply Hu. }
  apply (inv_update c nodes limbo false i (P_link a nullptr)); try done.
  - intros b Eb. by left.
  - by eapply consumer_first; [apply Hi|exact Hs|exact Hnext|apply Hi|].
  - simpl. rewrite (stored_next _ _ _ _ Hs), (stored_enqueue _ _ _ _ Hs). done.
  - intros j t Hne Et Hd Ht. apply (producer_frame (queue c)); [|apply Hs|done]. intros b Eb. apply (stored_other _ _ _ _ _ Hs). intros ->. by apply (Hd a).
  - apply Hi.
  - intros b. rewrite (stored_alloc _ _ _ _ b Hs), exchange_elsewhere by done. apply (inv_alloc _ _ _ _ Hi).
  - intros b Hb Hu. assert (b <> a) as Hne by (intros ->; rewrite (stored_next _ _ _ _ Hs) in Hu; done). rewrite Hold in Hu by done.
    apply (pending_elsewhere _ i a (P_link a nullptr)); [done|congruence|done|]. by apply (inv_pending _ _ _ _ Hi).
  - intros b Hh Hb Hu He. exists i. rewrite lookup_insert_eq. congruence.
  - intros data. rewrite app_nil_r. apply forall2_data. intros b _. by apply (stored_data _ _ _ _ _ Hs).
Qed.

Lemma publish_inv c nodes limbo is_held i a : inv c nodes limbo is_held -> producers c !! i = Some (P_publish a) ->
  inv (after_producer c i P_return (set_enqueue (queue c) (at_node a)) []) nodes limbo is_held.
Proof.
  intros Hi Es. destruct (inv_producers _ _ _ _ Hi i _ Es) as (Hnext & He0 & -> & Hfirst).
  apply (inv_update c nodes limbo false i (P_publish a)); try done.
  - apply consumer_publish; [apply Hi|done|done].
  - intros j t Hne Et Hd Ht. destruct t as [|b|b p|b|]; try done. destruct Ht as (_ & _ & _ & Hb). rewrite Hb in Hfirst. injection Hfirst as ->. by destruct (Hd a).
  - apply Hi.
  - intros b. rewrite exchange_elsewhere by done. apply (inv_alloc _ _ _ _ Hi).
  - intros b Hb Hu. destruct (decide (b = a)) as [->|Hne]; [change (next_of (queue c) a = Some UNCONNECTED) in Hu; congruence|].
    apply (pending_elsewhere _ i a (P_publish a)); [done|done|done|]. by apply (inv_pending _ _ _ _ Hi).
  - intros data. by rewrite app_nil_r.
Qed.

(** *** Steps of the calls of [Dequeue] *)

Definition after_consumer c s q : conf (T := T) :=
  {| queue := q; producers := producers c; the_consumer := s; enqueued := enqueued c; dequeued := dequeued c ++ dequeues s |}.

Lemma inv_consumer_update c nodes limbo is_held s q nodes' limbo' is_held' : inv c nodes limbo is_held ->
  consumer_at q nodes' s is_held' limbo' ->
  (forall t, producer_at (queue c) nodes limbo is_held t -> producer_at q nodes' limbo' is_held' t) ->
  NoDup (limbo' ++ nodes') ->
  (forall a, is_Some (heap q !! a) <-> a ∈ limbo' ++ nodes' \/ exists j, producers c !! j = Some (P_exchange a)) ->
  (forall a, a ∈ nodes' -> next_of q a = Some UNCONNECTED -> a ∈ nodes /\ next_of (queue c) a = Some UNCONNECTED) ->
  (forall a, is_held' = false -> head nodes' = Some a -> next_of q a = Some nullptr -> _cur_enqueue_node q = nullptr ->
    is_held = false /\ head nodes = Some a /\ next_of (queue c) a = Some nullptr /\ _cur_enqueue_node (queue c) = nullptr) ->
  (forall data, Forall2 (fun a v => data_mem <$> heap (queue c) !! a = Some v) (limbo ++ nodes) data ->
    exists data', Forall2 (fun a v => data_mem <$> heap q !! a = Some v) (limbo' ++ nodes') data' /\ data = dequeues s ++ data') ->
  inv (after_consumer c s q) nodes' limbo' is_held'.
Proof.
  intros Hi Hcons Hprod Hnd Halloc Hpend Hfirst Hdata. split; [exact Hcons| |apply Hi|exact Hnd|exact Halloc| | |];
    cbn [after_consumer queue producers the_consumer enqueued dequeued].
  - intros i t Et. apply Hprod. by apply (inv_producers _ _ _ _ Hi i).
  - intros a Ha Hu. destruct (Hpend a Ha Hu). by apply (inv_pending _ _ _ _ Hi).
  - intros a Hh Ha Hu He. destruct (Hfirst a Hh Ha Hu He) as (? & ? & ? & ?). by apply (inv_first _ _ _ _ Hi).
  - destruct (inv_data _ _ _ _ Hi) as (data & Hd & E). destruct (Hdata data Hd) as (data' & Hd' & ->). exists data'. by rewrite E, app_assoc.
Qed.

(** A step that leaves memory and the nodes as they are. *)
Lemma inv_same c nodes limbo is_held s : inv c nodes limbo is_held -> consumer_at (queue c) nodes s is_held limbo -> dequeues s = [] ->
  inv (after_consumer c s (queue c)) nodes limbo is_held.
Proof.
  intros Hi Hcons Hs. apply (inv_consumer_update c nodes limbo is_held); try done; try apply Hi. intros data Hd. exists data. by rewrite Hs.
Qed.

(** How many steps a call of [Dequeue] still takes at most, when no [Enqueue] is under way. *)
Fixpoint index p l : nat := match l with [] => O | x :: l => if decide (x = p) then O else S (index p l) end.
Definition rank nodes (s : consumer (T := T)) : nat :=
  (match s with
   | C_idle => 0
   | C_load => 2 * length nodes + 9
   | C_clear _ => 2 * length nodes + 8
   | C_move _ => 2 * length nodes + 7
   | C_last _ _ => 2 * length nodes + 6
   | C_compare _ _ => 2 * length nodes + 5
   | C_reverse _ _ _ p => 2 * (match p with at_node p => index p nodes | _ => 0 end) + 4
   | C_reverse_next _ _ _ p _ => 2 * (match p with at_node p => index p nodes | _ => 0 end) + 3
   | C_connect _ _ _ => 4
   | C_advance _ _ => 3
   | C_free _ _ => 2
   | C_return _ => 1
   end)%nat.

Lemma index_at p l1 l2 : p ∉ l1 -> index p (l1 ++ p :: l2) = length l1.
Proof.
  induction l1 as [|x l1 IH]; intros Hp; simpl; [by rewrite decide_True|]. rewrite elem_of_cons in Hp. rewrite decide_False by (intros ->; tauto). rewrite IH; tauto.
Qed.

(** The next step of the consumer: it succeeds and keeps the invariant, and it gets on unless it waits for an [Enqueue]. *)
Definition consumer_ok c nodes : Prop :=
  exists s q, sc_consumer_step (the_consumer c) (queue c) = Some (s, q) /\ exists nodes' limbo' is_held', inv (after_consumer c s q) nodes' limbo' is_held' /\
    ((forall a, a ∈ nodes -> next_of (queue c) a <> Some UNCONNECTED) -> the_consumer c <> C_idle -> (rank nodes' s < rank nodes (the_consumer c))%nat).

Lemma ok_intro c nodes s q nodes' limbo' is_held' : sc_consumer_step (the_consumer c) (queue c) = Some (s, q) ->
  ((forall a, a ∈ nodes -> next_of (queue c) a <> Some UNCONNECTED) -> the_consumer c <> C_idle -> (rank nodes' s < rank nodes (the_consumer c))%nat) ->
  inv (after_consumer c s q) nodes' limbo' is_held' -> consumer_ok c nodes.
Proof. intros E Hr H. exists s, q. split; [done|]. by exists nodes', limbo', is_held'. Qed.

(** The cases of the invariant that a state of the consumer leaves. *)
Ltac consumer_inv Hi Es :=
  let Hc := fresh "Hc" in
  pose proof (inv_consumer _ _ _ _ Hi) as Hc; rewrite Es in Hc; inversion Hc; subst; clear Hc;
  try (match goal with H : _ \/ _ |- _ => destruct H as [?|[?|[? ?]]]; discriminate end).

(** The consumer takes the first node over. *)
Lemma take_first c nodes s a : inv c nodes [] false -> _cur_enqueue_node (queue c) = at_node a -> s = C_clear (at_node a) ->
  unheld (queue c) nodes -> inv (after_consumer c s (queue c)) nodes [] true.
Proof.
  intros Hi He -> Hu. destruct nodes as [|b back]; [destruct Hu; congruence|]. destruct Hu as (Hl & Hh & [[_ ?]|[Hn [?|He']]]); [congruence..|].
  assert (b = a) as -> by congruence.
  apply (inv_consumer_update c (a :: back) [] false); try done; try apply Hi.
  - apply at_clear with [] back; [done|]. split; try done.
  - intros t Ht. destruct t as [|x|x p|x|]; simpl in *; try done.
    + destruct p; [done| |done]. destruct Ht as (Hx & _ & [= ->]). congruence.
    + destruct Ht as (_ & ? & _). congruence.
  - intros data Hd. by exists data.
Qed.

Lemma load_ok c nodes limbo is_held : inv c nodes limbo is_held -> the_consumer c = C_load -> consumer_ok c nodes.
Proof.
  intros Hi Es. pose proof (inv_consumer _ _ _ _ Hi) as Hc. rewrite Es in Hc. unfold consumer_ok. rewrite Es. cbn [sc_consumer_step].
  inversion Hc; subst.
  - destruct (decide (_cur_dequeue_node (queue c) <> nullptr)) as [Hx|_]; [done|]. eexists _, _. split; [done|].
    destruct (decide (_cur_enqueue_node (queue c) = nullptr)) as [E|E].
    + exists nodes, [], false. split; [|intros _ _; simpl; lia]. apply inv_same; [done| |done]. apply at_rest; [|done|done]. right. right. by eexists.
    + assert (exists a, _cur_enqueue_node (queue c) = at_node a) as [a Ea].
      { destruct nodes as [|b l]; simpl in *; [tauto|]. destruct H1 as (_ & _ & [[_ ?]|[_ [?|?]]]); [done..|]. by exists b. }
      exists nodes, [], true. rewrite Ea. split; [|intros _ _; simpl; lia]. by apply (take_first c nodes _ a).
  - rewrite H0. destruct (decide (at_node a <> nullptr)) as [_|[]]; [|done]. destruct (decide (at_node a = nullptr)); [done|]. eexists _, _. split; [done|].
    exists (a :: rest ++ back), [], true. split; [|intros _ _; simpl; lia]. apply inv_same; [done| |done]. by apply at_clear with rest back.
Qed.

Lemma consumer_clear_ok c nodes limbo is_held node : inv c nodes limbo is_held -> the_consumer c = C_clear node -> consumer_ok c nodes.
Proof.
  intros Hi Es. consumer_inv Hi Es. eapply (ok_intro _ _ _ _ (a :: rest ++ back)); [by rewrite Es|intros _ _; rewrite Es; simpl; lia|].
  apply (inv_consumer_update c (a :: rest ++ back) [] true); try done; try apply Hi.
  - apply at_move with rest back; [done| |done]. apply (held_nodes (queue c)); done.
  - intros t Ht. destruct t as [|x|x p|x|]; try done. destruct Ht as (_ & _ & ? & _). done.
  - intros data Hd. by exists data.
Qed.

Lemma held_in q a rest mid post back n : held q a rest mid post back -> heap q !! a = Some n -> next n = match rest with [] => nullptr | b :: _ => at_node b end.
Proof. intros [[H _] _ _ _ _] E. unfold next_of in H. rewrite E in H. by injection H. Qed.

Lemma first_node c a nodes limbo is_held : inv c (a :: nodes) limbo is_held -> exists n, heap (queue c) !! a = Some n.
Proof. intros Hi. assert (is_Some (heap (queue c) !! a)) as [n E]; [|by exists n]. apply (inv_alloc _ _ _ _ Hi). left. apply elem_of_app. right. by left. Qed.

Lemma move_ok c nodes limbo is_held node : inv c nodes limbo is_held -> the_consumer c = C_move node -> consumer_ok c nodes.
Proof.
  intros Hi Es. consumer_inv Hi Es. destruct (first_node _ _ _ _ _ Hi) as [n En].
  eapply (ok_intro _ _ _ _ (a :: rest ++ back)); [rewrite Es; simpl; by rewrite En|intros _ _; rewrite Es; simpl; lia|]. apply inv_same; [exact Hi| |done]. by eapply at_last.
Qed.

(** The first node leaves the queue, linked to the next one. *)
Lemma leave_first c q a n b rest back : inv c (a :: b :: rest ++ back) [] true -> heap q !! a = Some n -> next n = at_node b -> held q b rest [] [] back ->
  _cur_enqueue_node q = nullptr -> (forall x, x <> a -> heap q !! x = heap (queue c) !! x) -> data_mem <$> heap q !! a = data_mem <$> heap (queue c) !! a ->
  _cur_enqueue_node (queue c) = nullptr -> next_of (queue c) a <> Some UNCONNECTED ->
  inv (after_consumer c (C_advance (at_node a) (data_mem n)) q) (b :: rest ++ back) [a] true.
Proof.
  intros Hi En Hnext Hheld He Hold Hdata He' Ha. pose proof (inv_nodup _ _ _ _ Hi) as Hnd. apply list.NoDup_cons in Hnd as [Hna Hnd].
  assert (forall x, x ∈ b :: rest ++ back -> next_of q x = next_of (queue c) x) as Hin by (intros x Hx; apply next_frame, Hold; by intros ->).
  assert (next_of (queue c) b <> Some UNCONNECTED) as Hb.
  { rewrite <- Hin by left. apply (chain_unconnected q (b :: rest)); [apply Hheld|by left]. }
  apply (inv_consumer_update c (a :: b :: rest ++ back) [] true); try done.
  - by eapply at_advance_held.
  - intros t Ht. assert (forall x, owned t = Some x -> x <> a) as Hne.
    { intros x Hx ->. destruct t as [|y|y p|y|]; simpl in *; try done; injection Hx as ->; [|destruct p|].
      - destruct Ht as [_ Ht]. apply Ht. by left.
      - done.
      - by destruct Ht as (_ & ? & _).
      - by destruct Ht as (? & _).
      - by destruct Ht as (_ & _ & ? & _). }
    apply (producer_frame (queue c)); [intros x Hx; by apply Hold, Hne|congruence|].
    destruct t as [|x|x p|x|]; simpl in *; try done; [destruct p; [done|by destruct Ht as (_ & ? & _)|]|by destruct Ht as (_ & _ & ? & _)].
    destruct Ht as [Hu (i & E1 & E2)]. split; [done|]. destruct i as [|i]; [|by exists i]. injection E2 as ->. done.
  - by apply list.NoDup_cons.
  - intros x. simpl. rewrite <- (inv_alloc _ _ _ _ Hi x). destruct (decide (x = a)) as [->|Hne]; [|by rewrite Hold].
    rewrite En. destruct (first_node _ _ _ _ _ Hi) as [n' ->]. split; by eexists.
  - intros x Hx. rewrite Hin by done. split; [by right|done].
  - intros data Hd. exists data. split; [|done]. revert Hd. apply forall2_data. intros x _. destruct (decide (x = a)) as [->|Hne]; [done|by rewrite Hold].
Qed.

Lemma last_ok c nodes limbo is_held node v : inv c nodes limbo is_held -> the_consumer c = C_last node v -> consumer_ok c nodes.
Proof.
  intros Hi Es. consumer_inv Hi Es. match goal with H : held _ _ _ _ _ _ |- _ => rename H into Hh end.
  match goal with H : heap _ !! _ = Some _ |- _ => rename H into En end. 
  pose proof (held_in _ _ _ _ _ _ _ Hh En) as Hnext. destruct rest as [|b rest].
  - eapply (ok_intro _ _ _ _ (a :: [] ++ back)); [rewrite Es; simpl; rewrite En; simpl; by rewrite Hnext|intros _ _; rewrite Es; simpl; lia|]. apply inv_same; [exact Hi| |done]. by eapply at_compare.
  - eapply (ok_intro _ _ _ _ (b :: rest ++ back)); [rewrite Es; simpl; rewrite En; simpl; by rewrite Hnext|intros _ _; rewrite Es; simpl; lia|]. eapply leave_first; try done.
    + destruct Hh as [[H1 H1'] H2 H4 H5 H6]. by split.
    + apply (chain_unconnected _ (a :: b :: rest)); [apply Hh|by left].
Qed.

Lemma compare_ok c nodes limbo is_held node v : inv c nodes limbo is_held -> the_consumer c = C_compare node v -> consumer_ok c nodes.
Proof.
  intros Hi Es. consumer_inv Hi Es. match goal with H : held _ _ _ _ _ _ |- _ => rename H into Hh end.
  match goal with H : heap _ !! _ = Some _ |- _ => rename H into En end.
  pose proof (held_head _ _ _ _ _ _ Hh) as Hhead. pose proof (held_in _ _ _ _ _ _ _ Hh En) as Hnext. simpl in Hhead.
  pose proof (inv_nodup _ _ _ _ Hi) as Hnd. apply list.NoDup_cons in Hnd as [Hna Hnd].
  destruct (decide (back = [])) as [->|Hback].
  - eapply (ok_intro _ _ _ _ []); [rewrite Es; simpl; rewrite Hhead; by rewrite decide_True|intros _ _; rewrite Es; simpl; lia|].
    apply (inv_consumer_update c [a] [] true) with (nodes' := []) (limbo' := [a]) (is_held' := false); try done.
    + apply at_advance; [done|done|done].
    + intros t Ht. destruct t as [|x|x p|x|]; simpl in *; try done.
      * destruct p; [done|by destruct Ht as (_ & ? & _)|]. destruct Ht as [_ (i & _ & E)]. by destruct i.
      * by destruct Ht as (_ & _ & ? & _).
    + apply Hi.
    + apply (inv_alloc _ _ _ _ Hi).
    + intros x Hx. by apply not_elem_of_nil in Hx.
    + intros data Hd. by exists data.
  - destruct (exists_last Hback) as (pre & p & ->).
    assert (p ∉ a :: pre) as Hp.
    { apply list.NoDup_app in Hnd as (_ & Hd & _). rewrite elem_of_cons. intros [->|H]; [apply Hna, elem_of_app; right; by left|]. apply (Hd p H). by left. }
    eapply (ok_intro _ _ _ _ (a :: pre ++ [p])); [rewrite Es; simpl; rewrite decide_False; [done|]|intros _ _; rewrite Es, Hhead, end_of_snoc; cbn [rank]|].
    + rewrite Hhead, end_of_snoc. intros [= ->]. apply Hna. apply elem_of_app. right. by left.
    + rewrite app_comm_cons, index_at by done. cbn [length app]. rewrite length_app. cbn [length]. lia.
    + apply inv_same; [exact Hi| |done]. rewrite Hhead, end_of_snoc. apply at_reverse with pre [] [] n; try done.
      destruct Hh as [J1 J2 J3 J4 J5]. split; try done. simpl. by rewrite app_nil_r.
Qed.

Lemma reverse_ok c nodes limbo is_held node v tail p : inv c nodes limbo is_held -> the_consumer c = C_reverse node v tail p -> consumer_ok c nodes.
Proof.
  intros Hi Es. consumer_inv Hi Es. match goal with H : held _ _ _ _ _ _ |- _ => rename H into Hh end.
  match goal with H : heap _ !! _ = Some _ |- _ => rename H into En end.
  assert (exists m, heap (queue c) !! p0 = Some m) as [m Em].
  { assert (is_Some (heap (queue c) !! p0)) as [m E]; [|by exists m]. apply (inv_alloc _ _ _ _ Hi). left. right. apply elem_of_app. right. by left. }
  pose proof (held_mid _ _ _ _ _ _ Hh) as Hmid. apply linked_app in Hmid as [_ [Hmid _]]. unfold next_of in Hmid. rewrite Em in Hmid. simpl in Hmid.
  destruct (decide (next m = UNCONNECTED)) as [E|E].
  - eapply (ok_intro _ _ _ _ (a :: pre ++ p0 :: post ++ back)); [rewrite Es; simpl; rewrite Em; simpl; by rewrite decide_True| |].
    { intros Hu. destruct (Hu p0); [right; apply elem_of_app; right; by left|]. unfold next_of. rewrite Em. simpl. congruence. }
    apply inv_same; [exact Hi| |done]. by eapply at_reverse.
  - eapply (ok_intro _ _ _ _ (a :: pre ++ p0 :: post ++ back)); [rewrite Es; simpl; rewrite Em; simpl; by rewrite decide_False|intros _ _; rewrite Es; simpl; lia|]. apply inv_same; [exact Hi| |done].
    assert (next m = at_node (end_of a pre)) as -> by (destruct Hmid; congruence). apply at_reverse_next with post back n; try done.
    unfold next_of. rewrite Em. simpl. destruct Hmid; congruence.
Qed.

(** Memory changes only at a node whose [next] is set. *)
Lemma producers_stored q q' b (v x : ptr) nodes limbo t : stored q q' b v -> next_of q b = Some x -> x <> UNCONNECTED -> b ∈ nodes ->
  producer_at q nodes limbo true t -> producer_at q' nodes limbo true t.
Proof.
  intros Hs Hb Hx Hin Ht. apply (producer_frame q); [|apply Hs|done]. intros y Ey. apply (stored_other _ _ _ _ _ Hs). intros ->.
  destruct t as [|z|z p|z|]; simpl in *; try done; injection Ey as ->.
  - destruct Ht as [_ Ht]. apply Ht. apply elem_of_app. by right.
  - destruct p; [done|by destruct Ht as (_ & ? & _)|]. destruct Ht as [Ht _]. congruence.
  - by destruct Ht as (_ & _ & ? & _).
Qed.

(** Turning the link of [p]. *)
Lemma held_turn q q' a pre p post back tail : held q a [] (pre ++ [p]) post back -> NoDup (a :: pre ++ p :: post ++ back) ->
  stored q q' p tail -> tail = match post with [] => nullptr | b :: _ => at_node b end -> held q' a [] pre (p :: post) back.
Proof.
  intros [H1 H2 H3 H4 H5] Hnd Hs ->. simpl in *.
  assert ((p ∉ a :: pre) /\ (p ∉ post) /\ (p ∉ back)) as (Hp1 & Hp2 & Hp3).
  { rewrite app_comm_cons in Hnd. apply list.NoDup_app in Hnd as (_ & Hd & Hnd). apply list.NoDup_cons in Hnd as [Hp _]. rewrite elem_of_app in Hp.
    split; [intros H; apply (Hd p H); by left|tauto]. }
  assert (forall l, p ∉ l -> forall x, x ∈ l -> next_of q' x = next_of q x) as Hold.
  { intros l Hl x Hx. apply next_frame, (stored_other _ _ _ _ _ Hs). by intros ->. }
  split; simpl.
  - split; [|done]. destruct H1 as [H1 _]. rewrite (Hold (a :: pre)); [done|done|by left].
  - apply linked_app in H2 as [H2 _]. revert H2. apply linked_frame, Hold. intros H. apply Hp1. by right.
  - split; [apply (stored_next _ _ _ _ Hs)|]. revert H3. by apply chain_frame, Hold.
  - rewrite <- app_assoc in H4. simpl in H4. revert H4. by apply linked_frame, Hold.
  - rewrite (stored_head _ _ _ _ Hs), H5. by rewrite <- !app_assoc.
Qed.

Lemma inv_stored c q' a nodes b (v x : ptr) s : inv c (a :: nodes) [] true -> stored (queue c) q' b v -> next_of (queue c) b = Some x -> x <> UNCONNECTED -> v <> UNCONNECTED ->
  b ∈ a :: nodes -> consumer_at q' (a :: nodes) s true [] -> dequeues s = [] -> inv (after_consumer c s q') (a :: nodes) [] true.
Proof.
  intros Hi Hs Hb Hx Hv Hin Hcons Hd. apply (inv_consumer_update c (a :: nodes) [] true); try done.
  - intros t. by apply (producers_stored _ _ _ _ _ _ _ _ Hs Hb).
  - apply Hi.
  - intros y. rewrite (stored_alloc _ _ _ _ y Hs). apply (inv_alloc _ _ _ _ Hi).
  - intros y Hy Hu. split; [done|]. rewrite <- Hu. symmetry. apply next_frame, (stored_other _ _ _ _ _ Hs). intros ->.
    rewrite (stored_next _ _ _ _ Hs) in Hu. congruence.
  - intros data Hdata. exists data. rewrite Hd. split; [|done]. revert Hdata. apply forall2_data. intros y _. by apply (stored_data _ _ _ _ _ Hs).
Qed.

Lemma reverse_next_ok c nodes limbo is_held node v tail p saved : inv c nodes limbo is_held -> the_consumer c = C_reverse_next node v tail p saved -> consumer_ok c nodes.
Proof.
  intros Hi Es. consumer_inv Hi Es. match goal with H : held _ _ _ _ _ _ |- _ => rename H into Hh end.
  match goal with H : heap _ !! _ = Some _ |- _ => rename H into En end. match goal with H : next_of _ _ = Some _ |- _ => rename H into Hp end.
  pose proof (inv_nodup _ _ _ _ Hi) as Hnd. simpl in Hnd. set (tail := match post with [] => nullptr | b :: _ => at_node b end) in *.
  destruct (store_stored (queue c) p0 tail) as (q' & Eq & Hs); [by eapply next_alloc|].
  pose proof (held_turn _ _ _ _ _ _ _ _ Hh Hnd Hs eq_refl) as Hh'.
  assert (p0 ∈ a :: pre ++ p0 :: post ++ back) as Hin by (right; apply elem_of_app; right; by left).
  assert (heap q' !! a = Some n) as En'.
  { rewrite (stored_other _ _ _ _ _ Hs); [done|]. intros ->. apply list.NoDup_cons in Hnd as [Hnd _]. apply Hnd. apply elem_of_app. right. by left. }
  assert (_cur_enqueue_node q' = nullptr) as He by (by rewrite (stored_enqueue _ _ _ _ Hs)).
  assert (tail <> UNCONNECTED) as Htail by (unfold tail; by destruct post).
  destruct (decide (pre = [])) as [->|Hpre].
  - eapply (ok_intro _ _ _ _ (a :: p0 :: post ++ back)); [rewrite Es; cbn [sc_consumer_step]; rewrite Eq; simpl; by rewrite decide_False by (intros H; by apply H)|intros _ _; rewrite Es; cbn [rank]|].
    { change (a :: [] ++ p0 :: post ++ back) with ([a] ++ p0 :: post ++ back). rewrite index_at; [simpl; lia|].
      apply list.NoDup_cons in Hnd as [Hnd _]. rewrite list_elem_of_singleton. intros ->. apply Hnd. by left. }
   
    apply (inv_stored c q' a (p0 :: post ++ back) p0 tail (at_node a)); try done. by eapply at_connect.
  - destruct (exists_last Hpre) as (pre' & p' & ->). rewrite end_of_snoc in *.
    assert (p' <> a) as Hne.
    { intros ->. apply list.NoDup_cons in Hnd as [Hnd _]. apply Hnd. rewrite <- app_assoc. apply elem_of_app. right. by left. }
    eapply (ok_intro _ _ _ _ (a :: (pre' ++ [p']) ++ p0 :: post ++ back)); [rewrite Es; cbn [sc_consumer_step]; rewrite Eq; simpl; by rewrite decide_True by congruence| |].
    { intros _ _. rewrite Es. cbn [rank]. rewrite app_comm_cons in Hnd. apply list.NoDup_app in Hnd as (Hnd1 & Hnd & _).
      assert (index p0 (a :: (pre' ++ [p']) ++ p0 :: post ++ back) = S (S (length pre'))) as ->.
      { rewrite app_comm_cons, index_at by (intros H; apply (Hnd p0 H); by left). cbn [length]. rewrite length_app. simpl. lia. }
      assert (index p' (a :: (pre' ++ [p']) ++ p0 :: post ++ back) = S (length pre')) as ->; [|lia].
      replace (a :: (pre' ++ [p']) ++ p0 :: post ++ back) with ((a :: pre') ++ p' :: p0 :: post ++ back) by (by rewrite <- app_assoc).
      rewrite index_at; [done|].
      rewrite app_comm_cons in Hnd1. apply list.NoDup_app in Hnd1 as (_ & Hd & _). intros H. apply (Hd p' H). by left. }
    apply (inv_stored c q' a ((pre' ++ [p']) ++ p0 :: post ++ back) p0 tail (at_node p')); try done. apply at_reverse with pre' (p0 :: post) back n; try done. by rewrite <- app_assoc.
Qed.

Lemma connect_ok c nodes limbo is_held node v tail : inv c nodes limbo is_held -> the_consumer c = C_connect node v tail -> consumer_ok c nodes.
Proof.
  intros Hi Es. consumer_inv Hi Es. match goal with H : held _ _ _ _ _ _ |- _ => rename H into Hh end.
  match goal with H : heap _ !! _ = Some _ |- _ => rename H into En end.
  pose proof (inv_nodup _ _ _ _ Hi) as Hnd. simpl in Hnd. apply list.NoDup_cons in Hnd as [Hna Hnd].
  destruct (store_stored (queue c) a (at_node b)) as (q' & Eq & Hs); [by eexists|].
  eapply (ok_intro _ _ _ _ (b :: post ++ back)); [rewrite Es; cbn [sc_consumer_step]; by rewrite Eq|intros _ _; rewrite Es; simpl; lia|].
  assert (exists n', heap q' !! a = Some n' /\ data_mem n' = data_mem n /\ next n' = at_node b) as (n' & En' & Ed & Ex).
  { destruct (stored_at _ _ _ _ Hs) as (m & Em & E). rewrite E, lookup_insert_eq. eexists. split; [done|]. simpl. split; [|done]. congruence. }
  rewrite <- Ed. apply leave_first; try done.
  - destruct Hh as [J1 J2 J3 J4 J5]. simpl in *.
    assert (forall x, x ∈ b :: post ++ back -> next_of q' x = next_of (queue c) x) as Hold.
    { intros x Hx. apply next_frame, (stored_other _ _ _ _ _ Hs). by intros ->. }
    split; simpl; try done.
    + change (chain q' (b :: post)). apply (chain_frame (queue c)); [|done]. intros x Hx. apply Hold. rewrite app_comm_cons. apply elem_of_app. by left.
    + rewrite app_nil_r. revert J4. apply linked_frame. intros x Hx. apply Hold. right. apply elem_of_app. by right.
    + by rewrite (stored_head _ _ _ _ Hs).
  - by rewrite (stored_enqueue _ _ _ _ Hs).
  - intros x Hx. by apply (stored_other _ _ _ _ _ Hs).
  - by apply (stored_data _ _ _ _ _ Hs).
  - destruct (held_front _ _ _ _ _ _ Hh) as [Hf _]. by rewrite Hf.
Qed.

Lemma unheld_dequeue q nodes p : unheld q nodes -> unheld (set_dequeue q p) nodes.
Proof. destruct nodes as [|a back]; simpl; [done|]. intros (H1 & H2 & H3). split; [revert H1; by apply linked_frame|done]. Qed.

Lemma advance_ok c nodes limbo is_held node v : inv c nodes limbo is_held -> the_consumer c = C_advance node v -> consumer_ok c nodes.
Proof.
  intros Hi Es. consumer_inv Hi Es; match goal with H : heap _ !! _ = Some _ |- _ => rename H into En end.
  - eapply (ok_intro _ _ _ _ nodes); [rewrite Es; simpl; by rewrite En|intros _ _; rewrite Es; simpl; lia|].
    apply (inv_consumer_update c nodes [a] false) with (nodes' := nodes) (limbo' := [a]) (is_held' := false); try done; try apply Hi.
    + apply at_free; [by apply unheld_dequeue|done|done].
    + intros data Hd. by exists data.
  - eapply (ok_intro _ _ _ _ (b :: rest ++ back)); [rewrite Es; simpl; by rewrite En|intros _ _; rewrite Es; simpl; lia|].
    apply (inv_consumer_update c (b :: rest ++ back) [a] true) with (nodes' := b :: rest ++ back) (limbo' := [a]) (is_held' := true); try done; try apply Hi.
    + eapply at_free_held; try done. by apply (held_nodes (queue c)).
    + intros data Hd. by exists data.
Qed.

Lemma free_ok c nodes limbo is_held node v : inv c nodes limbo is_held -> the_consumer c = C_free node v -> consumer_ok c nodes.
Proof.
  intros Hi Es. assert (exists a n, limbo = [a] /\ node = at_node a /\ v = data_mem n /\ heap (queue c) !! a = Some n /\
    (forall q', agree (queue c) q' nodes -> _cur_dequeue_node q' = _cur_dequeue_node (queue c) -> consumer_at q' nodes (C_return (Some v)) is_held []))
    as (a & n & -> & -> & -> & En & Hc).
  { consumer_inv Hi Es; exists a, n; (split_and!; [done..|]); intros q' Hq Hdq.
    - apply at_rest; [right; right; by eexists|congruence|by apply (unheld_frame (queue c))].
    - apply at_rest_held with b rest back; [right; right; by eexists|congruence|rewrite (agree_enqueue _ _ _ Hq); done|done|].
      by apply (held_frame (queue c)). }
  eapply (ok_intro _ _ _ _ nodes); [rewrite Es; simpl; by rewrite En|intros _ _; rewrite Es; simpl; lia|].
  pose proof (inv_nodup _ _ _ _ Hi) as Hnd. apply list.NoDup_cons in Hnd as [Hna Hnd].
  assert (forall x, x <> a -> delete a (heap (queue c)) !! x = heap (queue c) !! x) as Hold by (intros x Hx; by apply lookup_delete_ne).
  assert (agree (queue c) (set_heap (queue c) (delete a (heap (queue c)))) nodes) as Hag by (split; try done; intros x Hx; apply Hold; by intros ->).
  apply (inv_consumer_update c nodes [a] is_held) with (nodes' := nodes) (limbo' := []) (is_held' := is_held); try done.
  - by apply Hc.
  - intros t Ht. assert (forall x, owned t = Some x -> x <> a) as Hne.
    { intros x Hx ->. destruct t as [|y|y p|y|]; simpl in *; try done; injection Hx as ->.
      - destruct Ht as [_ Ht]. apply Ht. by left.
      - destruct p; [done| |].
        + destruct Ht as (_ & _ & Hh). apply Hna. destruct nodes; [done|]. injection Hh as ->. by left.
        + destruct Ht as [_ Ht]. by apply Hna, (adjacent_in _ _ _ Ht).
      - destruct Ht as (_ & _ & _ & Hh). apply Hna. destruct nodes; [done|]. injection Hh as ->. by left. }
    apply (producer_frame (queue c)); [intros x Hx; by apply Hold, Hne|done|].
    destruct t as [|y|y p|y|]; simpl in *; try done. destruct Ht as [H1 H2]. split; [done|]. intros H. apply H2. by right.
  - intros x. simpl. destruct (decide (x = a)) as [->|Hne].
    + rewrite lookup_delete_eq. split; [by intros [? ?]|]. intros [Hx|[j Ej]]; [done|].
      destruct (inv_producers _ _ _ _ Hi j _ Ej) as [_ Hnot]. destruct Hnot. by left.
    + rewrite Hold by done. rewrite (inv_alloc _ _ _ _ Hi x). simpl. rewrite elem_of_cons. tauto.
  - intros x Hx. rewrite (next_frame (queue c)) by (by apply (agree_nodes _ _ _ Hag)). done.
  - intros x Hh Hx. rewrite (next_frame (queue c)); [done|]. apply (agree_nodes _ _ _ Hag). destruct nodes; [done|]. injection Hx as ->. by left.
  - intros data Hd. inversion Hd as [|? w ? data' Hw Hd']; subst. exists data'. split; [|].
    + revert Hd'. apply forall2_data. intros x Hx. simpl. rewrite Hold; [done|]. by intros ->.
    + simpl. f_equal. rewrite En in Hw. by injection Hw.
Qed.

(** *** All steps *)

Lemma return_ok c nodes limbo is_held r : inv c nodes limbo is_held -> the_consumer c = C_return r -> consumer_ok c nodes.
Proof.
  intros Hi Es. assert (consumer_at (queue c) nodes C_idle is_held limbo) as Hc.
  { pose proof (inv_consumer _ _ _ _ Hi) as Hc. rewrite Es in Hc. inversion Hc; subst; [apply at_rest|apply at_rest_held with a rest back]; auto. }
  eapply (ok_intro _ _ _ _ nodes); [by rewrite Es|intros _ _; rewrite Es; simpl; lia|]. by apply inv_same.
Qed.

Lemma inv_ok c nodes limbo is_held : inv c nodes limbo is_held -> consumer_ok c nodes.
Proof.
  intros Hi. destruct (the_consumer c) eqn:Es.
  - exists C_idle, (queue c). rewrite Es. split; [done|]. exists nodes, limbo, is_held. split; [|done]. apply inv_same; [done| |done]. rewrite <- Es. apply Hi.
  - by eapply load_ok.
  - by eapply consumer_clear_ok.
  - by eapply move_ok.
  - by eapply last_ok.
  - by eapply compare_ok.
  - by eapply reverse_ok.
  - by eapply reverse_next_ok.
  - by eapply connect_ok.
  - by eapply advance_ok.
  - by eapply free_ok.
  - by eapply return_ok.
Qed.

(** The calls of [Enqueue]: beginning, running, and returned. *)
Lemma inv_producers_change c nodes limbo is_held ps : inv c nodes limbo is_held ->
  (forall i s, ps !! i = Some s -> producers c !! i = Some s \/ exists v, s = P_enqueue v) ->
  (forall i s, producers c !! i = Some s -> ps !! i = Some s \/ s = P_return) ->
  inv {| queue := queue c; producers := ps; the_consumer := the_consumer c; enqueued := enqueued c; dequeued := dequeued c |} nodes limbo is_held.
Proof.
  intros Hi H1 H2. assert (forall i s, s <> P_return -> producers c !! i = Some s -> ps !! i = Some s) as H3.
  { intros i s Hs E. by destruct (H2 i s E). }
  split; cbn [queue producers the_consumer enqueued dequeued].
  - apply Hi.
  - intros i s E. destruct (H1 i s E) as [E'|[v ->]]; [by apply (inv_producers _ _ _ _ Hi i)|done].
  - intros i j s s' a E E' Ha Ha'. destruct (H1 i s E) as [Ec|[v ->]]; [|done]. destruct (H1 j s' E') as [Ec'|[v ->]]; [|done].
    by apply (inv_owned _ _ _ _ Hi i j s s' a).
  - apply Hi.
  - intros a. rewrite (inv_alloc _ _ _ _ Hi a). split; (intros [?|[j Ej]]; [by left|right; exists j]).
    + by apply H3.
    + by destruct (H1 _ _ Ej) as [|[v ?]].
  - intros a Ha Hu. destruct (inv_pending _ _ _ _ Hi a Ha Hu) as (j & p & Ej). exists j, p. by apply H3.
  - intros a Hh Ha Hu He. destruct (inv_first _ _ _ _ Hi a Hh Ha Hu He) as (j & Ej). exists j. by apply H3.
  - apply Hi.
Qed.

Lemma producer_ok c nodes limbo is_held i s fresh : inv c nodes limbo is_held -> producers c !! i = Some s -> heap (queue c) !! fresh = None ->
  exists s' q, sc_producer_step fresh s (queue c) = Some (s', q) /\ exists nodes', inv (after_producer c i s' q (enqueues s (queue c))) nodes' limbo is_held.
Proof.
  intros Hi Es Hf. destruct s as [v|a|a p|a|]; cbn [sc_producer_step enqueues].
  - eexists _, _. split; [done|]. exists nodes. by apply enqueue_inv.
  - destruct (inv_producers _ _ _ _ Hi i _ Es) as [Hn _]. apply next_alloc in Hn as [n En].
    eexists _, _. split; [done|]. exists (nodes ++ [a]). simpl. rewrite En. by apply exchange_inv.
  - pose proof (inv_producers _ _ _ _ Hi i _ Es) as Hp. destruct p; [done| |].
    + destruct (first_inv _ _ _ _ _ _ Hi Es) as (q' & E & Hi'). rewrite decide_False by (intros H; by apply H). rewrite E. eexists _, _. split; [done|]. by exists nodes.
    + destruct (connect_inv _ _ _ _ _ _ _ Hi Es) as (q' & E & Hi'). rewrite decide_True by done. rewrite E. eexists _, _. split; [done|]. by exists nodes.
  - eexists _, _. split; [done|]. exists nodes. by apply publish_inv.
  - eexists _, _. split; [done|]. exists nodes. unfold after_producer. rewrite app_nil_r. apply (inv_producers_change c); [done| |].
    + intros j s Ej. left. destruct (decide (j = i)) as [->|Hne]; [|by rewrite lookup_insert_ne in Ej]. rewrite lookup_insert_eq in Ej. congruence.
    + intros j s Ej. left. destruct (decide (j = i)) as [->|Hne]; [|by rewrite lookup_insert_ne]. rewrite lookup_insert_eq. congruence.
Qed.

Lemma inv_initial : inv initial [] [] false.
Proof.
  split; try done.
  - apply at_rest; [by left|done|done].
  - constructor.
  - intros a. split; [by intros [? ?]|]. intros [H|[i H]]; [by apply not_elem_of_nil in H|done].
  - by exists [].
Qed.

Lemma inv_step c c' nodes limbo is_held : inv c nodes limbo is_held -> sc_step c c' -> exists nodes' limbo' is_held', inv c' nodes' limbo' is_held'.
Proof.
  intros Hi Hs. destruct Hs as [i v E|i s fresh s' q E Hf Ep|i E|E|s q Ec].
  - exists nodes, limbo, is_held. apply (inv_producers_change c); [done| |].
    + intros j s Ej. destruct (decide (j = i)) as [->|Hne]; [rewrite lookup_insert_eq in Ej; injection Ej as <-; right; by eexists|].
      rewrite lookup_insert_ne in Ej by done. by left.
    + intros j s Ej. left. rewrite lookup_insert_ne; [done|congruence].
  - destruct (producer_ok _ _ _ _ _ _ _ Hi E Hf) as (s1 & q1 & E1 & nodes' & Hi'). rewrite Ep in E1. injection E1 as <- <-. by exists nodes', limbo, is_held.
  - exists nodes, limbo, is_held. apply (inv_producers_change c); [done| |].
    + intros j s Ej. left. destruct (decide (j = i)) as [->|Hne]; [by rewrite lookup_delete_eq in Ej|by rewrite lookup_delete_ne in Ej].
    + intros j s Ej. destruct (decide (j = i)) as [->|Hne]; [right; congruence|left; by rewrite lookup_delete_ne].
  - exists nodes, limbo, is_held. pose proof (inv_same c nodes limbo is_held C_load Hi) as H. unfold after_consumer in H. simpl in H. rewrite app_nil_r in H. apply H; [|done].
    pose proof (inv_consumer _ _ _ _ Hi) as Hc. rewrite E in Hc. inversion Hc; subst; [apply at_rest|apply at_rest_held with a rest back]; auto.
  - destruct (inv_ok _ _ _ _ Hi) as (s1 & q1 & E1 & nodes' & limbo' & is_held' & Hi' & _). rewrite Ec in E1. injection E1 as <- <-. by exists nodes', limbo', is_held'.
Qed.

Lemma reachable_inv c : sc_reachable c -> exists nodes limbo is_held, inv c nodes limbo is_held.
Proof.
  intros H. unfold sc_reachable in H. revert H. apply (rtc_ind_r (R := sc_step) (fun c => exists nodes limbo is_held, inv c nodes limbo is_held)).
  - exists [], [], false. apply inv_initial.
  - intros y z _ Hs (nodes & limbo & is_held & Hi). by eapply inv_step.
Qed.

(** [Dequeue] finds nothing: all is dequeued, or the [Enqueue] of the oldest element left has not returned. *)
Lemma load_empty c nodes limbo is_held q : inv c nodes limbo is_held -> the_consumer c = C_load -> sc_consumer_step C_load (queue c) = Some (C_return None, q) ->
  limbo = [] /\ (nodes = [] \/ exists i a n back, nodes = a :: back /\ (producers c !! i = Some (P_link a nullptr) \/ producers c !! i = Some (P_publish a)) /\
    heap (queue c) !! a = Some n).
Proof.
  intros Hi Es Eq. pose proof (inv_consumer _ _ _ _ Hi) as Hc. rewrite Es in Hc. injection Eq as Eq _. inversion Hc; subst; (split; [done|]).
  - destruct (decide (_cur_dequeue_node (queue c) <> nullptr)) as [Hx|_]; [done|].
    destruct (decide (_cur_enqueue_node (queue c) = nullptr)) as [He|]; [|done].
    destruct nodes as [|a back]; [by left|]. right. destruct (first_node _ _ _ _ _ Hi) as [n En].
    match goal with H : unheld _ _ |- _ => destruct H as (_ & _ & Hcase) end. destruct Hcase as [[Hu _]|[Hn _]].
    + destruct (inv_pending _ _ _ _ Hi a ltac:(by left) Hu) as (i & p & Ei). exists i, a, n, back. split; [done|]. split; [|done]. left.
      pose proof (inv_producers _ _ _ _ Hi i _ Ei) as Hp. destruct p as [| |b]; [done|done|]. destruct Hp as [_ Hp].
      destruct (adjacent_first b a (a :: back)); [apply (inv_nodup _ _ _ _ Hi)|done|done].
    + destruct (inv_first _ _ _ _ Hi a eq_refl eq_refl Hn He) as (i & Ei). exists i, a, n, back. split; [done|]. by split; [right|].
  - destruct (decide (_cur_dequeue_node (queue c) <> nullptr)) as [Hx|Hx]; [|destruct Hx; congruence]. by rewrite decide_False in Eq.
Qed.

(** ** The data race on [next]

    [next] is a plain field: when the next step of one thread stores to it and the next step of another accesses the
    same one, the program has a data race. *)

(** The node whose [next] a call of [Enqueue] is about to store to (lines 118 and 121), and the one whose [next] the
    consumer is about to load from or store to (lines 148, 151, 176, 180 and 187). *)
Definition next_stored (s : producer (T := T)) : option positive := match s with P_link node _ => Some node | _ => None end.
Definition next_accessed (s : consumer (T := T)) : option ptr :=
  match s with
  | C_last node _ | C_connect node _ _ | C_advance node _ => Some node
  | C_reverse _ _ _ p | C_reverse_next _ _ _ p _ => Some p
  | _ => None
  end.
Definition races c : Prop :=
  exists i s node, producers c !! i = Some s /\ next_stored s = Some node /\ next_accessed (the_consumer c) = Some (at_node node).

(** The only race on [next] is between the store that connects a node and the loop of [ReverseList] that waits for it. *)
Lemma mpsc_queue_races c : sc_reachable c -> races c ->
  exists i node p front data tail, producers c !! i = Some (P_link node (at_node p)) /\
    the_consumer c = C_reverse front data tail (at_node node).
Proof.
  intros Hr (i & s & node & Es & Hn & Ha). destruct (reachable_inv c Hr) as (nodes & limbo & is_held & Hi).
  destruct s as [|?|x prev|?|]; try discriminate. injection Hn as ->.
  assert (next_of (queue c) node = Some UNCONNECTED /\ node ∉ limbo) as [Hu Hl].
  { pose proof (inv_producers _ _ _ _ Hi i _ Es) as Hp. pose proof (inv_nodup _ _ _ _ Hi) as Hnd. apply list.NoDup_app in Hnd as (_ & Hd & _).
    destruct prev as [| |p]; [done|destruct Hp as (Hu & _ & Hh)|destruct Hp as (Hu & Hh)]; (split; [done|]); intros Hin; apply (Hd _ Hin).
    - destruct nodes; [done|]. injection Hh as ->. by left.
    - by apply (adjacent_in _ _ _ Hh). }
  pose proof (inv_consumer _ _ _ _ Hi) as Hc.
  destruct (the_consumer c) eqn:Et; try discriminate; injection Ha as ->; inversion Hc; subst;
    try (match goal with H : _ \/ _ |- _ => destruct H as [?|[?|[? ?]]]; discriminate end).
  all: try (match goal with H : held _ _ _ _ _ _ |- _ => pose proof (held_front _ _ _ _ _ _ H) as [Hf _]; pose proof (held_post _ _ _ _ _ _ H) as Hpost end).
  all: try (match goal with H : ?x ∉ [?x] |- _ => destruct H; by left end).
  all: try (rewrite Hu in Hf; by destruct rest).
  - pose proof (inv_producers _ _ _ _ Hi i _ Es) as Hp. destruct prev as [| |p']; [done|by destruct Hp as (_ & ? & _)|]. eexists i, _, p', _, _, _. split; [exact Es|reflexivity].
  - congruence.
  - congruence.
Qed.

(** C5: In every sequentially consistent execution, that is, in every interleaving of the memory accesses of the calls of
    [Enqueue] of any number of threads and the calls of [Dequeue] of one in which each load sees the last store: no
    thread follows a pointer to memory that was freed or fails a check; the elements that were dequeued are the first
    ones of the enqueued, in the order of the exchanges of [_head]; and [Dequeue] finds nothing only if all of them are
    dequeued or the [Enqueue] of the oldest one left has not returned. Two threads meet at the plain field [next] only
    where one [Enqueue] connects a node and the loop of [ReverseList] waits for that node. That data race is reached,
    and the orderings of the code (release, acquire, relaxed) are weaker than those of the model: the theorem is about
    the code on sequentially consistent memory, not about what the C++ standard promises of it. *)
Theorem mpsc_queue_safe c : sc_reachable (T := T) c ->
  sc_consumer_step (the_consumer c) (queue c) <> None /\
  (forall i s fresh, producers c !! i = Some s -> heap (queue c) !! fresh = None -> sc_producer_step fresh s (queue c) <> None) /\
  exists left, enqueued c = dequeued c ++ left /\
    (the_consumer c = C_load -> forall q, sc_consumer_step C_load (queue c) = Some (C_return None, q) ->
      left = [] \/ exists i a n, (producers c !! i = Some (P_link a nullptr) \/ producers c !! i = Some (P_publish a)) /\
        heap (queue c) !! a = Some n /\ head left = Some (data_mem n)) /\
    (races c -> exists i node p front data tail, producers c !! i = Some (P_link node (at_node p)) /\
      the_consumer c = C_reverse front data tail (at_node node)).
Proof.
  intros Hr. destruct (reachable_inv c Hr) as (nodes & limbo & is_held & Hi). split; [|split].
  - destruct (inv_ok _ _ _ _ Hi) as (s & q & -> & _). done.
  - intros i s fresh Es Hf. destruct (producer_ok _ _ _ _ _ _ _ Hi Es Hf) as (s' & q & -> & _). done.
  - destruct (inv_data _ _ _ _ Hi) as (data & Hd & E). exists data. split; [done|]. split; [|by apply mpsc_queue_races]. intros Es q Eq.
    destruct (load_empty _ _ _ _ _ Hi Es Eq) as [-> [->|(i & a & n & back & -> & Ei & En)]]; inversion Hd as [|? v ? data' Hv Hd']; subst; [by left|].
    right. exists i, a, n. split; [done|]. split; [done|]. rewrite En in Hv. by injection Hv as <-.
Qed.

(** ** Without other threads *)

(** A call of [Dequeue] on its own, and the loop of the destructor. *)
Fixpoint run (fuel : nat) (s : consumer (T := T)) q : option (option T * MPSCQueue (T := T)) :=
  match s with
  | C_return r => Some (r, q)
  | _ => match fuel with O => None | S fuel => '(s, q) ← sc_consumer_step s q; run fuel s q end
  end.
Definition Dequeue q := run (2 * size (heap q) + 9) C_load q.
Fixpoint destroy (fuel : nat) q : option (list T * MPSCQueue (T := T)) :=
  '(r, q) ← Dequeue q;
  match r with
  | None => Some ([], q)
  | Some data => match fuel with O => None | S fuel => '(l, q) ← destroy fuel q; Some (data :: l, q) end
  end.


Definition busy (s : consumer (T := T)) : bool :=
  match s with C_idle | C_load | C_return _ => false | _ => true end.
Lemma busy_step s q s' q' : busy s = true -> sc_consumer_step s q = Some (s', q') -> busy s' = true \/ exists v, s' = C_return (Some v).
Proof.
  intros Hb E. destruct s; try done; cbn [sc_consumer_step] in E.
  - injection E as <- _. by left.
  - destruct (load q node); [|done]. injection E as <- _. by left.
  - destruct (load q node); [|done]. simpl in E. destruct (decide _); injection E as <- _; by left.
  - destruct (decide _); injection E as <- _; by left.
  - destruct (load q p); [|done]. simpl in E. destruct (decide _); injection E as <- _; by left.
  - destruct (store_next q p tail); [|done]. simpl in E. destruct (decide _); [done|]. destruct (decide _); injection E as <- _; by left.
  - destruct (store_next q node tail); [|done]. injection E as <- _. by left.
  - destruct (load q node); [|done]. injection E as <- _. by left.
  - destruct (free q node); [|done]. injection E as <- _. right. by eexists.
Qed.

Lemma quiet_connected c nodes limbo is_held : inv c nodes limbo is_held -> producers c = ∅ -> forall a, a ∈ nodes -> next_of (queue c) a <> Some UNCONNECTED.
Proof. intros Hi Hp a Ha Hu. destruct (inv_pending _ _ _ _ Hi a Ha Hu) as (i & p & E). by rewrite Hp in E. Qed.

Lemma run_busy fuel c nodes limbo is_held : inv c nodes limbo is_held -> producers c = ∅ -> busy (the_consumer c) = true -> (rank nodes (the_consumer c) <= S fuel)%nat ->
  exists v q nodes' is_held', run fuel (the_consumer c) (queue c) = Some (Some v, q) /\
    inv {| queue := q; producers := ∅; the_consumer := C_return (Some v); enqueued := enqueued c; dequeued := dequeued c ++ [v] |} nodes' [] is_held'.
Proof.
  revert c nodes limbo is_held. induction fuel as [|fuel IH]; intros c nodes limbo is_held Hi Hp Hb Hr; [destruct (the_consumer c); simpl in *; (done || lia)|].
  destruct (inv_ok _ _ _ _ Hi) as (s & q & E & nodes' & limbo' & is_held' & Hi' & Hrank).
  specialize (Hrank (quiet_connected _ _ _ _ Hi Hp) ltac:(by intros H; rewrite H in Hb)).
  assert (run (S fuel) (the_consumer c) (queue c) = run fuel s q) as -> by (destruct (the_consumer c); try done; cbn [run]; by rewrite E).
  destruct (busy_step _ _ _ _ Hb E) as [Hb'|[v ->]].
  - destruct (IH (after_consumer c s q) nodes' limbo' is_held' Hi' Hp Hb') as (v & q' & nodes2 & is_held2 & E2 & Hi2); [simpl in *; lia|].
    exists v, q', nodes2, is_held2. split; [exact E2|]. simpl in Hi2. replace (dequeues s) with (@nil T) in Hi2 by (by destruct s). by rewrite app_nil_r in Hi2.
  - exists v, q, nodes', is_held'. split; [by destruct fuel|]. unfold after_consumer in Hi'. rewrite Hp in Hi'. simpl in Hi'.
    assert (limbo' = []) as ->; [|exact Hi']. pose proof (inv_consumer _ _ _ _ Hi') as Hc. by inversion Hc.
Qed.

Lemma inv_consumer_rest c nodes is_held s : inv c nodes [] is_held -> (s = C_idle \/ s = C_load \/ exists r, s = C_return r) ->
  (the_consumer c = C_idle \/ the_consumer c = C_load \/ exists r, the_consumer c = C_return r) ->
  inv {| queue := queue c; producers := producers c; the_consumer := s; enqueued := enqueued c; dequeued := dequeued c |} nodes [] is_held.
Proof.
  intros Hi Hs Hc. split; cbn [queue producers the_consumer enqueued dequeued]; try apply Hi.
  pose proof (inv_consumer _ _ _ _ Hi) as Hat. destruct_or! Hc; [| |destruct Hc as [r Hc]]; rewrite Hc in Hat; inversion Hat; subst;
    first [by apply at_rest | by apply at_rest_held with a rest back].
Qed.

Lemma nodes_size c nodes limbo is_held : inv c nodes limbo is_held -> (length nodes <= size (heap (queue c)))%nat.
Proof.
  intros Hi. pose proof (inv_nodup _ _ _ _ Hi) as Hnd. apply list.NoDup_app in Hnd as (_ & _ & Hnd).
  rewrite <- size_dom, <- (size_list_to_set (C := gset positive)) by done. apply subseteq_size. intros a Ha. apply elem_of_list_to_set in Ha.
  apply elem_of_dom. apply (inv_alloc _ _ _ _ Hi). left. apply elem_of_app. by right.
Qed.

(** One call of [Dequeue] when no [Enqueue] is under way. *)
Lemma Dequeue_quiet c nodes is_held : inv c nodes [] is_held -> producers c = ∅ -> the_consumer c = C_idle ->
  exists left q nodes' is_held', enqueued c = dequeued c ++ left /\ Dequeue (queue c) = Some (head left, q) /\ (left = [] -> heap q = ∅) /\
    inv {| queue := q; producers := ∅; the_consumer := C_idle; enqueued := enqueued c; dequeued := dequeued c ++ take 1 left |} nodes' [] is_held'.
Proof.
  intros Hi Hp Hs. destruct (inv_data _ _ _ _ Hi) as (left & Hd & E). simpl in Hd. exists left.
  pose proof (inv_consumer_rest c nodes is_held C_load Hi ltac:(by right; left) ltac:(by left)) as Hload.
  set (c0 := {| queue := queue c; the_consumer := C_load |}) in Hload.
  destruct (inv_ok _ _ _ _ Hload) as (s & q & E1 & nodes1 & limbo1 & is_held1 & Hi1 & Hrank).
  specialize (Hrank (quiet_connected _ _ _ _ Hload Hp) ltac:(done)). cbn [c0 the_consumer queue] in E1, Hrank. pose proof (nodes_size _ _ _ _ Hi) as Hsz.
  unfold Dequeue. replace (2 * size (heap (queue c)) + 9)%nat with (S (2 * size (heap (queue c)) + 8)) by lia. cbn [run]. rewrite E1. cbn [mbind option_bind].
  assert (s = C_return None \/ busy s = true) as [-> | Hb].
  { injection E1 as <- _. destruct (decide _); [by left|by right]. }
  - destruct (load_empty _ _ _ _ _ Hload eq_refl E1) as [_ [->|(i & a & n & back & _ & [Ei|Ei] & _)]]; [|by cbn [c0 producers] in Ei; rewrite Hp in Ei..].
    inversion Hd; subst left. assert (limbo1 = []) as -> by (pose proof (inv_consumer _ _ _ _ Hi1) as Hc; by inversion Hc).
    exists q, nodes1, is_held1. split; [done|]. split; [by destruct (2 * size (heap (queue c)) + 8)%nat|]. injection E1 as _ <-.
    split.
    + intros _. apply map_empty. intros a. destruct (heap (queue c) !! a) eqn:Ea; [|done].
      destruct (proj1 (inv_alloc _ _ _ _ Hi a) ltac:(by eexists)) as [H|[j Ej]]; [by apply not_elem_of_nil in H|by rewrite Hp in Ej].
    + pose proof (inv_consumer_rest _ nodes1 is_held1 C_idle Hi1 ltac:(by left) ltac:(right; right; by eexists)) as H. simpl in H. by rewrite Hp in H.
  - destruct (run_busy (2 * size (heap (queue c)) + 8) (after_consumer c0 s q) nodes1 limbo1 is_held1 Hi1 Hp Hb) as (v & q' & nodes2 & is_held2 & E2 & Hi2); [simpl in *; lia|].
    simpl in E2. cbn [after_consumer c0 enqueued dequeued] in Hi2. replace (dequeues s) with (@nil T) in Hi2 by (by destruct s). rewrite app_nil_r in Hi2.
    destruct (inv_data _ _ _ _ Hi2) as (data & Hd2 & E3). simpl in E3. rewrite E, <- app_assoc in E3. apply app_inv_head in E3. subst left.
    exists q', nodes2, is_held2. split; [done|]. split; [exact E2|]. split; [done|].
    exact (inv_consumer_rest _ nodes2 is_held2 C_idle Hi2 ltac:(by left) ltac:(right; right; by eexists)).
Qed.

Lemma destroy_quiet n c nodes is_held : inv c nodes [] is_held -> producers c = ∅ -> the_consumer c = C_idle ->
  forall left, enqueued c = dequeued c ++ left -> length left = n -> exists q, destroy n (queue c) = Some (left, q) /\ heap q = ∅.
Proof.
  revert c nodes is_held. induction n as [|n IH]; intros c nodes is_held Hi Hp Hs left El Hn;
    destruct (Dequeue_quiet c nodes is_held Hi Hp Hs) as (left' & q & nodes' & is_held' & El' & Eq & Hq & Hi');
    (assert (left' = left) as -> by (rewrite El in El'; by apply app_inv_head in El')); destruct left as [|v left]; try done.
  - exists q. simpl. rewrite Eq. simpl. split; [done|by apply Hq].
  - injection Hn as Hn. destruct (IH _ nodes' is_held' Hi' eq_refl eq_refl left) as (q' & E & Hh); [simpl; by rewrite El, <- app_assoc|done|].
    exists q'. simpl in E |- *. rewrite Eq. simpl. rewrite E. done.
Qed.

(** C6: When no [Enqueue] is under way, a call of [Dequeue] ends, within a number of steps that the size of the queue
    bounds, with the oldest element left or, if there is none, without one; and the loop of the destructor takes all
    elements that are left, in order, and gives all memory back. *)
Theorem mpsc_queue_drained c : sc_reachable (T := T) c -> producers c = ∅ -> the_consumer c = C_idle ->
  exists left, enqueued c = dequeued c ++ left /\
    (exists q, Dequeue (queue c) = Some (head left, q)) /\
    exists q, destroy (length left) (queue c) = Some (left, q) /\ heap q = ∅.
Proof.
  intros Hr Hp Hs. destruct (reachable_inv c Hr) as (nodes & limbo & is_held & Hi).
  assert (limbo = []) as -> by (pose proof (inv_consumer _ _ _ _ Hi) as Hc; rewrite Hs in Hc; by inversion Hc).
  destruct (Dequeue_quiet c nodes is_held Hi Hp Hs) as (left & q & _ & _ & El & Eq & _). exists left. split; [done|]. split; [by exists q|].
  by eapply destroy_quiet.
Qed.

(** ** Runs *)

(** What one step is of. *)
Inductive label := Call (i : nat) (data : T) | Enqueues (i : nat) (fresh : positive) | Returns (i : nat) | Call_dequeue | Dequeues.
Definition do_step c (l : label) : option (conf (T := T)) :=
  match l with
  | Call i data =>
      match producers c !! i with
      | None => Some {| queue := queue c; producers := <[i := P_enqueue data]> (producers c); the_consumer := the_consumer c;
                        enqueued := enqueued c; dequeued := dequeued c |}
      | Some _ => None
      end
  | Enqueues i fresh =>
      s ← producers c !! i;
      match heap (queue c) !! fresh with
      | None => '(s', q) ← sc_producer_step fresh s (queue c);
                Some {| queue := q; producers := <[i := s']> (producers c); the_consumer := the_consumer c;
                        enqueued := enqueued c ++ enqueues s (queue c); dequeued := dequeued c |}
      | Some _ => None
      end
  | Returns i =>
      match producers c !! i with
      | Some P_return => Some {| queue := queue c; producers := delete i (producers c); the_consumer := the_consumer c;
                                 enqueued := enqueued c; dequeued := dequeued c |}
      | _ => None
      end
  | Call_dequeue =>
      match the_consumer c with
      | C_idle => Some {| queue := queue c; producers := producers c; the_consumer := C_load; enqueued := enqueued c; dequeued := dequeued c |}
      | _ => None
      end
  | Dequeues =>
      '(s, q) ← sc_consumer_step (the_consumer c) (queue c);
      Some {| queue := q; producers := producers c; the_consumer := s; enqueued := enqueued c; dequeued := dequeued c ++ dequeues s |}
  end.
Fixpoint do_steps c (ls : list label) : option conf :=
  match ls with [] => Some c | l :: ls => c ← do_step c l; do_steps c ls end.

Lemma do_step_sound c (lab : label) c' : do_step c lab = Some c' -> sc_step c c'.
Proof.
  destruct lab as [i data|i fresh|i| |]; cbn [do_step].
  - destruct (producers c !! i) eqn:E; [done|]. intros [= <-]. by constructor.
  - destruct (producers c !! i) as [s|] eqn:E; [|done]. cbn [mbind option_bind]. destruct (heap (queue c) !! fresh) eqn:Ef; [done|].
    destruct (sc_producer_step fresh s (queue c)) as [[s' q]|] eqn:Ep; [|done]. intros [= <-]. by eapply sc_step_producer.
  - destruct (producers c !! i) as [[]|] eqn:E; try done. intros [= <-]. by constructor.
  - destruct (the_consumer c) eqn:E; try done. intros [= <-]. by constructor.
  - destruct (sc_consumer_step (the_consumer c) (queue c)) as [[s q]|] eqn:E; [|done]. intros [= <-]. by constructor.
Qed.
Lemma do_steps_reachable c (ls : list label) c' : sc_reachable c -> do_steps c ls = Some c' -> sc_reachable c'.
Proof.
  revert c. induction ls as [|lab ls IH]; intros c Hr; simpl; [by intros [= <-]|].
  destruct (do_step c lab) as [c1|] eqn:E; [|done]. cbn [mbind option_bind]. apply IH. eapply rtc_r; [exact Hr|]. by eapply do_step_sound.
Qed.
End Invariant.

(** Two calls of [Enqueue], the second between the steps of the first, then one of [Dequeue] and a third [Enqueue]. *)
Definition a_run : list (label (T := Z)) :=
  [Call 0 10; Enqueues 0 1; Enqueues 0 9; Call 1 20; Enqueues 1 2; Enqueues 1 9; Enqueues 1 9; Returns 1;
   Enqueues 0 9; Enqueues 0 9; Returns 0; Call_dequeue; Dequeues; Dequeues; Dequeues; Dequeues; Dequeues; Call 2 30; Enqueues 2 3; Enqueues 2 9; Enqueues 2 9; Returns 2;
   Dequeues; Dequeues; Dequeues; Dequeues; Dequeues; Dequeues].

(** The race of the store that connects a node with the loop that waits for it is reached. *)
Lemma mpsc_queue_race_exists : exists c : conf (T := Z), sc_reachable c /\ races c.
Proof.
  assert (exists c, do_steps (T := Z) initial [Call 0 10; Enqueues 0 1; Enqueues 0 9; Enqueues 0 9; Enqueues 0 9; Call 1 20; Enqueues 1 2; Enqueues 1 9;
    Call_dequeue; Dequeues; Dequeues; Dequeues; Dequeues; Dequeues] = Some c /\ races c) as (c & E & Hr).
  { eexists. split; [vm_compute; reflexivity|]. exists 1%nat, (P_link 2 (at_node 1)), 2%positive. split_and!; reflexivity. }
  exists c. split; [|exact Hr]. by apply (do_steps_reachable initial _ c (rtc_refl _ _) E).
Qed.

Lemma mpsc_queue_safe_witness : exists c, do_steps initial a_run = Some c /\ enqueued c = [10; 20; 30] /\ dequeued c = [10] /\
  exists left, enqueued c = dequeued c ++ left.
Proof.
  assert (exists c, do_steps initial a_run = Some c /\ enqueued c = [10; 20; 30] /\ dequeued c = [10]) as (c & E & He & Hd).
  { eexists. split; [vm_compute; reflexivity|]. done. }
  exists c. split; [exact E|]. split; [exact He|]. split; [exact Hd|].
  destruct (mpsc_queue_safe c (do_steps_reachable initial a_run c (rtc_refl _ _) E)) as (_ & _ & left & El & _ & _). by exists left.
Defined.
Lemma mpsc_queue_drained_witness : exists c q, do_steps initial a_run = Some c /\ dequeued c = [10] /\ destroy 2 (queue c) = Some ([20; 30], q) /\ heap q = ∅.
Proof.
  assert (exists c, do_steps initial a_run = Some c /\ enqueued c = [10; 20; 30] /\ dequeued c = [10] /\ producers c = ∅ /\ the_consumer c = C_idle) as (c & E & He & Hd & Hp & Hs).
  { eexists. split; [vm_compute; reflexivity|]. done. }
  destruct (mpsc_queue_drained c (do_steps_reachable initial a_run c (rtc_refl _ _) E) Hp Hs) as (left & El & _ & q & Eq & Hq).
  rewrite He, Hd in El. injection El as <-. exists c, q. split; [exact E|]. split; [exact Hd|]. split; [exact Eq|exact Hq].
Defined.
