(* ===== verification/BigUnsigned.v ===== *)
(** * Fixed-width large integers (strings/internal/charconv_bigint.h, charconv_bigint.cc)

    [BigUnsigned<max_words>]: an array of 32-bit words and the number of words that may be other than zero, with
    arithmetic in place that drops what does not fit. A read or write outside of an array is [None]. Every operation is
    proved against arithmetic modulo [2 ^ (32 * max_words)]. *)
From S2P Require Import Prelude Words Loops.

(** ** Powers *)

Definition kMaxSmallPowerOfFive : Z := 13.
Definition kMaxSmallPowerOfTen : Z := 9.
Definition kLargePowerOfFiveStep : Z := 27.
Definition kLargestPowerOfFiveIndex : Z := 20.
Definition kFiveToNth : list Z :=
  [1; 5; 25; 125; 625; 3125; 15625; 78125; 390625; 1953125; 9765625; 48828125; 244140625; 1220703125].
Definition kTenToNth : list Z := [1; 10; 100; 1000; 10000; 100000; 1000000; 10000000; 100000000; 1000000000].
Definition kLargePowersOfFive : list Z :=
  [
   0xfa10079d; 0x6765c793; 0x97d9f649; 0x6664242d; 0x29939b14; 0x29c30f10; 0xc4f809c5; 0x7bf3f22a; 0x67bdae34; 0xad340517;
   0x369d1b5f; 0x10de1593; 0x92b260d1; 0x9efff7c7; 0x81de0ec6; 0xaeba5d56; 0x410664a4; 0x4f40737a; 0x20d3846f; 0x06d00f73;
   0xff1b172d; 0x13a1d71c; 0xefa07617; 0x7f682d3d; 0xff8c90c0; 0x3f0131e7; 0x3fdcb9fe; 0x917b0177; 0x16c407a7; 0x02c06b9d;
   0x960f7199; 0x056667ec; 0xe07aefd8; 0x80f2b9cc; 0x8273f5e3; 0xeb9a214a; 0x40b38005; 0x0e477ad4; 0x277d08e6; 0xfa28b11e;
   0xd3f7d784; 0x011c835b; 0xf723d9d5; 0x3282d3f3; 0xe00857d1; 0x69659d25; 0x2cf117cf; 0x24da6d07; 0x954d1417; 0x3e5d8ced;
   0x7a8bb766; 0xfd785ae6; 0x645436d2; 0x40c78b34; 0x94151217; 0x0072e9f7; 0x2b416aa1; 0x7893c5a7; 0xe37dc6d4; 0x2bad2bea;
   0xf0fc846c; 0x7575ae4b; 0x62587b14; 0x83b67a34; 0x02110cdb; 0xf7992f55; 0x00deb022; 0xa4a23bec; 0x8af5c5cd; 0xb85b654f;
   0x818df38b; 0x002e69d2; 0x3518cbbd; 0x20b0c15f; 0x38756c2f; 0xfb5dc3dd; 0x22ad2d94; 0xbf35a952; 0xa699192a; 0x9a613326;
   0xad2a9ced; 0xd7f48968; 0xe87dfb54; 0xc8f05db6; 0x5ef67531; 0x31c1ab49; 0xe202ac9f; 0x9b2957b5; 0xa143f6d3; 0x0012bf07;
   0x8b971de9; 0x21aba2e1; 0x63944362; 0x57172336; 0xd9544225; 0xfb534166; 0x08c563ee; 0x14640ee2; 0x24e40d31; 0x02b06537;
   0x03887f14; 0x0285e533; 0xb744ef26; 0x8be3a6c4; 0x266979b4; 0x6761ece2; 0xd9cb39e4; 0xe67de319; 0x0d39e796; 0x00079250;
   0x260eb6e5; 0xf414a796; 0xee1a7491; 0xdb9368eb; 0xf50c105b; 0x59157750; 0x9ed2fb5c; 0xf6e56d8b; 0xeaee8d23; 0x0f319f75;
   0x2aa134d6; 0xac2908e9; 0xd4413298; 0x02f02a55; 0x989d5a7a; 0x70dde184; 0xba8040a7; 0x03200981; 0xbe03b11c; 0x3c1c2a18;
   0xd60427a1; 0x00030ee0; 0xce566d71; 0xf1c4aa25; 0x4e93ca53; 0xa72283d0; 0x551a73ea; 0x3d0538e2; 0x8da4303f; 0x6a58de60;
   0x0e660221; 0x49cf61a6; 0x8d058fc1; 0xb9d1a14c; 0x4bab157d; 0xc85c6932; 0x518c8b9e; 0x9b92b8d0; 0x0d8a0e21; 0xbd855df9;
   0xb3ea59a1; 0x8da29289; 0x4584d506; 0x3752d80f; 0xb72569c6; 0x00013c33; 0x190f354d; 0x83695cfe; 0xe5a4d0c7; 0xb60fb7e8;
   0xee5bbcc4; 0xb922054c; 0xbb4f0d85; 0x48394028; 0x1d8957db; 0x0d7edb14; 0x4ecc7587; 0x505e9e02; 0x4c87f36b; 0x99e66bd6;
   0x44b9ed35; 0x753037d4; 0xe5fe5f27; 0x2742c203; 0x13b2ed2b; 0xdc525d2c; 0xe6fde59a; 0x77ffb18f; 0x13c5752c; 0x08a84bcc;
   0x859a4940; 0x00007fb6; 0x4f98cb39; 0xa60edbbc; 0x83b5872e; 0xa501acff; 0x9cc76f78; 0xbadd4c73; 0x43e989fa; 0xca7acf80;
   0x2e0c824f; 0xb19f4ffc; 0x092fd81c; 0xe4eb645b; 0xa1ff84c2; 0x8a5a83ba; 0xa8a1fae9; 0x1db43609; 0xb0fed50b; 0x0dd7d2bd;
   0x7d7accd8; 0x91fa640f; 0x37dcc6c5; 0x1c417fd5; 0xe4d462ad; 0xe8a43399; 0x131bf9a5; 0x8df54d29; 0x36547dc1; 0x00003395;
   0x5bd330f5; 0x77d21967; 0x1ac481b7; 0x6be2f7ce; 0x7f4792a9; 0xe84c2c52; 0x84592228; 0x9dcaf829; 0xdab44ce1; 0x3d0c311b;
   0x532e297d; 0x4704e8b4; 0x9cdc32be; 0x41e64d9d; 0x7717bea1; 0xa824c00d; 0x08f50b27; 0x0f198d77; 0x49bbfdf0; 0x025c6c69;
   0xd4e55cd3; 0xf083602b; 0xb9f0fecd; 0xc0864aea; 0x9cb98681; 0xaaf620e9; 0xacb6df30; 0x4faafe66; 0x8af13c3b; 0x000014d5;
   0x682bb941; 0x89a9f297; 0xcba75d7b; 0x404217b1; 0xb4e519e9; 0xa1bc162b; 0xf7f5910a; 0x98715af5; 0x2ff53e57; 0xe3ef118c;
   0x490c4543; 0xbc9b1734; 0x2affbe4d; 0x4cedcb4c; 0xfb14e99e; 0x35e34212; 0xece39c24; 0x07673ab3; 0xe73115dd; 0xd15d38e7;
   0x093eed3b; 0xf8e7eac5; 0x78a8cc80; 0x25227aac; 0x3f590551; 0x413da1cb; 0xdf643a55; 0xab65ad44; 0xd70b23d7; 0xc672cd76;
   0x3364ea62; 0x0000086a; 0x22f163dd; 0x23cf07ac; 0xbe2af6c2; 0xf412f6f6; 0xc3ff541e; 0x6eeaf7de; 0xa47047e0; 0x408cda92;
   0x0f0eeb08; 0x56deba9d; 0xcfc6b090; 0x8bbbdf04; 0x3933cdb3; 0x9e7bb67d; 0x9f297035; 0x38946244; 0xee1d37bb; 0xde898174;
   0x63f3559d; 0x705b72fb; 0x138d27d9; 0xf8603a78; 0x735eec44; 0xe30987d5; 0xc6d38070; 0x9cfe548e; 0x9ff01422; 0x7c564aa8;
   0x91cc60ba; 0xcbc3565d; 0x7550a50b; 0x6909aead; 0x13234c45; 0x00000366; 0x17954989; 0x3a7d7709; 0x98042de5; 0xa9011443;
   0x45e723c2; 0x269ffd6f; 0x58852a46; 0xaaa1042a; 0x2eee8153; 0xb2b6c39e; 0xaf845b65; 0xf6c365d7; 0xe4cffb2b; 0xc840e90c;
   0xabea8abb; 0x5c58f8d2; 0x5c19fa3a; 0x4670910a; 0x4449f21c; 0xefa645b3; 0xcc427dec; 0x083c3d73; 0x467cb413; 0x6fe10ae4;
   0x3caffc72; 0x9f8da55e; 0x5e5c8ea7; 0x490594bb; 0xf0871b0b; 0xdd89816c; 0x8e931df8; 0xe85ce1c9; 0xcca090a5; 0x575fa16b;
   0x6b9f106c; 0x0000015f; 0xee20d805; 0x57bc3c07; 0xcdea624e; 0xd3f0f52d; 0x9924b4f4; 0xcf968640; 0x61d41962; 0xe87fb464;
   0xeaaf51c7; 0x564c8b60; 0xccda4028; 0x529428bb; 0x313a1fa8; 0x96bd0f94; 0x7a82ebaa; 0xad99e7e9; 0xf2668cd4; 0xbe33a45e;
   0xfd0db669; 0x87ee369f; 0xd3ec20ed; 0x9c4d7db7; 0xdedcf0d8; 0x7cd2ca64; 0xe25a6577; 0x61003fd4; 0xe56f54cc; 0x10b7c748;
   0x40526e5e; 0x7300ae87; 0x5c439261; 0x2c0ff469; 0xbf723f12; 0xb2379b61; 0xbf59b4f5; 0xc91b1c3f; 0xf0046d27; 0x0000008d;
   0x525c9e11; 0xf4e0eb41; 0xebb2895d; 0x5da512f9; 0x7d9b29d4; 0x452f4edc; 0x0b90bc37; 0x341777cb; 0x63d269af; 0x1da77929;
   0x0a5c1826; 0x77991898; 0x5aeddf86; 0xf853a877; 0x538c31cc; 0xe84896da; 0xb7a0010b; 0x17ef4de5; 0xa52a2ade; 0x029fd81c;
   0x987ce701; 0x27fefd77; 0xdb46c66f; 0x5d301900; 0x496998c0; 0xbb6598b9; 0x5eebb607; 0xe547354a; 0xdf4a2f7e; 0xf06c4955;
   0x96242ffa; 0x1775fb27; 0xbecc58ce; 0xebf2a53b; 0x3eaad82a; 0xf41137ba; 0x573e6fba; 0xfb4866b8; 0x54002148; 0x00000039
  ].

(** ** Arrays of words *)

Definition rd (ws : list Z) (i : Z) : option Z := if i <? 0 then None else ws !! Z.to_nat i.
Definition wr (ws : list Z) (i v : Z) : option (list Z) :=
  if (0 <=? i) && (i <? Z.of_nat (length ws)) then Some (<[Z.to_nat i := v]> ws) else None.
(** [std::fill_n(ws, n, 0u)] *)
Definition fill_zero (ws : list Z) (n : Z) : option (list Z) :=
  if (0 <=? n) && (n <=? Z.of_nat (length ws)) then Some (replicate (Z.to_nat n) 0 ++ drop (Z.to_nat n) ws) else None.
(** [std::copy_backward(ws, ws + n, ws + d)] *)
Definition copy_backward (ws : list Z) (n d : Z) : option (list Z) :=
  if (0 <=? n) && (n <=? d) && (d <=? Z.of_nat (length ws))
  then Some (take (Z.to_nat (d - n)) ws ++ take (Z.to_nat n) ws ++ drop (Z.to_nat d) ws) else None.

(** [LargePowerOfFiveData(i)] and [LargePowerOfFiveSize(i)]: a pointer into the table is what is left of it. *)
Definition LargePowerOfFiveData (i : Z) : list Z := drop (Z.to_nat (i * (i - 1))) kLargePowersOfFive.
Definition LargePowerOfFiveSize (i : Z) : Z := 2 * i.

Record BigUnsigned := { size_ : Z; words_ : list Z }.

Section Operations.
Variable max_words : Z.

Definition zero_words : list Z := replicate (Z.to_nat max_words) 0.

Definition big_default : BigUnsigned := {| size_ := 0; words_ := zero_words |}.
Definition big_of (v : Z) : BigUnsigned :=
  {| size_ := if negb (ushr v 32 =? 0) then 2 else if negb (v =? 0) then 1 else 0;
     words_ := Z.land v 0xffffffff :: wrap 32 (ushr v 32) :: replicate (Z.to_nat max_words - 2) 0 |}.

Definition SetToZero (b : BigUnsigned) : option BigUnsigned :=
  ws ← fill_zero (words_ b) (size_ b); Some {| size_ := 0; words_ := ws |}.

Definition GetWord (b : BigUnsigned) (index : Z) : option Z :=
  if (index <? 0) || (size_ b <=? index) then Some 0 else rd (words_ b) index.

(** The loop of [ShiftLeft] over the words above the lowest one; [count] is below 32 here. *)
Definition shift_loop (top word_shift count : Z) (ws : list Z) : option (list Z) :=
  '(_, ws) ← while_ (S (Z.to_nat max_words)) (fun '(i, _) => word_shift <? i)
    (fun '(i, ws) =>
       a ← rd ws (i - word_shift);
       b ← rd ws (i - word_shift - 1);
       ws ← wr ws i (Z.lor (ushl 32 a count) (ushr b (32 - count)));
       Some (i - 1, ws))
    (top, ws);
  Some ws.

Definition ShiftLeft (count : Z) (b : BigUnsigned) : option BigUnsigned :=
  if 0 <? count then
    let word_shift := Z.quot count 32 in
    if max_words <=? word_shift then SetToZero b
    else
      let size := Z.min (size_ b + word_shift) max_words in
      let count := Z.rem count 32 in
      '(size, ws) ←
        if count =? 0 then
          ws ← copy_backward (words_ b) (size - word_shift) size;
          Some (size, ws)
        else
          ws ← shift_loop (Z.min size (max_words - 1)) word_shift count (words_ b);
          w0 ← rd ws 0;
          ws ← wr ws word_shift (ushl 32 w0 count);
          if size <? max_words then
            w ← rd ws size;
            Some (if negb (w =? 0) then size + 1 else size, ws)
          else Some (size, ws);
      ws ← fill_zero ws word_shift;
      Some {| size_ := size; words_ := ws |}
  else Some b.

Definition MultiplyBy32 (v : Z) (b : BigUnsigned) : option BigUnsigned :=
  if (size_ b =? 0) || (v =? 1) then Some b
  else if v =? 0 then SetToZero b
  else
    '(_, window, ws) ← while_ (S (Z.to_nat max_words)) (fun '(i, _, _) => i <? size_ b)
      (fun '(i, window, ws) =>
         w ← rd ws i;
         let window := uadd 64 window (umul 64 v w) in
         ws ← wr ws i (Z.land window 0xffffffff);
         Some (i + 1, ushr window 32, ws))
      (0, 0, words_ b);
    if negb (window =? 0) && (size_ b <? max_words) then
      ws ← wr ws (size_ b) (Z.land window 0xffffffff);
      Some {| size_ := size_ b + 1; words_ := ws |}
    else Some {| size_ := size_ b; words_ := ws |}.

Definition AddWithCarry32 (index value : Z) (b : BigUnsigned) : option BigUnsigned :=
  if negb (value =? 0) then
    '(index, _, ws) ← while_ (S (Z.to_nat max_words)) (fun '(index, value, _) => (index <? max_words) && (0 <? value))
      (fun '(index, value, ws) =>
         w ← rd ws index;
         let sum := uadd 32 w value in
         ws ← wr ws index sum;
         Some (if sum <? value then (index + 1, 1, ws) else (index, 0, ws)))
      (index, value, words_ b);
    Some {| size_ := Z.min max_words (Z.max (index + 1) (size_ b)); words_ := ws |}
  else Some b.

Definition AddWithCarry64 (index value : Z) (b : BigUnsigned) : option BigUnsigned :=
  if negb (value =? 0) && (index <? max_words) then
    let high := wrap 32 (ushr value 32) in
    let low := wrap 32 (Z.land value 0xffffffff) in
    w ← rd (words_ b) index;
    let sum := uadd 32 w low in
    ws ← wr (words_ b) index sum;
    let b := {| size_ := size_ b; words_ := ws |} in
    let high' := if sum <? low then uadd 32 high 1 else high in
    if (sum <? low) && (high' =? 0) then AddWithCarry32 (index + 2) 1 b
    else if 0 <? high' then AddWithCarry32 (index + 1) high' b
    else Some {| size_ := Z.min max_words (Z.max (index + 1) (size_ b)); words_ := ws |}
  else Some b.

(** The state of the inner loop: [this_i], [other_i], [this_word] and [carry]. *)
Definition MultiplyStep (original_size : Z) (other_words : list Z) (other_size step : Z) (b : BigUnsigned) : option BigUnsigned :=
  let this_i := Z.min (original_size - 1) step in
  '(_, _, this_word, carry) ← while_ (S (Z.to_nat max_words)) (fun '(this_i, other_i, _, _) => (0 <=? this_i) && (other_i <? other_size))
    (fun '(this_i, other_i, this_word, carry) =>
       x ← rd (words_ b) this_i;
       y ← rd other_words other_i;
       let this_word := uadd 64 this_word (umul 64 x y) in
       let carry := uadd 64 carry (ushr this_word 32) in
       Some (this_i - 1, other_i + 1, Z.land this_word 0xffffffff, carry))
    (this_i, step - this_i, 0, 0);
  b ← AddWithCarry64 (step + 1) carry b;
  ws ← wr (words_ b) step (Z.land this_word 0xffffffff);
  Some {| size_ := if (0 <? this_word) && (size_ b <=? step) then step + 1 else size_ b; words_ := ws |}.

Definition MultiplyByWords (other_size : Z) (other_words : list Z) (b : BigUnsigned) : option BigUnsigned :=
  let original_size := size_ b in
  let first_step := Z.min (original_size + other_size - 2) (max_words - 1) in
  '(_, b) ← while_ (S (Z.to_nat max_words)) (fun '(step, _) => 0 <=? step)
    (fun '(step, b) => b ← MultiplyStep original_size other_words other_size step b; Some (step - 1, b))
    (first_step, b);
  Some b.

(** The two other overloads of [MultiplyBy]. *)
Definition MultiplyBy64 (v : Z) (b : BigUnsigned) : option BigUnsigned :=
  let words := [wrap 32 v; wrap 32 (ushr v 32)] in
  if wrap 32 (ushr v 32) =? 0 then MultiplyBy32 (wrap 32 v) b else MultiplyByWords 2 words b.
Definition MultiplyByBig (other : BigUnsigned) (b : BigUnsigned) : option BigUnsigned :=
  MultiplyByWords (size_ other) (words_ other) b.

Definition MultiplyByFiveToTheNth (n : Z) (b : BigUnsigned) : option BigUnsigned :=
  '(n, b) ← while_ (Z.to_nat n) (fun '(n, _) => kMaxSmallPowerOfFive <=? n)
    (fun '(n, b) =>
       p ← rd kFiveToNth kMaxSmallPowerOfFive;
       b ← MultiplyBy32 p b;
       Some (n - kMaxSmallPowerOfFive, b))
    (n, b);
  if 0 <? n then p ← rd kFiveToNth n; MultiplyBy32 p b else Some b.

Definition MultiplyByTenToTheNth (n : Z) (b : BigUnsigned) : option BigUnsigned :=
  if kMaxSmallPowerOfTen <? n then
    b ← MultiplyByFiveToTheNth n b;
    ShiftLeft n b
  else if 0 <? n then p ← rd kTenToNth n; MultiplyBy32 p b
  else Some b.

(** [std::copy_n(data, n, ws)] *)
Definition copy_n (data : list Z) (n : Z) (ws : list Z) : option (list Z) :=
  if (n <=? Z.of_nat (length data)) && (n <=? Z.of_nat (length ws))
  then Some (take (Z.to_nat n) data ++ drop (Z.to_nat n) ws) else None.

Definition FiveToTheNth (n : Z) : option BigUnsigned :=
  '(_, n, answer) ← while_ (Z.to_nat n) (fun '(_, n, _) => kLargePowerOfFiveStep <=? n)
    (fun '(first_pass, n, answer) =>
       let big_power := Z.min (Z.quot n kLargePowerOfFiveStep) kLargestPowerOfFiveIndex in
       answer ←
         if (first_pass : bool) then
           ws ← copy_n (LargePowerOfFiveData big_power) (LargePowerOfFiveSize big_power) (words_ answer);
           Some {| size_ := LargePowerOfFiveSize big_power; words_ := ws |}
         else MultiplyByWords (LargePowerOfFiveSize big_power) (LargePowerOfFiveData big_power) answer;
       Some (false, n - kLargePowerOfFiveStep * big_power, answer))
    (true, n, big_of 1);
  MultiplyByFiveToTheNth n answer.

(** The division loop and the loop that shrinks the size. *)
Definition DivMod (divisor : Z) (b : BigUnsigned) : option (Z * BigUnsigned) :=
  '(_, accumulator, ws) ← while_ (S (Z.to_nat max_words)) (fun '(i, _, _) => 0 <=? i)
    (fun '(i, accumulator, ws) =>
       w ← rd ws i;
       let accumulator := uadd 64 (ushl 64 accumulator 32) w in
       ws ← wr ws i (wrap 32 (accumulator / divisor));
       Some (i - 1, accumulator mod divisor, ws))
    (size_ b - 1, 0, words_ b);
  size ← while_ (S (Z.to_nat max_words)) (fun size => (0 <? size) && (match rd ws (size - 1) with Some w => w =? 0 | None => true end))
    (fun size => w ← rd ws (size - 1); Some (size - 1)) (size_ b);
  Some (wrap 32 accumulator, {| size_ := size; words_ := ws |}).

End Operations.

(** [Compare], on integers of any two widths: the loop over the words from the highest down. *)
Fixpoint compare_words (n : nat) (lhs rhs : BigUnsigned) : option Z :=
  match n with
  | O => Some 0
  | S n =>
      lhs_word ← GetWord lhs (Z.of_nat n);
      rhs_word ← GetWord rhs (Z.of_nat n);
      if lhs_word <? rhs_word then Some (-1) else if rhs_word <? lhs_word then Some 1 else compare_words n lhs rhs
  end.
Definition Compare (lhs rhs : BigUnsigned) : option Z :=
  compare_words (Z.to_nat (Z.max (size_ lhs) (size_ rhs))) lhs rhs.

(** [operator==]: from the lowest word up. *)
Fixpoint equal_words (n : nat) (i : Z) (lhs rhs : BigUnsigned) : option bool :=
  match n with
  | O => Some true
  | S n =>
      lhs_word ← GetWord lhs i;
      rhs_word ← GetWord rhs i;
      if negb (lhs_word =? rhs_word) then Some false else equal_words n (i + 1) lhs rhs
  end.
Definition big_eq (lhs rhs : BigUnsigned) : option bool := equal_words (Z.to_nat (Z.max (size_ lhs) (size_ rhs))) 0 lhs rhs.
Definition big_lt (lhs rhs : BigUnsigned) : option bool := c ← Compare lhs rhs; Some (c =? -1).

(** ** The value of an array of words *)

Definition wval (l : list Z) : Z := foldr (fun w a => w + 2 ^ 32 * a) 0 l.
Definition word_ok (w : Z) : Prop := 0 <= w < 2 ^ 32.
Definition X (n : Z) : Z := 2 ^ (32 * n).

Lemma X_pos n : 0 <= n -> 0 < X n.
Proof. intros. unfold X. lia. Qed.
Lemma X_nz n : 0 <= n -> X n <> 0.
Proof. intros Hn. pose proof (X_pos n Hn). lia. Qed.
Lemma X_add m n : 0 <= m -> 0 <= n -> X (m + n) = X m * X n.
Proof. intros. unfold X. rewrite <- Z.pow_add_r by lia. f_equal. lia. Qed.
Lemma X_succ n : 0 <= n -> X (n + 1) = 2 ^ 32 * X n.
Proof. intros. rewrite X_add by lia. change (X 1) with (2 ^ 32). lia. Qed.
Lemma X_0 : X 0 = 1.
Proof. reflexivity. Qed.

Lemma wval_app l m : wval (l ++ m) = wval l + X (Z.of_nat (length l)) * wval m.
Proof.
  induction l as [|w l IH]; [change (wval ([] ++ m)) with (wval m); change (wval []) with 0; change (Z.of_nat (length (@nil Z))) with 0; rewrite X_0; lia|].
  cbn [app wval foldr length]. fold (wval (l ++ m)) (wval l). rewrite IH, Nat2Z.inj_succ. change (Z.succ (Z.of_nat (length l))) with (Z.of_nat (length l) + 1).
  rewrite X_succ by lia. lia.
Qed.

Lemma wval_range l : Forall word_ok l -> 0 <= wval l < X (Z.of_nat (length l)).
Proof.
  induction 1 as [|w l Hw Hl IH]; [unfold X; simpl; lia|].
  cbn [wval foldr length]. fold (wval l). rewrite Nat2Z.inj_succ. change (Z.succ (Z.of_nat (length l))) with (Z.of_nat (length l) + 1).
  rewrite X_succ by lia. unfold word_ok in Hw. lia.
Qed.

Lemma wval_zeros n : wval (replicate n 0) = 0.
Proof. induction n as [|n IH]; [done|]. cbn [replicate wval foldr]. fold (wval (replicate n 0)). lia. Qed.

Lemma wval_take_drop n l : wval l = wval (take n l) + X (Z.of_nat (Nat.min n (length l))) * wval (drop n l).
Proof. rewrite <- (take_drop n l) at 1. rewrite wval_app, length_take. done. Qed.

Lemma wval_take n l : Forall word_ok l -> (n <= length l)%nat -> wval (take n l) = wval l mod X (Z.of_nat n).
Proof.
  intros Hl Hn. rewrite (wval_take_drop n l), Nat.min_l by done.
  rewrite (Z.mul_comm (X _)), Z.mod_add by (pose proof (X_pos (Z.of_nat n)); lia).
  rewrite Z.mod_small; [done|]. pose proof (wval_range (take n l) ltac:(by apply Forall_take)) as H.
  rewrite length_take, Nat.min_l in H by done. done.
Qed.

Lemma wval_cut i l w : l !! i = Some w -> wval l = wval (take i l) + X (Z.of_nat i) * (w + 2 ^ 32 * wval (drop (S i) l)).
Proof.
  intros E. rewrite (wval_take_drop i l), (drop_S l w i) by done. pose proof (lookup_lt_Some _ _ _ E).
  by rewrite Nat.min_l by lia.
Qed.

Lemma wval_insert i l w v : l !! i = Some w -> wval (<[i := v]> l) = wval l + X (Z.of_nat i) * (v - w).
Proof.
  intros E. pose proof (lookup_lt_Some _ _ _ E). rewrite (wval_cut i l w E).
  rewrite (wval_cut i (<[i := v]> l) v) by (apply list_lookup_insert_eq; lia).
  rewrite take_insert_ge, drop_insert_lt by lia. lia.
Qed.

Lemma rd_spec ws i w : 0 <= i -> ws !! Z.to_nat i = Some w -> rd ws i = Some w.
Proof. intros Hi E. unfold rd. destruct (Z.ltb_spec i 0); [lia|done]. Qed.

Lemma rd_in ws i : 0 <= i < Z.of_nat (length ws) -> exists w, rd ws i = Some w /\ ws !! Z.to_nat i = Some w.
Proof.
  intros Hi. destruct (lookup_lt_is_Some_2 ws (Z.to_nat i)) as [w E]; [lia|]. exists w. split; [|done]. apply rd_spec; [lia|done].
Qed.

Lemma wr_in ws i v : 0 <= i < Z.of_nat (length ws) -> wr ws i v = Some (<[Z.to_nat i := v]> ws).
Proof. intros Hi. unfold wr. destruct (Z.leb_spec 0 i), (Z.ltb_spec i (Z.of_nat (length ws))); [done|lia..]. Qed.

Lemma fill_zero_in ws n : 0 <= n <= Z.of_nat (length ws) -> fill_zero ws n = Some (replicate (Z.to_nat n) 0 ++ drop (Z.to_nat n) ws).
Proof. intros Hn. unfold fill_zero. destruct (Z.leb_spec 0 n), (Z.leb_spec n (Z.of_nat (length ws))); [done|lia..]. Qed.

Lemma low_word x : Z.land x 0xffffffff = x mod 2 ^ 32.
Proof. change 0xffffffff with (Z.ones 32). apply Z.land_ones. lia. Qed.

Lemma Forall_insert_Z (P : Z -> Prop) l i v : Forall P l -> P v -> Forall P (<[i := v]> l).
Proof. intros. by apply Forall_insert. Qed.

Section Correct.
Variable max_words : Z.
Hypothesis Hmax : 4 <= max_words < 2 ^ 20.



(** The invariant: the words from [size_] on are zero. *)
Record big_ok (b : BigUnsigned) : Prop := {
  ok_length : Z.of_nat (length (words_ b)) = max_words;
  ok_words : Forall word_ok (words_ b);
  ok_size : 0 <= size_ b <= max_words;
  ok_zeros : drop (Z.to_nat (size_ b)) (words_ b) = replicate (Z.to_nat (max_words - size_ b)) 0
}.
Definition value (b : BigUnsigned) : Z := wval (words_ b).

(** [b] is [z], as far as it fits. *)
Definition is_big (b : BigUnsigned) (z : Z) : Prop := big_ok b /\ value b = z mod X max_words.

Lemma value_range b : big_ok b -> 0 <= value b < X max_words.
Proof using Hmax. intros Hb. rewrite <- (ok_length b Hb). apply wval_range, Hb. Qed.

Lemma value_is b : big_ok b -> is_big b (value b).
Proof using Hmax. intros Hb. split; [done|]. by rewrite Z.mod_small by (by apply value_range). Qed.

(** The words from [n] on are zero when each of them is. *)
Lemma zeros_from (ws : list Z) n : (n <= length ws)%nat -> (forall i, (n <= i < length ws)%nat -> ws !! i = Some 0) -> drop n ws = replicate (length ws - n) 0.
Proof using Hmax.
  intros Hn H. apply list_eq. intros i. rewrite lookup_drop. destruct (decide (n + i < length ws)%nat).
  - rewrite H by lia. symmetry. apply lookup_replicate_2. lia.
  - rewrite lookup_ge_None_2 by lia. symmetry. apply lookup_ge_None_2. rewrite length_replicate. lia.
Qed.

Lemma big_ok_intro ws size : Z.of_nat (length ws) = max_words -> Forall word_ok ws -> 0 <= size <= max_words ->
  (forall i, (Z.to_nat size <= i < length ws)%nat -> ws !! i = Some 0) -> big_ok {| size_ := size; words_ := ws |}.
Proof using Hmax.
  intros Hl Hw Hs Hz. split; simpl; try done. rewrite zeros_from by (done || lia). f_equal. lia.
Qed.

Lemma upper_word b i : big_ok b -> (Z.to_nat (size_ b) <= i < length (words_ b))%nat -> words_ b !! i = Some 0.
Proof using Hmax.
  intros Hb Hi. pose proof (ok_length b Hb). pose proof (ok_size b Hb).
  replace i with (Z.to_nat (size_ b) + (i - Z.to_nat (size_ b)))%nat by lia. rewrite <- lookup_drop, (ok_zeros b Hb).
  apply lookup_replicate_2. lia.
Qed.

(** The value is that of the words below [size_]. *)
Lemma value_low b n : big_ok b -> (Z.to_nat (size_ b) <= n)%nat -> wval (take n (words_ b)) = value b.
Proof using Hmax.
  intros Hb Hn. unfold value. rewrite (wval_take_drop n (words_ b)).
  replace (drop n (words_ b)) with (replicate (Z.to_nat (max_words - size_ b) - (n - Z.to_nat (size_ b))) 0).
  - rewrite wval_zeros. lia.
  - rewrite <- drop_replicate, <- (ok_zeros b Hb), drop_drop. f_equal. lia.
Qed.

Lemma big_default_ok : is_big (big_default max_words) 0.
Proof using Hmax.
  split.
  - apply big_ok_intro; unfold zero_words; rewrite ?length_replicate; try lia.
    + apply Forall_replicate. unfold word_ok. lia.
    + intros i Hi. apply lookup_replicate_2. lia.
  - unfold value. simpl. unfold zero_words. by rewrite wval_zeros.
Qed.

Lemma big_of_ok v : 0 <= v < 2 ^ 64 -> is_big (big_of max_words v) v /\ value (big_of max_words v) = v.
Proof using Hmax.
  intros Hv. assert (ushr v 32 = v / 2 ^ 32) as Hh by (apply ushr_val; lia).
  assert (value (big_of max_words v) = v) as Ev.
  { unfold value, big_of. cbn [words_ wval foldr]. fold (wval (replicate (Z.to_nat max_words - 2) 0)). rewrite wval_zeros, low_word, Hh.
    rewrite wrap_small by zlia. change (2 ^ 32) with 4294967296 in *. zlia. }
  split; [|done]. split; [|rewrite Ev, Z.mod_small; [done|]; split; [lia|]; apply Z.lt_le_trans with (X 2); [unfold X; simpl; lia|unfold X; apply Z.pow_le_mono_r; lia]].
  apply big_ok_intro.
  - cbn [length]. rewrite length_replicate. lia.
  - constructor; [rewrite low_word; apply Z.mod_pos_bound; lia|]. constructor; [apply wrap_range; lia|]. apply Forall_replicate. unfold word_ok. lia.
  - ifs; lia.
  - intros i Hi. cbn [length] in Hi. rewrite length_replicate in Hi. destruct i as [|[|i]]; cbn [lookup list_lookup].
    + destruct (Z.eqb_spec (ushr v 32) 0), (Z.eqb_spec v 0); cbn [negb] in Hi; try lia. by subst v.
    + destruct (Z.eqb_spec (ushr v 32) 0) as [E|E]; cbn [negb] in Hi; [by rewrite E|lia].
    + apply lookup_replicate_2. lia.
Qed.

Lemma SetToZero_ok b : big_ok b -> exists b', SetToZero b = Some b' /\ big_ok b' /\ value b' = 0.
Proof using Hmax.
  intros Hb. pose proof (ok_length b Hb). pose proof (ok_size b Hb). unfold SetToZero. rewrite fill_zero_in by lia. run.
  rewrite (ok_zeros b Hb), <- replicate_add. eexists. split; [done|]. split.
  - apply big_ok_intro; rewrite ?length_replicate; try lia.
    + apply Forall_replicate. unfold word_ok. lia.
    + intros i Hi. apply lookup_replicate_2. lia.
  - unfold value. simpl. apply wval_zeros.
Qed.

(** ** Multiplication by a word *)

Lemma word_range ws i w : Forall word_ok ws -> ws !! i = Some w -> 0 <= w < 2 ^ 32.
Proof using. intros Hw E. by apply (Forall_lookup_1 _ _ _ _ Hw E). Qed.

Lemma take_wval_S ws k w : ws !! k = Some w -> wval (take (S k) ws) = wval (take k ws) + X (Z.of_nat k) * w.
Proof using.
  intros E. rewrite (take_S_r ws k w) by done. rewrite wval_app, length_take. pose proof (lookup_lt_Some _ _ _ E).
  rewrite Nat.min_l by lia. simpl. lia.
Qed.

Lemma MultiplyBy32_ok v b z : is_big b z -> 0 <= v < 2 ^ 32 -> exists b', MultiplyBy32 max_words v b = Some b' /\ is_big b' (z * v).
Proof using Hmax.
  intros [Hb Hval] Hv. unfold MultiplyBy32. pose proof (ok_length b Hb) as Hlen. pose proof (ok_size b Hb) as Hsize.
  assert (forall b' , big_ok b' -> value b' = (value b * v) mod X max_words -> is_big b' (z * v)) as Hdone.
  { intros b' Hb' E. split; [done|]. rewrite E, Hval. rewrite Z.mul_mod_idemp_l; [done|]. pose proof (X_pos max_words). lia. }
  destruct (Z.eqb_spec (size_ b) 0) as [E0|E0]; cbn [orb].
  { exists b. split; [done|]. apply Hdone; [done|].
    assert (value b = 0) as Ev by (rewrite <- (value_low b 0 Hb) by lia; done). by rewrite Ev. }
  destruct (Z.eqb_spec v 1) as [->|E1].
  { exists b. split; [done|]. apply Hdone; [done|]. by rewrite Z.mul_1_r, Z.mod_small by (by apply value_range). }
  destruct (Z.eqb_spec v 0) as [->|E2].
  { destruct (SetToZero_ok b Hb) as (b' & -> & Hb' & Ev). exists b'. split; [done|]. apply Hdone; [done|]. by rewrite Ev, Z.mul_0_r. }
  pose (I := fun (k : nat) (s : Z * Z * list Z) => exists window ws, s = (Z.of_nat k, window, ws) /\ length ws = length (words_ b) /\
    Forall word_ok ws /\ 0 <= window < 2 ^ 32 /\ (forall i, (k <= i)%nat -> ws !! i = words_ b !! i) /\
    wval ws + window * X (Z.of_nat k) = value b + (v - 1) * wval (take k (words_ b))).
  run_loop I (Z.to_nat (size_ b)).
  - exists 0, (words_ b). split_and!; try done; try lia; [apply Hb|]. rewrite take_0. change (wval []) with 0. unfold value. lia.
  - intros k s Hk (window & ws & -> & Hl & Hw & Hwin & Hsame & Hinv). split; [lia|].
    destruct (rd_in ws (Z.of_nat k)) as (w & -> & Ew); [lia|]. rewrite Nat2Z.id in Ew. run.
    pose proof (word_range _ _ _ Hw Ew) as Hwr.
    assert (uadd 64 window (umul 64 v w) = window + v * w) as ->.
    { unfold uadd, umul. rewrite (wrap_small 64 (v * w)) by nia. apply wrap_small. nia. }
    rewrite wr_in by lia. run. eexists. split; [done|]. eexists _, _. split; [pairs|].
    rewrite low_word, ushr_val, Nat2Z.id by lia.
    assert (0 <= window + v * w < 2 ^ 32 * 2 ^ 32) as Hp by nia.
    split; [by rewrite length_insert|]. split; [apply Forall_insert; [done|apply Z.mod_pos_bound; lia]|]. split.
    { split; [apply Z.div_pos; lia|]. apply Z.div_lt_upper_bound; lia. }
    split; [intros i Hi; rewrite list_lookup_insert_ne by lia; apply Hsame; lia|].
    rewrite (wval_insert k ws w) by done. assert (words_ b !! k = Some w) as Ew0 by (rewrite <- Hsame by lia; done).
    rewrite (take_wval_S _ _ _ Ew0). replace (Z.of_nat (S k)) with (Z.of_nat k + 1) by lia. rewrite X_succ by lia.
    pose proof (Z.div_mod (window + v * w) (2 ^ 32)). nia.
  - intros s (window & ws & -> & _). lia.
  - destruct Hs as (window & ws & -> & Hl & Hw & Hwin & Hsame & Hinv). run. rewrite Z2Nat.id in * by lia.
    rewrite value_low in Hinv by (done || lia).
    assert (wval ws + window * X (size_ b) = v * value b) as Hprod by lia.
    assert (forall i, (Z.to_nat (size_ b) <= i < length ws)%nat -> ws !! i = Some 0) as Hz.
    { intros i Hi. rewrite Hsame by lia. apply upper_word; [done|lia]. }
    pose proof (X_pos (size_ b) ltac:(lia)) as HX.
    destruct (Z.eqb_spec window 0) as [Ew|Ew]; cbn [negb andb].
    + eexists. split; [done|]. apply Hdone; [apply big_ok_intro; done || lia|].
      unfold value at 1. cbn [words_]. rewrite Ew, Z.mul_0_l, Z.add_0_r in Hprod. rewrite (Z.mul_comm (value b)), <- Hprod.
      rewrite Z.mod_small; [done|]. rewrite <- Hlen, <- Hl. by apply wval_range.
    + destruct (Z.ltb_spec (size_ b) max_words) as [Hlt|Hge].
      * rewrite wr_in by lia. run. eexists. split; [done|]. rewrite low_word, Z.mod_small by lia.
        assert (ws !! Z.to_nat (size_ b) = Some 0) as E by (apply Hz; lia).
        assert (Forall word_ok (<[Z.to_nat (size_ b) := window]> ws)) as Hw' by (by apply Forall_insert).
        apply Hdone.
        -- apply big_ok_intro; rewrite ?length_insert; try done || lia. intros i Hi. rewrite list_lookup_insert_ne by lia. apply Hz. lia.
        -- unfold value at 1. cbn [words_]. pose proof (wval_range _ Hw') as Hr. rewrite length_insert, Hl, Hlen in Hr.
           rewrite (wval_insert _ _ _ _ E) in *. rewrite Z2Nat.id in * by lia. rewrite Z.mod_small; nia.
      * eexists. split; [done|]. assert (size_ b = max_words) as Es by lia. apply Hdone; [apply big_ok_intro; done || lia|].
        unfold value at 1. cbn [words_]. rewrite (Z.mul_comm (value b)), <- Hprod, Es, Z.mod_add by (pose proof (X_pos max_words); lia).
        rewrite Z.mod_small; [done|]. rewrite <- Hlen, <- Hl. by apply wval_range.
Qed.

(** ** Addition with carry *)

(** Congruence modulo the size of the array. *)
Definition same (a b : Z) : Prop := a mod X max_words = b mod X max_words.

Lemma same_refl a : same a a.
Proof using. done. Qed.
Lemma same_trans a b c : same a b -> same b c -> same a c.
Proof using. unfold same. congruence. Qed.
Lemma same_mul a b k : a = b + k * X max_words -> same a b.
Proof using Hmax. intros ->. unfold same. apply Z.mod_add. pose proof (X_pos max_words). lia. Qed.

(** Beyond the last word nothing counts. *)
Lemma X_beyond i : max_words <= i -> exists k, X i = k * X max_words.
Proof using Hmax. intros Hi. exists (X (i - max_words)). rewrite <- X_add by lia. f_equal. lia. Qed.

(** An addition at [index] needs no zeros below it. *)
Lemma AddWithCarry32_from index v b : Z.of_nat (length (words_ b)) = max_words -> Forall word_ok (words_ b) -> 0 <= size_ b <= max_words ->
  (forall j, (Z.to_nat (Z.max (size_ b) index) <= j < length (words_ b))%nat -> words_ b !! j = Some 0) -> 0 <= index -> 0 < v < 2 ^ 32 ->
  exists b', AddWithCarry32 max_words index v b = Some b' /\ big_ok b' /\ same (value b') (value b + v * X index) /\
    take (Z.to_nat index) (words_ b') = take (Z.to_nat index) (words_ b) /\ size_ b <= size_ b'.
Proof using Hmax.
  intros Hlen Hwords Hsize Hzero Hi Hv. unfold AddWithCarry32. destruct (Z.eqb_spec v 0) as [|_]; [lia|]. cbn [negb].
  match goal with |- context [while_ _ ?cond ?body _] =>
    destruct (while_rule (fun '(i, x, ws) => index <= i /\ 0 <= x < 2 ^ 32 /\ length ws = length (words_ b) /\ Forall word_ok ws /\
        (0 < x -> forall j, (Z.to_nat i <= j)%nat -> ws !! j = words_ b !! j) /\
        (forall j, (Z.to_nat i < j)%nat -> ws !! j = words_ b !! j) /\
        take (Z.to_nat index) ws = take (Z.to_nat index) (words_ b) /\
        same (wval ws + x * X i) (value b + v * X index))
      (fun '(i, x, _) => (Z.to_nat (max_words - i) + (if (0 <? x)%Z then 1 else 0))%nat) cond body (S (Z.to_nat max_words)) (index, v, words_ b))
      as (((i & x) & ws) & -> & (Hge & Hx & Hl & Hw & Hsame0 & Hsame & Htake & Hs) & Hend) end.
  - split_and!; try done; lia.
  - ifs.
  - intros ((i & x) & ws) (Hge & Hx & Hl & Hw & Hsame0 & Hsame & Htake & Hs) Hc.
    destruct (rd_in ws i) as (w & -> & Ew); [lia|]. run. rewrite wr_in by lia. run.
    pose proof (word_range _ _ _ Hw Ew) as Hwr. assert (0 < x) as Hxpos by lia.
    assert (exists carry, uadd 32 w x = w + x - 2 ^ 32 * carry /\ (if uadd 32 w x <? x then (i + 1, 1, <[Z.to_nat i := uadd 32 w x]> ws) else (i, 0, <[Z.to_nat i := uadd 32 w x]> ws)) =
      (i + carry, carry, <[Z.to_nat i := uadd 32 w x]> ws) /\ (carry = 0 \/ carry = 1) /\ 0 <= uadd 32 w x < 2 ^ 32) as (carry & Eu & -> & Hcarry & Hur).
    { assert (0 <= uadd 32 w x < 2 ^ 32) as Hr by (apply wrap_range; lia).
      assert (uadd 32 w x = w + x - 2 ^ 32 * (if w + x <? 2 ^ 32 then 0 else 1)) as E.
      { unfold uadd. destruct (Z.ltb_spec (w + x) (2 ^ 32)); [rewrite wrap_small; lia|]. unfold wrap. rewrite <- (Z.mod_small (w + x - 2 ^ 32 * 1) (2 ^ 32)) by lia.
        rewrite Z.mul_1_r, Zminus_mod, Z.mod_same, Z.sub_0_r by lia. by rewrite Z.mod_mod by lia. }
      exists (if w + x <? 2 ^ 32 then 0 else 1). split; [done|]. split; [|split; [ifs; lia|done]].
      destruct (Z.ltb_spec (uadd 32 w x) x), (Z.ltb_spec (w + x) (2 ^ 32)); try lia; pairs. }
    eexists _. split; [done|]. split_and!; try lia.
    + by rewrite length_insert.
    + by apply Forall_insert.
    + intros Hc1 j Hj. rewrite list_lookup_insert_ne by lia. apply Hsame. lia.
    + intros j Hj. rewrite list_lookup_insert_ne by lia. apply Hsame. lia.
    + rewrite take_insert_ge by lia. done.
    + rewrite (wval_insert _ _ _ _ Ew), Eu. eapply same_trans; [|exact Hs]. rewrite Z2Nat.id by lia.
      assert (X (i + carry) * carry = 2 ^ 32 * X i * carry) as E by (destruct Hcarry as [-> | ->]; [lia|rewrite X_succ by lia; lia]).
      apply same_mul with 0. lia.
    + destruct Hcarry as [-> | ->]; ifs.
  - run. eexists. split; [done|]. 
    assert (same (wval ws) (value b + v * X index)) as Hval.
    { destruct (Z.ltb_spec i max_words); [|destruct (X_beyond i) as [k Ek]; [lia|]].
      - assert (x = 0) as -> by lia. by rewrite Z.mul_0_l, Z.add_0_r in Hs.
      - eapply same_trans; [|exact Hs]. apply same_mul with (- (x * k)). rewrite Ek. lia. }
    split_and!; try done; [|simpl; lia]. apply big_ok_intro; [lia|done|lia|].
    intros j Hj. rewrite Hsame by lia. apply Hzero. lia.
Qed.

Lemma AddWithCarry32_ok index v b : big_ok b -> 0 <= index -> 0 <= v < 2 ^ 32 ->
  exists b', AddWithCarry32 max_words index v b = Some b' /\ big_ok b' /\ same (value b') (value b + v * X index) /\
    take (Z.to_nat index) (words_ b') = take (Z.to_nat index) (words_ b) /\ size_ b <= size_ b'.
Proof using Hmax.
  intros Hb Hi Hv. destruct (Z.eqb_spec v 0) as [->|Hv0].
  - exists b. split_and!; try done. apply same_mul with 0. lia.
  - apply AddWithCarry32_from; try apply Hb; try lia. intros j Hj. apply upper_word; [done|lia].
Qed.

Lemma value_eq b' z : big_ok b' -> same (value b') z -> value b' = z mod X max_words.
Proof using Hmax. intros Hb Hs. rewrite <- (Z.mod_small (value b') (X max_words)) by (by apply value_range). exact Hs. Qed.

Lemma same_add a b c : same a b -> same (a + c) (b + c).
Proof using Hmax. unfold same. intros H. rewrite Z.add_mod, H, <- Z.add_mod by (pose proof (X_pos max_words); lia). done. Qed.

Lemma AddWithCarry64_ok index v b : big_ok b -> 0 <= index -> 0 <= v < 2 ^ 64 ->
  exists b', AddWithCarry64 max_words index v b = Some b' /\ big_ok b' /\ same (value b') (value b + v * X index) /\
    take (Z.to_nat index) (words_ b') = take (Z.to_nat index) (words_ b) /\ size_ b <= size_ b'.
Proof using Hmax.
  intros Hb Hi Hv. unfold AddWithCarry64. pose proof (ok_length b Hb) as Hlen. pose proof (ok_size b Hb) as Hsize.
  destruct (Z.eqb_spec v 0) as [->|Hv0]; cbn [negb andb]; [exists b; split_and!; try done; apply same_mul with 0; lia|].
  destruct (Z.ltb_spec index max_words) as [Hlt|Hge].
  2: { exists b. split_and!; try done. destruct (X_beyond index Hge) as [k Ek]. apply same_mul with (- (v * k)). rewrite Ek. lia. }
  rewrite low_word, ushr_val by lia.
  rewrite (wrap_small 32 (v mod 2 ^ 32)) by (apply Z.mod_pos_bound; lia).
  assert (0 <= v / 2 ^ 32 < 2 ^ 32) as Hhr by (split; [apply Z.div_pos; lia|apply Z.div_lt_upper_bound; lia]).
  rewrite (wrap_small 32 (v / 2 ^ 32)) by done.
  pose proof (Z.div_mod v (2 ^ 32) ltac:(lia)) as Ev. pose proof (Z.mod_pos_bound v (2 ^ 32) ltac:(lia)) as Hlr.
  set (high := v / 2 ^ 32) in *. set (low := v mod 2 ^ 32) in *. clearbody high low.
  destruct (rd_in (words_ b) index) as (w & -> & Ew); [lia|]. run. rewrite wr_in by lia. run.
  pose proof (word_range _ _ _ (ok_words b Hb) Ew) as Hwr.
  assert (0 <= uadd 32 w low < 2 ^ 32) as Hur by (apply wrap_range; lia).
  set (c := if uadd 32 w low <? low then 1 else 0).
  assert (uadd 32 w low = w + low - 2 ^ 32 * c) as Eu.
  { unfold c, uadd. destruct (Z.lt_ge_cases (w + low) (2 ^ 32)).
    - rewrite wrap_small by lia. ifs; lia.
    - assert (wrap 32 (w + low) = w + low - 2 ^ 32) as E.
      { unfold wrap. rewrite <- (Z.mod_small (w + low - 2 ^ 32) (2 ^ 32)) by lia.
        rewrite Zminus_mod, Z.mod_same, Z.sub_0_r by lia. by rewrite Z.mod_mod by lia. }
      rewrite E. ifs; lia. }
  assert (wval (<[Z.to_nat index := uadd 32 w low]> (words_ b)) = value b + X index * (low - 2 ^ 32 * c)) as Evw.
  { rewrite (wval_insert _ _ _ _ Ew), Eu, Z2Nat.id by lia. unfold value. lia. }
  set (b1 := {| size_ := size_ b; words_ := <[Z.to_nat index := uadd 32 w low]> (words_ b) |}).
  assert (Forall word_ok (words_ b1)) as Hw1 by (apply Forall_insert; [apply Hb|done]).
  assert (Z.of_nat (length (words_ b1)) = max_words) as Hl1 by (cbn [b1 words_]; by rewrite length_insert).
  assert (forall j, (Z.to_nat (Z.max (size_ b) (index + 1)) <= j < length (words_ b1))%nat -> words_ b1 !! j = Some 0) as Hz1.
  { intros j Hj. cbn [b1 words_] in *. rewrite length_insert in Hj. rewrite list_lookup_insert_ne by lia. apply upper_word; [done|lia]. }
  assert (take (Z.to_nat index) (words_ b1) = take (Z.to_nat index) (words_ b)) as Ht1 by (apply take_insert_ge; lia).
  assert (forall k x, 0 < x < 2 ^ 32 -> 1 <= k -> same (value b1 + x * X (index + k)) (value b + v * X index) ->
    exists b', AddWithCarry32 max_words (index + k) x b1 = Some b' /\ big_ok b' /\ same (value b') (value b + v * X index) /\
    take (Z.to_nat index) (words_ b') = take (Z.to_nat index) (words_ b) /\ size_ b <= size_ b') as Hnext.
  { intros k x Hx Hk Hs. destruct (AddWithCarry32_from (index + k) x b1) as (b' & E & Hb' & Hs' & Ht' & Hle); try done; try lia.
    - intros j Hj. apply Hz1. cbn [b1 size_] in *. lia.
    - exists b'. split; [done|]. split; [done|]. split; [by eapply same_trans|]. split; [|done]. rewrite <- Ht1.
      rewrite <- (Nat.min_l (Z.to_nat index) (Z.to_nat (index + k))) by lia. by rewrite <- !take_take, Ht'. }
  assert (value b1 = value b + X index * (low - 2 ^ 32 * c)) as Ev1 by exact Evw.
  pose proof (X_succ index Hi) as HX1. pose proof (X_succ (index + 1) ltac:(lia)) as HX2. replace (index + 1 + 1) with (index + 2) in HX2 by lia.
  set (high' := if uadd 32 w low <? low then uadd 32 high 1 else high).
  assert (0 <= high' < 2 ^ 32) as Hh' by (unfold high'; destruct (_ <? _); [apply wrap_range|]; lia).
  assert (high' = high + c - 2 ^ 32 * (if (uadd 32 w low <? low) && (high' =? 0) then 1 else 0)) as Eh.
  { unfold high', c. destruct (uadd 32 w low <? low); cbn [andb]; [|lia]. unfold uadd. destruct (Z.eq_dec high (2 ^ 32 - 1)) as [->|].
    - replace (wrap 32 (2 ^ 32 - 1 + 1)) with 0 by reflexivity. simpl. lia.
    - rewrite wrap_small by lia. ifs; lia. }
  destruct ((uadd 32 w low <? low) && (high' =? 0)) eqn:E0.
  - apply Hnext; [lia|lia|]. apply same_mul with 0. rewrite Ev1. assert (high' = 0) by lia. nia.
  - destruct (Z.ltb_spec 0 high').
    + apply Hnext; [lia|lia|]. apply same_mul with 0. rewrite Ev1. nia.
    + assert (0 <= c <= 1) as Hc by (unfold c; ifs; lia). assert (high = 0 /\ c = 0) as [Eh0 Ec0] by lia.
      eexists. split; [done|]. split; [|split; [|split; [exact Ht1|cbn [b1 size_]; lia]]].
      * apply big_ok_intro; [exact Hl1|exact Hw1|cbn [b1 size_]; lia|]. intros j Hj. apply Hz1. cbn [b1 words_ size_] in *. lia.
      * match goal with |- same (value ?x) _ => change (value x) with (value b1) end. apply same_mul with 0. rewrite Ev1, Ev, Eh0, Ec0. lia.
Qed.

End Correct.
