(* ===== verification/BigMul.v ===== *)
(** * Multiplication *)
From S2P Require Import Prelude Words Loops BigUnsigned.

Section Correct.
Variable max_words : Z.
Hypothesis Hmax : 4 <= max_words < 2 ^ 20.
#[local] Abbreviation same := (same max_words).
#[local] Abbreviation big_ok := (big_ok max_words).
#[local] Abbreviation is_big := (is_big max_words).


(** ** Multiplication *)

(** The coefficients of the product, and sums of them. *)
Fixpoint conv (a b : list Z) (k : nat) : Z :=
  match a with
  | [] => 0
  | x :: a => x * nth k b 0 + match k with O => 0 | S k => conv a b k end
  end.
Fixpoint psum (f : nat -> Z) (n : nat) : Z :=
  match n with O => 0 | S n => psum f n + f n * X (Z.of_nat n) end.
(** The terms [a_i * b_(k - i)] for [i] below [n]. *)
Fixpoint dsum (a b : list Z) (k n : nat) : Z :=
  match n with O => 0 | S i => dsum a b k i + nth i a 0 * nth (k - i) b 0 end.

Lemma nth_word b k : Forall word_ok b -> 0 <= nth k b 0 < 2 ^ 32.
Proof using.
  intros Hb.
  destruct (decide (k < length b)%nat).
  - destruct (lookup_lt_is_Some_2 b k) as [w E]; [done|]. rewrite nth_lookup, E. exact (Forall_lookup_1 _ _ _ _ Hb E).
  - rewrite nth_overflow by lia. lia.
Qed.

Lemma dsum_shift x a b k n : (n <= S k)%nat -> dsum (x :: a) b (S k) (S n) = x * nth (S k) b 0 + dsum a b k n.
Proof using.
  induction n as [|n IH]; intros Hn; [cbn [dsum nth]; rewrite Nat.sub_0_r; lia|].
  change (dsum (x :: a) b (S k) (S (S n))) with (dsum (x :: a) b (S k) (S n) + nth (S n) (x :: a) 0 * nth (S k - S n) b 0).
  rewrite IH by lia. cbn [dsum nth]. replace (S k - S n)%nat with (k - n)%nat by lia. lia.
Qed.

Lemma conv_dsum a b k : conv a b k = dsum a b k (Nat.min (length a) (S k)).
Proof using.
  revert k. induction a as [|x a IH]; intros k; [done|]. cbn [conv length]. destruct k as [|k].
  - cbn [Nat.min]. rewrite Nat.min_0_r. simpl. lia.
  - change (Nat.min (S (length a)) (S (S k))) with (S (Nat.min (length a) (S k))). rewrite dsum_shift by lia. by rewrite IH.
Qed.

Lemma psum_take b n : psum (fun k => nth k b 0) n = wval (take n b).
Proof using.
  clear. induction n as [|m IH]; [done|]. cbn [psum]. rewrite IH. destruct (decide (m < length b)%nat).
  - destruct (lookup_lt_is_Some_2 b m) as [w E]; [done|]. rewrite (take_wval_S b m w E), nth_lookup, E. simpl. lia.
  - rewrite nth_overflow, !take_ge by lia. lia.
Qed.
Lemma psum_nth b n : (length b <= n)%nat -> psum (fun k => nth k b 0) n = wval b.
Proof using. intros Hn. by rewrite psum_take, take_ge. Qed.

Lemma psum_cons x a b n : psum (conv (x :: a) b) n = x * psum (fun k => nth k b 0) n + 2 ^ 32 * psum (conv a b) (n - 1).
Proof using.
  induction n as [|n IH]; [simpl; lia|]. cbn [psum]. rewrite IH. cbn [conv]. destruct n as [|n]; [simpl; lia|].
  replace (S (S n) - 1)%nat with (S n) by lia. replace (S n - 1)%nat with n by lia. cbn [psum].
  replace (Z.of_nat (S n)) with (Z.of_nat n + 1) by lia. rewrite X_succ by lia. lia.
Qed.

Lemma psum_product a b n : (length a + length b <= S n)%nat -> psum (conv a b) n = wval a * wval b.
Proof using.
  revert n. induction a as [|x a IH]; intros n Hn.
  - change (wval []) with 0. rewrite Z.mul_0_l.
    clear. induction n as [|n IH]; [done|]. cbn [psum]. rewrite IH. done.
  - cbn [length] in Hn. rewrite psum_cons, psum_nth, IH by lia. cbn [wval foldr]. fold (wval a). lia.
Qed.

(** The terms beyond the last word do not count. *)
Lemma psum_cut f m n : (m <= n)%nat -> max_words <= Z.of_nat m -> same (psum f n) (psum f m).
Proof using Hmax.
  intros Hle Hm. induction Hle as [|n Hle IH]; [done|]. cbn [psum]. eapply same_trans; [|exact IH].
  destruct (X_beyond max_words Hmax (Z.of_nat n)) as [k ->]; [lia|]. apply same_mul with (k := f n * k); [done|lia].
Qed.

Lemma dsum_zero a b k n : (n <= S k)%nat -> (length b + n <= S k)%nat -> dsum a b k n = 0.
Proof using.
  induction n as [|n IH]; intros Hk Hn; [done|]. cbn [dsum]. rewrite IH by lia. rewrite (nth_overflow b) by lia. lia.
Qed.

(** One word of the product. *)
Lemma MultiplyStep_loop a b k ws other m : (length a <= length ws)%nat -> Z.of_nat (length ws) = max_words ->
  Forall word_ok a -> Forall word_ok b ->
  (forall i, (i < length a)%nat -> (i <= k)%nat -> ws !! i = a !! i) -> (forall j, (j < length b)%nat -> other !! j = b !! j) ->
  m = Z.min (Z.of_nat (length a) - 1) (Z.of_nat k) ->
  exists i j this_word carry,
    while_ (S (Z.to_nat max_words)) (fun '(this_i, other_i, _, _) => (0 <=? this_i) && (other_i <? Z.of_nat (length b)))
      (fun '(this_i, other_i, this_word, carry) =>
         x ← rd ws this_i;
         y ← rd other other_i;
         Some (this_i - 1, other_i + 1, Z.land (uadd 64 this_word (umul 64 x y)) 0xffffffff,
               uadd 64 carry (ushr (uadd 64 this_word (umul 64 x y)) 32)))
      (m, Z.of_nat k - m, 0, 0) = Some (i, j, this_word, carry) /\
    0 <= this_word < 2 ^ 32 /\ 0 <= carry < 2 ^ 64 /\ this_word + 2 ^ 32 * carry = conv a b k.
Proof using Hmax.
  intros Hla Hl Ha Hb Hws Hother Hm.
  pose (n0 := Nat.min (length a) (S k)).
  match goal with |- context [while_ ?f ?cond ?body ?s] =>
    destruct (while_rule (fun '(i, j, t, c) => exists n, (n <= n0)%nat /\ i = Z.of_nat n - 1 /\ j = Z.of_nat k - i /\ 0 <= t < 2 ^ 32 /\
        0 <= c <= 2 ^ 32 * Z.of_nat (n0 - n) /\ t + 2 ^ 32 * c = dsum a b k n0 - dsum a b k n)
      (fun '(i, _, _, _) => Z.to_nat (i + 1)) cond body f s) as ((((i & j) & t) & c) & -> & (n & Hn & -> & -> & Ht & Hc & Hsum) & Hend) end.
  - exists n0. split_and!; try lia.
  - lia.
  - intros (((i & j) & t) & c) (n & Hn & -> & -> & Ht & Hc & Hsum) Hcond.
    destruct n as [|n]; [lia|]. replace (Z.of_nat (S n) - 1) with (Z.of_nat n) by lia.
    destruct (rd_in ws (Z.of_nat n)) as (x & -> & Ex); [lia|]. rewrite Nat2Z.id, Hws in Ex by lia. run.
    assert (0 <= Z.of_nat k - Z.of_nat n < Z.of_nat (length b)) as Hj by lia.
    assert (Z.to_nat (Z.of_nat k - Z.of_nat n) = k - n)%nat as Ej by lia.
    destruct (lookup_lt_is_Some_2 b (k - n)) as [y Ey]; [lia|].
    rewrite (rd_spec other (Z.of_nat k - Z.of_nat n) y) by (rewrite ?Ej, ?Hother by lia; done || lia). run.
    pose proof (Forall_lookup_1 _ _ _ _ Ha Ex) as Hx. pose proof (Forall_lookup_1 _ _ _ _ Hb Ey) as Hy. unfold word_ok in Hx, Hy.
    assert (0 <= x * y <= (2 ^ 32 - 1) * (2 ^ 32 - 1)) as Hxy by nia.
    assert (uadd 64 t (umul 64 x y) = t + x * y) as ->.
    { unfold uadd, umul. rewrite (wrap_small 64 (x * y)) by lia. apply wrap_small. lia. }
    cbv zeta. rewrite ushr_val, low_word by lia.
    pose proof (Z.div_mod (t + x * y) (2 ^ 32) ltac:(lia)) as Ediv. pose proof (Z.mod_pos_bound (t + x * y) (2 ^ 32) ltac:(lia)).
    assert (0 <= (t + x * y) / 2 ^ 32 <= 2 ^ 32) as Hq by (split; [apply Z.div_pos; lia|apply Z.div_le_upper_bound; lia]).
    assert (uadd 64 c ((t + x * y) / 2 ^ 32) = c + (t + x * y) / 2 ^ 32) as -> by (apply wrap_small; lia).
    eexists. split; [done|]. split; [|lia]. exists n. split; [lia|]. split; [lia|]. split; [lia|]. split; [lia|]. split; [lia|].
    cbn [dsum] in Hsum. rewrite !nth_lookup, Ex, Ey in Hsum. cbn [from_option id] in Hsum. lia.
  - exists (Z.of_nat n - 1), (Z.of_nat k - (Z.of_nat n - 1)), t, c. split; [done|]. split; [done|]. split; [lia|].
    rewrite conv_dsum. fold n0. rewrite Hsum. destruct n as [|n]; [simpl; lia|]. rewrite (dsum_zero a b k (S n)) by lia. lia.
Qed.

(** One step of the product: words below [step] stay, what it adds is the coefficient. *)
Lemma MultiplyStep_ok a b other step w bu : (length a <= length (words_ bu))%nat -> Z.of_nat step < max_words ->
  Forall word_ok a -> Forall word_ok b -> big_ok bu ->
  (forall i, (i < length a)%nat -> (i <= step)%nat -> words_ bu !! i = a !! i) -> (forall j, (j < length b)%nat -> other !! j = b !! j) ->
  words_ bu !! step = Some w ->
  exists bu', MultiplyStep max_words (Z.of_nat (length a)) other (Z.of_nat (length b)) (Z.of_nat step) bu = Some bu' /\ big_ok bu' /\
    take step (words_ bu') = take step (words_ bu) /\ same (value bu') (value bu + (conv a b step - w) * X (Z.of_nat step)).
Proof using Hmax.
  intros Hla Hstep Ha Hb Hbu Hws Hother Ew. unfold MultiplyStep. cbv zeta.
  pose proof (ok_length _ bu Hbu) as Hl.
  destruct (MultiplyStep_loop a b step (words_ bu) other _ Hla Hl Ha Hb Hws Hother eq_refl) as (i & j & t & c & -> & Ht & Hc & Hconv). run.
  destruct (AddWithCarry64_ok max_words Hmax (Z.of_nat step + 1) c bu Hbu) as (b1 & -> & Hb1 & Hs & Htake & Hsize); [lia|done|]. run.
  pose proof (ok_length _ b1 Hb1) as Hl1. pose proof (ok_size _ b1 Hb1) as Hsz.
  rewrite wr_in by lia. run. rewrite low_word, Z.mod_small, Nat2Z.id by lia.
  assert (words_ b1 !! step = Some w) as E1.
  { assert (take (Z.to_nat (Z.of_nat step + 1)) (words_ b1) !! step = take (Z.to_nat (Z.of_nat step + 1)) (words_ bu) !! step) as E by (by rewrite Htake).
    rewrite !lookup_take_lt in E by lia. by rewrite E. }
  eexists. split; [done|]. split; [|split].
  - apply big_ok_intro with (max_words := max_words); [done|by rewrite length_insert|apply Forall_insert; [apply Hb1|done]|ifs|].
    rewrite length_insert. intros i' Hi'. destruct (Nat.eq_dec i' step) as [->|Hne].
    + rewrite list_lookup_insert_eq by lia. f_equal. destruct ((0 <? t) && (size_ b1 <=? Z.of_nat step)) eqn:Ec; lia.
    + rewrite list_lookup_insert_ne by done. apply (upper_word max_words Hmax); [done|]. revert Hi'. ifs.
  - cbn [words_]. rewrite take_insert_ge by lia. rewrite <- (Nat.min_l step (Z.to_nat (Z.of_nat step + 1))) by lia. by rewrite <- !take_take, Htake.
  - unfold value at 1. cbn [words_]. rewrite (wval_insert _ _ _ _ E1).
    eapply same_trans; [apply same_add; [exact Hmax|exact Hs]|]. apply same_mul with (k := 0); [done|].
    rewrite X_succ by lia. lia.
Qed.

(** The product, of any two numbers of words, the second not empty. *)
Lemma MultiplyByWords_ok bu z b other : is_big bu z -> Forall word_ok b -> (1 <= length b)%nat -> (forall j, (j < length b)%nat -> other !! j = b !! j) ->
  exists bu', MultiplyByWords max_words (Z.of_nat (length b)) other bu = Some bu' /\ is_big bu' (z * wval b).
Proof using Hmax.
  intros [Hbu Hval] Hb Hb1 Hother. unfold MultiplyByWords. pose proof (ok_length _ bu Hbu) as Hl. pose proof (ok_size _ bu Hbu) as Hsz.
  pose (a := take (Z.to_nat (size_ bu)) (words_ bu)).
  assert (Z.of_nat (length a) = size_ bu) as Ela by (unfold a; rewrite length_take; lia).
  assert (wval a = value bu) as Eva by (unfold a; apply (value_low max_words Hmax); [done|lia]).
  assert (forall i, (i < length a)%nat -> words_ bu !! i = a !! i) as Hab.
  { intros i Hi. unfold a. rewrite lookup_take_lt; [done|]. lia. }
  pose (n0 := Z.to_nat (Z.min (size_ bu + Z.of_nat (length b) - 1) max_words)).
  cbv zeta. rewrite <- Ela.
  match goal with |- context [while_ ?f ?cond ?body ?s0] =>
    destruct (while_rule (fun '(s, b') => exists n, (n <= n0)%nat /\ s = Z.of_nat n - 1 /\ big_ok b' /\ take n (words_ b') = take n (words_ bu) /\
        same (value b' - wval (take n (words_ bu))) (psum (conv a b) n0 - psum (conv a b) n))
      (fun '(s, _) => Z.to_nat (s + 1)) cond body f s0) as ((s' & b') & -> & (n & Hn & -> & Hb' & Htake & Hs) & Hend) end.
  - exists n0. split; [lia|]. split; [lia|]. split; [done|]. split; [done|].
    rewrite (value_low max_words Hmax) by (done || lia). apply same_mul with (k := 0); [done|]. lia.
  - lia.
  - intros (s' & b') (n & Hn & -> & Hb' & Htake & Hs) Hcond. destruct n as [|n]; [lia|].
    replace (Z.of_nat (S n) - 1) with (Z.of_nat n) by lia.
    assert (forall i, (i <= n)%nat -> words_ b' !! i = words_ bu !! i) as Hlow.
    { intros i Hi. assert (take (S n) (words_ b') !! i = take (S n) (words_ bu) !! i) as E by (by rewrite Htake). by rewrite !lookup_take_lt in E by lia. }
    destruct (lookup_lt_is_Some_2 (words_ bu) n) as [w Ew]; [lia|]. pose proof (ok_length _ b' Hb') as Hl'.
    destruct (MultiplyStep_ok a b other n w b') as (b2 & -> & Hb2 & Htake2 & Hs2); try done; try lia.
    + by apply Forall_take, Hbu.
    + intros i Hi Hle. rewrite Hlow by lia. by apply Hab.
    + by rewrite Hlow by lia.
    + run. eexists. split; [done|]. split; [|lia]. exists n. split; [lia|]. split; [done|]. split; [done|].
      split. { rewrite Htake2, <- (Nat.min_l n (S n)) by lia. by rewrite <- !take_take, Htake. }
      eapply same_trans; [unfold Z.sub; apply same_add; [exact Hmax|exact Hs2]|].
      rewrite (take_wval_S _ _ _ Ew) in Hs. cbn [psum] in Hs.
      apply (same_add max_words Hmax _ _ (conv a b n * X (Z.of_nat n))) in Hs.
      eapply same_trans; [|eapply same_trans; [exact Hs|]]; apply same_mul with (k := 0); (exact Hmax || lia).
  - run. eexists. split; [done|]. assert (n = 0)%nat as -> by lia. split; [done|]. apply value_eq; [done..|].
    rewrite take_0 in Hs. cbn [psum] in Hs. change (wval []) with 0 in Hs. rewrite !Z.sub_0_r in Hs. eapply same_trans; [exact Hs|].
    apply same_trans with (b := value bu * wval b).
    + rewrite <- Eva, <- (psum_product a b (length a + length b - 1)) by lia.
      destruct (Z.le_gt_cases max_words (Z.of_nat (length a + length b - 1))).
      * eapply same_trans; [|]; [|apply same_mul with (k := 0); [done|rewrite Z.mul_0_l, Z.add_0_r; done]].
        unfold BigUnsigned.same. symmetry. apply psum_cut; lia.
      * replace n0 with (length a + length b - 1)%nat by lia. done.
    + unfold BigUnsigned.same. rewrite Hval. rewrite Z.mul_mod_idemp_l; [done|]. pose proof (X_pos max_words). lia.
Qed.

End Correct.
