(* ===== verification/BigPow.v ===== *)
(** * Shifts and powers of [BigUnsigned]

    [ShiftLeft], the multiplications by powers of five and ten, and [FiveToTheNth] with its table. *)
From S2P Require Import Prelude Words Loops BigUnsigned BigMul.

(** ** Shifting *)

(** The word [k] of [words] shifted by [c] bits. *)
Definition carry_word (c : Z) (words : list Z) (k : nat) : Z :=
  match k with O => 0 | S k => ushr (nth k words 0) (32 - c) end.
Definition shifted_word (c : Z) (words : list Z) (k : nat) : Z := Z.lor (ushl 32 (nth k words 0) c) (carry_word c words k).
Definition shifted (c : Z) (words : list Z) (ws n : nat) : list Z := replicate ws 0 ++ map (shifted_word c words) (seq 0 n).

Section Shift.
Variables (c : Z) (words : list Z).
Hypothesis Hc : 0 <= c < 32.
Hypothesis Hw : Forall word_ok words.

Lemma carry_word_range k : 0 <= carry_word c words k < 2 ^ c.
Proof using Hc Hw.
  destruct k as [|k]; cbn [carry_word]; [lia|]. pose proof (nth_word words k Hw). rewrite ushr_val by lia.
  split; [apply Z.div_pos; lia|]. apply Z.div_lt_upper_bound; [lia|]. rewrite <- Z.pow_add_r by lia. replace (32 - c + c) with 32 by lia. lia.
Qed.

Lemma shifted_word_value k : shifted_word c words k = (nth k words 0 mod 2 ^ (32 - c)) * 2 ^ c + carry_word c words k.
Proof using Hc Hw.
  unfold shifted_word. rewrite <- lor_shiftl_add by (apply carry_word_range || lia). f_equal.
  unfold ushl, wrap. rewrite Z.shiftl_mul_pow2 by lia.
  replace (2 ^ 32) with (2 ^ (32 - c) * 2 ^ c) by (rewrite <- Z.pow_add_r by lia; f_equal; lia). apply Z.mul_mod_distr_r; lia.
Qed.

Lemma shifted_word_range k : 0 <= shifted_word c words k < 2 ^ 32.
Proof using Hc Hw.
  rewrite shifted_word_value. pose proof (carry_word_range k). pose proof (Z.mod_pos_bound (nth k words 0) (2 ^ (32 - c)) ltac:(lia)).
  assert (2 ^ 32 = 2 ^ (32 - c) * 2 ^ c) as -> by (rewrite <- Z.pow_add_r by lia; f_equal; lia). nia.
Qed.

Lemma shifted_wval n : (n <= length words)%nat ->
  wval (map (shifted_word c words) (seq 0 n)) + X (Z.of_nat n) * carry_word c words n = 2 ^ c * wval (take n words).
Proof using Hc Hw.
  induction n as [|n IH]; intros Hn; [simpl; lia|].
  destruct (lookup_lt_is_Some_2 words n) as [w E]; [lia|]. rewrite seq_S, map_app, wval_app, length_map, length_seq, (take_wval_S _ _ _ E).
  cbn [map wval foldr Nat.add]. rewrite shifted_word_value. rewrite Nat2Z.inj_succ. unfold Z.succ. rewrite X_succ by lia.
  cbn [carry_word]. rewrite nth_lookup, E. cbn [from_option id]. rewrite ushr_val by lia.
  pose proof (Z.div_mod w (2 ^ (32 - c)) ltac:(lia)) as Ew. specialize (IH ltac:(lia)).
  set (q := w / _) in *. set (r := w mod _) in *. clearbody q r.
  assert (2 ^ 32 = 2 ^ (32 - c) * 2 ^ c) as -> by (rewrite <- Z.pow_add_r by lia; f_equal; lia).
  rewrite Ew. lia.
Qed.

Lemma shifted_lookup_low ws n i : (i < ws)%nat -> shifted c words ws n !! i = Some 0.
Proof using. clear Hc Hw. intros Hi. unfold shifted. rewrite lookup_app_l by (rewrite length_replicate; lia). apply lookup_replicate_2. lia. Qed.

Lemma shifted_lookup ws n i : (ws <= i < ws + n)%nat -> shifted c words ws n !! i = Some (shifted_word c words (i - ws)).
Proof using.
  clear Hc Hw. intros Hi. unfold shifted. rewrite lookup_app_r by (rewrite length_replicate; lia). rewrite length_replicate, list_lookup_fmap.
  rewrite lookup_seq_lt by lia. done.
Qed.

Lemma shifted_zero_word k : nth k words 0 = 0 -> (forall j, k = S j -> nth j words 0 = 0) -> shifted_word c words k = 0.
Proof using.
  intros E1 E2. unfold shifted_word, carry_word. rewrite E1. destruct k as [|k]; [|rewrite (E2 k) by done]; unfold ushl, ushr; rewrite ?Z.shiftl_0_l, ?Z.shiftr_0_l; done.
Qed.
End Shift.

Lemma length_shifted c words ws n : length (shifted c words ws n) = (ws + n)%nat.
Proof. unfold shifted. by rewrite length_app, length_replicate, length_map, length_seq. Qed.

Lemma shifted_ok c words ws n : 0 <= c < 32 -> Forall word_ok words -> Forall word_ok (shifted c words ws n).
Proof.
  intros Hc Hw. apply Forall_app. split; [apply Forall_replicate; unfold word_ok; lia|].
  apply Forall_forall. intros x Hx. apply in_map_iff in Hx as (k & <- & _). by apply shifted_word_range.
Qed.

(** A shift by whole words only. *)
Lemma shifted_0 words ws n : Forall word_ok words -> (n <= length words)%nat -> shifted 0 words ws n = replicate ws 0 ++ take n words.
Proof.
  intros Hw Hn. unfold shifted. f_equal. apply list_eq. intros i. rewrite list_lookup_fmap. destruct (decide (i < n)%nat).
  - rewrite lookup_seq_lt, lookup_take_lt by lia. cbn [fmap option_fmap option_map Nat.add]. rewrite shifted_word_value by (done || lia).
    destruct (lookup_lt_is_Some_2 words i) as [w E]; [lia|]. rewrite nth_lookup, E. cbn [from_option id].
    pose proof (word_range _ _ _ Hw E). rewrite Z.mod_small by (change (32 - 0) with 32; lia).
    pose proof (carry_word_range 0 words ltac:(lia) Hw i). change (2 ^ 0) with 1 in *. f_equal. lia.
  - rewrite lookup_ge_None_2 by (rewrite length_seq; lia). symmetry. apply lookup_ge_None_2. rewrite length_take. lia.
Qed.

Section Correct.
Variable max_words : Z.
Hypothesis Hmax : 4 <= max_words < 2 ^ 20.
#[local] Abbreviation same := (same max_words).
#[local] Abbreviation big_ok := (big_ok max_words).
#[local] Abbreviation is_big := (is_big max_words).

(** What the shift is to leave: [size'] words at most. *)
Lemma shifted_is_big bu z c ws size : is_big bu z -> 0 <= c < 32 -> (Z.of_nat ws < max_words) -> 0 <= size <= max_words ->
  (forall k, (Z.to_nat size <= ws + k)%nat -> (ws + k < Z.to_nat max_words)%nat -> shifted_word c (words_ bu) k = 0) -> 
  (ws <= Z.to_nat size)%nat ->
  is_big {| size_ := size; words_ := shifted c (words_ bu) ws (Z.to_nat max_words - ws) |} (z * 2 ^ (32 * Z.of_nat ws + c)).
Proof using Hmax.
  intros [Hbu Hval] Hc Hws Hsize Hz Hle. pose proof (ok_length _ bu Hbu) as Hl. pose proof (ok_words _ bu Hbu) as Hw.
  set (n := (Z.to_nat max_words - ws)%nat).
  assert (big_ok {| size_ := size; words_ := shifted c (words_ bu) ws n |}) as Hok.
  { apply big_ok_intro with (max_words := max_words); rewrite ?length_shifted; [done|lia|by apply shifted_ok|done|].
    intros i Hi. rewrite shifted_lookup by lia. f_equal. apply Hz; lia. }
  split; [done|]. apply value_eq; [done..|]. unfold value. cbn [words_]. unfold shifted. rewrite wval_app, wval_zeros, length_replicate.
  assert (X max_words = X (Z.of_nat ws) * X (Z.of_nat n)) as EX by (rewrite <- X_add by lia; f_equal; lia).
  assert (2 ^ (32 * Z.of_nat ws + c) = X (Z.of_nat ws) * 2 ^ c) as -> by (unfold X; apply Z.pow_add_r; lia).
  pose proof (shifted_wval c (words_ bu) Hc Hw n ltac:(lia)) as E. rewrite (wval_take n (words_ bu)) in E by (done || lia).
  pose proof (Z.div_mod (wval (words_ bu)) (X (Z.of_nat n)) (X_nz _ (Nat2Z.is_nonneg n))) as Ediv. fold (value bu) in *.
  apply same_trans with (b := value bu * (X (Z.of_nat ws) * 2 ^ c)).
  - apply same_mul with (k := - (2 ^ c * (value bu / X (Z.of_nat n)) + carry_word c (words_ bu) n)); [done|].
    rewrite EX. set (W := wval (map _ _)) in *. set (q := value bu / _) in *. set (m := value bu mod _) in *. set (cw := carry_word _ _ _) in *.
    clearbody W q m cw. assert (W = 2 ^ c * m - X (Z.of_nat n) * cw) as -> by (rewrite <- E; ring). rewrite Ediv. ring.
  - unfold BigUnsigned.same. rewrite Hval. rewrite Z.mul_mod_idemp_l; [done|]. pose proof (X_pos max_words). lia.
Qed.

(** The loop of the shift by a part of a word. *)
Lemma shift_loop_ok bu c ws top : big_ok bu -> 0 < c < 32 -> Z.of_nat ws <= top < max_words -> size_ bu + Z.of_nat ws <= top \/ top = max_words - 1 ->
  exists l, shift_loop max_words top (Z.of_nat ws) c (words_ bu) = Some l /\ length l = length (words_ bu) /\
    (forall j, (j <= ws)%nat -> l !! j = words_ bu !! j) /\
    (forall j, (ws < j < length l)%nat -> l !! j = shifted c (words_ bu) ws (Z.to_nat max_words - ws) !! j).
Proof using Hmax.
  intros Hbu Hc Htop Hsz. pose proof (ok_length _ bu Hbu) as Hl. pose proof (ok_size _ bu Hbu) as Hsize. unfold shift_loop.
  match goal with |- context [while_ ?f ?cond ?body ?s0] =>
    destruct (while_rule (fun '(i, l) => Z.of_nat ws <= i <= top /\ length l = length (words_ bu) /\
        (forall j, (Z.of_nat j <= i) -> l !! j = words_ bu !! j) /\
        (forall j, i < Z.of_nat j < max_words -> l !! j = shifted c (words_ bu) ws (Z.to_nat max_words - ws) !! j))
      (fun '(i, _) => Z.to_nat i) cond body f s0) as ((i & l) & -> & (Hi & Hll & Hlow & Hhigh) & Hend) end.
  - split; [lia|]. split; [done|]. split; [done|]. intros j Hj. rewrite shifted_lookup by lia. destruct Hsz as [Hsz|Hsz]; [|lia].
    rewrite shifted_zero_word, upper_word with (max_words := max_words) by (try done; try lia; intros; rewrite nth_lookup, upper_word with (max_words := max_words) by (done || lia); done).
    done.
  - lia.
  - intros (i & l) (Hi & Hll & Hlow & Hhigh) Hcond. 
    destruct (rd_in l (i - Z.of_nat ws)) as (a & -> & Ea); [lia|]. run.
    destruct (rd_in l (i - Z.of_nat ws - 1)) as (b & -> & Eb); [lia|]. run. rewrite wr_in by lia. run.
    eexists. split; [done|]. split; [|lia]. rewrite Hlow in Ea, Eb by lia.
    split; [lia|]. split; [by rewrite length_insert|]. split.
    + intros j Hj. rewrite list_lookup_insert_ne by lia. apply Hlow. lia.
    + intros j Hj. destruct (decide (j = Z.to_nat i)) as [->|Hne].
      * rewrite list_lookup_insert_eq by lia. rewrite shifted_lookup by lia. f_equal. unfold shifted_word.
        replace (Z.to_nat i - ws)%nat with (S (Z.to_nat (i - Z.of_nat ws - 1))) by lia. cbn [carry_word].
        rewrite !nth_lookup, Eb. replace (S (Z.to_nat (i - Z.of_nat ws - 1))) with (Z.to_nat (i - Z.of_nat ws)) by lia. rewrite Ea. done.
      * rewrite list_lookup_insert_ne by lia. apply Hhigh. lia.
  - run. exists l. split; [done|]. split; [done|]. split; [intros j Hj; apply Hlow; lia|]. intros j Hj. apply Hhigh. lia.
Qed.

Lemma SetToZero_is bu z : big_ok bu -> same z 0 -> exists b', SetToZero bu = Some b' /\ is_big b' z.
Proof using Hmax.
  intros Hbu Hz. destruct (SetToZero_ok max_words Hmax bu Hbu) as (b' & -> & Hb' & Ev). exists b'. split; [done|]. split; [done|].
  rewrite Ev. unfold BigUnsigned.same in Hz. rewrite Hz. symmetry. apply Z.mod_0_l. pose proof (X_pos max_words). lia.
Qed.

Lemma nth_beyond bu k : big_ok bu -> size_ bu <= Z.of_nat k -> nth k (words_ bu) 0 = 0.
Proof using Hmax.
  intros Hbu Hk. destruct (decide (k < length (words_ bu))%nat); [|by rewrite nth_overflow by lia].
  rewrite nth_lookup, (upper_word max_words Hmax) by (done || lia). done.
Qed.

Lemma shift_words_ok bu z ws : is_big bu z -> Z.of_nat ws < max_words ->
  let size := Z.min (size_ bu + Z.of_nat ws) max_words in
  exists l, copy_backward (words_ bu) (size - Z.of_nat ws) size = Some l /\
    is_big {| size_ := size; words_ := replicate ws 0 ++ drop ws l |} (z * 2 ^ (32 * Z.of_nat ws)).
Proof using Hmax.
  intros His Hws size. pose proof His as [Hbu Hval]. pose proof (ok_length _ bu Hbu) as Hl. pose proof (ok_size _ bu Hbu) as Hsize.
  unfold copy_backward. replace ((0 <=? size - Z.of_nat ws) && (size - Z.of_nat ws <=? size) && (size <=? Z.of_nat (length (words_ bu)))) with true by (unfold size; lia).
  eexists. split; [done|]. replace (Z.to_nat (size - (size - Z.of_nat ws))) with ws by lia.
  rewrite drop_app_length' by (rewrite length_take; lia). rewrite <- (Z.add_0_r (32 * Z.of_nat ws)).
  assert (take (Z.to_nat (size - Z.of_nat ws)) (words_ bu) ++ drop (Z.to_nat size) (words_ bu) = take (Z.to_nat max_words - ws) (words_ bu)) as ->.
  { apply list_eq. intros i. destruct (decide (i < Z.to_nat (size - Z.of_nat ws))%nat) as [Hi|Hi].
    - rewrite lookup_app_l by (rewrite length_take; lia). rewrite !lookup_take_lt by lia. done.
    - rewrite lookup_app_r by (rewrite length_take; lia). rewrite length_take, Nat.min_l by lia. rewrite lookup_drop.
      destruct (decide (i < Z.to_nat max_words - ws)%nat) as [Hi2|Hi2].
      + rewrite lookup_take_lt by lia. unfold size in *. rewrite !(upper_word max_words Hmax) by (done || lia). done.
      + rewrite lookup_take_ge by lia. apply lookup_ge_None_2. unfold size in *. lia. }
  rewrite <- (shifted_0 (words_ bu) ws) by (apply Hbu || lia). apply shifted_is_big; try done; try lia.
  intros k Hk1 Hk2. unfold size in Hk1. rewrite shifted_word_value, nth_beyond by (apply Hbu || done || lia).
  pose proof (carry_word_range 0 (words_ bu) ltac:(lia) (ok_words _ _ Hbu) k) as Hr. change (2 ^ 0) with 1 in *. rewrite Z.mod_0_l by lia. lia.
Qed.

Lemma ShiftLeft_ok count bu z : is_big bu z -> 0 <= count < 2 ^ 31 ->
  exists b', ShiftLeft max_words count bu = Some b' /\ is_big b' (z * 2 ^ count).
Proof using Hmax.
  intros His Hcount. pose proof His as [Hbu Hval]. pose proof (ok_length _ bu Hbu) as Hl. pose proof (ok_size _ bu Hbu) as Hsize.
  unfold ShiftLeft. destruct (Z.ltb_spec 0 count) as [Hpos|]; [|assert (count = 0) as -> by lia; exists bu; by rewrite Z.mul_1_r].
  cbv zeta. rewrite Z.quot_div_nonneg, Z.rem_mod_nonneg by lia. pose proof (Z.div_mod count 32 ltac:(lia)) as Ec.
  pose proof (Z.mod_pos_bound count 32 ltac:(lia)) as Hc. set (c := count mod 32) in *. 
  assert (exists ws, count / 32 = Z.of_nat ws) as [ws Ews] by (exists (Z.to_nat (count / 32)); pose proof (Z.div_pos count 32); lia).
  rewrite Ews in *. clearbody c. subst count. destruct (Z.leb_spec max_words (Z.of_nat ws)) as [Hbig|Hsmall].
  { apply SetToZero_is; [done|]. destruct (X_beyond max_words Hmax (Z.of_nat ws) Hbig) as [k Ek].
    apply same_mul with (k := z * k * 2 ^ c); [done|]. rewrite Z.pow_add_r by lia. change (2 ^ (32 * Z.of_nat ws)) with (X (Z.of_nat ws)). rewrite Ek. lia. }
  destruct (Z.eqb_spec c 0) as [->|Hc0].
  - destruct (shift_words_ok bu z ws His Hsmall) as (l & El & His'). rewrite El. do 2 run. pose proof (ok_length _ _ (proj1 His')) as Hll. cbn [words_] in Hll.
    rewrite length_app, length_replicate, length_drop in Hll. rewrite fill_zero_in by lia. run. rewrite Nat2Z.id, Z.add_0_r. eexists. split; [done|exact His'].
  - destruct (shift_loop_ok bu c ws (Z.min (Z.min (size_ bu + Z.of_nat ws) max_words) (max_words - 1)) Hbu) as (l & -> & Hll & Hlow & Hhigh); [lia|lia|lia|].
    run. destruct (rd_in l 0) as (w0 & -> & E0); [lia|]. run. rewrite wr_in by lia. run. rewrite Nat2Z.id.
    set (l' := <[ws := ushl 32 w0 c]> l). assert (length l' = length (words_ bu)) as Hl' by (unfold l'; by rewrite length_insert).
    assert (forall j, (ws <= j < length l')%nat -> l' !! j = shifted c (words_ bu) ws (Z.to_nat max_words - ws) !! j) as Hat.
    { intros j Hj. unfold l'. destruct (Nat.eq_dec j ws) as [->|Hne].
      - rewrite list_lookup_insert_eq by lia. rewrite shifted_lookup, Nat.sub_diag by lia. unfold shifted_word. cbn [carry_word].
        rewrite Z.lor_0_r, nth_lookup, <- Hlow by lia. change (Z.to_nat 0) with 0%nat in E0. by rewrite E0.
      - rewrite list_lookup_insert_ne by done. apply Hhigh. lia. }
    assert (replicate ws 0 ++ drop ws l' = shifted c (words_ bu) ws (Z.to_nat max_words - ws)) as Eall.
    { apply list_eq. intros j. destruct (decide (j < ws)%nat).
      - rewrite shifted_lookup_low, lookup_app_l by (rewrite ?length_replicate; lia). apply lookup_replicate_2. lia.
      - rewrite lookup_app_r by (rewrite length_replicate; lia). rewrite length_replicate, lookup_drop. replace (ws + (j - ws))%nat with j by lia.
        destruct (decide (j < length l')%nat); [apply Hat; lia|]. rewrite !lookup_ge_None_2; [done| |lia]. rewrite length_shifted. lia. }
    set (size := Z.min (size_ bu + Z.of_nat ws) max_words) in *.
    match goal with |- context [if size <? max_words then ?a else ?b] => assert (exists size', (if size <? max_words then a else b) = Some (size', l') /\
      size <= size' <= max_words /\ (size < max_words -> size' = size -> shifted_word c (words_ bu) (Z.to_nat size - ws) = 0)) as (size' & -> & Hs' & Hs'') end.
    { destruct (Z.ltb_spec size max_words) as [Hlt|Hge]; [|exists size; split; [done|split; [lia|lia]]].
      destruct (rd_in l' size) as (w & -> & Ew); [lia|]. run. rewrite Hat in Ew by (unfold size in *; lia).
      rewrite shifted_lookup in Ew by (unfold size in *; lia). injection Ew as Ew. destruct (Z.eqb_spec w 0) as [->|Hw]; cbn [negb].
      - exists size. split; [done|]. split; [lia|]. done.
      - exists (size + 1). split; [done|]. split; [lia|]. lia. }
    run. rewrite fill_zero_in by lia. run. rewrite Nat2Z.id, Eall. eexists. split; [done|]. apply shifted_is_big; try done; try lia.
    intros k Hk1 Hk2. destruct (decide (size' = size /\ Z.to_nat size = ws + k)%nat) as [[-> Ek]|Hne].
    + replace k with (Z.to_nat size - ws)%nat by lia. apply Hs''; lia.
    + apply shifted_zero_word; [|intros j ->]; apply nth_beyond; try done; unfold size in *; lia.
Qed.

(** ** Powers *)

Lemma is_big_mul_assoc b z x y : is_big b (z * x * y) -> is_big b (z * (x * y)).
Proof using. by rewrite Z.mul_assoc. Qed.

Lemma rd_table f l (n : nat) : forallb (fun i => match rd l i with Some v => v =? f i | None => false end) (zrange n) = true ->
  forall i, 0 <= i < Z.of_nat n -> rd l i = Some (f i).
Proof using.
  clear Hmax. intros H i Hi. apply (zrange_forall _ n) with (x := i) in H; [|done]. destruct (rd l i) as [v|]; [|done]. f_equal. lia.
Qed.
Lemma five_table n : 0 <= n <= 13 -> rd kFiveToNth n = Some (5 ^ n).
Proof using. clear Hmax. intros Hn. apply (rd_table (fun n => 5 ^ n) _ 14); [by vm_compute|lia]. Qed.
Lemma ten_table n : 0 <= n <= 9 -> rd kTenToNth n = Some (10 ^ n).
Proof using. clear Hmax. intros Hn. apply (rd_table (fun n => 10 ^ n) _ 10); [by vm_compute|lia]. Qed.

(** The entry [i] of the table of large powers. *)
Definition large_power (i : Z) : list Z := take (Z.to_nat (LargePowerOfFiveSize i)) (LargePowerOfFiveData i).
Lemma large_power_ok i : 1 <= i <= 20 ->
  Forall word_ok (large_power i) /\ length (large_power i) = Z.to_nat (2 * i) /\ wval (large_power i) = 5 ^ (27 * i).
Proof using.
  clear Hmax. intros Hi.
  assert (forallb (fun i => (i =? 0) || (forallb (is_u 32) (large_power i) && (Z.of_nat (length (large_power i)) =? 2 * i) && (wval (large_power i) =? 5 ^ (27 * i))))
    (zrange 21) = true) as H by (vm_compute; reflexivity).
  apply (zrange_forall _ 21) with (x := i) in H; [|lia]. destruct (Z.eqb_spec i 0); [lia|]. cbn [orb] in H.
  rewrite !andb_true_iff, forallb_forall in H. destruct H as [[Hw Hl] Hv]. split; [|split; [lia|lia]].
  apply Forall_forall. intros x Hx. apply is_u_spec. by apply Hw.
Qed.
Lemma large_power_data i j : (j < length (large_power i))%nat -> LargePowerOfFiveData i !! j = large_power i !! j.
Proof using. clear Hmax. unfold large_power. rewrite length_take. intros Hj. by rewrite lookup_take_lt by lia. Qed.

Lemma MultiplyByFiveToTheNth_ok n b z : is_big b z -> 0 <= n ->
  exists b', MultiplyByFiveToTheNth max_words n b = Some b' /\ is_big b' (z * 5 ^ n).
Proof using Hmax.
  intros Hb Hn. unfold MultiplyByFiveToTheNth.
  match goal with |- context [while_ ?f ?cond ?body ?s0] =>
    destruct (while_rule (fun '(m, b) => 0 <= m <= n /\ is_big b (z * 5 ^ (n - m))) (fun '(m, _) => Z.to_nat m) cond body f s0)
      as ((m & b') & -> & (Hm & Hb') & Hend) end.
  - split; [lia|]. by rewrite Z.sub_diag, Z.mul_1_r.
  - lia.
  - intros (m & b') (Hm & Hb') Hcond. unfold kMaxSmallPowerOfFive in *. rewrite five_table by lia. run.
    destruct (MultiplyBy32_ok max_words Hmax (5 ^ 13) b' _ Hb') as (b2 & -> & Hb2); [lia|]. run. eexists. split; [done|]. split; [|lia]. split; [lia|].
    replace (n - (m - 13)) with (n - m + 13) by lia. rewrite Z.pow_add_r by lia. by apply is_big_mul_assoc.
  - run. unfold kMaxSmallPowerOfFive in *. destruct (Z.ltb_spec 0 m).
    + rewrite five_table by lia. run. destruct (MultiplyBy32_ok max_words Hmax (5 ^ m) b' _ Hb') as (b2 & -> & Hb2).
      * split; [lia|]. apply Z.le_lt_trans with (5 ^ 13); [apply Z.pow_le_mono_r; lia|lia].
      * exists b2. split; [done|]. apply is_big_mul_assoc in Hb2. rewrite <- Z.pow_add_r in Hb2 by lia. by replace (n - m + m) with n in Hb2 by lia.
    + exists b'. split; [done|]. by replace (n - m) with n in Hb' by lia.
Qed.

Lemma MultiplyByTenToTheNth_ok n b z : is_big b z -> 0 <= n < 2 ^ 31 ->
  exists b', MultiplyByTenToTheNth max_words n b = Some b' /\ is_big b' (z * 10 ^ n).
Proof using Hmax.
  intros Hb Hn. unfold MultiplyByTenToTheNth, kMaxSmallPowerOfTen. destruct (Z.ltb_spec 9 n).
  - destruct (MultiplyByFiveToTheNth_ok n b z Hb) as (b1 & -> & Hb1); [lia|]. run.
    destruct (ShiftLeft_ok n b1 _ Hb1) as (b2 & -> & Hb2); [lia|]. exists b2. split; [done|].
    apply is_big_mul_assoc in Hb2. rewrite <- Z.pow_mul_l in Hb2. exact Hb2.
  - destruct (Z.ltb_spec 0 n).
    + rewrite ten_table by lia. run. apply MultiplyBy32_ok; [done..|]. split; [lia|].
      apply Z.le_lt_trans with (10 ^ 9); [apply Z.pow_le_mono_r; lia|lia].
    + exists b. split; [done|]. assert (n = 0) as -> by lia. by rewrite Z.mul_1_r.
Qed.

(** The power that is copied from the table. *)
Lemma copy_power i b : big_ok b -> size_ b <= 1 -> 1 <= i <= 20 -> 2 * i <= max_words ->
  exists ws, copy_n (LargePowerOfFiveData i) (LargePowerOfFiveSize i) (words_ b) = Some ws /\
    is_big {| size_ := LargePowerOfFiveSize i; words_ := ws |} (5 ^ (27 * i)).
Proof using Hmax.
  intros Hb Hs Hi Hle. destruct (large_power_ok i Hi) as (Hw & Hlen & Hv). pose proof (ok_length _ b Hb) as Hl. pose proof (ok_size _ b Hb).
  pose proof Hlen as Hlen'. unfold large_power in Hlen'. rewrite length_take in Hlen'. unfold LargePowerOfFiveSize in Hlen'.
  unfold copy_n. fold (large_power i). unfold LargePowerOfFiveSize.
  replace ((2 * i <=? Z.of_nat (length (LargePowerOfFiveData i))) && (2 * i <=? Z.of_nat (length (words_ b)))) with true by lia.
  eexists. split; [done|].
  assert (drop (Z.to_nat (2 * i)) (words_ b) = replicate (Z.to_nat (max_words - 2 * i)) 0) as ->.
  { rewrite (zeros_from max_words Hmax) by (intros; try apply (upper_word max_words Hmax); done || lia). f_equal. lia. }
  fold (LargePowerOfFiveSize i). fold (large_power i). split.
  - apply big_ok_intro with (max_words := max_words); unfold LargePowerOfFiveSize; rewrite ?length_app, ?length_replicate; try lia.
    + apply Forall_app. split; [done|]. apply Forall_replicate. unfold word_ok. lia.
    + intros j Hj. rewrite lookup_app_r by lia. apply lookup_replicate_2. lia.
  - unfold value. cbn [words_]. rewrite wval_app, wval_zeros, Hv, Z.mul_0_r, Z.add_0_r.
    rewrite Z.mod_small; [done|]. rewrite <- Hv. pose proof (wval_range _ Hw) as Hr. split; [apply Hr|].
    eapply Z.lt_le_trans; [apply Hr|]. unfold X. apply Z.pow_le_mono_r; lia.
Qed.

(** With room for the first power that is copied, the powers of five. *)
Lemma FiveToTheNth_ok n : 0 <= n -> 2 * Z.min (n / 27) 20 <= max_words ->
  exists b, FiveToTheNth max_words n = Some b /\ is_big b (5 ^ n).
Proof using Hmax.
  intros Hn Hroom. unfold FiveToTheNth, kLargePowerOfFiveStep, kLargestPowerOfFiveIndex.
  match goal with |- context [while_ ?f ?cond ?body ?s0] =>
    destruct (while_rule (fun '(first_pass, m, b) => 0 <= m <= n /\ is_big b (5 ^ (n - m)) /\ (first_pass = true -> m = n /\ size_ b <= 1)) (fun '(_, m, _) => Z.to_nat m) cond body f s0)
      as (((p & m) & b') & -> & (Hm & Hb' & _) & Hend) end.
  - split; [lia|]. split; [rewrite Z.sub_diag; apply big_of_ok; [done|lia]|]. intros _. split; [done|]. vm_compute. done.
  - lia.
  - intros ((p & m) & b') (Hm & Hb' & Hfirst) Hcond. cbv zeta. rewrite Z.quot_div_nonneg by lia. set (i := Z.min (m / 27) 20).
    assert (27 <= m) as Hm27 by lia.
    assert (1 <= m / 27) by (apply Z.div_le_lower_bound; lia). pose proof (Z.mul_div_le m 27 ltac:(lia)). assert (1 <= i <= 20 /\ 27 * i <= m) as [Hi Him] by lia.
    assert (exists b2, (if p then ws ← copy_n (LargePowerOfFiveData i) (LargePowerOfFiveSize i) (words_ b'); Some {| size_ := LargePowerOfFiveSize i; words_ := ws |}
      else MultiplyByWords max_words (LargePowerOfFiveSize i) (LargePowerOfFiveData i) b') = Some b2 /\ is_big b2 (5 ^ (n - m + 27 * i))) as (b2 & -> & Hb2).
    { destruct p.
      - destruct (Hfirst eq_refl) as [-> Hs]. destruct (copy_power i b' (proj1 Hb') Hs Hi Hroom) as (ws & -> & His). run.
        eexists. split; [done|]. by replace (n - n + 27 * i) with (27 * i) by lia.
      - destruct (large_power_ok i Hi) as (Hw & Hlen & Hv).
        destruct (MultiplyByWords_ok max_words Hmax b' _ (large_power i) (LargePowerOfFiveData i) Hb' Hw) as (b2 & E & Hb2); [lia|apply large_power_data|].
        exists b2. split; [rewrite <- E; f_equal; unfold LargePowerOfFiveSize; lia|]. rewrite Hv, <- Z.pow_add_r in Hb2 by lia. exact Hb2. }
    run. eexists. split; [done|]. split; [|lia]. split; [lia|]. split; [|done]. by replace (n - (m - 27 * i)) with (n - m + 27 * i) by lia.
  - run. destruct (MultiplyByFiveToTheNth_ok m b' _ Hb') as (b2 & -> & Hb2); [lia|]. exists b2. split; [done|].
    rewrite <- Z.pow_add_r in Hb2 by lia. by replace (n - m + m) with n in Hb2 by lia.
Qed.

Lemma MultiplyBy64_ok v b z : is_big b z -> 0 <= v < 2 ^ 64 -> exists b', MultiplyBy64 max_words v b = Some b' /\ is_big b' (z * v).
Proof using Hmax.
  intros Hb Hv. unfold MultiplyBy64. cbv zeta. rewrite ushr_val by lia. pose proof (Z.div_mod v (2 ^ 32) ltac:(lia)) as Ev.
  assert (0 <= v / 2 ^ 32 < 2 ^ 32) as Hh by (split; [apply Z.div_pos; lia|apply Z.div_lt_upper_bound; lia]). rewrite (wrap_small 32 (v / _)) by done.
  pose proof (Z.mod_pos_bound v (2 ^ 32) ltac:(lia)) as Hlo. fold (wrap 32 v) in *.
  destruct (Z.eqb_spec (v / 2 ^ 32) 0) as [E|E].
  - rewrite E, Z.mul_0_r, Z.add_0_l in Ev. rewrite <- Ev in *. by apply MultiplyBy32_ok.
  - destruct (MultiplyByWords_ok max_words Hmax b z [wrap 32 v; v / 2 ^ 32] [wrap 32 v; v / 2 ^ 32] Hb) as (b' & Eb & Hb'); try done.
    + repeat constructor; unfold word_ok; lia.
    + simpl. lia.
    + exists b'. split; [exact Eb|]. cbn [wval foldr] in Hb'. by replace (wrap 32 v + 2 ^ 32 * (v / 2 ^ 32 + 2 ^ 32 * 0)) with v in Hb' by lia.
Qed.

End Correct.
