(* ===== verification/BigText.v ===== *)
(** * Division, comparison and text of [BigUnsigned]

    [DivMod], [to_string] and the constructor from text, [Compare] and [operator==]. *)
From S2P Require Import Prelude Words Uint128Div Loops Ascii NumFormat BigUnsigned BigMul BigPow.

Section Text.
Variable max_words : Z.

(** [BigUnsigned::to_string]: the digits from the last one, then reversed. Fuel: ten digits for each word. *)
Definition to_string (b : BigUnsigned) : option (list Z) :=
  '(_, result) ← while_ (S (10 * Z.to_nat max_words)) (fun '(copy, _) => 0 <? size_ copy)
    (fun '(copy, result) =>
       '(next_digit, copy) ← DivMod max_words 10 copy;
       Some (copy, result ++ [48 + next_digit]))
    (b, []);
  let result := match result with [] => [48] | _ => result end in
  Some (rev result).

Definition Digits10 : Z := wrap 64 (max_words * 9975007) / 1035508.

(** A range of characters without the '0' at its end, and how many there were: an [int], which overflows for 2^31 of them. *)
Fixpoint drop_zeros (l : list Z) : list Z := match l with c :: l' => if c =? 48 then drop_zeros l' else l | [] => [] end.
Definition drop_trailing (l : list Z) : option (list Z * Z) :=
  let l' := rev (drop_zeros (rev l)) in
  dropped_digits ← chk 32 (Z.of_nat (length l) - Z.of_nat (length l'));
  Some (l', dropped_digits).

(** [std::find(begin, end, '.') - begin] *)
Fixpoint find_point (l : list Z) : Z := match l with c :: l => if c =? 46 then 0 else 1 + find_point l | [] => 0 end.
Definition has_point (l : list Z) : bool := existsb (fun c => c =? 46) l.

(** The range to read, and the zeroes dropped from its end that are before the decimal point. *)
Definition trim_range (text : list Z) : option (list Z * Z) :=
  let text := drop_zeros text in
  '(text, dropped_digits) ← drop_trailing text;
  if match rev text with c :: _ => c =? 46 | [] => false end then drop_trailing (removelast text)
  else if negb (dropped_digits =? 0) then
    if has_point text then Some (text, 0) else Some (text, dropped_digits)
  else Some (text, dropped_digits).

Record reading := { rest_ : list Z; significant_digits : Z; after_decimal_point : bool; exponent_adjust : Z;
                    queued : Z; digits_queued : Z; big : BigUnsigned }.

(** One turn of the loop over the digits; [exponent_adjust] is an [int]. *)
Definition read_digit (s : reading) : option reading :=
  match rest_ s with
  | [] => None
  | c :: rest =>
      if c =? 46 then
        Some {| rest_ := rest; significant_digits := significant_digits s; after_decimal_point := true; exponent_adjust := exponent_adjust s;
                queued := queued s; digits_queued := digits_queued s; big := big s |}
      else
        exponent_adjust ← (if after_decimal_point s then chk 32 (exponent_adjust s - 1) else Some (exponent_adjust s));
        let digit := swrap 8 (c - 48) in
        let significant_digits := significant_digits s - 1 in
        let digit := if (significant_digits =? 0) && (match rest with [] => false | _ => true end) && ((digit =? 0) || (digit =? 5)) then digit + 1 else digit in
        let queued := uadd 32 (umul 32 10 (queued s)) (wrap 32 digit) in
        let digits_queued := digits_queued s + 1 in
        if digits_queued =? kMaxSmallPowerOfTen then
          p ← rd kTenToNth kMaxSmallPowerOfTen;
          b ← MultiplyBy32 max_words p (big s);
          b ← AddWithCarry32 max_words 0 queued b;
          Some {| rest_ := rest; significant_digits := significant_digits; after_decimal_point := after_decimal_point s;
                  exponent_adjust := exponent_adjust; queued := 0; digits_queued := 0; big := b |}
        else
          Some {| rest_ := rest; significant_digits := significant_digits; after_decimal_point := after_decimal_point s;
                  exponent_adjust := exponent_adjust; queued := queued; digits_queued := digits_queued; big := big s |}
  end.

(** [BigUnsigned::ReadDigits]: the exponent adjustment and the integer. *)
Definition ReadDigits (text : list Z) (significant_digits0 : Z) (b : BigUnsigned) : option (Z * BigUnsigned) :=
  if Digits10 + 1 <? significant_digits0 then None
  else
    b ← SetToZero b;
    '(text, dropped_digits) ← trim_range text;
    s ← while_ (length text) (fun s => match rest_ s with [] => false | _ => 0 <? significant_digits s end) read_digit
      {| rest_ := text; significant_digits := significant_digits0; after_decimal_point := false; exponent_adjust := dropped_digits;
         queued := 0; digits_queued := 0; big := b |};
    b ←
      (if negb (digits_queued s =? 0) then
         p ← rd kTenToNth (digits_queued s);
         b ← MultiplyBy32 max_words p (big s);
         AddWithCarry32 max_words 0 (queued s) b
       else Some (big s));
    Some (if negb (match rest_ s with [] => true | _ => false end) && negb (after_decimal_point s)
          then swrap 32 (exponent_adjust s + find_point (rest_ s)) else exponent_adjust s, b).

(** [BigUnsigned(std::string_view)] *)
Definition big_of_text (sv : list Z) : option BigUnsigned :=
  if negb (forallb ascii_isdigit sv) || (match sv with [] => true | _ => false end) then Some (big_default max_words)
  else
    '(exponent_adjust, b) ← ReadDigits sv (Digits10 + 1) (big_default max_words);
    if 0 <? exponent_adjust then MultiplyByTenToTheNth max_words exponent_adjust b else Some b.

End Text.

(** ** Division *)

Section Correct.
Variable max_words : Z.
Hypothesis Hmax : 4 <= max_words < 2 ^ 20.
#[local] Abbreviation big_ok := (big_ok max_words).
#[local] Abbreviation is_big := (is_big max_words).

Lemma division_step d acc w : 0 < d < 2 ^ 32 -> 0 <= acc < d -> 0 <= w < 2 ^ 32 ->
  let a := uadd 64 (ushl 64 acc 32) w in
  a = acc * 2 ^ 32 + w /\ wrap 32 (a / d) = a / d /\ 0 <= a / d < 2 ^ 32 /\ 0 <= a mod d < d /\ a = d * (a / d) + a mod d.
Proof using.
  clear. intros Hd Hacc Hw a. assert (a = acc * 2 ^ 32 + w) as E.
  { unfold a, uadd, ushl. rewrite Z.shiftl_mul_pow2 by lia. rewrite (wrap_small 64 (acc * 2 ^ 32)) by lia. apply wrap_small. lia. }
  clearbody a. subst a. pose proof (Z.mod_pos_bound (acc * 2 ^ 32 + w) d ltac:(lia)).
  assert (0 <= (acc * 2 ^ 32 + w) / d < 2 ^ 32) as Hq.
  { split; [apply Z.div_pos; lia|]. apply Z.div_lt_upper_bound; [lia|]. nia. }
  split; [done|]. split; [by apply wrap_small|]. split; [done|]. split; [done|]. apply Z.div_mod. lia.
Qed.

Lemma DivMod_ok d b : big_ok b -> 0 < d < 2 ^ 32 ->
  exists b', DivMod max_words d b = Some (value b mod d, b') /\ big_ok b' /\ value b' = value b / d /\
    (0 < size_ b' -> words_ b' !! Z.to_nat (size_ b' - 1) <> Some 0).
Proof using Hmax.
  intros Hb Hd. unfold DivMod. pose proof (ok_length _ b Hb) as Hl. pose proof (ok_size _ b Hb) as Hs.
  match goal with |- context [while_ ?f ?cond ?body ?s0] =>
    destruct (while_rule (fun '(i, acc, ws) => -1 <= i < size_ b /\ 0 <= acc < d /\ length ws = length (words_ b) /\ Forall word_ok ws /\
        (forall j, (Z.of_nat j <= i) -> ws !! j = words_ b !! j) /\ (forall j, (Z.to_nat (size_ b) <= j)%nat -> ws !! j = words_ b !! j) /\
        value b = d * X (i + 1) * wval (drop (Z.to_nat (i + 1)) ws) + acc * X (i + 1) + wval (take (Z.to_nat (i + 1)) (words_ b)))
      (fun '(i, _, _) => Z.to_nat (i + 1)) cond body f s0) as (((i & acc) & ws) & -> & (Hi & Hacc & Hlen & Hw & Hlow & Hhigh & Hval) & Hend) end.
  - split; [lia|]. split; [lia|]. split; [done|]. split; [apply Hb|]. split; [done|]. split; [done|].
    replace (size_ b - 1 + 1) with (size_ b) by lia. rewrite (ok_zeros _ b Hb), wval_zeros, (value_low max_words Hmax) by (done || lia). lia.
  - lia.
  - intros ((i & acc) & ws) (Hi & Hacc & Hlen & Hw & Hlow & Hhigh & Hval) Hcond.
    destruct (rd_in ws i) as (w & -> & Ew); [lia|]. run. pose proof (word_range _ _ _ Hw Ew) as Hwr.
    destruct (division_step d acc w Hd Hacc Hwr) as (Ea & -> & Hq & Hr & Ediv). set (a := uadd 64 _ w) in *. clearbody a.
    rewrite wr_in by lia. run. eexists. split; [done|]. split; [|lia]. split; [lia|]. split; [done|]. split; [by rewrite length_insert|].
    split; [by apply Forall_insert|]. split; [intros j Hj; rewrite list_lookup_insert_ne by lia; apply Hlow; lia|].
    split; [intros j Hj; rewrite list_lookup_insert_ne by lia; apply Hhigh; lia|].
    replace (i - 1 + 1) with i by lia. rewrite Hval.
    assert (words_ b !! Z.to_nat i = Some w) as Ew0 by (rewrite <- Hlow by lia; done).
    replace (Z.to_nat (i + 1)) with (S (Z.to_nat i)) by lia. rewrite (take_wval_S _ _ _ Ew0).
    rewrite (drop_S (<[Z.to_nat i := a / d]> ws) (a / d) (Z.to_nat i)) by (apply list_lookup_insert_eq; lia).
    rewrite drop_insert_lt by lia. change (wval (a / d :: drop (S (Z.to_nat i)) ws)) with (a / d + 2 ^ 32 * wval (drop (S (Z.to_nat i)) ws)).
    rewrite X_succ by lia. rewrite Z2Nat.id by lia. set (W := wval (drop _ _)). set (L := wval (take _ _)). set (P := X i). set (q := a / d) in *. set (r := a mod d) in *.
    clearbody W L P q r. clear - Ea Ediv. replace w with (d * q + r - acc * 2 ^ 32) by lia. ring.
  - run. assert (i = -1) as -> by lia. change (Z.to_nat (-1 + 1)) with 0%nat in Hval. rewrite take_0, drop_0 in Hval. change (X (-1 + 1)) with 1 in Hval.
    change (wval []) with 0 in Hval.
    assert (value b / d = wval ws /\ value b mod d = acc) as [Eq Er].
    { split; symmetry; [apply (Z.div_unique_pos _ _ _ acc)|apply (Z.mod_unique_pos _ _ (wval ws))]; lia. }
    assert (forall j, (Z.to_nat (size_ b) <= j < length ws)%nat -> ws !! j = Some 0) as Hz.
    { intros j Hj. rewrite Hhigh by lia. apply (upper_word max_words Hmax); [done|lia]. }
    match goal with |- context [while_ ?f ?cond ?body ?s0] =>
      destruct (while_rule (fun size => 0 <= size <= size_ b /\ forall j, (Z.to_nat size <= j < length ws)%nat -> ws !! j = Some 0)
        (fun size => Z.to_nat size) cond body f s0) as (size & -> & (Hsize & Hzero) & Hend2) end.
    + split; [lia|exact Hz].
    + lia.
    + intros size (Hsize & Hzero) Hc. destruct (rd_in ws (size - 1)) as (w & Erd & Ew); [lia|]. rewrite Erd in Hc |- *. run.
      eexists. split; [done|]. split; [|lia]. split; [lia|]. intros j Hj. destruct (decide (j = Z.to_nat (size - 1))) as [->|Hne]; [rewrite Ew; f_equal; lia|].
      apply Hzero. lia.
    + run. rewrite wrap_small by lia. eexists. split; [by rewrite Er|].
      split; [apply big_ok_intro with (max_words := max_words); [done|lia|done|lia|exact Hzero]|]. split; [by rewrite Eq|].
      cbn [size_ words_]. intros Hpos E. rewrite (rd_spec ws (size - 1) 0) in Hend2 by (done || lia). lia.
Qed.


(** ** Decimal text *)

Lemma value_pos b : big_ok b -> 0 < size_ b -> words_ b !! Z.to_nat (size_ b - 1) <> Some 0 -> 0 < value b.
Proof using Hmax.
  intros Hb Hs Ht. pose proof (ok_length _ b Hb). pose proof (ok_size _ b Hb).
  destruct (lookup_lt_is_Some_2 (words_ b) (Z.to_nat (size_ b - 1))) as [w E]; [lia|]. pose proof (word_range _ _ _ (ok_words _ b Hb) E).
  assert (w <> 0) by congruence. unfold value. rewrite (wval_cut _ _ _ E).
  pose proof (wval_range (take (Z.to_nat (size_ b - 1)) (words_ b)) ltac:(apply Forall_take, Hb)).
  pose proof (wval_range (drop (S (Z.to_nat (size_ b - 1))) (words_ b)) ltac:(apply Forall_drop, Hb)).
  pose proof (X_pos (Z.of_nat (Z.to_nat (size_ b - 1))) ltac:(lia)). nia.
Qed.

Lemma value_size0 b : big_ok b -> size_ b = 0 -> value b = 0.
Proof using Hmax. intros Hb E. rewrite <- (value_low max_words Hmax b 0 Hb) by lia. by rewrite take_0. Qed.

Lemma of_ldigits_snoc base l d : of_ldigits base (l ++ [d]) = of_ldigits base l + base ^ Z.of_nat (length l) * d.
Proof using.
  clear. induction l as [|x l IH]; [cbn; lia|]. cbn [app of_ldigits length]. rewrite IH, Nat2Z.inj_succ, Z.pow_succ_r by lia. lia.
Qed.

Lemma words_digits : X max_words <= 10 ^ (10 * max_words).
Proof using Hmax.
  unfold X. rewrite !Z.pow_mul_r by lia. apply Z.pow_le_mono_l. lia.
Qed.

Lemma to_string_ok b : big_ok b -> exists text, to_string max_words b = Some text /\ Forall (fun c => 48 <= c <= 57) text /\
  text_value 10 ((fun c => c - 48) <$> text) = value b /\ (value b <> 0 -> head text <> Some 48) /\ (value b = 0 -> text = [48]).
Proof using Hmax.
  intros Hb. unfold to_string. pose proof (value_range max_words Hmax b Hb) as Hvr. pose proof words_digits as Hwd.
  pose (top := fun copy : BigUnsigned => 0 < size_ copy -> words_ copy !! Z.to_nat (size_ copy - 1) <> Some 0).
  match goal with |- context [while_ ?f ?cond ?body ?s0] =>
    destruct (while_rule (fun '(copy, result) => exists ds, result = (fun d => 48 + d) <$> ds /\ big_ok copy /\ Forall (fun d => 0 <= d < 10) ds /\
        value b = of_ldigits 10 ds + 10 ^ Z.of_nat (length ds) * value copy /\ (ds <> [] -> top copy) /\ (ds = [] -> copy = b) /\
        (Z.of_nat (length ds) <= 10 * max_words + 1) /\
        (value copy = 0 -> value b <> 0 -> exists ds' d, ds = ds' ++ [d] /\ d <> 0) /\ (value b = 0 -> ds = [] \/ ds = [0]))
      (fun '(_, result) => (S (10 * Z.to_nat max_words) - length result)%nat) cond body f s0) as ((copy & result) & -> & (ds & -> & Hc & Hds & Hval & Htop & Hsame & Hlen & Hlast & Hzero) & Hend) end.
  - exists []. split; [done|]. split; [done|]. split; [done|]. split; [cbn; lia|]. split; [done|]. split; [done|]. split; [cbn; lia|]. split; [intros; lia|by left].
  - lia.
  - intros (copy & result) (ds & -> & Hc & Hds & Hval & Htop & Hsame & Hlen & Hlast & Hzero) Hcond.
    destruct (DivMod_ok 10 copy Hc ltac:(lia)) as (c' & -> & Hc' & Hv' & Htop'). run. eexists. split; [done|].
    pose proof (Z.mod_pos_bound (value copy) 10 ltac:(lia)) as Hd. pose proof (Z.div_mod (value copy) 10 ltac:(lia)) as Ediv.
    pose proof (value_range max_words Hmax copy Hc) as Hcr.
    assert (ds <> [] -> 0 < value copy) as Hpos by (intros Hne; apply value_pos; [done|lia|exact (Htop Hne ltac:(lia))]).
    assert (Z.of_nat (length ds) < 10 * max_words \/ ds = []) as Hshort.
    { destruct ds as [|d0 ds]; [by right|]. left. specialize (Hpos ltac:(discriminate)).
      assert (0 <= of_ldigits 10 (d0 :: ds)) by (clear - Hds; induction Hds as [|x l Hx Hl IH]; cbn [of_ldigits]; lia).
      apply (Z.pow_lt_mono_r_iff 10); [lia|lia|]. nia. }
    split.
    + exists (ds ++ [value copy mod 10]). split; [by rewrite fmap_app|]. split; [done|]. split; [apply Forall_app; split; [done|by apply list.Forall_singleton]|].
      split; [|split; [intros _; exact Htop'|split; [intros E; by apply app_nil in E as [_ E]|split; [|split]]]].
      * rewrite of_ldigits_snoc, length_app, Nat2Z.inj_add. change (Z.of_nat (length [value copy mod 10])) with 1. rewrite Z.pow_add_r, Hv', Hval by lia.
        change (10 ^ 1) with 10. set (P := 10 ^ Z.of_nat (length ds)). clearbody P. rewrite Ediv at 1. ring.
      * rewrite length_app. cbn [length]. destruct Hshort as [?| ->]; cbn [length] in *; lia.
      * rewrite Hv'. intros Hq Hb0. exists ds, (value copy mod 10). split; [done|]. destruct ds as [|d0 ds]; [rewrite (Hsame eq_refl) in *; lia|].
        specialize (Hpos ltac:(discriminate)). lia.
      * intros Hb0. right. destruct (Hzero Hb0) as [-> | ->]; [|specialize (Hpos ltac:(discriminate)); cbn in Hval; lia].
        rewrite (Hsame eq_refl), Hb0. done.
    + rewrite length_app, !length_fmap. cbn [length]. destruct Hshort as [?| ->]; cbn [length]; lia.
  - run. assert (value copy = 0) as Ec by (apply value_size0; [done|]; pose proof (ok_size _ copy Hc); lia). rewrite Ec, Z.mul_0_r, Z.add_0_r in Hval.
    assert (exists ds', ds <> [] /\ ds' = ds \/ ds = [] /\ ds' = [0]) as (ds' & Hds') by (destruct ds as [|d0 ds]; [exists [0]; by right|exists (d0 :: ds); by left]).
    assert ((match (fun d => 48 + d) <$> ds with [] => [48] | _ => (fun d => 48 + d) <$> ds end) = (fun d => 48 + d) <$> ds') as ->.
    { destruct Hds' as [[Hne ->]|[-> ->]]; [by destruct ds|done]. }
    exists (rev ((fun d => 48 + d) <$> ds')). split; [done|].
    assert (Forall (fun d => 0 <= d < 10) ds') as Hds2 by (destruct Hds' as [[_ ->]|[_ ->]]; [done|by apply list.Forall_singleton]).
    assert (of_ldigits 10 ds' = value b) as Ev by (destruct Hds' as [[_ ->]|[-> ->]]; [done|by rewrite Hval]).
    split; [|split; [|split]].
    + apply Forall_rev_Z, Forall_fmap. revert Hds2. apply Forall_impl. intros d Hd. cbn. lia.
    + assert ((fun c => c - 48) <$> rev ((fun d => 48 + d) <$> ds') = rev ds') as ->; [|by rewrite text_value_rev].
      transitivity (rev ((fun c => c - 48) <$> ((fun d => 48 + d) <$> ds'))); [apply map_rev|]. rewrite <- list_fmap_compose. f_equal.
      rewrite <- (list_fmap_id ds') at 2. apply list_fmap_ext. intros k x _. cbn. lia.
    + intros Hne. destruct (Hlast Ec Hne) as (l & d & -> & Hd). destruct Hds' as [[_ ->]|[E _]]; [|by destruct l].
      rewrite fmap_app, rev_app_distr. cbn. intros [= E]. lia.
    + intros Hb0. destruct Hds' as [[Hne ->]|[_ ->]]; [|done]. by destruct (Hzero Hb0) as [-> | ->].
Qed.

End Correct.

(** ** Comparison *)

Section Compare.
Variables N M : Z.
Hypothesis HN : 4 <= N < 2 ^ 20.
Hypothesis HM : 4 <= M < 2 ^ 20.

Lemma GetWord_ok K (HK : 4 <= K < 2 ^ 20) b i : big_ok K b -> GetWord b (Z.of_nat i) = Some (nth i (words_ b) 0).
Proof using.
  clear HN HM. intros Hb. unfold GetWord. pose proof (ok_length _ b Hb). pose proof (ok_size _ b Hb).
  destruct (Z.leb_spec (size_ b) (Z.of_nat i)).
  - rewrite orb_true_r, (nth_beyond K HK) by done. done.
  - destruct (Z.ltb_spec (Z.of_nat i) 0); [lia|]. cbn [orb]. destruct (lookup_lt_is_Some_2 (words_ b) i) as [w E]; [lia|].
    rewrite (rd_spec _ _ w) by (rewrite ?Nat2Z.id; done || lia). by rewrite nth_lookup, E.
Qed.

(** The value of the lowest [n] words. *)
Definition low (b : BigUnsigned) (n : nat) : Z := psum (fun k => nth k (words_ b) 0) n.
Lemma low_range K b n : big_ok K b -> 0 <= low b n < X (Z.of_nat n).
Proof using.
  clear. intros Hb. unfold low. induction n as [|n IH]; [vm_compute; split; [discriminate|done]|]. cbn [psum]. pose proof (nth_word (words_ b) n (ok_words _ b Hb)).
  rewrite Nat2Z.inj_succ. unfold Z.succ. rewrite X_succ by lia. nia.
Qed.
Lemma low_value K (HK : 4 <= K < 2 ^ 20) b n : big_ok K b -> size_ b <= Z.of_nat n -> low b n = value b.
Proof using. clear HN HM. intros Hb Hn. unfold low. rewrite psum_take. apply (value_low K HK); [done|lia]. Qed.

Definition order (x y : Z) : Z := if x <? y then -1 else if y <? x then 1 else 0.

Lemma compare_words_ok n lhs rhs : big_ok N lhs -> big_ok M rhs -> compare_words n lhs rhs = Some (order (low lhs n) (low rhs n)).
Proof using HN HM.
  intros Hl Hr. induction n as [|n IH]; [done|]. cbn [compare_words]. rewrite (GetWord_ok N HN lhs n Hl). run. rewrite (GetWord_ok M HM rhs n Hr). run. rewrite IH.
  unfold low. cbn [psum]. fold (low lhs n) (low rhs n). pose proof (low_range N lhs n Hl). pose proof (low_range M rhs n Hr). pose proof (X_pos (Z.of_nat n) ltac:(lia)).
  set (x := nth n (words_ lhs) 0). set (y := nth n (words_ rhs) 0). unfold order.
  destruct (Z.ltb_spec x y); [|destruct (Z.ltb_spec y x)]; [f_equal; symmetry..|assert (x = y) as -> by lia; f_equal; ifs; lia].
  - rewrite (proj2 (Z.ltb_lt _ _)) by nia. done.
  - rewrite (proj2 (Z.ltb_ge _ _)) by nia. rewrite (proj2 (Z.ltb_lt _ _)) by nia. done.
Qed.

Lemma equal_words_ok n i lhs rhs : big_ok N lhs -> big_ok M rhs ->
  equal_words n (Z.of_nat i) lhs rhs = Some (forallb (fun k => nth k (words_ lhs) 0 =? nth k (words_ rhs) 0) (seq i n)).
Proof using HN HM.
  intros Hl Hr. revert i. induction n as [|n IH]; intros i; [done|]. cbn [equal_words seq forallb]. rewrite (GetWord_ok N HN lhs i Hl). run.
  rewrite (GetWord_ok M HM rhs i Hr). run. destruct (nth i (words_ lhs) 0 =? nth i (words_ rhs) 0); [|done]. cbn [negb andb].
  replace (Z.of_nat i + 1) with (Z.of_nat (S i)) by lia. apply IH.
Qed.

Lemma low_inj n lhs rhs : big_ok N lhs -> big_ok M rhs -> low lhs n = low rhs n -> forall k, (k < n)%nat -> nth k (words_ lhs) 0 = nth k (words_ rhs) 0.
Proof using.
  clear HN HM. intros Hl Hr. induction n as [|n IH]; intros E k Hk; [lia|]. unfold low in E. cbn [psum] in E. fold (low lhs n) (low rhs n) in E.
  pose proof (low_range N lhs n Hl). pose proof (low_range M rhs n Hr). pose proof (X_pos (Z.of_nat n) ltac:(lia)).
  assert (nth n (words_ lhs) 0 = nth n (words_ rhs) 0) as Ew by nia. destruct (decide (k = n)) as [->|Hne]; [done|]. apply IH; [|lia]. rewrite Ew in E. lia.
Qed.

Lemma Compare_ok lhs rhs : big_ok N lhs -> big_ok M rhs -> Compare lhs rhs = Some (order (value lhs) (value rhs)).
Proof using HN HM.
  intros Hl Hr. pose proof (ok_size _ _ Hl). pose proof (ok_size _ _ Hr). unfold Compare. rewrite compare_words_ok by done.
  by rewrite (low_value N HN), (low_value M HM) by (done || lia).
Qed.
Lemma big_eq_ok lhs rhs : big_ok N lhs -> big_ok M rhs -> big_eq lhs rhs = Some (value lhs =? value rhs).
Proof using HN HM.
  intros Hl Hr. pose proof (ok_size _ _ Hl). pose proof (ok_size _ _ Hr). unfold big_eq. rewrite (equal_words_ok _ 0) by done. f_equal.
  set (n := Z.to_nat (Z.max (size_ lhs) (size_ rhs))). rewrite <- (low_value N HN lhs n), <- (low_value M HM rhs n) by (done || lia).
  apply eq_true_iff_eq. rewrite forallb_forall, Z.eqb_eq. split.
  - intros H1. unfold low. assert (forall m, (m <= n)%nat -> psum (fun k => nth k (words_ lhs) 0) m = psum (fun k => nth k (words_ rhs) 0) m) as H2; [|by apply H2].
    induction m as [|m IH]; intros Hm; [done|]. cbn [psum]. rewrite IH by lia. specialize (H1 m). rewrite in_seq in H1. f_equal. f_equal. lia.
  - intros E k Hk. rewrite in_seq in Hk. apply Z.eqb_eq. apply (low_inj n lhs rhs Hl Hr E). lia.
Qed.
Lemma big_lt_ok lhs rhs : big_ok N lhs -> big_ok M rhs -> big_lt lhs rhs = Some (value lhs <? value rhs).
Proof using HN HM. intros Hl Hr. unfold big_lt. rewrite Compare_ok by done. run. f_equal. unfold order. ifs; lia. Qed.
End Compare.
