(* ===== verification/BigRead.v ===== *)
(** * Reading of [BigUnsigned] from text

    [ReadDigits] keeps a number of significant digits and records in the last one that non-zero digits follow. *)
From S2P Require Import Prelude Words Uint128Div Loops Ascii NumFormat BigUnsigned BigMul BigPow BigText.

(** ** Numbers as text *)

(** The digits of a text, and how many of them follow the decimal point. *)
Definition digit_values (t : list Z) : list Z := (fun c => c - 48) <$> filter (fun c => c <> 46) t.
Fixpoint fraction (t : list Z) : Z := match t with [] => 0 | c :: t => if c =? 46 then Z.of_nat (length t) else fraction t end.
(** Digits with at most one point. *)
Definition number_ok (t : list Z) : Prop :=
  Forall (fun c => c = 46 \/ 48 <= c <= 57) t /\ (forall p r, t = p ++ 46 :: r -> has_point r = false).
(** The integer that the digits make. *)
Definition integer (t : list Z) : Z := text_value 10 (digit_values t).

Lemma has_point_app p r : has_point (p ++ r) = has_point p || has_point r.
Proof. apply existsb_app. Qed.
Lemma fraction_app p r : fraction (p ++ r) = if has_point p then fraction p + Z.of_nat (length r) else fraction r.
Proof.
  induction p as [|c p IH]; [done|]. cbn [app fraction has_point existsb]. fold (has_point p). destruct (Z.eqb_spec c 46); cbn [orb]; [rewrite length_app; lia|done].
Qed.
Lemma fraction_bound p : 0 <= fraction p <= Z.of_nat (length p).
Proof. induction p as [|c p IH]; [done|]. cbn [fraction length]. destruct (c =? 46); lia. Qed.
Lemma digit_values_app p r : digit_values (p ++ r) = digit_values p ++ digit_values r.
Proof. unfold digit_values. by rewrite list.filter_app, fmap_app. Qed.
Lemma digit_values_digit c : c <> 46 -> digit_values [c] = [c - 48].
Proof. intros Hc. unfold digit_values. by rewrite filter_cons_True. Qed.
Lemma digit_values_point : digit_values [46] = [].
Proof. done. Qed.
Lemma digit_values_length t : (length (digit_values t) <= length t)%nat.
Proof. unfold digit_values. rewrite length_fmap. apply length_filter. Qed.
Lemma has_point_false p : has_point p = false -> fraction p = 0 /\ length (digit_values p) = length p.
Proof.
  induction p as [|c p IH]; [done|]. cbn [has_point existsb fraction]. fold (has_point p). destruct (Z.eqb_spec c 46) as [|Hc]; [done|]. cbn [orb]. intros H.
  destruct (IH H) as [H1 H2]. split; [done|]. change (c :: p) with ([c] ++ p). rewrite digit_values_app, digit_values_digit by done. cbn [app length]. by rewrite H2.
Qed.

Lemma text_value_app b l m : text_value b (l ++ m) = text_value b l * b ^ Z.of_nat (length m) + text_value b m.
Proof.
  unfold text_value. rewrite fold_left_app. generalize (fold_left (fun v d => v * b + d) l 0). intros a. revert a.
  assert (forall m a, fold_left (fun v d => v * b + d) m a = a * b ^ Z.of_nat (length m) + fold_left (fun v d => v * b + d) m 0) as H; [|intros a; apply H].
  clear. induction m as [|d m IH]; intros a; [cbn; lia|]. cbn [fold_left length]. rewrite IH, (IH (0 * b + d)), Nat2Z.inj_succ, Z.pow_succ_r by lia. ring.
Qed.
Lemma integer_app p r : integer (p ++ r) = integer p * 10 ^ Z.of_nat (length (digit_values r)) + integer r.
Proof. unfold integer. by rewrite digit_values_app, text_value_app. Qed.
Lemma digits_bound l : Forall (fun d => 0 <= d < 10) l -> 0 <= text_value 10 l < 10 ^ Z.of_nat (length l).
Proof.
  induction l as [|d l IH] using rev_ind; intros H; [cbn; lia|]. apply Forall_app in H as [Hl Hd]. apply Forall_cons_iff in Hd as [Hd _]. cbv beta in Hd.
  rewrite text_value_app, length_app. cbn [length]. rewrite Nat2Z.inj_add. change (Z.of_nat 1) with 1. rewrite Z.pow_add_r by lia. specialize (IH Hl). change (text_value 10 [d]) with (0 * 10 + d). change (10 ^ 1) with 10. lia.
Qed.
Lemma digit_values_range t : Forall (fun c => c = 46 \/ 48 <= c <= 57) t -> Forall (fun d => 0 <= d < 10) (digit_values t).
Proof.
  intros H. unfold digit_values. apply Forall_fmap. induction H as [|c t Hc Ht IH]; [constructor|].
  destruct (decide (c <> 46)) as [Hne|He]; [rewrite filter_cons_True by done; constructor; [cbn; lia|done]|]. by rewrite filter_cons_False.
Qed.
Lemma integer_bound t : Forall (fun c => c = 46 \/ 48 <= c <= 57) t -> 0 <= integer t < 10 ^ Z.of_nat (length (digit_values t)).
Proof. intros H. by apply digits_bound, digit_values_range. Qed.
(** A number whose first digit is not zero. *)
Lemma first_digit_bound p sig : Z.of_nat (length (digit_values p)) = sig -> Forall (fun c => c = 46 \/ 48 <= c <= 57) p -> head (digit_values p) <> Some 0 -> 0 < sig -> 10 ^ (sig - 1) <= integer p.
Proof.
  intros <- Hp Hh Hsig. unfold integer. pose proof (digit_values_range p Hp) as Hd. destruct (digit_values p) as [|d l]; [done|].
  apply Forall_cons_iff in Hd as [Hd Hl]. assert (d <> 0) by (cbn in Hh; congruence). change (d :: l) with ([d] ++ l). rewrite text_value_app. change (text_value 10 [d]) with (0 * 10 + d).
  pose proof (digits_bound l Hl). cbn [app length]. rewrite Nat2Z.inj_succ. replace (Z.succ (Z.of_nat (length l)) - 1) with (Z.of_nat (length l)) by lia. nia.
Qed.
Lemma integer_zeros n : integer (replicate n 48) = 0 /\ length (digit_values (replicate n 48)) = n /\ has_point (replicate n 48) = false.
Proof.
  induction n as [|n (H1 & H2 & H3)]; [done|]. cbn [replicate]. change (48 :: replicate n 48) with ([48] ++ replicate n 48).
  rewrite integer_app, digit_values_app, length_app, H1, H2. split; [change (integer [48]) with 0; lia|]. split; [done|]. by rewrite has_point_app, H3.
Qed.

Lemma number_app p r : number_ok (p ++ r) -> number_ok p /\ number_ok r.
Proof.
  intros [H1 H2]. apply Forall_app in H1 as [Hp Hr]. split; (split; [done|]).
  - intros x y ->. rewrite <- app_assoc in H2. specialize (H2 x (y ++ r) eq_refl). rewrite has_point_app in H2. by apply orb_false_iff in H2 as [? _].
  - intros x y ->. apply (H2 (p ++ x) y). by rewrite <- app_assoc.
Qed.
Lemma number_point p r : number_ok (p ++ r) -> has_point p = true -> has_point r = false.
Proof.
  intros [_ H] Hp. unfold has_point in Hp. apply existsb_exists in Hp as (c & Hin & Ec). apply Z.eqb_eq in Ec as ->.
  apply in_split in Hin as (x & y & ->). specialize (H x (y ++ r)). rewrite <- app_assoc in H. specialize (H eq_refl). rewrite has_point_app in H.
  by apply orb_false_iff in H as [_ ?].
Qed.
(** The digits of what is left. *)
Lemma find_point_ok r : number_ok r -> Z.of_nat (length (digit_values r)) = find_point r + fraction r.
Proof.
  induction r as [|c r IH]; intros Hr; [done|]. pose proof (number_app [c] r Hr) as [_ Hr']. cbn [find_point fraction].
  change (c :: r) with ([c] ++ r). rewrite digit_values_app. destruct (Z.eqb_spec c 46) as [->|Hc].
  - destruct (has_point_false r) as [_ H]; [apply Hr with []; done|]. rewrite digit_values_point. cbn [app]. lia.
  - rewrite digit_values_digit by done. cbn [app length]. rewrite Nat2Z.inj_succ, (IH Hr'). lia.
Qed.

(** ** The range that is read *)

Lemma drop_zeros_ok l : exists n, l = replicate n 48 ++ drop_zeros l /\ head (drop_zeros l) <> Some 48.
Proof.
  induction l as [|c l (n & E & H)]; [by exists 0%nat|]. cbn [drop_zeros]. destruct (Z.eqb_spec c 48) as [->|Hc].
  - exists (S n). split; [cbn [replicate app]; by rewrite E at 1|done].
  - exists 0%nat. split; [done|]. cbn. congruence.
Qed.
Lemma rev_zeros n : rev (replicate n 48) = replicate n 48.
Proof. induction n as [|n IH]; [done|]. rewrite replicate_S_end at 2. cbn [replicate rev]. by rewrite IH. Qed.
Lemma drop_trailing_ok l : Z.of_nat (length l) < 2 ^ 31 ->
  exists l' n, drop_trailing l = Some (l', Z.of_nat n) /\ l = l' ++ replicate n 48 /\ list.last l' <> Some 48.
Proof.
  intros Hlen.
  destruct (drop_zeros_ok (rev l)) as (n & E & H). exists (rev (drop_zeros (rev l))), n. unfold drop_trailing.
  assert (l = rev (drop_zeros (rev l)) ++ replicate n 48) as El.
  { rewrite <- (rev_involutive l) at 1. rewrite E at 1. rewrite rev_app_distr. f_equal. apply rev_zeros. }
  split; [|split; [done|]].
  - apply (f_equal length) in El. rewrite length_app, length_replicate in El. set (l' := rev (drop_zeros (rev l))) in *.
    replace (Z.of_nat (length l) - Z.of_nat (length l')) with (Z.of_nat n) by lia. rewrite chk_Some by (change (32 - 1) with 31; lia). done.
  - destruct (drop_zeros (rev l)) as [|c m]; [done|]. cbn [rev]. rewrite last_snoc. exact H.
Qed.

Lemma trim_range_ok text : number_ok text -> Z.of_nat (length text) < 2 ^ 31 -> exists t dropped k, trim_range text = Some (t, dropped) /\ dropped < 2 ^ 31 /\ (length t <= length text)%nat /\ number_ok t /\ integer text = integer t * 10 ^ Z.of_nat k /\
  dropped + fraction text - fraction t = Z.of_nat k /\ 0 <= dropped /\ list.last t <> Some 48 /\ list.last t <> Some 46 /\ (length (digit_values t) + k <= length (digit_values text))%nat /\ (exists z, drop_zeros text = t ++ z).
Proof.
  intros Hok Hlen0. unfold trim_range. destruct (drop_zeros_ok text) as (n & E & _). set (t1 := drop_zeros text) in *.
  assert (length t1 <= length text)%nat as Hl0 by (apply (f_equal length) in E; rewrite length_app in E; lia).
  destruct (integer_zeros n) as (Z1 & Z2 & Z3).
  assert (integer text = integer t1 /\ fraction text = fraction t1 /\ number_ok t1 /\ (length (digit_values t1) <= length (digit_values text))%nat) as (-> & -> & Hok1 & Hl1).
  { rewrite E. rewrite integer_app, fraction_app, Z1, Z3, digit_values_app, length_app, Z2. split; [lia|]. split; [done|]. split; [|lia]. rewrite E in Hok. by apply number_app in Hok as [_ ?]. }
  clear E Z1 Z2 Z3 n. destruct (drop_trailing_ok t1 ltac:(lia)) as (t2 & n & -> & E & Hlast). run.
  assert (Z.of_nat n < 2 ^ 31 /\ (length t2 <= length text)%nat) as [Hn31 Hl2] by (apply (f_equal length) in E; rewrite length_app, length_replicate in E; lia).
  assert (exists z, t1 = t2 ++ z) as Hpre by eauto. destruct (integer_zeros n) as (Z1 & Z2 & Z3).
  rewrite E in Hok1, Hl1. destruct (number_app _ _ Hok1) as [Hok2 _]. rewrite digit_values_app, length_app, Z2 in Hl1.
  assert (integer t1 = integer t2 * 10 ^ Z.of_nat n) as -> by (rewrite E, integer_app, Z1, Z2; lia).
  assert (fraction t1 = if has_point t2 then fraction t2 + Z.of_nat n else 0) as ->.
  { rewrite E, fraction_app, length_replicate. destruct (has_point t2); [done|]. by apply has_point_false. }
  clear E Hok1 Z1 Z2 Z3. clearbody t1. destruct (rev t2) as [|c m] eqn:Er.
  - assert (t2 = []) as -> by (by rewrite <- (rev_involutive t2), Er). cbn [has_point existsb].
    destruct (Z.eqb_spec (Z.of_nat n) 0) as [E0|E0]; cbn [negb]; exists [], (Z.of_nat n), n; (split_and!; [done|done|cbn; lia|done|done|cbn; lia|lia|done|done|cbn; lia|done]).
  - assert (t2 = rev m ++ [c]) as -> by (by rewrite <- (rev_involutive t2), Er). rewrite last_snoc in Hlast.
    destruct (Z.eqb_spec c 46) as [->|Hc].
    + rewrite removelast_last. destruct (number_app _ _ Hok2) as [Hok3 _].
      assert (has_point (rev m) = false) as Hp.
      { destruct (has_point (rev m)) eqn:Hp; [|done]. by pose proof (number_point _ _ Hok2 Hp). }
      rewrite length_app in Hl2. destruct (drop_trailing_ok (rev m) ltac:(lia)) as (t4 & k & -> & E & Hlast4). rewrite E in *. rewrite length_app, length_replicate in Hl2. destruct (integer_zeros k) as (Z1 & Z2 & Z3).
      rewrite has_point_app in Hp. apply orb_false_iff in Hp as [Hp _]. destruct (has_point_false t4 Hp) as [Hf _].
      exists t4, (Z.of_nat k), (k + n)%nat. split; [done|]. split; [lia|]. split; [lia|]. split; [by apply number_app in Hok3 as [? _]|].
      rewrite !has_point_app, orb_true_r, !fraction_app, has_point_app, Hp, Z3, !integer_app, Z1, Z2. cbn [orb fraction length]. rewrite Nat2Z.inj_add, Z.pow_add_r by lia.
      rewrite !digit_values_app, !length_app in Hl1. change (Z.of_nat (length (digit_values [46]))) with 0. change (integer [46]) with 0.
      split; [ring|]. split; [rewrite Hf; destruct (46 =? 46); lia|]. split; [lia|]. split; [done|].
      assert (exists z, t1 = t4 ++ z) as Hpre4 by (destruct Hpre as [z ->]; rewrite <- !app_assoc; eauto). split; [|split; [lia|done]].
      destruct t4 as [|x t4 _] using rev_ind; [done|]. rewrite last_snoc. intros [= ->]. by rewrite has_point_app, orb_true_r in Hp.
    + set (t2 := rev m ++ [c]) in *. assert (list.last t2 = Some c) as El by apply last_snoc.
      destruct (Z.eqb_spec (Z.of_nat n) 0) as [E0|E0]; cbn [negb].
      * exists t2, (Z.of_nat n), n. split_and!; try done; try congruence; try lia. destruct (has_point t2) eqn:Hp; [lia|]. destruct (has_point_false t2 Hp). lia.
      * destruct (has_point t2) eqn:Hp.
        -- exists t2, 0, n. split_and!; try done; try congruence; lia.
        -- exists t2, (Z.of_nat n), n. destruct (has_point_false t2 Hp). split_and!; try done; try congruence; lia.
Qed.

(** ** The loop over the digits *)

(** What the last significant digit is adjusted by, when non-zero digits follow it. *)
Definition sticky (q : Z) : Z := if q mod 5 =? 0 then 1 else 0.

Section Correct.
Variable max_words : Z.
Hypothesis Hmax : 4 <= max_words < 2 ^ 20.
#[local] Abbreviation big_ok := (big_ok max_words).
#[local] Abbreviation is_big := (is_big max_words).

Lemma is_big_add b b' z v : is_big b z -> big_ok b' -> same max_words (value b') (value b + v * X 0) -> is_big b' (z + v).
Proof using Hmax.
  intros [Hb Hz] Hb' Hs. split; [done|]. apply value_eq; [done..|]. eapply same_trans; [exact Hs|]. change (X 0) with 1. rewrite Z.mul_1_r.
  apply (same_add max_words Hmax). unfold same. rewrite Hz. apply Z.mod_mod. pose proof (X_pos max_words). lia.
Qed.

(** Digits that are queued go into the integer. *)
Lemma flush_ok n q b z : is_big b z -> 0 <= n <= 9 -> 0 <= q < 10 ^ n ->
  exists b', (p ← rd kTenToNth n; b ← MultiplyBy32 max_words p b; AddWithCarry32 max_words 0 q b) = Some b' /\ is_big b' (z * 10 ^ n + q).
Proof using Hmax.
  intros Hb Hn Hq. rewrite ten_table by lia. run. assert (10 ^ n <= 10 ^ 9) by (apply Z.pow_le_mono_r; lia).
  destruct (MultiplyBy32_ok max_words Hmax (10 ^ n) b z Hb) as (b1 & -> & Hb1); [lia|]. run.
  destruct (AddWithCarry32_ok max_words Hmax 0 q b1 (proj1 Hb1)) as (b2 & -> & Hb2 & Hs & _); [lia|lia|]. exists b2. split; [done|]. by apply (is_big_add b1).
Qed.

(** The state after the characters [p]. *)
Record reads (dropped sig : Z) (p : list Z) (s : reading) : Prop := {
  r_after : after_decimal_point s = has_point p;
  r_significant : significant_digits s = sig - Z.of_nat (length (digit_values p));
  r_left : 0 <= significant_digits s;
  r_exponent : exponent_adjust s = dropped - fraction p;
  r_queued : 0 <= digits_queued s < 9 /\ 0 <= queued s < 10 ^ digits_queued s;
  r_value : exists hi, is_big (big s) hi /\ hi * 10 ^ digits_queued s + queued s =
    integer p + (match rest_ s with [] => 0 | _ => if 0 <? significant_digits s then 0 else sticky (integer p) end)
}.

Lemma read_digit_ok dropped sig t p s c rest : number_ok t -> 0 <= dropped < 2 ^ 31 -> Z.of_nat (length t) < 2 ^ 31 -> t = p ++ rest_ s -> rest_ s = c :: rest -> 0 < significant_digits s -> reads dropped sig p s ->
  exists s', read_digit max_words s = Some s' /\ rest_ s' = rest /\ reads dropped sig (p ++ [c]) s'.
Proof using Hmax.
  intros Ht Hd31 Hlt Et Er Hsig [H1 H2 H2' H3 (H4 & H5) (hi & Hhi & H6)]. rewrite Er in *. rewrite (proj2 (Z.ltb_lt 0 _) Hsig), Z.add_0_r in H6.
  subst t. destruct (number_app _ _ Ht) as [_ Hr]. assert (c = 46 \/ 48 <= c <= 57) as Hc by (destruct Hr as [Hr _]; by apply Forall_cons_iff in Hr as [? _]).
  unfold read_digit. rewrite Er. destruct (Z.eqb_spec c 46) as [->|Hne].
  - eexists. split; [done|]. split; [done|]. split; cbn [after_decimal_point significant_digits exponent_adjust digits_queued queued big rest_].
    + by rewrite has_point_app, orb_true_r.
    + by rewrite digit_values_app, digit_values_point, app_nil_r.
    + done.
    + rewrite fraction_app, H3. destruct (has_point p) eqn:Hp.
      * by pose proof (number_point _ _ Ht Hp).
      * destruct (has_point_false p Hp). cbn. lia.
    + done.
    + exists hi. split; [done|]. rewrite H6, integer_app. change (integer [46]) with 0. change (10 ^ _) with 1 at 1.
      rewrite (proj2 (Z.ltb_lt 0 _) Hsig). destruct rest; lia.
  - cbv zeta. assert (48 <= c <= 57) as Hd by lia. assert (swrap 8 (c - 48) = c - 48) as -> by (unfold swrap; rewrite Z.mod_small; lia).
    set (d := c - 48) in *. assert (0 <= d <= 9) as Hdr by lia.
    set (last_one := (significant_digits s - 1 =? 0) && match rest with [] => false | _ => true end).
    set (d' := if last_one && ((d =? 0) || (d =? 5)) then d + 1 else d).
    assert (0 <= d' <= 9) as Hd' by (unfold d'; destruct (last_one && _) eqn:E; lia).
    assert (10 ^ digits_queued s <= 10 ^ 8) as Hp8 by (apply Z.pow_le_mono_r; lia).
    assert (uadd 32 (umul 32 10 (queued s)) (wrap 32 d') = 10 * queued s + d') as Eq.
    { unfold uadd, umul. rewrite (wrap_small 32 d'), (wrap_small 32 (10 * queued s)) by lia. apply wrap_small. lia. }
    rewrite Eq. clear Eq.
    assert (0 <= 10 * queued s + d' < 10 ^ (digits_queued s + 1)) as Hq' by (rewrite Z.pow_add_r by lia; change (10 ^ 1) with 10; lia).
    assert (digit_values (p ++ [c]) = digit_values p ++ [d]) as Edv by (by rewrite digit_values_app, digit_values_digit).
    assert (integer (p ++ [c]) = integer p * 10 + d) as Ei.
    { rewrite integer_app, digit_values_digit by done. unfold integer at 2. rewrite digit_values_digit by done. cbn. lia. }
    assert (has_point (p ++ [c]) = has_point p) as Ehp by (rewrite has_point_app; cbn; by rewrite (proj2 (Z.eqb_neq c 46) Hne), orb_false_r).
    assert ((if after_decimal_point s then chk 32 (exponent_adjust s - 1) else Some (exponent_adjust s)) = Some (dropped - fraction (p ++ [c]))) as Ee.
    { rewrite length_app in Hlt. cbn [length] in Hlt. pose proof (fraction_bound p) as Hfb. rewrite fraction_app, H1, H3. destruct (has_point p) eqn:Hp; [cbn [length]; rewrite chk_Some by (change (32 - 1) with 31; lia); f_equal; lia|].
      destruct (has_point_false p Hp). cbn. rewrite (proj2 (Z.eqb_neq c 46) Hne). f_equal. lia. }
    rewrite Ee. run.
    assert (hi * 10 ^ (digits_queued s + 1) + (10 * queued s + d') = integer (p ++ [c]) +
      match rest with [] => 0 | _ => if 0 <? significant_digits s - 1 then 0 else sticky (integer (p ++ [c])) end) as Ev.
    { rewrite Ei, <- H6, Z.pow_add_r by lia. change (10 ^ 1) with 10.
      assert (d' = d + match rest with [] => 0 | _ => if 0 <? significant_digits s - 1 then 0 else sticky ((hi * 10 ^ digits_queued s + queued s) * 10 + d) end) as ->; [|ring].
      unfold d', last_one, sticky. destruct rest as [|x rest']; [by rewrite andb_false_r, Z.add_0_r|]. rewrite andb_true_r.
      assert (((hi * 10 ^ digits_queued s + queued s) * 10 + d) mod 5 = d mod 5) as ->.
      { rewrite Z.add_mod by lia. rewrite <- Z.mul_mod_idemp_r by lia. change (10 mod 5) with 0. rewrite Z.mul_0_r. change (0 mod 5) with 0. rewrite Z.add_0_l. by apply Z.mod_mod. }
      assert ((d mod 5 =? 0) = ((d =? 0) || (d =? 5))) as -> by (clear - Hdr; assert (d = 0 \/ d = 1 \/ d = 2 \/ d = 3 \/ d = 4 \/ d = 5 \/ d = 6 \/ d = 7 \/ d = 8 \/ d = 9) as H by lia; destruct_or! H; by rewrite H).
      destruct (Z.eqb_spec (significant_digits s - 1) 0), (Z.ltb_spec 0 (significant_digits s - 1)); cbn [andb]; try lia. destruct ((d =? 0) || (d =? 5)); lia. }
    assert (significant_digits s - 1 = sig - Z.of_nat (length (digit_values (p ++ [c])))) as Es by (rewrite Edv, length_app; cbn [length]; lia).
    unfold kMaxSmallPowerOfTen. destruct (Z.eqb_spec (digits_queued s + 1) 9) as [E9|E9].
    + rewrite E9 in *. destruct (flush_ok 9 (10 * queued s + d') (big s) hi Hhi ltac:(lia) Hq') as (b' & Eb & Hb').
      destruct (rd kTenToNth 9) as [p10|]; [|done]. rewrite bind_value in Eb. run. destruct (MultiplyBy32 max_words p10 (big s)) as [b1|]; [|done].
      rewrite bind_value in Eb. run. rewrite Eb. run. eexists. split; [done|]. split; [done|].
      split; cbn [after_decimal_point significant_digits exponent_adjust digits_queued queued big rest_]; [congruence|done|lia|done|lia|].
      exists (hi * 10 ^ 9 + (10 * queued s + d')). split; [done|]. change (10 ^ 0) with 1. rewrite <- Ev. lia.
    + eexists. split; [done|]. split; [done|].
      split; cbn [after_decimal_point significant_digits exponent_adjust digits_queued queued big rest_]; [congruence|done|lia|done|split; [lia|done]|].
      exists hi. split; [done|exact Ev].
Qed.

Definition more (s : reading) : bool := match rest_ s with [] => false | _ => 0 <? significant_digits s end.

Lemma read_loop_ok dropped sig t b : number_ok t -> 0 < sig -> 0 <= dropped < 2 ^ 31 -> Z.of_nat (length t) < 2 ^ 31 -> is_big b 0 ->
  exists s p, while_ (length t) more (read_digit max_words)
      {| rest_ := t; significant_digits := sig; after_decimal_point := false; exponent_adjust := dropped; queued := 0; digits_queued := 0; big := b |} = Some s /\
    t = p ++ rest_ s /\ reads dropped sig p s /\ more s = false.
Proof using Hmax.
  intros Ht Hsig Hd31 Hlt Hb.
  match goal with |- context [while_ ?f ?cond ?body ?s0] =>
    destruct (while_rule (fun s => exists p, t = p ++ rest_ s /\ reads dropped sig p s) (fun s => length (rest_ s)) cond body f s0) as (s & -> & (p & Et & Hs) & Hend) end.
  - exists []. split; [done|]. split; try done; cbn [after_decimal_point significant_digits exponent_adjust digits_queued queued big rest_]; try (cbn; lia).
    exists 0. split; [done|]. rewrite (proj2 (Z.ltb_lt 0 sig) Hsig). by destruct t.
  - done.
  - intros s (p & Et & Hs) Hc. unfold more in Hc. destruct (rest_ s) as [|c rest] eqn:Er; [done|].
    destruct (read_digit_ok dropped sig t p s c rest) as (s' & -> & Er' & Hs'); try done; [by rewrite Er|lia|]. exists s'. split; [done|]. split.
    + exists (p ++ [c]). split; [by rewrite Et, Er', <- app_assoc|done].
    + rewrite Er'. cbn [length]. lia.
  - by exists s, p.
Qed.

(** The characters that are not read make a non-zero integer. *)
Lemma rest_pos t p rest : number_ok t -> t = p ++ rest -> rest <> [] -> list.last t <> Some 48 -> list.last t <> Some 46 -> 0 < integer rest /\ (0 < length (digit_values rest))%nat.
Proof using.
  intros Ht -> Hne H1 H2. apply number_app in Ht as [_ [Hr _]]. destruct rest as [|c m _] using rev_ind; [done|]. rewrite app_assoc, last_snoc in H1, H2.
  apply Forall_app in Hr as [Hm Hc]. apply Forall_cons_iff in Hc as [Hc _]. assert (c <> 46 /\ c <> 48) as [Hc1 Hc2] by (split; congruence).
  pose proof (integer_bound m Hm). rewrite integer_app, digit_values_app, length_app, digit_values_digit by done. cbn [length]. split; [|lia].
  unfold integer at 2. rewrite digit_values_digit by done. cbn. lia.
Qed.

(** The digits still queued when the loop ends. *)
Lemma last_flush_ok s hi : is_big (big s) hi -> 0 <= digits_queued s < 9 -> 0 <= queued s < 10 ^ digits_queued s ->
  exists b', (if negb (digits_queued s =? 0) then p ← rd kTenToNth (digits_queued s); b ← MultiplyBy32 max_words p (big s); AddWithCarry32 max_words 0 (queued s) b
              else Some (big s)) = Some b' /\ is_big b' (hi * 10 ^ digits_queued s + queued s).
Proof using Hmax.
  intros Hb Hd Hq. destruct (Z.eqb_spec (digits_queued s) 0) as [E|E]; cbn [negb]; [|apply flush_ok; [done|lia|done]].
  exists (big s). split; [done|]. rewrite E in *. change (10 ^ 0) with 1 in *. replace (hi * 1 + queued s) with hi by lia. done.
Qed.

Lemma ReadDigits_ok text sig b : number_ok text -> Z.of_nat (length text) < 2 ^ 31 -> 0 < sig <= Digits10 max_words + 1 -> big_ok b ->
  exists e b' k, ReadDigits max_words text sig b = Some (e, b') /\ e + fraction text = Z.of_nat k /\ (k <= length (digit_values text))%nat /\
    let q := integer text / 10 ^ Z.of_nat k in let r := integer text mod 10 ^ Z.of_nat k in
    is_big b' (q + (if r =? 0 then 0 else sticky q)) /\ (Z.of_nat (length (digit_values text)) <= sig -> r = 0) /\
    0 <= q < 10 ^ sig /\ (head (digit_values (drop_zeros text)) <> Some 0 -> r <> 0 -> 10 ^ (sig - 1) <= q).
Proof using Hmax.
  intros Hok Hlen0 Hsig Hb. unfold ReadDigits. rewrite (proj2 (Z.ltb_ge _ _)) by lia.
  destruct (SetToZero_ok max_words Hmax b Hb) as (b0 & -> & Hb0 & Hv0). run. assert (is_big b0 0) as Hz0 by (rewrite <- Hv0; by apply value_is).
  destruct (trim_range_ok text Hok Hlen0) as (t & dropped & k & -> & Hd31 & Hlt & Ht & Ei & Ek & Hdr & H48 & H46 & Hlen & zz & Hpre). run.
  destruct (read_loop_ok dropped sig t b0 Ht ltac:(lia) ltac:(lia) ltac:(lia) Hz0) as (s & p & Hs & Et & [R1 R2 R2' R3 (R4 & R5) (hi & R6 & R7)] & Hend).
  unfold more in Hs. rewrite Hs. run. destruct (last_flush_ok s hi R6 R4 R5) as (b' & -> & Hb'). run. rewrite R7 in Hb'. clear R7 Hs.
  assert (0 <= integer p < 10 ^ sig) as Hps.
  { pose proof Ht as Ht'. rewrite Et in Ht'. apply number_app in Ht' as [[Hp _] _]. pose proof (integer_bound p Hp) as [Hp1 Hp2]. split; [done|]. eapply Z.lt_le_trans; [exact Hp2|]. apply Z.pow_le_mono_r; lia. }
  destruct (rest_ s) as [|c rest] eqn:Er.
  - cbn [negb andb]. rewrite app_nil_r in Et. subst p. do 2 eexists. exists k. split; [done|]. split; [rewrite R3; lia|]. split; [lia|]. cbv zeta.
    assert (0 < 10 ^ Z.of_nat k) by (apply Z.pow_pos_nonneg; lia). rewrite Ei, Z.div_mul, Z.mod_mul by lia. split; [cbn [Z.eqb]; done|]. split; [done|]. by split.
  - unfold more in Hend. rewrite Er in Hend. rewrite Hend in Hb'. cbn [negb andb]. destruct (rest_pos t p (c :: rest) Ht Et ltac:(done) H48 H46) as [Hpos Hlen2].
    set (rest' := c :: rest) in *. set (D := length (digit_values rest')) in *. rewrite Et in Ht. pose proof (number_app _ _ Ht) as [_ Hrest]. rewrite Et, digit_values_app, length_app in Hlen. fold D in Hlen.
    pose proof (integer_bound rest' (proj1 Hrest)) as Hrb. fold D in Hrb.
    assert ((if negb (after_decimal_point s) then exponent_adjust s + find_point rest' else exponent_adjust s) + fraction text = Z.of_nat (k + D)) as Ee.
    { rewrite R1, R3. rewrite Et, fraction_app in Ek. pose proof (find_point_ok rest' Hrest). fold D in H. destruct (has_point p) eqn:Hp; cbn [negb].
      - pose proof (number_point _ _ Ht Hp) as Hpr. destruct (has_point_false _ Hpr). lia.
      - destruct (has_point_false _ Hp). lia. }
    assert ((if negb (after_decimal_point s) then swrap 32 (exponent_adjust s + find_point rest') else exponent_adjust s) = Z.of_nat (k + D) - fraction text) as Ea.
    { pose proof (fraction_bound text). assert (k + D <= length text)%nat by (pose proof (digit_values_length text); lia).
      destruct (negb (after_decimal_point s)); [|lia]. unfold swrap. change (2 ^ (32 - 1)) with (2 ^ 31). rewrite Z.mod_small by lia. lia. }
    rewrite Ea. do 2 eexists. exists (k + D)%nat. split; [done|]. split; [lia|]. split; [lia|]. cbv zeta.
    assert (0 < 10 ^ Z.of_nat k) as Hk by (apply Z.pow_pos_nonneg; lia). assert (0 < 10 ^ Z.of_nat D) as HD by (apply Z.pow_pos_nonneg; lia).
    assert (integer text = integer rest' * 10 ^ Z.of_nat k + integer p * 10 ^ Z.of_nat (k + D)) as ->.
    { rewrite Ei, Et, integer_app, Nat2Z.inj_add, Z.pow_add_r by lia. fold D. ring. }
    assert (0 < integer rest' * 10 ^ Z.of_nat k < 10 ^ Z.of_nat (k + D)) as Hr by (rewrite Nat2Z.inj_add, Z.pow_add_r by lia; nia).
    rewrite Z.div_add, Z.mod_add, Z.div_small, Z.mod_small, Z.add_0_l by lia. rewrite (proj2 (Z.eqb_neq _ 0)) by lia. split; [done|]. split; [intros Hd; lia|]. split; [done|]. intros Hhead _.
    apply Z.ltb_ge in Hend. assert (Z.of_nat (length (digit_values p)) = sig) as Esig by lia. apply (first_digit_bound p sig); [done|apply number_app in Ht as [[Hp _] _]; exact Hp| |].
    2: lia. intros E. apply Hhead. rewrite Hpre, Et, !digit_values_app. destruct (digit_values p) as [|x l]; [cbn [length] in Esig; lia|]. exact E.
Qed.
End Correct.
