(* ===== verification/BigSpec.v ===== *)
(** * What [BigUnsigned] promises

    The integer type of the number parser against arithmetic on integers, for the two widths that the library instantiates. *)
From S2P Require Import Prelude Words Uint128Div Loops Ascii NumFormat BigUnsigned BigMul BigPow BigText BigRead.

(** The widths that the class admits. *)
Definition width_ok (max_words : Z) : Prop := max_words = 4 \/ max_words = 84.

Lemma width_range max_words : width_ok max_words -> 4 <= max_words < 2 ^ 20.
Proof. intros [-> | ->]; lia. Qed.
Create HintDb big.
#[export] Hint Resolve width_range : big.

Lemma width_digits max_words : width_ok max_words -> X max_words <= 10 ^ (Digits10 max_words + 1) /\ 10 ^ Digits10 max_words <= X max_words /\ 0 < Digits10 max_words.
Proof. intros [-> | ->]; apply conj; [|apply conj| |apply conj]; apply Z.leb_le || apply Z.ltb_lt; vm_compute; reflexivity. Qed.

(** A product by a number with at least one word. *)
Lemma MultiplyByBig_ok max_words N b z other : width_ok max_words -> width_ok N -> is_big max_words b z -> big_ok N other -> 0 < size_ other ->
  exists b', MultiplyByBig max_words other b = Some b' /\ is_big max_words b' (z * value other).
Proof.
  intros Hw HN Hb Ho Hsize. pose proof (ok_length _ _ Ho). pose proof (ok_size _ _ Ho). unfold MultiplyByBig.
  set (ws := take (Z.to_nat (size_ other)) (words_ other)).
  assert (Z.of_nat (length ws) = size_ other) as El by (unfold ws; rewrite length_take; lia).
  assert (wval ws = value other) as Ev by (apply (value_low N); [by apply width_range|done|lia]).
  rewrite <- Ev, <- El. apply MultiplyByWords_ok; [by apply width_range|done|apply Forall_take, Ho|lia|].
  intros j Hj. unfold ws. symmetry. apply lookup_take_lt. lia.
Qed.

(** A digit string without zeroes at its front has no more digits than its value needs. *)
Lemma digits_length l n : Forall (fun d => 0 <= d < 10) l -> head l <> Some 0 -> 0 <= n -> text_value 10 l < 10 ^ n -> Z.of_nat (length l) <= n.
Proof.
  intros Hl Hh Hn Hv. destruct l as [|d l]; [cbn; lia|]. apply Forall_cons_iff in Hl as [Hd Hl]. assert (d <> 0) as Hd0 by (cbn in Hh; congruence).
  change (d :: l) with ([d] ++ l) in Hv. rewrite text_value_app in Hv. change (text_value 10 [d]) with (0 * 10 + d) in Hv. pose proof (digits_bound l Hl) as Hb.
  cbn [length]. assert (10 ^ Z.of_nat (length l) < 10 ^ n) as Hlt by nia. apply Z.pow_lt_mono_r_iff in Hlt; lia.
Qed.

(** ** Text of digits *)

Lemma digits_number text : Forall (fun c => 48 <= c <= 57) text -> number_ok text /\ has_point text = false /\ digit_values text = (fun c => c - 48) <$> text.
Proof.
  intros H. assert (has_point text = false) as Hp.
  { induction H as [|c l Hc Hl IH]; [done|]. cbn [has_point existsb]. fold (has_point l). rewrite IH. lia. }
  split; [split|split; [done|]].
  - revert H. apply Forall_impl. lia.
  - intros p r ->. by rewrite has_point_app, orb_true_r in Hp.
  - unfold digit_values. f_equal. clear Hp. induction H as [|c l Hc Hl IH]; [done|]. rewrite filter_cons_True by lia. by rewrite IH.
Qed.

(** The constructor from digits, no more of them than [Digits10() + 1]. *)
Lemma big_of_text_ok max_words text : width_ok max_words -> Forall (fun c => 48 <= c <= 57) text -> text <> [] -> Z.of_nat (length text) <= Digits10 max_words + 1 ->
  exists b, big_of_text max_words text = Some b /\ is_big max_words b (text_value 10 ((fun c => c - 48) <$> text)).
Proof.
  intros Hw Ht Hne Hlen. destruct (digits_number text Ht) as (Hok & Hp & Hd). destruct (has_point_false text Hp) as [Hf Hl].
  destruct (width_digits max_words Hw) as (_ & _ & HD). unfold big_of_text.
  assert (forallb ascii_isdigit text = true) as -> by (rewrite forallb_forall; intros c Hin; rewrite List.Forall_forall in Ht; specialize (Ht c Hin); unfold ascii_isdigit; lia).
  destruct text as [|c text']; [done|]. set (text := c :: text') in *. cbn [negb orb].
  pose proof (width_range max_words Hw) as Hmax.
  destruct (ReadDigits_ok max_words Hmax text (Digits10 max_words + 1) (big_default max_words) Hok) as (e & b & k & -> & Ee & Hk & Hb & Hr & _); [destruct Hw as [-> | ->]; [change (Digits10 4) with 38 in Hlen|change (Digits10 84) with 809 in Hlen]; lia|lia|by apply big_default_ok|].
  rewrite Hl in *. rewrite Hf, Z.add_0_r in Ee. subst e. run. specialize (Hr Hlen). rewrite Hr in Hb. cbn [Z.eqb] in Hb. rewrite Z.add_0_r in Hb.
  assert (Digits10 max_words < 2 ^ 30) as HDb by (destruct Hw as [-> | ->]; by vm_compute).
  assert (integer text = integer text / 10 ^ Z.of_nat k * 10 ^ Z.of_nat k) as Ei by (pose proof (Z.div_mod (integer text) (10 ^ Z.of_nat k)) as E; rewrite Hr in E; specialize (E ltac:(lia)); lia).
  assert (text_value 10 ((fun c => c - 48) <$> text) = integer text) as -> by (unfold integer; by rewrite Hd).
  destruct (Z.ltb_spec 0 (Z.of_nat k)) as [Hk0|Hk0].
  - destruct (MultiplyByTenToTheNth_ok max_words Hmax (Z.of_nat k) b _ Hb) as (b' & -> & Hb'); [lia|]. exists b'. split; [done|]. by rewrite Ei.
  - assert (k = 0)%nat as -> by lia. change (10 ^ Z.of_nat 0) with 1 in *. rewrite Z.div_1_r in Hb. by exists b.
Qed.

(** The first power of five that is copied has no room in four words from the exponent 81 on. *)
Lemma five_out_of_room n : 81 <= n -> FiveToTheNth 4 n = None.
Proof.
  intros Hn. unfold FiveToTheNth, kLargePowerOfFiveStep, kLargestPowerOfFiveIndex. destruct (Z.to_nat n) as [|f] eqn:Ef; [lia|]. cbn [while_].
  rewrite (proj2 (Z.leb_le 27 n)) by lia. set (i := Z.min (Z.quot n 27) 20). assert (3 <= i) as Hi by (unfold i; rewrite Z.quot_div_nonneg by lia; assert (3 <= n / 27) by (apply Z.div_le_lower_bound; lia); lia).
  unfold copy_n, LargePowerOfFiveSize. change (Z.of_nat (length (words_ (big_of 4 1)))) with 4. by rewrite (proj2 (Z.leb_gt (2 * i) 4)), andb_false_r by lia.
Qed.

(** ** The properties *)

(** C15: The arithmetic of [BigUnsigned] (of 4 or 84 words) is arithmetic modulo 2^(32 * max_words): the default and the 64-bit constructor, [SetToZero], the products by a 32-bit number,
    by a 64-bit number and by a [BigUnsigned] of either width with at least one word (not by one that has none, which is left as it is), the left shift, the products by a power of five or ten,
    and the division by a 32-bit number other than zero, whose remainder is returned. The static [FiveToTheNth] gives every power of five for 84 words, and those below 5^81 for 4 words; from
    5^81 on, with 4 words, it writes out of bounds. Every result is well formed: [size_] within the words, and zero above it. *)
Theorem big_unsigned_arithmetic_correct max_words b z : width_ok max_words -> is_big max_words b z ->
  is_big max_words (big_default max_words) 0 /\
  (forall v, 0 <= v < 2 ^ 64 -> is_big max_words (big_of max_words v) v) /\
  (exists b', SetToZero b = Some b' /\ is_big max_words b' 0) /\
  (forall v, 0 <= v < 2 ^ 32 -> exists b', MultiplyBy32 max_words v b = Some b' /\ is_big max_words b' (z * v)) /\
  (forall v, 0 <= v < 2 ^ 64 -> exists b', MultiplyBy64 max_words v b = Some b' /\ is_big max_words b' (z * v)) /\
  (forall N other, width_ok N -> big_ok N other -> 0 < size_ other -> exists b', MultiplyByBig max_words other b = Some b' /\ is_big max_words b' (z * value other)) /\
  (forall count, 0 <= count < 2 ^ 31 -> exists b', ShiftLeft max_words count b = Some b' /\ is_big max_words b' (z * 2 ^ count)) /\
  (forall n, 0 <= n -> exists b', MultiplyByFiveToTheNth max_words n b = Some b' /\ is_big max_words b' (z * 5 ^ n)) /\
  (forall n, 0 <= n < 2 ^ 31 -> exists b', MultiplyByTenToTheNth max_words n b = Some b' /\ is_big max_words b' (z * 10 ^ n)) /\
  (forall n, 0 <= n -> max_words = 84 \/ n < 81 -> exists b', FiveToTheNth max_words n = Some b' /\ is_big max_words b' (5 ^ n)) /\
  (forall n, 81 <= n -> max_words = 4 -> FiveToTheNth max_words n = None) /\
  (forall d, 0 < d < 2 ^ 32 -> exists b', DivMod max_words d b = Some (value b mod d, b') /\ big_ok max_words b' /\ value b' = value b / d).
Proof.
  intros Hw Hb. pose proof (width_range _ Hw) as Hmax. pose proof (proj1 Hb) as Hok.
  split; [by apply big_default_ok|]. split; [intros; by apply big_of_ok|].
  split; [destruct (SetToZero_ok _ Hmax b Hok) as (b' & E & Hb' & Hv); exists b'; split; [done|]; rewrite <- Hv; by apply value_is|].
  split; [intros; by apply MultiplyBy32_ok|]. split; [intros; by apply MultiplyBy64_ok|]. split; [intros; by apply (MultiplyByBig_ok _ N)|].
  split; [intros; by apply ShiftLeft_ok|]. split; [intros; by apply MultiplyByFiveToTheNth_ok|]. split; [intros; by apply MultiplyByTenToTheNth_ok|].
  split.
  - intros n Hn Hroom. apply FiveToTheNth_ok; [done|done|]. destruct Hw as [-> | ->]; [|lia]. assert (n / 27 < 3) by (apply Z.div_lt_upper_bound; lia). lia.
  - split; [intros n Hn ->; by apply five_out_of_room|].
    intros d Hd. destruct (DivMod_ok _ Hmax d b Hok Hd) as (b' & E & Hb' & Hv & _). by exists b'.
Qed.

Lemma big_unsigned_arithmetic_correct_witness : width_ok 4 /\ is_big 4 (big_of 4 (2 ^ 64 - 1)) (2 ^ 64 - 1) /\
  exists b, MultiplyByTenToTheNth 4 30 (big_of 4 (2 ^ 64 - 1)) = Some b /\ is_big 4 b ((2 ^ 64 - 1) * 10 ^ 30).
Proof.
  assert (width_ok 4) as Hw by by left. assert (is_big 4 (big_of 4 (2 ^ 64 - 1)) (2 ^ 64 - 1)) as Hb by (apply big_of_ok; lia).
  split; [exact Hw|]. split; [exact Hb|]. destruct (big_unsigned_arithmetic_correct 4 _ _ Hw Hb) as (_ & _ & _ & _ & _ & _ & _ & _ & H & _). apply H. lia.
Defined.

(** C18: [Compare], [operator==] and [operator<] of two [BigUnsigned]s, of the same width or of different widths, decide the order and the equality of their values. *)
Theorem big_unsigned_order_correct N M lhs rhs : width_ok N -> width_ok M -> big_ok N lhs -> big_ok M rhs ->
  Compare lhs rhs = Some (if value lhs <? value rhs then -1 else if value rhs <? value lhs then 1 else 0) /\
  big_eq lhs rhs = Some (value lhs =? value rhs) /\ big_lt lhs rhs = Some (value lhs <? value rhs).
Proof.
  intros HN HM Hl Hr. split; [|split].
  - by apply (Compare_ok N M); auto with big.
  - by apply (big_eq_ok N M); auto with big.
  - by apply (big_lt_ok N M); auto with big.
Qed.

Lemma big_unsigned_order_correct_witness : big_ok 4 (big_of 4 7) /\ big_ok 84 (big_of 84 (2 ^ 32)) /\ big_lt (big_of 4 7) (big_of 84 (2 ^ 32)) = Some true.
Proof.
  assert (big_ok 4 (big_of 4 7)) as H1 by (apply big_of_ok; lia). assert (big_ok 84 (big_of 84 (2 ^ 32))) as H2 by (apply big_of_ok; lia).
  split; [exact H1|]. split; [exact H2|]. destruct (big_unsigned_order_correct 4 84 _ _ (or_introl eq_refl) (or_intror eq_refl) H1 H2) as (_ & _ & ->). vm_compute. reflexivity.
Defined.

(** C16: [to_string] writes the decimal digits of the value, without leading zeroes ("0" for zero), and the constructor from text reads them back: the
    [BigUnsigned] it makes has the same value. [Digits10() + 1] digits are enough for every value of either width. *)
Theorem big_unsigned_text_correct max_words b : width_ok max_words -> big_ok max_words b ->
  exists text b', to_string max_words b = Some text /\ Forall (fun c => 48 <= c <= 57) text /\ (head text = Some 48 -> text = [48]) /\
    text_value 10 ((fun c => c - 48) <$> text) = value b /\ big_of_text max_words text = Some b' /\ big_ok max_words b' /\ value b' = value b.
Proof.
  intros Hw Hb. pose proof (width_range _ Hw) as Hmax. destruct (width_digits _ Hw) as (HD & _ & HD0). pose proof (value_range _ Hmax b Hb) as Hr.
  destruct (to_string_ok _ Hmax b Hb) as (text & Et & Hd & Hv & Hh & H0).
  assert (head text = Some 48 -> text = [48]) as Hhead by (intros H; destruct (decide (value b = 0)); [by apply H0|by destruct (Hh n)]).
  assert (text <> []) as Hne by (intros ->; destruct (decide (value b = 0)) as [E|E]; [by specialize (H0 E)|by cbn in Hv]).
  assert (Z.of_nat (length text) <= Digits10 max_words + 1) as Hlen.
  { destruct (decide (value b = 0)) as [E|E]; [rewrite (H0 E); cbn [length]; lia|]. specialize (Hh E). rewrite <- (length_fmap (fun c => c - 48)).
    apply digits_length; [|destruct text as [|c l]; [done|]; cbn in *; intros [= E2]; apply Hh; f_equal; lia|lia|rewrite Hv; lia].
    apply Forall_fmap. revert Hd. apply Forall_impl. intros c Hc. cbn. lia. }
  destruct (big_of_text_ok _ text Hw Hd Hne Hlen) as (b' & Eb & Hb' & Hv'). exists text, b'. do 5 (split; [done|]). split; [done|].
  rewrite Hv', Hv. by apply Z.mod_small.
Qed.

Lemma big_unsigned_text_correct_witness : big_ok 4 (big_of 4 (2 ^ 64 - 1)) /\ exists text b', to_string 4 (big_of 4 (2 ^ 64 - 1)) = Some text /\
  big_of_text 4 text = Some b' /\ value b' = 2 ^ 64 - 1.
Proof.
  assert (big_ok 4 (big_of 4 (2 ^ 64 - 1))) as H by (apply big_of_ok; lia). split; [exact H|].
  destruct (big_unsigned_text_correct 4 _ (or_introl eq_refl) H) as (text & b' & Et & _ & _ & _ & Eb & _ & Ev). exists text, b'. split; [exact Et|]. split; [exact Eb|].
  rewrite Ev. vm_compute. reflexivity.
Defined.

(** C17: [ReadDigits] on fewer than 2^31 characters (its counts are of type [int]), digits with at most one decimal point, for a number of significant digits that the type can hold: the text is the integer q, times ten to the returned
    exponent, plus a rest r that is smaller than the last digit of q. The [BigUnsigned] is q when the rest is zero, as it is when the text has no more digits than [significant_digits]
    (leading zeroes counted); otherwise a q that ends in 0 or 5 is read as q + 1, so that it is never mistaken for a number halfway between two floating point numbers.
    q has at most [significant_digits] digits, and that many when the rest is not zero and the first digit read is not zero: zeroes after the decimal point are counted. *)
Theorem read_digits_correct max_words text significant_digits b : width_ok max_words -> number_ok text -> Z.of_nat (length text) < 2 ^ 31 -> 0 < significant_digits <= Digits10 max_words + 1 -> big_ok max_words b ->
  exists e b' k, ReadDigits max_words text significant_digits b = Some (e, b') /\ e + fraction text = Z.of_nat k /\ (k <= length (digit_values text))%nat /\
    let q := integer text / 10 ^ Z.of_nat k in let r := integer text mod 10 ^ Z.of_nat k in
    is_big max_words b' (if r =? 0 then q else if q mod 5 =? 0 then q + 1 else q) /\ (Z.of_nat (length (digit_values text)) <= significant_digits -> r = 0) /\
    0 <= q < 10 ^ significant_digits /\ (head (digit_values (drop_zeros text)) <> Some 0 -> r <> 0 -> 10 ^ (significant_digits - 1) <= q).
Proof.
  intros Hw Ht Hlen Hsig Hb. destruct (ReadDigits_ok _ (width_range _ Hw) text significant_digits b Ht Hlen Hsig Hb) as (e & b' & k & E & Ee & Hk & Hq & Hr & Hrange).
  exists e, b', k. split; [done|]. split; [done|]. split; [done|]. cbv zeta in *. split; [|by split]. unfold sticky in Hq.
  destruct (_ =? 0); [by rewrite Z.add_0_r in Hq|]. destruct (_ =? 0); [done|by rewrite Z.add_0_r in Hq].
Qed.

Lemma read_digits_correct_witness : exists e b', ReadDigits 4 [48; 50; 53; 46; 48; 49; 48] 3 (big_default 4) = Some (e, b') /\ e = -1 /\ value b' = 251.
Proof.
  assert (number_ok [48; 50; 53; 46; 48; 49; 48]) as Ht.
  { split; [repeat (constructor; [lia|]); constructor|]. intros p r E. do 7 (destruct p as [|? p]; simplify_list_eq; try done). by destruct p. }
  destruct (read_digits_correct 4 _ 3 (big_default 4) (or_introl eq_refl) Ht) as (e & b' & k & E & Ee & _ & Hq & _); [reflexivity|vm_compute; split; [reflexivity|discriminate]|apply big_default_ok; lia|].
  exists e, b'. split; [exact E|]. assert (ReadDigits 4 [48; 50; 53; 46; 48; 49; 48] 3 (big_default 4) = Some (-1, {| size_ := 1; words_ := [251; 0; 0; 0] |})) as E2 by (vm_compute; reflexivity).
  rewrite E2 in E. injection E as <- <-. split; [reflexivity|]. vm_compute. reflexivity.
Defined.

(** ** Corners of the class *)

(** A product by a [BigUnsigned] that is zero and has no words keeps the other factor. *)
Lemma multiply_by_empty : MultiplyByBig 4 (big_default 4) (big_of 4 5) = Some (big_of 4 5).
Proof. reflexivity. Qed.

(** The first power of five that is copied has no room in four words from the exponent 81 on. *)
Lemma five_to_the_81 : FiveToTheNth 4 80 <> None /\ FiveToTheNth 4 81 = None.
Proof. split; [discriminate|reflexivity]. Qed.
